(* ===== verification/_CoqProject ===== *)
-Q . S2P
Prelude.v
Crc64.v
Intset.v
Util.v
Glob.v
Dseg.v
Adlist.v
LocklessList.v
PCQueue.v
InvertedIndex.v
RedisCluster.v
Dict.v
Sds.v
Zipmap.v
Ziplist.v
Lzf.v
Double.v
Zskiplist.v
SetType.v
HashType.v
ListType.v
ListCommands.v
Rdb.v
Retrieval.v
Plugins.v
Engine.v
Client.v
Proto.v
Reader.v
Hiredis.v
Redispp.v
Multi.v
