(* ===== verification/Prelude.v ===== *)
(** * The recommendation engine and its Redis server, verified

    ** The program

    The repository holds a recommendation engine in C++ ([src/src]) together with the sources of
    the Redis server it stores user profiles in ([src/debug/redis/src], C) and the hiredis client
    it talks to the server with ([src/src/hiredis]).  Stories are added by add_story: the handler
    puts them on a bounded queue, a build thread takes them off and inserts them into an inverted
    index of lock-free posting lists, a cleaning thread cuts the old postings off, and the
    profiles of the stories go to leveldb.  A query reads the profiles of the user (from the Redis
    cluster, consistent hashing with fail-over) and of the story, retrieves candidates from the
    index, removes the ones already read and has a plugin rank them.  The Redis server parses
    commands from its sockets, executes them on data structures of its own, and queues the replies
    that the client parses.

    ** The files

    The files are listed in dependency order; each opens with the sources it models.

    - [Prelude] (this file): machine integers, byte lists, loads and stores, the [outcome] of code
      that can fault, shared lemmas and hints.
    - Data structures of Redis: [Intset] (intset.c), [Util] and [Glob] (util.c: numbers, glob
      patterns), [Dseg] and [Adlist] (adlist.c), [Dict] (dict.c), [Sds] (sds.c), [Zipmap]
      (zipmap.c), [Ziplist] (ziplist.c), [Lzf] (lzf_c.c, lzf_d.c), [Double] (the doubles of
      scores), [Zskiplist] (zsl* of t_zset.c), [SetType] (t_set.c on the integer set and the
      dictionary), [HashType] (t_hash.c on the ziplist and the dictionary), [ListType] (the lists of
      t_list.c on the ziplist and linked lists), [Crc64] (crc64.c), [Rdb] (rdb.c, the snapshots, on
      all of these and the streams of rio.c).
    - The commands on lists and the clients blocked on them: [ListCommands] (t_list.c with the parts
      of redis.c and networking.c that call, time out and free such clients).
    - The server and its client: [Client] (the client structure and its output, networking.c),
      [Proto] (the query parser of networking.c, command formatting of hiredis.cc), [Reader] (the
      reply parser of hiredis.cc), [Hiredis] (the format strings and the connection of hiredis.cc),
      [Redispp] (redispp.cc, the client of the engine), [Multi] (processCommand and call of
      redis.c, multi.c).
    - The engine: [LocklessList] (lockless_list.h), [PCQueue] (producer_consumer_queue.h),
      [InvertedIndex] (src/indexing), [RedisCluster] (redis_cluster.cc), [Retrieval]
      (src/retrieval), [Plugins] (algo_plugin_manager.cc), [Engine] (the storages of the profiles
      and the handlers add_story and query).

    Components meet through interfaces: [CommandProcessor] (Proto is proved against it, Multi
    implements it), [CommandProcs] and [CommandLaws] (the command procedures, used by Multi: they may
    change the configuration and may fail to return),
    [UserStore] (Engine is proved against it, RedisCluster implements it), [Socket] with the record
    [faithful] (what Hiredis and Redispp rely on; a socket with the parser of Proto behind it
    implements it), [ListOps] and [ListLaws] (the operations on a list object: ListCommands is proved
    against them, the encoded objects of ListType and plain lists of strings implement them),
    [PostingLists] (what the threads of the index do with a posting list, on nodes and on plain lists),
    [LevelDB] (a library), [ScoreOrder] and [ObjOrder] (Zskiplist).

    ** How the code is modelled

    An integer of w bits is a [Z] with its wrap-around written out ([uwrap], [swrap]); a buffer is
    the list of its bytes and every access is checked.  Code that can fault returns [option] or
    [outcome]: [None] or [Undefined] is an access out of bounds, an invalid pointer, a failing
    assert or CHECK, a signed overflow; [OutOfFuel] is a loop that did not end.  Pointers into the
    heap are addresses of a finite map or indices of an arena (Adlist, Zskiplist, LocklessList),
    where aliasing matters; otherwise a structure is the value it holds.  Threads are step
    relations on their critical sections (PCQueue; InvertedIndex, where a section that shares a lock
    is cut into what it does with one posting list) or interleavings of machine steps
    (LocklessList).  Libraries that are not under src (leveldb, Boost, Thrift, CityHash, libc's
    sort and allocator) are parameters with their documented behaviour as hypotheses, and every
    theorem with hypotheses comes with a witness.

    ** What the theorems show

    - Refinement: every sequence of operations of a data structure, from the empty one, gives the
      results of the same operations on a list, a set, a map or a queue ([intset_refines_set],
      [dict_refines_map], [adlist_refines_list], [sds_refines_list], [zipmap_refines_alist],
      [ziplist_refines_list], [zsl_refines_sorted_list], [lockless_refines_list],
      [queue_refines_bounded_fifo], [set_commands_refine], [hash_commands_refine],
      [list_commands_refine], [index_refines_lists]); because faults
      are values, each includes memory safety and, because loops have fuel, termination.  The
      arguments are within the limits each theorem names; the defects below show what happens
      beyond some of them.
    - Round trips: numbers ([string2ll_iff_ll2string]), compression ([lzf_roundtrip]), quoting
      ([sdssplitargs_repr]), snapshots of the databases ([rdb_roundtrip], [crc64_polynomial] for their
      checksum; [rdb_reports_errors] when writes or the final flush fail), commands from the client to the server ([command_stream_roundtrip]) and
      replies back ([reply_stream_roundtrip]), however the bytes are cut into reads and writes.
      The whole way: [redisvFormatCommand_template] and [client_serves], the calls of the client
      on a connection give what their commands give on the server.
    - Safety on arbitrary input: [lzf_decompress_safe] (but for the empty input),
      [query_parser_safe] with [multi_robust] (processCommand adds no fault to those of the command
      procedures).
    - Clients that wait for elements of lists: [no_waiter_beside_data], the invariant of their
      registration, and [waiters_served_in_order].
    - Transactions: [transaction_correct], [exec_all_or_nothing].
    - Concurrency: [queue_no_lost_wakeup], [queue_progress], [index_history].
    - The engine: [retrieve_correct], [query_correct], [add_story_servable],
      [PutUserProfile_correct], [reload_safe], [RemoveNode_minimal],
      [GetRedisNode_failover].
    - Defects: [push_erase_race], [add_during_cleaning_lost], [put_sleeps_beside_free_slot],
      [lzf_compress_overrun], [stringmatchlen_class_overrun], [big_pipeline_refused],
      [readLongLong_overflow], [read_only_refusal_not_flagged], [insert_hazard_corrupts],
      [refused_transaction_desync], [long_double_overrun], [length_write_error_lost],
      [checksum_write_error_lost], [flush_error_lost], [seekNewline_truncates], [second_reload],
      [clock_tick_dangling_posting], [unblocked_twice], [lindex_truncated] and others evaluate the
      model on the input that shows the defect.

    ** Fuel

    A loop whose recursion is not structural takes fuel; the callers pass a bound computed from
    their arguments (the bytes left to parse, the nodes of the arena, the slots of the table, the
    32 or 64 levels of a structure, the number of clients that wait), and the theorems state that the result is [Some] or [Ok], so
    the bound is enough.  [Multi.call] nests twice at most, since a queue never holds EXEC.

    ** Not modelled

    Network, disk and process handling (ae*.c, anet.c, aof.c, the fork of BGSAVE, replication.c, bio.c,
    syncio.c, config.c, debug.c, sentinel.c, the command line tools, hiredis' net.cc and async.cc,
    server.cpp, the threads that only call the modelled operations in a loop), Lua
    (scripting.c), printf of doubles and sdscatvprintf (a parameter), the generated Thrift
    code, the vendored headers under src/include and the tests.  Sorted sets and zipmaps in snapshots are left out.  Of the commands only the ones of
    t_set.c, t_hash.c and t_list.c named in their files and multi.c are modelled; strings and sorted
    sets as commands (t_string.c, the second half of t_zset.c), sort.c, pubsub.c, slowlog.c and
    bitops.c are not: they are small beside their data structures, or need the parts of the server
    that are left out.  ListCommands does not see the commands of other files that create lists
    (RENAME, MOVE, SORT STORE, RESTORE), which wake no client.  InvertedIndex takes each step with one
    posting list as a whole; what two threads do inside of the same list is in LocklessList. *)

From Stdlib Require Import ZArith Lia.
From stdpp Require Import prelude list gmap strings numbers.

Declare Scope engine_scope.
Delimit Scope engine_scope with engine.

Local Open Scope Z_scope.

Create HintDb engine.
Create Rewrite HintDb engine_len.

(** ** Fixed-width integers

    A C integer of [w] bits is a [Z]; [uwrap] and [swrap] are the conversions to
    the unsigned and to the (two's complement) signed type of that width. *)

Definition uwrap (w z : Z) : Z := z mod 2 ^ w.
Definition swrap (w z : Z) : Z := (z + 2 ^ (w - 1)) mod 2 ^ w - 2 ^ (w - 1).

Definition in_uint (w z : Z) : Prop := 0 <= z < 2 ^ w.
Definition in_int (w z : Z) : Prop := - 2 ^ (w - 1) <= z < 2 ^ (w - 1).

Definition INT16_MIN : Z := -32768.
Definition INT16_MAX : Z := 32767.
Definition INT32_MIN : Z := -2147483648.
Definition INT32_MAX : Z := 2147483647.
Definition UINT32_MAX : Z := 4294967295.
Definition LLONG_MIN : Z := -9223372036854775808.
Definition LLONG_MAX : Z := 9223372036854775807.
Definition ULLONG_MAX : Z := 18446744073709551615.

Lemma uwrap_id w z : in_uint w z -> uwrap w z = z.
Proof. intros H. apply Z.mod_small, H. Qed.

Lemma uwrap_range w z : 0 <= w -> in_uint w (uwrap w z).
Proof. intros H. apply Z.mod_pos_bound. apply Z.pow_pos_nonneg; lia. Qed.

Lemma swrap_id w z : 0 < w -> in_int w z -> swrap w z = z.
Proof.
  intros Hw [Hl Hu]. unfold swrap. rewrite Z.mod_small; [lia|].
  replace w with (1 + (w - 1)) at 3 by lia. rewrite Z.pow_add_r by lia. lia.
Qed.

Lemma swrap_uwrap w z : 0 < w -> swrap w (z mod 2 ^ w) = swrap w z.
Proof.
  intros Hw. unfold swrap.
  assert (0 < 2 ^ w) by (apply Z.pow_pos_nonneg; lia).
  rewrite Zplus_mod_idemp_l. reflexivity.
Qed.

(** A signed addition: overflow is undefined behaviour in C, hence [None]. *)
Definition sadd (w a b : Z) : option Z :=
  if decide (- 2 ^ (w - 1) <= a + b < 2 ^ (w - 1)) then Some (a + b) else None.

Lemma sadd_Some w a b : in_int w (a + b) -> sadd w a b = Some (a + b).
Proof. intros H. unfold sadd. by rewrite decide_True. Qed.

(** ** Bytes and little-endian integers *)

Definition is_byte (b : Z) : Prop := 0 <= b < 256.

Fixpoint le_encode (n : nat) (z : Z) : list Z :=
  match n with
  | O => []
  | S n => z mod 256 :: le_encode n (z / 256)
  end.

Fixpoint le_decode (bs : list Z) : Z :=
  match bs with
  | [] => 0
  | b :: bs => b + 256 * le_decode bs
  end.

Lemma length_le_encode n z : length (le_encode n z) = n.
Proof. revert z. induction n; intros; simpl; auto. Qed.

Lemma le_encode_bytes n z : Forall is_byte (le_encode n z).
Proof.
  revert z. induction n; intros; simpl; constructor; [|auto].
  apply Z.mod_pos_bound. lia.
Qed.

Lemma pow_256_succ n : 2 ^ (8 * Z.of_nat (S n)) = 256 * 2 ^ (8 * Z.of_nat n).
Proof.
  rewrite Nat2Z.inj_succ. replace (8 * Z.succ (Z.of_nat n)) with (8 + 8 * Z.of_nat n) by lia.
  rewrite Z.pow_add_r by lia. reflexivity.
Qed.

Lemma le_decode_encode n z : le_decode (le_encode n z) = z mod 2 ^ (8 * Z.of_nat n).
Proof.
  revert z. induction n as [|n IH]; intros z.
  - simpl. by rewrite Z.mod_1_r.
  - rewrite pow_256_succ. cbn [le_encode le_decode]. rewrite IH.
    assert (0 < 2 ^ (8 * Z.of_nat n)) by (apply Z.pow_pos_nonneg; lia).
    rewrite Z.rem_mul_r by lia. reflexivity.
Qed.

Lemma le_decode_range bs :
  Forall is_byte bs -> 0 <= le_decode bs < 2 ^ (8 * Z.of_nat (length bs)).
Proof.
  induction 1 as [|b bs Hb _ IH]; [simpl; lia|].
  cbn [le_decode length]. rewrite pow_256_succ. unfold is_byte in Hb. lia.
Qed.

(** Reading back a signed integer of [n] bytes. *)
Lemma swrap_le_roundtrip n z :
  (0 < n)%nat -> in_int (8 * Z.of_nat n) z ->
  swrap (8 * Z.of_nat n) (le_decode (le_encode n z)) = z.
Proof.
  intros Hn Hz. rewrite le_decode_encode, swrap_uwrap by lia. apply swrap_id; [lia|done].
Qed.

(** ** Memory blocks

    A block of memory is the list of its bytes.  Accesses outside of the block are
    undefined behaviour in C; here they are [None], so that a theorem that an
    operation returns [Some] includes its memory safety. *)

Definition zlen {A} (l : list A) : Z := Z.of_nat (length l).

Definition load {A} (m : list A) (off n : Z) : option (list A) :=
  if decide (0 <= off /\ 0 <= n /\ off + n <= zlen m)
  then Some (take (Z.to_nat n) (drop (Z.to_nat off) m)) else None.

Definition store {A} (m : list A) (off : Z) (bs : list A) : option (list A) :=
  if decide (0 <= off /\ off + zlen bs <= zlen m)
  then Some (take (Z.to_nat off) m ++ bs ++ drop (Z.to_nat off + length bs) m) else None.

(** [memmove(dst, src, n)] within one block; the source is read before the write. *)
Definition memmove {A} (m : list A) (dst src n : Z) : option (list A) :=
  bs ← load m src n; store m dst bs.

(** [zrealloc]: the bytes past the old size are indeterminate ([junk]). *)
Definition realloc {A} (junk : nat -> A) (m : list A) (n : Z) : list A :=
  take (Z.to_nat n) m ++ (junk <$> seq (length m) (Z.to_nat n - length m)).

Lemma zlen_nonneg {A} (l : list A) : 0 <= zlen l.
Proof. unfold zlen. lia. Qed.

Lemma zlen_app {A} (l k : list A) : zlen (l ++ k) = zlen l + zlen k.
Proof. unfold zlen. rewrite length_app. lia. Qed.

Lemma zlen_nil {A} : zlen (@nil A) = 0.
Proof. reflexivity. Qed.

Lemma zlen_cons {A} (x : A) l : zlen (x :: l) = 1 + zlen l.
Proof. unfold zlen. simpl. lia. Qed.

#[export] Hint Rewrite @zlen_app @zlen_nil @zlen_cons @length_app @length_cons
  @length_nil length_le_encode : engine_len.

Lemma load_in_range {A} (m : list A) off n :
  0 <= off -> 0 <= n -> off + n <= zlen m ->
  load m off n = Some (take (Z.to_nat n) (drop (Z.to_nat off) m)).
Proof. intros. unfold load. by rewrite decide_True. Qed.

Lemma load_app {A} (a b c : list A) off n :
  off = zlen a -> n = zlen b -> load (a ++ b ++ c) off n = Some b.
Proof.
  intros -> ->. unfold load. rewrite decide_True.
  - unfold zlen. rewrite !Nat2Z.id, drop_app_length, take_app_length. done.
  - rewrite !zlen_app. pose proof (zlen_nonneg a). pose proof (zlen_nonneg b).
    pose proof (zlen_nonneg c). lia.
Qed.

Lemma store_app {A} (a b c b' : list A) off :
  off = zlen a -> length b' = length b -> store (a ++ b ++ c) off b' = Some (a ++ b' ++ c).
Proof.
  intros -> Hl. unfold store. rewrite decide_True.
  - unfold zlen. rewrite !Nat2Z.id, Hl, take_app_length. do 3 f_equal.
    rewrite app_assoc, <- length_app. apply drop_app_length.
  - rewrite !zlen_app. unfold zlen. lia.
Qed.

Lemma load_length {A} (m : list A) off n bs :
  load m off n = Some bs -> zlen bs = n.
Proof.
  unfold load. case_decide as H; [|done]. intros [= <-]. unfold zlen in *.
  rewrite length_take, length_drop. lia.
Qed.

Lemma store_length {A} (m : list A) off bs m' :
  store m off bs = Some m' -> length m' = length m.
Proof.
  unfold store. case_decide as H; [|done]. intros [= <-]. unfold zlen in *.
  rewrite !length_app, length_take, length_drop. lia.
Qed.

Lemma length_realloc {A} junk (m : list A) n :
  0 <= n -> zlen (realloc junk m n) = n.
Proof.
  intros Hn. unfold realloc, zlen. rewrite length_app, length_fmap, length_seq, length_take. lia.
Qed.

(** Growing keeps the old bytes as a prefix. *)
Lemma realloc_grow {A} junk (m : list A) n :
  zlen m <= n -> exists pad, zlen pad = n - zlen m /\ realloc junk m n = m ++ pad.
Proof.
  intros Hn. exists (junk <$> seq (length m) (Z.to_nat n - length m)). unfold realloc, zlen in *.
  rewrite length_fmap, length_seq. split; [lia|]. rewrite take_ge by lia. done.
Qed.

(** Shrinking keeps a prefix. *)
Lemma realloc_shrink {A} junk (a b : list A) n :
  n = zlen a -> realloc junk (a ++ b) n = a.
Proof.
  intros ->. unfold realloc, zlen. rewrite Nat2Z.id, length_app, take_app_length.
  replace (length a - (length a + length b))%nat with O by lia. apply app_nil_r.
Qed.

(** Writing the first bytes of a region, the rest of which is written later. *)
Lemma store_over {A} (a x blk c : list A) off :
  off = zlen a -> zlen x <= zlen blk ->
  store (a ++ blk ++ c) off x = Some ((a ++ x) ++ drop (length x) blk ++ c).
Proof.
  intros -> Hx. rewrite <- (take_drop (length x) blk) at 1. rewrite <- (app_assoc (take _ blk)).
  rewrite (store_app a (take (length x) blk) (drop (length x) blk ++ c) x) by (done || (rewrite length_take; unfold zlen in Hx; lia)).
  by rewrite <- app_assoc.
Qed.

(** Reading the byte [m[i]]. *)
Definition rd {A} (m : list A) (i : Z) : option A :=
  if i <? 0 then None else m !! Z.to_nat i.

Lemma rd_app {A} (a : list A) x b i : i = zlen a -> rd (a ++ x :: b) i = Some x.
Proof.
  intros ->. unfold rd. pose proof (zlen_nonneg a). destruct (Z.ltb_spec (zlen a) 0); [lia|].
  unfold zlen. rewrite Nat2Z.id. by rewrite list_lookup_middle.
Qed.

(** ** Outcomes

    Where a theorem has to tell undefined behaviour from a loop that exceeds its fuel,
    computations return an [outcome] instead of an option. *)

Inductive outcome (A : Type) : Type :=
  | Ok (a : A)
  | Undefined
  | OutOfFuel.
Arguments Ok {A} a.
Arguments Undefined {A}.
Arguments OutOfFuel {A}.

#[export] Instance outcome_ret : MRet outcome := @Ok.
#[export] Instance outcome_bind : MBind outcome := fun A B f m =>
  match m with Ok a => f a | Undefined => Undefined | OutOfFuel => OutOfFuel end.

(** ** Strings *)

(** The character codes of a string literal. *)
Definition str (s : String.string) : list Z :=
  (fun a => Z.of_N (Ascii.N_of_ascii a)) <$> String.list_ascii_of_string s.

Arguments str s%_string_scope.

(** [tolower] in the C locale. *)
Definition tolower (c : Z) : Z := if (65 <=? c) && (c <=? 90) then c + 32 else c.

Lemma tolower_zero c : tolower c = 0 <-> c = 0.
Proof.
  unfold tolower. destruct (Z.leb_spec 65 c), (Z.leb_spec c 90); simpl; lia.
Qed.

(** Reading [s[i]] of a NUL-terminated string. *)
Definition chr (s : list Z) (i : Z) : outcome Z :=
  if i <? 0 then Undefined
  else match s !! Z.to_nat i with
       | Some c => Ok c
       | None => if i =? zlen s then Ok 0 else Undefined
       end.

Lemma chr_app_cons a c b i : i = zlen a -> chr (a ++ c :: b) i = Ok c.
Proof.
  intros ->. unfold chr. pose proof (zlen_nonneg a).
  destruct (Z.ltb_spec (zlen a) 0); [lia|]. unfold zlen. rewrite Nat2Z.id.
  by rewrite list_lookup_middle.
Qed.

Lemma chr_end a i : i = zlen a -> chr a i = Ok 0.
Proof.
  intros ->. unfold chr. pose proof (zlen_nonneg a).
  destruct (Z.ltb_spec (zlen a) 0); [lia|]. unfold zlen. rewrite Nat2Z.id.
  rewrite lookup_ge_None_2 by done. by rewrite Z.eqb_refl.
Qed.

(** ** Tactics *)

(** Normalise the length side conditions and call [lia]. *)
Ltac len_solve :=
  autorewrite with engine_len in *; unfold zlen in *; simpl in *; lia.

(** Destruct the boolean comparisons of the goal into propositions. *)
Ltac zbool_cases :=
  repeat match goal with
  | |- context [?a <? ?b] => destruct (Z.ltb_spec a b)
  | |- context [?a <=? ?b] => destruct (Z.leb_spec a b)
  | |- context [?a =? ?b] => destruct (Z.eqb_spec a b)
  end; simpl.
