(* ===== verification/Crc64.v ===== *)
(** * crc64.c: the checksum of the RDB files

    Model of [src/debug/redis/src/crc64.c].  The table is the one of the source.
    [crc64_polynomial]: the table driven loop computes the remainder of the reflected polynomial
    0xad93d23594c935a9 that the head of the file announces, one bit at a time; it can be
    computed in pieces ([crc64_app]), and a change of a single byte is always noticed
    ([crc64_detects_byte]). *)

From Stdlib Require Import ZArith Lia Btauto.
From stdpp Require Import prelude list strings numbers.
From S2P Require Import Prelude.

Local Open Scope Z_scope.

Module Crc64.

Definition crc64_tab : list Z := [
   0x0000000000000000; 0x7ad870c830358979; 0xf5b0e190606b12f2; 0x8f689158505e9b8b;
   0xc038e5739841b68f; 0xbae095bba8743ff6; 0x358804e3f82aa47d; 0x4f50742bc81f2d04;
   0xab28ecb46814fe75; 0xd1f09c7c5821770c; 0x5e980d24087fec87; 0x24407dec384a65fe;
   0x6b1009c7f05548fa; 0x11c8790fc060c183; 0x9ea0e857903e5a08; 0xe478989fa00bd371;
   0x7d08ff3b88be6f81; 0x07d08ff3b88be6f8; 0x88b81eabe8d57d73; 0xf2606e63d8e0f40a;
   0xbd301a4810ffd90e; 0xc7e86a8020ca5077; 0x4880fbd87094cbfc; 0x32588b1040a14285;
   0xd620138fe0aa91f4; 0xacf86347d09f188d; 0x2390f21f80c18306; 0x594882d7b0f40a7f;
   0x1618f6fc78eb277b; 0x6cc0863448deae02; 0xe3a8176c18803589; 0x997067a428b5bcf0;
   0xfa11fe77117cdf02; 0x80c98ebf2149567b; 0x0fa11fe77117cdf0; 0x75796f2f41224489;
   0x3a291b04893d698d; 0x40f16bccb908e0f4; 0xcf99fa94e9567b7f; 0xb5418a5cd963f206;
   0x513912c379682177; 0x2be1620b495da80e; 0xa489f35319033385; 0xde51839b2936bafc;
   0x9101f7b0e12997f8; 0xebd98778d11c1e81; 0x64b116208142850a; 0x1e6966e8b1770c73;
   0x8719014c99c2b083; 0xfdc17184a9f739fa; 0x72a9e0dcf9a9a271; 0x08719014c99c2b08;
   0x4721e43f0183060c; 0x3df994f731b68f75; 0xb29105af61e814fe; 0xc849756751dd9d87;
   0x2c31edf8f1d64ef6; 0x56e99d30c1e3c78f; 0xd9810c6891bd5c04; 0xa3597ca0a188d57d;
   0xec09088b6997f879; 0x96d1784359a27100; 0x19b9e91b09fcea8b; 0x636199d339c963f2;
   0xdf7adabd7a6e2d6f; 0xa5a2aa754a5ba416; 0x2aca3b2d1a053f9d; 0x50124be52a30b6e4;
   0x1f423fcee22f9be0; 0x659a4f06d21a1299; 0xeaf2de5e82448912; 0x902aae96b271006b;
   0x74523609127ad31a; 0x0e8a46c1224f5a63; 0x81e2d7997211c1e8; 0xfb3aa75142244891;
   0xb46ad37a8a3b6595; 0xceb2a3b2ba0eecec; 0x41da32eaea507767; 0x3b024222da65fe1e;
   0xa2722586f2d042ee; 0xd8aa554ec2e5cb97; 0x57c2c41692bb501c; 0x2d1ab4dea28ed965;
   0x624ac0f56a91f461; 0x1892b03d5aa47d18; 0x97fa21650afae693; 0xed2251ad3acf6fea;
   0x095ac9329ac4bc9b; 0x7382b9faaaf135e2; 0xfcea28a2faafae69; 0x8632586aca9a2710;
   0xc9622c4102850a14; 0xb3ba5c8932b0836d; 0x3cd2cdd162ee18e6; 0x460abd1952db919f;
   0x256b24ca6b12f26d; 0x5fb354025b277b14; 0xd0dbc55a0b79e09f; 0xaa03b5923b4c69e6;
   0xe553c1b9f35344e2; 0x9f8bb171c366cd9b; 0x10e3202993385610; 0x6a3b50e1a30ddf69;
   0x8e43c87e03060c18; 0xf49bb8b633338561; 0x7bf329ee636d1eea; 0x012b592653589793;
   0x4e7b2d0d9b47ba97; 0x34a35dc5ab7233ee; 0xbbcbcc9dfb2ca865; 0xc113bc55cb19211c;
   0x5863dbf1e3ac9dec; 0x22bbab39d3991495; 0xadd33a6183c78f1e; 0xd70b4aa9b3f20667;
   0x985b3e827bed2b63; 0xe2834e4a4bd8a21a; 0x6debdf121b863991; 0x1733afda2bb3b0e8;
   0xf34b37458bb86399; 0x8993478dbb8deae0; 0x06fbd6d5ebd3716b; 0x7c23a61ddbe6f812;
   0x3373d23613f9d516; 0x49aba2fe23cc5c6f; 0xc6c333a67392c7e4; 0xbc1b436e43a74e9d;
   0x95ac9329ac4bc9b5; 0xef74e3e19c7e40cc; 0x601c72b9cc20db47; 0x1ac40271fc15523e;
   0x5594765a340a7f3a; 0x2f4c0692043ff643; 0xa02497ca54616dc8; 0xdafce7026454e4b1;
   0x3e847f9dc45f37c0; 0x445c0f55f46abeb9; 0xcb349e0da4342532; 0xb1eceec59401ac4b;
   0xfebc9aee5c1e814f; 0x8464ea266c2b0836; 0x0b0c7b7e3c7593bd; 0x71d40bb60c401ac4;
   0xe8a46c1224f5a634; 0x927c1cda14c02f4d; 0x1d148d82449eb4c6; 0x67ccfd4a74ab3dbf;
   0x289c8961bcb410bb; 0x5244f9a98c8199c2; 0xdd2c68f1dcdf0249; 0xa7f41839ecea8b30;
   0x438c80a64ce15841; 0x3954f06e7cd4d138; 0xb63c61362c8a4ab3; 0xcce411fe1cbfc3ca;
   0x83b465d5d4a0eece; 0xf96c151de49567b7; 0x76048445b4cbfc3c; 0x0cdcf48d84fe7545;
   0x6fbd6d5ebd3716b7; 0x15651d968d029fce; 0x9a0d8ccedd5c0445; 0xe0d5fc06ed698d3c;
   0xaf85882d2576a038; 0xd55df8e515432941; 0x5a3569bd451db2ca; 0x20ed197575283bb3;
   0xc49581ead523e8c2; 0xbe4df122e51661bb; 0x3125607ab548fa30; 0x4bfd10b2857d7349;
   0x04ad64994d625e4d; 0x7e7514517d57d734; 0xf11d85092d094cbf; 0x8bc5f5c11d3cc5c6;
   0x12b5926535897936; 0x686de2ad05bcf04f; 0xe70573f555e26bc4; 0x9ddd033d65d7e2bd;
   0xd28d7716adc8cfb9; 0xa85507de9dfd46c0; 0x273d9686cda3dd4b; 0x5de5e64efd965432;
   0xb99d7ed15d9d8743; 0xc3450e196da80e3a; 0x4c2d9f413df695b1; 0x36f5ef890dc31cc8;
   0x79a59ba2c5dc31cc; 0x037deb6af5e9b8b5; 0x8c157a32a5b7233e; 0xf6cd0afa9582aa47;
   0x4ad64994d625e4da; 0x300e395ce6106da3; 0xbf66a804b64ef628; 0xc5bed8cc867b7f51;
   0x8aeeace74e645255; 0xf036dc2f7e51db2c; 0x7f5e4d772e0f40a7; 0x05863dbf1e3ac9de;
   0xe1fea520be311aaf; 0x9b26d5e88e0493d6; 0x144e44b0de5a085d; 0x6e963478ee6f8124;
   0x21c640532670ac20; 0x5b1e309b16452559; 0xd476a1c3461bbed2; 0xaeaed10b762e37ab;
   0x37deb6af5e9b8b5b; 0x4d06c6676eae0222; 0xc26e573f3ef099a9; 0xb8b627f70ec510d0;
   0xf7e653dcc6da3dd4; 0x8d3e2314f6efb4ad; 0x0256b24ca6b12f26; 0x788ec2849684a65f;
   0x9cf65a1b368f752e; 0xe62e2ad306bafc57; 0x6946bb8b56e467dc; 0x139ecb4366d1eea5;
   0x5ccebf68aecec3a1; 0x2616cfa09efb4ad8; 0xa97e5ef8cea5d153; 0xd3a62e30fe90582a;
   0xb0c7b7e3c7593bd8; 0xca1fc72bf76cb2a1; 0x45775673a732292a; 0x3faf26bb9707a053;
   0x70ff52905f188d57; 0x0a2722586f2d042e; 0x854fb3003f739fa5; 0xff97c3c80f4616dc;
   0x1bef5b57af4dc5ad; 0x61372b9f9f784cd4; 0xee5fbac7cf26d75f; 0x9487ca0fff135e26;
   0xdbd7be24370c7322; 0xa10fceec0739fa5b; 0x2e675fb4576761d0; 0x54bf2f7c6752e8a9;
   0xcdcf48d84fe75459; 0xb71738107fd2dd20; 0x387fa9482f8c46ab; 0x42a7d9801fb9cfd2;
   0x0df7adabd7a6e2d6; 0x772fdd63e7936baf; 0xf8474c3bb7cdf024; 0x829f3cf387f8795d;
   0x66e7a46c27f3aa2c; 0x1c3fd4a417c62355; 0x935745fc4798b8de; 0xe98f353477ad31a7;
   0xa6df411fbfb21ca3; 0xdc0731d78f8795da; 0x536fa08fdfd90e51; 0x29b7d047efec8728].

(** One round of the loop of crc64. *)
Definition crc64_byte (crc byte : Z) : Z :=
  Z.lxor (nth (Z.to_nat (Z.lxor (crc mod 256) byte)) crc64_tab 0) (Z.shiftr crc 8).

Definition crc64 (crc : Z) (s : list Z) : Z := foldl crc64_byte crc s.

(** ** The polynomial *)

(** The coefficients of x^63 ... x^0 from the least significant bit on: the announced polynomial,
    reflected. *)
Definition poly : Z := 0x95ac9329ac4bc9b5.

(** One bit of the division. *)
Definition crc_bit (r : Z) : Z := Z.lxor (Z.shiftr r 1) (if Z.odd r then poly else 0).
Definition crc_byte_ref (crc byte : Z) : Z := Nat.iter 8 crc_bit (Z.lxor crc byte).
Definition crc64_ref (crc : Z) (s : list Z) : Z := foldl crc_byte_ref crc s.

Lemma crc_bit_lxor a b : crc_bit (Z.lxor a b) = Z.lxor (crc_bit a) (crc_bit b).
Proof.
  unfold crc_bit. rewrite Z.shiftr_lxor. assert (Z.odd (Z.lxor a b) = xorb (Z.odd a) (Z.odd b)) as ->
    by by rewrite <- !Z.bit0_odd, Z.lxor_spec.
  apply Z.bits_inj. intros n. destruct (Z.odd a), (Z.odd b); cbn [xorb]; rewrite !Z.lxor_spec, ?Z.bits_0; btauto.
Qed.

Lemma iter_lxor n a b : Nat.iter n crc_bit (Z.lxor a b) = Z.lxor (Nat.iter n crc_bit a) (Nat.iter n crc_bit b).
Proof. induction n as [|n IH]; [done|]. rewrite !Nat.iter_succ, IH. apply crc_bit_lxor. Qed.

Lemma iter_shift n a : Nat.iter n crc_bit (Z.shiftl a (Z.of_nat n)) = a.
Proof.
  revert a. induction n as [|n IH]; intros a; [apply Z.shiftl_0_r|]. rewrite Nat.iter_succ_r.
  assert (crc_bit (Z.shiftl a (Z.of_nat (S n))) = Z.shiftl a (Z.of_nat n)) as ->; [|apply IH].
  unfold crc_bit. rewrite <- Z.bit0_odd, Z.shiftl_spec_low by lia. rewrite Z.lxor_0_r, Z.shiftr_shiftl_l by lia.
  by replace (Z.of_nat (S n) - 1) with (Z.of_nat n) by lia.
Qed.

Lemma tab_ref : forallb (fun i => nth i crc64_tab 0 =? Nat.iter 8 crc_bit (Z.of_nat i)) (seq 0 256) = true.
Proof. vm_compute. reflexivity. Qed.

Lemma tab_nth i : 0 <= i < 256 -> nth (Z.to_nat i) crc64_tab 0 = Nat.iter 8 crc_bit i.
Proof.
  intros Hi. pose proof (proj1 (forallb_forall _ _) tab_ref (Z.to_nat i)) as H. rewrite in_seq in H.
  specialize (H ltac:(lia)). apply Z.eqb_eq in H. by rewrite Z2Nat.id in H by lia.
Qed.

Lemma low_range crc byte : 0 <= byte < 256 -> 0 <= Z.lxor (crc mod 256) byte < 256.
Proof.
  intros Hb. pose proof (Z.mod_pos_bound crc 256 eq_refl). assert (0 <= Z.lxor (crc mod 256) byte) by (apply Z.lxor_nonneg; split; lia). split; [done|].
  destruct (decide (Z.lxor (crc mod 256) byte = 0)) as [->|]; [lia|]. change (Z.lxor (crc mod 256) byte < 2 ^ 8). apply Z.log2_lt_pow2; [lia|].
  eapply Z.le_lt_trans; [apply Z.log2_lxor; lia|]. apply Z.max_lub_lt; (apply Z.le_lt_trans with 7; [|lia]); apply (Z.log2_le_mono _ 255); lia.
Qed.

Lemma split_low crc : 0 <= crc -> crc = Z.lxor (crc mod 256) (Z.shiftl (Z.shiftr crc 8) 8).
Proof.
  intros Hc. change 256 with (2 ^ 8). rewrite <- Z.land_ones by lia. apply Z.bits_inj'. intros n Hn.
  rewrite Z.lxor_spec, Z.land_spec, Z.testbit_ones_nonneg by lia. destruct (Z.ltb_spec n 8).
  - rewrite Z.shiftl_spec_low by lia. btauto.
  - rewrite Z.shiftl_spec_high, Z.shiftr_spec by lia. replace (n - 8 + 8) with n by lia. btauto.
Qed.

Lemma crc64_byte_ref crc byte : 0 <= crc -> 0 <= byte < 256 -> crc64_byte crc byte = crc_byte_ref crc byte.
Proof.
  intros Hc Hb. unfold crc64_byte, crc_byte_ref. rewrite tab_nth by by apply low_range.
  assert (Nat.iter 8 crc_bit crc = Z.lxor (Nat.iter 8 crc_bit (crc mod 256)) (Z.shiftr crc 8)) as E.
  { rewrite (split_low crc Hc) at 1. rewrite iter_lxor. f_equal. apply (iter_shift 8). }
  rewrite !iter_lxor, E, !Z.lxor_assoc. f_equal. apply Z.lxor_comm.
Qed.

(** *** Ranges *)

Lemma bytes_dec s : forallb (fun b => (0 <=? b) && (b <? 256)) s = true -> Forall is_byte s.
Proof. rewrite forallb_forall, Forall_forall. intros H b Hb. specialize (H b Hb). unfold is_byte. lia. Qed.

Lemma crc64_byte_range crc byte : 0 <= crc < 2 ^ 64 -> 0 <= crc64_byte crc byte < 2 ^ 64.
Proof.
  intros Hc. unfold crc64_byte.
  assert (forallb (fun t => (0 <=? t) && (t <? 2 ^ 64)) crc64_tab = true) as Ht by (vm_compute; reflexivity).
  set (i := Z.to_nat _). assert (0 <= nth i crc64_tab 0 < 2 ^ 64) as Hn.
  { rewrite forallb_forall in Ht. specialize (Ht (nth i crc64_tab 0)). destruct (nth_in_or_default i crc64_tab 0) as [Hin| ->]; [|lia].
    specialize (Ht Hin). lia. }
  assert (0 <= Z.shiftr crc 8 < 2 ^ 64) as Hs.
  { rewrite Z.shiftr_div_pow2 by lia. split; [apply Z.div_pos; lia|]. apply Z.div_lt_upper_bound; lia. }
  assert (0 <= Z.lxor (nth i crc64_tab 0) (Z.shiftr crc 8)) by (apply Z.lxor_nonneg; split; lia). split; [done|].
  destruct (decide (Z.lxor (nth i crc64_tab 0) (Z.shiftr crc 8) = 0)) as [->|]; [lia|]. apply Z.log2_lt_pow2; [lia|].
  eapply Z.le_lt_trans; [apply Z.log2_lxor; lia|].
  apply Z.max_lub_lt; (apply Z.le_lt_trans with 63; [|lia]); apply (Z.log2_le_mono _ (2 ^ 64 - 1)); lia.
Qed.

Lemma crc64_range s : forall crc, 0 <= crc < 2 ^ 64 -> 0 <= crc64 crc s < 2 ^ 64.
Proof.
  induction s as [|b s IH]; intros crc Hc; [done|]. cbn [crc64 foldl]. apply IH. by apply crc64_byte_range.
Qed.

Lemma crc64_app crc s t : crc64 crc (s ++ t) = crc64 (crc64 crc s) t.
Proof. apply foldl_app. Qed.

(** C32: the table driven loop computes the polynomial division bit by bit: on any byte string it
    returns the remainder of the reflected polynomial announced by the source, an unsigned 64-bit
    integer, and the checksum of a string in pieces is the checksum of the whole. *)
Theorem crc64_polynomial crc s t : 0 <= crc < 2 ^ 64 -> Forall is_byte s ->
  crc64 crc s = crc64_ref crc s /\ 0 <= crc64 crc s < 2 ^ 64 /\ crc64 (crc64 crc s) t = crc64 crc (s ++ t).
Proof.
  intros Hc Hs. split; [|split; [by apply crc64_range|by rewrite crc64_app]]. revert crc Hc.
  induction Hs as [|b s Hb Hs IH]; intros crc Hc; [done|]. unfold crc64_ref. cbn [crc64 foldl].
  rewrite <- crc64_byte_ref by (unfold is_byte in Hb; lia). apply IH. by apply crc64_byte_range.
Qed.

Lemma crc64_polynomial_witness : crc64 0 (str "123456789") = 0xe9c6d914c4b8d9ca /\ crc64_ref 0 (str "123456789") = 0xe9c6d914c4b8d9ca.
Proof.
  destruct (crc64_polynomial 0 (str "123456789") [] ltac:(lia) (bytes_dec (str "123456789") eq_refl)) as [H _].
  rewrite <- H. split; vm_compute; reflexivity.
Defined.

(** *** A changed byte is noticed *)

Definition top (t : Z) : Z := Z.shiftr t 56.

Lemma tab_tops : NoDup (top <$> crc64_tab).
Proof. apply (bool_decide_unpack _). vm_compute. exact I. Qed.

Lemma top_byte crc byte : 0 <= crc < 2 ^ 64 ->
  top (crc64_byte crc byte) = top (nth (Z.to_nat (Z.lxor (crc mod 256) byte)) crc64_tab 0).
Proof.
  intros Hc. unfold crc64_byte, top. rewrite Z.shiftr_lxor, Z.shiftr_shiftr by lia. change (8 + 56) with 64.
  assert (Z.shiftr crc 64 = 0) as -> by (rewrite Z.shiftr_div_pow2 by lia; apply Z.div_small; lia). apply Z.lxor_0_r.
Qed.

Lemma tab_inj i j : 0 <= i < 256 -> 0 <= j < 256 -> top (nth (Z.to_nat i) crc64_tab 0) = top (nth (Z.to_nat j) crc64_tab 0) -> i = j.
Proof.
  intros Hi Hj E. assert (forall k, 0 <= k < 256 -> (top <$> crc64_tab) !! Z.to_nat k = Some (top (nth (Z.to_nat k) crc64_tab 0))) as Hl.
  { intros k Hk. destruct (lookup_lt_is_Some_2 crc64_tab (Z.to_nat k)) as [x Hx]; [change (length crc64_tab) with 256%nat; lia|].
    by rewrite list_lookup_fmap, (nth_lookup_Some _ _ 0 _ Hx), Hx. }
  pose proof (Hl i Hi) as H1. rewrite E in H1. pose proof (NoDup_lookup _ _ _ _ tab_tops H1 (Hl j Hj)). lia.
Qed.

Lemma crc64_byte_inj crc crc' byte byte' : 0 <= crc < 2 ^ 64 -> 0 <= crc' < 2 ^ 64 -> 0 <= byte < 256 -> 0 <= byte' < 256 ->
  crc64_byte crc byte = crc64_byte crc' byte' -> Z.lxor (crc mod 256) byte = Z.lxor (crc' mod 256) byte' /\ Z.shiftr crc 8 = Z.shiftr crc' 8.
Proof.
  intros Hc Hc' Hb Hb' E. assert (Z.lxor (crc mod 256) byte = Z.lxor (crc' mod 256) byte') as Ei.
  { apply tab_inj; [by apply low_range..|]. rewrite <- !top_byte by done. by rewrite E. }
  split; [done|]. unfold crc64_byte in E. rewrite Ei in E.
  by apply (f_equal (Z.lxor (nth (Z.to_nat (Z.lxor (crc' mod 256) byte')) crc64_tab 0))) in E; rewrite <- !Z.lxor_assoc, Z.lxor_nilpotent, !Z.lxor_0_l in E.
Qed.

Lemma lxor_cancel_r a b c : Z.lxor a c = Z.lxor b c -> a = b.
Proof. intros E. apply (f_equal (fun x => Z.lxor x c)) in E. by rewrite !Z.lxor_assoc, Z.lxor_nilpotent, !Z.lxor_0_r in E. Qed.

Lemma crc64_inj s : forall crc crc', 0 <= crc < 2 ^ 64 -> 0 <= crc' < 2 ^ 64 -> Forall is_byte s -> crc64 crc s = crc64 crc' s -> crc = crc'.
Proof.
  induction s as [|b s IH]; intros crc crc' Hc Hc' Hs E; [done|]. apply Forall_cons_iff in Hs as [Hb Hs]. cbn [crc64 foldl] in E.
  apply IH in E; [|by apply crc64_byte_range..|done].
  apply crc64_byte_inj in E as [E1 E2]; [|done..]. apply lxor_cancel_r in E1.
  rewrite (split_low crc), (split_low crc') by lia. by rewrite E1, E2.
Qed.

(** Two strings that differ in exactly one byte have different checksums. *)
Theorem crc64_detects_byte crc s t b b' : 0 <= crc < 2 ^ 64 -> Forall is_byte (s ++ b :: b' :: t) -> b <> b' ->
  crc64 crc (s ++ b :: t) <> crc64 crc (s ++ b' :: t).
Proof.
  intros Hc Hall Hne E. apply Forall_app in Hall as [Hs [Hb [Hb' Ht]%Forall_cons_iff]%Forall_cons_iff].
  pose proof (crc64_range s crc Hc) as Hc1. rewrite !crc64_app in E. cbn [crc64 foldl] in E.
  apply crc64_inj in E; [|by apply crc64_byte_range..|done]. apply crc64_byte_inj in E as [E _]; [|done..].
  rewrite !(Z.lxor_comm (_ mod 256)) in E. by apply lxor_cancel_r in E.
Qed.

Lemma crc64_detects_byte_witness : crc64 0 (str "REDIS" ++ 48 :: str "06") <> crc64 0 (str "REDIS" ++ 49 :: str "06").
Proof.
  apply (crc64_detects_byte 0 (str "REDIS") (str "06") 48 49); [lia|apply bytes_dec; reflexivity|congruence].
Defined.

End Crc64.
