(* ===== verification/Intset.v ===== *)
(** * intset.c: sorted arrays of integers

    Model of [src/debug/redis/src/intset.c]: the set of integers that Redis stores as a
    sorted array, with 16, 32 or 64 bits per element.  [contents] is the byte array, and
    every access goes through [load]/[store], so the results of the operations below
    include that no access is out of bounds.  The host is little endian, where the
    [intrev32ifbe]/[memrevNNifbe] macros of endianconv.h are the identity.

    [repr is xs] relates the structure to the strictly increasing list of its elements;
    the theorems show that the operations implement the operations of a finite set on
    this list, upgrade of the encoding included. *)

From Stdlib Require Import ZArith Lia Sorted.
From stdpp Require Import prelude list gmap numbers.
From S2P Require Import Prelude.

Local Open Scope Z_scope.

Module Intset.

Definition INTSET_ENC_INT16 : Z := 2.
Definition INTSET_ENC_INT32 : Z := 4.
Definition INTSET_ENC_INT64 : Z := 8.

Record intset := mkIntset { encoding : Z; len : Z; contents : list Z }.

Definition _intsetValueEncoding (v : Z) : Z :=
  if (v <? INT32_MIN) || (INT32_MAX <? v) then INTSET_ENC_INT64
  else if (v <? INT16_MIN) || (INT16_MAX <? v) then INTSET_ENC_INT32
  else INTSET_ENC_INT16.

Definition _intsetGetEncoded (iset : intset) (pos enc : Z) : option Z :=
  if enc =? INTSET_ENC_INT64 then
    v64 ← load (contents iset) (pos * 8) 8; Some (swrap 64 (le_decode v64))
  else if enc =? INTSET_ENC_INT32 then
    v32 ← load (contents iset) (pos * 4) 4; Some (swrap 32 (le_decode v32))
  else
    v16 ← load (contents iset) (pos * 2) 2; Some (swrap 16 (le_decode v16)).

Definition _intsetGet (iset : intset) (pos : Z) : option Z :=
  _intsetGetEncoded iset pos (encoding iset).

Definition set_contents (iset : intset) (c : list Z) : intset :=
  mkIntset (encoding iset) (len iset) c.

Definition _intsetSet (iset : intset) (pos value : Z) : option intset :=
  if encoding iset =? INTSET_ENC_INT64 then
    set_contents iset <$> store (contents iset) (pos * 8) (le_encode 8 value)
  else if encoding iset =? INTSET_ENC_INT32 then
    set_contents iset <$> store (contents iset) (pos * 4) (le_encode 4 value)
  else
    set_contents iset <$> store (contents iset) (pos * 2) (le_encode 2 value).

Definition intsetNew : intset := mkIntset INTSET_ENC_INT16 0 [].

Definition intsetResize (junk : nat -> Z) (iset : intset) (n : Z) : intset :=
  let size := uwrap 32 (n * encoding iset) in
  set_contents iset (realloc junk (contents iset) size).

(** The binary search; the result is the final [(min, mid, cur)]. *)
Fixpoint intsetSearch_loop (fuel : nat) (iset : intset) (value min max mid cur : Z)
  : option (Z * Z * Z) :=
  match fuel with
  | O => None
  | S fuel =>
    if min <=? max then
      s ← sadd 32 min max;
      let mid := Z.quot s 2 in
      cur ← _intsetGet iset mid;
      if cur <? value then intsetSearch_loop fuel iset value (mid + 1) max mid cur
      else if value <? cur then intsetSearch_loop fuel iset value min (mid - 1) mid cur
      else Some (min, mid, cur)
    else Some (min, mid, cur)
  end.

(** The result is the C return value and the position stored through [pos]. *)
Definition intsetSearch (iset : intset) (value : Z) : option (bool * Z) :=
  let max := swrap 32 (uwrap 32 (len iset - 1)) in
  if len iset =? 0 then Some (false, 0)
  else
    last ← _intsetGet iset (swrap 32 (uwrap 32 (len iset - 1)));
    if last <? value then Some (false, len iset)
    else
      first ← _intsetGet iset 0;
      if value <? first then Some (false, 0)
      else
        r ← intsetSearch_loop (S (S (Z.to_nat (len iset)))) iset value 0 max (-1) (-1);
        let '(min, mid, cur) := r in
        if value =? cur then Some (true, uwrap 32 mid) else Some (false, uwrap 32 min).

(** [while(length--) _intsetSet(is,length+prepend,_intsetGetEncoded(is,length,curenc))] *)
Fixpoint intsetUpgrade_loop (length : nat) (iset : intset) (prepend curenc : Z) : option intset :=
  match length with
  | O => Some iset
  | S length =>
    v ← _intsetGetEncoded iset (Z.of_nat length) curenc;
    iset ← _intsetSet iset (Z.of_nat length + prepend) v;
    intsetUpgrade_loop length iset prepend curenc
  end.

Definition set_len (iset : intset) (n : Z) : intset := mkIntset (encoding iset) n (contents iset).

Definition intsetUpgradeAndAdd (junk : nat -> Z) (iset : intset) (value : Z) : option intset :=
  let curenc := encoding iset in
  let newenc := _intsetValueEncoding value in
  let length := len iset in
  let prepend := if value <? 0 then 1 else 0 in
  let iset := mkIntset newenc (len iset) (contents iset) in
  let iset := intsetResize junk iset (uwrap 32 (len iset + 1)) in
  iset ← intsetUpgrade_loop (Z.to_nat length) iset prepend curenc;
  iset ← (if prepend =? 1 then _intsetSet iset 0 value else _intsetSet iset (len iset) value);
  Some (set_len iset (uwrap 32 (len iset + 1))).

Definition intsetMoveTail (iset : intset) (from to : Z) : option intset :=
  let bytes := uwrap 32 (len iset - from) in
  if encoding iset =? INTSET_ENC_INT64 then
    set_contents iset <$> memmove (contents iset) (to * 8) (from * 8) (uwrap 32 (bytes * 8))
  else if encoding iset =? INTSET_ENC_INT32 then
    set_contents iset <$> memmove (contents iset) (to * 4) (from * 4) (uwrap 32 (bytes * 4))
  else
    set_contents iset <$> memmove (contents iset) (to * 2) (from * 2) (uwrap 32 (bytes * 2)).

(** The boolean is what is stored through [success]. *)
Definition intsetAdd (junk : nat -> Z) (iset : intset) (value : Z) : option (intset * bool) :=
  let valenc := _intsetValueEncoding value in
  if encoding iset <? valenc then
    iset ← intsetUpgradeAndAdd junk iset value; Some (iset, true)
  else
    r ← intsetSearch iset value;
    let '(found, pos) := r in
    if found : bool then Some (iset, false)
    else
      let iset := intsetResize junk iset (uwrap 32 (len iset + 1)) in
      iset ← (if pos <? len iset then intsetMoveTail iset pos (pos + 1) else Some iset);
      iset ← _intsetSet iset pos value;
      Some (set_len iset (uwrap 32 (len iset + 1)), true).

Definition intsetRemove (junk : nat -> Z) (iset : intset) (value : Z) : option (intset * bool) :=
  let valenc := _intsetValueEncoding value in
  if valenc <=? encoding iset then
    r ← intsetSearch iset value;
    let '(found, pos) := r in
    if found : bool then
      let n := len iset in
      iset ← (if pos <? n - 1 then intsetMoveTail iset (pos + 1) pos else Some iset);
      let iset := intsetResize junk iset (n - 1) in
      Some (set_len iset (n - 1), true)
    else Some (iset, false)
  else Some (iset, false).

Definition intsetFind (iset : intset) (value : Z) : option bool :=
  let valenc := _intsetValueEncoding value in
  if valenc <=? encoding iset then fst <$> intsetSearch iset value else Some false.

(** [r] is the value returned by [rand()]. *)
Definition intsetRandom (r : Z) (iset : intset) : option Z :=
  if len iset =? 0 then None else _intsetGet iset (Z.rem r (len iset)).

Definition intsetGet (iset : intset) (pos : Z) : option (bool * Z) :=
  if pos <? len iset then v ← _intsetGet iset pos; Some (true, v) else Some (false, 0).

Definition intsetLen (iset : intset) : Z := len iset.

Definition intsetBlobLen (iset : intset) : Z := 8 + uwrap 32 (len iset * encoding iset).

(** ** Representation *)

Definition valid_enc (enc : Z) : Prop := enc = 2 \/ enc = 4 \/ enc = 8.

(** The byte array of the elements [xs] with [enc] bytes each. *)
Definition encode_all (enc : Z) (xs : list Z) : list Z :=
  flat_map (le_encode (Z.to_nat enc)) xs.

Record repr (iset : intset) (xs : list Z) : Prop := {
  repr_enc : valid_enc (encoding iset);
  repr_len : len iset = zlen xs;
  repr_contents : contents iset = encode_all (encoding iset) xs;
  repr_range : Forall (in_int (8 * encoding iset)) xs;
  repr_sorted : StronglySorted Z.lt xs;
}.

(** The size bound under which no index and no size computation overflows. *)
Definition small (xs : list Z) : Prop := zlen xs < 2 ^ 27.

Lemma encode_all_app enc xs ys :
  encode_all enc (xs ++ ys) = encode_all enc xs ++ encode_all enc ys.
Proof. apply flat_map_app. Qed.

Lemma encode_all_cons enc x xs :
  encode_all enc (x :: xs) = le_encode (Z.to_nat enc) x ++ encode_all enc xs.
Proof. reflexivity. Qed.

Lemma zlen_encode_all enc xs : 0 <= enc -> zlen (encode_all enc xs) = enc * zlen xs.
Proof.
  intros He. induction xs as [|x xs IH]; [unfold zlen; simpl; lia|].
  rewrite encode_all_cons, zlen_app, zlen_cons, IH. unfold zlen at 1.
  rewrite length_le_encode. lia.
Qed.

Lemma valid_enc_range enc : valid_enc enc -> 2 <= enc <= 8.
Proof. unfold valid_enc. lia. Qed.

(** Element access, by the position of the element in the byte array. *)
Lemma get_encoded_app iset enc a x b :
  valid_enc enc -> in_int (8 * enc) x ->
  forall pos, zlen a = pos * enc ->
  contents iset = a ++ le_encode (Z.to_nat enc) x ++ b ->
  _intsetGetEncoded iset pos enc = Some x.
Proof.
  intros He Hx pos Ha Hc. unfold _intsetGetEncoded, INTSET_ENC_INT64, INTSET_ENC_INT32.
  rewrite Hc.
  destruct He as [->|[->| ->]]; cbn [Z.eqb Pos.eqb];
    erewrite load_app by (rewrite ?Ha; unfold zlen; rewrite ?length_le_encode; done);
    cbn [mbind option_bind]; f_equal.
  - by apply (swrap_le_roundtrip 2); [lia|].
  - by apply (swrap_le_roundtrip 4); [lia|].
  - by apply (swrap_le_roundtrip 8); [lia|].
Qed.

Lemma set_app iset a old b value :
  valid_enc (encoding iset) ->
  zlen old = encoding iset ->
  forall pos, zlen a = pos * encoding iset ->
  contents iset = a ++ old ++ b ->
  _intsetSet iset pos value =
    Some (set_contents iset (a ++ le_encode (Z.to_nat (encoding iset)) value ++ b)).
Proof.
  intros He Ho pos Ha Hc. unfold _intsetSet, INTSET_ENC_INT64, INTSET_ENC_INT32. rewrite Hc.
  assert (length old = Z.to_nat (encoding iset)) as Hold by (unfold zlen in Ho; lia).
  destruct He as [E|[E|E]]; rewrite E in *; cbn [Z.eqb Pos.eqb];
    erewrite store_app by (rewrite ?length_le_encode; done); done.
Qed.

Lemma repr_get iset xs i x :
  repr iset xs -> xs !! i = Some x -> _intsetGet iset (Z.of_nat i) = Some x.
Proof.
  intros [He Hl Hc Hr Hs] Hi. unfold _intsetGet.
  pose proof (valid_enc_range _ He).
  apply list_elem_of_split_length in Hi as (a & b & -> & ->).
  apply Forall_app in Hr as [_ Hx]. apply Forall_inv in Hx.
  rewrite encode_all_app, encode_all_cons in Hc.
  eapply get_encoded_app; [done|done| |exact Hc].
  rewrite zlen_encode_all by lia. unfold zlen. lia.
Qed.

(** ** Search *)

Definition below (xs : list Z) (value : Z) (n : Z) : Prop :=
  forall i x, xs !! i = Some x -> Z.of_nat i < n -> x < value.
Definition above (xs : list Z) (value : Z) (n : Z) : Prop :=
  forall i x, xs !! i = Some x -> n <= Z.of_nat i -> value < x.

(** What the search promises: either the position of the value, or the position that
    separates the smaller from the larger elements. *)
Definition search_post (xs : list Z) (value : Z) (r : bool * Z) : Prop :=
  let '(found, pos) := r in
  0 <= pos <= zlen xs /\
  if found : bool then xs !! Z.to_nat pos = Some value
  else below xs value pos /\ above xs value pos.

Lemma sorted_lookup_lt xs i j x y :
  StronglySorted Z.lt xs -> xs !! i = Some x -> xs !! j = Some y -> (i < j)%nat -> x < y.
Proof.
  intros Hs. revert i j. induction Hs as [|z xs _ IH Hz]; intros i j Hi Hj Hij; [done|].
  destruct j as [|j]; [lia|]. destruct i as [|i]; simplify_eq/=.
  - rewrite Forall_forall in Hz. apply Hz. apply list_elem_of_In. by eapply list_elem_of_lookup_2.
  - eapply IH; eauto with lia.
Qed.

Lemma search_loop_correct iset xs value :
  repr iset xs -> small xs ->
  forall fuel min max mid cur,
  0 <= min -> min <= max + 1 -> max < zlen xs -> max - min + 2 <= Z.of_nat fuel ->
  below xs value min -> above xs value (max + 1) ->
  (min <= max \/ cur <> value) ->
  exists min' mid' cur',
    intsetSearch_loop fuel iset value min max mid cur = Some (min', mid', cur') /\
    search_post xs value (bool_decide (value = cur'), if value =? cur' then mid' else min').
Proof.
  intros Hr Hsm. unfold small in Hsm.
  induction fuel as [|fuel IH]; intros min max mid cur H0 H1 H2 Hf Hb Ha Hc; [lia|].
  cbn [intsetSearch_loop]. destruct (Z.leb_spec min max) as [Hle|Hgt].
  - rewrite sadd_Some by (unfold in_int; lia). cbn [mbind option_bind].
    rewrite Z.quot_div_nonneg by lia. set (m := (min + max) / 2).
    assert (min <= m <= max) as Hm by (subst m; pose proof (Z.div_mod (min + max) 2);
      pose proof (Z.mod_pos_bound (min + max) 2); lia).
    assert (is_Some (xs !! Z.to_nat m)) as [c Hcur]
      by (apply lookup_lt_is_Some_2; unfold zlen in *; lia).
    pose proof (repr_get _ _ _ _ Hr Hcur) as Hg. rewrite Z2Nat.id in Hg by lia.
    rewrite Hg. cbn [mbind option_bind].
    destruct (Z.ltb_spec c value) as [Hlt|Hge]; [|destruct (Z.ltb_spec value c)].
    + apply IH; try lia; [|done]. intros i x Hi Hin.
      destruct (decide (i = Z.to_nat m)) as [Him|]; [subst i; rewrite Hcur in Hi; by injection Hi as ->|].
      apply Z.le_lt_trans with c; [|done]. apply Z.lt_le_incl.
      eapply sorted_lookup_lt; [apply Hr|exact Hi|exact Hcur|lia].
    + apply IH; try lia; [done|]. intros i x Hi Hin.
      destruct (decide (i = Z.to_nat m)) as [Him|]; [subst i; rewrite Hcur in Hi; by injection Hi as ->|].
      apply Z.lt_trans with c; [done|].
      eapply sorted_lookup_lt; [apply Hr|exact Hcur|exact Hi|lia].
    + assert (c = value) as -> by lia. exists min, m, value. split; [done|].
      rewrite Z.eqb_refl, bool_decide_true by done. unfold search_post. split; [lia|done].
  - exists min, mid, cur. split; [done|].
    assert (cur <> value) by lia. rewrite bool_decide_false by done.
    destruct (Z.eqb_spec value cur); [congruence|]. unfold search_post.
    split; [lia|]. split; [done|]. by replace min with (max + 1) by lia.
Qed.

Lemma search_correct iset xs value :
  repr iset xs -> small xs ->
  exists r, intsetSearch iset value = Some r /\ search_post xs value r.
Proof.
  intros Hr Hsm. unfold intsetSearch. pose proof Hr as [He Hl Hc Hra Hs].
  pose proof (zlen_nonneg xs). unfold small in Hsm. rewrite Hl.
  destruct (Z.eqb_spec (zlen xs) 0) as [E|E].
  { eexists. split; [done|]. unfold search_post. split; [lia|].
    split; intros i x Hi; apply lookup_lt_Some in Hi; unfold zlen in *; lia. }
  rewrite uwrap_id by (unfold in_uint; lia). rewrite swrap_id by (unfold in_int; lia).
  assert (is_Some (xs !! Z.to_nat (zlen xs - 1))) as [l Hlast]
    by (apply lookup_lt_is_Some_2; unfold zlen in *; lia).
  assert (is_Some (xs !! O)) as [f Hfirst]
    by (apply lookup_lt_is_Some_2; unfold zlen in *; lia).
  pose proof (repr_get _ _ _ _ Hr Hlast) as Hg. rewrite Z2Nat.id in Hg by lia. rewrite Hg.
  cbn [mbind option_bind]. destruct (Z.ltb_spec l value) as [Hlt|Hge].
  { eexists. split; [done|]. split; [lia|]. split; intros i x Hi Hin.
    - apply Z.le_lt_trans with l; [|done].
      destruct (decide (i = Z.to_nat (zlen xs - 1))) as [->|]; [simplify_eq; lia|].
      apply Z.lt_le_incl. eapply sorted_lookup_lt; [done|exact Hi|exact Hlast|lia].
    - apply lookup_lt_Some in Hi. unfold zlen in *. lia. }
  pose proof (repr_get _ _ _ _ Hr Hfirst) as Hg0. change (Z.of_nat 0) with 0 in Hg0. rewrite Hg0.
  cbn [mbind option_bind]. destruct (Z.ltb_spec value f).
  { eexists. split; [done|]. split; [lia|]. split; intros i x Hi Hin; [lia|].
    destruct i as [|i]; [naive_solver|]. apply Z.lt_trans with f; [done|].
    eapply sorted_lookup_lt; [done|exact Hfirst|exact Hi|lia]. }
  destruct (search_loop_correct iset xs value Hr Hsm (S (S (Z.to_nat (zlen xs)))) 0
    (zlen xs - 1) (-1) (-1)) as (mn & md & cu & -> & Hpost); try lia.
  - intros i x Hi Hin. lia.
  - intros i x Hi Hin. apply lookup_lt_Some in Hi. unfold zlen in *. lia.
  - cbn [mbind option_bind]. destruct (Z.eqb_spec value cu) as [->|Hne].
    + rewrite bool_decide_true in Hpost by done. eexists. split; [done|].
      rewrite uwrap_id by (unfold in_uint, search_post in *; lia). exact Hpost.
    + rewrite bool_decide_false in Hpost by done. eexists. split; [done|].
      rewrite uwrap_id by (unfold in_uint, search_post in *; lia). exact Hpost.
Qed.

(** ** Encodings *)

Lemma value_encoding_valid v : valid_enc (_intsetValueEncoding v).
Proof. unfold _intsetValueEncoding, valid_enc. repeat case_match; auto. Qed.

Lemma value_encoding_range v : in_int 64 v -> in_int (8 * _intsetValueEncoding v) v.
Proof.
  unfold _intsetValueEncoding, in_int, INT32_MIN, INT32_MAX, INT16_MIN, INT16_MAX.
  intros Hv. zbool_cases; unfold INTSET_ENC_INT64, INTSET_ENC_INT32, INTSET_ENC_INT16; lia.
Qed.

(** The required encoding is the smallest one whose range holds the value. *)
Lemma value_encoding_le v enc :
  in_int 64 v -> valid_enc enc -> (_intsetValueEncoding v <= enc <-> in_int (8 * enc) v).
Proof.
  unfold _intsetValueEncoding, in_int, INT32_MIN, INT32_MAX, INT16_MIN, INT16_MAX.
  intros Hv [->|[->| ->]]; zbool_cases;
    unfold INTSET_ENC_INT64, INTSET_ENC_INT32, INTSET_ENC_INT16; lia.
Qed.

Lemma in_int_mono enc enc' v :
  valid_enc enc -> valid_enc enc' -> enc <= enc' -> in_int (8 * enc) v -> in_int (8 * enc') v.
Proof. unfold in_int. intros [->|[->| ->]] [->|[->| ->]] ?; lia. Qed.

(** ** Insertion and removal in the byte array *)

Lemma resize_grow junk iset n :
  0 <= n * encoding iset < 2 ^ 32 -> zlen (contents iset) <= n * encoding iset ->
  exists pad, zlen pad = n * encoding iset - zlen (contents iset) /\
    intsetResize junk iset n = set_contents iset (contents iset ++ pad).
Proof.
  intros H1 H2. unfold intsetResize. rewrite uwrap_id by (unfold in_uint; lia).
  destruct (realloc_grow junk _ _ H2) as (pad & Hp & ->). eauto.
Qed.

Lemma move_tail_memmove iset from to :
  valid_enc (encoding iset) -> 0 <= from <= len iset -> len iset < 2 ^ 28 ->
  intsetMoveTail iset from to =
    set_contents iset <$> memmove (contents iset) (to * encoding iset)
      (from * encoding iset) ((len iset - from) * encoding iset).
Proof.
  intros He Hf Hl. unfold intsetMoveTail, INTSET_ENC_INT64, INTSET_ENC_INT32.
  rewrite (uwrap_id 32 (len iset - from)) by (unfold in_uint; lia).
  destruct He as [E|[E|E]]; rewrite E; cbn [Z.eqb Pos.eqb];
    rewrite uwrap_id by (unfold in_uint; lia); done.
Qed.

Lemma split_bytes {A} (l : list A) n : 0 <= n <= zlen l ->
  exists a b, l = a ++ b /\ zlen a = n /\ zlen b = zlen l - n.
Proof.
  intros Hn. exists (take (Z.to_nat n) l), (drop (Z.to_nat n) l).
  rewrite take_drop. unfold zlen in *. rewrite length_take, length_drop.
  split; [done|lia].
Qed.

(** Opening a gap of one element before the tail. *)
Lemma open_gap iset a b gap :
  valid_enc (encoding iset) -> zlen gap = encoding iset ->
  contents iset = encode_all (encoding iset) a ++ encode_all (encoding iset) b ++ gap ->
  len iset = zlen (a ++ b) -> zlen (a ++ b) < 2 ^ 28 ->
  exists gap', zlen gap' = encoding iset /\
    (if zlen a <? len iset then intsetMoveTail iset (zlen a) (zlen a + 1) else Some iset) =
    Some (set_contents iset
      (encode_all (encoding iset) a ++ gap' ++ encode_all (encoding iset) b)).
Proof.
  intros He Hg Hc Hl Hsm. pose proof (valid_enc_range _ He) as Hr.
  rewrite zlen_app in *. pose proof (zlen_nonneg a). pose proof (zlen_nonneg b).
  set (e := encoding iset) in *.
  destruct (Z.ltb_spec (zlen a) (len iset)) as [Hlt|Hge].
  - destruct (split_bytes (encode_all e b ++ gap) e) as (g & r & Hs & Hgl & Hrl).
    { rewrite zlen_app, zlen_encode_all; nia. }
    rewrite zlen_app, zlen_encode_all in Hrl by lia.
    exists g. split; [done|]. rewrite move_tail_memmove by (done || lia). fold e.
    unfold memmove. rewrite Hc, Hl.
    rewrite (load_app (encode_all e a) (encode_all e b) gap)
      by (rewrite zlen_encode_all by lia; lia).
    cbn [mbind option_bind]. rewrite Hs, app_assoc.
    rewrite <- (app_nil_r r). rewrite (store_app _ r [] (encode_all e b)).
    + simpl. by rewrite app_nil_r, <- app_assoc.
    + rewrite zlen_app, zlen_encode_all by lia. lia.
    + pose proof (zlen_encode_all e b ltac:(lia)) as Hz. unfold zlen in Hz, Hrl, Hg. lia.
  - assert (b = []) as -> by (destruct b; [done|rewrite zlen_cons in *;
      pose proof (zlen_nonneg b); lia]).
    exists gap. split; [done|]. f_equal. destruct iset; unfold set_contents; simpl in *. f_equal.
    rewrite Hc. simpl. by rewrite app_nil_r.
Qed.

(** The conversion loop of the upgrade, which works in place from the last element to
    the first one and never overwrites an element that it still has to read. *)
Lemma upgrade_loop_correct iset xs prepend cur tail :
  valid_enc cur -> valid_enc (encoding iset) -> cur <= encoding iset ->
  0 <= prepend -> Forall (in_int (8 * cur)) xs ->
  forall k old mid, (k <= length xs)%nat ->
  contents iset = old ++ mid ++ encode_all (encoding iset) (drop k xs) ++ tail ->
  old = encode_all cur (take k xs) ->
  zlen (old ++ mid) = (Z.of_nat k + prepend) * encoding iset ->
  exists mid', zlen mid' = prepend * encoding iset /\
    intsetUpgrade_loop k iset prepend cur =
      Some (set_contents iset (mid' ++ encode_all (encoding iset) xs ++ tail)).
Proof.
  intros Hcur Hnew Hle Hp Hr k. revert iset Hnew Hle.
  pose proof (valid_enc_range _ Hcur) as Hcr.
  induction k as [|k IH]; intros iset Hnew Hle old mid Hk Hc Ho Hz;
    pose proof (valid_enc_range _ Hnew) as Hnr.
  - subst old. exists mid. simpl in *. split; [lia|]. rewrite drop_0 in Hc.
    f_equal. destruct iset; unfold set_contents; simpl in *. by rewrite Hc.
  - destruct (lookup_lt_is_Some_2 xs k ltac:(lia)) as [x Hx].
    rewrite (take_S_r _ _ _ Hx), encode_all_app in Ho.
    cbn [encode_all flat_map] in Ho. rewrite app_nil_r in Ho.
    cbn [intsetUpgrade_loop].
    assert (zlen (encode_all cur (take k xs)) = cur * Z.of_nat k) as Hpre.
    { rewrite zlen_encode_all by lia. unfold zlen. rewrite length_take. lia. }
    erewrite (get_encoded_app iset cur (encode_all cur (take k xs)) x
      (mid ++ encode_all (encoding iset) (drop (S k) xs) ++ tail)); [|done| |lia|].
    2: { rewrite Forall_lookup in Hr. by eapply Hr. }
    2: { rewrite Hc, Ho. by rewrite <- !app_assoc. }
    cbn [mbind option_bind].
    set (e := encoding iset) in *.
    destruct (split_bytes (le_encode (Z.to_nat cur) x ++ mid)
      ((Z.of_nat k + prepend) * e - cur * Z.of_nat k)) as (m' & gap & Hs & Hm' & Hgap).
    { rewrite Ho, !zlen_app, Hpre in Hz. rewrite zlen_app. nia. }
    rewrite Ho, <- app_assoc, (zlen_app (encode_all cur _)), Hpre in Hz.
    rewrite (set_app iset (encode_all cur (take k xs) ++ m') gap
      (encode_all e (drop (S k) xs) ++ tail) x);
      [|done|fold e; lia|rewrite zlen_app, Hpre; fold e; lia|].
    2: { rewrite Hc, Ho. rewrite <- !app_assoc. f_equal. rewrite !app_assoc.
         f_equal. by f_equal. }
    cbn [mbind option_bind]. fold e.
    destruct (IH (set_contents iset ((encode_all cur (take k xs) ++ m') ++
      le_encode (Z.to_nat e) x ++ encode_all e (drop (S k) xs) ++ tail)) Hnew Hle
      (encode_all cur (take k xs)) m') as (mid' & Hmid' & IHr); [lia| |done| |].
    + cbn [contents set_contents encoding]. rewrite (drop_S _ _ _ Hx), encode_all_cons.
      by rewrite <- !app_assoc.
    + cbn [encoding set_contents]. rewrite zlen_app, Hpre. fold e. lia.
    + exists mid'. split; [done|]. rewrite IHr. done.
Qed.

(** ** Sorted insertion and removal on the list of elements *)

Lemma sorted_insert_mid (a b : list Z) v :
  StronglySorted Z.lt (a ++ b) -> Forall (fun x => x < v) a -> Forall (fun x => v < x) b ->
  StronglySorted Z.lt (a ++ v :: b).
Proof.
  induction a as [|y a IH]; simpl; intros Hs Ha Hb; [by constructor|].
  apply StronglySorted_inv in Hs as [Hs Hy]. apply Forall_cons_iff in Ha as [Hyv Ha].
  constructor; [by apply IH|]. apply Forall_app in Hy as [Hya Hyb].
  apply Forall_app. split; [done|]. by constructor.
Qed.

Lemma sorted_delete_mid (a b : list Z) v :
  StronglySorted Z.lt (a ++ v :: b) -> StronglySorted Z.lt (a ++ b).
Proof.
  induction a as [|y a IH]; simpl; intros Hs; apply StronglySorted_inv in Hs as [Hs Hy];
    [done|]. constructor; [auto|]. apply Forall_app in Hy as [? Hy].
  apply Forall_app. split; [done|]. by apply Forall_cons_iff in Hy as [_ ?].
Qed.

Lemma search_found_split (xs : list Z) v pos :
  0 <= pos -> xs !! Z.to_nat pos = Some v -> exists a b, xs = a ++ v :: b /\ pos = zlen a.
Proof.
  intros Hp Hx. apply list_elem_of_split_length in Hx as (a & b & -> & Hl).
  exists a, b. unfold zlen. split; [done|lia].
Qed.

Lemma search_gap_split (xs : list Z) v pos :
  0 <= pos <= zlen xs -> below xs v pos -> above xs v pos ->
  exists a b, xs = a ++ b /\ pos = zlen a /\
    Forall (fun x => x < v) a /\ Forall (fun x => v < x) b.
Proof.
  intros Hp Hb Ha. destruct (split_bytes xs pos Hp) as (a & b & -> & Hl & _).
  exists a, b. unfold zlen in *. split_and!; try done; apply Forall_lookup; intros i x Hi.
  - apply (Hb i); [by apply lookup_app_l_Some|]. apply lookup_lt_Some in Hi. lia.
  - apply (Ha (length a + i)%nat); [|lia]. rewrite lookup_app_r by lia.
    by replace (length a + i - length a)%nat with i by lia.
Qed.

Lemma not_elem_of_gap (a b : list Z) v :
  Forall (fun x => x < v) a -> Forall (fun x => v < x) b -> v ∉ a ++ b.
Proof.
  rewrite !Forall_forall. intros Ha Hb [H|H]%elem_of_app; apply list_elem_of_In in H;
    [apply Ha in H|apply Hb in H]; lia.
Qed.

(** ** Correctness of the operations *)

Lemma upgrade_correct junk iset xs v :
  repr iset xs -> small xs -> in_int 64 v -> encoding iset < _intsetValueEncoding v ->
  exists iset', intsetUpgradeAndAdd junk iset v = Some iset' /\
    encoding iset' = _intsetValueEncoding v /\
    repr iset' (if v <? 0 then v :: xs else xs ++ [v]).
Proof.
  intros [He Hl Hc Hr Hs] Hsm Hv Hlt. unfold small in Hsm. pose proof (zlen_nonneg xs).
  pose proof (value_encoding_valid v) as Hve.
  pose proof (valid_enc_range _ He). pose proof (valid_enc_range _ Hve).
  assert (Forall (fun x => if v <? 0 then v < x else x < v) xs) as Hout.
  { assert (~ in_int (8 * encoding iset) v) as Hni
      by (rewrite <- value_encoding_le by done; lia).
    eapply Forall_impl; [|exact Hr]. intros x Hx. unfold in_int in *.
    destruct (Z.ltb_spec v 0); lia. }
  assert (Forall (in_int (8 * _intsetValueEncoding v)) xs) as Hr'.
  { eapply Forall_impl; [|exact Hr]. intros x. apply in_int_mono; [done|done|lia]. }
  pose proof (value_encoding_range v Hv) as Hvr.
  unfold intsetUpgradeAndAdd. cbn [len].
  rewrite uwrap_id by (unfold in_uint; lia).
  set (e := _intsetValueEncoding v) in *. set (pre := if v <? 0 then 1 else 0).
  destruct (resize_grow junk (mkIntset e (len iset) (contents iset)) (len iset + 1))
    as (pad & Hpad & ->); cbn [encoding contents] in *; [nia| |].
  { rewrite Hc, zlen_encode_all by lia. nia. }
  unfold set_contents at 1. cbn [encoding len].
  assert (pre = 0 \/ pre = 1) as Hpre by (unfold pre; destruct (v <? 0); auto).
  destruct (split_bytes pad (zlen pad - (1 - pre) * e)) as (mid & tail & Hsp & Hmid & Htail).
  { rewrite Hpad, Hc, zlen_encode_all by lia. nia. }
  rewrite Hpad, Hc, zlen_encode_all in Hmid, Htail by lia.
  destruct (upgrade_loop_correct (mkIntset e (len iset) (contents iset ++ pad)) xs pre
    (encoding iset) tail He Hve ltac:(simpl; lia) ltac:(lia) Hr (Z.to_nat (len iset))
    (contents iset) mid) as (mid' & Hmid' & ->); cbn [contents encoding] in *.
  - unfold zlen in *. lia.
  - rewrite drop_ge by (unfold zlen in *; lia). simpl. by rewrite Hsp.
  - rewrite take_ge by (unfold zlen in *; lia). done.
  - rewrite zlen_app, Hc, zlen_encode_all, Hmid by lia. rewrite Hl. unfold zlen. nia.
  - cbn [mbind option_bind]. unfold set_contents at 1. cbn [encoding len].
    unfold pre in *. destruct (Z.ltb_spec v 0) as [Hneg|Hpos]; cbn [Z.eqb Pos.eqb].
    + assert (tail = []) as -> by (destruct tail; [done|unfold zlen in *; simpl in *; lia]).
      erewrite (set_app _ [] mid' (encode_all e xs ++ [])); cbn [encoding contents];
        [|done|lia|done|done].
      cbn [mbind option_bind]. eexists. split_and!; [done|done|].
      split; cbn [encoding len contents set_len set_contents]; try done.
      * rewrite zlen_cons, uwrap_id by (unfold in_uint; lia). lia.
      * by rewrite app_nil_r.
      * by constructor.
      * by constructor.
    + assert (mid' = []) as -> by (destruct mid'; [done|unfold zlen in *; simpl in *; lia]).
      erewrite (set_app _ (encode_all e xs) tail []); cbn [encoding contents set_contents len];
        [|done|lia|rewrite zlen_encode_all by lia; nia|by rewrite app_nil_r].
      cbn [mbind option_bind]. eexists. split_and!; [done|done|].
      split; cbn [encoding len contents set_len set_contents]; try done.
      * rewrite zlen_app, uwrap_id by (unfold in_uint; lia). unfold zlen at 2. simpl. lia.
      * rewrite encode_all_app. done.
      * apply Forall_app. split; [done|by constructor].
      * apply sorted_insert_mid; [by rewrite app_nil_r|done|constructor].
Qed.

Lemma insert_correct junk iset a b v :
  repr iset (a ++ b) -> small (a ++ b) -> in_int (8 * encoding iset) v ->
  Forall (fun x => x < v) a -> Forall (fun x => v < x) b ->
  exists iset',
    (let iset := intsetResize junk iset (uwrap 32 (len iset + 1)) in
     iset ← (if zlen a <? len iset then intsetMoveTail iset (zlen a) (zlen a + 1) else Some iset);
     iset ← _intsetSet iset (zlen a) v;
     Some (set_len iset (uwrap 32 (len iset + 1)), true)) = Some (iset', true) /\
    encoding iset' = encoding iset /\ repr iset' (a ++ v :: b).
Proof.
  intros [He Hl Hc Hr Hs] Hsm Hv Ha Hb. unfold small in Hsm.
  pose proof (valid_enc_range _ He). pose proof (zlen_nonneg a). pose proof (zlen_nonneg b).
  rewrite zlen_app in *. cbv zeta. rewrite (uwrap_id 32 (len iset + 1)) by (unfold in_uint; lia).
  destruct (resize_grow junk iset (len iset + 1)) as (pad & Hpad & ->).
  { nia. } { rewrite Hc, zlen_encode_all, zlen_app by lia. nia. }
  rewrite Hc, zlen_encode_all, zlen_app in Hpad by lia.
  set (e := encoding iset) in *. rewrite Hc, encode_all_app, <- app_assoc.
  destruct (open_gap (set_contents iset (encode_all e a ++ encode_all e b ++ pad)) a b pad)
    as (gap & Hgap & ->); cbn [set_contents encoding contents len]; fold e;
    [done|nia|done|by rewrite zlen_app|rewrite zlen_app; lia|].
  cbn [mbind option_bind].
  rewrite (set_app _ (encode_all e a) gap (encode_all e b));
    cbn [encoding contents set_contents];
    [|done|exact Hgap|fold e; rewrite zlen_encode_all by lia; lia|done].
  cbn [mbind option_bind]. eexists. split_and!; [done|done|].
  split; cbn [encoding len contents set_len set_contents]; fold e; try done.
  - rewrite uwrap_id, zlen_app, zlen_cons by (unfold in_uint; lia). lia.
  - by rewrite encode_all_app, encode_all_cons.
  - apply Forall_app in Hr as [? ?]. apply Forall_app. split; [done|by constructor].
  - by apply sorted_insert_mid.
Qed.

Lemma delete_correct junk iset a b v :
  repr iset (a ++ v :: b) -> small (a ++ v :: b) ->
  exists iset',
    (iset ← (if zlen a <? len iset - 1 then intsetMoveTail iset (zlen a + 1) (zlen a)
             else Some iset);
     Some (set_len (intsetResize junk iset (len iset - 1)) (len iset - 1), true)) =
      Some (iset', true) /\
    encoding iset' = encoding iset /\ repr iset' (a ++ b).
Proof.
  intros [He Hl Hc Hr Hs] Hsm. unfold small in Hsm.
  pose proof (valid_enc_range _ He). pose proof (zlen_nonneg a). pose proof (zlen_nonneg b).
  rewrite zlen_app, zlen_cons in *. set (e := encoding iset) in *.
  assert (exists c rest, zlen c = e * (zlen a + zlen b) /\ c = encode_all e (a ++ b) /\
    (if zlen a <? len iset - 1 then intsetMoveTail iset (zlen a + 1) (zlen a) else Some iset)
    = Some (set_contents iset (c ++ rest))) as (c & rest & Hcl & -> & ->).
  { destruct (Z.ltb_spec (zlen a) (len iset - 1)) as [Hlt|Hge].
    - rewrite move_tail_memmove by (done || lia). fold e.
      unfold memmove. rewrite Hc, (encode_all_app e a (v :: b)), encode_all_cons.
      rewrite app_assoc. rewrite <- (app_nil_r (encode_all e b)).
      rewrite load_app; [| |rewrite zlen_encode_all by lia; nia].
      2: { rewrite zlen_app, zlen_encode_all by lia. unfold zlen at 3.
           rewrite length_le_encode. lia. }
      cbn [mbind option_bind]. rewrite app_nil_r, <- app_assoc.
      destruct (split_bytes (le_encode (Z.to_nat e) v ++ encode_all e b) (e * zlen b))
        as (x & y & Hxy & Hx & Hy).
      { rewrite zlen_app, zlen_encode_all by lia.
        pose proof (zlen_nonneg (le_encode (Z.to_nat e) v)). nia. }
      rewrite Hxy. rewrite (store_app (encode_all e a) x y (encode_all e b)).
      + exists (encode_all e a ++ encode_all e b), y. rewrite encode_all_app.
        rewrite zlen_app, !zlen_encode_all, <- app_assoc by lia. split_and!; [lia|done|done].
      + rewrite zlen_encode_all by lia. lia.
      + pose proof (zlen_encode_all e b ltac:(lia)) as Hb. unfold zlen in Hb, Hx |- *. lia.
    - assert (b = []) as -> by (destruct b; [done|rewrite zlen_cons in *;
        pose proof (zlen_nonneg b); lia]).
      exists (encode_all e a), (le_encode (Z.to_nat e) v).
      rewrite app_nil_r, zlen_encode_all, zlen_nil by lia. split_and!; [lia|done|].
      f_equal. destruct iset; unfold set_contents; simpl in *. f_equal.
      by rewrite Hc, encode_all_app, encode_all_cons, app_nil_r. }
  cbn [mbind option_bind set_contents len]. unfold intsetResize.
  cbn [encoding contents set_contents]. fold e.
  rewrite uwrap_id by (unfold in_uint; nia).
  rewrite realloc_shrink by nia. eexists. split_and!; [done|done|].
  split; cbn [encoding len contents set_len set_contents]; fold e; try done.
  - rewrite zlen_app. lia.
  - apply Forall_app in Hr as [? Hr]. apply Forall_cons_iff in Hr as [? ?].
    by apply Forall_app.
  - by eapply sorted_delete_mid.
Qed.

(** A value that needs a larger encoding than the set has is not an element. *)
Lemma elem_encoding_le iset xs v :
  repr iset xs -> in_int 64 v -> v ∈ xs -> _intsetValueEncoding v <= encoding iset.
Proof.
  intros Hr Hv Hin%list_elem_of_In. pose proof (repr_range _ _ Hr) as Hra.
  rewrite Forall_forall in Hra. apply Hra, value_encoding_le in Hin; [lia|done|apply Hr].
Qed.

Lemma add_correct junk iset xs v :
  repr iset xs -> small xs -> in_int 64 v ->
  exists iset' xs', intsetAdd junk iset v = Some (iset', bool_decide (v ∉ xs)) /\
    repr iset' xs' /\ (forall x, x ∈ xs' <-> x = v \/ x ∈ xs) /\
    encoding iset' = Z.max (encoding iset) (_intsetValueEncoding v).
Proof.
  intros Hr Hsm Hv. unfold intsetAdd.
  destruct (Z.ltb_spec (encoding iset) (_intsetValueEncoding v)) as [Hlt|Hge].
  - destruct (upgrade_correct junk iset xs v Hr Hsm Hv Hlt) as (iset' & -> & He & Hr').
    exists iset', (if v <? 0 then v :: xs else xs ++ [v]). cbn [mbind option_bind].
    rewrite bool_decide_true.
    + split_and!; [done|done| |lia]. intros x. destruct (v <? 0); set_solver.
    + intros Hin. pose proof (elem_encoding_le _ _ _ Hr Hv Hin). lia.
  - destruct (search_correct iset xs v Hr Hsm) as ([found pos] & -> & Hpos & Hpost).
    cbn [mbind option_bind]. destruct found.
    + exists iset, xs. apply search_found_split in Hpost as (a & b & -> & ->); [|lia].
      rewrite bool_decide_false by set_solver. split_and!; [done|done|set_solver|lia].
    + destruct Hpost as [Hb Ha].
      destruct (search_gap_split xs v pos Hpos Hb Ha) as (a & b & -> & -> & Hla & Hlb).
      apply value_encoding_le in Hge; [|done|apply Hr].
      destruct (insert_correct junk iset a b v Hr Hsm Hge Hla Hlb) as (iset' & Heq & He & Hr').
      exists iset', (a ++ v :: b).
      rewrite bool_decide_true by (by apply not_elem_of_gap).
      split_and!; [exact Heq|done|set_solver|].
      apply value_encoding_le in Hge; [lia|done|apply Hr].
Qed.

Lemma remove_correct junk iset xs v :
  repr iset xs -> small xs -> in_int 64 v ->
  exists iset' xs', intsetRemove junk iset v = Some (iset', bool_decide (v ∈ xs)) /\
    repr iset' xs' /\ (forall x, x ∈ xs' <-> x <> v /\ x ∈ xs).
Proof.
  intros Hr Hsm Hv. unfold intsetRemove.
  destruct (Z.leb_spec (_intsetValueEncoding v) (encoding iset)) as [Hge|Hlt].
  - destruct (search_correct iset xs v Hr Hsm) as ([found pos] & -> & Hpos & Hpost).
    cbn [mbind option_bind]. destruct found.
    + apply search_found_split in Hpost as (a & b & -> & ->); [|lia].
      pose proof (delete_correct junk iset a b v Hr Hsm) as (iset' & Heq & He & Hr').
      exists iset', (a ++ b). rewrite bool_decide_true by set_solver.
      split_and!; [|done|].
      * destruct (zlen a <? len iset - 1); [|exact Heq].
        destruct (intsetMoveTail iset (zlen a + 1) (zlen a)) as [i|] eqn:E; [|done].
        assert (len i = len iset) as Hi.
        { revert E. unfold intsetMoveTail.
          repeat case_match; intros (? & ? & ->)%fmap_Some; done. }
        cbn [mbind option_bind] in *. by rewrite Hi in Heq.
      * intros x. pose proof (repr_sorted _ _ Hr) as Hs.
        assert (v ∉ a ++ b) as Hn.
        { clear - Hs. induction a as [|y a IH]; simpl in *;
            apply StronglySorted_inv in Hs as [Hs Hy]; rewrite Forall_forall in Hy.
          - intros Hin%list_elem_of_In. apply Hy in Hin. lia.
          - intros [->|Hin]%elem_of_cons; [|by apply IH].
            specialize (Hy y ltac:(apply list_elem_of_In; set_solver)). lia. }
        set_solver.
    + destruct Hpost as [Hb Ha].
      destruct (search_gap_split xs v pos Hpos Hb Ha) as (a & b & -> & -> & Hla & Hlb).
      pose proof (not_elem_of_gap a b v Hla Hlb).
      exists iset, (a ++ b). rewrite bool_decide_false by done.
      split_and!; [done|done|set_solver].
  - exists iset, xs. rewrite bool_decide_false.
    + split_and!; [done|done|]. intros x. split; [|naive_solver]. intros Hin. split; [|done].
      intros ->. pose proof (elem_encoding_le _ _ _ Hr Hv Hin). lia.
    + intros Hin. pose proof (elem_encoding_le _ _ _ Hr Hv Hin). lia.
Qed.

Lemma find_correct iset xs v :
  repr iset xs -> small xs -> in_int 64 v ->
  intsetFind iset v = Some (bool_decide (v ∈ xs)).
Proof.
  intros Hr Hsm Hv. unfold intsetFind.
  destruct (Z.leb_spec (_intsetValueEncoding v) (encoding iset)) as [Hge|Hlt].
  - destruct (search_correct iset xs v Hr Hsm) as ([found pos] & -> & Hpos & Hpost).
    simpl. destruct found.
    + apply search_found_split in Hpost as (a & b & -> & ->); [|lia].
      by rewrite bool_decide_true by set_solver.
    + destruct Hpost as [Hb Ha].
      destruct (search_gap_split xs v pos Hpos Hb Ha) as (a & b & -> & -> & Hla & Hlb).
      by rewrite bool_decide_false by (by apply not_elem_of_gap).
  - rewrite bool_decide_false; [done|]. intros Hin. pose proof (elem_encoding_le _ _ _ Hr Hv Hin). lia.
Qed.

(** ** Refinement of finite sets

    A client calls the set operations in any order; each allocation may return other
    indeterminate bytes. *)

Inductive op :=
  | OpAdd (junk : nat -> Z) (v : Z)
  | OpRemove (junk : nat -> Z) (v : Z)
  | OpFind (v : Z).

Definition op_value (o : op) : Z :=
  match o with OpAdd _ v | OpRemove _ v | OpFind v => v end.

Definition exec_op (iset : intset) (o : op) : option (intset * bool) :=
  match o with
  | OpAdd junk v => intsetAdd junk iset v
  | OpRemove junk v => intsetRemove junk iset v
  | OpFind v => b ← intsetFind iset v; Some (iset, b)
  end.

Fixpoint exec_ops (iset : intset) (os : list op) : option (intset * list bool) :=
  match os with
  | [] => Some (iset, [])
  | o :: os =>
    r ← exec_op iset o;
    rs ← exec_ops (fst r) os;
    Some (fst rs, snd r :: snd rs)
  end.

(** The abstract specification: a finite set of integers. *)
Definition spec_op (s : gset Z) (o : op) : gset Z * bool :=
  match o with
  | OpAdd _ v => ({[v]} ∪ s, bool_decide (v ∉ s))
  | OpRemove _ v => (s ∖ {[v]}, bool_decide (v ∈ s))
  | OpFind v => (s, bool_decide (v ∈ s))
  end.

Fixpoint spec_ops (s : gset Z) (os : list op) : gset Z * list bool :=
  match os with
  | [] => (s, [])
  | o :: os =>
    let r := spec_op s o in let rs := spec_ops (fst r) os in (fst rs, snd r :: snd rs)
  end.

(** The simulation relation. *)
Definition refines (iset : intset) (s : gset Z) : Prop :=
  exists xs, repr iset xs /\ (forall x, x ∈ xs <-> x ∈ s).

Lemma refines_size iset (s : gset Z) xs :
  repr iset xs -> (forall x, x ∈ xs <-> x ∈ s) -> zlen xs = Z.of_nat (size s).
Proof.
  intros Hr Hx. replace s with (list_to_set xs : gset Z) by set_solver.
  rewrite size_list_to_set; [done|]. pose proof (repr_sorted _ _ Hr) as Hs. clear -Hs.
  induction Hs as [|x xs _ IH Hx]; constructor; [|done].
  rewrite Forall_forall in Hx. intros Hin%list_elem_of_In. apply Hx in Hin. lia.
Qed.

Lemma refines_step iset s o :
  refines iset s -> Z.of_nat (size s) < 2 ^ 27 -> in_int 64 (op_value o) ->
  exists iset', exec_op iset o = Some (iset', snd (spec_op s o)) /\
    refines iset' (fst (spec_op s o)).
Proof.
  intros (xs & Hr & Hx) Hsz Hv.
  assert (small xs) as Hsm by (unfold small; by rewrite (refines_size iset s xs)).
  destruct o as [junk v|junk v|v]; simpl in *.
  - destruct (add_correct junk iset xs v Hr Hsm Hv) as (iset' & xs' & -> & Hr' & Hx' & _).
    exists iset'. split; [do 2 f_equal; apply bool_decide_ext; set_solver|].
    exists xs'. set_solver.
  - destruct (remove_correct junk iset xs v Hr Hsm Hv) as (iset' & xs' & -> & Hr' & Hx').
    exists iset'. split; [do 2 f_equal; apply bool_decide_ext; set_solver|].
    exists xs'. set_solver.
  - rewrite (find_correct iset xs v Hr Hsm Hv). cbn [mbind option_bind].
    exists iset. split; [do 2 f_equal; apply bool_decide_ext; set_solver|]. by exists xs.
Qed.

Lemma spec_op_size s o : (size (fst (spec_op s o)) <= S (size s))%nat.
Proof.
  destruct o as [? v|? v|v]; simpl; [|apply Nat.le_le_succ_r, subseteq_size; set_solver|lia].
  rewrite size_union_alt, size_singleton.
  pose proof (subseteq_size (s ∖ {[v]}) s ltac:(set_solver)). lia.
Qed.

Lemma exec_ops_refines os : forall iset s,
  refines iset s -> Z.of_nat (size s + length os) < 2 ^ 27 ->
  Forall (fun o => in_int 64 (op_value o)) os ->
  exists iset', exec_ops iset os = Some (iset', snd (spec_ops s os)) /\
    refines iset' (fst (spec_ops s os)).
Proof.
  induction os as [|o os IH]; intros iset s Hr Hsz Hv; simpl in *; [by exists iset|].
  apply Forall_cons_iff in Hv as [Hv Hvs].
  destruct (refines_step iset s o Hr) as (iset' & -> & Hr'); [lia|done|].
  cbn [mbind option_bind fst snd]. pose proof (spec_op_size s o).
  destruct (IH iset' (fst (spec_op s o)) Hr') as (iset'' & -> & Hr''); [lia|done|].
  exists iset''. done.
Qed.

Lemma refines_new : refines intsetNew ∅.
Proof. exists []. split; [|set_solver]. split; try constructor; done. Qed.

(** C6: any sequence of fewer than 2^27 insertions, removals and lookups of 64-bit
    integers that starts from [intsetNew] runs without an out-of-bounds access or an
    integer overflow, and returns the same answers as a mathematical finite set; the
    final structure represents the final set (sorted, in one valid encoding). *)
Theorem intset_refines_set os :
  Z.of_nat (length os) < 2 ^ 27 -> Forall (fun o => in_int 64 (op_value o)) os ->
  exists iset', exec_ops intsetNew os = Some (iset', snd (spec_ops ∅ os)) /\
    refines iset' (fst (spec_ops ∅ os)).
Proof.
  intros Hl Hv. apply exec_ops_refines; [apply refines_new| |done].
  rewrite size_empty. lia.
Qed.

Definition demo_ops : list op :=
  [OpAdd (fun _ => 7) 5; OpAdd (fun _ => 255) (-70000); OpAdd (fun _ => 1) 5;
   OpRemove (fun _ => 0) 5; OpFind (-70000); OpAdd (fun _ => 9) 5000000000].

Lemma intset_refines_set_witness :
  exists iset', exec_ops intsetNew demo_ops = Some (iset', snd (spec_ops ∅ demo_ops)) /\
    refines iset' (fst (spec_ops ∅ demo_ops)).
Proof.
  apply (intset_refines_set demo_ops); [vm_compute; reflexivity|].
  repeat constructor; vm_compute; discriminate.
Defined.

Example intset_demo :
  snd <$> exec_ops intsetNew demo_ops = Some [true; true; false; true; true; true].
Proof. reflexivity. Qed.

(** [intsetGet] at a position of the set and past its end. *)
Lemma get_correct iset xs pos :
  repr iset xs -> 0 <= pos ->
  intsetGet iset pos =
    Some (match xs !! Z.to_nat pos with Some v => (true, v) | None => (false, 0) end).
Proof.
  intros Hr Hp. pose proof Hr as [He Hl Hc _ _].
  unfold intsetGet. rewrite Hl. destruct (xs !! Z.to_nat pos) as [v|] eqn:E.
  - pose proof (repr_get _ _ _ _ Hr E) as Hg. rewrite Z2Nat.id in Hg by done. rewrite Hg.
    apply lookup_lt_Some in E. destruct (Z.ltb_spec pos (zlen xs)); [done|].
    unfold zlen in *. lia.
  - apply lookup_ge_None in E. destruct (Z.ltb_spec pos (zlen xs)); [|done].
    unfold zlen in *. lia.
Qed.

(** [intsetGet] returns exactly the elements in increasing order, and reports
    positions past the end; [intsetRandom] returns an element whatever [rand()] returns;
    [intsetBlobLen] is the size in bytes of the header and of the array. *)
Theorem intset_observers iset xs (pos r : Z) :
  repr iset xs -> small xs -> 0 <= pos -> 0 <= r ->
  intsetGet iset pos =
    Some (match xs !! Z.to_nat pos with Some v => (true, v) | None => (false, 0) end) /\
  (xs <> [] -> exists v, intsetRandom r iset = Some v /\ v ∈ xs) /\
  intsetLen iset = zlen xs /\ intsetBlobLen iset = 8 + zlen (contents iset).
Proof.
  intros Hr Hsm Hp Hrand. pose proof Hr as [He Hl Hc _ _]. pose proof (zlen_nonneg xs).
  pose proof (valid_enc_range _ He). unfold small in Hsm. split_and!.
  - by apply get_correct.
  - intros Hne. unfold intsetRandom. rewrite Hl.
    assert (0 < zlen xs) by (destruct xs; [done|unfold zlen; simpl; lia]).
    destruct (Z.eqb_spec (zlen xs) 0); [lia|].
    pose proof (Z.rem_bound_pos r (zlen xs)).
    destruct (lookup_lt_is_Some_2 xs (Z.to_nat (Z.rem r (zlen xs)))) as [v Hv];
      [unfold zlen in *; lia|].
    pose proof (repr_get _ _ _ _ Hr Hv) as Hg. rewrite Z2Nat.id in Hg by lia.
    exists v. split; [done|]. by eapply list_elem_of_lookup_2.
  - exact Hl.
  - unfold intsetBlobLen. rewrite Hl, Hc, zlen_encode_all by lia.
    rewrite uwrap_id by (unfold in_uint; nia). lia.
Qed.

Definition demo_set : intset := mkIntset 2 2 [5; 0; 44; 1].

Lemma intset_observers_witness :
  intsetGet demo_set 1 = Some (true, 300) /\
  ([5; 300] <> [] -> exists v, intsetRandom 7 demo_set = Some v /\ v ∈ [5; 300]) /\
  intsetLen demo_set = 2 /\ intsetBlobLen demo_set = 8 + zlen (contents demo_set).
Proof.
  apply (intset_observers demo_set [5; 300] 1 7).
  - split; try reflexivity.
    + by left.
    + repeat constructor; vm_compute; discriminate.
    + repeat constructor.
  - reflexivity.
  - lia.
  - lia.
Defined.

End Intset.
