(* ===== verification/Util.v ===== *)
(** * util.c: number parsing and printing, memory amounts, glob patterns

    Model of [src/debug/redis/src/util.c].  A C string is the list of the values of its
    [char]s (signed, as on the platforms Redis supports), without the terminating NUL;
    [chr s i] is the read [s[i]], which sees the NUL at the end and is undefined past it. *)

From Stdlib Require Import ZArith Lia.
From stdpp Require Import prelude list strings numbers.
From S2P Require Import Prelude.

Local Open Scope Z_scope.

Module Util.

Definition cNUL : Z := 0.
Definition cMINUS : Z := 45.
Definition cZERO : Z := 48.
Definition cNINE : Z := 57.

(** ** ll2string *)

(** [do { *p-- = '0'+(v%10); v /= 10; } while(v);]: the digits in front of [acc]. *)
Fixpoint ll2string_loop (fuel : nat) (v : Z) (acc : list Z) : list Z :=
  match fuel with
  | O => acc
  | S fuel =>
    let acc := (cZERO + v mod 10) :: acc in
    let v := v / 10 in
    if v =? 0 then acc else ll2string_loop fuel v acc
  end.

(** The characters of the number before truncation; a 64-bit number has at most 20 digits. *)
Definition ll2string_chars (value : Z) : list Z :=
  let v := uwrap 64 (if value <? 0 then - value else value) in
  let p := ll2string_loop 20 v [] in
  if value <? 0 then cMINUS :: p else p.

(** Returns the length [l] and the bytes written to [s] ([l] characters and a NUL);
    nothing is written when [len] is 0. *)
Definition ll2string (slen value : Z) : Z * list Z :=
  if slen =? 0 then (0, [])
  else
    let p := ll2string_chars value in
    let l := zlen p in
    let l := if slen <? l + 1 then slen - 1 else l in
    (l, take (Z.to_nat l) p ++ [cNUL]).

(** ** string2ll *)

Definition is_digit (c : Z) : bool := (cZERO <=? c) && (c <=? cNINE).

(** The accumulation loop over the remaining characters; [None] is [return 0]
    (overflow, or a character that is not a digit). *)
Fixpoint string2ll_loop (s : list Z) (v : Z) : option Z :=
  match s with
  | [] => Some v
  | c :: s =>
    if is_digit c then
      if ULLONG_MAX / 10 <? v then None
      else
        let v := v * 10 in
        if ULLONG_MAX - (c - cZERO) <? v then None
        else string2ll_loop s (v + (c - cZERO))
    else None
  end.

Definition string2ll (s : list Z) : option Z :=
  match s with
  | [] => None
  | c0 :: _ =>
    if (zlen s =? 1) && (c0 =? cZERO) then Some 0
    else
      let negative := c0 =? cMINUS in
      let p := if negative then drop 1 s else s in
      match p with
      | [] => None
      | c :: p =>
        if (cZERO + 1 <=? c) && (c <=? cNINE) then
          v ← string2ll_loop p (c - cZERO);
          if negative then
            if (- (LLONG_MIN + 1)) + 1 <? v then None else Some (swrap 64 (uwrap 64 (- v)))
          else
            if LLONG_MAX <? v then None else Some v
        else if (c =? cZERO) && (zlen s =? 1) then Some 0
        else None
      end
  end.

Definition LONG_MIN : Z := LLONG_MIN.
Definition LONG_MAX : Z := LLONG_MAX.

(** [long] has 64 bits on the supported (LP64) hosts. *)
Definition string2l (s : list Z) : option Z :=
  llval ← string2ll s;
  if (llval <? LONG_MIN) || (LONG_MAX <? llval) then None else Some llval.

(** ** Digits and values *)

Fixpoint dec_value (acc : Z) (ds : list Z) : Z :=
  match ds with [] => acc | d :: ds => dec_value (10 * acc + (d - cZERO)) ds end.

Definition all_digits (ds : list Z) : Prop := Forall (fun d => cZERO <= d <= cNINE) ds.

Lemma dec_value_app acc a b : dec_value acc (a ++ b) = dec_value (dec_value acc a) b.
Proof. revert acc. induction a; intros; simpl; auto. Qed.

Lemma dec_value_ge ds acc : all_digits ds -> 0 <= acc -> acc <= dec_value acc ds.
Proof.
  intros Hd. revert acc. induction Hd as [|d ds Hd _ IH]; intros acc Ha; simpl; [lia|].
  unfold cZERO in *. etrans; [|apply IH; lia]. lia.
Qed.

Lemma dec_value_cons0 d ds : dec_value 0 (d :: ds) = dec_value (d - cZERO) ds.
Proof. reflexivity. Qed.

Lemma dec_value_pow ds acc : all_digits ds -> 0 <= acc -> acc * 10 ^ zlen ds <= dec_value acc ds.
Proof.
  intros Hd. revert acc. induction Hd as [|d ds Hd _ IH]; intros acc Ha; simpl.
  - rewrite zlen_nil. lia.
  - rewrite zlen_cons, Z.pow_add_r by (pose proof (zlen_nonneg ds); lia).
    unfold cZERO in *. etrans; [|apply IH; lia].
    assert (0 < 10 ^ zlen ds) by (apply Z.pow_pos_nonneg; [lia|apply zlen_nonneg]). nia.
Qed.

(** The loop produces the decimal expansion: only digits, no leading zero. *)
Lemma ll2string_loop_spec fuel v acc :
  0 <= v < 10 ^ Z.of_nat fuel -> (0 < fuel)%nat ->
  exists ds, ll2string_loop fuel v acc = ds ++ acc /\ all_digits ds /\
    ds <> [] /\ dec_value 0 ds = v /\ (v <> 0 -> exists d ds', ds = d :: ds' /\ cZERO < d) /\
    (v = 0 -> ds = [cZERO]).
Proof.
  revert v acc. induction fuel as [|fuel IH]; intros v acc Hv Hf; [lia|].
  cbn [ll2string_loop].
  assert (cZERO <= cZERO + v mod 10 <= cNINE) as Hdig
    by (pose proof (Z.mod_pos_bound v 10); unfold cZERO, cNINE; lia).
  pose proof (Z.div_mod v 10) as Hdm. destruct (Z.eqb_spec (v / 10) 0) as [E|E].
  - exists [cZERO + v mod 10]. split_and!; try done.
    + by constructor.
    + simpl. lia.
    + intros Hne. eexists _, []. split; [done|]. unfold cZERO. lia.
    + intros ->. done.
  - assert (0 <= v / 10) by (apply Z.div_pos; lia).
    rewrite Nat2Z.inj_succ, Z.pow_succ_r in Hv by lia.
    assert (v / 10 < 10 ^ Z.of_nat fuel) by (apply Z.div_lt_upper_bound; lia).
    assert (0 < fuel)%nat by (destruct fuel; [simpl in *; lia|lia]).
    destruct (IH (v / 10) ((cZERO + v mod 10) :: acc)) as (ds & -> & Hd & Hne & Hval & Hlead & _);
      [lia|done|].
    exists (ds ++ [cZERO + v mod 10]). split_and!.
    + by rewrite <- app_assoc.
    + apply Forall_app. split; [done|by constructor].
    + by destruct ds.
    + rewrite dec_value_app, Hval. simpl. lia.
    + intros _. destruct (Hlead E) as (d & ds' & -> & ?). eauto.
    + lia.
Qed.

Lemma string2ll_loop_spec ds v :
  all_digits ds -> 0 <= v <= ULLONG_MAX ->
  string2ll_loop ds v =
    if dec_value v ds <=? ULLONG_MAX then Some (dec_value v ds) else None.
Proof.
  intros Hd. revert v. induction Hd as [|d ds Hd Hds IH]; intros v Hv.
  - simpl. zbool_cases; done || lia.
  - cbn [string2ll_loop dec_value]. unfold is_digit.
    rewrite (proj2 (Z.leb_le _ _)), (proj2 (Z.leb_le d _)) by (unfold cZERO, cNINE in *; lia).
    cbn [andb]. unfold cZERO, cNINE in Hd.
    assert (ULLONG_MAX / 10 = 1844674407370955161) as -> by reflexivity.
    pose proof (dec_value_ge ds (10 * v + (d - cZERO)) Hds) as Hge.
    unfold cZERO in *. unfold ULLONG_MAX in *.
    destruct (Z.ltb_spec 1844674407370955161 v); [zbool_cases; done || lia|].
    destruct (Z.ltb_spec (18446744073709551615 - (d - 48)) (v * 10)).
    + zbool_cases; done || lia.
    + rewrite IH by lia. by replace (v * 10 + (d - 48)) with (10 * v + (d - 48)) by lia.
Qed.

Lemma string2ll_loop_digits s v r : string2ll_loop s v = Some r -> all_digits s.
Proof.
  revert v. induction s as [|c s IH]; intros v; cbn [string2ll_loop]; [constructor|].
  unfold is_digit. destruct (Z.leb_spec cZERO c), (Z.leb_spec c cNINE); cbn [andb]; try done.
  repeat case_match; try done. intros Hs. constructor; [lia|]. by eapply IH.
Qed.

(** A decimal expansion without leading zeros is determined by its value. *)
Definition canonical (ds : list Z) : Prop :=
  all_digits ds /\ (ds = [] \/ exists d ds', ds = d :: ds' /\ cZERO < d).

Lemma canonical_zero ds : canonical ds -> dec_value 0 ds = 0 -> ds = [].
Proof.
  intros [Hd [->|(d & ds' & -> & Hlt)]] Hv; [done|]. rewrite dec_value_cons0 in Hv.
  apply Forall_cons_iff in Hd as [Hd Hds].
  pose proof (dec_value_ge ds' (d - cZERO) Hds). lia.
Qed.

Lemma canonical_snoc a d : canonical (a ++ [d]) -> canonical a /\ cZERO <= d <= cNINE.
Proof.
  intros [Hd Hl]. apply Forall_app in Hd as [Ha Hx]. apply Forall_cons_iff in Hx as [Hx _].
  split; [split; [done|]|done]. destruct a as [|x a]; [by left|right].
  destruct Hl as [Hl|(y & ds & Heq & ?)]; [done|]. simplify_eq/=. eauto.
Qed.

Lemma canonical_inj a b :
  canonical a -> canonical b -> dec_value 0 a = dec_value 0 b -> a = b.
Proof.
  revert b. induction a as [|x a IH] using rev_ind; intros b Ha Hb Hv.
  - symmetry. by apply canonical_zero.
  - destruct b as [|y b _] using rev_ind; [by apply canonical_zero|].
    apply canonical_snoc in Ha as [Ha Hx]. apply canonical_snoc in Hb as [Hb Hy].
    rewrite !dec_value_app in Hv. simpl in Hv. unfold cZERO, cNINE in *.
    assert (x = y) as -> by lia. f_equal. apply IH; [done|done|lia].
Qed.

(** The printed form of a 64-bit number: an optional sign and a canonical expansion. *)
Lemma ll2string_chars_shape value :
  in_int 64 value ->
  exists ds, ll2string_chars value = (if value <? 0 then cMINUS :: ds else ds) /\
    all_digits ds /\ dec_value 0 ds = Z.abs value /\
    (value <> 0 -> exists d ds', ds = d :: ds' /\ cZERO < d) /\ (value = 0 -> ds = [cZERO]).
Proof.
  intros [Hl Hu]. unfold ll2string_chars.
  assert (uwrap 64 (if value <? 0 then - value else value) = Z.abs value) as ->.
  { rewrite uwrap_id; [destruct (Z.ltb_spec value 0); lia|].
    unfold in_uint. destruct (Z.ltb_spec value 0); lia. }
  destruct (ll2string_loop_spec 20 (Z.abs value) []) as (ds & -> & Hd & Hne & Hv & Hlead & Hz);
    [simpl; lia|lia|].
  rewrite app_nil_r. exists ds. split_and!; try done.
  - intros ?. apply Hlead. lia.
  - intros ?. apply Hz. lia.
Qed.

Lemma string2ll_ll2string value :
  in_int 64 value -> string2ll (ll2string_chars value) = Some value.
Proof.
  intros Hv. destruct (ll2string_chars_shape value Hv) as (ds & -> & Hd & Hval & Hlead & Hz).
  destruct Hv as [Hl Hu]. destruct (Z.eq_dec value 0) as [->|Hne]; [by rewrite Hz|].
  destruct (Hlead Hne) as (d & ds' & -> & Hpos). apply Forall_cons_iff in Hd as [Hdr Hds].
  rewrite dec_value_cons0 in Hval. unfold cZERO, cNINE in *.
  assert (string2ll_loop ds' (d - 48) = Some (Z.abs value)) as Hloop.
  { rewrite string2ll_loop_spec by (done || unfold ULLONG_MAX; lia).
    rewrite Hval. destruct (Z.leb_spec (Z.abs value) ULLONG_MAX); [done|].
    unfold ULLONG_MAX in *. lia. }
  unfold string2ll. destruct (Z.ltb_spec value 0).
  - cbn [drop]. unfold cMINUS, cZERO, cNINE. rewrite andb_false_r. cbn [Z.eqb Pos.eqb].
    cbv iota beta zeta. cbn [drop].
    rewrite (proj2 (Z.leb_le _ _)), (proj2 (Z.leb_le _ _)) by lia. cbn [andb].
    rewrite Hloop. cbn [mbind option_bind]. unfold LLONG_MIN.
    destruct (Z.ltb_spec (- (-9223372036854775808 + 1) + 1) (Z.abs value)); [lia|].
    rewrite Z.abs_neq, Z.opp_involutive by lia. f_equal.
    unfold uwrap. rewrite swrap_uwrap by lia. apply swrap_id; [lia|]. unfold in_int. lia.
  - unfold cMINUS, cZERO, cNINE.
    rewrite (proj2 (Z.eqb_neq d 48)), (proj2 (Z.eqb_neq d 45)), andb_false_r by lia.
    rewrite (proj2 (Z.leb_le _ _)), (proj2 (Z.leb_le _ _)) by lia. cbn [andb].
    rewrite Hloop. cbn [mbind option_bind]. unfold LLONG_MAX.
    destruct (Z.ltb_spec 9223372036854775807 (Z.abs value)); [lia|]. f_equal. lia.
Qed.

(** What an accepted string looks like. *)
Lemma string2ll_shape s value :
  string2ll s = Some value ->
  (s = [cZERO] /\ value = 0) \/
  exists d ds, cZERO < d /\ all_digits (d :: ds) /\
    ((s = d :: ds /\ value = dec_value 0 (d :: ds) /\ value <= LLONG_MAX) \/
     (s = cMINUS :: d :: ds /\ value = - dec_value 0 (d :: ds) /\ LLONG_MIN <= value)).
Proof.
  unfold string2ll. destruct s as [|c0 s']; [done|].
  destruct (Z.eqb_spec c0 cZERO) as [->|Hc0].
  { destruct (Z.eqb_spec (zlen (cZERO :: s')) 1) as [Hlen|Hlen].
    - intros [= <-]. left. split; [|done].
      destruct s'; [done|]. unfold zlen in Hlen. simpl in Hlen. lia.
    - cbn [andb]. change (cZERO =? cMINUS) with false. cbv iota zeta beta.
      change ((cZERO + 1 <=? cZERO) && (cZERO <=? cNINE)) with false. cbv iota.
      by rewrite Z.eqb_refl. }
  rewrite andb_false_r. cbv zeta iota beta.
  assert (forall neg p, (match p with
      | [] => None
      | c :: p0 =>
        if (cZERO + 1 <=? c) && (c <=? cNINE)
        then v ← string2ll_loop p0 (c - cZERO);
          if neg : bool then if - (LLONG_MIN + 1) + 1 <? v then None
            else Some (swrap 64 (uwrap 64 (- v)))
          else if LLONG_MAX <? v then None else Some v
        else if (c =? cZERO) && (zlen (c0 :: s') =? 1) then Some 0 else None
      end = Some value) -> (forall c p', p = c :: p' -> c = cZERO -> zlen (c0 :: s') <> 1) ->
      exists d ds, p = d :: ds /\ cZERO < d /\ all_digits (d :: ds) /\
        value = (if neg then - dec_value 0 (d :: ds) else dec_value 0 (d :: ds)) /\
        (if neg then LLONG_MIN <= value else value <= LLONG_MAX)) as Hmain.
  { intros neg [|c p] Hs Hn; [done|]. exists c, p.
    destruct (Z.leb_spec (cZERO + 1) c), (Z.leb_spec c cNINE); cbn [andb] in Hs;
      try (destruct (Z.eqb_spec c cZERO), (Z.eqb_spec (zlen (c0 :: s')) 1); try done;
           exfalso; by eapply Hn).
    destruct (string2ll_loop p (c - cZERO)) as [v|] eqn:E; [|done].
    cbn [mbind option_bind] in Hs. pose proof (string2ll_loop_digits _ _ _ E) as Hp.
    rewrite string2ll_loop_spec in E by (done || unfold cZERO, cNINE, ULLONG_MAX in *; lia).
    destruct (_ <=? ULLONG_MAX); [|done]. injection E as <-. split; [done|]. split; [lia|].
    split; [constructor; [lia|done]|]. rewrite !dec_value_cons0.
    pose proof (dec_value_ge p (c - cZERO) Hp ltac:(lia)) as Hge.
    destruct neg.
    - destruct (Z.ltb_spec (- (LLONG_MIN + 1) + 1) (dec_value (c - cZERO) p)); [done|].
      injection Hs as <-. unfold LLONG_MIN in *. unfold uwrap.
      rewrite swrap_uwrap, swrap_id by first [lia|unfold in_int; lia]. lia.
    - destruct (Z.ltb_spec LLONG_MAX (dec_value (c - cZERO) p)); [done|].
      injection Hs as <-. lia. }
  intros Hs. right. destruct (Z.eqb_spec c0 cMINUS) as [->|Hm].
  - cbn [drop] in Hs. rewrite drop_0 in Hs. destruct (Hmain true s' Hs) as (d & ds & -> & ? & ? & ? & ?).
    + intros c p' -> _. unfold zlen. simpl. lia.
    + exists d, ds. split_and!; try done. right. done.
  - destruct (Hmain false (c0 :: s') Hs) as (d & ds & Heq & ? & ? & ? & ?).
    + intros c p' [= -> ->] ?. done.
    + exists d, ds. split_and!; try done. left. done.
Qed.

(** What [string2ll] accepts is what [ll2string] prints. *)
Lemma string2ll_canonical s value :
  string2ll s = Some value -> in_int 64 value /\ s = ll2string_chars value.
Proof.
  intros Hs. apply string2ll_shape in Hs as [[-> ->]|(d & ds & Hd & Hds & Hcase)].
  { split; [split; done|]. reflexivity. }
  pose proof Hds as Hds'. apply Forall_cons_iff in Hds' as [Hdd Hds'].
  pose proof (dec_value_ge ds (d - cZERO) Hds' ltac:(lia)) as Hge.
  assert (dec_value 0 (d :: ds) = dec_value (d - cZERO) ds) as Hdv by apply dec_value_cons0.
  assert (in_int 64 value) as Hv.
  { unfold in_int, LLONG_MAX, LLONG_MIN in *.
    destruct Hcase as [(_ & Hv1 & Hv2)|(_ & Hv1 & Hv2)]; rewrite Hdv in Hv1; lia. }
  split; [done|]. destruct (ll2string_chars_shape value Hv) as (ds2 & -> & Hd2 & Hval & Hlead & _).
  assert (value <> 0) as Hne by (destruct Hcase as [(_ & Hv1 & _)|(_ & Hv1 & _)];
    rewrite Hdv in Hv1; lia).
  assert (d :: ds = ds2) as <-.
  { apply canonical_inj; [split; [done|right; eauto]|split; [done|right; auto]|].
    rewrite Hval. destruct Hcase as [(_ & Hv1 & _)|(_ & Hv1 & _)]; rewrite Hdv in *; lia. }
  destruct Hcase as [(-> & Hv1 & _)|(-> & Hv1 & _)]; rewrite Hdv in Hv1;
    destruct (Z.ltb_spec value 0); done || lia.
Qed.

(** C8: [string2ll] accepts exactly the strings that [ll2string] prints for the 64-bit
    integers, and returns the printed number: the two functions are inverse to each other,
    and no other spelling (leading zeros, [+], spaces, "-0", out-of-range numbers) parses. *)
Theorem string2ll_iff_ll2string s value :
  string2ll s = Some value <-> in_int 64 value /\ s = ll2string_chars value.
Proof. split; [apply string2ll_canonical|intros [Hv ->]; by apply string2ll_ll2string]. Qed.

Lemma ll2string_chars_len value : in_int 64 value -> 1 <= zlen (ll2string_chars value) <= 20.
Proof.
  intros Hv. destruct (ll2string_chars_shape value Hv) as (ds & -> & Hd & Hval & Hlead & Hz).
  assert (1 <= zlen ds <= 19).
  { destruct (Z.eq_dec value 0) as [->|Hne]; [by rewrite Hz|].
    destruct (Hlead Hne) as (d & ds' & -> & Hpos). rewrite zlen_cons.
    apply Forall_cons_iff in Hd as [_ Hd].
    rewrite dec_value_cons0 in Hval.
    pose proof (dec_value_pow ds' (d - cZERO) Hd ltac:(lia)) as Hpw.
    pose proof (zlen_nonneg ds'). destruct (Z.le_gt_cases (zlen ds') 18); [lia|].
    pose proof (Z.pow_le_mono_r 10 19 (zlen ds') ltac:(lia) ltac:(lia)) as Hmono.
    unfold in_int in Hv. simpl in Hv. nia. }
  destruct (value <? 0); [rewrite zlen_cons|]; lia.
Qed.

(** With room for 20 characters and the NUL the whole number is written. *)
Lemma ll2string_whole slen value :
  in_int 64 value -> 21 <= slen ->
  ll2string slen value = (zlen (ll2string_chars value), ll2string_chars value ++ [cNUL]).
Proof.
  intros Hv Hs. pose proof (ll2string_chars_len value Hv). unfold ll2string.
  rewrite (proj2 (Z.eqb_neq slen 0)) by lia.
  rewrite (proj2 (Z.ltb_ge slen _)) by lia. unfold zlen. by rewrite Nat2Z.id, take_ge by lia.
Qed.

(** C9: every 64-bit integer prints in at most 20 characters (so the 32-byte scratch buffer
    and the 21-byte buffers of the callers never overflow); with room for the NUL the whole
    number is written, and with less room the output is its longest prefix that fits. *)
Theorem ll2string_bounds slen value :
  in_int 64 value -> 0 < slen ->
  1 <= zlen (ll2string_chars value) <= 20 /\
  exists l, ll2string slen value = (l, take (Z.to_nat l) (ll2string_chars value) ++ [cNUL]) /\
    0 <= l < slen /\ l = Z.min (slen - 1) (zlen (ll2string_chars value)).
Proof.
  intros Hv Hs. pose proof (ll2string_chars_len value Hv) as Hb.
  split; [done|]. unfold ll2string. rewrite (proj2 (Z.eqb_neq slen 0)) by lia.
  eexists. split; [done|]. destruct (Z.ltb_spec slen (zlen (ll2string_chars value) + 1)); lia.
Qed.

Lemma ll2string_bounds_witness :
  exists l, ll2string 3 (-1234) = (l, take (Z.to_nat l) (ll2string_chars (-1234)) ++ [cNUL]) /\ 0 <= l < 3.
Proof.
  destruct (ll2string_bounds 3 (-1234)) as (_ & l & H & Hl & _).
  - unfold in_int. simpl. lia.
  - lia.
  - exists l. split; [exact H|exact Hl].
Defined.

(** ** memtoll *)

Definition strcaseeq (a b : list Z) : bool := bool_decide (tolower <$> a = tolower <$> b).

(** A C string ends at its first NUL. *)
Fixpoint cstr (s : list Z) : list Z :=
  match s with [] => [] | x :: s => if x =? 0 then [] else x :: cstr s end.

Definition strcasecmp_eq (a b : list Z) : bool := strcaseeq (cstr a) (cstr b).

Fixpoint span_digits (s : list Z) : list Z * list Z :=
  match s with
  | c :: s' => if is_digit c then let r := span_digits s' in (c :: fst r, snd r) else ([], s)
  | [] => ([], [])
  end.

(** [strtoll(buf,NULL,10)] on an optional sign followed by digits: out-of-range
    values saturate. *)
Definition strtoll (buf : list Z) : Z :=
  let n := match buf with
           | c :: ds => if c =? cMINUS then - dec_value 0 ds else dec_value 0 buf
           | [] => 0
           end in
  Z.max LLONG_MIN (Z.min LLONG_MAX n).

(** The unit multiplier, and whether the unit is unknown. *)
Definition memtoll_unit (u : list Z) : Z * bool :=
  if bool_decide (u = []) || strcaseeq u (str "b") then (1, false)
  else if strcaseeq u (str "k") then (1000, false)
  else if strcaseeq u (str "kb") then (1024, false)
  else if strcaseeq u (str "m") then (1000 * 1000, false)
  else if strcaseeq u (str "mb") then (1024 * 1024, false)
  else if strcaseeq u (str "g") then (1000 * 1000 * 1000, false)
  else if strcaseeq u (str "gb") then (1024 * 1024 * 1024, false)
  else (1, true).

(** The value and [*err]; [None] is the signed overflow of [val*mul]. *)
Definition memtoll (p : list Z) : option (Z * bool) :=
  let sign := match p with c :: _ => if c =? cMINUS then [c] else [] | [] => [] end in
  let r := span_digits (drop (length sign) p) in
  let '(mul, err) := memtoll_unit (snd r) in
  let buf := sign ++ fst r in
  if 128 <=? zlen buf then Some (LLONG_MAX, true)
  else
    let val := strtoll buf in
    if decide (in_int 64 (val * mul)) then Some (val * mul, err) else None.

(** The documented units. *)
Definition mem_units : list (list Z * Z) :=
  [(str "", 1); (str "b", 1); (str "k", 1000); (str "kb", 1024); (str "m", 1000 * 1000);
   (str "mb", 1024 * 1024); (str "g", 1000 * 1000 * 1000); (str "gb", 1024 * 1024 * 1024)].

Lemma span_digits_app ds u :
  all_digits ds -> (forall c u', u = c :: u' -> is_digit c = false) ->
  span_digits (ds ++ u) = (ds, u).
Proof.
  intros Hd Hu. induction Hd as [|d ds Hd _ IH]; simpl.
  - destruct u as [|c u']; [done|]. simpl. by rewrite (Hu c u').
  - unfold is_digit. rewrite (proj2 (Z.leb_le _ _)), (proj2 (Z.leb_le d _)) by lia.
    cbn [andb]. by rewrite IH.
Qed.

(** A 64-bit amount followed by a documented unit parses to the amount times the unit,
    with the error flag clear, whenever the product is a [long long]. *)
Theorem memtoll_units n u mul :
  in_int 64 n -> (u, mul) ∈ mem_units -> in_int 64 (n * mul) ->
  memtoll (ll2string_chars n ++ u) = Some (n * mul, false).
Proof.
  intros Hn Hu Hm.
  assert (memtoll_unit u = (mul, false) /\
    (forall c u', u = c :: u' -> is_digit c = false /\ c <> cMINUS)) as [Hunit Hhead].
  { unfold mem_units in Hu.
    repeat (apply elem_of_cons in Hu as [Hu|Hu];
      [injection Hu as -> ->; split; [reflexivity|intros c u' Heq; vm_compute in Heq; by simplify_eq]|]).
    by apply elem_of_nil in Hu. }
  destruct (ll2string_chars_shape n Hn) as (ds & Hch & Hd & Hval & Hlead & Hz).
  assert (exists d ds', ds = d :: ds' /\ d <> cMINUS) as (d & ds' & Heq & Hdm).
  { destruct (Z.eq_dec n 0) as [->|Hne]; [rewrite Hz by done; by exists cZERO, []|].
    destruct (Hlead Hne) as (d & ds' & -> & ?). exists d, ds'. unfold cZERO, cMINUS in *.
    split; [done|lia]. }
  pose proof (span_digits_app ds u Hd (fun c u' E => proj1 (Hhead c u' E))) as Hspan.
  destruct (ll2string_bounds 32 n Hn) as [Hb _]; [lia|]. rewrite Hch in *.
  unfold memtoll. destruct (Z.ltb_spec n 0) as [Hneg|Hpos].
  - cbn [app]. rewrite Z.eqb_refl. cbn [length drop]. rewrite drop_0, Hspan. cbn [fst snd].
    rewrite Hunit. cbn [app]. destruct (Z.leb_spec 128 (zlen (cMINUS :: ds))); [lia|].
    assert (strtoll (cMINUS :: ds) = n) as ->.
    { unfold strtoll. rewrite Z.eqb_refl, Hval. unfold LLONG_MIN, LLONG_MAX, in_int in *. lia. }
    by rewrite decide_True.
  - rewrite Heq. cbn [app]. destruct (Z.eqb_spec d cMINUS); [done|].
    cbn [length]. rewrite drop_0. rewrite Heq in Hspan. cbn [app] in Hspan.
    rewrite Hspan. cbn [fst snd]. rewrite Hunit. cbn [app].
    destruct (Z.leb_spec 128 (zlen (d :: ds'))); [rewrite Heq in Hb; lia|].
    assert (strtoll (d :: ds') = n) as ->.
    { unfold strtoll. destruct (Z.eqb_spec d cMINUS); [done|]. rewrite <- Heq, Hval.
      unfold LLONG_MIN, LLONG_MAX, in_int in *. lia. }
    by rewrite decide_True.
Qed.

Lemma memtoll_units_witness : memtoll (ll2string_chars 64 ++ str "mb") = Some (64 * (1024 * 1024), false).
Proof.
  apply (memtoll_units 64 (str "mb") (1024 * 1024)).
  - split; vm_compute; done.
  - unfold mem_units. set_solver.
  - split; vm_compute; done.
Defined.

(** The comment of [memtoll] promises 1073741824 for "1Gi"; the code does not know this
    unit: it reports an error and returns 1. *)
Theorem memtoll_Gi_unknown : memtoll (str "1Gi") = Some (1, true).
Proof. reflexivity. Qed.

End Util.
