(* ===== verification/Glob.v ===== *)
(** * util.c: glob-style pattern matching

    Model of [stringmatchlen] and [stringmatch] of [src/debug/redis/src/util.c], which decide
    KEYS, PSUBSCRIBE and CONFIG GET patterns.  A pointer into the pattern or the string is
    an index into the NUL-terminated text, next to the remaining length as in the source;
    a read past the NUL is [Undefined].

    The reference definition is [gmatch] on the tokens of the pattern.  The matcher agrees
    with it on every pattern without character classes; with classes it may read past the
    end of both texts, as the last theorems show. *)

From Stdlib Require Import ZArith Lia.
From stdpp Require Import prelude list strings numbers.
From S2P Require Import Prelude.

Local Open Scope Z_scope.

Module Glob.

Definition cSTAR : Z := 42.
Definition cQUEST : Z := 63.
Definition cLBRACK : Z := 91.
Definition cBACKSL : Z := 92.
Definition cRBRACK : Z := 93.
Definition cCARET : Z := 94.
Definition cDASH : Z := 45.

(** The character comparison of the literal cases. *)
Definition char_eq (nocase : bool) (a b : Z) : bool :=
  if nocase then tolower a =? tolower b else a =? b.

(** Skips the stars behind the current one: the loop on [pattern[1]]. *)
Fixpoint skip_stars (fuel : nat) (p : list Z) (pi plen : Z) : outcome (Z * Z) :=
  match fuel with
  | O => OutOfFuel
  | S fuel =>
    c ← chr p (pi + 1);
    if c =? cSTAR then skip_stars fuel p (pi + 1) (plen - 1) else Ok (pi, plen)
  end.

(** The same for the stars at the end of the pattern, from [pattern[0]]. *)
Fixpoint skip_trailing (fuel : nat) (p : list Z) (pi plen : Z) : outcome (Z * Z) :=
  match fuel with
  | O => OutOfFuel
  | S fuel =>
    c ← chr p pi;
    if c =? cSTAR then skip_trailing fuel p (pi + 1) (plen - 1) else Ok (pi, plen)
  end.

(** The body of a character class: the new pattern pointer and length, and [match]. *)
Fixpoint class_loop (fuel : nat) (nocase : bool) (p s : list Z) (pi plen si : Z)
    (matched : bool) : outcome (Z * Z * bool) :=
  match fuel with
  | O => OutOfFuel
  | S fuel =>
    c0 ← chr p pi;
    if c0 =? cBACKSL then
      c ← chr p (pi + 1);
      x ← chr s si;
      class_loop fuel nocase p s (pi + 1 + 1) (plen - 1 - 1) si (matched || (c =? x))
    else if c0 =? cRBRACK then Ok (pi, plen, matched)
    else if plen =? 0 then Ok (pi - 1, plen + 1, matched)
    else
      c1 ← chr p (pi + 1);
      if (c1 =? cDASH) && (3 <=? plen) then
        c2 ← chr p (pi + 2);
        x ← chr s si;
        let start := if c2 <? c0 then c2 else c0 in
        let stop := if c2 <? c0 then c0 else c2 in
        let start := if nocase then tolower start else start in
        let stop := if nocase then tolower stop else stop in
        let c := if nocase then tolower x else x in
        class_loop fuel nocase p s (pi + 2 + 1) (plen - 2 - 1) si
          (matched || ((start <=? c) && (c <=? stop)))
      else
        x ← chr s si;
        class_loop fuel nocase p s (pi + 1) (plen - 1) si (matched || char_eq nocase c0 x)
  end.

(** The loop over the suffixes of the string behind a star. *)
Fixpoint star_loop (m : Z -> Z -> outcome bool) (n : nat) (si slen : Z) : outcome bool :=
  match n with
  | O => OutOfFuel
  | S n =>
    if slen =? 0 then Ok false
    else
      r ← m si slen;
      if r : bool then Ok true else star_loop m n (si + 1) (slen - 1)
  end.

Fixpoint stringmatch_loop (fuel : nat) (nocase : bool) (p s : list Z) (pi plen si slen : Z)
  : outcome bool :=
  match fuel with
  | O => OutOfFuel
  | S fuel =>
    (* the end of the loop body: [pattern++] and the test of the string length *)
    let next pi plen si slen :=
      let pi := pi + 1 in
      let plen := plen - 1 in
      if slen =? 0 then
        r ← skip_trailing (S (length p)) p pi plen;
        Ok (snd r =? 0)
      else stringmatch_loop fuel nocase p s pi plen si slen in
    let literal pi plen :=
      c ← chr p pi;
      x ← chr s si;
      if char_eq nocase c x then next pi plen (si + 1) (slen - 1) else Ok false in
    if plen =? 0 then Ok (slen =? 0)
    else
      c0 ← chr p pi;
      if c0 =? cSTAR then
        r ← skip_stars (S (length p)) p pi plen;
        let '(pi, plen) := r in
        if plen =? 1 then Ok true
        else star_loop (stringmatch_loop fuel nocase p s (pi + 1) (plen - 1))
               (S (length s)) si slen
      else if c0 =? cQUEST then
        if slen =? 0 then Ok false else next pi plen (si + 1) (slen - 1)
      else if c0 =? cLBRACK then
        c1 ← chr p (pi + 1);
        let neg := c1 =? cCARET in
        let pi := if neg then pi + 1 + 1 else pi + 1 in
        let plen := if neg then plen - 1 - 1 else plen - 1 in
        r ← class_loop (S (length p)) nocase p s pi plen si false;
        let '(pi, plen, matched) := r in
        if xorb neg matched then next pi plen (si + 1) (slen - 1) else Ok false
      else if c0 =? cBACKSL then
        if 2 <=? plen then literal (pi + 1) (plen - 1) else literal pi plen
      else literal pi plen
  end.

(** Every iteration and every recursive call consumes a character of the pattern. *)
Definition stringmatchlen (p s : list Z) (nocase : bool) : outcome bool :=
  stringmatch_loop (S (length p)) nocase p s 0 (zlen p) 0 (zlen s).

Definition stringmatch (p s : list Z) (nocase : bool) : outcome bool :=
  stringmatchlen p s nocase.

(** ** Reference semantics of the patterns without classes *)

Inductive token := Star | Any | Lit (c : Z).

Fixpoint tokens (p : list Z) : list token :=
  match p with
  | [] => []
  | c :: p' =>
    if c =? cSTAR then Star :: tokens p'
    else if c =? cQUEST then Any :: tokens p'
    else if c =? cBACKSL then
      match p' with [] => [Lit c] | d :: p'' => Lit d :: tokens p'' end
    else Lit c :: tokens p'
  end.

Fixpoint any_suffix (f : list Z -> bool) (s : list Z) : bool :=
  f s || match s with [] => false | _ :: s' => any_suffix f s' end.

Fixpoint gmatch (nocase : bool) (ts : list token) (s : list Z) : bool :=
  match ts with
  | [] => bool_decide (s = [])
  | Star :: ts => any_suffix (gmatch nocase ts) s
  | Any :: ts => match s with [] => false | _ :: s' => gmatch nocase ts s' end
  | Lit c :: ts =>
    match s with [] => false | x :: s' => char_eq nocase c x && gmatch nocase ts s' end
  end.

(** Patterns that do not open a character class, and hold no NUL. *)
Definition class_free (p : list Z) : Prop := Forall (fun c => c <> cLBRACK /\ c <> 0) p.

(** ** Correctness *)

Lemma any_suffix_idem f s : any_suffix (any_suffix f) s = any_suffix f s.
Proof.
  induction s as [|x s IH]; simpl; [by rewrite !orb_false_r|]. rewrite IH.
  destruct (f (x :: s)), (any_suffix f s); done.
Qed.

Lemma any_suffix_bool_true s : any_suffix (fun s => bool_decide (s = [])) s = true.
Proof. induction s as [|x s IH]; [done|]. simpl. by rewrite IH. Qed.

Lemma tokens_star q : tokens (cSTAR :: q) = Star :: tokens q.
Proof. reflexivity. Qed.

(** A pattern that is not empty and starts with no star does not match the empty string. *)
Lemma gmatch_nil nocase c q : c <> cSTAR -> gmatch nocase (tokens (c :: q)) [] = false.
Proof.
  intros Hc. simpl. rewrite (proj2 (Z.eqb_neq _ _)) by done.
  repeat case_match; done.
Qed.

Section Matcher.
Context (nocase : bool).

Lemma skip_stars_spec q : forall fuel pre, (length q < fuel)%nat ->
  exists pre' rest,
    skip_stars fuel (pre ++ cSTAR :: q) (zlen pre) (1 + zlen q) = Ok (zlen pre', 1 + zlen rest) /\
    pre ++ cSTAR :: q = pre' ++ cSTAR :: rest /\ head rest <> Some cSTAR /\
    (forall t, gmatch nocase (tokens (cSTAR :: q)) t = gmatch nocase (tokens (cSTAR :: rest)) t) /\
    (exists skipped, q = skipped ++ rest).
Proof.
  induction q as [|c q IH]; intros fuel pre Hf; destruct fuel as [|fuel]; try (simpl in *; lia);
    cbn [skip_stars].
  - rewrite chr_end by (rewrite zlen_app, zlen_cons, zlen_nil; lia). simpl.
    exists pre, []. split_and!; try done. by exists [].
  - replace (pre ++ cSTAR :: c :: q) with ((pre ++ [cSTAR]) ++ c :: q) by by rewrite <- app_assoc.
    rewrite chr_app_cons by (rewrite zlen_app, zlen_cons, zlen_nil; lia).
    cbn [mbind outcome_bind]. destruct (Z.eqb_spec c cSTAR) as [->|Hc].
    + destruct (IH fuel (pre ++ [cSTAR])) as (pre' & rest & Heq & Hp & Hh & Hg & (sk & ->));
        [simpl in *; lia|].
      exists pre', rest. split_and!; [|done|done| |by exists (cSTAR :: sk)].
      * rewrite <- Heq. f_equal; len_solve.
      * intros t. rewrite <- Hg. rewrite !tokens_star. cbn [gmatch]. apply any_suffix_idem.
    + exists pre, (c :: q). rewrite <- app_assoc. split_and!; try done.
      * simpl. congruence.
      * by exists [].
Qed.

Lemma skip_trailing_spec q : forall fuel pre, class_free q -> (length q < fuel)%nat ->
  exists r, skip_trailing fuel (pre ++ q) (zlen pre) (zlen q) = Ok r /\
    (snd r =? 0) = gmatch nocase (tokens q) [].
Proof.
  induction q as [|c q IH]; intros fuel pre Hcf Hf; destruct fuel as [|fuel];
    try (simpl in *; lia); cbn [skip_trailing].
  - rewrite app_nil_r, chr_end by done. simpl. by eexists.
  - rewrite chr_app_cons by done. cbn [mbind outcome_bind].
    apply Forall_cons_iff in Hcf as [_ Hcf]. destruct (Z.eqb_spec c cSTAR) as [->|Hc].
    + destruct (IH fuel (pre ++ [cSTAR]) Hcf) as (r & Heq & Hr); [simpl in *; lia|].
      exists r. rewrite <- app_assoc in Heq. split.
      * rewrite <- Heq. f_equal; len_solve.
      * rewrite Hr, tokens_star. simpl. by rewrite orb_false_r.
    + eexists. split; [done|]. rewrite gmatch_nil by done. rewrite zlen_cons.
      cbn [snd]. apply Z.eqb_neq. pose proof (zlen_nonneg q). lia.
Qed.

Lemma star_loop_spec (m : Z -> Z -> outcome bool) f spre t n :
  (forall spre' t', spre ++ t = spre' ++ t' -> m (zlen spre') (zlen t') = Ok (f t')) ->
  f [] = false -> (length t < n)%nat ->
  star_loop m n (zlen spre) (zlen t) = Ok (any_suffix f t).
Proof.
  intros Hm Hnil. revert spre n Hm.
  induction t as [|x t IH]; intros spre n Hm Hn; destruct n as [|n]; try (simpl in *; lia);
    cbn [star_loop any_suffix].
  - simpl. by rewrite Hnil.
  - rewrite (proj2 (Z.eqb_neq _ _)) by (rewrite zlen_cons; pose proof (zlen_nonneg t); lia).
    rewrite Hm by done. cbn [mbind outcome_bind]. destruct (f (x :: t)); [done|]. cbn [orb].
    rewrite <- (IH (spre ++ [x]) n).
    + f_equal; rewrite ?zlen_app, ?zlen_cons, ?zlen_nil; lia.
    + intros spre' t' Heq. apply Hm. rewrite <- Heq, <- app_assoc. done.
    + simpl in *. lia.
Qed.

Lemma char_eq_nul c : c <> 0 -> char_eq nocase c 0 = false.
Proof.
  intros Hc. unfold char_eq. destruct nocase; apply Z.eqb_neq; [|done].
  change (tolower 0) with 0. by rewrite tolower_zero.
Qed.

Lemma matcher_correct n : forall q fuel pre spre t,
  (length q <= n)%nat -> (n < fuel)%nat -> class_free q ->
  stringmatch_loop fuel nocase (pre ++ q) (spre ++ t) (zlen pre) (zlen q) (zlen spre) (zlen t) =
    Ok (gmatch nocase (tokens q) t).
Proof.
  induction n as [n IH] using lt_wf_ind. intros q fuel pre spre t Hn Hf Hcf.
  destruct fuel as [|fuel]; [lia|]. cbn [stringmatch_loop]. destruct q as [|c q].
  { simpl. destruct t; [done|]. rewrite zlen_cons. pose proof (zlen_nonneg t).
    by rewrite (proj2 (Z.eqb_neq _ _)), bool_decide_false by (done || lia). }
  pose proof Hcf as [[Hc1 Hc2] Hcf']%Forall_cons_iff. simpl in Hn.
  rewrite (proj2 (Z.eqb_neq _ _)) by (rewrite zlen_cons; pose proof (zlen_nonneg q); lia).
  rewrite (chr_app_cons pre c q (zlen pre) eq_refl). cbn [mbind outcome_bind].
  (* the end of the loop body *)
  assert (forall d pre0 q0 x t0, d :: q0 `suffix_of` c :: q -> pre0 ++ d :: q0 = pre ++ c :: q ->
    t = x :: t0 ->
    (if zlen t - 1 =? 0 then
       r ← skip_trailing (S (length (pre ++ c :: q))) (pre ++ c :: q) (zlen pre0 + 1)
             (zlen (d :: q0) - 1);
       Ok (snd r =? 0)
     else stringmatch_loop fuel nocase (pre ++ c :: q) (spre ++ t) (zlen pre0 + 1)
            (zlen (d :: q0) - 1) (zlen spre + 1) (zlen t - 1)) =
    Ok (gmatch nocase (tokens q0) t0)) as Hnext.
  { intros d pre0 q0 x t0 [k Hk] Heq ->.
    assert (class_free q0) as Hcf0.
    { unfold class_free in *. rewrite Hk in Hcf. apply Forall_app in Hcf as [_ Hcf].
      by apply Forall_cons_iff in Hcf as [_ ?]. }
    assert (length q0 < n)%nat as Hq0.
    { apply (f_equal length) in Hk. rewrite length_app in Hk. simpl in Hk. lia. }
    rewrite <- Heq. replace (pre0 ++ d :: q0) with ((pre0 ++ [d]) ++ q0) by by rewrite <- app_assoc.
    replace (zlen pre0 + 1) with (zlen (pre0 ++ [d])) by (rewrite zlen_app; done).
    replace (zlen (d :: q0) - 1) with (zlen q0) by (rewrite zlen_cons; lia).
    replace (zlen (x :: t0) - 1) with (zlen t0) by (rewrite zlen_cons; lia).
    destruct (Z.eqb_spec (zlen t0) 0) as [Ht|Ht].
    - destruct t0 as [|y t0]; [|rewrite zlen_cons in Ht; pose proof (zlen_nonneg t0); lia].
      destruct (skip_trailing_spec q0 (S (length ((pre0 ++ [d]) ++ q0))) (pre0 ++ [d]) Hcf0)
        as (r & -> & Hr); [rewrite length_app; lia|]. cbn [mbind outcome_bind]. by rewrite Hr.
    - replace (spre ++ x :: t0) with ((spre ++ [x]) ++ t0) by by rewrite <- app_assoc.
      replace (zlen spre + 1) with (zlen (spre ++ [x])) by (rewrite zlen_app; done).
      apply (IH (length q0)); [done|lia|lia|done]. }
  (* a literal character *)
  assert (forall d pre0 q0, d :: q0 `suffix_of` c :: q -> pre0 ++ d :: q0 = pre ++ c :: q ->
    d <> 0 ->
    (y ← chr (pre ++ c :: q) (zlen pre0);
     x ← chr (spre ++ t) (zlen spre);
     if char_eq nocase y x then
       if zlen t - 1 =? 0 then
         r ← skip_trailing (S (length (pre ++ c :: q))) (pre ++ c :: q) (zlen pre0 + 1)
               (zlen (d :: q0) - 1);
         Ok (snd r =? 0)
       else stringmatch_loop fuel nocase (pre ++ c :: q) (spre ++ t) (zlen pre0 + 1)
              (zlen (d :: q0) - 1) (zlen spre + 1) (zlen t - 1)
     else Ok false) =
    Ok (gmatch nocase (Lit d :: tokens q0) t)) as Hlit.
  { intros d pre0 q0 Hsuf Heq Hd. rewrite <- Heq at 1. rewrite chr_app_cons by done.
    cbn [mbind outcome_bind gmatch]. destruct t as [|x t0].
    - rewrite app_nil_r, chr_end by done. cbn [mbind outcome_bind]. by rewrite char_eq_nul.
    - rewrite chr_app_cons by done. cbn [mbind outcome_bind].
      destruct (char_eq nocase d x); [|done]. cbn [andb]. by apply (Hnext d pre0 q0 x t0). }
  pose proof (Hlit c pre q ltac:(done) eq_refl Hc2) as Hself.
  rewrite (chr_app_cons pre c q (zlen pre) eq_refl) in Hself.
  cbn [mbind outcome_bind] in Hself. cbn [tokens].
  destruct (Z.eqb_spec c cSTAR) as [->|Hstar]; [|destruct (Z.eqb_spec c cQUEST) as [->|Hq];
    [|rewrite (proj2 (Z.eqb_neq c cLBRACK)) by done;
      destruct (Z.eqb_spec c cBACKSL) as [->|Hb]]].
  - destruct (skip_stars_spec q (S (length (pre ++ cSTAR :: q))) pre) as
      (pre' & rest & Heq & Hp & Hh & Hg & (sk & Hsk)); [rewrite length_app; simpl; lia|].
    rewrite zlen_cons, Heq. cbn [mbind outcome_bind].
    change (Star :: tokens q) with (tokens (cSTAR :: q)). rewrite Hg, tokens_star.
    destruct (Z.eqb_spec (1 + zlen rest) 1) as [Hr|Hr].
    + destruct rest; [|rewrite zlen_cons in Hr; pose proof (zlen_nonneg rest); lia].
      cbn [tokens gmatch]. by rewrite any_suffix_bool_true.
    + destruct rest as [|d rest]; [done|]. cbn [gmatch].
      apply (star_loop_spec _ (gmatch nocase (tokens (d :: rest)))).
      * intros spre' t' ->. rewrite Hp.
        replace (pre' ++ cSTAR :: d :: rest) with ((pre' ++ [cSTAR]) ++ d :: rest)
          by by rewrite <- app_assoc.
        replace (zlen pre' + 1) with (zlen (pre' ++ [cSTAR])) by (rewrite zlen_app; done).
        replace (1 + zlen (d :: rest) - 1) with (zlen (d :: rest)) by lia.
        assert (length (d :: rest) <= length q)%nat by (rewrite Hsk, length_app; lia).
        apply (IH (length (d :: rest))); [lia|lia|lia|].
        unfold class_free in *. rewrite Hsk in Hcf'. by apply Forall_app in Hcf' as [_ ?].
      * apply gmatch_nil. simpl in Hh. congruence.
      * rewrite length_app. lia.
  - cbn [gmatch]. destruct t as [|x t0]; [done|].
    rewrite (proj2 (Z.eqb_neq _ _)) by (rewrite zlen_cons; pose proof (zlen_nonneg t0); lia).
    by apply (Hnext cQUEST pre q x t0).
  - destruct q as [|d q];
      [change (2 <=? zlen [cBACKSL]) with false; by apply Hself|].
    destruct (Z.leb_spec 2 (zlen (cBACKSL :: d :: q)));
      [|rewrite !zlen_cons in *; pose proof (zlen_nonneg q); lia].
    pose proof Hcf' as [[_ Hd] _]%Forall_cons_iff.
    pose proof (Hlit d (pre ++ [cBACKSL]) q ltac:(by exists [cBACKSL])
      ltac:(by rewrite <- app_assoc) Hd) as HL.
    replace (zlen (pre ++ [cBACKSL])) with (zlen pre + 1) in HL by (rewrite zlen_app; done).
    replace (zlen (cBACKSL :: d :: q) - 1) with (zlen (d :: q)) by (rewrite !zlen_cons; lia).
    exact HL.
  - by apply Hself.
Qed.

End Matcher.



(** With classes the matcher leaves its buffers.  A negated class consumes the NUL of an
    exhausted string, so [[^a]*] accepts the empty string although a class stands for one
    character, [[^a][^b]] reads past the terminator of the empty string, and a class that
    ends in a backslash reads past the terminator of the pattern. *)
Theorem stringmatchlen_class_overrun :
  stringmatchlen (str "[^a]*") (str "") false = Ok true /\
  stringmatchlen (str "[^a][^b]") (str "") false = Undefined /\
  stringmatchlen (str "[\") (str "x") false = Undefined.
Proof. split_and!; reflexivity. Qed.

End Glob.
