(* ===== verification/Dseg.v ===== *)
(** * Doubly linked segments in a heap

    The pointer reasoning that the doubly linked lists of the sources share: adlist.c of
    Redis and the intrusive lists of [src/src/retrieval/asynchronous/linked_list.h].  A heap
    maps addresses to nodes; [seg h prv l nxt] says that the nodes of [l] (address and
    value) are chained in both directions, between the neighbours [prv] and [nxt]. *)

From Stdlib Require Import ZArith Lia.
From stdpp Require Import prelude list gmap numbers.
From S2P Require Import Prelude.

Definition ptr : Type := nat.

Record node (A : Type) := mkNode { prev : option ptr; next : option ptr; value : A }.
Arguments mkNode {A} prev next value.
Arguments prev {A} n.
Arguments next {A} n.
Arguments value {A} n.

Section Dseg.
Context {A : Type}.
Implicit Types (h : gmap ptr (node A)) (l a b : list (ptr * A)).

(** Field updates through a pointer; [None] is the use of an invalid pointer. *)
Definition set_next h (p : ptr) (n : option ptr) : option (gmap ptr (node A)) :=
  nd ← h !! p; Some (<[p := mkNode (prev nd) n (value nd)]> h).

Definition set_prev h (p : ptr) (n : option ptr) : option (gmap ptr (node A)) :=
  nd ← h !! p; Some (<[p := mkNode n (next nd) (value nd)]> h).

Definition first_ptr l (nxt : option ptr) : option ptr :=
  match l with [] => nxt | (p, _) :: _ => Some p end.

Fixpoint last_ptr (prv : option ptr) l : option ptr :=
  match l with [] => prv | (p, _) :: l => last_ptr (Some p) l end.

Fixpoint seg h (prv : option ptr) l (nxt : option ptr) : Prop :=
  match l with
  | [] => True
  | (p, v) :: l' => h !! p = Some (mkNode prv (first_ptr l' nxt) v) /\ seg h (Some p) l' nxt
  end.

Lemma first_ptr_app a b nxt : first_ptr (a ++ b) nxt = first_ptr a (first_ptr b nxt).
Proof. by destruct a as [|[? ?] ?]. Qed.

Lemma last_ptr_app prv a b : last_ptr prv (a ++ b) = last_ptr (last_ptr prv a) b.
Proof. revert prv. induction a as [|[p v] a IH]; intros; simpl; auto. Qed.

Lemma last_ptr_snoc prv a p v : last_ptr prv (a ++ [(p, v)]) = Some p.
Proof. by rewrite last_ptr_app. Qed.

Lemma seg_app h prv a b nxt :
  seg h prv (a ++ b) nxt <-> seg h prv a (first_ptr b nxt) /\ seg h (last_ptr prv a) b nxt.
Proof.
  revert prv. induction a as [|[p v] a IH]; intros prv; simpl; [tauto|].
  rewrite IH, first_ptr_app. tauto.
Qed.

Lemma seg_frame h prv l nxt p nd : p ∉ l.*1 -> seg h prv l nxt -> seg (<[p := nd]> h) prv l nxt.
Proof.
  revert prv. induction l as [|[q v] l IH]; intros prv Hp; simpl; [done|].
  intros [Hq Hs]. simpl in Hp. split; [|apply IH; set_solver].
  rewrite lookup_insert_ne by set_solver. done.
Qed.

Lemma seg_frame_delete h prv l nxt p : p ∉ l.*1 -> seg h prv l nxt -> seg (delete p h) prv l nxt.
Proof.
  revert prv. induction l as [|[q v] l IH]; intros prv Hp; simpl; [done|].
  intros [Hq Hs]. simpl in Hp. split; [|apply IH; set_solver].
  rewrite lookup_delete_ne by set_solver. done.
Qed.

Lemma seg_lookup h prv a p v b nxt :
  seg h prv (a ++ (p, v) :: b) nxt -> h !! p = Some (mkNode (last_ptr prv a) (first_ptr b nxt) v).
Proof. rewrite seg_app. simpl. naive_solver. Qed.

Lemma seg_dom h prv l nxt p : seg h prv l nxt -> p ∈ l.*1 -> p ∈ dom h.
Proof.
  revert prv. induction l as [|[q v] l IH]; intros prv; simpl; [set_solver|].
  intros [Hq Hs] [->|Hin]%elem_of_cons; [by apply elem_of_dom_2 in Hq|eauto].
Qed.

Lemma last_ptr_elem prv l q : last_ptr prv l = Some q -> l <> [] -> q ∈ l.*1.
Proof.
  intros Hq Hl. destruct l as [|[p v] l _] using rev_ind; [done|].
  rewrite last_ptr_snoc in Hq. simplify_eq. rewrite fmap_app. set_solver.
Qed.

(** Redirecting the last [next] pointer of a segment. *)
Lemma seg_set_next h prv a nxt nxt' q v :
  NoDup (a ++ [(q, v)]).*1 -> seg h prv (a ++ [(q, v)]) nxt ->
  exists h', set_next h q nxt' = Some h' /\ seg h' prv (a ++ [(q, v)]) nxt' /\
    (forall p, p <> q -> h' !! p = h !! p) /\ dom h' = dom h.
Proof.
  intros Hnd Hs. pose proof (seg_lookup h prv a q v [] nxt Hs) as Hq. unfold set_next.
  rewrite Hq. simpl. eexists. split; [done|]. rewrite fmap_app in Hnd.
  apply list.NoDup_app in Hnd as (Hnd & Hq' & _). split_and!.
  - apply seg_app in Hs as [Ha _]. apply seg_app. split.
    + apply seg_frame; [|done]. intros Hin. by apply (Hq' q Hin); simpl; left.
    + simpl. split; [|done]. by rewrite lookup_insert_eq.
  - intros p Hp. by rewrite lookup_insert_ne by done.
  - apply elem_of_dom_2 in Hq. rewrite dom_insert_L. set_solver.
Qed.

(** Redirecting the first [prev] pointer of a segment. *)
Lemma seg_set_prev h prv prv' b nxt q v :
  NoDup ((q, v) :: b).*1 -> seg h prv ((q, v) :: b) nxt ->
  exists h', set_prev h q prv' = Some h' /\ seg h' prv' ((q, v) :: b) nxt /\
    (forall p, p <> q -> h' !! p = h !! p) /\ dom h' = dom h.
Proof.
  intros Hnd [Hq Hs]. unfold set_prev. rewrite Hq. simpl. eexists. split; [done|].
  simpl in Hnd. apply list.NoDup_cons in Hnd as [Hq' _]. split_and!.
  - by rewrite lookup_insert_eq.
  - by apply seg_frame.
  - intros p Hp. by rewrite lookup_insert_ne by done.
  - apply elem_of_dom_2 in Hq. rewrite dom_insert_L. set_solver.
Qed.

(** A segment only depends on the heap at its own nodes. *)
Lemma seg_ext h h' prv l nxt :
  (forall p, p ∈ l.*1 -> h' !! p = h !! p) -> seg h prv l nxt -> seg h' prv l nxt.
Proof.
  revert prv. induction l as [|[q v] l IH]; intros prv Hp; simpl; [done|].
  intros [Hq Hs]. split; [rewrite Hp; [done|set_solver]|]. apply IH; set_solver.
Qed.

(** ** Splicing

    [if (x) x->next = n;] and [if (x) x->prev = n;], as the list operations write them. *)

Definition set_next_opt h (o n : option ptr) : option (gmap ptr (node A)) :=
  match o with Some q => set_next h q n | None => Some h end.
Definition set_prev_opt h (o n : option ptr) : option (gmap ptr (node A)) :=
  match o with Some q => set_prev h q n | None => Some h end.

Lemma seg_set_next_opt h a nxt nxt' :
  NoDup a.*1 -> seg h None a nxt ->
  exists h', set_next_opt h (last_ptr None a) nxt' = Some h' /\ seg h' None a nxt' /\
    (forall p, p ∉ a.*1 -> h' !! p = h !! p) /\ dom h' = dom h.
Proof.
  intros Hnd Hs. destruct a as [|[q v] a _] using rev_ind; [by exists h|].
  rewrite last_ptr_snoc. simpl. destruct (seg_set_next _ _ _ _ nxt' _ _ Hnd Hs) as
    (h' & ? & ? & Ho & ?). exists h'. split_and!; try done.
  intros p Hp. apply Ho. rewrite fmap_app in Hp. set_solver.
Qed.

Lemma seg_set_prev_opt h prv prv' b :
  NoDup b.*1 -> seg h prv b None ->
  exists h', set_prev_opt h (first_ptr b None) prv' = Some h' /\ seg h' prv' b None /\
    (forall p, p ∉ b.*1 -> h' !! p = h !! p) /\ dom h' = dom h.
Proof.
  intros Hnd Hs. destruct b as [|[q v] b]; [by exists h|]. simpl first_ptr.
  destruct (seg_set_prev _ _ prv' _ _ _ _ Hnd Hs) as (h' & ? & ? & Ho & ?).
  exists h'. split_and!; try done. intros p Hp. apply Ho. set_solver.
Qed.

(** Redirects the pointers around a cut point to [x] (from the left) and [y] (from the right). *)
Lemma seg_relink h a b nxt prv x y :
  NoDup (a ++ b).*1 -> seg h None a nxt -> seg h prv b None ->
  exists h1 h', set_next_opt h (last_ptr None a) x = Some h1 /\
    set_prev_opt h1 (first_ptr b None) y = Some h' /\
    seg h' None a x /\ seg h' y b None /\
    (forall p, p ∉ (a ++ b).*1 -> h' !! p = h !! p) /\ dom h' = dom h.
Proof.
  rewrite fmap_app. intros (Ha & Hab & Hb)%list.NoDup_app Hsa Hsb.
  destruct (seg_set_next_opt h a _ x Ha Hsa) as (h1 & E1 & Hs1 & Ho1 & Hd1).
  destruct (seg_set_prev_opt h1 prv y b Hb) as (h' & E2 & Hs2 & Ho2 & Hd2).
  { eapply seg_ext; [|exact Hsb]. intros p Hp. apply Ho1. set_solver. }
  exists h1, h'. split_and!; try done.
  - eapply seg_ext; [|exact Hs1]. intros p Hp. apply Ho2. set_solver.
  - intros p Hp. rewrite Ho2, Ho1 by set_solver. done.
  - congruence.
Qed.

Lemma seg_insert h a b p v :
  NoDup (a ++ b).*1 -> p ∉ (a ++ b).*1 -> seg h None (a ++ b) None ->
  exists h1 h',
    set_next_opt (<[p := mkNode (last_ptr None a) (first_ptr b None) v]> h)
      (last_ptr None a) (Some p) = Some h1 /\
    set_prev_opt h1 (first_ptr b None) (Some p) = Some h' /\
    seg h' None (a ++ (p, v) :: b) None /\
    (forall q, q ∉ p :: (a ++ b).*1 -> h' !! q = h !! q) /\ dom h' = {[p]} ∪ dom h.
Proof.
  intros Hnd Hp Hs. apply (seg_frame _ _ _ _ p (mkNode (last_ptr None a) (first_ptr b None) v))
    in Hs; [|done]. apply seg_app in Hs as [Hsa Hsb].
  destruct (seg_relink _ a b _ _ (Some p) (Some p) Hnd Hsa Hsb)
    as (h1 & h' & E1 & E2 & Ha & Hb & Ho & Hd).
  exists h1, h'. split_and!; try done.
  - apply seg_app. split; [done|]. simpl. split; [|done]. rewrite Ho by done.
    apply lookup_insert_eq.
  - intros q Hq. rewrite Ho by set_solver. apply lookup_insert_ne. set_solver.
  - rewrite Hd. apply dom_insert_L.
Qed.

Lemma seg_unlink h a b p v :
  NoDup (a ++ (p, v) :: b).*1 -> seg h None (a ++ (p, v) :: b) None ->
  exists h1 h',
    set_next_opt h (last_ptr None a) (first_ptr b None) = Some h1 /\
    set_prev_opt h1 (first_ptr b None) (last_ptr None a) = Some h' /\
    seg h' None (a ++ b) None /\ NoDup (a ++ b).*1 /\ p ∉ (a ++ b).*1 /\
    (forall q, q ∉ (a ++ b).*1 -> h' !! q = h !! q) /\ dom h' = dom h.
Proof.
  intros Hnd Hs.
  assert (NoDup (a ++ b).*1 /\ p ∉ (a ++ b).*1) as [Hnd' Hp].
  { rewrite fmap_app in *. rewrite fmap_cons in Hnd. simpl in Hnd.
    apply list.NoDup_app in Hnd as (H1 & H2 & H3). apply list.NoDup_cons in H3 as [H3 H4].
    split; [apply list.NoDup_app; split_and!; try done; set_solver|set_solver]. }
  apply seg_app in Hs as [Hsa [Hp' Hsb]].
  destruct (seg_relink h a b _ _ (first_ptr b None) (last_ptr None a) Hnd' Hsa Hsb)
    as (h1 & h' & E1 & E2 & Ha & Hb & Ho & Hd).
  exists h1, h'. split_and!; try done. by apply seg_app.
Qed.

End Dseg.
