(* ===== verification/Adlist.v ===== *)
(** * adlist.c: the generic doubly linked list

    Model of [src/debug/redis/src/adlist.c].  The nodes live in a heap; every operation
    follows the pointer assignments of the source, and the use of an invalid pointer is
    [None].  The [void *] values are a type [A]; the methods of a list ([dup], [free],
    [match]) are optional functions, and the operations that call [free] return the values
    they passed to it.  [zmalloc] is the argument [alloc]: the address of the new block,
    or [None] where it returns NULL.

    [wf h l xs] relates a list structure to the sequence [xs] of its nodes; the theorems
    show that every operation acts on [xs] as the corresponding list function. *)

From Stdlib Require Import ZArith Lia.
From stdpp Require Import prelude list gmap numbers.
From S2P Require Import Prelude.
From S2P Require Import Dseg.

Local Open Scope Z_scope.

Module Adlist.

Section Adlist.
Context {A : Type}.

Record dlist := mkList {
  head : option ptr; tail : option ptr;
  dup : option (A -> option A); free : bool; matchf : option (A -> A -> bool);
  llen : Z;
}.

Abbreviation heap := (gmap ptr (node A)).
Implicit Types (h : gmap ptr (node A)) (l : dlist) (xs : list (ptr * A)).

Inductive direction := AL_START_HEAD | AL_START_TAIL.

Record listIter := mkIter { inext : option ptr; idirection : direction }.

Definition set_ends l (hd tl : option ptr) (n : Z) : dlist :=
  mkList hd tl (dup l) (free l) (matchf l) n.

Definition listCreate : dlist := mkList None None None false None 0.

(** The nodes freed and the values passed to [list->free]. *)
Fixpoint listRelease_loop (n : nat) h l (current : option ptr) (freed : list A)
  : option (heap * list A) :=
  match n with
  | O => Some (h, freed)
  | S n =>
    c ← current;
    nd ← h !! c;
    let freed := if free l then freed ++ [value nd] else freed in
    listRelease_loop n (delete c h) l (next nd) freed
  end.

Definition listRelease h l : option (heap * list A) :=
  listRelease_loop (Z.to_nat (llen l)) h l (head l) [].

(** The boolean is whether the result is not NULL. *)
Definition listAddNodeHead (alloc : option ptr) h l (v : A) : option (heap * dlist * bool) :=
  match alloc with
  | None => Some (h, l, false)
  | Some p =>
    if llen l =? 0 then
      Some (<[p := mkNode None None v]> h, set_ends l (Some p) (Some p) (uwrap 64 (llen l + 1)), true)
    else
      let h := <[p := mkNode None (head l) v]> h in
      hd ← head l;
      h ← set_prev h hd (Some p);
      Some (h, set_ends l (Some p) (tail l) (uwrap 64 (llen l + 1)), true)
  end.

Definition listAddNodeTail (alloc : option ptr) h l (v : A) : option (heap * dlist * bool) :=
  match alloc with
  | None => Some (h, l, false)
  | Some p =>
    if llen l =? 0 then
      Some (<[p := mkNode None None v]> h, set_ends l (Some p) (Some p) (uwrap 64 (llen l + 1)), true)
    else
      let h := <[p := mkNode (tail l) None v]> h in
      tl ← tail l;
      h ← set_next h tl (Some p);
      Some (h, set_ends l (head l) (Some p) (uwrap 64 (llen l + 1)), true)
  end.

Definition listInsertNode (alloc : option ptr) h l (old : ptr) (v : A) (after : bool)
  : option (heap * dlist * bool) :=
  match alloc with
  | None => Some (h, l, false)
  | Some p =>
    o ← h !! old;
    let nprev := if after then Some old else prev o in
    let nnext := if after then next o else Some old in
    let tl := if after then if decide (tail l = Some old) then Some p else tail l else tail l in
    let hd := if after then head l else if decide (head l = Some old) then Some p else head l in
    let h := <[p := mkNode nprev nnext v]> h in
    h ← set_next_opt h nprev (Some p);
    h ← set_prev_opt h nnext (Some p);
    Some (h, set_ends l hd tl (uwrap 64 (llen l + 1)), true)
  end.

(** The list is what is passed to [list->free]. *)
Definition listDelNode h l (n : ptr) : option (heap * dlist * list A) :=
  nd ← h !! n;
  h ← set_next_opt h (prev nd) (next nd);
  let hd := match prev nd with Some _ => head l | None => next nd end in
  h ← set_prev_opt h (next nd) (prev nd);
  let tl := match next nd with Some _ => tail l | None => prev nd end in
  Some (delete n h, set_ends l hd tl (uwrap 64 (llen l - 1)), if free l then [value nd] else []).

Definition listGetIterator l (d : direction) : listIter :=
  mkIter (match d with AL_START_HEAD => head l | AL_START_TAIL => tail l end) d.

Definition listRewind l : listIter := mkIter (head l) AL_START_HEAD.
Definition listRewindTail l : listIter := mkIter (tail l) AL_START_TAIL.

(** The returned node (NULL is [None]) and the advanced iterator. *)
Definition listNext h (iter : listIter) : option (option ptr * listIter) :=
  match inext iter with
  | None => Some (None, iter)
  | Some current =>
    nd ← h !! current;
    Some (Some current,
      mkIter (match idirection iter with AL_START_HEAD => next nd | AL_START_TAIL => prev nd end)
        (idirection iter))
  end.

(** The loop [while((node = listNext(iter)) != NULL)] of listDup; [allocs] are the
    addresses that [zmalloc] returns for the new nodes. *)
Fixpoint listDup_loop (fuel : nat) (allocs : list (option ptr)) h (copy : dlist) (iter : listIter)
  : option (heap * option dlist) :=
  match fuel with
  | O => None
  | S fuel =>
    r ← listNext h iter;
    match r with
    | (None, _) => Some (h, Some copy)
    | (Some n, iter) =>
      nd ← h !! n;
      match (match dup copy with Some f => f (value nd) | None => Some (value nd) end) with
      | None => r ← listRelease h copy; Some (fst r, None)
      | Some v =>
        r ← listAddNodeTail (default None (list.head allocs)) h copy v;
        let '(h, copy, ok) := r in
        if ok : bool then listDup_loop fuel (list.tail allocs) h copy iter
        else r ← listRelease h copy; Some (fst r, None)
      end
    end
  end.

Definition listDup (allocs : list (option ptr)) h (orig : dlist) : option (heap * option dlist) :=
  let copy := mkList None None (dup orig) (free orig) (matchf orig) 0 in
  listDup_loop (S (Z.to_nat (llen orig))) allocs h copy (listGetIterator orig AL_START_HEAD).

(** [eqv] is the comparison of two [void *] values. *)
Fixpoint listSearchKey_loop (fuel : nat) (eqv : A -> A -> bool) h l (key : A) (iter : listIter)
  : option (option ptr) :=
  match fuel with
  | O => None
  | S fuel =>
    r ← listNext h iter;
    match r with
    | (None, _) => Some None
    | (Some n, iter) =>
      nd ← h !! n;
      if (match matchf l with Some m => m (value nd) key | None => eqv key (value nd) end)
      then Some (Some n)
      else listSearchKey_loop fuel eqv h l key iter
    end
  end.

Definition listSearchKey (eqv : A -> A -> bool) h l (key : A) : option (option ptr) :=
  listSearchKey_loop (S (Z.to_nat (llen l))) eqv h l key (listGetIterator l AL_START_HEAD).

(** [while(index-- && n) n = n->next] (or [prev]) *)
Fixpoint walk (back : bool) (index : nat) h (n : option ptr) : option (option ptr) :=
  match index, n with
  | O, _ => Some n
  | _, None => Some None
  | S index, Some p => nd ← h !! p; walk back index h (if back then prev nd else next nd)
  end.

Definition listIndex h l (index : Z) : option (option ptr) :=
  if index <? 0 then walk true (Z.to_nat (- index - 1)) h (tail l)
  else walk false (Z.to_nat index) h (head l).

Definition listRotate h l : option (heap * dlist) :=
  if llen l <=? 1 then Some (h, l)
  else
    t ← tail l;
    nd ← h !! t;
    tl ← prev nd;
    h ← set_next h tl None;
    hd ← head l;
    h ← set_prev h hd (Some t);
    h ← set_prev h t None;
    h ← set_next h t (Some hd);
    Some (h, set_ends l (Some t) (Some tl) (llen l)).

(** ** Representation *)

Record wf h l xs : Prop := {
  wf_seg : seg h None xs None;
  wf_nodup : NoDup xs.*1;
  wf_head : head l = first_ptr xs None;
  wf_tail : tail l = last_ptr None xs;
  wf_len : llen l = zlen xs;
}.

Definition small xs : Prop := zlen xs < 2 ^ 63.

Lemma wf_create h : wf h listCreate [].
Proof. split; try done. constructor. Qed.

Lemma wf_frame h l xs p nd : wf h l xs -> p ∉ xs.*1 -> wf (<[p := nd]> h) l xs.
Proof. intros [Hs ? ? ? ?] Hp. split; try done. by apply seg_frame. Qed.

Lemma len_succ xs n : small xs -> n = zlen xs -> uwrap 64 (n + 1) = zlen xs + 1.
Proof.
  unfold small. intros Hsm ->. pose proof (zlen_nonneg xs). apply uwrap_id. unfold in_uint. lia.
Qed.

Lemma addHead_correct p h l xs v :
  wf h l xs -> small xs -> p ∉ dom h ->
  exists h' l', listAddNodeHead (Some p) h l v = Some (h', l', true) /\
    wf h' l' ((p, v) :: xs) /\ dom h' = {[p]} ∪ dom h.
Proof.
  intros [Hs Hnd Hh Ht Hl] Hsm Hp. unfold listAddNodeHead.
  assert (p ∉ xs.*1) as Hpx by (intros Hin; by eapply Hp, seg_dom).
  destruct xs as [|[q w] xs]; simpl in Hh.
  - rewrite Hl. simpl. do 2 eexists. split; [done|]. split; [|by rewrite dom_insert_L].
    split; simpl; try done.
    + by rewrite lookup_insert_eq.
    + repeat constructor. set_solver.
  - rewrite (proj2 (Z.eqb_neq _ _))
      by (rewrite Hl, zlen_cons; pose proof (zlen_nonneg xs); lia).
    rewrite Hh. cbn [mbind option_bind].
    destruct (seg_set_prev (<[p := mkNode None (Some q) v]> h) None (Some p) xs None q w Hnd)
      as (h' & -> & Hs' & Hother & Hdom); [by apply seg_frame|].
    cbn [mbind option_bind]. do 2 eexists. split; [done|].
    split; [|rewrite Hdom, dom_insert_L; done].
    split; simpl; try done.
    + split; [|done]. rewrite Hother by set_solver. by rewrite lookup_insert_eq.
    + by apply list.NoDup_cons.
    + by rewrite (len_succ _ _ Hsm Hl), (zlen_cons (p, v)), Z.add_comm.
Qed.

Lemma addTail_correct p h l xs v :
  wf h l xs -> small xs -> p ∉ dom h ->
  exists h' l', listAddNodeTail (Some p) h l v = Some (h', l', true) /\
    wf h' l' (xs ++ [(p, v)]) /\ dom h' = {[p]} ∪ dom h /\
    (forall q, q <> p -> q ∉ xs.*1 -> h' !! q = h !! q) /\
    dup l' = dup l /\ free l' = free l /\ matchf l' = matchf l.
Proof.
  intros [Hs Hnd Hh Ht Hl] Hsm Hp. unfold listAddNodeTail.
  assert (p ∉ xs.*1) as Hpx by (intros Hin; by eapply Hp, seg_dom).
  destruct xs as [|[q w] xs _] using rev_ind.
  - rewrite Hl. simpl. do 2 eexists. split; [done|]. split_and!; try done.
    + split; simpl; try done; [by rewrite lookup_insert_eq|]. repeat constructor. set_solver.
    + by rewrite dom_insert_L.
    + intros q Hq _. by rewrite lookup_insert_ne.
  - rewrite (proj2 (Z.eqb_neq _ _))
      by (rewrite Hl, zlen_app, zlen_cons, zlen_nil; pose proof (zlen_nonneg xs); lia).
    rewrite last_ptr_snoc in Ht. rewrite Ht. cbn [mbind option_bind].
    destruct (seg_set_next (<[p := mkNode (Some q) None v]> h) None xs None (Some p) q w Hnd)
      as (h' & -> & Hs' & Hother & Hdom); [by apply seg_frame|].
    rewrite fmap_app in Hpx. simpl in Hpx.
    cbn [mbind option_bind]. do 2 eexists. split; [done|]. split_and!; try done.
    + split; simpl; try done.
      * apply seg_app. split; [done|]. rewrite last_ptr_snoc. simpl. split; [|done].
        rewrite Hother by set_solver. by rewrite lookup_insert_eq.
      * rewrite fmap_app. apply list.NoDup_app. split_and!; [done| |repeat constructor; set_solver].
        rewrite fmap_app. set_solver.
      * rewrite Hh, !first_ptr_app. destruct xs as [|[? ?] ?]; done.
      * by rewrite last_ptr_snoc.
      * by rewrite (len_succ _ _ Hsm Hl), (zlen_app _ [(p, v)]).
    + rewrite Hdom, dom_insert_L. done.
    + intros r Hr Hrx. rewrite fmap_app in Hrx. simpl in Hrx.
      rewrite Hother by set_solver. by rewrite lookup_insert_ne.
Qed.

(** A node that is the first (last) one of a segment without repetitions. *)
Lemma first_ptr_mid (a b : list (ptr * A)) p v :
  NoDup (a ++ (p, v) :: b).*1 -> first_ptr (a ++ (p, v) :: b) None = Some p <-> a = [].
Proof.
  intros Hnd. destruct a as [|[q w] a]; simpl; [done|]. split; [|done]. intros [= ->].
  simpl in Hnd. apply list.NoDup_cons in Hnd as [Hn _]. rewrite fmap_app in Hn. set_solver.
Qed.

Lemma last_ptr_mid prv (a b : list (ptr * A)) p v :
  NoDup (a ++ (p, v) :: b).*1 -> last_ptr prv (a ++ (p, v) :: b) = Some p <-> b = [].
Proof.
  intros Hnd. rewrite last_ptr_app. simpl. destruct b as [|[q w] b _] using rev_ind; [done|].
  rewrite last_ptr_snoc. split; [|intros Hnil; by destruct b]. intros [= ->].
  rewrite fmap_app in Hnd. apply list.NoDup_app in Hnd as (_ & _ & Hnd).
  rewrite fmap_cons, fmap_app in Hnd. apply list.NoDup_cons in Hnd as [Hn _]. set_solver.
Qed.

Lemma insertNode_correct p h l (a b : list (ptr * A)) old w v after :
  wf h l (a ++ (old, w) :: b) -> small (a ++ (old, w) :: b) -> p ∉ dom h ->
  exists h' l', listInsertNode (Some p) h l old v after = Some (h', l', true) /\
    wf h' l' (if after : bool then a ++ (old, w) :: (p, v) :: b
              else a ++ (p, v) :: (old, w) :: b) /\ dom h' = {[p]} ∪ dom h.
Proof.
  intros [Hs Hnd Hh Ht Hl] Hsm Hp. unfold listInsertNode.
  rewrite (seg_lookup _ _ _ _ _ _ _ Hs). cbn [mbind option_bind prev next].
  assert (p ∉ (a ++ (old, w) :: b).*1) as Hpx by (intros Hin; by eapply Hp, seg_dom).
  assert (forall c d, c ++ d = a ++ (old, w) :: b ->
    NoDup (c ++ (p, v) :: d).*1 /\ zlen (c ++ (p, v) :: d) = zlen (a ++ (old, w) :: b) + 1)
    as Hcd.
  { intros c d Heq. rewrite <- Heq in Hnd, Hpx |- *. rewrite fmap_app in *. split.
    - apply list.NoDup_app in Hnd as (? & ? & ?). simpl. apply list.NoDup_app.
      split_and!; [done|set_solver|]. apply list.NoDup_cons. set_solver.
    - rewrite !zlen_app, zlen_cons. lia. }
  destruct after.
  - replace (a ++ (old, w) :: b) with ((a ++ [(old, w)]) ++ b) in Hs, Hpx
      by by rewrite <- app_assoc.
    destruct (seg_insert h (a ++ [(old, w)]) b p v) as (h1 & h' & E1 & E2 & Hs' & _ & Hd);
      [by rewrite <- app_assoc|done|done|].
    rewrite last_ptr_snoc in E1. rewrite E1. cbn [mbind option_bind]. rewrite E2.
    cbn [mbind option_bind]. do 2 eexists. split; [done|]. split; [|done].
    destruct (Hcd (a ++ [(old, w)]) b) as [Hnd' Hlen]; [by rewrite <- app_assoc|].
    rewrite <- app_assoc in Hs', Hnd', Hlen. split; cbn [head tail llen set_ends]; try done.
    + rewrite Hh, !first_ptr_app. done.
    + rewrite Ht, last_ptr_app. cbn [last_ptr]. case_decide as Hd'.
      * assert (b = []) as -> by (eapply (last_ptr_mid None a b); [done|by rewrite last_ptr_app]).
        by rewrite last_ptr_app.
      * rewrite last_ptr_app. cbn [last_ptr].
        by destruct b as [|[? ?] ?].
    + rewrite (len_succ _ _ Hsm Hl). done.
  - destruct (seg_insert h a ((old, w) :: b) p v) as (h1 & h' & E1 & E2 & Hs' & _ & Hd);
      [done|done|done|].
    cbn [first_ptr] in E1, E2. rewrite E1. cbn [mbind option_bind]. rewrite E2.
    cbn [mbind option_bind]. do 2 eexists. split; [done|]. split; [|done].
    destruct (Hcd a ((old, w) :: b) eq_refl) as [Hnd' Hlen].
    split; cbn [head tail llen set_ends]; try done.
    + rewrite Hh. case_decide as Hd'.
      * apply first_ptr_mid in Hd'; [|done]. by subst a.
      * destruct a as [|[? ?] ?]; done.
    + rewrite Ht, !last_ptr_app. done.
    + rewrite (len_succ _ _ Hsm Hl). done.
Qed.

Lemma delNode_correct h l (a b : list (ptr * A)) p v :
  wf h l (a ++ (p, v) :: b) -> small (a ++ (p, v) :: b) ->
  exists h' l', listDelNode h l p = Some (h', l', if free l then [v] else []) /\
    wf h' l' (a ++ b) /\ dom h' = dom h ∖ {[p]}.
Proof.
  intros [Hs Hnd Hh Ht Hl] Hsm. unfold listDelNode.
  rewrite (seg_lookup _ _ _ _ _ _ _ Hs). cbn [mbind option_bind prev next value].
  destruct (seg_unlink h a b p v Hnd Hs) as (h1 & h' & E1 & E2 & Hs' & Hnd' & Hp & Ho & Hd).
  rewrite E1. cbn [mbind option_bind]. rewrite E2. cbn [mbind option_bind].
  do 2 eexists. split; [done|]. split; [|by rewrite dom_delete_L, Hd].
  split; cbn [head tail llen set_ends]; try done.
  - by apply seg_frame_delete.
  - rewrite Hh. destruct a as [|[q w] a _] using rev_ind; [done|].
    rewrite last_ptr_snoc, !first_ptr_app. by destruct a as [|[? ?] ?].
  - rewrite Ht, !last_ptr_app. by destruct b as [|[q w] b].
  - rewrite Hl, !zlen_app, zlen_cons. unfold small in Hsm. rewrite zlen_app, zlen_cons in Hsm.
    pose proof (zlen_nonneg a). pose proof (zlen_nonneg b).
    rewrite uwrap_id; [lia|]. unfold in_uint. lia.
Qed.

Lemma rotate_correct h l (xs : list (ptr * A)) t v :
  wf h l (xs ++ [(t, v)]) ->
  exists h' l', listRotate h l = Some (h', l') /\ dom h' = dom h /\ wf h' l' ((t, v) :: xs).
Proof.
  intros Hwf. pose proof Hwf as [Hs Hnd Hh Ht Hl]. unfold listRotate.
  destruct (Z.leb_spec (llen l) 1) as [Hle|Hgt].
  - exists h, l. split; [done|]. split; [done|].
    destruct xs as [|x xs]; [done|]. rewrite Hl, zlen_app, !zlen_cons, zlen_nil in Hle.
    pose proof (zlen_nonneg xs). lia.
  - rewrite last_ptr_snoc in Ht.
    destruct xs as [|[tl w] xs _] using rev_ind; [by rewrite Hl in Hgt|].
    rewrite Ht. cbn [mbind option_bind].
    rewrite (seg_lookup _ _ _ _ _ _ _ Hs). cbn [mbind option_bind prev]. rewrite last_ptr_snoc.
    cbn [mbind option_bind].
    assert (t ∉ (xs ++ [(tl, w)]).*1 /\ NoDup (xs ++ [(tl, w)]).*1) as [Htn Hnd'].
    { rewrite fmap_app in Hnd. apply list.NoDup_app in Hnd as (? & Hdis & ?).
      split; [|done]. intros Hin. apply (Hdis t Hin). simpl. by left. }
    apply seg_app in Hs as Hs12. destruct Hs12 as [Hs1 Hs2]. cbn [seg first_ptr] in Hs1, Hs2.
    destruct (seg_set_next h None xs (Some t) None tl w Hnd' Hs1)
      as (h1 & E1 & Hs1' & Ho1 & Hd1). rewrite E1. cbn [mbind option_bind].
    rewrite first_ptr_app in Hh.
    destruct (xs ++ [(tl, w)]) as [|[hd x] ys] eqn:Eys; [by destruct xs|].
    cbn [first_ptr] in Hh. rewrite Hh. cbn [mbind option_bind].
    destruct (seg_set_prev h1 None (Some t) ys None hd x Hnd' Hs1') as (h2 & E2 & Hs2' & Ho2 & Hd2).
    rewrite E2. cbn [mbind option_bind].
    assert (tl ∈ ((hd, x) :: ys).*1) as Htl by (rewrite <- Eys, fmap_app; set_solver).
    assert (h2 !! t = Some (mkNode (last_ptr None ((hd, x) :: ys)) None v)) as Ht2.
    { rewrite Ho2, Ho1 by set_solver. naive_solver. }
    unfold set_prev at 1. rewrite Ht2. cbn [mbind option_bind]. unfold set_next at 1.
    rewrite lookup_insert_eq. cbn [mbind option_bind prev next value].
    rewrite insert_insert_eq. do 2 eexists. split; [done|]. split.
    { rewrite dom_insert_L, Hd2, Hd1. assert (t ∈ dom h); [|set_solver].
      destruct Hs2 as [Hs2 _]. by apply elem_of_dom_2 in Hs2. }
    split; cbn [head tail llen set_ends]; try done.
    + simpl. split; [by rewrite lookup_insert_eq|]. apply (seg_frame _ _ ((hd, x) :: ys)); done.
    + rewrite fmap_cons. by apply list.NoDup_cons.
    + cbn [last_ptr]. change (last_ptr (Some hd) ys) with (last_ptr None ((hd, x) :: ys)).
      by rewrite <- Eys, last_ptr_snoc.
    + rewrite Hl, zlen_app. unfold zlen. simpl. lia.
Qed.

(** ** Traversals *)

Lemma walk_forward h (b : list (ptr * A)) : forall prv i,
  seg h prv b None -> walk false i h (first_ptr b None) = Some (fst <$> b !! i).
Proof.
  induction b as [|[p v] b IH]; intros prv i Hs; destruct i as [|i]; simpl in *; try done.
  destruct Hs as [-> Hs]. cbn [mbind option_bind next]. by eapply IH.
Qed.

Lemma walk_backward h (a : list (ptr * A)) : forall nxt i,
  seg h None a nxt -> walk true i h (last_ptr None a) = Some (fst <$> reverse a !! i).
Proof.
  induction a as [|[p v] a IH] using rev_ind; intros nxt i Hs; [by destruct i|].
  rewrite last_ptr_snoc, reverse_snoc. destruct i as [|i]; [done|]. simpl.
  pose proof (seg_lookup h None a p v [] nxt Hs) as ->. cbn [mbind option_bind prev].
  apply seg_app in Hs as [Hs _]. by eapply IH.
Qed.

(** The position that a possibly negative index names. *)
Definition index_pos (n : nat) (index : Z) : option nat :=
  let i := if index <? 0 then Z.of_nat n + index else index in
  if (i <? 0) then None else Some (Z.to_nat i).

Lemma index_correct h l (xs : list (ptr * A)) index :
  wf h l xs ->
  listIndex h l index = Some (i ← index_pos (length xs) index; fst <$> xs !! i).
Proof.
  intros [Hs Hnd Hh Ht Hl]. unfold listIndex, index_pos. destruct (Z.ltb_spec index 0).
  - rewrite Ht, (walk_backward h xs None) by done. f_equal.
    destruct (Z.ltb_spec (Z.of_nat (length xs) + index) 0) as [Hlt|Hge]; cbn [mbind option_bind].
    + rewrite lookup_ge_None_2; [done|]. rewrite length_reverse. lia.
    + rewrite reverse_lookup by lia. do 2 f_equal. lia.
  - rewrite Hh, (walk_forward h xs None) by done.
    destruct (Z.ltb_spec index 0); [lia|]. done.
Qed.

Definition matches (eqv : A -> A -> bool) l (key : A) (x : ptr * A) : bool :=
  match matchf l with Some m => m (snd x) key | None => eqv key (snd x) end.

Lemma adlist_search_loop_correct eqv h l key (xs : list (ptr * A)) : forall fuel prv,
  (length xs < fuel)%nat -> seg h prv xs None ->
  listSearchKey_loop fuel eqv h l key (mkIter (first_ptr xs None) AL_START_HEAD) =
    Some (fst <$> List.find (matches eqv l key) xs).
Proof.
  induction xs as [|[p v] xs IH]; intros fuel prv Hf Hs;
    destruct fuel as [|fuel]; try (simpl in Hf; lia); simpl in *; [done|].
  destruct Hs as [Hp Hs]. unfold listNext. cbn [inext]. rewrite Hp.
  cbn [mbind option_bind idirection next]. rewrite Hp. cbn [mbind option_bind value].
  unfold matches at 1. cbn [snd]. case_match; [done|]. apply (IH fuel (Some p)); [lia|done].
Qed.

Lemma adlist_search_correct eqv h l (xs : list (ptr * A)) key :
  wf h l xs -> listSearchKey eqv h l key = Some (fst <$> List.find (matches eqv l key) xs).
Proof.
  intros [Hs Hnd Hh Ht Hl]. unfold listSearchKey, listGetIterator. rewrite Hh, Hl.
  unfold zlen. rewrite Nat2Z.id. apply (adlist_search_loop_correct _ _ _ _ _ _ None); [lia|done].
Qed.

Lemma release_loop_correct l (b : list (ptr * A)) : forall h prv freed,
  seg h prv b None -> NoDup b.*1 ->
  exists h', listRelease_loop (length b) h l (first_ptr b None) freed =
      Some (h', freed ++ if free l then b.*2 else []) /\
    dom h' = dom h ∖ list_to_set b.*1 /\ (forall p, p ∉ b.*1 -> h' !! p = h !! p).
Proof.
  induction b as [|[p v] b IH]; intros h prv freed Hs Hnd; simpl in *.
  - exists h. split_and!; [by destruct (free l); rewrite app_nil_r|set_solver|done].
  - destruct Hs as [Hp Hs]. apply list.NoDup_cons in Hnd as [Hpn Hnd].
    rewrite Hp. cbn [mbind option_bind next value].
    destruct (IH (delete p h) (Some p) (if free l then freed ++ [v] else freed))
      as (h' & -> & Hd & Ho); [by apply seg_frame_delete|done|].
    exists h'. split_and!.
    + do 2 f_equal. destruct (free l); [by rewrite <- app_assoc|done].
    + rewrite Hd, dom_delete_L. set_solver.
    + intros q Hq. rewrite Ho by set_solver. apply lookup_delete_ne. set_solver.
Qed.

Lemma release_correct h l (xs : list (ptr * A)) :
  wf h l xs ->
  exists h', listRelease h l = Some (h', if free l then xs.*2 else []) /\
    dom h' = dom h ∖ list_to_set xs.*1 /\ (forall p, p ∉ xs.*1 -> h' !! p = h !! p).
Proof.
  intros [Hs Hnd Hh Ht Hl]. unfold listRelease. rewrite Hh, Hl. unfold zlen. rewrite Nat2Z.id.
  by apply (release_loop_correct l xs h None []).
Qed.

(** The value that listDup stores for a value of the original. *)
Definition dup_value l (v : A) : option A :=
  match dup l with Some f => f v | None => Some v end.

Lemma dup_loop_correct (orig : dlist) : forall (b : list (ptr * A)) fuel prv ps h copy cs,
  (length b < fuel)%nat -> length ps = length b -> NoDup ps -> (forall p, p ∈ ps -> p ∉ dom h) ->
  seg h prv b None -> (forall p, p ∈ b.*1 -> p ∉ cs.*1) ->
  wf h copy cs -> dup copy = dup orig -> zlen cs + zlen b < 2 ^ 63 ->
  exists h' r,
    listDup_loop fuel (Some <$> ps) h copy (mkIter (first_ptr b None) AL_START_HEAD) =
      Some (h', r) /\
    (forall q, q ∈ dom h -> q ∉ cs.*1 -> h' !! q = h !! q) /\
    match mapM (dup_value orig) b.*2 with
    | Some vs => exists copy', r = Some copy' /\ wf h' copy' (cs ++ zip ps vs)
    | None => r = None /\ dom h' = dom h ∖ list_to_set cs.*1
    end.
Proof.
  induction b as [|[n v] b IH]; intros fuel prv ps h copy cs Hf Hps Hnd Hfr Hs Hdis Hwf Hdup Hsz;
    (destruct fuel as [|fuel]; [simpl in Hf; lia|]).
  - destruct ps; [|done]. simpl. exists h, (Some copy). split_and!; [done|done|].
    exists copy. by rewrite app_nil_r.
  - destruct ps as [|p ps]; [done|]. destruct Hs as [Hn Hs]. simpl in Hf, Hps.
    apply list.NoDup_cons in Hnd as [Hpn Hnd]. rewrite zlen_cons in Hsz.
    cbn [listDup_loop]. unfold listNext. cbn [inext first_ptr]. rewrite Hn.
    cbn [mbind option_bind next idirection]. rewrite Hn. cbn [mbind option_bind value].
    rewrite Hdup. change (match dup orig with Some f => f v | None => Some v end)
      with (dup_value orig v).
    change (mapM (dup_value orig) ((n, v) :: b).*2) with
      (y ← dup_value orig v; k ← mapM (dup_value orig) b.*2; mret (M := option) (y :: k)).
    destruct (dup_value orig v) as [v'|] eqn:Ev.
    + rewrite fmap_cons. cbn [list.head list.tail from_option id].
      assert (p ∉ dom h) as Hp by (apply Hfr; set_solver).
      destruct (addTail_correct p h copy cs v' Hwf) as
        (h1 & copy1 & -> & Hwf1 & Hd1 & Ho1 & Hdup1 & _); [unfold small;
        pose proof (zlen_nonneg b); lia|done|].
      cbn [mbind option_bind].
      assert (forall q, q ∈ ((n, v) :: b).*1 -> q ∈ dom h) as Hbd.
      { intros q [->|Hq]%elem_of_cons; [by apply elem_of_dom_2 in Hn|by eapply seg_dom]. }
      destruct (IH fuel (Some n) ps h1 copy1 (cs ++ [(p, v')])) as (h' & r & -> & Ho & Hr);
        [lia|lia|done|set_solver| | |done|congruence| |].
      * eapply seg_ext; [|exact Hs]. intros q Hq. apply Ho1; [|set_solver].
        intros ->. apply Hp, Hbd. set_solver.
      * intros q Hq. rewrite fmap_app. intros [?|Hqp]%elem_of_app; [set_solver|].
        assert (q = p) as -> by set_solver. apply Hp, Hbd. set_solver.
      * rewrite zlen_app, zlen_cons, zlen_nil. lia.
      * exists h', r. split; [done|]. split.
        { intros q Hq Hqc. rewrite Ho; [apply Ho1; set_solver|set_solver|].
          rewrite fmap_app. set_solver. }
        destruct (mapM (dup_value orig) b.*2) as [vs|]; cbn [mbind option_bind mret option_ret].
        { destruct Hr as (copy' & -> & Hwf'). exists copy'. split; [done|].
          by rewrite <- app_assoc in Hwf'. }
        destruct Hr as [-> Hd']. split; [done|]. rewrite Hd', Hd1, fmap_app. simpl.
        rewrite list_to_set_app_L. simpl. set_solver.
    + simpl. destruct (release_correct h copy cs Hwf) as (h' & -> & Hd & Ho).
      cbn [mbind option_bind fst]. exists h', None. split_and!; [done| |done|done].
      intros q _ Hq. by apply Ho.
Qed.

Lemma dup_correct ps h l (xs : list (ptr * A)) :
  wf h l xs -> small xs -> length ps = length xs -> NoDup ps -> (forall p, p ∈ ps -> p ∉ dom h) ->
  exists h' r, listDup (Some <$> ps) h l = Some (h', r) /\
    (forall q, q ∈ dom h -> h' !! q = h !! q) /\
    match mapM (dup_value l) xs.*2 with
    | Some vs => exists copy, r = Some copy /\ wf h' copy (zip ps vs)
    | None => r = None /\ dom h' = dom h
    end.
Proof.
  intros [Hs Hnd Hh Ht Hl] Hsm Hps Hnp Hfr. unfold listDup, listGetIterator. rewrite Hh, Hl.
  unfold zlen. rewrite Nat2Z.id.
  destruct (dup_loop_correct l xs (S (length xs)) None ps h
    (mkList None None (dup l) (free l) (matchf l) 0) []) as (h' & r & -> & Ho & Hr);
    try done; [lia|set_solver|split; try done; constructor|].
  exists h', r. split; [done|]. split; [intros q Hq; apply Ho; set_solver|].
  case_match; [done|]. destruct Hr as [-> Hd]. split; [done|]. set_solver.
Qed.

(** ** Refinement of sequences

    A client modifies a list through its node pointers, which it finds with listIndex;
    the allocator returns some unused address. *)

Inductive op :=
  | AddHead (v : A)
  | AddTail (v : A)
  | InsertAt (i : Z) (v : A) (after : bool)
  | DelAt (i : Z)
  | Rotate.

Definition exec_op (s : heap * dlist) (o : op) : option (heap * dlist) :=
  let '(h, l) := s in
  let alloc := Some (fresh (dom h)) in
  match o with
  | AddHead v => fst <$> listAddNodeHead alloc h l v
  | AddTail v => fst <$> listAddNodeTail alloc h l v
  | InsertAt i v after =>
    n ← listIndex h l i;
    match n with Some old => fst <$> listInsertNode alloc h l old v after | None => Some (h, l) end
  | DelAt i =>
    n ← listIndex h l i;
    match n with Some n => fst <$> listDelNode h l n | None => Some (h, l) end
  | Rotate => listRotate h l
  end.

Fixpoint exec_ops (s : heap * dlist) (os : list op) : option (heap * dlist) :=
  match os with [] => Some s | o :: os => s ← exec_op s o; exec_ops s os end.

(** The abstract operations on the sequence of values. *)
Definition spec_op (vs : list A) (o : op) : list A :=
  match o with
  | AddHead v => v :: vs
  | AddTail v => vs ++ [v]
  | InsertAt i v after =>
    match index_pos (length vs) i with
    | Some k => if decide (k < length vs)%nat
                then let k := if after then S k else k in take k vs ++ v :: drop k vs else vs
    | None => vs
    end
  | DelAt i => match index_pos (length vs) i with Some k => delete k vs | None => vs end
  | Rotate => match reverse vs with v :: r => v :: reverse r | [] => [] end
  end.

Definition refines (s : heap * dlist) (vs : list A) : Prop :=
  exists xs, wf (fst s) (snd s) xs /\ xs.*2 = vs.

(** The cases of an index: no node, or a node and its neighbourhood. *)
Lemma index_cases h l (xs : list (ptr * A)) i :
  wf h l xs ->
  (listIndex h l i = Some None /\
    (index_pos (length xs) i = None \/
     exists k, index_pos (length xs) i = Some k /\ (length xs <= k)%nat)) \/
  exists a p w b, xs = a ++ (p, w) :: b /\ listIndex h l i = Some (Some p) /\
    index_pos (length xs) i = Some (length a).
Proof.
  intros Hwf. rewrite (index_correct _ _ _ _ Hwf).
  destruct (index_pos (length xs) i) as [k|] eqn:E; [|by left; split; [|left]].
  cbn [mbind option_bind]. destruct (xs !! k) as [[p w]|] eqn:Ek.
  - right. apply list_elem_of_split_length in Ek as (a & b & -> & ->). by exists a, p, w, b.
  - left. split; [done|]. right. exists k. split; [done|]. by apply lookup_ge_None.
Qed.

Lemma adlist_refines_step s vs o :
  refines s vs -> zlen vs < 2 ^ 63 ->
  exists s', exec_op s o = Some s' /\ refines s' (spec_op vs o).
Proof.
  destruct s as [h l]. intros (xs & Hwf & <-) Hsz. cbn [fst snd] in Hwf.
  assert (zlen xs.*2 = zlen xs) as Hlen by (unfold zlen; by rewrite length_fmap).
  assert (small xs) as Hsm by (unfold small; lia).
  assert (fresh (dom h) ∉ dom h) as Hfresh by apply is_fresh.
  destruct o as [v|v|i v after|i|]; cbn [exec_op spec_op].
  - destruct (addHead_correct _ h l xs v Hwf Hsm Hfresh) as (h' & l' & -> & Hwf' & _).
    eexists. split; [done|]. by eexists.
  - destruct (addTail_correct _ h l xs v Hwf Hsm Hfresh) as (h' & l' & -> & Hwf' & _).
    eexists. split; [done|]. eexists. split; [done|]. by rewrite fmap_app.
  - rewrite length_fmap. destruct (index_cases h l xs i Hwf)
      as [[-> Hcase]|(a & p & w & b & -> & -> & ->)]; cbn [mbind option_bind].
    + eexists. split; [done|]. exists xs. split; [done|].
      destruct Hcase as [->|(k & -> & Hk)]; [done|]. by rewrite decide_False by (rewrite ?length_fmap; lia).
    + destruct (insertNode_correct _ h l a b p w v after Hwf Hsm Hfresh) as (h' & l' & -> & Hwf' & _).
      eexists. split; [done|]. eexists. split; [done|].
      rewrite decide_True by (rewrite ?length_fmap, length_app; simpl; lia).
      destruct after; rewrite !fmap_app, !fmap_cons; cbn [snd].
      * replace (a.*2 ++ w :: b.*2) with ((a.*2 ++ [w]) ++ b.*2) by by rewrite <- app_assoc.
        assert (S (length a) = length (a.*2 ++ [w])) as ->
          by (rewrite length_app, length_fmap; simpl; lia).
        rewrite take_app_length, drop_app_length. by rewrite <- app_assoc.
      * by rewrite take_app_length', drop_app_length' by (by rewrite length_fmap).
  - rewrite length_fmap. destruct (index_cases h l xs i Hwf)
      as [[-> Hcase]|(a & p & w & b & -> & -> & ->)]; cbn [mbind option_bind].
    + eexists. split; [done|]. exists xs. split; [done|].
      destruct Hcase as [->|(k & -> & Hk)]; [done|].
      rewrite delete_take_drop, take_ge, drop_ge, app_nil_r; [done|..]; rewrite length_fmap; lia.
    + destruct (delNode_correct h l a b p w Hwf Hsm) as (h' & l' & -> & Hwf' & _).
      eexists. split; [done|]. eexists. split; [done|]. rewrite !fmap_app, fmap_cons. cbn [snd].
      replace (length a) with (length a.*2) by apply length_fmap.
      by rewrite delete_middle.
  - destruct xs as [|[t v] xs _] using rev_ind.
    + exists (h, l). split; [|by exists []]. unfold listRotate.
      by rewrite (wf_len _ _ _ Hwf).
    + destruct (rotate_correct h l xs t v Hwf) as (h' & l' & -> & _ & Hwf').
      eexists. split; [done|]. eexists. split; [done|].
      rewrite fmap_app. simpl. rewrite reverse_snoc. by rewrite reverse_involutive.
Qed.

Lemma spec_op_length vs o : zlen (spec_op vs o) <= zlen vs + 1.
Proof.
  destruct o as [v|v|i v after|i|]; cbn [spec_op]; unfold zlen.
  - simpl. lia.
  - rewrite length_app. simpl. lia.
  - repeat case_match; rewrite ?length_app; simpl; rewrite ?length_take, ?length_drop; lia.
  - case_match; [|lia]. pose proof (sublist_length _ _ (sublist_delete vs n)). lia.
  - destruct (reverse vs) as [|x r] eqn:E; simpl; [lia|]. rewrite length_reverse.
    apply (f_equal length) in E. rewrite length_reverse in E. simpl in E. lia.
Qed.

Lemma adlist_exec_ops_refines os : forall s vs,
  refines s vs -> zlen vs + zlen os < 2 ^ 63 ->
  exists s', exec_ops s os = Some s' /\ refines s' (fold_left spec_op os vs).
Proof.
  induction os as [|o os IH]; intros s vs Hr Hsz; [by exists s|].
  rewrite zlen_cons in Hsz. pose proof (zlen_nonneg os). cbn [exec_ops fold_left].
  destruct (adlist_refines_step s vs o Hr) as (s' & -> & Hr'); [lia|].
  cbn [mbind option_bind]. apply IH; [done|]. pose proof (spec_op_length vs o). lia.
Qed.

(** C7: any sequence of insertions at either end, insertions next to a node, removals and
    rotations that starts from listCreate uses only valid pointers and ends in a well-formed
    list (consistent [prev], [next], [head], [tail] and [len]) of the values that the list
    functions compute, negative and out-of-range indexes included. *)
Theorem adlist_refines_list h os :
  zlen os < 2 ^ 63 ->
  exists s', exec_ops (h, listCreate) os = Some s' /\ refines s' (fold_left spec_op os []).
Proof.
  intros Hsz. apply adlist_exec_ops_refines; [exists []; split; [apply wf_create|done]|].
  rewrite zlen_nil. lia.
Qed.

(** ListDup copies the whole list into new nodes, in order, with the [dup] method applied
    to every value; the original is never modified.  When the [dup] method fails, NULL is
    returned and every node allocated for the partial copy has been released. *)
Theorem listDup_correct ps h l (xs : list (ptr * A)) :
  wf h l xs -> small xs -> length ps = length xs -> NoDup ps -> (forall p, p ∈ ps -> p ∉ dom h) ->
  exists h' r, listDup (Some <$> ps) h l = Some (h', r) /\
    (forall q, q ∈ dom h -> h' !! q = h !! q) /\
    match mapM (dup_value l) xs.*2 with
    | Some vs => exists copy, r = Some copy /\ wf h' copy (zip ps vs)
    | None => r = None /\ dom h' = dom h
    end.
Proof. apply dup_correct. Qed.

(** ListIndex returns the node at a zero-based position from the head, or from the tail
    for negative indexes, and NULL out of range; listSearchKey returns the first node that
    the [match] method (or pointer equality) accepts; listRelease frees exactly the nodes of
    the list and passes every value once, in order, to the [free] method. *)
Theorem adlist_observers eqv h l (xs : list (ptr * A)) index key :
  wf h l xs ->
  listIndex h l index = Some (i ← index_pos (length xs) index; fst <$> xs !! i) /\
  listSearchKey eqv h l key = Some (fst <$> List.find (matches eqv l key) xs) /\
  exists h', listRelease h l = Some (h', if free l then xs.*2 else []) /\
    dom h' = dom h ∖ list_to_set xs.*1.
Proof.
  intros Hwf. split_and!; [by apply index_correct|by apply adlist_search_correct|].
  destruct (release_correct h l xs Hwf) as (h' & ? & ? & _). eauto.
Qed.

End Adlist.

Lemma adlist_refines_list_witness :
  exists s', exec_ops (∅, listCreate)
      [AddTail 1; AddTail 2; AddHead 0; InsertAt (-1) 9 false; Rotate; DelAt 1] = Some s' /\
    refines s' [2; 1; 9].
Proof.
  apply (adlist_refines_list ∅
    [AddTail 1; AddTail 2; AddHead 0; InsertAt (-1) 9 false; Rotate; DelAt 1]).
  vm_compute. reflexivity.
Defined.

(** A concrete list of two nodes with a [dup] method that fails on negative values. *)
Definition demo_heap : gmap ptr (node Z) :=
  {[1%nat := mkNode None (Some 2%nat) 5; 2%nat := mkNode (Some 1%nat) None (-5)]}.
Definition demo_list : dlist (A := Z) :=
  mkList (Some 1%nat) (Some 2%nat) (Some (fun v => if v <? 0 then None else Some v)) true None 2.

Lemma demo_wf : wf demo_heap demo_list [(1%nat, 5); (2%nat, -5)].
Proof. split; try done. repeat constructor; set_solver. Qed.

Lemma listDup_correct_witness :
  exists h' r, listDup (Some <$> [7%nat; 8%nat]) demo_heap demo_list = Some (h', r) /\
    (forall q, q ∈ dom demo_heap -> h' !! q = demo_heap !! q) /\ r = None /\
    dom h' = dom demo_heap.
Proof.
  apply (listDup_correct [7%nat; 8%nat] demo_heap demo_list [(1%nat, 5); (2%nat, -5)]).
  - apply demo_wf.
  - done.
  - done.
  - repeat constructor; set_solver.
  - intros p Hp. vm_compute. set_solver.
Defined.

Lemma adlist_observers_witness :
  listIndex demo_heap demo_list (-1) = Some (Some 2%nat) /\
  listSearchKey Z.eqb demo_heap demo_list (-5) = Some (Some 2%nat) /\
  exists h', listRelease demo_heap demo_list = Some (h', [5; -5]) /\
    dom h' = dom demo_heap ∖ list_to_set [1%nat; 2%nat].
Proof.
  apply (adlist_observers Z.eqb demo_heap demo_list [(1%nat, 5); (2%nat, -5)] (-1) (-5)).
  apply demo_wf.
Defined.

End Adlist.
