(* ===== verification/LocklessList.v ===== *)
(** * lockless_list.h: the singly linked list of the inverted index

    Model of [src/src/util/containers/lockless_list.h].  The nodes that an allocator creates
    form its arena [nodes]; a pointer is an index into the arena, NULL is [None].  The
    allocator keeps recycled nodes in a FIFO pool, and hands them out again with their old
    data.  A failing CHECK aborts the process and is [None], as is the use of an invalid
    pointer.

    Sequentially the structure is a list that grows at the front and is cut behind a node
    ([lockless_refines_list]).  The last section interleaves the machine steps of PushFront
    and EraseAfter, which the index runs in two threads under a shared (reader) lock. *)

From Stdlib Require Import ZArith Lia.
From stdpp Require Import prelude list numbers.
From S2P Require Import Prelude.

Local Open Scope Z_scope.

Module LocklessList.

Section LocklessList.
Context {T : Type} (T0 : T).  (* [T0] is the value of the default constructor [Type()] *)

Record ListNode := mkListNode { data : T; next : option nat }.

Record LocklessList := mkLL {
  nodes : list ListNode;   (* the nodes created by the list's own allocator *)
  front_ : nat;            (* the fake front node *)
  buffer_num_ : Z;
  obj_pool_ : list nat;
  node_num_ : Z;
}.

Implicit Types (l : LocklessList).

Definition set_nodes l ns := mkLL ns (front_ l) (buffer_num_ l) (obj_pool_ l) (node_num_ l).
Definition set_pool l pool := mkLL (nodes l) (front_ l) (buffer_num_ l) pool (node_num_ l).
Definition set_node_num l n := mkLL (nodes l) (front_ l) (buffer_num_ l) (obj_pool_ l) n.

(** ListAllocator::Allocate *)
Definition AllocatorAllocate l : option (LocklessList * nat) :=
  if decide (zlen (obj_pool_ l) <= buffer_num_ l) then
    Some (set_nodes l (nodes l ++ [mkListNode T0 None]), length (nodes l))
  else
    match obj_pool_ l with
    | [] => None
    | n :: pool =>
      nd ← nodes l !! n;
      Some (set_pool (set_nodes l (<[n := mkListNode (data nd) None]> (nodes l))) pool, n)
    end.

(** ListAllocator::Recycle: [while (node) { push_back(node); node = node->next; ++count; }];
    a chain is not longer than the arena unless it is cyclic. *)
Fixpoint Recycle_loop (fuel : nat) (ns : list ListNode) (p : option nat) (pool : list nat)
    (count : Z) : option (list nat * Z) :=
  match p with
  | None => Some (pool, count)
  | Some n =>
    match fuel with
    | O => None
    | S fuel => nd ← ns !! n; Recycle_loop fuel ns (next nd) (pool ++ [n]) (uwrap 32 (count + 1))
    end
  end.

Definition Recycle l (p : option nat) : option (LocklessList * Z) :=
  r ← Recycle_loop (length (nodes l)) (nodes l) p (obj_pool_ l) 0;
  Some (set_pool l (fst r), snd r).

(** The constructor, with its own allocator. *)
Definition NewLocklessList : LocklessList := mkLL [mkListNode T0 None] 0 0 [] 0.

Definition Front l : nat := front_ l.

Definition Allocate l : option (LocklessList * nat) := AllocatorAllocate l.

(** [Allocate(const Type& t)] *)
Definition AllocateWith l (t : T) : option (LocklessList * nat) :=
  r ← AllocatorAllocate l;
  let '(l, n) := r in
  nd ← nodes l !! n;
  Some (set_nodes l (<[n := mkListNode t (next nd)]> (nodes l)), n).

Definition set_next l (n : nat) (p : option nat) : option LocklessList :=
  nd ← nodes l !! n; Some (set_nodes l (<[n := mkListNode (data nd) p]> (nodes l))).

Definition PushFront l (n : nat) : option LocklessList :=
  f ← nodes l !! front_ l;
  l ← set_next l n (next f);
  l ← set_next l (front_ l) (Some n);
  Some (set_node_num l (uwrap 32 (node_num_ l + 1))).

Definition EraseAfter l (node : option nat) : option LocklessList :=
  match node with
  | None => Some l
  | Some n =>
    nd ← nodes l !! n;
    let p := next nd in
    l ← set_next l n None;
    r ← Recycle l p;
    let '(l, count) := r in
    Some (set_node_num l (uwrap 32 (node_num_ l - count)))
  end.

(** [None] is the failing CHECK_EQ. *)
Definition IsEmpty l : option bool :=
  f ← nodes l !! front_ l;
  match next f with
  | None => if node_num_ l =? 0 then Some true else None
  | Some _ => Some false
  end.

Definition Reset l : option LocklessList :=
  l ← EraseAfter l (Some (front_ l));
  b ← IsEmpty l;
  if b : bool then Some l else None.

Definition node_num l : Z := node_num_ l.

(** The destructor: recycles every node and checks the count. *)
Definition Destroy l : option LocklessList :=
  r ← Recycle l (Some (front_ l));
  let '(l, count) := r in
  if count =? uwrap 32 (node_num_ l + 1) then Some l else None.

(** ** Representation *)

Fixpoint chain (ns : list ListNode) (p : option nat) (xs : list nat) : Prop :=
  match xs with
  | [] => p = None
  | x :: xs => p = Some x /\ exists nd, ns !! x = Some nd /\ chain ns (next nd) xs
  end.

(** [xs] are the addresses of the list behind the fake front. *)
Record wf l (xs : list nat) : Prop := {
  wf_chain : exists f, nodes l !! front_ l = Some f /\ chain (nodes l) (next f) xs;
  wf_nodup : NoDup (front_ l :: xs ++ obj_pool_ l);
  wf_pool : Forall (fun n => (n < length (nodes l))%nat) (obj_pool_ l);
  wf_num : node_num_ l = zlen xs;
  wf_size : zlen (nodes l) < 2 ^ 31;
  wf_buffer : buffer_num_ l = 0;
}.

Definition datas l (xs : list nat) : list (option T) := (fun n => data <$> nodes l !! n) <$> xs.

Lemma chain_ext ns ns' p xs :
  (forall n, n ∈ xs -> ns' !! n = ns !! n) -> chain ns p xs -> chain ns' p xs.
Proof.
  revert p. induction xs as [|x xs IH]; intros p Hn; simpl; [done|].
  intros (-> & nd & Hx & Hc). split; [done|]. exists nd. rewrite Hn by set_solver.
  split; [done|]. apply IH; [|done]. intros n Hin. apply Hn. set_solver.
Qed.

Lemma chain_lookup ns p xs n : chain ns p xs -> n ∈ xs -> is_Some (ns !! n).
Proof.
  revert p. induction xs as [|x xs IH]; intros p; simpl; [set_solver|].
  intros (_ & nd & Hx & Hc) [->|Hin]%elem_of_cons; eauto.
Qed.

Lemma chain_app ns p a b :
  chain ns p (a ++ b) ->
  exists q, chain ns q b /\ (a = [] -> p = q) /\
    (forall a' x, a = a' ++ [x] -> exists nd, ns !! x = Some nd /\ next nd = q).
Proof.
  revert p. induction a as [|y a IH]; intros p Hc; simpl in *.
  - exists p. split_and!; try done. intros a' x Heq. by destruct a'.
  - destruct Hc as (-> & nd & Hy & Hc). destruct (IH _ Hc) as (q & Hb & Hnil & Hlast).
    exists q. split_and!; try done. intros a' x Heq. destruct a' as [|z a'].
    + injection Heq as -> ->. exists nd. split; [done|]. by apply Hnil.
    + injection Heq as -> ->. by eapply Hlast.
Qed.

(** Cutting a chain behind its last kept node. *)
Lemma chain_cut ns p a x b nd :
  NoDup (a ++ x :: b) -> chain ns p (a ++ x :: b) -> ns !! x = Some nd ->
  chain (<[x := mkListNode (data nd) None]> ns) p (a ++ [x]).
Proof.
  intros Hnd. revert p. induction a as [|y a IH]; intros p; simpl in *.
  - intros (-> & nd' & Hx & _) Hx'. split; [done|]. eexists.
    rewrite list_lookup_insert_eq; [done|]. by apply lookup_lt_Some in Hx.
  - intros (-> & nd' & Hy & Hc) Hx. apply list.NoDup_cons in Hnd as [Hy' Hnd].
    split; [done|]. exists nd'. rewrite list_lookup_insert_ne by set_solver. auto.
Qed.

Lemma chain_le ns p xs : chain ns p xs -> NoDup xs -> (length xs <= length ns)%nat.
Proof.
  intros Hc Hnd. replace (length ns) with (length (seq 0 (length ns))) by apply length_seq.
  apply submseteq_length, NoDup_submseteq; [done|]. intros n Hn.
  destruct (chain_lookup _ _ _ _ Hc Hn) as [nd Hl%lookup_lt_Some]. apply elem_of_seq. lia.
Qed.

Lemma Recycle_loop_correct ns xs : forall fuel p pool count,
  (length xs <= fuel)%nat -> chain ns p xs -> 0 <= count -> count + zlen xs < 2 ^ 32 ->
  Recycle_loop fuel ns p pool count = Some (pool ++ xs, count + zlen xs).
Proof.
  induction xs as [|x xs IH]; intros fuel p pool count Hf Hc H0 Hb; simpl in Hc.
  - subst p. destruct fuel; simpl; by rewrite app_nil_r, Z.add_0_r.
  - destruct Hc as (-> & nd & Hx & Hc). destruct fuel as [|fuel]; [simpl in Hf; lia|].
    cbn [Recycle_loop]. rewrite Hx. cbn [mbind option_bind]. rewrite zlen_cons in *.
    pose proof (zlen_nonneg xs).
    rewrite IH; [|simpl in Hf; lia|done|..]; rewrite uwrap_id by (unfold in_uint; lia).
    + rewrite <- app_assoc. simpl. do 2 f_equal. lia.
    + lia.
    + lia.
Qed.

(** Every node is the front, in the list or in the pool. *)
Definition conserved l (xs : list nat) : Prop :=
  length (nodes l) = S (length xs + length (obj_pool_ l)).

Lemma wf_front_lt l xs : wf l xs -> (front_ l < length (nodes l))%nat.
Proof. intros []. destruct wf_chain0 as (f & Hf & _). by apply lookup_lt_Some in Hf. Qed.

Lemma wf_xs_lt l xs n : wf l xs -> n ∈ xs -> (n < length (nodes l))%nat.
Proof.
  intros [] Hin. destruct wf_chain0 as (f & Hf & Hc).
  destruct (chain_lookup _ _ _ _ Hc Hin) as [nd Hl]. by apply lookup_lt_Some in Hl.
Qed.

Lemma set_next_Some l n p nd :
  nodes l !! n = Some nd ->
  set_next l n p = Some (set_nodes l (<[n := mkListNode (data nd) p]> (nodes l))).
Proof. intros H. unfold set_next. by rewrite H. Qed.

(** A node that is handed out is in neither the list nor the pool. *)
Lemma AllocateWith_correct l xs t :
  wf l xs -> conserved l xs -> zlen (nodes l) + 1 < 2 ^ 31 ->
  exists l' n, AllocateWith l t = Some (l', n) /\
    wf l' xs /\ n ∉ front_ l' :: xs ++ obj_pool_ l' /\ front_ l' = front_ l /\
    nodes l' !! n = Some (mkListNode t None) /\
    (forall m, m <> n -> (m < length (nodes l))%nat -> nodes l' !! m = nodes l !! m) /\
    length (nodes l') = S (S (length xs + length (obj_pool_ l'))) /\
    (length (nodes l') <= S (length (nodes l)))%nat.
Proof.
  intros Hwf Hcons Hsz. pose proof (wf_front_lt _ _ Hwf) as Hfl.
  pose proof (fun n => wf_xs_lt l xs n Hwf) as Hxl.
  destruct Hwf as [(f & Hf & Hc) Hnd Hpool Hnum Hs Hb].
  unfold AllocateWith, AllocatorAllocate, conserved in *. rewrite Hb.
  destruct (obj_pool_ l) as [|n pool] eqn:Hp.
  - rewrite decide_True by done. cbn -[insert].
    rewrite list_lookup_middle by done. cbn -[insert].
    replace (<[length (nodes l):=mkListNode t None]> (nodes l ++ [mkListNode T0 None]))
      with (nodes l ++ [mkListNode t None])
      by (rewrite insert_app_r_alt, Nat.sub_diag by lia; done).
    eexists _, _. split; [done|]. cbn -[insert]. rewrite Hp. split_and!; try done.
    + split; cbn; rewrite ?Hp; try done.
      * exists f. rewrite lookup_app_l by done. split; [done|].
        eapply chain_ext; [|exact Hc]. intros m Hm. by rewrite lookup_app_l by auto.
      * rewrite zlen_app, zlen_cons, zlen_nil. lia.
    + rewrite app_nil_r in *. intros [Heq|Hin]%elem_of_cons; [lia|].
      specialize (Hxl _ Hin). lia.
    + by rewrite list_lookup_middle.
    + intros m Hne Hm. by rewrite lookup_app_l.
    + rewrite length_app. simpl in *. lia.
    + rewrite length_app. simpl. lia.
  - rewrite decide_False by (rewrite zlen_cons; pose proof (zlen_nonneg pool); lia).
    apply Forall_cons_iff in Hpool as [Hnl Hpool].
    destruct (lookup_lt_is_Some_2 (nodes l) n Hnl) as [nd Hn]. rewrite Hn. cbn -[insert].
    rewrite list_lookup_insert_eq by done. cbn -[insert]. rewrite list_insert_insert_eq.
    assert (Hnd' : n ∉ front_ l :: xs ++ pool /\ NoDup (front_ l :: xs ++ pool)).
    { rewrite app_comm_cons in Hnd.
      rewrite <- (Permutation_middle (front_ l :: xs) pool n) in Hnd.
      by apply list.NoDup_cons in Hnd. }
    destruct Hnd' as [Hnin Hnd'].
    eexists _, _. split; [done|]. cbn -[insert]. split_and!; try done.
    + split; cbn -[insert]; try done.
      * exists f. rewrite list_lookup_insert_ne by set_solver. split; [done|].
        eapply chain_ext; [|exact Hc]. intros m Hm.
        rewrite list_lookup_insert_ne by set_solver. done.
      * by rewrite length_insert.
      * unfold zlen in *. rewrite length_insert. lia.
    + by rewrite list_lookup_insert_eq.
    + intros m Hne _. by rewrite list_lookup_insert_ne.
    + rewrite length_insert. simpl in *. lia.
    + rewrite length_insert. lia.
Qed.

Lemma PushFront_correct l xs n nd :
  wf l xs -> n ∉ front_ l :: xs ++ obj_pool_ l -> nodes l !! n = Some nd ->
  zlen xs + 1 < 2 ^ 31 ->
  exists l', PushFront l n = Some l' /\ wf l' (n :: xs) /\ front_ l' = front_ l /\
    obj_pool_ l' = obj_pool_ l /\ length (nodes l') = length (nodes l) /\
    (forall m, data <$> nodes l' !! m = data <$> nodes l !! m).
Proof.
  intros Hwf Hnin Hn Hb. pose proof (wf_front_lt _ _ Hwf) as Hfl.
  destruct Hwf as [(f & Hf & Hc) Hnd Hpool Hnum Hs Hbuf].
  assert (Hne : n <> front_ l) by set_solver.
  unfold PushFront. rewrite Hf. cbn [mbind option_bind].
  rewrite (set_next_Some _ _ _ _ Hn). cbn [mbind option_bind].
  erewrite set_next_Some by (cbn -[insert]; rewrite list_lookup_insert_ne; [exact Hf|done]).
  cbn -[insert uwrap]. pose proof (zlen_nonneg xs).
  eexists. split; [done|]. cbn -[insert uwrap]. split_and!; try done.
  - split; cbn -[insert uwrap]; try done.
    + eexists. split; [apply list_lookup_insert_eq; by rewrite length_insert|]. cbn -[insert].
      split; [done|]. eexists. split.
      { rewrite list_lookup_insert_ne by done. apply list_lookup_insert_eq.
        by apply lookup_lt_Some in Hn. }
      cbn -[insert]. eapply chain_ext; [|exact Hc]. intros m Hm.
      assert (m <> front_ l) by (apply list.NoDup_cons in Hnd; set_solver).
      rewrite !list_lookup_insert_ne by set_solver. done.
    + rewrite (perm_swap n (front_ l) (xs ++ obj_pool_ l)). apply list.NoDup_cons. by split.
    + by rewrite !length_insert.
    + rewrite zlen_cons, Hnum, uwrap_id by (unfold in_uint; lia). lia.
    + unfold zlen in *. by rewrite !length_insert.
  - by rewrite !length_insert.
  - intros m. destruct (decide (m = front_ l)) as [->|].
    + rewrite list_lookup_insert_eq, Hf by (by rewrite length_insert). done.
    + rewrite list_lookup_insert_ne by done. destruct (decide (m = n)) as [->|].
      * rewrite list_lookup_insert_eq, Hn by (by apply lookup_lt_Some in Hn). done.
      * by rewrite list_lookup_insert_ne by done.
Qed.

Lemma EraseAfter_NULL l : EraseAfter l None = Some l.
Proof. done. Qed.

(** Erasing behind a node of the list: its tail goes to the end of the pool. *)
Lemma EraseAfter_correct l xs a x b :
  wf l xs -> front_ l :: xs = a ++ x :: b ->
  exists l', EraseAfter l (Some x) = Some l' /\ wf l' (list.tail (a ++ [x])) /\
    front_ l' = front_ l /\ obj_pool_ l' = obj_pool_ l ++ b /\
    length (nodes l') = length (nodes l) /\
    (forall m, data <$> nodes l' !! m = data <$> nodes l !! m).
Proof.
  intros Hwf Heq. pose proof (wf_front_lt _ _ Hwf) as Hfl.
  pose proof (fun n => wf_xs_lt l xs n Hwf) as Hxl.
  destruct Hwf as [(f & Hf & Hc) Hnd Hpool Hnum Hs Hbuf].
  assert (Hfull : chain (nodes l) (Some (front_ l)) (front_ l :: xs)) by (simpl; eauto).
  rewrite Heq in Hfull. rewrite app_comm_cons, Heq in Hnd.
  assert (Hlen : length (a ++ x :: b) = S (length xs)) by (by rewrite <- Heq).
  rewrite length_app in Hlen. simpl in Hlen.
  assert (Hndl : NoDup (a ++ x :: b)).
  { by apply list.NoDup_app in Hnd as (? & _). }
  destruct (chain_app _ _ _ _ Hfull) as (q & (-> & nd & Hx & Hb) & _).
  pose proof (chain_cut _ _ _ _ _ _ Hndl Hfull Hx) as Hcut.
  assert (Hxn : x ∉ b) by (apply list.NoDup_app in Hndl as (_ & _ & ?%list.NoDup_cons); tauto).
  assert (Hb' : chain (<[x:=mkListNode (data nd) None]> (nodes l)) (next nd) b).
  { eapply chain_ext; [|exact Hb]. intros m Hm. by rewrite list_lookup_insert_ne by set_solver. }
  assert (Hndb : NoDup b) by (apply list.NoDup_app in Hndl as (_ & _ & [_ ?]%list.NoDup_cons); done).
  pose proof (chain_le _ _ _ Hb' Hndb) as Hle. rewrite length_insert in Hle.
  unfold EraseAfter. rewrite Hx. cbn [mbind option_bind]. rewrite (set_next_Some _ _ _ _ Hx).
  cbn [mbind option_bind]. unfold Recycle. cbn -[insert uwrap].
  rewrite (Recycle_loop_correct _ b); [|by rewrite length_insert|done|lia|unfold zlen in *; lia].
  cbn -[insert uwrap]. eexists. split; [done|].
  assert (Htl : list.tail (a ++ [x]) ++ b = xs).
  { destruct a as [|y a]; simpl in *; injection Heq as _ ->; [done|]. by rewrite <- app_assoc. }
  cbn -[insert uwrap]. split_and!; try done.
  - split; cbn -[insert uwrap]; try done.
    + destruct a as [|y a]; simpl in Heq; injection Heq as Heq1 Heq2; subst.
      * eexists. split; [by apply list_lookup_insert_eq|]. done.
      * cbn -[insert] in Hcut. destruct Hcut as (_ & nd' & Hy & Hcut). eauto.
    + rewrite (Permutation_app_comm (obj_pool_ l) b), app_assoc, Htl.
      by rewrite app_comm_cons, Heq.
    + rewrite length_insert. apply Forall_app. split; [done|]. apply Forall_forall.
      intros m Hm%list_elem_of_In. apply Hxl. rewrite <- Htl. set_solver.
    + rewrite Hnum, <- Htl, zlen_app, uwrap_id; unfold in_uint, zlen in *.
      * lia.
      * pose proof (chain_le _ _ _ Hfull Hndl) as HleF. rewrite length_app in HleF.
        rewrite <- Htl, length_app in Hlen. simpl in HleF. lia.
    + unfold zlen in *. by rewrite length_insert.
  - by rewrite length_insert.
  - intros m. destruct (decide (m = x)) as [->|].
    + rewrite list_lookup_insert_eq, Hx by (by apply lookup_lt_Some in Hx). done.
    + by rewrite list_lookup_insert_ne by done.
Qed.

Lemma IsEmpty_correct l xs :
  wf l xs -> IsEmpty l = Some (match xs with [] => true | _ => false end).
Proof.
  intros [(f & Hf & Hc) _ _ Hnum _ _]. unfold IsEmpty. rewrite Hf. cbn [mbind option_bind].
  destruct xs as [|x xs]; simpl in Hc; [by rewrite Hc, Hnum|]. by destruct Hc as [-> _].
Qed.

Lemma Destroy_correct l xs : wf l xs -> is_Some (Destroy l).
Proof.
  intros Hwf. pose proof (wf_front_lt _ _ Hwf) as Hfl.
  destruct Hwf as [(f & Hf & Hc) Hnd Hpool Hnum Hs Hbuf].
  assert (Hfull : chain (nodes l) (Some (front_ l)) (front_ l :: xs)) by (simpl; eauto).
  assert (Hndx : NoDup (front_ l :: xs)).
  { rewrite app_comm_cons in Hnd. by apply list.NoDup_app in Hnd as (? & _). }
  pose proof (chain_le _ _ _ Hfull Hndx) as Hle.
  unfold Destroy, Recycle.
  rewrite (Recycle_loop_correct _ (front_ l :: xs)); [|done|done|lia|unfold zlen in *; lia].
  cbn -[uwrap zlen]. rewrite Hnum, zlen_cons, Z.add_0_l, Z.add_comm, uwrap_id, Z.eqb_refl;
    [by eexists|].
  unfold in_uint, zlen in *. simpl in Hle. lia.
Qed.

(** ** Refinement: a list that grows at its front and is cut behind a position *)

(** The node at position [k], counted from the fake front; NULL past the end. *)
Fixpoint node_at (ns : list ListNode) (p : option nat) (k : nat) : option (option nat) :=
  match k, p with
  | O, _ => Some p
  | _, None => Some None
  | S k, Some n => nd ← ns !! n; node_at ns (next nd) k
  end.

(** The traversal of a reader: the data behind the fake front. *)
Fixpoint traverse (fuel : nat) (ns : list ListNode) (p : option nat) : option (list T) :=
  match p with
  | None => Some []
  | Some n =>
    match fuel with
    | O => None
    | S fuel => nd ← ns !! n; r ← traverse fuel ns (next nd); Some (data nd :: r)
    end
  end.

Definition contents l : option (list T) :=
  f ← nodes l !! front_ l; traverse (length (nodes l)) (nodes l) (next f).

Inductive op :=
  | Push (t : T)
  | Erase (k : nat)
  | OReset.

Definition step l (o : op) : option LocklessList :=
  match o with
  | Push t => r ← AllocateWith l t; PushFront (fst r) (snd r)
  | Erase k => p ← node_at (nodes l) (Some (Front l)) k; EraseAfter l p
  | OReset => Reset l
  end.

Fixpoint run l (os : list op) : option LocklessList :=
  match os with
  | [] => Some l
  | o :: os => l ← step l o; run l os
  end.

Definition spec_step (vs : list T) (o : op) : list T :=
  match o with
  | Push t => t :: vs
  | Erase k => take k vs
  | OReset => []
  end.

(** [l] holds the values [vs] in the nodes [xs]. *)
Definition holds l (xs : list nat) (vs : list T) : Prop :=
  wf l xs /\ conserved l xs /\ datas l xs = Some <$> vs.

Definition repr l (vs : list T) : Prop := exists xs, holds l xs vs.

Lemma datas_ext l l' xs :
  (forall m, m ∈ xs -> data <$> nodes l' !! m = data <$> nodes l !! m) ->
  datas l' xs = datas l xs.
Proof. intros H. apply list_fmap_ext. intros i x Hx. apply H. by eapply list_elem_of_lookup_2. Qed.

Lemma node_at_chain ns xs : forall p k, chain ns p xs -> node_at ns p k = Some (xs !! k).
Proof.
  induction xs as [|x xs IH]; intros p k Hc; simpl in Hc.
  - subst p. by destruct k.
  - destruct Hc as (-> & nd & Hx & Hc). destruct k as [|k]; simpl; [done|].
    rewrite Hx. cbn [mbind option_bind]. by apply IH.
Qed.

Lemma traverse_chain ns xs : forall fuel p vs,
  chain ns p xs -> (fun n => data <$> ns !! n) <$> xs = Some <$> vs ->
  (length xs <= fuel)%nat -> traverse fuel ns p = Some vs.
Proof.
  induction xs as [|x xs IH]; intros fuel p vs Hc Hd Hf; simpl in Hc.
  - subst p. destruct vs; [|done]. by destruct fuel.
  - destruct Hc as (-> & nd & Hx & Hc). destruct vs as [|v vs]; [done|].
    rewrite !fmap_cons, Hx in Hd. injection Hd as Hv Hd. subst v.
    destruct fuel as [|fuel]; simpl in Hf; [lia|]. cbn [traverse]. rewrite Hx.
    cbn [mbind option_bind]. rewrite (IH fuel (next nd) vs) by (done || lia). done.
Qed.

Lemma repr_length l xs vs : datas l xs = Some <$> vs -> length xs = length vs.
Proof. intros H%(f_equal length). unfold datas in H. by rewrite !length_fmap in H. Qed.

Lemma Push_holds l xs vs t :
  holds l xs vs -> zlen (nodes l) + 1 < 2 ^ 31 ->
  exists l1 n l2, AllocateWith l t = Some (l1, n) /\ PushFront l1 n = Some l2 /\
    holds l2 (n :: xs) (t :: vs) /\ n <> front_ l /\ n ∉ xs /\ front_ l2 = front_ l /\
    (length (nodes l2) <= S (length (nodes l)))%nat.
Proof.
  intros (Hwf & Hc & Hd) Hsz.
  destruct (AllocateWith_correct _ _ t Hwf Hc Hsz)
    as (l1 & n & HA & Hwf1 & Hn & Hf & Hnd & Hk & Hl1 & Hle).
  destruct (PushFront_correct l1 xs n _ Hwf1 Hn Hnd) as (l2 & HP & Hwf2 & Hf2 & Hp2 & Hl2 & Hd2).
  { unfold conserved, zlen in *. lia. }
  exists l1, n, l2. split; [done|]. split; [done|].
  split; [|rewrite <- Hf; split_and!; [set_solver|set_solver|congruence|lia]].
  split_and!; [done|unfold conserved; simpl; rewrite Hl2, Hp2; lia|].
  unfold datas in *. rewrite !fmap_cons. f_equal; [by rewrite Hd2, Hnd|].
  rewrite <- Hd. apply (datas_ext l l2). intros m Hm. rewrite Hd2, Hk; [done|set_solver|].
  by apply (wf_xs_lt l xs).
Qed.

Lemma Push_repr l vs t :
  repr l vs -> zlen (nodes l) + 1 < 2 ^ 31 ->
  exists l', step l (Push t) = Some l' /\ repr l' (t :: vs) /\
    (length (nodes l') <= S (length (nodes l)))%nat.
Proof.
  intros (xs & Hh) Hsz. cbn [step].
  destruct (Push_holds l xs vs t Hh Hsz) as (l1 & n & l2 & -> & HP & Hh2 & _ & _ & _ & Hl).
  cbn [mbind option_bind fst snd]. exists l2. split_and!; [done|by exists (n :: xs)|done].
Qed.

(** Erasing behind the node at position [k], the fake front being at position 0. *)
Lemma EraseAfter_holds l xs vs k x :
  holds l xs vs -> (front_ l :: xs) !! k = Some x ->
  exists l', EraseAfter l (Some x) = Some l' /\ holds l' (take k xs) (take k vs) /\
    front_ l' = front_ l /\ length (nodes l') = length (nodes l).
Proof.
  intros (Hwf & Hc & Hd) Hk. pose proof (take_drop_middle _ _ _ Hk) as Heq.
  destruct (EraseAfter_correct _ _ _ _ _ Hwf (eq_sym Heq))
    as (l' & HE & Hwf' & Hf' & Hp' & Hl' & Hd').
  exists l'. split; [done|]. split; [|done].
  assert (Htl : list.tail (take k (front_ l :: xs) ++ [x]) = take k xs).
  { destruct k as [|k]; [done|]. simpl in Hk |- *. by rewrite (take_S_r _ _ _ Hk). }
  apply lookup_lt_Some in Hk. simpl in Hk.
  rewrite Htl in Hwf'. split_and!; [done| |].
  - unfold conserved in *. rewrite Hl', Hc, Hp', length_app, length_take, length_drop. simpl. lia.
  - rewrite (datas_ext l l') by auto. unfold datas in *. by rewrite fmap_take, Hd, fmap_take.
Qed.

Lemma Erase_repr l vs k :
  repr l vs ->
  exists l', step l (Erase k) = Some l' /\ repr l' (take k vs) /\
    length (nodes l') = length (nodes l).
Proof.
  intros (xs & Hh). pose proof Hh as (Hwf & Hc & Hd). cbn [step].
  destruct (wf_chain _ _ Hwf) as (f & Hf & Hch).
  rewrite (node_at_chain _ (front_ l :: xs)) by (simpl; eauto). cbn [mbind option_bind].
  pose proof (repr_length _ _ _ Hd) as Hlen.
  destruct ((front_ l :: xs) !! k) as [x|] eqn:Hk.
  - destruct (EraseAfter_holds l xs vs k x Hh Hk) as (l' & HE & Hr & _ & Hl).
    exists l'. split_and!; [done|by exists (take k xs)|done].
  - rewrite EraseAfter_NULL. eexists. split; [done|]. apply lookup_ge_None in Hk. simpl in Hk.
    rewrite take_ge by lia. split; [|done]. by exists xs.
Qed.

Lemma Reset_repr l vs :
  repr l vs ->
  exists l', step l OReset = Some l' /\ repr l' [] /\ length (nodes l') = length (nodes l).
Proof.
  intros (xs & Hh). cbn [step]. unfold Reset.
  destruct (EraseAfter_holds l xs vs 0 (front_ l) Hh eq_refl) as (l' & -> & Hr & _ & Hl).
  cbn [mbind option_bind]. rewrite (IsEmpty_correct _ _ (proj1 Hr)). cbn [mbind option_bind].
  eexists. split; [done|]. split; [|done]. by exists [].
Qed.

Lemma step_repr l vs o :
  repr l vs -> zlen (nodes l) + 1 < 2 ^ 31 ->
  exists l', step l o = Some l' /\ repr l' (spec_step vs o) /\
    (length (nodes l') <= S (length (nodes l)))%nat.
Proof.
  intros Hr Hs. destruct o as [t|k|].
  - by apply Push_repr.
  - destruct (Erase_repr l vs k Hr) as (l' & -> & Hr' & Hl). eexists. split_and!; [done..|lia].
  - destruct (Reset_repr l vs Hr) as (l' & -> & Hr' & Hl). eexists. split_and!; [done..|lia].
Qed.

Lemma run_repr os : forall l vs,
  repr l vs -> zlen (nodes l) + zlen os < 2 ^ 31 ->
  exists l', run l os = Some l' /\ repr l' (fold_left spec_step os vs).
Proof.
  induction os as [|o os IH]; intros l vs Hr Hs; simpl; [eauto|].
  rewrite zlen_cons in Hs. pose proof (zlen_nonneg os).
  destruct (step_repr l vs o Hr) as (l1 & -> & Hr1 & Hl1); [lia|]. cbn [mbind option_bind].
  apply IH; [done|]. unfold zlen in *. lia.
Qed.

Lemma NewLocklessList_repr : repr NewLocklessList [].
Proof.
  exists []. split; [|done]. split; cbn; try done; [by eexists|].
  apply list.NoDup_cons. split; [set_solver|constructor].
Qed.

Lemma repr_contents l vs : repr l vs -> contents l = Some vs.
Proof.
  intros (xs & Hwf & Hc & Hd). destruct (wf_chain _ _ Hwf) as (f & Hf & Hch).
  unfold contents. rewrite Hf. cbn [mbind option_bind].
  apply (traverse_chain _ xs); [done..|]. unfold conserved in Hc. lia.
Qed.

(** C3: any sequence of pushes (Allocate(t), PushFront), cuts (EraseAfter the k-th node) and
    Resets on a new list behaves as the corresponding operations on a list of values: a reader
    that follows the next pointers sees exactly that list, node_num() is its length, no CHECK
    fires (IsEmpty, Reset and the destructor included), and every node the allocator created
    is the fake front, in the list or in the recycling pool. *)
Theorem lockless_refines_list (os : list op) :
  zlen os < 2 ^ 31 - 1 ->
  exists l, run NewLocklessList os = Some l /\
    let vs := fold_left spec_step os [] in
    contents l = Some vs /\ node_num l = zlen vs /\
    IsEmpty l = Some (bool_decide (zlen vs = 0)) /\ is_Some (Destroy l) /\
    length (nodes l) = S (length vs + length (obj_pool_ l)).
Proof.
  intros Hb. destruct (run_repr os _ _ NewLocklessList_repr) as (l & Hrun & Hr); [change (zlen (nodes NewLocklessList)) with 1; lia|].
  exists l. split; [done|]. simpl. rewrite (repr_contents _ _ Hr).
  destruct Hr as (xs & Hwf & Hc & Hd). pose proof (repr_length _ _ _ Hd) as Hlen.
  unfold zlen in *. rewrite <- Hlen. split_and!; [done|exact (wf_num _ _ Hwf)| |by eapply Destroy_correct|done].
  rewrite (IsEmpty_correct _ _ Hwf). by destruct xs.
Qed.

(** ** Interleaving a push and a cut

    IndexBuildThread::AddStoryInternal pushes and CleanOldStoryThread::Run cuts while both
    hold the reader lock of the index, so their steps interleave.  A machine step is one
    access to a shared field; the allocator works under its own mutex and is one step. *)

Inductive builder_pc :=
  | BIdle                 (* before Allocate *)
  | BAllocated (n : nat)  (* before [node->next = front_->next] *)
  | BLinked (n : nat)     (* before [front_->next = node] *)
  | BPublished            (* before the load of [++node_num_] *)
  | BLoaded (r : Z)       (* before its store *)
  | BDone.

Inductive cleaner_pc :=
  | CIdle (n : nat)                     (* before [p = node->next] *)
  | CRead (n : nat) (p : option nat)    (* before [node->next = NULL] *)
  | CCut (p : option nat)               (* before [Recycle(p)] *)
  | CRecycled (count : Z)               (* before the load of [node_num_ -= count] *)
  | CLoaded (count r : Z)               (* before its store *)
  | CDone.

Record machine := mkMachine { shared : LocklessList; bpc : builder_pc; cpc : cleaner_pc }.

Definition builder_step (t : T) (m : machine) : option machine :=
  let l := shared m in
  match bpc m with
  | BIdle => r ← AllocateWith l t; Some (mkMachine (fst r) (BAllocated (snd r)) (cpc m))
  | BAllocated n =>
    f ← nodes l !! front_ l; l ← set_next l n (next f); Some (mkMachine l (BLinked n) (cpc m))
  | BLinked n => l ← set_next l (front_ l) (Some n); Some (mkMachine l BPublished (cpc m))
  | BPublished => Some (mkMachine l (BLoaded (node_num_ l)) (cpc m))
  | BLoaded r => Some (mkMachine (set_node_num l (uwrap 32 (r + 1))) BDone (cpc m))
  | BDone => None
  end.

Definition cleaner_step (m : machine) : option machine :=
  let l := shared m in
  match cpc m with
  | CIdle n => nd ← nodes l !! n; Some (mkMachine l (bpc m) (CRead n (next nd)))
  | CRead n p => l ← set_next l n None; Some (mkMachine l (bpc m) (CCut p))
  | CCut p => r ← Recycle l p; Some (mkMachine (fst r) (bpc m) (CRecycled (snd r)))
  | CRecycled c => Some (mkMachine l (bpc m) (CLoaded c (node_num_ l)))
  | CLoaded c r => Some (mkMachine (set_node_num l (uwrap 32 (r - c))) (bpc m) CDone)
  | CDone => None
  end.

Inductive thread := Builder | Cleaner.

Fixpoint schedule (t : T) (m : machine) (s : list thread) : option machine :=
  match s with
  | [] => Some m
  | Builder :: s => m ← builder_step t m; schedule t m s
  | Cleaner :: s => m ← cleaner_step m; schedule t m s
  end.

Definition builder_turn := repeat Builder 5.
Definition cleaner_turn := repeat Cleaner 5.

(** The schedule without interleaving is the sequential composition. *)
Lemma builder_turn_sequential l t n c :
  schedule t (mkMachine l BIdle (CIdle n)) builder_turn = Some c ->
  (r ← AllocateWith l t; PushFront (fst r) (snd r)) = Some (shared c) /\
  bpc c = BDone /\ cpc c = CIdle n.
Proof.
  unfold builder_turn, PushFront. cbn -[AllocateWith set_next].
  destruct (AllocateWith l t) as [[l1 m]|]; cbn -[set_next]; [|done].
  destruct (nodes l1 !! front_ l1) as [f|]; cbn -[set_next]; [|done].
  destruct (set_next l1 m (next f)) as [l2|]; cbn -[set_next]; [|done].
  destruct (set_next l2 (front_ l2) (Some m)) as [l3|]; cbn; [|done].
  intros [= <-]. done.
Qed.

Lemma cleaner_turn_sequential l t n b c :
  schedule t (mkMachine l b (CIdle n)) cleaner_turn = Some c ->
  EraseAfter l (Some n) = Some (shared c) /\ bpc c = b /\ cpc c = CDone.
Proof.
  unfold cleaner_turn, EraseAfter. cbn -[set_next Recycle].
  destruct (nodes l !! n) as [nd|]; cbn -[set_next Recycle]; [|done].
  destruct (set_next l n None) as [l1|]; cbn -[Recycle]; [|done].
  destruct (Recycle l1 (next nd)) as [[l2 k]|]; cbn; [|done].
  intros [= <-]. done.
Qed.

End LocklessList.

Lemma lockless_refines_list_witness :
  exists l, run 0 (NewLocklessList 0) [Push 7; Push 8; Erase 1; Push 9] = Some l /\
    contents l = Some [9; 8].
Proof.
  destruct (lockless_refines_list 0 [Push 7; Push 8; Erase 1; Push 9]) as (l & Hr & Hc & _).
  - vm_compute. reflexivity.
  - exists l. split; [exact Hr|exact Hc].
Defined.

(** A traversal that comes back to where it was does not end. *)
Lemma traverse_cycle (ns : list (ListNode (T := Z))) a b da db :
  ns !! a = Some (mkListNode da (Some b)) -> ns !! b = Some (mkListNode db (Some a)) ->
  forall fuel, traverse fuel ns (Some a) = None /\ traverse fuel ns (Some b) = None.
Proof.
  intros Ha Hb. induction fuel as [|fuel [IHa IHb]]; [done|].
  cbn [traverse]. rewrite Ha, Hb. cbn [mbind option_bind next]. by rewrite IHa, IHb.
Qed.

(** A PushFront that is interrupted by EraseAfter(fake front) between its link and its
    publication makes erased nodes reachable again while they are in the recycling pool; the
    next PushFront then closes a cycle, and no traversal of the list ends.  Run one after the
    other, the same two operations leave the pushed value only. *)
Theorem push_erase_race :
  exists l0 m l1,
    run 0 (NewLocklessList 0) [Push 1] = Some l0 /\
    schedule 0 2 (mkMachine l0 BIdle (CIdle (Front l0)))
      ([Builder; Builder] ++ cleaner_turn ++ [Builder; Builder; Builder]) = Some m /\
    bpc m = BDone /\ cpc m = CDone /\
    contents (shared m) = Some [2; 1] /\ obj_pool_ (shared m) = [1%nat] /\
    node_num (shared m) = 1 /\ Destroy (shared m) = None /\
    step 0 (shared m) (Push 3) = Some l1 /\
    (forall fuel, traverse fuel (nodes l1) (Some (Front l1)) = None) /\
    (m' ← schedule 0 2 (mkMachine l0 BIdle (CIdle (Front l0))) (cleaner_turn ++ builder_turn);
     contents (shared m')) = Some [2].
Proof.
  do 3 eexists. split; [vm_compute; reflexivity|]. split; [vm_compute; reflexivity|].
  split_and!; [reflexivity..|vm_compute; reflexivity| |vm_compute; reflexivity].
  intros [|fuel]; [done|]. cbn.
  match goal with |- context [traverse fuel ?ns _] =>
    by rewrite (proj1 (traverse_cycle ns 1 2 3 2 eq_refl eq_refl fuel)) end.
Qed.

End LocklessList.
