(* ===== verification/PCQueue.v ===== *)
(** * producer_consumer_queue.h: the bounded queue with timeouts

    Model of [src/src/util/containers/producer_consumer_queue.h].  The queue is the list of
    its [InnerItem]s, the clock ([Timer::CurrentTimeInUs]) is an argument.  The private
    operations [ForcePutInternal], [TryPutInternal] and [TryGetInternal] are functions; the
    public ones lock the mutex around them, so that a critical section is one step of the
    relation [step], in which Put and Get block on the two condition variables
    ([pthread_cond_wait] puts a thread to sleep, [pthread_cond_signal] wakes one sleeper, and
    a sleeper may wake without a signal). *)

From Stdlib Require Import ZArith Lia.
From stdpp Require Import prelude list numbers.
From S2P Require Import Prelude.

Local Open Scope Z_scope.

Module ProducerConsumerQueue.

Definition TIMEOUT_NONE : Z := 0.
Definition TIMEOUT_USE_DEFAULT : Z := -1.

Section Queue.
Context {Item : Type}.

Record InnerItem := mkInner { item_ : Item; timestamp_ : Z; timeout_ : Z }.

Record Queue := mkQueue { capacity_ : Z; default_timeout_ : Z; que_ : list InnerItem }.

Definition set_que (q : Queue) (l : list InnerItem) : Queue :=
  mkQueue (capacity_ q) (default_timeout_ q) l.

(** The constructor; [None] is the failing CHECK. *)
Definition NewQueue (capacity default_timeout : Z) : option Queue :=
  if (0 <? capacity) && (capacity <? INT32_MAX)
  then Some (mkQueue capacity default_timeout []) else None.

Definition full (q : Queue) : bool := capacity_ q <=? zlen (que_ q).

Definition ForcePutInternal (q : Queue) (now : Z) (item : Item) (_timeout : Z) : Queue * bool :=
  let timeout := if _timeout =? TIMEOUT_USE_DEFAULT then default_timeout_ q else _timeout in
  let l := if full q then list.tail (que_ q) else que_ q in
  (set_que q (l ++ [mkInner item now timeout]), true).

Definition TryPutInternal (q : Queue) (now : Z) (item : Item) (_timeout : Z) : Queue * bool :=
  if full q then (q, false)
  else
    let timeout := if _timeout =? TIMEOUT_USE_DEFAULT then default_timeout_ q else _timeout in
    (set_que q (que_ q ++ [mkInner item now timeout]), true).

(** The test of the loop of TryGetInternal at clock reading [now]; the 64-bit sum must not
    overflow. *)
Definition alive (now : Z) (itm : InnerItem) : option bool :=
  if timeout_ itm =? TIMEOUT_NONE then Some true
  else deadline ← sadd 64 (timestamp_ itm) (timeout_ itm); Some (now <=? deadline).

(** [while (!que_.empty())]; [clk k] is the clock reading for the [k]-th item taken out. *)
Fixpoint TryGet_loop (clk : nat -> Z) (k : nat) (l : list InnerItem)
    : option (list InnerItem * option Item) :=
  match l with
  | [] => Some ([], None)
  | itm :: l =>
    a ← alive (clk k) itm;
    if a : bool then Some (l, Some (item_ itm)) else TryGet_loop clk (S k) l
  end.

(** The item is written to the caller's pointer only when the result is true. *)
Definition TryGetInternal (q : Queue) (clk : nat -> Z) : option (Queue * option Item) :=
  r ← TryGet_loop clk 0 (que_ q); Some (set_que q (fst r), snd r).

Definition TryPut := TryPutInternal.
Definition TryGet := TryGetInternal.
Definition ForcePut := ForcePutInternal.
Definition PreciseSize (q : Queue) : Z := zlen (que_ q).
Definition RoughSize (q : Queue) : Z := zlen (que_ q).

(** ** The critical sections as steps of a concurrent system *)

Record sys := mkSys {
  q : Queue;
  put_wait : list (Item * Z);   (* asleep in Put, on [put_cond_t_] *)
  put_woken : list (Item * Z);  (* woken in Put, before taking the mutex again *)
  get_wait : nat;               (* asleep in Get, on [get_cond_t_] *)
  get_woken : nat;
}.

(** [pthread_cond_signal]: one sleeper, if there is any. *)
Inductive signal_get : sys -> sys -> Prop :=
  | signal_get_none s : get_wait s = O -> signal_get s s
  | signal_get_one s n : get_wait s = S n ->
      signal_get s (mkSys (q s) (put_wait s) (put_woken s) n (S (get_woken s))).

Inductive signal_put : sys -> sys -> Prop :=
  | signal_put_none s : put_wait s = [] -> signal_put s s
  | signal_put_one s a x b : put_wait s = a ++ x :: b ->
      signal_put s (mkSys (q s) (a ++ b) (x :: put_woken s) (get_wait s) (get_woken s)).

Definition with_q (s : sys) (q' : Queue) : sys :=
  mkSys q' (put_wait s) (put_woken s) (get_wait s) (get_woken s).

(** The body of Put once it holds the mutex: it sleeps while the queue is full, otherwise
    [CHECK(TryPutInternal(item, _timeout))]. *)
Inductive put_section (s : sys) (x : Item * Z) : sys -> Prop :=
  | put_sleeps : full (q s) = true ->
      put_section s x (mkSys (q s) (x :: put_wait s) (put_woken s) (get_wait s) (get_woken s))
  | put_puts now q' s' : full (q s) = false ->
      TryPutInternal (q s) now (fst x) (snd x) = (q', true) ->
      signal_get (with_q s q') s' -> put_section s x s'.

(** The body of Get once it holds the mutex. *)
Inductive get_section (s : sys) : option Item -> sys -> Prop :=
  | get_gets clk q' i s' : TryGetInternal (q s) clk = Some (q', Some i) ->
      signal_put (with_q s q') s' -> get_section s (Some i) s'
  | get_sleeps clk q' s' : TryGetInternal (q s) clk = Some (q', None) ->
      signal_put (with_q s q') s' ->
      get_section s None
        (mkSys (q s') (put_wait s') (put_woken s') (S (get_wait s')) (get_woken s')).

Inductive step : sys -> sys -> Prop :=
  | step_Put s x s' : put_section s x s' -> step s s'
  | step_Put_again s a x b s' : put_woken s = a ++ x :: b ->
      put_section (mkSys (q s) (put_wait s) (a ++ b) (get_wait s) (get_woken s)) x s' -> step s s'
  | step_TryPut s now i t q' r s' : TryPutInternal (q s) now i t = (q', r) ->
      signal_get (with_q s q') s' -> step s s'
  | step_ForcePut s now i t q' r s' : ForcePutInternal (q s) now i t = (q', r) ->
      signal_get (with_q s q') s' -> step s s'
  | step_Get s r s' : get_section s r s' -> step s s'
  | step_Get_again s n r s' : get_woken s = S n ->
      get_section (mkSys (q s) (put_wait s) (put_woken s) (get_wait s) n) r s' -> step s s'
  | step_TryGet s clk q' r s' : TryGetInternal (q s) clk = Some (q', r) ->
      signal_put (with_q s q') s' -> step s s'
  | step_spurious_get s n : get_wait s = S n ->
      step s (mkSys (q s) (put_wait s) (put_woken s) n (S (get_woken s)))
  | step_spurious_put s a x b : put_wait s = a ++ x :: b ->
      step s (mkSys (q s) (a ++ b) (x :: put_woken s) (get_wait s) (get_woken s)).

Definition initial (q : Queue) : sys := mkSys q [] [] 0 0.

(** ** Sequential behaviour *)

(** An item can be tested without overflow. *)
Definition item_ok (itm : InnerItem) : Prop :=
  timeout_ itm = TIMEOUT_NONE \/ in_int 64 (timestamp_ itm + timeout_ itm).

Definition expired (now : Z) (itm : InnerItem) : Prop :=
  timeout_ itm <> TIMEOUT_NONE /\ timestamp_ itm + timeout_ itm < now.

Lemma alive_spec now itm :
  item_ok itm -> exists b, alive now itm = Some b /\ (b = false <-> expired now itm).
Proof.
  unfold item_ok, alive, expired. intros [H|H].
  - rewrite H. eexists. split; [done|]. split; [done|]. intros [? _]. done.
  - destruct (Z.eqb_spec (timeout_ itm) TIMEOUT_NONE) as [He|He].
    + eexists. split; [done|]. split; [done|]. tauto.
    + rewrite sadd_Some by done. eexists. split; [done|]. rewrite Z.leb_gt. tauto.
Qed.

(** TryGetInternal drops the expired items in front and takes the first one that is not. *)
Lemma TryGet_loop_correct clk l : forall k,
  Forall item_ok l ->
  exists dropped rest r, TryGet_loop clk k l = Some (rest, r) /\
    (forall j itm, dropped !! j = Some itm -> expired (clk (k + j)%nat) itm) /\
    match r with
    | None => l = dropped /\ rest = []
    | Some i => exists itm, l = dropped ++ itm :: rest /\ item_ itm = i /\
        ~ expired (clk (k + length dropped)%nat) itm
    end.
Proof.
  induction l as [|itm l IH]; intros k Hok; simpl.
  - exists [], [], None. done.
  - apply Forall_cons_iff in Hok as [Hi Hok]. destruct (alive_spec (clk k) itm Hi) as (b & -> & Hb).
    cbn [mbind option_bind]. destruct b.
    + exists [], l, (Some (item_ itm)). split_and!; [done|by intros|].
      exists itm. simpl. rewrite Nat.add_0_r. split_and!; [done..|]. intros He%Hb. done.
    + destruct (IH (S k) Hok) as (d & rest & r & -> & Hd & Hr).
      exists (itm :: d), rest, r. split; [done|]. split.
      * intros [|j] i; simpl; [intros [= <-]; rewrite Nat.add_0_r; by apply Hb|].
        intros Hj. rewrite <- Nat.add_succ_comm. by apply Hd.
      * destruct r as [i|]; [|by destruct Hr as [-> ->]].
        destruct Hr as (itm' & -> & Hi' & Hne). exists itm'. split_and!; [done..|].
        cbn [length]. by rewrite <- Nat.add_succ_comm.
Qed.

(** TryGet removes the expired items at the front of the queue (a timeout of 0 never
    expires), and returns the first item whose deadline is not passed, in the order of the
    puts; it returns false exactly when every item was expired, and then the queue is empty. *)
Theorem TryGet_first_alive (q : Queue) (clk : nat -> Z) :
  Forall item_ok (que_ q) ->
  exists dropped rest r, TryGet q clk = Some (set_que q rest, r) /\
    (forall j itm, dropped !! j = Some itm -> expired (clk j) itm) /\
    match r with
    | None => que_ q = dropped /\ rest = []
    | Some i => exists itm, que_ q = dropped ++ itm :: rest /\ item_ itm = i /\
        ~ expired (clk (length dropped)) itm
    end.
Proof.
  intros Hok. destruct (TryGet_loop_correct clk (que_ q) 0 Hok) as (d & rest & r & H & Hd & Hr).
  exists d, rest, r. split; [|done]. unfold TryGet, TryGetInternal. by rewrite H.
Qed.

Lemma TryGetInternal_length (q q' : Queue) clk r :
  TryGetInternal q clk = Some (q', r) ->
  capacity_ q' = capacity_ q /\ zlen (que_ q') <= zlen (que_ q) /\
  match r with Some _ => zlen (que_ q') < zlen (que_ q) | None => que_ q' = [] end.
Proof.
  unfold TryGetInternal. intros H.
  destruct (TryGet_loop clk 0 (que_ q)) as [[l r']|] eqn:E; [|done].
  cbn in H. injection H as <- <-. cbn. split; [done|].
  revert l r' E. generalize 0%nat. induction (que_ q) as [|itm l0 IH]; intros k l r E; simpl in E.
  - injection E as <- <-. done.
  - rewrite zlen_cons. destruct (alive (clk k) itm) as [[]|]; [..|done]; cbn in E.
    + injection E as <- <-. lia.
    + destruct (IH _ _ _ E) as [Hl Hr]. destruct r; [lia|]. split; [lia|done].
Qed.

(** ** Without timeouts: a bounded FIFO queue *)

Inductive op := OTryPut (i : Item) | OForcePut (i : Item) | OTryGet.
Inductive response := RBool (b : bool) | RItem (i : option Item).

Definition exec (q : Queue) (clk : nat -> Z) (o : op) : option (Queue * response) :=
  match o with
  | OTryPut i => let '(q, b) := TryPut q (clk 0%nat) i TIMEOUT_USE_DEFAULT in Some (q, RBool b)
  | OForcePut i => let '(q, b) := ForcePut q (clk 0%nat) i TIMEOUT_USE_DEFAULT in Some (q, RBool b)
  | OTryGet => r ← TryGet q clk; Some (fst r, RItem (snd r))
  end.

(** [clk n] is the clock during the [n]-th operation. *)
Fixpoint exec_all (q : Queue) (clk : nat -> nat -> Z) (n : nat) (os : list op)
    : option (Queue * list response) :=
  match os with
  | [] => Some (q, [])
  | o :: os =>
    r ← exec q (clk n) o; rs ← exec_all (fst r) clk (S n) os; Some (fst rs, snd r :: snd rs)
  end.

Definition fifo_step (cap : Z) (l : list Item) (o : op) : list Item * response :=
  match o with
  | OTryPut i => if zlen l <? cap then (l ++ [i], RBool true) else (l, RBool false)
  | OForcePut i => ((if zlen l <? cap then l else list.tail l) ++ [i], RBool true)
  | OTryGet => match l with [] => ([], RItem None) | x :: l => (l, RItem (Some x)) end
  end.

Fixpoint fifo_all (cap : Z) (l : list Item) (os : list op) : list Item * list response :=
  match os with
  | [] => (l, [])
  | o :: os =>
    let '(l, r) := fifo_step cap l o in let '(l, rs) := fifo_all cap l os in (l, r :: rs)
  end.

Definition eternal (q : Queue) : Prop :=
  default_timeout_ q = TIMEOUT_NONE /\ Forall (fun itm => timeout_ itm = TIMEOUT_NONE) (que_ q).

Lemma exec_fifo q clk o :
  eternal q ->
  exists q', exec q clk o = Some (q', snd (fifo_step (capacity_ q) (item_ <$> que_ q) o)) /\
    eternal q' /\ capacity_ q' = capacity_ q /\
    item_ <$> que_ q' = fst (fifo_step (capacity_ q) (item_ <$> que_ q) o).
Proof.
  intros [Hd Hq]. assert (Hz : zlen (item_ <$> que_ q) = zlen (que_ q))
    by (unfold zlen; by rewrite length_fmap).
  destruct o as [i|i|]; cbn [exec fifo_step]; unfold TryPut, TryPutInternal, ForcePut,
    ForcePutInternal, full; rewrite ?Hz, ?Z.leb_antisym.
  - destruct (zlen (que_ q) <? capacity_ q); cbn [negb]; eexists; (split; [reflexivity|]);
      split_and!; try done.
    + split; [done|]. apply Forall_app. by repeat constructor.
    + cbn [fst que_ set_que]. by rewrite fmap_app.
  - eexists. split; [reflexivity|]. split; [split; [done|]|split; [done|]]; cbn [fst que_ set_que].
    + apply Forall_app. split; [|by repeat constructor].
      destruct (zlen (que_ q) <? capacity_ q); cbn [negb]; [done|]. by destruct Hq.
    + rewrite fmap_app. f_equal. destruct (zlen (que_ q) <? capacity_ q); [done|].
      by destruct (que_ q).
  - unfold TryGet, TryGetInternal. destruct (que_ q) as [|itm l] eqn:El.
    + eexists. split; [reflexivity|]. by split_and!.
    + apply Forall_cons_iff in Hq as [Hi Hl]. cbn [TryGet_loop]. unfold alive. rewrite Hi.
      eexists. split; [reflexivity|]. by split_and!.
Qed.

Lemma exec_all_fifo os : forall q clk n,
  eternal q ->
  exists q', exec_all q clk n os = Some (q', snd (fifo_all (capacity_ q) (item_ <$> que_ q) os)) /\
    item_ <$> que_ q' = fst (fifo_all (capacity_ q) (item_ <$> que_ q) os).
Proof.
  induction os as [|o os IH]; intros q clk n He; cbn [exec_all fifo_all]; [eauto|].
  destruct (exec_fifo q (clk n) o He) as (q1 & -> & He1 & Hc1 & Hl1). cbn [mbind option_bind fst].
  destruct (IH q1 clk (S n) He1) as (q2 & -> & Hl2). rewrite Hc1, Hl1 in *.
  destruct (fifo_step _ _ o) as [l r]. cbn [fst snd] in *.
  destruct (fifo_all _ l os) as [l' rs]. cbn in *. eauto.
Qed.

(** With a default timeout of 0, which is how IndexBuildThread and the replay log writer
    create their queues, any sequence of TryPut, ForcePut and TryGet gives the results and
    the contents of a FIFO list bounded by the capacity, whatever the clock. *)
Theorem queue_refines_bounded_fifo (cap : Z) (q0 : Queue) (clk : nat -> nat -> Z) (os : list op) :
  NewQueue cap TIMEOUT_NONE = Some q0 ->
  exists q, exec_all q0 clk 0 os = Some (q, snd (fifo_all cap [] os)) /\
    item_ <$> que_ q = fst (fifo_all cap [] os).
Proof.
  unfold NewQueue. destruct (_ && _); [|done]. intros [= <-].
  apply (exec_all_fifo os (mkQueue cap TIMEOUT_NONE [])). done.
Qed.

(** ** The concurrent system *)

Record inv (cap : Z) (s : sys) : Prop := {
  inv_cap : capacity_ (q s) = cap;
  inv_bound : zlen (que_ (q s)) <= cap;
  inv_get : (0 < get_wait s)%nat -> zlen (que_ (q s)) <= Z.of_nat (get_woken s);
  inv_put : put_wait s <> [] -> que_ (q s) <> [] \/ put_woken s <> [];
}.

Lemma TryPutInternal_length (q q' : Queue) now i t r :
  TryPutInternal q now i t = (q', r) ->
  capacity_ q' = capacity_ q /\
  ((full q = false /\ r = true /\ zlen (que_ q') = zlen (que_ q) + 1) \/
   (full q = true /\ r = false /\ q' = q)).
Proof.
  unfold TryPutInternal. destruct (full q) eqn:Hf; intros [= <- <-]; [by auto|].
  cbn. rewrite zlen_app. auto.
Qed.

Lemma ForcePutInternal_length (q q' : Queue) now i t r :
  0 < capacity_ q -> zlen (que_ q) <= capacity_ q ->
  ForcePutInternal q now i t = (q', r) ->
  capacity_ q' = capacity_ q /\ que_ q' <> [] /\ zlen (que_ q') <= capacity_ q /\
  zlen (que_ q') <= zlen (que_ q) + 1.
Proof.
  intros Hc Hb. unfold ForcePutInternal, full. intros [= <- _]. cbn.
  rewrite zlen_app, zlen_cons, zlen_nil. split; [done|]. split; [by destruct (if _ : bool then _ else _)|].
  destruct (Z.leb_spec (capacity_ q) (zlen (que_ q))); [|lia].
  destruct (que_ q) as [|x l]; [change (zlen (@nil InnerItem)) with 0 in *; lia|].
  cbn [list.tail]. rewrite zlen_cons in *. lia.
Qed.

Lemma zlen_pos_ne {A} (l : list A) : 0 < zlen l -> l <> [].
Proof. by destruct l. Qed.

(** A put of one item followed by the signal to a getter. *)
Lemma inv_signal_get cap s s' q' :
  0 < cap -> inv cap s -> capacity_ q' = cap -> zlen (que_ q') <= cap ->
  zlen (que_ q') <= zlen (que_ (q s)) + 1 -> (put_wait s <> [] -> que_ q' <> [] \/ put_woken s <> []) ->
  signal_get (with_q s q') s' -> inv cap s'.
Proof.
  intros Hc [] Hq1 Hq2 Hq3 Hp Hs. inversion Hs as [s'' H0|s'' n H0]; subst; split; cbn in *; try done; lia.
Qed.

Lemma inv_signal_put cap s s' q' :
  inv cap s -> capacity_ q' = cap -> zlen (que_ q') <= zlen (que_ (q s)) ->
  signal_put (with_q s q') s' -> inv cap s'.
Proof.
  intros [] Hq1 Hq2 Hs. inversion Hs as [s'' H0|s'' a x b H0]; subst; split; cbn in *; try done; try lia.
  intros _. by right.
Qed.

Lemma inv_put_section cap s x s' : 0 < cap -> inv cap s -> put_section s x s' -> inv cap s'.
Proof.
  intros Hc Hi [Hf|now q' s'' Hf Hp Hs].
  - destruct Hi. split; cbn; try done. intros _. left. apply zlen_pos_ne.
    unfold full in Hf. apply Z.leb_le in Hf. lia.
  - pose proof (inv_bound _ _ Hi). pose proof (inv_cap _ _ Hi).
    unfold full in Hf. apply Z.leb_gt in Hf.
    destruct (TryPutInternal_length _ _ _ _ _ _ Hp) as [Hq [(_ & _ & Hl)|(Hf' & _)]];
      [|unfold full in Hf'; apply Z.leb_le in Hf'; lia].
    apply (inv_signal_get cap s s'' q'); [done|exact Hi|congruence|lia|lia| |done].
    intros _. left. apply zlen_pos_ne. pose proof (zlen_nonneg (que_ (q s))). lia.
Qed.

Lemma inv_get_section cap s r s' :
  inv cap s -> get_section s r s' -> inv cap s'.
Proof.
  intros Hi Hg. destruct Hg as [clk q' i s' Ht Hs|clk q' s' Ht Hs];
    destruct (TryGetInternal_length _ _ _ _ Ht) as (Hc & Hl & Hr);
    rewrite (inv_cap _ _ Hi) in Hc; pose proof (inv_signal_put _ _ _ _ Hi Hc Hl Hs) as Hi'.
  - done.
  - assert (Hq : que_ (q s') = []) by (by inversion Hs).
    destruct Hi'. split; cbn; try done. intros _. rewrite Hq. change (zlen (@nil InnerItem)) with 0. lia.
Qed.

(** Dropping a woken getter that is about to run, and running it. *)
Lemma inv_get_again cap s n r s' :
  inv cap s -> get_woken s = S n ->
  get_section (mkSys (q s) (put_wait s) (put_woken s) (get_wait s) n) r s' -> inv cap s'.
Proof.
  intros Hi Hn Hg. set (s1 := mkSys _ _ _ _ _) in Hg.
  destruct (que_ (q s)) as [|x l] eqn:Hq.
  - apply (inv_get_section cap s1 r); [|done]. destruct Hi. split; cbn; try done.
    intros _. rewrite Hq. change (zlen (@nil InnerItem)) with 0. lia.
  - assert (Hpos : 1 <= zlen (que_ (q s))) by (rewrite Hq, zlen_cons; pose proof (zlen_nonneg l); lia).
    destruct Hi. inversion Hg as [clk q' i s2 Ht Hs|clk q' s2 Ht Hs]; subst;
      destruct (TryGetInternal_length _ _ _ _ Ht) as (Hc & Hl & Hr).
    all: inversion Hs as [s3 H0|s3 a y b H0]; subst; split; cbn in *; try done; try lia.
    all: try (intros Hw; rewrite H0 in Hw; done).
    all: try (intros _; by right).
    all: rewrite Hr; change (zlen (@nil InnerItem)) with 0; lia.
Qed.

Lemma inv_step cap s s' : 0 < cap -> inv cap s -> step s s' -> inv cap s'.
Proof.
  intros Hc Hi Hst. pose proof (inv_cap _ _ Hi) as Hcap. pose proof (inv_bound _ _ Hi) as Hb.
  destruct Hst as [s x s' Hp|s a x b s' Hw Hp|s now i t q' r s' Hp Hs|s now i t q' r s' Hp Hs
    |s r s' Hg|s n r s' Hw Hg|s clk q' r s' Ht Hs|s n Hw|s a x b Hw].
  - by eapply inv_put_section.
  - destruct Hp as [Hf|now q' s'' Hf Hp Hs]; cbn in *.
    + unfold full in Hf. apply Z.leb_le in Hf. destruct Hi. split; cbn; try done.
      intros _. left. apply zlen_pos_ne. lia.
    + unfold full in Hf. apply Z.leb_gt in Hf.
      destruct (TryPutInternal_length _ _ _ _ _ _ Hp) as [Hq [(_ & _ & Hl)|(Hf' & _)]];
        [|unfold full in Hf'; apply Z.leb_le in Hf'; lia].
      assert (Hne : que_ q' <> []) by (apply zlen_pos_ne; pose proof (zlen_nonneg (que_ (q s))); lia).
      destruct Hi. inversion Hs as [s3 H0|s3 n H0]; subst; split; cbn in *; try done; try lia; by left.
  - destruct (TryPutInternal_length _ _ _ _ _ _ Hp) as [Hq [(Hf & _ & Hl)|(_ & _ & ->)]].
    + unfold full in Hf. apply Z.leb_gt in Hf.
      apply (inv_signal_get cap s s' q'); [done|exact Hi|congruence|lia|lia| |done].
      intros _. left. apply zlen_pos_ne. pose proof (zlen_nonneg (que_ (q s))). lia.
    + apply (inv_signal_get cap s s' (q s)); [done|exact Hi|done|lia|lia|apply Hi|done].
  - destruct (ForcePutInternal_length (q s) q' now i t r) as (Hq & Hne & Hl1 & Hl2); [lia..|done|].
    apply (inv_signal_get cap s s' q'); [done|exact Hi|congruence|lia|lia|by left|done].
  - by eapply inv_get_section.
  - by eapply inv_get_again.
  - destruct (TryGetInternal_length _ _ _ _ Ht) as (Hq & Hl & _).
    apply (inv_signal_put cap s s' q'); [exact Hi|congruence|done|done].
  - destruct Hi. split; cbn; try done. lia.
  - destruct Hi. split; cbn; try done. by right.
Qed.

Lemma inv_reachable cap timeout q0 s :
  NewQueue cap timeout = Some q0 -> rtc step (initial q0) s -> inv cap s.
Proof.
  unfold NewQueue. destruct (Z.ltb_spec 0 cap) as [Hc|]; [|done].
  destruct (_ <? _); [|done]. intros [= <-] Hr.
  remember (initial _) as s0 eqn:Hs0. assert (inv cap s0).
  { subst s0. split; cbn; try done; change (zlen (@nil InnerItem)) with 0; lia. }
  clear Hs0. induction Hr; [done|]. eauto using inv_step.
Qed.

(** C4: in every reachable state of any number of producers and consumers the queue holds at
    most [capacity] items; a consumer sleeps in Get only if every queued item has a woken
    consumer on its way to it (no wake-up is lost); a producer sleeps in Put only if an item
    is queued, whose removal signals it, or another producer has been woken; and the CHECK of
    Put holds, since TryPutInternal succeeds behind the wait loop. *)
Theorem queue_no_lost_wakeup (cap timeout : Z) (q0 : Queue) (s : sys) :
  NewQueue cap timeout = Some q0 -> rtc step (initial q0) s ->
  zlen (que_ (q s)) <= cap /\
  ((0 < get_wait s)%nat -> zlen (que_ (q s)) <= Z.of_nat (get_woken s)) /\
  (put_wait s <> [] -> que_ (q s) <> [] \/ put_woken s <> []) /\
  (forall now i t, full (q s) = false -> snd (TryPutInternal (q s) now i t) = true).
Proof.
  intros Hq Hr. assert (Hi : inv cap s) by (by eapply inv_reachable).
  destruct Hi. split_and!; try done.
  intros now i t Hf. unfold TryPutInternal. by rewrite Hf.
Qed.

(** ** Progress: the threads that have been woken run, and nothing else happens *)

Inductive resume : sys -> sys -> Prop :=
  | resume_put s a x b s' : put_woken s = a ++ x :: b ->
      put_section (mkSys (q s) (put_wait s) (a ++ b) (get_wait s) (get_woken s)) x s' -> resume s s'
  | resume_get s n r s' : get_woken s = S n ->
      get_section (mkSys (q s) (put_wait s) (put_woken s) (get_wait s) n) r s' -> resume s s'.

Lemma resume_step s s' : resume s s' -> step s s'.
Proof. intros [s1 a x b s2 Hw Hp|s1 n r s2 Hw Hg]; [by eapply step_Put_again|by eapply step_Get_again]. Qed.

(** The threads inside Put and Get: all of them, and those awake. *)
Definition blocked (s : sys) : nat :=
  length (put_wait s) + length (put_woken s) + get_wait s + get_woken s.

(** A woken thread either leaves, waking at most one sleeper, or goes back to sleep; in that
    case a producer disturbs nobody and a consumer wakes at most one producer. *)
Definition work (s : sys) : nat := 2 * blocked s + 2 * get_woken s + length (put_woken s).

Lemma signal_get_counts s s' : signal_get s s' ->
  blocked s' = blocked s /\ put_woken s' = put_woken s /\ (get_woken s' <= S (get_woken s))%nat.
Proof. intros [s1 H|s1 n H]; unfold blocked; cbn; rewrite ?H; split_and!; try done; lia. Qed.

Lemma signal_put_counts s s' : signal_put s s' ->
  blocked s' = blocked s /\ get_woken s' = get_woken s /\ get_wait s' = get_wait s /\
  (length (put_woken s') <= S (length (put_woken s)))%nat.
Proof.
  intros [s1 H|s1 a x b H]; [split_and!; try done; lia|].
  unfold blocked. cbn. rewrite H, !length_app. cbn. split_and!; lia.
Qed.

Lemma resume_decreases s s' : resume s s' -> (work s' < work s)%nat.
Proof.
  intros [s1 a x b s2 Hw [Hf|now q' s3 Hf Hp Hs]|s1 n r s2 Hw [clk q' i s3 Ht Hs|clk q' s3 Ht Hs]].
  - unfold work, blocked. cbn. rewrite Hw, !length_app. cbn. lia.
  - apply signal_get_counts in Hs as (Hb & Hl & Hg). unfold work. rewrite Hb, Hl.
    unfold blocked in *. cbn in *. rewrite Hw, !length_app in *. cbn in *. lia.
  - apply signal_put_counts in Hs as (Hb & Hg & _ & Hl). unfold work. rewrite Hb, Hg.
    unfold blocked in *. cbn in *. lia.
  - apply signal_put_counts in Hs as (Hb & Hg & Hw' & Hl). unfold work, blocked in *. cbn in *. lia.
Qed.

Lemma resume_bound n s s' : nsteps resume n s s' -> (n + work s' <= work s)%nat.
Proof. induction 1 as [|n s1 s2 s3 H _ IH]; [lia|]. apply resume_decreases in H. lia. Qed.

(** While a thread is awake, one can run. *)
Lemma resume_enabled s : Forall item_ok (que_ (q s)) ->
  get_woken s <> O \/ put_woken s <> [] -> exists s', resume s s'.
Proof.
  intros Hok [Hg|Hp].
  - destruct (get_woken s) as [|n] eqn:Hn; [done|].
    destruct (TryGet_loop_correct (fun _ => 0) (que_ (q s)) 0 Hok) as (d & rest & r & Ht & _).
    set (s1 := mkSys (set_que (q s) rest) (put_wait s) (put_woken s) (get_wait s) n).
    assert (exists s2, signal_put s1 s2) as [s2 Hs].
    { destruct (put_wait s) as [|x l] eqn:Hw; [eexists; by apply signal_put_none|].
      eexists. by apply (signal_put_one s1 [] x l). }
    assert (Hi : TryGetInternal (q s) (fun _ => 0) = Some (set_que (q s) rest, r)).
    { unfold TryGetInternal. by rewrite Ht. }
    destruct r as [i|]; eexists; eapply resume_get; [done|by eapply get_gets|done|by eapply get_sleeps].
  - destruct (put_woken s) as [|x l] eqn:Hw; [done|].
    destruct (full (q s)) eqn:Hf.
    { eexists. eapply (resume_put s [] x l); [done|]. by apply put_sleeps. }
    destruct (TryPutInternal (q s) 0 (fst x) (snd x)) as [q' b] eqn:Hp'.
    assert (b = true) as -> by (unfold TryPutInternal in Hp'; rewrite Hf in Hp'; congruence).
    set (s1 := mkSys q' (put_wait s) l (get_wait s) (get_woken s)).
    assert (exists s2, signal_get s1 s2) as [s2 Hs].
    { destruct (get_wait s) as [|n] eqn:Hn; [eexists; by apply signal_get_none|].
      eexists. by apply (signal_get_one s1 n). }
    eexists. eapply (resume_put s [] x l); [done|]. by eapply put_puts.
Qed.

(** C19: from every reachable state, when no new call is made, the threads that have been woken
    stop after at most five steps per thread in Put or Get, whatever the scheduling; while one of them is awake it can run; and when none is left awake, no consumer
    sleeps beside a queued item, and consumers and producers are never asleep at the same time:
    whoever waits in Get is served by the next Put and nobody is deadlocked. *)
Theorem queue_progress (cap timeout : Z) (q0 : Queue) (s : sys) :
  NewQueue cap timeout = Some q0 -> rtc step (initial q0) s ->
  (forall n s', nsteps resume n s s' -> (n <= 5 * blocked s)%nat) /\
  forall s', rtc resume s s' ->
    (Forall item_ok (que_ (q s')) -> get_woken s' <> O \/ put_woken s' <> [] -> exists s'', resume s' s'') /\
    (get_woken s' = O -> put_woken s' = [] ->
      get_wait s' = O \/ que_ (q s') = [] /\ put_wait s' = []).
Proof.
  intros Hq Hr. split.
  { intros n s' H. apply resume_bound in H. unfold work, blocked in *. lia. }
  intros s' Hs'. split; [apply resume_enabled|].
  intros Hg Hp. assert (Hi : inv cap s').
  { eapply inv_reachable; [done|]. etrans; [done|]. eapply rtc_subrel; [apply resume_step|done]. }
  destruct (get_wait s') as [|n] eqn:Hn; [by left|]. right.
  assert (Hl : que_ (q s') = []).
  { destruct (que_ (q s')) as [|x l] eqn:Hl; [done|]. exfalso.
    pose proof (inv_get _ _ Hi) as H. rewrite Hl, Hn, Hg, zlen_cons in H. pose proof (zlen_nonneg l). lia. }
  split; [done|]. destruct (put_wait s') eqn:Hw; [done|]. exfalso.
  destruct (inv_put _ _ Hi) as [H|H]; [by rewrite Hw|by rewrite Hl in H|by rewrite Hp in H].
Qed.

End Queue.

Lemma TryGet_first_alive_witness :
  exists dropped rest r,
    TryGet (mkQueue 3 0 [mkInner 1 10 5; mkInner 2 20 0]) (fun _ => 100) =
      Some (mkQueue 3 0 rest, r) /\
    match r with
    | None => [mkInner 1 10 5; mkInner 2 20 0] = dropped /\ rest = []
    | Some i => exists itm, [mkInner 1 10 5; mkInner 2 20 0] = dropped ++ itm :: rest /\ item_ itm = i
        /\ ~ expired 100 itm
    end.
Proof.
  destruct (TryGet_first_alive (mkQueue 3 0 [mkInner 1 10 5; mkInner 2 20 0]) (fun _ => 100))
    as (d & rest & r & H & _ & Hr).
  - constructor; [right; unfold in_int; simpl; lia|].
    constructor; [left; reflexivity|constructor].
  - exists d, rest, r. split; [exact H|exact Hr].
Defined.

Lemma queue_refines_bounded_fifo_witness :
  exists q, exec_all (mkQueue 1 0 []) (fun _ _ => 5) 0 [OTryPut 1; OTryPut 2; OForcePut 3; OTryGet]
    = Some (q, [RBool true; RBool false; RBool true; RItem (Some 3)]).
Proof.
  destruct (queue_refines_bounded_fifo 1 (mkQueue 1 0 []) (fun _ _ => 5)
    [OTryPut 1; OTryPut 2; OForcePut 3; OTryGet] eq_refl) as (q & H & _).
  exists q. exact H.
Defined.

Lemma queue_no_lost_wakeup_witness :
  exists s : sys (Item := Z), rtc step (initial (mkQueue 1 0 [])) s /\
    zlen (que_ (q s)) <= 1 /\ get_wait s = 1%nat.
Proof.
  exists (mkSys (mkQueue 1 0 []) [] [] 1 0).
  assert (H : rtc step (initial (mkQueue 1 0 [])) (mkSys (Item := Z) (mkQueue 1 0 []) [] [] 1 0)).
  { apply rtc_once. eapply step_Get.
    apply (get_sleeps (initial (mkQueue 1 0 [])) (fun _ => 0) (mkQueue 1 0 []) (initial (mkQueue 1 0 [])));
      [reflexivity|apply signal_put_none; reflexivity]. }
  split; [exact H|].
  split; [exact (proj1 (queue_no_lost_wakeup 1 0 _ _ eq_refl H))|reflexivity].
Defined.

(** A consumer slept, a TryPut woke it. *)
Lemma queue_progress_witness :
  exists s : sys (Item := Z), get_woken s = 1%nat /\ que_ (q s) = [mkInner 7 5 0] /\
    (forall n s', nsteps resume n s s' -> (n <= 5 * blocked s)%nat) /\ exists s', resume s s'.
Proof.
  pose (s i r g := @mkSys Z (mkQueue 1 0 i) [] [] r g).
  exists (s [mkInner 7 5 0] 0%nat 1%nat). split_and!; [reflexivity..| |].
  all: assert (H : rtc step (initial (mkQueue 1 0 [])) (s [mkInner 7 5 0] 0%nat 1%nat))
    by (apply (rtc_l _ _ (s [] 1%nat 0%nat));
        [eapply step_Get;
         apply (get_sleeps (s [] 0%nat 0%nat) (fun _ => 0) (mkQueue 1 0 []) (s [] 0%nat 0%nat));
           [reflexivity|by apply signal_put_none]
        |apply rtc_once; eapply step_TryPut with (now := 5) (i := 7) (t := 0); [reflexivity|];
         by apply (signal_get_one (s [mkInner 7 5 0] 1%nat 0%nat))]).
  - apply (queue_progress 1 0 (mkQueue 1 0 []) _ eq_refl H).
  - destruct (queue_progress 1 0 (mkQueue 1 0 []) _ eq_refl H) as [_ Hp].
    apply (proj1 (Hp _ (rtc_refl _ _))); [|by left]. constructor; [by left|constructor].
Defined.

(** One Get can free several slots (it discards every expired item) but signals one
    producer only: a state is reachable in which a producer sleeps in Put although the queue
    has a free slot and no producer has been woken. *)
Theorem put_sleeps_beside_free_slot :
  exists s : sys (Item := Z), rtc step (initial (mkQueue 2 5 [])) s /\
    put_wait s = [(4, 5)] /\ full (q s) = false /\ put_woken s = [] /\ get_wait s = O.
Proof.
  pose (s i w r g := @mkSys Z (mkQueue 2 5 i) w r g 0).
  exists (s [mkInner 3 100 5] [(4, 5)] [] 0%nat). split; [|done].
  apply (rtc_l _ _ (s [mkInner 1 0 5] [] [] 0%nat)).
  { eapply step_TryPut with (now := 0) (i := 1) (t := -1); [reflexivity|by apply signal_get_none]. }
  apply (rtc_l _ _ (s [mkInner 1 0 5; mkInner 2 0 5] [] [] 0%nat)).
  { eapply step_TryPut with (now := 0) (i := 2) (t := -1); [reflexivity|by apply signal_get_none]. }
  apply (rtc_l _ _ (s [mkInner 1 0 5; mkInner 2 0 5] [(3, 5)] [] 0%nat)).
  { apply (step_Put _ (3, 5)). by apply put_sleeps. }
  apply (rtc_l _ _ (s [mkInner 1 0 5; mkInner 2 0 5] [(4, 5); (3, 5)] [] 0%nat)).
  { apply (step_Put _ (4, 5)). by apply put_sleeps. }
  apply (rtc_l _ _ (s [] [(4, 5)] [(3, 5)] 0%nat)).
  { eapply step_TryGet with (clk := fun _ => 100); [reflexivity|].
    by apply (signal_put_one (s [] [(4, 5); (3, 5)] [] 0%nat) [(4, 5)] (3, 5) []). }
  apply rtc_once. eapply (step_Put_again _ [] (3, 5) []); [reflexivity|].
  eapply put_puts with (now := 100); [reflexivity|reflexivity|by apply signal_get_none].
Qed.

End ProducerConsumerQueue.
