(* ===== verification/InvertedIndex.v ===== *)
(** * indexing/: the instant inverted index

    Model of [src/src/indexing]: posting.{h,cc}, iterator.{h,cc}, index_build_thread.cc,
    clean_old_story_thread.cc and instant_index.cc.  The postings of a token live in a
    [LocklessList]; [index_] and [att_] are finite maps.  The clock and CityHash64 are parameters.

    What the build thread and the cleaning thread do is a step relation ([section_step]): the four
    sections of AddStoryInternal with its locks, keyword by keyword where it shares the reader lock,
    the marking and the clearing list by list, the erasure of the attachments; a thread that has
    to wait for a lock does nothing.  [AddStoryInternal], [MarkPhase], [ClearPhase] and [ErasePhase]
    are the same pieces of code uninterrupted ([add_story_sections]).

    [index_refines_lists] relates every interleaving of these steps to the same steps on plain
    lists of postings; [index_history] says what the index holds when the threads do not get in
    each other's way.  Readers see the state between two steps; the overlap of operations on one
    posting list is left to [push_erase_race] of LocklessList. *)

From Stdlib Require Import ZArith Lia SpecFloat Sorted.
From stdpp Require Import prelude list gmap fin_maps numbers.
From S2P Require Import Prelude.
From S2P Require Import LocklessList.

Local Open Scope Z_scope.

Module InvertedIndex.
Import LocklessList.

(** The conversion of an [int32_t] to [float]. *)
Definition float_of_int (z : Z) : spec_float := binary_normalize 24 128 z 0 false.

Record Posting := mkPosting { local_docid : Z; weight : spec_float; timestamp : Z }.

(** [new Posting()] *)
Definition Posting0 : Posting := mkPosting 0 (S754_zero false) 0.

(** ** posting.h: PostingList *)

Record PostingList := mkPL { inner_list_ : @LocklessList Posting; end_mark_ : option nat }.

Definition NewPostingList : PostingList := mkPL (NewLocklessList Posting0) None.

Definition GetFakeFront (pl : PostingList) : nat := Front (inner_list_ pl).
Definition GetEndMark (pl : PostingList) : option nat := end_mark_ pl.
Definition SetEndMark (pl : PostingList) (mark : option nat) : PostingList :=
  mkPL (inner_list_ pl) mark.

Definition AllocatePosting (pl : PostingList) : option (PostingList * nat) :=
  r ← Allocate Posting0 (inner_list_ pl);
  l ← set_next (fst r) (snd r) None;
  Some (mkPL l (end_mark_ pl), snd r).

Definition AddPosting (pl : PostingList) (p : nat) : option PostingList :=
  l ← PushFront (inner_list_ pl) p; Some (mkPL l (end_mark_ pl)).

Definition PLEraseAfter (pl : PostingList) (p : option nat) : option PostingList :=
  match p with
  | None => Some pl
  | Some _ => l ← EraseAfter (inner_list_ pl) p; Some (mkPL l (end_mark_ pl))
  end.

Definition next_of (pl : PostingList) (n : nat) : option (option nat) :=
  next <$> nodes (inner_list_ pl) !! n.
Definition data_of (pl : PostingList) (n : nat) : option Posting :=
  data <$> nodes (inner_list_ pl) !! n.

(** PostingList::Size *)
Fixpoint Size_loop (fuel : nat) (pl : PostingList) (cur : option nat) (size : Z) : option Z :=
  match cur with
  | None => Some size
  | Some c =>
    match fuel with
    | O => None
    | S fuel =>
      nx ← next_of pl c;
      if bool_decide (nx <> None) && bool_decide (Some c <> GetEndMark pl)
      then Size_loop fuel pl nx (size + 1) else Some size
    end
  end.

Definition Size (pl : PostingList) : option Z :=
  if bool_decide (Some (GetFakeFront pl) = GetEndMark pl) then Some 0
  else Size_loop (S (length (nodes (inner_list_ pl)))) pl (Some (GetFakeFront pl)) 0.

(** ** iterator.h: PostingIteratorImpl *)

Record Iter := mkIter { cur_ : option nat; has_value_ : bool }.

Definition NewIter (pl : PostingList) : Iter := mkIter (Some (GetFakeFront pl)) false.

Definition HasValue (pl : PostingList) (it : Iter) : option (Iter * bool) :=
  match cur_ it with
  | None => Some (mkIter None false, false)
  | Some c =>
    nx ← next_of pl c;
    let has := match nx with
      | None => false
      | Some _ =>
        let mark := GetEndMark pl in
        if bool_decide (mark = Some (GetFakeFront pl)) then false
        else if bool_decide (Some c = mark) then false else true
      end in
    Some (mkIter (Some c) has, has)
  end.

(** [None] is the thrown string or an invalid dereference. *)
Definition GetValue (pl : PostingList) (it : Iter) : option (Iter * Posting) :=
  if has_value_ it then
    c ← cur_ it; nx ← next_of pl c; n ← nx; p ← data_of pl n; Some (mkIter (cur_ it) false, p)
  else None.

Definition Next (pl : PostingList) (it : Iter) : option Iter :=
  c ← cur_ it; nx ← next_of pl c; Some (mkIter nx (has_value_ it)).

(** The documented use: [while (it->HasValue()) { p = it->GetValue(); ...; it->Next(); }]. *)
Fixpoint iterate (fuel : nat) (pl : PostingList) (it : Iter) : option (list Posting) :=
  match fuel with
  | O => None
  | S fuel =>
    h ← HasValue pl it;
    if snd h : bool then
      v ← GetValue pl (fst h); it ← Next pl (fst v); ps ← iterate fuel pl it; Some (snd v :: ps)
    else Some []
  end.

Definition read_all (pl : PostingList) : option (list Posting) :=
  iterate (S (length (nodes (inner_list_ pl)))) pl (NewIter pl).

(** ** The shared state and the build thread *)

Record StoryAddingRequest := mkStory { story_id : list Z; keywords : list (Z * Z) }.

(** [L] is the representation of a posting list. *)
Record StateOf (L : Type) := mkState {
  index_ : gmap Z L;
  att_ : gmap Z Z;                         (* local doc id to global doc id *)
  local_docid_counter_ : Z;
  num_indexed_stories_current_ : Z;
  num_indexed_stories_total_ : Z;
  doc_to_delete : gset Z;                  (* a local variable of the cleaning thread *)
}.

Arguments mkState {L}.
Arguments index_ {L}.
Arguments att_ {L}.
Arguments local_docid_counter_ {L}.
Arguments num_indexed_stories_current_ {L}.
Arguments num_indexed_stories_total_ {L}.
Arguments doc_to_delete {L}.

Abbreviation State := (StateOf PostingList).

Definition State0 {L} : StateOf L := mkState ∅ ∅ 1 0 0 ∅.

Section Index.
Context (CityHash64 : list Z -> Z).

(** The body of the loop that adds to the posting lists. *)
Definition post (pl : PostingList) (id w now : Z) : option PostingList :=
  r ← AllocatePosting pl;
  let '(pl, p) := r in
  nd ← nodes (inner_list_ pl) !! p;
  let nd := mkListNode (mkPosting id (float_of_int w) (swrap 32 now)) (next nd) in
  AddPosting (mkPL (set_nodes (inner_list_ pl) (<[p := nd]> (nodes (inner_list_ pl)))) (end_mark_ pl)) p.

(** [clk i] is the clock (in seconds) when the [i]-th keyword is posted; [None] is the failing
    CHECK for a token that is not in the index. *)
Fixpoint add_postings (clk : nat -> Z) (i : nat) (m : gmap Z PostingList) (id : Z)
    (kws : list (Z * Z)) : option (gmap Z PostingList) :=
  match kws with
  | [] => Some m
  | (tok, w) :: kws =>
    pl ← m !! tok;
    pl ← post pl id w (clk i);
    add_postings clk (S i) (<[tok := pl]> m) id kws
  end.

Definition create_lists (m : gmap Z PostingList) (new_tokens : list Z) : gmap Z PostingList :=
  fold_left (fun m tok => <[tok := NewPostingList]> m) new_tokens m.

Definition AddStoryInternal (s : State) (req : StoryAddingRequest) (clk : nat -> Z) : option State :=
  (* step 1: the attachment *)
  let local_id := local_docid_counter_ s in
  let att := <[local_id := swrap 64 (CityHash64 (story_id req))]> (att_ s) in
  (* step 2: the posting lists *)
  let new_tokens := filter (fun tok => index_ s !! tok = None) (fst <$> keywords req) in
  let m := create_lists (index_ s) new_tokens in
  m ← add_postings clk 0 m local_id (keywords req);
  Some (mkState m att (uwrap 32 (local_id + 1)) (swrap 32 (num_indexed_stories_current_ s + 1))
          (swrap 32 (num_indexed_stories_total_ s + 1)) (doc_to_delete s)).

(** ** The cleaning thread *)

(** [while (cur->next != NULL && cur->next->data->timestamp >= target_time) cur = cur->next;] *)
Fixpoint find_mark (fuel : nat) (pl : PostingList) (cur : nat) (target : Z) : option nat :=
  match fuel with
  | O => None
  | S fuel =>
    nx ← next_of pl cur;
    match nx with
    | None => Some cur
    | Some n => p ← data_of pl n; if target <=? timestamp p then find_mark fuel pl n target else Some cur
    end
  end.

Definition mark_list (target : Z) (pl : PostingList) : option PostingList :=
  cur ← find_mark (S (length (nodes (inner_list_ pl)))) pl (GetFakeFront pl) target;
  Some (SetEndMark pl (Some cur)).

(** An operation on every posting list of the index. *)
Definition map_lists {B} (f : PostingList -> option B) (m : gmap Z PostingList) : option (gmap Z B) :=
  if decide (map_Forall (fun _ pl => is_Some (f pl)) m) then Some (omap f m) else None.

Definition MarkPhase (doc_life_time : Z) (s : State) (now : Z) : option State :=
  m ← map_lists (mark_list (now - doc_life_time)) (index_ s);
  Some (mkState m (att_ s) (local_docid_counter_ s) (num_indexed_stories_current_ s)
          (num_indexed_stories_total_ s) (doc_to_delete s)).

(** [while (cur != NULL) { doc_to_delete.insert(cur->data->local_docid); cur = cur->next; }] *)
Fixpoint collect (fuel : nat) (pl : PostingList) (cur : option nat) : option (list Z) :=
  match cur with
  | None => Some []
  | Some c =>
    match fuel with
    | O => None
    | S fuel =>
      p ← data_of pl c; nx ← next_of pl c; ds ← collect fuel pl nx; Some (local_docid p :: ds)
    end
  end.

Definition clear_list (pl : PostingList) : option (PostingList * list Z) :=
  let mark := GetEndMark pl in
  ds ← match mark with
       | None => Some []
       | Some m => cur ← next_of pl m; collect (length (nodes (inner_list_ pl))) pl cur
       end;
  pl ← PLEraseAfter pl mark;
  Some (SetEndMark pl None, ds).

Definition ClearPhase (s : State) : option State :=
  m ← map_lists clear_list (index_ s);
  let docs := list_to_set (concat ((fun p => snd (snd p)) <$> map_to_list m)) in
  Some (mkState (fst <$> m) (att_ s) (local_docid_counter_ s) (num_indexed_stories_current_ s)
          (num_indexed_stories_total_ s) docs).

Definition ErasePhase (s : State) : State :=
  mkState (index_ s) (set_fold delete (att_ s) (doc_to_delete s)) (local_docid_counter_ s)
    (num_indexed_stories_current_ s)
    (swrap 32 (num_indexed_stories_total_ s - Z.of_nat (size (doc_to_delete s)))) ∅.

(** ** Queries of instant_index.cc *)

Definition GetPostingList (s : State) (token_id : Z) : option (PostingList * Iter) :=
  pl ← index_ s !! token_id; Some (pl, NewIter pl).

Definition TranslateToGlobalID (s : State) (local_id : Z) : option Z := att_ s !! local_id.

(** [res] may hold mappings before the call; the result is [locals.size() == res->size()]. *)
Definition TranslateToGlobalIDBatch (s : State) (locals : list Z) (res : gmap Z Z) : bool * gmap Z Z :=
  let res := fold_left (fun res l => match att_ s !! l with
                                     | Some g => <[l := g]> res
                                     | None => res
                                     end) locals res in
  (bool_decide (length locals = size res), res).

(** ** The whole index as a sequence of critical sections *)

Inductive event :=
  | EAdd (req : StoryAddingRequest) (clk : nat -> Z)
  | EMark (now : Z)
  | EClear
  | EErase.

Definition step (life : Z) (s : State) (e : event) : option State :=
  match e with
  | EAdd req clk => AddStoryInternal s req clk
  | EMark now => MarkPhase life s now
  | EClear => ClearPhase s
  | EErase => Some (ErasePhase s)
  end.

Fixpoint run (life : Z) (s : State) (es : list event) : option State :=
  match es with
  | [] => Some s
  | e :: es => s ← step life s e; run life s es
  end.

(** ** The abstract index: plain lists of postings

    A posting list is the list of its postings, newest first, and the position of the end mark
    (0 is the fake front); a reader sees the postings before the mark. *)

Definition alist : Type := list Posting * option nat.
Definition anil : alist := ([], None).
Definition all_postings (a : alist) : list Posting := fst a.

Definition apush (p : Posting) (a : alist) : alist :=
  (p :: fst a, match snd a with Some (S k) => Some (S (S k)) | m => m end).

Fixpoint prefix_len (f : Posting -> bool) (ps : list Posting) : nat :=
  match ps with
  | [] => 0
  | p :: ps => if f p then S (prefix_len f ps) else 0
  end.

Definition fresh (target : Z) (p : Posting) : bool := target <=? timestamp p.

Definition amark (target : Z) (a : alist) : alist := (fst a, Some (prefix_len (fresh target) (fst a))).

Definition kept (a : alist) : list Posting :=
  match snd a with Some k => take k (fst a) | None => fst a end.
Definition dropped (a : alist) : list Posting :=
  match snd a with Some k => drop k (fst a) | None => [] end.

Definition aclear (a : alist) : alist := (kept a, None).

(** What an iterator returns. *)
Definition visible (a : alist) : list Posting := kept a.

Fixpoint aadd_postings (clk : nat -> Z) (i : nat) (m : gmap Z alist) (id : Z) (kws : list (Z * Z))
    : gmap Z alist :=
  match kws with
  | [] => m
  | (tok, w) :: kws =>
    let p := mkPosting id (float_of_int w) (swrap 32 (clk i)) in
    aadd_postings clk (S i) (<[tok := apush p (default anil (m !! tok))]> m) id kws
  end.

Definition adocs (m : gmap Z alist) : gset Z :=
  list_to_set (concat ((fun p => local_docid <$> dropped (snd p)) <$> map_to_list m)).

Definition astep (life : Z) (s : StateOf alist) (e : event) : StateOf alist :=
  match e with
  | EAdd req clk =>
    let id := local_docid_counter_ s in
    mkState (aadd_postings clk 0 (index_ s) id (keywords req))
      (<[id := swrap 64 (CityHash64 (story_id req))]> (att_ s)) (uwrap 32 (id + 1))
      (swrap 32 (num_indexed_stories_current_ s + 1)) (swrap 32 (num_indexed_stories_total_ s + 1))
      (doc_to_delete s)
  | EMark now =>
    mkState (amark (now - life) <$> index_ s) (att_ s) (local_docid_counter_ s)
      (num_indexed_stories_current_ s) (num_indexed_stories_total_ s) (doc_to_delete s)
  | EClear =>
    mkState (aclear <$> index_ s) (att_ s) (local_docid_counter_ s)
      (num_indexed_stories_current_ s) (num_indexed_stories_total_ s) (adocs (index_ s))
  | EErase =>
    mkState (index_ s) (set_fold delete (att_ s) (doc_to_delete s)) (local_docid_counter_ s)
      (num_indexed_stories_current_ s)
      (swrap 32 (num_indexed_stories_total_ s - Z.of_nat (size (doc_to_delete s)))) ∅
  end.

Definition arun (life : Z) (s : StateOf alist) (es : list event) : StateOf alist :=
  fold_left (astep life) es s.

(** ** One posting list *)

Definition front (pl : PostingList) : nat := front_ (inner_list_ pl).

Definition plrep (pl : PostingList) (a : alist) : Prop :=
  exists xs, holds (inner_list_ pl) xs (fst a) /\
    match snd a with
    | None => end_mark_ pl = None
    | Some k => (k <= length xs)%nat /\ end_mark_ pl = (front pl :: xs) !! k
    end.

Lemma AllocatorAllocate_fresh (l l' : @LocklessList Posting) n :
  AllocatorAllocate Posting0 l = Some (l', n) -> exists d, nodes l' !! n = Some (mkListNode d None).
Proof.
  unfold AllocatorAllocate. case_decide.
  - intros [= <- <-]. cbn. rewrite list_lookup_middle by done. eauto.
  - destruct (obj_pool_ l) as [|m pool]; [done|]. destruct (nodes l !! m) as [nd|] eqn:Hm; [|done].
    cbn -[insert]. intros [= <- <-]. cbn -[insert]. rewrite list_lookup_insert_eq; [eauto|].
    by apply lookup_lt_Some in Hm.
Qed.

(** Filling a fresh posting and pushing it is [Allocate(t)] and [PushFront]. *)
Lemma post_push pl id w now :
  post pl id w now =
  (r ← AllocateWith Posting0 (inner_list_ pl) (mkPosting id (float_of_int w) (swrap 32 now));
   l ← PushFront (fst r) (snd r); Some (mkPL l (end_mark_ pl))).
Proof.
  unfold post, AllocatePosting, AllocateWith, Allocate.
  destruct (AllocatorAllocate Posting0 (inner_list_ pl)) as [[l n]|] eqn:Ha; [|done].
  destruct (AllocatorAllocate_fresh _ _ _ Ha) as [d Hd].
  cbn [mbind option_bind fst snd]. rewrite (set_next_Some _ _ _ _ Hd). cbn [mbind option_bind fst snd].
  cbn -[insert PushFront]. rewrite list_insert_id by done. rewrite Hd. cbn -[insert PushFront].
  by destruct l.
Qed.

Lemma post_rep pl a id w now :
  plrep pl a -> zlen (nodes (inner_list_ pl)) + 1 < 2 ^ 31 ->
  exists pl', post pl id w now = Some pl' /\
    plrep pl' (apush (mkPosting id (float_of_int w) (swrap 32 now)) a) /\
    (length (nodes (inner_list_ pl')) <= S (length (nodes (inner_list_ pl))))%nat.
Proof.
  intros (xs & Hh & Hm) Hb. rewrite post_push.
  destruct (Push_holds Posting0 _ _ _ (mkPosting id (float_of_int w) (swrap 32 now)) Hh Hb)
    as (l1 & n & l2 & -> & HP & Hh2 & Hnf & Hnx & Hf2 & Hl).
  cbn [mbind option_bind fst snd]. rewrite HP. cbn [mbind option_bind].
  eexists. split; [done|]. split; [|done]. exists (n :: xs). split; [done|].
  unfold front in *. destruct a as [ps [[|k]|]]; simpl in *; rewrite ?Hf2; [|..|done].
  - destruct Hm as [_ ->]. split; [lia|done].
  - destruct Hm as [Hk ->]. split; [lia|done].
Qed.

Lemma chain_data (ns : list (@ListNode Posting)) p x xs ps :
  chain ns p (x :: xs) -> (fun n => data <$> ns !! n) <$> (x :: xs) = Some <$> ps ->
  exists nd ps', p = Some x /\ ns !! x = Some nd /\ chain ns (next nd) xs /\
    ps = data nd :: ps' /\ (fun n => data <$> ns !! n) <$> xs = Some <$> ps'.
Proof.
  intros (-> & nd & Hx & Hc) Hd. destruct ps as [|q ps]; [done|].
  rewrite !fmap_cons, Hx in Hd. injection Hd as Hq Hd. exists nd, ps. by subst q.
Qed.

Lemma find_mark_chain pl target xs : forall ps cur p0 fuel,
  next_of pl cur = Some p0 -> chain (nodes (inner_list_ pl)) p0 xs ->
  (fun n => data <$> nodes (inner_list_ pl) !! n) <$> xs = Some <$> ps -> (length xs < fuel)%nat ->
  find_mark fuel pl cur target = (cur :: xs) !! prefix_len (fresh target) ps /\
  (prefix_len (fresh target) ps <= length xs)%nat.
Proof.
  induction xs as [|x xs IH]; intros ps cur p0 fuel Hn Hc Hd Hf;
    (destruct fuel as [|fuel]; [lia|]); cbn [find_mark]; rewrite Hn; cbn [mbind option_bind].
  - destruct ps; [|done]. rewrite Hc. done.
  - destruct (chain_data _ _ _ _ _ Hc Hd) as (nd & ps' & -> & Hx & Hc' & -> & Hd').
    unfold data_of. rewrite Hx. cbn -[Z.leb]. unfold fresh.
    destruct (target <=? timestamp (data nd)); [|simpl; split; [done|lia]].
    destruct (IH ps' x (next nd) fuel) as [H1 H2].
    + unfold next_of. by rewrite Hx.
    + done.
    + done.
    + simpl in Hf. lia.
    + simpl. rewrite H1. split; [done|]. unfold fresh in H2. lia.
Qed.

Lemma holds_chain pl xs ps :
  holds (inner_list_ pl) xs ps ->
  exists p0, next_of pl (front pl) = Some p0 /\ chain (nodes (inner_list_ pl)) p0 xs /\
    (fun n => data <$> nodes (inner_list_ pl) !! n) <$> xs = Some <$> ps /\
    NoDup (front pl :: xs) /\ (length xs < length (nodes (inner_list_ pl)))%nat.
Proof.
  intros (Hwf & Hcons & Hd). destruct (wf_chain _ _ Hwf) as (f & Hf & Hc). exists (next f).
  unfold next_of, front. rewrite Hf. split_and!; try done.
  - pose proof (wf_nodup _ _ Hwf) as Hn. rewrite app_comm_cons in Hn.
    by apply list.NoDup_app in Hn as (? & _).
  - unfold conserved in Hcons. lia.
Qed.

Lemma mark_list_rep target pl a :
  plrep pl a ->
  exists pl', mark_list target pl = Some pl' /\ plrep pl' (amark target a) /\
    inner_list_ pl' = inner_list_ pl.
Proof.
  intros (xs & Hh & _). destruct (holds_chain _ _ _ Hh) as (p0 & Hn & Hc & Hd & Hnd & Hl).
  unfold mark_list. change (GetFakeFront pl) with (front pl).
  destruct (find_mark_chain pl target xs (fst a) (front pl) p0
    (S (length (nodes (inner_list_ pl)))) Hn Hc Hd) as [H1 H2]; [lia|].
  destruct ((front pl :: xs) !! prefix_len (fresh target) (fst a)) as [m|] eqn:Hm.
  2:{ apply lookup_ge_None in Hm. simpl in Hm. lia. }
  rewrite H1. cbn [mbind option_bind]. eexists. split; [done|]. split; [|done].
  exists xs. split; [done|]. cbn [snd amark]. split; [done|]. exact (eq_sym Hm).
Qed.

Lemma collect_chain pl xs : forall ps p0 fuel,
  chain (nodes (inner_list_ pl)) p0 xs ->
  (fun n => data <$> nodes (inner_list_ pl) !! n) <$> xs = Some <$> ps -> (length xs <= fuel)%nat ->
  collect fuel pl p0 = Some (local_docid <$> ps).
Proof.
  induction xs as [|x xs IH]; intros ps p0 fuel Hc Hd Hf.
  - destruct ps; [|done]. simpl in Hc. subst p0. by destruct fuel.
  - destruct (chain_data _ _ _ _ _ Hc Hd) as (nd & ps' & -> & Hx & Hc' & -> & Hd').
    destruct fuel as [|fuel]; [simpl in Hf; lia|]. cbn [collect]. unfold data_of, next_of.
    rewrite Hx. cbn -[collect]. rewrite (IH ps' (next nd) fuel); [done..|simpl in Hf; lia].
Qed.

(** The chain behind the node at position [k]. *)
Lemma chain_drop pl xs ps k x :
  holds (inner_list_ pl) xs ps -> (front pl :: xs) !! k = Some x ->
  exists p0, next_of pl x = Some p0 /\ chain (nodes (inner_list_ pl)) p0 (drop k xs) /\
    (fun n => data <$> nodes (inner_list_ pl) !! n) <$> drop k xs = Some <$> drop k ps.
Proof.
  intros Hh Hk. destruct (holds_chain _ _ _ Hh) as (p0 & Hn & Hc & Hd & _).
  assert (Hdd : (fun n => data <$> nodes (inner_list_ pl) !! n) <$> drop k xs = Some <$> drop k ps)
    by (by rewrite !fmap_drop, Hd).
  destruct k as [|k]; [injection Hk as <-; rewrite !drop_0 in *; eauto|]. simpl in Hk.
  rewrite <- (take_drop k xs) in Hc. rewrite (drop_S _ _ _ Hk) in Hc.
  destruct (chain_app _ _ _ _ Hc) as (q & (-> & nd & Hx & Hc') & _).
  exists (next nd). unfold next_of. rewrite Hx. auto.
Qed.

Lemma clear_list_rep pl a :
  plrep pl a ->
  exists pl', clear_list pl = Some (pl', local_docid <$> dropped a) /\ plrep pl' (aclear a) /\
    length (nodes (inner_list_ pl')) = length (nodes (inner_list_ pl)).
Proof.
  intros (xs & Hh & Hm). unfold clear_list, GetEndMark, dropped, aclear, kept.
  destruct a as [ps [k|]]; cbn [fst snd] in *.
  - destruct Hm as [Hk Hm]. destruct ((front pl :: xs) !! k) as [x|] eqn:Hx.
    2:{ apply lookup_ge_None in Hx. simpl in Hx. lia. }
    rewrite Hm. destruct (chain_drop _ _ _ _ _ Hh Hx) as (p0 & Hn & Hc & Hd). rewrite Hn.
    cbn [mbind option_bind]. destruct (holds_chain _ _ _ Hh) as (_ & _ & _ & _ & _ & Hl).
    rewrite (collect_chain pl (drop k xs) (drop k ps)); [|done..|rewrite length_drop; lia].
    cbn [mbind option_bind]. unfold PLEraseAfter.
    destruct (EraseAfter_holds _ _ _ _ _ Hh Hx) as (l' & -> & Hh' & _ & Hl').
    cbn [mbind option_bind]. eexists. split; [done|]. split; [|done]. by exists (take k xs).
  - rewrite Hm. cbn. eexists. split; [done|]. split; [|done]. by exists xs.
Qed.

(** ** The iterator *)

Lemma iterate_chain pl xs : forall ps cur p0 fuel b stop,
  next_of pl cur = Some p0 -> chain (nodes (inner_list_ pl)) p0 xs ->
  (fun n => data <$> nodes (inner_list_ pl) !! n) <$> xs = Some <$> ps ->
  NoDup (cur :: xs) -> end_mark_ pl <> Some (front pl) ->
  match stop with
  | None => end_mark_ pl = None
  | Some k => (k <= length xs)%nat /\ end_mark_ pl = (cur :: xs) !! k
  end -> (length xs < fuel)%nat ->
  iterate fuel pl (mkIter (Some cur) b) = Some (match stop with Some k => take k ps | None => ps end).
Proof.
  induction xs as [|x xs IH]; intros ps cur p0 fuel b stop Hn Hc Hd Hnd Hne Hs Hf;
    (destruct fuel as [|fuel]; [lia|]); cbn [iterate]; unfold HasValue; cbn [cur_];
    rewrite Hn; cbn [mbind option_bind].
  - destruct ps; [|done]. rewrite Hc. cbn. destruct stop; [by rewrite take_nil|done].
  - destruct (chain_data _ _ _ _ _ Hc Hd) as (nd & ps' & -> & Hx & Hc' & -> & Hd').
    unfold GetEndMark. change (GetFakeFront pl) with (front pl). rewrite bool_decide_false by done.
    destruct (decide (stop = Some 0%nat)) as [->|Hst].
    + destruct Hs as [_ Hs]. rewrite bool_decide_true by (symmetry; exact Hs). done.
    + assert (Hcm : Some cur <> end_mark_ pl).
      { destruct stop as [[|k]|]; [done| |by rewrite Hs]. destruct Hs as [Hk Hs]. rewrite Hs.
        simpl. intros Heq. symmetry in Heq. apply list_elem_of_lookup_2 in Heq.
        apply list.NoDup_cons in Hnd. tauto. }
      rewrite bool_decide_false by done. cbn [snd fst].
      unfold GetValue. cbn [has_value_ cur_]. cbn [mbind option_bind]. rewrite Hn.
      cbn [mbind option_bind]. unfold data_of. rewrite Hx. cbn [mbind option_bind fmap option_fmap option_map].
      unfold Next. cbn [fst cur_ mbind option_bind]. rewrite Hn. cbn [mbind option_bind has_value_].
      rewrite (IH ps' x (next nd) fuel false (pred <$> stop)).
      * cbn [mbind option_bind snd]. by destruct stop as [[|k]|].
      * unfold next_of. by rewrite Hx.
      * done.
      * done.
      * by apply list.NoDup_cons in Hnd as [_ ?].
      * done.
      * destruct stop as [[|k]|]; [done| |done]. simpl in Hs |- *. destruct Hs as [Hk Hs]. split; [lia|done].
      * simpl in Hf. lia.
Qed.

(** Iterating from the start returns the postings before the end mark. *)
Lemma read_all_visible pl a : plrep pl a -> read_all pl = Some (visible a).
Proof.
  intros (xs & Hh & Hm). destruct (holds_chain _ _ _ Hh) as (p0 & Hn & Hc & Hd & Hnd & Hl).
  unfold read_all, NewIter. change (GetFakeFront pl) with (front pl).
  destruct (decide (end_mark_ pl = Some (front pl))) as [He|He].
  - assert (Hv : visible a = []).
    { unfold visible, kept. destruct a as [ps [[|k]|]]; cbn [fst snd] in *; [done| |congruence].
      destruct Hm as [_ Hm]. rewrite He in Hm. simpl in Hm. symmetry in Hm.
      apply list_elem_of_lookup_2 in Hm. apply list.NoDup_cons in Hnd. tauto. }
    rewrite Hv. cbn [iterate]. unfold HasValue. cbn [cur_]. rewrite Hn. cbn [mbind option_bind].
    unfold GetEndMark. rewrite He. change (GetFakeFront pl) with (front pl).
    rewrite bool_decide_true by done. by destruct p0.
  - rewrite (iterate_chain pl xs (fst a) (front pl) p0 _ false (snd a)) by (done || lia).
    unfold visible, kept. by destruct (snd a).
Qed.

Lemma Size_loop_chain pl xs : forall ps cur p0 fuel stop n,
  next_of pl cur = Some p0 -> chain (nodes (inner_list_ pl)) p0 xs ->
  (fun n => data <$> nodes (inner_list_ pl) !! n) <$> xs = Some <$> ps ->
  NoDup (cur :: xs) ->
  match stop with
  | None => end_mark_ pl = None
  | Some k => (k <= length xs)%nat /\ end_mark_ pl = (cur :: xs) !! k
  end -> (length xs < fuel)%nat ->
  Size_loop fuel pl (Some cur) n = Some (n + zlen (match stop with Some k => take k ps | None => ps end)).
Proof.
  induction xs as [|x xs IH]; intros ps cur p0 fuel stop n Hn Hc Hd Hnd Hs Hf;
    (destruct fuel as [|fuel]; [lia|]); cbn [Size_loop]; rewrite Hn; cbn [mbind option_bind].
  - destruct ps; [|done]. rewrite Hc. cbn. f_equal. destruct stop; rewrite ?take_nil, zlen_nil; lia.
  - destruct (chain_data _ _ _ _ _ Hc Hd) as (nd & ps' & -> & Hx & Hc' & -> & Hd').
    unfold GetEndMark. rewrite bool_decide_true by done. cbn [andb].
    destruct (decide (stop = Some 0%nat)) as [->|Hst].
    + destruct Hs as [_ Hs]. rewrite bool_decide_false by (intros H; apply H; symmetry; exact Hs).
      f_equal. simpl. rewrite zlen_nil. lia.
    + assert (Hcm : Some cur <> end_mark_ pl).
      { destruct stop as [[|k]|]; [done| |by rewrite Hs]. destruct Hs as [Hk Hs]. rewrite Hs.
        simpl. intros Heq. symmetry in Heq. apply list_elem_of_lookup_2 in Heq.
        apply list.NoDup_cons in Hnd. tauto. }
      rewrite bool_decide_true by done.
      rewrite (IH ps' x (next nd) fuel (pred <$> stop) (n + 1)).
      * f_equal. destruct stop as [[|k]|]; [done| |]; simpl; rewrite zlen_cons; lia.
      * unfold next_of. by rewrite Hx.
      * done.
      * done.
      * by apply list.NoDup_cons in Hnd as [_ ?].
      * destruct stop as [[|k]|]; [done| |done]. simpl in Hs |- *. destruct Hs as [Hk Hs]. split; [lia|done].
      * simpl in Hf. lia.
Qed.

Lemma Size_visible pl a : plrep pl a -> Size pl = Some (zlen (visible a)).
Proof.
  intros (xs & Hh & Hm). destruct (holds_chain _ _ _ Hh) as (p0 & Hn & Hc & Hd & Hnd & Hl).
  unfold Size. change (GetFakeFront pl) with (front pl). case_bool_decide as He.
  - unfold visible, kept. destruct a as [ps [[|k]|]]; cbn [fst snd] in *; [done| |].
    + destruct Hm as [_ Hm]. unfold GetEndMark in He. rewrite <- He in Hm. simpl in Hm. symmetry in Hm.
      apply list_elem_of_lookup_2 in Hm. apply list.NoDup_cons in Hnd. tauto.
    + unfold GetEndMark in He. congruence.
  - rewrite (Size_loop_chain pl xs (fst a) (front pl) p0 _ (snd a)) by (done || lia).
    unfold visible, kept. by destruct (snd a).
Qed.

(** ** The whole index *)

Definition lists_le (m : gmap Z PostingList) (n : nat) : Prop :=
  forall t pl, m !! t = Some pl -> (length (nodes (inner_list_ pl)) <= n)%nat.

Definition irep (m : gmap Z PostingList) (am : gmap Z alist) : Prop :=
  forall t, match m !! t with
            | None => am !! t = None
            | Some pl => exists a, am !! t = Some a /\ plrep pl a
            end.

Lemma NewPostingList_rep : plrep NewPostingList anil.
Proof.
  destruct (NewLocklessList_repr Posting0) as (xs & Hh). exists xs. done.
Qed.

Lemma create_lists_lookup new : forall m t,
  create_lists m new !! t = if decide (t ∈ new) then Some NewPostingList else m !! t.
Proof.
  unfold create_lists. induction new as [|x new IH]; intros m t; cbn [fold_left].
  - rewrite decide_False by set_solver. done.
  - rewrite IH. destruct (decide (t ∈ new)).
    + rewrite decide_True by set_solver. done.
    + destruct (decide (t = x)) as [->|].
      * rewrite decide_True by set_solver. by rewrite lookup_insert_eq.
      * rewrite decide_False by set_solver. by rewrite lookup_insert_ne by done.
Qed.

(** During AddStoryInternal: the lists of the keywords still to be posted exist, and may be
    absent from the abstract index. *)
Definition adding (kws : list (Z * Z)) (m : gmap Z PostingList) (am : gmap Z alist) (n : nat) : Prop :=
  forall t, match m !! t with
            | None => am !! t = None /\ t ∉ kws.*1
            | Some pl => plrep pl (default anil (am !! t)) /\
                (is_Some (am !! t) \/ t ∈ kws.*1) /\
                (length (nodes (inner_list_ pl)) <= (if decide (t ∈ kws.*1) then n else S n))%nat
            end.

Lemma add_postings_rep clk id n kws : forall i m am,
  Z.of_nat n + 1 < 2 ^ 31 -> NoDup (kws.*1) -> adding kws m am n ->
  exists m', add_postings clk i m id kws = Some m' /\ irep m' (aadd_postings clk i am id kws) /\
    lists_le m' (S n).
Proof.
  induction kws as [|[tok w] kws IH]; intros i m am Hb Hnd Ha; cbn [add_postings aadd_postings].
  - exists m. split; [done|]. split.
    + intros t. specialize (Ha t). destruct (m !! t) as [pl|]; [|tauto].
      destruct Ha as (Hr & Hs & _). destruct (am !! t) as [a|]; [by exists a|].
      destruct Hs as [[? ?]|Hs]; [done|set_solver].
    + intros t pl Hpl. specialize (Ha t). rewrite Hpl in Ha. destruct Ha as (_ & _ & Hl).
      destruct (decide _); lia.
  - rewrite fmap_cons in Hnd. cbn [fst] in Hnd. apply list.NoDup_cons in Hnd as [Htok Hnd].
    pose proof (Ha tok) as Hat. rewrite fmap_cons in Hat. cbn [fst] in Hat.
    destruct (m !! tok) as [pl|] eqn:Hpl; [|set_solver]. destruct Hat as (Hr & _ & Hl).
    rewrite decide_True in Hl by set_solver. cbn [mbind option_bind].
    destruct (post_rep pl _ id w (clk i) Hr) as (pl' & -> & Hr' & Hl'); [unfold zlen; lia|].
    cbn [mbind option_bind]. apply IH; [done..|]. intros t. destruct (decide (t = tok)) as [->|Hne].
    + rewrite !lookup_insert_eq. split; [done|]. split; [left; by eexists|].
      rewrite decide_False by done. lia.
    + rewrite !lookup_insert_ne by done. specialize (Ha t).
      rewrite fmap_cons in Ha. cbn [fst] in Ha. destruct (m !! t) as [pl2|]; [|set_solver].
      destruct Ha as (Hr2 & Hin & Hl2). split; [done|]. split; [set_solver|].
      destruct (decide (t ∈ kws.*1)); [rewrite decide_True in Hl2 by set_solver|]; [done|].
      destruct (decide _); lia.
Qed.

Record rep (n : nat) (s : State) (a : StateOf alist) : Prop := {
  rep_index : irep (index_ s) (index_ a);
  rep_le : lists_le (index_ s) n;
  rep_att : att_ s = att_ a;
  rep_ctr : local_docid_counter_ s = local_docid_counter_ a;
  rep_cur : num_indexed_stories_current_ s = num_indexed_stories_current_ a;
  rep_tot : num_indexed_stories_total_ s = num_indexed_stories_total_ a;
  rep_del : doc_to_delete s = doc_to_delete a;
}.

Lemma AddStoryInternal_rep n s a life req clk :
  rep n s a -> (1 <= n)%nat -> Z.of_nat n + 1 < 2 ^ 31 -> NoDup ((keywords req).*1) ->
  exists s', AddStoryInternal s req clk = Some s' /\ rep (S n) s' (astep life a (EAdd req clk)).
Proof.
  intros [Hi Hle Hat Hct Hcu Hto Hde] Hn Hb Hnd. unfold AddStoryInternal.
  set (new := filter _ _).
  destruct (add_postings_rep clk (local_docid_counter_ s) n (keywords req) 0
    (create_lists (index_ s) new) (index_ a)) as (m' & Hm & Hi' & Hle'); [done..| |].
  - intros t. rewrite create_lists_lookup. unfold new. specialize (Hi t).
    destruct (decide (t ∈ filter _ _)) as [Hin|Hin]; rewrite list_elem_of_filter in Hin.
    + destruct Hin as [H0 Hin]. rewrite H0 in Hi. rewrite Hi.
      split; [exact NewPostingList_rep|]. split; [by right|]. rewrite decide_True by done.
      cbn. lia.
    + destruct (index_ s !! t) as [pl|] eqn:Hpl.
      * destruct Hi as (al & -> & Hr). split; [done|]. split; [left; by eexists|].
        pose proof (Hle _ _ Hpl). destruct (decide _); lia.
      * split; [done|]. tauto.
  - rewrite Hm. cbn [mbind option_bind]. eexists. split; [done|].
    split; cbn [index_ att_ local_docid_counter_ num_indexed_stories_current_
      num_indexed_stories_total_ doc_to_delete astep]; try congruence; [by rewrite <- Hct|done].
Qed.

Lemma map_lists_rep {B} (f : PostingList -> option B) m am :
  irep m am -> (forall pl a, plrep pl a -> is_Some (f pl)) ->
  map_lists f m = Some (omap f m).
Proof.
  intros Hi Hf. unfold map_lists. rewrite decide_True; [done|]. intros t pl Hpl.
  specialize (Hi t). rewrite Hpl in Hi. destruct Hi as (a & _ & Hr). eauto.
Qed.

Lemma MarkPhase_rep n s a life now :
  rep n s a -> exists s', MarkPhase life s now = Some s' /\ rep n s' (astep life a (EMark now)).
Proof.
  intros [Hi Hle Hat Hct Hcu Hto Hde]. unfold MarkPhase.
  rewrite (map_lists_rep _ _ _ Hi).
  2:{ intros pl al Hr. destruct (mark_list_rep (now - life) pl al Hr) as (pl' & H & _). eauto. }
  cbn [mbind option_bind]. eexists. split; [done|]. split; cbn; try done.
  - intros t. specialize (Hi t). rewrite lookup_omap, lookup_fmap.
    destruct (index_ s !! t) as [pl|]; cbn [mbind option_bind]; [|by rewrite Hi].
    destruct Hi as (al & -> & Hr). destruct (mark_list_rep (now - life) pl al Hr) as (pl' & -> & Hr' & _).
    eauto.
  - intros t pl'. rewrite lookup_omap. destruct (index_ s !! t) as [pl|] eqn:Hpl; [|done].
    cbn [mbind option_bind]. intros Hm. specialize (Hi t). rewrite Hpl in Hi. destruct Hi as (al & _ & Hr).
    destruct (mark_list_rep (now - life) pl al Hr) as (pl2 & H2 & _ & Hin).
    assert (pl2 = pl') as -> by congruence. rewrite Hin. by eapply Hle.
Qed.

Lemma elem_of_docs {L} (g : L -> list Z) (m : gmap Z L) d :
  d ∈ (list_to_set (concat ((fun p => g (snd p)) <$> map_to_list m)) : gset Z) <->
  exists t x, m !! t = Some x /\ d ∈ g x.
Proof.
  rewrite elem_of_list_to_set, list_elem_of_In, in_concat. split.
  - intros (l & Hl & Hd). apply list_elem_of_In, list_elem_of_fmap in Hl as ([t x] & -> & Hx).
    apply elem_of_map_to_list in Hx. apply list_elem_of_In in Hd. eauto.
  - intros (t & x & Hx & Hd). exists (g x). split; [|by apply list_elem_of_In].
    apply list_elem_of_In, list_elem_of_fmap. exists (t, x). split; [done|]. by apply elem_of_map_to_list.
Qed.

Lemma ClearPhase_rep n s a life :
  rep n s a -> exists s', ClearPhase s = Some s' /\ rep n s' (astep life a EClear).
Proof.
  intros [Hi Hle Hat Hct Hcu Hto Hde]. unfold ClearPhase.
  rewrite (map_lists_rep _ _ _ Hi).
  2:{ intros pl al Hr. destruct (clear_list_rep pl al Hr) as (pl' & H & _). eauto. }
  cbn [mbind option_bind]. eexists. split; [done|]. split; cbn; try done.
  - intros t. specialize (Hi t). rewrite !lookup_fmap, lookup_omap.
    destruct (index_ s !! t) as [pl|]; cbn [mbind option_bind]; [|by rewrite Hi].
    destruct Hi as (al & -> & Hr). destruct (clear_list_rep pl al Hr) as (pl' & -> & Hr' & _).
    cbn. eauto.
  - intros t pl'. rewrite lookup_fmap, lookup_omap. destruct (index_ s !! t) as [pl|] eqn:Hpl; [|done].
    cbn [mbind option_bind]. specialize (Hi t). rewrite Hpl in Hi. destruct Hi as (al & _ & Hr).
    destruct (clear_list_rep pl al Hr) as (pl2 & -> & _ & Hl). cbn. intros [= <-]. rewrite Hl. by eapply Hle.
  - apply set_eq. intros d. unfold adocs.
    rewrite (elem_of_docs (fun p => snd p)), (elem_of_docs (fun a => local_docid <$> dropped a)). split.
    + intros (t & x & Hx & Hd). rewrite lookup_omap in Hx. specialize (Hi t).
      destruct (index_ s !! t) as [pl|]; [|done]. cbn [mbind option_bind] in Hx.
      destruct Hi as (al & Hal & Hr). destruct (clear_list_rep pl al Hr) as (pl2 & H2 & _).
      rewrite H2 in Hx. injection Hx as <-. eauto.
    + intros (t & al & Hal & Hd). specialize (Hi t). destruct (index_ s !! t) as [pl|] eqn:Hpl; [|congruence].
      destruct Hi as (al' & Hal' & Hr). assert (al' = al) as -> by congruence.
      destruct (clear_list_rep pl al Hr) as (pl2 & H2 & _).
      exists t, (pl2, local_docid <$> dropped al). split; [|done]. rewrite lookup_omap, Hpl. done.
Qed.

Definition adds_ok (es : list event) : Prop :=
  forall req clk, EAdd req clk ∈ es -> NoDup ((keywords req).*1).

Lemma step_rep n s a life e :
  rep n s a -> (1 <= n)%nat -> Z.of_nat n + 1 < 2 ^ 31 ->
  (forall req clk, e = EAdd req clk -> NoDup ((keywords req).*1)) ->
  exists s', step life s e = Some s' /\ rep (S n) s' (astep life a e).
Proof.
  intros Hr Hn Hb He. destruct e as [req clk|now| |]; cbn [step].
  - by apply AddStoryInternal_rep; eauto.
  - destruct (MarkPhase_rep n s a life now Hr) as (s' & -> & []). eexists. split; [done|].
    split; try done. intros t pl Hpl. specialize (rep_le0 t pl Hpl). lia.
  - destruct (ClearPhase_rep n s a life Hr) as (s' & -> & []). eexists. split; [done|].
    split; try done. intros t pl Hpl. specialize (rep_le0 t pl Hpl). lia.
  - eexists. split; [done|]. destruct Hr. split; cbn; try congruence; [done|].
    intros t pl Hpl. specialize (rep_le0 t pl Hpl). lia.
Qed.

Lemma run_rep life es : forall n s a,
  rep n s a -> (1 <= n)%nat -> Z.of_nat n + zlen es < 2 ^ 31 -> adds_ok es ->
  exists s', run life s es = Some s' /\ rep (n + length es) s' (arun life a es).
Proof.
  induction es as [|e es IH]; intros n s a Hr Hn Hb Hok; cbn [run].
  - exists s. split; [done|]. simpl. by rewrite Nat.add_0_r.
  - rewrite zlen_cons in Hb. pose proof (zlen_nonneg es).
    destruct (step_rep n s a life e Hr Hn) as (s1 & -> & Hr1); [lia| |].
    { intros req clk ->. apply (Hok req clk). set_solver. }
    cbn [mbind option_bind]. destruct (IH (S n) s1 _ Hr1) as (s2 & -> & Hr2); [lia|lia| |].
    { intros req clk Hin. apply (Hok req clk). set_solver. }
    eexists. split; [done|]. cbn [length]. by rewrite <- Nat.add_succ_comm.
Qed.

Lemma State0_rep : rep 1 State0 State0.
Proof. by split. Qed.

Lemma run_State0 life es :
  zlen es < 2 ^ 31 - 1 -> adds_ok es ->
  exists s, run life State0 es = Some s /\ rep (1 + length es) s (arun life State0 es).
Proof. intros Hb Hok. apply run_rep; [exact State0_rep|lia|lia|done]. Qed.

(** The postings an iterator returns for a token. *)
Definition read_token (s : State) (tok : Z) : option (list Posting) :=
  r ← GetPostingList s tok; iterate (S (length (nodes (inner_list_ (fst r))))) (fst r) (snd r).

Lemma read_token_rep n s a tok :
  rep n s a -> read_token s tok = visible <$> index_ a !! tok.
Proof.
  intros []. unfold read_token, GetPostingList. specialize (rep_index0 tok).
  destruct (index_ s !! tok) as [pl|]; cbn [mbind option_bind fst snd]; [|by rewrite rep_index0].
  destruct rep_index0 as (al & -> & Hr). exact (read_all_visible _ _ Hr).
Qed.

(** ** The two threads

    The locks of AddStoryInternal and of the cleaning thread let their sections interleave: the
    attachment of a story, the search for new tokens, the creation of their lists and the posting
    of the keywords are sections of their own, and the last of these, the marking and the
    clearing only share the reader lock of the index, so between two lists of the cleaner the
    build thread can post a keyword and the other way round.  A step here is a section, or what
    is done with one posting list in a section under the reader lock.  (What two threads do with
    the same list at the same time is not a sequence of operations: see [push_erase_race] in
    LocklessList.) *)

(** What the threads do with a posting list. *)
Class PostingLists (L : Type) := {
  pl_new : L;
  pl_post : L -> Z -> Z -> Z -> option L;
  pl_mark : Z -> L -> option L;
  pl_clear : L -> option (L * list Z);
}.

#[export] Instance node_lists : PostingLists PostingList :=
  {| pl_new := NewPostingList; pl_post := post; pl_mark := mark_list; pl_clear := clear_list |}.

#[export] Instance plain_lists : PostingLists alist := {|
  pl_new := anil;
  pl_post a id w now := Some (apush (mkPosting id (float_of_int w) (swrap 32 now)) a);
  pl_mark target a := Some (amark target a);
  pl_clear a := Some (aclear a, local_docid <$> dropped a);
|}.

(** Where the build thread is in AddStoryInternal: it waits for a story, or stands in front of
    the search for new tokens, of the creation of their lists, of the posting of keywords. *)
Inductive build_pc :=
  | BWait
  | BDetect (id : Z) (kws : list (Z * Z))
  | BCreate (id : Z) (kws : list (Z * Z)) (new_tokens : list Z)
  | BPost (id : Z) (kws : list (Z * Z)).

(** Where the cleaning thread is: it marks, or clears, the lists of the tokens [todo] (it sleeps
    when there are none left), with the documents collected so far in the shared state. *)
Inductive clean_pc :=
  | CWait
  | CMark (target_time : Z) (todo : gset Z)
  | CClear (todo : gset Z).

Record threads (L : Type) := mkThreads { index_state : StateOf L; builder : build_pc; cleaner : clean_pc }.
Arguments mkThreads {L}.
Arguments index_state {L}.
Arguments builder {L}.
Arguments cleaner {L}.

(** The cleaning thread holds the reader lock of the index. *)
Definition cleaner_reads (c : clean_pc) : bool :=
  match c with CWait => false | CMark _ todo | CClear todo => bool_decide (todo <> ∅) end.

Inductive section_event :=
  | TakeStory (req : StoryAddingRequest)     (* Get, and the section of step 1 *)
  | DetectTokens
  | CreateLists                              (* takes the writer lock *)
  | PostKeyword (now : Z)
  | StartMark (now : Z)
  | MarkOne (tok : Z)                        (* the iteration comes to the list of [tok] *)
  | StartClear
  | ClearOne (tok : Z)
  | EraseDocs.

Section Threads.
Context {L : Type} {lists : PostingLists L} (doc_life_time : Z).

Definition with_index (m : gmap Z L) (s : StateOf L) : StateOf L :=
  mkState m (att_ s) (local_docid_counter_ s) (num_indexed_stories_current_ s) (num_indexed_stories_total_ s) (doc_to_delete s).
Definition with_docs (docs : gset Z) (s : StateOf L) : StateOf L :=
  mkState (index_ s) (att_ s) (local_docid_counter_ s) (num_indexed_stories_current_ s) (num_indexed_stories_total_ s) docs.

Definition attach (req : StoryAddingRequest) (s : StateOf L) : StateOf L :=
  let local_id := local_docid_counter_ s in
  mkState (index_ s) (<[local_id := swrap 64 (CityHash64 (story_id req))]> (att_ s)) (uwrap 32 (local_id + 1))
    (swrap 32 (num_indexed_stories_current_ s + 1)) (swrap 32 (num_indexed_stories_total_ s + 1)) (doc_to_delete s).

Definition erase_docs (s : StateOf L) : StateOf L :=
  mkState (index_ s) (set_fold delete (att_ s) (doc_to_delete s)) (local_docid_counter_ s) (num_indexed_stories_current_ s)
    (swrap 32 (num_indexed_stories_total_ s - Z.of_nat (size (doc_to_delete s)))) ∅.

(** [None] is a fault; a thread that is not there, or waits for a lock, does nothing. *)
Definition section_step (s : threads L) (e : section_event) : option (threads L) :=
  let st := index_state s in
  match e, builder s, cleaner s with
  | TakeStory req, BWait, c => Some (mkThreads (attach req st) (BDetect (local_docid_counter_ st) (keywords req)) c)
  | DetectTokens, BDetect id kws, c => Some (mkThreads st (BCreate id kws (filter (fun tok => index_ st !! tok = None) (fst <$> kws))) c)
  | CreateLists, BCreate id kws new, c =>
    if cleaner_reads c then Some s
    else Some (mkThreads (with_index (fold_left (fun m tok => <[tok := pl_new]> m) new (index_ st)) st) (BPost id kws) c)
  | PostKeyword now, BPost id [], c => Some (mkThreads st BWait c)
  | PostKeyword now, BPost id ((tok, w) :: kws), c =>
    pl ← index_ st !! tok; pl ← pl_post pl id w now;
    Some (mkThreads (with_index (<[tok := pl]> (index_ st)) st) (BPost id kws) c)
  | StartMark now, b, CWait => Some (mkThreads st b (CMark (now - doc_life_time) (dom (index_ st))))
  | MarkOne tok, b, CMark target todo =>
    if decide (tok ∈ todo) then
      pl ← index_ st !! tok; pl ← pl_mark target pl;
      Some (mkThreads (with_index (<[tok := pl]> (index_ st)) st) b (CMark target (todo ∖ {[tok]})))
    else Some s
  | StartClear, b, CMark target todo =>
    if decide (todo = ∅) then Some (mkThreads (with_docs ∅ st) b (CClear (dom (index_ st)))) else Some s
  | ClearOne tok, b, CClear todo =>
    if decide (tok ∈ todo) then
      pl ← index_ st !! tok; '(pl, docs) ← pl_clear pl;
      Some (mkThreads (with_docs (list_to_set docs ∪ doc_to_delete st) (with_index (<[tok := pl]> (index_ st)) st)) b (CClear (todo ∖ {[tok]})))
    else Some s
  | EraseDocs, b, CClear todo => if decide (todo = ∅) then Some (mkThreads (erase_docs st) b CWait) else Some s
  | _, _, _ => Some s
  end.

Fixpoint sections (es : list section_event) (s : threads L) : option (threads L) :=
  match es with [] => Some s | e :: es => s ← section_step s e; sections es s end.

Definition threads0 : threads L := mkThreads State0 BWait CWait.
End Threads.

(** *** The nodes follow the plain lists *)

(** The tokens a thread is about to look up are in the index. *)
Definition has_list {L} (m : gmap Z L) (tok : Z) : Prop := is_Some (m !! tok).
Definition tokens_there {L} (s : threads L) : Prop :=
  match builder s with
  | BCreate _ kws new => forall tok, tok ∈ kws.*1 -> tok ∈ new \/ has_list (index_ (index_state s)) tok
  | BPost _ kws => forall tok, tok ∈ kws.*1 -> has_list (index_ (index_state s)) tok
  | _ => True
  end /\
  match cleaner s with
  | CMark _ todo | CClear todo => forall tok, tok ∈ todo -> has_list (index_ (index_state s)) tok
  | CWait => True
  end.

Definition follows (n : nat) (s : threads PostingList) (a : threads alist) : Prop :=
  rep n (index_state s) (index_state a) /\ builder s = builder a /\ cleaner s = cleaner a /\ tokens_there s.

Lemma rep_mono n n' s a : rep n s a -> (n <= n')%nat -> rep n' s a.
Proof. intros [] Hn. split; try done. intros t pl Hpl. specialize (rep_le0 t pl Hpl). lia. Qed.

(** A list is replaced. *)
Lemma rep_list n s a tok pl al : rep n s a -> plrep pl al -> (length (nodes (inner_list_ pl)) <= n)%nat ->
  rep n (with_index (<[tok := pl]> (index_ s)) s) (with_index (<[tok := al]> (index_ a)) a).
Proof.
  intros [Hi Hle Hat Hct Hcu Hto Hde] Hpl Hn. split; cbn; try done.
  - intros t. destruct (decide (t = tok)) as [->|Hne]; [rewrite !lookup_insert_eq; by exists al|]. rewrite !lookup_insert_ne by done. apply Hi.
  - intros t pl' Ht. destruct (decide (t = tok)) as [->|Hne]; [rewrite lookup_insert_eq in Ht; by injection Ht as <-|]. rewrite lookup_insert_ne in Ht by done. by eapply Hle.
Qed.

Lemma has_list_insert {L} (m : gmap Z L) tok tok' x : has_list m tok' -> has_list (<[tok := x]> m) tok'.
Proof. unfold has_list. destruct (decide (tok' = tok)) as [->|Hne]; [by rewrite lookup_insert_eq|by rewrite lookup_insert_ne]. Qed.

Lemma tokens_insert {L} (s : threads L) f tok x : tokens_there s -> index_ f = <[tok := x]> (index_ (index_state s)) ->
  tokens_there (mkThreads f (builder s) (cleaner s)).
Proof.
  unfold tokens_there. cbn [builder cleaner index_state]. intros [H1 H2] ->.
  split; [destruct (builder s); try done; intros t Ht; destruct (H1 t Ht); eauto using has_list_insert|destruct (cleaner s); eauto using has_list_insert].
Qed.

Lemma irep_list m am tok : irep m am -> has_list m tok -> exists pl al, m !! tok = Some pl /\ am !! tok = Some al /\ plrep pl al.
Proof. intros Hi [pl Hpl]. specialize (Hi tok). rewrite Hpl in Hi. destruct Hi as (al & Hal & Hr). by exists pl, al. Qed.

Lemma irep_dom m am : irep m am -> dom m = dom am.
Proof.
  intros Hi. apply set_eq. intros t. rewrite !elem_of_dom. specialize (Hi t). destruct (m !! t); [destruct Hi as (al & -> & _)|rewrite Hi]; by split; intros [? ?].
Qed.

Lemma irep_new m am tok : irep m am -> m !! tok = None <-> am !! tok = None.
Proof. intros Hi. specialize (Hi tok). destruct (m !! tok); [destruct Hi as (al & -> & _); by split|by rewrite Hi]. Qed.

(** The creation of the lists of the new tokens. *)
Lemma create_rep n new : forall s a, rep n s a -> (1 <= n)%nat ->
  rep n (with_index (fold_left (fun m tok => <[tok := NewPostingList]> m) new (index_ s)) s)
    (with_index (fold_left (fun m tok => <[tok := anil]> m) new (index_ a)) a).
Proof.
  induction new as [|tok new IH]; intros s a Hr Hn; cbn [fold_left]; [by destruct s, a|].
  specialize (IH _ _ (rep_list n s a tok NewPostingList anil Hr NewPostingList_rep ltac:(cbn; lia)) Hn). exact IH.
Qed.

Lemma create_has {L} (x : L) new : forall m tok, tok ∈ new \/ has_list m tok -> has_list (fold_left (fun m tok => <[tok := x]> m) new m) tok.
Proof.
  induction new as [|t new IH]; intros m tok H; cbn [fold_left]; [by destruct H as [?%elem_of_nil|]|]. apply IH.
  destruct H as [[->|]%elem_of_cons|]; [right; unfold has_list; by rewrite lookup_insert_eq|by left|right; by apply has_list_insert].
Qed.

Definition runs_as (n : nat) (m : option (threads PostingList)) (m' : option (threads alist)) : Prop :=
  exists s a, m = Some s /\ m' = Some a /\ follows n s a.

Lemma runs_as_same n s a : follows n s a -> runs_as (S n) (Some s) (Some a).
Proof. intros (H1 & H2). exists s, a. split_and!; try done. split; [by apply (rep_mono n); [|lia]|done]. Qed.

(** The sections of the build thread. *)
Lemma build_step n life e s a : follows n s a -> (1 <= n)%nat -> Z.of_nat n + 1 < 2 ^ 31 ->
  match e with TakeStory _ | DetectTokens | CreateLists | PostKeyword _ => True | _ => False end ->
  runs_as (S n) (section_step life s e) (section_step life a e).
Proof.
  destruct s as [s b c], a as [a b' c']. intros (Hr & Hb & Hc & Ht1 & Ht2) Hn Hbound He. cbn in Hr, Hb, Hc, Ht1, Ht2. subst b' c'.
  assert (forall s', follows n (mkThreads s b c) s' -> runs_as (S n) (Some (mkThreads s b c)) (Some s')) as Hsame by (intros; by apply runs_as_same).
  assert (follows n (mkThreads s b c) (mkThreads a b c)) as Hf by done.
  destruct e; try done; destruct b as [|id kws|id kws new|id kws]; cbn [section_step builder cleaner index_state]; try (by apply Hsame).
  - apply runs_as_same. pose proof Hr as [Hi Hle Hat Hct Hcu Hto Hde]. split; [|split_and!; try done; by rewrite Hct]. split; cbn; rewrite ?Hat, ?Hct, ?Hcu, ?Hto; done.
  - assert (filter (fun tok => index_ a !! tok = None) kws.*1 = filter (fun tok => index_ s !! tok = None) kws.*1) as Eq.
    { apply list_filter_iff. intros t. symmetry. by apply irep_new, Hr. }
    rewrite Eq. apply runs_as_same. split_and!; try done. split; [|done]. cbn. intros t Htin. destruct (index_ s !! t) eqn:E; [right; by eexists|left].
    by apply list_elem_of_filter.
  - destruct (cleaner_reads c) eqn:Ec; [by apply Hsame|]. apply runs_as_same. split; [by apply create_rep|]. split_and!; try done. split.
    + intros t Htin. cbn. apply create_has. by apply Ht1.
    + cbn. destruct c as [|target todo|todo]; [done|..]; intros t Htin; apply create_has; right; by apply Ht2.
  - destruct kws as [|[tok w] kws]; cbn [section_step].
    + apply runs_as_same. split_and!; try done.
    + destruct (irep_list _ _ tok (rep_index _ _ _ Hr) ltac:(apply Ht1; by left)) as (pl & al & Hpl & Hal & Hrep). rewrite Hpl, Hal. cbn [mbind option_bind pl_post node_lists plain_lists].
      pose proof (rep_le _ _ _ Hr tok pl Hpl) as Hlen. destruct (post_rep pl al id w now Hrep) as (pl' & -> & Hrep' & Hlen'); [unfold zlen; lia|]. cbn [mbind option_bind].
      eexists _, _. split; [done|]. split; [done|]. split; [apply (rep_list (S n)); [by apply (rep_mono n); [|lia]|done|lia]|]. split_and!; try done. split.
      * cbn. intros t Htin. apply has_list_insert, Ht1. by right.
      * cbn. destruct c; [done|..]; intros t Htin; apply has_list_insert; by apply Ht2.
Qed.

(** The sections of the cleaning thread. *)
Lemma clean_step n life e s a : follows n s a -> (1 <= n)%nat ->
  match e with TakeStory _ | DetectTokens | CreateLists | PostKeyword _ => False | _ => True end ->
  runs_as (S n) (section_step life s e) (section_step life a e).
Proof.
  destruct s as [s b c], a as [a b' c']. intros (Hr & Hb & Hc & Ht1 & Ht2) Hn He. cbn in Hr, Hb, Hc, Ht1, Ht2. subst b' c'.
  assert (follows n (mkThreads s b c) (mkThreads a b c)) as Hf by done.
  assert (forall f tok x, index_ f = <[tok := x]> (index_ s) -> tokens_there (mkThreads f b c)) as Hins.
  { intros f tok x Ef. by apply (tokens_insert (mkThreads s b c) f tok x). }
  destruct e; try done; destruct c as [|target todo|todo]; cbn [section_step builder cleaner index_state]; try (destruct b; by apply runs_as_same).
  - rewrite (irep_dom _ _ (rep_index _ _ _ Hr)). destruct b; apply runs_as_same; (split_and!; [done..|]); (split; [done|]); cbn; intros t Htin;
      rewrite <- (irep_dom _ _ (rep_index _ _ _ Hr)) in Htin; by apply elem_of_dom.
  - destruct (decide (tok ∈ todo)) as [Hin|]; [|destruct b; by apply runs_as_same].
    destruct (irep_list _ _ tok (rep_index _ _ _ Hr) (Ht2 tok Hin)) as (pl & al & Hpl & Hal & Hrep). rewrite Hpl, Hal.
    cbn [mbind option_bind pl_mark node_lists plain_lists]. destruct (mark_list_rep target pl al Hrep) as (pl' & Em & Hrep' & Hin'). rewrite Em. cbn [mbind option_bind].
    pose proof (rep_le _ _ _ Hr tok pl Hpl) as Hlen. rewrite <- Hin' in Hlen.
    destruct b; apply runs_as_same; (split; [by apply rep_list|]); (split_and!; [done..|]); destruct (Hins (with_index (<[tok := pl']> (index_ s)) s) tok pl' eq_refl) as [H1 H2];
      (split; [exact H1|]); cbn in *; intros t Htin; apply H2; set_solver.
  - destruct (decide (todo = ∅)); [|destruct b; by apply runs_as_same]. rewrite (irep_dom _ _ (rep_index _ _ _ Hr)).
    assert (rep n (with_docs ∅ s) (with_docs ∅ a)) as Hr' by (destruct Hr; split; done).
    destruct b; apply runs_as_same; (split_and!; [done..|]); (split; [done|]); cbn; intros t Htin; rewrite <- (irep_dom _ _ (rep_index _ _ _ Hr)) in Htin; by apply elem_of_dom.
  - destruct (decide (tok ∈ todo)) as [Hin|]; [|destruct b; by apply runs_as_same].
    destruct (irep_list _ _ tok (rep_index _ _ _ Hr) (Ht2 tok Hin)) as (pl & al & Hpl & Hal & Hrep). rewrite Hpl, Hal.
    cbn [mbind option_bind pl_clear node_lists plain_lists]. destruct (clear_list_rep pl al Hrep) as (pl' & Em & Hrep' & Hlen'). rewrite Em. cbn [mbind option_bind].
    pose proof (rep_le _ _ _ Hr tok pl Hpl) as Hlen. rewrite <- Hlen' in Hlen. pose proof (rep_list n s a tok pl' (aclear al) Hr Hrep' Hlen) as Hr2. set (docs := local_docid <$> dropped al) in *.
    assert (rep n (with_docs (list_to_set docs ∪ doc_to_delete s) (with_index (<[tok := pl']> (index_ s)) s))
      (with_docs (list_to_set docs ∪ doc_to_delete a) (with_index (<[tok := aclear al]> (index_ a)) a))) as Hr3.
    { rewrite (rep_del _ _ _ Hr). destruct Hr2; by split. }
    destruct b; apply runs_as_same; (split; [exact Hr3|]); (split_and!; [done..|]);
      destruct (Hins (with_docs (list_to_set docs ∪ doc_to_delete s) (with_index (<[tok := pl']> (index_ s)) s)) tok pl' eq_refl) as [H1 H2];
      (split; [exact H1|]); cbn in *; intros t Htin; apply H2; set_solver.
  - destruct (decide (todo = ∅)); [|destruct b; by apply runs_as_same].
    assert (rep n (erase_docs s) (erase_docs a)) as Hr' by (destruct Hr as [Hi Hle Hat Hct Hcu Hto Hde]; split; cbn; rewrite ?Hat, ?Hct, ?Hcu, ?Hto, ?Hde; done).
    destruct b; apply runs_as_same; by split_and!.
Qed.

Lemma section_step_ok n life e s a : follows n s a -> (1 <= n)%nat -> Z.of_nat n + 1 < 2 ^ 31 -> runs_as (S n) (section_step life s e) (section_step life a e).
Proof. intros Hf Hn Hb. destruct e; first [by apply build_step|by apply clean_step]. Qed.

Lemma sections_ok life es : forall n s a, follows n s a -> (1 <= n)%nat -> Z.of_nat n + zlen es < 2 ^ 31 ->
  runs_as (n + length es) (sections life es s) (sections life es a).
Proof.
  induction es as [|e es IH]; intros n s a Hf Hn Hb; cbn [sections length].
  - exists s, a. by rewrite Nat.add_0_r.
  - rewrite zlen_cons in Hb. pose proof (zlen_nonneg es). destruct (section_step_ok n life e s a Hf Hn) as (s1 & a1 & -> & -> & H1); [lia|]. cbn [mbind option_bind].
    rewrite <- Nat.add_succ_comm. apply IH; [done|lia|lia].
Qed.

(** C1: the build thread and the cleaning thread, their critical sections interleaved as the locks
    allow and, inside of the sections that share the reader lock, list by list and keyword by
    keyword, run without a failing CHECK, a bad pointer or an unfinished loop, and do what the
    same steps do on plain lists of postings: at every moment iterating over a token returns the
    postings before its end mark, Size() counts them, and the attachments and counters are those
    of the plain index.  (Every step with one posting list is taken as a whole.) *)
Theorem index_refines_lists (life : Z) (es : list section_event) :
  zlen es < 2 ^ 31 - 1 ->
  exists (s : threads PostingList) (a : threads alist), sections life es threads0 = Some s /\ sections life es threads0 = Some a /\
    builder s = builder a /\ cleaner s = cleaner a /\
    (forall tok, read_token (index_state s) tok = visible <$> index_ (index_state a) !! tok) /\
    (forall tok pl, index_ (index_state s) !! tok = Some pl ->
       Size pl = (fun al => zlen (visible al)) <$> index_ (index_state a) !! tok) /\
    (forall id, TranslateToGlobalID (index_state s) id = att_ (index_state a) !! id) /\
    num_indexed_stories_total_ (index_state s) = num_indexed_stories_total_ (index_state a).
Proof.
  intros Hb. destruct (sections_ok life es 1 threads0 threads0) as (s & a & Hs & Ha & Hr & Hbu & Hcl & _); [|lia|lia|].
  { split; [exact State0_rep|]. by split_and!. }
  exists s, a. split_and!; try done.
  - intros tok. by eapply read_token_rep.
  - intros tok pl Hpl. pose proof (rep_index _ _ _ Hr tok) as Hi. rewrite Hpl in Hi.
    destruct Hi as (al & -> & Hal). by rewrite (Size_visible _ _ Hal).
  - intros id. unfold TranslateToGlobalID. by rewrite (rep_att _ _ _ Hr).
  - apply (rep_tot _ _ _ Hr).
Qed.

(** AddStoryInternal is what its sections do when nothing comes between them. *)
Lemma post_sections life (m' : gmap Z PostingList) id c : forall kws clk i s, add_postings clk i (index_ s) id kws = Some m' ->
  sections life ((fun i => PostKeyword (clk i)) <$> seq i (length kws)) (mkThreads s (BPost id kws) c) = Some (mkThreads (with_index m' s) (BPost id []) c).
Proof.
  induction kws as [|[tok w] kws IH]; intros clk i s H; cbn [add_postings length seq fmap list_fmap sections] in *.
  - injection H as <-. by destruct s.
  - cbn [section_step builder cleaner index_state mbind option_bind] in *. destruct (index_ s !! tok) as [pl|]; [|done]. cbn [mbind option_bind pl_post node_lists] in *.
    destruct (post pl id w (clk i)) as [pl'|]; [|done]. cbn [mbind option_bind] in *. by rewrite (IH clk (S i) (with_index (<[tok := pl']> (index_ s)) s)).
Qed.

Lemma add_story_sections life s s' req clk c : AddStoryInternal s req clk = Some s' -> cleaner_reads c = false ->
  sections life ([TakeStory req; DetectTokens; CreateLists] ++ ((fun i => PostKeyword (clk i)) <$> seq 0 (length (keywords req)))) (mkThreads s BWait c) =
    Some (mkThreads s' (BPost (local_docid_counter_ s) []) c).
Proof.
  intros H Hc. unfold AddStoryInternal in H. cbn [app sections section_step builder cleaner index_state mbind option_bind]. rewrite Hc. cbn [mbind option_bind].
  set (m := create_lists _ _) in H. destruct (add_postings clk 0 m _ _) as [m'|] eqn:Em; [|done]. cbn [mbind option_bind] in H. injection H as <-.
  by rewrite (post_sections life m' _ c (keywords req) clk 0).
Qed.
(** ** Histories in which a cleaning cycle is not interrupted

    [HAdd req now] adds a story within one second, [HClean now] is a whole cleaning cycle. *)

Inductive hist := HAdd (req : StoryAddingRequest) (now : Z) | HClean (now : Z).

Definition expand (h : hist) : list event :=
  match h with
  | HAdd req now => [EAdd req (fun _ => now)]
  | HClean now => [EMark now; EClear; EErase]
  end.

(** A story with its local id and the time it was added. *)
Record story := mkRec { rid : Z; rreq : StoryAddingRequest; rtime : Z }.

(** The stories a cleaning cycle keeps attached. *)
Definition stays (target : Z) (r : story) : Prop := target <= rtime r \/ keywords (rreq r) = [].

#[export] Instance stays_dec target r : Decision (stays target r).
Proof. unfold stays. apply _. Defined.

(** What the index should hold: the stories with live postings, those with an attachment, and
    the number of stories added. *)
Record ledger := mkLedger { live : list story; attached : list story; added : nat }.

Definition ledger_step (life : Z) (g : ledger) (h : hist) : ledger :=
  match h with
  | HAdd req now =>
    let r := mkRec (Z.of_nat (S (added g))) req now in
    mkLedger (r :: live g) (r :: attached g) (S (added g))
  | HClean now =>
    mkLedger (filter (fun r => now - life <= rtime r) (live g))
      (filter (stays (now - life)) (attached g)) (added g)
  end.

Definition ledger_of (life : Z) (hs : list hist) : ledger :=
  fold_left (ledger_step life) hs (mkLedger [] [] 0).

Fixpoint kw_weight (tok : Z) (kws : list (Z * Z)) : option Z :=
  match kws with
  | [] => None
  | (k, w) :: kws => if decide (k = tok) then Some w else kw_weight tok kws
  end.

(** The posting of a story for a token. *)
Definition posting_of (tok : Z) (r : story) : option Posting :=
  w ← kw_weight tok (keywords (rreq r)); Some (mkPosting (rid r) (float_of_int w) (rtime r)).

Definition postings (tok : Z) (rs : list story) : list Posting := omap (posting_of tok) rs.

Definition gid (r : story) : Z := swrap 64 (CityHash64 (story_id (rreq r))).

(** The clock does not run backwards and fits the 32-bit timestamp of a posting; the keywords
    of a story, a std::map, are distinct. *)
Fixpoint valid (t : Z) (hs : list hist) : Prop :=
  match hs with
  | [] => True
  | HAdd req now :: hs => t <= now < 2 ^ 31 /\ NoDup ((keywords req).*1) /\ valid now hs
  | HClean now :: hs => t <= now /\ valid now hs
  end.

Record ledger_inv (t : Z) (g : ledger) (a : StateOf alist) : Prop := {
  li_list : forall tok, from_option all_postings [] (index_ a !! tok) = postings tok (live g);
  li_mark : forall tok al, index_ a !! tok = Some al -> snd al = None;
  li_att : att_ a = list_to_map ((fun r => (rid r, gid r)) <$> attached g);
  li_nodup : NoDup (rid <$> attached g);
  li_ids : forall r, r ∈ attached g -> 1 <= rid r <= Z.of_nat (added g);
  li_live : forall r, r ∈ live g -> r ∈ attached g;
  li_attached : forall r, r ∈ attached g -> r ∈ live g \/ keywords (rreq r) = [];
  li_times : forall r, r ∈ live g -> 0 <= rtime r <= t /\ rtime r < 2 ^ 31;
  li_sorted : StronglySorted (fun r r' => rtime r' <= rtime r) (live g);
  li_ctr : local_docid_counter_ a = Z.of_nat (S (added g));
  li_cur : num_indexed_stories_current_ a = Z.of_nat (added g);
  li_tot : num_indexed_stories_total_ a = zlen (attached g);
  li_del : doc_to_delete a = ∅;
  li_len : (length (attached g) <= added g)%nat;
}.

Lemma aadd_postings_lookup now id kws : forall i m tok,
  NoDup (kws.*1) ->
  aadd_postings (fun _ => now) i m id kws !! tok =
  match kw_weight tok kws with
  | Some w => Some (apush (mkPosting id (float_of_int w) (swrap 32 now)) (default anil (m !! tok)))
  | None => m !! tok
  end.
Proof.
  induction kws as [|[k w] kws IH]; intros i m tok Hnd; cbn [aadd_postings kw_weight]; [done|].
  rewrite fmap_cons in Hnd. apply list.NoDup_cons in Hnd as [Hk Hnd]. cbn [fst] in Hk.
  rewrite IH by done. case_decide as He.
  - subst k. assert (Hn : kw_weight tok kws = None).
    { clear -Hk. induction kws as [|[k' w'] kws IH]; [done|]. simpl. case_decide; set_solver. }
    by rewrite Hn, lookup_insert_eq.
  - by rewrite lookup_insert_ne by done.
Qed.

Lemma kw_weight_None kws : (forall tok, kw_weight tok kws = None) -> kws = [].
Proof.
  destruct kws as [|[k w] kws]; [done|]. intros H. specialize (H k). simpl in H.
  by rewrite decide_True in H.
Qed.

Lemma posting_of_time tok r p : posting_of tok r = Some p -> timestamp p = rtime r.
Proof. unfold posting_of. destruct (kw_weight _ _); [|done]. by intros [= <-]. Qed.

Lemma postings_cons tok r rs :
  postings tok (r :: rs) =
  match posting_of tok r with Some p => p :: postings tok rs | None => postings tok rs end.
Proof. done. Qed.

(** On a list sorted by time the fresh postings are its prefix. *)
Lemma fresh_prefix target tok rs :
  StronglySorted (fun r r' => rtime r' <= rtime r) rs ->
  take (prefix_len (fresh target) (postings tok rs)) (postings tok rs) =
    postings tok (filter (fun r => target <= rtime r) rs) /\
  drop (prefix_len (fresh target) (postings tok rs)) (postings tok rs) =
    postings tok (filter (fun r => ~ target <= rtime r) rs).
Proof.
  induction 1 as [|r rs Hs IH Hall]; [done|].
  rewrite !filter_cons, postings_cons. destruct (decide (target <= rtime r)) as [Hle|Hgt].
  - rewrite (decide_False (P := ~ target <= rtime r)) by tauto. rewrite postings_cons.
    destruct (posting_of tok r) as [p|] eqn:Hp; [|done]. cbn [prefix_len]. unfold fresh at 1 3.
    rewrite (posting_of_time _ _ _ Hp). destruct (Z.leb_spec target (rtime r)); [|lia].
    simpl. by destruct IH as [-> ->].
  - rewrite (decide_True (P := ~ target <= rtime r)) by done. rewrite postings_cons.
    assert (Hnone : filter (fun r => target <= rtime r) rs = [] /\ filter (fun r => ~ target <= rtime r) rs = rs).
    { clear IH Hs. induction Hall as [|r' rs Hr' Hall IH]; [done|]. rewrite !filter_cons.
      rewrite decide_False by lia. rewrite decide_True by lia. by destruct IH as [-> ->]. }
    destruct Hnone as [Hf1 Hf2]. rewrite Hf1, Hf2 in *.
    destruct (posting_of tok r) as [p|] eqn:Hp; [|done]. cbn [prefix_len]. unfold fresh at 1 3.
    rewrite (posting_of_time _ _ _ Hp). destruct (Z.leb_spec target (rtime r)); [lia|done].
Qed.

Lemma elem_of_postings tok rs p :
  p ∈ postings tok rs <-> exists r, r ∈ rs /\ posting_of tok r = Some p.
Proof. unfold postings. by rewrite list_elem_of_omap. Qed.

Lemma posting_of_docid tok r p : posting_of tok r = Some p -> local_docid p = rid r.
Proof. unfold posting_of. destruct (kw_weight _ _); [|done]. by intros [= <-]. Qed.

Lemma kw_weight_exists kws : kws <> [] -> exists tok w, kw_weight tok kws = Some w.
Proof.
  destruct kws as [|[k w] kws]; [done|]. intros _. exists k, w. simpl. by rewrite decide_True.
Qed.

Lemma foldr_delete_lookup (ds : list Z) (m : gmap Z Z) k :
  foldr delete m ds !! k = if decide (k ∈ ds) then None else m !! k.
Proof.
  induction ds as [|d ds IH]; cbn [foldr]; [by rewrite decide_False by set_solver|].
  destruct (decide (k = d)) as [->|Hne].
  - rewrite lookup_delete_eq, decide_True by set_solver. done.
  - rewrite lookup_delete_ne, IH by done.
    destruct (decide (k ∈ ds)); [rewrite decide_True by set_solver|rewrite decide_False by set_solver]; done.
Qed.

Lemma set_fold_delete_lookup (D : gset Z) (m : gmap Z Z) k :
  set_fold delete m D !! k = if decide (k ∈ D) then None else m !! k.
Proof.
  unfold set_fold. cbn. rewrite foldr_delete_lookup.
  destruct (decide (k ∈ D)) as [H|H]; [rewrite decide_True|rewrite decide_False]; rewrite ?elem_of_elements; done.
Qed.

(** The attachments of a list of stories with distinct ids. *)
Definition att_map (rs : list story) : gmap Z Z := list_to_map ((fun r => (rid r, gid r)) <$> rs).

Lemma att_map_lookup rs k g :
  NoDup (rid <$> rs) -> att_map rs !! k = Some g <-> exists r, r ∈ rs /\ rid r = k /\ gid r = g.
Proof.
  intros Hnd. unfold att_map. rewrite <- elem_of_list_to_map.
  - rewrite list_elem_of_fmap. naive_solver.
  - rewrite <- list_fmap_compose. done.
Qed.

Lemma NoDup_filter_rid (P : story -> Prop) `{!forall r, Decision (P r)} rs :
  NoDup (rid <$> rs) -> NoDup (rid <$> filter P rs).
Proof.
  induction rs as [|r rs IH]; [done|]. rewrite fmap_cons, list.NoDup_cons. intros [Hr Hnd].
  rewrite filter_cons. case_decide; [|auto]. rewrite fmap_cons, list.NoDup_cons. split; [|auto].
  intros (r' & Hr' & [_ Hin]%list_elem_of_filter)%list_elem_of_fmap. apply Hr. rewrite Hr'.
  by apply list_elem_of_fmap_2.
Qed.

Lemma rid_inj rs r r' : NoDup (rid <$> rs) -> r ∈ rs -> r' ∈ rs -> rid r = rid r' -> r = r'.
Proof.
  intros Hnd (i & Hi)%list_elem_of_lookup (j & Hj)%list_elem_of_lookup He.
  assert (i = j) as ->; [|congruence].
  eapply NoDup_lookup; [exact Hnd|by rewrite list_lookup_fmap, Hi|rewrite list_lookup_fmap, Hj; cbn; by rewrite He].
Qed.

Lemma ledger_add_inv life t g a req now :
  ledger_inv t g a -> t <= now < 2 ^ 31 -> 0 <= t -> NoDup ((keywords req).*1) ->
  Z.of_nat (S (S (added g))) < 2 ^ 31 ->
  ledger_inv now (ledger_step life g (HAdd req now)) (astep life a (EAdd req (fun _ => now))).
Proof.
  intros [Hli Hma Hat Hnd Hid Hlv Hatt Hti Hso Hct Hcu Hto Hde Hlen] Hnow Ht Hkw Hb.
  assert (Hsw : swrap 32 now = now) by (apply swrap_id; unfold in_int; lia).
  set (r := mkRec (Z.of_nat (S (added g))) req now).
  assert (Hlook : forall tok, index_ (astep life a (EAdd req (fun _ => now))) !! tok =
    match kw_weight tok (keywords req) with
    | Some w => Some (apush (mkPosting (rid r) (float_of_int w) now) (default anil (index_ a !! tok)))
    | None => index_ a !! tok
    end).
  { intros tok. cbn [astep index_]. rewrite aadd_postings_lookup, Hct, Hsw by done. done. }
  split; cbn [ledger_step live attached added]; fold r.
  - intros tok. rewrite Hlook, postings_cons. unfold posting_of. cbn [rreq rid rtime r].
    destruct (kw_weight tok (keywords req)) as [w|]; cbn [mbind option_bind]; [|done].
    cbn [from_option apush fst all_postings]. f_equal. specialize (Hli tok). by destruct (index_ a !! tok).
  - intros tok al. rewrite Hlook. destruct (kw_weight tok (keywords req)) as [w|]; [|apply Hma].
    intros [= <-]. cbn [apush snd]. specialize (Hma tok).
    destruct (index_ a !! tok) as [al|]; cbn [default from_option id]; [by rewrite (Hma al)|done].
  - cbn [astep att_]. rewrite Hat, fmap_cons, Hct. done.
  - rewrite fmap_cons, list.NoDup_cons. split; [|done].
    intros (r' & Hr' & Hin)%list_elem_of_fmap. specialize (Hid _ Hin). cbn [rid r] in Hr'. lia.
  - intros r' [->|Hin]%elem_of_cons; [cbn [rid r]; lia|]. specialize (Hid _ Hin). lia.
  - intros r' [->|Hin]%elem_of_cons; [set_solver|]. apply elem_of_cons. auto.
  - intros r' [->|Hin]%elem_of_cons; [set_solver|]. destruct (Hatt _ Hin); [left; set_solver|by right].
  - intros r' [->|Hin]%elem_of_cons; [cbn [rtime r]; lia|]. specialize (Hti _ Hin). lia.
  - constructor; [done|]. apply Forall_forall. intros r' Hin%list_elem_of_In. specialize (Hti _ Hin).
    cbn [rtime r]. lia.
  - cbn [astep local_docid_counter_]. rewrite Hct, uwrap_id by (unfold in_uint; lia). lia.
  - cbn [astep num_indexed_stories_current_]. rewrite Hcu, swrap_id by (unfold in_int; lia). lia.
  - cbn [astep num_indexed_stories_total_]. unfold zlen in *.
    rewrite Hto, swrap_id by (unfold in_int; lia). cbn [length]. lia.
  - done.
  - cbn [length]. lia.
Qed.

(** What a cleaning cycle keeps and drops of one posting list. *)
Lemma clean_list t g a target tok al :
  ledger_inv t g a -> index_ a !! tok = Some al ->
  kept (amark target al) = postings tok (filter (fun r => target <= rtime r) (live g)) /\
  dropped (amark target al) = postings tok (filter (fun r => ~ target <= rtime r) (live g)).
Proof.
  intros Hi Hal. unfold kept, dropped, amark. cbn [fst snd].
  pose proof (li_list _ _ _ Hi tok) as Hli. rewrite Hal in Hli. cbn [from_option] in Hli.
  unfold all_postings in Hli. rewrite Hli. apply fresh_prefix, (li_sorted _ _ _ Hi).
Qed.

(** The documents collected by the clearing phase. *)
Lemma clean_docs t g a target :
  ledger_inv t g a ->
  adocs (amark target <$> index_ a) =
    list_to_set (rid <$> filter (fun r => ~ stays target r) (attached g)).
Proof.
  intros Hi. apply set_eq. intros d. unfold adocs.
  rewrite (elem_of_docs (fun al => local_docid <$> dropped al)).
  rewrite elem_of_list_to_set, list_elem_of_fmap. split.
  - intros (tok & al & Hal & Hd). rewrite lookup_fmap in Hal.
    destruct (index_ a !! tok) as [al0|] eqn:E; [|done]. injection Hal as <-.
    rewrite (proj2 (clean_list _ _ _ target _ _ Hi E)) in Hd.
    apply list_elem_of_fmap in Hd as (p & -> & (r & [Hr Hin]%list_elem_of_filter & Hp)%elem_of_postings).
    exists r. split; [by eapply posting_of_docid|]. apply list_elem_of_filter.
    split; [|by apply (li_live _ _ _ Hi)].
    intros [?|Hk]; [done|]. unfold posting_of in Hp. by rewrite Hk in Hp.
  - intros (r & -> & [HnP Hin]%list_elem_of_filter). unfold stays in HnP.
    destruct (li_attached _ _ _ Hi _ Hin) as [Hl|]; [|tauto].
    destruct (kw_weight_exists (keywords (rreq r))) as (tok & w & Hw); [tauto|].
    assert (Hp : posting_of tok r = Some (mkPosting (rid r) (float_of_int w) (rtime r)))
      by (unfold posting_of; by rewrite Hw).
    assert (Hpin : mkPosting (rid r) (float_of_int w) (rtime r) ∈ postings tok (live g))
      by (apply elem_of_postings; eauto).
    destruct (index_ a !! tok) as [al|] eqn:E.
    2:{ pose proof (li_list _ _ _ Hi tok) as Hli. rewrite E in Hli. cbn in Hli.
        rewrite <- Hli in Hpin. set_solver. }
    exists tok, (amark target al). rewrite lookup_fmap, E. split; [done|].
    rewrite (proj2 (clean_list _ _ _ target _ _ Hi E)). apply list_elem_of_fmap.
    exists (mkPosting (rid r) (float_of_int w) (rtime r)). split; [done|].
    apply elem_of_postings. exists r. split; [|exact Hp]. apply list_elem_of_filter. tauto.
Qed.

(** Erasing those documents leaves the attachments of the others. *)
Lemma clean_att t g a target :
  ledger_inv t g a ->
  set_fold delete (att_ a) (adocs (amark target <$> index_ a)) =
    att_map (filter (stays target) (attached g)).
Proof.
  intros Hi. pose proof (li_nodup _ _ _ Hi) as Hnd.
  apply map_eq. intros k. rewrite set_fold_delete_lookup, (li_att _ _ _ Hi). apply option_eq. intros gg.
  fold (att_map (attached g)).
  rewrite (att_map_lookup (filter _ _)) by (by apply NoDup_filter_rid).
  rewrite (clean_docs _ _ _ _ Hi). case_decide as Hk.
  - rewrite elem_of_list_to_set in Hk.
    apply list_elem_of_fmap in Hk as (r & -> & [HnP Hin]%list_elem_of_filter). split; [done|].
    intros (r' & [HP Hin']%list_elem_of_filter & Hid' & _).
    rewrite (rid_inj _ _ _ Hnd Hin' Hin Hid') in HP. done.
  - rewrite att_map_lookup by done. split.
    + intros (r & Hin & Hr & Hg). exists r. split; [|done]. apply list_elem_of_filter. split; [|done].
      destruct (decide (stays target r)) as [|HnP]; [done|]. destruct Hk.
      apply elem_of_list_to_set, list_elem_of_fmap. exists r. split; [done|]. by apply list_elem_of_filter.
    + intros (r & [_ Hin]%list_elem_of_filter & Hr & Hg). eauto.
Qed.

(** The state after the three phases of a cleaning cycle. *)
Lemma ledger_clean_inv life t g a now :
  ledger_inv t g a -> t <= now -> Z.of_nat (added g) < 2 ^ 31 ->
  ledger_inv now (ledger_step life g (HClean now))
    (astep life (astep life (astep life a (EMark now)) EClear) EErase).
Proof.
  intros Hi Hnow Hb. set (target := now - life).
  pose proof (fun tok al => clean_list t g a target tok al Hi) as Hlook.
  pose proof (clean_docs t g a target Hi) as HD. pose proof (clean_att t g a target Hi) as HA.
  destruct Hi as [Hli Hma Hat Hnd Hid Hlv Hatt Hti Hso Hct Hcu Hto Hde Hlen].
  pose proof (NoDup_filter_rid (fun r => ~ stays target r) _ Hnd) as HndN.
  pose proof (NoDup_filter_rid (stays target) _ Hnd) as HndP.
  assert (Hsz : zlen (attached g) = zlen (filter (stays target) (attached g))
    + Z.of_nat (size (adocs (amark target <$> index_ a)))).
  { rewrite HD, size_list_to_set, length_fmap by done. unfold zlen.
    rewrite <- (Permutation_length (filter_app_complement (stays target) (attached g))), length_app. lia. }
  split; cbn [ledger_step live attached added astep index_ att_ local_docid_counter_
    num_indexed_stories_current_ num_indexed_stories_total_ doc_to_delete]; try done; fold target.
  - intros tok. rewrite !lookup_fmap. specialize (Hli tok). specialize (Hlook tok).
    destruct (index_ a !! tok) as [al|]; cbn [fmap option_fmap option_map from_option].
    + cbn [aclear fst all_postings]. by apply Hlook.
    + cbn [from_option] in Hli. destruct (fresh_prefix target tok (live g) Hso) as [H1 _].
      rewrite <- H1, <- Hli. done.
  - intros tok al. rewrite !lookup_fmap. destruct (index_ a !! tok); [|done]. by intros [= <-].
  - intros r [_ Hin]%list_elem_of_filter. auto.
  - intros r [Hr Hin]%list_elem_of_filter. apply list_elem_of_filter. split; [by left|auto].
  - intros r [HP Hin]%list_elem_of_filter. destruct (Hatt _ Hin); [|by right].
    destruct HP; [left|by right]. by apply list_elem_of_filter.
  - intros r [_ Hin]%list_elem_of_filter. specialize (Hti _ Hin). lia.
  - clear -Hso. induction Hso as [|r rs Hs IH Hall]; [constructor|]. rewrite filter_cons.
    case_decide; [|done]. constructor; [done|]. apply Forall_forall. intros r' Hin%list_elem_of_In.
    apply list_elem_of_filter in Hin as [_ Hin]. eapply Forall_forall in Hall; [exact Hall|].
    by apply list_elem_of_In.
  - rewrite Hto. unfold zlen in *. rewrite swrap_id; [lia..|]. unfold in_int. lia.
  - unfold zlen in *. lia.
Qed.

Lemma arun_ledger life hs : forall t g a,
  ledger_inv t g a -> 0 <= t -> valid t hs -> Z.of_nat (added g) + zlen hs < 2 ^ 31 - 1 ->
  exists t', ledger_inv t' (fold_left (ledger_step life) hs g)
    (arun life a (concat (expand <$> hs))).
Proof.
  induction hs as [|h hs IH]; intros t g a Hi Ht Hv Hb; cbn [fold_left]; [by exists t|].
  rewrite zlen_cons in Hb. pose proof (zlen_nonneg hs).
  rewrite fmap_cons. cbn [concat]. unfold arun. rewrite fold_left_app.
  destruct h as [req now|now]; cbn [valid expand fold_left] in *.
  - destruct Hv as (Hnow & Hkw & Hv). apply (IH now); [|lia|done|cbn [ledger_step added]; lia].
    apply (ledger_add_inv life t); [done|done|done|done|lia].
  - destruct Hv as (Hnow & Hv). apply (IH now); [|lia|done|cbn [ledger_step added]; lia].
    apply (ledger_clean_inv life t); [done|done|lia].
Qed.

Lemma ledger_inv0 : ledger_inv 0 (mkLedger [] [] 0) State0.
Proof.
  split; cbn; try done; try set_solver; try constructor.
Qed.

Lemma valid_adds_ok hs : forall t, valid t hs -> adds_ok (concat (expand <$> hs)).
Proof.
  induction hs as [|h hs IH]; intros t Hv req clk Hin; [set_solver|].
  rewrite fmap_cons in Hin. cbn [concat] in Hin. destruct h as [req' now|now]; cbn [valid expand app] in *.
  - destruct Hv as (_ & Hkw & Hv). apply elem_of_cons in Hin as [[= -> _]|Hin]; [done|]. by eapply IH.
  - destruct Hv as (_ & Hv). apply (IH now Hv req clk). set_solver.
Qed.

Lemma expand_length hs : zlen (concat (expand <$> hs)) <= 3 * zlen hs.
Proof.
  induction hs as [|h hs IH]; [done|]. rewrite fmap_cons. cbn [concat]. rewrite zlen_app, zlen_cons.
  destruct h; cbn [expand]; repeat rewrite zlen_cons; rewrite zlen_nil; lia.
Qed.

(** C2: when each story is posted within one second of the clock (see
    [clock_tick_dangling_posting]) and neither an addition nor a cleaning cycle is interrupted by
    the other thread (see [add_during_cleaning_lost]), the index holds what the life time of a
    document promises.  For every token an iterator returns, newest first, one posting (id,
    weight, time) for each story that has the keyword and was not older than doc_life_time at any
    cleaning since; the attachments are those of these stories (each translates to the CityHash64
    of its story id) and of the stories without keywords, which are never cleaned; the counter
    named "total" is the number of attachments, and the one named "current" the number of stories
    ever added. *)
Theorem index_history (life : Z) (hs : list hist) :
  valid 0 hs -> zlen hs < 2 ^ 29 ->
  exists s, run life State0 (concat (expand <$> hs)) = Some s /\
    let g := ledger_of life hs in
    (forall tok, default [] (read_token s tok) = postings tok (live g)) /\
    (forall r, r ∈ live g -> TranslateToGlobalID s (rid r) = Some (gid r)) /\
    (forall id v, TranslateToGlobalID s id = Some v <->
       exists r, r ∈ attached g /\ rid r = id /\ gid r = v) /\
    (forall r, r ∈ attached g -> r ∈ live g \/ keywords (rreq r) = []) /\
    num_indexed_stories_total_ s = zlen (attached g) /\
    num_indexed_stories_current_ s = Z.of_nat (added g).
Proof.
  intros Hv Hb. pose proof (expand_length hs) as Hlen. pose proof (zlen_nonneg hs).
  destruct (run_State0 life (concat (expand <$> hs))) as (s & Hrun & Hr);
    [lia|by eapply valid_adds_ok|].
  destruct (arun_ledger life hs 0 _ _ ledger_inv0) as (t' & Hi); [lia|done|cbn [added]; lia|].
  fold (ledger_of life hs) in Hi. exists s. split; [done|]. cbv zeta.
  assert (Hatt : forall id v, TranslateToGlobalID s id = Some v <->
    exists r, r ∈ attached (ledger_of life hs) /\ rid r = id /\ gid r = v).
  { intros id v. unfold TranslateToGlobalID. rewrite (rep_att _ _ _ Hr), (li_att _ _ _ Hi).
    apply att_map_lookup, (li_nodup _ _ _ Hi). }
  split_and!.
  - intros tok. rewrite (read_token_rep _ _ _ tok Hr), <- (li_list _ _ _ Hi tok).
    pose proof (li_mark _ _ _ Hi tok) as Hm. destruct (index_ _ !! tok) as [al|]; [|done].
    cbn. unfold visible, kept. by rewrite (Hm al).
  - intros r Hin. apply Hatt. exists r. split; [|done]. by apply (li_live _ _ _ Hi).
  - done.
  - apply (li_attached _ _ _ Hi).
  - rewrite (rep_tot _ _ _ Hr). apply (li_tot _ _ _ Hi).
  - rewrite (rep_cur _ _ _ Hr). apply (li_cur _ _ _ Hi).
Qed.

End Index.

Arguments mkThreads {L}.
Arguments index_state {L}.
Arguments builder {L}.
Arguments cleaner {L}.

(** ** Evaluations *)

Definition demo_hash (s : list Z) : Z := zlen s.
Definition demo_story (n : Z) (kws : list (Z * Z)) : StoryAddingRequest := mkStory [n] kws.

(** Two stories; the second is posted while the cleaning thread marks and clears. *)
Definition demo_sections : list section_event :=
  [TakeStory (demo_story 1 [(7, 10); (8, 1)]); DetectTokens; CreateLists; PostKeyword 5; PostKeyword 5; PostKeyword 5;
   TakeStory (demo_story 2 [(7, 20); (8, 2); (9, 3)]); DetectTokens; StartMark 5000; MarkOne 7; CreateLists; MarkOne 8; CreateLists;
   PostKeyword 5001; StartClear; ClearOne 8; PostKeyword 5002; ClearOne 7; PostKeyword 5003; ClearOne 9; EraseDocs; PostKeyword 5004].

Lemma index_refines_lists_witness : exists s : threads PostingList,
  sections demo_hash 3660 demo_sections threads0 = Some s /\ builder s = BWait /\ cleaner s = CWait /\
  read_token (index_state s) 7 = Some [] /\ read_token (index_state s) 8 = Some [mkPosting 2 (float_of_int 2) 5002].
Proof.
  destruct (index_refines_lists demo_hash 3660 demo_sections) as (s & a & Hs & Ha & Hb & Hc & Ht & _); [vm_compute; reflexivity|].
  assert (a = default threads0 (sections demo_hash 3660 demo_sections threads0)) as -> by (rewrite Ha; reflexivity).
  exists s. split; [exact Hs|]. split; [rewrite Hb; vm_compute; reflexivity|]. split; [rewrite Hc; vm_compute; reflexivity|].
  split; [rewrite (Ht 7)|rewrite (Ht 8)]; vm_compute; reflexivity.
Defined.

Lemma index_history_witness :
  exists s, run demo_hash 3660 State0 (concat (expand <$>
    [HAdd (demo_story 1 [(7, 10)]) 5; HAdd (demo_story 2 [(7, 20); (8, 1)]) 4000; HClean 5000])) = Some s /\
    default [] (read_token s 7) = [mkPosting 2 (float_of_int 20) 4000].
Proof.
  destruct (index_history demo_hash 3660
    [HAdd (demo_story 1 [(7, 10)]) 5; HAdd (demo_story 2 [(7, 20); (8, 1)]) 4000; HClean 5000])
    as (s & Hr & Ht & _).
  - cbn. repeat split; try lia; repeat (apply list.NoDup_cons; split; [set_solver|]); constructor.
  - vm_compute. reflexivity.
  - exists s. split; [exact Hr|]. rewrite (Ht 7). vm_compute. reflexivity.
Defined.

(** A story that is added between the marking and the clearing of a cycle disappears when
    its token had only old postings: the end mark is then at the fake front, and clearing
    erases everything behind it, the new posting and the attachment of the new story
    included. *)
Theorem add_during_cleaning_lost :
  exists s, run demo_hash 3660 State0
    [EAdd (demo_story 1 [(7, 10)]) (fun _ => 5);
     EMark 5000;
     EAdd (demo_story 2 [(7, 20)]) (fun _ => 5005);
     EClear; EErase] = Some s /\
    read_token s 7 = Some [] /\ TranslateToGlobalID s 2 = None.
Proof. eexists. split; [vm_compute; reflexivity|]. split; vm_compute; reflexivity. Qed.

(** The clock is read once per keyword, so the postings of one story can have different
    timestamps; a cleaning cycle whose target time is between them erases the attachment of
    the story while one of its postings stays in the index. *)
Theorem clock_tick_dangling_posting :
  exists s, run demo_hash 3660 State0
    [EAdd (demo_story 1 [(7, 10); (8, 20)]) (fun i => if (i =? 0)%nat then 100 else 101);
     EMark (101 + 3660); EClear; EErase] = Some s /\
    read_token s 8 = Some [mkPosting 1 (float_of_int 20) 101] /\ TranslateToGlobalID s 1 = None.
Proof. eexists. split; [vm_compute; reflexivity|]. split; vm_compute; reflexivity. Qed.

End InvertedIndex.
