(* ===== verification/RedisCluster.v ===== *)
(** * redis_cluster: consistent hashing over the Redis servers

    Model of [src/src/redis_cluster.h] and [src/src/redis_cluster.cc].  [HashRing::ring_], a
    [std::map<uint32, Node>], is a finite map with [lower_bound] and [begin]; the hash
    (CityHash32, a library) is a parameter about which nothing is assumed.  The clients
    (redispp.h) are an interface whose calls read and change a world [W]; every call is
    recorded in a trace together with the operations on the mutex of the server pair.

    The theorems: adding a server moves keys only to that server, removing it moves only the
    keys it served, removing what was added restores the ring; GetRedisNode holds and releases
    the mutex of the right pair on every path and reports the first client that answers. *)

From Stdlib Require Import ZArith Lia.
From stdpp Require Import prelude list gmap fin_maps strings numbers.
From S2P Require Import Prelude.
From S2P Require Import Util.

Local Open Scope Z_scope.

Module RedisCluster.

(** [c_str()]: the bytes before the first NUL. *)
Fixpoint c_str (s : list Z) : list Z :=
  match s with
  | [] => []
  | c :: s => if c =? 0 then [] else c :: c_str s
  end.

(** HashRing::ToString: [snprintf] of [%u] into 10 bytes keeps 9 characters. *)
Definition ToString (r : Z) : list Z := take 9 (Util.ll2string_chars r).

Record Node := mkNode { node_name : list Z; replicas : Z }.

#[export] Instance Node_eq_dec : EqDecision Node.
Proof. solve_decision. Defined.

(** The value [ring_[hash]] creates for an absent key. *)
Definition Node0 : Node := mkNode [] 0.

Abbreviation NodeMap := (gmap Z Node).

(** The least of a list of keys. *)
Definition least (ks : list Z) : option Z :=
  match ks with [] => None | k :: ks => Some (foldr Z.min k ks) end.

Definition keys (m : NodeMap) : list Z := fst <$> map_to_list m.

(** [std::map::begin] and [std::map::lower_bound]; [None] is [end()]. *)
Definition map_begin (m : NodeMap) : option Z := least (keys m).
Definition lower_bound (m : NodeMap) (h : Z) : option Z :=
  least (filter (fun k => h <= k) (keys m)).

Section HashRing.
Context (hash_ : list Z -> Z).

Definition replica_hash (name : list Z) (r : Z) : Z := hash_ (c_str (name ++ ToString r)).

(** The loop of AddNode for the replicas [r, r+1, ...]; the last hash is the result. *)
Fixpoint AddNode_loop (n : nat) (r : Z) (ring : NodeMap) (name : list Z) (reps : Z)
    (hash : option Z) : NodeMap * option Z :=
  match n with
  | O => (ring, hash)
  | S n =>
    let h := replica_hash name r in
    AddNode_loop n (r + 1) (<[h := mkNode name reps]> ring) name reps (Some h)
  end.

(** The result is indeterminate ([None]) without replicas. *)
Definition AddNode (ring : NodeMap) (name : list Z) (reps : Z) : NodeMap * option Z :=
  AddNode_loop (Z.to_nat reps) 0 ring name reps None.

Fixpoint RemoveNode_loop (n : nat) (r : Z) (ring : NodeMap) (name : list Z) : NodeMap :=
  match n with
  | O => ring
  | S n => RemoveNode_loop n (r + 1) (delete (replica_hash name r) ring) name
  end.

(** [ring_[hash].replicas] creates the entry when it is absent. *)
Definition RemoveNode (ring : NodeMap) (name : list Z) : NodeMap :=
  let hash := replica_hash name 0 in
  let ring := match ring !! hash with Some _ => ring | None => <[hash := Node0]> ring end in
  let reps := from_option replicas 0 (ring !! hash) in
  RemoveNode_loop (Z.to_nat reps) 0 ring name.

(** [None]: [begin()] of an empty ring is dereferenced. *)
Definition GetNode (ring : NodeMap) (key : list Z) : option (list Z) :=
  let hash := hash_ (c_str key) in
  it ← match lower_bound ring hash with
       | Some k => Some k
       | None => map_begin ring
       end;
  node_name <$> ring !! it.

(** ** Lemmas on the ordered map *)

Lemma least_spec ks k :
  least ks = Some k <-> k ∈ ks /\ (forall k', k' ∈ ks -> k <= k').
Proof.
  destruct ks as [|x ks]; simpl; [set_solver|].
  assert (Hm : foldr Z.min x ks ∈ x :: ks /\ forall k', k' ∈ x :: ks -> foldr Z.min x ks <= k').
  { induction ks as [|y ks [IH1 IH2]]; cbn [foldr].
    { split; [set_solver|]. intros k' ->%list_elem_of_singleton. lia. }
    split.
    - destruct (Z.min_dec y (foldr Z.min x ks)) as [->| ->]; set_solver.
    - intros k' Hk'. destruct (decide (k' = y)) as [->|]; [lia|].
      assert (Hin : k' ∈ x :: ks) by set_solver. specialize (IH2 k' Hin). lia. }
  destruct Hm as [H1 H2]. split; [intros [= <-]; done|]. intros [H3 H4].
  f_equal. specialize (H2 _ H3). specialize (H4 _ H1). lia.
Qed.

Lemma least_None ks : least ks = None <-> ks = [].
Proof. by destruct ks. Qed.

Lemma elem_of_keys (m : NodeMap) k : k ∈ keys m <-> is_Some (m !! k).
Proof.
  unfold keys. rewrite list_elem_of_fmap. split.
  - intros ([k' v] & -> & H%elem_of_map_to_list). eauto.
  - intros [v H%elem_of_map_to_list]. by exists (k, v).
Qed.

(** [k] is the point of the ring that serves the hash [h]. *)
Definition serves (m : NodeMap) (h k : Z) : Prop :=
  is_Some (m !! k) /\
  ((h <= k /\ forall k', is_Some (m !! k') -> h <= k' -> k <= k') \/
   (forall k', is_Some (m !! k') -> k' < h /\ k <= k')).

Definition point (m : NodeMap) (h : Z) : option Z :=
  match lower_bound m h with Some k => Some k | None => map_begin m end.

Lemma point_serves m h k : point m h = Some k <-> serves m h k.
Proof.
  unfold point, serves, map_begin. destruct (lower_bound m h) as [k1|] eqn:Hl.
  - apply least_spec in Hl as [H1 H2]. setoid_rewrite list_elem_of_filter in H2.
    apply list_elem_of_filter in H1 as [H1 H1'%elem_of_keys]. setoid_rewrite elem_of_keys in H2.
    split.
    + intros [= <-]. split; [done|]. left. split; [done|]. auto.
    + intros [Hk [[Hh Hmin]|Hmin]].
      * f_equal. specialize (Hmin _ H1' H1). specialize (H2 k (conj Hh Hk)). lia.
      * specialize (Hmin _ H1'). lia.
  - apply least_None in Hl.
    assert (Hlt : forall k', is_Some (m !! k') -> k' < h).
    { intros k' Hk'%elem_of_keys. destruct (decide (h <= k')) as [Hle|]; [|lia].
      assert (Hin : k' ∈ filter (fun k => h <= k) (keys m)) by (by apply list_elem_of_filter).
      rewrite Hl in Hin. set_solver. }
    rewrite least_spec. setoid_rewrite elem_of_keys. split.
    + intros [Hk Hmin]. split; [done|]. right. auto.
    + intros [Hk [[Hh Hmin]|Hmin]]; [specialize (Hlt _ Hk); lia|]. split; [done|]. naive_solver.
Qed.

Lemma point_nonempty m h : m <> ∅ -> is_Some (point m h).
Proof.
  intros Hne. unfold point. destruct (lower_bound m h); [eauto|]. unfold map_begin, keys.
  destruct (map_to_list m) as [|p l] eqn:E; [|simpl; eauto].
  by apply map_to_list_empty_iff in E.
Qed.

Lemma GetNode_point m key :
  GetNode m key = (k ← point m (hash_ (c_str key)); node_name <$> m !! k).
Proof. done. Qed.

(** The map after points were added: the serving point is unchanged or a new one. *)
Lemma point_grow m m' h k k' :
  (forall j, is_Some (m !! j) -> is_Some (m' !! j)) ->
  point m h = Some k -> point m' h = Some k' -> k' = k \/ m !! k' = None.
Proof.
  rewrite !point_serves. intros Hsub [Hk Hs] [Hk' Hs'].
  destruct (m !! k') as [v|] eqn:Hv; [left|by right].
  destruct Hs as [[Hh Hs]|Hs], Hs' as [[Hh' Hs']|Hs'].
  - specialize (Hs k' ltac:(eauto) Hh'). specialize (Hs' k (Hsub _ Hk) Hh). lia.
  - specialize (Hs' k (Hsub _ Hk)). lia.
  - specialize (Hs k' ltac:(eauto)). lia.
  - specialize (Hs k' ltac:(eauto)). specialize (Hs' k (Hsub _ Hk)). lia.
Qed.

(** ** AddNode and RemoveNode *)

(** The points of the replicas [r .. r+n-1] of a node. *)
Definition points (name : list Z) (r n : Z) : list Z := replica_hash name <$> seqZ r n.

Lemma points_cons name r n :
  0 <= n -> points name r (n + 1) = replica_hash name r :: points name (r + 1) n.
Proof.
  intros Hn. unfold points. rewrite seqZ_cons by lia. rewrite fmap_cons.
  replace (Z.pred (n + 1)) with n by lia. by replace (Z.succ r) with (r + 1) by lia.
Qed.

Lemma AddNode_loop_lookup n : forall r ring name reps hash j,
  fst (AddNode_loop n r ring name reps hash) !! j =
  if decide (j ∈ points name r (Z.of_nat n)) then Some (mkNode name reps) else ring !! j.
Proof.
  induction n as [|n IH]; intros r ring name reps hash j; cbn [AddNode_loop].
  - rewrite decide_False by (unfold points; set_solver). done.
  - rewrite IH. replace (Z.of_nat (S n)) with (Z.of_nat n + 1) by lia.
    rewrite points_cons by lia. destruct (decide (j ∈ points name (r + 1) (Z.of_nat n))).
    + rewrite decide_True by set_solver. done.
    + destruct (decide (j = replica_hash name r)) as [->|].
      * rewrite decide_True by set_solver. by rewrite lookup_insert_eq.
      * rewrite decide_False by set_solver. rewrite lookup_insert_ne by done. done.
Qed.

Lemma RemoveNode_loop_lookup n : forall r ring name j,
  RemoveNode_loop n r ring name !! j =
  if decide (j ∈ points name r (Z.of_nat n)) then None else ring !! j.
Proof.
  induction n as [|n IH]; intros r ring name j; cbn [RemoveNode_loop].
  - rewrite decide_False by (unfold points; set_solver). done.
  - rewrite IH. replace (Z.of_nat (S n)) with (Z.of_nat n + 1) by lia.
    rewrite points_cons by lia. destruct (decide (j ∈ points name (r + 1) (Z.of_nat n))).
    + rewrite decide_True by set_solver. done.
    + destruct (decide (j = replica_hash name r)) as [->|].
      * rewrite decide_True by set_solver. by rewrite lookup_delete_eq.
      * rewrite decide_False by set_solver. rewrite lookup_delete_ne by done. done.
Qed.

Lemma AddNode_lookup ring name reps j :
  0 <= reps ->
  fst (AddNode ring name reps) !! j =
  if decide (j ∈ points name 0 reps) then Some (mkNode name reps) else ring !! j.
Proof. intros H. unfold AddNode. rewrite AddNode_loop_lookup, Z2Nat.id by lia. done. Qed.

(** The node [name] with [reps] replicas is on the ring, with all its points. *)
Definition on_ring (ring : NodeMap) (name : list Z) (reps : Z) : Prop :=
  0 < reps /\ forall j, j ∈ points name 0 reps -> ring !! j = Some (mkNode name reps).

Lemma points_0 name reps : 0 < reps -> replica_hash name 0 ∈ points name 0 reps.
Proof.
  intros H. replace reps with (reps - 1 + 1) by lia. rewrite points_cons by lia. set_solver.
Qed.

Lemma RemoveNode_lookup ring name reps j :
  on_ring ring name reps ->
  RemoveNode ring name !! j = if decide (j ∈ points name 0 reps) then None else ring !! j.
Proof.
  intros [Hr Hon]. unfold RemoveNode. rewrite (Hon _ (points_0 _ _ Hr)).
  cbn [from_option replicas]. rewrite (Hon _ (points_0 _ _ Hr)). cbn [from_option replicas].
  rewrite RemoveNode_loop_lookup, Z2Nat.id by lia. done.
Qed.

(** GetNode on a non-empty ring returns the name of the first point at or behind the
    key's hash, wrapping around to the lowest point. *)
Theorem GetNode_successor ring key :
  ring <> ∅ ->
  exists k nd, GetNode ring key = Some (node_name nd) /\ ring !! k = Some nd /\
    let h := hash_ (c_str key) in
    (h <= k /\ (forall k', is_Some (ring !! k') -> h <= k' -> k <= k')) \/
    (forall k', is_Some (ring !! k') -> k' < h /\ k <= k').
Proof.
  intros Hne. destruct (point_nonempty ring (hash_ (c_str key)) Hne) as [k Hk].
  pose proof Hk as [[nd Hnd] Hs]%point_serves. exists k, nd.
  rewrite GetNode_point, Hk. cbn [mbind option_bind]. rewrite Hnd. auto.
Qed.

Lemma GetNode_grow ring ring' key v name :
  (forall j, is_Some (ring !! j) -> is_Some (ring' !! j)) ->
  (forall j nd, ring' !! j = Some nd -> ring !! j = Some nd \/ node_name nd = name) ->
  GetNode ring key = Some v ->
  GetNode ring' key = Some v \/ GetNode ring' key = Some name.
Proof.
  intros Hsub Hnew. rewrite !GetNode_point. intros Hg.
  destruct (point ring _) as [k|] eqn:Hk; [|done]. cbn [mbind option_bind] in Hg.
  destruct (ring !! k) as [nd|] eqn:Hnd; [|done]. injection Hg as <-.
  assert (Hne : ring' <> ∅).
  { intros ->. destruct (Hsub k) as [? H]; [eauto|]. by rewrite lookup_empty in H. }
  destruct (point_nonempty ring' (hash_ (c_str key)) Hne) as [k' Hk']. rewrite Hk'.
  cbn [mbind option_bind]. pose proof Hk' as [[nd' Hnd'] _]%point_serves. rewrite Hnd'.
  destruct (Hnew _ _ Hnd') as [H|H]; [|right; cbn; by rewrite H].
  destruct (point_grow _ _ _ _ _ Hsub Hk Hk') as [->|H0]; [left; cbn; congruence|congruence].
Qed.

(** Adding a server to the ring moves keys only to the new server: every key keeps its
    server or is served by the added one. *)
Theorem AddNode_monotone ring name reps key v :
  0 <= reps -> GetNode ring key = Some v ->
  GetNode (fst (AddNode ring name reps)) key = Some v \/
  GetNode (fst (AddNode ring name reps)) key = Some name.
Proof.
  intros Hr. apply GetNode_grow.
  - intros j Hj. rewrite AddNode_lookup by done. case_decide; eauto.
  - intros j nd. rewrite AddNode_lookup by done. case_decide; [|auto]. intros [= <-]. auto.
Qed.

(** C5: removing a server that is on the ring moves only the keys it served: a key served by
    another server keeps it; and no point of the removed server stays. *)
Theorem RemoveNode_minimal ring name reps key v :
  on_ring ring name reps -> GetNode ring key = Some v -> v <> name ->
  GetNode (RemoveNode ring name) key = Some v /\
  (forall j, j ∈ points name 0 reps -> RemoveNode ring name !! j = None).
Proof.
  intros Hon Hg Hne. split.
  2:{ intros j Hj. erewrite RemoveNode_lookup by done. by rewrite decide_True. }
  rewrite !GetNode_point in *. destruct (point ring _) as [k|] eqn:Hk; [|done].
  cbn [mbind option_bind] in Hg. destruct (ring !! k) as [nd|] eqn:Hnd; [|done].
  injection Hg as <-. assert (Hkn : k ∉ points name 0 reps).
  { intros Hin. rewrite (proj2 Hon _ Hin) in Hnd. injection Hnd as <-. done. }
  assert (Hk' : point (RemoveNode ring name) (hash_ (c_str key)) = Some k).
  { apply point_serves in Hk as [Hk Hs]. apply point_serves. split.
    - erewrite RemoveNode_lookup by done. rewrite decide_False by done. done.
    - assert (Hsub : forall j, is_Some (RemoveNode ring name !! j) -> is_Some (ring !! j)).
      { intros j [x Hj]. erewrite RemoveNode_lookup in Hj by done. case_decide; [done|eauto]. }
      destruct Hs as [[Hh Hs]|Hs]; [left|right]; eauto. }
  rewrite Hk'. cbn [mbind option_bind]. erewrite RemoveNode_lookup by done.
  rewrite decide_False by done. by rewrite Hnd.
Qed.

(** RemoveNode undoes AddNode when the points of the added server were free. *)
Theorem RemoveNode_AddNode ring name reps :
  0 < reps -> (forall j, j ∈ points name 0 reps -> ring !! j = None) ->
  RemoveNode (fst (AddNode ring name reps)) name = ring.
Proof.
  intros Hr Hfree. apply map_eq. intros j.
  rewrite (RemoveNode_lookup _ _ reps).
  - rewrite AddNode_lookup by lia. case_decide; [|done]. by rewrite Hfree.
  - split; [done|]. intros i Hi. rewrite AddNode_lookup by lia. by rewrite decide_True.
Qed.

(** RemoveNode of a server that has no point on the ring does not leave the ring as it
    was: [ring_[hash].replicas] adds a point with an empty server name, to which GetNode then
    sends keys. *)
Theorem RemoveNode_unknown ring name key :
  ring !! replica_hash name 0 = None -> hash_ (c_str key) = replica_hash name 0 ->
  RemoveNode ring name = <[replica_hash name 0 := Node0]> ring /\
  GetNode (RemoveNode ring name) key = Some [].
Proof.
  intros Hn Hk. assert (HR : RemoveNode ring name = <[replica_hash name 0 := Node0]> ring).
  { unfold RemoveNode. rewrite Hn, lookup_insert_eq. done. }
  split; [done|]. rewrite HR, GetNode_point.
  assert (Hp : point (<[replica_hash name 0 := Node0]> ring) (hash_ (c_str key)) = Some (replica_hash name 0)).
  { apply point_serves. split; [by rewrite lookup_insert_eq|]. left. rewrite Hk. split; [lia|]. auto. }
  rewrite Hp. cbn [mbind option_bind]. by rewrite lookup_insert_eq.
Qed.

End HashRing.
(** ** The cluster of server pairs *)

(** What the cluster uses of redis::Client; a call may change the world. *)
Class RedisClient (W Client : Type) := {
  NewClient : list Z -> Z -> Client;        (* host, port *)
  Connect : Client -> W -> bool * W;
  Ping : Client -> W -> bool * W;
  Reconnect : Client -> W -> bool * W;
}.

Section Cluster.
Context {W Client : Type} `{!RedisClient W Client}.
Context (hash_ : list Z -> Z).
(** boost::lexical_cast<int> and <unsigned int>; [None] is bad_lexical_cast. *)
Context (lexical_cast_int lexical_cast_uint : list Z -> option Z).

Record RedisPair := mkPair { master : option Client; slave : option Client }.
Definition RedisPair0 : RedisPair := mkPair None None.

Record Cluster := mkCluster {
  is_open_slave_ : Z;
  hash_ring_ : NodeMap;
  servers_ : gmap (list Z) RedisPair;
}.

Inductive event :=
  | ELock (node : list Z)
  | EUnlock (node : list Z)
  | EPing (c : Client) (ok : bool)
  | EReconnect (c : Client) (ok : bool)
  | EConnect (c : Client) (ok : bool).

(** Computations over the world that record events; [None] is a NULL dereference or the use
    of an iterator past its end. *)
Definition IO (A : Type) : Type := W -> option (A * W * list event).
Definition io_ret {A} (a : A) : IO A := fun w => Some (a, w, []).
Definition io_bind {A B} (m : IO A) (f : A -> IO B) : IO B := fun w =>
  match m w with
  | None => None
  | Some (a, w, e) =>
    match f a w with None => None | Some (b, w, e') => Some (b, w, e ++ e') end
  end.
Definition io_emit (e : event) : IO unit := fun w => Some (tt, w, [e]).
Definition io_fault {A} : IO A := fun _ => None.

Notation "'let*' x := m 'in' k" := (io_bind m (fun x => k))
  (at level 200, x pattern, m at level 100, k at level 200).

Definition call (f : Client -> W -> bool * W) (ev : Client -> bool -> event)
    (c : option Client) : IO bool :=
  match c with
  | None => io_fault
  | Some c => fun w => let '(b, w) := f c w in Some (b, w, [ev c b])
  end.

Definition from_opt {A} (o : option A) : IO A :=
  match o with Some a => io_ret a | None => io_fault end.

(** [servers_[node_name]] *)
Definition server (cl : Cluster) (n : list Z) : RedisPair :=
  from_option id RedisPair0 (servers_ cl !! n).
Definition set_server (cl : Cluster) (n : list Z) (p : RedisPair) : Cluster :=
  mkCluster (is_open_slave_ cl) (hash_ring_ cl) (<[n := p]> (servers_ cl)).

(** GetRedisNode(key, client, mutex): the result, the client and the node whose mutex is
    returned. *)
Definition GetRedisNode (cl : Cluster) (key : list Z)
    : IO (bool * option Client * list Z * Cluster) :=
  let* node := from_opt (GetNode hash_ (hash_ring_ cl) key) in
  let cl := set_server cl node (server cl node) in
  let client := master (server cl node) in
  let* _ := io_emit (ELock node) in
  let* ok := call Ping EPing client in
  if ok : bool then let* _ := io_emit (EUnlock node) in io_ret (true, client, node, cl) else
  let* ok := call Reconnect EReconnect client in
  if ok : bool then let* _ := io_emit (EUnlock node) in io_ret (true, client, node, cl) else
  let* r :=
    (if is_open_slave_ cl =? 0 then io_ret (false, client)
     else let client := slave (server cl node) in
          let* ok := call Ping EPing client in io_ret (ok, client)) in
  let '(ok, client) := r in
  if ok : bool then let* _ := io_emit (EUnlock node) in io_ret (true, client, node, cl) else
  let* ok := call Reconnect EReconnect client in
  if ok : bool then let* _ := io_emit (EUnlock node) in io_ret (true, client, node, cl) else
  let* _ := io_emit (EUnlock node) in
  io_ret (false, client, node, cl).

(** One "name:host:port:replicas" item of redises_master, as its fields. *)
Definition LoadMasterItem (cl : Cluster) (fields : list (list Z)) : IO (bool * Cluster) :=
  let* name := from_opt (fields !! 0%nat) in
  let* host := from_opt (fields !! 1%nat) in
  let* port_s := from_opt (fields !! 2%nat) in
  match lexical_cast_int port_s with
  | None => io_ret (false, cl)
  | Some port =>
    let* reps_s := from_opt (fields !! 3%nat) in
    match lexical_cast_uint reps_s with
    | None => io_ret (false, cl)
    | Some reps =>
      let cl := mkCluster (is_open_slave_ cl) (fst (AddNode hash_ (hash_ring_ cl) name reps))
                          (servers_ cl) in
      let client := NewClient host port in
      let cl := set_server cl name (mkPair (Some client) (slave (server cl name))) in
      let* ok := call Connect EConnect (Some client) in
      if ok : bool then
        io_ret (true, set_server cl name (mkPair (master (server cl name)) None))
      else io_ret (false, cl)
    end
  end.

Fixpoint LoadRedisesMaster (cl : Cluster) (items : list (list (list Z))) : IO (bool * Cluster) :=
  match items with
  | [] => io_ret (true, cl)
  | it :: items =>
    let* r := LoadMasterItem cl it in
    let '(ok, cl) := r in
    if ok : bool then LoadRedisesMaster cl items else io_ret (false, cl)
  end.

Definition LoadSlaveItem (cl : Cluster) (fields : list (list Z)) : IO (bool * Cluster) :=
  let* name := from_opt (fields !! 0%nat) in
  let* host := from_opt (fields !! 1%nat) in
  let* port_s := from_opt (fields !! 2%nat) in
  match lexical_cast_int port_s with
  | None => io_ret (false, cl)
  | Some port =>
    let client := NewClient host port in
    let cl := set_server cl name (mkPair (master (server cl name)) (Some client)) in
    let* ok := call Connect EConnect (Some client) in
    io_ret (ok, cl)
  end.

Fixpoint LoadRedisesSlave (cl : Cluster) (items : list (list (list Z))) : IO (bool * Cluster) :=
  match items with
  | [] => io_ret (true, cl)
  | it :: items =>
    let* r := LoadSlaveItem cl it in
    let '(ok, cl) := r in
    if ok : bool then LoadRedisesSlave cl items else io_ret (false, cl)
  end.

(** Initialize on a readable configuration: is_open_slave and the tokenized specifications. *)
Definition Initialize (is_open_slave : Z) (masters slaves : list (list (list Z)))
    : IO (bool * Cluster) :=
  let* r := LoadRedisesMaster (mkCluster is_open_slave ∅ ∅) masters in
  let '(ok, cl) := r in
  if ok : bool then
    if is_open_slave =? 0 then io_ret (true, cl) else LoadRedisesSlave cl slaves
  else io_ret (false, cl).

(** *** GetRedisNode *)

(** The reference: make the attempts in order until one succeeds. *)
Inductive attempt := APing (c : Client) | AReconnect (c : Client).

Definition attempt_client (a : attempt) : Client :=
  match a with APing c => c | AReconnect c => c end.

Definition run_attempt (a : attempt) (w : W) : bool * W * event :=
  match a with
  | APing c => let '(b, w) := Ping c w in (b, w, EPing c b)
  | AReconnect c => let '(b, w) := Reconnect c w in (b, w, EReconnect c b)
  end.

Fixpoint first_success (c : Client) (l : list attempt) (w : W) : bool * Client * W * list event :=
  match l with
  | [] => (false, c, w, [])
  | a :: l =>
    let '(b, w, e) := run_attempt a w in
    if b : bool then (true, attempt_client a, w, [e])
    else let '(b, c, w, es) := first_success (attempt_client a) l w in (b, c, w, e :: es)
  end.

Definition attempts (m : Client) (s : option Client) : list attempt :=
  [APing m; AReconnect m] ++
  match s with Some s => [APing s; AReconnect s] | None => [AReconnect m] end.

(** On a cluster whose pair for the key is complete, GetRedisNode locks the mutex of the
    key's server, tries Ping and Reconnect on the master, then Ping and Reconnect on the slave
    (in slave mode; otherwise Reconnect on the master once more), stops at the first success
    and reports that client, and releases the mutex on every path. *)
Theorem GetRedisNode_failover cl key node m (s : option Client) w :
  GetNode hash_ (hash_ring_ cl) key = Some node ->
  master (server cl node) = Some m ->
  (if is_open_slave_ cl =? 0 then s = None else slave (server cl node) = s /\ is_Some s) ->
  exists cl',
    GetRedisNode cl key w =
    (let '(ok, c, w', es) := first_success m (attempts m s) w in
     Some (ok, Some c, node, cl', w', ELock node :: es ++ [EUnlock node])) /\
    (forall n, server cl' n = server cl n).
Proof.
  intros Hg Hm Hs. exists (set_server cl node (server cl node)).
  assert (Hsrv : forall n, server (set_server cl node (server cl node)) n = server cl n).
  { intros n. unfold server, set_server. cbn. destruct (decide (n = node)) as [->|].
    - by rewrite lookup_insert_eq.
    - by rewrite lookup_insert_ne by done. }
  split; [|done]. unfold GetRedisNode, io_bind. rewrite Hg. cbn -[set_server server attempts]. rewrite !Hsrv, Hm.
  change (is_open_slave_ (set_server cl node (server cl node))) with (is_open_slave_ cl).
  cbn -[attempts set_server]. cbn [attempts app first_success run_attempt].
  destruct (Ping m w) as [[] w1]; [done|]. destruct (Reconnect m w1) as [[] w2]; [done|].
  destruct (is_open_slave_ cl =? 0).
  - subst s. cbn. destruct (Reconnect m w2) as [[] w3]; done.
  - destruct Hs as [Hsl [s' ->]]. rewrite Hsl. cbn.
    destruct (Ping s' w2) as [[] w3]; [done|]. cbn. destruct (Reconnect s' w3) as [[] w4]; done.
Qed.

(** In slave mode a master without a configured slave is dereferenced as NULL as soon as
    the master fails both Ping and Reconnect. *)
Theorem GetRedisNode_null_slave cl key node m w w1 w2 :
  GetNode hash_ (hash_ring_ cl) key = Some node ->
  server cl node = mkPair (Some m) None -> is_open_slave_ cl <> 0 ->
  Ping m w = (false, w1) -> Reconnect m w1 = (false, w2) ->
  GetRedisNode cl key w = None.
Proof.
  intros Hg Hp Hsl H1 H2. unfold GetRedisNode, io_bind. rewrite Hg. cbn -[set_server server].
  assert (Hs : server (set_server cl node (server cl node)) node = mkPair (Some m) None).
  { unfold server at 1, set_server. cbn. by rewrite lookup_insert_eq. }
  rewrite !Hs. cbn -[set_server]. rewrite H1, H2. cbn.
  destruct (Z.eqb_spec (is_open_slave_ cl) 0); done.
Qed.

(** *** Initialize *)

(** Every server named on the ring has a master. *)
Definition masters_ok (cl : Cluster) : Prop :=
  forall k nd, hash_ring_ cl !! k = Some nd -> is_Some (master (server cl (node_name nd))).

Lemma server_set cl n p n' :
  server (set_server cl n p) n' = if decide (n' = n) then p else server cl n'.
Proof.
  unfold server, set_server. cbn. case_decide as H.
  - subst. by rewrite lookup_insert_eq.
  - by rewrite lookup_insert_ne by done.
Qed.

Lemma AddNode_new ring name reps k nd :
  fst (AddNode hash_ ring name reps) !! k = Some nd -> ring !! k = Some nd \/ node_name nd = name.
Proof.
  unfold AddNode. rewrite AddNode_loop_lookup. case_decide; [|auto]. intros [= <-]. auto.
Qed.

Lemma LoadMasterItem_ok cl it w cl' w' es :
  masters_ok cl -> LoadMasterItem cl it w = Some (true, cl', w', es) -> masters_ok cl'.
Proof.
  intros Hok. unfold LoadMasterItem, io_bind.
  destruct (it !! 0%nat) as [name|]; [cbn|done]. destruct (it !! 1%nat) as [host|]; [cbn|done].
  destruct (it !! 2%nat) as [ps|]; [cbn|done]. destruct (lexical_cast_int ps) as [port|]; [cbn|done].
  destruct (it !! 3%nat) as [rs|]; [cbn|done]. destruct (lexical_cast_uint rs) as [reps|]; [cbn|done].
  destruct (Connect _ w) as [[] w1]; [|done]. intros [= <- _ _] k nd. cbn. intros Hk.
  rewrite !server_set. repeat case_decide; cbn; eauto; try done.
  destruct (AddNode_new _ _ _ _ _ Hk) as [H'|H']; [|done]. by apply Hok in H'.
Qed.

Lemma io_bind_inv {A B} (m : IO A) (f : A -> IO B) w r :
  io_bind m f w = Some r ->
  exists a w1 e1 e2, m w = Some (a, w1, e1) /\ f a w1 = Some (fst (fst r), snd (fst r), e2).
Proof.
  unfold io_bind. destruct (m w) as [[[a w1] e1]|]; [|done].
  destruct (f a w1) as [[[b w2] e2]|] eqn:E; [|done]. intros [= <-]. simpl.
  exists a, w1, e1, e2. by rewrite E.
Qed.

Lemma LoadRedisesMaster_ok items : forall cl w cl' w' es,
  masters_ok cl -> LoadRedisesMaster cl items w = Some (true, cl', w', es) -> masters_ok cl'.
Proof.
  induction items as [|it items IH]; intros cl w cl' w' es Hok; cbn [LoadRedisesMaster].
  - by intros [= <- _ _].
  - intros H. apply io_bind_inv in H as ([[] cl1] & w1 & e1 & e2 & Hi & Hr); cbn in Hr; [|done].
    eapply IH; [|exact Hr]. by eapply LoadMasterItem_ok.
Qed.

Lemma LoadRedisesSlave_ok items : forall cl w cl' w' es,
  masters_ok cl -> LoadRedisesSlave cl items w = Some (true, cl', w', es) -> masters_ok cl'.
Proof.
  induction items as [|it items IH]; intros cl w cl' w' es Hok; cbn [LoadRedisesSlave].
  - by intros [= <- _ _].
  - intros H. apply io_bind_inv in H as ([[] cl1] & w1 & e1 & e2 & Hi & Hr); cbn in Hr; [|done].
    eapply IH; [|exact Hr]. revert Hi. unfold LoadSlaveItem, io_bind.
    destruct (it !! 0%nat) as [name|]; [cbn|done]. destruct (it !! 1%nat) as [host|]; [cbn|done].
    destruct (it !! 2%nat) as [ps|]; [cbn|done]. destruct (lexical_cast_int ps) as [port|]; [cbn|done].
    destruct (Connect _ w) as [[] w2]; [|done]. intros [= <- _ _] k nd. cbn. intros Hk.
    rewrite server_set. apply Hok in Hk. case_decide as Hd; [by rewrite <- Hd|done].
Qed.

(** After Initialize succeeds, every server that GetNode can name has a master client, so
    that without slave mode GetRedisNode never dereferences NULL. *)
Theorem Initialize_safe is_open masters slaves cl w w' es key node :
  Initialize is_open masters slaves w = Some (true, cl, w', es) ->
  GetNode hash_ (hash_ring_ cl) key = Some node ->
  is_Some (master (server cl node)) /\
  (is_open_slave_ cl = 0 -> forall w1, is_Some (GetRedisNode cl key w1)).
Proof.
  intros Hi Hg. assert (Hok : masters_ok cl).
  { unfold Initialize in Hi. apply io_bind_inv in Hi as ([[] cl1] & w1 & e1 & e2 & Hm & Hr);
      cbn in Hr; [|done].
    assert (masters_ok cl1).
    { eapply LoadRedisesMaster_ok; [|exact Hm]. intros k nd. cbn. by rewrite lookup_empty. }
    destruct (is_open =? 0); [by injection Hr as <- _ _|]. by eapply LoadRedisesSlave_ok. }
  assert (Hm : is_Some (master (server cl node))).
  { rewrite GetNode_point in Hg. destruct (point _ _) as [k|]; [|done]. cbn in Hg.
    destruct (hash_ring_ cl !! k) as [nd|] eqn:Hk; [|done]. injection Hg as <-. by eapply Hok. }
  split; [done|]. intros H0 w1. destruct Hm as [m Hm].
  assert (Hsrv : server (set_server cl node (server cl node)) node = server cl node)
    by (by rewrite server_set, decide_True).
  unfold GetRedisNode, io_bind. rewrite Hg. cbn -[set_server server attempts]. rewrite !Hsrv, Hm.
  change (is_open_slave_ (set_server cl node (server cl node))) with (is_open_slave_ cl).
  rewrite H0. cbn -[set_server].
  destruct (Ping m w1) as [[] w2]; [by eexists|]. destruct (Reconnect m w2) as [[] w3]; [by eexists|].
  cbn. destruct (Reconnect m w3) as [[] w4]; by eexists.
Qed.

End Cluster.
(** ** Instances at which the theorems are evaluated *)

Definition demo_hash (s : list Z) : Z := uwrap 32 (foldl (fun h c => 31 * h + c) 7 s).
Definition demo_ring : NodeMap := fst (AddNode demo_hash ∅ (str "a") 3).

Lemma GetNode_successor_witness : exists nd, GetNode demo_hash demo_ring (str "key") = Some (node_name nd).
Proof.
  destruct (GetNode_successor demo_hash demo_ring (str "key")) as (k & nd & H & _).
  - vm_compute. intros H. discriminate H.
  - exists nd. exact H.
Defined.

Lemma AddNode_monotone_witness :
  GetNode demo_hash (fst (AddNode demo_hash demo_ring (str "b") 2)) (str "key") = Some (str "a") \/
  GetNode demo_hash (fst (AddNode demo_hash demo_ring (str "b") 2)) (str "key") = Some (str "b").
Proof.
  apply (AddNode_monotone demo_hash demo_ring (str "b") 2 (str "key") (str "a")).
  - lia.
  - vm_compute. reflexivity.
Defined.

Lemma demo_on_ring :
  on_ring demo_hash (fst (AddNode demo_hash demo_ring (str "b") 2)) (str "b") 2.
Proof.
  split; [lia|]. intros j Hj. rewrite AddNode_lookup by lia. by rewrite decide_True.
Qed.

Lemma RemoveNode_minimal_witness :
  GetNode demo_hash (RemoveNode demo_hash (fst (AddNode demo_hash demo_ring (str "b") 2)) (str "b"))
    (str "a0") = Some (str "a").
Proof.
  apply (RemoveNode_minimal demo_hash (fst (AddNode demo_hash demo_ring (str "b") 2))
    (str "b") 2 (str "a0") (str "a")).
  - exact demo_on_ring.
  - vm_compute. reflexivity.
  - vm_compute. intros H. discriminate H.
Defined.

Lemma RemoveNode_AddNode_witness :
  RemoveNode demo_hash (fst (AddNode demo_hash demo_ring (str "b") 2)) (str "b") = demo_ring.
Proof.
  apply (RemoveNode_AddNode demo_hash demo_ring (str "b") 2).
  - lia.
  - intros j Hj. unfold points in Hj. apply list_elem_of_fmap in Hj as (r & -> & Hr%elem_of_seqZ).
    assert (r = 0 \/ r = 1) as [-> | ->] by lia; vm_compute; reflexivity.
Defined.

Lemma RemoveNode_unknown_witness :
  GetNode demo_hash (RemoveNode demo_hash demo_ring (str "b")) (str "b0") = Some [].
Proof.
  apply (RemoveNode_unknown demo_hash demo_ring (str "b") (str "b0")); vm_compute; reflexivity.
Defined.

(** Clients are ports; port 1 is up, port 2 can be reconnected, the others are down. *)
Definition demo_client : RedisClient unit Z := {|
  NewClient _ port := port;
  Connect _ w := (true, w);
  Ping c w := (c =? 1, w);
  Reconnect c w := (c =? 2, w);
|}.

Definition demo_cluster (slave_mode : Z) (s : option Z) : Cluster (Client := Z) :=
  mkCluster slave_mode demo_ring {[ str "a" := mkPair (Some 3) s ]}.

Lemma GetRedisNode_failover_witness :
  exists cl', @GetRedisNode unit Z demo_client demo_hash (demo_cluster 1 (Some 2)) (str "key") tt =
    Some (true, Some 2, str "a", cl', tt,
      [ELock (str "a"); EPing 3 false; EReconnect 3 false; EPing 2 false; EReconnect 2 true;
       EUnlock (str "a")]).
Proof.
  destruct (@GetRedisNode_failover unit Z demo_client demo_hash (demo_cluster 1 (Some 2)) (str "key")
    (str "a") 3 (Some 2) tt) as (cl' & H & _).
  - vm_compute. reflexivity.
  - vm_compute. reflexivity.
  - cbn. split; [vm_compute; reflexivity|by eexists].
  - exists cl'. exact H.
Defined.

Lemma GetRedisNode_null_slave_witness :
  @GetRedisNode unit Z demo_client demo_hash (demo_cluster 1 None) (str "key") tt = None.
Proof.
  apply (@GetRedisNode_null_slave unit Z demo_client demo_hash (demo_cluster 1 None) (str "key")
    (str "a") 3 tt tt tt).
  - vm_compute. reflexivity.
  - vm_compute. reflexivity.
  - cbn. lia.
  - reflexivity.
  - reflexivity.
Defined.

Lemma Initialize_safe_witness :
  exists cl w es,
    @Initialize unit Z demo_client demo_hash Util.string2ll Util.string2ll 0
      [[str "a"; str "host"; str "6379"; str "3"]] [] tt = Some (true, cl, w, es) /\
    is_Some (master (server cl (str "a"))).
Proof.
  do 3 eexists. split; [vm_compute; reflexivity|].
  refine (proj1 (@Initialize_safe unit Z demo_client demo_hash Util.string2ll Util.string2ll 0
    [[str "a"; str "host"; str "6379"; str "3"]] [] _ tt _ _ (str "key") (str "a") _ _)).
  - vm_compute. reflexivity.
  - vm_compute. reflexivity.
Defined.

End RedisCluster.
