(* ===== verification/Dict.v ===== *)
(** * dict.c: hash tables with incremental rehashing

    Model of [src/debug/redis/src/dict.c] and [dict.h].  A hash table is the vector of its
    buckets, a bucket the list of its entries (the entries of a chain are owned by their
    bucket); a NULL table is the empty vector of size 0.  The hash function and the key
    comparison of the dictType are parameters; duplication of keys and values is the identity.
    Reads outside of a table and failing asserts are [None].

    Every operation of the API preserves the invariant [wf], and any sequence of operations,
    with rehashing steps, expansions and resizings in between, has the results of the same
    operations on a finite map. *)

From Stdlib Require Import ZArith Lia.
From stdpp Require Import prelude list gmap numbers.
From S2P Require Import Prelude.

Local Open Scope Z_scope.

Module Dict.

Definition DICT_HT_INITIAL_SIZE : Z := 4.
Definition dict_force_resize_ratio : Z := 5.

(** ** Hash functions *)

Definition u32 (z : Z) : Z := uwrap 32 z.

(** Thomas Wang's 32 bit mix function; [~x] on 32 bits is [2^32 - 1 - x]. *)
Definition dictIntHashFunction (key : Z) : Z :=
  let key := u32 (key + (UINT32_MAX - u32 (Z.shiftl key 15))) in
  let key := Z.lxor key (Z.shiftr key 10) in
  let key := u32 (key + u32 (Z.shiftl key 3)) in
  let key := Z.lxor key (Z.shiftr key 6) in
  let key := u32 (key + (UINT32_MAX - u32 (Z.shiftl key 11))) in
  Z.lxor key (Z.shiftr key 16).

Definition dictIdentityHashFunction (key : Z) : Z := key.

Definition murmur_m : Z := 0x5bd1e995.

(** The loop over four bytes at a time and the final bytes of MurmurHash2. *)
Fixpoint murmur_loop (h : Z) (data : list Z) : Z :=
  match data with
  | b0 :: b1 :: b2 :: b3 :: data =>
    let k := le_decode [b0; b1; b2; b3] in
    let k := u32 (k * murmur_m) in
    let k := Z.lxor k (Z.shiftr k 24) in
    let k := u32 (k * murmur_m) in
    murmur_loop (Z.lxor (u32 (h * murmur_m)) k) data
  | [b0; b1; b2] =>
    let h := Z.lxor h (Z.shiftl b2 16) in
    let h := Z.lxor h (Z.shiftl b1 8) in
    u32 (Z.lxor h b0 * murmur_m)
  | [b0; b1] => let h := Z.lxor h (Z.shiftl b1 8) in u32 (Z.lxor h b0 * murmur_m)
  | [b0] => u32 (Z.lxor h b0 * murmur_m)
  | [] => h
  end.

Definition dictGenHashFunction (seed : Z) (data : list Z) : Z :=
  let h := murmur_loop (Z.lxor seed (u32 (zlen data))) data in
  let h := Z.lxor h (Z.shiftr h 13) in
  let h := u32 (h * murmur_m) in
  Z.lxor h (Z.shiftr h 15).

Definition dictGenCaseHashFunction (seed : Z) (buf : list Z) : Z :=
  foldl (fun hash c => u32 (u32 (u32 (Z.shiftl hash 5) + hash) + tolower c)) seed buf.

Section Dict.
Context {K V : Type} `{!EqDecision K}.
Context (hashFunction : K -> Z).

Record dictEntry := mkEntry { key : K; val : V }.

Record dictht := mkHt {
  table : list (list dictEntry);
  size : Z;
  sizemask : Z;
  used : Z;
}.

Record dict := mkDict { ht0 : dictht; ht1 : dictht; rehashidx : Z; iterators : Z }.

Implicit Types (d : dict) (ht : dictht) (k : K) (v : V).

Definition dictSlots d : Z := size (ht0 d) + size (ht1 d).
Definition dictSize d : Z := used (ht0 d) + used (ht1 d).
Definition dictIsRehashing d : bool := negb (rehashidx d =? -1).

Definition _dictReset : dictht := mkHt [] 0 0 0.

Definition dictCreate : dict := mkDict _dictReset _dictReset (-1) 0.

(** [i] is doubled until it reaches [size]; 64 doublings are enough for an unsigned long. *)
Fixpoint _dictNextPower_loop (fuel : nat) (i size : Z) : option Z :=
  match fuel with
  | O => None
  | S fuel => if size <=? i then Some i else _dictNextPower_loop fuel (uwrap 64 (i * 2)) size
  end.

Definition _dictNextPower (size : Z) : option Z :=
  if LLONG_MAX <=? size then Some LLONG_MAX
  else _dictNextPower_loop 64 DICT_HT_INITIAL_SIZE size.

(** The boolean result is true for DICT_OK. *)
Definition dictExpand d (sz : Z) : option (dict * bool) :=
  realsize ← _dictNextPower sz;
  if dictIsRehashing d || (sz <? used (ht0 d)) then Some (d, false)
  else
    let n := mkHt (replicate (Z.to_nat realsize) []) realsize (realsize - 1) 0 in
    match table (ht0 d) with
    | [] => Some (mkDict n (ht1 d) (rehashidx d) (iterators d), true)
    | _ => Some (mkDict (ht0 d) n 0 (iterators d), true)
    end.

(** [dict_can_resize] is a global variable. *)
Definition dictResize (dict_can_resize : bool) d : option (dict * bool) :=
  if negb dict_can_resize || dictIsRehashing d then Some (d, false)
  else
    let minimal := swrap 32 (used (ht0 d)) in
    let minimal := if minimal <? DICT_HT_INITIAL_SIZE then DICT_HT_INITIAL_SIZE else minimal in
    dictExpand d (uwrap 64 minimal).

Definition slot ht k : Z := Z.land (hashFunction k) (sizemask ht).

Definition bucket ht (idx : Z) : option (list dictEntry) :=
  if idx <? 0 then None else table ht !! Z.to_nat idx.

Definition set_bucket ht (idx : Z) (b : list dictEntry) (n : Z) : dictht :=
  mkHt (<[Z.to_nat idx := b]> (table ht)) (size ht) (sizemask ht) n.

(** [while(d->ht[0].table[d->rehashidx] == NULL) d->rehashidx++;] *)
Fixpoint skip_empty (fuel : nat) ht (idx : Z) : option Z :=
  b ← bucket ht idx;
  match b, fuel with
  | _ :: _, _ => Some idx
  | [], O => None
  | [], S fuel => skip_empty fuel ht (idx + 1)
  end.

(** The loop that moves the entries of a bucket to the second table. *)
Fixpoint move_bucket (h0 h1 : dictht) (de : list dictEntry) : option (dictht * dictht) :=
  match de with
  | [] => Some (h0, h1)
  | e :: de =>
    let h := slot h1 (key e) in
    b ← bucket h1 h;
    move_bucket (mkHt (table h0) (size h0) (sizemask h0) (used h0 - 1))
      (set_bucket h1 h (e :: b) (used h1 + 1)) de
  end.

(** One iteration of dictRehash: [inl] when the rehashing is complete. *)
Definition rehash_iter d : option (dict + dict) :=
  if used (ht0 d) =? 0 then
    Some (inl (mkDict (ht1 d) _dictReset (-1) (iterators d)))
  else if size (ht0 d) <=? rehashidx d then None (* assert *)
  else
    idx ← skip_empty (length (table (ht0 d))) (ht0 d) (rehashidx d);
    de ← bucket (ht0 d) idx;
    r ← move_bucket (ht0 d) (ht1 d) de;
    Some (inr (mkDict (set_bucket (fst r) idx [] (used (fst r))) (snd r) (idx + 1) (iterators d))).

Fixpoint dictRehash_loop (n : nat) d : option (dict * Z) :=
  match n with
  | O => Some (d, 1)
  | S n =>
    r ← rehash_iter d;
    match r with
    | inl d => Some (d, 0)
    | inr d => dictRehash_loop n d
    end
  end.

Definition dictRehash d (n : nat) : option (dict * Z) :=
  if dictIsRehashing d then dictRehash_loop n d else Some (d, 0).

Definition _dictRehashStep d : option dict :=
  if iterators d =? 0 then fst <$> dictRehash d 1 else Some d.

(** [if (dictIsRehashing(d)) _dictRehashStep(d);] *)
Definition rehash_if_needed d : option dict :=
  if dictIsRehashing d then _dictRehashStep d else Some d.

Fixpoint bucket_find k (b : list dictEntry) : option V :=
  match b with
  | [] => None
  | e :: b => if decide (k = key e) then Some (val e) else bucket_find k b
  end.

Definition _dictExpandIfNeeded (dict_can_resize : bool) d : option (dict * bool) :=
  if dictIsRehashing d then Some (d, true)
  else if size (ht0 d) =? 0 then dictExpand d DICT_HT_INITIAL_SIZE
  else if (size (ht0 d) <=? used (ht0 d)) &&
          (dict_can_resize || (dict_force_resize_ratio <? used (ht0 d) / size (ht0 d)))
  then dictExpand d (uwrap 64 ((if used (ht0 d) <? size (ht0 d) then size (ht0 d) else used (ht0 d)) * 2))
  else Some (d, true).

(** The index is -1 when the key exists. *)
Definition _dictKeyIndex (dict_can_resize : bool) d k : option (dict * Z) :=
  r ← _dictExpandIfNeeded dict_can_resize d;
  let '(d, ok) := r in
  if negb ok then Some (d, -1)
  else
    let idx0 := slot (ht0 d) k in
    b0 ← bucket (ht0 d) idx0;
    if decide (is_Some (bucket_find k b0)) then Some (d, -1)
    else if dictIsRehashing d then
      let idx1 := slot (ht1 d) k in
      b1 ← bucket (ht1 d) idx1;
      if decide (is_Some (bucket_find k b1)) then Some (d, -1)
      else Some (d, swrap 32 idx1)
    else Some (d, swrap 32 idx0).

(** dictAddRaw followed by dictSetVal; false when the key exists. *)
Definition dictAdd (dict_can_resize : bool) d k v : option (dict * bool) :=
  d ← rehash_if_needed d;
  r ← _dictKeyIndex dict_can_resize d k;
  let '(d, index) := r in
  if index =? -1 then Some (d, false)
  else
    let ht := if dictIsRehashing d then ht1 d else ht0 d in
    b ← bucket ht index;
    let ht := set_bucket ht index (mkEntry k v :: b) (used ht + 1) in
    Some (if dictIsRehashing d then mkDict (ht0 d) ht (rehashidx d) (iterators d)
          else mkDict ht (ht1 d) (rehashidx d) (iterators d), true).

(** The table and index where a key is found by dictFind. *)
Definition dictFind d k : option (dict * option (bool * Z * V)) :=
  if size (ht0 d) =? 0 then Some (d, None)
  else
    d ← rehash_if_needed d;
    let idx0 := slot (ht0 d) k in
    b0 ← bucket (ht0 d) idx0;
    match bucket_find k b0 with
    | Some v => Some (d, Some (false, idx0, v))
    | None =>
      if dictIsRehashing d then
        let idx1 := slot (ht1 d) k in
        b1 ← bucket (ht1 d) idx1;
        Some (d, (fun v => (true, idx1, v)) <$> bucket_find k b1)
      else Some (d, None)
    end.

Definition dictFetchValue d k : option (dict * option V) :=
  r ← dictFind d k; Some (fst r, option_map snd (snd r)).

(** [dictSetVal(d, entry, val)] for the entry of [k] in a bucket. *)
Fixpoint bucket_set k v (b : list dictEntry) : list dictEntry :=
  match b with
  | [] => []
  | e :: b => if decide (k = key e) then mkEntry (key e) v :: b else e :: bucket_set k v b
  end.

(** The result is 1 when the key was added; the last component is the value that is freed. *)
Definition dictReplace (dict_can_resize : bool) d k v : option (dict * Z * option V) :=
  r ← dictAdd dict_can_resize d k v;
  let '(d, ok) := r in
  if ok : bool then Some (d, 1, None)
  else
    r ← dictFind d k;
    let '(d, e) := r in
    e ← e;
    let '(t, idx, old) := e in
    let ht := if t : bool then ht1 d else ht0 d in
    b ← bucket ht idx;
    let ht := set_bucket ht idx (bucket_set k v b) (used ht) in
    Some (if t : bool then mkDict (ht0 d) ht (rehashidx d) (iterators d)
          else mkDict ht (ht1 d) (rehashidx d) (iterators d), 0, Some old).

Fixpoint bucket_delete k (b : list dictEntry) : option (list dictEntry * dictEntry) :=
  match b with
  | [] => None
  | e :: b =>
    if decide (k = key e) then Some (b, e)
    else r ← bucket_delete k b; Some (e :: fst r, snd r)
  end.

(** The entry that is unlinked; its key and value are freed unless [nofree]. *)
Definition dictGenericDelete d k : option (dict * option dictEntry) :=
  if size (ht0 d) =? 0 then Some (d, None)
  else
    d ← rehash_if_needed d;
    let idx0 := slot (ht0 d) k in
    b0 ← bucket (ht0 d) idx0;
    match bucket_delete k b0 with
    | Some (b, e) =>
      Some (mkDict (set_bucket (ht0 d) idx0 b (used (ht0 d) - 1)) (ht1 d) (rehashidx d) (iterators d),
            Some e)
    | None =>
      if dictIsRehashing d then
        let idx1 := slot (ht1 d) k in
        b1 ← bucket (ht1 d) idx1;
        match bucket_delete k b1 with
        | Some (b, e) =>
          Some (mkDict (ht0 d) (set_bucket (ht1 d) idx1 b (used (ht1 d) - 1)) (rehashidx d) (iterators d),
                Some e)
        | None => Some (d, None)
        end
      else Some (d, None)
    end.

(** _dictClear: the entries that are freed, in order; the loop stops once [used] is 0. *)
Fixpoint clear_loop (t : list (list dictEntry)) (n : Z) (freed : list dictEntry) : list dictEntry :=
  match t with
  | [] => freed
  | b :: t => if 0 <? n then clear_loop t (n - zlen b) (freed ++ b) else freed
  end.

Definition _dictClear ht : dictht * list dictEntry := (_dictReset, clear_loop (table ht) (used ht) []).

Definition dictEmpty d : dict * list dictEntry :=
  let '(h0, f0) := _dictClear (ht0 d) in
  let '(h1, f1) := _dictClear (ht1 d) in
  (mkDict h0 h1 (-1) 0, f0 ++ f1).

Definition dictRelease d : list dictEntry :=
  snd (_dictClear (ht0 d)) ++ snd (_dictClear (ht1 d)).

(** *** Iterators *)

Record dictIterator := mkIter {
  itable : bool;                   (* false: ht[0], true: ht[1] *)
  iindex : Z;
  ientry : option dictEntry;
  inext : list dictEntry;          (* the chain behind [ientry] *)
}.

Definition dictGetIterator : dictIterator := mkIter false (-1) None [].

(** dictNext of an unsafe iterator, which leaves the dictionary unchanged. *)
Fixpoint dictNext (fuel : nat) d (it : dictIterator) : option (option dictEntry * dictIterator) :=
  match fuel with
  | O => None
  | S fuel =>
    match ientry it with
    | None =>
      let idx := iindex it + 1 in
      let ht := if itable it then ht1 d else ht0 d in
      if size ht <=? idx then
        if dictIsRehashing d && negb (itable it) then
          b ← bucket (ht1 d) 0;
          match b with
          | e :: b => Some (Some e, mkIter true 0 (Some e) b)
          | [] => dictNext fuel d (mkIter true 0 None [])
          end
        else Some (None, mkIter (itable it) idx None [])
      else
        b ← bucket ht idx;
        match b with
        | e :: b => Some (Some e, mkIter (itable it) idx (Some e) b)
        | [] => dictNext fuel d (mkIter (itable it) idx None [])
        end
    | Some _ =>
      match inext it with
      | e :: b => Some (Some e, mkIter (itable it) (iindex it) (Some e) b)
      | [] => dictNext fuel d (mkIter (itable it) (iindex it) None [])
      end
    end
  end.

(** *** Random keys: [rnd] is the sequence of the results of random() *)

Fixpoint random_bucket (rnd : list Z) d : option (list dictEntry * list Z) :=
  match rnd with
  | [] => None
  | r :: rnd =>
    b ← (if dictIsRehashing d then
           let h := uwrap 32 (r mod (size (ht0 d) + size (ht1 d))) in
           if size (ht0 d) <=? h then bucket (ht1 d) (h - size (ht0 d)) else bucket (ht0 d) h
         else bucket (ht0 d) (uwrap 32 (Z.land r (sizemask (ht0 d)))));
    match b with
    | [] => random_bucket rnd d
    | _ => Some (b, rnd)
    end
  end.

Definition dictGetRandomKey d (rnd : list Z) : option (dict * option dictEntry) :=
  if dictSize d =? 0 then Some (d, None)
  else
    d ← rehash_if_needed d;
    p ← random_bucket rnd d;
    let '(b, rnd) := p in
    r ← list.head rnd;
    e ← b !! Z.to_nat (r mod zlen b);
    Some (d, Some e).

(** ** Invariant *)

Definition entries ht : list dictEntry := concat (table ht).
Definition all_entries d : list dictEntry := entries (ht0 d) ++ entries (ht1 d).

(** A table that has been allocated. *)
Record ht_ok ht : Prop := {
  ht_size : exists p, 2 <= p <= 30 /\ size ht = 2 ^ p;
  ht_mask : sizemask ht = size ht - 1;
  ht_len : zlen (table ht) = size ht;
  ht_used : used ht = zlen (entries ht);
  ht_slots : forall i b e, table ht !! i = Some b -> e ∈ b -> Z.of_nat i = slot ht (key e);
}.

Record wf d : Prop := {
  wf_ht0 : ht0 d = _dictReset \/ ht_ok (ht0 d);
  wf_idle : dictIsRehashing d = false -> ht1 d = _dictReset;
  wf_rehash : dictIsRehashing d = true ->
    ht_ok (ht0 d) /\ ht_ok (ht1 d) /\ 0 <= rehashidx d <= size (ht0 d) /\
    (forall i, Z.of_nat i < rehashidx d -> table (ht0 d) !! i = Some []);
  wf_keys : NoDup (key <$> all_entries d);
  wf_iters : iterators d = 0;
}.

(** [hashFunction] returns an unsigned int. *)
Context (hash_nonneg : forall k, 0 <= hashFunction k).

Lemma slot_range ht k : ht_ok ht -> 0 <= slot ht k < size ht.
Proof.
  intros [(p & Hp & Hs) Hm _ _ _]. unfold slot. rewrite Hm, Hs.
  replace (2 ^ p - 1) with (Z.ones p) by (rewrite Z.ones_equiv; lia).
  rewrite Z.land_ones by lia. apply Z.mod_pos_bound. lia.
Qed.

Lemma bucket_Some ht idx :
  0 <= idx < size ht -> ht_ok ht ->
  exists b, bucket ht idx = Some b /\ table ht !! Z.to_nat idx = Some b.
Proof.
  intros Hi [_ _ Hl _ _]. unfold bucket. destruct (Z.ltb_spec idx 0); [lia|].
  destruct (table ht !! Z.to_nat idx) as [b|] eqn:E; [eauto|].
  apply lookup_ge_None in E. unfold zlen in Hl. lia.
Qed.

(** Replacing one bucket of a vector. *)
Lemma concat_insert {A} (t : list (list A)) i b :
  t !! i = Some b ->
  exists rest, concat t ≡ₚ b ++ rest /\ forall b', concat (<[i := b']> t) ≡ₚ b' ++ rest.
Proof.
  revert i. induction t as [|c t IH]; intros [|i] H; simpl in H; try done.
  - injection H as ->. exists (concat t). split; [done|]. intros b'. done.
  - destruct (IH i H) as (rest & H1 & H2). exists (c ++ rest). split.
    + simpl. rewrite H1. rewrite !app_assoc. apply Permutation_app_tail, Permutation_app_comm.
    + intros b'. simpl. rewrite H2. rewrite !app_assoc. apply Permutation_app_tail, Permutation_app_comm.
Qed.

(** A table whose bucket [idx] is replaced by entries that belong there. *)
Lemma set_bucket_ok ht idx b b' :
  ht_ok ht -> 0 <= idx -> table ht !! Z.to_nat idx = Some b ->
  (forall e, e ∈ b' -> slot ht (key e) = idx) ->
  ht_ok (set_bucket ht idx b' (used ht - zlen b + zlen b')) /\
  exists rest, entries ht ≡ₚ b ++ rest /\
    entries (set_bucket ht idx b' (used ht - zlen b + zlen b')) ≡ₚ b' ++ rest.
Proof.
  intros [Hs Hm Hl Hu Hsl] Hidx Hb Hb'. destruct (concat_insert _ _ _ Hb) as (rest & H1 & H2).
  split; [|exists rest; split; [exact H1|exact (H2 b')]]. split; cbn; try done.
  - unfold zlen in *. by rewrite length_insert.
  - rewrite Hu. unfold entries, zlen. cbn. rewrite (Permutation_length (H2 b')).
    rewrite (Permutation_length H1), !length_app. lia.
  - intros i c e Hc He. destruct (decide (i = Z.to_nat idx)) as [->|Hne].
    + rewrite list_lookup_insert_eq in Hc by (by apply lookup_lt_Some in Hb). injection Hc as <-.
      rewrite <- (Hb' e He), Z2Nat.id; [done|]. by rewrite (Hb' e He).
    + rewrite list_lookup_insert_ne in Hc by done. by eapply Hsl.
Qed.

Lemma entries_reset : entries _dictReset = [].
Proof. done. Qed.

Lemma elem_of_entries ht e : e ∈ entries ht <-> exists i b, table ht !! i = Some b /\ e ∈ b.
Proof.
  unfold entries. rewrite list_elem_of_In, in_concat. split.
  - intros (b & Hb & He). apply list_elem_of_In, list_elem_of_lookup in Hb as [i Hi].
    exists i, b. split; [done|]. by apply list_elem_of_In.
  - intros (i & b & Hi & He). exists b. split; apply list_elem_of_In; [|done].
    by eapply list_elem_of_lookup_2.
Qed.

(** An entry of the table is in the bucket of its key. *)
Lemma entry_in_slot ht e b :
  ht_ok ht -> e ∈ entries ht -> bucket ht (slot ht (key e)) = Some b -> e ∈ b.
Proof.
  intros Hok (i & c & Hi & He)%elem_of_entries Hb. pose proof (ht_slots _ Hok _ _ _ Hi He) as Hs.
  rewrite <- Hs in Hb. unfold bucket in Hb. rewrite Nat2Z.id in Hb.
  destruct (Z.ltb_spec (Z.of_nat i) 0); [lia|]. congruence.
Qed.

Lemma bucket_in_entries ht idx b e : bucket ht idx = Some b -> e ∈ b -> e ∈ entries ht.
Proof.
  unfold bucket. destruct (idx <? 0); [done|]. intros Hb He. apply elem_of_entries. eauto.
Qed.

(** ** _dictNextPower and dictExpand *)

Lemma NextPower_loop_spec sz fuel : forall p,
  2 <= p -> sz <= 2 ^ (p + Z.of_nat fuel - 1) -> p + Z.of_nat fuel <= 64 -> (1 <= fuel)%nat ->
  exists q, p <= q /\ _dictNextPower_loop fuel (2 ^ p) sz = Some (2 ^ q) /\ sz <= 2 ^ q /\
    (q = p \/ 2 ^ (q - 1) < sz).
Proof.
  induction fuel as [|fuel IH]; intros p Hp Hs Hf H1; [lia|]. cbn [_dictNextPower_loop].
  destruct (Z.leb_spec sz (2 ^ p)) as [Hle|Hgt]; [exists p; auto with lia|].
  assert (Hf' : (1 <= fuel)%nat).
  { destruct fuel; [|lia]. replace (p + Z.of_nat 1 - 1) with p in Hs by lia. lia. }
  rewrite uwrap_id.
  2:{ unfold in_uint. pose proof (Z.pow_pos_nonneg 2 p).
      assert (2 ^ p * 2 <= 2 ^ 63); [|lia].
      replace (2 ^ p * 2) with (2 ^ (p + 1)) by (rewrite Z.pow_add_r by lia; lia).
      apply Z.pow_le_mono_r; lia. }
  replace (2 ^ p * 2) with (2 ^ (p + 1)) by (rewrite Z.pow_add_r by lia; lia).
  destruct (IH (p + 1)) as (q & Hq & -> & Hle & Hmin); [lia| |lia|done|].
  { by replace (p + 1 + Z.of_nat fuel - 1) with (p + Z.of_nat (S fuel) - 1) by lia. }
  exists q. split_and!; [lia|done|done|]. right. destruct Hmin as [->|Hmin]; [|done].
  replace (p + 1 - 1) with p by lia. lia.
Qed.

(** The least power of two that is at least [size] and at least 4. *)
Lemma NextPower_spec sz :
  sz < LLONG_MAX ->
  exists q, 2 <= q <= 63 /\ _dictNextPower sz = Some (2 ^ q) /\ sz <= 2 ^ q /\
    (q = 2 \/ 2 ^ (q - 1) < sz).
Proof.
  intros Hs. unfold _dictNextPower. destruct (Z.leb_spec LLONG_MAX sz); [lia|].
  change DICT_HT_INITIAL_SIZE with (2 ^ 2).
  destruct (NextPower_loop_spec sz 62 2) as (q & Hq & He & Hle & Hmin);
    [lia|cbn; unfold LLONG_MAX in *; lia|lia|lia|].
  assert (Hmono : forall a b i s r, _dictNextPower_loop a i s = Some r -> (a <= b)%nat ->
    _dictNextPower_loop b i s = Some r).
  { clear. induction a as [|a IH]; intros b i s r H Hle; [done|]. destruct b as [|b]; [lia|].
    cbn [_dictNextPower_loop] in *. destruct (s <=? i); [done|]. apply IH; [done|lia]. }
  exists q. split; [|split; [|by split]].
  - split; [done|]. destruct Hmin as [->|Hmin]; [lia|]. destruct (Z.le_gt_cases q 63); [done|].
    assert (2 ^ 63 <= 2 ^ (q - 1)) by (apply Z.pow_le_mono_r; lia). unfold LLONG_MAX in *. lia.
  - apply (Hmono 62%nat 64%nat); [exact He|lia].
Qed.

(** What every operation preserves: the invariant and the entries. *)
Definition same_entries d d' : Prop := all_entries d' ≡ₚ all_entries d.

Lemma NoDup_keys_perm l l' : l' ≡ₚ l -> NoDup (key <$> l) -> NoDup (key <$> l').
Proof. intros Hp H. by rewrite Hp. Qed.

Lemma concat_replicate_nil {A} n : concat (replicate n (@nil A)) = [].
Proof. by induction n. Qed.

Lemma new_ht_ok p :
  2 <= p <= 30 -> ht_ok (mkHt (replicate (Z.to_nat (2 ^ p)) []) (2 ^ p) (2 ^ p - 1) 0).
Proof.
  intros Hp. pose proof (Z.pow_pos_nonneg 2 p). split; cbn; try done.
  - by exists p.
  - unfold zlen. rewrite length_replicate. lia.
  - unfold entries. cbn. by rewrite concat_replicate_nil.
  - intros i b e Hb He. apply lookup_replicate in Hb as [-> _]. set_solver.
Qed.

Lemma ht_ok_table ht : ht_ok ht -> table ht <> [] /\ 4 <= size ht <= 2 ^ 30.
Proof.
  intros [(p & Hp & Hs) _ Hl _ _].
  assert (2 ^ 2 <= 2 ^ p <= 2 ^ 30) by (split; apply Z.pow_le_mono_r; lia).
  split; [|lia]. intros E. rewrite E in Hl. unfold zlen in Hl. simpl in Hl. lia.
Qed.

Lemma dictExpand_ok d sz :
  wf d -> sz <= 2 ^ 30 ->
  exists d' ok, dictExpand d sz = Some (d', ok) /\ wf d' /\ same_entries d d' /\
    dictSize d' = dictSize d /\
    (ok = negb (dictIsRehashing d || (sz <? used (ht0 d)))) /\
    (ok = true -> ht_ok (ht0 d')).
Proof.
  intros Hwf Hsz. unfold dictExpand.
  destruct (NextPower_spec sz) as (q & Hq & -> & Hle & Hmin); [unfold LLONG_MAX; lia|].
  assert (Hq30 : q <= 30).
  { destruct Hmin as [->|Hmin]; [lia|]. destruct (Z.le_gt_cases q 30); [done|].
    assert (2 ^ 30 <= 2 ^ (q - 1)) by (apply Z.pow_le_mono_r; lia). lia. }
  pose proof (new_ht_ok q ltac:(lia)) as Hnew. set (n := mkHt _ _ _ _) in *.
  cbn [mbind option_bind]. destruct (dictIsRehashing d || _) eqn:Hc.
  { exists d, false. split_and!; try done; by unfold same_entries. }
  apply orb_false_iff in Hc as [Hr _]. destruct Hwf as [H0 Hidle Hre Hk Hit].
  specialize (Hidle Hr). unfold same_entries, all_entries in *.
  assert (Hen : entries n = []) by (unfold entries, n; cbn; by rewrite concat_replicate_nil).
  destruct d as [h0 h1 ri its]. unfold dictSize, dictIsRehashing in *.
  cbn [ht0 ht1 rehashidx iterators] in *. subst h1.
  destruct H0 as [->|H0].
  - cbn [table _dictReset]. exists (mkDict n _dictReset ri its), true. split; [done|]. cbn [ht0 ht1]. rewrite Hen.
    split; [|by split_and!]. split; cbn [ht0 ht1 rehashidx iterators]; try done.
    + by right.
    + unfold dictIsRehashing. cbn [rehashidx]. by rewrite Hr.
    + unfold all_entries. cbn [ht0 ht1]. rewrite Hen. constructor.
  - destruct (ht_ok_table _ H0) as [Hne Hs4]. destruct (table h0) as [|b0 t0] eqn:Et; [done|].
    exists (mkDict h0 n 0 its), true. split; [done|]. cbn [ht0 ht1]. rewrite Hen.
    split; [|by split_and!]. split; cbn [ht0 ht1 rehashidx iterators]; try done.
    + by right.
    + intros _. split_and!; [done|done|lia|lia|]. intros i Hi. lia.
    + unfold all_entries. cbn [ht0 ht1]. rewrite Hen. done.
Qed.

(** ** Rehashing *)

Lemma all_buckets_empty ht :
  ht_ok ht -> (forall i, Z.of_nat i < size ht -> table ht !! i = Some []) -> entries ht = [].
Proof.
  intros Hok Hall. destruct (entries ht) as [|e l] eqn:E; [done|].
  assert (He : e ∈ entries ht) by (rewrite E; set_solver).
  apply elem_of_entries in He as (i & b & Hi & He).
  assert (Hlt : Z.of_nat i < size ht).
  { apply lookup_lt_Some in Hi. pose proof (ht_len _ Hok). unfold zlen in *. lia. }
  rewrite (Hall i Hlt) in Hi. injection Hi as <-. set_solver.
Qed.

Lemma skip_empty_ok fuel ht : forall idx,
  ht_ok ht -> 0 <= idx -> (forall i, Z.of_nat i < idx -> table ht !! i = Some []) ->
  entries ht <> [] -> size ht - idx <= Z.of_nat fuel ->
  exists idx' e b, skip_empty fuel ht idx = Some idx' /\ idx <= idx' < size ht /\
    bucket ht idx' = Some (e :: b) /\ (forall i, Z.of_nat i < idx' -> table ht !! i = Some []).
Proof.
  induction fuel as [|fuel IH]; intros idx Hok Hi Hlow Hne Hf.
  - destruct Hne. apply all_buckets_empty; [done|]. intros i Hlt. apply Hlow. lia.
  - assert (Hlt : idx < size ht).
    { destruct (Z.lt_ge_cases idx (size ht)); [done|]. destruct Hne.
      apply all_buckets_empty; [done|]. intros i Hlt. apply Hlow. lia. }
    destruct (bucket_Some ht idx ltac:(lia) Hok) as (b & Hb & Hb'). cbn [skip_empty].
    rewrite Hb. cbn [mbind option_bind]. destruct b as [|e b].
    + destruct (IH (idx + 1)) as (idx' & e & b & H1 & H2 & H3 & H4); [done|lia| |done|lia|].
      * intros i Hi'. destruct (decide (Z.of_nat i = idx)) as [<-|]; [by rewrite Nat2Z.id in Hb'|].
        apply Hlow. lia.
      * exists idx', e, b. split_and!; [done|lia|lia|done|done].
    + exists idx, e, b. split_and!; [done|lia|lia|done|done].
Qed.

Lemma slot_ext ht ht' k : sizemask ht' = sizemask ht -> slot ht' k = slot ht k.
Proof. unfold slot. by intros ->. Qed.

Lemma bucket_table ht idx b : bucket ht idx = Some b -> 0 <= idx /\ table ht !! Z.to_nat idx = Some b.
Proof. unfold bucket. destruct (Z.ltb_spec idx 0); [done|]. auto. Qed.

(** Adding an entry to its bucket. *)
Lemma insert_ok ht e b :
  ht_ok ht -> bucket ht (slot ht (key e)) = Some b ->
  ht_ok (set_bucket ht (slot ht (key e)) (e :: b) (used ht + 1)) /\
  entries (set_bucket ht (slot ht (key e)) (e :: b) (used ht + 1)) ≡ₚ e :: entries ht.
Proof.
  intros Hok Hb. destruct (bucket_table _ _ _ Hb) as [H0 Ht].
  destruct (set_bucket_ok ht _ b (e :: b) Hok H0 Ht) as (H1 & rest & H2 & H3).
  - intros e' [->|He']%elem_of_cons; [done|].
    rewrite <- (ht_slots _ Hok _ _ _ Ht He'). lia.
  - replace (used ht - zlen b + zlen (e :: b)) with (used ht + 1) in * by (rewrite zlen_cons; lia).
    split; [done|]. rewrite H3, H2. done.
Qed.

Lemma move_bucket_ok de : forall h0 h1,
  ht_ok h1 ->
  exists h1', move_bucket h0 h1 de =
      Some (mkHt (table h0) (size h0) (sizemask h0) (used h0 - zlen de), h1') /\
    ht_ok h1' /\ entries h1' ≡ₚ de ++ entries h1 /\ size h1' = size h1.
Proof.
  induction de as [|e de IH]; intros h0 h1 Hok; cbn [move_bucket].
  - exists h1. split_and!; try done. rewrite zlen_nil, Z.sub_0_r. by destruct h0.
  - destruct (bucket_Some h1 _ (slot_range h1 (key e) Hok) Hok) as (b & Hb & _). rewrite Hb.
    cbn [mbind option_bind]. destruct (insert_ok h1 e b Hok Hb) as [Hok1 He1].
    destruct (IH (mkHt (table h0) (size h0) (sizemask h0) (used h0 - 1))
      (set_bucket h1 (slot h1 (key e)) (e :: b) (used h1 + 1)) Hok1) as (h1' & -> & Hok' & He' & Hs').
    exists h1'. split_and!; try done.
    + cbn. do 3 f_equal. rewrite zlen_cons. lia.
    + rewrite He', He1. simpl. by rewrite Permutation_middle.
Qed.

Lemma wf_nonneg ht : ht_ok ht -> 0 <= used ht.
Proof. intros Hok. rewrite (ht_used _ Hok). apply zlen_nonneg. Qed.

Lemma used_zero ht : ht_ok ht -> used ht = 0 -> entries ht = [].
Proof.
  intros Hok H0. rewrite (ht_used _ Hok) in H0. destruct (entries ht); [done|].
  rewrite zlen_cons in H0. pose proof (zlen_nonneg l). lia.
Qed.

(** One iteration keeps the entries, and either ends the rehashing or advances. *)
Lemma rehash_iter_ok d :
  wf d -> dictIsRehashing d = true ->
  exists r, rehash_iter d = Some r /\
    match r with
    | inl d' => wf d' /\ same_entries d d' /\ dictIsRehashing d' = false /\ ht_ok (ht0 d')
    | inr d' => wf d' /\ same_entries d d' /\ dictIsRehashing d' = true /\
        rehashidx d < rehashidx d' /\ size (ht0 d') = size (ht0 d)
    end.
Proof.
  intros Hwf Hr. destruct Hwf as [_ _ Hre Hk Hit].
  destruct (Hre Hr) as (Hok0 & Hok1 & Hidx & Hlow). unfold rehash_iter, same_entries.
  destruct (Z.eqb_spec (used (ht0 d)) 0) as [Hu|Hu].
  - eexists. split; [done|]. pose proof (used_zero _ Hok0 Hu) as He.
    unfold all_entries in *. rewrite He in *. cbn [ht0 ht1 app] in *.
    rewrite entries_reset, app_nil_r. split_and!; try done.
    split; cbn [ht0 ht1 rehashidx iterators]; try done; [by right|].
    unfold all_entries. cbn [ht0 ht1]. by rewrite entries_reset, app_nil_r.
  - assert (Hne : entries (ht0 d) <> []).
    { intros He. apply Hu. by rewrite (ht_used _ Hok0), He. }
    destruct (skip_empty_ok (length (table (ht0 d))) (ht0 d) (rehashidx d) Hok0 (proj1 Hidx) Hlow Hne)
      as (idx & e & b & Hsk & Hi & Hb & Hlow').
    { pose proof (ht_len _ Hok0). unfold zlen in *. lia. }
    destruct (Z.leb_spec (size (ht0 d)) (rehashidx d)); [lia|].
    rewrite Hsk. cbn [mbind option_bind]. rewrite Hb. cbn [mbind option_bind].
    destruct (move_bucket_ok (e :: b) (ht0 d) (ht1 d) Hok1) as (h1' & -> & Hok1' & He1 & Hs1).
    cbn [mbind option_bind fst snd used]. destruct (bucket_table _ _ _ Hb) as [H0 Ht].
    destruct (set_bucket_ok (ht0 d) idx (e :: b) [] Hok0 H0 Ht) as (Hok0' & rest & Hp & Hp'); [set_solver|].
    rewrite zlen_nil, Z.add_0_r in *.
    set (h0' := set_bucket (ht0 d) idx [] (used (ht0 d) - zlen (e :: b))) in *.
    exists (inr (mkDict h0' h1' (idx + 1) (iterators d))). split; [done|].
    assert (Hperm : entries h0' ++ entries h1' ≡ₚ entries (ht0 d) ++ entries (ht1 d)).
    { rewrite Hp', He1, Hp. rewrite (app_assoc ([] ++ rest)). apply Permutation_app_tail, Permutation_app_comm. }
    unfold all_entries in *. cbn [ht0 ht1 rehashidx].
    assert (Hri : (idx + 1 =? -1) = false) by (apply Z.eqb_neq; lia).
    split; [|unfold dictIsRehashing; cbn [rehashidx]; rewrite Hri; split_and!; [done|done|lia|done]].
    split; cbn [ht0 ht1 rehashidx iterators]; try done.
    + by right.
    + unfold dictIsRehashing. cbn [rehashidx]. by rewrite Hri.
    + intros _. split_and!; [done|done|lia|cbn [h0' size set_bucket]; lia|].
      intros i Hlt. unfold h0'. cbn [set_bucket table].
      destruct (decide (i = Z.to_nat idx)) as [->|].
      * apply list_lookup_insert_eq. by apply lookup_lt_Some in Ht.
      * rewrite list_lookup_insert_ne by done. apply Hlow'. lia.
    + unfold all_entries. cbn [ht0 ht1]. by rewrite Hperm.
Qed.

Lemma dictRehash_loop_ok n : forall d,
  wf d -> dictIsRehashing d = true ->
  exists d' r, dictRehash_loop n d = Some (d', r) /\ wf d' /\ same_entries d d' /\
    r = (if dictIsRehashing d' then 1 else 0) /\ ht_ok (ht0 d') /\
    (size (ht0 d) - rehashidx d < Z.of_nat n -> r = 0).
Proof.
  induction n as [|n IH]; intros d Hwf Hr; cbn [dictRehash_loop].
  - destruct (wf_rehash _ Hwf Hr) as (Hok & _ & Hi & _). exists d, 1. rewrite Hr.
    split_and!; try done; [by unfold same_entries|lia].
  - destruct (rehash_iter_ok d Hwf Hr) as ([d1|d1] & -> & H); cbn [mbind option_bind].
    + destruct H as (Hw & Hs & Hr1 & Hok). exists d1, 0. rewrite Hr1. by split_and!.
    + destruct H as (Hw & Hs & Hr1 & Hi & Hsz). destruct (IH d1 Hw Hr1) as (d2 & r & -> & Hw2 & Hs2 & Hr2 & Hok & Hf).
      exists d2, r. split_and!; try done; [unfold same_entries in *; by rewrite Hs2, Hs|].
      intros Hlt. apply Hf. lia.
Qed.

Lemma dictRehash_ok d n :
  wf d ->
  exists d' r, dictRehash d n = Some (d', r) /\ wf d' /\ same_entries d d' /\
    r = (if dictIsRehashing d' then 1 else 0) /\
    (size (ht0 d) < Z.of_nat n -> r = 0) /\ (ht_ok (ht0 d) -> ht_ok (ht0 d')).
Proof.
  intros Hwf. unfold dictRehash. destruct (dictIsRehashing d) eqn:Hr.
  - destruct (dictRehash_loop_ok n d Hwf Hr) as (d' & r & H & Hw & Hs & Hr' & Hok & Hf).
    exists d', r. split_and!; try done. intros Hlt. apply Hf.
    destruct (wf_rehash _ Hwf Hr) as (_ & _ & Hi & _). lia.
  - exists d, 0. rewrite Hr. split_and!; try done. by unfold same_entries.
Qed.

Lemma rehash_if_needed_ok d :
  wf d ->
  exists d', rehash_if_needed d = Some d' /\ wf d' /\ same_entries d d' /\
    (ht_ok (ht0 d) -> ht_ok (ht0 d')).
Proof.
  intros Hwf. unfold rehash_if_needed, _dictRehashStep. rewrite (wf_iters _ Hwf).
  destruct (dictIsRehashing d) eqn:Hr.
  - destruct (dictRehash_ok d 1 Hwf) as (d' & r & -> & Hw & Hs & _ & _ & Hok). cbn. eauto.
  - exists d. split_and!; try done. by unfold same_entries.
Qed.

Lemma wf_size0 d : wf d -> size (ht0 d) <> 0 -> ht_ok (ht0 d).
Proof. intros Hwf Hs. destruct (wf_ht0 _ Hwf) as [H|H]; [|done]. by rewrite H in Hs. Qed.

(** ** Buckets *)

Lemma bucket_find_Some k b v : bucket_find k b = Some v -> mkEntry k v ∈ b.
Proof.
  induction b as [|[k' v'] b IH]; simpl; [done|]. case_decide as H; [|set_solver].
  intros [= <-]. subst. set_solver.
Qed.

Lemma bucket_find_None k b : bucket_find k b = None -> forall v, mkEntry k v ∉ b.
Proof.
  induction b as [|[k' v'] b IH]; simpl; [set_solver|]. case_decide; [done|].
  intros Hn v [[= -> _]|Hin]%elem_of_cons; [done|]. by eapply IH.
Qed.

Lemma bucket_delete_spec k b :
  match bucket_delete k b with
  | Some (b', e) => key e = k /\ b ≡ₚ e :: b'
  | None => forall v, mkEntry k v ∉ b
  end.
Proof.
  induction b as [|[k' v'] b IH]; simpl; [set_solver|]. case_decide as H; [by subst|].
  destruct (bucket_delete k b) as [[b' e]|]; cbn.
  - destruct IH as [Hk ->]. split; [done|]. apply perm_swap.
  - intros v [[= -> _]|Hin]%elem_of_cons; [done|]. by eapply IH.
Qed.

Lemma bucket_set_spec k v old b :
  bucket_find k b = Some old ->
  exists rest, b ≡ₚ mkEntry k old :: rest /\ bucket_set k v b ≡ₚ mkEntry k v :: rest.
Proof.
  induction b as [|[k' v'] b IH]; simpl; [done|]. case_decide as H.
  - intros [= <-]. subst k'. by exists b.
  - intros Hf. destruct (IH Hf) as (rest & H1 & H2). exists (mkEntry k' v' :: rest).
    split; [rewrite H1|rewrite H2]; apply perm_swap.
Qed.

(** Looking a key up in one table. *)
Lemma find_in_ht ht k :
  ht_ok ht ->
  exists b, bucket ht (slot ht k) = Some b /\
    (forall v, bucket_find k b = Some v -> mkEntry k v ∈ entries ht) /\
    (bucket_find k b = None -> forall v, mkEntry k v ∉ entries ht).
Proof.
  intros Hok. destruct (bucket_Some ht _ (slot_range ht k Hok) Hok) as (b & Hb & _).
  exists b. split_and!; [done|..].
  - intros v Hv%bucket_find_Some. by eapply bucket_in_entries.
  - intros Hn v Hin. eapply bucket_find_None; [done|]. by eapply (entry_in_slot ht (mkEntry k v)).
Qed.

(** Replacing the bucket of a key by another one with entries of the same slot. *)
Lemma rebucket_ok ht k b b' n :
  ht_ok ht -> bucket ht (slot ht k) = Some b ->
  (forall e, e ∈ b' -> e ∈ b \/ key e = k) -> n = used ht - zlen b + zlen b' ->
  ht_ok (set_bucket ht (slot ht k) b' n) /\
  exists rest, entries ht ≡ₚ b ++ rest /\ entries (set_bucket ht (slot ht k) b' n) ≡ₚ b' ++ rest.
Proof.
  intros Hok Hb Hin ->. destruct (bucket_table _ _ _ Hb) as [H0 Ht].
  apply (set_bucket_ok ht _ b b' Hok H0 Ht). intros e He. destruct (Hin e He) as [He'| ->]; [|done].
  rewrite <- (ht_slots _ Hok _ _ _ Ht He'). lia.
Qed.

Lemma delete_in_ht ht k b b' e :
  ht_ok ht -> bucket ht (slot ht k) = Some b -> bucket_delete k b = Some (b', e) ->
  ht_ok (set_bucket ht (slot ht k) b' (used ht - 1)) /\
  entries ht ≡ₚ e :: entries (set_bucket ht (slot ht k) b' (used ht - 1)) /\ key e = k.
Proof.
  intros Hok Hb Hd. pose proof (bucket_delete_spec k b) as Hs. rewrite Hd in Hs. destruct Hs as [Hk Hp].
  destruct (rebucket_ok ht k b b' (used ht - 1) Hok Hb) as (Hok' & rest & H1 & H2).
  - intros e' He'. left. rewrite Hp. set_solver.
  - unfold zlen. rewrite (Permutation_length Hp). simpl. lia.
  - split; [done|]. split; [|done]. rewrite H1, H2, Hp. done.
Qed.

Lemma set_in_ht ht k v old b :
  ht_ok ht -> bucket ht (slot ht k) = Some b -> bucket_find k b = Some old ->
  ht_ok (set_bucket ht (slot ht k) (bucket_set k v b) (used ht)) /\
  exists rest, entries ht ≡ₚ mkEntry k old :: rest /\
    entries (set_bucket ht (slot ht k) (bucket_set k v b) (used ht)) ≡ₚ mkEntry k v :: rest.
Proof.
  intros Hok Hb Hf. destruct (bucket_set_spec k v old b Hf) as (r & H1 & H2).
  destruct (rebucket_ok ht k b (bucket_set k v b) (used ht) Hok Hb) as (Hok' & rest & H3 & H4).
  - intros e'. rewrite H2. intros [->|He]%elem_of_cons; [by right|left; rewrite H1; set_solver].
  - unfold zlen. rewrite (Permutation_length H1), (Permutation_length H2). simpl. lia.
  - split; [done|]. exists (r ++ rest). split; [by rewrite H3, H1|by rewrite H4, H2].
Qed.

(** An untouched or formerly non-empty bucket keeps the rehashed part empty. *)
Lemma wf_set_ht0 d h0 :
  wf d -> ht_ok (ht0 d) -> ht_ok h0 -> size h0 = size (ht0 d) ->
  (forall i, table (ht0 d) !! i = Some [] -> table h0 !! i = Some []) ->
  NoDup (key <$> entries h0 ++ entries (ht1 d)) ->
  wf (mkDict h0 (ht1 d) (rehashidx d) (iterators d)).
Proof.
  intros [H0 Hid Hre Hk Hit] Hok Hok' Hs Hlow Hnd. split; cbn; try done; [by right|].
  intros Hr. destruct (Hre Hr) as (_ & H1 & Hi & Hl). split_and!; try done; [lia|lia|]. auto.
Qed.

Lemma wf_set_ht1 d h1 :
  wf d -> dictIsRehashing d = true -> ht_ok h1 ->
  NoDup (key <$> entries (ht0 d) ++ entries h1) ->
  wf (mkDict (ht0 d) h1 (rehashidx d) (iterators d)).
Proof.
  intros [H0 Hid Hre Hk Hit] Hr Hok' Hnd. split; cbn; try done.
  - unfold dictIsRehashing in *. cbn. by rewrite Hr.
  - intros _. destruct (Hre Hr) as (? & _ & Hi & Hl). done.
Qed.

Lemma set_bucket_low ht idx b b' n i :
  bucket ht idx = Some b -> b <> [] -> table ht !! i = Some [] ->
  table (set_bucket ht idx b' n) !! i = Some [].
Proof.
  intros [H0 Ht]%bucket_table Hne Hi. cbn. rewrite list_lookup_insert_ne; [done|]. intros <-. congruence.
Qed.

(** ** The operations on the abstract entries *)

Definition absent k d : Prop := forall v, mkEntry k v ∉ all_entries d.

Lemma dictFind_ok d k :
  wf d ->
  exists d' r, dictFind d k = Some (d', r) /\ wf d' /\ same_entries d d' /\
    match r with
    | None => absent k d'
    | Some (t, idx, v) =>
      let ht := if t : bool then ht1 d' else ht0 d' in
      ht_ok (ht0 d') /\ ht_ok ht /\ (t = true -> dictIsRehashing d' = true) /\ idx = slot ht k /\
      exists b, bucket ht idx = Some b /\ bucket_find k b = Some v
    end.
Proof.
  intros Hwf. unfold dictFind, absent. destruct (Z.eqb_spec (size (ht0 d)) 0) as [Hz|Hz].
  - exists d, None. split_and!; try done; [by unfold same_entries|]. intros v.
    destruct (wf_ht0 _ Hwf) as [H0|H0]; [|destruct (ht_ok_table _ H0); lia].
    destruct (dictIsRehashing d) eqn:Hr.
    + destruct (wf_rehash _ Hwf Hr) as (Hok & _). rewrite H0 in Hok. destruct (ht_ok_table _ Hok); done.
    + unfold all_entries. rewrite H0, (wf_idle _ Hwf Hr). set_solver.
  - destruct (rehash_if_needed_ok d Hwf) as (d1 & -> & Hw1 & Hs1 & Hok). cbn [mbind option_bind].
    specialize (Hok (wf_size0 _ Hwf Hz)).
    destruct (find_in_ht (ht0 d1) k Hok) as (b0 & Hb0 & Hf0 & Hn0). rewrite Hb0. cbn [mbind option_bind].
    destruct (bucket_find k b0) as [v|] eqn:Hv.
    { eexists _, _. split; [done|]. split_and!; try done. eauto. }
    unfold all_entries. destruct (dictIsRehashing d1) eqn:Hr.
    + destruct (wf_rehash _ Hw1 Hr) as (_ & Hok1 & _).
      destruct (find_in_ht (ht1 d1) k Hok1) as (b1 & Hb1 & Hf1 & Hn1). rewrite Hb1. cbn [mbind option_bind].
      destruct (bucket_find k b1) as [v|] eqn:Hv1; cbn.
      * eexists _, _. split; [done|]. split_and!; try done. eauto.
      * eexists _, None. split_and!; try done. intros v. specialize (Hn0 eq_refl v). specialize (Hn1 eq_refl v).
        unfold all_entries. set_solver.
    + eexists _, None. split_and!; try done. intros v. unfold all_entries. rewrite (wf_idle _ Hw1 Hr).
      specialize (Hn0 eq_refl v). rewrite entries_reset, app_nil_r. done.
Qed.

Lemma expand_if_needed_ok cr d :
  wf d -> dictSize d <= 2 ^ 28 ->
  exists d', _dictExpandIfNeeded cr d = Some (d', true) /\ wf d' /\ same_entries d d' /\ ht_ok (ht0 d').
Proof.
  intros Hwf Hsz. unfold _dictExpandIfNeeded. destruct (dictIsRehashing d) eqn:Hr.
  { exists d. destruct (wf_rehash _ Hwf Hr) as (Hok & _). split_and!; try done. by unfold same_entries. }
  assert (Hexp : forall sz, sz <= 2 ^ 30 -> used (ht0 d) <= sz ->
    exists d', dictExpand d sz = Some (d', true) /\ wf d' /\ same_entries d d' /\ ht_ok (ht0 d')).
  { intros sz H1 H2. destruct (dictExpand_ok d sz Hwf H1) as (d' & ok & He & Hw & Hs & _ & Hok & Hht).
    rewrite Hr in Hok. destruct (Z.ltb_spec sz (used (ht0 d))); [lia|]. cbn in Hok. subst ok. eauto 6. }
  destruct (Z.eqb_spec (size (ht0 d)) 0) as [Hz|Hz].
  - apply Hexp; unfold DICT_HT_INITIAL_SIZE; [lia|].
    destruct (wf_ht0 _ Hwf) as [->|H0]; [cbn; lia|destruct (ht_ok_table _ H0); lia].
  - pose proof (wf_size0 _ Hwf Hz) as Hok. pose proof (wf_nonneg _ Hok).
    pose proof (wf_idle _ Hwf Hr) as H1. unfold dictSize in Hsz. rewrite H1 in Hsz. cbn in Hsz.
    destruct (Z.leb_spec (size (ht0 d)) (used (ht0 d))); cbn [andb].
    2:{ exists d. split_and!; try done. by unfold same_entries. }
    destruct (cr || _).
    2:{ exists d. split_and!; try done. by unfold same_entries. }
    destruct (Z.ltb_spec (used (ht0 d)) (size (ht0 d))); [lia|].
    rewrite uwrap_id by (unfold in_uint; lia). apply Hexp; lia.
Qed.

Lemma swrap_slot ht k : ht_ok ht -> swrap 32 (slot ht k) = slot ht k.
Proof.
  intros Hok. pose proof (slot_range ht k Hok). destruct (ht_ok_table _ Hok).
  apply swrap_id; [lia|]. unfold in_int. lia.
Qed.

Lemma wf_dictSize d : wf d -> dictSize d = zlen (all_entries d).
Proof.
  intros Hwf. unfold dictSize, all_entries. rewrite zlen_app.
  assert (H1 : ht1 d = _dictReset \/ ht_ok (ht1 d)).
  { destruct (dictIsRehashing d) eqn:Hr; [right|left; by apply (wf_idle _ Hwf)].
    by destruct (wf_rehash _ Hwf Hr) as (_ & ? & _). }
  assert (Hu : forall ht, ht = _dictReset \/ ht_ok ht -> used ht = zlen (entries ht)).
  { intros ht [->|H]; [done|apply (ht_used _ H)]. }
  by rewrite (Hu _ (wf_ht0 _ Hwf)), (Hu _ H1).
Qed.

Lemma same_entries_size d d' : wf d -> wf d' -> same_entries d d' -> dictSize d' = dictSize d.
Proof.
  intros Hw Hw' Hs. rewrite !wf_dictSize by done. unfold zlen. by rewrite (Permutation_length Hs).
Qed.

(** The index returned by _dictKeyIndex, in the table that takes new entries. *)
Definition target_ht d : dictht := if dictIsRehashing d then ht1 d else ht0 d.

Lemma key_index_ok cr d k :
  wf d -> dictSize d <= 2 ^ 28 ->
  exists d' idx, _dictKeyIndex cr d k = Some (d', idx) /\ wf d' /\ same_entries d d' /\
    ((idx = -1 /\ ~ absent k d') \/
     (idx = slot (target_ht d') k /\ 0 <= idx /\ ht_ok (target_ht d') /\ absent k d')).
Proof.
  intros Hwf Hsz. unfold _dictKeyIndex, absent, target_ht.
  destruct (expand_if_needed_ok cr d Hwf Hsz) as (d2 & -> & Hw2 & Hs2 & Hok). cbn [mbind option_bind negb].
  destruct (find_in_ht (ht0 d2) k Hok) as (b0 & -> & Hf0 & Hn0). cbn [mbind option_bind].
  destruct (decide (is_Some (bucket_find k b0))) as [[v0 Hv0]|Hv0].
  { exists d2, (-1). split_and!; try done. left. split; [done|]. intros Habs. apply (Habs v0).
    unfold all_entries. specialize (Hf0 _ Hv0). set_solver. }
  apply eq_None_not_Some in Hv0. specialize (Hn0 Hv0). destruct (dictIsRehashing d2) eqn:Hr.
  - destruct (wf_rehash _ Hw2 Hr) as (_ & Hok1 & _).
    destruct (find_in_ht (ht1 d2) k Hok1) as (b1 & -> & Hf1 & Hn1). cbn [mbind option_bind].
    destruct (decide (is_Some (bucket_find k b1))) as [[v1 Hv1]|Hv1].
    { exists d2, (-1). split_and!; try done. left. split; [done|]. intros Habs. apply (Habs v1).
      unfold all_entries. specialize (Hf1 _ Hv1). set_solver. }
    apply eq_None_not_Some in Hv1. specialize (Hn1 Hv1).
    eexists _, _. split; [done|]. split; [done|]. split; [done|]. right. rewrite Hr.
    rewrite swrap_slot by done. split_and!; [done|apply slot_range; done|done|].
    intros v. specialize (Hn0 v). specialize (Hn1 v). unfold all_entries. set_solver.
  - eexists _, _. split; [done|]. split; [done|]. split; [done|]. right. rewrite Hr.
    rewrite swrap_slot by done. split_and!; [done|apply slot_range; done|done|].
    intros v. unfold all_entries. rewrite (wf_idle _ Hw2 Hr), entries_reset, app_nil_r. apply Hn0.
Qed.

Lemma absent_ext k d d' : same_entries d d' -> absent k d' <-> absent k d.
Proof. intros Hs. unfold absent, same_entries in *. by setoid_rewrite Hs. Qed.

Lemma absent_keys k d : absent k d -> k ∉ key <$> all_entries d.
Proof. intros Ha ([k' v] & Hk & Hin)%list_elem_of_fmap. cbn in Hk. subst k'. by apply (Ha v). Qed.

Lemma dictAdd_ok cr d k v :
  wf d -> dictSize d <= 2 ^ 28 ->
  exists d' ok, dictAdd cr d k v = Some (d', ok) /\ wf d' /\
    ((ok = true /\ absent k d /\ all_entries d' ≡ₚ mkEntry k v :: all_entries d) \/
     (ok = false /\ ~ absent k d /\ same_entries d d')).
Proof.
  intros Hwf Hsz. unfold dictAdd.
  destruct (rehash_if_needed_ok d Hwf) as (d1 & -> & Hw1 & Hs1 & _). cbn [mbind option_bind].
  destruct (key_index_ok cr d1 k Hw1) as (d2 & idx & -> & Hw2 & Hs2 & Hidx).
  { rewrite (same_entries_size d d1) by done. done. }
  cbn [mbind option_bind]. assert (Hs : same_entries d d2) by (unfold same_entries in *; by rewrite Hs2, Hs1).
  destruct Hidx as [[-> Hab]|(-> & H0 & Hok & Hab)].
  { exists d2, false. split; [done|]. split; [done|]. right. by rewrite <- (absent_ext k d d2). }
  destruct (Z.eqb_spec (slot (target_ht d2) k) (-1)); [lia|].
  destruct (bucket_Some _ _ (slot_range _ k Hok) Hok) as (b & Hb & _).
  unfold target_ht in *. rewrite Hb. cbn [mbind option_bind].
  pose proof (absent_keys _ _ Hab) as Hnk. pose proof (wf_keys _ Hw2) as Hnd.
  destruct (insert_ok _ (mkEntry k v) b Hok Hb) as [Hok' He'].
  eexists _, true. split; [done|].
  destruct (dictIsRehashing d2) eqn:Hr; cbn [key] in *.
  - assert (Hp : entries (ht0 d2) ++ entries (set_bucket (ht1 d2) (slot (ht1 d2) k) (mkEntry k v :: b)
      (used (ht1 d2) + 1)) ≡ₚ mkEntry k v :: all_entries d2).
    { rewrite He'. unfold all_entries. by rewrite Permutation_middle. }
    split; [apply wf_set_ht1; try done; rewrite Hp, fmap_cons; by apply list.NoDup_cons|].
    left. split; [done|]. split; [by rewrite <- (absent_ext k d d2)|]. unfold same_entries in Hs.
    unfold all_entries in *. cbn [ht0 ht1]. by rewrite Hp, Hs.
  - assert (Hp : entries (set_bucket (ht0 d2) (slot (ht0 d2) k) (mkEntry k v :: b)
      (used (ht0 d2) + 1)) ++ entries (ht1 d2) ≡ₚ mkEntry k v :: all_entries d2) by (by rewrite He').
    split.
    + split; cbn; try done; [by right|by apply (wf_idle _ Hw2)|unfold dictIsRehashing in *; cbn; by rewrite Hr| |by apply (wf_iters _ Hw2)].
      unfold all_entries. cbn [ht0 ht1]. rewrite Hp, fmap_cons. by apply list.NoDup_cons.
    + left. split; [done|]. split; [by rewrite <- (absent_ext k d d2)|]. unfold same_entries in Hs.
      unfold all_entries in *. cbn [ht0 ht1]. by rewrite Hp, Hs.
Qed.

Lemma dictGenericDelete_ok d k :
  wf d ->
  exists d' r, dictGenericDelete d k = Some (d', r) /\ wf d' /\
    match r with
    | Some e => key e = k /\ all_entries d ≡ₚ e :: all_entries d'
    | None => absent k d /\ same_entries d d'
    end.
Proof.
  intros Hwf. unfold dictGenericDelete. destruct (Z.eqb_spec (size (ht0 d)) 0) as [Hz|Hz].
  { destruct (dictFind_ok d k Hwf) as (d' & r & Hf & Hw & Hs & Hr). unfold dictFind in Hf.
    rewrite (proj2 (Z.eqb_eq _ _) Hz) in Hf. injection Hf as <- <-. exists d, None. auto. }
  destruct (rehash_if_needed_ok d Hwf) as (d1 & -> & Hw1 & Hs1 & Hok). cbn [mbind option_bind].
  specialize (Hok (wf_size0 _ Hwf Hz)). unfold same_entries in Hs1. pose proof (wf_keys _ Hw1) as Hnd.
  destruct (bucket_Some _ _ (slot_range _ k Hok) Hok) as (b0 & Hb0 & _). rewrite Hb0. cbn [mbind option_bind].
  pose proof (bucket_delete_spec k b0) as Hd0. destruct (bucket_delete k b0) as [[b e]|] eqn:Hdel.
  { destruct (delete_in_ht _ _ _ _ _ Hok Hb0 Hdel) as (Hok' & Hp & Hk). eexists _, _. split; [done|].
    assert (Hp' : all_entries d1 ≡ₚ e :: entries (set_bucket (ht0 d1) (slot (ht0 d1) k) b (used (ht0 d1) - 1))
      ++ entries (ht1 d1)) by (unfold all_entries; by rewrite Hp).
    split; [|split; [done|by rewrite <- Hs1, Hp']].
    apply wf_set_ht0; try done.
    - intros i. eapply set_bucket_low; [done|]. intros ->. destruct Hd0 as [_ Hd0].
      by apply Permutation_nil_cons in Hd0.
    - rewrite Hp', fmap_cons in Hnd. by apply list.NoDup_cons in Hnd as [_ ?]. }
  assert (Ha0 : forall v, mkEntry k v ∉ entries (ht0 d1)).
  { intros v Hin. apply (Hd0 v). by eapply (entry_in_slot _ (mkEntry k v)). }
  destruct (dictIsRehashing d1) eqn:Hr.
  - destruct (wf_rehash _ Hw1 Hr) as (_ & Hok1 & _).
    destruct (bucket_Some _ _ (slot_range _ k Hok1) Hok1) as (b1 & Hb1 & _). rewrite Hb1. cbn [mbind option_bind].
    pose proof (bucket_delete_spec k b1) as Hd1. destruct (bucket_delete k b1) as [[b e]|] eqn:Hdel1.
    + destruct (delete_in_ht _ _ _ _ _ Hok1 Hb1 Hdel1) as (Hok' & Hp & Hk). eexists _, _. split; [done|].
      assert (Hp' : all_entries d1 ≡ₚ e :: entries (ht0 d1) ++
        entries (set_bucket (ht1 d1) (slot (ht1 d1) k) b (used (ht1 d1) - 1)))
        by (unfold all_entries; rewrite Hp; by rewrite Permutation_middle).
      split; [|split; [done|by rewrite <- Hs1, Hp']]. apply wf_set_ht1; try done.
      rewrite Hp', fmap_cons in Hnd. by apply list.NoDup_cons in Hnd as [_ ?].
    + eexists _, None. split_and!; try done. apply (absent_ext k d d1 Hs1). intros v.
      assert (mkEntry k v ∉ entries (ht1 d1)).
      { intros Hin. apply (Hd1 v). by eapply (entry_in_slot _ (mkEntry k v)). }
      specialize (Ha0 v). unfold all_entries. set_solver.
  - eexists _, None. split_and!; try done. apply (absent_ext k d d1 Hs1). intros v. specialize (Ha0 v).
    unfold all_entries. rewrite (wf_idle _ Hw1 Hr). rewrite entries_reset, app_nil_r. done.
Qed.

Lemma dictReplace_ok cr d k v :
  wf d -> dictSize d <= 2 ^ 28 ->
  exists d' n f, dictReplace cr d k v = Some (d', n, f) /\ wf d' /\
    ((n = 1 /\ f = None /\ absent k d /\ all_entries d' ≡ₚ mkEntry k v :: all_entries d) \/
     (n = 0 /\ exists old rest, f = Some old /\ all_entries d ≡ₚ mkEntry k old :: rest /\
        all_entries d' ≡ₚ mkEntry k v :: rest)).
Proof.
  intros Hwf Hsz. unfold dictReplace.
  destruct (dictAdd_ok cr d k v Hwf Hsz) as (d1 & ok & -> & Hw1 & Hcase). cbn [mbind option_bind].
  destruct Hcase as [(-> & Ha & Hp)|(-> & Ha & Hs1)]; [exists d1, 1, None; eauto 8|].
  destruct (dictFind_ok d1 k Hw1) as (d2 & r & -> & Hw2 & Hs2 & Hr). cbn [mbind option_bind].
  assert (Hs : all_entries d2 ≡ₚ all_entries d) by (unfold same_entries in *; by rewrite Hs2, Hs1).
  destruct r as [[[t idx] old]|].
  2:{ destruct Ha. apply (absent_ext k d d2); done. }
  cbn [mbind option_bind]. destruct Hr as (Hok0 & Hok & Hre & -> & b & Hb & Hf). rewrite Hb.
  cbn [mbind option_bind]. destruct (set_in_ht _ k v old b Hok Hb Hf) as (Hok' & rest & H1 & H2).
  pose proof (wf_keys _ Hw2) as Hnd. destruct t.
  - eexists _, _, _. split; [done|].
    assert (H3 : all_entries d2 ≡ₚ mkEntry k old :: entries (ht0 d2) ++ rest)
      by (unfold all_entries; rewrite H1; by rewrite Permutation_middle).
    assert (H4 : entries (ht0 d2) ++ entries (set_bucket (ht1 d2) (slot (ht1 d2) k) (bucket_set k v b)
      (used (ht1 d2))) ≡ₚ mkEntry k v :: entries (ht0 d2) ++ rest)
      by (rewrite H2; by rewrite Permutation_middle).
    split; [|right; split; [done|]; eexists _, _; split; [done|]; split; [rewrite <- Hs; exact H3|exact H4]].
    apply wf_set_ht1; [done|auto|done|]. rewrite H4, fmap_cons. rewrite H3, fmap_cons in Hnd. done.
  - eexists _, _, _. split; [done|].
    assert (H3 : all_entries d2 ≡ₚ mkEntry k old :: rest ++ entries (ht1 d2))
      by (unfold all_entries; by rewrite H1).
    assert (H4 : entries (set_bucket (ht0 d2) (slot (ht0 d2) k) (bucket_set k v b)
      (used (ht0 d2))) ++ entries (ht1 d2) ≡ₚ mkEntry k v :: rest ++ entries (ht1 d2)) by (by rewrite H2).
    split; [|right; split; [done|]; eexists _, _; split; [done|]; split; [rewrite <- Hs; exact H3|exact H4]].
    apply wf_set_ht0; try done.
    + intros i. eapply set_bucket_low; [done|]. intros ->. done.
    + rewrite H4, fmap_cons. rewrite H3, fmap_cons in Hnd. done.
Qed.

Lemma dictResize_ok cr d :
  wf d -> dictSize d <= 2 ^ 28 ->
  exists d' ok, dictResize cr d = Some (d', ok) /\ wf d' /\ same_entries d d' /\
    ok = cr && negb (dictIsRehashing d).
Proof.
  intros Hwf Hsz. unfold dictResize. destruct cr; cbn [negb orb andb].
  2:{ exists d, false. split_and!; try done. by unfold same_entries. }
  destruct (dictIsRehashing d) eqn:Hr.
  { exists d, false. split_and!; try done. by unfold same_entries. }
  assert (Hu : 0 <= used (ht0 d) <= 2 ^ 28).
  { unfold dictSize in Hsz. rewrite (wf_idle _ Hwf Hr) in Hsz. cbn in Hsz. split; [|lia].
    destruct (wf_ht0 _ Hwf) as [->|H0]; [done|by apply wf_nonneg]. }
  rewrite swrap_id by (unfold in_int; lia). unfold DICT_HT_INITIAL_SIZE.
  rewrite uwrap_id by (unfold in_uint; destruct (used (ht0 d) <? 4); lia).
  destruct (dictExpand_ok d (if used (ht0 d) <? 4 then 4 else used (ht0 d)) Hwf)
    as (d' & ok & -> & Hw & Hs & _ & Hok & _); [destruct (used (ht0 d) <? 4); lia|].
  exists d', ok. split_and!; try done. rewrite Hok, Hr. cbn [orb negb].
  destruct (Z.ltb_spec (used (ht0 d)) 4); [destruct (Z.ltb_spec 4 (used (ht0 d)))|rewrite Z.ltb_irrefl]; done || lia.
Qed.

Lemma clear_loop_ok t : forall n freed,
  n = zlen (concat t) -> clear_loop t n freed = freed ++ concat t.
Proof.
  induction t as [|b t IH]; intros n freed Hn; cbn [clear_loop concat]; [by rewrite app_nil_r|].
  simpl in Hn. rewrite zlen_app in Hn. pose proof (zlen_nonneg b). pose proof (zlen_nonneg (concat t)).
  destruct (Z.ltb_spec 0 n).
  - rewrite IH by lia. by rewrite app_assoc.
  - assert (b = []) as -> by (destruct b; [done|rewrite zlen_cons in *; pose proof (zlen_nonneg b); lia]).
    assert (concat t = []) as -> by (destruct (concat t); [done|rewrite zlen_cons in *; pose proof (zlen_nonneg l); lia]).
    by rewrite app_nil_r.
Qed.

Lemma dictEmpty_ok d :
  wf d -> wf (fst (dictEmpty d)) /\ all_entries (fst (dictEmpty d)) = [] /\ snd (dictEmpty d) = all_entries d.
Proof.
  intros Hwf. unfold dictEmpty, _dictClear, all_entries. cbn [fst snd ht0 ht1].
  split_and!; [|done|].
  - split; cbn; try done; [by left|constructor].
  - assert (Hu : forall ht, ht = _dictReset \/ ht_ok ht -> used ht = zlen (entries ht)).
    { intros ht [->|H]; [done|apply (ht_used _ H)]. }
    rewrite !clear_loop_ok; [done|..]; apply Hu; [|apply (wf_ht0 _ Hwf)].
    destruct (dictIsRehashing d) eqn:Hr; [right|left; by apply (wf_idle _ Hwf)].
    by destruct (wf_rehash _ Hwf Hr) as (_ & ? & _).
Qed.

(** ** Iteration *)

(** The entries an iterator has not returned yet. *)
Definition remaining d (it : dictIterator) : list dictEntry :=
  inext it ++ concat (drop (Z.to_nat (iindex it + 1)) (table (if itable it then ht1 d else ht0 d))) ++
  (if dictIsRehashing d && negb (itable it) then entries (ht1 d) else []).

Definition iter_ok d (it : dictIterator) : Prop :=
  -1 <= iindex it /\ (ientry it = None -> inext it = []) /\ (itable it = true -> dictIsRehashing d = true).

(** The buckets that are left, an upper bound for the iterations of the loop. *)
Definition buckets_left d (it : dictIterator) : nat :=
  (length (drop (Z.to_nat (iindex it + 1)) (table (if itable it then ht1 d else ht0 d))) +
   (if itable it then 0 else S (length (table (ht1 d)))) +
   match ientry it with Some _ => 1 | None => 0 end)%nat.

Definition max_buckets d : nat := (length (table (ht0 d)) + length (table (ht1 d)) + 3)%nat.

Lemma buckets_left_max d it : (buckets_left d it < max_buckets d)%nat.
Proof.
  unfold buckets_left, max_buckets. rewrite length_drop. destruct (itable it), (ientry it); lia.
Qed.

(** Past the last bucket of the first table. *)
Lemma remaining_end d t i :
  -1 <= i -> size (if t : bool then ht1 d else ht0 d) <= i + 1 ->
  zlen (table (if t : bool then ht1 d else ht0 d)) = size (if t : bool then ht1 d else ht0 d) ->
  remaining d (mkIter t i None []) = if dictIsRehashing d && negb t then entries (ht1 d) else [].
Proof.
  intros Hi Hge Hlen. unfold remaining. cbn [inext itable iindex app].
  rewrite drop_ge by (unfold zlen in *; lia). done.
Qed.

Lemma remaining_entry d t i e b :
  remaining d (mkIter t i e b) = b ++ remaining d (mkIter t i None []).
Proof. done. Qed.

Lemma remaining_next d t i b :
  -1 <= i -> table (if t : bool then ht1 d else ht0 d) !! Z.to_nat (i + 1) = Some b ->
  remaining d (mkIter t i None []) = b ++ remaining d (mkIter t (i + 1) None []).
Proof.
  intros Hi Hb. unfold remaining. cbn [inext itable iindex app]. rewrite (drop_S _ _ _ Hb).
  cbn [concat]. rewrite <- app_assoc. by replace (S (Z.to_nat (i + 1))) with (Z.to_nat (i + 1 + 1)) by lia.
Qed.

(** dictNext returns the first remaining entry and removes it from the remaining ones. *)
Lemma dictNext_spec d fuel : forall it,
  wf d -> iter_ok d it -> (buckets_left d it < fuel)%nat ->
  exists it', dictNext fuel d it = Some (list.head (remaining d it), it') /\ iter_ok d it' /\
    remaining d it' = list.tail (remaining d it).
Proof.
  intros it Hwf. revert it. induction fuel as [|fuel IH]; intros [t i e nx] (Hi & He & Ht) Hf; [lia|].
  cbn [iindex ientry inext itable] in *. cbn [dictNext ientry inext itable iindex].
  assert (Hlen : zlen (table (if t then ht1 d else ht0 d)) = size (if t then ht1 d else ht0 d)).
  { destruct t.
    - destruct (wf_rehash _ Hwf (Ht eq_refl)) as (_ & Hok & _). apply (ht_len _ Hok).
    - destruct (wf_ht0 _ Hwf) as [->|Hok]; [done|apply (ht_len _ Hok)]. }
  destruct e as [e|].
  { destruct nx as [|e' nx].
    - apply (IH (mkIter t i None [])); [by split_and!|].
      unfold buckets_left in *. cbn [ientry itable iindex] in *. lia.
    - eexists. split; [done|]. split; [by split_and!|done]. }
  rewrite (He eq_refl) in *.
  destruct (Z.leb_spec (size (if t then ht1 d else ht0 d)) (i + 1)) as [Hge|Hlt].
  - rewrite (remaining_end d t i Hi Hge Hlen).
    destruct (dictIsRehashing d && negb t) eqn:Hrt.
    + apply andb_prop in Hrt as [Hr Hnt]. destruct t; [done|].
      destruct (wf_rehash _ Hwf Hr) as (_ & Hok1 & _). destruct (ht_ok_table _ Hok1) as [_ Hs1].
      destruct (bucket_Some (ht1 d) 0 ltac:(lia) Hok1) as (b & Hb & Hb'). rewrite Hb. cbn [mbind option_bind].
      assert (Hsplit : entries (ht1 d) = b ++ remaining d (mkIter true 0 None [])).
      { change 0 with (-1 + 1). rewrite <- (remaining_next d true (-1) b) by (done || lia). unfold remaining.
        cbn [inext itable iindex app]. rewrite Hr. cbn [andb negb]. by rewrite app_nil_r. }
      rewrite Hsplit. destruct b as [|e b].
      * apply (IH (mkIter true 0 None [])); [by split_and!|].
        unfold buckets_left in *. cbn [ientry itable iindex] in *. rewrite length_drop. lia.
      * eexists. split; [done|]. split; [by split_and!|done].
    + eexists. split; [done|]. split; [split_and!; [cbn; lia|done|done]|].
      rewrite (remaining_end d t (i + 1)) by (done || lia). by rewrite Hrt.
  - destruct (table (if t then ht1 d else ht0 d) !! Z.to_nat (i + 1)) as [b|] eqn:Hb.
    2:{ apply lookup_ge_None in Hb. unfold zlen in *. lia. }
    rewrite (remaining_next d t i b Hi Hb). unfold bucket.
    destruct (Z.ltb_spec (i + 1) 0); [lia|]. rewrite Hb. cbn [mbind option_bind]. destruct b as [|e b].
    + apply (IH (mkIter t (i + 1) None [])); [split_and!; [cbn; lia|done|done]|].
      unfold buckets_left in *. cbn [ientry itable iindex] in *. rewrite !length_drop in *.
      apply lookup_lt_Some in Hb. destruct t; lia.
    + eexists. split; [done|]. split; [split_and!; [cbn; lia|done|done]|done].
Qed.

(** The documented loop [while((de = dictNext(iter)) != NULL)]. *)
Fixpoint iterate_all (n : nat) d (it : dictIterator) : option (list dictEntry) :=
  match n with
  | O => None
  | S n =>
    r ← dictNext (max_buckets d) d it;
    match fst r with
    | None => Some []
    | Some e => l ← iterate_all n d (snd r); Some (e :: l)
    end
  end.

Lemma remaining_all d : wf d -> remaining d dictGetIterator = all_entries d.
Proof.
  intros Hw. unfold remaining, all_entries. cbn [inext itable iindex dictGetIterator app].
  change (Z.to_nat (-1 + 1)) with 0%nat. rewrite drop_0. f_equal.
  destruct (dictIsRehashing d) eqn:Hre; [done|]. by rewrite (wf_idle _ Hw Hre).
Qed.

Lemma iterate_all_ok n d : forall it,
  wf d -> iter_ok d it -> (length (remaining d it) < n)%nat -> iterate_all n d it = Some (remaining d it).
Proof.
  induction n as [|n IH]; intros it Hwf Hok Hn; [lia|]. cbn [iterate_all].
  destruct (dictNext_spec d (max_buckets d) it Hwf Hok (buckets_left_max d it)) as (it' & -> & Hok' & Hr).
  cbn [mbind option_bind fst snd]. destruct (remaining d it) as [|e l]; [done|].
  cbn [list.head]. cbn [list.tail] in Hr. rewrite IH by (rewrite ?Hr; simpl in *; done || lia).
  cbn. by rewrite Hr.
Qed.

(** ** Refinement of a finite map *)

Context `{!Countable K}.

Definition refines d (m : gmap K V) : Prop :=
  wf d /\ forall k v, mkEntry k v ∈ all_entries d <-> m !! k = Some v.

Lemma refines_perm d d' m : refines d m -> wf d' -> same_entries d d' -> refines d' m.
Proof. intros [_ Hm] Hw Hs. split; [done|]. intros k v. unfold same_entries in Hs. by rewrite Hs. Qed.

Lemma refines_absent d m k : refines d m -> absent k d <-> m !! k = None.
Proof.
  intros [_ Hm]. unfold absent. split.
  - intros Ha. apply eq_None_not_Some. intros [v Hv]. by apply (Ha v), Hm.
  - intros Hn v Hv%Hm. congruence.
Qed.

Lemma refines_insert d d' m k v :
  refines d m -> wf d' -> absent k d -> all_entries d' ≡ₚ mkEntry k v :: all_entries d ->
  refines d' (<[k := v]> m).
Proof.
  intros Hr Hw Ha Hp. pose proof (proj1 (refines_absent d m k Hr) Ha) as Hn. destruct Hr as [_ Hm].
  split; [done|]. intros k' v'. rewrite Hp, elem_of_cons, Hm, lookup_insert_Some. split.
  - intros [[= -> ->]|H]; [by left|]. right. split; [congruence|done].
  - intros [[-> ->]|[_ H]]; auto.
Qed.

Lemma refines_NoDup d m k e rest :
  refines d m -> all_entries d ≡ₚ e :: rest -> key e = k ->
  m !! k = Some (val e) /\ (forall k' v', mkEntry k' v' ∈ rest <-> delete k m !! k' = Some v').
Proof.
  intros [Hw Hm] Hp Hk. destruct e as [k0 v0]. cbn in Hk. subst k0.
  pose proof (wf_keys _ Hw) as Hnd. rewrite Hp, fmap_cons in Hnd. apply list.NoDup_cons in Hnd as [Hnin _].
  assert (Hkv : m !! k = Some v0) by (apply Hm; rewrite Hp; set_solver). split; [done|].
  intros k' v'. rewrite lookup_delete_Some, <- Hm, Hp, elem_of_cons. split.
  - intros Hin. split; [|by right]. intros <-. apply Hnin. apply list_elem_of_fmap.
    by exists (mkEntry k v').
  - intros [Hne [[= -> ->]|Hin]]; done.
Qed.

Lemma dict_refines_size d m : refines d m -> dictSize d = Z.of_nat (base.size m).
Proof.
  intros [Hw Hm]. rewrite wf_dictSize by done. unfold zlen. f_equal.
  rewrite <- length_map_to_list, <- (length_fmap (fun e => (key e, val e)) (all_entries d)).
  apply Permutation_length. apply NoDup_Permutation.
  - apply (NoDup_fmap_1 fst). rewrite <- list_fmap_compose. exact (wf_keys _ Hw).
  - apply NoDup_map_to_list.
  - intros [k v]. rewrite elem_of_map_to_list, <- Hm, list_elem_of_fmap. split.
    + intros ([k' v'] & [= -> ->] & Hin). done.
    + intros Hin. by exists (mkEntry k v).
Qed.

Inductive op :=
  | OAdd (can_resize : bool) (k : K) (v : V)
  | OReplace (can_resize : bool) (k : K) (v : V)
  | ODelete (k : K)
  | OFind (k : K)
  | OResize (can_resize : bool)
  | OExpand (sz : Z)
  | ORehash (n : nat)
  | OEmpty.

Inductive response := RBool (b : bool) | RReplace (n : Z) (freed : option V) | RVal (v : option V) | RUnit.

Definition exec d (o : op) : option (dict * response) :=
  match o with
  | OAdd cr k v => r ← dictAdd cr d k v; Some (fst r, RBool (snd r))
  | OReplace cr k v => r ← dictReplace cr d k v; Some (fst (fst r), RReplace (snd (fst r)) (snd r))
  | ODelete k => r ← dictGenericDelete d k; Some (fst r, RVal (option_map val (snd r)))
  | OFind k => r ← dictFetchValue d k; Some (fst r, RVal (snd r))
  | OResize cr => r ← dictResize cr d; Some (fst r, RUnit)
  | OExpand sz => r ← dictExpand d sz; Some (fst r, RUnit)
  | ORehash n => r ← dictRehash d n; Some (fst r, RUnit)
  | OEmpty => Some (fst (dictEmpty d), RUnit)
  end.

Definition spec (m : gmap K V) (o : op) : gmap K V * response :=
  match o with
  | OAdd _ k v => match m !! k with Some _ => (m, RBool false) | None => (<[k := v]> m, RBool true) end
  | OReplace _ k v => (<[k := v]> m, match m !! k with Some old => RReplace 0 (Some old) | None => RReplace 1 None end)
  | ODelete k => (delete k m, RVal (m !! k))
  | OFind k => (m, RVal (m !! k))
  | OResize _ | OExpand _ | ORehash _ => (m, RUnit)
  | OEmpty => (∅, RUnit)
  end.

Definition op_ok (o : op) : Prop := match o with OExpand sz => sz <= 2 ^ 30 | _ => True end.

Lemma exec_refines d m o :
  refines d m -> op_ok o -> Z.of_nat (base.size m) <= 2 ^ 28 ->
  exists d', exec d o = Some (d', snd (spec m o)) /\ refines d' (fst (spec m o)).
Proof.
  intros Hr Ho Hb. pose proof (proj1 Hr) as Hw. rewrite <- (dict_refines_size d m Hr) in Hb.
  destruct o as [cr k v|cr k v|k|k|cr|sz|n|]; cbn [exec spec].
  - destruct (dictAdd_ok cr d k v Hw Hb) as (d' & ok & -> & Hw' & Hc). cbn [mbind option_bind fst snd].
    destruct Hc as [(-> & Ha & Hp)|(-> & Ha & Hs)].
    + rewrite (proj1 (refines_absent d m k Hr) Ha). exists d'. split; [done|]. by eapply refines_insert.
    + rewrite (refines_absent d m k Hr) in Ha. destruct (m !! k) as [v'|]; [|done].
      exists d'. split; [done|]. by eapply refines_perm.
  - destruct (dictReplace_ok cr d k v Hw Hb) as (d' & n & f & -> & Hw' & Hc). cbn [mbind option_bind fst snd].
    destruct Hc as [(-> & -> & Ha & Hp)|(-> & old & rest & -> & Hp & Hp')].
    + rewrite (proj1 (refines_absent d m k Hr) Ha). exists d'. split; [done|]. by eapply refines_insert.
    + destruct (refines_NoDup d m k (mkEntry k old) rest Hr Hp eq_refl) as [Hk Hrest]. rewrite Hk.
      exists d'. split; [done|]. split; [done|]. intros k' v'.
      rewrite Hp', elem_of_cons, Hrest, lookup_insert_Some, lookup_delete_Some. split.
      * intros [[= -> ->]|H]; [by left|by right].
      * intros [[-> ->]|H]; [by left|by right].
  - destruct (dictGenericDelete_ok d k Hw) as (d' & r & -> & Hw' & Hc). cbn [mbind option_bind fst snd].
    destruct r as [e|]; cbn [option_map].
    + destruct Hc as [Hk Hp]. destruct (refines_NoDup d m k e _ Hr Hp Hk) as [-> Hrest].
      exists d'. split; [done|]. by split.
    + destruct Hc as [Ha Hs]. pose proof (proj1 (refines_absent d m k Hr) Ha) as Hn. rewrite Hn.
      exists d'. split; [done|]. rewrite delete_id by done. by eapply refines_perm.
  - unfold dictFetchValue. destruct (dictFind_ok d k Hw) as (d' & r & -> & Hw' & Hs & Hc).
    cbn [mbind option_bind fst snd]. pose proof (refines_perm d d' m Hr Hw' Hs) as Hr'. exists d'.
    split; [|done]. destruct r as [[[t idx] v]|]; cbn [option_map snd].
    + destruct Hc as (_ & Hok & _ & -> & b & Hb' & Hf). do 3 f_equal. symmetry. apply Hr'.
      apply bucket_find_Some in Hf. pose proof (bucket_in_entries _ _ _ _ Hb' Hf) as Hin.
      unfold all_entries. destruct t; set_solver.
    + by rewrite (proj1 (refines_absent d' m k Hr') Hc).
  - destruct (dictResize_ok cr d Hw Hb) as (d' & ok & -> & Hw' & Hs & _). cbn.
    exists d'. split; [done|]. by eapply refines_perm.
  - destruct (dictExpand_ok d sz Hw Ho) as (d' & ok & -> & Hw' & Hs & _). cbn.
    exists d'. split; [done|]. by eapply refines_perm.
  - destruct (dictRehash_ok d n Hw) as (d' & r & -> & Hw' & Hs & _). cbn.
    exists d'. split; [done|]. by eapply refines_perm.
  - destruct (dictEmpty_ok d Hw) as (Hw' & He & _). eexists. split; [done|]. split; [done|].
    intros k v. rewrite He. cbn [fst]. rewrite lookup_empty. set_solver.
Qed.

Fixpoint exec_all d (os : list op) : option (dict * list response) :=
  match os with
  | [] => Some (d, [])
  | o :: os => r ← exec d o; rs ← exec_all (fst r) os; Some (fst rs, snd r :: snd rs)
  end.

Fixpoint spec_all (m : gmap K V) (os : list op) : gmap K V * list response :=
  match os with
  | [] => (m, [])
  | o :: os => let '(m, r) := spec m o in let '(m, rs) := spec_all m os in (m, r :: rs)
  end.

Lemma spec_size m o : (base.size (fst (spec m o)) <= S (base.size m))%nat.
Proof.
  destruct o as [cr k v|cr k v|k|k| | | |]; cbn [spec fst]; try lia.
  - destruct (m !! k) eqn:E; cbn [fst]; [lia|]. rewrite map_size_insert_None by done. lia.
  - rewrite map_size_insert. destruct (m !! k); simpl; lia.
  - rewrite map_size_delete. destruct (m !! k); simpl; lia.
  - rewrite map_size_empty. lia.
Qed.

Lemma exec_all_refines os : forall d m,
  refines d m -> Forall op_ok os -> Z.of_nat (base.size m) + zlen os <= 2 ^ 28 ->
  exists d', exec_all d os = Some (d', snd (spec_all m os)) /\ refines d' (fst (spec_all m os)).
Proof.
  induction os as [|o os IH]; intros d m Hr Hok Hb; cbn [exec_all spec_all]; [eauto|].
  apply Forall_cons_iff in Hok as [Ho Hok]. rewrite zlen_cons in Hb. pose proof (zlen_nonneg os).
  destruct (exec_refines d m o Hr Ho) as (d1 & -> & Hr1); [lia|]. cbn [mbind option_bind fst snd].
  pose proof (spec_size m o) as Hsz. destruct (spec m o) as [m1 r1]. cbn [fst snd] in *.
  destruct (IH d1 m1 Hr1 Hok) as (d2 & -> & Hr2); [lia|]. cbn [mbind option_bind fst snd].
  destruct (spec_all m1 os) as [m2 rs]. eauto.
Qed.

Lemma dictCreate_refines : refines dictCreate ∅.
Proof.
  split; [|intros k v; rewrite lookup_empty; cbn; set_solver].
  split; cbn; try done; [by left|constructor].
Qed.

(** C11: any sequence of dictAdd, dictReplace, dictDelete, dictFind, dictResize, dictExpand,
    dictRehash and dictEmpty on a new dictionary, with the rehashing steps they interleave,
    returns the results of the same operations on a finite map (for dictReplace and dictDelete
    also the value that is released) and ends with its contents; no read leaves a table and the
    assert of dictRehash holds.  dictSize is the number of keys and an iterator returns every
    entry exactly once. *)
Theorem dict_refines_map (os : list op) :
  Forall op_ok os -> zlen os <= 2 ^ 28 ->
  exists d, exec_all dictCreate os = Some (d, snd (spec_all ∅ os)) /\
    let m := fst (spec_all ∅ os) in
    dictSize d = Z.of_nat (base.size m) /\
    exists l, iterate_all (S (base.size m)) d dictGetIterator = Some l /\
      NoDup (key <$> l) /\ forall k v, mkEntry k v ∈ l <-> m !! k = Some v.
Proof.
  intros Hok Hb. destruct (exec_all_refines os _ _ dictCreate_refines Hok) as (d & He & Hr).
  { rewrite map_size_empty. lia. }
  exists d. split; [done|]. cbv zeta. pose proof (dict_refines_size _ _ Hr) as Hsz. split; [done|].
  destruct Hr as [Hw Hm]. rewrite wf_dictSize in Hsz by done. unfold zlen in Hsz.
  exists (all_entries d). split; [|split; [exact (wf_keys _ Hw)|exact Hm]].
  rewrite <- (remaining_all d Hw). apply iterate_all_ok; [done|by split_and!|]. rewrite (remaining_all d Hw). lia.
Qed.

(** C12: dictRehash makes progress: with a budget larger than the number of buckets of the old
    table it returns 0, the rehashing is over, and the contents are unchanged.  (With exactly as
    many steps as there are buckets it still returns 1 when the last bucket was not empty: the end
    is noticed at the start of a step.) *)
Theorem dictRehash_completes (os : list op) (d : dict) (n : nat) :
  Forall op_ok os -> zlen os <= 2 ^ 28 ->
  exec_all dictCreate os = Some (d, snd (spec_all ∅ os)) -> size (ht0 d) < Z.of_nat n ->
  exists d', dictRehash d n = Some (d', 0) /\ dictIsRehashing d' = false /\
    all_entries d' ≡ₚ all_entries d.
Proof.
  intros Hok Hb He Hn. destruct (exec_all_refines os _ _ dictCreate_refines Hok) as (d0 & He' & [Hw _]).
  { rewrite map_size_empty. lia. }
  assert (d0 = d) as -> by congruence.
  destruct (dictRehash_ok d n Hw) as (d' & r & Hd & Hw' & Hs & Hr & H0 & _).
  specialize (H0 Hn). subst r. exists d'. split; [by rewrite Hd, H0|]. split; [|done].
  destruct (dictIsRehashing d'); [lia|done].
Qed.

End Dict.

(** ** Evaluations *)

Lemma dict_refines_map_witness :
  exists d, exec_all (fun k => Z.abs k) dictCreate
    [OAdd true 1 10; OAdd true 5 50; OAdd true 9 90; OAdd true 13 130; OAdd true 17 170;
     OFind 9; OReplace true 5 51; ODelete 1; OFind 1; OAdd true 9 0] =
    Some (d, [RBool true; RBool true; RBool true; RBool true; RBool true; RVal (Some 90);
              RReplace 0 (Some 50); RVal (Some 10); RVal None; RBool false]).
Proof.
  destruct (dict_refines_map (K := Z) (V := Z) (fun k => Z.abs k) ltac:(intros; lia)
    [OAdd true 1 10; OAdd true 5 50; OAdd true 9 90; OAdd true 13 130; OAdd true 17 170;
     OFind 9; OReplace true 5 51; ODelete 1; OFind 1; OAdd true 9 0]) as (d & H & _).
  - repeat constructor.
  - vm_compute. intros H. discriminate H.
  - exists d. rewrite H. vm_compute. reflexivity.
Defined.

Definition demo_ops : list (op (K := Z) (V := Z)) :=
  [OAdd true 1 10; OAdd true 2 20; OAdd true 3 30; OAdd true 4 40; OAdd true 5 50].
Definition demo_dict : dict (K := Z) (V := Z) :=
  default dictCreate (fst <$> exec_all (fun k => Z.abs k) dictCreate demo_ops).

Lemma dictRehash_completes_witness :
  dictIsRehashing demo_dict = true /\
  exists d', dictRehash (fun k => Z.abs k) demo_dict 9 = Some (d', 0) /\ dictIsRehashing d' = false.
Proof.
  split; [vm_compute; reflexivity|].
  destruct (dictRehash_completes (K := Z) (V := Z) (fun k => Z.abs k) ltac:(intros; lia)
    demo_ops demo_dict 9) as (d' & H1 & H2 & _).
  - repeat constructor.
  - vm_compute. intros H. discriminate H.
  - vm_compute. reflexivity.
  - vm_compute. reflexivity.
  - exists d'. split; [exact H1|exact H2].
Defined.

End Dict.
