(* ===== verification/Sds.v ===== *)
(** * sds.c: dynamic strings

    Model of [src/debug/redis/src/sds.c] and [sds.h].  A string is its header and its buffer of
    [len + free + 1] bytes; the fields are C ints, buffer accesses outside of the block are
    [None].  Memory obtained from zmalloc or zrealloc is indeterminate ([junk]); allocation does
    not fail (zmalloc aborts).  Any sequence of the editing operations has the effect of list
    operations on the contents ([sds_refines_list]); splitting on a separator and joining are
    inverse; sdssplitargs reads back what sdscatrepr prints. *)

From Stdlib Require Import ZArith Lia.
From stdpp Require Import prelude list strings numbers.
From S2P Require Import Prelude.
From S2P Require Import Util.

Local Open Scope Z_scope.

Module Sds.

Definition SDS_MAX_PREALLOC : Z := 1024 * 1024.

Record sdshdr := mkSds { len : Z; free : Z; buf : list Z }.

Implicit Types (s : sdshdr).

Definition sdslen s : Z := uwrap 64 (len s).
Definition sdsavail s : Z := uwrap 64 (free s).

Section Sds.
Context (junk : nat -> Z).

(** [init] is NULL ([None]) or a readable block. *)
Definition sdsnewlen (init : option (list Z)) (initlen : Z) : option sdshdr :=
  let b := match init with
           | Some _ => realloc junk [] (initlen + 1)
           | None => replicate (Z.to_nat (initlen + 1)) 0
           end in
  b ← match init with
      | Some bytes => src ← load bytes 0 initlen; store b 0 src
      | None => Some b
      end;
  b ← store b initlen [0];
  Some (mkSds (swrap 32 initlen) 0 b).

Definition sdsempty : option sdshdr := sdsnewlen (Some []) 0.

(** [strlen] of a C string given by the bytes before its NUL. *)
Definition sdsnew (init : option (list Z)) : option sdshdr :=
  sdsnewlen init (match init with None => 0 | Some c => zlen c end).

Definition sdsdup s : option sdshdr := sdsnewlen (Some (buf s)) (sdslen s).

(** [strlen(s)]: the offset of the first NUL. *)
Fixpoint strlen (b : list Z) : option Z :=
  match b with
  | [] => None
  | c :: b => if c =? 0 then Some 0 else n ← strlen b; Some (n + 1)
  end.

Definition sdsupdatelen s : option sdshdr :=
  n ← strlen (buf s);
  let reallen := swrap 32 n in
  Some (mkSds reallen (free s + (len s - reallen)) (buf s)).

Definition sdsclear s : option sdshdr :=
  b ← store (buf s) 0 [0];
  Some (mkSds 0 (free s + len s) b).

Definition sdsMakeRoomFor s (addlen : Z) : sdshdr :=
  if addlen <=? sdsavail s then s
  else
    let l := sdslen s in
    let newlen := uwrap 64 (l + addlen) in
    let newlen := if newlen <? SDS_MAX_PREALLOC then newlen * 2 else newlen + SDS_MAX_PREALLOC in
    mkSds (len s) (swrap 32 (newlen - l)) (realloc junk (buf s) (newlen + 1)).

Definition sdsRemoveFreeSpace s : sdshdr := mkSds (len s) 0 (realloc junk (buf s) (len s + 1)).

(** [sizeof(struct sdshdr)] is 8. *)
Definition sdsAllocSize s : Z := 8 + len s + free s + 1.

(** [None] is a failing assert. *)
Definition sdsIncrLen s (incr : Z) : option sdshdr :=
  if free s <? incr then None
  else
    let l := len s + incr in
    let f := free s - incr in
    if f <? 0 then None else b ← store (buf s) l [0]; Some (mkSds l f b).

Definition sdsgrowzero s (n : Z) : option sdshdr :=
  let curlen := uwrap 64 (len s) in
  if n <=? curlen then Some s
  else
    let s := sdsMakeRoomFor s (n - curlen) in
    b ← store (buf s) curlen (replicate (Z.to_nat (n - curlen + 1)) 0);
    let totlen := len s + free s in
    Some (mkSds (swrap 32 n) (totlen - n) b).

Definition sdscatlen s (t : list Z) : option sdshdr :=
  let curlen := sdslen s in
  let s := sdsMakeRoomFor s (zlen t) in
  b ← store (buf s) curlen t;
  b ← store b (curlen + zlen t) [0];
  Some (mkSds (swrap 32 (curlen + zlen t)) (swrap 32 (free s - zlen t)) b).

Definition sdscat s (t : list Z) : option sdshdr := sdscatlen s t.

Definition sdscatsds s (t : sdshdr) : option sdshdr :=
  bytes ← load (buf t) 0 (sdslen t); sdscatlen s bytes.

Definition sdscpylen s (t : list Z) : option sdshdr :=
  let totlen := free s + len s in
  let s := if totlen <? zlen t then sdsMakeRoomFor s (uwrap 64 (zlen t - len s)) else s in
  let totlen := free s + len s in
  b ← store (buf s) 0 t;
  b ← store b (zlen t) [0];
  Some (mkSds (swrap 32 (zlen t)) (swrap 32 (totlen - zlen t)) b).

Definition sdscpy s (t : list Z) : option sdshdr := sdscpylen s t.

(** [strchr(cset, c)] also finds the terminating NUL of [cset]. *)
Definition in_cset (cset : list Z) (c : Z) : bool := bool_decide (c ∈ cset) || (c =? 0).

(** [while(sp <= end && strchr(cset, sp[0])) sp++;] *)
Fixpoint trim_left (fuel : nat) (b cset : list Z) (sp e : Z) : option Z :=
  if sp <=? e then
    c ← load b sp 1;
    if in_cset cset (default 0 (list.head c)) then
      match fuel with O => None | S fuel => trim_left fuel b cset (sp + 1) e end
    else Some sp
  else Some sp.

(** [while(ep > start && strchr(cset, ep[0])) ep--;] *)
Fixpoint trim_right (fuel : nat) (b cset : list Z) (ep : Z) : option Z :=
  if 0 <? ep then
    c ← load b ep 1;
    if in_cset cset (default 0 (list.head c)) then
      match fuel with O => None | S fuel => trim_right fuel b cset (ep - 1) end
    else Some ep
  else Some ep.

Definition sdstrim s (cset : list Z) : option sdshdr :=
  let e := sdslen s - 1 in
  sp ← trim_left (length (buf s)) (buf s) cset 0 e;
  ep ← trim_right (length (buf s)) (buf s) cset e;
  let n := if ep <? sp then 0 else (ep - sp) + 1 in
  b ← (if sp =? 0 then Some (buf s) else memmove (buf s) 0 sp n);
  b ← store b n [0];
  Some (mkSds (swrap 32 n) (swrap 32 (free s + (len s - n))) b).

(** [start] and [end] are ints, [len + start] is computed as a size_t. *)
Definition sdsrange s (start e : Z) : option sdshdr :=
  let l := sdslen s in
  if l =? 0 then Some s
  else
    let start := if start <? 0
                 then let x := swrap 32 (l + start) in if x <? 0 then 0 else x else start in
    let e := if e <? 0
             then let x := swrap 32 (l + e) in if x <? 0 then 0 else x else e in
    let newlen := if e <? start then 0 else (e - start) + 1 in
    let '(start, newlen) :=
      if newlen =? 0 then (0, newlen)
      else if swrap 32 l <=? start then (start, 0)
      else if swrap 32 l <=? e then
        let e := swrap 32 (l - 1) in (start, if e <? start then 0 else (e - start) + 1)
      else (start, newlen) in
    b ← (if negb (start =? 0) && negb (newlen =? 0) then memmove (buf s) 0 start newlen
         else Some (buf s));
    b ← store b newlen [0];
    Some (mkSds (swrap 32 newlen) (swrap 32 (free s + (len s - newlen))) b).

Definition toupper (c : Z) : Z := if (97 <=? c) && (c <=? 122) then c - 32 else c.

(** The loops over the characters of the string, in place. *)
Definition map_chars (f : Z -> Z) s : option sdshdr :=
  bytes ← load (buf s) 0 (sdslen s);
  b ← store (buf s) 0 (f <$> bytes);
  Some (mkSds (len s) (free s) b).

Definition sdstolower s : option sdshdr := map_chars tolower s.
Definition sdstoupper s : option sdshdr := map_chars toupper s.

Fixpoint subst_char (from to : list Z) (c : Z) : Z :=
  match from, to with
  | f :: from, t :: to => if c =? f then t else subst_char from to c
  | _, _ => c
  end.

Definition sdsmapchars s (from to : list Z) : option sdshdr := map_chars (subst_char from to) s.

(** [memcmp], as the difference of the first bytes that differ. *)
Fixpoint memcmp (a b : list Z) : Z :=
  match a, b with
  | x :: a, y :: b => if x =? y then memcmp a b else x - y
  | _, _ => 0
  end.

Definition sdscmp (s1 s2 : sdshdr) : option Z :=
  let l1 := sdslen s1 in
  let l2 := sdslen s2 in
  let minlen := if l1 <? l2 then l1 else l2 in
  a ← load (buf s1) 0 minlen;
  b ← load (buf s2) 0 minlen;
  let cmp := memcmp a b in
  Some (if cmp =? 0 then l1 - l2 else cmp).

Definition sdsfromlonglong (value : Z) : option sdshdr :=
  let p := Util.ll2string_chars value in sdsnewlen (Some p) (zlen p).

(** ** Representation *)

(** The contents fit half of an int with the room that is allocated ahead. *)
Definition max_len : Z := 2 ^ 29.

Definition holds s (l : list Z) : Prop :=
  exists pad, buf s = l ++ 0 :: pad /\ len s = zlen l /\ free s = zlen pad /\
    zlen l < max_len /\ zlen l + zlen pad < 2 ^ 31 - 1.

Lemma holds_sdslen s l : holds s l -> sdslen s = zlen l /\ sdsavail s = free s /\ 0 <= free s.
Proof.
  intros (pad & Hb & Hl & Hf & Hm & Ht). unfold sdslen, sdsavail. pose proof (zlen_nonneg l).
  pose proof (zlen_nonneg pad). unfold max_len in *. rewrite Hl, Hf, !uwrap_id by (unfold in_uint; lia). auto.
Qed.

Lemma sw32 z : - 2 ^ 31 <= z < 2 ^ 31 -> swrap 32 z = z.
Proof. intros H. apply swrap_id; [lia|]. unfold in_int. lia. Qed.

Lemma sdsnewlen_holds bytes n :
  0 <= n <= zlen bytes -> n < max_len ->
  exists s, sdsnewlen (Some bytes) n = Some s /\ holds s (take (Z.to_nat n) bytes).
Proof.
  intros Hn Hm. unfold sdsnewlen. unfold load. rewrite decide_True by lia. cbn [mbind option_bind].
  rewrite drop_0. set (src := take (Z.to_nat n) bytes).
  assert (Hsrc : zlen src = n) by (unfold src, zlen in *; rewrite length_take; lia).
  destruct (realloc_grow junk [] (n + 1)) as (pad & Hp & ->); [rewrite zlen_nil; lia|].
  rewrite zlen_nil, Z.sub_0_r in Hp. cbn [app].
  assert (Hsplit : exists p1 c, pad = p1 ++ [c] /\ length p1 = length src).
  { destruct (decide (pad = [])) as [->|Hne]; [rewrite zlen_nil in Hp; lia|].
    destruct (exists_last Hne) as (p1 & c & ->). exists p1, c. split; [done|].
    rewrite zlen_app, zlen_cons, zlen_nil in Hp. unfold zlen in *. lia. }
  destruct Hsplit as (p1 & c & -> & Hl1).
  rewrite (store_app [] p1 [c] src) by (rewrite ?zlen_nil; done). cbn [mbind option_bind app].
  rewrite (store_app src [c] [] [0]) by (rewrite ?app_nil_r; done || lia).
  eexists. split; [done|]. exists []. cbn [buf len free]. unfold max_len in *. rewrite sw32 by lia.
  change (zlen (@nil Z)) with 0. split_and!; done || lia.
Qed.

Lemma sdsMakeRoomFor_holds s l n :
  holds s l -> 0 <= n -> zlen l + n < max_len ->
  exists s', sdsMakeRoomFor s n = s' /\ holds s' l /\ n <= free s'.
Proof.
  intros Hh Hn Hm. destruct (holds_sdslen _ _ Hh) as (Hlen & Hav & Hf0).
  destruct Hh as (pad & Hb & Hl & Hf & Hm' & Ht). unfold sdsMakeRoomFor. rewrite Hlen, Hav.
  pose proof (zlen_nonneg l). pose proof (zlen_nonneg pad). unfold max_len, SDS_MAX_PREALLOC in *.
  destruct (Z.leb_spec n (free s)) as [Hle|Hgt].
  - exists s. split_and!; [done| |done]. exists pad. by split_and!.
  - rewrite uwrap_id by (unfold in_uint; lia).
    set (newlen := if zlen l + n <? 1024 * 1024 then _ else _).
    assert (Hnl : zlen l + n <= newlen < 2 ^ 30 + 2 ^ 21).
    { unfold newlen. destruct (Z.ltb_spec (zlen l + n) (1024 * 1024)); lia. }
    clearbody newlen. eexists. split; [done|]. cbn [free]. rewrite sw32 by lia. split; [|lia].
    destruct (realloc_grow junk (buf s) (newlen + 1)) as (pad' & Hp' & Hre).
    { rewrite Hb, zlen_app, zlen_cons. lia. }
    exists (pad ++ pad'). cbn [buf len free]. rewrite Hre, Hb, <- app_assoc. cbn [app].
    rewrite Hb, zlen_app, zlen_cons in Hp'. rewrite zlen_app. split_and!; done || lia.
Qed.

(** Overwriting a prefix of the block and terminating it. *)
Lemma store_terminate b l n :
  zlen l < zlen b -> n = zlen l ->
  exists b' pad, store b 0 l = Some b' /\ store b' n [0] = Some (l ++ 0 :: pad) /\
    zlen pad = zlen b - zlen l - 1.
Proof.
  intros Hl ->. pose proof (zlen_nonneg l).
  rewrite <- (take_drop (length l) b). destruct (drop (length l) b) as [|c rest] eqn:E.
  { apply (f_equal zlen) in E. rewrite zlen_nil in E. unfold zlen in *. rewrite length_drop in E. lia. }
  assert (Ht : length (take (length l) b) = length l) by (rewrite length_take; unfold zlen in *; lia).
  exists (l ++ c :: rest), rest. split_and!.
  - rewrite (store_app [] (take (length l) b) (c :: rest) l) by (rewrite ?zlen_nil; done). done.
  - by rewrite (store_app l [c] rest [0]) by done.
  - rewrite zlen_app, zlen_cons. unfold zlen. rewrite Ht. lia.
Qed.

Lemma sdscatlen_holds s l t :
  holds s l -> zlen l + zlen t < max_len ->
  exists s', sdscatlen s t = Some s' /\ holds s' (l ++ t).
Proof.
  intros Hh Hm. unfold sdscatlen. pose proof (zlen_nonneg t). pose proof (zlen_nonneg l).
  destruct (holds_sdslen _ _ Hh) as (-> & _ & _).
  destruct (sdsMakeRoomFor_holds s l (zlen t) Hh) as (s1 & -> & Hh1 & Hf1); [lia|done|].
  destruct Hh1 as (pad & Hb & Hl & Hf & Hm' & Ht). rewrite Hb. rewrite Hf in Hf1.
  assert (Hsplit : exists c p2, 0 :: pad = c ++ p2 /\ length c = length t /\ p2 <> []).
  { exists (take (length t) (0 :: pad)), (drop (length t) (0 :: pad)). rewrite take_drop. split; [done|].
    rewrite length_take. simpl length. split; [unfold zlen in *; lia|].
    intros E%(f_equal length). rewrite length_drop in E. simpl in E. unfold zlen in *. lia. }
  destruct Hsplit as (c & p2 & Hc & Hlc & Hne). destruct p2 as [|z p2]; [done|].
  rewrite Hc. rewrite (store_app l c (z :: p2) t) by done. cbn [mbind option_bind].
  rewrite app_assoc. rewrite (store_app (l ++ t) [z] p2 [0]) by (rewrite ?zlen_app; done).
  cbn [mbind option_bind]. eexists. split; [done|]. exists p2. cbn [buf len free].
  apply (f_equal zlen) in Hc. rewrite zlen_app, !zlen_cons in Hc. unfold max_len in *. pose proof (zlen_nonneg p2).
  unfold zlen in Hlc. assert (Hlc' : zlen c = zlen t) by (unfold zlen; lia).
  rewrite Hf, !sw32 by lia. rewrite zlen_app. split_and!; done || lia.
Qed.

Lemma sdscpylen_holds s l t :
  holds s l -> zlen l + zlen t < max_len ->
  exists s', sdscpylen s t = Some s' /\ holds s' t.
Proof.
  intros Hh Hm. unfold sdscpylen. pose proof (zlen_nonneg t). pose proof (zlen_nonneg l).
  destruct (holds_sdslen _ _ Hh) as (_ & _ & Hf0). unfold max_len in *.
  assert (Hroom : exists s1 l1, (if free s + len s <? zlen t then
      sdsMakeRoomFor s (uwrap 64 (zlen t - len s)) else s) = s1 /\ holds s1 l1 /\ zlen t <= free s1 + len s1).
  { pose proof Hh as (pad & Hb & Hl & Hf & Hm' & Ht).
    destruct (Z.ltb_spec (free s + len s) (zlen t)); [|eauto].
    rewrite uwrap_id by (unfold in_uint; lia).
    destruct (sdsMakeRoomFor_holds s l (zlen t - len s) Hh) as (s1 & -> & Hh1 & Hf1); [lia|unfold max_len; lia|].
    exists s1, l. split_and!; [done|done|]. destruct Hh1 as (? & _ & Hl1 & _). lia. }
  destruct Hroom as (s1 & l1 & -> & (pad & Hb & Hl & Hf & Hm' & Ht) & Hfit).
  assert (Hbl : zlen (buf s1) = free s1 + len s1 + 1) by (rewrite Hb, zlen_app, zlen_cons; lia).
  destruct (store_terminate (buf s1) t (zlen t)) as (b' & pad' & -> & H2 & Hpad'); [lia|done|].
  cbn [mbind option_bind]. rewrite H2. cbn [mbind option_bind]. eexists. split; [done|].
  exists pad'. cbn [buf len free]. pose proof (zlen_nonneg pad'). rewrite !sw32 by lia. split_and!; done || (unfold max_len; lia).
Qed.

Lemma sdsgrowzero_holds s l n :
  holds s l -> n < max_len ->
  exists s', sdsgrowzero s n = Some s' /\ holds s' (l ++ replicate (Z.to_nat (n - zlen l)) 0).
Proof.
  intros Hh Hn. unfold sdsgrowzero. destruct (holds_sdslen _ _ Hh) as (Hlen & _ & _). unfold sdslen in Hlen.
  rewrite Hlen. pose proof (zlen_nonneg l). unfold max_len in *. destruct (Z.leb_spec n (zlen l)) as [Hle|Hgt].
  - exists s. split; [done|]. replace (Z.to_nat (n - zlen l)) with O by lia. by rewrite app_nil_r.
  - destruct (sdsMakeRoomFor_holds s l (n - zlen l) Hh) as (s1 & -> & Hh1 & Hf1); [lia|unfold max_len; lia|].
    destruct Hh1 as (pad & Hb & Hl & Hf & Hm' & Ht). rewrite Hb. rewrite Hf in Hf1.
    set (k := Z.to_nat (n - zlen l)).
    replace (replicate (Z.to_nat (n - zlen l + 1)) 0) with (replicate k 0 ++ [0]).
    2:{ rewrite <- replicate_S_end. f_equal. lia. }
    rewrite <- (take_drop (S k) (0 :: pad)).
    rewrite (store_app l (take (S k) (0 :: pad)) (drop (S k) (0 :: pad)) (replicate k 0 ++ [0])).
    2:{ done. }
    2:{ rewrite length_app, length_replicate, length_take. simpl length. unfold zlen in *. lia. }
    cbn [mbind option_bind]. eexists. split; [done|]. exists (drop k pad). cbn [buf len free drop].
    rewrite sw32 by lia. rewrite <- !app_assoc. cbn [app].
    assert (Hd : zlen (drop k pad) = zlen pad - (n - zlen l)) by (unfold zlen in *; rewrite length_drop; lia).
    rewrite zlen_app, Hd. assert (Hr : zlen (replicate k 0) = n - zlen l)
      by (unfold k, zlen in *; rewrite length_replicate; lia).
    rewrite Hr. split_and!; done || (unfold max_len; lia).
Qed.

(** Keeping [n] bytes of the contents from offset [off]. *)
Lemma keep_holds s l off n b :
  holds s l -> 0 <= off -> 0 <= n -> off + n <= zlen l ->
  b = (if off =? 0 then Some (buf s) else memmove (buf s) 0 off n) ->
  exists b1 b2, b = Some b1 /\ store b1 n [0] = Some b2 /\
    holds (mkSds n (free s + (len s - n)) b2) (take (Z.to_nat n) (drop (Z.to_nat off) l)).
Proof.
  intros (pad & Hb & Hl & Hf & Hm & Ht) Ho Hn Hon ->. unfold max_len in *.
  set (mid := take (Z.to_nat n) (drop (Z.to_nat off) l)).
  assert (Hmid : zlen mid = n) by (unfold mid, zlen in *; rewrite length_take, length_drop; lia).
  assert (Hbuf : zlen (buf s) = zlen l + 1 + zlen pad) by (rewrite Hb, zlen_app, zlen_cons; lia).
  assert (Hst : exists b1 b2 pad', (if off =? 0 then Some (buf s) else memmove (buf s) 0 off n) = Some b1 /\
    store b1 n [0] = Some b2 /\ b2 = mid ++ 0 :: pad' /\ zlen pad' = zlen (buf s) - n - 1).
  { pose proof (zlen_nonneg pad). destruct (Z.eqb_spec off 0) as [->|Hne].
    - assert (Hpre : buf s = mid ++ drop (Z.to_nat n) (buf s)).
      { unfold mid. change (Z.to_nat 0) with 0%nat. rewrite drop_0.
        rewrite <- (take_drop (Z.to_nat n) (buf s)) at 1. f_equal. rewrite Hb, take_app_le; [done|unfold zlen in *; lia]. }
      destruct (drop (Z.to_nat n) (buf s)) as [|c rest] eqn:E.
      { apply (f_equal zlen) in Hpre. rewrite zlen_app, zlen_nil in Hpre. lia. }
      exists (buf s), (mid ++ 0 :: rest), rest. split_and!; [done| |done|].
      + rewrite Hpre. by rewrite (store_app mid [c] rest [0]) by done.
      + rewrite Hpre, zlen_app, zlen_cons. lia.
    - unfold memmove.
      assert (Hld : load (buf s) off n = Some mid).
      { unfold load. rewrite decide_True by lia. f_equal. unfold mid. rewrite Hb, drop_app_le by (unfold zlen in *; lia).
        rewrite take_app_le; [done|]. rewrite length_drop. unfold zlen in *. lia. }
      rewrite Hld. cbn [mbind option_bind].
      destruct (store_terminate (buf s) mid n) as (b1 & pad' & H1 & H2 & H3); [lia|done|].
      exists b1, (mid ++ 0 :: pad'), pad'. split_and!; [done|done|done|lia]. }
  destruct Hst as (b1 & b2 & pad' & H1 & H2 & -> & Hpad). exists b1, (mid ++ 0 :: pad').
  split; [done|]. split; [done|]. exists pad'. cbn [buf len free]. split_and!; done || (unfold max_len; lia).
Qed.

(** *** sdsrange *)

Definition clamp_index (n i : Z) : Z := if i <? 0 then Z.max 0 (n + i) else i.

(** The bytes from index [a] to index [b], both included; negative indexes count from the end. *)
Definition range_spec (l : list Z) (a b : Z) : list Z :=
  let a := clamp_index (zlen l) a in
  let b := clamp_index (zlen l) b in
  take (Z.to_nat (b - a + 1)) (drop (Z.to_nat a) l).

Lemma range_drop (l : list Z) pos :
  0 <= pos <= zlen l -> range_spec l pos (-1) = drop (Z.to_nat pos) l.
Proof.
  intros Hp. unfold range_spec, clamp_index.
  rewrite (proj2 (Z.ltb_ge pos 0)) by lia. cbn [Z.ltb Z.compare].
  apply take_ge. unfold zlen in *. rewrite length_drop. lia.
Qed.

Lemma clamp_code n i :
  0 <= n < max_len -> in_int 32 i ->
  (if i <? 0 then if swrap 32 (n + i) <? 0 then 0 else swrap 32 (n + i) else i) = clamp_index n i /\
  0 <= clamp_index n i < 2 ^ 31.
Proof.
  unfold max_len, in_int, clamp_index. intros Hn Hi. simpl in Hi. destruct (Z.ltb_spec i 0); [|lia].
  rewrite sw32 by lia. destruct (Z.ltb_spec (n + i) 0); lia.
Qed.

Lemma sdsrange_holds s l a b :
  holds s l -> in_int 32 a -> in_int 32 b ->
  exists s', sdsrange s a b = Some s' /\ holds s' (range_spec l a b).
Proof.
  intros Hh Ha Hb. unfold sdsrange. destruct (holds_sdslen _ _ Hh) as (Hlen & _ & Hf0).
  pose proof Hh as (pad & Hbuf & Hl & Hf & Hm & Ht). pose proof (zlen_nonneg l). pose proof (zlen_nonneg pad).
  rewrite Hlen. destruct (Z.eqb_spec (zlen l) 0) as [Hz|Hz].
  { exists s. split; [done|]. destruct l; [|rewrite zlen_cons in Hz; pose proof (zlen_nonneg l); lia].
    unfold range_spec. by rewrite drop_nil, take_nil. }
  cbv zeta. destruct (clamp_code (zlen l) a ltac:(lia) Ha) as [-> Ha'].
  destruct (clamp_code (zlen l) b ltac:(lia) Hb) as [-> Hb']. unfold range_spec.
  set (a' := clamp_index (zlen l) a) in *. set (b' := clamp_index (zlen l) b) in *. clearbody a' b'.
  unfold max_len in *. rewrite !(sw32 (zlen l)), (sw32 (zlen l - 1)) by lia.
  assert (Hkeep : forall off n r, 0 <= off -> 0 <= n -> off + n <= zlen l ->
    (off <> 0 -> n <> 0) -> r = take (Z.to_nat n) (drop (Z.to_nat off) l) ->
    exists s', (b0 ← (if negb (off =? 0) && negb (n =? 0) then memmove (buf s) 0 off n else Some (buf s));
      b1 ← store b0 n [0]; Some (mkSds (swrap 32 n) (swrap 32 (free s + (len s - n))) b1)) = Some s' /\
      holds s' r).
  { intros off n r Ho Hn Hon Hne ->. rewrite !sw32 by lia.
    destruct (keep_holds s l off n _ Hh Ho Hn Hon eq_refl) as (b1 & b2 & H1 & H2 & H3).
    assert (Hcond : (if negb (off =? 0) && negb (n =? 0) then memmove (buf s) 0 off n else Some (buf s)) = Some b1).
    { rewrite <- H1. destruct (Z.eqb_spec off 0); [done|]. destruct (Z.eqb_spec n 0); [|done].
      specialize (Hne n0). done. }
    rewrite Hcond. cbn [mbind option_bind]. rewrite H2. cbn [mbind option_bind]. eauto. }
  assert (Hempty : forall x, 0 <= x -> exists s', (b0 ← (if negb (x =? 0) && negb (0 =? 0) then memmove (buf s) 0 x 0 else Some (buf s));
      b1 ← store b0 0 [0]; Some (mkSds (swrap 32 0) (swrap 32 (free s + (len s - 0))) b1)) = Some s' /\ holds s' []).
  { intros x Hx. rewrite andb_false_r. exact (Hkeep 0 0 [] ltac:(lia) ltac:(lia) ltac:(lia) ltac:(tauto) eq_refl). }
  destruct (Z.ltb_spec b' a') as [Hlt|Hge].
  { cbn [Z.eqb]. replace (Z.to_nat (b' - a' + 1)) with O by lia.
    exact (Hkeep 0 0 [] ltac:(lia) ltac:(lia) ltac:(lia) ltac:(tauto) eq_refl). }
  destruct (Z.eqb_spec (b' - a' + 1) 0); [lia|].
  destruct (Z.leb_spec (zlen l) a').
  { rewrite drop_ge, take_nil by (unfold zlen in *; lia). apply Hempty. lia. }
  destruct (Z.leb_spec (zlen l) b').
  - destruct (Z.ltb_spec (zlen l - 1) a'); [lia|]. apply Hkeep; [lia..|].
    rewrite !take_ge by (rewrite length_drop; unfold zlen in *; lia). done.
  - apply Hkeep; lia || done.
Qed.

(** *** sdstrim *)

Fixpoint drop_while (f : Z -> bool) (l : list Z) : list Z :=
  match l with [] => [] | c :: l' => if f c then drop_while f l' else l end.

Definition trim_spec (f : Z -> bool) (l : list Z) : list Z :=
  reverse (drop_while f (reverse (drop_while f l))).

Lemma drop_while_app f a l : Forall (fun c => f c = true) a -> drop_while f (a ++ l) = drop_while f l.
Proof. induction 1 as [|c a Hc Ha IH]; [done|]. simpl. by rewrite Hc. Qed.

Lemma trim_unique f a r b :
  Forall (fun c => f c = true) a -> Forall (fun c => f c = true) b ->
  (r = [] \/ (exists c r', r = c :: r' /\ f c = false) /\ (exists c r', r = r' ++ [c] /\ f c = false)) ->
  trim_spec f (a ++ r ++ b) = r.
Proof.
  intros Ha Hb Hr. unfold trim_spec. rewrite drop_while_app by done.
  assert (Hb' : Forall (fun c => f c = true) (reverse b)) by (by apply Forall_reverse).
  destruct Hr as [->|[(c & r' & Hr1 & Hc) (c2 & r2 & Hr2 & Hc2)]].
  - cbn [app]. rewrite <- (app_nil_r b), drop_while_app by done. done.
  - rewrite Hr1 at 1. cbn [app drop_while]. rewrite Hc. rewrite app_comm_cons, <- Hr1.
    rewrite reverse_app, drop_while_app by done. rewrite Hr2, reverse_app. cbn [reverse rev_append app].
    change (reverse [c2]) with [c2]. cbn [app drop_while]. rewrite Hc2.
    by rewrite <- reverse_snoc, reverse_involutive.
Qed.

Lemma load_char (l rest : list Z) i c :
  0 <= i -> l !! Z.to_nat i = Some c -> load (l ++ rest) i 1 = Some [c].
Proof.
  intros Hi Hc. pose proof (lookup_lt_Some _ _ _ Hc) as Hlt.
  rewrite <- (take_drop_middle _ _ _ Hc), <- app_assoc. cbn [app].
  apply (load_app _ [c]); [|done]. unfold zlen. rewrite length_take. lia.
Qed.

Lemma trim_left_spec cset l rest fuel : forall sp,
  0 <= sp <= zlen l -> zlen l - sp < Z.of_nat fuel ->
  exists r, trim_left fuel (l ++ rest) cset sp (zlen l - 1) = Some r /\ sp <= r <= zlen l /\
    (forall i c, sp <= Z.of_nat i < r -> l !! i = Some c -> in_cset cset c = true) /\
    (r = zlen l \/ exists c, l !! Z.to_nat r = Some c /\ in_cset cset c = false).
Proof.
  induction fuel as [|fuel IH]; intros sp Hsp Hf; [lia|]. cbn [trim_left].
  destruct (Z.leb_spec sp (zlen l - 1)) as [Hle|Hgt].
  2:{ exists sp. split_and!; [done|lia|lia|intros i c Hi; lia|left; lia]. }
  destruct (lookup_lt_is_Some_2 l (Z.to_nat sp)) as [c Hc]; [unfold zlen in *; lia|].
  rewrite (load_char l rest sp c) by (done || lia). cbn [mbind option_bind list.head from_option id].
  destruct (in_cset cset c) eqn:Hin.
  - destruct (IH (sp + 1)) as (r & H1 & H2 & H3 & H4); [lia|lia|]. exists r. split_and!; [done|lia|lia| |done].
    intros i c' Hi Hc'. destruct (decide (Z.of_nat i = sp)) as [<-|]; [rewrite Nat2Z.id in Hc; congruence|].
    apply (H3 i); [lia|done].
  - exists sp. split_and!; [done|lia|lia|intros i c' Hi; lia|eauto].
Qed.

Lemma trim_right_spec cset l rest fuel : forall ep,
  -1 <= ep < zlen l -> ep < Z.of_nat fuel ->
  exists r, trim_right fuel (l ++ rest) cset ep = Some r /\ r <= ep /\ (0 <= ep -> 0 <= r) /\
    (forall i c, r < Z.of_nat i <= ep -> l !! i = Some c -> in_cset cset c = true) /\
    (r <= 0 \/ exists c, l !! Z.to_nat r = Some c /\ in_cset cset c = false).
Proof.
  induction fuel as [|fuel IH]; intros ep Hep Hf; cbn [trim_right].
  { destruct (Z.ltb_spec 0 ep); [lia|]. exists ep. split_and!; [done|lia|lia|intros i c Hi; lia|left; lia]. }
  destruct (Z.ltb_spec 0 ep) as [Hlt|Hge].
  2:{ exists ep. split_and!; [done|lia|lia|intros i c Hi; lia|left; lia]. }
  destruct (lookup_lt_is_Some_2 l (Z.to_nat ep)) as [c Hc]; [unfold zlen in *; lia|].
  rewrite (load_char l rest ep c) by (done || lia). cbn [mbind option_bind list.head from_option id].
  destruct (in_cset cset c) eqn:Hin.
  - destruct (IH (ep - 1)) as (r & H1 & H2 & H2' & H3 & H4); [lia|lia|]. exists r.
    split_and!; [done|lia|lia| |done]. intros i c' Hi Hc'.
    destruct (decide (Z.of_nat i = ep)) as [<-|]; [rewrite Nat2Z.id in Hc; congruence|].
    apply (H3 i); [lia|done].
  - exists ep. split_and!; [done|lia|lia|intros i c' Hi; lia|eauto].
Qed.

Lemma Forall_lookup_range (f : Z -> bool) l a n :
  (forall i c, Z.of_nat a <= Z.of_nat i < Z.of_nat (a + n) -> l !! i = Some c -> f c = true) ->
  Forall (fun c => f c = true) (take n (drop a l)).
Proof.
  intros H. apply Forall_forall. intros c Hin%list_elem_of_In.
  apply list_elem_of_lookup in Hin as [i Hi]. apply lookup_take_Some in Hi as [Hi Hlt].
  rewrite lookup_drop in Hi. apply (H (a + i)%nat); [lia|done].
Qed.

Lemma sdstrim_holds s l cset :
  holds s l ->
  exists s', sdstrim s cset = Some s' /\ holds s' (trim_spec (in_cset cset) l).
Proof.
  intros Hh. unfold sdstrim. destruct (holds_sdslen _ _ Hh) as (Hlen & _ & Hf0).
  pose proof Hh as (pad & Hbuf & Hl & Hf & Hm & Ht). pose proof (zlen_nonneg l). pose proof (zlen_nonneg pad).
  rewrite Hlen, Hbuf.
  assert (Hbl : Z.of_nat (length (l ++ 0 :: pad)) = zlen l + 1 + zlen pad) by (unfold zlen; rewrite length_app; simpl; lia).
  destruct (trim_left_spec cset l (0 :: pad) (length (l ++ 0 :: pad)) 0) as (sp & -> & Hsp & Hsp1 & Hsp2); [lia|lia|].
  cbn [mbind option_bind].
  destruct (trim_right_spec cset l (0 :: pad) (length (l ++ 0 :: pad)) (zlen l - 1)) as (ep & -> & Hep & Hep0 & Hep1 & Hep2); [lia|lia|].
  cbn [mbind option_bind]. rewrite <- Hbuf. set (n := if ep <? sp then 0 else ep - sp + 1).
  assert (Hall : forall i c, l !! i = Some c -> Z.of_nat i < sp \/ ep < Z.of_nat i -> in_cset cset c = true).
  { intros i c Hc Hi. apply lookup_lt_Some in Hc as Hlt. destruct Hi; [apply (Hsp1 i); [lia|done]|].
    apply (Hep1 i); [unfold zlen in *; lia|done]. }
  assert (Hn : 0 <= n /\ sp + n <= zlen l) by (unfold n; destruct (Z.ltb_spec ep sp); lia).
  destruct (keep_holds s l sp n _ Hh (proj1 Hsp) (proj1 Hn) (proj2 Hn) eq_refl) as (b1 & b2 & H1 & H2 & H3).
  rewrite H1. cbn [mbind option_bind]. rewrite H2. cbn [mbind option_bind].
  eexists. split; [done|]. unfold max_len in *. rewrite !sw32 by lia.
  replace (trim_spec (in_cset cset) l) with (take (Z.to_nat n) (drop (Z.to_nat sp) l)); [done|]. symmetry.
  rewrite <- (take_drop (Z.to_nat sp) l) at 1. rewrite <- (take_drop (Z.to_nat n) (drop (Z.to_nat sp) l)) at 1.
  apply trim_unique.
  - rewrite <- (drop_0 l). apply (Forall_lookup_range _ l 0). intros i c Hi Hc. apply (Hall i); [done|]. left. lia.
  - rewrite drop_drop. rewrite <- (take_ge (drop _ l) (length l)) by (rewrite length_drop; lia).
    apply Forall_lookup_range. intros i c Hi Hc. apply (Hall i); [done|].
    unfold n in Hi. destruct (Z.ltb_spec ep sp); [|right; lia].
    apply lookup_lt_Some in Hc. destruct (Z.lt_ge_cases ep (Z.of_nat i)); [by right|left; lia].
  - unfold n. destruct (Z.ltb_spec ep sp) as [Hlt|Hge]; [by left|right].
    destruct Hsp2 as [->|(c & Hc & Hcf)]; [unfold zlen in *; lia|]. split.
    + rewrite (drop_S _ _ _ Hc). replace (Z.to_nat (ep - sp + 1)) with (S (Z.to_nat (ep - sp))) by lia. simpl. eauto.
    + assert (Hlast : exists c2, l !! Z.to_nat ep = Some c2 /\ in_cset cset c2 = false).
      { destruct Hep2 as [He0|He0]; [|done]. assert (ep = 0) by lia. assert (sp = 0) by lia. subst. eauto. }
      destruct Hlast as (c2 & Hc2 & Hf2). exists c2, (take (Z.to_nat (ep - sp)) (drop (Z.to_nat sp) l)).
      split; [|done]. replace (Z.to_nat (ep - sp + 1)) with (S (Z.to_nat (ep - sp))) by lia.
      apply take_S_r. rewrite lookup_drop. rewrite <- Hc2. f_equal. lia.
Qed.

(** *** The other operations *)

Lemma sdsclear_holds s l : holds s l -> exists s', sdsclear s = Some s' /\ holds s' [].
Proof.
  intros Hh. pose proof Hh as (pad & Hb & Hl & Hf & Hm & Ht). unfold sdsclear.
  destruct (keep_holds s l 0 0 _ Hh ltac:(lia) ltac:(lia) ltac:(pose proof (zlen_nonneg l); lia) eq_refl)
    as (b1 & b2 & [= <-] & H2 & H3).
  rewrite H2. cbn [mbind option_bind]. eexists. split; [done|]. by rewrite Z.sub_0_r in H3.
Qed.

Lemma map_chars_holds f s l : holds s l -> exists s', map_chars f s = Some s' /\ holds s' (f <$> l).
Proof.
  intros Hh. unfold map_chars. destruct (holds_sdslen _ _ Hh) as (-> & _ & _).
  destruct Hh as (pad & Hb & Hl & Hf & Hm & Ht). rewrite Hb.
  rewrite (load_app [] l (0 :: pad)) by (rewrite ?zlen_nil; done). cbn [mbind option_bind].
  rewrite (store_app [] l (0 :: pad) (f <$> l)) by (rewrite ?zlen_nil, ?length_fmap; done).
  cbn [mbind option_bind app]. eexists. split; [done|]. exists pad. cbn [buf len free].
  assert (Hz : zlen (f <$> l) = zlen l) by (unfold zlen; by rewrite length_fmap). rewrite Hz. by split_and!.
Qed.

Lemma sdsRemoveFreeSpace_holds s l :
  holds s l -> holds (sdsRemoveFreeSpace s) l /\ sdsAllocSize (sdsRemoveFreeSpace s) = 8 + zlen l + 1.
Proof.
  intros (pad & Hb & Hl & Hf & Hm & Ht). unfold sdsRemoveFreeSpace, sdsAllocSize. cbn [len free].
  split; [|lia]. exists []. cbn [buf len free]. rewrite Hb, cons_middle, app_assoc, Hl, realloc_shrink.
  - change (zlen (@nil Z)) with 0. unfold max_len in *. split_and!; done || lia.
  - by rewrite zlen_app.
Qed.

(** sdsMakeRoomFor, a write of [t] behind the string and sdsIncrLen append [t]. *)
Lemma sdsIncrLen_holds s l t b :
  holds s l -> zlen t <= free s -> zlen l + zlen t < max_len ->
  store (buf s) (len s) t = Some b ->
  exists s', sdsIncrLen (mkSds (len s) (free s) b) (zlen t) = Some s' /\ holds s' (l ++ t).
Proof.
  intros (pad & Hb & Hl & Hf & Hm & Ht) Hroom Hm2 Hst. unfold sdsIncrLen. cbn [free len buf].
  pose proof (zlen_nonneg t). destruct (Z.ltb_spec (free s) (zlen t)); [lia|].
  destruct (Z.ltb_spec (free s - zlen t) 0); [lia|]. rewrite Hb, Hl in Hst.
  rewrite <- (take_drop (length t) (0 :: pad)) in Hst.
  rewrite (store_app l (take (length t) (0 :: pad)) (drop (length t) (0 :: pad)) t) in Hst.
  2:{ done. }
  2:{ rewrite length_take. simpl length. unfold zlen in *. lia. }
  injection Hst as <-. destruct (drop (length t) (0 :: pad)) as [|c rest] eqn:E.
  { apply (f_equal length) in E. rewrite length_drop in E. simpl in E. unfold zlen in *. lia. }
  rewrite Hl, app_assoc. rewrite (store_app (l ++ t) [c] rest [0]) by (rewrite ?zlen_app; done).
  cbn [mbind option_bind]. eexists. split; [done|]. exists rest. cbn [buf len free].
  apply (f_equal length) in E. rewrite length_drop in E. simpl length in E. rewrite zlen_app.
  unfold max_len, zlen in *. split_and!; done || lia.
Qed.

Lemma strlen_app l rest : Forall (fun c => c <> 0) l -> strlen (l ++ 0 :: rest) = Some (zlen l).
Proof.
  induction 1 as [|c l Hc Hl IH]; [done|]. cbn [app strlen].
  rewrite (proj2 (Z.eqb_neq c 0)) by done. rewrite IH. cbn [mbind option_bind]. rewrite zlen_cons. f_equal. lia.
Qed.

(** sdsupdatelen cuts the string at its first NUL. *)
Lemma sdsupdatelen_holds s l a b :
  holds s l -> l = a ++ b -> (b = [] \/ exists b', b = 0 :: b') -> Forall (fun c => c <> 0) a ->
  exists s', sdsupdatelen s = Some s' /\ holds s' a.
Proof.
  intros (pad & Hb & Hl & Hf & Hm & Ht) -> Hb0 Ha. unfold sdsupdatelen. unfold max_len in *.
  assert (Hbuf : exists rest, buf s = a ++ 0 :: rest /\ zlen rest = zlen b + zlen pad).
  { rewrite Hb. destruct Hb0 as [->|[b' ->]].
    - exists pad. rewrite app_nil_r. by split.
    - exists (b' ++ 0 :: pad). rewrite <- app_assoc. cbn [app]. split; [done|].
      rewrite zlen_app, !zlen_cons. lia. }
  destruct Hbuf as (rest & Hbuf & Hrest). rewrite Hbuf, strlen_app by done. cbn [mbind option_bind].
  rewrite zlen_app in *. pose proof (zlen_nonneg a). pose proof (zlen_nonneg b). rewrite sw32 by lia.
  eexists. split; [done|]. exists rest. cbn [buf len free]. unfold max_len. split_and!; done || lia.
Qed.

(** The lexicographic order of byte strings. *)
Fixpoint lex (a b : list Z) : comparison :=
  match a, b with
  | [], [] => Eq
  | [], _ => Lt
  | _, [] => Gt
  | x :: a, y :: b => match x ?= y with Eq => lex a b | c => c end
  end.

Lemma memcmp_lex a : forall b,
  let n := Nat.min (length a) (length b) in
  let cmp := memcmp (take n a) (take n b) in
  ((if cmp =? 0 then zlen a - zlen b else cmp) ?= 0) = lex a b.
Proof.
  induction a as [|x a IH]; intros [|y b]; cbn [length Nat.min take memcmp lex].
  - done.
  - change (zlen (@nil Z)) with 0. rewrite zlen_cons. pose proof (zlen_nonneg b). cbn [Z.eqb]. apply Z.compare_lt_iff. lia.
  - change (zlen (@nil Z)) with 0. rewrite zlen_cons. pose proof (zlen_nonneg a). cbn [Z.eqb]. apply Z.compare_gt_iff. lia.
  - destruct (Z.compare_spec x y) as [->|Hlt|Hgt].
    + rewrite Z.eqb_refl. rewrite <- (IH b). rewrite !zlen_cons.
      replace (1 + zlen a - (1 + zlen b)) with (zlen a - zlen b) by lia. done.
    + destruct (Z.eqb_spec x y); [lia|]. destruct (Z.eqb_spec (x - y) 0); [lia|]. apply Z.compare_lt_iff. lia.
    + destruct (Z.eqb_spec x y); [lia|]. destruct (Z.eqb_spec (x - y) 0); [lia|]. apply Z.compare_gt_iff. lia.
Qed.

Lemma sdscmp_lex s1 s2 l1 l2 :
  holds s1 l1 -> holds s2 l2 -> exists r, sdscmp s1 s2 = Some r /\ (r ?= 0) = lex l1 l2.
Proof.
  intros Hh1 Hh2. unfold sdscmp. destruct (holds_sdslen _ _ Hh1) as (-> & _ & _).
  destruct (holds_sdslen _ _ Hh2) as (-> & _ & _).
  destruct Hh1 as (p1 & Hb1 & _). destruct Hh2 as (p2 & Hb2 & _).
  set (m := if zlen l1 <? zlen l2 then zlen l1 else zlen l2).
  assert (Hm : 0 <= m /\ m <= zlen l1 /\ m <= zlen l2 /\ Z.to_nat m = Nat.min (length l1) (length l2)).
  { unfold m, zlen. destruct (Z.ltb_spec (Z.of_nat (length l1)) (Z.of_nat (length l2))); lia. }
  destruct Hm as (Hm0 & Hm1 & Hm2 & Hmn).
  assert (Hld : forall l p, m <= zlen l -> load (l ++ 0 :: p) 0 m = Some (take (Z.to_nat m) l)).
  { intros l p Hle. unfold load. rewrite decide_True by (rewrite zlen_app, zlen_cons; pose proof (zlen_nonneg p); lia).
    rewrite drop_0, take_app_le; [done|]. unfold zlen in *. lia. }
  rewrite Hb1, Hb2, !Hld by lia. cbn [mbind option_bind]. eexists. split; [done|]. rewrite Hmn.
  apply memcmp_lex.
Qed.

(** ** Refinement *)

Inductive op :=
  | OCat (t : list Z) | OCpy (t : list Z) | OGrow (n : Z) | ORange (a b : Z) | OTrim (cset : list Z)
  | OClear | OLower | OUpper | OMap (from to : list Z) | ORemoveFree | ORoom (n : Z).

Definition exec s (o : op) : option sdshdr :=
  match o with
  | OCat t => sdscatlen s t
  | OCpy t => sdscpylen s t
  | OGrow n => sdsgrowzero s n
  | ORange a b => sdsrange s a b
  | OTrim cset => sdstrim s cset
  | OClear => sdsclear s
  | OLower => sdstolower s
  | OUpper => sdstoupper s
  | OMap from to => sdsmapchars s from to
  | ORemoveFree => Some (sdsRemoveFreeSpace s)
  | ORoom n => Some (sdsMakeRoomFor s n)
  end.

Definition spec (l : list Z) (o : op) : list Z :=
  match o with
  | OCat t => l ++ t
  | OCpy t => t
  | OGrow n => l ++ replicate (Z.to_nat (n - zlen l)) 0
  | ORange a b => range_spec l a b
  | OTrim cset => trim_spec (in_cset cset) l
  | OClear => []
  | OLower => tolower <$> l
  | OUpper => toupper <$> l
  | OMap from to => subst_char from to <$> l
  | ORemoveFree | ORoom _ => l
  end.

(** The sizes stay below 2^29 and the indexes are ints. *)
Definition op_ok (l : list Z) (o : op) : Prop :=
  match o with
  | OCat t | OCpy t => zlen l + zlen t < max_len
  | OGrow n => n < max_len
  | ORange a b => in_int 32 a /\ in_int 32 b
  | ORoom n => 0 <= n /\ zlen l + n < max_len
  | _ => True
  end.

Lemma sds_exec_holds s l o :
  holds s l -> op_ok l o -> exists s', exec s o = Some s' /\ holds s' (spec l o).
Proof.
  intros Hh Hok. destruct o; cbn [exec spec op_ok] in *.
  - by apply sdscatlen_holds.
  - by apply (sdscpylen_holds s l).
  - by apply sdsgrowzero_holds.
  - destruct Hok; by apply sdsrange_holds.
  - by apply sdstrim_holds.
  - by eapply sdsclear_holds.
  - by apply map_chars_holds.
  - by apply map_chars_holds.
  - by apply map_chars_holds.
  - eexists. split; [done|]. by apply sdsRemoveFreeSpace_holds.
  - destruct (sdsMakeRoomFor_holds s l n Hh) as (s' & <- & Hh' & _); [tauto|tauto|]. eauto.
Qed.

Fixpoint exec_all s (os : list op) : option sdshdr :=
  match os with [] => Some s | o :: os => s ← exec s o; exec_all s os end.

Fixpoint ops_ok (l : list Z) (os : list op) : Prop :=
  match os with [] => True | o :: os => op_ok l o /\ ops_ok (spec l o) os end.

Lemma sds_exec_all_holds os : forall s l,
  holds s l -> ops_ok l os -> exists s', exec_all s os = Some s' /\ holds s' (fold_left spec os l).
Proof.
  induction os as [|o os IH]; intros s l Hh Hok; cbn [exec_all fold_left ops_ok] in *; [eauto|].
  destruct Hok as [Ho Hok]. destruct (sds_exec_holds s l o Hh Ho) as (s1 & -> & Hh1).
  cbn [mbind option_bind]. by apply IH.
Qed.

(** C13: every sequence of the editing operations of sds.c on a string created by sdsnewlen stays
    within its buffer and has the effect of the corresponding operations on the list of its
    bytes: append, overwrite, zero fill, range with negative indexes, trim, case changes,
    character maps; the buffer always holds the bytes, a NUL and [free] further bytes, and
    sdscmp is the lexicographic order. *)
Theorem sds_refines_list (init : list Z) (os : list op) :
  zlen init < max_len -> ops_ok init os ->
  exists s0 s, sdsnewlen (Some init) (zlen init) = Some s0 /\ exec_all s0 os = Some s /\
    let l := fold_left spec os init in
    load (buf s) 0 (len s + 1) = Some (l ++ [0]) /\ zlen (buf s) = len s + free s + 1 /\
    len s = zlen l /\ 0 <= free s /\
    (forall s', holds s' init -> exists r, sdscmp s s' = Some r /\ (r ?= 0) = lex l init).
Proof.
  intros Hm Hok. pose proof (zlen_nonneg init).
  destruct (sdsnewlen_holds init (zlen init)) as (s0 & H0 & Hh0); [lia|done|].
  rewrite take_ge in Hh0 by (unfold zlen; lia).
  destruct (sds_exec_all_holds os s0 init Hh0 Hok) as (s & Hs & Hh). exists s0, s.
  split; [done|]. split; [done|]. cbv zeta. set (l := fold_left spec os init) in *.
  pose proof Hh as (pad & Hb & Hl & Hf & _). pose proof (zlen_nonneg pad). split_and!.
  - rewrite Hb, cons_middle, app_assoc. apply (load_app [] (l ++ [0]) pad); [done|]. by rewrite zlen_app, Hl.
  - rewrite Hb, zlen_app, zlen_cons. lia.
  - done.
  - lia.
  - intros s' Hh'. by apply sdscmp_lex.
Qed.

End Sds.

Lemma sds_refines_list_witness :
  exists s0 s, sdsnewlen (fun _ => 7) (Some (str "  Hello ")) 8 = Some s0 /\
    exec_all (fun _ => 7) s0 [OTrim (str " "); OCat (str ", World"); ORange 0 (-3); OUpper] = Some s /\
    load (buf s) 0 (len s + 1) = Some (str "HELLO, WOR" ++ [0]).
Proof.
  destruct (sds_refines_list (fun _ => 7) (str "  Hello ")
    [OTrim (str " "); OCat (str ", World"); ORange 0 (-3); OUpper]) as (s0 & s & H0 & H1 & H2 & _).
  - vm_compute. reflexivity.
  - cbn. repeat split; vm_compute; try reflexivity; intros H; discriminate H.
  - exists s0, s. split; [exact H0|]. split; [exact H1|exact H2].
Defined.

(** ** sdssplitlen *)

(** The loop over [j]; [tokens] are the elements so far, [slots] the capacity of their array.
    [None]: a read or a write outside of an array. *)
Fixpoint split_loop (fuel : nat) (s sep : list Z) (j start slots : Z) (tokens : list (list Z))
    : option (list (list Z)) :=
  if j <? zlen s - (zlen sep - 1) then
    match fuel with
    | O => None
    | S fuel =>
      let slots := if slots <? zlen tokens + 2 then slots * 2 else slots in
      c ← load s j (zlen sep);
      if bool_decide (c = sep) then
        if slots <=? zlen tokens then None
        else
          tok ← load s start (j - start);
          split_loop fuel s sep (j + zlen sep) (j + zlen sep) slots (tokens ++ [tok])
      else split_loop fuel s sep (j + 1) start slots tokens
    end
  else
    if slots <=? zlen tokens then None
    else tok ← load s start (zlen s - start); Some (tokens ++ [tok]).

(** [Some None] is the NULL result for an empty separator. *)
Definition sdssplitlen (s sep : list Z) : option (option (list (list Z))) :=
  if zlen sep <? 1 then Some None
  else if zlen s =? 0 then Some (Some [])
  else Some <$> split_loop (S (length s)) s sep 0 0 5 [].

(** sdssplitlen(join(tokens, sep), sep) is the inverse of joining. *)
Fixpoint join (sep : list Z) (ts : list (list Z)) : list Z :=
  match ts with
  | [] => []
  | [t] => t
  | t :: ts => t ++ sep ++ join sep ts
  end.

(** [sep] occurs in [t]. *)
Definition contains (sep t : list Z) : Prop := exists a b, t = a ++ sep ++ b.

Lemma join_concat sep ts t :
  join sep (ts ++ [t]) = concat ((fun t => t ++ sep) <$> ts) ++ t.
Proof.
  induction ts as [|x ts IH]; [done|].
  cbn [app fmap list_fmap concat]. rewrite <- app_assoc, <- IH.
  rewrite <- app_assoc. by destruct ts.
Qed.

(** The text at [i] in [s] of a token that contains the separator. *)
Lemma contains_at (s sep a b : list Z) (start n : nat) :
  take n (drop start s) = a ++ sep ++ b ->
  take (length sep) (drop (start + length a) s) = sep.
Proof.
  intros H. rewrite <- drop_drop.
  rewrite <- (take_drop n (drop start s)), H, <- !app_assoc, drop_app_length.
  apply take_app_length.
Qed.

Lemma contains_len (s sep a b : list Z) (start n : nat) :
  take n (drop start s) = a ++ sep ++ b -> (length a + length sep <= n)%nat.
Proof. intros H%(f_equal length). rewrite length_take, !length_app in H. lia. Qed.

(** The invariant: the tokens so far, each followed by a separator, are the text before
    [start], and no separator begins between [start] and [j]. *)
Lemma split_loop_ok (s sep : list Z) fuel : forall j start slots tokens,
  1 <= zlen sep -> 0 <= start <= j -> j <= zlen s ->
  zlen s - j < Z.of_nat fuel -> 5 <= slots -> zlen tokens + 1 <= slots ->
  concat ((fun t => t ++ sep) <$> tokens) = take (Z.to_nat start) s ->
  Forall (fun t => ~ contains sep t) tokens ->
  (forall i, start <= i < j -> take (length sep) (drop (Z.to_nat i) s) <> sep) ->
  exists ts, split_loop fuel s sep j start slots tokens = Some ts /\
    join sep ts = s /\ Forall (fun t => ~ contains sep t) ts /\ ts <> [].
Proof.
  induction fuel as [|fuel IH]; intros j start slots tokens Hsep Hst Hjs Hf Hsl Hroom Hcat Hall Hno; [lia|].
  cbn [split_loop]. destruct (Z.ltb_spec j (zlen s - (zlen sep - 1))) as [Hlt|Hge].
  - rewrite (load_in_range s j) by lia. cbn [mbind option_bind].
    set (slots' := if slots <? zlen tokens + 2 then slots * 2 else slots).
    assert (Hsl' : 5 <= slots' /\ zlen tokens + 2 <= slots').
    { unfold slots'. destruct (Z.ltb_spec slots (zlen tokens + 2)); lia. }
    clearbody slots'. case_bool_decide as Heq.
    + destruct (Z.leb_spec slots' (zlen tokens)); [lia|].
      rewrite load_in_range by lia. cbn [mbind option_bind].
      set (tok := take (Z.to_nat (j - start)) (drop (Z.to_nat start) s)).
      assert (Hsplit : take (Z.to_nat (j + zlen sep)) s = take (Z.to_nat start) s ++ tok ++ sep).
      { replace (Z.to_nat (j + zlen sep)) with (Z.to_nat start + (Z.to_nat (j - start) + Z.to_nat (zlen sep)))%nat by lia.
        rewrite <- (take_take_drop s), <- (take_take_drop (drop _ s)), drop_drop. do 2 f_equal.
        etransitivity; [|exact Heq]. do 2 f_equal. lia. }
      apply IH; try lia; try done.
      * rewrite zlen_app, zlen_cons, zlen_nil. lia.
      * rewrite fmap_app, concat_app, Hcat, Hsplit. cbn. by rewrite app_nil_r.
      * apply Forall_app. split; [done|]. constructor; [|constructor].
        intros (a & b & Hab). pose proof (contains_len _ _ _ _ _ _ Hab).
        apply (Hno (start + zlen a)); [unfold zlen in *; lia|].
        replace (Z.to_nat (start + zlen a)) with (Z.to_nat start + length a)%nat by (unfold zlen; lia).
        by eapply contains_at.
    + apply IH; try lia; try done. intros i Hi. destruct (decide (i = j)) as [->|]; [|apply Hno; lia].
      intros He. apply Heq. unfold zlen. by rewrite Nat2Z.id.
  - destruct (Z.leb_spec slots (zlen tokens)); [lia|].
    rewrite load_in_range by lia. cbn [mbind option_bind].
    eexists. split; [done|]. rewrite join_concat, Hcat, (take_ge (drop _ s)).
    2:{ rewrite length_drop. unfold zlen. lia. }
    rewrite take_drop. split_and!; [done| |by destruct tokens].
    apply Forall_app. split; [done|]. constructor; [|constructor].
    intros (a & b & Hab). rewrite <- (take_ge (drop (Z.to_nat start) s) (Z.to_nat (zlen s - start))) in Hab.
    2:{ rewrite length_drop. unfold zlen. lia. }
    pose proof (contains_len _ _ _ _ _ _ Hab).
    apply (Hno (start + zlen a)); [unfold zlen in *; lia|].
    replace (Z.to_nat (start + zlen a)) with (Z.to_nat start + length a)%nat by (unfold zlen; lia).
    by eapply contains_at.
Qed.

(** Sdssplitlen stays within its arrays and terminates; the tokens of a nonempty string,
    joined by the separator, are the string again, and none of them contains the separator
    (so the split is as fine as possible). *)
Theorem sdssplitlen_join (s sep : list Z) :
  s <> [] -> sep <> [] ->
  exists ts, sdssplitlen s sep = Some (Some ts) /\ join sep ts = s /\ ts <> [] /\
    Forall (fun t => ~ contains sep t) ts.
Proof.
  intros Hs Hsep. unfold sdssplitlen.
  assert (1 <= zlen sep) by (destruct sep; [done|]; rewrite zlen_cons; pose proof (zlen_nonneg sep); lia).
  destruct (Z.ltb_spec (zlen sep) 1); [lia|].
  destruct (Z.eqb_spec (zlen s) 0) as [E|]; [destruct s; [done|]; unfold zlen in E; cbn in E; lia|].
  destruct (split_loop_ok s sep (S (length s)) 0 0 5 []) as (ts & -> & ? & ? & ?);
    try done; try (unfold zlen; cbn; lia).
  by exists ts.
Qed.

Lemma sdssplitlen_join_witness :
  exists ts, sdssplitlen (str "foo_-_bar_-_") (str "_-_") = Some (Some ts) /\
    join (str "_-_") ts = str "foo_-_bar_-_" /\ ts = [str "foo"; str "bar"; []].
Proof.
  destruct (sdssplitlen_join (str "foo_-_bar_-_") (str "_-_")) as (ts & H1 & H2 & _).
  - intros H. discriminate H.
  - intros H. discriminate H.
  - exists ts. split; [exact H1|]. split; [exact H2|].
    vm_compute in H1. injection H1 as <-. reflexivity.
Defined.

(** ** sdscatrepr and sdssplitargs

    The strings under construction are given by their contents: every step appends with
    sdscatlen, whose effect is that of [++] ([sds_refines_list]). *)

(** [isprint] and [isspace] in the C locale. *)
Definition isprint (c : Z) : bool := (32 <=? c) && (c <=? 126).
Definition isspace (c : Z) : bool := ((9 <=? c) && (c <=? 13)) || (c =? 32).

(** A digit of [%02x]. *)
Definition hex_char (d : Z) : Z := if d <? 10 then 48 + d else 97 + (d - 10).

Definition repr_char (c : Z) : list Z :=
  if (c =? 92) || (c =? 34) then [92; c]
  else if c =? 10 then [92; 110]
  else if c =? 13 then [92; 114]
  else if c =? 9 then [92; 116]
  else if c =? 7 then [92; 97]
  else if c =? 8 then [92; 98]
  else if isprint c then [c]
  else [92; 120; hex_char (c / 16); hex_char (c mod 16)].

Definition sdscatrepr (s p : list Z) : list Z :=
  s ++ [34] ++ concat (repr_char <$> p) ++ [34].

Definition is_hex_digit (c : Z) : bool :=
  ((48 <=? c) && (c <=? 57)) || ((97 <=? c) && (c <=? 102)) || ((65 <=? c) && (c <=? 70)).

Definition hex_digit_to_int (c : Z) : Z :=
  if (48 <=? c) && (c <=? 57) then c - 48
  else if (97 <=? c) && (c <=? 102) then c - 97 + 10
  else if (65 <=? c) && (c <=? 70) then c - 65 + 10
  else 0.

(** The [switch] on the character after a backslash. *)
Definition unescape (c : Z) : Z :=
  if c =? 110 then 10
  else if c =? 114 then 13
  else if c =? 116 then 9
  else if c =? 98 then 8
  else if c =? 97 then 7
  else c.

(** The test for a backslash, an x and two hexadecimal digits at [p], each character read only
    when the ones before it match; the value is the pair of digits. *)
Definition hex_escape (line : list Z) (p : Z) : outcome (option (Z * Z)) :=
  c0 ← chr line p;
  if negb (c0 =? 92) then Ok None else
  c1 ← chr line (p + 1);
  if negb (c1 =? 120) then Ok None else
  c2 ← chr line (p + 2);
  if negb (is_hex_digit c2) then Ok None else
  c3 ← chr line (p + 3);
  if negb (is_hex_digit c3) then Ok None else Ok (Some (c2, c3)).

(** What one iteration of [while(!done)] does: [TErr] is [goto err], [TDone] sets [done]; the
    position is the one after the final [if ( *p) p++]. *)
Inductive tstep := TErr | TDone (p : Z) | TGo (p : Z) (inq insq : bool) (current : list Z).

(** The closing quote at [p]. *)
Definition close_quote (line : list Z) (p : Z) : outcome tstep :=
  c1 ← chr line (p + 1);
  if negb (c1 =? 0) && negb (isspace c1) then Ok TErr else Ok (TDone (p + 1)).

Definition token_step (line : list Z) (p : Z) (inq insq : bool) (current : list Z) : outcome tstep :=
  c ← chr line p;
  if inq then
    h ← hex_escape line p;
    match h with
    | Some (c2, c3) =>
        Ok (TGo (p + 4) inq insq (current ++ [uwrap 8 (hex_digit_to_int c2 * 16 + hex_digit_to_int c3)]))
    | None =>
        c1 ← (if c =? 92 then chr line (p + 1) else Ok 0);
        if (c =? 92) && negb (c1 =? 0) then Ok (TGo (p + 2) inq insq (current ++ [unescape c1]))
        else if c =? 34 then close_quote line p
        else if c =? 0 then Ok TErr
        else Ok (TGo (p + 1) inq insq (current ++ [c]))
    end
  else if insq then
    c1 ← (if c =? 92 then chr line (p + 1) else Ok 0);
    if (c =? 92) && (c1 =? 39) then Ok (TGo (p + 2) inq insq (current ++ [39]))
    else if c =? 39 then close_quote line p
    else if c =? 0 then Ok TErr
    else Ok (TGo (p + 1) inq insq (current ++ [c]))
  else
    if (c =? 32) || (c =? 10) || (c =? 13) || (c =? 9) then Ok (TDone (p + 1))
    else if c =? 0 then Ok (TDone p)
    else if c =? 34 then Ok (TGo (p + 1) true insq current)
    else if c =? 39 then Ok (TGo (p + 1) inq true current)
    else Ok (TGo (p + 1) inq insq (current ++ [c])).

(** [while(!done)]: [Ok None] is an error, [Ok (Some (p, token))] the end of a token. *)
Fixpoint get_token (fuel : nat) (line : list Z) (p : Z) (inq insq : bool) (current : list Z)
    : outcome (option (Z * list Z)) :=
  match fuel with
  | O => OutOfFuel
  | S fuel =>
    st ← token_step line p inq insq current;
    match st with
    | TErr => Ok None
    | TDone p => Ok (Some (p, current))
    | TGo p inq insq current => get_token fuel line p inq insq current
    end
  end.

Fixpoint skip_blanks (fuel : nat) (line : list Z) (p : Z) : outcome Z :=
  match fuel with
  | O => OutOfFuel
  | S fuel =>
    c ← chr line p;
    if negb (c =? 0) && isspace c then skip_blanks fuel line (p + 1) else Ok p
  end.

Fixpoint splitargs_loop (fuel : nat) (line : list Z) (p : Z) (vector : list (list Z))
    : outcome (option (list (list Z))) :=
  match fuel with
  | O => OutOfFuel
  | S fuel =>
    p ← skip_blanks (S (S (length line))) line p;
    c ← chr line p;
    if negb (c =? 0) then
      t ← get_token (S (S (length line))) line p false false [];
      match t with
      | None => Ok None
      | Some (p, current) => splitargs_loop fuel line p (vector ++ [current])
      end
    else Ok (Some vector)
  end.

(** The NULL result is [Ok None]; [line] is given by the bytes before its NUL. *)
Definition sdssplitargs (line : list Z) : outcome (option (list (list Z))) :=
  splitargs_loop (S (S (length line))) line 0 [].

Example sdssplitargs_ex1 :
  sdssplitargs (str "foo bar 'it\'s' ") = Ok (Some [str "foo"; str "bar"; str "it's"]).
Proof. reflexivity. Qed.

Example sdssplitargs_ex2 : sdssplitargs ([34] ++ str "foo" ++ [34] ++ str "bar") = Ok None.
Proof. reflexivity. Qed.

(** *** sdssplitargs returns on every line *)

Lemma chr_total l p : 0 <= p <= zlen l -> exists c, chr l p = Ok c /\ (c <> 0 -> p < zlen l).
Proof.
  intros Hp. unfold chr. destruct (Z.ltb_spec p 0); [lia|].
  destruct (l !! Z.to_nat p) as [c|] eqn:E.
  - exists c. split; [done|]. apply lookup_lt_Some in E. unfold zlen in *. lia.
  - apply lookup_ge_None in E. destruct (Z.eqb_spec p (zlen l)); [by exists 0|]. unfold zlen in *. lia.
Qed.

(** Read a character that is in range, keeping that a nonzero one is not the terminator. *)
Ltac read_chr :=
  match goal with
  | |- context [chr ?l ?p] =>
      let c := fresh "c" in let E := fresh "E" in let H := fresh "Hc" in
      destruct (chr_total l p) as (c & E & H); [lia|]; rewrite E; cbn [mbind outcome_bind]
  end.

Lemma hex_escape_total line p : 0 <= p <= zlen line ->
  exists h, hex_escape line p = Ok h /\ (is_Some h -> p + 4 <= zlen line).
Proof.
  intros Hp. unfold hex_escape. read_chr.
  destruct (Z.eqb_spec c 92); cbn [negb]; [|by eexists; split; [|intros []]]. read_chr.
  destruct (Z.eqb_spec c0 120); cbn [negb]; [|by eexists; split; [|intros []]]. read_chr.
  destruct (is_hex_digit c1) eqn:Ex1; cbn [negb]; [|by eexists; split; [|intros []]].
  assert (c1 <> 0) by (intros ->; discriminate Ex1). read_chr.
  destruct (is_hex_digit c2) eqn:Ex2; cbn [negb]; [|by eexists; split; [|intros []]].
  assert (c2 <> 0) by (intros ->; discriminate Ex2). eexists; split; [done|]. lia.
Qed.

Definition step_ok (line : list Z) (p : Z) (fresh_start : Prop) (st : tstep) : Prop :=
  match st with
  | TErr => True
  | TDone q => p <= q <= zlen line /\ (fresh_start -> p < q)
  | TGo q _ _ _ => p < q <= zlen line
  end.

Lemma close_quote_total line p c : 0 <= p <= zlen line -> chr line p = Ok c -> c <> 0 -> (c <> 0 -> p < zlen line) ->
  exists st, close_quote line p = Ok st /\ step_ok line p True st.
Proof.
  intros Hp _ Hc Hlt. specialize (Hlt Hc). unfold close_quote. read_chr.
  case_match; eexists; (split; [done|]); cbn; lia.
Qed.

(** A step reads within the line and, at a character other than its terminator, advances. *)
Lemma token_step_total line p inq insq cur : 0 <= p <= zlen line ->
  exists st, token_step line p inq insq cur = Ok st /\
    step_ok line p (chr line p <> Ok 0) st.
Proof.
  intros Hp. unfold token_step. destruct (chr_total line p Hp) as (c & E & Hc). rewrite E.
  cbn [mbind outcome_bind].
  assert (Hcl : c <> 0 -> exists st, close_quote line p = Ok st /\ step_ok line p (Ok c <> Ok 0) st).
  { intros Hc0. destruct (close_quote_total line p c Hp E Hc0 Hc) as (st & Hst & Hok).
    exists st. split; [done|]. destruct st; cbn in *; tauto || lia. }
  destruct inq; [|destruct insq].
  - destruct (hex_escape_total line p Hp) as (h & -> & Hh). cbn [mbind outcome_bind].
    destruct h as [[c2 c3]|]; [eexists; split; [done|]; cbn; specialize (Hh (ltac:(eauto))); lia|].
    destruct (Z.eqb_spec c 92) as [->|].
    + read_chr. destruct (Z.eqb_spec c 0); cbn [andb negb Z.eqb Pos.eqb];
        (eexists; split; [done|]; cbn; lia).
    + cbn [mbind outcome_bind andb]. destruct (Z.eqb_spec c 34); [apply Hcl; lia|].
      destruct (Z.eqb_spec c 0); (eexists; split; [done|]; cbn; lia).
  - destruct (Z.eqb_spec c 92) as [->|].
    + read_chr. destruct (Z.eqb_spec c 39); cbn [andb negb Z.eqb Pos.eqb];
        (eexists; split; [done|]; cbn; lia).
    + cbn [mbind outcome_bind andb]. destruct (Z.eqb_spec c 39); [apply Hcl; lia|].
      destruct (Z.eqb_spec c 0); (eexists; split; [done|]; cbn; lia).
  - destruct (Z.eqb_spec c 0) as [->|Hc0]; [by eexists; split; [done|]; cbn; split; [lia|]|].
    repeat case_match; (eexists; split; [done|]; cbn; lia).
Qed.

Lemma get_token_total line fuel : forall p inq insq cur,
  0 <= p <= zlen line -> zlen line - p < Z.of_nat fuel ->
  exists r, get_token fuel line p inq insq cur = Ok r /\
    match r with
    | None => True
    | Some (q, _) => p <= q <= zlen line /\ (chr line p <> Ok 0 -> p < q)
    end.
Proof.
  induction fuel as [|fuel IH]; intros p inq insq cur Hp Hf; [lia|].
  cbn [get_token]. destruct (token_step_total line p inq insq cur Hp) as (st & -> & Hst).
  cbn [mbind outcome_bind]. destruct st as [|q|q inq' insq' cur']; cbn in Hst.
  - by exists None.
  - by exists (Some (q, cur)).
  - destruct (IH q inq' insq' cur') as (r & -> & Hr); [lia|lia|]. exists r. split; [done|].
    destruct r as [[q' ?]|]; [|done]. lia.
Qed.

Lemma skip_blanks_total line fuel : forall p,
  0 <= p <= zlen line -> zlen line - p < Z.of_nat fuel ->
  exists q, skip_blanks fuel line p = Ok q /\ p <= q <= zlen line.
Proof.
  induction fuel as [|fuel IH]; intros p Hp Hf; [lia|].
  cbn [skip_blanks]. read_chr. destruct (Z.eqb_spec c 0); cbn [negb andb]; [eexists; split; [done|lia]|].
  destruct (isspace c); [|eexists; split; [done|lia]].
  destruct (IH (p + 1)) as (q & -> & ?); [lia|lia|]. eexists; split; [done|lia].
Qed.

Lemma splitargs_loop_total line fuel : forall p vector,
  0 <= p <= zlen line -> zlen line - p < Z.of_nat fuel ->
  exists r, splitargs_loop fuel line p vector = Ok r.
Proof.
  induction fuel as [|fuel IH]; intros p vector Hp Hf; [lia|].
  cbn [splitargs_loop].
  destruct (skip_blanks_total line (S (S (length line))) p) as (q & -> & Hq); [lia|unfold zlen in *; lia|].
  cbn [mbind outcome_bind]. destruct (chr_total line q) as (c & E & Hc); [lia|]. rewrite E.
  cbn [mbind outcome_bind]. destruct (Z.eqb_spec c 0); cbn [negb]; [by eexists|].
  destruct (get_token_total line (S (S (length line))) q false false []) as (r & -> & Hr); [lia|unfold zlen in *; lia|].
  cbn [mbind outcome_bind]. destruct r as [[q' cur]|]; [|by eexists].
  apply IH; [lia|]. assert (q < q'); [|lia]. apply Hr. rewrite E. congruence.
Qed.

(** *** sdssplitargs reads what sdscatrepr writes *)

(** The three shapes of an encoded byte. *)
Definition repr_shape (c : Z) : bool :=
  match repr_char c with
  | [d] => (d =? c) && negb (d =? 92) && negb (d =? 34) && negb (d =? 0)
  | [b; e] => (b =? 92) && negb (e =? 120) && negb (e =? 0) && (unescape e =? c)
  | [b; x; h1; h2] => (b =? 92) && (x =? 120) && is_hex_digit h1 && is_hex_digit h2 &&
      (uwrap 8 (hex_digit_to_int h1 * 16 + hex_digit_to_int h2) =? c)
  | _ => false
  end.

Lemma repr_shape_byte c : is_byte c -> repr_shape c = true.
Proof.
  intros Hc. assert (H : forallb (fun n => repr_shape (Z.of_nat n)) (seq 0 256) = true) by (vm_compute; reflexivity).
  rewrite forallb_forall in H. specialize (H (Z.to_nat c)). unfold is_byte in Hc.
  rewrite Z2Nat.id in H by lia. apply H. apply in_seq. lia.
Qed.

Lemma chr_nth (pre l post : list Z) (n : nat) c p :
  p = zlen pre + Z.of_nat n -> l !! n = Some c -> chr (pre ++ l ++ post) p = Ok c.
Proof.
  intros -> Hn. apply list_elem_of_split_length in Hn as (a & b & -> & ->).
  rewrite <- (app_assoc a), (app_assoc pre). cbn [app]. apply chr_app_cons.
  rewrite zlen_app. done.
Qed.

(** One encoded byte inside of the quotes is one iteration. *)
Lemma token_step_repr pre c post cur : is_byte c ->
  token_step (pre ++ repr_char c ++ post) (zlen pre) true false cur =
  Ok (TGo (zlen pre + zlen (repr_char c)) true false (cur ++ [c])).
Proof.
  intros Hc. pose proof (repr_shape_byte c Hc) as Hs. unfold repr_shape in Hs.
  unfold token_step, hex_escape.
  destruct (repr_char c) as [|b [|e [|h1 [|h2 [|]]]]]; try done.
  - rewrite !andb_true_iff, !negb_true_iff in Hs. destruct Hs as (((Hd & H92) & H34) & H0).
    apply Z.eqb_eq in Hd as ->.
    rewrite !(chr_nth pre [c] post 0 c (zlen pre)) by (done || lia). cbn [mbind outcome_bind].
    rewrite H92. cbn [negb mbind outcome_bind andb]. by rewrite H34, H0.
  - rewrite !andb_true_iff, !negb_true_iff in Hs. destruct Hs as (((Hd & H120) & H0) & Hu).
    apply Z.eqb_eq in Hd as ->, Hu.
    rewrite !(chr_nth pre [92; e] post 0 92 (zlen pre)), !(chr_nth pre [92; e] post 1 e (zlen pre + 1)) by (done || lia).
    cbn [mbind outcome_bind Z.eqb Pos.eqb negb]. rewrite H120. cbn [negb mbind outcome_bind].
    rewrite H0, Hu. done.
  - rewrite !andb_true_iff in Hs. destruct Hs as ((((Hd & H120) & Hh1) & Hh2) & Hu).
    apply Z.eqb_eq in Hd as ->, H120 as ->, Hu. set (l := [92; 120; h1; h2]) in *.
    rewrite !(chr_nth pre l post 0 92 (zlen pre)), !(chr_nth pre l post 1 120 (zlen pre + 1)), !(chr_nth pre l post 2 h1 (zlen pre + 2)),
      !(chr_nth pre l post 3 h2 (zlen pre + 3)) by (done || lia).
    cbn [mbind outcome_bind Z.eqb Pos.eqb negb]. rewrite Hh1, Hh2. cbn [negb mbind outcome_bind].
    by rewrite Hu.
Qed.

Lemma zlen_repr_char c : is_byte c -> 1 <= zlen (repr_char c).
Proof.
  intros Hc%repr_shape_byte. unfold repr_shape in Hc. destruct (repr_char c); [done|].
  rewrite zlen_cons. pose proof (zlen_nonneg l). lia.
Qed.

(** What may follow a closing quote. *)
Definition closes (post : list Z) : Prop := post = [] \/ exists c post', post = c :: post' /\ isspace c = true.

Lemma close_quote_ok pre post : closes post ->
  close_quote (pre ++ 34 :: post) (zlen pre) = Ok (TDone (zlen pre + 1)).
Proof.
  intros Hpost. unfold close_quote. destruct Hpost as [->|(c & post' & -> & Hc)].
  - rewrite chr_end by (rewrite zlen_app; done). done.
  - change (pre ++ 34 :: c :: post') with (pre ++ [34; c] ++ post').
    rewrite (chr_nth pre [34; c] post' 1 c) by (done || lia). cbn [mbind outcome_bind].
    rewrite Hc. cbn [negb]. by rewrite andb_false_r.
Qed.

Lemma get_token_repr bytes : forall fuel pre post cur,
  Forall is_byte bytes -> closes post -> (length bytes < fuel)%nat ->
  get_token fuel (pre ++ concat (repr_char <$> bytes) ++ 34 :: post) (zlen pre) true false cur =
  Ok (Some (zlen pre + zlen (concat (repr_char <$> bytes)) + 1, cur ++ bytes)).
Proof.
  induction bytes as [|c bytes IH]; intros fuel pre post cur Hb Hpost Hf;
    (destruct fuel as [|fuel]; [cbn in Hf; lia|]).
  - cbn [fmap list_fmap concat app get_token]. unfold token_step, hex_escape.
    rewrite !(chr_app_cons pre 34 post (zlen pre)) by done. cbn [mbind outcome_bind negb Z.eqb Pos.eqb andb].
    rewrite close_quote_ok by done. cbn [mbind outcome_bind].
    rewrite app_nil_r. do 3 f_equal. change (zlen (@nil Z)) with 0. lia.
  - apply Forall_cons_1 in Hb as [Hc Hb].
    cbn [fmap list_fmap concat get_token]. rewrite <- !app_assoc, token_step_repr by done.
    cbn [mbind outcome_bind]. rewrite <- zlen_app, (app_assoc pre).
    change (list_fmap _ _ repr_char bytes) with (repr_char <$> bytes).
    rewrite IH by (done || (cbn in Hf; lia)). rewrite !zlen_app, <- app_assoc.
    do 3 f_equal. change (list_fmap _ _ repr_char bytes) with (repr_char <$> bytes). lia.
Qed.

(** The arguments printed one after another, with a blank between them. *)
Definition print_args (args : list (list Z)) : list Z := join [32] (sdscatrepr [] <$> args).

Lemma skip_blanks_quote fuel pre sp post : sp = [] \/ sp = [32] ->
  skip_blanks (S (S fuel)) (pre ++ sp ++ 34 :: post) (zlen pre) = Ok (zlen (pre ++ sp)).
Proof.
  intros [-> | ->]; cbn [skip_blanks app].
  - rewrite (chr_app_cons pre 34 post (zlen pre)) by done. cbn. by rewrite app_nil_r.
  - rewrite (chr_app_cons pre 32 (34 :: post) (zlen pre)) by done. cbn [mbind outcome_bind isspace Z.leb Z.eqb Pos.eqb Z.compare Pos.compare Pos.compare_cont negb andb orb].
    change (pre ++ 32 :: 34 :: post) with (pre ++ [32; 34] ++ post).
    rewrite (chr_nth pre [32; 34] post 1 34) by (done || lia). cbn. by rewrite zlen_app.
Qed.

Lemma length_repr bytes : Forall is_byte bytes -> (length bytes <= length (concat (repr_char <$> bytes)))%nat.
Proof.
  induction 1 as [|c bytes Hc _ IH]; [done|]. cbn [fmap list_fmap concat length].
  rewrite length_app. pose proof (zlen_repr_char c Hc). unfold zlen in *.
  change (list_fmap _ _ repr_char bytes) with (repr_char <$> bytes). lia.
Qed.

(** One printed argument, after an optional blank, is one iteration of the outer loop. *)
Lemma splitargs_loop_repr fuel pre sp a post v :
  sp = [] \/ sp = [32] -> Forall is_byte a -> closes post ->
  let line := pre ++ sp ++ sdscatrepr [] a ++ post in
  splitargs_loop (S fuel) line (zlen pre) v =
  splitargs_loop fuel line (zlen (pre ++ sp ++ sdscatrepr [] a)) (v ++ [a]).
Proof.
  intros Hsp Ha Hpost line. unfold sdscatrepr in *. cbn [splitargs_loop].
  assert (Hline : line = pre ++ sp ++ 34 :: concat (repr_char <$> a) ++ 34 :: post).
  { unfold line. cbn [app]. by rewrite <- !app_assoc. }
  clearbody line. subst line. rewrite skip_blanks_quote by done. cbn [mbind outcome_bind].
  rewrite (app_assoc pre sp). rewrite chr_app_cons by done. cbn [mbind outcome_bind Z.eqb negb].
  set (q := pre ++ sp).
  assert (Hf : (length a + 1 < S (length (q ++ 34%Z :: concat (repr_char <$> a) ++ 34%Z :: post)))%nat).
  { rewrite !length_app, length_cons, length_app, length_cons. pose proof (length_repr a Ha). lia. }
  remember (S (length (q ++ 34 :: concat (repr_char <$> a) ++ 34 :: post))) as f1.
  cbn [get_token]. unfold token_step. rewrite chr_app_cons by done.
  cbn [mbind outcome_bind Z.eqb Pos.eqb orb].
  pose proof (get_token_repr a f1 (q ++ [34]) post [] Ha Hpost ltac:(lia)) as H.
  rewrite <- app_assoc in H. cbn [app] in H. rewrite zlen_app in H. change (zlen [34]) with 1 in H.
  rewrite H. cbn [mbind outcome_bind]. f_equal. unfold q. rewrite !zlen_app.
  change (zlen [34]) with 1. change (zlen (@nil Z)) with 0. lia.
Qed.

Definition blank_args (args : list (list Z)) : list Z :=
  concat ((fun a => 32 :: sdscatrepr [] a) <$> args).

Lemma blank_args_closes args : closes (blank_args args).
Proof. destruct args as [|a args]; [by left|]. right. cbn. by eexists _, _. Qed.

Lemma print_args_blank a args : print_args (a :: args) = sdscatrepr [] a ++ blank_args args.
Proof.
  unfold print_args, blank_args. revert a. induction args as [|b args IH]; intros a.
  - cbn. by rewrite app_nil_r.
  - specialize (IH b). cbn [fmap list_fmap join concat] in *. rewrite IH. done.
Qed.

Lemma splitargs_loop_blank args : forall fuel pre v,
  Forall (Forall is_byte) args -> (length args < fuel)%nat ->
  splitargs_loop fuel (pre ++ blank_args args) (zlen pre) v = Ok (Some (v ++ args)).
Proof.
  induction args as [|a args IH]; intros fuel pre v Hb Hf; (destruct fuel as [|fuel]; [cbn in Hf; lia|]).
  - cbn [blank_args fmap list_fmap concat]. rewrite !app_nil_r. cbn [splitargs_loop].
    cbn [skip_blanks]. rewrite !(chr_end pre (zlen pre)) by done. cbn. by rewrite chr_end.
  - apply Forall_cons_1 in Hb as [Ha Hb].
    pose proof (splitargs_loop_repr fuel pre [32] a (blank_args args) v ltac:(by right) Ha (blank_args_closes args)) as H.
    cbv zeta in H. unfold blank_args at 1. cbn [fmap list_fmap concat app]. cbn [app] in H.
    etransitivity; [exact H|].
    pose proof (IH fuel (pre ++ 32 :: sdscatrepr [] a) (v ++ [a]) Hb ltac:(cbn in Hf; lia)) as H2.
    rewrite <- !app_assoc in H2. exact H2.
Qed.

Lemma blank_args_length args : (length args <= length (blank_args args))%nat.
Proof.
  induction args as [|a args IH]; [done|].
  change (blank_args (a :: args)) with ((32 :: sdscatrepr [] a) ++ blank_args args).
  rewrite length_app, !length_cons. lia.
Qed.

(** Sdssplitargs never leaves the line and returns on every line, and it reads back what
    sdscatrepr prints: any arguments (arbitrary bytes, NULs and quotes included) printed with
    sdscatrepr and separated by blanks are split into those arguments again. *)
Theorem sdssplitargs_repr :
  (forall line, exists r, sdssplitargs line = Ok r) /\
  (forall args, Forall (Forall is_byte) args ->
    sdssplitargs (print_args args) = Ok (Some args)).
Proof.
  split.
  - intros line. apply splitargs_loop_total; unfold zlen; lia.
  - intros args Hb. unfold sdssplitargs. destruct args as [|a args]; [done|].
    apply Forall_cons_1 in Hb as [Ha Hb]. rewrite print_args_blank.
    set (line := sdscatrepr [] a ++ blank_args args).
    assert (Hl : (length args < S (length line))%nat).
    { unfold line. rewrite length_app. pose proof (blank_args_length args). lia. }
    remember (S (length line)) as f. unfold line.
    etransitivity; [exact (splitargs_loop_repr f [] [] a (blank_args args) [] ltac:(by left) Ha (blank_args_closes args))|].
    apply (splitargs_loop_blank args f (sdscatrepr [] a) [a] Hb Hl).
Qed.

Lemma sdssplitargs_repr_witness :
  print_args [[0; 255; 34]; []; str "a b"] =
    [34; 92; 120; 48; 48; 92; 120; 102; 102; 92; 34; 34; 32; 34; 34; 32; 34] ++ str "a b" ++ [34] /\
  sdssplitargs (print_args [[0; 255; 34]; []; str "a b"]) = Ok (Some [[0; 255; 34]; []; str "a b"]).
Proof.
  split; [vm_compute; reflexivity|]. apply (proj2 sdssplitargs_repr).
  repeat constructor; try discriminate.
Defined.

End Sds.
