(* ===== verification/Zipmap.v ===== *)
(** * zipmap.c: small hashes in one string

    Model of [src/debug/redis/src/zipmap.c] on the bytes of the string.  Lengths are unsigned
    ints with their wrap-around; reads and writes outside of the block are [None], as is a loop
    that exceeds its fuel, so that the refinement theorem includes memory safety and
    termination.  [endianconv.h] leaves lengths little endian on the machines the program runs
    on. *)

From Stdlib Require Import ZArith Lia.
From stdpp Require Import prelude list strings numbers.
From S2P Require Import Prelude.

Local Open Scope Z_scope.

Module Zipmap.

Definition ZIPMAP_BIGLEN : Z := 254.
Definition ZIPMAP_END : Z := 255.
Definition ZIPMAP_VALUE_MAX_FREE : Z := 4.

Definition u32 (z : Z) : Z := uwrap 32 z.

Definition ZIPMAP_LEN_BYTES (l : Z) : Z := if l <? ZIPMAP_BIGLEN then 1 else 5.

Definition zipmapNew : list Z := [0; ZIPMAP_END].

Definition zipmapDecodeLength (m : list Z) (p : Z) : option Z :=
  len ← rd m p;
  if len <? ZIPMAP_BIGLEN then Some len
  else bs ← load m (p + 1) 4; Some (le_decode bs).

(** Writing the length at [p]; with a NULL pointer only [ZIPMAP_LEN_BYTES] is returned. *)
Definition zipmapEncodeLength (m : list Z) (p len : Z) : option (list Z * Z) :=
  if len <? ZIPMAP_BIGLEN then m ← store m p [len]; Some (m, 1)
  else
    m ← store m p [ZIPMAP_BIGLEN];
    m ← store m (p + 1) (le_encode 4 len);
    Some (m, 5).

(** [!memcmp(p+llen,key,l)] for a key of [l] bytes. *)
Definition key_matches (m : list Z) (p : Z) (key : list Z) : option bool :=
  bs ← load m p (zlen key); Some (bool_decide (bs = key)).

(** The loop of zipmapLookupRaw.  [key] is NULL or the key; [totlen] tells whether the caller
    passed a non-NULL totlen.  The result is the returned pointer (as an offset) and *totlen,
    which is meaningful when it was asked for. *)
Fixpoint lookup_loop (fuel : nat) (m : list Z) (key : option (list Z)) (totlen : bool) (p : Z)
    (k : option Z) : option (option Z * Z) :=
  match fuel with
  | O => None
  | S fuel =>
    c ← rd m p;
    if c =? ZIPMAP_END then Some (k, u32 (p + 1))
    else
      l ← zipmapDecodeLength m p;
      let llen := ZIPMAP_LEN_BYTES l in
      hit ← match key, k with
            | Some key, None => if l =? zlen key then key_matches m (p + llen) key else Some false
            | _, _ => Some false
            end;
      if hit && negb totlen then Some (Some p, 0)
      else
        let k := if hit : bool then Some p else k in
        let p := p + u32 (llen + l) in
        l ← zipmapDecodeLength m p;
        let p := p + ZIPMAP_LEN_BYTES l in
        free ← rd m p;
        lookup_loop fuel m key totlen (p + u32 (l + 1 + free)) k
  end.

Definition zipmapLookupRaw (m : list Z) (key : option (list Z)) (totlen : bool) : option (option Z * Z) :=
  lookup_loop (S (length m)) m key totlen 1 None.

Definition zipmapRequiredLength (klen vlen : Z) : Z :=
  let l := u32 (klen + vlen + 3) in
  let l := if ZIPMAP_BIGLEN <=? klen then u32 (l + 4) else l in
  if ZIPMAP_BIGLEN <=? vlen then u32 (l + 4) else l.

Definition zipmapRawKeyLength (m : list Z) (p : Z) : option Z :=
  l ← zipmapDecodeLength m p; Some (u32 (ZIPMAP_LEN_BYTES l + l)).

Definition zipmapRawValueLength (m : list Z) (p : Z) : option Z :=
  l ← zipmapDecodeLength m p;
  let used := ZIPMAP_LEN_BYTES l in
  free ← rd m (p + used);
  Some (u32 (used + (free + 1 + l))).

Definition zipmapRawEntryLength (m : list Z) (p : Z) : option Z :=
  l ← zipmapRawKeyLength m p;
  v ← zipmapRawValueLength m (p + l);
  Some (u32 (l + v)).

Section Alloc.
Context (junk : nat -> Z).

Definition zipmapResize (m : list Z) (len : Z) : option (list Z) :=
  store (realloc junk m len) (len - 1) [ZIPMAP_END].

(** The key is found at [p] or a new entry of [reqlen] bytes is made: the block, the position of
    the entry, its size [freelen], the size of the block and [*update]. *)
Definition set_make_room (m key : list Z) (reqlen : Z) : option (list Z * Z * Z * Z * bool) :=
  '(p, zmlen) ← zipmapLookupRaw m (Some key) true;
  match p with
  | None =>
      m ← zipmapResize m (u32 (zmlen + reqlen));
      n ← rd m 0;
      m ← (if n <? ZIPMAP_BIGLEN then store m 0 [uwrap 8 (n + 1)] else Some m);
      Some (m, zmlen - 1, reqlen, u32 (zmlen + reqlen), false)
  | Some p =>
      freelen ← zipmapRawEntryLength m p;
      if freelen <? reqlen then
        m ← zipmapResize m (u32 (zmlen - freelen + reqlen));
        m ← memmove m (p + reqlen) (p + freelen) (u32 (zmlen - (p + freelen + 1)));
        Some (m, p, reqlen, u32 (zmlen - freelen + reqlen), true)
      else Some (m, p, freelen, zmlen, true)
  end.

(** Give back the unused bytes of the entry when there are many: the block and [vempty]. *)
Definition set_shrink (m : list Z) (p freelen reqlen zmlen : Z) : option (list Z * Z) :=
  let empty := u32 (freelen - reqlen) in
  if ZIPMAP_VALUE_MAX_FREE <=? empty then
    m ← memmove m (p + reqlen) (p + freelen) (u32 (zmlen - (p + freelen + 1)));
    m ← zipmapResize m (u32 (zmlen - empty));
    Some (m, 0)
  else Some (m, empty).

Definition set_write (m : list Z) (p : Z) (key val : list Z) (vempty : Z) : option (list Z) :=
  '(m, n) ← zipmapEncodeLength m p (zlen key);
  let p := p + n in
  m ← store m p key;
  let p := p + zlen key in
  '(m, n) ← zipmapEncodeLength m p (zlen val);
  let p := p + n in
  m ← store m p [uwrap 8 vempty];
  store m (p + 1) val.

(** The new block and [*update]. *)
Definition zipmapSet (m key val : list Z) : option (list Z * bool) :=
  let reqlen := zipmapRequiredLength (zlen key) (zlen val) in
  '(m, p, freelen, zmlen, update) ← set_make_room m key reqlen;
  '(m, vempty) ← set_shrink m p freelen reqlen zmlen;
  m ← set_write m p key val vempty;
  Some (m, update).

Definition zipmapDel (m key : list Z) : option (list Z * bool) :=
  '(p, zmlen) ← zipmapLookupRaw m (Some key) true;
  match p with
  | Some p =>
      freelen ← zipmapRawEntryLength m p;
      m ← memmove m p (p + freelen) (u32 (zmlen - (p + freelen + 1)));
      m ← zipmapResize m (u32 (zmlen - freelen));
      n ← rd m 0;
      m ← (if n <? ZIPMAP_BIGLEN then store m 0 [uwrap 8 (n - 1)] else Some m);
      Some (m, true)
  | None => Some (m, false)
  end.
End Alloc.

Definition zipmapRewind : Z := 1.

(** [Some None] at the end; otherwise the next position, the key and the value. *)
Definition zipmapNext (m : list Z) (p : Z) : option (option (Z * list Z * list Z)) :=
  c ← rd m p;
  if c =? ZIPMAP_END then Some None
  else
    klen ← zipmapDecodeLength m p;
    k ← load m (p + ZIPMAP_LEN_BYTES klen) klen;
    n ← zipmapRawKeyLength m p;
    let p := p + n in
    vlen ← zipmapDecodeLength m p;
    v ← load m (p + 1 + ZIPMAP_LEN_BYTES vlen) vlen;
    n ← zipmapRawValueLength m p;
    Some (Some (p + n, k, v)).

Definition zipmapGet (m key : list Z) : option (option (list Z)) :=
  '(p, _) ← zipmapLookupRaw m (Some key) false;
  match p with
  | None => Some None
  | Some p =>
      n ← zipmapRawKeyLength m p;
      let p := p + n in
      vlen ← zipmapDecodeLength m p;
      v ← load m (p + ZIPMAP_LEN_BYTES vlen + 1) vlen;
      Some (Some v)
  end.

Definition zipmapExists (m key : list Z) : option bool :=
  '(p, _) ← zipmapLookupRaw m (Some key) false;
  Some (bool_decide (is_Some p)).

(** Counting the entries with zipmapNext. *)
Fixpoint len_loop (fuel : nat) (m : list Z) (p len : Z) : option Z :=
  match fuel with
  | O => None
  | S fuel =>
    r ← zipmapNext m p;
    match r with None => Some len | Some (p, _, _) => len_loop fuel m p (u32 (len + 1)) end
  end.

(** The length and the block, whose first byte may be updated. *)
Definition zipmapLen (m : list Z) : option (Z * list Z) :=
  n ← rd m 0;
  if n <? ZIPMAP_BIGLEN then Some (n, m)
  else
    len ← len_loop (S (length m)) m zipmapRewind 0;
    m ← (if len <? ZIPMAP_BIGLEN then store m 0 [len] else Some m);
    Some (len, m).

Definition zipmapBlobLen (m : list Z) : option Z :=
  '(_, totlen) ← zipmapLookupRaw m None true; Some totlen.

Definition nojunk (_ : nat) : Z := 0.

(** The example of the comment at the head of the file. *)
Example zipmap_ex :
  ('(m, _) ← zipmapSet nojunk zipmapNew (str "foo") (str "bar");
   '(m, _) ← zipmapSet nojunk m (str "hello") (str "world"); Some m) =
  Some ([2; 3] ++ str "foo" ++ [3; 0] ++ str "bar" ++ [5] ++ str "hello" ++ [5; 0] ++ str "world" ++ [255]).
Proof. reflexivity. Qed.

(** ** The encoding *)

Abbreviation entry := (list Z * list Z * list Z)%type.

Definition enc_len (l : Z) : list Z := if l <? ZIPMAP_BIGLEN then [l] else ZIPMAP_BIGLEN :: le_encode 4 l.

(** A key, a value and the unused bytes after it. *)
Definition enc_entry (e : entry) : list Z :=
  let '(k, v, pad) := e in
  enc_len (zlen k) ++ k ++ enc_len (zlen v) ++ zlen pad :: v ++ pad.

Definition enc (es : list entry) : list Z := concat (enc_entry <$> es).

Definition ekey (e : entry) : list Z := e.1.1.

Lemma zlen_enc_len l : zlen (enc_len l) = ZIPMAP_LEN_BYTES l.
Proof. unfold enc_len, ZIPMAP_LEN_BYTES. by case_match. Qed.

Lemma LEN_BYTES_range l : 1 <= ZIPMAP_LEN_BYTES l <= 5.
Proof. unfold ZIPMAP_LEN_BYTES. case_match; lia. Qed.

Lemma zlen_enc_entry k v pad : zlen (enc_entry (k, v, pad)) =
  ZIPMAP_LEN_BYTES (zlen k) + zlen k + ZIPMAP_LEN_BYTES (zlen v) + 1 + zlen v + zlen pad.
Proof. unfold enc_entry. rewrite !zlen_app, zlen_cons, zlen_app, !zlen_enc_len. lia. Qed.

Lemma enc_cons e es : enc (e :: es) = enc_entry e ++ enc es.
Proof. done. Qed.

Lemma enc_app es fs : enc (es ++ fs) = enc es ++ enc fs.
Proof. unfold enc. by rewrite fmap_app, concat_app. Qed.

Lemma decode_enc_len a l c p : p = zlen a -> in_uint 32 l ->
  zipmapDecodeLength (a ++ enc_len l ++ c) p = Some l.
Proof.
  intros -> Hl. unfold zipmapDecodeLength, enc_len. destruct (Z.ltb_spec l ZIPMAP_BIGLEN) as [Hs|Hb].
  - cbn [app]. rewrite rd_app by done. cbn [mbind option_bind].
    destruct (Z.ltb_spec l ZIPMAP_BIGLEN); [done|lia].
  - rewrite <- app_comm_cons, rd_app by done. cbn [mbind option_bind].
    destruct (Z.ltb_spec ZIPMAP_BIGLEN ZIPMAP_BIGLEN); [lia|].
    change (a ++ ZIPMAP_BIGLEN :: le_encode 4 l ++ c) with (a ++ [ZIPMAP_BIGLEN] ++ le_encode 4 l ++ c).
    rewrite app_assoc, load_app by (rewrite ?zlen_app; done).
    cbn [mbind option_bind]. rewrite le_decode_encode. f_equal. apply Z.mod_small, Hl.
Qed.

Lemma rd_enc_len a l c p : p = zlen a -> 0 <= l ->
  exists b, rd (a ++ enc_len l ++ c) p = Some b /\ b <> ZIPMAP_END.
Proof.
  intros -> Hl. unfold enc_len, ZIPMAP_END. destruct (Z.ltb_spec l ZIPMAP_BIGLEN) as [Hs|Hb];
    cbn [app]; rewrite rd_app by done; eexists; (split; [done|]); unfold ZIPMAP_BIGLEN in *; lia.
Qed.

Lemma u32_id z : 0 <= z < 2 ^ 32 -> u32 z = z.
Proof. apply Z.mod_small. Qed.

(** What the functions read of an entry. *)
Record entry_reads (m : list Z) (p : Z) (k v pad : list Z) : Prop := {
  er_first : exists b, rd m p = Some b /\ b <> ZIPMAP_END;
  er_klen : zipmapDecodeLength m p = Some (zlen k);
  er_key : load m (p + ZIPMAP_LEN_BYTES (zlen k)) (zlen k) = Some k;
  er_vlen : zipmapDecodeLength m (p + (ZIPMAP_LEN_BYTES (zlen k) + zlen k)) = Some (zlen v);
  er_free : rd m (p + (ZIPMAP_LEN_BYTES (zlen k) + zlen k) + ZIPMAP_LEN_BYTES (zlen v)) = Some (zlen pad);
  er_val : load m (p + (ZIPMAP_LEN_BYTES (zlen k) + zlen k) + ZIPMAP_LEN_BYTES (zlen v) + 1) (zlen v) = Some v }.

Lemma enc_entry_reads pre k v pad post :
  zlen (pre ++ enc_entry (k, v, pad) ++ post) < 2 ^ 32 ->
  entry_reads (pre ++ enc_entry (k, v, pad) ++ post) (zlen pre) k v pad.
Proof.
  intros Hm. rewrite !zlen_app, zlen_enc_entry in Hm.
  pose proof (zlen_nonneg pre). pose proof (zlen_nonneg k). pose proof (zlen_nonneg v).
  pose proof (zlen_nonneg pad). pose proof (zlen_nonneg post).
  pose proof (LEN_BYTES_range (zlen k)). pose proof (LEN_BYTES_range (zlen v)).
  set (m := pre ++ enc_entry (k, v, pad) ++ post).
  assert (E0 : m = pre ++ enc_len (zlen k) ++ (k ++ enc_len (zlen v) ++ zlen pad :: v ++ pad ++ post)).
  { unfold m, enc_entry. rewrite <- !app_assoc. cbn [app]. by rewrite <- !app_assoc. }
  assert (E1 : m = (pre ++ enc_len (zlen k)) ++ k ++ (enc_len (zlen v) ++ zlen pad :: v ++ pad ++ post)).
  { rewrite E0. by rewrite <- !app_assoc. }
  assert (E2 : m = (pre ++ enc_len (zlen k) ++ k) ++ enc_len (zlen v) ++ (zlen pad :: v ++ pad ++ post)).
  { rewrite E0. by rewrite <- !app_assoc. }
  assert (E3 : m = (pre ++ enc_len (zlen k) ++ k ++ enc_len (zlen v)) ++ zlen pad :: (v ++ pad ++ post)).
  { rewrite E0. by rewrite <- !app_assoc. }
  assert (E4 : m = (pre ++ enc_len (zlen k) ++ k ++ enc_len (zlen v) ++ [zlen pad]) ++ v ++ (pad ++ post)).
  { rewrite E0. by rewrite <- !app_assoc. }
  split.
  - rewrite E0. by apply rd_enc_len.
  - rewrite E0. apply decode_enc_len; [done|]. split; lia.
  - rewrite E1. apply load_app; [|done]. by rewrite zlen_app, zlen_enc_len.
  - rewrite E2. apply decode_enc_len; [|split; lia]. rewrite !zlen_app, zlen_enc_len. lia.
  - rewrite E3. apply rd_app. rewrite !zlen_app, !zlen_enc_len. lia.
  - rewrite E4. apply load_app; [|done]. rewrite !zlen_app, !zlen_enc_len. change (zlen [zlen pad]) with 1. lia.
Qed.

(** ** Lookup *)

(** The offset of the first entry with the key, from [off]. *)
Fixpoint find_off (key : list Z) (off : Z) (es : list entry) : option Z :=
  match es with
  | [] => None
  | e :: es => if decide (ekey e = key) then Some off else find_off key (off + zlen (enc_entry e)) es
  end.

Lemma key_matches_iff m p k key :
  load m p (zlen k) = Some k -> 
  (if zlen k =? zlen key then key_matches m p key else Some false) = Some (bool_decide (k = key)).
Proof.
  intros Hk. unfold key_matches. destruct (Z.eqb_spec (zlen k) (zlen key)) as [E|E].
  - rewrite <- E, Hk. done.
  - rewrite bool_decide_false by congruence. done.
Qed.

Lemma lookup_loop_ok key totlen es : forall fuel pre k,
  let m := pre ++ enc es ++ [ZIPMAP_END] in
  zlen m < 2 ^ 32 -> (length es < fuel)%nat ->
  lookup_loop fuel m key totlen (zlen pre) k =
  Some (match (match key, k with Some key, None => find_off key (zlen pre) es | _, _ => None end) with
        | Some p => if totlen then (Some p, zlen m) else (Some p, 0)
        | None => (k, zlen m)
        end).
Proof.
  induction es as [|[[kk v] pad] es IH]; intros fuel pre k m Hm Hf; (destruct fuel as [|fuel]; [cbn in Hf; lia|]).
  - cbn [lookup_loop]. unfold m. cbn [enc fmap list_fmap concat app]. rewrite rd_app by done.
    cbn [mbind option_bind]. rewrite Z.eqb_refl. unfold m in Hm. cbn [enc fmap list_fmap concat app] in Hm.
    rewrite zlen_app in *. change (zlen [ZIPMAP_END]) with 1 in *. pose proof (zlen_nonneg pre).
    rewrite u32_id by lia. by destruct key, k.
  - cbn [lookup_loop]. unfold m in *. rewrite enc_cons, <- app_assoc in *.
    pose proof (enc_entry_reads pre kk v pad (enc es ++ [ZIPMAP_END]) Hm) as [Hb Hkl Hk Hvl Hfr Hv].
    specialize (IH fuel (pre ++ enc_entry (kk, v, pad))).
    cbv zeta in IH. rewrite <- (app_assoc pre) in IH.
    set (m' := pre ++ enc_entry (kk, v, pad) ++ enc es ++ [ZIPMAP_END]) in *.
    assert (Hlen : zlen pre + zlen (enc_entry (kk, v, pad)) <= zlen m').
    { unfold m'. rewrite !zlen_app. pose proof (zlen_nonneg (enc es)). pose proof (zlen_nonneg [ZIPMAP_END]). lia. }
    rewrite zlen_enc_entry in Hlen.
    pose proof (zlen_nonneg pre). pose proof (zlen_nonneg kk). pose proof (zlen_nonneg v).
    pose proof (zlen_nonneg pad). pose proof (LEN_BYTES_range (zlen kk)). pose proof (LEN_BYTES_range (zlen v)).
    destruct Hb as (b & -> & Hb). cbn [mbind option_bind].
    destruct (Z.eqb_spec b ZIPMAP_END); [done|]. rewrite Hkl. cbn [mbind option_bind].
    set (hit := match key, k with Some key, None => bool_decide (kk = key) | _, _ => false end).
    assert (Hhit : match key, k with
      | Some key, None => if zlen kk =? zlen key then key_matches m' (zlen pre + ZIPMAP_LEN_BYTES (zlen kk)) key else Some false
      | _, _ => Some false end = Some hit).
    { unfold hit. destruct key as [key|], k; try done. by apply key_matches_iff. }
    rewrite Hhit. cbn [mbind option_bind].
    rewrite (u32_id (ZIPMAP_LEN_BYTES (zlen kk) + zlen kk)) by lia. rewrite Hvl. cbn [mbind option_bind].
    rewrite Hfr. cbn [mbind option_bind]. rewrite u32_id by lia.
    replace (zlen pre + (ZIPMAP_LEN_BYTES (zlen kk) + zlen kk) + ZIPMAP_LEN_BYTES (zlen v) + (zlen v + 1 + zlen pad))
      with (zlen (pre ++ enc_entry (kk, v, pad))) by (rewrite zlen_app, zlen_enc_entry; lia).
    rewrite IH by (done || (cbn in Hf; lia)). rewrite zlen_app.
    unfold hit. destruct key as [key|], k as [k0|], totlen; cbn [find_off ekey fst andb negb]; try done;
      (destruct (decide (kk = key)) as [->|Hne];
        [rewrite bool_decide_true by done|rewrite bool_decide_false by done]; done).
Qed.

(** ** The map a block stands for *)

Definition kv (es : list entry) : list (list Z * list Z) := fst <$> es.

(** The block [m] holds the entries [es]: the first byte is their number, or 254 when the
    number has to be counted. *)
Record rep (m : list Z) (es : list entry) : Prop := {
  rep_bytes : exists h, m = h :: enc es ++ [ZIPMAP_END] /\ 0 <= h <= 254 /\ (h < 254 -> h = zlen es);
  rep_size : zlen m < 2 ^ 32;
  rep_pad : Forall (fun e => zlen e.2 < ZIPMAP_VALUE_MAX_FREE) es;
  rep_nodup : NoDup (kv es).*1 }.

Lemma find_off_Some key es : forall off p, find_off key off es = Some p ->
  exists es1 v pad es2, es = es1 ++ (key, v, pad) :: es2 /\ p = off + zlen (enc es1) /\ key ∉ (kv es1).*1.
Proof.
  induction es as [|[[k v] pad] es IH]; intros off p; cbn [find_off]; [done|].
  unfold ekey. cbn [fst]. destruct (decide (k = key)) as [->|Hne].
  - intros [= <-]. exists [], v, pad, es. split_and!; [done| |apply not_elem_of_nil]. change (zlen (enc [])) with 0. lia.
  - intros (es1 & v' & pad' & es2 & -> & -> & Hnin)%IH. exists ((k, v, pad) :: es1), v', pad', es2.
    split_and!; [done| |].
    + rewrite enc_cons, zlen_app. lia.
    + cbn. rewrite not_elem_of_cons. split; [done|]. exact Hnin.
Qed.

Lemma find_off_None key es : forall off, find_off key off es = None -> key ∉ (kv es).*1.
Proof.
  induction es as [|[[k v] pad] es IH]; intros off; cbn [find_off]; [intros _; apply not_elem_of_nil|].
  unfold ekey. cbn [fst]. destruct (decide (k = key)) as [->|Hne]; [done|].
  intros H%IH. cbn. rewrite not_elem_of_cons. split; [done|exact H].
Qed.

Lemma length_enc es : (length es <= length (enc es))%nat.
Proof.
  induction es as [|[[k v] pad] es IH]; [done|]. rewrite enc_cons, length_app. cbn [length].
  pose proof (zlen_enc_entry k v pad). pose proof (LEN_BYTES_range (zlen k)).
  pose proof (LEN_BYTES_range (zlen v)). unfold zlen in *. lia.
Qed.

Lemma lookup_rep m es key totlen : rep m es ->
  zipmapLookupRaw m key totlen =
  Some (match (match key with Some key => find_off key 1 es | None => None end) with
        | Some p => if totlen then (Some p, zlen m) else (Some p, 0)
        | None => (None, zlen m)
        end).
Proof.
  intros [(h & -> & _) Hsz _ _]. unfold zipmapLookupRaw.
  change (h :: enc es ++ [ZIPMAP_END]) with ([h] ++ enc es ++ [ZIPMAP_END]) in *.
  change 1 with (zlen [h]) at 1. rewrite lookup_loop_ok; [done|done|].
  rewrite !length_app. pose proof (length_enc es). cbn. lia.
Qed.

Lemma raw_entry_length pre e post :
  zlen (pre ++ enc_entry e ++ post) < 2 ^ 32 ->
  zipmapRawEntryLength (pre ++ enc_entry e ++ post) (zlen pre) = Some (zlen (enc_entry e)).
Proof.
  destruct e as [[k v] pad]. intros Hm. destruct (enc_entry_reads pre k v pad post Hm) as [Hb Hkl Hk Hvl Hfr Hv].
  rewrite !zlen_app, zlen_enc_entry in Hm.
  pose proof (zlen_nonneg pre). pose proof (zlen_nonneg k). pose proof (zlen_nonneg v).
  pose proof (zlen_nonneg pad). pose proof (zlen_nonneg post).
  pose proof (LEN_BYTES_range (zlen k)). pose proof (LEN_BYTES_range (zlen v)).
  unfold zipmapRawEntryLength, zipmapRawKeyLength, zipmapRawValueLength.
  rewrite Hkl. cbn [mbind option_bind]. rewrite (u32_id (ZIPMAP_LEN_BYTES (zlen k) + zlen k)) by lia.
  rewrite Hvl. cbn [mbind option_bind]. rewrite Hfr. cbn [mbind option_bind].
  rewrite u32_id; rewrite ?(u32_id (ZIPMAP_LEN_BYTES (zlen v) + (zlen pad + 1 + zlen v))); try lia.
  rewrite zlen_enc_entry. f_equal. lia.
Qed.

Lemma zipmapRequiredLength_ok k v : zlen (enc_entry (k, v, [])) < 2 ^ 32 ->
  zipmapRequiredLength (zlen k) (zlen v) = zlen (enc_entry (k, v, [])).
Proof.
  rewrite zlen_enc_entry. change (zlen (@nil Z)) with 0. unfold zipmapRequiredLength, ZIPMAP_LEN_BYTES.
  pose proof (zlen_nonneg k). pose proof (zlen_nonneg v). unfold ZIPMAP_BIGLEN.
  destruct (Z.ltb_spec (zlen k) 254), (Z.ltb_spec (zlen v) 254), (Z.leb_spec 254 (zlen k)),
    (Z.leb_spec 254 (zlen v)); try lia; intros;
    rewrite (u32_id (zlen k + zlen v + 3)) by lia; rewrite ?(u32_id (zlen k + zlen v + 3 + 4)) by lia;
    rewrite ?(u32_id (zlen k + zlen v + 3 + 4 + 4)) by lia; lia.
Qed.

(** ** The moves within the block *)

Lemma zm_resize_shrink junk a b n : b <> [] -> n = zlen a + 1 ->
  zipmapResize junk (a ++ b) n = Some (a ++ [ZIPMAP_END]).
Proof.
  intros Hb ->. unfold zipmapResize. destruct b as [|x b]; [done|].
  change (a ++ x :: b) with (a ++ [x] ++ b). rewrite app_assoc.
  rewrite realloc_shrink by (rewrite zlen_app; done).
  pose proof (store_app a [x] [] [ZIPMAP_END] (zlen a + 1 - 1) ltac:(lia) eq_refl) as H.
  rewrite !app_nil_r in H. exact H.
Qed.

Lemma zm_resize_grow junk m n : zlen m < n ->
  exists x, zlen x = n - 1 - zlen m /\ zipmapResize junk m n = Some (m ++ x ++ [ZIPMAP_END]).
Proof.
  intros Hn. unfold zipmapResize. destruct (realloc_grow junk m n) as (pad & Hp & ->); [lia|].
  destruct pad as [|y pad _] using rev_ind; [change (zlen (@nil Z)) with 0 in Hp; lia|].
  rewrite zlen_app in Hp. change (zlen [y]) with 1 in Hp. exists pad. split; [lia|].
  pose proof (store_app (m ++ pad) [y] [] [ZIPMAP_END] (n - 1)) as H.
  rewrite !app_nil_r, <- !app_assoc in H. apply H; [rewrite zlen_app; lia|done].
Qed.

(** Moving the tail [T] that follows [E] so that it starts [req] bytes after [A]. *)
Lemma memmove_tail (A E T R : list Z) dst src n req :
  dst = zlen A + req -> src = zlen A + zlen E -> n = zlen T -> 0 <= req ->
  req + zlen T <= zlen (E ++ T ++ R) ->
  memmove (A ++ E ++ T ++ R) dst src n =
  Some (A ++ take (Z.to_nat req) (E ++ T ++ R) ++ T ++ drop (Z.to_nat req + length T) (E ++ T ++ R)).
Proof.
  intros -> -> -> Hr Hlen. unfold memmove.
  pose proof (load_app (A ++ E) T R (zlen A + zlen E) (zlen T) ltac:(by rewrite zlen_app) eq_refl) as Hl.
  rewrite <- !app_assoc in Hl. rewrite Hl. cbn [mbind option_bind].
  set (W := E ++ T ++ R) in *.
  assert (Hr' : zlen (take (Z.to_nat req) W) = req).
  { unfold zlen in *. rewrite length_take. lia. }
  rewrite <- (take_drop (Z.to_nat req) W) at 1. rewrite app_assoc.
  replace (drop (Z.to_nat req) W) with (drop (Z.to_nat req) W ++ []) by apply app_nil_r.
  rewrite store_over.
  - rewrite app_nil_r, drop_drop, <- !app_assoc. done.
  - rewrite zlen_app. lia.
  - unfold zlen in *. rewrite length_drop. lia.
Qed.

Lemma store_head (h : Z) l h' : store (h :: l) 0 [h'] = Some (h' :: l).
Proof. apply (store_app [] [h] l [h'] 0); done. Qed.

Lemma zlen_cons_app_end (h : Z) (x : list Z) : zlen (h :: x ++ [ZIPMAP_END]) = zlen x + 2.
Proof. rewrite zlen_cons, zlen_app. change (zlen [ZIPMAP_END]) with 1. lia. Qed.

(** The block when there is room for the entry: [blk] is where it will be written. *)
Definition roomy (m key : list Z) (es : list entry) (req : Z) (r : list Z * Z * Z * Z * bool) : Prop :=
  exists h es1 es2 blk,
    r = ((h :: enc es1) ++ blk ++ enc es2 ++ [ZIPMAP_END], zlen (h :: enc es1), zlen blk,
         zlen ((h :: enc es1) ++ blk ++ enc es2 ++ [ZIPMAP_END]), bool_decide (key ∈ (kv es).*1)) /\
    req <= zlen blk /\ 0 <= h <= 254 /\ (h < 254 -> h = zlen es1 + 1 + zlen es2) /\
    zlen ((h :: enc es1) ++ blk ++ enc es2 ++ [ZIPMAP_END]) <= zlen m + req /\
    ~ (key ∈ (kv es1).*1) /\
    (~ (key ∈ (kv es).*1) /\ es1 = es /\ es2 = [] \/ exists v pad, es = es1 ++ (key, v, pad) :: es2).

Lemma make_room_insert junk m es key req :
  rep m es -> key ∉ (kv es).*1 -> 1 <= req -> zlen m + req < 2 ^ 32 -> find_off key 1 es = None ->
  exists r, set_make_room junk m key req = Some r /\ roomy m key es req r.
Proof.
  intros Hrep Hnin Hreq Hsz Hfo. unfold set_make_room. rewrite (lookup_rep m es (Some key) true Hrep), Hfo.
  destruct Hrep as [(h & Hm & Hh & Hcnt) Hsz' _ _]. cbn [mbind option_bind].
  pose proof (zlen_nonneg m). rewrite !u32_id by lia.
  destruct (zm_resize_grow junk m (zlen m + req)) as (x & Hx & ->); [lia|]. cbn [mbind option_bind].
  pose proof (zlen_cons_app_end h (enc es)) as Hzm. rewrite <- Hm in Hzm.
  replace (m ++ x ++ [ZIPMAP_END]) with (h :: (enc es ++ [ZIPMAP_END]) ++ x ++ [ZIPMAP_END]) by (by rewrite Hm).
  change (rd (h :: ?l) 0) with (Some h). cbn [mbind option_bind].
  set (h' := if h <? ZIPMAP_BIGLEN then h + 1 else h).
  assert (Hst : (if h <? ZIPMAP_BIGLEN then store (h :: (enc es ++ [ZIPMAP_END]) ++ x ++ [ZIPMAP_END]) 0 [uwrap 8 (h + 1)]
                 else Some (h :: (enc es ++ [ZIPMAP_END]) ++ x ++ [ZIPMAP_END])) =
                Some (h' :: (enc es ++ [ZIPMAP_END]) ++ x ++ [ZIPMAP_END])).
  { unfold h', ZIPMAP_BIGLEN. destruct (Z.ltb_spec h 254); [|done]. rewrite store_head.
    rewrite uwrap_id by (split; lia). done. }
  rewrite Hst. cbn [mbind option_bind]. eexists. split; [done|].
  exists h', es, [], (ZIPMAP_END :: x). rewrite bool_decide_false by done.
  pose proof (zlen_nonneg es).
  assert (E : (h' :: enc es) ++ (ZIPMAP_END :: x) ++ enc [] ++ [ZIPMAP_END] = h' :: (enc es ++ [ZIPMAP_END]) ++ x ++ [ZIPMAP_END]).
  { cbn [app]. by rewrite <- app_assoc. }
  rewrite E. clear E.
  assert (Hz : zlen (h' :: (enc es ++ [ZIPMAP_END]) ++ x ++ [ZIPMAP_END]) = zlen m + req).
  { rewrite app_assoc, zlen_cons_app_end, !zlen_app. change (zlen [ZIPMAP_END]) with 1. lia. }
  split_and!; try done.
  - rewrite Hz, !zlen_cons. repeat f_equal; lia.
  - rewrite zlen_cons. lia.
  - unfold h', ZIPMAP_BIGLEN. destruct (Z.ltb_spec h 254); lia.
  - unfold h', ZIPMAP_BIGLEN. destruct (Z.ltb_spec h 254); lia.
  - unfold h', ZIPMAP_BIGLEN. change (zlen (@nil entry)) with 0. destruct (Z.ltb_spec h 254); lia.
  - rewrite Hz. lia.
  - by left.
Qed.

Lemma kv_app es fs : kv (es ++ fs) = kv es ++ kv fs.
Proof. apply fmap_app. Qed.

Lemma kv_elem_middle key v pad es1 es2 : key ∈ (kv (es1 ++ (key, v, pad) :: es2)).*1.
Proof. rewrite kv_app, fmap_app. apply elem_of_app. right. cbn. apply elem_of_cons. by left. Qed.

Lemma make_room_update junk m es1 key v pad es2 req :
  let es := es1 ++ (key, v, pad) :: es2 in
  rep m es -> key ∉ (kv es1).*1 -> 0 <= req -> zlen m + req < 2 ^ 32 ->
  find_off key 1 es = Some (1 + zlen (enc es1)) ->
  exists r, set_make_room junk m key req = Some r /\ roomy m key es req r.
Proof.
  intros es Hrep Hnin Hreq Hsz Hfo. unfold set_make_room. rewrite (lookup_rep m es (Some key) true Hrep), Hfo.
  destruct Hrep as [(h & Hm & Hh & Hcnt) Hsz' _ _]. cbn [mbind option_bind].
  set (E := enc_entry (key, v, pad)).
  assert (Hm' : m = (h :: enc es1) ++ E ++ enc es2 ++ [ZIPMAP_END]).
  { rewrite Hm. unfold es. rewrite enc_app, enc_cons. cbn [app]. by rewrite <- !app_assoc. }
  assert (Hcnt' : h < 254 -> h = zlen es1 + 1 + zlen es2).
  { intros Hlt. rewrite Hcnt by done. unfold es. rewrite zlen_app, zlen_cons. lia. }
  assert (Hp : 1 + zlen (enc es1) = zlen (h :: enc es1)) by (rewrite zlen_cons; lia). rewrite Hp. clear Hp.
  assert (Hraw : zipmapRawEntryLength m (zlen (h :: enc es1)) = Some (zlen E)).
  { rewrite Hm'. apply raw_entry_length. fold E. by rewrite <- Hm'. }
  rewrite Hraw. cbn [mbind option_bind].
  pose proof (f_equal zlen Hm') as Hz. rewrite !zlen_app in Hz. change (zlen [ZIPMAP_END]) with 1 in Hz.
  pose proof (zlen_nonneg (h :: enc es1)). pose proof (zlen_nonneg E). pose proof (zlen_nonneg (enc es2)).
  assert (Hbd : bool_decide (key ∈ (kv es).*1) = true) by (apply bool_decide_true, kv_elem_middle).
  destruct (Z.ltb_spec (zlen E) req) as [Hlt|Hge].
  - rewrite !u32_id by lia.
    destruct (zm_resize_grow junk m (zlen m - zlen E + req)) as (x & Hx & ->); [lia|]. cbn [mbind option_bind].
    set (R := [ZIPMAP_END] ++ x). assert (HR : zlen R = 1 + zlen x) by (unfold R; by rewrite zlen_app).
    assert (Hm2 : m ++ x ++ [ZIPMAP_END] = (h :: enc es1) ++ E ++ enc es2 ++ (R ++ [ZIPMAP_END])).
    { rewrite Hm'. unfold R. by rewrite <- !app_assoc. }
    rewrite Hm2, (memmove_tail (h :: enc es1) E (enc es2) (R ++ [ZIPMAP_END]) _ _ _ req);
      [|done|done|lia|done|rewrite !zlen_app; change (zlen [ZIPMAP_END]) with 1; lia].
    cbn [mbind option_bind].
    replace (drop (Z.to_nat req + length (enc es2)) (E ++ enc es2 ++ R ++ [ZIPMAP_END])) with [ZIPMAP_END].
    2:{ rewrite !app_assoc, drop_app_length' ; [done|]. rewrite !length_app. unfold zlen in *. lia. }
    set (blk := take (Z.to_nat req) (E ++ enc es2 ++ R ++ [ZIPMAP_END])).
    assert (Hblk : zlen blk = req).
    { unfold blk, zlen in *. rewrite length_take, !length_app. lia. }
    eexists. split; [done|]. exists h, es1, es2, blk. rewrite Hbd, Hblk.
    assert (Hz2 : zlen ((h :: enc es1) ++ blk ++ enc es2 ++ [ZIPMAP_END]) = zlen m - zlen E + req).
    { rewrite !zlen_app. change (zlen [ZIPMAP_END]) with 1. lia. }
    rewrite Hz2. split_and!; try done; try lia. right. by exists v, pad.
  - eexists. split; [done|]. exists h, es1, es2, E. rewrite Hbd, <- Hm'.
    split_and!; try done; try lia. right. by exists v, pad.
Qed.

Lemma make_room_ok junk m es key req :
  rep m es -> 1 <= req -> zlen m + req < 2 ^ 32 ->
  exists r, set_make_room junk m key req = Some r /\ roomy m key es req r.
Proof.
  intros Hrep Hreq Hsz. destruct (find_off key 1 es) as [p|] eqn:Hfo.
  - pose proof Hfo as (es1 & v & pad & es2 & -> & -> & Hnin)%find_off_Some.
    apply make_room_update; try done. lia.
  - apply make_room_insert; try done. by eapply find_off_None.
Qed.

Lemma set_shrink_ok junk A blk T req zmlen :
  let m := A ++ blk ++ T ++ [ZIPMAP_END] in
  zmlen = zlen m -> zmlen < 2 ^ 32 -> 0 <= req <= zlen blk ->
  exists blk' vempty, set_shrink junk m (zlen A) (zlen blk) req zmlen =
      Some (A ++ blk' ++ T ++ [ZIPMAP_END], vempty) /\
    zlen blk' = req + vempty /\ 0 <= vempty < ZIPMAP_VALUE_MAX_FREE /\ zlen blk' <= zlen blk.
Proof.
  intros m -> Hm Hreq. unfold set_shrink.
  assert (Hz : zlen m = zlen A + zlen blk + zlen T + 1).
  { unfold m. rewrite !zlen_app. change (zlen [ZIPMAP_END]) with 1. lia. }
  pose proof (zlen_nonneg A). pose proof (zlen_nonneg T).
  rewrite (u32_id (zlen blk - req)) by lia. unfold ZIPMAP_VALUE_MAX_FREE.
  destruct (Z.leb_spec 4 (zlen blk - req)) as [Hge|Hlt].
  - rewrite !u32_id by lia. unfold m at 1.
    rewrite (memmove_tail A blk T [ZIPMAP_END] _ _ _ req); [|done|done|lia|lia|rewrite !zlen_app; change (zlen [ZIPMAP_END]) with 1; lia].
    cbn [mbind option_bind]. set (blk' := take (Z.to_nat req) (blk ++ T ++ [ZIPMAP_END])).
    set (rest := drop _ _).
    assert (Ht : zlen blk' = req).
    { unfold blk', zlen in *. rewrite length_take, !length_app. lia. }
    assert (Hrest : rest <> []).
    { intros Hn%(f_equal length). unfold rest in Hn. rewrite length_drop, !length_app in Hn. cbn in Hn. unfold zlen in *. lia. }
    replace (A ++ blk' ++ T ++ rest) with ((A ++ blk' ++ T) ++ rest) by (by rewrite <- !app_assoc).
    rewrite zm_resize_shrink; [|done|rewrite !zlen_app, Ht; change (zlen [ZIPMAP_END]) with 1; lia].
    cbn [mbind option_bind]. exists blk', 0. rewrite <- !app_assoc. split; [done|]. rewrite Ht. lia.
  - exists blk, (zlen blk - req). split; [done|]. lia.
Qed.

Lemma encode_over a blk c l : 0 <= l -> ZIPMAP_LEN_BYTES l <= zlen blk ->
  zipmapEncodeLength (a ++ blk ++ c) (zlen a) l =
  Some ((a ++ enc_len l) ++ drop (Z.to_nat (ZIPMAP_LEN_BYTES l)) blk ++ c, ZIPMAP_LEN_BYTES l).
Proof.
  intros Hl Hb. unfold zipmapEncodeLength, enc_len, ZIPMAP_LEN_BYTES in *.
  destruct (Z.ltb_spec l ZIPMAP_BIGLEN).
  - by rewrite store_over.
  - rewrite store_over; [|done|change (zlen [ZIPMAP_BIGLEN]) with 1; lia]. cbn [mbind option_bind].
    rewrite store_over; [|by rewrite zlen_app|].
    2:{ unfold zlen in *. rewrite length_le_encode, length_drop. cbn. lia. }
    cbn [mbind option_bind]. rewrite drop_drop, length_le_encode, <- !app_assoc. done.
Qed.

Lemma set_write_ok A blk c key val vempty :
  zlen blk = zlen (enc_entry (key, val, [])) + vempty -> 0 <= vempty < 256 ->
  exists pad, zlen pad = vempty /\
    set_write (A ++ blk ++ c) (zlen A) key val vempty = Some (A ++ enc_entry (key, val, pad) ++ c).
Proof.
  rewrite zlen_enc_entry. change (zlen (@nil Z)) with 0. intros Hblk Hv. unfold set_write.
  pose proof (zlen_nonneg key). pose proof (zlen_nonneg val).
  pose proof (LEN_BYTES_range (zlen key)). pose proof (LEN_BYTES_range (zlen val)).
  rewrite encode_over by lia. cbn [mbind option_bind].
  set (b1 := drop (Z.to_nat (ZIPMAP_LEN_BYTES (zlen key))) blk).
  assert (Hb1 : zlen b1 = zlen blk - ZIPMAP_LEN_BYTES (zlen key)) by (unfold b1, zlen in *; rewrite length_drop; lia).
  rewrite store_over by (rewrite ?zlen_app, ?zlen_enc_len; lia). cbn [mbind option_bind].
  set (b2 := drop (length key) b1).
  assert (Hb2 : zlen b2 = zlen b1 - zlen key) by (unfold b2, zlen in *; rewrite length_drop; lia).
  replace (zlen A + ZIPMAP_LEN_BYTES (zlen key) + zlen key) with (zlen ((A ++ enc_len (zlen key)) ++ key))
    by (rewrite !zlen_app, zlen_enc_len; lia).
  rewrite encode_over by lia. cbn [mbind option_bind].
  set (b3 := drop (Z.to_nat (ZIPMAP_LEN_BYTES (zlen val))) b2).
  assert (Hb3 : zlen b3 = zlen b2 - ZIPMAP_LEN_BYTES (zlen val)) by (unfold b3, zlen in *; rewrite length_drop; lia).
  rewrite store_over by (rewrite ?zlen_app, ?zlen_enc_len; change (zlen [uwrap 8 vempty]) with 1; lia).
  cbn [mbind option_bind]. set (b4 := drop (length [uwrap 8 vempty]) b3).
  assert (Hb4 : zlen b4 = zlen b3 - 1) by (unfold b4, zlen in *; rewrite length_drop; cbn; lia).
  rewrite store_over.
  2:{ rewrite !zlen_app, !zlen_enc_len. change (zlen [uwrap 8 vempty]) with 1. lia. }
  2:{ lia. }
  exists (drop (length val) b4). rewrite uwrap_id by (split; lia).
  assert (Hpad : zlen (drop (length val) b4) = vempty) by (unfold zlen in *; rewrite length_drop; lia).
  split; [done|]. unfold enc_entry. rewrite Hpad, <- !app_assoc. cbn [app]. by rewrite <- !app_assoc.
Qed.

(** ** The map operations of the specification *)

Abbreviation alist := (list (list Z * list Z)).

Fixpoint aset (k v : list Z) (l : alist) : alist :=
  match l with
  | [] => [(k, v)]
  | (k', v') :: l => if decide (k' = k) then (k, v) :: l else (k', v') :: aset k v l
  end.

Fixpoint adel (k : list Z) (l : alist) : alist :=
  match l with
  | [] => []
  | (k', v') :: l => if decide (k' = k) then l else (k', v') :: adel k l
  end.

Fixpoint aget (k : list Z) (l : alist) : option (list Z) :=
  match l with
  | [] => None
  | (k', v') :: l => if decide (k' = k) then Some v' else aget k l
  end.

Lemma aset_middle k v v' l1 l2 : k ∉ l1.*1 -> aset k v (l1 ++ (k, v') :: l2) = l1 ++ (k, v) :: l2.
Proof.
  induction l1 as [|[k1 v1] l1 IH]; cbn; intros Hn; [by rewrite decide_True|].
  apply not_elem_of_cons in Hn as [? ?]. rewrite decide_False by done. by rewrite IH.
Qed.

Lemma aset_new k v l : k ∉ l.*1 -> aset k v l = l ++ [(k, v)].
Proof.
  induction l as [|[k1 v1] l IH]; cbn; intros Hn; [done|].
  apply not_elem_of_cons in Hn as [? ?]. rewrite decide_False by done. by rewrite IH.
Qed.

Lemma adel_middle k v l1 l2 : k ∉ l1.*1 -> adel k (l1 ++ (k, v) :: l2) = l1 ++ l2.
Proof.
  induction l1 as [|[k1 v1] l1 IH]; cbn; intros Hn; [by rewrite decide_True|].
  apply not_elem_of_cons in Hn as [? ?]. rewrite decide_False by done. by rewrite IH.
Qed.

Lemma adel_new k l : k ∉ l.*1 -> adel k l = l.
Proof.
  induction l as [|[k1 v1] l IH]; cbn; intros Hn; [done|].
  apply not_elem_of_cons in Hn as [? ?]. rewrite decide_False by done. by rewrite IH.
Qed.

Lemma aget_middle k v l1 l2 : k ∉ l1.*1 -> aget k (l1 ++ (k, v) :: l2) = Some v.
Proof.
  induction l1 as [|[k1 v1] l1 IH]; cbn; intros Hn; [by rewrite decide_True|].
  apply not_elem_of_cons in Hn as [? ?]. rewrite decide_False by done. by rewrite IH.
Qed.

Lemma aget_new k l : k ∉ l.*1 -> aget k l = None.
Proof.
  induction l as [|[k1 v1] l IH]; cbn; intros Hn; [done|].
  apply not_elem_of_cons in Hn as [? ?]. rewrite decide_False by done. by rewrite IH.
Qed.

(** ** The operations *)

Lemma zlen_kv es : zlen (kv es) = zlen es.
Proof. unfold kv, zlen. by rewrite length_fmap. Qed.

Lemma enc_entry_required k v pad : zlen (enc_entry (k, v, pad)) = zlen (enc_entry (k, v, [])) + zlen pad.
Proof. rewrite !zlen_enc_entry. change (zlen (@nil Z)) with 0. lia. Qed.

Lemma enc_entry_size k v : 3 <= zlen (enc_entry (k, v, [])) <= zlen k + zlen v + 11.
Proof.
  rewrite zlen_enc_entry. change (zlen (@nil Z)) with 0. pose proof (zlen_nonneg k). pose proof (zlen_nonneg v).
  pose proof (LEN_BYTES_range (zlen k)). pose proof (LEN_BYTES_range (zlen v)). lia.
Qed.

Lemma zipmapSet_ok junk m es key val :
  rep m es -> zlen m + zlen key + zlen val + 11 < 2 ^ 32 ->
  exists m' es', zipmapSet junk m key val = Some (m', bool_decide (key ∈ (kv es).*1)) /\
    rep m' es' /\ kv es' = aset key val (kv es) /\ zlen m' <= zlen m + zlen key + zlen val + 11.
Proof.
  intros Hrep Hsz. pose proof (enc_entry_size key val) as Hes. pose proof (zlen_nonneg m).
  unfold zipmapSet. rewrite zipmapRequiredLength_ok by lia.
  set (req := zlen (enc_entry (key, val, []))) in *.
  destruct (make_room_ok junk m es key req Hrep) as (r & -> & Hroom); [lia|lia|].
  destruct Hroom as (h & es1 & es2 & blk & -> & Hreq & Hh & Hcnt & Hlen & Hnin & Hcases).
  cbn [mbind option_bind].
  destruct (set_shrink_ok junk (h :: enc es1) blk (enc es2) req _ eq_refl) as (blk' & vempty & -> & Hb' & Hv & Hle); [lia|lia|].
  cbn [mbind option_bind]. unfold ZIPMAP_VALUE_MAX_FREE in Hv.
  destruct (set_write_ok (h :: enc es1) blk' (enc es2 ++ [ZIPMAP_END]) key val vempty) as (pad & Hpad & ->); [done|lia|].
  cbn [mbind option_bind]. eexists _, (es1 ++ (key, val, pad) :: es2). split; [done|].
  assert (Hkv : kv (es1 ++ (key, val, pad) :: es2) = aset key val (kv es)).
  { rewrite kv_app. cbn. destruct Hcases as [(Hn & -> & ->)|(v0 & pad0 & ->)].
    - by rewrite aset_new.
    - rewrite kv_app. cbn. by rewrite aset_middle. }
  assert (Hlen' : zlen ((h :: enc es1) ++ enc_entry (key, val, pad) ++ enc es2 ++ [ZIPMAP_END]) <=
                  zlen ((h :: enc es1) ++ blk ++ enc es2 ++ [ZIPMAP_END])).
  { rewrite !zlen_app, enc_entry_required. fold req. lia. }
  destruct Hrep as [_ _ Hpads Hnd]. split_and!; [split|done|lia].
  - exists h. split_and!; try lia.
    + rewrite enc_app, enc_cons. cbn [app]. by rewrite <- !app_assoc.
    + intros Hlt. rewrite zlen_app, zlen_cons. rewrite Hcnt by done. lia.
  - lia.
  - assert (Forall (fun e : entry => zlen e.2 < ZIPMAP_VALUE_MAX_FREE) es1 /\ Forall (fun e : entry => zlen e.2 < ZIPMAP_VALUE_MAX_FREE) es2) as [Hp1 Hp2].
    { destruct Hcases as [(Hn & -> & ->)|(v0 & pad0 & ->)]; [by split; [|constructor]|].
      apply Forall_app in Hpads as [? Hp]. by apply Forall_cons_1 in Hp as [_ ?]. }
    apply Forall_app. split; [done|]. constructor; [|done]. unfold ZIPMAP_VALUE_MAX_FREE. cbn. lia.
  - destruct Hcases as [(Hn & -> & ->)|(v0 & pad0 & ->)].
    + rewrite kv_app, fmap_app. cbn. apply list.NoDup_app. split_and!; [done| |apply NoDup_singleton].
      intros x Hx ->%list_elem_of_singleton. done.
    + rewrite kv_app, fmap_app in *. exact Hnd.
Qed.

Lemma zipmapDel_ok junk m es key :
  rep m es -> exists m' es', zipmapDel junk m key = Some (m', bool_decide (key ∈ (kv es).*1)) /\
    rep m' es' /\ kv es' = adel key (kv es) /\ zlen m' <= zlen m.
Proof.
  intros Hrep. unfold zipmapDel. rewrite (lookup_rep m es (Some key) true Hrep). cbn [mbind option_bind].
  destruct (find_off key 1 es) as [p|] eqn:Hfo.
  - apply find_off_Some in Hfo as (es1 & v & pad & es2 & -> & -> & Hnin).
    destruct Hrep as [(h & Hm & Hh & Hcnt) Hsz Hpads Hnd].
    set (E := enc_entry (key, v, pad)).
    assert (Hm' : m = (h :: enc es1) ++ E ++ enc es2 ++ [ZIPMAP_END]).
    { rewrite Hm. rewrite enc_app, enc_cons. cbn [app]. by rewrite <- !app_assoc. }
    replace (1 + zlen (enc es1)) with (zlen (h :: enc es1)) by (rewrite zlen_cons; lia).
    assert (Hraw : zipmapRawEntryLength m (zlen (h :: enc es1)) = Some (zlen E)).
    { rewrite Hm'. apply raw_entry_length. fold E. by rewrite <- Hm'. }
    rewrite Hraw. cbn [mbind option_bind].
    pose proof (f_equal zlen Hm') as Hz. rewrite !zlen_app in Hz. change (zlen [ZIPMAP_END]) with 1 in Hz.
    pose proof (zlen_nonneg (h :: enc es1)). pose proof (zlen_nonneg (enc es2)).
    assert (HE : 3 <= zlen E).
    { unfold E. rewrite enc_entry_required. pose proof (enc_entry_size key v). pose proof (zlen_nonneg pad). lia. }
    rewrite !u32_id by lia.
    pose proof (memmove_tail (h :: enc es1) E (enc es2) [ZIPMAP_END] (zlen (h :: enc es1)) _
      (zlen m - (zlen (h :: enc es1) + zlen E + 1)) 0 ltac:(lia) eq_refl ltac:(lia) ltac:(lia)
      ltac:(rewrite ?zlen_app; change (zlen [ZIPMAP_END]) with 1; lia)) as Hmove.
    rewrite <- Hm' in Hmove. rewrite Hmove. cbn [mbind option_bind].
    change (Z.to_nat 0) with 0%nat. rewrite take_0. cbn [app].
    set (rest := drop _ _).
    assert (Hrest : rest <> []).
    { intros Hn%(f_equal length). unfold rest in Hn. rewrite length_drop, !length_app in Hn. cbn in Hn. unfold zlen in *. lia. }
    replace (h :: enc es1 ++ enc es2 ++ rest) with ((h :: enc es1 ++ enc es2) ++ rest) by (cbn [app]; by rewrite <- !app_assoc).
    rewrite zm_resize_shrink; [|done|rewrite zlen_cons, zlen_app; rewrite zlen_cons in *; lia].
    cbn [mbind option_bind app]. change (rd (h :: ?l) 0) with (Some h). cbn [mbind option_bind].
    pose proof (zlen_nonneg es1). pose proof (zlen_nonneg es2).
    rewrite zlen_app, zlen_cons in Hcnt. rewrite bool_decide_true by apply kv_elem_middle.
    set (h' := if h <? ZIPMAP_BIGLEN then h - 1 else h).
    assert (Hst : (if h <? ZIPMAP_BIGLEN then store (h :: (enc es1 ++ enc es2) ++ [ZIPMAP_END]) 0 [uwrap 8 (h - 1)]
                   else Some (h :: (enc es1 ++ enc es2) ++ [ZIPMAP_END])) = Some (h' :: (enc es1 ++ enc es2) ++ [ZIPMAP_END])).
    { unfold h', ZIPMAP_BIGLEN. destruct (Z.ltb_spec h 254); [|done]. rewrite store_head.
      rewrite uwrap_id by (split; lia). done. }
    rewrite Hst. cbn [mbind option_bind]. eexists _, (es1 ++ es2). split; [done|].
    rewrite zlen_cons in Hz.
    assert (Hl : zlen (h' :: (enc es1 ++ enc es2) ++ [ZIPMAP_END]) <= zlen m).
    { rewrite zlen_cons_app_end, zlen_app. lia. }
    split_and!; [split| |done].
    + exists h'. rewrite enc_app, zlen_app. split; [done|].
      unfold h', ZIPMAP_BIGLEN. destruct (Z.ltb_spec h 254); lia.
    + lia.
    + apply Forall_app in Hpads as [? Hp]. apply Forall_cons_1 in Hp as [_ ?]. apply Forall_app. done.
    + rewrite kv_app, fmap_app in *. cbn in Hnd. apply list.NoDup_app in Hnd as (Hn1 & Hn2 & Hn3).
      apply list.NoDup_cons in Hn3 as [? ?]. apply list.NoDup_app. split_and!; [done| |done].
      intros x Hx Hx2. apply (Hn2 x Hx). apply elem_of_cons. by right.
    + rewrite !kv_app. cbn. by rewrite adel_middle.
  - apply find_off_None in Hfo. eexists m, es. rewrite bool_decide_false by done.
    split_and!; [done|done| |lia]. by rewrite adel_new.
Qed.

(** ** Readers *)

Lemma zipmapNext_entry pre k v pad post :
  let m := pre ++ enc_entry (k, v, pad) ++ post in
  zlen m < 2 ^ 32 -> zipmapNext m (zlen pre) = Some (Some (zlen (pre ++ enc_entry (k, v, pad)), k, v)).
Proof.
  intros m Hm. destruct (enc_entry_reads pre k v pad post Hm) as [(b & Hb & Hne) Hkl Hk Hvl Hfr Hv].
  pose proof Hm as Hm'. unfold m in Hm'. rewrite !zlen_app, zlen_enc_entry in Hm'.
  pose proof (zlen_nonneg pre). pose proof (zlen_nonneg k). pose proof (zlen_nonneg v).
  pose proof (zlen_nonneg pad). pose proof (zlen_nonneg post).
  pose proof (LEN_BYTES_range (zlen k)). pose proof (LEN_BYTES_range (zlen v)).
  fold m in Hb, Hkl, Hk, Hvl, Hfr, Hv.
  unfold zipmapNext, zipmapRawKeyLength, zipmapRawValueLength. rewrite Hb. cbn [mbind option_bind].
  destruct (Z.eqb_spec b ZIPMAP_END); [done|]. rewrite Hkl. cbn [mbind option_bind]. rewrite Hk.
  cbn [mbind option_bind]. rewrite (u32_id (ZIPMAP_LEN_BYTES (zlen k) + zlen k)) by lia.
  rewrite Hvl. cbn [mbind option_bind].
  replace (zlen pre + (ZIPMAP_LEN_BYTES (zlen k) + zlen k) + 1 + ZIPMAP_LEN_BYTES (zlen v))
    with (zlen pre + (ZIPMAP_LEN_BYTES (zlen k) + zlen k) + ZIPMAP_LEN_BYTES (zlen v) + 1) by lia.
  rewrite Hv, Hfr. cbn [mbind option_bind].
  rewrite u32_id by lia. rewrite zlen_app, zlen_enc_entry. do 4 f_equal. lia.
Qed.

Lemma zipmapNext_end pre : zipmapNext (pre ++ [ZIPMAP_END]) (zlen pre) = Some None.
Proof. unfold zipmapNext. by rewrite rd_app. Qed.

(** The loop of the comment above zipmapNext. *)
Fixpoint iterate (fuel : nat) (m : list Z) (p : Z) : option alist :=
  match fuel with
  | O => None
  | S fuel =>
    r ← zipmapNext m p;
    match r with
    | None => Some []
    | Some (p, k, v) => rest ← iterate fuel m p; Some ((k, v) :: rest)
    end
  end.

Lemma iterate_ok es : forall fuel pre, zlen (pre ++ enc es ++ [ZIPMAP_END]) < 2 ^ 32 -> (length es < fuel)%nat ->
  iterate fuel (pre ++ enc es ++ [ZIPMAP_END]) (zlen pre) = Some (kv es).
Proof.
  induction es as [|[[k v] pad] es IH]; intros fuel pre Hm Hf; (destruct fuel as [|fuel]; [cbn in Hf; lia|]); cbn [iterate].
  - cbn [enc fmap list_fmap concat app]. by rewrite zipmapNext_end.
  - rewrite enc_cons, <- app_assoc in *. rewrite zipmapNext_entry by done. cbn [mbind option_bind].
    rewrite (app_assoc pre) in *. rewrite IH by (done || (cbn in Hf; lia)). done.
Qed.

Lemma len_loop_ok es : forall fuel pre n, zlen (pre ++ enc es ++ [ZIPMAP_END]) < 2 ^ 32 -> (length es < fuel)%nat ->
  0 <= n -> n + zlen es < 2 ^ 32 ->
  len_loop fuel (pre ++ enc es ++ [ZIPMAP_END]) (zlen pre) n = Some (n + zlen es).
Proof.
  induction es as [|[[k v] pad] es IH]; intros fuel pre n Hm Hf Hn Hn2; (destruct fuel as [|fuel]; [cbn in Hf; lia|]); cbn [len_loop].
  - cbn [enc fmap list_fmap concat app]. rewrite zipmapNext_end. cbn. f_equal. change (zlen (@nil entry)) with 0. lia.
  - rewrite enc_cons, <- app_assoc in *. rewrite zipmapNext_entry by done. cbn [mbind option_bind].
    rewrite zlen_cons in *. pose proof (zlen_nonneg es). rewrite u32_id by lia.
    rewrite (app_assoc pre) in *. rewrite IH by (done || lia || (cbn in Hf; lia)). f_equal. lia.
Qed.

Lemma rep_length m es : rep m es -> (length es < length m)%nat.
Proof. intros [(h & -> & _) _ _ _]. pose proof (length_enc es). cbn. rewrite length_app. cbn. lia. Qed.

Lemma zipmapLen_ok m es : rep m es -> exists m', zipmapLen m = Some (zlen (kv es), m') /\ rep m' es /\ zlen m' = zlen m.
Proof.
  intros Hrep. pose proof (rep_length _ _ Hrep) as Hlen. pose proof Hrep as [(h & -> & Hh & Hcnt) Hsz Hp Hnd].
  unfold zipmapLen. change (rd (h :: ?l) 0) with (Some h). cbn [mbind option_bind]. rewrite zlen_kv.
  unfold ZIPMAP_BIGLEN. destruct (Z.ltb_spec h 254).
  - eexists. rewrite <- Hcnt by done. split; [done|]. by split.
  - pose proof (len_loop_ok es (S (length (h :: enc es ++ [ZIPMAP_END]))) [h] 0) as Hl. cbn [app] in Hl.
    change (zlen [h]) with zipmapRewind in Hl. pose proof (zlen_nonneg es).
    rewrite Hl by (done || lia || (unfold zlen in *; lia)). cbn [mbind option_bind]. rewrite Z.add_0_l.
    destruct (Z.ltb_spec (zlen es) 254).
    + rewrite store_head. cbn [mbind option_bind]. eexists. split; [done|]. rewrite zlen_cons in Hsz.
      split; [|by rewrite !zlen_cons].
      split; [|rewrite zlen_cons; lia|done|done]. eexists. split; [done|]. lia.
    + cbn [mbind option_bind]. eexists. done.
Qed.

Lemma zipmapGet_ok m es key : rep m es -> zipmapGet m key = Some (aget key (kv es)).
Proof.
  intros Hrep. unfold zipmapGet. rewrite (lookup_rep m es (Some key) false Hrep). cbn [mbind option_bind].
  destruct (find_off key 1 es) as [p|] eqn:Hfo; cbn [mbind option_bind].
  - apply find_off_Some in Hfo as (es1 & v & pad & es2 & -> & -> & Hnin).
    destruct Hrep as [(h & Hm & Hh & Hcnt) Hsz Hpads Hnd].
    assert (Hm' : m = (h :: enc es1) ++ enc_entry (key, v, pad) ++ enc es2 ++ [ZIPMAP_END]).
    { rewrite Hm. rewrite enc_app, enc_cons. cbn [app]. by rewrite <- !app_assoc. }
    rewrite Hm' in Hsz. pose proof (enc_entry_reads _ _ _ _ _ Hsz) as [_ Hkl Hk Hvl Hfr Hv].
    rewrite <- Hm' in *. replace (1 + zlen (enc es1)) with (zlen (h :: enc es1)) by (rewrite zlen_cons; lia).
    unfold zipmapRawKeyLength. rewrite Hkl. cbn [mbind option_bind].
    pose proof (f_equal zlen Hm') as Hz. rewrite !zlen_app, zlen_enc_entry in Hz.
    pose proof (zlen_nonneg (h :: enc es1)). pose proof (zlen_nonneg (enc es2)). pose proof (zlen_nonneg key).
    pose proof (zlen_nonneg v). pose proof (zlen_nonneg pad).
    pose proof (LEN_BYTES_range (zlen key)). pose proof (LEN_BYTES_range (zlen v)).
    pose proof (zlen_nonneg [ZIPMAP_END]).
    rewrite u32_id by lia. rewrite Hvl. cbn [mbind option_bind]. rewrite Hv. cbn [mbind option_bind].
    rewrite kv_app. cbn. by rewrite aget_middle.
  - by rewrite aget_new by (by eapply find_off_None).
Qed.

Lemma zipmapExists_ok m es key : rep m es -> zipmapExists m key = Some (bool_decide (key ∈ (kv es).*1)).
Proof.
  intros Hrep. unfold zipmapExists. rewrite (lookup_rep m es (Some key) false Hrep). cbn [mbind option_bind].
  destruct (find_off key 1 es) as [p|] eqn:Hfo; cbn [mbind option_bind].
  - apply find_off_Some in Hfo as (es1 & v & pad & es2 & -> & -> & Hnin). f_equal.
    rewrite !bool_decide_true; [done|apply kv_elem_middle|by eexists].
  - apply find_off_None in Hfo. f_equal. rewrite !bool_decide_false; [done|done|by intros [? ?]].
Qed.

(** ** Refinement *)

Inductive op := OSet (k v : list Z) | ODel (k : list Z) | OGet (k : list Z) | OExists (k : list Z) | OLen.

Inductive response := RBool (b : bool) | RVal (v : option (list Z)) | RLen (n : Z).

Definition exec (junk : nat -> Z) (m : list Z) (o : op) : option (list Z * response) :=
  match o with
  | OSet k v => '(m, b) ← zipmapSet junk m k v; Some (m, RBool b)
  | ODel k => '(m, b) ← zipmapDel junk m k; Some (m, RBool b)
  | OGet k => v ← zipmapGet m k; Some (m, RVal v)
  | OExists k => b ← zipmapExists m k; Some (m, RBool b)
  | OLen => '(n, m) ← zipmapLen m; Some (m, RLen n)
  end.

Definition spec (l : alist) (o : op) : alist * response :=
  match o with
  | OSet k v => (aset k v l, RBool (bool_decide (k ∈ l.*1)))
  | ODel k => (adel k l, RBool (bool_decide (k ∈ l.*1)))
  | OGet k => (l, RVal (aget k l))
  | OExists k => (l, RBool (bool_decide (k ∈ l.*1)))
  | OLen => (l, RLen (zlen l))
  end.

(** Upper bound on the bytes an operation adds. *)
Definition cost (o : op) : Z := match o with OSet k v => zlen k + zlen v + 11 | _ => 0 end.

Lemma exec_ok junk m es o : rep m es -> zlen m + cost o < 2 ^ 32 ->
  exists m' es', exec junk m o = Some (m', (spec (kv es) o).2) /\ rep m' es' /\ kv es' = (spec (kv es) o).1 /\
    zlen m' <= zlen m + cost o.
Proof.
  intros Hrep Hc. destruct o as [k v|k|k|k|]; cbn [exec spec cost] in *.
  - destruct (zipmapSet_ok junk m es k v Hrep) as (m' & es' & -> & ? & ? & ?); [lia|]. exists m', es'. split_and!; try done. lia.
  - destruct (zipmapDel_ok junk m es k Hrep) as (m' & es' & -> & ? & ? & ?). exists m', es'. split_and!; try done. lia.
  - rewrite (zipmapGet_ok m es k Hrep). exists m, es. split_and!; try done. lia.
  - rewrite (zipmapExists_ok m es k Hrep). exists m, es. split_and!; try done. lia.
  - destruct (zipmapLen_ok m es Hrep) as (m' & -> & ? & ?). exists m', es. split_and!; try done. lia.
Qed.

Fixpoint exec_all (junk : nat -> Z) (m : list Z) (os : list op) : option (list Z * list response) :=
  match os with
  | [] => Some (m, [])
  | o :: os => '(m, r) ← exec junk m o; '(m, rs) ← exec_all junk m os; Some (m, r :: rs)
  end.

Fixpoint spec_all (l : alist) (os : list op) : alist * list response :=
  match os with
  | [] => (l, [])
  | o :: os => let '(l, r) := spec l o in let '(l, rs) := spec_all l os in (l, r :: rs)
  end.

Fixpoint cost_all (os : list op) : Z := match os with [] => 0 | o :: os => cost o + cost_all os end.

Lemma cost_nonneg o : 0 <= cost o.
Proof. destruct o; cbn; try lia. pose proof (zlen_nonneg k). pose proof (zlen_nonneg v). lia. Qed.

Lemma cost_all_nonneg os : 0 <= cost_all os.
Proof. induction os as [|o os IH]; cbn; [lia|]. pose proof (cost_nonneg o). lia. Qed.

Lemma exec_all_ok junk os : forall m es, rep m es -> zlen m + cost_all os < 2 ^ 32 ->
  exists m' es', exec_all junk m os = Some (m', (spec_all (kv es) os).2) /\ rep m' es' /\ kv es' = (spec_all (kv es) os).1.
Proof.
  induction os as [|o os IH]; intros m es Hrep Hc; cbn [exec_all spec_all cost_all] in *; [by exists m, es|].
  pose proof (cost_all_nonneg os).
  destruct (exec_ok junk m es o Hrep) as (m1 & es1 & -> & Hrep1 & Hkv & Hl); [lia|].
  destruct (spec (kv es) o) as [l r] eqn:E. cbn [fst snd mbind option_bind] in *.
  destruct (IH m1 es1 Hrep1) as (m2 & es2 & -> & Hrep2 & Hkv2); [lia|]. rewrite Hkv in *.
  destruct (spec_all l os) as [l2 rs]. by exists m2, es2.
Qed.

(** C14: Any sequence of zipmapSet, zipmapDel, zipmapGet, zipmapExists and zipmapLen on a new zipmap,
    as long as the block stays below 4 GB, accesses only bytes of the block, terminates and
    answers as the same operations on an association list of keys and values (a new key is
    appended, an existing one keeps its place); at the end zipmapNext enumerates that list,
    every key once, and zipmapBlobLen is the size of the block. *)
Theorem zipmap_refines_alist junk os :
  2 + cost_all os < 2 ^ 32 ->
  exists m, exec_all junk zipmapNew os = Some (m, (spec_all [] os).2) /\
    iterate (S (length m)) m zipmapRewind = Some (spec_all [] os).1 /\
    NoDup (spec_all [] os).1.*1 /\
    zipmapBlobLen m = Some (zlen m).
Proof.
  intros Hc.
  assert (H0 : rep zipmapNew []).
  { split; [by exists 0|done|constructor|constructor]. }
  destruct (exec_all_ok junk os zipmapNew [] H0 Hc) as (m & es & He & Hrep & Hkv).
  exists m. split; [exact He|]. change (kv []) with (@nil (list Z * list Z)) in Hkv. rewrite <- Hkv.
  pose proof (rep_length _ _ Hrep) as Hl. split_and!.
  - destruct Hrep as [(h & -> & _) Hsz _ _]. apply (iterate_ok es _ [h]); [done|lia].
  - apply Hrep.
  - unfold zipmapBlobLen. by rewrite (lookup_rep m es None true Hrep).
Qed.

Definition demo : list op :=
  [OSet (str "name") (str "foo"); OSet (str "surname") (str "bar"); OSet (str "name") (str "x");
   ODel (str "surname"); OSet (str "age") (str "1234567890"); OLen; OGet (str "name")].

Lemma zipmap_refines_alist_witness :
  exists m, exec_all nojunk zipmapNew demo = Some (m, (spec_all [] demo).2) /\
    iterate (S (length m)) m zipmapRewind = Some [(str "name", str "x"); (str "age", str "1234567890")].
Proof.
  destruct (zipmap_refines_alist nojunk demo) as (m & H1 & H2 & _).
  - vm_compute. reflexivity.
  - exists m. split; [exact H1|exact H2].
Defined.

End Zipmap.
