(* ===== verification/Ziplist.v ===== *)
(** * ziplist.c: compact lists

    Model of [src/debug/redis/src/ziplist.c] on the bytes of the block.  Every entry is preceded
    by the length of the previous one, in one byte or in five, so that an insertion or a deletion
    can change the size of the following entries one after the other
    ([__ziplistCascadeUpdate]).  Lengths and offsets are C unsigned ints with their wrap-around;
    reads and writes outside of the block are [None], as is a loop that exceeds its fuel.
    [endianconv.h] leaves numbers little endian on the machines the program runs on.

    The contents of a ziplist are a list of byte strings: an integer is stored for the strings
    that [zipTryEncoding] accepts, and these are the decimal representations
    ([Util.string2ll_canonical]).  Any sequence of operations acts on this list as the list
    operations do ([ziplist_refines_list]), with one exception that the code does not handle: a
    small entry inserted in front of an entry whose previous-length field is wider than it has to
    be ([hazard], [insert_hazard_corrupts]). *)

From Stdlib Require Import ZArith Lia.
From stdpp Require Import prelude list strings numbers.
From S2P Require Import Prelude.
From S2P Require Import Util.

Local Open Scope Z_scope.

Module Ziplist.

Definition ZIP_END : Z := 255.
Definition ZIP_BIGLEN : Z := 254.
Definition ZIP_STR_MASK : Z := 0xc0.
Definition ZIP_STR_06B : Z := Z.shiftl 0 6.
Definition ZIP_STR_14B : Z := Z.shiftl 1 6.
Definition ZIP_STR_32B : Z := Z.shiftl 2 6.
Definition ZIP_INT_16B : Z := 0xc0.
Definition ZIP_INT_32B : Z := Z.lor 0xc0 (Z.shiftl 1 4).
Definition ZIP_INT_64B : Z := Z.lor 0xc0 (Z.shiftl 2 4).
Definition ZIP_INT_24B : Z := Z.lor 0xc0 (Z.shiftl 3 4).
Definition ZIP_INT_8B : Z := 0xfe.
Definition ZIP_INT_IMM_MASK : Z := 0x0f.
Definition ZIP_INT_IMM_MIN : Z := 0xf1.
Definition ZIP_INT_IMM_MAX : Z := 0xfd.
Definition INT24_MAX : Z := 0x7fffff.
Definition INT24_MIN : Z := - INT24_MAX - 1.
Definition UINT16_MAX : Z := 65535.
Definition ZIPLIST_HEAD : Z := 0.
Definition ZIPLIST_TAIL : Z := 1.

Definition u32 (z : Z) : Z := uwrap 32 z.

Definition ZIP_IS_STR (enc : Z) : bool := Z.land enc ZIP_STR_MASK <? ZIP_STR_MASK.

(** ** The header of the block *)

Definition ZIPLIST_BYTES (m : list Z) : option Z := bs ← load m 0 4; Some (le_decode bs).
Definition ZIPLIST_TAIL_OFFSET (m : list Z) : option Z := bs ← load m 4 4; Some (le_decode bs).
Definition ZIPLIST_LENGTH (m : list Z) : option Z := bs ← load m 8 2; Some (le_decode bs).
Definition ZIPLIST_HEADER_SIZE : Z := 10.
Definition ZIPLIST_ENTRY_HEAD : Z := ZIPLIST_HEADER_SIZE.
Definition ZIPLIST_ENTRY_TAIL (m : list Z) : option Z := ZIPLIST_TAIL_OFFSET m.
Definition ZIPLIST_ENTRY_END (m : list Z) : option Z := n ← ZIPLIST_BYTES m; Some (n - 1).

(** Assignments to the three fields. *)
Definition set_bytes (m : list Z) (v : Z) : option (list Z) := store m 0 (le_encode 4 v).
Definition set_tail (m : list Z) (v : Z) : option (list Z) := store m 4 (le_encode 4 v).
Definition set_length (m : list Z) (v : Z) : option (list Z) := store m 8 (le_encode 2 v).

Definition ZIPLIST_INCR_LENGTH (m : list Z) (incr : Z) : option (list Z) :=
  n ← ZIPLIST_LENGTH m; if n <? UINT16_MAX then set_length m (n + incr) else Some m.

(** ** Entries *)

Record zlentry := mkEntry {
  prevrawlensize : Z;
  prevrawlen : Z;
  lensize : Z;
  elen : Z;
  headersize : Z;
  encoding : Z;
  ep : Z;
}.

Definition ZIP_ENTRY_ENCODING (m : list Z) (p : Z) : option Z :=
  e ← rd m p; Some (if e <? ZIP_STR_MASK then Z.land e ZIP_STR_MASK else e).

Definition zipIntSize (enc : Z) : Z :=
  if enc =? ZIP_INT_8B then 1
  else if enc =? ZIP_INT_16B then 2
  else if enc =? ZIP_INT_24B then 3
  else if enc =? ZIP_INT_32B then 4
  else if enc =? ZIP_INT_64B then 8
  else 0.

(** The bytes that zipEncodeLength writes; with a NULL pointer only their number is returned. *)
Definition zipEncodeLength_bytes (enc rawlen : Z) : list Z :=
  if ZIP_IS_STR enc then
    if rawlen <=? 0x3f then [Z.lor ZIP_STR_06B rawlen]
    else if rawlen <=? 0x3fff then
      [Z.lor ZIP_STR_14B (Z.land (Z.shiftr rawlen 8) 0x3f); Z.land rawlen 0xff]
    else
      [ZIP_STR_32B; Z.land (Z.shiftr rawlen 24) 0xff; Z.land (Z.shiftr rawlen 16) 0xff;
       Z.land (Z.shiftr rawlen 8) 0xff; Z.land rawlen 0xff]
  else [enc].

Definition zipEncodeLength (m : list Z) (p enc rawlen : Z) : option (list Z * Z) :=
  let buf := zipEncodeLength_bytes enc rawlen in
  m ← store m p buf; Some (m, zlen buf).

(** The encoding, the size of the length and the length. *)
Definition ZIP_DECODE_LENGTH (m : list Z) (p : Z) : option (Z * Z * Z) :=
  enc ← ZIP_ENTRY_ENCODING m p;
  if enc <? ZIP_STR_MASK then
    b0 ← rd m p;
    if enc =? ZIP_STR_06B then Some (enc, 1, Z.land b0 0x3f)
    else if enc =? ZIP_STR_14B then
      b1 ← rd m (p + 1);
      Some (enc, 2, Z.lor (Z.shiftl (Z.land b0 0x3f) 8) b1)
    else if enc =? ZIP_STR_32B then
      b1 ← rd m (p + 1); b2 ← rd m (p + 2); b3 ← rd m (p + 3); b4 ← rd m (p + 4);
      Some (enc, 5, u32 (Z.lor (Z.lor (Z.lor (Z.shiftl b1 24) (Z.shiftl b2 16)) (Z.shiftl b3 8)) b4))
    else None
  else Some (enc, 1, zipIntSize enc).

(** zipPrevEncodeLength with a NULL pointer. *)
Definition prev_size (len : Z) : Z := if len <? ZIP_BIGLEN then 1 else 5.

Definition zipPrevEncodeLengthForceLarge (m : list Z) (p len : Z) : option (list Z) :=
  m ← store m p [ZIP_BIGLEN]; store m (p + 1) (le_encode 4 len).

Definition zipPrevEncodeLength (m : list Z) (p len : Z) : option (list Z * Z) :=
  if len <? ZIP_BIGLEN then m ← store m p [len]; Some (m, 1)
  else
    m ← store m p [ZIP_BIGLEN];
    m ← store m (p + 1) (le_encode 4 len);
    Some (m, 5).

Definition ZIP_DECODE_PREVLENSIZE (m : list Z) (p : Z) : option Z :=
  b ← rd m p; Some (if b <? ZIP_BIGLEN then 1 else 5).

(** The size of the field and its value. *)
Definition ZIP_DECODE_PREVLEN (m : list Z) (p : Z) : option (Z * Z) :=
  size ← ZIP_DECODE_PREVLENSIZE m p;
  if size =? 1 then b ← rd m p; Some (size, b)
  else bs ← load m (p + 1) 4; Some (size, le_decode bs).

Definition zipPrevLenByteDiff (m : list Z) (p len : Z) : option Z :=
  size ← ZIP_DECODE_PREVLENSIZE m p; Some (prev_size len - size).

Definition zipRawEntryLength (m : list Z) (p : Z) : option Z :=
  size ← ZIP_DECODE_PREVLENSIZE m p;
  '(_, lensize, len) ← ZIP_DECODE_LENGTH m (p + size);
  Some (u32 (size + lensize + len)).

(** The value and its encoding. *)
Definition zipTryEncoding (entry : list Z) : option (Z * Z) :=
  if (32 <=? zlen entry) || (zlen entry =? 0) then None
  else
    value ← Util.string2ll entry;
    Some (value,
      if (0 <=? value) && (value <=? 12) then ZIP_INT_IMM_MIN + value
      else if (-128 <=? value) && (value <=? 127) then ZIP_INT_8B
      else if (INT16_MIN <=? value) && (value <=? INT16_MAX) then ZIP_INT_16B
      else if (INT24_MIN <=? value) && (value <=? INT24_MAX) then ZIP_INT_24B
      else if (INT32_MIN <=? value) && (value <=? INT32_MAX) then ZIP_INT_32B
      else ZIP_INT_64B).

(** The bytes that zipSaveInteger writes; [None] is the failing assert. *)
Definition zipSaveInteger_bytes (value enc : Z) : option (list Z) :=
  if enc =? ZIP_INT_8B then Some (le_encode 1 value)
  else if enc =? ZIP_INT_16B then Some (le_encode 2 value)
  else if enc =? ZIP_INT_24B then Some (drop 1 (le_encode 4 (Z.shiftl value 8)))
  else if enc =? ZIP_INT_32B then Some (le_encode 4 value)
  else if enc =? ZIP_INT_64B then Some (le_encode 8 value)
  else if (ZIP_INT_IMM_MIN <=? enc) && (enc <=? ZIP_INT_IMM_MAX) then Some []
  else None.

Definition zipSaveInteger (m : list Z) (p value enc : Z) : option (list Z) :=
  bs ← zipSaveInteger_bytes value enc; store m p bs.

Definition zipLoadInteger (m : list Z) (p enc : Z) : option Z :=
  if enc =? ZIP_INT_8B then bs ← load m p 1; Some (swrap 8 (le_decode bs))
  else if enc =? ZIP_INT_16B then bs ← load m p 2; Some (swrap 16 (le_decode bs))
  else if enc =? ZIP_INT_32B then bs ← load m p 4; Some (swrap 32 (le_decode bs))
  else if enc =? ZIP_INT_24B then bs ← load m p 3; Some (Z.shiftr (swrap 32 (le_decode (0 :: bs))) 8)
  else if enc =? ZIP_INT_64B then bs ← load m p 8; Some (swrap 64 (le_decode bs))
  else if (ZIP_INT_IMM_MIN <=? enc) && (enc <=? ZIP_INT_IMM_MAX) then Some (Z.land enc ZIP_INT_IMM_MASK - 1)
  else None.

Definition zipEntry (m : list Z) (p : Z) : option zlentry :=
  '(size, len) ← ZIP_DECODE_PREVLEN m p;
  '(enc, ls, l) ← ZIP_DECODE_LENGTH m (p + size);
  Some (mkEntry size len ls l (u32 (size + ls)) enc p).

(** ** The block *)

Definition ziplistNew : list Z :=
  le_encode 4 (ZIPLIST_HEADER_SIZE + 1) ++ le_encode 4 ZIPLIST_HEADER_SIZE ++ le_encode 2 0 ++ [ZIP_END].

Section Alloc.
Context (junk : nat -> Z).

Definition ziplistResize (m : list Z) (len : Z) : option (list Z) :=
  m ← set_bytes (realloc junk m len) len;
  store m (len - 1) [ZIP_END].

Fixpoint cascade_loop (fuel : nat) (m : list Z) (p curlen : Z) : option (list Z) :=
  match fuel with
  | O => None
  | S fuel =>
    c ← rd m p;
    if c =? ZIP_END then Some m
    else
      cur ← zipEntry m p;
      let rawlen := u32 (headersize cur + elen cur) in
      let rawlensize := prev_size rawlen in
      c ← rd m (p + rawlen);
      if c =? ZIP_END then Some m
      else
        next ← zipEntry m (p + rawlen);
        if prevrawlen next =? rawlen then Some m
        else if prevrawlensize next <? rawlensize then
          let extra := rawlensize - prevrawlensize next in
          m ← ziplistResize m (u32 (curlen + extra));
          let np := p + rawlen in
          tail ← ZIPLIST_TAIL_OFFSET m;
          m ← (if tail =? np then Some m else set_tail m (u32 (tail + extra)));
          m ← memmove m (np + rawlensize) (np + prevrawlensize next)
                (curlen - np - prevrawlensize next - 1);
          '(m, _) ← zipPrevEncodeLength m np rawlen;
          cascade_loop fuel m (p + rawlen) (curlen + extra)
        else if rawlensize <? prevrawlensize next then
          zipPrevEncodeLengthForceLarge m (p + rawlen) rawlen
        else
          '(m, _) ← zipPrevEncodeLength m (p + rawlen) rawlen; Some m
  end.

Definition __ziplistCascadeUpdate (m : list Z) (p : Z) : option (list Z) :=
  curlen ← ZIPLIST_BYTES m; cascade_loop (S (length m)) m p curlen.

(** The end of the entries to delete, and their number. *)
Fixpoint delete_skip (fuel : nat) (m : list Z) (p num deleted : Z) : option (Z * Z) :=
  match fuel with
  | O => None
  | S fuel =>
    c ← rd m p;
    if (c =? ZIP_END) || negb (deleted <? num) then Some (p, deleted)
    else
      l ← zipRawEntryLength m p;
      delete_skip fuel m (p + l) num (deleted + 1)
  end.

(** The entry behind the deleted ones is moved to the front: the block and [nextdiff]. *)
Definition delete_join (m : list Z) (first : zlentry) (p totlen : Z) : option (list Z * Z) :=
  c ← rd m p;
  if negb (c =? ZIP_END) then
    nextdiff ← zipPrevLenByteDiff m p (prevrawlen first);
    let p := p - nextdiff in
    '(m, _) ← zipPrevEncodeLength m p (prevrawlen first);
    t ← ZIPLIST_TAIL_OFFSET m;
    m ← set_tail m (u32 (t - totlen));
    tail ← zipEntry m p;
    c ← rd m (p + u32 (headersize tail + elen tail));
    m ← (if negb (c =? ZIP_END) then
           t ← ZIPLIST_TAIL_OFFSET m; set_tail m (u32 (t + nextdiff))
         else Some m);
    n ← ZIPLIST_BYTES m;
    m ← memmove m (ep first) p (n - p - 1);
    Some (m, nextdiff)
  else
    m ← set_tail m (u32 (ep first - prevrawlen first));
    Some (m, 0).

Definition __ziplistDelete (m : list Z) (p num : Z) : option (list Z) :=
  first ← zipEntry m p;
  '(p, deleted) ← delete_skip (S (length m)) m p num 0;
  let totlen := u32 (p - ep first) in
  if 0 <? totlen then
    '(m, nextdiff) ← delete_join m first p totlen;
    n ← ZIPLIST_BYTES m;
    m ← ziplistResize m (u32 (n - totlen + nextdiff));
    m ← ZIPLIST_INCR_LENGTH m (- deleted);
    if negb (nextdiff =? 0) then __ziplistCascadeUpdate m (ep first) else Some m
  else Some m.

(** The length of the entry before [p]. *)
Definition insert_prevlen (m : list Z) (p : Z) : option Z :=
  c ← rd m p;
  if negb (c =? ZIP_END) then entry ← zipEntry m p; Some (prevrawlen entry)
  else
    ptail ← ZIPLIST_ENTRY_TAIL m;
    c ← rd m ptail;
    if negb (c =? ZIP_END) then zipRawEntryLength m ptail else Some 0.

(** The size of the new entry, its value and its encoding. *)
Definition insert_reqlen (s : list Z) (prevlen : Z) : Z * Z * Z :=
  let '(reqlen, value, enc) :=
    match zipTryEncoding s with
    | Some (value, enc) => (zipIntSize enc, value, enc)
    | None => (zlen s, 123456789, 0)
    end in
  (reqlen + prev_size prevlen + zlen (zipEncodeLength_bytes enc (zlen s)), value, enc).

(** The room for the entry is made and the tail offset updated: the block. *)
Definition insert_room (m : list Z) (p curlen reqlen nextdiff : Z) : option (list Z) :=
  m ← ziplistResize m (u32 (curlen + reqlen + nextdiff));
  c ← rd m p;
  if negb (c =? ZIP_END) then
    m ← memmove m (p + reqlen) (p - nextdiff) (curlen - p - 1 + nextdiff);
    '(m, _) ← zipPrevEncodeLength m (p + reqlen) reqlen;
    t ← ZIPLIST_TAIL_OFFSET m;
    m ← set_tail m (u32 (t + reqlen));
    tail ← zipEntry m (p + reqlen);
    c ← rd m (p + (reqlen + headersize tail + elen tail));
    if negb (c =? ZIP_END) then
      t ← ZIPLIST_TAIL_OFFSET m; set_tail m (u32 (t + nextdiff))
    else Some m
  else set_tail m (u32 p).

Definition insert_write (m : list Z) (p prevlen value enc : Z) (s : list Z) : option (list Z) :=
  '(m, n) ← zipPrevEncodeLength m p prevlen;
  let p := p + n in
  '(m, n) ← zipEncodeLength m p enc (zlen s);
  let p := p + n in
  if ZIP_IS_STR enc then store m p s else zipSaveInteger m p value enc.

Definition __ziplistInsert (m : list Z) (p : Z) (s : list Z) : option (list Z) :=
  curlen ← ZIPLIST_BYTES m;
  prevlen ← insert_prevlen m p;
  let '(reqlen, value, enc) := insert_reqlen s prevlen in
  c ← rd m p;
  nextdiff ← (if negb (c =? ZIP_END) then zipPrevLenByteDiff m p reqlen else Some 0);
  m ← insert_room m p curlen reqlen nextdiff;
  m ← (if negb (nextdiff =? 0) then __ziplistCascadeUpdate m (p + reqlen) else Some m);
  m ← insert_write m p prevlen value enc s;
  ZIPLIST_INCR_LENGTH m 1.

Definition ziplistPush (m : list Z) (s : list Z) (where_ : Z) : option (list Z) :=
  p ← (if where_ =? ZIPLIST_HEAD then Some ZIPLIST_ENTRY_HEAD else ZIPLIST_ENTRY_END m);
  __ziplistInsert m p s.

Definition ziplistInsert (m : list Z) (p : Z) (s : list Z) : option (list Z) := __ziplistInsert m p s.

(** The block and [*p]. *)
Definition ziplistDelete (m : list Z) (p : Z) : option (list Z * Z) :=
  m ← __ziplistDelete m p 1; Some (m, p).
End Alloc.

(** ** Navigation *)

Fixpoint index_back (fuel : nat) (m : list Z) (p : Z) (entry : zlentry) (index : Z) : option (Z * Z) :=
  match fuel with
  | O => None
  | S fuel =>
    if 0 <? prevrawlen entry then
      if index =? 0 then Some (p, index - 1)
      else
        let p := p - prevrawlen entry in
        entry ← zipEntry m p;
        index_back fuel m p entry (index - 1)
    else Some (p, index)
  end.

Fixpoint index_forth (fuel : nat) (m : list Z) (p index : Z) : option (Z * Z) :=
  match fuel with
  | O => None
  | S fuel =>
    c ← rd m p;
    if negb (c =? ZIP_END) then
      if index =? 0 then Some (p, index - 1)
      else l ← zipRawEntryLength m p; index_forth fuel m (p + l) (index - 1)
    else Some (p, index)
  end.

(** [Some None] is NULL; [-index] overflows for the least int. *)
Definition ziplistIndex (m : list Z) (index : Z) : option (option Z) :=
  '(p, index) ← (if index <? 0 then
      if index =? INT32_MIN then None
      else
        let index := - index - 1 in
        p ← ZIPLIST_ENTRY_TAIL m;
        c ← rd m p;
        if negb (c =? ZIP_END) then
          entry ← zipEntry m p; index_back (S (length m)) m p entry index
        else Some (p, index)
    else index_forth (S (length m)) m ZIPLIST_ENTRY_HEAD index);
  c ← rd m p;
  Some (if (c =? ZIP_END) || (0 <? index) then None else Some p).

Definition ziplistNext (m : list Z) (p : Z) : option (option Z) :=
  c ← rd m p;
  if c =? ZIP_END then Some None
  else
    l ← zipRawEntryLength m p;
    c ← rd m (p + l);
    Some (if c =? ZIP_END then None else Some (p + l)).

Definition ziplistPrev (m : list Z) (p : Z) : option (option Z) :=
  c ← rd m p;
  if c =? ZIP_END then
    p ← ZIPLIST_ENTRY_TAIL m;
    c ← rd m p;
    Some (if c =? ZIP_END then None else Some p)
  else if p =? ZIPLIST_ENTRY_HEAD then Some None
  else
    entry ← zipEntry m p;
    if 0 <? prevrawlen entry then Some (Some (p - prevrawlen entry)) else None.

(** What ziplistGet stores. *)
Inductive zval := ZStr (s : list Z) | ZInt (v : Z).

Definition ziplistGet (m : list Z) (p : option Z) : option (option zval) :=
  match p with
  | None => Some None
  | Some p =>
    c ← rd m p;
    if c =? ZIP_END then Some None
    else
      entry ← zipEntry m p;
      if ZIP_IS_STR (encoding entry) then
        s ← load m (p + headersize entry) (elen entry); Some (Some (ZStr s))
      else
        v ← zipLoadInteger m (p + headersize entry) (encoding entry); Some (Some (ZInt v))
  end.

Definition ziplistDeleteRange (junk : nat -> Z) (m : list Z) (index num : Z) : option (list Z) :=
  p ← ziplistIndex m (swrap 32 index);
  match p with None => Some m | Some p => __ziplistDelete junk m p num end.

Definition ziplistCompare (m : list Z) (p : Z) (s : list Z) : option bool :=
  c ← rd m p;
  if c =? ZIP_END then Some false
  else
    entry ← zipEntry m p;
    if ZIP_IS_STR (encoding entry) then
      if elen entry =? zlen s then
        bs ← load m (p + headersize entry) (zlen s); Some (bool_decide (bs = s))
      else Some false
    else
      match zipTryEncoding s with
      | Some (sval, _) =>
        zval ← zipLoadInteger m (p + headersize entry) (encoding entry); Some (zval =? sval)
      | None => Some false
      end.

(** [venc] is vencoding (0: not tried yet, 255: not an integer), [vll] the integer. *)
Fixpoint find_loop (fuel : nat) (m : list Z) (p : Z) (vstr : list Z) (skip skipcnt venc vll : Z)
    : option (option Z) :=
  match fuel with
  | O => None
  | S fuel =>
    c ← rd m p;
    if c =? ZIP_END then Some None
    else
      size ← ZIP_DECODE_PREVLENSIZE m p;
      '(enc, ls, len) ← ZIP_DECODE_LENGTH m (p + size);
      let q := p + size + ls in
      if skipcnt =? 0 then
        if ZIP_IS_STR enc then
          hit ← (if len =? zlen vstr then bs ← load m q (zlen vstr); Some (bool_decide (bs = vstr))
                 else Some false);
          if hit : bool then Some (Some p) else find_loop fuel m (q + len) vstr skip skip venc vll
        else
          let '(venc, vll) :=
            if venc =? 0 then match zipTryEncoding vstr with Some (v, e) => (e, v) | None => (255, vll) end
            else (venc, vll) in
          hit ← (if negb (venc =? 255) then ll ← zipLoadInteger m q enc; Some (ll =? vll) else Some false);
          if hit : bool then Some (Some p) else find_loop fuel m (q + len) vstr skip skip venc vll
      else find_loop fuel m (q + len) vstr skip (skipcnt - 1) venc vll
  end.

Definition ziplistFind (m : list Z) (p : Z) (vstr : list Z) (skip : Z) : option (option Z) :=
  find_loop (S (length m)) m p vstr skip 0 0 0.

Fixpoint len_loop (fuel : nat) (m : list Z) (p len : Z) : option Z :=
  match fuel with
  | O => None
  | S fuel =>
    c ← rd m p;
    if c =? ZIP_END then Some len
    else l ← zipRawEntryLength m p; len_loop fuel m (p + l) (u32 (len + 1))
  end.

(** The length, and the block, whose header may be updated. *)
Definition ziplistLen (m : list Z) : option (Z * list Z) :=
  n ← ZIPLIST_LENGTH m;
  if n <? UINT16_MAX then Some (n, m)
  else
    len ← len_loop (S (length m)) m ZIPLIST_HEADER_SIZE 0;
    m ← (if len <? UINT16_MAX then set_length m len else Some m);
    Some (len, m).

Definition ziplistBlobLen (m : list Z) : option Z := ZIPLIST_BYTES m.

Definition nojunk (_ : nat) : Z := 0.

Example push_ex :
  (m ← ziplistPush nojunk ziplistNew (str "ab") 1; m ← ziplistPush nojunk m (str "1024") 1;
   m ← ziplistPush nojunk m (str "5") 0; Some m) =
  Some ([21; 0; 0; 0] ++ [16; 0; 0; 0] ++ [3; 0] ++ [0; 246] ++ [2; 2; 97; 98] ++ [4; 192; 0; 4] ++ [255]).
Proof. reflexivity. Qed.

(** ** Bits *)

Lemma land_shiftl a b k : 0 <= k -> 0 <= b < 2 ^ k -> Z.land (Z.shiftl a k) b = 0.
Proof.
  intros Hk Hb. apply Z.bits_inj'. intros n Hn. rewrite Z.land_spec, Z.shiftl_spec, Z.bits_0 by done.
  destruct (Z.ltb_spec n k).
  - by rewrite Z.testbit_neg_r by lia.
  - replace b with (b mod 2 ^ k) by (by apply Z.mod_small). rewrite Z.mod_pow2_bits_high by lia. apply andb_false_r.
Qed.

Lemma lor_shiftl a b k : 0 <= k -> 0 <= b < 2 ^ k -> Z.lor (Z.shiftl a k) b = a * 2 ^ k + b.
Proof.
  intros Hk Hb. rewrite <- Z.add_nocarry_lor by (by apply land_shiftl). by rewrite Z.shiftl_mul_pow2.
Qed.

Lemma land_mask z k : 0 <= k -> Z.land z (Z.ones k) = z mod 2 ^ k.
Proof. intros. by apply Z.land_ones. Qed.

(** The first byte of a string header: its two high bits tell the encoding. *)
Lemma str_class c x :
  (c = 0 \/ c = 1 \/ c = 2) -> 0 <= x < 64 ->
  let b := Z.lor (Z.shiftl c 6) x in
  b < ZIP_STR_MASK /\ Z.land b ZIP_STR_MASK = Z.shiftl c 6 /\ Z.land b 0x3f = x /\ 0 <= b.
Proof.
  intros Hc Hx b. assert (b = c * 64 + x) as Hb by (by apply (lor_shiftl c x 6)).
  assert (Z.land b 0x3f = x) as H1.
  { change 0x3f with (Z.ones 6). rewrite land_mask, Hb by lia. change (2 ^ 6) with 64.
    rewrite Z.add_comm, Z.mod_add by lia. by apply Z.mod_small. }
  assert (Z.land b ZIP_STR_MASK = Z.shiftl c 6) as H2.
  { change ZIP_STR_MASK with (Z.shiftl 3 6). unfold b.
    rewrite Z.land_lor_distr_l, (Z.land_comm x), (land_shiftl 3 x 6), Z.lor_0_r by lia.
    rewrite <- Z.shiftl_land. by destruct Hc as [-> | [-> | ->]]. }
  unfold ZIP_STR_MASK. split_and!; [lia|done|done|lia].
Qed.

(** ** The encoding of an entry *)

Definition benc (s : list Z) : Z :=
  match zipTryEncoding s with
  | Some (_, e) => e
  | None => if zlen s <=? 0x3f then ZIP_STR_06B else if zlen s <=? 0x3fff then ZIP_STR_14B else ZIP_STR_32B
  end.
Definition bhdr (s : list Z) : list Z :=
  match zipTryEncoding s with Some (_, e) => [e] | None => zipEncodeLength_bytes 0 (zlen s) end.
Definition bpay (s : list Z) : list Z :=
  match zipTryEncoding s with Some (v, e) => default [] (zipSaveInteger_bytes v e) | None => s end.
Definition body (s : list Z) : list Z := bhdr s ++ bpay s.

Definition is_int (s : list Z) : bool := bool_decide (is_Some (zipTryEncoding s)).

Ltac try_enc :=
  repeat match goal with
  | H : context [if ?b then _ else _] |- _ => destruct b eqn:?
  end.

(** An integer encoding, its size and what it holds. *)
Inductive int_enc (v : Z) : Z -> list Z -> Prop :=
  | ie_imm : 0 <= v <= 12 -> int_enc v (ZIP_INT_IMM_MIN + v) []
  | ie_8 : -128 <= v <= 127 -> int_enc v ZIP_INT_8B (le_encode 1 v)
  | ie_16 : INT16_MIN <= v <= INT16_MAX -> int_enc v ZIP_INT_16B (le_encode 2 v)
  | ie_24 : INT24_MIN <= v <= INT24_MAX -> int_enc v ZIP_INT_24B (le_encode 3 v)
  | ie_32 : INT32_MIN <= v <= INT32_MAX -> int_enc v ZIP_INT_32B (le_encode 4 v)
  | ie_64 : in_int 64 v -> int_enc v ZIP_INT_64B (le_encode 8 v).

Lemma zipTryEncoding_spec s v e :
  zipTryEncoding s = Some (v, e) ->
  in_int 64 v /\ s = Util.ll2string_chars v /\ zlen s < 32 /\
  exists bs, zipSaveInteger_bytes v e = Some bs /\ int_enc v e bs.
Proof.
  unfold zipTryEncoding. destruct (_ || _) eqn:El; [done|]. apply orb_false_iff in El as [El _].
  destruct (Util.string2ll s) as [value|] eqn:Es; [|done]. cbn [mbind option_bind].
  apply Util.string2ll_canonical in Es as [Hv Es]. intros [= <- <-].
  split; [done|]. split; [done|]. split; [lia|].
  destruct ((0 <=? value) && (value <=? 12)) eqn:E1.
  { exists []. split; [|constructor; lia]. unfold zipSaveInteger_bytes.
    apply andb_true_iff in E1 as [E1 E1']. apply Z.leb_le in E1, E1'.
    unfold ZIP_INT_IMM_MIN, ZIP_INT_8B, ZIP_INT_16B, ZIP_INT_24B, ZIP_INT_32B, ZIP_INT_64B, ZIP_INT_IMM_MAX.
    change (Z.lor _ (Z.shiftl 3 4)) with 240. change (Z.lor _ (Z.shiftl 1 4)) with 208.
    change (Z.lor _ (Z.shiftl 2 4)) with 224. zbool_cases; try lia; done. }
  destruct ((-128 <=? value) && (value <=? 127)) eqn:E2; [eexists; split; [done|]; constructor; lia|].
  destruct ((INT16_MIN <=? value) && (value <=? INT16_MAX)) eqn:E3; [eexists; split; [done|]; constructor; lia|].
  destruct ((INT24_MIN <=? value) && (value <=? INT24_MAX)) eqn:E4.
  { exists (le_encode 3 value). split; [|constructor; lia]. change (zipSaveInteger_bytes value ZIP_INT_24B) with
      (Some (drop 1 (le_encode 4 (Z.shiftl value 8)))). f_equal. rewrite Z.shiftl_mul_pow2 by lia.
    change (2 ^ 8) with 256. cbn [le_encode drop]. by rewrite Z.div_mul. }
  destruct ((INT32_MIN <=? value) && (value <=? INT32_MAX)) eqn:E5; eexists; (split; [done|]); constructor; lia || done.
Qed.

Lemma imm_cases (P : Z -> Prop) v : Forall P (seqZ 0 13) -> 0 <= v <= 12 -> P v.
Proof.
  intros HF Hv. eapply List.Forall_forall in HF; [exact HF|]. apply list_elem_of_In, elem_of_seqZ. lia.
Qed.

Lemma int_enc_size v e bs : int_enc v e bs ->
  zlen bs = zipIntSize e /\ ZIP_STR_MASK <= e < ZIP_END /\ ZIP_IS_STR e = false.
Proof.
  intros H. destruct H as [H|H|H|H|H|H]; try (split_and!; done).
  revert H. apply (imm_cases (fun v => zlen (@nil Z) = zipIntSize (ZIP_INT_IMM_MIN + v) /\
    ZIP_STR_MASK <= ZIP_INT_IMM_MIN + v < ZIP_END /\ ZIP_IS_STR (ZIP_INT_IMM_MIN + v) = false)).
  vm_compute. repeat constructor; done.
Qed.

Lemma int_enc_load a v e bs c : int_enc v e bs ->
  zipLoadInteger (a ++ bs ++ c) (zlen a) e = Some v.
Proof.
  intros H. destruct H as [H|H|H|H|H|H].
  - revert H. apply (imm_cases (fun v => zipLoadInteger (a ++ [] ++ c) (zlen a) (ZIP_INT_IMM_MIN + v) = Some v)).
    cbn. repeat constructor.
  - change (zipLoadInteger (a ++ le_encode 1 v ++ c) (zlen a) ZIP_INT_8B) with
      (bs ← load (a ++ le_encode 1 v ++ c) (zlen a) 1; Some (swrap 8 (le_decode bs))).
    rewrite load_app by done. cbn [mbind option_bind]. f_equal.
    apply (swrap_le_roundtrip 1); [lia|]. unfold in_int. cbn. lia.
  - change (zipLoadInteger (a ++ le_encode 2 v ++ c) (zlen a) ZIP_INT_16B) with
      (bs ← load (a ++ le_encode 2 v ++ c) (zlen a) 2; Some (swrap 16 (le_decode bs))).
    rewrite load_app by done. cbn [mbind option_bind]. f_equal.
    apply (swrap_le_roundtrip 2); [lia|]. unfold in_int, INT16_MIN, INT16_MAX in *. cbn. lia.
  - change (zipLoadInteger (a ++ le_encode 3 v ++ c) (zlen a) ZIP_INT_24B) with
      (bs ← load (a ++ le_encode 3 v ++ c) (zlen a) 3; Some (Z.shiftr (swrap 32 (le_decode (0 :: bs))) 8)).
    rewrite load_app by done. cbn [mbind option_bind]. f_equal.
    cbn [le_decode]. rewrite le_decode_encode. unfold INT24_MIN, INT24_MAX in H.
    assert (swrap 32 (0 + 256 * (v mod 2 ^ (8 * Z.of_nat 3))) = 256 * v) as ->.
    { rewrite Z.add_0_l. change (2 ^ (8 * Z.of_nat 3)) with (2 ^ 24). rewrite <- Z.mul_mod_distr_l by lia.
      change (256 * 2 ^ 24) with (2 ^ 32). rewrite swrap_uwrap by lia. apply swrap_id; [lia|]. unfold in_int. cbn. lia. }
    rewrite Z.shiftr_div_pow2 by lia. change (2 ^ 8) with 256. rewrite Z.mul_comm. by apply Z.div_mul.
  - change (zipLoadInteger (a ++ le_encode 4 v ++ c) (zlen a) ZIP_INT_32B) with
      (bs ← load (a ++ le_encode 4 v ++ c) (zlen a) 4; Some (swrap 32 (le_decode bs))).
    rewrite load_app by done. cbn [mbind option_bind]. f_equal.
    apply (swrap_le_roundtrip 4); [lia|]. unfold in_int, INT32_MIN, INT32_MAX in *. cbn. lia.
  - change (zipLoadInteger (a ++ le_encode 8 v ++ c) (zlen a) ZIP_INT_64B) with
      (bs ← load (a ++ le_encode 8 v ++ c) (zlen a) 8; Some (swrap 64 (le_decode bs))).
    rewrite load_app by done. cbn [mbind option_bind]. f_equal.
    by apply (swrap_le_roundtrip 8); [lia|].
Qed.

Lemma bpay_int s v e : zipTryEncoding s = Some (v, e) -> int_enc v e (bpay s).
Proof.
  intros H. destruct (zipTryEncoding_spec s v e H) as (_ & _ & _ & bs & Hb & Hi).
  unfold bpay. by rewrite H, Hb.
Qed.

Lemma is_str_benc s : ZIP_IS_STR (benc s) = negb (is_int s).
Proof.
  unfold benc, is_int. destruct (zipTryEncoding s) as [[v e]|] eqn:E.
  - rewrite bool_decide_true by eauto. eapply int_enc_size, bpay_int, E.
  - rewrite bool_decide_false by (by intros [? ?]). by destruct (zlen s <=? 0x3f), (zlen s <=? 0x3fff).
Qed.

Lemma be4 n : 0 <= n < 2 ^ 32 ->
  u32 (Z.lor (Z.lor (Z.lor (Z.shiftl (Z.land (Z.shiftr n 24) 0xff) 24) (Z.shiftl (Z.land (Z.shiftr n 16) 0xff) 16))
    (Z.shiftl (Z.land (Z.shiftr n 8) 0xff) 8)) (Z.land n 0xff)) = n.
Proof.
  intros Hn. change 0xff with (Z.ones 8). rewrite !land_mask by lia. rewrite !Z.shiftr_div_pow2 by lia.
  change (2 ^ 8) with 256. change (2 ^ 16) with 65536. change (2 ^ 24) with 16777216.
  pose proof (Z.mod_pos_bound (n / 16777216) 256 ltac:(lia)). pose proof (Z.mod_pos_bound (n / 65536) 256 ltac:(lia)).
  pose proof (Z.mod_pos_bound (n / 256) 256 ltac:(lia)). pose proof (Z.mod_pos_bound n 256 ltac:(lia)).
  rewrite (Z.shiftl_mul_pow2 (n / 65536 mod 256) 16), (Z.shiftl_mul_pow2 (n / 256 mod 256) 8) by lia.
  change (2 ^ 16) with 65536. change (2 ^ 8) with 256.
  rewrite (lor_shiftl _ (n / 65536 mod 256 * 65536) 24) by lia.
  assert (Hl : forall x y k j, 0 <= k -> 0 <= j -> 0 <= y < 2 ^ k -> Z.lor (x * 2 ^ (k + j)) y = x * 2 ^ (k + j) + y).
  { intros x y k j Hk Hj Hy. rewrite Z.pow_add_r, (Z.mul_comm (2 ^ k)), Z.mul_assoc by lia.
    rewrite <- Z.shiftl_mul_pow2 by lia. rewrite lor_shiftl by done. by rewrite Z.shiftl_mul_pow2. }
  replace (n / 16777216 mod 256 * 2 ^ 24 + n / 65536 mod 256 * 65536) with
    ((n / 16777216 mod 256 * 256 + n / 65536 mod 256) * 2 ^ (16 + 0)) by (cbn; lia).
  rewrite Hl by (cbn; lia).
  replace ((n / 16777216 mod 256 * 256 + n / 65536 mod 256) * 2 ^ (16 + 0) + n / 256 mod 256 * 256) with
    (((n / 16777216 mod 256 * 256 + n / 65536 mod 256) * 256 + n / 256 mod 256) * 2 ^ (8 + 0)) by (cbn; lia).
  rewrite Hl by (cbn; lia). unfold u32, uwrap. cbn [Z.add].
  rewrite <- Z.mod_small with (b := 2 ^ 32) by done. f_equal.
  change (2 ^ 8) with 256. change (2 ^ 32) with 4294967296 in Hn.
  rewrite (Z.mod_small (n / 16777216)) by (split; [by apply Z.div_pos; lia|apply Z.div_lt_upper_bound; lia]).
  pose proof (Z.div_mod n 256 ltac:(lia)). pose proof (Z.div_mod (n / 256) 256 ltac:(lia)).
  pose proof (Z.div_mod (n / 65536) 256 ltac:(lia)).
  rewrite Z.div_div in * by lia. change (256 * 256) with 65536 in *. change (65536 * 256) with 16777216 in *. lia.
Qed.

Lemma decode_body a s c p : p = zlen a -> zlen s < 2 ^ 32 ->
  ZIP_DECODE_LENGTH (a ++ body s ++ c) p = Some (benc s, zlen (bhdr s), zlen (bpay s)).
Proof.
  intros -> Hs. pose proof (zlen_nonneg s) as Hs0.
  unfold ZIP_DECODE_LENGTH, ZIP_ENTRY_ENCODING, body. rewrite <- (app_assoc (bhdr s)).
  destruct (zipTryEncoding s) as [[v e]|] eqn:E.
  - destruct (int_enc_size _ _ _ (bpay_int s v e E)) as (Hz & He & _).
    unfold bhdr, benc. rewrite E. change ([e] ++ bpay s ++ c) with (e :: bpay s ++ c).
    rewrite (rd_app a _ _ (zlen a)) by done. cbn [mbind option_bind]. destruct (Z.ltb_spec e ZIP_STR_MASK); [lia|].
    destruct (Z.ltb_spec e ZIP_STR_MASK); [lia|]. by rewrite Hz.
  - assert (bpay s = s) as -> by (unfold bpay; by rewrite E). unfold bhdr, benc. rewrite E.
    unfold zipEncodeLength_bytes. change (ZIP_IS_STR 0) with true. cbv iota.
    destruct (Z.leb_spec (zlen s) 0x3f).
    + destruct (str_class 0 (zlen s)) as (H1 & H2 & H3 & H4); [auto|lia|]. cbv zeta in *.
      unfold ZIP_STR_06B in *. cbn [app]. rewrite (rd_app a _ _ (zlen a)) by done. cbn [mbind option_bind].
      destruct (Z.ltb_spec (Z.lor (Z.shiftl 0 6) (zlen s)) ZIP_STR_MASK); [|lia]. by rewrite H2, H3.
    + assert (forall x, 0 <= x -> Z.land x 0xff = x mod 256) as Hff by (intros; by apply (land_mask x 8)).
      destruct (Z.leb_spec (zlen s) 0x3fff).
      * assert (Z.land (Z.shiftr (zlen s) 8) 63 = zlen s / 256) as ->.
        { change 63 with (Z.ones 6). rewrite land_mask, Z.shiftr_div_pow2 by lia. apply Z.mod_small.
          change (2 ^ 8) with 256. split; [by apply Z.div_pos|]. apply Z.div_lt_upper_bound; cbn; lia. }
        assert (0 <= zlen s / 256 < 64) as Hd by (split; [by apply Z.div_pos|apply Z.div_lt_upper_bound; lia]).
        destruct (str_class 1 (zlen s / 256)) as (H1 & H2 & H3 & H4); [auto|lia|]. cbv zeta in *.
        unfold ZIP_STR_14B in *. set (b := Z.lor _ _) in *. change (a ++ [b; ?x] ++ s ++ c) with (a ++ b :: x :: s ++ c).
        cbn [app]. rewrite (rd_app a _ _ (zlen a)) by done. cbn [mbind option_bind].
        destruct (Z.ltb_spec b ZIP_STR_MASK); [|lia]. rewrite H2, H3. cbn [mbind option_bind].
        change (Z.shiftl 1 6 <? ZIP_STR_MASK) with true. change (Z.shiftl 1 6 =? ZIP_STR_06B) with false.
        change (Z.shiftl 1 6 =? Z.shiftl 1 6) with true. cbv iota.
        change (a ++ b :: Z.land (zlen s) 255 :: s ++ c) with (a ++ [b] ++ Z.land (zlen s) 255 :: s ++ c).
        rewrite app_assoc, (rd_app (a ++ [b]) _ _ (zlen a + 1)) by (by rewrite zlen_app). cbn [mbind option_bind].
        rewrite Hff, lor_shiftl by (try lia; apply Z.mod_pos_bound; lia). change (2 ^ 8) with 256.
        do 3 f_equal. pose proof (Z.div_mod (zlen s) 256 ltac:(lia)). lia.
      * cbn [app]. rewrite (rd_app a _ _ (zlen a)) by done. cbn [mbind option_bind].
        change (ZIP_STR_32B <? ZIP_STR_MASK) with true. cbv iota. change (Z.land ZIP_STR_32B ZIP_STR_MASK) with ZIP_STR_32B.
        change (ZIP_STR_32B <? ZIP_STR_MASK) with true. change (ZIP_STR_32B =? ZIP_STR_06B) with false.
        change (ZIP_STR_32B =? ZIP_STR_14B) with false. change (ZIP_STR_32B =? ZIP_STR_32B) with true. cbv iota.
        set (b1 := Z.land (Z.shiftr (zlen s) 24) 255). set (b2 := Z.land (Z.shiftr (zlen s) 16) 255).
        set (b3 := Z.land (Z.shiftr (zlen s) 8) 255). set (b4 := Z.land (zlen s) 255). set (b0 := ZIP_STR_32B).
        set (m := a ++ b0 :: _).
        assert (rd m (zlen a + 1) = Some b1) as ->.
        { change m with (a ++ [b0] ++ b1 :: b2 :: b3 :: b4 :: s ++ c). rewrite app_assoc. apply rd_app. by rewrite zlen_app. }
        assert (rd m (zlen a + 2) = Some b2) as ->.
        { change m with (a ++ [b0; b1] ++ b2 :: b3 :: b4 :: s ++ c). rewrite app_assoc. apply rd_app. by rewrite zlen_app. }
        assert (rd m (zlen a + 3) = Some b3) as ->.
        { change m with (a ++ [b0; b1; b2] ++ b3 :: b4 :: s ++ c). rewrite app_assoc. apply rd_app. by rewrite zlen_app. }
        assert (rd m (zlen a + 4) = Some b4) as ->.
        { change m with (a ++ [b0; b1; b2; b3] ++ b4 :: s ++ c). rewrite app_assoc. apply rd_app. by rewrite zlen_app. }
        cbn [mbind option_bind]. unfold b1, b2, b3, b4. by rewrite be4.
Qed.

(** *** Raw entries

    An entry as it is stored: whether its previous-length field takes five bytes, the value of
    the field, and the string. *)
Abbreviation raw := (bool * Z * list Z)%type.
Definition psize (w : bool) : Z := if w then 5 else 1.
Definition enc_prev (w : bool) (pl : Z) : list Z := if w then ZIP_BIGLEN :: le_encode 4 pl else [pl].
Definition enc1 (r : raw) : list Z := let '(w, pl, s) := r in enc_prev w pl ++ body s.
Definition enc (rs : list raw) : list Z := concat (enc1 <$> rs).
Definition rsize (r : raw) : Z := zlen (enc1 r).

Definition raw_ok (r : raw) : Prop :=
  let '(w, pl, s) := r in 0 <= pl < 2 ^ 32 /\ (w = false -> pl < ZIP_BIGLEN) /\ rsize r < 2 ^ 32.

Definition entry_of (p : Z) (r : raw) : zlentry :=
  let '(w, pl, s) := r in
  mkEntry (psize w) pl (zlen (bhdr s)) (zlen (bpay s)) (psize w + zlen (bhdr s)) (benc s) p.

Lemma zlen_enc_prev w pl : zlen (enc_prev w pl) = psize w.
Proof. by destruct w. Qed.

Lemma psize_pos w : 1 <= psize w <= 5.
Proof. destruct w; cbn; lia. Qed.

Lemma bhdr_pos s : 1 <= zlen (bhdr s) <= 5.
Proof.
  unfold bhdr. destruct (zipTryEncoding s) as [[v e]|]; [unfold zlen; simpl; lia|]. unfold zipEncodeLength_bytes.
  change (ZIP_IS_STR 0) with true. cbv iota. destruct (_ <=? _); [unfold zlen; simpl; lia|]. destruct (_ <=? _); unfold zlen; simpl; lia.
Qed.

Lemma rsize_split w pl s : rsize (w, pl, s) = psize w + zlen (bhdr s) + zlen (bpay s).
Proof. unfold rsize, enc1, body. rewrite !zlen_app, zlen_enc_prev. lia. Qed.

Lemma rsize_pos r : 2 <= rsize r.
Proof.
  destruct r as [[w pl] s]. rewrite rsize_split. pose proof (psize_pos w). pose proof (bhdr_pos s).
  pose proof (zlen_nonneg (bpay s)). lia.
Qed.

Lemma str_len_rsize w pl s : zlen s < 32 \/ zlen s <= rsize (w, pl, s).
Proof.
  rewrite rsize_split. destruct (zipTryEncoding s) as [[v e]|] eqn:E.
  - left. eapply zipTryEncoding_spec, E.
  - right. unfold bpay. rewrite E. pose proof (psize_pos w). pose proof (bhdr_pos s). lia.
Qed.

Lemma encs_app rs rs' : enc (rs ++ rs') = enc rs ++ enc rs'.
Proof. unfold enc. by rewrite fmap_app, concat_app. Qed.

Lemma encs_cons r rs : enc (r :: rs) = enc1 r ++ enc rs.
Proof. done. Qed.

Lemma first_byte a r c p : p = zlen a -> raw_ok r ->
  exists b, rd (a ++ enc1 r ++ c) p = Some b /\ b <> ZIP_END /\ (b <? ZIP_BIGLEN) = negb (r.1.1).
Proof.
  intros -> Hr. destruct r as [[w pl] s]. destruct Hr as ([Hp _] & Hw & _). unfold enc1, enc_prev.
  destruct w; cbn [app]; rewrite rd_app by done; eexists; (split; [done|]); cbn.
  - done.
  - specialize (Hw eq_refl). unfold ZIP_BIGLEN, ZIP_END in *. split; [lia|]. by apply Z.ltb_lt.
Qed.

Lemma zl_u32_id z : 0 <= z < 2 ^ 32 -> u32 z = z.
Proof. apply Z.mod_small. Qed.

Lemma prevlensize_enc a r c p : p = zlen a -> raw_ok r ->
  ZIP_DECODE_PREVLENSIZE (a ++ enc1 r ++ c) p = Some (psize r.1.1).
Proof.
  intros Hp Hr. unfold ZIP_DECODE_PREVLENSIZE. destruct (first_byte a r c p Hp Hr) as (b & -> & _ & Hb).
  cbn [mbind option_bind]. rewrite Hb. by destruct r as [[[] ?] ?].
Qed.

Lemma decode_enc1 a r c p q : p = zlen a -> q = p + psize r.1.1 -> raw_ok r ->
  ZIP_DECODE_LENGTH (a ++ enc1 r ++ c) q = Some (benc r.2, zlen (bhdr r.2), zlen (bpay r.2)).
Proof.
  intros -> -> Hr. destruct r as [[w pl] s]. cbn [fst snd].
  unfold enc1. rewrite <- (app_assoc (enc_prev w pl)), (app_assoc a). apply decode_body.
  - by rewrite zlen_app, zlen_enc_prev.
  - destruct Hr as (_ & _ & Hr). destruct (str_len_rsize w pl s); lia.
Qed.

Lemma zipEntry_enc a r c p : p = zlen a -> raw_ok r ->
  zipEntry (a ++ enc1 r ++ c) p = Some (entry_of p r).
Proof.
  intros Hp Hr. unfold zipEntry, ZIP_DECODE_PREVLEN. rewrite (prevlensize_enc a r c p Hp Hr). cbn [mbind option_bind].
  assert ((psize r.1.1 =? 1) = negb r.1.1) as -> by (by destruct r as [[[] ?] ?]).
  pose proof (decode_enc1 a r c p (p + psize r.1.1) Hp eq_refl Hr) as Hd.
  destruct r as [[w pl] s]. cbn [fst snd] in *.
  assert (u32 (psize w + zlen (bhdr s)) = psize w + zlen (bhdr s)) as Hu.
  { apply zl_u32_id. pose proof (psize_pos w). pose proof (bhdr_pos s). lia. }
  destruct w; cbn [negb].
  - assert (load (a ++ enc1 (true, pl, s) ++ c) (p + 1) 4 = Some (le_encode 4 pl)) as ->.
    { unfold enc1, enc_prev. cbn [app]. rewrite <- !app_assoc.
      change (a ++ ZIP_BIGLEN :: le_encode 4 pl ++ body s ++ c) with (a ++ [ZIP_BIGLEN] ++ le_encode 4 pl ++ body s ++ c).
      rewrite app_assoc. apply load_app; [|done]. rewrite zlen_app. change (zlen [ZIP_BIGLEN]) with 1. lia. }
    cbn [mbind option_bind]. rewrite Hd. cbn [mbind option_bind]. rewrite Hu, le_decode_encode.
    destruct Hr as (Hpl & _). change (2 ^ (8 * Z.of_nat 4)) with (2 ^ 32). by rewrite Z.mod_small.
  - assert (rd (a ++ enc1 (false, pl, s) ++ c) p = Some pl) as -> by (by apply rd_app).
    cbn [mbind option_bind]. rewrite Hd. cbn [mbind option_bind]. by rewrite Hu.
Qed.

Lemma rawlen_enc a r c p : p = zlen a -> raw_ok r ->
  zipRawEntryLength (a ++ enc1 r ++ c) p = Some (rsize r).
Proof.
  intros Hp Hr. unfold zipRawEntryLength. rewrite (prevlensize_enc a r c p Hp Hr). cbn [mbind option_bind].
  rewrite (decode_enc1 a r c p _ Hp eq_refl Hr). cbn [mbind option_bind]. f_equal.
  destruct r as [[w pl] s]. cbn [fst snd]. rewrite <- rsize_split with (pl := pl). apply zl_u32_id.
  destruct Hr as (_ & _ & Hr). pose proof (rsize_pos (w, pl, s)). lia.
Qed.

(** ** The block *)

Definition hdr (n t c : Z) : list Z := le_encode 4 n ++ le_encode 4 t ++ le_encode 2 c.

Lemma zlen_hdr n t c : zlen (hdr n t c) = 10.
Proof. reflexivity. Qed.

Lemma get_bytes n t c x : in_uint 32 n -> ZIPLIST_BYTES (hdr n t c ++ x) = Some n.
Proof.
  intros Hn. unfold ZIPLIST_BYTES, hdr. rewrite <- !app_assoc.
  pose proof (load_app [] (le_encode 4 n) (le_encode 4 t ++ le_encode 2 c ++ x) 0 4 eq_refl eq_refl) as H.
  cbn [app] in H. rewrite H.
  cbn [mbind option_bind]. rewrite le_decode_encode. f_equal. by apply Z.mod_small.
Qed.

Lemma get_tail n t c x : in_uint 32 t -> ZIPLIST_TAIL_OFFSET (hdr n t c ++ x) = Some t.
Proof.
  intros Hn. unfold ZIPLIST_TAIL_OFFSET, hdr. rewrite <- !app_assoc. rewrite (load_app (le_encode 4 n) (le_encode 4 t)) by done.
  cbn [mbind option_bind]. rewrite le_decode_encode. f_equal. by apply Z.mod_small.
Qed.

Lemma get_length n t c x : in_uint 16 c -> ZIPLIST_LENGTH (hdr n t c ++ x) = Some c.
Proof.
  intros Hn. unfold ZIPLIST_LENGTH, hdr. rewrite <- !app_assoc. rewrite (app_assoc (le_encode 4 n)).
  rewrite (load_app (le_encode 4 n ++ le_encode 4 t) (le_encode 2 c)) by done.
  cbn [mbind option_bind]. rewrite le_decode_encode. f_equal. by apply Z.mod_small.
Qed.

Lemma put_bytes n t c x n' : set_bytes (hdr n t c ++ x) n' = Some (hdr n' t c ++ x).
Proof.
  unfold set_bytes, hdr. rewrite <- !app_assoc.
  exact (store_app [] (le_encode 4 n) (le_encode 4 t ++ le_encode 2 c ++ x) (le_encode 4 n') 0 eq_refl eq_refl).
Qed.

Lemma put_tail n t c x t' : set_tail (hdr n t c ++ x) t' = Some (hdr n t' c ++ x).
Proof.
  unfold set_tail, hdr. rewrite <- !app_assoc. by rewrite (store_app (le_encode 4 n) (le_encode 4 t)).
Qed.

Lemma put_length n t c x c' : set_length (hdr n t c ++ x) c' = Some (hdr n t c' ++ x).
Proof.
  unfold set_length, hdr. rewrite <- !app_assoc. rewrite !(app_assoc (le_encode 4 n)).
  by rewrite (store_app (le_encode 4 n ++ le_encode 4 t) (le_encode 2 c)).
Qed.

(** A write inside of the region [T]. *)
Lemma store_mid (P T Q X : list Z) off k :
  off = zlen P + k -> 0 <= k -> zlen X + k = zlen T ->
  store (P ++ T ++ Q) off X = Some (P ++ take (Z.to_nat k) T ++ X ++ Q).
Proof.
  intros -> Hk Hl. rewrite <- (take_drop (Z.to_nat k) T) at 1. rewrite <- app_assoc, app_assoc.
  assert (length (take (Z.to_nat k) T) = Z.to_nat k) as Ht.
  { rewrite length_take. unfold zlen in *. lia. }
  rewrite store_app.
  - by rewrite <- app_assoc.
  - rewrite zlen_app. unfold zlen. rewrite Ht. lia.
  - rewrite length_drop. unfold zlen in *. lia.
Qed.

Lemma write_prev P blk Q p v : p = zlen P -> zlen blk = prev_size v ->
  zipPrevEncodeLength (P ++ blk ++ Q) p v = Some (P ++ enc_prev (ZIP_BIGLEN <=? v) v ++ Q, prev_size v).
Proof.
  intros -> Hb. unfold zipPrevEncodeLength, prev_size in *.
  destruct (Z.ltb_spec v ZIP_BIGLEN) as [Hv|Hv]; destruct (Z.leb_spec ZIP_BIGLEN v); try lia.
  - destruct blk as [|b [|? ?]]; try (unfold zlen in Hb; simpl in Hb; lia). by rewrite store_app.
  - destruct blk as [|b blk]; [unfold zlen in Hb; simpl in Hb; lia|].
    change (P ++ (b :: blk) ++ Q) with (P ++ [b] ++ blk ++ Q).
    rewrite (store_app P [b] (blk ++ Q) [ZIP_BIGLEN]) by done. cbn [mbind option_bind].
    rewrite app_assoc. rewrite (store_app (P ++ [ZIP_BIGLEN]) blk Q (le_encode 4 v)).
    + cbn [mbind option_bind]. by rewrite <- app_assoc.
    + by rewrite zlen_app.
    + unfold zlen in Hb. simpl in Hb. rewrite length_le_encode. lia.
Qed.

Lemma write_prev_large P blk Q p v : p = zlen P -> zlen blk = 5 ->
  zipPrevEncodeLengthForceLarge (P ++ blk ++ Q) p v = Some (P ++ enc_prev true v ++ Q).
Proof.
  intros -> Hb. unfold zipPrevEncodeLengthForceLarge.
  destruct blk as [|b blk]; [done|]. change (P ++ (b :: blk) ++ Q) with (P ++ [b] ++ blk ++ Q).
  rewrite (store_app P [b] (blk ++ Q) [ZIP_BIGLEN]) by done. cbn [mbind option_bind].
  rewrite app_assoc. rewrite (store_app (P ++ [ZIP_BIGLEN]) blk Q (le_encode 4 v)).
  - by rewrite <- app_assoc.
  - by rewrite zlen_app.
  - unfold zlen in Hb. simpl in Hb. rewrite length_le_encode. lia.
Qed.

(** Growing makes room before the end mark; shrinking cuts the block and puts the end mark. *)
Lemma zl_grow junk n t c y len :
  10 + zlen y + 1 <= len ->
  exists z, zlen z = len - (10 + zlen y + 1) /\ (exists z', z ++ [ZIP_END] = ZIP_END :: z') /\
    ziplistResize junk (hdr n t c ++ y ++ [ZIP_END]) len = Some (hdr len t c ++ y ++ z ++ [ZIP_END]).
Proof.
  intros Hl. unfold ziplistResize.
  destruct (realloc_grow junk (hdr n t c ++ y ++ [ZIP_END]) len) as (pad & Hp & ->).
  { rewrite !zlen_app, zlen_hdr. change (zlen [ZIP_END]) with 1. lia. }
  rewrite !zlen_app, zlen_hdr in Hp. change (zlen [ZIP_END]) with 1 in Hp.
  rewrite <- app_assoc, put_bytes. cbn [mbind option_bind]. rewrite <- app_assoc.
  destruct (decide (pad = [])) as [->|Hne].
  - exists []. rewrite zlen_nil in *. split; [lia|]. split; [by exists []|]. cbn [app].
    pose proof (store_app (hdr len t c ++ y) [ZIP_END] [] [ZIP_END] (len - 1)) as H.
    rewrite app_nil_r, <- app_assoc in H. apply H; [|done]. rewrite zlen_app, zlen_hdr. lia.
  - destruct (exists_last Hne) as (pad' & b & ->). rewrite zlen_app in Hp. change (zlen [b]) with 1 in Hp.
    exists (ZIP_END :: pad'). rewrite zlen_cons. split; [lia|]. split; [by eexists|].
    replace (hdr len t c ++ y ++ [ZIP_END] ++ pad' ++ [b]) with ((hdr len t c ++ y ++ [ZIP_END] ++ pad') ++ [b] ++ [])
      by (rewrite <- !app_assoc; done).
    rewrite store_app; [by rewrite <- !app_assoc| |done].
    rewrite !zlen_app, zlen_hdr. change (zlen [ZIP_END]) with 1. lia.
Qed.

Lemma zl_shrink junk n t c y z len :
  10 + zlen y + 1 = len -> 1 <= zlen z ->
  ziplistResize junk (hdr n t c ++ y ++ z) len = Some (hdr len t c ++ y ++ [ZIP_END]).
Proof.
  intros Hl Hz. unfold ziplistResize. destruct z as [|b z]; [done|].
  replace (hdr n t c ++ y ++ b :: z) with ((hdr n t c ++ y ++ [b]) ++ z) by (rewrite <- !app_assoc; done).
  rewrite realloc_shrink by (rewrite !zlen_app, zlen_hdr; change (zlen [b]) with 1; lia).
  rewrite put_bytes. cbn [mbind option_bind].
  pose proof (store_app (hdr len t c ++ y) [b] [] [ZIP_END] (len - 1)) as H.
  rewrite !app_nil_r, <- !app_assoc in H. apply H; [|done]. rewrite zlen_app, zlen_hdr. lia.
Qed.

(** ** Linked entries *)

Fixpoint linked (pl : Z) (rs : list raw) : Prop :=
  match rs with [] => True | r :: rs => r.1.2 = pl /\ linked (rsize r) rs end.

(** The offset of the last entry, or of the end mark. *)
Fixpoint last_off (off : Z) (rs : list raw) : Z :=
  match rs with
  | [] => off
  | [r] => off
  | r :: rs => last_off (off + rsize r) rs
  end.

(** The size of the last entry; [pl] when there is none. *)
Fixpoint last_size (pl : Z) (rs : list raw) : Z :=
  match rs with [] => pl | r :: rs => last_size (rsize r) rs end.

(** The cascade: the fields are set to the lengths of the previous entries; a field grows when
    it has to and never shrinks. *)
Fixpoint fix_prev (pl : Z) (rs : list raw) : list raw :=
  match rs with
  | [] => []
  | (w, pl', s) :: rs' =>
    if pl' =? pl then rs
    else if negb w && (ZIP_BIGLEN <=? pl) then (true, pl, s) :: fix_prev (rsize (true, pl, s)) rs'
    else (w, pl, s) :: rs'
  end.

(** The strings, and a bound of the size of a block that holds them. *)
Definition strs (rs : list raw) : list (list Z) := snd <$> rs.
Definition cost (l : list (list Z)) : Z := foldr (fun s n => 14 + zlen s + n) 11 l.

Lemma rsize_le w pl s : rsize (w, pl, s) <= 14 + zlen s.
Proof.
  rewrite rsize_split. pose proof (psize_pos w). pose proof (bhdr_pos s). pose proof (zlen_nonneg s).
  unfold bhdr, bpay in *. destruct (zipTryEncoding s) as [[v e]|] eqn:E; [|lia].
  destruct (zipTryEncoding_spec s v e E) as (_ & _ & _ & bs & -> & Hi). change (zlen [e]) with 1.
  cbn [default from_option id]. destruct Hi; change (zlen (@nil Z)) with 0; unfold zlen at 1; rewrite ?length_le_encode; lia.
Qed.

Lemma cost_app l k : cost (l ++ k) = cost l + cost k - 11.
Proof. unfold cost. induction l as [|s l IH]; cbn; lia. Qed.

Lemma cost_ge l : 11 <= cost l.
Proof. unfold cost. induction l as [|s l IH]; cbn; [lia|]. pose proof (zlen_nonneg s). lia. Qed.

Lemma cost_cons w pl s rs : cost (strs ((w, pl, s) :: rs)) = 14 + zlen s + cost (strs rs).
Proof. done. Qed.

Lemma enc_cost rs : zlen (enc rs) + 11 <= cost (strs rs).
Proof.
  induction rs as [|[[w pl] s] rs IH]; [done|]. rewrite encs_cons, zlen_app, cost_cons.
  pose proof (rsize_le w pl s) as H. unfold rsize in H. lia.
Qed.

Lemma fix_prev_strs pl rs : strs (fix_prev pl rs) = strs rs.
Proof.
  revert pl. induction rs as [|[[w pl'] s] rs IH]; intros pl; [done|]. cbn [fix_prev].
  destruct (pl' =? pl); [done|]. destruct (_ && _); [|done]. unfold strs in *. cbn. by rewrite IH.
Qed.

Lemma rsize_field w pl pl' s : rsize (w, pl, s) = rsize (w, pl', s).
Proof. by rewrite !rsize_split. Qed.

Lemma fix_prev_linked pl rs :
  match rs with [] => True | r :: rs => linked (rsize r) rs end -> linked pl (fix_prev pl rs).
Proof.
  revert pl. induction rs as [|[[w pl'] s] rs IH]; intros pl Hl; [done|]. cbn [fix_prev].
  destruct (Z.eqb_spec pl' pl) as [->|Hne]; [done|].
  destruct (negb w && (ZIP_BIGLEN <=? pl)); (split; [done|]).
  - apply IH. destruct rs; [done|]. by destruct Hl.
  - by rewrite (rsize_field w pl pl').
Qed.

Lemma fix_prev_ok pl rs : 0 <= pl < 2 ^ 32 -> cost (strs rs) < 2 ^ 32 -> Forall raw_ok rs -> Forall raw_ok (fix_prev pl rs).
Proof.
  revert pl. induction rs as [|[[w pl'] s] rs IH]; intros pl Hpl Hr Hok; [done|]. cbn [fix_prev].
  inversion Hok as [|? ? Hx Hok']; subst. destruct Hx as (H1 & H2 & H3). rewrite cost_cons in Hr.
  pose proof (zlen_nonneg s). pose proof (cost_ge (strs rs)) as Hg.
  destruct (Z.eqb_spec pl' pl) as [->|Hne]; [done|].
  destruct w; cbn [negb andb]; [|destruct (Z.leb_spec ZIP_BIGLEN pl)]; (constructor; [|try done]).
  - split_and!; [lia|lia|done|]. by rewrite (rsize_field true pl pl').
  - pose proof (rsize_le true pl s). split_and!; [lia|lia|done|lia].
  - apply IH; [|lia|done]. pose proof (rsize_pos (true, pl, s)). pose proof (rsize_le true pl s). lia.
  - split_and!; [lia|lia|intros _; lia|]. by rewrite (rsize_field false pl pl').
Qed.

Lemma last_off_shift k rs : forall off, last_off (off + k) rs = last_off off rs + k.
Proof.
  induction rs as [|r rs IH]; intros off; [done|]. cbn [last_off]. destruct rs; [done|].
  rewrite <- IH. f_equal. lia.
Qed.

Lemma last_off_cons off a l : l <> [] -> last_off off (a :: l) = last_off (off + rsize a) l.
Proof. by destruct l. Qed.

Lemma last_off_app off A r B : last_off off (A ++ r :: B) = last_off (off + zlen (enc A)) (r :: B).
Proof.
  revert off. induction A as [|a A IH]; intros off; [by rewrite Z.add_0_r|].
  rewrite <- app_comm_cons, encs_cons, zlen_app, last_off_cons, IH by (by destruct A).
  f_equal. unfold rsize. lia.
Qed.

Lemma last_off_range rs : forall off, off <= last_off off rs <= off + zlen (enc rs).
Proof.
  induction rs as [|r rs IH]; intros off; [change (zlen (enc [])) with 0; cbn; lia|]. rewrite encs_cons, zlen_app.
  pose proof (rsize_pos r). pose proof (zlen_nonneg (enc rs)). cbn [last_off].
  change (zlen (enc1 r)) with (rsize r). destruct rs; [lia|]. specialize (IH (off + rsize r)). lia.
Qed.

(** A block: some bytes [pre] and the entries [rs] behind them. *)
Definition block (n t c : Z) (pre : list Z) (rs : list raw) : list Z := hdr n t c ++ pre ++ enc rs ++ [ZIP_END].
Definition size (pre : list Z) (rs : list raw) : Z := 11 + zlen pre + zlen (enc rs).
Definition at_ (pre : list Z) : Z := 10 + zlen pre.
Definition room (pre : list Z) (l : list (list Z)) : Prop := zlen pre + cost l < 2 ^ 32.

Lemma zlen_block n t c pre rs : zlen (block n t c pre rs) = size pre rs.
Proof. unfold block, size. rewrite !zlen_app, zlen_hdr. change (zlen [ZIP_END]) with 1. lia. Qed.

Lemma size_room pre rs : room pre (strs rs) -> 11 <= size pre rs < 2 ^ 32.
Proof.
  intros Hr. unfold size. pose proof (enc_cost rs). unfold room in Hr. pose proof (zlen_nonneg (enc rs)).
  pose proof (zlen_nonneg pre). lia.
Qed.

Lemma block_bytes n t c pre rs : in_uint 32 n -> ZIPLIST_BYTES (block n t c pre rs) = Some n.
Proof. apply get_bytes. Qed.
Lemma block_tail n t c pre rs : in_uint 32 t -> ZIPLIST_TAIL_OFFSET (block n t c pre rs) = Some t.
Proof. apply get_tail. Qed.
Lemma block_set_tail n t c pre rs t' : set_tail (block n t c pre rs) t' = Some (block n t' c pre rs).
Proof. apply put_tail. Qed.

Lemma block_cons n t c pre r B :
  block n t c pre (r :: B) = (hdr n t c ++ pre) ++ enc1 r ++ enc B ++ [ZIP_END].
Proof. unfold block. by rewrite encs_cons, <- !app_assoc. Qed.

Lemma block_app n t c pre A B : block n t c pre (A ++ B) = block n t c (pre ++ enc A) B.
Proof. unfold block. by rewrite encs_app, <- !app_assoc. Qed.

Lemma size_app pre A B : size pre (A ++ B) = size (pre ++ enc A) B.
Proof. unfold size. rewrite encs_app, !zlen_app. lia. Qed.

Lemma zlen_at n t c pre : zlen (hdr n t c ++ pre) = at_ pre.
Proof. by rewrite zlen_app, zlen_hdr. Qed.

Lemma at_app pre A : at_ (pre ++ A) = at_ pre + zlen A.
Proof. unfold at_. rewrite zlen_app. lia. Qed.

(** Reading at the start of an entry, and at the end. *)
Lemma block_entry n t c pre r B : raw_ok r ->
  let m := block n t c pre (r :: B) in
  (exists b, rd m (at_ pre) = Some b /\ b <> ZIP_END) /\ zipEntry m (at_ pre) = Some (entry_of (at_ pre) r) /\
  zipRawEntryLength m (at_ pre) = Some (rsize r) /\ ZIP_DECODE_PREVLENSIZE m (at_ pre) = Some (psize r.1.1) /\
  ZIP_DECODE_LENGTH m (at_ pre + psize r.1.1) = Some (benc r.2, zlen (bhdr r.2), zlen (bpay r.2)).
Proof.
  intros Hr m. unfold m. rewrite block_cons. pose proof (zlen_at n t c pre) as Hp. symmetry in Hp. split_and!.
  - destruct (first_byte _ r (enc B ++ [ZIP_END]) _ Hp Hr) as (b & ? & ? & _). by exists b.
  - by apply zipEntry_enc.
  - by apply rawlen_enc.
  - by apply prevlensize_enc.
  - by apply decode_enc1 with (p := at_ pre).
Qed.

Lemma block_end n t c pre : rd (block n t c pre []) (at_ pre) = Some ZIP_END.
Proof. unfold block. cbn [app enc fmap list_fmap concat]. rewrite app_assoc. apply rd_app. by rewrite zlen_at. Qed.

Ltac zl_bind := cbn [mbind option_bind].

Lemma entry_total p r : raw_ok r -> u32 (headersize (entry_of p r) + elen (entry_of p r)) = rsize r.
Proof.
  destruct r as [[w pl] s]. intros (_ & _ & Hr). cbn [entry_of headersize elen].
  rewrite <- rsize_split with (pl := pl). apply zl_u32_id. pose proof (rsize_pos (w, pl, s)). lia.
Qed.

Lemma room_rsize pre r B : room pre (strs (r :: B)) -> rsize r < 2 ^ 32.
Proof.
  unfold room. destruct r as [[w pl] s]. rewrite cost_cons. pose proof (zlen_nonneg pre).
  pose proof (cost_ge (strs B)). pose proof (rsize_le w pl s). lia.
Qed.

Lemma room_step pre r B : room pre (strs (r :: B)) -> room (pre ++ enc1 r) (strs B).
Proof.
  unfold room. destruct r as [[w pl] s]. rewrite cost_cons, zlen_app. pose proof (rsize_le w pl s) as H.
  unfold rsize in H. lia.
Qed.

(** The block with the size and the tail offset of its header. *)
Definition zl (c : Z) (pre : list Z) (rs : list raw) : list Z :=
  block (size pre rs) (last_off (at_ pre) rs) c pre rs.

Lemma zl_step c pre r r' B : zl c pre (r :: r' :: B) = zl c (pre ++ enc1 r) (r' :: B).
Proof.
  unfold zl. change (r :: r' :: B) with ([r] ++ r' :: B).
  assert (enc1 r = enc [r]) as He by (unfold enc; cbn; by rewrite app_nil_r).
  rewrite He, block_app, size_app, last_off_app, at_app. done.
Qed.

(** The move of the cascade: the field of the entry behind [pre] grows to five bytes. *)
Lemma grow_field junk c pre pl s B v :
  let rs := (false, pl, s) :: B in
  room pre (strs rs) -> ZIP_BIGLEN <= v < 2 ^ 32 ->
  let rs' := (true, v, s) :: B in
  size pre rs' = size pre rs + 4 /\
  (m ← ziplistResize junk (zl c pre rs) (u32 (size pre rs + 4));
   tail ← ZIPLIST_TAIL_OFFSET m;
   m ← (if tail =? at_ pre then Some m else set_tail m (u32 (tail + 4)));
   m ← memmove m (at_ pre + 5) (at_ pre + 1) (size pre rs - at_ pre - 1 - 1);
   '(m, _) ← zipPrevEncodeLength m (at_ pre) v; Some m) = Some (zl c pre rs').
Proof.
  intros rs Hr Hv rs'.
  pose proof (size_room pre rs Hr) as Hsz. pose proof (size_room pre rs' Hr) as Hsz'.
  set (X := body s ++ enc B).
  assert (enc rs = [pl] ++ X) as He by done.
  assert (enc rs' = enc_prev true v ++ X) as He' by (unfold rs', X; rewrite encs_cons; unfold enc1; by rewrite <- app_assoc).
  assert (size pre rs' = size pre rs + 4) as Hsize.
  { unfold size. rewrite He, He', !zlen_app, zlen_enc_prev. change (zlen [pl]) with 1. cbn [psize]. lia. }
  split; [done|].
  pose proof (last_off_range rs (at_ pre)) as Hlo. pose proof (zlen_nonneg pre).
  rewrite zl_u32_id by lia. unfold zl, block at 1. rewrite (app_assoc pre).
  destruct (zl_grow junk (size pre rs) (last_off (at_ pre) rs) c (pre ++ enc rs) (size pre rs + 4)) as (z & Hz & _ & ->).
  { rewrite zlen_app. unfold size. lia. }
  rewrite zlen_app in Hz.
  zl_bind. unfold at_ in Hlo. unfold size in Hz, Hsz, Hsz', Hsize. rewrite get_tail by (unfold in_uint, at_; lia). zl_bind.
  set (t := last_off (at_ pre) rs) in *.
  set (t' := if t =? at_ pre then t else u32 (t + 4)).
  assert (t' = last_off (at_ pre) rs') as Ht'.
  { unfold t', t, rs, rs'. destruct B as [|b B]; [cbn [last_off]; by rewrite Z.eqb_refl|].
    rewrite (last_off_cons _ (false, pl, s)), (last_off_cons _ (true, v, s)) by done.
    pose proof (last_off_range (b :: B) (at_ pre + rsize (false, pl, s))) as Hb.
    assert (rsize (true, v, s) = rsize (false, pl, s) + 4) as -> by (rewrite !rsize_split; cbn [psize]; lia).
    rewrite Z.add_assoc, (last_off_shift 4). pose proof (rsize_pos (false, pl, s)).
    destruct (Z.eqb_spec (last_off (at_ pre + rsize (false, pl, s)) (b :: B)) (at_ pre)); [lia|].
    assert (t = last_off (at_ pre + rsize (false, pl, s)) (b :: B)) as Hl by (unfold t, rs; by rewrite last_off_cons).
    unfold at_ in *. apply zl_u32_id. lia. }
  set (N := size pre rs + 4) in *.
  assert ((if t =? at_ pre then Some (hdr N t c ++ (pre ++ enc rs) ++ z ++ [ZIP_END])
    else set_tail (hdr N t c ++ (pre ++ enc rs) ++ z ++ [ZIP_END]) (u32 (t + 4))) =
    Some (hdr N t' c ++ (pre ++ enc rs) ++ z ++ [ZIP_END])) as ->.
  { unfold t'. destruct (_ =? _); [done|apply put_tail]. }
  zl_bind. rewrite Ht'. unfold memmove.
  set (P := hdr N (last_off (at_ pre) rs') c ++ pre).
  assert (zlen P = at_ pre) as HP by apply zlen_at.
  assert (zlen (enc rs) = 1 + zlen X) as HzX by (rewrite He, zlen_app; change (zlen [pl]) with 1; lia).
  replace (hdr N (last_off (at_ pre) rs') c ++ (pre ++ enc rs) ++ z ++ [ZIP_END]) with ((P ++ [pl]) ++ X ++ z ++ [ZIP_END])
    by (unfold P; rewrite He, <- !app_assoc; done).
  rewrite (load_app (P ++ [pl]) X).
  2: { rewrite zlen_app, HP. done. }
  2: { unfold size, at_. lia. }
  zl_bind. replace ((P ++ [pl]) ++ X ++ z ++ [ZIP_END]) with (P ++ ([pl] ++ X ++ z) ++ [ZIP_END]) by (rewrite <- !app_assoc; done).
  assert (zlen ([pl] ++ X ++ z) = zlen X + 5) as HT.
  { rewrite !zlen_app, Hz. unfold N, size. change (zlen [pl]) with 1. lia. }
  rewrite (store_mid P ([pl] ++ X ++ z) [ZIP_END] X _ 5) by lia. zl_bind.
  rewrite (write_prev P (take (Z.to_nat 5) ([pl] ++ X ++ z)) (X ++ [ZIP_END])).
  - zl_bind. destruct (Z.leb_spec ZIP_BIGLEN v); [|lia]. unfold block, P. rewrite He'.
    assert (N = size pre rs') as -> by (unfold N, size; lia). by rewrite <- !app_assoc.
  - done.
  - unfold prev_size. destruct (Z.ltb_spec v ZIP_BIGLEN); [lia|]. unfold zlen in *. rewrite length_take. lia.
Qed.

(** A field rewritten in its place. *)
Lemma field_split n t c pre w pl s B :
  block n t c pre ((w, pl, s) :: B) = (hdr n t c ++ pre) ++ enc_prev w pl ++ body s ++ enc B ++ [ZIP_END].
Proof. rewrite block_cons. unfold enc1. by rewrite <- !app_assoc. Qed.

Lemma rewrite_field n t c pre w pl s B v :
  psize w = prev_size v ->
  zipPrevEncodeLength (block n t c pre ((w, pl, s) :: B)) (at_ pre) v =
    Some (block n t c pre ((w, v, s) :: B), prev_size v).
Proof.
  intros Hw. rewrite !field_split, (write_prev (hdr n t c ++ pre)).
  - assert ((ZIP_BIGLEN <=? v) = w) as ->; [|done]. unfold prev_size in Hw.
    destruct w, (Z.ltb_spec v ZIP_BIGLEN), (Z.leb_spec ZIP_BIGLEN v); cbn in Hw; lia || done.
  - by rewrite zlen_at.
  - by rewrite zlen_enc_prev.
Qed.

Lemma rewrite_field_large n t c pre pl s B v :
  zipPrevEncodeLengthForceLarge (block n t c pre ((true, pl, s) :: B)) (at_ pre) v =
    Some (block n t c pre ((true, v, s) :: B)).
Proof. rewrite !field_split. apply write_prev_large; [by rewrite zlen_at|done]. Qed.

Lemma zlen_enc1_field w pl v s : zlen (enc1 (w, pl, s)) = zlen (enc1 (w, v, s)).
Proof. apply rsize_field. Qed.

Lemma size_field pre w pl v s B : size pre ((w, pl, s) :: B) = size pre ((w, v, s) :: B).
Proof. unfold size. by rewrite !encs_cons, !zlen_app, (zlen_enc1_field w pl v). Qed.

Lemma last_off_field off w pl v s B : last_off off ((w, pl, s) :: B) = last_off off ((w, v, s) :: B).
Proof. destruct B as [|b B]; [done|]. cbn [last_off]. by rewrite (rsize_field w pl v). Qed.

Lemma cascade_loop_ok junk c : forall B fuel pre r,
  raw_ok r -> Forall raw_ok B -> room pre (strs (r :: B)) -> (length B < fuel)%nat ->
  cascade_loop junk fuel (zl c pre (r :: B)) (at_ pre) (size pre (r :: B)) =
    Some (zl c pre (r :: fix_prev (rsize r) B)).
Proof.
  induction B as [|[[w pl] s] B IH]; intros fuel pre r Hr HB Hroom Hf; (destruct fuel as [|fuel]; [simpl in Hf; lia|]);
    cbn [cascade_loop].
  - destruct (block_entry (size pre [r]) (last_off (at_ pre) [r]) c pre r [] Hr) as ((b & Hb & Hne) & He & _).
    fold (zl c pre [r]) in Hb, He. rewrite Hb. zl_bind. destruct (Z.eqb_spec b ZIP_END); [done|]. rewrite He. zl_bind.
    rewrite entry_total by done. assert (rd (zl c pre [r]) (at_ pre + rsize r) = Some ZIP_END) as ->; [|done].
    unfold zl. assert ([r] = [r] ++ []) as -> by done. rewrite block_app.
    replace (at_ pre + rsize r) with (at_ (pre ++ enc [r])); [apply block_end|].
    rewrite at_app. unfold enc. cbn. by rewrite app_nil_r.
  - set (rs := r :: (w, pl, s) :: B) in *. inversion HB as [|? ? Hn HB']; subst.
    destruct (block_entry (size pre rs) (last_off (at_ pre) rs) c pre r ((w, pl, s) :: B) Hr) as ((b & Hb & Hne) & He & _).
    fold rs (zl c pre rs) in Hb, He. rewrite Hb. zl_bind. destruct (Z.eqb_spec b ZIP_END); [done|]. rewrite He. zl_bind.
    rewrite entry_total by done. set (pre' := pre ++ enc1 r).
    replace (at_ pre + rsize r) with (at_ pre') by apply at_app.
    assert (zl c pre rs = zl c pre' ((w, pl, s) :: B)) as Hrs by apply zl_step. rewrite Hrs.
    assert (size pre rs = size pre' ((w, pl, s) :: B)) as Hsize.
    { unfold rs, pre', size. rewrite !encs_cons, !zlen_app. lia. }
    destruct (block_entry (size pre' ((w, pl, s) :: B)) (last_off (at_ pre') ((w, pl, s) :: B)) c pre' (w, pl, s) B Hn)
      as ((b' & Hb' & Hne') & He' & _).
    fold (zl c pre' ((w, pl, s) :: B)) in Hb', He'.
    rewrite Hb'. zl_bind. destruct (Z.eqb_spec b' ZIP_END); [done|]. rewrite He'. zl_bind.
    cbn [entry_of prevrawlen prevrawlensize]. cbn [fix_prev].
    destruct (Z.eqb_spec pl (rsize r)) as [->|Hpl]; [by rewrite <- Hrs|].
    pose proof (room_rsize _ _ _ Hroom) as Hsz. pose proof (rsize_pos r) as Hpos.
    pose proof (room_step _ _ _ Hroom) as Hroom'. fold pre' in Hroom'.
    destruct (Z.ltb_spec (psize w) (prev_size (rsize r))) as [Hlt|Hge].
    + assert (w = false /\ ZIP_BIGLEN <= rsize r) as [-> Hbig].
      { unfold prev_size in Hlt. destruct w, (Z.ltb_spec (rsize r) ZIP_BIGLEN); cbn in Hlt; lia || done. }
      cbn [negb andb]. destruct (Z.leb_spec ZIP_BIGLEN (rsize r)); [|lia].
      assert (prev_size (rsize r) = 5) as -> by (unfold prev_size; destruct (Z.ltb_spec (rsize r) ZIP_BIGLEN); lia).
      change (5 - psize false) with 4. change (psize false) with 1. rewrite Hsize.
      destruct (grow_field junk c pre' pl s B (rsize r) Hroom') as [Hg4 Hg]; [lia|].
      revert Hg. destruct (ziplistResize junk _ _) as [m|]; [|done]. zl_bind.
      destruct (ZIPLIST_TAIL_OFFSET m) as [tl|]; [|done]. zl_bind.
      destruct (if tl =? at_ pre' then _ else _) as [m1|]; [|done]. zl_bind.
      destruct (memmove m1 _ _ _) as [m2|]; [|done]. zl_bind.
      destruct (zipPrevEncodeLength m2 _ _) as [[m3 k]|]; [|done]. zl_bind. intros [= ->].
      rewrite <- Hg4, IH.
      * unfold pre'. by rewrite <- zl_step.
      * split_and!; [lia|lia|done|]. by apply (room_rsize pre' _ B).
      * done.
      * done.
      * simpl in Hf. lia.
    + assert (negb w && (ZIP_BIGLEN <=? rsize r) = false) as ->.
      { unfold prev_size in Hge. destruct w; [done|]. cbn in *. destruct (Z.ltb_spec (rsize r) ZIP_BIGLEN); [|lia].
        destruct (Z.leb_spec ZIP_BIGLEN (rsize r)); [lia|done]. }
      rewrite zl_step. fold pre'. unfold zl.
      rewrite (size_field _ w (rsize r) pl), (last_off_field _ w (rsize r) pl).
      destruct (Z.ltb_spec (prev_size (rsize r)) (psize w)) as [Hlt|Hge'].
      * assert (w = true) as ->. { unfold prev_size in Hlt. destruct w, (_ <? _); cbn in Hlt; lia || done. }
        apply rewrite_field_large.
      * rewrite rewrite_field by lia. done.
Qed.

Lemma enc_long rs : 2 * zlen rs <= zlen (enc rs).
Proof.
  induction rs as [|r rs IH]; [done|]. rewrite encs_cons, zlen_app, zlen_cons. pose proof (rsize_pos r) as H. unfold rsize in H. lia.
Qed.

Lemma zl_bytes c pre rs : room pre (strs rs) -> ZIPLIST_BYTES (zl c pre rs) = Some (size pre rs).
Proof. intros Hr. pose proof (size_room _ _ Hr). apply get_bytes. unfold in_uint. lia. Qed.

Lemma last_off_bound pre rs : room pre (strs rs) -> 10 <= last_off (at_ pre) rs < 2 ^ 32.
Proof.
  intros Hr. pose proof (size_room _ _ Hr) as Hs. pose proof (last_off_range rs (at_ pre)).
  pose proof (zlen_nonneg pre). unfold size, at_ in *. lia.
Qed.

Lemma zl_tail c pre rs : room pre (strs rs) -> ZIPLIST_TAIL_OFFSET (zl c pre rs) = Some (last_off (at_ pre) rs).
Proof. intros Hr. pose proof (last_off_bound _ _ Hr). apply get_tail. unfold in_uint. lia. Qed.

Lemma zlen_zl c pre rs : zlen (zl c pre rs) = size pre rs.
Proof. apply zlen_block. Qed.

Lemma cascade_ok junk c pre r B :
  raw_ok r -> Forall raw_ok B -> room pre (strs (r :: B)) ->
  __ziplistCascadeUpdate junk (zl c pre (r :: B)) (at_ pre) = Some (zl c pre (r :: fix_prev (rsize r) B)).
Proof.
  intros Hr HB Hroom. unfold __ziplistCascadeUpdate. rewrite zl_bytes by done. zl_bind.
  apply cascade_loop_ok; try done. pose proof (zlen_zl c pre (r :: B)) as Hl. pose proof (zlen_nonneg pre).
  pose proof (enc_long (r :: B)). unfold size, zlen in *. simpl length in *. lia.
Qed.

(** ** The invariant *)

Definition count_ok (c : Z) (rs : list raw) : Prop := c = UINT16_MAX \/ (c = zlen rs /\ c < UINT16_MAX).

Record repr (m : list Z) (c : Z) (rs : list raw) : Prop := {
  rp_block : m = zl c [] rs;
  rp_linked : linked 0 rs;
  rp_ok : Forall raw_ok rs;
  rp_room : room [] (strs rs);
  rp_count : count_ok c rs;
}.

Lemma strs_app A B : strs (A ++ B) = strs A ++ strs B.
Proof. apply fmap_app. Qed.

Lemma room_split A B : room [] (strs (A ++ B)) -> room (enc A) (strs B).
Proof.
  unfold room. rewrite strs_app, cost_app. pose proof (enc_cost A). cbn [app]. rewrite zlen_nil. lia.
Qed.

Lemma enc_single r : enc [r] = enc1 r.
Proof. unfold enc. cbn. apply app_nil_r. Qed.

Lemma block_step n t c pre r B : block n t c pre (r :: B) = block n t c (pre ++ enc1 r) B.
Proof. change (r :: B) with ([r] ++ B). by rewrite block_app, enc_single. Qed.

Lemma zl_split c A r B : zl c [] (A ++ r :: B) = zl c (enc A) (r :: B).
Proof.
  unfold zl. rewrite size_app, last_off_app, block_app. reflexivity.
Qed.

Lemma linked_app pl A B : linked pl (A ++ B) <-> linked pl A /\ linked (last_size pl A) B.
Proof.
  revert pl. induction A as [|r A IH]; intros pl; cbn; [tauto|]. rewrite IH. tauto.
Qed.

Lemma fix_prev_id pl rs : linked pl rs -> fix_prev pl rs = rs.
Proof. destruct rs as [|[[w pl'] s] rs]; [done|]. intros [H _]. cbn in *. subst. by rewrite Z.eqb_refl. Qed.

Lemma last_size_off A : forall off pl, A <> [] -> last_off off A = off + zlen (enc A) - last_size pl A.
Proof.
  induction A as [|r A IH]; intros off pl Hne; [done|]. rewrite encs_cons, zlen_app. cbn [last_size].
  destruct A as [|r' A].
  { change (last_off off [r]) with off. change (last_size (rsize r) []) with (rsize r). change (zlen (enc [])) with 0.
    unfold rsize. lia. }
  rewrite last_off_cons, (IH _ (rsize r)) by done. unfold rsize. lia.
Qed.

(** *** Deletion *)

Lemma delete_skip_ok n t c num : forall B fuel pre deleted,
  Forall raw_ok B -> (length B < fuel)%nat -> 0 <= deleted <= num ->
  delete_skip fuel (block n t c pre B) (at_ pre) num deleted =
    let D := take (Z.to_nat (num - deleted)) B in Some (at_ (pre ++ enc D), deleted + zlen D).
Proof.
  induction B as [|r B IH]; intros fuel pre deleted HB Hf Hd; (destruct fuel as [|fuel]; [simpl in Hf; lia|]);
    cbn [delete_skip].
  - rewrite block_end. zl_bind. rewrite Z.eqb_refl. cbn [orb]. rewrite take_nil. cbv zeta.
    change (enc []) with (@nil Z). rewrite app_nil_r, zlen_nil. do 2 f_equal. lia.
  - inversion HB as [|? ? Hr HB']; subst.
    destruct (block_entry n t c pre r B Hr) as ((b & Hb & Hne) & _ & Hl & _). rewrite Hb. zl_bind.
    destruct (Z.eqb_spec b ZIP_END); [done|]. cbn [orb].
    destruct (Z.ltb_spec deleted num) as [Hlt|Hge]; cbn [negb].
    + rewrite Hl. zl_bind. rewrite block_step.
      replace (at_ pre + rsize r) with (at_ (pre ++ enc1 r)) by apply at_app.
      rewrite IH by (done || (simpl in Hf; lia) || lia). cbv zeta.
      replace (Z.to_nat (num - deleted)) with (S (Z.to_nat (num - (deleted + 1)))) by lia. cbn [take].
      rewrite encs_cons, app_assoc, zlen_cons. do 2 f_equal. lia.
    + replace (num - deleted) with 0 by lia. cbv zeta. change (take (Z.to_nat 0) (r :: B)) with (@nil raw).
      change (enc []) with (@nil Z). rewrite app_nil_r, zlen_nil. do 2 f_equal. lia.
Qed.

(** The entries behind deleted ones, when the length of the new previous entry is [pl]. *)
Definition relink (pl : Z) (B : list raw) : list raw :=
  match B with
  | [] => []
  | (w, _, s) :: B => let r := (ZIP_BIGLEN <=? pl, pl, s) in r :: fix_prev (rsize r) B
  end.

Lemma psize_prev pl : psize (ZIP_BIGLEN <=? pl) = prev_size pl.
Proof. unfold prev_size. destruct (Z.leb_spec ZIP_BIGLEN pl), (Z.ltb_spec pl ZIP_BIGLEN); done || lia. Qed.

Lemma prev_size_pos pl : 1 <= prev_size pl <= 5.
Proof. rewrite <- psize_prev. apply psize_pos. Qed.

Lemma cost_strs_app A B : cost (strs (A ++ B)) = cost (strs A) + cost (strs B) - 11.
Proof. by rewrite strs_app, cost_app. Qed.

Lemma room_tail pre D w pl' s B w' pl : room pre (strs (D ++ (w, pl', s) :: B)) -> room pre (strs ((w', pl, s) :: B)).
Proof. unfold room. rewrite cost_strs_app, !cost_cons. pose proof (cost_ge (strs D)). lia. Qed.

Lemma relink_size pl pl' w s : prev_size pl = psize w -> rsize (w, pl', s) = rsize (ZIP_BIGLEN <=? pl, pl, s).
Proof. intros H. rewrite !rsize_split, psize_prev. lia. Qed.

Lemma relink_head_ok pre D w pl' s B pl : 0 <= pl < 2 ^ 32 -> room pre (strs (D ++ (w, pl', s) :: B)) ->
  raw_ok (ZIP_BIGLEN <=? pl, pl, s).
Proof.
  intros Hpl Hroom. apply (room_tail _ _ _ _ _ _ (ZIP_BIGLEN <=? pl) pl), room_rsize in Hroom.
  split_and!; [lia|lia| |done]. intros Hw. by apply Z.leb_gt in Hw.
Qed.

Lemma delete_join_ok c A D w pl' s B pl d0 :
  0 <= pl < 2 ^ 32 -> prev_size pl <= zlen (enc D) + psize w ->
  room (enc A) (strs (D ++ (w, pl', s) :: B)) -> raw_ok (w, pl', s) -> Forall raw_ok B ->
  ep d0 = at_ (enc A) -> prevrawlen d0 = pl ->
  let m := zl c (enc A) (D ++ (w, pl', s) :: B) in
  let r := (ZIP_BIGLEN <=? pl, pl, s) in
  exists y, delete_join m d0 (at_ (enc A ++ enc D)) (zlen (enc D)) =
    Some (hdr (size (enc A) (D ++ (w, pl', s) :: B)) (last_off (at_ (enc A)) (r :: B)) c ++ (enc A ++ enc (r :: B)) ++ y, prev_size pl - psize w) /\
    zlen y = zlen (enc D) - (prev_size pl - psize w) + 1 /\ 1 <= zlen y.
Proof.
  intros Hpl Hps Hroom Hr HB Hep Hd0 m r.
  assert (psize r.1.1 = prev_size pl) as Hw by apply psize_prev.
  assert (rsize r = rsize (w, pl', s) + (prev_size pl - psize w)) as Hrs.
  { unfold r. rewrite !rsize_split, psize_prev. lia. }
  pose proof (size_room _ _ Hroom) as Hsz. pose proof (zlen_nonneg (enc A)) as HA. pose proof (zlen_nonneg (enc D)) as HD.
  pose proof (zlen_nonneg (enc B)) as HBz.
  assert (size (enc A) (D ++ (w, pl', s) :: B) = 11 + zlen (enc A) + zlen (enc D) + rsize (w, pl', s) + zlen (enc B)) as Hsize.
  { unfold size. rewrite encs_app, encs_cons, !zlen_app. unfold rsize. lia. }
  assert (raw_ok r) as Hrok by (by eapply relink_head_ok).
  set (t := last_off (at_ (enc A)) (D ++ (w, pl', s) :: B)).
  assert (t = last_off (at_ (enc A) + zlen (enc D)) ((w, pl', s) :: B)) as Ht by apply last_off_app.
  pose proof (last_off_range ((w, pl', s) :: B) (at_ (enc A) + zlen (enc D))) as Htr. rewrite <- Ht in Htr.
  rewrite encs_cons, zlen_app in Htr. change (zlen (enc1 (w, pl', s))) with (rsize (w, pl', s)) in Htr.
  unfold m, zl. fold t. set (n := size (enc A) (D ++ (w, pl', s) :: B)) in *.
  rewrite block_app. unfold delete_join.
  destruct (block_entry n t c (enc A ++ enc D) (w, pl', s) B Hr) as ((b & Hb & Hne) & _ & _ & Hps' & _).
  rewrite Hb. zl_bind. destruct (Z.eqb_spec b ZIP_END); [done|]. cbn [negb].
  unfold zipPrevLenByteDiff. rewrite Hps', Hd0. zl_bind. cbn [fst]. set (nd := prev_size pl - psize w) in *.
  (* the bytes that the field is written over *)
  set (T := enc D ++ enc_prev w pl').
  assert (zlen T = zlen (enc D) + psize w) as HT by (unfold T; by rewrite zlen_app, zlen_enc_prev).
  pose proof (prev_size_pos pl) as Hpp.
  assert (exists k, k = zlen T - prev_size pl) as [k Hk] by eauto. assert (0 <= k) as Hk0 by lia.
  set (G := take (Z.to_nat k) T). set (blk := drop (Z.to_nat k) T).
  assert (zlen G = k) as HG by (unfold G, zlen in *; rewrite length_take; lia).
  assert (zlen blk = prev_size pl) as Hblk by (unfold blk, zlen in *; rewrite length_drop; lia).
  assert (block n t c (enc A ++ enc D) ((w, pl', s) :: B) = (hdr n t c ++ enc A ++ G) ++ blk ++ body s ++ enc B ++ [ZIP_END]) as ->.
  { rewrite field_split. assert (enc D ++ enc_prev w pl' = G ++ blk) as E by (unfold G, blk; by rewrite take_drop).
    rewrite <- !app_assoc. f_equal. f_equal. rewrite (app_assoc (enc D)), E. by rewrite <- !app_assoc. }
  assert (at_ (enc A ++ enc D) - nd = at_ (enc A ++ G)) as -> by (rewrite !at_app; unfold nd; lia).
  rewrite write_prev by (done || by rewrite (zlen_at n t c (enc A ++ G))). zl_bind.
  assert ((hdr n t c ++ enc A ++ G) ++ enc_prev (ZIP_BIGLEN <=? pl) pl ++ body s ++ enc B ++ [ZIP_END] =
    block n t c (enc A ++ G) (r :: B)) as -> by (unfold r; by rewrite field_split).
  assert (in_uint 32 t) as Ht32 by (unfold in_uint, at_ in *; lia).
  rewrite block_tail by done. zl_bind. rewrite block_set_tail. zl_bind.
  rewrite zl_u32_id by (unfold at_ in *; lia). set (t1 := t - zlen (enc D)) in *.
  fold (block n t1 c (enc A ++ G) (r :: B)).
  destruct (block_entry n t1 c (enc A ++ G) r B Hrok) as (_ & He & _). rewrite He. zl_bind.
  rewrite entry_total by done.
  assert (in_uint 32 t1) as Ht132 by (unfold in_uint, t1, at_ in *; lia).
  assert (rd (block n t1 c (enc A ++ G) (r :: B)) (at_ (enc A ++ G) + rsize r) =
    match B with [] => Some ZIP_END | _ :: _ => rd (block n t1 c (enc A ++ G) (r :: B)) (at_ (enc A ++ G) + rsize r) end /\
    (B <> [] -> exists b, rd (block n t1 c (enc A ++ G) (r :: B)) (at_ (enc A ++ G) + rsize r) = Some b /\ b <> ZIP_END)) as [Hend Hnend].
  { assert (at_ (enc A ++ G) + rsize r = at_ ((enc A ++ G) ++ enc1 r)) as -> by (by rewrite (at_app (enc A ++ G))).
    rewrite block_step. split.
    - destruct B; [apply block_end|done].
    - destruct B as [|r2 B]; [done|]. intros _. inversion HB as [|? ? Hr2 _]; subst. apply (block_entry n t1 c _ r2 B Hr2). }
  set (M1 := block n t1 c (enc A ++ G) (r :: B)) in *.
  assert ((c0 ← rd M1 (at_ (enc A ++ G) + rsize r);
    (if negb (c0 =? ZIP_END) then (t ← ZIPLIST_TAIL_OFFSET M1; set_tail M1 (u32 (t + nd))) else Some M1)) =
    Some (block n (last_off (at_ (enc A)) (r :: B)) c (enc A ++ G) (r :: B))) as Htail.
  { pose proof (last_off_range (r :: B) (at_ (enc A))) as Hlr.
    rewrite encs_cons, zlen_app in Hlr. change (zlen (enc1 r)) with (rsize r) in Hlr.
    assert (t = last_off (at_ (enc A)) (r :: B) + zlen (enc D) - match B with [] => 0 | _ => nd end) as Htl.
    { rewrite Ht. destruct B as [|r2 B]; [cbn; lia|]. rewrite !(last_off_cons _ _ (r2 :: B)) by done.
      replace (at_ (enc A) + zlen (enc D) + rsize (w, pl', s)) with (at_ (enc A) + rsize r + (zlen (enc D) - nd)) by lia.
      rewrite last_off_shift. lia. }
    destruct B as [|r2 B].
    - rewrite Hend. zl_bind. rewrite Z.eqb_refl. cbn [negb]. unfold M1. do 2 f_equal. unfold t1. lia.
    - destruct Hnend as (b2 & -> & Hb2); [done|]. zl_bind. destruct (Z.eqb_spec b2 ZIP_END); [done|]. cbn [negb].
      unfold M1. rewrite block_tail by done. zl_bind. rewrite block_set_tail.
      rewrite zl_u32_id by (unfold t1, at_ in *; lia).
      replace (t1 + nd) with (last_off (at_ (enc A)) (r :: r2 :: B)) by lia. done. }
  set (t2 := last_off (at_ (enc A)) (r :: B)) in *.
  revert Htail. destruct (rd M1 (at_ (enc A ++ G) + rsize r)) as [b3|]; [|done]. zl_bind. intros ->. zl_bind.
  rewrite block_bytes by (unfold in_uint; lia). zl_bind. rewrite Hep.
  set (X := enc (r :: B)).
  assert (zlen X = rsize r + zlen (enc B)) as HX by (unfold X; by rewrite encs_cons, zlen_app).
  unfold memmove, block. fold X.
  replace (hdr n t2 c ++ (enc A ++ G) ++ X ++ [ZIP_END]) with ((hdr n t2 c ++ enc A ++ G) ++ X ++ [ZIP_END])
    by (by rewrite <- !app_assoc).
  rewrite (load_app (hdr n t2 c ++ enc A ++ G) X [ZIP_END]).
  2: { by rewrite (zlen_at n t2 c (enc A ++ G)). }
  2: { rewrite at_app. unfold at_. lia. }
  zl_bind. replace ((hdr n t2 c ++ enc A ++ G) ++ X ++ [ZIP_END]) with ((hdr n t2 c ++ enc A) ++ (G ++ X) ++ [ZIP_END])
    by (by rewrite <- !app_assoc).
  exists (drop (length X) (G ++ X) ++ [ZIP_END]).
  assert (zlen (drop (length X) (G ++ X) ++ [ZIP_END]) = k + 1) as Hy.
  { rewrite zlen_app. change (zlen [ZIP_END]) with 1. unfold zlen in *. rewrite length_drop, length_app. lia. }
  split; [|rewrite Hy; split; lia].
  rewrite (store_over (hdr n t2 c ++ enc A) X (G ++ X) [ZIP_END]).
  - zl_bind. by rewrite <- !app_assoc.
  - by rewrite zlen_at.
  - rewrite zlen_app. lia.
Qed.


(** ** The length in the header *)

Definition incr (c k : Z) : Z := if c <? UINT16_MAX then c + k else c.

Lemma incr_length n t c pre rs k : 0 <= c <= UINT16_MAX ->
  ZIPLIST_INCR_LENGTH (block n t c pre rs) k = Some (block n t (incr c k) pre rs).
Proof.
  intros Hc. unfold ZIPLIST_INCR_LENGTH, incr, block. rewrite get_length by (unfold in_uint, UINT16_MAX in *; lia). zl_bind.
  destruct (_ <? _); [apply put_length|done].
Qed.

Lemma count_range c rs : count_ok c rs -> 0 <= c <= UINT16_MAX.
Proof. unfold count_ok, UINT16_MAX. pose proof (zlen_nonneg rs). lia. Qed.

Lemma count_incr c rs rs' k : count_ok c rs -> zlen rs' = zlen rs + k -> k <= 1 -> count_ok (incr c k) rs'.
Proof.
  unfold count_ok, incr, UINT16_MAX. intros Hc Hl Hk. destruct (Z.ltb_spec c 65535); lia.
Qed.

Lemma relink_linked pl x B : linked x B -> linked pl (relink pl B).
Proof.
  destruct B as [|[[w pl'] s] B]; [done|]. intros [_ Hl]. split; [done|].
  apply fix_prev_linked. destruct B; [done|]. by destruct Hl.
Qed.

Lemma relink_strs pl B : strs (relink pl B) = strs B.
Proof. destruct B as [|[[w pl'] s] B]; [done|]. unfold strs in *. cbn. f_equal. apply fix_prev_strs. Qed.

Lemma relink_ok pl B : 0 <= pl < 2 ^ 32 -> cost (strs B) < 2 ^ 32 -> Forall raw_ok B -> Forall raw_ok (relink pl B).
Proof.
  destruct B as [|[[w pl'] s] B]; [done|]. intros Hpl Hc HB. inversion HB as [|? ? _ HB']; subst.
  rewrite cost_cons in Hc. pose proof (cost_ge (strs B)). pose proof (zlen_nonneg s). cbn [relink].
  pose proof (rsize_le (ZIP_BIGLEN <=? pl) pl s). pose proof (rsize_pos (ZIP_BIGLEN <=? pl, pl, s)).
  constructor.
  - split_and!; [lia|lia| |lia]. intros Hw. by apply Z.leb_gt in Hw.
  - apply fix_prev_ok; [lia|lia|done].
Qed.

Lemma last_size_range pl A : 0 <= pl < 2 ^ 32 -> Forall raw_ok A -> 0 <= last_size pl A < 2 ^ 32.
Proof.
  revert pl. induction A as [|r A IH]; intros pl Hpl HA; [done|]. inversion HA as [|? ? Hr HA']; subst.
  apply IH; [|done]. pose proof (rsize_pos r). destruct r as [[w pl'] s]. destruct Hr as (_ & _ & Hr). lia.
Qed.

(** Entries [D] are taken out and what follows is linked to what precedes. *)
Lemma repr_delete m c A D B : repr m c (A ++ D ++ B) ->
  let rs := A ++ relink (last_size 0 A) B in
  repr (zl (incr c (- zlen D)) [] rs) (incr c (- zlen D)) rs.
Proof.
  intros [-> Hl Hok Hroom Hc] rs. apply linked_app in Hl as [HlA Hl]. apply linked_app in Hl as [_ HlB].
  apply Forall_app in Hok as [HA Hok]. apply Forall_app in Hok as [_ HB].
  unfold room in *. rewrite zlen_nil, !cost_strs_app in Hroom.
  pose proof (cost_ge (strs A)). pose proof (cost_ge (strs D)).
  pose proof (last_size_range 0 A ltac:(lia) HA) as Hpl. split; [done|..].
  - apply linked_app. split; [done|]. by eapply relink_linked.
  - apply Forall_app. split; [done|]. apply relink_ok; [done|lia|done].
  - unfold room, rs. rewrite zlen_nil, cost_strs_app, relink_strs. lia.
  - eapply count_incr; [done| |pose proof (zlen_nonneg D); lia]. unfold rs. rewrite !zlen_app.
    assert (zlen (relink (last_size 0 A) B) = zlen B) as ->; [|lia].
    pose proof (relink_strs (last_size 0 A) B) as E. apply (f_equal length) in E. unfold strs in E.
    rewrite !length_fmap in E. unfold zlen. lia.
Qed.

(** The block after the entries are joined: it is cut, its length updated, and the cascade runs
    when the first field behind the deleted entries changed its size. *)
Lemma delete_cut junk c A r B y n nd deleted :
  raw_ok r -> Forall raw_ok B -> room (enc A) (strs (r :: B)) -> 0 <= c <= UINT16_MAX -> 1 <= zlen y ->
  in_uint 32 n -> forall totlen, n - totlen + nd = size (enc A) (r :: B) -> (nd = 0 -> linked (rsize r) B) ->
  let m := hdr n (last_off (at_ (enc A)) (r :: B)) c ++ (enc A ++ enc (r :: B)) ++ y in
  (n ← ZIPLIST_BYTES m;
   m ← ziplistResize junk m (u32 (n - totlen + nd));
   m ← ZIPLIST_INCR_LENGTH m (- deleted);
   if negb (nd =? 0) then __ziplistCascadeUpdate junk m (at_ (enc A)) else Some m) =
  Some (zl (incr c (- deleted)) [] (A ++ r :: fix_prev (rsize r) B)).
Proof.
  intros Hr HB Hroom Hc Hy Hn totlen Hs Hnd m. pose proof (size_room _ _ Hroom) as Hsz. unfold m.
  rewrite get_bytes by done. zl_bind. rewrite Hs, zl_u32_id by lia.
  rewrite (zl_shrink junk n _ c (enc A ++ enc (r :: B)) y) by (rewrite ?zlen_app; unfold size; lia). zl_bind.
  rewrite <- (app_assoc (enc A)). change (hdr ?a ?b ?c ++ enc A ++ enc (r :: B) ++ [ZIP_END]) with (block a b c (enc A) (r :: B)).
  rewrite incr_length by done. zl_bind. fold (zl (incr c (- deleted)) (enc A) (r :: B)). rewrite zl_split.
  destruct (Z.eqb_spec nd 0) as [->|Hne]; cbn [negb].
  - by rewrite fix_prev_id by auto.
  - by apply cascade_ok.
Qed.

(** The last entries are deleted. *)
Lemma delete_end c A D pl d0 :
  let n := size (enc A) D in let t := last_off (at_ (enc A)) D in
  ep d0 = at_ (enc A) -> prevrawlen d0 = pl ->
  delete_join (block n t c (enc A) D) d0 (at_ (enc A ++ enc D)) (zlen (enc D)) =
    Some (block n (u32 (at_ (enc A) - pl)) c (enc A) D, 0).
Proof.
  intros n t Hep Hpl. unfold delete_join.
  assert (rd (block n t c (enc A) D) (at_ (enc A ++ enc D)) = Some ZIP_END) as ->.
  { rewrite <- (app_nil_r D) at 1. rewrite block_app. apply block_end. }
  zl_bind. rewrite Z.eqb_refl. cbn [negb]. by rewrite block_set_tail, Hep, Hpl.
Qed.

Lemma delete_cut_end junk c A D :
  room (enc A) (strs D) -> 0 <= c <= UINT16_MAX -> 2 <= zlen (enc D) ->
  forall deleted, let m := block (size (enc A) D) (u32 (at_ (enc A) - last_size 0 A)) c (enc A) D in
  (n ← ZIPLIST_BYTES m;
   m ← ziplistResize junk m (u32 (n - zlen (enc D) + 0));
   m ← ZIPLIST_INCR_LENGTH m (- deleted);
   if negb (0 =? 0) then __ziplistCascadeUpdate junk m (at_ (enc A)) else Some m) = Some (zl (incr c (- deleted)) [] A).
Proof.
  intros Hroom Hc HD deleted m. pose proof (size_room _ _ Hroom) as Hsz. pose proof (zlen_nonneg (enc A)).
  unfold m. rewrite block_bytes by (unfold in_uint; lia). zl_bind.
  assert (size (enc A) D - zlen (enc D) + 0 = size [] A) as -> by (unfold size; change (zlen (@nil Z)) with 0; lia).
  rewrite (zl_u32_id (size [] A)) by (unfold size in *; change (zlen (@nil Z)) with 0; lia).
  unfold block at 1. rewrite (zl_shrink junk _ _ c (enc A) (enc D ++ [ZIP_END])).
  2: { unfold size. change (zlen (@nil Z)) with 0. lia. }
  2: { rewrite zlen_app. change (zlen [ZIP_END]) with 1. lia. }
  zl_bind. change (hdr ?n ?t ?c ++ enc A ++ [ZIP_END]) with (block n t c [] A).
  rewrite incr_length by done. zl_bind. unfold zl. f_equal. change (block (size [] A) ?t ?c (enc A) []) with (block (size [] A) t c [] A). f_equal.
  destruct A as [|r A']; [done|]. set (A := r :: A') in *.
  rewrite (last_size_off A (at_ []) 0) by done. unfold at_ in *. change (zlen (@nil Z)) with 0.
  pose proof (last_off_range A 10) as Ho. rewrite (last_size_off A 10 0) in Ho by done. unfold size in *.
  rewrite zl_u32_id by lia. lia.
Qed.

Lemma delete_spec junk m c A D B num :
  repr m c (A ++ D ++ B) -> D <> [] -> D = take (Z.to_nat num) (D ++ B) -> 0 <= num ->
  __ziplistDelete junk m (at_ (enc A)) num =
    Some (zl (incr c (- zlen D)) [] (A ++ relink (last_size 0 A) B)).
Proof.
  intros Hrep HD Htake Hnum. pose proof (repr_delete m c A D B Hrep) as Hrep'. cbv zeta in Hrep'.
  destruct Hrep as [-> Hl Hok Hroom Hc]. apply linked_app in Hl as [HlA Hl].
  set (pl := last_size 0 A) in *. destruct D as [|r0 D0]; [done|]. set (D := r0 :: D0) in *.
  assert (r0.1.2 = pl) as Hr0 by apply Hl. apply linked_app in Hl as [_ HlB].
  apply Forall_app in Hok as [HA Hok]. pose proof (last_size_range 0 A ltac:(lia) HA) as Hpl. fold pl in Hpl.
  pose proof (proj1 (Forall_app _ _ _) Hok) as [HDok HB]. inversion HDok as [|? ? Hr0ok _]; subst.
  apply room_split in Hroom. pose proof (size_room _ _ Hroom) as Hsz. pose proof (count_range _ _ Hc) as Hcr.
  assert (zl c [] (A ++ D ++ B) = zl c (enc A) (D ++ B)) as -> by apply zl_split.
  unfold __ziplistDelete. pose proof (block_entry (size (enc A) (D ++ B)) (last_off (at_ (enc A)) (D ++ B)) c (enc A) r0 (D0 ++ B) Hr0ok)
    as (_ & He & _). change (r0 :: D0 ++ B) with (D ++ B) in He. unfold zl. rewrite He. zl_bind.
  rewrite (delete_skip_ok _ _ _ num (D ++ B)); [|done| |lia].
  2: { pose proof (zlen_block (size (enc A) (D ++ B)) (last_off (at_ (enc A)) (D ++ B)) c (enc A) (D ++ B)) as E.
       pose proof (enc_long (D ++ B)). pose proof (zlen_nonneg (enc A)). unfold size, zlen in *. lia. }
  cbv zeta. rewrite Z.sub_0_r, <- Htake. zl_bind. rewrite Z.add_0_l.
  assert (2 <= zlen (enc D)) as HzD.
  { unfold D. rewrite encs_cons, zlen_app. pose proof (rsize_pos r0) as H. unfold rsize in H. pose proof (zlen_nonneg (enc D0)). lia. }
  assert (size (enc A) (D ++ B) = 11 + zlen (enc A) + zlen (enc D) + zlen (enc B)) as Hsize.
  { unfold size. rewrite encs_app, zlen_app. lia. }
  pose proof (zlen_nonneg (enc A)). pose proof (zlen_nonneg (enc B)).
  replace (u32 (at_ (enc A ++ enc D) - ep (entry_of (at_ (enc A)) r0))) with (zlen (enc D)).
  2: { destruct r0 as [[w0 p0] s0]. cbn [entry_of ep]. rewrite at_app. symmetry. replace (at_ (enc A) + zlen (enc D) - at_ (enc A)) with (zlen (enc D)) by lia. apply zl_u32_id. lia. }
  destruct (Z.ltb_spec 0 (zlen (enc D))); [|lia].
  assert (ep (entry_of (at_ (enc A)) r0) = at_ (enc A)) as Hep by (by destruct r0 as [[? ?] ?]).
  assert (prevrawlen (entry_of (at_ (enc A)) r0) = pl) as Hprev by (by destruct r0 as [[? ?] ?]).
  destruct B as [|[[w pl'] s] B].
  - rewrite app_nil_r in *. rewrite (delete_end c A D pl) by done. zl_bind.
    pose proof (delete_cut_end junk c A D Hroom Hcr HzD (zlen D)) as Hcut. cbv zeta in Hcut. fold pl in Hcut.
    change (relink pl []) with (@nil raw). rewrite app_nil_r. exact Hcut.
  - assert (prev_size pl <= zlen (enc D) + psize w) as Hps.
    { pose proof (psize_pos w). unfold prev_size. destruct (Z.ltb_spec pl ZIP_BIGLEN); [lia|].
      unfold D. rewrite encs_cons, zlen_app. change (zlen (enc1 r0)) with (rsize r0). pose proof (zlen_nonneg (enc D0)).
      destruct r0 as [[[] p0] s0]; rewrite rsize_split.
      - pose proof (bhdr_pos s0). pose proof (zlen_nonneg (bpay s0)). cbn [psize]. lia.
      - destruct Hr0ok as (_ & Hw & _). specialize (Hw eq_refl). cbn in Hr0. lia. }
    inversion HB as [|? ? Hr HB']; subst.
    destruct (delete_join_ok c A D w pl' s B pl (entry_of (at_ (enc A)) r0)) as (y & Hj & Hy & Hy1); try done.
    fold (zl c (enc A) (D ++ (w, pl', s) :: B)). rewrite Hj. zl_bind. rewrite Hep.
    apply (delete_cut junk c A (ZIP_BIGLEN <=? pl, pl, s) B y _ (prev_size pl - psize w)); try done.
    + by eapply relink_head_ok.
    + by eapply room_tail.
    + unfold in_uint. lia.
    + rewrite Hsize. unfold size. rewrite !encs_cons, !zlen_app. change (zlen (enc1 ?r)) with (rsize r).
      rewrite !rsize_split, psize_prev. lia.
    + intros Hnd. destruct HlB as [_ HlB]. by rewrite <- (relink_size pl pl' w s) by lia.
Qed.

(** *** Insertion *)

Definition entry (pl : Z) (s : list Z) : raw := (ZIP_BIGLEN <=? pl, pl, s).

(** The block would get smaller although an entry is inserted: the next entry loses more bytes
    than the new entry takes. *)
Definition hazard (pl : Z) (s : list Z) (B : list raw) : bool :=
  match B with
  | [] => false
  | (w, _, _) :: _ => rsize (entry pl s) + (prev_size (rsize (entry pl s)) - psize w) <? 0
  end.

Lemma repr_insert m c A B s : repr m c (A ++ B) -> cost (strs (A ++ B)) + (14 + zlen s) < 2 ^ 32 ->
  let r := entry (last_size 0 A) s in
  let rs := A ++ r :: relink (rsize r) B in
  repr (zl (incr c 1) [] rs) (incr c 1) rs.
Proof.
  intros [-> Hl Hok Hroom Hc] Hs r rs. apply linked_app in Hl as [HlA HlB]. apply Forall_app in Hok as [HA HB].
  rewrite cost_strs_app in Hs. pose proof (cost_ge (strs A)). pose proof (cost_ge (strs B)). pose proof (zlen_nonneg s).
  pose proof (last_size_range 0 A ltac:(lia) HA) as Hpl.
  pose proof (rsize_pos r). assert (rsize r <= 14 + zlen s) as Hrs by apply rsize_le.
  split; [done|..].
  - apply linked_app. split; [done|]. split; [done|]. by eapply relink_linked.
  - apply Forall_app. split; [done|]. constructor; [|by apply relink_ok; [lia|lia|]].
    split_and!; [lia|lia| |lia]. intros Hw. by apply Z.leb_gt in Hw.
  - unfold room, rs, r, entry. change (zlen (@nil Z)) with 0. rewrite cost_strs_app, cost_cons, relink_strs. lia.
  - eapply count_incr; [done| |done]. unfold rs. rewrite !zlen_app, zlen_cons.
    assert (zlen (relink (rsize r) B) = zlen B) as ->; [|lia].
    pose proof (relink_strs (rsize r) B) as E. apply (f_equal length) in E. unfold strs in E.
    rewrite !length_fmap in E. unfold zlen. lia.
Qed.

(** The length of the previous entry. *)
Lemma insert_prevlen_ok m c A B : repr m c (A ++ B) -> insert_prevlen m (at_ (enc A)) = Some (last_size 0 A).
Proof.
  intros [-> Hl Hok Hroom Hc]. apply linked_app in Hl as [HlA HlB]. apply Forall_app in Hok as [HA HB].
  unfold insert_prevlen. destruct B as [|r B].
  - rewrite app_nil_r in *. assert (rd (zl c [] A) (at_ (enc A)) = Some ZIP_END) as ->.
    { unfold zl. rewrite <- (app_nil_r A) at 3. rewrite block_app. apply block_end. }
    zl_bind. rewrite Z.eqb_refl. cbn [negb]. unfold ZIPLIST_ENTRY_TAIL. rewrite zl_tail by done. zl_bind.
    destruct (decide (A = [])) as [->|Hne].
    + reflexivity.
    + destruct (exists_last Hne) as (A' & r & ->). apply Forall_app in HA as [_ HA]. inversion HA as [|? ? Hr _]; subst.
      rewrite last_off_app. cbn [last_off]. change (at_ [] + zlen (enc A')) with (at_ (enc A')).
      rewrite (zl_split c A' r []). unfold zl.
      destruct (block_entry (size (enc A') [r]) (last_off (at_ (enc A')) [r]) c (enc A') r [] Hr) as ((b & -> & Hb) & _ & Hlen & _).
      zl_bind. destruct (Z.eqb_spec b ZIP_END); [done|]. cbn [negb]. rewrite Hlen. f_equal.
      clear. revert A'. assert (forall A' p, last_size p (A' ++ [r]) = rsize r) as H; [|intros; by rewrite H].
      intros A'. induction A' as [|a A' IH]; intros p; [done|]. apply IH.
  - inversion HB as [|? ? Hr _]; subst. rewrite zl_split. unfold zl.
    destruct (block_entry (size (enc A) (r :: B)) (last_off (at_ (enc A)) (r :: B)) c (enc A) r B Hr) as ((b & -> & Hb) & He & _).
    zl_bind. destruct (Z.eqb_spec b ZIP_END); [done|]. cbn [negb]. rewrite He. zl_bind. destruct HlB as [HlB _].
    destruct r as [[w pl] s]. cbn in *. by subst.
Qed.

(** What is written for a string. *)
Definition enc_of (s : list Z) : Z * Z :=
  match zipTryEncoding s with Some (v, e) => (v, e) | None => (123456789, 0) end.

Lemma enc_of_bytes s : zipEncodeLength_bytes (enc_of s).2 (zlen s) = bhdr s.
Proof.
  unfold enc_of, bhdr. destruct (zipTryEncoding s) as [[v e]|] eqn:E; [|done]. cbn [snd].
  unfold zipEncodeLength_bytes. by destruct (int_enc_size _ _ _ (bpay_int s v e E)) as (_ & _ & ->).
Qed.

Lemma insert_reqlen_ok s pl : insert_reqlen s pl = (rsize (entry pl s), (enc_of s).1, (enc_of s).2).
Proof.
  unfold insert_reqlen, entry. rewrite rsize_split, psize_prev, <- enc_of_bytes. unfold enc_of, bpay.
  destruct (zipTryEncoding s) as [[v e]|] eqn:E; cbn [fst snd].
  - destruct (zipTryEncoding_spec s v e E) as (_ & _ & _ & bs & -> & Hi). apply int_enc_size in Hi as (Hz & _).
    rewrite <- Hz. do 2 f_equal. cbn [default from_option id]. lia.
  - do 2 f_equal. lia.
Qed.

Lemma store_payload P G Q p s : p = zlen P -> length G = length (bpay s) ->
  (if ZIP_IS_STR (enc_of s).2 then store (P ++ G ++ Q) p s else zipSaveInteger (P ++ G ++ Q) p (enc_of s).1 (enc_of s).2) =
  Some (P ++ bpay s ++ Q).
Proof.
  intros -> HG. unfold enc_of. destruct (zipTryEncoding s) as [[v e]|] eqn:E; cbn [fst snd].
  - pose proof (bpay_int s v e E) as Hi. destruct (int_enc_size _ _ _ Hi) as (_ & _ & ->).
    destruct (zipTryEncoding_spec s v e E) as (_ & _ & _ & bs & Hb & _).
    assert (bpay s = bs) as Hbs by (unfold bpay; by rewrite E, Hb).
    unfold zipSaveInteger. rewrite Hb. zl_bind. rewrite Hbs in *. by apply store_app.
  - change (ZIP_IS_STR 0) with true. cbv iota. assert (bpay s = s) as Hbs by (unfold bpay; by rewrite E).
    rewrite Hbs in *. by apply store_app.
Qed.

(** The entry is written over a region of its size. *)
Lemma insert_write_ok n t c pre G B pl s :
  zlen G = rsize (entry pl s) ->
  insert_write (block n t c (pre ++ G) B) (at_ pre) pl (enc_of s).1 (enc_of s).2 s =
    Some (block n t c (pre ++ enc1 (entry pl s)) B).
Proof.
  intros HG. unfold entry in HG. rewrite rsize_split, psize_prev in HG.
  set (k1 := Z.to_nat (prev_size pl)) in *. set (k2 := length (bhdr s)) in *.
  pose proof (prev_size_pos pl). pose proof (zlen_nonneg (bpay s)). pose proof (bhdr_pos s).
  assert (exists g1 g2 g3, G = g1 ++ g2 ++ g3 /\ zlen g1 = prev_size pl /\ length g2 = length (bhdr s) /\ length g3 = length (bpay s))
    as (g1 & g2 & g3 & -> & Hg1 & Hg2 & Hg3).
  { exists (take k1 G), (take k2 (drop k1 G)), (drop k2 (drop k1 G)). rewrite !take_drop.
    unfold zlen, k1, k2 in *. rewrite !length_take, !length_drop. split_and!; try done; lia. }
  unfold insert_write, block. set (Q := enc B ++ [ZIP_END]).
  replace (hdr n t c ++ (pre ++ g1 ++ g2 ++ g3) ++ Q) with ((hdr n t c ++ pre) ++ g1 ++ g2 ++ g3 ++ Q)
    by (by rewrite <- !app_assoc).
  rewrite (write_prev (hdr n t c ++ pre) g1) by (by rewrite ?zlen_at). zl_bind.
  set (ep := enc_prev (ZIP_BIGLEN <=? pl) pl).
  assert (zlen ep = prev_size pl) as Hep by (unfold ep; by rewrite zlen_enc_prev, psize_prev).
  unfold zipEncodeLength. rewrite enc_of_bytes.
  rewrite (app_assoc (hdr n t c ++ pre) ep), (store_app ((hdr n t c ++ pre) ++ ep) g2).
  2: { rewrite zlen_app, zlen_at. lia. } 2: done.
  zl_bind. rewrite (app_assoc _ (bhdr s)), (store_payload (((hdr n t c ++ pre) ++ ep) ++ bhdr s) g3).
  - f_equal. unfold enc1, entry, body, ep. by rewrite <- !app_assoc.
  - rewrite !zlen_app, zlen_hdr. unfold at_. lia.
  - done.
Qed.

(** The bytes that are moved: the field that the next entry will have, over some bytes in front
    of it when it is longer than the old one, and what follows. *)
Lemma field_source L w pl X R v :
  4 <= zlen L ->
  exists blk, zlen blk = prev_size v /\
    load (L ++ enc_prev w pl ++ X ++ R) (zlen L - (prev_size v - psize w)) (prev_size v + zlen X) = Some (blk ++ X).
Proof.
  intros HL. pose proof (prev_size_pos v). pose proof (psize_pos w). set (F := L ++ enc_prev w pl).
  assert (zlen F = zlen L + psize w) as HF by (unfold F; by rewrite zlen_app, zlen_enc_prev).
  assert (exists k, k = zlen L - (prev_size v - psize w)) as [k Hk] by eauto.
  assert (0 <= k) as Hk0 by (unfold prev_size in *; destruct w, (v <? ZIP_BIGLEN); cbn in *; lia).
  exists (drop (Z.to_nat k) F).
  assert (zlen (drop (Z.to_nat k) F) = prev_size v) as Hd by (unfold zlen in *; rewrite length_drop; lia).
  split; [done|].
  replace (L ++ enc_prev w pl ++ X ++ R) with (take (Z.to_nat k) F ++ (drop (Z.to_nat k) F ++ X) ++ R).
  - apply load_app; [|by rewrite zlen_app, Hd]. unfold zlen in *. rewrite length_take. lia.
  - unfold F. rewrite <- !app_assoc, (app_assoc (take _ _)), take_drop. by rewrite <- !app_assoc.
Qed.

(** The tail offset after an entry of [q] bytes is inserted and the field of the next one changed. *)
Lemma insert_tail off w pl s v q B :
  let r := entry v s in let nd := prev_size v - psize w in
  last_off (off + q) (r :: B) = last_off off ((w, pl, s) :: B) + q + match B with [] => 0 | _ => nd end.
Proof.
  intros r nd. assert (rsize r = rsize (w, pl, s) + nd) as Hr by (unfold r, entry; rewrite !rsize_split, psize_prev; lia).
  destruct B as [|b B]; [cbn; lia|]. rewrite !(last_off_cons _ _ (b :: B)) by done.
  replace (off + q + rsize r) with (off + rsize (w, pl, s) + (q + nd)) by lia. rewrite last_off_shift. lia.
Qed.

(** What stands behind the entry at [pre]: the end mark, or another entry. *)
Lemma behind n t c pre r B : raw_ok r -> Forall raw_ok B ->
  let M := block n t c pre (r :: B) in
  exists b, rd M (at_ pre + rsize r) = Some b /\ (b =? ZIP_END) = match B with [] => true | _ => false end.
Proof.
  intros Hr HB M. unfold M. rewrite block_step.
  replace (at_ pre + rsize r) with (at_ (pre ++ enc1 r)) by apply at_app. destruct B as [|r2 B].
  - exists ZIP_END. split; [apply block_end|done].
  - inversion HB as [|? ? Hr2 _]; subst. destruct (block_entry n t c (pre ++ enc1 r) r2 B Hr2) as ((b & Hb & Hne) & _).
    exists b. split; [done|]. by apply Z.eqb_neq.
Qed.

Lemma entry_ok pl s : 0 <= pl < 2 ^ 32 -> 14 + zlen s < 2 ^ 32 -> raw_ok (entry pl s).
Proof.
  intros Hpl Hs. pose proof (rsize_le (ZIP_BIGLEN <=? pl) pl s). split_and!; [lia|lia| |unfold entry; lia].
  intros Hw. by apply Z.leb_gt in Hw.
Qed.

(** The new field of the next entry is written and the tail offset updated. *)
Lemma insert_link c a G w pl s B blk v N :
  zlen G = v -> zlen blk = prev_size v -> Forall raw_ok B -> room (a ++ G) (strs ((w, pl, s) :: B)) ->
  let r := entry v s in
  let m := hdr N (last_off (at_ a) ((w, pl, s) :: B)) c ++ (a ++ G) ++ (blk ++ body s ++ enc B) ++ [ZIP_END] in
  ('(m, _) ← zipPrevEncodeLength m (at_ a + v) v;
   t ← ZIPLIST_TAIL_OFFSET m;
   m ← set_tail m (u32 (t + v));
   tail ← zipEntry m (at_ a + v);
   e ← rd m (at_ a + (v + headersize tail + elen tail));
   if negb (e =? ZIP_END) then t ← ZIPLIST_TAIL_OFFSET m; set_tail m (u32 (t + (prev_size v - psize w))) else Some m) =
  Some (block N (last_off (at_ (a ++ G)) (r :: B)) c (a ++ G) (r :: B)).
Proof.
  intros HG Hblk HB Hroom r m. pose proof (zlen_nonneg a). pose proof (zlen_nonneg G).
  assert (at_ (a ++ G) = at_ a + v) as Hat by (rewrite at_app; lia).
  pose proof (last_off_bound _ _ Hroom) as Ho. rewrite Hat, last_off_shift in Ho.
  assert (room (a ++ G) (strs (r :: B))) as Hroom' by done.
  pose proof (last_off_bound _ _ Hroom') as Ho'. rewrite Hat in Ho'. unfold r in Ho'. rewrite (insert_tail (at_ a) w pl) in Ho'.
  assert (0 <= v < 2 ^ 32) as Hv by (unfold room in Hroom; rewrite zlen_app in Hroom; pose proof (cost_ge (strs ((w, pl, s) :: B))); lia).
  assert (raw_ok r) as Hr.
  { apply entry_ok; [done|]. unfold room in Hroom. rewrite cost_cons in Hroom. pose proof (cost_ge (strs B)).
    pose proof (zlen_nonneg (a ++ G)). lia. }
  pose proof (last_off_range ((w, pl, s) :: B) (at_ a)) as Hlr. unfold at_ in Hlr at 1.
  unfold m. set (t := last_off (at_ a) ((w, pl, s) :: B)) in *. rewrite <- Hat.
  replace (hdr N t c ++ (a ++ G) ++ (blk ++ body s ++ enc B) ++ [ZIP_END]) with
    ((hdr N t c ++ a ++ G) ++ blk ++ body s ++ enc B ++ [ZIP_END]) by (by rewrite <- !app_assoc).
  rewrite write_prev by (done || by rewrite (zlen_at N t c (a ++ G))). zl_bind.
  rewrite <- field_split. fold (entry v s) r. rewrite block_tail by (unfold in_uint; lia). zl_bind.
  rewrite block_set_tail, zl_u32_id by lia. zl_bind.
  destruct (block_entry N (t + v) c (a ++ G) r B Hr) as (_ & He & _). rewrite He. zl_bind.
  pose proof (entry_total (at_ (a ++ G)) r Hr) as Htot.
  assert (at_ a + (v + headersize (entry_of (at_ (a ++ G)) r) + elen (entry_of (at_ (a ++ G)) r)) = at_ (a ++ G) + rsize r) as ->.
  { rewrite Hat. unfold r, entry. rewrite rsize_split. cbn [entry_of headersize elen]. lia. }
  destruct (behind N (t + v) c (a ++ G) r B Hr HB) as (e & -> & Hend). zl_bind. rewrite Hend. destruct B as [|b B]; cbn [negb].
  - do 2 f_equal. rewrite Hat. unfold r. rewrite (insert_tail (at_ a) w pl). fold t. lia.
  - rewrite block_tail by (unfold in_uint; lia). zl_bind. rewrite block_set_tail. do 2 f_equal.
    rewrite Hat. unfold r. rewrite (insert_tail (at_ a) w pl). fold t. apply zl_u32_id. lia.
Qed.

Lemma insert_room_mid junk c a w pl s B v :
  let rs := (w, pl, s) :: B in let nd := prev_size v - psize w in
  raw_ok (w, pl, s) -> Forall raw_ok B -> 0 <= v -> 0 <= v + nd -> zlen a + v + cost (strs rs) < 2 ^ 32 ->
  exists G, zlen G = v /\
    insert_room junk (zl c a rs) (at_ a) (size a rs) v nd = Some (zl c (a ++ G) (entry v s :: B)).
Proof.
  intros rs nd Hx HB Hv Hnd Hroom. pose proof (zlen_nonneg a). set (X := body s ++ enc B).
  assert (enc rs = enc_prev w pl ++ X) as Hrs by (unfold rs, X; rewrite encs_cons; unfold enc1; by rewrite <- app_assoc).
  assert (zlen (enc rs) = psize w + zlen X) as HrsX by (by rewrite Hrs, zlen_app, zlen_enc_prev).
  pose proof (enc_cost (entry v s :: B)) as Hec. change (strs (entry v s :: B)) with (strs rs) in Hec.
  assert (zlen (enc (entry v s :: B)) = prev_size v + zlen X) as HeX.
  { rewrite encs_cons. unfold enc1, entry, X. by rewrite <- app_assoc, zlen_app, zlen_enc_prev, psize_prev. }
  pose proof (zlen_nonneg X). pose proof (prev_size_pos v). pose proof (psize_pos w). pose proof (enc_cost rs).
  assert (size a rs = 11 + zlen a + psize w + zlen X) as Hsz by (unfold size; lia).
  unfold insert_room. rewrite (zl_u32_id (size a rs + v + nd)) by lia. unfold zl at 1, block. rewrite (app_assoc a).
  destruct (zl_grow junk (size a rs) (last_off (at_ a) rs) c (a ++ enc rs) (size a rs + v + nd)) as (z & Hz & _ & ->).
  { rewrite zlen_app. lia. }
  rewrite zlen_app in Hz. zl_bind. set (N := size a rs + v + nd) in *. set (t := last_off (at_ a) rs).
  set (P := hdr N t c ++ a). assert (zlen P = at_ a) as HP by apply zlen_at.
  assert (rd (hdr N t c ++ (a ++ enc rs) ++ z ++ [ZIP_END]) (at_ a) =
    rd (P ++ enc1 (w, pl, s) ++ enc B ++ z ++ [ZIP_END]) (at_ a)) as ->.
  { unfold P, rs. by rewrite encs_cons, <- !app_assoc. }
  destruct (first_byte P (w, pl, s) (enc B ++ z ++ [ZIP_END]) (at_ a)) as (b & -> & Hb & _); [done|done|]. zl_bind.
  destruct (Z.eqb_spec b ZIP_END); [done|]. cbn [negb]. unfold memmove.
  destruct (field_source P w pl X (z ++ [ZIP_END]) v) as (blk & Hblk & Hload); [rewrite HP; unfold at_; lia|].
  assert (hdr N t c ++ (a ++ enc rs) ++ z ++ [ZIP_END] = P ++ enc_prev w pl ++ X ++ z ++ [ZIP_END]) as Hm.
  { unfold P. by rewrite Hrs, <- !app_assoc. }
  rewrite HP in Hload. fold nd in Hload. rewrite Hm.
  replace (size a rs - at_ a - 1 + nd) with (prev_size v + zlen X) by (unfold at_; lia). rewrite Hload. zl_bind.
  assert (P ++ enc_prev w pl ++ X ++ z ++ [ZIP_END] = P ++ (enc_prev w pl ++ X ++ z) ++ [ZIP_END]) as -> by (by rewrite <- !app_assoc).
  assert (zlen (enc_prev w pl ++ X ++ z) = v + (prev_size v + zlen X)) as HT.
  { rewrite !zlen_app, zlen_enc_prev. lia. }
  rewrite (store_mid P (enc_prev w pl ++ X ++ z) [ZIP_END] (blk ++ X) _ v); [|lia|lia|rewrite (zlen_app blk X); lia]. zl_bind.
  set (G := take (Z.to_nat v) _). assert (zlen G = v) as HG by (unfold G, zlen in *; rewrite length_take; lia).
  exists G. split; [done|].
  assert (room (a ++ G) (strs rs)) as Hr by (unfold room; rewrite zlen_app; lia).
  pose proof (insert_link c a G w pl s B blk v N HG Hblk HB Hr) as Hlink. cbv zeta in Hlink.
  replace (P ++ G ++ (blk ++ X) ++ [ZIP_END]) with
    (hdr N (last_off (at_ a) ((w, pl, s) :: B)) c ++ (a ++ G) ++ (blk ++ body s ++ enc B) ++ [ZIP_END])
    by (unfold P, X; by rewrite <- !app_assoc).
  etransitivity; [exact Hlink|]. unfold zl.
  assert (size (a ++ G) (entry v s :: B) = N) as ->; [|done]. unfold N, nd. unfold size at 1. rewrite zlen_app. lia.
Qed.

Lemma insert_room_end junk c t a v :
  0 <= v -> zlen a + v + 11 < 2 ^ 32 ->
  exists G, zlen G = v /\
    insert_room junk (block (size a []) t c a []) (at_ a) (size a []) v 0 = Some (block (size (a ++ G) []) (at_ a) c (a ++ G) []).
Proof.
  intros Hv Hroom. pose proof (zlen_nonneg a).
  assert (size a [] = 11 + zlen a) as Hsz by (unfold size; change (zlen (enc [])) with 0; lia).
  unfold insert_room. rewrite (zl_u32_id (size a [] + v + 0)) by lia. unfold block at 1. rewrite (app_assoc a).
  destruct (zl_grow junk (size a []) t c (a ++ enc []) (size a [] + v + 0)) as (z & Hz & [z' Hz'] & ->);
    rewrite zlen_app in *; change (zlen (enc [])) with 0 in *; [lia|].
  zl_bind. set (N := size a [] + v + 0) in *.
  assert (rd (hdr N t c ++ (a ++ enc []) ++ z ++ [ZIP_END]) (at_ a) = Some ZIP_END) as ->.
  { rewrite Hz', app_nil_r, app_assoc. apply rd_app. by rewrite zlen_at. }
  zl_bind. rewrite Z.eqb_refl. cbn [negb]. rewrite put_tail. exists z. split; [lia|]. unfold block.
  rewrite zl_u32_id by (unfold at_; lia). change (enc []) with (@nil Z). rewrite app_nil_r, <- !app_assoc.
  assert (size (a ++ z) [] = N) as ->; [|done]. unfold N. unfold size at 1. rewrite zlen_app. change (zlen (enc [])) with 0. lia.
Qed.

(** The cascade behind the room. *)
Lemma insert_cascade junk c a w pl' s B v :
  let nd := prev_size v - psize w in
  raw_ok (entry v s) -> Forall raw_ok B -> linked (rsize (w, pl', s)) B -> room a (strs (entry v s :: B)) ->
  (if negb (nd =? 0) then __ziplistCascadeUpdate junk (zl c a (entry v s :: B)) (at_ a)
   else Some (zl c a (entry v s :: B))) = Some (zl c a (relink v ((w, pl', s) :: B))).
Proof.
  intros nd Hr HB Hl Hroom. cbn [relink]. fold (entry v s). destruct (Z.eqb_spec nd 0) as [Hnd|Hnd]; cbn [negb].
  - rewrite fix_prev_id; [done|]. unfold entry. by rewrite <- (relink_size v pl' w s) by lia.
  - by apply cascade_ok.
Qed.

Lemma insert_spec junk m c A B s :
  repr m c (A ++ B) -> cost (strs (A ++ B)) + (14 + zlen s) < 2 ^ 32 -> hazard (last_size 0 A) s B = false ->
  let r := entry (last_size 0 A) s in
  __ziplistInsert junk m (at_ (enc A)) s = Some (zl (incr c 1) [] (A ++ r :: relink (rsize r) B)).
Proof.
  intros Hrep Hs Hz r. set (pl := last_size 0 A) in *.
  unfold __ziplistInsert. pose proof (insert_prevlen_ok m c A B Hrep) as Hpl.
  destruct Hrep as [-> Hl Hok Hroom Hc]. rewrite zl_bytes by done. zl_bind. rewrite Hpl. zl_bind.
  fold pl. rewrite insert_reqlen_ok. fold r.
  apply linked_app in Hl as [HlA HlB]. apply Forall_app in Hok as [HA HB]. rewrite cost_strs_app in Hs.
  pose proof (enc_cost A). pose proof (rsize_pos r). assert (rsize r <= 14 + zlen s) as Hrs by apply rsize_le.
  pose proof (zlen_nonneg s). pose proof (count_range _ _ Hc) as Hcr. rewrite size_app. change ([] ++ enc A) with (enc A).
  destruct B as [|[[w pl'] sb] B].
  - assert (zl c [] (A ++ []) = block (size (enc A) []) (last_off 10 (A ++ [])) c (enc A) []) as ->.
    { unfold zl. by rewrite size_app, block_app. }
    rewrite block_end. zl_bind. rewrite Z.eqb_refl. cbn [negb]. zl_bind.
    destruct (insert_room_end junk c (last_off 10 (A ++ [])) (enc A) (rsize r)) as (G & HG & ->); [lia|cbn in Hs; change (cost (strs [])) with 11 in Hs; lia|]. zl_bind.
    change (negb (0 =? 0)) with false. cbv iota. zl_bind. rewrite (insert_write_ok _ _ c (enc A) G [] pl s HG). zl_bind.
    rewrite incr_length by done. f_equal. rewrite zl_split. fold r. unfold zl. change (r :: relink (rsize r) []) with [r].
    assert (size (enc A ++ G) [] = size (enc A) [r]) as ->; [|by rewrite block_step].
    unfold size. rewrite zlen_app, enc_single. change (zlen (enc [])) with 0. unfold rsize in HG. lia.
  - inversion HB as [|? ? Hx HB']; subst. rewrite zl_split.
    destruct (block_entry (size (enc A) ((w, pl', sb) :: B)) (last_off (at_ (enc A)) ((w, pl', sb) :: B)) c (enc A) _ B Hx)
      as ((b & Hrd & Hb) & _ & _ & Hps & _). fold (zl c (enc A) ((w, pl', sb) :: B)) in Hrd, Hps. rewrite Hrd.
    zl_bind. destruct (Z.eqb_spec b ZIP_END); [done|]. cbn [negb]. unfold zipPrevLenByteDiff. rewrite Hps. zl_bind.
    cbn [fst]. set (v := rsize r) in *. cbn [hazard] in Hz. fold r v in Hz. apply Z.ltb_ge in Hz.
    destruct (insert_room_mid junk c (enc A) w pl' sb B v) as (G & HG & Hroom'); try done; [lia|lia|].
    rewrite Hroom'. zl_bind. replace (at_ (enc A) + v) with (at_ (enc A ++ G)) by (rewrite at_app; lia).
    rewrite (insert_cascade junk c (enc A ++ G) w pl' sb B v); [|..].
    + zl_bind. unfold zl at 1. rewrite (insert_write_ok _ _ c (enc A) G _ pl s HG). zl_bind.
      rewrite incr_length by done. f_equal. rewrite zl_split. fold r. cbn [relink]. rewrite zl_step. unfold zl.
      change v with (zlen (enc1 r)) in HG. rewrite !at_app, HG.
      set (R := relink v ((w, pl', sb) :: B)). change ((ZIP_BIGLEN <=? v, v, sb) :: _) with R.
      assert (size (enc A ++ G) R = size (enc A ++ enc1 r) R) as ->; [|done]. unfold size. rewrite !zlen_app. lia.
    + rewrite cost_cons in Hs. pose proof (cost_ge (strs B)). pose proof (cost_ge (strs A)). pose proof (zlen_nonneg sb).
      apply entry_ok; lia.
    + done.
    + by destruct HlB as [_ HlB].
    + unfold room. rewrite zlen_app. change (strs (entry v sb :: B)) with (strs ((w, pl', sb) :: B)). lia.
Qed.

(** ** Navigation *)

(** Reading at an entry of a ziplist, and at its end. *)
Lemma repr_at m c A r B : repr m c (A ++ r :: B) ->
  let p := at_ (enc A) in
  (exists b, rd m p = Some b /\ (b =? ZIP_END) = false) /\ zipEntry m p = Some (entry_of p r) /\
  zipRawEntryLength m p = Some (rsize r) /\ ZIP_DECODE_PREVLENSIZE m p = Some (psize r.1.1) /\
  ZIP_DECODE_LENGTH m (p + psize r.1.1) = Some (benc r.2, zlen (bhdr r.2), zlen (bpay r.2)).
Proof.
  intros [-> _ Hok _ _] p. apply Forall_app in Hok as [_ Hok]. inversion Hok as [|? ? Hr _]; subst.
  rewrite zl_split. destruct (block_entry (size (enc A) (r :: B)) (last_off (at_ (enc A)) (r :: B)) c (enc A) r B Hr)
    as ((b & Hb & Hne) & H1 & H2 & H3 & H4). split_and!; try done. exists b. split; [done|]. by apply Z.eqb_neq.
Qed.

Lemma repr_end m c A : repr m c A -> rd m (at_ (enc A)) = Some ZIP_END.
Proof. intros [-> _ _ _ _]. unfold zl. rewrite <- (app_nil_r A) at 3. rewrite block_app. apply block_end. Qed.

Lemma at_snoc A r : at_ (enc A) + rsize r = at_ (enc (A ++ [r])).
Proof. by rewrite encs_app, enc_single, at_app. Qed.

Lemma snoc_app {X} (A : list X) r B : A ++ r :: B = (A ++ [r]) ++ B.
Proof. by rewrite <- app_assoc. Qed.

Lemma fuel_ok m c rs : repr m c rs -> (length rs < S (length m))%nat.
Proof.
  intros [-> _ _ _ _]. pose proof (zlen_zl c [] rs) as E. pose proof (enc_long rs). unfold size, zlen in *. cbn [length] in E. lia.
Qed.

Lemma index_forth_ok m c : forall B fuel A i, repr m c (A ++ B) -> (length B < fuel)%nat -> 0 <= i ->
  index_forth fuel m (at_ (enc A)) i =
    Some (if i <? zlen B then (at_ (enc (A ++ take (Z.to_nat i) B)), -1) else (at_ (enc (A ++ B)), i - zlen B)).
Proof.
  induction B as [|r B IH]; intros fuel A i Hr Hf Hi; (destruct fuel as [|fuel]; [simpl in Hf; lia|]); cbn [index_forth].
  - rewrite app_nil_r in *. rewrite (repr_end m c) by done. zl_bind. rewrite Z.eqb_refl. cbn [negb].
    change (zlen []) with 0. destruct (Z.ltb_spec i 0); [lia|]. by rewrite Z.sub_0_r.
  - destruct (repr_at m c A r B Hr) as ((b & -> & Hb) & _ & Hl & _). zl_bind. rewrite Hb. cbn [negb]. rewrite zlen_cons.
    pose proof (zlen_nonneg B). destruct (Z.eqb_spec i 0) as [->|Hne].
    + destruct (Z.ltb_spec 0 (1 + zlen B)); [|lia]. cbn [Z.to_nat take]. by rewrite app_nil_r.
    + rewrite Hl. zl_bind. rewrite at_snoc, IH by (try (by rewrite <- snoc_app); simpl in Hf; lia).
      destruct (Z.ltb_spec (i - 1) (zlen B)), (Z.ltb_spec i (1 + zlen B)); try lia.
      * replace (Z.to_nat i) with (S (Z.to_nat (i - 1))) by lia. cbn [take]. by rewrite <- snoc_app.
      * rewrite <- snoc_app. do 2 f_equal. lia.
Qed.

Lemma last_size_snoc A r p : last_size p (A ++ [r]) = rsize r.
Proof. revert p. induction A as [|a A IH]; intros p; [done|]. apply IH. Qed.

Lemma index_back_ok m c : forall A fuel r B i, repr m c (A ++ r :: B) -> (length A < fuel)%nat -> 0 <= i ->
  exists j, index_back fuel m (at_ (enc A)) (entry_of (at_ (enc A)) r) i =
    Some (at_ (enc (take (length A - Z.to_nat i) A)), j) /\ (0 <? j) = (zlen A <? i).
Proof.
  induction A as [|a A IH] using rev_ind; intros fuel r B i Hr Hf Hi; (destruct fuel as [|fuel]; [simpl in Hf; lia|]);
    cbn [index_back].
  - pose proof (rp_linked _ _ _ Hr) as [H0 _]. destruct r as [[w pl] s]. cbn in H0. subst. cbn [entry_of prevrawlen].
    change (0 <? 0) with false. cbv iota. rewrite take_nil. by exists i.
  - assert (prevrawlen (entry_of (at_ (enc (A ++ [a]))) r) = rsize a) as ->.
    { pose proof (rp_linked _ _ _ Hr) as Hl. apply linked_app in Hl as [_ [Hl _]]. rewrite last_size_snoc in Hl.
      by destruct r as [[w pl] s]. }
    pose proof (rsize_pos a). destruct (Z.ltb_spec 0 (rsize a)); [|lia].
    rewrite length_app. cbn [length]. destruct (Z.eqb_spec i 0) as [->|Hne].
    + exists (-1). cbn [Z.to_nat]. rewrite take_ge by (rewrite length_app; simpl; lia). split; [done|].
      rewrite zlen_app. pose proof (zlen_nonneg A). change (zlen [a]) with 1. destruct (Z.ltb_spec (zlen A + 1) 0); [lia|done].
    + rewrite <- at_snoc. replace (at_ (enc A) + rsize a - rsize a) with (at_ (enc A)) by lia.
      rewrite <- app_assoc in Hr. destruct (repr_at m c A a ([r] ++ B) Hr) as (_ & He & _). rewrite He. zl_bind.
      destruct (IH fuel a (r :: B) (i - 1) Hr) as (j & -> & Hj); [rewrite length_app in Hf; simpl in Hf; lia|lia|].
      exists j. split; [|rewrite Hj, zlen_app; change (zlen [a]) with 1; zbool_cases; lia || done].
      rewrite take_app_le by lia. by replace (length A + 1 - Z.to_nat i)%nat with (length A - Z.to_nat (i - 1))%nat by lia.
Qed.

(** The index in the list that an argument of ziplistIndex means. *)
Definition pos {X} (l : list X) (i : Z) : option nat :=
  if 0 <=? i then if i <? zlen l then Some (Z.to_nat i) else None
  else if - i <=? zlen l then Some (Z.to_nat (zlen l + i)) else None.

Lemma pos_lt {X} (l : list X) i k : pos l i = Some k -> (k < length l)%nat.
Proof. unfold pos, zlen. zbool_cases; intros [= <-]; lia. Qed.

Lemma ziplistIndex_ok m c rs i : repr m c rs -> INT32_MIN < i ->
  ziplistIndex m i = Some ((fun k => at_ (enc (take k rs))) <$> pos rs i).
Proof.
  intros Hr Hi. unfold ziplistIndex, pos. destruct (Z.ltb_spec i 0) as [Hneg|Hnn].
  - destruct (Z.leb_spec 0 i); [lia|]. destruct (Z.eqb_spec i INT32_MIN); [lia|].
    unfold ZIPLIST_ENTRY_TAIL. pose proof Hr as [Hm _ _ Hroom _]. rewrite Hm, zl_tail by done. zl_bind. rewrite <- Hm.
    destruct (decide (rs = [])) as [->|Hne].
    + change (last_off (at_ []) []) with (at_ (enc [])). rewrite (repr_end m c [] Hr). zl_bind. rewrite Z.eqb_refl. cbn [negb]. zl_bind.
      rewrite (repr_end m c [] Hr). zl_bind. cbn [orb]. change (zlen []) with 0. destruct (Z.leb_spec (- i) 0); [lia|done].
    + destruct (exists_last Hne) as (A & r & ->). rewrite last_off_app. cbn [last_off].
      change (at_ [] + zlen (enc A)) with (at_ (enc A)).
      destruct (repr_at m c A r [] Hr) as ((b & -> & Hb) & He & _). zl_bind. rewrite Hb. cbn [negb]. rewrite He. zl_bind.
      destruct (index_back_ok m c A (S (length m)) r [] (- i - 1) Hr) as (j & -> & Hj);
        [pose proof (fuel_ok _ _ _ Hr) as Hf; rewrite length_app in Hf; lia|lia|]. zl_bind.
      set (k := (length A - Z.to_nat (- i - 1))%nat).
      assert (exists b, rd m (at_ (enc (take k A))) = Some b /\ (b =? ZIP_END) = false) as (b' & -> & Hb').
      { assert (exists x D, A ++ [r] = take k A ++ x :: D) as (x & D & HD).
        { destruct (drop k A) as [|x D] eqn:E.
          - exists r, []. by rewrite <- (take_drop k A), E, app_nil_r at 1.
          - exists x, (D ++ [r]). rewrite app_comm_cons, <- E, app_assoc. by rewrite take_drop. }
        rewrite HD in Hr. by destruct (repr_at m c _ x D Hr) as (? & _). }
      zl_bind. rewrite Hb', Hj. cbn [orb]. rewrite zlen_app. change (zlen [r]) with 1.
      destruct (Z.ltb_spec (zlen A) (- i - 1)), (Z.leb_spec (- i) (zlen A + 1)); try lia; [done|]. cbn [fmap option_fmap option_map].
      replace (Z.to_nat (zlen A + 1 + i)) with k by (unfold k, zlen in *; lia). by rewrite take_app_le by (unfold k; lia).
  - destruct (Z.leb_spec 0 i); [|lia].
    change ZIPLIST_ENTRY_HEAD with (at_ (enc [])). rewrite (index_forth_ok m c rs (S (length m)) [] i) by (done || by eapply fuel_ok). zl_bind. cbn [app].
    destruct (Z.ltb_spec i (zlen rs)) as [Hlt|Hge].
    + assert (exists x, rs !! Z.to_nat i = Some x) as [x Hx] by (apply lookup_lt_is_Some; unfold zlen in Hlt; lia).
      assert (rs = take (Z.to_nat i) rs ++ x :: drop (S (Z.to_nat i)) rs) as Hrs by (symmetry; by apply take_drop_middle).
      rewrite Hrs in Hr at 1. destruct (repr_at m c _ x _ Hr) as ((b & -> & Hb) & _). zl_bind. by rewrite Hb.
    + rewrite (repr_end m c rs Hr). zl_bind. done.
Qed.

(** ** Contents *)

(** What ziplistGet stores for a string. *)
Definition zval_of (s : list Z) : zval := match zipTryEncoding s with Some (v, _) => ZInt v | None => ZStr s end.

Lemma repr_payload m c A r B : repr m c (A ++ r :: B) ->
  exists X Y, m = X ++ bpay r.2 ++ Y /\ zlen X = at_ (enc A) + psize r.1.1 + zlen (bhdr r.2).
Proof.
  intros [-> _ _ _ _]. rewrite zl_split. unfold zl. rewrite block_cons. destruct r as [[w pl] s].
  exists ((hdr (size (enc A) ((w, pl, s) :: B)) (last_off (at_ (enc A)) ((w, pl, s) :: B)) c ++ enc A) ++ enc_prev w pl ++ bhdr s),
    (enc B ++ [ZIP_END]). split.
  - unfold enc1, body. by rewrite <- !app_assoc.
  - rewrite zlen_app, zlen_at, zlen_app, zlen_enc_prev. cbn [fst snd]. lia.
Qed.

Lemma load_int m c A r B v e : repr m c (A ++ r :: B) -> zipTryEncoding r.2 = Some (v, e) ->
  benc r.2 = e /\ zipLoadInteger m (at_ (enc A) + psize r.1.1 + zlen (bhdr r.2)) e = Some v.
Proof.
  intros Hr He. split; [unfold benc; by rewrite He|]. destruct (repr_payload m c A r B Hr) as (X & Y & -> & <-).
  by apply int_enc_load, bpay_int.
Qed.

Lemma load_str m c A r B : repr m c (A ++ r :: B) -> zipTryEncoding r.2 = None ->
  bpay r.2 = r.2 /\ load m (at_ (enc A) + psize r.1.1 + zlen (bhdr r.2)) (zlen r.2) = Some r.2.
Proof.
  intros Hr He. assert (bpay r.2 = r.2) as Hb by (unfold bpay; by rewrite He). split; [done|].
  destruct (repr_payload m c A r B Hr) as (X & Y & -> & <-). rewrite Hb. by apply load_app.
Qed.

Lemma ziplistGet_ok m c A r B : repr m c (A ++ r :: B) ->
  ziplistGet m (Some (at_ (enc A))) = Some (Some (zval_of r.2)).
Proof.
  intros Hr. destruct (repr_at m c A r B Hr) as ((b & Hb & Hb') & He & _). unfold ziplistGet. rewrite Hb. zl_bind.
  rewrite Hb', He. zl_bind. unfold zval_of.
  assert (headersize (entry_of (at_ (enc A)) r) = psize r.1.1 + zlen (bhdr r.2) /\ encoding (entry_of (at_ (enc A)) r) = benc r.2 /\
    elen (entry_of (at_ (enc A)) r) = zlen (bpay r.2)) as (-> & -> & ->) by (by destruct r as [[w pl] s]).
  rewrite is_str_benc, Z.add_assoc. unfold is_int. destruct (zipTryEncoding r.2) as [[v e]|] eqn:E.
  - rewrite bool_decide_true by done. cbn [negb]. destruct (load_int m c A r B v e Hr E) as [-> ->]. done.
  - rewrite bool_decide_false by (by intros [? ?]). cbn [negb]. destruct (load_str m c A r B Hr E) as [-> ->]. done.
Qed.

Lemma try_inj s s' v e e' : zipTryEncoding s = Some (v, e) -> zipTryEncoding s' = Some (v, e') -> s = s'.
Proof.
  intros H H'. apply zipTryEncoding_spec in H as (_ & -> & _). by apply zipTryEncoding_spec in H' as (_ & -> & _).
Qed.

(** An entry is compared with a string, whose integer encoding is tried when the entry holds one. *)
Definition same_entry (m : list Z) (q enc len : Z) (s : list Z) : option bool :=
  if ZIP_IS_STR enc then
    if len =? zlen s then bs ← load m q (zlen s); Some (bool_decide (bs = s)) else Some false
  else
    match zipTryEncoding s with
    | Some (sval, _) => zval ← zipLoadInteger m q enc; Some (zval =? sval)
    | None => Some false
    end.

Lemma same_entry_ok m c A r B s : repr m c (A ++ r :: B) ->
  same_entry m (at_ (enc A) + psize r.1.1 + zlen (bhdr r.2)) (benc r.2) (zlen (bpay r.2)) s = Some (bool_decide (r.2 = s)).
Proof.
  intros Hr. unfold same_entry. rewrite is_str_benc. unfold is_int. destruct (zipTryEncoding r.2) as [[v e]|] eqn:E.
  - rewrite bool_decide_true by done. cbn [negb]. destruct (load_int m c A r B v e Hr E) as [-> ->].
    destruct (zipTryEncoding s) as [[v' e']|] eqn:E'.
    + zl_bind. f_equal. destruct (Z.eqb_spec v v') as [->|Hne].
      * rewrite bool_decide_true; [done|]. by eapply try_inj.
      * rewrite bool_decide_false; [done|]. intros <-. by rewrite E in E'; simplify_eq.
    + rewrite bool_decide_false; [done|]. intros <-. by rewrite E in E'.
  - rewrite bool_decide_false by (by intros [? ?]). cbn [negb]. destruct (load_str m c A r B Hr E) as [-> Hl].
    destruct (Z.eqb_spec (zlen r.2) (zlen s)) as [Hz|Hz].
    + rewrite <- Hz, Hl. done.
    + rewrite bool_decide_false; [done|]. intros H. by rewrite H in Hz.
Qed.

Lemma ziplistCompare_ok m c A r B s : repr m c (A ++ r :: B) ->
  ziplistCompare m (at_ (enc A)) s = Some (bool_decide (r.2 = s)).
Proof.
  intros Hr. destruct (repr_at m c A r B Hr) as ((b & Hb & Hb') & He & _). unfold ziplistCompare. rewrite Hb. zl_bind.
  rewrite Hb', He. zl_bind. rewrite <- (same_entry_ok m c A r B s Hr). unfold same_entry.
  assert (headersize (entry_of (at_ (enc A)) r) = psize r.1.1 + zlen (bhdr r.2) /\ encoding (entry_of (at_ (enc A)) r) = benc r.2 /\
    elen (entry_of (at_ (enc A)) r) = zlen (bpay r.2)) as (-> & -> & ->) by (by destruct r as [[w pl] s0]).
  by rewrite Z.add_assoc.
Qed.

(** The position that ziplistFind returns, of the entries that it does not skip. *)
Fixpoint find_pos (s : list Z) (skip skipcnt : Z) (l : list (list Z)) : option nat :=
  match l with
  | [] => None
  | x :: l =>
    if skipcnt =? 0 then
      if bool_decide (x = s) then Some O else S <$> find_pos s skip skip l
    else S <$> find_pos s skip (skipcnt - 1) l
  end.

(** The encoding that is remembered. *)
Definition tried (s : list Z) (venc vll : Z) : Prop :=
  venc = 0 \/ match zipTryEncoding s with Some (v, e) => venc = e /\ vll = v | None => venc = 255 end.

Lemma find_hit m c A r B s venc vll : repr m c (A ++ r :: B) -> tried s venc vll ->
  ZIP_IS_STR (benc r.2) = false ->
  exists venc' vll',
    (if venc =? 0 then match zipTryEncoding s with Some (v, e) => (e, v) | None => (255, vll) end else (venc, vll)) = (venc', vll') /\
    tried s venc' vll' /\
    (if negb (venc' =? 255) then ll ← zipLoadInteger m (at_ (enc A) + psize r.1.1 + zlen (bhdr r.2)) (benc r.2); Some (ll =? vll')
     else Some false) = Some (bool_decide (r.2 = s)).
Proof.
  intros Hr Ht Hs. pose proof (same_entry_ok m c A r B s Hr) as Hsame. unfold same_entry in Hsame. rewrite Hs in Hsame.
  unfold tried in *. destruct (zipTryEncoding s) as [[v e]|] eqn:E.
  - destruct (int_enc_size _ _ _ (bpay_int s v e E)) as (_ & He & _). unfold ZIP_STR_MASK, ZIP_END in He. exists e, v.
    assert ((if venc =? 0 then (e, v) else (venc, vll)) = (e, v)) as ->.
    { destruct Ht as [->|[-> ->]]; [done|]. destruct (Z.eqb_spec e 0); [lia|done]. }
    split; [done|]. split; [by right|]. destruct (Z.eqb_spec e 255); [lia|]. exact Hsame.
  - exists 255, vll. assert ((if venc =? 0 then (255, vll) else (venc, vll)) = (255, vll)) as ->.
    { by destruct Ht as [->| ->]. }
    split; [done|]. split; [by right|]. exact Hsame.
Qed.

Lemma find_loop_ok m c s skip : forall B fuel A skipcnt venc vll, repr m c (A ++ B) -> (length B < fuel)%nat ->
  0 <= skip -> 0 <= skipcnt -> tried s venc vll ->
  find_loop fuel m (at_ (enc A)) s skip skipcnt venc vll =
    Some ((fun k => at_ (enc (A ++ take k B))) <$> find_pos s skip skipcnt (strs B)).
Proof.
  induction B as [|r B IH]; intros fuel A skipcnt venc vll Hr Hf Hskip Hcnt Ht; (destruct fuel as [|fuel]; [simpl in Hf; lia|]);
    cbn [find_loop].
  - rewrite app_nil_r in Hr. rewrite (repr_end m c A Hr). zl_bind. by rewrite Z.eqb_refl.
  - destruct (repr_at m c A r B Hr) as ((b & Hb & Hb') & _ & _ & Hps & Hdec). rewrite Hb. zl_bind. rewrite Hb', Hps. zl_bind.
    rewrite Hdec. zl_bind.
    assert (at_ (enc A) + psize r.1.1 + zlen (bhdr r.2) + zlen (bpay r.2) = at_ (enc (A ++ [r]))) as ->.
    { rewrite <- at_snoc. destruct r as [[w pl] s0]. rewrite rsize_split. cbn [fst snd]. lia. }
    assert (Hnext : forall cnt ve vl, 0 <= cnt -> tried s ve vl ->
      find_loop fuel m (at_ (enc (A ++ [r]))) s skip cnt ve vl =
        Some ((fun k => at_ (enc (A ++ take k (r :: B)))) <$> (S <$> find_pos s skip cnt (strs B)))).
    { intros cnt ve vl Hc Hv. rewrite IH by (try (by rewrite <- snoc_app); done || (simpl in Hf; lia)).
      destruct (find_pos s skip cnt (strs B)) as [k|]; [|done]. cbn. by rewrite <- snoc_app. }
    change (strs (r :: B)) with (r.2 :: strs B). cbn [find_pos].
    destruct (Z.eqb_spec skipcnt 0) as [->|Hne]; [|by apply Hnext; [lia|]].
    assert (Hfound : Some (Some (at_ (enc A))) = Some ((fun k => at_ (enc (A ++ take k (r :: B)))) <$> Some O)).
    { cbn. by rewrite app_nil_r. }
    destruct (ZIP_IS_STR (benc r.2)) eqn:Es.
    + pose proof (same_entry_ok m c A r B s Hr) as Hsame. unfold same_entry in Hsame. rewrite Es in Hsame.
      rewrite Hsame. zl_bind. case_bool_decide; [done|]. by apply Hnext.
    + destruct (find_hit m c A r B s venc vll Hr Ht Es) as (ve & vl & -> & Ht' & ->). zl_bind.
      case_bool_decide; [done|]. by apply Hnext.
Qed.

Lemma ziplistFind_ok m c A B s skip : repr m c (A ++ B) -> 0 <= skip ->
  ziplistFind m (at_ (enc A)) s skip = Some ((fun k => at_ (enc (A ++ take k B))) <$> find_pos s skip 0 (strs B)).
Proof.
  intros Hr Hs. apply find_loop_ok with (c := c); try done.
  - pose proof (fuel_ok _ _ _ Hr) as H. rewrite length_app in H. lia.
  - by left.
Qed.

Lemma count_loop_ok m c : forall B fuel A n, repr m c (A ++ B) -> (length B < fuel)%nat -> 0 <= n -> n + zlen B < 2 ^ 32 ->
  len_loop fuel m (at_ (enc A)) n = Some (n + zlen B).
Proof.
  induction B as [|r B IH]; intros fuel A n Hr Hf Hn Hb; (destruct fuel as [|fuel]; [simpl in Hf; lia|]); cbn [len_loop].
  - rewrite app_nil_r in Hr. rewrite (repr_end m c A Hr). zl_bind. rewrite Z.eqb_refl. change (zlen []) with 0. by rewrite Z.add_0_r.
  - destruct (repr_at m c A r B Hr) as ((b & Hb' & Hb'') & _ & Hl & _). rewrite Hb'. zl_bind. rewrite Hb'', Hl. zl_bind.
    rewrite zlen_cons in *. pose proof (zlen_nonneg B). rewrite zl_u32_id by lia.
    rewrite at_snoc, IH by (try (by rewrite <- snoc_app); simpl in Hf; lia). f_equal. lia.
Qed.

Lemma ziplistLen_ok m c rs : repr m c rs ->
  exists m' c', ziplistLen m = Some (zlen rs, m') /\ repr m' c' rs.
Proof.
  intros Hr. pose proof Hr as [Hm Hl Hok Hroom Hc]. pose proof (count_range _ _ Hc) as Hcr. unfold ziplistLen.
  assert (ZIPLIST_LENGTH m = Some c) as ->.
  { rewrite Hm. apply get_length. unfold in_uint, UINT16_MAX in *. lia. }
  zl_bind. destruct (Z.ltb_spec c UINT16_MAX) as [Hlt|Hge].
  - exists m, c. split; [|done]. destruct Hc as [Hc|[Hc _]]; [lia|]. by rewrite Hc.
  - pose proof (enc_long rs). pose proof (size_room _ _ Hroom) as Hs. unfold size in Hs. change (zlen (@nil Z)) with 0 in Hs.
    change ZIPLIST_HEADER_SIZE with (at_ (enc [])).
    rewrite (count_loop_ok m c rs (S (length m)) [] 0) by (done || lia || by eapply fuel_ok). zl_bind. rewrite Z.add_0_l.
    destruct (Z.ltb_spec (zlen rs) UINT16_MAX) as [Hlt|Hge'].
    + exists (zl (zlen rs) [] rs), (zlen rs). rewrite Hm. unfold zl, block. rewrite put_length. split; [done|].
      split; try done. by right.
    + exists m, c. done.
Qed.

(** The entry behind, and the entry in front. *)
Lemma ziplistNext_ok m c A r B : repr m c (A ++ r :: B) ->
  ziplistNext m (at_ (enc A)) = Some (match B with [] => None | _ => Some (at_ (enc (A ++ [r]))) end).
Proof.
  intros Hr. destruct (repr_at m c A r B Hr) as ((b & Hb & Hb') & _ & Hl & _). unfold ziplistNext. rewrite Hb. zl_bind.
  rewrite Hb', Hl. zl_bind. rewrite at_snoc. rewrite snoc_app in Hr. destruct B as [|r2 B].
  - rewrite app_nil_r in Hr. rewrite (repr_end m c _ Hr). done.
  - destruct (repr_at m c _ r2 B Hr) as ((b2 & Hb2 & Hb2') & _). rewrite Hb2. zl_bind. by rewrite Hb2'.
Qed.

Lemma ziplistPrev_ok m c A B : repr m c (A ++ B) ->
  ziplistPrev m (at_ (enc A)) =
    Some (match A with [] => None | _ => Some (at_ (enc (take (length A - 1) A))) end).
Proof.
  intros Hr. unfold ziplistPrev. destruct B as [|r B].
  - rewrite app_nil_r in Hr. rewrite (repr_end m c A Hr). zl_bind. rewrite Z.eqb_refl. unfold ZIPLIST_ENTRY_TAIL.
    assert (ZIPLIST_TAIL_OFFSET m = Some (last_off 10 A)) as -> by (pose proof Hr as [-> _ _ Hroom _]; by apply zl_tail). zl_bind.
    destruct (decide (A = [])) as [->|Hne].
    + change (last_off 10 []) with (at_ (enc [])). rewrite (repr_end m c [] Hr). done.
    + destruct (exists_last Hne) as (A' & r & ->). rewrite last_off_app. cbn [last_off].
      change (10 + zlen (enc A')) with (at_ (enc A')). destruct (repr_at m c A' r [] Hr) as ((b & -> & Hb') & _). zl_bind.
      rewrite Hb', length_app. cbn [length]. replace (length A' + 1 - 1)%nat with (length A') by lia.
      rewrite take_app_length. by destruct A'.
  - destruct (repr_at m c A r B Hr) as ((b & -> & Hb') & He & _). zl_bind. rewrite Hb', He.
    destruct (decide (A = [])) as [->|Hne]; [done|]. destruct (exists_last Hne) as (A' & a & ->).
    pose proof (rsize_pos a). rewrite <- at_snoc. destruct (Z.eqb_spec (at_ (enc A') + rsize a) ZIPLIST_ENTRY_HEAD) as [E|_].
    { unfold at_, ZIPLIST_ENTRY_HEAD, ZIPLIST_HEADER_SIZE in E. pose proof (zlen_nonneg (enc A')). lia. }
    zl_bind. assert (prevrawlen (entry_of (at_ (enc A') + rsize a) r) = rsize a) as ->.
    { pose proof (rp_linked _ _ _ Hr) as Hl. apply linked_app in Hl as [_ [Hl _]]. rewrite last_size_snoc in Hl.
      by destruct r as [[w pl] s]. }
    destruct (Z.ltb_spec 0 (rsize a)); [|lia]. rewrite length_app. cbn [length].
    replace (length A' + 1 - 1)%nat with (length A') by lia. rewrite take_app_length.
    replace (at_ (enc A') + rsize a - rsize a) with (at_ (enc A')) by lia. by destruct A'.
Qed.

(** ** Sequences of operations *)

Inductive zop :=
  | ZPush (s : list Z) (where_ : Z)
  | ZInsert (i : Z) (s : list Z)
  | ZDelete (i : Z)
  | ZDeleteRange (index num : Z).

(** A caller inserts in front of the entry with an index, or deletes it. *)
Definition step (junk : nat -> Z) (m : list Z) (o : zop) : option (list Z) :=
  match o with
  | ZPush s where_ => ziplistPush junk m s where_
  | ZInsert i s =>
    p ← ziplistIndex m i;
    match p with None => Some m | Some p => ziplistInsert junk m p s end
  | ZDelete i =>
    p ← ziplistIndex m i;
    match p with None => Some m | Some p => '(m, _) ← ziplistDelete junk m p; Some m end
  | ZDeleteRange index num => ziplistDeleteRange junk m index num
  end.

Fixpoint run (junk : nat -> Z) (m : list Z) (ops : list zop) : option (list Z) :=
  match ops with [] => Some m | o :: ops => m ← step junk m o; run junk m ops end.

(** The same on a list. *)
Definition del {X} (l : list X) (i : Z) (n : nat) : list X :=
  match pos l i with None => l | Some k => take k l ++ drop (k + n) l end.
Definition spec_step (l : list (list Z)) (o : zop) : list (list Z) :=
  match o with
  | ZPush s where_ => if where_ =? ZIPLIST_HEAD then s :: l else l ++ [s]
  | ZInsert i s => match pos l i with None => l | Some k => take k l ++ s :: drop k l end
  | ZDelete i => del l i 1
  | ZDeleteRange index num => del l (swrap 32 index) (Z.to_nat num)
  end.
Definition spec_run (l : list (list Z)) (ops : list zop) : list (list Z) := foldl spec_step l ops.

(** Entries below 254 bytes, in front of which everything can be inserted, and strings whose entry
    takes four bytes, that can be inserted everywhere. *)
Definition small (s : list Z) : bool := zlen (body s) <=? 252.
Definition wide_enough (s : list Z) : bool := 3 <=? zlen (body s).

(** The arguments of a call; with [all_small] only small strings are stored. *)
Definition zop_ok (all_small : bool) (o : zop) : bool :=
  match o with
  | ZPush s _ => implb all_small (small s)
  | ZInsert i s => (INT32_MIN <? i) && (if all_small then small s else (i =? 0) || wide_enough s)
  | ZDelete i => INT32_MIN <? i
  | ZDeleteRange index num => negb (swrap 32 index =? INT32_MIN) && (0 <=? num)
  end.
Definition weight (o : zop) : Z := match o with ZPush s _ | ZInsert _ s => 14 + zlen s | _ => 0 end.
Definition weights (ops : list zop) : Z := foldr (fun o n => weight o + n) 0 ops.

Definition narrow (r : raw) : Prop := r.1.1 = false /\ small r.2 = true.
Definition tidy (all_small : bool) (rs : list raw) : Prop :=
  (forall r B, rs = r :: B -> r.1.1 = false) /\ (all_small = true -> Forall narrow rs).

Lemma narrow_size r : narrow r -> rsize r < ZIP_BIGLEN.
Proof.
  destruct r as [[w pl] s]. intros [Hw Hs]. cbn in Hw, Hs. subst. unfold small in Hs. apply Z.leb_le in Hs.
  unfold rsize, enc1. rewrite zlen_app, zlen_enc_prev. unfold ZIP_BIGLEN. cbn [psize]. lia.
Qed.

Lemma entry_narrow pl s : pl < ZIP_BIGLEN -> small s = true -> narrow (entry pl s).
Proof. intros Hpl Hs. split; [|done]. cbn. by apply Z.leb_gt. Qed.

Lemma fix_prev_narrow rs : forall pl, pl < ZIP_BIGLEN -> Forall narrow rs -> Forall narrow (fix_prev pl rs).
Proof.
  intros pl Hpl Hrs. destruct rs as [|[[w pl'] s] rs]; [done|]. inversion Hrs as [|? ? [Hw Hs] Hrs']; subst.
  cbn in Hw, Hs. subst w. cbn [fix_prev]. destruct (pl' =? pl); [done|]. destruct (Z.leb_spec ZIP_BIGLEN pl); [lia|].
  cbn [negb andb]. by constructor.
Qed.

Lemma relink_narrow pl rs : pl < ZIP_BIGLEN -> Forall narrow rs -> Forall narrow (relink pl rs).
Proof.
  intros Hpl Hrs. destruct rs as [|[[w pl'] s] rs]; [done|]. inversion Hrs as [|? ? [Hw Hs] Hrs']; subst.
  cbn [relink]. pose proof (entry_narrow pl s Hpl Hs) as Hn. constructor; [done|]. apply fix_prev_narrow; [|done].
  by apply narrow_size.
Qed.

Lemma last_size_narrow A : Forall narrow A -> forall pl, pl < ZIP_BIGLEN -> last_size pl A < ZIP_BIGLEN.
Proof.
  induction A as [|r A IH]; intros HA pl Hpl; [done|]. inversion HA; subst. apply IH; [done|]. by apply narrow_size.
Qed.

Lemma tidy_delete b A D B : tidy b (A ++ D ++ B) -> tidy b (A ++ relink (last_size 0 A) B).
Proof.
  intros [Hh Hn]. split.
  - intros r C HC. destruct A as [|a A]; [|injection HC as -> _; by apply (Hh r (A ++ D ++ B))].
    destruct B as [|[[w pl'] s] B]; [done|]. injection HC as <- _. done.
  - intros Hb. specialize (Hn Hb). apply Forall_app in Hn as [HA Hn]. apply Forall_app in Hn as [_ HB].
    apply Forall_app. split; [done|]. apply relink_narrow; [|done]. by apply last_size_narrow.
Qed.

Lemma tidy_insert b A B s : tidy b (A ++ B) -> (b = true -> small s = true) ->
  let r := entry (last_size 0 A) s in tidy b (A ++ r :: relink (rsize r) B).
Proof.
  intros [Hh Hn] Hs r. split.
  - intros r' C HC. destruct A as [|a A]; [injection HC as <- _; done|]. injection HC as -> _. by apply (Hh r' (A ++ B)).
  - intros Hb. specialize (Hn Hb). apply Forall_app in Hn as [HA HB]. apply Forall_app. split; [done|].
    assert (narrow r) as Hr by (apply entry_narrow; [by apply last_size_narrow|auto]).
    constructor; [done|]. apply relink_narrow; [|done]. by apply narrow_size.
Qed.

Lemma tidy_hazard b A B s : tidy b (A ++ B) -> A = [] \/ B = [] \/ b = true \/ wide_enough s = true ->
  hazard (last_size 0 A) s B = false.
Proof.
  intros [Hh Hn] Hc. destruct B as [|[[w pl] sb] B]; [done|]. cbn [hazard]. apply Z.ltb_ge.
  set (r := entry (last_size 0 A) s). pose proof (rsize_pos r). pose proof (prev_size_pos (rsize r)).
  assert (w = false -> 0 <= rsize r + (prev_size (rsize r) - psize w)) as Hw by (intros ->; cbn [psize]; lia).
  destruct Hc as [-> | [H' | [-> | H']]]; [|done|..].
  - apply Hw. by apply (Hh (w, pl, sb) B).
  - apply Hw. specialize (Hn eq_refl). apply Forall_app in Hn as [_ Hn]. inversion Hn as [|? ? [Hx _] _]; subst. done.
  - unfold wide_enough in H'. apply Z.leb_le in H'. pose proof (psize_pos w). unfold r, entry in *.
    unfold rsize at 1. unfold enc1. rewrite zlen_app, zlen_enc_prev. pose proof (psize_pos (ZIP_BIGLEN <=? last_size 0 A)). lia.
Qed.

(** What the blocks have in common while the operations run. *)
Definition holds (b : bool) (m : list Z) (l : list (list Z)) : Prop :=
  exists c rs, repr m c rs /\ tidy b rs /\ strs rs = l.

Lemma pos_fmap {X Y} (f : X -> Y) (l : list X) i : pos (f <$> l) i = pos l i.
Proof. unfold pos, zlen. by rewrite length_fmap. Qed.

Lemma pos_strs rs i : pos (strs rs) i = pos rs i.
Proof. apply pos_fmap. Qed.
Lemma take_strs k rs : take k (strs rs) = strs (take k rs).
Proof. symmetry. apply fmap_take. Qed.
Lemma drop_strs k rs : drop k (strs rs) = strs (drop k rs).
Proof. symmetry. apply fmap_drop. Qed.

Lemma split_at {X} (l : list X) k : (k < length l)%nat -> exists x, l = take k l ++ x :: drop (S k) l.
Proof.
  intros Hk. apply lookup_lt_is_Some in Hk as [x Hx]. exists x. symmetry. by apply take_drop_middle.
Qed.

Lemma insert_holds junk b m c A B s : repr m c (A ++ B) -> tidy b (A ++ B) -> (b = true -> small s = true) ->
  cost (strs (A ++ B)) + (14 + zlen s) < 2 ^ 32 -> A = [] \/ B = [] \/ b = true \/ wide_enough s = true ->
  exists m', __ziplistInsert junk m (at_ (enc A)) s = Some m' /\ holds b m' (strs A ++ s :: strs B).
Proof.
  intros Hr Ht Hs Hc Hw. rewrite (insert_spec junk m c A B s Hr Hc) by (by eapply tidy_hazard).
  eexists. split; [done|]. eexists _, _. split; [by eapply repr_insert|]. split; [by apply tidy_insert|].
  rewrite strs_app. change (strs (?r :: ?B)) with (r.2 :: strs B). by rewrite relink_strs.
Qed.

Lemma ziplistPush_ok junk b m l s w : holds b m l -> (b = true -> small s = true) -> cost l + (14 + zlen s) < 2 ^ 32 ->
  exists m', ziplistPush junk m s w = Some m' /\ holds b m' (spec_step l (ZPush s w)).
Proof.
  intros (c & rs & Hr & Ht & <-) Hs Hc. unfold ziplistPush. cbn [spec_step]. destruct (Z.eqb_spec w ZIPLIST_HEAD) as [Hw|Hw].
  - zl_bind. change ZIPLIST_ENTRY_HEAD with (at_ (enc [])). apply (insert_holds junk b m c [] rs s); auto.
  - assert (ZIPLIST_ENTRY_END m = Some (at_ (enc rs))) as ->.
    { unfold ZIPLIST_ENTRY_END. pose proof Hr as [-> _ _ Hroom _]. rewrite zl_bytes by done. zl_bind. f_equal.
      unfold size, at_. change (zlen (@nil Z)) with 0. lia. }
    zl_bind. rewrite <- (app_nil_r rs) in Hr, Ht, Hc. apply (insert_holds junk b m c rs [] s); auto.
Qed.

Lemma ziplistInsert_ok junk b m l s i : holds b m l -> zop_ok b (ZInsert i s) = true -> cost l + (14 + zlen s) < 2 ^ 32 ->
  exists m', step junk m (ZInsert i s) = Some m' /\ holds b m' (spec_step l (ZInsert i s)).
Proof.
  intros (c & rs & Hr & Ht & <-) Ho Hc. cbn [step spec_step zop_ok] in *. apply andb_true_iff in Ho as [Hi Ho].
  rewrite (ziplistIndex_ok m c rs i Hr) by lia. zl_bind. rewrite pos_strs.
  destruct (pos rs i) as [k|] eqn:Hp; cbn [fmap option_fmap option_map]; [|exists m; split; [done|by exists c, rs]].
  rewrite <- (take_drop k rs) in Hr, Ht, Hc. rewrite take_strs, drop_strs.
  apply (insert_holds junk b m c (take k rs) (drop k rs) s); try done.
  - intros ->. done.
  - destruct b; [auto|]. apply orb_true_iff in Ho as [Ho|Ho]; [|auto]. apply Z.eqb_eq in Ho. subst i. left.
    unfold pos in Hp. change (0 <=? 0) with true in Hp. destruct (0 <? zlen rs); [|done]. by injection Hp as <-.
Qed.

Lemma delete_none junk m c A r B : repr m c (A ++ r :: B) -> __ziplistDelete junk m (at_ (enc A)) 0 = Some m.
Proof.
  intros Hr. destruct (repr_at m c A r B Hr) as ((b & Hb & Hb') & He & _). unfold __ziplistDelete. rewrite He. zl_bind.
  cbn [delete_skip]. rewrite Hb. zl_bind. rewrite Hb'. change (0 <? 0) with false. cbn [negb orb]. zl_bind.
  assert (ep (entry_of (at_ (enc A)) r) = at_ (enc A)) as -> by (by destruct r as [[? ?] ?]).
  by rewrite Z.sub_diag.
Qed.

Lemma delete_holds junk b m l i num : holds b m l -> INT32_MIN < i -> 0 <= num ->
  exists m', (p ← ziplistIndex m i; match p with None => Some m | Some p => __ziplistDelete junk m p num end) = Some m' /\
    holds b m' (del l i (Z.to_nat num)).
Proof.
  intros (c & rs & Hr & Ht & <-) Hi Hn. rewrite (ziplistIndex_ok m c rs i Hr Hi). zl_bind. unfold del. rewrite pos_strs.
  destruct (pos rs i) as [k|] eqn:Hp; cbn [fmap option_fmap option_map]; [|exists m; split; [done|by exists c, rs]].
  destruct (split_at rs k (pos_lt _ _ _ Hp)) as [x Hx]. pose proof Hr as Hr0. rewrite Hx in Hr0.
  destruct (decide (num = 0)) as [->|Hne].
  { rewrite (delete_none junk m c _ _ _ Hr0). exists m. split; [done|]. exists c, rs. split; [done|]. split; [done|].
    change (Z.to_nat 0) with O. by rewrite Nat.add_0_r, take_drop. }
  set (A := take k rs) in *. set (D := take (Z.to_nat num) (drop k rs)). set (B := drop (Z.to_nat num) (drop k rs)).
  assert (drop k rs = D ++ B) as HDB by (symmetry; apply take_drop).
  assert (rs = A ++ D ++ B) as HADB by (rewrite <- HDB; symmetry; apply take_drop).
  assert (drop k rs = x :: drop (S k) rs) as Hdx.
  { apply (app_inv_head A). rewrite <- Hx. apply take_drop. }
  assert (D <> []) as HD.
  { unfold D. rewrite Hdx. destruct (Z.to_nat num) eqn:E; [lia|done]. }
  rewrite HADB in Hr, Ht.
  rewrite (delete_spec junk m c A D B num Hr HD); [|by rewrite <- HDB|done].
  eexists. split; [done|]. eexists _, _. split; [by eapply repr_delete|]. split; [by eapply tidy_delete|].
  rewrite strs_app, relink_strs. unfold A, B. by rewrite take_strs, drop_strs, drop_drop.
Qed.

Lemma step_ok junk b m l o : holds b m l -> zop_ok b o = true -> cost l + weight o < 2 ^ 32 ->
  exists m', step junk m o = Some m' /\ holds b m' (spec_step l o).
Proof.
  intros Hh Ho Hc. destruct o as [s w|i s|i|index num].
  - apply ziplistPush_ok; try done. intros ->. done.
  - by apply ziplistInsert_ok.
  - cbn [step zop_ok] in *. destruct (delete_holds junk b m l i 1 Hh) as (m' & Hm & Hh'); [lia|lia|].
    exists m'. split; [|done]. destruct (ziplistIndex m i) as [[p|]|]; try done. cbn in *. unfold ziplistDelete.
    by rewrite Hm.
  - cbn [step zop_ok] in *. apply andb_true_iff in Ho as [Hi Hn]. apply negb_true_iff, Z.eqb_neq in Hi.
    apply (delete_holds junk b m l (swrap 32 index) num Hh); [|lia]. revert Hi. unfold swrap, INT32_MIN.
    pose proof (Z.mod_pos_bound (index + 2 ^ (32 - 1)) (2 ^ 32)). lia.
Qed.

Lemma cost_step l o : cost (spec_step l o) <= cost l + weight o.
Proof.
  assert (Hdel : forall i n, cost (del l i n) <= cost l).
  { intros i n. unfold del. destruct (pos l i) as [k|]; [|lia]. rewrite <- (take_drop k l) at 3.
    rewrite <- drop_drop. rewrite <- (take_drop n (drop k l)) at 2. rewrite !cost_app. pose proof (cost_ge (take n (drop k l))). lia. }
  assert (Hcons : forall s k, cost (s :: k) = 14 + zlen s + cost k) by done.
  destruct o as [s w|i s|i|index num]; cbn [spec_step weight].
  - destruct (_ =? _); rewrite ?cost_app, ?Hcons; change (cost []) with 11; lia.
  - destruct (pos l i) as [k|]; [|pose proof (zlen_nonneg s); lia]. rewrite <- (take_drop k l) at 3. rewrite !cost_app, Hcons. lia.
  - specialize (Hdel i 1%nat). lia.
  - specialize (Hdel (swrap 32 index) (Z.to_nat num)). lia.
Qed.

Lemma zop_weight_nonneg o : 0 <= weight o.
Proof. destruct o; cbn; try pose proof (zlen_nonneg s); lia. Qed.

Lemma run_holds junk b ops : forall m l, holds b m l -> forallb (zop_ok b) ops = true -> cost l + weights ops < 2 ^ 32 ->
  exists m', run junk m ops = Some m' /\ holds b m' (spec_run l ops).
Proof.
  induction ops as [|o ops IH]; intros m l Hh Ho Hc; [by exists m|]. cbn in Ho, Hc. apply andb_true_iff in Ho as [Ho Ho'].
  change (foldr (fun o n => weight o + n) 0 ops) with (weights ops) in Hc.
  assert (0 <= weights ops) as Hw.
  { clear. induction ops as [|o ops IH]; [done|]. cbn. fold (weights ops). pose proof (zop_weight_nonneg o). lia. }
  destruct (step_ok junk b m l o Hh Ho) as (m1 & Hm & Hh1); [lia|]. cbn [run]. rewrite Hm. zl_bind.
  apply IH; [done|done|]. pose proof (cost_step l o). lia.
Qed.

Lemma new_holds b : holds b ziplistNew [].
Proof.
  exists 0, []. split; [|by split; [split; [done|constructor]|]]. split; [reflexivity|done|done| |right; done].
  unfold room. reflexivity.
Qed.

(** What a caller sees. *)
Definition zval_str (v : zval) : list Z := match v with ZStr s => s | ZInt v => Util.ll2string_chars v end.

Lemma zval_str_of s : zval_str (zval_of s) = s.
Proof.
  unfold zval_of. destruct (zipTryEncoding s) as [[v e]|] eqn:E; [|done]. by apply zipTryEncoding_spec in E as (_ & -> & _).
Qed.

Record observes (m : list Z) (l : list (list Z)) : Prop := {
  obs_len : exists m', ziplistLen m = Some (zlen l, m');
  obs_get : forall i, INT32_MIN < i ->
    (p ← ziplistIndex m i; v ← ziplistGet m p; Some (zval_str <$> v)) = Some (k ← pos l i; l !! k);
  obs_compare : forall k s p t, l !! k = Some s -> ziplistIndex m (Z.of_nat k) = Some (Some p) ->
    ziplistCompare m p t = Some (bool_decide (s = t));
  obs_next : forall k p, ziplistIndex m (Z.of_nat k) = Some (Some p) -> ziplistNext m p = ziplistIndex m (Z.of_nat k + 1);
  obs_prev : forall k p, ziplistIndex m (Z.of_nat k) = Some (Some p) ->
    ziplistPrev m p = if decide (k = O) then Some None else ziplistIndex m (Z.of_nat k - 1);
  obs_find : forall k p t skip, ziplistIndex m (Z.of_nat k) = Some (Some p) -> 0 <= skip ->
    ziplistFind m p t skip =
      match find_pos t skip 0 (drop k l) with None => Some None | Some j => ziplistIndex m (Z.of_nat (k + j)) end;
}.

Lemma index_nat m c rs k : repr m c rs ->
  ziplistIndex m (Z.of_nat k) = Some (if decide (k < length rs)%nat then Some (at_ (enc (take k rs))) else None).
Proof.
  intros Hr. rewrite (ziplistIndex_ok m c rs) by (done || unfold INT32_MIN; lia). f_equal. unfold pos.
  destruct (Z.leb_spec 0 (Z.of_nat k)); [|lia]. unfold zlen. rewrite Nat2Z.id.
  destruct (Z.ltb_spec (Z.of_nat k) (Z.of_nat (length rs))); case_decide; done || lia.
Qed.

Lemma at_index m c rs k p : repr m c rs -> ziplistIndex m (Z.of_nat k) = Some (Some p) ->
  p = at_ (enc (take k rs)) /\ exists r, repr m c (take k rs ++ r :: drop (S k) rs) /\ rs !! k = Some r.
Proof.
  intros Hr Hp. rewrite (index_nat m c rs k Hr) in Hp. case_decide as Hk; [|done]. injection Hp as <-. split; [done|].
  apply lookup_lt_is_Some in Hk as [r Hk]. exists r. split; [|done]. by rewrite take_drop_middle.
Qed.

Lemma find_pos_lt s skip : forall l cnt j, find_pos s skip cnt l = Some j -> (j < length l)%nat.
Proof.
  induction l as [|x l IH]; intros cnt j H; [done|]. cbn [find_pos] in H. cbn [length].
  assert (forall c j, S <$> find_pos s skip c l = Some j -> (j < S (length l))%nat) as IH'.
  { intros c i Hi. destruct (find_pos s skip c l) as [j'|] eqn:E; [|done]. injection Hi as <-. apply IH in E. lia. }
  destruct (cnt =? 0); [|by eapply IH']. case_bool_decide; [injection H as <-; lia|by eapply IH'].
Qed.

Lemma holds_observes b m l : holds b m l -> observes m l.
Proof.
  intros (c & rs & Hr & _ & <-). split.
  - destruct (ziplistLen_ok m c rs Hr) as (m' & c' & Hl & _). exists m'. rewrite Hl. unfold strs, zlen. by rewrite length_fmap.
  - intros i Hi. rewrite (ziplistIndex_ok m c rs i Hr Hi), pos_strs. zl_bind.
    destruct (pos rs i) as [k|] eqn:Hp; [|done]. apply pos_lt in Hp. cbn [fmap option_fmap option_map mbind option_bind].
    destruct (split_at rs k Hp) as [r Hrs]. pose proof Hr as Hr'. rewrite Hrs in Hr'. rewrite (ziplistGet_ok m c _ r _ Hr'). zl_bind.
    cbn [fmap option_fmap option_map]. rewrite zval_str_of. unfold strs. rewrite list_lookup_fmap.
    rewrite Hrs at 1. rewrite list_lookup_middle by (rewrite length_take; lia). done.
  - intros k s p t Hs Hp. destruct (at_index m c rs k p Hr Hp) as (-> & r & Hr' & Hk). unfold strs in Hs.
    rewrite list_lookup_fmap, Hk in Hs. injection Hs as <-. by apply (ziplistCompare_ok m c _ r (drop (S k) rs)).
  - intros k p Hp. destruct (at_index m c rs k p Hr Hp) as (-> & r & Hr' & Hk). rewrite (ziplistNext_ok m c _ r _ Hr').
    replace (Z.of_nat k + 1) with (Z.of_nat (S k)) by lia. rewrite (index_nat m c rs _ Hr). f_equal.
    assert (length rs = length (take k rs ++ r :: drop (S k) rs)) as Hl by (by rewrite take_drop_middle).
    rewrite length_app in Hl. cbn [length] in Hl. pose proof (lookup_lt_Some _ _ _ Hk). rewrite length_take in Hl.
    destruct (drop (S k) rs) as [|r2 B] eqn:E; case_decide; cbn [length] in Hl; try lia; [done|].
    by rewrite (take_S_r _ _ _ Hk).
  - intros k p Hp. destruct (at_index m c rs k p Hr Hp) as (-> & r & Hr' & Hk). rewrite (ziplistPrev_ok m c _ _ Hr').
    pose proof (lookup_lt_Some _ _ _ Hk). destruct k as [|k]; [done|]. rewrite length_take.
    replace (Z.of_nat (S k) - 1) with (Z.of_nat k) by lia. rewrite (index_nat m c rs _ Hr). rewrite decide_False by lia.
    rewrite decide_True, take_take by lia. replace ((S k `min` length rs - 1) `min` S k)%nat with k by lia.
    destruct (take (S k) rs) as [|r0 A] eqn:E; [|done]. apply (f_equal length) in E. rewrite length_take in E. cbn [length] in E. lia.
  - intros k p t skip Hp Hs. destruct (at_index m c rs k p Hr Hp) as (-> & r & Hr' & Hk). 
    rewrite (ziplistFind_ok m c _ _ t skip Hr' Hs), drop_strs, (drop_S _ _ _ Hk).
    destruct (find_pos t skip 0 _) as [j|] eqn:E; [|done]. apply find_pos_lt in E. unfold strs in E. rewrite length_fmap in E.
    rewrite (index_nat m c rs _ Hr). pose proof (lookup_lt_Some _ _ _ Hk). cbn [length] in E. rewrite length_drop in E.
    rewrite decide_True by lia. cbn [fmap option_fmap option_map]. by rewrite <- (drop_S _ _ _ Hk), take_take_drop.
Qed.

(** C15: Whatever is pushed, inserted and deleted, within the limits of [zop_ok], a ziplist acts as
    the list of its strings: no operation reads or writes outside of the block, the length fields
    and the cascade of their growth are right, and by index, from entry to entry, by comparison and
    by search a caller sees the list that the same operations on a list give.  The limits: in front
    of an inner entry only a string is inserted whose entry takes at least four bytes, or all the
    strings are small; an insertion outside of them can corrupt the block
    ([insert_hazard_corrupts]).  Indices are ints above INT_MIN, and the block stays below 4 GB. *)
Theorem ziplist_refines_list junk all_small ops :
  forallb (zop_ok all_small) ops = true -> 11 + weights ops < 2 ^ 32 ->
  exists m, run junk ziplistNew ops = Some m /\ observes m (spec_run [] ops).
Proof.
  intros Ho Hw. destruct (run_holds junk all_small ops ziplistNew [] (new_holds _) Ho Hw) as (m & Hm & Hh).
  exists m. split; [done|]. by eapply holds_observes.
Qed.

(** *** The insertion that is not safe *)

(** The block as the code sees it: the new entry is shorter than what the next one loses. *)
Definition insert_hazard (m : list Z) (p : Z) (s : list Z) : option bool :=
  prevlen ← insert_prevlen m p;
  let '(reqlen, _, _) := insert_reqlen s prevlen in
  c ← rd m p;
  nextdiff ← (if negb (c =? ZIP_END) then zipPrevLenByteDiff m p reqlen else Some 0);
  Some (reqlen + nextdiff <? 0).

Lemma insert_hazard_ok m c A B s : repr m c (A ++ B) ->
  insert_hazard m (at_ (enc A)) s = Some (hazard (last_size 0 A) s B).
Proof.
  intros Hr. unfold insert_hazard. rewrite (insert_prevlen_ok m c A B Hr). zl_bind. rewrite insert_reqlen_ok.
  pose proof (rsize_pos (entry (last_size 0 A) s)). destruct B as [|[[w pl] sb] B].
  - rewrite app_nil_r in Hr. rewrite (repr_end m c A Hr). zl_bind. rewrite Z.eqb_refl. cbn [negb]. zl_bind. cbn [hazard].
    f_equal. apply Z.ltb_ge. lia.
  - destruct (repr_at m c A _ B Hr) as ((b & -> & Hb) & _ & _ & Hps & _). zl_bind. rewrite Hb. cbn [negb].
    unfold zipPrevLenByteDiff. rewrite Hps. done.
Qed.

(** An entry whose previous-length field takes five bytes although the previous entry is short:
    the entry that made the previous one long was deleted. *)
Definition wide_list : option (list Z) :=
  m ← ziplistPush nojunk ziplistNew (replicate 300 97) 1;
  m ← ziplistPush nojunk m (replicate 247 98) 1;
  m ← ziplistPush nojunk m (str "c") 1;
  '(m, _) ← ziplistDelete nojunk m 10;
  Some m.

(** In front of it, the insertion of a one-byte string changes the next entry to the end mark,
    and the insertion of a one-digit integer moves bytes from behind the block. *)
Theorem insert_hazard_corrupts :
  (m ← wide_list; p ← ziplistIndex m 1; p ← p; b ← insert_hazard m p (str "x");
   v ← ziplistGet m (Some p); m ← ziplistInsert nojunk m p (str "x"); q ← ziplistIndex m 2; v' ← ziplistGet m q;
   Some (b, v, v')) = Some (true, Some (ZStr (str "c")), Some (ZStr [ZIP_END])) /\
  (m ← wide_list; p ← ziplistIndex m 1; p ← p; ziplistInsert nojunk m p (str "1")) = None.
Proof. split; vm_compute; reflexivity. Qed.

(** A long entry is pushed in front of 60 entries that have 253 bytes each: every field grows;
    then entries are taken out, and one is inserted inside of the list. *)
Definition cascade_ops : list zop :=
  replicate 60 (ZPush (replicate 250 98) 1) ++
  [ZPush (replicate 300 97) 0; ZPush (str "-32769") 0; ZInsert 2 (str "abc"); ZDelete (-2); ZDeleteRange 5 50].

Lemma ziplist_refines_list_witness :
  exists m, run nojunk ziplistNew cascade_ops = Some m /\ observes m (spec_run [] cascade_ops).
Proof. apply (ziplist_refines_list nojunk false cascade_ops); vm_compute; reflexivity. Defined.

Example cascade_ex :
  (m ← run nojunk ziplistNew cascade_ops; '(n, _) ← ziplistLen m; Some (n, zlen m)) = Some (12, 2637) /\
  zlen (spec_run [] cascade_ops) = 12.
Proof. split; vm_compute; reflexivity. Qed.
End Ziplist.
