(* ===== verification/Lzf.v ===== *)
(** * lzf_c.c and lzf_d.c: LZF compression

    Model of [src/debug/redis/src/lzf_c.c] and [lzf_d.c] as they are configured in [lzfP.h]
    (HLOG 16, VERY_FAST, no INIT_HTAB, CHECK_INPUT).  The table of the compressor is
    uninitialized memory: its slots hold arbitrary addresses, which the code compares with the
    address of the input before it uses them.  A read or a write outside of a buffer is
    [Undefined].

    The compressor returns on every input and what it returns decompresses to the input,
    whatever the table held ([lzf_roundtrip]); the decompressor stays within its buffers on
    every input ([lzf_decompress_safe]); the compressor can write one byte past its output
    buffer ([lzf_compress_overrun]), which is why the round trip gives it one byte more, as
    rdb.c does. *)

From Stdlib Require Import ZArith Lia.
From stdpp Require Import prelude list strings numbers.
From S2P Require Import Prelude.

Local Open Scope Z_scope.

Module Lzf.

Definition HLOG : Z := 16.
Definition HSIZE : Z := Z.shiftl 1 HLOG.
Definition MAX_LIT : Z := 32.
Definition MAX_OFF : Z := 8192.
Definition MAX_REF : Z := 264.

Definition u32 (z : Z) : Z := uwrap 32 z.

(** An access that is undefined out of range. *)
Definition must {A} (o : option A) : outcome A :=
  match o with Some a => Ok a | None => Undefined end.

Definition get (m : list Z) (i : Z) : outcome Z := must (rd m i).
Definition put (m : list Z) (i b : Z) : outcome (list Z) := must (store m i [b]).

Section Compress.
(** The address of the input and the input. *)
Context (base : Z) (data : list Z).

Definition in_end : Z := zlen data.

Definition FRST (p : Z) : outcome Z :=
  p0 ← get data p; p1 ← get data (p + 1); Ok (Z.lor (Z.shiftl p0 8) p1).

Definition NEXT (v p : Z) : outcome Z :=
  p2 ← get data (p + 2); Ok (u32 (Z.lor (Z.shiftl v 8) p2)).

Definition IDX (h : Z) : Z := Z.land (u32 (Z.shiftr h (3 * 8 - HLOG) - h * 5)) (HSIZE - 1).

(** [htab] maps a slot to an address; [ip] and [op] are offsets into the input and the output. *)
Record cstate := mkC { htab : Z -> Z; hval : Z; ip : Z; op : Z; lit : Z; out : list Z }.

Definition upd (h : Z -> Z) (i v : Z) : Z -> Z := fun j => if j =? i then v else h j.

(** [off = ip - ref - 1] in an unsigned long. *)
Definition offset_of (p ref : Z) : Z := uwrap 64 (base + p - ref - 1).

(** The condition of the [if]: the three bytes are read only when the other tests pass. *)
Definition match_test (p ref : Z) : outcome bool :=
  if (offset_of p ref <? MAX_OFF) && (p + 4 <? in_end) && (base <? ref) then
    let r := ref - base in
    r0 ← get data r; r1 ← get data (r + 1);
    i0 ← get data p; i1 ← get data (p + 1);
    if (r0 =? i0) && (r1 =? i1) then
      r2 ← get data (r + 2); i2 ← get data (p + 2); Ok (r2 =? i2)
    else Ok false
  else Ok false.

(** The sixteen unrolled comparisons: [true] when none of them breaks. *)
Fixpoint unrolled (n : nat) (r p len : Z) : outcome (Z * bool) :=
  match n with
  | O => Ok (len, true)
  | S n =>
    let len := len + 1 in
    a ← get data (r + len); b ← get data (p + len);
    if negb (a =? b) then Ok (len, false) else unrolled n r p len
  end.

(** [do len++; while (len < maxlen && ref[len] == ip[len])] *)
Fixpoint extend (fuel : nat) (r p len maxlen : Z) : outcome Z :=
  match fuel with
  | O => OutOfFuel
  | S fuel =>
    let len := len + 1 in
    if len <? maxlen then
      a ← get data (r + len); b ← get data (p + len);
      if a =? b then extend fuel r p len maxlen else Ok len
    else Ok len
  end.

Definition match_length (r p : Z) : outcome Z :=
  let maxlen := in_end - p - 2 in
  let maxlen := if MAX_REF <? maxlen then MAX_REF else maxlen in
  if 16 <? maxlen then
    '(len, go) ← unrolled 16 r p 2;
    if go : bool then extend (length data) r p len maxlen else Ok len
  else extend (length data) r p 2 maxlen.

(** One iteration: go on, leave the loop, or return 0. *)
Inductive iter := CGo (s : cstate) | CBreak (s : cstate) | CFail (out : list Z).

(** The two or three bytes of a back reference. *)
Definition write_ref (out : list Z) (op off len : Z) : outcome (list Z * Z) :=
  '(out, op) ←
    (if len <? 7 then
       out ← put out op (uwrap 8 (Z.shiftr off 8 + Z.shiftl len 5)); Ok (out, op + 1)
     else
       out ← put out op (uwrap 8 (Z.shiftr off 8 + Z.shiftl 7 5));
       out ← put out (op + 1) (uwrap 8 (len - 7)); Ok (out, op + 2));
  out ← put out op (uwrap 8 off);
  Ok (out, op + 1).

(** A match with the bytes at the address [ref]. *)
Definition emit_match (out_end : Z) (s : cstate) (ref : Z) : outcome iter :=
  let off := offset_of (ip s) ref in
  out1 ← put (out s) (op s - lit s - 1) (uwrap 8 (lit s - 1));
  let op1 := if lit s =? 0 then op s - 1 else op s in
  if out_end <=? op1 + 3 + 1 then Ok (CFail out1)
  else
    len ← match_length (ref - base) (ip s);
    let len := len - 2 in
    '(out3, op2) ← write_ref out1 op1 off len;
    let op3 := op2 + 1 in
    let ip1 := ip s + 1 + (len + 1) in
    if in_end - 2 <=? ip1 then Ok (CBreak (mkC (htab s) (hval s) ip1 op3 0 out3))
    else
      let q := ip1 - 2 in
      h ← FRST q;
      h ← NEXT h q;
      let t := upd (htab s) (IDX h) (base + q) in
      h ← NEXT h (q + 1);
      let t := upd t (IDX h) (base + (q + 1)) in
      Ok (CGo (mkC t h (q + 2) op3 0 out3)).

(** [lit++; *op++ = *ip++;] and the end of a full run. *)
Definition literal_byte (s : cstate) : outcome cstate :=
  b ← get data (ip s);
  out1 ← put (out s) (op s) b;
  let lit1 := lit s + 1 in
  let op1 := op s + 1 in
  if lit1 =? MAX_LIT then
    out2 ← put out1 (op1 - lit1 - 1) (uwrap 8 (lit1 - 1));
    Ok (mkC (htab s) (hval s) (ip s + 1) (op1 + 1) 0 out2)
  else Ok (mkC (htab s) (hval s) (ip s + 1) op1 lit1 out1).

Definition compress_iter (out_end : Z) (s : cstate) : outcome iter :=
  h ← NEXT (hval s) (ip s);
  let ref := htab s (IDX h) in
  let s := mkC (upd (htab s) (IDX h) (base + ip s)) h (ip s) (op s) (lit s) (out s) in
  hit ← match_test (ip s) ref;
  if hit : bool then emit_match out_end s ref
  else if out_end <=? op s then Ok (CFail (out s))
  else s ← literal_byte s; Ok (CGo s).

(** [while (ip < in_end - 2)]: [None] is [return 0]. *)
Fixpoint compress_loop (fuel : nat) (out_end : Z) (s : cstate) : outcome (option cstate * list Z) :=
  if ip s <? in_end - 2 then
    match fuel with
    | O => OutOfFuel
    | S fuel =>
      r ← compress_iter out_end s;
      match r with
      | CGo s => compress_loop fuel out_end s
      | CBreak s => Ok (Some s, out s)
      | CFail o => Ok (None, o)
      end
    end
  else Ok (Some s, out s).

(** [while (ip < in_end)] *)
Fixpoint tail_loop (fuel : nat) (s : cstate) : outcome cstate :=
  if ip s <? in_end then
    match fuel with
    | O => OutOfFuel
    | S fuel => s ← literal_byte s; tail_loop fuel s
    end
  else Ok s.

(** The result and the output buffer; 0 when the output does not fit. *)
Definition lzf_compress (htab0 : Z -> Z) (out0 : list Z) (out_len : Z) : outcome (Z * list Z) :=
  if (in_end =? 0) || (out_len =? 0) then Ok (0, out0)
  else
    h ← FRST 0;
    '(r, o) ← compress_loop (length data) out_len (mkC htab0 h 0 1 0 out0);
    match r with
    | None => Ok (0, o)
    | Some s =>
      if out_len <? op s + 3 then Ok (0, o)
      else
        s ← tail_loop (length data) s;
        o ← put (out s) (op s - lit s - 1) (uwrap 8 (lit s - 1));
        Ok (if lit s =? 0 then op s - 1 else op s, o)
    end.
End Compress.

(** ** lzf_decompress *)

Inductive errno := E2BIG | EINVAL.

(** [do *op++ = *ip++; while (--ctrl);] *)
Fixpoint copy_literal (n : nat) (data : list Z) (ip : Z) (out : list Z) (op : Z) : outcome (list Z) :=
  match n with
  | O => Ok out
  | S n => b ← get data ip; out ← put out op b; copy_literal n data (ip + 1) out (op + 1)
  end.

(** Copying [n] bytes from [ref] to [op] within the output, one at a time. *)
Fixpoint copy_ref (n : nat) (out : list Z) (ref op : Z) : outcome (list Z) :=
  match n with
  | O => Ok out
  | S n => b ← get out ref; out ← put out op b; copy_ref n out (ref + 1) (op + 1)
  end.

(** One iteration: the positions and the output, or the error. *)
Definition decompress_iter (data : list Z) (ip : Z) (out : list Z) (op : Z)
    : outcome ((Z * list Z * Z) + errno) :=
  ctrl ← get data ip;
  let ip := ip + 1 in
  if ctrl <? 32 then
    let ctrl := ctrl + 1 in
    if zlen out <? op + ctrl then Ok (inr E2BIG)
    else if zlen data <? ip + ctrl then Ok (inr EINVAL)
    else out ← copy_literal (Z.to_nat ctrl) data ip out op; Ok (inl (ip + ctrl, out, op + ctrl))
  else
    let len := Z.shiftr ctrl 5 in
    let ref := op - Z.shiftl (Z.land ctrl 31) 8 - 1 in
    if zlen data <=? ip then Ok (inr EINVAL)
    else
      r ← (if len =? 7 then
             b ← get data ip;
             if zlen data <=? ip + 1 then Ok (inr EINVAL) else Ok (inl (len + b, ip + 1))
           else Ok (inl (len, ip)));
      match r with
      | inr e => Ok (inr e)
      | inl (len, ip) =>
        b ← get data ip;
        let ref := ref - b in
        let ip := ip + 1 in
        if zlen out <? op + len + 2 then Ok (inr E2BIG)
        else if ref <? 0 then Ok (inr EINVAL)
        else out ← copy_ref (Z.to_nat (len + 2)) out ref op; Ok (inl (ip, out, op + (len + 2)))
      end.

Fixpoint decompress_loop (fuel : nat) (data : list Z) (ip : Z) (out : list Z) (op : Z)
    : outcome ((Z + errno) * list Z) :=
  match fuel with
  | O => OutOfFuel
  | S fuel =>
    r ← decompress_iter data ip out op;
    match r with
    | inr e => Ok (inr e, out)
    | inl (ip, out, op) => if ip <? zlen data then decompress_loop fuel data ip out op else Ok (inl op, out)
    end
  end.

(** The number of bytes written, or the error (the C function then returns 0). *)
Definition lzf_decompress (data out : list Z) : outcome ((Z + errno) * list Z) :=
  decompress_loop (S (length data)) data 0 out 0.

(** Two examples: a run of equal bytes and its decompression. *)
Example lzf_ex :
  exists n o, lzf_compress 100000 (str "aaaaaaaaaaaaaaaaaaaabc") (fun _ => 0) (replicate 30 0) 29 = Ok (n, o) /\
    (n <? 22) = true /\ exists o', lzf_decompress (take (Z.to_nat n) o) (replicate 30 0) = Ok (inl 22, o') /\
    take 22 o' = str "aaaaaaaaaaaaaaaaaaaabc".
Proof. do 2 eexists. split; [vm_compute; reflexivity|]. split; [reflexivity|]. eexists. split; vm_compute; reflexivity. Qed.

(** ** The format

    [decodes s acc res]: the stream [s] extends the output [acc] to [res]. *)

Definition ref_bytes (off len : Z) : list Z :=
  if len <? 7 then [Z.shiftr off 8 + Z.shiftl len 5; off mod 256]
  else [Z.shiftr off 8 + Z.shiftl 7 5; len - 7; off mod 256].

(** Every byte of [x] equals the byte [off + 1] before it, in [acc ++ x]. *)
Definition repeats (acc x : list Z) (off : Z) : Prop :=
  0 <= off < zlen acc /\
  forall i, (length acc <= i < length (acc ++ x))%nat ->
    (acc ++ x) !! i = (acc ++ x) !! (i - Z.to_nat off - 1)%nat.

Inductive decodes : list Z -> list Z -> list Z -> Prop :=
  | dec_nil acc : decodes [] acc acc
  | dec_lit l rest acc res :
      1 <= zlen l <= MAX_LIT -> decodes rest (acc ++ l) res ->
      decodes ((zlen l - 1) :: l ++ rest) acc res
  | dec_ref off len x rest acc res :
      0 <= off < MAX_OFF -> 1 <= len <= 262 -> zlen x = len + 2 -> repeats acc x off ->
      decodes rest (acc ++ x) res -> decodes (ref_bytes off len ++ rest) acc res.

Lemma decodes_app s acc mid t res : decodes s acc mid -> decodes t mid res -> decodes (s ++ t) acc res.
Proof.
  induction 1 as [|l rest acc mid Hl _ IH|off len x rest acc mid Ho Hl Hx Hr _ IH]; intros Ht.
  - done.
  - cbn [app]. rewrite <- app_assoc. apply dec_lit; [done|]. by apply IH.
  - rewrite <- app_assoc. eapply dec_ref; eauto.
Qed.

Lemma get_app a x b i : i = zlen a -> get (a ++ x :: b) i = Ok x.
Proof. intros ->. unfold get. by rewrite rd_app. Qed.

Lemma put_app a x b i y : i = zlen a -> put (a ++ x :: b) i y = Ok (a ++ y :: b).
Proof.
  intros ->. unfold put. pose proof (store_app a [x] b [y] (zlen a) eq_refl eq_refl) as H.
  cbn [app] in H. by rewrite H.
Qed.

Lemma get_lookup (m : list Z) i x : 0 <= i -> m !! Z.to_nat i = Some x -> get m i = Ok x.
Proof. intros Hi Hx. unfold get, rd. destruct (Z.ltb_spec i 0); [lia|]. by rewrite Hx. Qed.

(** Reading the next byte of a buffer that starts with [a]. *)
Lemma uncons_len (l : list Z) : 1 <= zlen l -> exists x k, l = x :: k /\ zlen k = zlen l - 1.
Proof. destruct l as [|x k]; [change (zlen (@nil Z)) with 0; lia|]. intros _. exists x, k. rewrite zlen_cons. split; [done|lia]. Qed.

(** ** The decompressor follows the format *)

Lemma copy_literal_ok l : forall pre post out1 out2,
  zlen l <= zlen out2 ->
  copy_literal (length l) (pre ++ l ++ post) (zlen pre) (out1 ++ out2) (zlen out1) =
  Ok ((out1 ++ l) ++ drop (length l) out2).
Proof.
  induction l as [|b l IH]; intros pre post out1 out2 Hl; cbn [length copy_literal].
  - by rewrite app_nil_r.
  - rewrite zlen_cons in Hl. pose proof (zlen_nonneg l).
    destruct (uncons_len out2) as (x & k & -> & Hk); [lia|].
    cbn [app]. rewrite get_app by done. cbn [mbind outcome_bind]. rewrite put_app by done.
    cbn [mbind outcome_bind].
    change (pre ++ b :: l ++ post) with (pre ++ [b] ++ l ++ post).
    change (out1 ++ b :: k) with (out1 ++ [b] ++ k). rewrite !app_assoc, <- (app_assoc (pre ++ [b])).
    replace (zlen pre + 1) with (zlen (pre ++ [b])) by (rewrite zlen_app; done).
    replace (zlen out1 + 1) with (zlen (out1 ++ [b])) by (rewrite zlen_app; done).
    rewrite IH by lia. rewrite <- (app_assoc out1). done.
Qed.

Lemma copy_ref_ok x : forall acc y off tail,
  repeats acc (y ++ x) off -> zlen x <= zlen tail ->
  copy_ref (length x) ((acc ++ y) ++ tail) (zlen (acc ++ y) - off - 1) (zlen (acc ++ y)) =
  Ok ((acc ++ y ++ x) ++ drop (length x) tail).
Proof.
  induction x as [|b x IH]; intros acc y off tail Hrep Hl; cbn [length copy_ref].
  - by rewrite app_nil_r.
  - rewrite zlen_cons in Hl. pose proof (zlen_nonneg x).
    destruct (uncons_len tail) as (c & k & -> & Hk); [lia|].
    assert (Hget : get ((acc ++ y) ++ c :: k) (zlen (acc ++ y) - off - 1) = Ok b).
    { destruct Hrep as [Hoff Hrep]. pose proof (zlen_nonneg y). rewrite zlen_app.
      apply get_lookup; [lia|]. rewrite lookup_app_l by (rewrite length_app; unfold zlen in *; lia).
      specialize (Hrep (length (acc ++ y))). rewrite !length_app in Hrep. cbn [length] in Hrep.
      specialize (Hrep ltac:(lia)). rewrite app_assoc, <- length_app in Hrep.
      rewrite list_lookup_middle in Hrep by done.
      rewrite lookup_app_l in Hrep by (rewrite length_app; unfold zlen in *; lia).
      rewrite Hrep. f_equal. rewrite length_app. unfold zlen in *. lia. }
    rewrite Hget. cbn [mbind outcome_bind]. rewrite put_app by done. cbn [mbind outcome_bind].
    change (b :: k) with ([b] ++ k). rewrite (app_assoc (acc ++ y) [b] k), <- (app_assoc acc y [b]).
    replace (zlen (acc ++ y) - off - 1 + 1) with (zlen (acc ++ y ++ [b]) - off - 1)
      by (rewrite !zlen_app; change (zlen [b]) with 1; lia).
    replace (zlen (acc ++ y) + 1) with (zlen (acc ++ y ++ [b])) by (rewrite !zlen_app; change (zlen [b]) with 1; lia).
    rewrite (IH acc (y ++ [b]) off k); [|by rewrite <- app_assoc|lia].
    by rewrite <- !app_assoc.
Qed.

(** The fields of the control byte of a back reference. *)
Lemma ctrl_fields off n : 0 <= off < MAX_OFF -> 1 <= n <= 7 ->
  let ctrl := Z.shiftr off 8 + Z.shiftl n 5 in
  32 <= ctrl < 256 /\ Z.shiftr ctrl 5 = n /\ Z.shiftl (Z.land ctrl 31) 8 + off mod 256 = off.
Proof.
  intros Ho Hn ctrl. unfold MAX_OFF in Ho. change 31 with (Z.ones 5).
  assert (Hc : ctrl = off / 256 + n * 32).
  { unfold ctrl. rewrite Z.shiftr_div_pow2, Z.shiftl_mul_pow2 by lia. done. }
  rewrite Z.land_ones, Z.shiftr_div_pow2, Z.shiftl_mul_pow2 by lia.
  change (2 ^ 5) with 32. change (2 ^ 8) with 256.
  pose proof (Z.div_mod off 256 ltac:(lia)). pose proof (Z.mod_pos_bound off 256 ltac:(lia)).
  assert (0 <= off / 256 < 32) by lia. rewrite Hc. split; [lia|].
  rewrite Z.div_add, Z.mod_add by lia. rewrite (Z.div_small (off / 256)), (Z.mod_small (off / 256)) by lia. lia.
Qed.

(** One literal run. *)
Lemma decompress_iter_lit pre l rest acc tail :
  1 <= zlen l <= MAX_LIT -> zlen l <= zlen tail ->
  decompress_iter (pre ++ (zlen l - 1) :: l ++ rest) (zlen pre) (acc ++ tail) (zlen acc) =
  Ok (inl (zlen (pre ++ (zlen l - 1) :: l), (acc ++ l) ++ drop (length l) tail, zlen (acc ++ l))).
Proof.
  unfold MAX_LIT. intros Hl Ht. unfold decompress_iter. rewrite (get_app pre _ _ (zlen pre)) by done. cbn [mbind outcome_bind].
  destruct (Z.ltb_spec (zlen l - 1) 32); [|lia]. replace (zlen l - 1 + 1) with (zlen l) by lia.
  rewrite !zlen_app, !zlen_cons, !zlen_app. pose proof (zlen_nonneg rest). pose proof (zlen_nonneg acc).
  destruct (Z.ltb_spec (zlen acc + zlen tail) (zlen acc + zlen l)); [lia|].
  destruct (Z.ltb_spec (zlen pre + (1 + (zlen l + zlen rest))) (zlen pre + 1 + zlen l)); [lia|].
  pose proof (copy_literal_ok l (pre ++ [zlen l - 1]) rest acc tail Ht) as Hcopy.
  rewrite <- app_assoc, zlen_app in Hcopy. cbn [app] in Hcopy. change (zlen [zlen l - 1]) with 1 in Hcopy.
  replace (Z.to_nat (zlen l)) with (length l) by (unfold zlen; lia). rewrite Hcopy. cbn [mbind outcome_bind].
  do 4 f_equal. lia.
Qed.

(** One back reference. *)
Lemma decompress_iter_ref pre off len x rest acc tail :
  0 <= off < MAX_OFF -> 1 <= len <= 262 -> zlen x = len + 2 -> repeats acc x off -> zlen x <= zlen tail ->
  decompress_iter (pre ++ ref_bytes off len ++ rest) (zlen pre) (acc ++ tail) (zlen acc) =
  Ok (inl (zlen (pre ++ ref_bytes off len), (acc ++ x) ++ drop (length x) tail, zlen (acc ++ x))).
Proof.
  intros Ho Hlen Hx Hrep Ht.
  pose proof (copy_ref_ok x acc [] off tail Hrep Ht) as Hcopy. rewrite !app_nil_r in Hcopy. cbn [app] in Hcopy.
  replace (length x) with (Z.to_nat (len + 2)) in Hcopy at 1 by (unfold zlen in Hx; lia).
  pose proof (zlen_nonneg rest). pose proof (zlen_nonneg acc). pose proof (zlen_nonneg pre). destruct Hrep as [Hoff _].
  assert (Hsz : (zlen (acc ++ tail) <? zlen acc + len + 2) = false) by (rewrite zlen_app; apply Z.ltb_ge; lia).
  assert (Hop : zlen acc + (len + 2) = zlen (acc ++ x)) by (rewrite zlen_app; lia).
  unfold decompress_iter, ref_bytes. destruct (Z.ltb_spec len 7) as [Hs|Hb]; cbn [app].
  - destruct (ctrl_fields off len Ho ltac:(lia)) as (Hc1 & Hc2 & Hc3).
    set (ctrl := Z.shiftr off 8 + Z.shiftl len 5) in *.
    assert (HD : zlen (pre ++ ctrl :: off mod 256 :: rest) = zlen pre + 2 + zlen rest) by (rewrite zlen_app, !zlen_cons; lia).
    rewrite (get_app pre _ _ (zlen pre)) by done. cbn [mbind outcome_bind]. rewrite HD.
    destruct (Z.ltb_spec ctrl 32); [lia|]. rewrite Hc2.
    destruct (Z.leb_spec (zlen pre + 2 + zlen rest) (zlen pre + 1)); [lia|].
    destruct (Z.eqb_spec len 7); [lia|]. cbn [mbind outcome_bind].
    change (pre ++ ctrl :: off mod 256 :: rest) with (pre ++ [ctrl] ++ off mod 256 :: rest).
    rewrite app_assoc, get_app by (rewrite zlen_app; done). cbn [mbind outcome_bind].
    rewrite Hsz. replace (zlen acc - Z.shiftl (Z.land ctrl 31) 8 - 1 - off mod 256) with (zlen acc - off - 1) by lia.
    destruct (Z.ltb_spec (zlen acc - off - 1) 0); [lia|]. rewrite Hcopy, Hop. cbn [mbind outcome_bind].
    do 4 f_equal. rewrite zlen_app. change (zlen [ctrl; off mod 256]) with 2. lia.
  - destruct (ctrl_fields off 7 Ho ltac:(lia)) as (Hc1 & Hc2 & Hc3).
    set (ctrl := Z.shiftr off 8 + Z.shiftl 7 5) in *.
    assert (HD : zlen (pre ++ ctrl :: (len - 7) :: off mod 256 :: rest) = zlen pre + 3 + zlen rest) by (rewrite zlen_app, !zlen_cons; lia).
    rewrite (get_app pre _ _ (zlen pre)) by done. cbn [mbind outcome_bind]. rewrite HD.
    destruct (Z.ltb_spec ctrl 32); [lia|]. rewrite Hc2.
    destruct (Z.leb_spec (zlen pre + 3 + zlen rest) (zlen pre + 1)); [lia|].
    destruct (Z.eqb_spec 7 7); [|lia].
    change (pre ++ ctrl :: (len - 7) :: off mod 256 :: rest) with (pre ++ [ctrl] ++ (len - 7) :: off mod 256 :: rest).
    rewrite app_assoc, (get_app (pre ++ [ctrl]) _ _ (zlen pre + 1)) by (rewrite zlen_app; done). cbn [mbind outcome_bind].
    destruct (Z.leb_spec (zlen pre + 3 + zlen rest) (zlen pre + 1 + 1)); [lia|]. cbn [mbind outcome_bind].
    change ((pre ++ [ctrl]) ++ (len - 7) :: off mod 256 :: rest) with ((pre ++ [ctrl]) ++ [len - 7] ++ off mod 256 :: rest).
    rewrite app_assoc, get_app by (rewrite !zlen_app; done). cbn [mbind outcome_bind].
    replace (7 + (len - 7)) with len by lia. rewrite Hsz.
    replace (zlen acc - Z.shiftl (Z.land ctrl 31) 8 - 1 - off mod 256) with (zlen acc - off - 1) by lia.
    destruct (Z.ltb_spec (zlen acc - off - 1) 0); [lia|]. rewrite Hcopy, Hop. cbn [mbind outcome_bind].
    do 4 f_equal. rewrite zlen_app. change (zlen [ctrl; len - 7; off mod 256]) with 3. lia.
Qed.

Lemma decodes_grows s acc res : decodes s acc res -> exists x, res = acc ++ x.
Proof.
  induction 1 as [acc|l rest acc res _ _ (x & ->)|off len y rest acc res _ _ _ _ _ (x & ->)].
  - exists []. by rewrite app_nil_r.
  - rewrite <- app_assoc. by eexists.
  - rewrite <- app_assoc. by eexists.
Qed.

Lemma decodes_nil acc res : decodes [] acc res -> res = acc.
Proof.
  inversion 1 as [| |off len x rest ? ? ? ? ? ? ? He]; [done|]. unfold ref_bytes in He.
  destruct (len <? 7); discriminate He.
Qed.

Lemma decompress_loop_ok s acc res : decodes s acc res -> forall fuel pre tail,
  s <> [] -> (length s < fuel)%nat -> zlen res <= zlen (acc ++ tail) ->
  exists tail', decompress_loop fuel (pre ++ s) (zlen pre) (acc ++ tail) (zlen acc) =
    Ok (inl (zlen res), res ++ tail') /\ length (res ++ tail') = length (acc ++ tail).
Proof.
  induction 1 as [acc|l rest acc res Hl Hdec IH|off len x rest acc res Ho Hlen Hx Hrep Hdec IH];
    intros fuel pre tail Hne Hf Hres; [done| |]; (destruct fuel as [|fuel]; [cbn in Hf; lia|]); cbn [decompress_loop];
    destruct (decodes_grows _ _ _ Hdec) as (y & Hy); pose proof (f_equal zlen Hy) as Hy2;
    rewrite !zlen_app in Hy2; rewrite zlen_app in Hres; pose proof (zlen_nonneg y).
  - rewrite decompress_iter_lit by (done || lia). cbn [mbind outcome_bind].
    change (pre ++ (zlen l - 1) :: l ++ rest) with (pre ++ ((zlen l - 1) :: l) ++ rest).
    rewrite (app_assoc pre ((zlen l - 1) :: l) rest).
    destruct (decide (rest = [])) as [->|Hrest].
    + apply decodes_nil in Hdec as ->. rewrite app_nil_r, Z.ltb_irrefl. eexists. split; [done|]. rewrite !length_app, length_drop. unfold zlen in *. lia.
    + rewrite (proj2 (Z.ltb_lt _ _)).
      2:{ rewrite (zlen_app (_ ++ _)). destruct rest; [done|]. rewrite (zlen_cons _ rest). pose proof (zlen_nonneg rest). lia. }
      edestruct IH as (t & E & Hlen'); [done| | |exists t; split; [exact E|rewrite Hlen', !length_app, length_drop; unfold zlen in *; lia]].
      * cbn in Hf. rewrite length_app in Hf. lia.
      * rewrite !zlen_app. unfold zlen in *. rewrite length_drop. lia.
  - rewrite (decompress_iter_ref pre off len x) by (done || lia). cbn [mbind outcome_bind]. rewrite (app_assoc pre).
    destruct (decide (rest = [])) as [->|Hrest].
    + apply decodes_nil in Hdec as ->. rewrite app_nil_r, Z.ltb_irrefl. eexists. split; [done|]. rewrite !length_app, length_drop. unfold zlen in *. lia.
    + rewrite (proj2 (Z.ltb_lt _ _)).
      2:{ rewrite (zlen_app (_ ++ _)). destruct rest; [done|]. rewrite (zlen_cons _ rest). pose proof (zlen_nonneg rest). lia. }
      edestruct IH as (t & E & Hlen'); [done| | |exists t; split; [exact E|rewrite Hlen', !length_app, length_drop; unfold zlen in *; lia]].
      * rewrite length_app in Hf. unfold ref_bytes in Hf. destruct (len <? 7); cbn in Hf; lia.
      * rewrite !zlen_app. unfold zlen in *. rewrite length_drop. lia.
Qed.

(** ** The compressor *)

Lemma get_in (m : list Z) i : 0 <= i < zlen m -> exists x, get m i = Ok x /\ m !! Z.to_nat i = Some x.
Proof.
  intros Hi. destruct (lookup_lt_is_Some_2 m (Z.to_nat i)) as (x & Hx); [unfold zlen in Hi; lia|].
  exists x. split; [|done]. apply get_lookup; [lia|done].
Qed.

Section CompressProof.
Context (base : Z) (data : list Z).
(** No object lies at the lowest addresses, and the input does not wrap around. *)
Hypothesis Hbase : MAX_OFF <= base.
Hypothesis Hfit : base + zlen data <= 2 ^ 64.

(** The [len] bytes at [r] and at [p] are the same. *)
Definition same (r p len : Z) : Prop :=
  forall j, 0 <= j < len -> data !! Z.to_nat (r + j) = data !! Z.to_nat (p + j).

Lemma same_snoc r p len x : same r p len -> 0 <= len -> data !! Z.to_nat (r + len) = Some x ->
  data !! Z.to_nat (p + len) = Some x -> same r p (len + 1).
Proof. intros Hs Hl Hr Hp j Hj. destruct (decide (j = len)) as [->|]; [congruence|]. apply Hs. lia. Qed.

Lemma unrolled_ok r p n : forall len,
  0 <= r < p -> 0 <= len -> p + len + Z.of_nat n < zlen data -> same r p (len + 1) ->
  exists len' go, unrolled data n r p len = Ok (len', go) /\
    if go : bool then len' = len + Z.of_nat n /\ same r p (len' + 1)
    else len < len' <= len + Z.of_nat n /\ same r p len'.
Proof.
  induction n as [|n IH]; intros len Hr Hlen Hin Hsame; cbn [unrolled].
  - exists len, true. split; [done|]. rewrite Z.add_0_r. done.
  - destruct (get_in data (r + (len + 1))) as (a & -> & Ha); [lia|]. cbn [mbind outcome_bind].
    destruct (get_in data (p + (len + 1))) as (b & -> & Hb); [lia|]. cbn [mbind outcome_bind].
    destruct (Z.eqb_spec a b) as [->|Hne]; cbn [negb].
    + destruct (IH (len + 1)) as (len' & go & -> & Hgo); [lia|lia|lia| |].
      { eapply same_snoc; eauto. lia. }
      exists len', go. split; [done|]. destruct go; [|lia || (split; [lia|apply Hgo])].
      split; [lia|apply Hgo].
    + exists (len + 1), false. split; [done|]. split; [lia|done].
Qed.

Lemma extend_ok r p maxlen fuel : forall len,
  0 <= r < p -> 0 <= len -> p + maxlen <= zlen data -> same r p (len + 1) ->
  maxlen - len <= Z.of_nat fuel -> (0 < fuel)%nat ->
  exists len', extend data fuel r p len maxlen = Ok len' /\ len < len' /\ len' <= Z.max (len + 1) maxlen /\ same r p len'.
Proof.
  induction fuel as [|fuel IH]; intros len Hr Hlen Hin Hsame Hf Hf0; [lia|]. cbn [extend].
  destruct (Z.ltb_spec (len + 1) maxlen) as [Hlt|Hge].
  - destruct (get_in data (r + (len + 1))) as (a & -> & Ha); [lia|]. cbn [mbind outcome_bind].
    destruct (get_in data (p + (len + 1))) as (b & -> & Hb); [lia|]. cbn [mbind outcome_bind].
    destruct (Z.eqb_spec a b) as [->|Hne].
    + destruct (IH (len + 1)) as (len' & -> & H1 & H2 & H3); [lia|lia|lia| |lia|lia|].
      { eapply same_snoc; eauto. lia. }
      exists len'. split_and!; try done; lia.
    + exists (len + 1). split_and!; try done; lia.
  - exists (len + 1). split_and!; try done; lia.
Qed.

Lemma match_length_ok r p : 0 <= r < p -> p + 4 < zlen data -> same r p 3 ->
  exists len, match_length data r p = Ok len /\ 3 <= len <= MAX_REF /\ p + len <= zlen data /\ same r p len.
Proof.
  intros Hr Hp Hs. unfold match_length, in_end.
  set (maxlen := if MAX_REF <? zlen data - p - 2 then MAX_REF else zlen data - p - 2).
  assert (Hm : 3 <= maxlen <= MAX_REF /\ p + maxlen + 2 <= zlen data).
  { unfold maxlen, MAX_REF. destruct (Z.ltb_spec 264 (zlen data - p - 2)); lia. }
  clearbody maxlen. unfold MAX_REF in *. destruct (Z.ltb_spec 16 maxlen).
  - destruct (unrolled_ok r p 16 2) as (len & go & -> & Hgo); [lia|lia|lia|done|]. cbn [mbind outcome_bind].
    destruct go.
    + destruct Hgo as [-> Hsame].
      destruct (extend_ok r p maxlen (length data) (2 + Z.of_nat 16)) as (len & -> & H1 & H2 & H3);
        [lia|lia|lia|done|unfold zlen in *; lia|unfold zlen in *; lia|].
      exists len. split_and!; try done; lia.
    + exists len. destruct Hgo. split_and!; try done; lia.
  - destruct (extend_ok r p maxlen (length data) 2) as (len & -> & H1 & H2 & H3);
      [lia|lia|lia|done|unfold zlen in *; lia|unfold zlen in *; lia|].
    exists len. split_and!; try done; lia.
Qed.

(** The test accepts only positions of the input before [p]. *)
Lemma match_test_ok p ref : 0 <= p < zlen data -> 0 <= ref < 2 ^ 64 ->
  exists hit, match_test base data p ref = Ok hit /\
    (hit = true -> let r := ref - base in
      0 < r < p /\ offset_of base p ref = p - r - 1 /\ p - r - 1 < MAX_OFF /\ p + 4 < zlen data /\ same r p 3).
Proof.
  intros Hp Href. unfold match_test, in_end.
  destruct (Z.ltb_spec (offset_of base p ref) MAX_OFF) as [Hoff|]; [|by exists false].
  destruct (Z.ltb_spec (p + 4) (zlen data)) as [H4|]; [|by exists false].
  destruct (Z.ltb_spec base ref) as [Hb|]; [|by exists false]. cbn [andb].
  assert (Hr : 0 < ref - base < p).
  { split; [lia|]. unfold offset_of, uwrap, MAX_OFF in *. destruct (Z.le_gt_cases p (ref - base)); [exfalso|lia].
    rewrite <- (Z.mod_add _ 1) in Hoff by lia. rewrite Z.mod_small in Hoff by lia. lia. }
  assert (Heq : offset_of base p ref = p - (ref - base) - 1).
  { unfold offset_of. rewrite uwrap_id; [lia|split; lia]. }
  set (r := ref - base) in *.
  destruct (get_in data r) as (r0 & -> & Hr0); [lia|]. destruct (get_in data (r + 1)) as (r1 & -> & Hr1); [lia|].
  destruct (get_in data p) as (i0 & -> & Hi0); [lia|]. destruct (get_in data (p + 1)) as (i1 & -> & Hi1); [lia|].
  cbn [mbind outcome_bind].
  destruct (Z.eqb_spec r0 i0) as [->|]; [|by exists false]. destruct (Z.eqb_spec r1 i1) as [->|]; [|by exists false].
  cbn [andb]. destruct (get_in data (r + 2)) as (r2 & -> & Hr2); [lia|].
  destruct (get_in data (p + 2)) as (i2 & -> & Hi2); [lia|]. cbn [mbind outcome_bind].
  exists (r2 =? i2). split; [done|]. intros ->%Z.eqb_eq. cbv zeta. split_and!; try lia.
  intros j Hj. assert (j = 0 \/ j = 1 \/ j = 2) as [->|[->| ->]] by lia; rewrite ?Z.add_0_r; congruence.
Qed.

(** The state of the loop: the finished runs [S] decode to the input before the current run
    [L], whose length byte [x] is not written yet.  The output buffer has [N + 1] bytes. *)
Record inv (N : Z) (s : cstate) (S : list Z) (x : Z) (L rest D dt : list Z) : Prop := {
  inv_out : out s = S ++ x :: L ++ rest;
  inv_S : zlen S = op s - lit s - 1;
  inv_L : zlen L = lit s;
  inv_lit : 0 <= lit s < MAX_LIT;
  inv_data : data = D ++ L ++ dt;
  inv_D : zlen D = ip s - lit s;
  inv_dec : decodes S [] D;
  inv_len : zlen (out s) = N + 1;
  inv_htab : forall i, 0 <= htab s i < 2 ^ 64 }.

Definition good (N : Z) (s : cstate) : Prop := exists S x L rest D dt, inv N s S x L rest D dt.

(** [op] when the current run is closed. *)
Definition closed_op (s : cstate) : Z := if lit s =? 0 then op s - 1 else op s.

Lemma good_bounds N s : good N s -> 0 <= ip s <= zlen data /\ 1 <= op s <= N + 1 /\ 0 <= lit s < MAX_LIT /\ 0 <= closed_op s.
Proof.
  intros (S & x & L & rest & D & dt & [Ho HS HL Hl Hd HD Hdec Hlen Hh]).
  apply (f_equal zlen) in Hd. rewrite !zlen_app in Hd. rewrite Ho, zlen_app, zlen_cons, zlen_app in Hlen.
  pose proof (zlen_nonneg S). pose proof (zlen_nonneg D). pose proof (zlen_nonneg dt). pose proof (zlen_nonneg rest).
  unfold closed_op. destruct (Z.eqb_spec (lit s) 0); split_and!; lia.
Qed.

(** Writing the length byte closes the run. *)
Lemma stop_run N s : good N s ->
  exists S rest, put (out s) (op s - lit s - 1) (uwrap 8 (lit s - 1)) = Ok (S ++ rest) /\
    zlen S = closed_op s /\ decodes S [] (take (Z.to_nat (ip s)) data) /\ zlen (S ++ rest) = N + 1.
Proof.
  intros (S & x & L & rest & D & dt & [Ho HS HL Hl Hd HD Hdec Hlen Hh]).
  rewrite Ho, put_app by lia. unfold closed_op, MAX_LIT in *.
  assert (Htake : take (Z.to_nat (ip s)) data = D ++ L).
  { rewrite Hd, app_assoc, take_app_length'; [done|]. rewrite length_app. unfold zlen in *. lia. }
  rewrite Htake.
  assert (Hlen' : forall y, zlen (S ++ y :: L ++ rest) = N + 1).
  { intros y. rewrite Ho, zlen_app, zlen_cons in Hlen. rewrite zlen_app, zlen_cons. done. }
  destruct (Z.eqb_spec (lit s) 0) as [E|E].
  - assert (L = []) as -> by (destruct L; [done|]; rewrite zlen_cons in HL; pose proof (zlen_nonneg L); lia).
    exists S, (uwrap 8 (lit s - 1) :: rest). rewrite app_nil_r. split_and!; [done|lia|done|apply (Hlen' _)].
  - exists (S ++ (lit s - 1) :: L), rest. rewrite uwrap_id by (split; lia). split_and!.
    + by rewrite <- app_assoc.
    + rewrite zlen_app, zlen_cons. lia.
    + eapply decodes_app; [done|]. rewrite <- HL. pose proof (dec_lit L [] D (D ++ L)) as Hd2.
      rewrite app_nil_r in Hd2. apply Hd2; [unfold MAX_LIT; lia|]. constructor.
    + rewrite <- app_assoc. apply (Hlen' _).
Qed.

Lemma literal_byte_ok N s : good N s -> ip s < zlen data -> op s < N ->
  exists s', literal_byte data s = Ok s' /\ good N s' /\ ip s' = ip s + 1 /\ op s' <= op s + 2 /\
    closed_op s' = op s + 1.
Proof.
  intros (S & x & L & rest & D & dt & [Ho HS HL Hl Hd HD Hdec Hlen Hh]) Hip Hop.
  unfold literal_byte.
  destruct (uncons_len dt) as (b & dt' & -> & Hdt).
  { apply (f_equal zlen) in Hd. rewrite !zlen_app in Hd. lia. }
  assert (Hg : get data (ip s) = Ok b).
  { rewrite Hd, app_assoc. apply get_app. rewrite zlen_app. lia. }
  rewrite Hg. cbn [mbind outcome_bind].
  destruct (uncons_len rest) as (y & rest' & -> & Hr).
  { rewrite Ho, zlen_app, zlen_cons, zlen_app in Hlen. lia. }
  assert (Hp : put (out s) (op s) b = Ok (S ++ x :: (L ++ [b]) ++ rest')).
  { rewrite Ho. change (S ++ x :: L ++ y :: rest') with (S ++ ([x] ++ L) ++ y :: rest').
    rewrite app_assoc, put_app by (rewrite !zlen_app; change (zlen [x]) with 1; lia).
    by rewrite <- !app_assoc. }
  rewrite Hp. cbn [mbind outcome_bind].
  assert (Hlen' : forall z, zlen (S ++ z :: (L ++ [b]) ++ rest') = N + 1).
  { intros z. rewrite Ho, zlen_app, zlen_cons, zlen_app, zlen_cons in Hlen.
    rewrite zlen_app, zlen_cons, !zlen_app. change (zlen [b]) with 1. lia. }
  assert (HLb : zlen (L ++ [b]) = lit s + 1) by (rewrite zlen_app; change (zlen [b]) with 1; lia).
  assert (Hd' : data = D ++ (L ++ [b]) ++ dt') by (rewrite Hd; by rewrite <- !app_assoc).
  unfold closed_op, MAX_LIT in *. destruct (Z.eqb_spec (lit s + 1) 32) as [E|E].
  - rewrite put_app by lia. cbn [mbind outcome_bind]. eexists. split; [done|]. cbn [ip op lit].
    split_and!; try lia. 2:{ cbn. lia. }
    destruct (uncons_len rest') as (z & rest2 & -> & Hr2).
    { rewrite Ho, zlen_app, zlen_cons, zlen_app, zlen_cons in Hlen. lia. }
    exists (S ++ (lit s) :: L ++ [b]), z, [], rest2, (D ++ L ++ [b]), dt'.
    assert (Hu : uwrap 8 (lit s + 1 - 1) = lit s) by (rewrite uwrap_id; [lia|split; lia]).
    split; cbn [out op lit ip htab]; try done.
    + rewrite Hu. cbn [app]. rewrite <- !app_assoc. cbn [app]. by rewrite <- app_assoc.
    + rewrite zlen_app, zlen_cons. lia.
    + cbn [app]. by rewrite Hd', <- !app_assoc.
    + rewrite zlen_app. lia.
    + eapply decodes_app; [done|]. replace (lit s) with (zlen (L ++ [b]) - 1) by lia.
      pose proof (dec_lit (L ++ [b]) [] D (D ++ L ++ [b])) as Hd2. rewrite app_nil_r in Hd2.
      apply Hd2; [unfold MAX_LIT; lia|]. constructor.
  - eexists. split; [done|]. cbn [ip op lit]. split_and!; try lia.
    + exists S, x, (L ++ [b]), rest', D, dt'. split; cbn; try done; unfold MAX_LIT; lia.
    + destruct (Z.eqb_spec (lit s + 1) 0); lia.
Qed.

Lemma write_ref_ok S rest off len : 0 <= off < MAX_OFF -> 1 <= len <= 262 -> 3 <= zlen rest ->
  exists rest', write_ref (S ++ rest) (zlen S) off len =
      Ok ((S ++ ref_bytes off len) ++ rest', zlen (S ++ ref_bytes off len)) /\
    zlen (ref_bytes off len) + zlen rest' = zlen rest.
Proof.
  intros Ho Hlen Hr.
  destruct (uncons_len rest) as (x & k & -> & Hk); [lia|]. destruct (uncons_len k) as (y & k2 & -> & Hk2); [lia|].
  destruct (uncons_len k2) as (z & k3 & -> & Hk3); [lia|].
  assert (Hoff : uwrap 8 off = off mod 256) by done.
  unfold write_ref, ref_bytes. destruct (Z.ltb_spec len 7).
  - destruct (ctrl_fields off len Ho ltac:(lia)) as (Hc1 & Hc2 & Hc3).
    set (ctrl := Z.shiftr off 8 + Z.shiftl len 5) in *. rewrite (uwrap_id 8 ctrl) by (split; lia).
    rewrite put_app by done. cbn [mbind outcome_bind].
    change (S ++ ctrl :: y :: z :: k3) with (S ++ [ctrl] ++ y :: z :: k3).
    rewrite app_assoc, put_app by (rewrite zlen_app; done). cbn [mbind outcome_bind].
    exists (z :: k3). rewrite Hoff. rewrite <- !app_assoc. split.
    + do 2 f_equal. rewrite !zlen_app. change (zlen [ctrl; off mod 256]) with 2. lia.
    + change (zlen [ctrl; off mod 256]) with 2. rewrite !zlen_cons in *. lia.
  - destruct (ctrl_fields off 7 Ho ltac:(lia)) as (Hc1 & Hc2 & Hc3).
    set (ctrl := Z.shiftr off 8 + Z.shiftl 7 5) in *. rewrite !(uwrap_id 8 ctrl), !(uwrap_id 8 (len - 7)) by (split; lia).
    rewrite put_app by done. cbn [mbind outcome_bind].
    change (S ++ ctrl :: y :: z :: k3) with (S ++ [ctrl] ++ y :: z :: k3).
    rewrite app_assoc, put_app by (rewrite zlen_app; done). cbn [mbind outcome_bind].
    change ((S ++ [ctrl]) ++ (len - 7) :: z :: k3) with ((S ++ [ctrl]) ++ [len - 7] ++ z :: k3).
    rewrite app_assoc, put_app by (rewrite !zlen_app; change (zlen [ctrl]) with 1; change (zlen [len - 7]) with 1; lia). cbn [mbind outcome_bind].
    exists k3. rewrite Hoff. rewrite <- !app_assoc. split.
    + do 2 f_equal. rewrite !zlen_app. change (zlen [ctrl; len - 7; off mod 256]) with 3. lia.
    + change (zlen [ctrl; len - 7; off mod 256]) with 3. rewrite !zlen_cons in *. lia.
Qed.

(** A match is a back reference of the format. *)
Lemma same_repeats r p len : 0 <= r < p -> 0 <= len -> p + len <= zlen data -> same r p len ->
  let acc := take (Z.to_nat p) data in let x := take (Z.to_nat len) (drop (Z.to_nat p) data) in
  zlen x = len /\ repeats acc x (p - r - 1) /\ acc ++ x = take (Z.to_nat (p + len)) data.
Proof.
  intros Hr Hl Hin Hs acc x.
  assert (Hcat : acc ++ x = take (Z.to_nat (p + len)) data).
  { unfold acc, x. rewrite take_take_drop. f_equal. lia. }
  assert (Hacc : length acc = Z.to_nat p) by (unfold acc, zlen in *; rewrite length_take; lia).
  assert (Hx : length x = Z.to_nat len) by (unfold x, zlen in *; rewrite length_take, length_drop; lia).
  split_and!; [unfold zlen; lia| |done]. split; [unfold zlen; lia|].
  intros i Hi. rewrite length_app in Hi. rewrite Hcat, !lookup_take_lt by lia.
  specialize (Hs (Z.of_nat i - p) ltac:(lia)).
  replace (Z.to_nat (p + (Z.of_nat i - p))) with i in Hs by lia.
  rewrite <- Hs. f_equal. lia.
Qed.

Definition iter_ok (N : Z) (s : cstate) (r : iter) : Prop :=
  match r with
  | CGo s' => good N s' /\ ip s < ip s'
  | CBreak s' => good N s' /\ zlen data - 2 <= ip s'
  | CFail o => zlen o = N + 1
  end.

Lemma upd_range h i v : (forall j, 0 <= h j < 2 ^ 64) -> 0 <= v < 2 ^ 64 -> forall j, 0 <= upd h i v j < 2 ^ 64.
Proof. intros Hh Hv j. unfold upd. destruct (j =? i); [done|apply Hh]. Qed.

Lemma NEXT_ok v p : 0 <= p -> p + 2 < zlen data -> exists h, NEXT data v p = Ok h.
Proof. intros Hp Hin. unfold NEXT. destruct (get_in data (p + 2)) as (x & -> & _); [lia|]. by eexists. Qed.

Lemma FRST_ok p : 0 <= p -> p + 1 < zlen data -> exists h, FRST data p = Ok h.
Proof.
  intros Hp Hin. unfold FRST. destruct (get_in data p) as (x & -> & _); [lia|].
  destruct (get_in data (p + 1)) as (y & -> & _); [lia|]. by eexists.
Qed.

Lemma emit_match_ok N s ref : good N s ->
  let r := ref - base in
  0 < r < ip s -> offset_of base (ip s) ref = ip s - r - 1 -> ip s - r - 1 < MAX_OFF -> ip s + 4 < zlen data ->
  same r (ip s) 3 ->
  exists i, emit_match base data N s ref = Ok i /\ iter_ok N s i.
Proof.
  intros Hg r Hr Hoffeq Hoff Hip Hsame. unfold emit_match, in_end. rewrite Hoffeq. fold r.
  destruct (stop_run N s Hg) as (S & rest & -> & HS & Hdec & Hlen). cbn [mbind outcome_bind]. fold (closed_op s).
  destruct (Z.leb_spec N (closed_op s + 3 + 1)); [by eexists|]. rewrite zlen_app in Hlen.
  destruct (match_length_ok r (ip s)) as (len & -> & Hlr & Hlin & Hsl); [lia|done|done|]. cbn [mbind outcome_bind].
  unfold MAX_REF in Hlr. rewrite <- HS.
  destruct (write_ref_ok S rest (ip s - r - 1) (len - 2)) as (rest' & -> & Hrest'); [lia|lia|lia|]. cbn [mbind outcome_bind].
  destruct (same_repeats r (ip s) len) as (Hx & Hrep & Hcat); [lia|lia|lia|done|].
  set (S' := S ++ ref_bytes (ip s - r - 1) (len - 2)) in *.
  assert (Hdec' : decodes S' [] (take (Z.to_nat (ip s + len)) data)).
  { unfold S'. eapply decodes_app; [done|]. rewrite <- (app_nil_r (ref_bytes _ _)).
    eapply dec_ref; [lia|lia| |exact Hrep|rewrite Hcat; constructor]. lia. }
  assert (HS' : zlen S' + zlen rest' = N + 1) by (unfold S'; rewrite zlen_app; lia).
  assert (Hrb : zlen (ref_bytes (ip s - r - 1) (len - 2)) <= 3).
  { unfold ref_bytes. case_match; unfold zlen; cbn [length]; lia. }
  destruct (uncons_len rest') as (y & rest2 & -> & Hr2).
  { unfold S' in HS'. rewrite zlen_app in HS'. lia. }
  assert (Hgood : forall h v, (forall j, 0 <= h j < 2 ^ 64) ->
    good N (mkC h v (ip s + len) (zlen S' + 1) 0 (S' ++ y :: rest2))).
  { intros h v Hh. exists S', y, [], rest2, (take (Z.to_nat (ip s + len)) data), (drop (Z.to_nat (ip s + len)) data).
    split; cbn [out op lit ip htab app]; try done; try (unfold MAX_LIT; lia).
    - by rewrite take_drop.
    - unfold zlen in *. rewrite length_take. lia.
    - rewrite zlen_app. lia. }
  replace (ip s + 1 + (len - 2 + 1)) with (ip s + len) by lia.
  assert (Hht : forall j, 0 <= htab s j < 2 ^ 64) by (by destruct Hg as (? & ? & ? & ? & ? & ? & [])).
  unfold MAX_OFF in *.
  destruct (Z.leb_spec (zlen data - 2) (ip s + len)).
  - eexists. split; [done|]. split; [|cbn; lia]. by apply Hgood.
  - destruct (FRST_ok (ip s + len - 2)) as (h0 & ->); [lia|lia|]. cbn [mbind outcome_bind].
    destruct (NEXT_ok h0 (ip s + len - 2)) as (h1 & ->); [lia|lia|]. cbn [mbind outcome_bind].
    destruct (NEXT_ok h1 (ip s + len - 2 + 1)) as (h2 & ->); [lia|lia|]. cbn [mbind outcome_bind].
    eexists. split; [done|]. replace (ip s + len - 2 + 2) with (ip s + len) by lia.
    split; [|cbn; lia]. apply Hgood. apply upd_range; [apply upd_range|]; [done|lia|lia].
Qed.

Lemma good_upd N s h i v : good N s -> 0 <= v < 2 ^ 64 ->
  good N (mkC (upd (htab s) i v) h (ip s) (op s) (lit s) (out s)).
Proof.
  intros (S & x & L & rest & D & dt & [Ho HS HL Hl Hd HD Hdec Hlen Hh]) Hv.
  exists S, x, L, rest, D, dt. split; cbn; try done. by apply upd_range.
Qed.

Lemma compress_iter_ok N s : good N s -> ip s < zlen data - 2 ->
  exists i, compress_iter base data N s = Ok i /\ iter_ok N s i.
Proof.
  intros Hg Hip. pose proof (good_bounds N s Hg) as (Hb1 & Hb2 & _).
  unfold compress_iter. destruct (NEXT_ok (hval s) (ip s)) as (h & ->); [lia|lia|]. cbn [mbind outcome_bind].
  set (s1 := mkC _ h (ip s) (op s) (lit s) (out s)).
  assert (Hg1 : good N s1).
  { apply good_upd; [done|]. unfold MAX_OFF in *. lia. }
  change (ip s) with (ip s1) in Hip, Hb1 |- *. change (iter_ok N s) with (iter_ok N s1).
  destruct (match_test_ok (ip s1) (htab s (IDX h))) as (hit & -> & Hhit); [lia| |].
  { by destruct Hg as (? & ? & ? & ? & ? & ? & []). }
  cbn [mbind outcome_bind]. destruct hit.
  - specialize (Hhit eq_refl). cbv zeta in Hhit. destruct Hhit as (H1 & H2 & H3 & H4 & H5).
    by apply emit_match_ok.
  - destruct (Z.leb_spec N (op s1)).
    + eexists. split; [done|]. by destruct Hg1 as (? & ? & ? & ? & ? & ? & []).
    + destruct (literal_byte_ok N s1 Hg1) as (s' & -> & Hg' & Hip' & _); [lia|lia|].
      cbn [mbind outcome_bind]. eexists. split; [done|]. split; [done|lia].
Qed.

Lemma compress_loop_ok N fuel : forall s, good N s -> zlen data - 2 - ip s <= Z.of_nat fuel ->
  exists r o, compress_loop base data fuel N s = Ok (r, o) /\ zlen o = N + 1 /\
    match r with
    | None => True
    | Some s' => good N s' /\ out s' = o /\ zlen data - 2 <= ip s'
    end.
Proof.
  assert (Hzlen : forall s, good N s -> zlen (out s) = N + 1) by (by intros ? (? & ? & ? & ? & ? & ? & [])).
  induction fuel as [|fuel IH]; intros s Hg Hf; cbn [compress_loop]; unfold in_end.
  - destruct (Z.ltb_spec (ip s) (zlen data - 2)); [lia|].
    exists (Some s), (out s). split_and!; try done; by apply Hzlen.
  - destruct (Z.ltb_spec (ip s) (zlen data - 2)).
    2:{ exists (Some s), (out s). split_and!; try done; by apply Hzlen. }
    destruct (compress_iter_ok N s Hg) as (i & -> & Hi); [done|]. cbn [mbind outcome_bind].
    destruct i as [s'|s'|o]; cbn in Hi.
    + apply IH; [apply Hi|lia].
    + exists (Some s'), (out s'). destruct Hi. split_and!; try done. by apply Hzlen.
    + by exists None, o.
Qed.

Lemma tail_loop_ok N fuel : forall s, good N s ->
  let k := zlen data - ip s in
  k <= Z.of_nat fuel -> op s + 2 * k - 1 <= N -> (k = 0 -> closed_op s <= N) ->
  exists s', tail_loop data fuel s = Ok s' /\ good N s' /\ ip s' = zlen data /\ closed_op s' <= N.
Proof.
  induction fuel as [|fuel IH]; intros s Hg k Hf Hop Hk; cbn [tail_loop]; unfold in_end;
    pose proof (good_bounds N s Hg) as (Hb1 & Hb2 & _); unfold k in *.
  - destruct (Z.ltb_spec (ip s) (zlen data)); [lia|]. exists s. split_and!; try done; [lia|]. apply Hk. lia.
  - destruct (Z.ltb_spec (ip s) (zlen data)).
    2:{ exists s. split_and!; try done; [lia|]. apply Hk. lia. }
    destruct (literal_byte_ok N s Hg) as (s' & -> & Hg' & Hip' & Hop' & Hcl); [lia|lia|]. cbn [mbind outcome_bind].
    apply IH; [done|lia|lia|]. intros _. rewrite Hcl. lia.
Qed.

Lemma lzf_compress_ok htab0 out0 N :
  2 <= zlen data -> 1 <= N -> zlen out0 = N + 1 -> (forall i, 0 <= htab0 i < 2 ^ 64) ->
  exists n o, lzf_compress base data htab0 out0 N = Ok (n, o) /\ 0 <= n <= N /\ zlen o = N + 1 /\
    (n = 0 \/ decodes (take (Z.to_nat n) o) [] data /\ take (Z.to_nat n) o <> []).
Proof.
  intros Hd HN Hout Hh. unfold lzf_compress, in_end.
  destruct (Z.eqb_spec (zlen data) 0); [lia|]. destruct (Z.eqb_spec N 0); [lia|]. cbn [orb].
  destruct (FRST_ok 0) as (h & ->); [lia|lia|]. cbn [mbind outcome_bind].
  destruct (uncons_len out0) as (x & rest & -> & Hr); [lia|].
  assert (Hg : good N (mkC htab0 h 0 1 0 (x :: rest))).
  { exists [], x, [], rest, [], data. split; cbn; try done. constructor. }
  destruct (compress_loop_ok N (length data) _ Hg) as (r & o & -> & Ho & Hs); [cbn; unfold zlen; lia|].
  cbn [mbind outcome_bind]. destruct r as [s|].
  2:{ exists 0, o. split_and!; try done; lia. }
  destruct Hs as (Hg' & <- & Hip). destruct (Z.ltb_spec N (op s + 3)).
  { exists 0, (out s). split_and!; try done; lia. }
  pose proof (good_bounds N s Hg') as (Hb1 & Hb2 & Hb3 & Hb4).
  destruct (tail_loop_ok N (length data) s Hg') as (s' & -> & Hg2 & Hip2 & Hcl); [unfold zlen in *; lia|lia| |].
  { intros _. unfold closed_op. destruct (lit s =? 0); lia. }
  cbn [mbind outcome_bind]. destruct (stop_run N s' Hg2) as (S & rest' & -> & HS & Hdec & Hlen).
  cbn [mbind outcome_bind]. fold (closed_op s'). exists (closed_op s'), (S ++ rest').
  pose proof (good_bounds N s' Hg2) as (_ & _ & _ & Hc0). split_and!; try done. right.
  rewrite Hip2 in Hdec. rewrite (take_ge data) in Hdec by (unfold zlen; lia).
  rewrite take_app_length' by (unfold zlen in *; lia). split; [done|].
  intros ->. apply decodes_nil in Hdec. rewrite Hdec in Hd. change (zlen (@nil Z)) with 0 in Hd. lia.
Qed.

End CompressProof.

(** C16: lzf_compress terminates on every input of at least two bytes, whatever addresses its
    uninitialized table holds, and never reads outside of the input; with one byte behind the
    declared end of the output buffer it never writes outside of it.  It returns 0 or a
    length within the declared buffer, and in the latter case lzf_decompress, into any buffer
    that is large enough, succeeds and gives back exactly the input. *)
Theorem lzf_roundtrip base data htab0 out0 N dst :
  MAX_OFF <= base -> base + zlen data <= 2 ^ 64 ->
  2 <= zlen data -> 1 <= N -> zlen out0 = N + 1 -> (forall i, 0 <= htab0 i < 2 ^ 64) ->
  zlen data <= zlen dst ->
  exists n o, lzf_compress base data htab0 out0 N = Ok (n, o) /\ 0 <= n <= N /\
    (n = 0 \/ exists tail, lzf_decompress (take (Z.to_nat n) o) dst = Ok (inl (zlen data), data ++ tail)).
Proof.
  intros Hb Hf Hd HN Ho Hh Hdst.
  destruct (lzf_compress_ok base data Hb Hf htab0 out0 N Hd HN Ho Hh) as (n & o & -> & Hn & _ & Hdec).
  exists n, o. split_and!; try done; try lia. destruct Hdec as [->|[Hdec Hne]]; [by left|right].
  destruct (decompress_loop_ok _ _ _ Hdec (S (length (take (Z.to_nat n) o))) [] dst Hne ltac:(lia) Hdst) as (tail & E & _).
  by exists tail.
Qed.

Lemma lzf_roundtrip_witness :
  exists n o, lzf_compress 100000 (str "abcabcabcabcabcabcabc12") (fun i => 7 * i mod 2 ^ 64) (replicate 24 0) 23 = Ok (n, o) /\
    n = 11 /\ exists tail, lzf_decompress (take (Z.to_nat n) o) (replicate 23 0) =
      Ok (inl 23, str "abcabcabcabcabcabcabc12" ++ tail).
Proof.
  destruct (lzf_roundtrip 100000 (str "abcabcabcabcabcabcabc12") (fun i => 7 * i mod 2 ^ 64) (replicate 24 0) 23 (replicate 23 0))
    as (n & o & H1 & _ & H2).
  - vm_compute. intros H. discriminate H.
  - vm_compute. intros H. discriminate H.
  - vm_compute. intros H. discriminate H.
  - lia.
  - reflexivity.
  - intros i. apply Z.mod_pos_bound. lia.
  - vm_compute. intros H. discriminate H.
  - exists n, o. split; [exact H1|]. vm_compute in H1. injection H1 as <- <-.
    split; [reflexivity|]. destruct H2 as [H2|H2]; [discriminate H2|exact H2].
Defined.

(** ** The decompressor on arbitrary input *)

Lemma put_in (m : list Z) i b : 0 <= i < zlen m -> exists m', put m i b = Ok m' /\ length m' = length m.
Proof.
  intros Hi. unfold put, must. destruct (store m i [b]) as [m'|] eqn:E.
  - exists m'. split; [done|]. by eapply store_length.
  - exfalso. unfold store in E. rewrite decide_True in E; [done|]. change (zlen [b]) with 1. lia.
Qed.

Lemma copy_literal_safe n : forall data ip out op,
  0 <= ip -> ip + Z.of_nat n <= zlen data -> 0 <= op -> op + Z.of_nat n <= zlen out ->
  exists out', copy_literal n data ip out op = Ok out' /\ length out' = length out.
Proof.
  induction n as [|n IH]; intros data ip out op Hip Hin Hop Hout; cbn [copy_literal]; [by eexists|].
  destruct (get_in data ip) as (b & -> & _); [lia|]. cbn [mbind outcome_bind].
  destruct (put_in out op b) as (o1 & -> & Hl); [lia|]. cbn [mbind outcome_bind].
  destruct (IH data (ip + 1) o1 (op + 1)) as (o2 & -> & Hl2); [lia|lia|lia|unfold zlen in *; lia|].
  exists o2. split; [done|congruence].
Qed.

Lemma copy_ref_safe n : forall out ref op,
  0 <= ref < op -> op + Z.of_nat n <= zlen out ->
  exists out', copy_ref n out ref op = Ok out' /\ length out' = length out.
Proof.
  induction n as [|n IH]; intros out ref op Hr Hout; cbn [copy_ref]; [by eexists|].
  destruct (get_in out ref) as (b & -> & _); [lia|]. cbn [mbind outcome_bind].
  destruct (put_in out op b) as (o1 & -> & Hl); [lia|]. cbn [mbind outcome_bind].
  destruct (IH o1 (ref + 1) (op + 1)) as (o2 & -> & Hl2); [lia|unfold zlen in *; lia|].
  exists o2. split; [done|congruence].
Qed.

Lemma shiftl_land_nonneg c : 0 <= Z.shiftl (Z.land c 31) 8.
Proof.
  change 31 with (Z.ones 5). rewrite Z.land_ones, Z.shiftl_mul_pow2 by lia.
  pose proof (Z.mod_pos_bound c (2 ^ 5) ltac:(lia)). lia.
Qed.

(** Each iteration reads at least one byte and stays within both buffers. *)
Lemma decompress_iter_safe data ip out op : Forall is_byte data ->
  0 <= ip < zlen data -> 0 <= op <= zlen out ->
  exists r, decompress_iter data ip out op = Ok r /\
    match r with
    | inr _ => True
    | inl (ip', out', op') => ip < ip' <= zlen data /\ length out' = length out /\ 0 <= op' <= zlen out
    end.
Proof.
  intros Hb Hip Hop. unfold decompress_iter.
  assert (Hbyte : forall i x, data !! i = Some x -> 0 <= x < 256).
  { intros i x Hx. by apply (Forall_lookup_1 _ _ _ _ Hb Hx). }
  destruct (get_in data ip) as (ctrl & -> & Hc); [lia|]. apply Hbyte in Hc. cbn [mbind outcome_bind].
  destruct (Z.ltb_spec ctrl 32).
  - destruct (Z.ltb_spec (zlen out) (op + (ctrl + 1))); [by eexists|].
    destruct (Z.ltb_spec (zlen data) (ip + 1 + (ctrl + 1))); [by eexists|].
    destruct (copy_literal_safe (Z.to_nat (ctrl + 1)) data (ip + 1) out op) as (o & -> & Hl); [lia|lia|lia|lia|].
    cbn [mbind outcome_bind]. eexists. split; [done|]. cbv beta iota. lia.
  - destruct (Z.leb_spec (zlen data) (ip + 1)); [by eexists|].
    assert (H5 : 1 <= Z.shiftr ctrl 5) by (rewrite Z.shiftr_div_pow2 by lia; apply Z.div_le_lower_bound; lia).
    set (r := if Z.shiftr ctrl 5 =? 7 then _ else _).
    assert (Hr : (exists e, r = Ok (inr e)) \/
                 exists len q, r = Ok (inl (len, q)) /\ 1 <= len /\ ip < q < zlen data).
    { unfold r. destruct (Z.eqb_spec (Z.shiftr ctrl 5) 7).
      - destruct (get_in data (ip + 1)) as (b & -> & Hx); [lia|]. apply Hbyte in Hx. cbn [mbind outcome_bind].
        destruct (Z.leb_spec (zlen data) (ip + 1 + 1)); [left; by eexists|right]. eexists _, _. split; [done|]. lia.
      - right. eexists _, _. split; [done|]. lia. }
    clearbody r. destruct Hr as [(e & ->)|(len & q & -> & Hlen & Hq)]; cbn [mbind outcome_bind]; [by eexists|].
    destruct (get_in data q) as (b & -> & Hx); [lia|]. apply Hbyte in Hx. cbn [mbind outcome_bind].
    destruct (Z.ltb_spec (zlen out) (op + len + 2)); [by eexists|].
    pose proof (shiftl_land_nonneg ctrl).
    destruct (Z.ltb_spec (op - Z.shiftl (Z.land ctrl 31) 8 - 1 - b) 0); [by eexists|].
    destruct (copy_ref_safe (Z.to_nat (len + 2)) out (op - Z.shiftl (Z.land ctrl 31) 8 - 1 - b) op) as (o & -> & Hl); [lia|lia|].
    cbn [mbind outcome_bind]. eexists. split; [done|]. cbv beta iota. lia.
Qed.

Lemma decompress_loop_safe data fuel : Forall is_byte data -> forall ip out op,
  0 <= ip < zlen data -> 0 <= op <= zlen out -> zlen data - ip < Z.of_nat fuel ->
  exists r out', decompress_loop fuel data ip out op = Ok (r, out') /\ length out' = length out /\
    match r with inl n => 0 <= n <= zlen out | inr _ => True end.
Proof.
  intros Hb. induction fuel as [|fuel IH]; intros ip out op Hip Hop Hf; [lia|]. cbn [decompress_loop].
  destruct (decompress_iter_safe data ip out op Hb Hip Hop) as (r & -> & Hr). cbn [mbind outcome_bind].
  destruct r as [[[ip' out'] op']|e]; [|by eexists _, _]. destruct Hr as (Hip' & Hl & Hop').
  destruct (Z.ltb_spec ip' (zlen data)); [|by eexists _, _].
  destruct (IH ip' out' op') as (r & o & -> & Hl2 & Hn); [lia|unfold zlen in *; lia|lia|].
  eexists _, _. split; [done|]. split; [congruence|]. destruct r; [|done]. unfold zlen in *. lia.
Qed.

(** C17: On every non-empty input, corrupted or hostile, lzf_decompress terminates, reads only its
    input and the bytes of the output buffer and writes only within that buffer; it returns an
    error or the number of bytes it produced.  On the empty input, and on no other, it reads
    outside of its input. *)
Theorem lzf_decompress_safe data dst : Forall is_byte data ->
  (data = [] /\ lzf_decompress data dst = Undefined) \/
  (data <> [] /\ exists r out', lzf_decompress data dst = Ok (r, out') /\ length out' = length dst /\
    match r with inl n => 0 <= n <= zlen dst | inr _ => True end).
Proof.
  intros Hb. destruct (decide (data = [])) as [->|Hne]; [by left|]. right. split; [done|].
  apply decompress_loop_safe; [done| | |unfold zlen; lia].
  - destruct data; [done|]. rewrite zlen_cons. pose proof (zlen_nonneg data). lia.
  - pose proof (zlen_nonneg dst). lia.
Qed.

Lemma lzf_decompress_safe_witness :
  exists r out', lzf_decompress [1; 65; 66; 224; 3; 200] (replicate 16 0) = Ok (r, out') /\ length out' = 16%nat /\ r = inr EINVAL.
Proof.
  destruct (lzf_decompress_safe [1; 65; 66; 224; 3; 200] (replicate 16 0)) as [[H _]|(_ & r & o & H1 & H2 & _)].
  - repeat constructor; discriminate.
  - discriminate H.
  - exists r, o. split; [exact H1|]. split; [exact H2|]. vm_compute in H1. injection H1 as <- _. reflexivity.
Defined.

(** Thirty-two literal bytes fill the output buffer of 33 bytes; the match that follows then
    resets the length byte of the run that starts behind it. *)
Definition overrun_input : list Z := [1; 2; 3; 4; 5; 6] ++ (Z.of_nat <$> seq 40 26) ++ [2; 3; 4; 5; 6; 7].

(** The write of [op[-lit-1]] before the check for room can hit the byte after the output
    buffer: with a buffer of exactly [out_len] bytes the compressor writes out of bounds on
    this input; with one more byte it returns 0. *)
Theorem lzf_compress_overrun :
  lzf_compress 100000 overrun_input (fun _ => 0) (replicate 33 0) 33 = Undefined /\
  exists o, lzf_compress 100000 overrun_input (fun _ => 0) (replicate 34 0) 33 = Ok (0, o).
Proof. split; [vm_compute; reflexivity|]. eexists. vm_compute. reflexivity. Qed.

End Lzf.
