(* ===== verification/Double.v ===== *)
(** * IEEE doubles that are not NaN

    The [double]s of the program are the [spec_float]s of the standard library with 53 bits of
    precision.  A double that is not NaN is compared by its class, its exponent and its
    mantissa ([fkey]); the order of C and the equality of C follow. *)

From Stdlib Require Import ZArith Lia.
From Stdlib.Floats Require Import SpecFloat.
From stdpp Require Import prelude list numbers.
From S2P Require Import Prelude.

Local Open Scope Z_scope.

Module Double.

Definition is_nan (f : spec_float) : bool := match f with S754_nan => true | _ => false end.

Definition double : Type := { f : spec_float | is_nan f = false }.

Definition fkey (f : spec_float) : Z * Z * Z :=
  match f with
  | S754_infinity true => (-2, 0, 0)
  | S754_finite true m e => (-1, - e, - Z.pos m)
  | S754_finite false m e => (1, e, Z.pos m)
  | S754_infinity false => (2, 0, 0)
  | _ => (0, 0, 0)
  end.

Definition lt3 (a b : Z * Z * Z) : Prop :=
  a.1.1 < b.1.1 \/ a.1.1 = b.1.1 /\ (a.1.2 < b.1.2 \/ a.1.2 = b.1.2 /\ a.2 < b.2).

Definition eq3 (a b : Z * Z * Z) : Prop := a.1.1 = b.1.1 /\ a.1.2 = b.1.2 /\ a.2 = b.2.

Lemma SFcompare_key f g : is_nan f = false -> is_nan g = false ->
  match SFcompare f g with
  | Some Lt => lt3 (fkey f) (fkey g)
  | Some Eq => eq3 (fkey f) (fkey g)
  | Some Gt => lt3 (fkey g) (fkey f)
  | None => False
  end.
Proof.
  intros Hf Hg. unfold lt3, eq3.
  destruct f as [sf|sf| |sf mf ef], g as [sg|sg| |sg mg eg]; try discriminate;
    try (destruct sf); try (destruct sg); cbn; try lia;
    (destruct (Z.compare_spec ef eg); cbn; try lia; change (PosDef.Pos.compare_cont Eq mf mg) with (mf ?= mg)%positive;
     destruct (BinPos.Pos.compare_spec mf mg); subst; cbn; lia).
Qed.

Lemma SFltb_key (f g : double) : SFltb (`f) (`g) = true <-> lt3 (fkey (`f)) (fkey (`g)).
Proof.
  pose proof (SFcompare_key _ _ (proj2_sig f) (proj2_sig g)) as H. unfold SFltb, lt3, eq3 in *.
  destruct (SFcompare _ _) as [[]|]; split; try done; lia.
Qed.

Lemma SFeqb_key (f g : double) : SFeqb (`f) (`g) = true <-> eq3 (fkey (`f)) (fkey (`g)).
Proof.
  pose proof (SFcompare_key _ _ (proj2_sig f) (proj2_sig g)) as H. unfold SFeqb, lt3, eq3 in *.
  destruct (SFcompare _ _) as [[]|]; split; try done; lia.
Qed.

Lemma bool_false_iff (b : bool) (P : Prop) : (b = true <-> P) -> ~ P -> b = false.
Proof. intros [H _] HP. destruct b; [|done]. exfalso. by apply HP, H. Qed.

Lemma bool_eq_iff (b c : bool) : (b = true <-> c = true) -> b = c.
Proof. destruct b, c; intuition congruence. Qed.


(** ** The operations on doubles the engine uses *)

(** The conversion of an integer to [double], and of a [float] to [double]. *)
Definition double_of_Z (z : Z) : spec_float := binary_normalize 53 1024 z 0 false.
Definition double_of_float (f : spec_float) : spec_float :=
  match f with
  | S754_finite s m e => binary_normalize 53 1024 (if s then Z.neg m else Z.pos m) e s
  | _ => f
  end.

Definition dmul (a b : spec_float) : spec_float := SFmul 53 1024 a b.

Lemma lt3_trans a b c : lt3 a b -> lt3 b c -> lt3 a c.
Proof. unfold lt3. lia. Qed.

Lemma SFltb_iff f g : is_nan f = false -> is_nan g = false -> SFltb f g = true <-> lt3 (fkey f) (fkey g).
Proof. intros Hf Hg. apply (SFltb_key (f ↾ Hf) (g ↾ Hg)). Qed.

Lemma SFltb_trans f g h : is_nan f = false -> is_nan g = false -> is_nan h = false ->
  SFltb f g = true -> SFltb g h = true -> SFltb f h = true.
Proof. intros Hf Hg Hh. rewrite !SFltb_iff by done. apply lt3_trans. Qed.

Lemma SFltb_irrefl f : is_nan f = false -> SFltb f f = false.
Proof.
  intros Hf. eapply bool_false_iff; [by apply SFltb_iff|]. unfold lt3. lia.
Qed.

End Double.
