(* ===== verification/Zskiplist.v ===== *)
(** * t_zset.c: skip lists

    Model of the skip list of sorted sets, [zsl*] in [src/debug/redis/src/t_zset.c], on a heap of
    nodes.  A node is allocated with the number of levels its height asks for; access to a
    missing node or level is [None].  Scores and members are given by the interfaces
    [ScoreOrder] (doubles that are not NaN under the comparisons of C) and [ObjOrder]
    (compareStringObjects); spans and ranks are unsigned ints.  The order of the nodes, the
    forward pointers and the spans of every level are tied to one list of elements by [rep];
    every operation is proved against that list. *)

From Stdlib Require Import ZArith Lia Sorted.
From Stdlib.Floats Require Import SpecFloat.
From stdpp Require Import prelude list gmap strings numbers.
From S2P Require Import Prelude.
From S2P Require Import Sds.
From S2P Require Import Double.

Local Open Scope Z_scope.

Module Zskiplist.
Import Double.

Definition ZSKIPLIST_MAXLEVEL : nat := 32.

(** ** What the skip list needs of scores and members *)

Class ScoreOrder (score : Type) := {
  slt : score -> score -> bool;
  seq_ : score -> score -> bool;
  slt_irrefl a : slt a a = false;
  slt_trans a b c : slt a b = true -> slt b c = true -> slt a c = true;
  slt_cases a b : slt a b = true \/ seq_ a b = true \/ slt b a = true;
  seq_refl_ a : seq_ a a = true;
  seq_sym_ a b : seq_ a b = true -> seq_ b a = true;
  seq_slt_l a b c : seq_ a b = true -> slt a c = slt b c;
  seq_slt_r a b c : seq_ a b = true -> slt c a = slt c b;
  slt_seq a b : slt a b = true -> seq_ a b = false }.

Class ObjOrder (obj : Type) := {
  compareStringObjects : obj -> obj -> Z;
  cmp_eq a b : compareStringObjects a b = 0 <-> a = b;
  cmp_antisym a b : compareStringObjects a b < 0 <-> 0 < compareStringObjects b a;
  cmp_trans a b c : compareStringObjects a b < 0 -> compareStringObjects b c < 0 ->
    compareStringObjects a c < 0 }.

Section Zsl.
Context {score obj : Type} `{!ScoreOrder score} `{!ObjOrder obj}.

Definition equalStringObjects (a b : obj) : bool := compareStringObjects a b =? 0.

(** [a <= b] on scores that are not NaN. *)
Definition sle (a b : score) : bool := slt a b || seq_ a b.

Abbreviation ptr := positive.
Abbreviation zlevel := (option positive * Z)%type.

(** [zobj] is NULL in the header. *)
Record zskiplistNode := mkNode {
  zobj : option obj;
  zscore : score;
  backward : option ptr;
  levels : list zlevel }.

Record zskiplist := mkZsl {
  header : ptr;
  tail : option ptr;
  zlength : Z;
  level : nat }.

Abbreviation heap := (gmap positive zskiplistNode).

(** The list, the heap, and the next address the allocator returns. *)
Record state := mkState { zsl : zskiplist; mem : heap; next : ptr }.

Definition u32 (z : Z) : Z := uwrap 32 z.

(** Reading and writing [p->level[i]]. *)
Definition get_level (h : heap) (p : ptr) (i : nat) : option zlevel :=
  n ← h !! p; levels n !! i.

Definition set_level (h : heap) (p : ptr) (i : nat) (v : zlevel) : option heap :=
  n ← h !! p;
  _ ← levels n !! i;
  Some (<[p := mkNode (zobj n) (zscore n) (backward n) (<[i := v]> (levels n))]> h).

Definition set_backward (h : heap) (p : ptr) (b : option ptr) : option heap :=
  n ← h !! p; Some (<[p := mkNode (zobj n) (zscore n) b (levels n)]> h).

(** The levels of a new node are uninitialized. *)
Context (junk : zlevel).

Definition zslCreateNode (h : heap) (p : ptr) (lvl : nat) (s : score) (o : option obj) : heap :=
  <[p := mkNode o s None (replicate lvl junk)]> h.

(** [zero] is the score 0 given to the header. *)
Definition zslCreate (zero : score) : state :=
  mkState (mkZsl 1 None 0 1)
    {[1%positive := mkNode None zero None (replicate ZSKIPLIST_MAXLEVEL (None, 0))]} 2.

(** ** Searching

    [while (x->level[i].forward && cond) { rank += x->level[i].span; x = x->level[i].forward; }]
    with ranks of [w] bits; the condition depends on the rank of the next node, its score and
    its member. *)
Fixpoint walk (fuel : nat) (h : heap) (cond : Z -> zskiplistNode -> bool) (w : Z) (i : nat)
    (x : ptr) (rank : Z) : option (ptr * Z) :=
  '(f, span) ← get_level h x i;
  match f with
  | None => Some (x, rank)
  | Some y =>
    ny ← h !! y;
    let rank' := uwrap w (rank + span) in
    if cond rank' ny then
      match fuel with O => None | S fuel => walk fuel h cond w i y rank' end
    else Some (x, rank)
  end.

(** [for (i = level-1; i >= 0; i--)] with the walk of each level; [update[i]] and [rank[i]]. *)
Fixpoint descend (fuel : nat) (h : heap) (cond : Z -> zskiplistNode -> bool) (w : Z) (i : nat)
    (x : ptr) (rank : Z) : option (list (ptr * Z)) :=
  match i with
  | O => Some []
  | S i =>
    '(x, rank) ← walk fuel h cond w i x rank;
    us ← descend fuel h cond w i x rank;
    Some (us ++ [(x, rank)])
  end.

(** The fuel of a walk: a list has no more nodes than its length says. *)
Definition zfuel (z : zskiplist) : nat := S (Z.to_nat (zlength z)).

Definition search (st : state) (cond : Z -> zskiplistNode -> bool) (w : Z) : option (list (ptr * Z)) :=
  descend (zfuel (zsl st)) (mem st) cond w (level (zsl st)) (header (zsl st)) 0.

(** [forward->score < score || (forward->score == score && compareStringObjects(forward->obj,obj) < 0)] *)
Definition before (s : score) (o : obj) (n : zskiplistNode) : bool :=
  slt (zscore n) s ||
  (seq_ (zscore n) s && match zobj n with Some o' => compareStringObjects o' o <? 0 | None => false end).

(** ** zslRandomLevel, with the results of random() given as a list *)
Fixpoint random_level (lvl : nat) (rnd : list Z) : option nat :=
  match rnd with
  | [] => None
  | r :: rnd => if Z.land r 0xFFFF <=? 16383 then random_level (S lvl) rnd else Some lvl
  end.

Definition zslRandomLevel (rnd : list Z) : option nat :=
  lvl ← random_level 1 rnd;
  Some (if decide (lvl < ZSKIPLIST_MAXLEVEL)%nat then lvl else ZSKIPLIST_MAXLEVEL).

(** ** zslInsert *)

(** [for (i = zsl->level; i < level; i++)]: the header becomes the update node. *)
Fixpoint raise_levels (n : nat) (h : heap) (hd : ptr) (len : Z) (i : nat) (us : list (ptr * Z))
    : option (heap * list (ptr * Z)) :=
  match n with
  | O => Some (h, us)
  | S n =>
    '(f, _) ← get_level h hd i;
    h ← set_level h hd i (f, u32 len);
    raise_levels n h hd len (S i) (us ++ [(hd, 0)])
  end.

(** [for (i = 0; i < level; i++)]: link the new node [x] after [update[i]]. *)
Fixpoint link_levels (n : nat) (h : heap) (x : ptr) (rank0 : Z) (us : list (ptr * Z)) (i : nat) : option heap :=
  match n with
  | O => Some h
  | S n =>
    '(u, rank) ← us !! i;
    '(f, span) ← get_level h u i;
    h ← set_level h x i (f, u32 (span - u32 (rank0 - rank)));
    h ← set_level h u i (Some x, u32 (u32 (rank0 - rank) + 1));
    link_levels n h x rank0 us (S i)
  end.

(** [for (i = level; i < zsl->level; i++) update[i]->level[i].span++] *)
Fixpoint bump_levels (n : nat) (h : heap) (us : list (ptr * Z)) (i : nat) : option heap :=
  match n with
  | O => Some h
  | S n =>
    '(u, _) ← us !! i;
    '(f, span) ← get_level h u i;
    h ← set_level h u i (f, u32 (span + 1));
    bump_levels n h us (S i)
  end.

Definition zslInsert (st : state) (s : score) (o : obj) (rnd : list Z) : option (state * ptr) :=
  let z := zsl st in
  us ← search st (fun _ => before s o) 32;
  lvl ← zslRandomLevel rnd;
  '(h, us) ← raise_levels (lvl - level z) (mem st) (header z) (zlength z) (level z) us;
  let top := Nat.max lvl (level z) in
  let x := next st in
  let h := zslCreateNode h x lvl s (Some o) in
  '(u0, rank0) ← us !! 0%nat;
  h ← link_levels lvl h x rank0 us 0;
  h ← bump_levels (top - lvl) h us lvl;
  h ← set_backward h x (if decide (u0 = header z) then None else Some u0);
  '(f, _) ← get_level h x 0;
  '(h, tl) ← match f with
             | Some y => h ← set_backward h y (Some x); Some (h, tail z)
             | None => Some (h, Some x)
             end;
  Some (mkState (mkZsl (header z) tl (uwrap 64 (zlength z + 1)) top) h (Pos.succ x), x).

(** ** zslDeleteNode *)

Fixpoint unlink_levels (n : nat) (h : heap) (x : ptr) (us : list (ptr * Z)) (i : nat) : option heap :=
  match n with
  | O => Some h
  | S n =>
    '(u, _) ← us !! i;
    '(f, span) ← get_level h u i;
    h ← (if decide (f = Some x) then
           '(fx, spanx) ← get_level h x i;
           set_level h u i (fx, u32 (span + u32 (spanx - 1)))
         else set_level h u i (f, u32 (span - 1)));
    unlink_levels n h x us (S i)
  end.

(** [while (zsl->level > 1 && header->level[zsl->level-1].forward == NULL) zsl->level--] *)
Fixpoint lower_level (h : heap) (hd : ptr) (lvl : nat) : option nat :=
  match lvl with
  | S (S l as lvl') =>
    '(f, _) ← get_level h hd lvl';
    match f with None => lower_level h hd lvl' | Some _ => Some lvl end
  | _ => Some lvl
  end.

Definition zslDeleteNode (st : state) (x : ptr) (us : list (ptr * Z)) : option state :=
  let z := zsl st in
  h ← unlink_levels (level z) (mem st) x us 0;
  '(f, _) ← get_level h x 0;
  nx ← h !! x;
  '(h, tl) ← match f with
             | Some y => h ← set_backward h y (backward nx); Some (h, tail z)
             | None => Some (h, backward nx)
             end;
  lvl ← lower_level h (header z) (level z);
  Some (mkState (mkZsl (header z) tl (uwrap 64 (zlength z - 1)) lvl) h (next st)).

(** zslFreeNode *)
Definition zslFreeNode (st : state) (x : ptr) : state :=
  mkState (zsl st) (delete x (mem st)) (next st).

Definition zslDelete (st : state) (s : score) (o : obj) : option (state * bool) :=
  us ← search st (fun _ => before s o) 32;
  '(u0, _) ← us !! 0%nat;
  '(f, _) ← get_level (mem st) u0 0;
  match f with
  | None => Some (st, false)
  | Some x =>
    nx ← mem st !! x;
    o' ← zobj nx;
    if seq_ s (zscore nx) && equalStringObjects o' o then
      st ← zslDeleteNode st x us; Some (zslFreeNode st x, true)
    else Some (st, false)
  end.

(** ** Ranges of scores *)

Record zrangespec := mkRange { rmin : score; rmax : score; minex : bool; maxex : bool }.

Definition zslValueGteMin (v : score) (r : zrangespec) : bool :=
  if minex r then slt (rmin r) v else sle (rmin r) v.

Definition zslValueLteMax (v : score) (r : zrangespec) : bool :=
  if maxex r then slt v (rmax r) else sle v (rmax r).

Definition zslIsInRange (st : state) (r : zrangespec) : option bool :=
  if slt (rmax r) (rmin r) || (seq_ (rmin r) (rmax r) && (minex r || maxex r)) then Some false
  else
    match tail (zsl st) with
    | None => Some false
    | Some t =>
      nt ← mem st !! t;
      if negb (zslValueGteMin (zscore nt) r) then Some false
      else
        '(f, _) ← get_level (mem st) (header (zsl st)) 0;
        match f with
        | None => Some false
        | Some x => nx ← mem st !! x; Some (zslValueLteMax (zscore nx) r)
        end
    end.

(** [Some None] is NULL; a failing redisAssert is [None]. *)
Definition zslFirstInRange (st : state) (r : zrangespec) : option (option ptr) :=
  b ← zslIsInRange st r;
  if negb b then Some None
  else
    us ← search st (fun _ n => negb (zslValueGteMin (zscore n) r)) 64;
    '(u0, _) ← us !! 0%nat;
    '(f, _) ← get_level (mem st) u0 0;
    x ← f;
    nx ← mem st !! x;
    Some (if zslValueLteMax (zscore nx) r then Some x else None).

Definition zslLastInRange (st : state) (r : zrangespec) : option (option ptr) :=
  b ← zslIsInRange st r;
  if negb b then Some None
  else
    us ← search st (fun _ n => zslValueLteMax (zscore n) r) 64;
    '(u0, _) ← us !! 0%nat;
    nx ← mem st !! u0;
    Some (if zslValueGteMin (zscore nx) r then Some u0 else None).

(** ** Deleting ranges

    [stop] is the negation of the loop condition, of the node and the number [traversed]; the
    list collects the members whose dictionary entries are deleted. *)
Fixpoint delete_while (fuel : nat) (st : state) (us : list (ptr * Z)) (x : option ptr) (traversed : Z)
    (cond : Z -> zskiplistNode -> bool) (removed : Z) (dict : list obj) : option (state * Z * list obj) :=
  match x with
  | None => Some (st, removed, dict)
  | Some x =>
    nx ← mem st !! x;
    if cond traversed nx then
      match fuel with
      | O => None
      | S fuel =>
        '(next, _) ← get_level (mem st) x 0;
        st ← zslDeleteNode st x us;
        o ← zobj nx;
        delete_while fuel (zslFreeNode st x) us next (traversed + 1) cond (removed + 1) (dict ++ [o])
      end
    else Some (st, removed, dict)
  end.

(** The members removed, in order, are those given to dictDelete. *)
Definition zslDeleteRangeByScore (st : state) (r : zrangespec) : option (state * Z * list obj) :=
  us ← search st (fun _ n => if minex r then sle (zscore n) (rmin r) else slt (zscore n) (rmin r)) 64;
  '(u0, _) ← us !! 0%nat;
  '(f, _) ← get_level (mem st) u0 0;
  delete_while (zfuel (zsl st)) st us f 0 (fun _ n => zslValueLteMax (zscore n) r) 0 [].

Definition zslDeleteRangeByRank (st : state) (start stop : Z) : option (state * Z * list obj) :=
  us ← search st (fun t _ => t <? start) 64;
  '(u0, traversed) ← us !! 0%nat;
  '(f, _) ← get_level (mem st) u0 0;
  delete_while (zfuel (zsl st)) st us f (traversed + 1) (fun t _ => t <=? stop) 0 [].

(** ** Ranks *)

(** The loops of zslGetRank and zslGetElementByRank, which return from within the descent when
    [found] holds of the node reached at a level. *)
Fixpoint descend_find (fuel : nat) (h : heap) (cond : Z -> zskiplistNode -> bool)
    (found : zskiplistNode -> Z -> bool) (i : nat) (x : ptr) (rank : Z) : option (option (ptr * Z)) :=
  match i with
  | O => Some None
  | S i =>
    '(x, rank) ← walk fuel h cond 64 i x rank;
    nx ← h !! x;
    if found nx rank then Some (Some (x, rank)) else descend_find fuel h cond found i x rank
  end.

Definition zslGetRank (st : state) (s : score) (o : obj) : option Z :=
  let cond _ n :=
    slt (zscore n) s ||
    (seq_ (zscore n) s && match zobj n with Some o' => compareStringObjects o' o <=? 0 | None => false end) in
  let found n _ := match zobj n with Some o' => equalStringObjects o' o | None => false end in
  r ← descend_find (zfuel (zsl st)) (mem st) cond found (level (zsl st)) (header (zsl st)) 0;
  Some (match r with Some (_, rank) => rank | None => 0 end).

Definition zslGetElementByRank (st : state) (rank : Z) : option (option ptr) :=
  r ← descend_find (zfuel (zsl st)) (mem st) (fun t _ => t <=? rank) (fun _ t => t =? rank)
        (level (zsl st)) (header (zsl st)) 0;
  Some (match r with Some (x, _) => Some x | None => None end).

(** ** zslFree: the heap that remains *)

Fixpoint free_nodes (fuel : nat) (h : heap) (node : option ptr) : option heap :=
  match node with
  | None => Some h
  | Some p =>
    match fuel with
    | O => None
    | S fuel => '(f, _) ← get_level h p 0; free_nodes fuel (delete p h) f
    end
  end.

Definition zslFree (st : state) : option heap :=
  '(f, _) ← get_level (mem st) (header (zsl st)) 0;
  free_nodes (zfuel (zsl st)) (delete (header (zsl st)) (mem st)) f.

(** ** The list a skip list stands for *)

Record ent := mkEnt { eptr : ptr; escore : score; eobj : obj; eheight : nat }.

(** The forward pointer and the span at level [i] of the node in front of the elements [l]. *)
Fixpoint link (i : nat) (l : list ent) : zlevel :=
  match l with
  | [] => (None, 0)
  | e :: l => if decide (i < eheight e)%nat then (Some (eptr e), 1)
              else let '(f, s) := link i l in (f, s + 1)
  end.

Definition low (i : nat) (l : list ent) : Prop := Forall (fun e => (eheight e <= i)%nat) l.

Lemma link_low i m l : low i m -> link i (m ++ l) = (fst (link i l), zlen m + snd (link i l)).
Proof.
  induction 1 as [|e m He _ IH]; cbn [app link].
  - change (zlen (@nil ent)) with 0. destruct (link i l). done.
  - rewrite decide_False by lia. rewrite IH, zlen_cons. cbn. f_equal. lia.
Qed.

Lemma link_hit i m e l : low i m -> (i < eheight e)%nat -> link i (m ++ e :: l) = (Some (eptr e), zlen m + 1).
Proof. intros Hm He. rewrite link_low by done. cbn [link]. by rewrite decide_True. Qed.

(** Beyond a node of that level the rest of the list does not matter. *)
Lemma link_app_irrelevant i a e b t t' : (i < eheight e)%nat -> link i ((a ++ e :: b) ++ t) = link i ((a ++ e :: b) ++ t').
Proof.
  intros He. rewrite <- !app_assoc. cbn [app]. induction a as [|e' a IH]; cbn [app link].
  - by rewrite !decide_True.
  - destruct (decide (i < eheight e')%nat); [done|]. by rewrite IH.
Qed.

(** Where the link of level [i] leads. *)
Lemma link_cases i l :
  (low i l /\ link i l = (None, zlen l)) \/
  exists m e r, l = m ++ e :: r /\ low i m /\ (i < eheight e)%nat /\ link i l = (Some (eptr e), zlen m + 1).
Proof.
  induction l as [|e l IH].
  - left. split; [constructor|done].
  - cbn [link]. destruct (decide (i < eheight e)%nat) as [He|He].
    + right. exists [], e, l. split_and!; [done|constructor|done|done].
    + destruct IH as [[Hl Heq]|(m & e' & r & -> & Hm & He' & Heq)]; rewrite Heq.
      * left. split; [constructor; [lia|done]|]. rewrite zlen_cons. f_equal. lia.
      * right. exists (e :: m), e', r. split_and!; [done|constructor; [lia|done]|done|]. rewrite zlen_cons. f_equal. lia.
Qed.

Lemma link_span_nonneg i l : 0 <= snd (link i l) <= zlen l.
Proof.
  destruct (link_cases i l) as [[_ ->]|(m & e & r & -> & _ & _ & ->)]; cbn [snd].
  - pose proof (zlen_nonneg l). lia.
  - rewrite zlen_app, zlen_cons. pose proof (zlen_nonneg m). pose proof (zlen_nonneg r). lia.
Qed.

(** *** The heap, level by level *)

Definition shape (h : heap) (p : ptr) : option (option obj * score * option ptr * nat) :=
  n ← h !! p; Some (zobj n, zscore n, backward n, length (levels n)).

(** The levels of the header and of the elements [A], with [T i] behind them at level [i]. *)
Record LV (h : heap) (hd : ptr) (lvl : nat) (A : list ent) (T : nat -> list ent) : Prop := {
  lv_hd i : (i < lvl)%nat -> get_level h hd i = Some (link i (A ++ T i));
  lv_el A1 e A2 i : A = A1 ++ e :: A2 -> (i < eheight e)%nat -> get_level h (eptr e) i = Some (link i (A2 ++ T i)) }.

Abbreviation ptrs l := (eptr <$> l).

Definition lastptr (l : list ent) : option ptr := eptr <$> list.last l.

Definition key_lt (s1 : score) (o1 : obj) (s2 : score) (o2 : obj) : bool :=
  slt s1 s2 || (seq_ s1 s2 && (compareStringObjects o1 o2 <? 0)).

Definition elt (e1 e2 : ent) : Prop := key_lt (escore e1) (eobj e1) (escore e2) (eobj e2) = true.

Record rep (st : state) (l : list ent) : Prop := {
  r_lv : LV (mem st) (header (zsl st)) (level (zsl st)) l (fun _ => []);
  r_up i : (level (zsl st) <= i < ZSKIPLIST_MAXLEVEL)%nat -> exists sp, get_level (mem st) (header (zsl st)) i = Some (None, sp);
  r_hd : exists s0, shape (mem st) (header (zsl st)) = Some (None, s0, None, ZSKIPLIST_MAXLEVEL);
  r_shape l1 e l2 : l = l1 ++ e :: l2 ->
    shape (mem st) (eptr e) = Some (Some (eobj e), escore e, lastptr l1, eheight e);
  r_dom p : is_Some (shape (mem st) p) -> p ∈ header (zsl st) :: ptrs l;
  r_tail : tail (zsl st) = lastptr l;
  r_len : zlength (zsl st) = zlen l;
  r_lvl : (1 <= level (zsl st) <= ZSKIPLIST_MAXLEVEL)%nat;
  r_heights : Forall (fun e => (1 <= eheight e <= level (zsl st))%nat) l;
  r_nodup : NoDup (header (zsl st) :: ptrs l);
  r_next : Forall (fun p => (p < next st)%positive) (header (zsl st) :: ptrs l);
  r_sorted : StronglySorted elt l;
  r_size : zlen l < 2 ^ 32 }.

Lemma shape_node h p o s b n : shape h p = Some (o, s, b, n) ->
  exists nd, h !! p = Some nd /\ zobj nd = o /\ zscore nd = s /\ backward nd = b /\ length (levels nd) = n.
Proof. unfold shape. destruct (h !! p) as [nd|]; [|done]. cbn. intros [= <- <- <- <-]. by exists nd. Qed.

Lemma set_level_ok h p i v v0 : get_level h p i = Some v0 ->
  exists h', set_level h p i v = Some h' /\ get_level h' p i = Some v /\
    (forall q j, (q <> p \/ j <> i) -> get_level h' q j = get_level h q j) /\
    (forall q, shape h' q = shape h q).
Proof.
  unfold get_level, set_level, shape. destruct (h !! p) as [n|] eqn:E; [|done]. cbn [mbind option_bind].
  intros Hi. rewrite Hi. cbn [mbind option_bind]. eexists. split; [done|]. rewrite lookup_insert_eq.
  cbn [mbind option_bind levels]. pose proof (lookup_lt_Some _ _ _ Hi). split_and!.
  - by rewrite list_lookup_insert_eq.
  - intros q j Hne. destruct (decide (q = p)) as [->|].
    + rewrite lookup_insert_eq, E. cbn. apply list_lookup_insert_ne. destruct Hne; congruence.
    + by rewrite lookup_insert_ne.
  - intros q. destruct (decide (q = p)) as [->|].
    + rewrite lookup_insert_eq, E. cbn. by rewrite length_insert.
    + by rewrite lookup_insert_ne.
Qed.

(** [x] is the node before the elements that follow [P], and has level [i]. *)
Definition at_pos (hd : ptr) (P : list ent) (i : nat) (x : ptr) : Prop :=
  (P = [] /\ x = hd) \/ exists P' e, P = P' ++ [e] /\ x = eptr e /\ (i < eheight e)%nat.

(** [u] is the last node of level [i] in front of the position behind [A]; [r] is its rank. *)
Definition upd_ok (hd : ptr) (A : list ent) (i : nat) (u : ptr) (r : Z) : Prop :=
  exists P M, A = P ++ M /\ low i M /\ r = zlen P /\ at_pos hd P i u.

Lemma at_pos_lower hd P i j x : at_pos hd P i x -> (j <= i)%nat -> at_pos hd P j x.
Proof. intros [[-> ->]|(P' & e & -> & -> & He)] Hj; [by left|right]. exists P', e. split_and!; [done|done|lia]. Qed.

Lemma LV_at h hd lvl P R T i x : LV h hd lvl (P ++ R) T -> (i < lvl)%nat -> at_pos hd P i x ->
  get_level h x i = Some (link i (R ++ T i)).
Proof.
  intros [Hhd Hel] Hi [[-> ->]|(P' & e & -> & -> & He)]; [by apply Hhd|].
  eapply Hel; [|done]. by rewrite <- app_assoc.
Qed.

(** *** Searching *)

Definition cond_spec (cond : Z -> zskiplistNode -> bool) (l : list ent) (a : Z) : Prop :=
  forall l1 e l2 n, l = l1 ++ e :: l2 -> zobj n = Some (eobj e) -> zscore n = escore e ->
    cond (zlen l1 + 1) n = bool_decide (zlen l1 < a).

Lemma walk_ok st l A B cond w i : rep st l -> l = A ++ B -> cond_spec cond l (zlen A) -> 32 <= w ->
  (i < level (zsl st))%nat ->
  forall fuel P M x, A = P ++ M -> at_pos (header (zsl st)) P i x -> (length M <= fuel)%nat ->
  exists x' P' M', walk fuel (mem st) cond w i x (zlen P) = Some (x', zlen P') /\ A = P' ++ M' /\
    low i M' /\ at_pos (header (zsl st)) P' i x'.
Proof.
  intros Hrep Hl Hcond Hw Hi. induction fuel as [|fuel IH]; intros P M x HA Hx Hf.
  all: pose proof (LV_at (mem st) _ _ P (M ++ B) _ i x ltac:(rewrite app_assoc, <- HA, <- Hl; apply Hrep) Hi Hx) as Hlev.
  all: rewrite app_nil_r in Hlev; cbn [walk]; rewrite Hlev; cbn [mbind option_bind].
  all: destruct (link_cases i (M ++ B)) as [[Hlow Hlk]|(m & e & r & Hmb & Hlow & He & Hlk)]; rewrite Hlk.
  all: try (exists x, P, M; split_and!; [done|done|by apply Forall_app in Hlow as [? _]|done]).
  all: assert (Hle : l = (P ++ m) ++ e :: r) by (rewrite Hl, HA, <- !app_assoc; f_equal; done).
  all: destruct (shape_node _ _ _ _ _ _ (r_shape _ _ Hrep _ _ _ Hle)) as (ne & -> & Ho & Hs & _ & _).
  all: cbn [mbind option_bind]; pose proof (r_size _ _ Hrep) as Hsz; pose proof (f_equal zlen Hle) as Hz.
  all: rewrite zlen_app, zlen_app, zlen_cons in Hz; pose proof (zlen_nonneg P); pose proof (zlen_nonneg m); pose proof (zlen_nonneg r).
  all: assert (Hpow : 2 ^ 32 <= 2 ^ w) by (apply Z.pow_le_mono_r; lia).
  all: rewrite uwrap_id by (split; lia).
  all: replace (zlen P + (zlen m + 1)) with (zlen (P ++ m) + 1) by (rewrite zlen_app; lia).
  all: rewrite (Hcond _ _ _ ne Hle Ho Hs); rewrite zlen_app; case_bool_decide as Hlt.
  all: pose proof (f_equal length HA) as HAl; rewrite length_app in HAl.
  all: try (exists x, P, M; split_and!; [done|done| |done]).
  all: try (assert (Hpre : M = take (length M) m);
    [rewrite <- (take_app_length M B), Hmb, take_app_le by (unfold zlen in *; lia); by rewrite length_take_le by (unfold zlen in *; lia)
    |rewrite Hpre; by apply Forall_take]).
  - exfalso. unfold zlen in *. lia.
  - assert (HM : exists M2, M = m ++ [e] ++ M2).
    { exists (drop (length m + 1) M).
      assert (Hsplit : take (length m + 1) (M ++ B) = m ++ [e]).
      { rewrite Hmb. change (e :: r) with ([e] ++ r). rewrite app_assoc. apply take_app_length'. rewrite length_app. cbn. lia. }
      rewrite take_app_le in Hsplit by (unfold zlen in *; lia).
      rewrite app_assoc, <- Hsplit. by rewrite take_drop. }
    destruct HM as (M2 & ->).
    replace (zlen P + zlen m + 1) with (zlen (P ++ m ++ [e])) by (rewrite !zlen_app; change (zlen [e]) with 1; lia).
    apply (IH (P ++ m ++ [e]) M2 (eptr e)).
    + rewrite HA, <- !app_assoc. done.
    + right. exists (P ++ m), e. split_and!; [by rewrite <- app_assoc|done|done].
    + rewrite !length_app in Hf. cbn in Hf. lia.
Qed.

(** The arrays [update] and [rank] for the position behind [A]. *)
Definition updates (hd : ptr) (A : list ent) (k : nat) (us : list (ptr * Z)) : Prop :=
  length us = k /\ forall i, (i < k)%nat -> exists u r, us !! i = Some (u, r) /\ upd_ok hd A i u r.

Lemma descend_ok st l A B cond w fuel : rep st l -> l = A ++ B -> cond_spec cond l (zlen A) -> 32 <= w ->
  (length A <= fuel)%nat ->
  forall k P M x, A = P ++ M -> (k <= level (zsl st))%nat -> (forall i, (i < k)%nat -> at_pos (header (zsl st)) P i x) ->
  exists us, descend fuel (mem st) cond w k x (zlen P) = Some us /\ updates (header (zsl st)) A k us.
Proof.
  intros Hrep Hl Hcond Hw Hfuel. induction k as [|k IH]; intros P M x HA Hk Hx; cbn [descend].
  - exists []. split; [done|]. split; [done|]. intros i Hi. lia.
  - destruct (walk_ok st l A B cond w k Hrep Hl Hcond Hw ltac:(lia) fuel P M x HA (Hx k ltac:(lia)))
      as (x' & P' & M' & -> & HA' & Hlow & Hx'). { rewrite HA, length_app in Hfuel. lia. }
    cbn [mbind option_bind].
    destruct (IH P' M' x' HA' ltac:(lia)) as (us & -> & Hlen & Hus).
    { intros i Hi. eapply at_pos_lower; [done|lia]. }
    cbn [mbind option_bind]. eexists. split; [done|]. split; [rewrite length_app; cbn; lia|].
    intros i Hi. destruct (decide (i = k)) as [->|].
    + exists x', (zlen P'). split; [by apply list_lookup_middle|]. exists P', M'. done.
    + rewrite lookup_app_l by lia. apply Hus. lia.
Qed.

Lemma search_ok st l A B cond w : rep st l -> l = A ++ B -> cond_spec cond l (zlen A) -> 32 <= w ->
  exists us, search st cond w = Some us /\ updates (header (zsl st)) A (level (zsl st)) us.
Proof.
  intros Hrep Hl Hcond Hw. unfold search.
  apply (descend_ok st l A B cond w (zfuel (zsl st)) Hrep Hl Hcond Hw) with (P := []) (M := A); [|done|done|by left].
  unfold zfuel. rewrite (r_len _ _ Hrep), Hl, zlen_app. unfold zlen. lia.
Qed.

Lemma low_0 l : low 0 l -> Forall (fun e => (1 <= eheight e)%nat) l -> l = [].
Proof. intros Hl Hh. destruct l as [|e l]; [done|]. apply Forall_cons_1 in Hl as [? _], Hh as [? _]. lia. Qed.

(** At level 0 the update node is the predecessor. *)
Lemma updates_0 hd A k us : updates hd A k us -> (1 <= k)%nat -> Forall (fun e => (1 <= eheight e)%nat) A ->
  exists u, us !! 0%nat = Some (u, zlen A) /\ at_pos hd A 0 u.
Proof.
  intros [Hlen Hus] Hk Hh. destruct (Hus 0%nat ltac:(lia)) as (u & r & Hu & P & M & -> & HM & -> & Hat).
  apply Forall_app in Hh as [_ Hh]. apply low_0 in HM as ->; [|done]. rewrite app_nil_r. by exists u.
Qed.

Lemma link_0 l : Forall (fun e => (1 <= eheight e)%nat) l ->
  link 0 l = match l with [] => (None, 0) | e :: _ => (Some (eptr e), 1) end.
Proof. intros Hh. destruct l as [|e l]; [done|]. apply Forall_cons_1 in Hh as [? _]. cbn [link]. by rewrite decide_True by lia. Qed.

(** *** One assignment to a level *)

Lemma split_cases {X} (a1 : list X) x b1 a2 y b2 : a1 ++ x :: b1 = a2 ++ y :: b2 ->
  (a2 = a1 /\ y = x /\ b2 = b1) \/ (exists c, a1 = a2 ++ y :: c /\ b2 = c ++ x :: b1) \/
  (exists c, b1 = c ++ y :: b2 /\ a2 = a1 ++ x :: c).
Proof.
  revert a2. induction a1 as [|z a1 IH]; intros [|z' a2] H; cbn in H.
  - left. by injection H as -> ->.
  - right. right. injection H as -> ->. by exists a2.
  - right. left. injection H as -> <-. by exists a1.
  - injection H as -> H. apply IH in H as [(-> & -> & ->)|[(c & -> & ->)|(c & -> & ->)]].
    + by left.
    + right. left. by exists c.
    + right. right. by exists c.
Qed.

Definition tset (T : nat -> list ent) (k : nat) (t : list ent) : nat -> list ent :=
  fun i => if decide (i = k) then t else T i.

(** Writing the link of [update[k]] changes what is behind [A] at level [k] from [T k] to [t]. *)
Lemma LV_step h hd lvl A T k u r t h' :
  NoDup (hd :: ptrs A) -> LV h hd lvl A T -> (k < lvl)%nat -> upd_ok hd A k u r ->
  (forall q j, (q <> u \/ j <> k) -> get_level h' q j = get_level h q j) ->
  (forall P M, A = P ++ M -> low k M -> r = zlen P -> get_level h' u k = Some (link k (M ++ t))) ->
  LV h' hd lvl A (tset T k t).
Proof.
  intros Hnd [Hhd Hel] Hk (P & M & -> & HM & Hr & Hat) Hframe Hnew.
  specialize (Hnew P M eq_refl HM Hr). apply list.NoDup_cons in Hnd as [Hnin Hnd].
  split.
  - intros i Hi. unfold tset. destruct (decide (i = k)) as [->|Hne].
    + destruct Hat as [[-> ->]|(P' & e & -> & -> & He)]; [done|].
      rewrite Hframe.
      * rewrite Hhd by done. f_equal. rewrite <- (app_assoc P'). by apply link_app_irrelevant.
      * left. intros ->. apply Hnin. rewrite !fmap_app. apply elem_of_app. left. apply elem_of_app. right. cbn. apply elem_of_cons. by left.
    + rewrite Hframe by (by right). by apply Hhd.
  - intros A1 e' A2 i HA Hi. unfold tset. destruct (decide (i = k)) as [->|Hne].
    2:{ rewrite Hframe by (by right). by eapply Hel. }
    destruct Hat as [[-> ->]|(P' & e & -> & -> & He)].
    + exfalso. cbn [app] in HA. rewrite HA in HM. apply Forall_app in HM as [_ HM]. apply Forall_cons_1 in HM as [? _]. lia.
    + pose proof HA as HA'. rewrite <- (app_assoc P') in HA'. cbn [app] in HA'.
      destruct (split_cases _ _ _ _ _ _ HA') as [(-> & -> & ->)|[(c & -> & ->)|(c & -> & ->)]].
      * done.
      * rewrite Hframe.
        -- rewrite (Hel _ _ _ _ HA Hi). f_equal. by apply link_app_irrelevant.
        -- left. intros Heq. rewrite <- !app_assoc, fmap_app in Hnd. cbn [app] in Hnd. rewrite fmap_cons in Hnd.
           apply list.NoDup_app in Hnd as (_ & _ & Hnd). apply list.NoDup_cons in Hnd as [Hn _]. apply Hn.
           rewrite Heq, !fmap_app. apply elem_of_app. right. cbn. apply elem_of_cons. by left.
      * exfalso. apply Forall_app in HM as [_ HM]. apply Forall_cons_1 in HM as [? _]. lia.
Qed.

(** The elements behind the position, which the operations do not touch. *)
Definition NT (h : heap) (B : list ent) : Prop :=
  forall B1 e B2 i, B = B1 ++ e :: B2 -> (i < eheight e)%nat -> get_level h (eptr e) i = Some (link i B2).

Lemma LV_split h hd lvl A B : LV h hd lvl (A ++ B) (fun _ => []) <-> LV h hd lvl A (fun _ => B) /\ NT h B.
Proof.
  split.
  - intros [Hhd Hel]. split; [split|].
    + intros i Hi. rewrite Hhd by done. by rewrite app_nil_r.
    + intros A1 e A2 i -> Hi. specialize (Hel A1 e (A2 ++ B) i). rewrite app_nil_r in Hel. apply Hel; [|done].
      by rewrite <- app_assoc.
    + intros B1 e B2 i -> Hi. specialize (Hel (A ++ B1) e B2 i). rewrite app_nil_r in Hel. apply Hel; [|done].
      by rewrite <- app_assoc.
  - intros [[Hhd Hel] HB]. split.
    + intros i Hi. rewrite app_nil_r. by apply Hhd.
    + intros C1 e C2 i HC Hi. rewrite app_nil_r.
      destruct (decide (length C1 < length A)%nat) as [Hlt|Hge].
      * assert (HA : A = C1 ++ e :: take (length A - length C1 - 1) C2).
        { pose proof (f_equal (take (length A)) HC) as H. rewrite take_app_length, take_app_ge in H by lia.
          replace (length A - length C1)%nat with (S (length A - length C1 - 1)) in H by lia. exact H. }
        assert (HC2 : C2 = take (length A - length C1 - 1) C2 ++ B).
        { rewrite HA in HC at 1. rewrite <- app_assoc in HC. apply app_inv_head in HC. by injection HC. }
        rewrite HC2. by eapply Hel.
      * assert (HB' : B = drop (length A) C1 ++ e :: C2).
        { pose proof (f_equal (drop (length A)) HC) as H. by rewrite drop_app_length, drop_app_le in H by lia. }
        by eapply HB.
Qed.

Lemma LV_ext h hd lvl A T T' : LV h hd lvl A T -> Forall (fun e => (eheight e <= lvl)%nat) A ->
  (forall i, (i < lvl)%nat -> T i = T' i) -> LV h hd lvl A T'.
Proof.
  intros [Hhd Hel] Hh HT. split.
  - intros i Hi. rewrite <- HT by done. by apply Hhd.
  - intros A1 e A2 i HA Hi. rewrite <- HT; [by eapply Hel|].
    rewrite HA in Hh. apply Forall_app in Hh as [_ Hh]. apply Forall_cons_1 in Hh as [? _]. lia.
Qed.

Lemma upd_in hd A k u r : upd_ok hd A k u r -> u ∈ hd :: ptrs A.
Proof.
  intros (P & M & -> & _ & _ & [[-> ->]|(P' & e & -> & -> & _)]).
  - apply elem_of_cons. by left.
  - apply elem_of_cons. right. rewrite !fmap_app. apply elem_of_app. left. apply elem_of_app. right. cbn. apply elem_of_cons. by left.
Qed.

Lemma elem_ptr (B1 B2 : list ent) e : eptr e ∈ ptrs (B1 ++ e :: B2).
Proof. rewrite fmap_app. apply elem_of_app. right. cbn. apply elem_of_cons. by left. Qed.

(** The link of [update[k]] before the assignment. *)
Lemma upd_level h hd lvl A T k u r : LV h hd lvl A T -> (k < lvl)%nat -> upd_ok hd A k u r ->
  exists M, low k M /\ zlen M = zlen A - r /\ 0 <= r /\
    get_level h u k = Some (fst (link k (T k)), zlen M + snd (link k (T k))).
Proof.
  intros HLV Hk (P & M & -> & HM & -> & Hat). exists M. pose proof (zlen_nonneg P).
  rewrite (LV_at h hd lvl P M T k u HLV Hk Hat), link_low by done. rewrite zlen_app. split_and!; [done|lia|lia|done].
Qed.

(** An assignment to a node in front of the position, as a step from [T] to [tset T k t]. *)
Lemma flip_level h hd lvl A T k u r t v :
  NoDup (hd :: ptrs A) -> LV h hd lvl A T -> (k < lvl)%nat -> upd_ok hd A k u r ->
  v = (fst (link k t), zlen A - r + snd (link k t)) ->
  exists h', set_level h u k v = Some h' /\ LV h' hd lvl A (tset T k t) /\
    (forall q j, q ∉ hd :: ptrs A -> get_level h' q j = get_level h q j) /\
    (forall j, (lvl <= j)%nat -> get_level h' hd j = get_level h hd j) /\
    (forall q, shape h' q = shape h q).
Proof.
  intros Hnd HLV Hk Hu Hv. destruct (upd_level h hd lvl A T k u r HLV Hk Hu) as (M0 & _ & _ & _ & Hget).
  destruct (set_level_ok h u k v _ Hget) as (h' & Hset & Hnew & Hframe & Hshape).
  exists h'. split; [done|]. split_and!.
  - eapply LV_step; [done|done|done|done|done|]. intros P M -> HM ->. rewrite Hnew, Hv, link_low by done.
    rewrite zlen_app. f_equal. f_equal. lia.
  - intros q j Hq. apply Hframe. left. intros ->. apply Hq. by eapply upd_in.
  - intros j Hj. apply Hframe. right. lia.
  - done.
Qed.

(** *** The loops of zslInsert *)

Lemma low_link_nil i l : low i l -> link i l = (None, zlen l).
Proof. intros Hl. rewrite <- (app_nil_r l) at 1. rewrite link_low by done. cbn. f_equal. lia. Qed.

Lemma raise_levels_ok n hd l A : hd ∉ ptrs l -> zlen l < 2 ^ 32 -> (exists B, l = A ++ B) ->
  forall h i us, LV h hd i l (fun _ => []) -> updates hd A i us -> low i l ->
    (forall j, (i <= j < ZSKIPLIST_MAXLEVEL)%nat -> exists sp, get_level h hd j = Some (None, sp)) ->
    (i + n <= ZSKIPLIST_MAXLEVEL)%nat ->
  exists h' us', raise_levels n h hd (zlen l) i us = Some (h', us') /\
    LV h' hd (i + n) l (fun _ => []) /\ updates hd A (i + n) us' /\
    (forall j, (i + n <= j < ZSKIPLIST_MAXLEVEL)%nat -> exists sp, get_level h' hd j = Some (None, sp)) /\
    (forall q, shape h' q = shape h q).
Proof.
  intros Hnin Hsz (B & HlB). induction n as [|n IH]; intros h i us HLV Hus Hlow Hup Hn; cbn [raise_levels].
  - exists h, us. rewrite Nat.add_0_r. done.
  - destruct (Hup i ltac:(lia)) as (sp & Hsp). rewrite Hsp. cbn [mbind option_bind].
    pose proof (zlen_nonneg l). unfold u32. rewrite uwrap_id by (split; lia).
    destruct (set_level_ok h hd i (None, zlen l) _ Hsp) as (h1 & -> & Hnew & Hframe & Hshape). cbn [mbind option_bind].
    destruct (IH h1 (S i) (us ++ [(hd, 0)])) as (h' & us' & -> & HLV' & Hus' & Hup' & Hsh').
    + destruct HLV as [Hhd Hel]. split.
      * intros j Hj. rewrite app_nil_r. destruct (decide (j = i)) as [->|].
        -- by rewrite Hnew, low_link_nil.
        -- rewrite Hframe by (by right). rewrite <- (app_nil_r l). apply Hhd. lia.
      * intros A1 e A2 j HA Hj. rewrite Hframe; [by eapply Hel|]. left. intros Heq. apply Hnin. rewrite <- Heq, HA. apply elem_ptr.
    + destruct Hus as [Hlen Hus]. split; [rewrite length_app; cbn; lia|]. intros j Hj. destruct (decide (j = i)) as [->|].
      * exists hd, 0. split; [rewrite <- Hlen; by apply list_lookup_middle|]. exists [], A. split_and!; [done| |done|by left].
        rewrite HlB in Hlow. by apply Forall_app in Hlow as [? _].
      * rewrite lookup_app_l by lia. apply Hus. lia.
    + unfold low in *. eapply List.Forall_impl; [|exact Hlow]. cbn. lia.
    + intros j Hj. rewrite Hframe by (right; lia). apply Hup. lia.
    + lia.
    + exists h', us'. replace (i + S n)%nat with (S i + n)%nat by lia. split_and!; try done. intros q. by rewrite Hsh'.
Qed.

(** [ex] linked below level [i]. *)
Definition upto (i : nat) (t t' : list ent) : nat -> list ent := fun j => if decide (j < i)%nat then t else t'.

Lemma upto_self i t t' : upto i t t' i = t'.
Proof. unfold upto. by rewrite decide_False by lia. Qed.

Lemma LV_upto_S h hd lvl A i t t' : Forall (fun e => (eheight e <= lvl)%nat) A ->
  LV h hd lvl A (tset (upto i t t') i t) -> LV h hd lvl A (upto (S i) t t').
Proof.
  intros Hh H. eapply LV_ext; [done|done|]. intros j _. unfold tset, upto.
  destruct (decide (j = i)), (decide (j < i)%nat), (decide (j < S i)%nat); try done; lia.
Qed.

Lemma link_levels_ok hd top A B ex us :
  NoDup (hd :: ptrs (A ++ ex :: B)) -> updates hd A top us -> (eheight ex <= top)%nat ->
  Forall (fun e => (eheight e <= top)%nat) A -> zlen A + zlen B + 1 < 2 ^ 32 ->
  forall n i h, (i + n = eheight ex)%nat ->
    LV h hd top A (upto i (ex :: B) B) -> NT h B ->
    (forall j, (j < eheight ex)%nat -> exists v, get_level h (eptr ex) j = Some v) ->
    (forall j, (j < i)%nat -> get_level h (eptr ex) j = Some (link j B)) ->
  exists h', link_levels n h (eptr ex) (zlen A) us i = Some h' /\
    LV h' hd top A (upto (eheight ex) (ex :: B) B) /\ NT h' B /\
    (forall j, (j < eheight ex)%nat -> get_level h' (eptr ex) j = Some (link j B)) /\
    (forall j, (top <= j)%nat -> get_level h' hd j = get_level h hd j) /\
    (forall q, shape h' q = shape h q).
Proof.
  intros Hnd Hus Hex HhA Hsz. pose proof (zlen_nonneg A). pose proof (zlen_nonneg B).
  apply list.NoDup_cons in Hnd as [Hhd Hnd]. rewrite fmap_app in Hhd, Hnd. cbn in Hhd, Hnd.
  apply list.NoDup_app in Hnd as (HndA & HAB & HndB). apply list.NoDup_cons in HndB as [HexB HndB].
  rewrite not_elem_of_app, not_elem_of_cons in Hhd. destruct Hhd as (HhdA & Hhdx & HhdB).
  assert (HxA : eptr ex ∉ hd :: ptrs A).
  { apply not_elem_of_cons. split; [congruence|]. intros Hin. apply (HAB _ Hin). apply elem_of_cons. by left. }
  assert (HBA : forall q, q ∈ ptrs B -> q ∉ hd :: ptrs A).
  { intros q Hq. apply not_elem_of_cons. split; [congruence|]. intros Hin. apply (HAB _ Hin). apply elem_of_cons. by right. }
  induction n as [|n IH]; intros i h Hi HLV HNT Hxl Hxi; cbn [link_levels].
  - exists h. replace i with (eheight ex) in * by lia. split_and!; try done.
  - destruct (proj2 Hus i ltac:(lia)) as (u & r & Hu & Hok). rewrite Hu. cbn [mbind option_bind].
    destruct (upd_level h hd top A _ i u r HLV ltac:(lia) Hok) as (M & HM & HMr & Hr0 & ->). cbn [mbind option_bind].
    rewrite !upto_self.
    pose proof (link_span_nonneg i B) as Hspan. pose proof (zlen_nonneg M).
    unfold u32. rewrite (uwrap_id 32 (zlen A - r)) by (split; lia).
    rewrite !uwrap_id by (split; lia).
    replace (zlen M + snd (link i B) - (zlen A - r)) with (snd (link i B)) by lia.
    destruct (Hxl i ltac:(lia)) as (v0 & Hv0).
    destruct (set_level_ok h (eptr ex) i (fst (link i B), snd (link i B)) _ Hv0) as (h1 & -> & Hnew & Hframe & Hshape).
    cbn [mbind option_bind].
    assert (HLV1 : LV h1 hd top A (upto i (ex :: B) B)).
    { destruct HLV as [Hl1 Hl2]. split.
      - intros j Hj. rewrite Hframe by (left; intros ->; done). by apply Hl1.
      - intros A1 e A2 j HA Hj. rewrite Hframe; [by eapply Hl2|]. left. intros Heq. apply HxA. rewrite <- Heq, HA.
        apply elem_of_cons. right. apply elem_ptr. }
    destruct (flip_level h1 hd top A (upto i (ex :: B) B) i u r (ex :: B) (Some (eptr ex), zlen A - r + 1)) as (h2 & -> & HLV2 & Hf2 & Hh2 & Hs2);
      [by constructor|done|lia|done|cbn [link]; by rewrite decide_True by lia|].
    cbn [mbind option_bind].
    destruct (IH (S i) h2) as (h' & -> & G1 & G2 & G3 & G4 & G5); [lia|by apply LV_upto_S| | | |].
    + intros B1 e B2 j HB Hj. rewrite Hf2 by (apply HBA; rewrite HB; apply elem_ptr).
      rewrite Hframe; [by eapply HNT|]. left. intros Heq. apply HexB. rewrite <- Heq, HB. apply elem_ptr.
    + intros j Hj. rewrite Hf2 by done. destruct (decide (j = i)) as [->|]; [by eexists|].
      rewrite Hframe by (by right). by apply Hxl.
    + intros j Hj. rewrite Hf2 by done. destruct (decide (j = i)) as [->|].
      * rewrite Hnew. by destruct (link i B).
      * rewrite Hframe by (by right). apply Hxi. lia.
    + exists h'. split_and!; try done.
      * intros j Hj. rewrite G4, Hh2 by done. apply Hframe. left. intros Heq. done.
      * intros q. rewrite G5, Hs2. apply Hshape.
Qed.

Lemma link_skip i ex B : (eheight ex <= i)%nat -> link i (ex :: B) = (fst (link i B), snd (link i B) + 1).
Proof. intros Hi. cbn [link]. rewrite decide_False by lia. by destruct (link i B). Qed.

Lemma bump_levels_ok hd top A B ex us :
  NoDup (hd :: ptrs A) -> updates hd A top us -> Forall (fun e => (eheight e <= top)%nat) A ->
  zlen A + zlen B + 1 < 2 ^ 32 ->
  forall n i h, (i + n = top)%nat -> (eheight ex <= i)%nat -> LV h hd top A (upto i (ex :: B) B) ->
  exists h', bump_levels n h us i = Some h' /\ LV h' hd top A (upto top (ex :: B) B) /\
    (forall q j, q ∉ hd :: ptrs A -> get_level h' q j = get_level h q j) /\
    (forall j, (top <= j)%nat -> get_level h' hd j = get_level h hd j) /\
    (forall q, shape h' q = shape h q).
Proof.
  intros Hnd Hus HhA Hsz. pose proof (zlen_nonneg A). pose proof (zlen_nonneg B).
  induction n as [|n IH]; intros i h Hi Hex HLV; cbn [bump_levels].
  - exists h. replace i with top in * by lia. done.
  - destruct (proj2 Hus i ltac:(lia)) as (u & r & Hu & Hok). rewrite Hu. cbn [mbind option_bind].
    destruct (upd_level h hd top A _ i u r HLV ltac:(lia) Hok) as (M & HM & HMr & Hr0 & ->). cbn [mbind option_bind].
    rewrite !upto_self. pose proof (link_span_nonneg i B). pose proof (zlen_nonneg M).
    unfold u32. rewrite uwrap_id by (split; lia).
    destruct (flip_level h hd top A (upto i (ex :: B) B) i u r (ex :: B) (fst (link i B), zlen M + snd (link i B) + 1))
      as (h2 & -> & HLV2 & Hf2 & Hh2 & Hs2); [done|done|lia|done|rewrite link_skip by done; cbn; f_equal; lia|].
    cbn [mbind option_bind].
    destruct (IH (S i) h2) as (h' & -> & G1 & G2 & G3 & G4); [lia|lia|by apply LV_upto_S|].
    exists h'. split_and!; try done.
    + intros q j Hq. rewrite G2 by done. by apply Hf2.
    + intros j Hj. rewrite G3 by done. by apply Hh2.
    + intros q. by rewrite G4.
Qed.

(** *** The loop of zslDeleteNode *)

Lemma link_in i B x : fst (link i B) = Some x -> x ∈ ptrs B.
Proof.
  destruct (link_cases i B) as [[_ ->]|(m & e & r & -> & _ & _ & ->)]; [done|]. cbn. intros [= <-]. apply elem_ptr.
Qed.

(** Enough of the arrays for deletion, which may lower the level in between. *)
Definition upd_all (hd : ptr) (A : list ent) (k : nat) (us : list (ptr * Z)) : Prop :=
  forall i, (i < k)%nat -> exists u r, us !! i = Some (u, r) /\ upd_ok hd A i u r.

Lemma unlink_levels_ok hd top A B ex us :
  NoDup (hd :: ptrs (A ++ ex :: B)) -> upd_all hd A top us -> (eheight ex <= top)%nat ->
  Forall (fun e => (eheight e <= top)%nat) A -> zlen A + zlen B + 1 < 2 ^ 32 ->
  forall n i h, (i + n = top)%nat -> LV h hd top A (upto i B (ex :: B)) ->
    (forall j, (j < eheight ex)%nat -> get_level h (eptr ex) j = Some (link j B)) ->
  exists h', unlink_levels n h (eptr ex) us i = Some h' /\ LV h' hd top A (upto top B (ex :: B)) /\
    (forall q j, q ∉ hd :: ptrs A -> get_level h' q j = get_level h q j) /\
    (forall j, (top <= j)%nat -> get_level h' hd j = get_level h hd j) /\
    (forall q, shape h' q = shape h q).
Proof.
  intros Hnd Hus Hex HhA Hsz. pose proof (zlen_nonneg A). pose proof (zlen_nonneg B).
  apply list.NoDup_cons in Hnd as [Hhd Hnd]. rewrite fmap_app in Hhd, Hnd. cbn in Hhd, Hnd.
  apply list.NoDup_app in Hnd as (HndA & HAB & HndB). apply list.NoDup_cons in HndB as [HexB HndB].
  rewrite not_elem_of_app, not_elem_of_cons in Hhd. destruct Hhd as (HhdA & Hhdx & HhdB).
  assert (HxA : eptr ex ∉ hd :: ptrs A).
  { apply not_elem_of_cons. split; [congruence|]. intros Hin. apply (HAB _ Hin). apply elem_of_cons. by left. }
  induction n as [|n IH]; intros i h Hi HLV Hxl; cbn [unlink_levels].
  - exists h. replace i with top in * by lia. done.
  - destruct (Hus i ltac:(lia)) as (u & r & Hu & Hok). rewrite Hu. cbn [mbind option_bind].
    destruct (upd_level h hd top A _ i u r HLV ltac:(lia) Hok) as (M & HM & HMr & Hr0 & ->). cbn [mbind option_bind].
    rewrite !upto_self. pose proof (link_span_nonneg i B). pose proof (zlen_nonneg M).
    assert (Hstep : exists h2,
      (if decide (fst (link i (ex :: B)) = Some (eptr ex)) then
         '(fx, spanx) ← get_level h (eptr ex) i;
         set_level h u i (fx, u32 (zlen M + snd (link i (ex :: B)) + u32 (spanx - 1)))
       else set_level h u i (fst (link i (ex :: B)), u32 (zlen M + snd (link i (ex :: B)) - 1))) = Some h2 /\
      LV h2 hd top A (tset (upto i B (ex :: B)) i B) /\
      (forall q j, q ∉ hd :: ptrs A -> get_level h2 q j = get_level h q j) /\
      (forall j, (top <= j)%nat -> get_level h2 hd j = get_level h hd j) /\
      (forall q, shape h2 q = shape h q)).
    { destruct (decide (i < eheight ex)%nat) as [Hlt|Hge].
      - assert (E : link i (ex :: B) = (Some (eptr ex), 1)) by (cbn [link]; by rewrite decide_True).
        rewrite E. cbn [fst snd]. rewrite decide_True by done. rewrite (Hxl i Hlt). cbn [mbind option_bind].
        destruct (link i B) as [f sp] eqn:El. cbn [snd] in *.
        apply flip_level with (r := r); [by constructor|done|lia|done|]. rewrite El. cbn. f_equal.
        unfold u32, uwrap. rewrite Zplus_mod_idemp_r, Z.mod_small by lia. lia.
      - rewrite link_skip by lia. cbn [fst snd]. rewrite decide_False.
        2:{ intros Hin%link_in. done. }
        apply flip_level with (r := r); [by constructor|done|lia|done|]. cbn. f_equal.
        unfold u32. rewrite uwrap_id by (split; lia). lia. }
    destruct Hstep as (h2 & -> & HLV2 & Hf2 & Hh2 & Hs2). cbn [mbind option_bind].
    destruct (IH (S i) h2) as (h' & -> & G1 & G2 & G3 & G4); [lia|by apply LV_upto_S|intros j Hj; rewrite Hf2 by done; by apply Hxl|].
    exists h'. split_and!; try done.
    + intros q j Hq. rewrite G2 by done. by apply Hf2.
    + intros j Hj. rewrite G3 by done. by apply Hh2.
    + intros q. by rewrite G4.
Qed.

(** *** The order *)

Lemma key_lt_trans s1 o1 s2 o2 s3 o3 : key_lt s1 o1 s2 o2 = true -> key_lt s2 o2 s3 o3 = true -> key_lt s1 o1 s3 o3 = true.
Proof.
  unfold key_lt. rewrite !orb_true_iff, !andb_true_iff, !Z.ltb_lt. intros [H1|[H1 H1']] [H2|[H2 H2']].
  - left. by eapply slt_trans.
  - left. by rewrite <- (seq_slt_r _ _ _ H2).
  - left. by rewrite (seq_slt_l _ _ _ H1).
  - destruct (slt_cases s1 s3) as [?|[?|H3]]; [by left|right; split; [done|by eapply cmp_trans]|].
    exfalso. rewrite (seq_slt_r _ _ _ H1), (seq_slt_l _ _ _ (seq_sym_ _ _ H2)), slt_irrefl in H3. done.
Qed.

Lemma key_lt_irrefl s o : key_lt s o s o = false.
Proof.
  unfold key_lt. rewrite slt_irrefl. cbn. replace (compareStringObjects o o) with 0 by (symmetry; by apply cmp_eq).
  by rewrite andb_false_r.
Qed.

Lemma key_lt_total s1 o1 s2 o2 : key_lt s1 o1 s2 o2 = false -> key_lt s2 o2 s1 o1 = false ->
  seq_ s1 s2 = true /\ o1 = o2.
Proof.
  unfold key_lt. rewrite !orb_false_iff, !andb_false_iff, !Z.ltb_ge. intros [H1 H1'] [H2 H2'].
  destruct (slt_cases s1 s2) as [?|[He|?]]; [congruence| |congruence]. split; [done|].
  destruct H1' as [?|H1']; [congruence|]. destruct H2' as [H2'|H2']; [rewrite (seq_sym_ _ _ He) in H2'; done|].
  apply cmp_eq. pose proof (cmp_antisym o2 o1). lia.
Qed.

(** A sorted list splits where a downward closed condition ends. *)
Lemma split_by (p : ent -> bool) l : StronglySorted elt l ->
  (forall e1 e2, elt e1 e2 -> p e2 = true -> p e1 = true) ->
  exists A B, l = A ++ B /\ Forall (fun e => p e = true) A /\ Forall (fun e => p e = false) B.
Proof.
  intros Hs Hp. induction Hs as [|e l Hs IH Hall]; [exists [], []; by repeat constructor|].
  destruct (p e) eqn:E.
  - destruct IH as (A & B & -> & HA & HB). exists (e :: A), B. split_and!; [done|by constructor|done].
  - exists [], (e :: l). split_and!; [done|constructor|]. constructor; [done|].
    eapply List.Forall_impl; [|exact Hall]. cbn. intros e2 He2. destruct (p e2) eqn:E2; [|done].
    rewrite (Hp _ _ He2 E2) in E. done.
Qed.

Lemma cond_spec_split (p : ent -> bool) cond A B :
  Forall (fun e => p e = true) A -> Forall (fun e => p e = false) B ->
  (forall t n e, zobj n = Some (eobj e) -> zscore n = escore e -> cond t n = p e) ->
  cond_spec cond (A ++ B) (zlen A).
Proof.
  intros HA HB Hc l1 e l2 n Hl Ho Hs. rewrite (Hc _ n e Ho Hs).
  assert (Hin : (A ++ B) !! length l1 = Some e) by (rewrite Hl; by apply list_lookup_middle).
  case_bool_decide as Hlt.
  - rewrite lookup_app_l in Hin by (unfold zlen in Hlt; lia). by eapply Forall_lookup_1 in HA.
  - rewrite lookup_app_r in Hin by (unfold zlen in Hlt; lia). by eapply Forall_lookup_1 in HB.
Qed.

Definition is_before (s : score) (o : obj) (e : ent) : bool := key_lt (escore e) (eobj e) s o.

Lemma is_before_closed s o e1 e2 : elt e1 e2 -> is_before s o e2 = true -> is_before s o e1 = true.
Proof. apply key_lt_trans. Qed.

Lemma before_is_before s o (n : zskiplistNode) e :
  zobj n = Some (eobj e) -> zscore n = escore e -> before s o n = is_before s o e.
Proof. intros Ho Hs. unfold before, is_before, key_lt. by rewrite Ho, Hs. Qed.

(** The search of zslInsert and zslDelete. *)
Lemma search_before st l s o : rep st l -> exists A B us, l = A ++ B /\
  Forall (fun e => is_before s o e = true) A /\ Forall (fun e => is_before s o e = false) B /\
  search st (fun _ => before s o) 32 = Some us /\ updates (header (zsl st)) A (level (zsl st)) us.
Proof.
  intros Hrep. destruct (split_by (is_before s o) l (r_sorted _ _ Hrep) (is_before_closed s o)) as (A & B & -> & HA & HB).
  destruct (search_ok st (A ++ B) A B (fun _ => before s o) 32 Hrep eq_refl) as (us & Hus & Hok).
  { apply cond_spec_split with (p := is_before s o); [done|done|]. intros _. apply before_is_before. }
  { lia. }
  by exists A, B, us.
Qed.

(** *** Nodes and back pointers *)

Lemma set_backward_ok h p b o s b0 n : shape h p = Some (o, s, b0, n) ->
  exists h', set_backward h p b = Some h' /\ shape h' p = Some (o, s, b, n) /\
    (forall q, q <> p -> shape h' q = shape h q) /\ (forall q j, get_level h' q j = get_level h q j).
Proof.
  unfold shape, set_backward, get_level. destruct (h !! p) as [nd|] eqn:E; [|done]. cbn [mbind option_bind].
  intros [= <- <- <- <-]. eexists. split; [done|]. rewrite lookup_insert_eq. split_and!; [done| |].
  - intros q Hq. by rewrite lookup_insert_ne.
  - intros q j. destruct (decide (q = p)) as [->|]; [by rewrite lookup_insert_eq, E|by rewrite lookup_insert_ne].
Qed.

Lemma zslCreateNode_ok h x n s o :
  shape (zslCreateNode h x n s o) x = Some (o, s, None, n) /\
  (forall q, q <> x -> shape (zslCreateNode h x n s o) q = shape h q) /\
  (forall q j, q <> x -> get_level (zslCreateNode h x n s o) q j = get_level h q j) /\
  (forall j, (j < n)%nat -> exists v, get_level (zslCreateNode h x n s o) x j = Some v).
Proof.
  unfold zslCreateNode, shape, get_level. split_and!.
  - rewrite lookup_insert_eq. cbn. by rewrite length_replicate.
  - intros q Hq. by rewrite lookup_insert_ne.
  - intros q j Hq. by rewrite lookup_insert_ne.
  - intros j Hj. rewrite lookup_insert_eq. cbn. exists junk. by apply lookup_replicate_2.
Qed.

Lemma random_level_ge n rnd lvl : random_level n rnd = Some lvl -> (n <= lvl)%nat.
Proof.
  revert n. induction rnd as [|r rnd IH]; intros n; cbn [random_level]; [done|].
  destruct (_ <=? _); [|by intros [= <-]]. intros H%IH. lia.
Qed.

Lemma zslRandomLevel_range rnd lvl : zslRandomLevel rnd = Some lvl -> (1 <= lvl <= ZSKIPLIST_MAXLEVEL)%nat.
Proof.
  unfold zslRandomLevel. destruct (random_level 1 rnd) as [n|] eqn:E; [|done]. cbn. intros [= <-].
  apply random_level_ge in E. unfold ZSKIPLIST_MAXLEVEL in *. destruct (decide _); lia.
Qed.

(** The fields other than the levels. *)
Definition shapes (h : heap) (l : list ent) : Prop := forall l1 e l2, l = l1 ++ e :: l2 ->
  shape h (eptr e) = Some (Some (eobj e), escore e, lastptr l1, eheight e).

Lemma lastptr_snoc l e : lastptr (l ++ [e]) = Some (eptr e).
Proof. unfold lastptr. by rewrite list.last_snoc. Qed.

Lemma lastptr_app_cons l e l' : lastptr (l ++ e :: l') = lastptr (e :: l').
Proof. unfold lastptr. by rewrite last_app_cons. Qed.

Lemma NoDup_ptr_ne (l1 l2 : list ent) e e' : NoDup (ptrs (l1 ++ e :: l2)) -> e' ∈ l1 ++ l2 -> eptr e' <> eptr e.
Proof.
  intros Hnd Hin Heq. rewrite fmap_app in Hnd. cbn in Hnd. apply list.NoDup_app in Hnd as (_ & H1 & H2).
  apply list.NoDup_cons in H2 as [H2 _]. apply elem_of_app in Hin as [Hin|Hin].
  - apply (H1 (eptr e')); [by apply list_elem_of_fmap_2|]. rewrite Heq. apply elem_of_cons. by left.
  - apply H2. rewrite <- Heq. by apply list_elem_of_fmap_2.
Qed.

Lemma shapes_insert h h' A B ex : shapes h (A ++ B) -> NoDup (ptrs (A ++ ex :: B)) ->
  shape h' (eptr ex) = Some (Some (eobj ex), escore ex, lastptr A, eheight ex) ->
  (forall e B', B = e :: B' -> shape h' (eptr e) = Some (Some (eobj e), escore e, Some (eptr ex), eheight e)) ->
  (forall q, q <> eptr ex -> (forall e B', B = e :: B' -> q <> eptr e) -> shape h' q = shape h q) ->
  shapes h' (A ++ ex :: B).
Proof.
  intros Hsh Hnd Hx Hfirst Hframe l1 e l2 Hl.
  destruct (split_cases _ _ _ _ _ _ Hl) as [(-> & -> & ->)|[(c & -> & ->)|(c & -> & ->)]]; [done| |].
  - rewrite Hframe.
    + apply (Hsh l1 e (c ++ B)). by rewrite <- app_assoc.
    + apply (NoDup_ptr_ne _ _ _ _ Hnd). rewrite <- !app_assoc. apply elem_of_app. right. apply elem_of_app. left. apply elem_of_cons. by left.
    + intros e' B' ->. pose proof Hnd as Hnd'. rewrite <- app_assoc in Hnd'.
      change (l1 ++ (e :: c) ++ ex :: e' :: B') with (l1 ++ e :: (c ++ ex :: e' :: B')) in Hnd'.
      intros Heq. symmetry in Heq. revert Heq. apply (NoDup_ptr_ne _ _ _ _ Hnd').
      apply elem_of_app. right. apply elem_of_app. right. apply elem_of_cons. right. apply elem_of_cons. by left.
  - destruct c as [|e' c].
    + cbn [app]. rewrite lastptr_app_cons. by apply (Hfirst e l2).
    + rewrite Hframe.
      * rewrite (Hsh (A ++ e' :: c) e l2) by (by rewrite <- app_assoc).
        rewrite !lastptr_app_cons. change (ex :: e' :: c) with ([ex] ++ e' :: c). by rewrite lastptr_app_cons.
      * apply (NoDup_ptr_ne _ _ _ _ Hnd). apply elem_of_app. right. apply elem_of_app. right. apply elem_of_cons. by left.
      * intros e2 B' [= <- <-]. pose proof Hnd as Hnd'.
        replace (A ++ ex :: (e' :: c) ++ e :: l2) with ((A ++ [ex]) ++ e' :: (c ++ e :: l2)) in Hnd' by (by rewrite <- app_assoc).
        apply (NoDup_ptr_ne _ _ _ _ Hnd'). apply elem_of_app. right. apply elem_of_app. right. apply elem_of_cons. by left.
Qed.

Lemma NT_cons h B ex : NT h B -> (forall j, (j < eheight ex)%nat -> get_level h (eptr ex) j = Some (link j B)) -> NT h (ex :: B).
Proof.
  intros HB Hx B1 e B2 i Hsplit Hi. destruct B1 as [|e1 B1]; cbn in Hsplit.
  - injection Hsplit as <- <-. by apply Hx.
  - injection Hsplit as _ ->. by eapply HB.
Qed.

Lemma LV_frame h h' hd lvl A T : LV h hd lvl A T ->
  (forall q j, q ∈ hd :: ptrs A -> get_level h' q j = get_level h q j) -> LV h' hd lvl A T.
Proof.
  intros [Hhd Hel] Hf. split.
  - intros i Hi. rewrite Hf; [by apply Hhd|]. apply elem_of_cons. by left.
  - intros A1 e A2 i HA Hi. rewrite Hf; [by eapply Hel|]. apply elem_of_cons. right. rewrite HA. apply elem_ptr.
Qed.

(** The levels after zslInsert, up to the back pointers. *)
Lemma insert_levels st A B s o us lvl :
  rep st (A ++ B) -> updates (header (zsl st)) A (level (zsl st)) us -> (1 <= lvl <= ZSKIPLIST_MAXLEVEL)%nat ->
  zlen (A ++ B) + 1 < 2 ^ 32 ->
  let z := zsl st in let x := next st in let ex := mkEnt x s o lvl in let top := Nat.max lvl (level z) in
  exists h1 us1 u0 h2 h3,
    raise_levels (lvl - level z) (mem st) (header z) (zlength z) (level z) us = Some (h1, us1) /\
    us1 !! 0%nat = Some (u0, zlen A) /\ at_pos (header z) A 0 u0 /\
    link_levels lvl (zslCreateNode h1 x lvl s (Some o)) x (zlen A) us1 0 = Some h2 /\
    bump_levels (top - lvl) h2 us1 lvl = Some h3 /\
    LV h3 (header z) top (A ++ ex :: B) (fun _ => []) /\
    (forall j, (top <= j < ZSKIPLIST_MAXLEVEL)%nat -> exists sp, get_level h3 (header z) j = Some (None, sp)) /\
    shape h3 x = Some (Some o, s, None, lvl) /\ (forall q, q <> x -> shape h3 q = shape (mem st) q).
Proof.
  intros Hrep Hus Hlvl Hsz z x ex top. set (hd := header z).
  assert (Hfresh : x ∉ hd :: ptrs (A ++ B)).
  { intros Hin. pose proof (r_next _ _ Hrep) as Hn. rewrite list_elem_of_In in Hin. rewrite List.Forall_forall in Hn.
    specialize (Hn _ Hin). cbn in Hn. unfold x in Hn. lia. }
  pose proof (r_nodup _ _ Hrep) as Hnd. fold z hd in Hnd.
  assert (Hnd' : NoDup (hd :: ptrs (A ++ ex :: B))).
  { apply list.NoDup_cons in Hnd as [Hh Hnd]. apply not_elem_of_cons in Hfresh as [Hxh Hxl].
    rewrite fmap_app in *. cbn. constructor.
    - rewrite elem_of_app, elem_of_cons. rewrite elem_of_app in Hh. cbn. intuition congruence.
    - rewrite <- Permutation_middle. constructor; done. }
  pose proof (r_heights _ _ Hrep) as Hhs. fold z in Hhs.
  assert (Htop : (level z + (lvl - level z))%nat = top) by (unfold top; lia).
  assert (Hzl : zlength z = zlen (A ++ B)) by apply (r_len _ _ Hrep). rewrite Hzl.
  assert (Hhd : hd ∉ ptrs (A ++ B)) by (by apply list.NoDup_cons in Hnd as [? _]).
  destruct (raise_levels_ok (lvl - level z) hd (A ++ B) A Hhd ltac:(lia) ltac:(by exists B) (mem st) (level z) us)
    as (h1 & us1 & Hr & HLV1 & Hus1 & Hup1 & Hsh1); [apply Hrep|done| |apply Hrep|pose proof (r_lvl _ _ Hrep) as Hrl; fold z in Hrl; lia|].
  { eapply List.Forall_impl; [|exact Hhs]. cbn. lia. }
  rewrite Htop in *.
  assert (HhA : Forall (fun e => (1 <= eheight e <= top)%nat) (A ++ B)).
  { eapply List.Forall_impl; [|exact Hhs]. cbn. unfold top. lia. }
  apply Forall_app in HhA as [HhA HhB].
  destruct (updates_0 hd A top us1 Hus1) as (u0 & Hu0 & Hat0); [unfold top; lia| |].
  { eapply List.Forall_impl; [|exact HhA]. cbn. lia. }
  assert (HhA' : Forall (fun e => (eheight e <= top)%nat) A) by (eapply List.Forall_impl; [|exact HhA]; cbn; lia).
  destruct (zslCreateNode_ok h1 x lvl s (Some o)) as (Hcx & Hcs & Hcl & Hcv).
  set (h1' := zslCreateNode h1 x lvl s (Some o)) in *.
  assert (HLV1' : LV h1' hd top (A ++ B) (fun _ => [])).
  { eapply LV_frame; [done|]. intros q j Hq. apply Hcl. congruence. }
  apply LV_split in HLV1' as [HLVa HNTb]. rewrite zlen_app in Hsz.
  destruct (link_levels_ok hd top A B ex us1 Hnd' Hus1 ltac:(cbn; unfold top; lia) HhA' ltac:(lia) lvl 0%nat h1')
    as (h2 & Hl2 & HLV2 & HNT2 & Hx2 & Hup2 & Hsh2); [done| |done|done|intros j Hj; lia|].
  { eapply LV_ext; [done|done|]. intros i _. unfold upto. by rewrite decide_False by lia. }
  assert (HndA : NoDup (hd :: ptrs A)).
  { rewrite fmap_app in Hnd. apply list.NoDup_cons in Hnd as [Hh Hnd]. apply list.NoDup_app in Hnd as [? _].
    rewrite not_elem_of_app in Hh. constructor; tauto. }
  destruct (bump_levels_ok hd top A B ex us1 HndA Hus1 HhA' ltac:(lia) (top - lvl) lvl h2) as (h3 & Hl3 & HLV3 & Hf3 & Hup3 & Hsh3);
    [unfold top; lia|done|done|].
  assert (HAx : forall q, q ∈ ptrs (ex :: B) -> q ∉ hd :: ptrs A).
  { intros q Hq Hq2. rewrite fmap_app in Hnd'. apply list.NoDup_cons in Hnd' as [Hh' Hnd2].
    apply list.NoDup_app in Hnd2 as (_ & Hdis & _). apply elem_of_cons in Hq2 as [->|Hq2].
    - apply Hh'. apply elem_of_app. by right.
    - by apply (Hdis q). }
  exists h1, us1, u0, h2, h3. split_and!; try done.
  - apply LV_split. split.
    + eapply LV_ext; [done|done|]. intros i Hi. unfold upto. by rewrite decide_True.
    + apply NT_cons.
      * intros B1 e B2 i HB Hi. rewrite Hf3; [by eapply HNT2|]. apply HAx. cbn. apply elem_of_cons. right. rewrite HB. apply elem_ptr.
      * intros j Hj. rewrite Hf3; [by apply Hx2|]. apply HAx. cbn. apply elem_of_cons. by left.
  - intros j Hj. rewrite Hup3, Hup2 by lia. unfold h1'. rewrite Hcl; [by apply Hup1|]. intros ->. apply Hfresh. apply elem_of_cons. by left.
  - by rewrite Hsh3, Hsh2, Hcx.
  - intros q Hq. rewrite Hsh3, Hsh2, Hcs by done. apply Hsh1.
Qed.

Lemma sorted_insert A B ex : StronglySorted elt (A ++ B) ->
  Forall (fun e => elt e ex) A -> Forall (fun e => elt ex e) B -> StronglySorted elt (A ++ ex :: B).
Proof.
  intros Hs HA HB. induction A as [|e A IH]; cbn in *.
  - constructor; done.
  - inversion Hs as [|? ? Hs' Hall]; subst. apply Forall_cons_1 in HA as [He HA]. constructor; [by apply IH|].
    apply Forall_app in Hall as [HallA HallB]. apply Forall_app. split; [done|]. by constructor.
Qed.

Lemma shape_is_Some h p : is_Some (shape h p) <-> is_Some (h !! p).
Proof. unfold shape. destruct (h !! p); cbn; [|done]. split; by eexists. Qed.

(** zslInsert of a pair that is not in the list puts it at its place. *)
Lemma zslInsert_ok st l s o rnd lvl : rep st l ->
  Forall (fun e => seq_ (escore e) s && equalStringObjects (eobj e) o = false) l ->
  zlen l + 1 < 2 ^ 32 -> zslRandomLevel rnd = Some lvl ->
  exists st' A B, zslInsert st s o rnd = Some (st', next st) /\ l = A ++ B /\
    rep st' (A ++ mkEnt (next st) s o lvl :: B).
Proof.
  intros Hrep Hnew Hsz Hrnd. pose proof (zslRandomLevel_range _ _ Hrnd) as Hlvl.
  destruct (search_before st l s o Hrep) as (A & B & us & -> & HA & HB & Hsearch & Hus).
  destruct (insert_levels st A B s o us lvl Hrep Hus Hlvl Hsz)
    as (h1 & us1 & u0 & h2 & h3 & Hr & Hu0 & Hat & Hl & Hb & HLV & Hup & Hshx & Hsh).
  unfold zslInsert. rewrite Hsearch, Hrnd. cbn [mbind option_bind]. rewrite Hr. cbn [mbind option_bind].
  rewrite Hu0. cbn [mbind option_bind]. rewrite Hl. cbn [mbind option_bind]. rewrite Hb. cbn [mbind option_bind].
  set (x := next st) in *. set (ex := mkEnt x s o lvl) in *. set (z := zsl st) in *. set (top := Nat.max lvl (level z)) in *.
  assert (Hbk : (if decide (u0 = header z) then None else Some u0) = lastptr A).
  { destruct Hat as [[-> ->]|(P' & e & -> & -> & _)]; [by rewrite decide_True|].
    rewrite lastptr_snoc, decide_False; [done|]. intros Heq. pose proof (r_nodup _ _ Hrep) as Hnd.
    apply list.NoDup_cons in Hnd as [Hh _]. apply Hh. fold z. rewrite <- Heq, <- app_assoc. apply elem_ptr. }
  rewrite Hbk.
  destruct (set_backward_ok h3 x (lastptr A) _ _ _ _ Hshx) as (h4 & -> & Hs4 & Hf4 & Hg4). cbn [mbind option_bind].
  pose proof (r_heights _ _ Hrep) as Hhs. apply Forall_app in Hhs as [HhA HhB].
  assert (Hgx : get_level h4 x 0 = Some (link 0 B)).
  { rewrite Hg4. destruct HLV as [_ Hel]. specialize (Hel A ex B 0%nat eq_refl). rewrite app_nil_r in Hel. apply Hel. cbn. lia. }
  rewrite Hgx. cbn [mbind option_bind].
  assert (HB1 : Forall (fun e => (1 <= eheight e)%nat) B) by (eapply List.Forall_impl; [|exact HhB]; cbn; lia).
  rewrite (link_0 B HB1).
  assert (Hfresh : x ∉ header z :: ptrs (A ++ B)).
  { intros Hin. pose proof (r_next _ _ Hrep) as Hn. rewrite list_elem_of_In in Hin. rewrite List.Forall_forall in Hn.
    specialize (Hn _ Hin). cbn in Hn. unfold x in Hn. lia. }
  pose proof (r_nodup _ _ Hrep) as Hnd. fold z in Hnd.
  assert (Hnd' : NoDup (header z :: ptrs (A ++ ex :: B))).
  { apply list.NoDup_cons in Hnd as [Hh Hnd]. apply not_elem_of_cons in Hfresh as [Hxh Hxl].
    rewrite fmap_app in *. cbn. constructor.
    - rewrite elem_of_app, elem_of_cons. rewrite elem_of_app in Hh. cbn. intuition congruence.
    - rewrite <- Permutation_middle. constructor; done. }
  apply not_elem_of_cons in Hfresh as [Hxh Hxl].
  (* the remaining assignment, to the back pointer of the next node or to the tail *)
  assert (Hlast : exists h5, match B with
      | [] => Some (h4, Some x)
      | e :: _ => h ← set_backward h4 (eptr e) (Some x); Some (h, tail z)
      end = Some (h5, lastptr (A ++ ex :: B)) /\
      (forall q j, get_level h5 q j = get_level h3 q j) /\
      (forall e B', B = e :: B' -> shape h5 (eptr e) = Some (Some (eobj e), escore e, Some x, eheight e)) /\
      (forall q, (forall e B', B = e :: B' -> q <> eptr e) -> shape h5 q = shape h4 q)).
  { destruct B as [|e B'].
    - exists h4. rewrite lastptr_snoc. split_and!; done.
    - assert (Hse : shape h4 (eptr e) = Some (Some (eobj e), escore e, lastptr A, eheight e)).
      { rewrite Hf4, Hsh.
        - by apply (r_shape _ _ Hrep A e B').
        - intros Heq. apply Hxl. rewrite <- Heq. apply elem_ptr.
        - intros Heq. apply Hxl. rewrite <- Heq. apply elem_ptr. }
      destruct (set_backward_ok h4 (eptr e) (Some x) _ _ _ _ Hse) as (h5 & -> & Hs5 & Hf5 & Hg5). cbn [mbind option_bind].
      exists h5. split_and!.
      + do 2 f_equal. unfold z. rewrite (r_tail _ _ Hrep), !lastptr_app_cons. change (ex :: e :: B') with ([ex] ++ e :: B').
        by rewrite lastptr_app_cons.
      + intros q j. by rewrite Hg5.
      + by intros e' B'' [= <- <-].
      + intros q Hq. apply Hf5. by eapply Hq. }
  destruct Hlast as (h5 & Hlast & Hg5 & Hs5 & Hf5).
  assert (Hres : (match (match B with [] => (None, 0) | e :: _ => (Some (eptr e), 1) end) with
      | (f, _) => '(h, tl) ← match f with
             | Some y => h ← set_backward h4 y (Some x); Some (h, tail z)
             | None => Some (h4, Some x)
             end; Some (mkState (mkZsl (header z) tl (uwrap 64 (zlength z + 1)) top) h (Pos.succ x), x)
      end) = Some (mkState (mkZsl (header z) (lastptr (A ++ ex :: B)) (uwrap 64 (zlength z + 1)) top) h5 (Pos.succ x), x)).
  { destruct B as [|e B']; rewrite Hlast; done. }
  rewrite Hres. clear Hres. eexists _, A, B. split; [done|]. split; [done|].
  assert (Hzl : zlength z = zlen (A ++ B)) by apply (r_len _ _ Hrep).
  pose proof (r_lvl _ _ Hrep) as Hrl. fold z in Hrl. rewrite zlen_app in *. pose proof (zlen_nonneg A). pose proof (zlen_nonneg B).
  assert (Hq4 : forall q, q <> x -> shape h4 q = shape (mem st) q) by (intros q Hq; rewrite Hf4, Hsh by done; done).
  split; cbn [zsl mem next header tail zlength level].
  - eapply LV_frame; [done|]. intros q j _. apply Hg5.
  - intros i Hi. rewrite Hg5. by apply Hup.
  - destruct (r_hd _ _ Hrep) as (s0 & Hhd). exists s0. fold z in Hhd. rewrite Hf5, Hq4; [done|congruence|].
    intros e B' ->. intros Heq. apply list.NoDup_cons in Hnd as [Hh _]. apply Hh. rewrite Heq. apply elem_ptr.
  - intros l1 e l2 Hl'. revert l1 e l2 Hl'. apply (shapes_insert (mem st)).
    + intros l1 e l2. apply (r_shape _ _ Hrep).
    + by apply list.NoDup_cons in Hnd' as [_ ?].
    + rewrite Hf5; [done|]. intros e B' -> Heq. apply Hxl. cbn in Heq. rewrite Heq. apply elem_ptr.
    + done.
    + intros q Hq1 Hq2. rewrite Hf5 by done. by apply Hq4.
  - intros p Hp. rewrite fmap_app. cbn. rewrite elem_of_cons, elem_of_app, elem_of_cons.
    destruct (decide (p = x)) as [->|Hpx]; [tauto|].
    assert (Hp' : is_Some (shape (mem st) p)).
    { rewrite <- Hq4 by done. destruct B as [|e B']; [by rewrite <- Hf5|].
      destruct (decide (p = eptr e)) as [->|]; [|rewrite <- Hf5; [done|by intros e' B'' [= <- <-]]].
      rewrite Hq4 by done. rewrite (r_shape _ _ Hrep A e B' eq_refl). by eexists. }
    apply (r_dom _ _ Hrep) in Hp'. fold z in Hp'. rewrite fmap_app, elem_of_cons, elem_of_app in Hp'. tauto.
  - done.
  - rewrite Hzl, !zlen_app, zlen_cons. rewrite uwrap_id by (split; lia). lia.
  - unfold top. lia.
  - apply Forall_app. split; [|constructor; [cbn; unfold top; lia|]].
    + eapply List.Forall_impl; [|exact HhA]. cbn. fold z. unfold top. lia.
    + eapply List.Forall_impl; [|exact HhB]. cbn. fold z. unfold top. lia.
  - done.
  - pose proof (r_next _ _ Hrep) as Hn. fold x z in Hn. rewrite fmap_app in *. cbn.
    apply Forall_cons_1 in Hn as [Hn1 Hn2]. apply Forall_app in Hn2 as [Hn2 Hn3].
    constructor; [lia|]. apply Forall_app. split; [|constructor; [lia|]].
    + eapply List.Forall_impl; [|exact Hn2]. cbn. lia.
    + eapply List.Forall_impl; [|exact Hn3]. cbn. lia.
  - apply sorted_insert; [apply (r_sorted _ _ Hrep)|done|].
    apply Forall_app in Hnew as [_ Hnew]. rewrite List.Forall_forall in *. intros e He.
    specialize (HB e He). specialize (Hnew e He). unfold is_before in HB. unfold elt. cbn.
    destruct (key_lt s o (escore e) (eobj e)) eqn:E; [done|]. exfalso.
    destruct (key_lt_total _ _ _ _ HB E) as [Hs1 Hs2]. rewrite Hs1, Hs2 in Hnew. unfold equalStringObjects in Hnew.
    replace (compareStringObjects o o) with 0 in Hnew by (symmetry; by apply cmp_eq). done.
  - rewrite zlen_app, zlen_cons. lia.
Qed.

(** *** Deletion *)

Lemma link_None_low i l : fst (link i l) = None -> low i l.
Proof. destruct (link_cases i l) as [[? _]|(m & e & r & -> & _ & _ & ->)]; [done|]. done. Qed.

Lemma lower_level_ok h hd l lvl : LV h hd lvl l (fun _ => []) -> (1 <= lvl)%nat -> Forall (fun e => (eheight e <= lvl)%nat) l ->
  exists lvl', lower_level h hd lvl = Some lvl' /\ (1 <= lvl' <= lvl)%nat /\ low lvl' l /\
    forall i, (lvl' <= i < lvl)%nat -> exists sp, get_level h hd i = Some (None, sp).
Proof.
  induction lvl as [|[|lvl] IH]; intros HLV Hl Hh; [lia| |].
  - exists 1%nat. split_and!; try done; lia.
  - cbn [lower_level]. pose proof (lv_hd _ _ _ _ _ HLV (S lvl) ltac:(lia)) as Hg. rewrite app_nil_r in Hg. rewrite Hg.
    cbn [mbind option_bind]. destruct (link (S lvl) l) as [f sp] eqn:E. destruct f as [y|].
    + exists (S (S lvl)). split_and!; try done; try lia.
    + assert (Hlow : low (S lvl) l) by (apply link_None_low; by rewrite E).
      destruct IH as (lvl' & Hlo & Hr & Hlw & Hup); [| lia|done|].
      { split; [intros i Hi; apply (lv_hd _ _ _ _ _ HLV); lia|]. intros A1 e A2 i HA Hi. by apply (lv_el _ _ _ _ _ HLV A1). }
      exists lvl'. split_and!; try done; try lia. intros i Hi. destruct (decide (i = S lvl)) as [->|].
      * by exists sp.
      * apply Hup. lia.
Qed.

Lemma shapes_delete h h' A B ex : shapes h (A ++ ex :: B) -> NoDup (ptrs (A ++ ex :: B)) ->
  (forall e B', B = e :: B' -> shape h' (eptr e) = Some (Some (eobj e), escore e, lastptr A, eheight e)) ->
  (forall q, q <> eptr ex -> (forall e B', B = e :: B' -> q <> eptr e) -> shape h' q = shape h q) ->
  shapes h' (A ++ B).
Proof.
  intros Hsh Hnd Hfirst Hframe l1 e l2 Hl.
  destruct (decide (length l1 < length A)%nat) as [Hlt|Hge].
  - assert (HA : A = l1 ++ e :: take (length A - length l1 - 1) l2).
    { pose proof (f_equal (take (length A)) Hl) as H. rewrite take_app_length, take_app_ge in H by lia.
      replace (length A - length l1)%nat with (S (length A - length l1 - 1)) in H by lia. exact H. }
    set (c := take (length A - length l1 - 1) l2) in *. rewrite Hframe.
    + apply (Hsh l1 e (c ++ ex :: B)). rewrite HA. by rewrite <- app_assoc.
    + apply (NoDup_ptr_ne _ _ _ _ Hnd). apply elem_of_app. left. rewrite HA. apply elem_of_app. right. apply elem_of_cons. by left.
    + intros e' B' ->. pose proof Hnd as Hnd'. rewrite HA, <- app_assoc in Hnd'.
      change (l1 ++ (e :: c) ++ ex :: e' :: B') with (l1 ++ e :: (c ++ ex :: e' :: B')) in Hnd'.
      intros Heq. symmetry in Heq. revert Heq. apply (NoDup_ptr_ne _ _ _ _ Hnd').
      apply elem_of_app. right. apply elem_of_app. right. apply elem_of_cons. right. apply elem_of_cons. by left.
  - assert (Hl1 : l1 = A ++ drop (length A) l1).
    { pose proof (f_equal (take (length A)) Hl) as H. rewrite take_app_length, take_app_le in H by lia.
      rewrite H at 1. by rewrite take_drop. }
    set (c := drop (length A) l1) in *. clearbody c. subst l1. rewrite <- app_assoc in Hl. apply app_inv_head in Hl. subst B.
    destruct c as [|e' c].
    + rewrite app_nil_r. by apply (Hfirst e l2).
    + rewrite Hframe.
      * rewrite (Hsh (A ++ ex :: e' :: c) e l2) by (by rewrite <- app_assoc).
        rewrite !lastptr_app_cons. change (ex :: e' :: c) with ([ex] ++ e' :: c). by rewrite lastptr_app_cons.
      * apply (NoDup_ptr_ne _ _ _ _ Hnd). apply elem_of_app. right. apply elem_of_app. right. apply elem_of_cons. by left.
      * intros e2 B' [= <- <-]. pose proof Hnd as Hnd'.
        replace (A ++ ex :: (e' :: c) ++ e :: l2) with ((A ++ [ex]) ++ e' :: (c ++ e :: l2)) in Hnd' by (by rewrite <- app_assoc).
        apply (NoDup_ptr_ne _ _ _ _ Hnd'). apply elem_of_app. right. apply elem_of_app. right. apply elem_of_cons. by left.
Qed.

Lemma sorted_delete A B ex : StronglySorted elt (A ++ ex :: B) -> StronglySorted elt (A ++ B).
Proof.
  induction A as [|e A IH]; cbn; intros Hs; inversion Hs as [|? ? Hs' Hall]; subst; [done|].
  constructor; [by apply IH|]. apply Forall_app in Hall as [? Hall]. apply Forall_cons_1 in Hall as [_ ?]. apply Forall_app. done.
Qed.

Lemma zslDeleteNode_ok st A ex B us : rep st (A ++ ex :: B) -> upd_all (header (zsl st)) A (level (zsl st)) us ->
  exists st', zslDeleteNode st (eptr ex) us = Some st' /\ rep (zslFreeNode st' (eptr ex)) (A ++ B) /\
    header (zsl st') = header (zsl st) /\ (level (zsl st') <= level (zsl st))%nat /\ next st' = next st.
Proof.
  intros Hrep Hus. unfold zslDeleteNode. set (z := zsl st) in *. set (hd := header z) in *.
  pose proof (r_nodup _ _ Hrep) as Hnd. fold z hd in Hnd. pose proof (r_heights _ _ Hrep) as Hhs. fold z in Hhs.
  pose proof (r_size _ _ Hrep) as Hsz. rewrite zlen_app, zlen_cons in Hsz. pose proof (zlen_nonneg A). pose proof (zlen_nonneg B).
  pose proof Hhs as Hhs'. apply Forall_app in Hhs' as [HhA HhB]. apply Forall_cons_1 in HhB as [Hhx HhB].
  pose proof (proj1 (LV_split _ _ _ A (ex :: B)) (r_lv _ _ Hrep)) as [HLVa HNT]. fold z hd in HLVa.
  assert (HhA' : Forall (fun e => (eheight e <= level z)%nat) A) by (eapply List.Forall_impl; [|exact HhA]; cbn; lia).
  assert (Hxl : forall j, (j < eheight ex)%nat -> get_level (mem st) (eptr ex) j = Some (link j B)) by (intros j Hj; by apply (HNT [] ex B)).
  destruct (unlink_levels_ok hd (level z) A B ex us Hnd Hus ltac:(lia) HhA' ltac:(lia) (level z) 0%nat (mem st)) as (h1 & -> & HLV1 & Hf1 & Hup1 & Hsh1);
    [done| |done|].
  { eapply LV_ext; [done|done|]. intros i _. unfold upto. by rewrite decide_False by lia. }
  cbn [mbind option_bind].
  pose proof Hnd as Hnd2. apply list.NoDup_cons in Hnd2 as [Hhd Hnd2]. rewrite fmap_app in Hhd, Hnd2. cbn in Hhd, Hnd2.
  apply list.NoDup_app in Hnd2 as (HndA & HAB & HndB). apply list.NoDup_cons in HndB as [HexB HndB].
  rewrite not_elem_of_app, not_elem_of_cons in Hhd. destruct Hhd as (HhdA & Hhdx & HhdB).
  assert (HxA : eptr ex ∉ hd :: ptrs A).
  { apply not_elem_of_cons. split; [congruence|]. intros Hin. apply (HAB _ Hin). apply elem_of_cons. by left. }
  assert (HBA : forall q, q ∈ ptrs B -> q ∉ hd :: ptrs A).
  { intros q Hq. apply not_elem_of_cons. split; [congruence|]. intros Hin. apply (HAB _ Hin). apply elem_of_cons. by right. }
  rewrite (Hf1 (eptr ex) 0%nat HxA), (Hxl 0%nat) by lia.
  assert (HB1 : Forall (fun e => (1 <= eheight e)%nat) B) by (eapply List.Forall_impl; [|exact HhB]; cbn; lia).
  rewrite (link_0 B HB1). cbn [mbind option_bind].
  assert (Hsx : shape h1 (eptr ex) = Some (Some (eobj ex), escore ex, lastptr A, eheight ex)).
  { rewrite Hsh1. by apply (r_shape _ _ Hrep A ex B). }
  destruct (shape_node _ _ _ _ _ _ Hsx) as (nx & Hnx & _ & _ & Hbk & _). rewrite Hnx.
  assert (Hlast : exists h2, (match B with [] => Some (h1, backward nx) | e :: _ => h ← set_backward h1 (eptr e) (backward nx); Some (h, tail z) end) = Some (h2, lastptr (A ++ B)) /\
    (forall q j, get_level h2 q j = get_level h1 q j) /\
    (forall e B', B = e :: B' -> shape h2 (eptr e) = Some (Some (eobj e), escore e, lastptr A, eheight e)) /\
    (forall q, (forall e B', B = e :: B' -> q <> eptr e) -> shape h2 q = shape h1 q)).
  { rewrite Hbk. destruct B as [|e B'].
    - exists h1. rewrite app_nil_r. split_and!; done.
    - assert (Hse : shape h1 (eptr e) = Some (Some (eobj e), escore e, Some (eptr ex), eheight e)).
      { rewrite Hsh1. rewrite (r_shape _ _ Hrep (A ++ [ex]) e B') by (by rewrite <- app_assoc). by rewrite lastptr_snoc. }
      destruct (set_backward_ok h1 (eptr e) (lastptr A) _ _ _ _ Hse) as (h2 & -> & Hs2 & Hf2 & Hg2). cbn [mbind option_bind].
      exists h2. split_and!.
      + do 2 f_equal. unfold z. rewrite (r_tail _ _ Hrep). change (A ++ ex :: e :: B') with (A ++ ex :: [] ++ e :: B').
        rewrite !lastptr_app_cons. change (ex :: [] ++ e :: B') with ([ex] ++ e :: B'). by rewrite lastptr_app_cons.
      + done.
      + by intros e' B'' [= <- <-].
      + intros q Hq. apply Hf2. by eapply Hq. }
  destruct Hlast as (h2 & Hlast & Hg2 & Hs2 & Hf2).
  assert (HLV2 : LV h2 hd (level z) (A ++ B) (fun _ => [])).
  { apply LV_split. split.
    - eapply LV_frame; [|intros q j _; apply Hg2]. eapply LV_ext; [done|done|]. intros i Hi. unfold upto. by rewrite decide_True.
    - intros B1 e B2 i HB Hi. rewrite Hg2, Hf1; [|apply HBA; rewrite HB; apply elem_ptr].
      apply (HNT (ex :: B1) e B2); [by rewrite HB|done]. }
  assert (HhAB : Forall (fun e => (eheight e <= level z)%nat) (A ++ B)).
  { apply Forall_app. split; [done|]. eapply List.Forall_impl; [|exact HhB]. cbn. lia. }
  pose proof (r_lvl _ _ Hrep) as Hrl. fold z in Hrl.
  destruct (lower_level_ok h2 hd (A ++ B) (level z) HLV2 ltac:(lia) HhAB) as (lvl' & Hlow & Hlr & Hlw & Hlup).
  eexists (mkState (mkZsl hd (lastptr (A ++ B)) (uwrap 64 (zlength z - 1)) lvl') h2 (next st)). split.
  { cbn [mbind option_bind]. destruct B as [|e B'].
    - injection Hlast as Ha Hb. rewrite Ha, Hb. cbn [mbind option_bind]. by rewrite Hlow.
    - rewrite Hlast. cbn [mbind option_bind]. by rewrite Hlow. }
  split_and!; [|done|cbn; lia|done].
  assert (Hdg : forall q j, q <> eptr ex -> get_level (delete (eptr ex) h2) q j = get_level h2 q j).
  { intros q j Hq. unfold get_level. by rewrite lookup_delete_ne. }
  assert (Hds : forall q, q <> eptr ex -> shape (delete (eptr ex) h2) q = shape h2 q).
  { intros q Hq. unfold shape. by rewrite lookup_delete_ne. }
  assert (Hin : forall q, q ∈ hd :: ptrs (A ++ B) -> q <> eptr ex).
  { intros q Hq ->. rewrite fmap_app, elem_of_cons, elem_of_app in Hq. rewrite not_elem_of_cons in HxA. intuition congruence. }
  assert (Hq1 : forall q, (forall e B', B = e :: B' -> q <> eptr e) -> shape h2 q = shape (mem st) q) by (intros q Hq; rewrite Hf2, Hsh1 by done; done).
  unfold zslFreeNode. split; cbn [zsl mem next header tail zlength level].
  - eapply LV_frame; [|intros q j Hq; by apply Hdg, Hin]. split.
    + intros i Hi. apply (lv_hd _ _ _ _ _ HLV2). lia.
    + intros A1 e A2 i HA Hi. by apply (lv_el _ _ _ _ _ HLV2 A1).
  - intros i Hi. rewrite Hdg by done. destruct (decide (i < level z)%nat).
    + apply Hlup. lia.
    + rewrite Hg2, Hup1 by lia. apply (r_up _ _ Hrep). fold z. lia.
  - destruct (r_hd _ _ Hrep) as (s0 & Hs0). exists s0. fold z hd in Hs0. rewrite Hds, Hq1; [done| |done].
    intros e B' -> Heq. apply HhdB. rewrite Heq. cbn. apply elem_of_cons. by left.
  - intros l1 e l2 Hl. revert l1 e l2 Hl. apply (shapes_delete (mem st) _ A B ex).
    + intros l1 e l2. apply (r_shape _ _ Hrep).
    + by apply list.NoDup_cons in Hnd as [_ ?].
    + intros e B' ->. rewrite Hds; [by apply (Hs2 e B')|]. intros Heq. apply HexB. rewrite <- Heq. cbn. apply elem_of_cons. by left.
    + intros q Hqx Hq. rewrite Hds by done. by apply Hq1.
  - intros p Hp. destruct (decide (p = eptr ex)) as [->|Hpx].
    { exfalso. unfold shape in Hp. rewrite lookup_delete_eq in Hp. by destruct Hp. }
    rewrite Hds in Hp by done. rewrite fmap_app, elem_of_cons, elem_of_app.
    assert (Hp' : is_Some (shape (mem st) p)).
    { destruct B as [|e B']; [by rewrite <- Hq1|]. destruct (decide (p = eptr e)) as [->|].
      - rewrite (r_shape _ _ Hrep (A ++ [ex]) e B') by (by rewrite <- app_assoc). by eexists.
      - rewrite <- Hq1; [done|]. by intros e' B'' [= <- <-]. }
    apply (r_dom _ _ Hrep) in Hp'. fold z hd in Hp'. rewrite fmap_app in Hp'. cbn in Hp'.
    rewrite elem_of_cons, elem_of_app, elem_of_cons in Hp'. tauto.
  - done.
  - unfold z. rewrite (r_len _ _ Hrep), !zlen_app, zlen_cons. rewrite uwrap_id by (split; lia). lia.
  - lia.
  - unfold low in Hlw. apply Forall_app in Hlw as [Hlw1 Hlw2]. rewrite List.Forall_forall in *.
    intros e He. apply in_app_or in He as [He|He]; [specialize (Hlw1 e He); specialize (HhA e He)|specialize (Hlw2 e He); specialize (HhB e He)]; cbn in *; lia.
  - rewrite fmap_app. constructor; [rewrite not_elem_of_app; tauto|]. apply list.NoDup_app. split_and!; [done| |done].
    intros q Hq Hq2. apply (HAB q Hq). apply elem_of_cons. by right.
  - pose proof (r_next _ _ Hrep) as Hn. fold z hd in Hn. rewrite fmap_app in *. cbn in Hn.
    apply Forall_cons_1 in Hn as [Hn1 Hn2]. apply Forall_app in Hn2 as [Hn2 Hn3]. apply Forall_cons_1 in Hn3 as [_ Hn3].
    constructor; [done|]. apply Forall_app. done.
  - by eapply sorted_delete, (r_sorted _ _ Hrep).
  - rewrite zlen_app. lia.
Qed.

Lemma updates_all hd A k us : updates hd A k us -> upd_all hd A k us.
Proof. intros [_ H]. exact H. Qed.

(** What follows the predecessor at level 0. *)
Lemma next_level_0 st A B u : rep st (A ++ B) -> at_pos (header (zsl st)) A 0 u ->
  get_level (mem st) u 0 = Some (match B with [] => (None, 0) | e :: _ => (Some (eptr e), 1) end).
Proof.
  intros Hrep Hat. pose proof (r_lvl _ _ Hrep). pose proof (r_heights _ _ Hrep) as Hhs. apply Forall_app in Hhs as [_ HhB].
  rewrite (LV_at _ _ _ A B _ 0%nat u (r_lv _ _ Hrep) ltac:(lia) Hat), app_nil_r, link_0; [done|].
  eapply List.Forall_impl; [|exact HhB]. cbn. lia.
Qed.

Lemma rep_heights_1 st l : rep st l -> Forall (fun e => (1 <= eheight e)%nat) l.
Proof. intros Hrep. eapply List.Forall_impl; [|exact (r_heights _ _ Hrep)]. cbn. lia. Qed.

Lemma rep_node st l l1 e l2 : rep st l -> l = l1 ++ e :: l2 ->
  exists n, mem st !! eptr e = Some n /\ zobj n = Some (eobj e) /\ zscore n = escore e.
Proof.
  intros Hrep Hl. destruct (shape_node _ _ _ _ _ _ (r_shape _ _ Hrep _ _ _ Hl)) as (n & ? & ? & ? & _). by exists n.
Qed.

(** The pair [s], [o]. *)
Definition same_key (s : score) (o : obj) (e : ent) : bool := seq_ s (escore e) && equalStringObjects (eobj e) o.

Lemma same_key_not_before s o e : same_key s o e = true -> is_before s o e = false.
Proof.
  unfold same_key, equalStringObjects, is_before, key_lt. rewrite andb_true_iff, Z.eqb_eq, cmp_eq. intros [Hs Ho].
  rewrite Ho, (seq_slt_r _ _ _ Hs), slt_irrefl. cbn.
  replace (compareStringObjects o o) with 0 by (symmetry; by apply cmp_eq). by rewrite andb_false_r.
Qed.

Lemma same_key_first s o e e' : elt e e' -> is_before s o e = false -> same_key s o e' = false.
Proof.
  intros Hlt Hb. destruct (same_key s o e') eqn:E; [|done]. exfalso.
  unfold same_key, equalStringObjects in E. rewrite andb_true_iff, Z.eqb_eq, cmp_eq in E. destruct E as [Hs Ho].
  unfold elt, is_before, key_lt in *. rewrite Ho in Hlt. rewrite (seq_slt_r _ _ _ Hs) in Hb.
  rewrite orb_true_iff, andb_true_iff in Hlt. rewrite orb_false_iff, andb_false_iff in Hb.
  destruct Hlt as [Hlt|[Hlt1 Hlt2]]; [destruct Hb; congruence|]. destruct Hb as [Hb1 [Hb2|Hb2]]; [|congruence].
  destruct (slt_cases (escore e) s) as [H|[H|H]].
  - rewrite (seq_slt_r _ _ _ Hs) in H. congruence.
  - congruence.
  - rewrite (seq_slt_l _ _ _ Hs) in H. rewrite (seq_slt_r _ _ _ Hlt1), slt_irrefl in H. done.
Qed.

Lemma no_same_key A B s o : Forall (fun e => is_before s o e = true) A -> Forall (fun e => is_before s o e = false) B ->
  StronglySorted elt (A ++ B) -> (forall e B', B = e :: B' -> same_key s o e = false) ->
  Forall (fun e => same_key s o e = false) (A ++ B).
Proof.
  intros HA HB Hs Hfirst. apply Forall_app. split.
  - eapply List.Forall_impl; [|exact HA]. cbn. intros e He. destruct (same_key s o e) eqn:E; [|done].
    apply same_key_not_before in E. congruence.
  - destruct B as [|e B]; [constructor|]. constructor; [by eapply Hfirst|].
    apply Forall_cons_1 in HB as [He _].
    assert (Hs' : StronglySorted elt (e :: B)).
    { clear -Hs. induction A; [done|]. inversion Hs; subst. by apply IHA. }
    inversion Hs' as [|? ? _ Hall]; subst. eapply List.Forall_impl; [|exact Hall]. cbn. intros e' He'. by eapply same_key_first.
Qed.

Lemma zslDelete_ok st l s o : rep st l ->
  (exists st' A ex B, zslDelete st s o = Some (st', true) /\ l = A ++ ex :: B /\ same_key s o ex = true /\
     Forall (fun e => same_key s o e = false) A /\ rep st' (A ++ B)) \/
  (zslDelete st s o = Some (st, false) /\ Forall (fun e => same_key s o e = false) l).
Proof.
  intros Hrep. destruct (search_before st l s o Hrep) as (A & B & us & -> & HA & HB & Hsearch & Hus).
  pose proof (rep_heights_1 _ _ Hrep) as Hh. pose proof Hh as Hh'. apply Forall_app in Hh' as [HhA _].
  destruct (updates_0 _ _ _ _ Hus) as (u & Hu & Hat); [pose proof (r_lvl _ _ Hrep); lia|done|].
  unfold zslDelete. rewrite Hsearch. cbn [mbind option_bind]. rewrite Hu. cbn [mbind option_bind].
  rewrite (next_level_0 st A B u Hrep Hat). cbn [mbind option_bind].
  destruct B as [|e B].
  - right. split; [done|]. apply no_same_key; [done|done|apply (r_sorted _ _ Hrep)|done].
  - destruct (rep_node st _ A e B Hrep eq_refl) as (n & -> & Ho & Hs). cbn [mbind option_bind].
    rewrite Ho, Hs. cbn [mbind option_bind]. fold (same_key s o e).
    destruct (same_key s o e) eqn:E.
    + left. destruct (zslDeleteNode_ok st A e B us Hrep (updates_all _ _ _ _ Hus)) as (st' & -> & Hrep' & _).
      cbn [mbind option_bind]. eexists _, A, e, B. split_and!; try done.
      eapply List.Forall_impl; [|exact HA]. cbn. intros e' He'. destruct (same_key s o e') eqn:E'; [|done].
      apply same_key_not_before in E'. congruence.
    + right. split; [done|]. apply no_same_key; [done|done|apply (r_sorted _ _ Hrep)|]. by intros e' B' [= <- <-].
Qed.

(** *** Deleting ranges *)

Lemma delete_while_ok cond : forall C D fuel st A us trav rem dict,
  rep st (A ++ C ++ D) -> upd_all (header (zsl st)) A (level (zsl st)) us -> (length C <= fuel)%nat ->
  (forall C1 e C2 n, C = C1 ++ e :: C2 -> zscore n = escore e -> cond (trav + zlen C1) n = true) ->
  (forall e D' n, D = e :: D' -> zscore n = escore e -> cond (trav + zlen C) n = false) ->
  exists st', delete_while fuel st us (match C ++ D with [] => None | e :: _ => Some (eptr e) end) trav cond rem dict =
      Some (st', rem + zlen C, dict ++ (eobj <$> C)) /\ rep st' (A ++ D).
Proof.
  induction C as [|e C IH]; intros D fuel st A us trav rem dict Hrep Hus Hf HC HD.
  - cbn [app] in *. change (zlen (@nil ent)) with 0. rewrite !Z.add_0_r. exists st.
    destruct D as [|e D]; [by destruct fuel; cbn; rewrite app_nil_r|].
    destruct (rep_node st _ A e D Hrep eq_refl) as (n & Hn & _ & Hs).
    specialize (HD e D n eq_refl Hs). change (zlen (@nil ent)) with 0 in HD. rewrite Z.add_0_r in HD.
    destruct fuel; cbn [delete_while]; rewrite Hn; cbn [mbind option_bind]; rewrite HD; cbn; by rewrite app_nil_r.
  - cbn [app] in *. destruct (rep_node st _ A e (C ++ D) Hrep eq_refl) as (n & Hn & Ho & Hs).
    destruct fuel as [|fuel]; [cbn in Hf; lia|]. cbn [delete_while]. rewrite Hn. cbn [mbind option_bind].
    pose proof (HC [] e C n eq_refl Hs) as Hc. change (zlen (@nil ent)) with 0 in Hc. rewrite Z.add_0_r in Hc. rewrite Hc.
    assert (Hnx : get_level (mem st) (eptr e) 0 = Some (match C ++ D with [] => (None, 0) | e :: _ => (Some (eptr e), 1) end)).
    { apply (next_level_0 st (A ++ [e]) (C ++ D)); [by rewrite <- app_assoc|]. right. exists A, e. split_and!; [done|done|].
      pose proof (rep_heights_1 _ _ Hrep) as Hh. apply Forall_app in Hh as [_ Hh]. apply Forall_cons_1 in Hh as [? _]. lia. }
    rewrite Hnx. cbn [mbind option_bind].
    destruct (zslDeleteNode_ok st A e (C ++ D) us Hrep Hus) as (st' & Hdel & Hrep' & Hhd & Hlv & _).
    destruct (IH D fuel (zslFreeNode st' (eptr e)) A us (trav + 1) (rem + 1) (dict ++ [eobj e])) as (st2 & H2 & Hrep2).
    + done.
    + cbn. rewrite Hhd. intros i Hi. apply Hus. cbn in Hlv. lia.
    + cbn in Hf. lia.
    + intros C1 e' C2 n' HC1 Hs'. specialize (HC (e :: C1) e' C2 n'). rewrite zlen_cons in HC.
      replace (trav + 1 + zlen C1) with (trav + (1 + zlen C1)) by lia. apply HC; [by rewrite HC1|done].
    + intros e' D' n' HD' Hs'. specialize (HD e' D' n' HD' Hs'). rewrite zlen_cons in HD.
      by replace (trav + 1 + zlen C) with (trav + (1 + zlen C)) by lia.
    + exists st2. split; [|done]. rewrite zlen_cons, fmap_cons. rewrite <- app_assoc in H2. cbn [app] in H2.
      replace (rem + (1 + zlen C)) with (rem + 1 + zlen C) by lia. rewrite <- H2.
      destruct (C ++ D) as [|e2 l2]; cbn [mbind option_bind]; rewrite Hdel; cbn [mbind option_bind]; rewrite Ho; done.
Qed.

(** *** Ranges of scores *)

Lemma slt_asym (a b : score) : slt a b = true -> slt b a = false.
Proof. intros H. destruct (slt b a) eqn:E; [|done]. pose proof (slt_trans _ _ _ H E) as H2. by rewrite slt_irrefl in H2. Qed.

Lemma sle_negb (a b : score) : sle a b = negb (slt b a).
Proof.
  unfold sle. destruct (slt_cases a b) as [H|[H|H]].
  - by rewrite H, (slt_asym _ _ H).
  - rewrite H, orb_true_r. rewrite (seq_slt_r _ _ b H), slt_irrefl. done.
  - rewrite H, (slt_asym _ _ H). cbn. destruct (seq_ a b) eqn:E; [|done]. apply seq_sym_ in E. rewrite (slt_seq _ _ H) in E. done.
Qed.

Lemma slt_sle_trans (a b c : score) : slt a b = true -> slt c b = false -> slt a c = true.
Proof.
  intros H1 H2. destruct (slt_cases b c) as [H|[H|H]]; [by eapply slt_trans|by rewrite <- (seq_slt_r _ _ _ H)|congruence].
Qed.

Lemma sle_slt_trans (a b c : score) : slt b a = false -> slt b c = true -> slt a c = true.
Proof.
  intros H1 H2. destruct (slt_cases a b) as [H|[H|H]]; [by eapply slt_trans|by rewrite (seq_slt_l _ _ _ H)|congruence].
Qed.

Lemma elt_score e1 e2 : elt e1 e2 -> slt (escore e2) (escore e1) = false.
Proof.
  unfold elt, key_lt. rewrite orb_true_iff, andb_true_iff. intros [H|[H _]]; [by apply slt_asym|].
  by rewrite (seq_slt_r _ _ _ H), slt_irrefl.
Qed.

Definition gte (r : zrangespec) (e : ent) : bool := zslValueGteMin (escore e) r.
Definition lte (r : zrangespec) (e : ent) : bool := zslValueLteMax (escore e) r.
Definition in_range (r : zrangespec) (e : ent) : bool := gte r e && lte r e.

Lemma lte_closed r e1 e2 : elt e1 e2 -> lte r e2 = true -> lte r e1 = true.
Proof.
  intros H%elt_score. unfold lte, zslValueLteMax. destruct (maxex r).
  - by apply sle_slt_trans.
  - rewrite !sle_negb, !negb_true_iff. intros H2. destruct (slt (rmax r) (escore e1)) eqn:E; [|done].
    rewrite (slt_sle_trans _ _ _ E H) in H2. done.
Qed.

Lemma gte_closed r e1 e2 : elt e1 e2 -> negb (gte r e2) = true -> negb (gte r e1) = true.
Proof.
  intros H%elt_score. unfold gte, zslValueGteMin. rewrite !negb_true_iff. destruct (minex r).
  - intros H2. destruct (slt (rmin r) (escore e1)) eqn:E; [|done]. rewrite (slt_sle_trans _ _ _ E H) in H2. done.
  - rewrite !sle_negb, !negb_false_iff. intros H2. by eapply sle_slt_trans.
Qed.

Lemma search_pred st l (p : ent -> bool) cond w : rep st l -> 32 <= w ->
  (forall e1 e2, elt e1 e2 -> p e2 = true -> p e1 = true) ->
  (forall t n e, zobj n = Some (eobj e) -> zscore n = escore e -> cond t n = p e) ->
  exists A B us u, l = A ++ B /\ Forall (fun e => p e = true) A /\ Forall (fun e => p e = false) B /\
    search st cond w = Some us /\ updates (header (zsl st)) A (level (zsl st)) us /\
    us !! 0%nat = Some (u, zlen A) /\ at_pos (header (zsl st)) A 0 u.
Proof.
  intros Hrep Hw Hp Hc. destruct (split_by p l (r_sorted _ _ Hrep) Hp) as (A & B & -> & HA & HB).
  destruct (search_ok st (A ++ B) A B cond w Hrep eq_refl) as (us & Hus & Hok); [by eapply cond_spec_split|done|].
  destruct (updates_0 _ _ _ _ Hok) as (u & Hu & Hat); [pose proof (r_lvl _ _ Hrep); lia| |by exists A, B, us, u].
  pose proof (rep_heights_1 _ _ Hrep) as Hh. by apply Forall_app in Hh as [? _].
Qed.

Lemma sorted_first_le e l : StronglySorted elt (e :: l) -> Forall (fun e' => e' = e \/ elt e e') (e :: l).
Proof.
  intros Hs. inversion Hs as [|? ? _ Hall]; subst. constructor; [by left|].
  eapply List.Forall_impl; [|exact Hall]. cbn. tauto.
Qed.

Lemma sorted_last_ge l e : StronglySorted elt (l ++ [e]) -> Forall (fun e' => e' = e \/ elt e' e) (l ++ [e]).
Proof.
  induction l as [|x l IH]; cbn; intros Hs; [constructor; [by left|constructor]|].
  inversion Hs as [|? ? Hs' Hall]; subst. constructor; [|by apply IH].
  apply Forall_app in Hall as [_ Hall]. apply Forall_cons_1 in Hall as [? _]. by right.
Qed.

(** A range that is empty or lies outside of the scores. *)
Lemma zslIsInRange_ok st l r : rep st l -> exists b, zslIsInRange st r = Some b /\
  (b = false -> Forall (fun e => in_range r e = false) l) /\
  (b = true -> exists e l' e2 l2, l = e :: l' /\ l = l2 ++ [e2] /\ lte r e = true /\ gte r e2 = true).
Proof.
  intros Hrep. pose proof (r_sorted _ _ Hrep) as Hs. unfold zslIsInRange.
  destruct (slt (rmax r) (rmin r) || seq_ (rmin r) (rmax r) && (minex r || maxex r)) eqn:E.
  - exists false. split_and!; [done| |done]. intros _. apply List.Forall_forall. intros e _. unfold in_range, gte, lte, zslValueGteMin, zslValueLteMax.
    rewrite !sle_negb. apply orb_true_iff in E as [E|E].
    + destruct (minex r), (maxex r);
        (destruct (slt (rmin r) (escore e)) eqn:E1; destruct (slt (escore e) (rmax r)) eqn:E2; destruct (slt (escore e) (rmin r)) eqn:E3;
         destruct (slt (rmax r) (escore e)) eqn:E4; cbn; try done); exfalso.
      all: try (pose proof (slt_trans _ _ _ E E1) as Q; try (rewrite (slt_asym _ _ Q) in E2); congruence).
      all: try (pose proof (slt_trans _ _ _ E2 E) as Q; congruence).
      all: pose proof (sle_slt_trans _ _ _ E4 E) as Q; congruence.
    + apply andb_true_iff in E as [E1 E2]. rewrite <- !(seq_slt_l _ _ _ E1), <- !(seq_slt_r _ _ _ E1).
      destruct (minex r), (maxex r); try done;
        (destruct (slt (rmin r) (escore e)) eqn:Q1; destruct (slt (escore e) (rmin r)) eqn:Q2; cbn; try done);
        pose proof (slt_asym _ _ Q1); congruence.
  - rewrite (r_tail _ _ Hrep). destruct l as [|e2 l2 _] using rev_ind; [exists false; split_and!; [done|constructor|done]|].
    rewrite lastptr_snoc. destruct (rep_node st _ l2 e2 [] Hrep eq_refl) as (n2 & -> & _ & Hs2). cbn [mbind option_bind].
    rewrite Hs2. fold (gte r e2). destruct (gte r e2) eqn:Eg; cbn [negb].
    2:{ exists false. split_and!; [done| |done]. intros _. eapply List.Forall_impl; [|apply (sorted_last_ge _ _ Hs)].
        cbn. unfold in_range. intros e [->|He]; [by rewrite Eg|]. apply andb_false_iff. left.
        apply negb_true_iff. apply (gte_closed r e e2 He). by rewrite Eg. }
    pose proof (lv_hd _ _ _ _ _ (r_lv _ _ Hrep) 0%nat ltac:(pose proof (r_lvl _ _ Hrep); lia)) as Hg.
    rewrite app_nil_r, (link_0 _ (rep_heights_1 _ _ Hrep)) in Hg. rewrite Hg.
    destruct (l2 ++ [e2]) as [|e l'] eqn:El; [by destruct l2|]. cbn [mbind option_bind].
    destruct (rep_node st _ [] e l' Hrep eq_refl) as (n & -> & _ & Hsn). cbn [mbind option_bind]. rewrite Hsn. fold (lte r e).
    exists (lte r e). split_and!; [done| |].
    + intros Hl. eapply List.Forall_impl; [|apply (sorted_first_le _ _ Hs)]. cbn. unfold in_range.
      intros e' [->|He]; [by rewrite Hl, andb_false_r|]. apply andb_false_iff. right.
      destruct (lte r e') eqn:E'; [|done]. rewrite (lte_closed _ _ _ He E') in Hl. done.
    + intros Hl. by exists e, l', e2, l2.
Qed.

Lemma find_none (p : ent -> bool) l : Forall (fun e => p e = false) l -> List.find p l = None.
Proof. induction 1 as [|e l He _ IH]; cbn; [done|]. by rewrite He. Qed.

Lemma find_app_none (p : ent -> bool) A B : Forall (fun e => p e = false) A -> List.find p (A ++ B) = List.find p B.
Proof. induction 1 as [|e l He _ IH]; cbn; [done|]. by rewrite He. Qed.

Lemma sorted_app_r A B : StronglySorted elt (A ++ B) -> StronglySorted elt B.
Proof. induction A as [|e A IH]; cbn; [done|]. intros Hs. inversion Hs; subst. by apply IH. Qed.

Lemma zslFirstInRange_ok st l r : rep st l ->
  zslFirstInRange st r = Some (eptr <$> List.find (in_range r) l).
Proof.
  intros Hrep. unfold zslFirstInRange. destruct (zslIsInRange_ok st l r Hrep) as (b & -> & Hf & Ht). cbn [mbind option_bind].
  destruct b; cbn [negb]; [|by rewrite find_none by (by apply Hf)]. clear Hf.
  destruct (Ht eq_refl) as (_ & _ & e2 & l2 & _ & Hl & _ & Hg).
  destruct (search_pred st l (fun e => negb (gte r e)) (fun _ n => negb (zslValueGteMin (zscore n) r)) 64 Hrep ltac:(lia)) as
    (A & B & us & u & -> & HA & HB & -> & Hus & Hu & Hat).
  { intros e1 e2'. apply gte_closed. } { intros t n e _ Hs. unfold gte. by rewrite Hs. }
  cbn [mbind option_bind]. rewrite Hu. cbn [mbind option_bind]. rewrite (next_level_0 st A B u Hrep Hat).
  rewrite find_app_none.
  2:{ eapply List.Forall_impl; [|exact HA]. cbn. unfold in_range. intros e ->%negb_true_iff. done. }
  destruct B as [|e B].
  { exfalso. rewrite app_nil_r in Hl. rewrite Hl in HA. apply Forall_app in HA as [_ HA]. apply Forall_cons_1 in HA as [HA _].
    by rewrite Hg in HA. }
  cbn [mbind option_bind]. destruct (rep_node st _ A e B Hrep eq_refl) as (n & -> & _ & Hs). cbn [mbind option_bind].
  rewrite Hs. fold (lte r e). apply Forall_cons_1 in HB as [He HB]. apply negb_false_iff in He.
  cbn [List.find]. unfold in_range at 1. rewrite He. cbn [andb]. destruct (lte r e) eqn:El; [done|].
  rewrite find_none; [done|]. pose proof (sorted_app_r _ _ (r_sorted _ _ Hrep)) as Hsr. inversion Hsr as [|? ? _ Hall]; subst.
  eapply List.Forall_impl; [|exact Hall]. cbn. unfold in_range. intros e' He'. apply andb_false_iff. right.
  destruct (lte r e') eqn:E'; [|done]. by rewrite (lte_closed _ _ _ He' E') in El.
Qed.

Lemma zslLastInRange_ok st l r : rep st l ->
  zslLastInRange st r = Some (eptr <$> List.find (in_range r) (reverse l)).
Proof.
  intros Hrep. unfold zslLastInRange. destruct (zslIsInRange_ok st l r Hrep) as (b & -> & Hf & Ht). cbn [mbind option_bind].
  assert (Hrev : forall P (k : list ent), Forall P k -> Forall P (reverse k)).
  { intros P k Hk. by apply Forall_reverse. }
  destruct b; cbn [negb]; [|by rewrite find_none by (by apply Hrev, Hf)]. clear Hf.
  destruct (Ht eq_refl) as (e1 & l1 & _ & _ & Hl & _ & Hle & _).
  destruct (search_pred st l (lte r) (fun _ n => zslValueLteMax (zscore n) r) 64 Hrep ltac:(lia)) as
    (A & B & us & u & -> & HA & HB & -> & Hus & Hu & Hat).
  { intros e e'. apply lte_closed. } { intros t n e _ Hs. unfold lte. by rewrite Hs. }
  cbn [mbind option_bind]. rewrite Hu. cbn [mbind option_bind].
  rewrite reverse_app, find_app_none.
  2:{ apply Hrev. eapply List.Forall_impl; [|exact HB]. cbn. unfold in_range. intros e ->. by rewrite andb_false_r. }
  destruct Hat as [[-> ->]|(A' & e & -> & -> & _)].
  { exfalso. cbn in Hl. rewrite Hl in HB. apply Forall_cons_1 in HB as [HB _]. congruence. }
  pose proof Hrep as Hrep'. rewrite <- app_assoc in Hrep'. cbn [app] in Hrep'.
  destruct (rep_node st _ A' e B Hrep' eq_refl) as (n & -> & _ & Hs). cbn [mbind option_bind]. rewrite Hs. fold (gte r e).
  rewrite reverse_snoc. cbn [List.find]. unfold in_range at 1. apply Forall_app in HA as [_ HA]. apply Forall_cons_1 in HA as [He _].
  rewrite He, andb_true_r. destruct (gte r e) eqn:Eg; [done|]. rewrite find_none; [done|]. apply Hrev.
  pose proof (r_sorted _ _ Hrep) as Hss. clear -Hss Eg ScoreOrder0 ObjOrder0.
  induction A' as [|x A' IH]; [constructor|]. cbn in Hss. inversion Hss as [|? ? Hs' Hall]; subst. constructor; [|by apply IH].
  apply Forall_app in Hall as [Hall _]. apply Forall_app in Hall as [_ Hall]. apply Forall_cons_1 in Hall as [Hx _].
  unfold in_range. apply andb_false_iff. left. apply negb_true_iff. apply (gte_closed r x e Hx). by rewrite Eg.
Qed.

Lemma zfuel_enough st l : rep st l -> zfuel (zsl st) = S (length l).
Proof. intros Hrep. unfold zfuel. rewrite (r_len _ _ Hrep). unfold zlen. by rewrite Nat2Z.id. Qed.

Lemma zslDeleteRangeByScore_ok st l r : rep st l ->
  exists st' A C D, zslDeleteRangeByScore st r = Some (st', zlen C, eobj <$> C) /\ l = A ++ C ++ D /\ rep st' (A ++ D) /\
    Forall (fun e => in_range r e = true) C /\ Forall (fun e => in_range r e = false) A /\ Forall (fun e => in_range r e = false) D.
Proof.
  intros Hrep. unfold zslDeleteRangeByScore.
  set (cond := fun (_ : Z) (n : zskiplistNode) => if minex r then sle (zscore n) (rmin r) else slt (zscore n) (rmin r)).
  destruct (search_pred st l (fun e => negb (gte r e)) cond 64 Hrep ltac:(lia)) as
    (A & B & us & u & -> & HA & HB & -> & Hus & Hu & Hat).
  { intros e1 e2'. apply gte_closed. }
  { intros t n e _ Hs. unfold cond, gte, zslValueGteMin. rewrite Hs, !sle_negb. by destruct (minex r); rewrite ?negb_involutive. }
  cbn [mbind option_bind]. rewrite Hu. cbn [mbind option_bind]. rewrite (next_level_0 st A B u Hrep Hat).
  destruct (split_by (lte r) B (sorted_app_r _ _ (r_sorted _ _ Hrep)) (lte_closed r)) as (C & D & -> & HC & HD).
  destruct (delete_while_ok (fun _ n => zslValueLteMax (zscore n) r) C D (zfuel (zsl st)) st A us 0 0 []) as (st' & Hdel & Hrep').
  - done.
  - by apply updates_all.
  - rewrite (zfuel_enough _ _ Hrep), !length_app. lia.
  - intros C1 e C2 n -> Hs. rewrite Hs. apply Forall_app in HC as [_ HC]. by apply Forall_cons_1 in HC as [? _].
  - intros e D' n -> Hs. rewrite Hs. by apply Forall_cons_1 in HD as [? _].
  - exists st', A, C, D. apply Forall_app in HB as [HBC HBD]. split_and!; [|done|done| | |].
    + destruct (C ++ D); cbn [mbind option_bind]; exact Hdel.
    + rewrite List.Forall_forall in *. intros e He. unfold in_range. specialize (HC e He). specialize (HBC e He). cbn in *.
      apply negb_false_iff in HBC. by rewrite HBC, HC.
    + eapply List.Forall_impl; [|exact HA]. cbn. unfold in_range. intros e ->%negb_true_iff. done.
    + eapply List.Forall_impl; [|exact HD]. cbn. unfold in_range. intros e ->. by rewrite andb_false_r.
Qed.

(** *** Ranks *)

#[local] Instance obj_eq_dec : EqDecision obj.
Proof.
  intros a b. destruct (Z.eq_dec (compareStringObjects a b) 0) as [E|E]; [left|right].
  - by apply cmp_eq.
  - intros H. apply E. by apply cmp_eq.
Defined.

(** A condition on the rank alone splits the list at a position. *)
Lemma cond_spec_rank (f : Z -> bool) l a : 0 <= a <= zlen l ->
  (forall t, 1 <= t <= zlen l -> f t = bool_decide (t <= a)) -> cond_spec (fun t _ => f t) l a.
Proof.
  intros Ha Hf l1 e l2 n Hl _ _. pose proof (f_equal zlen Hl) as Hz. rewrite zlen_app, zlen_cons in Hz.
  pose proof (zlen_nonneg l1). pose proof (zlen_nonneg l2). rewrite Hf by lia. apply bool_decide_ext. lia.
Qed.

Lemma split_length {X} (l : list X) a : 0 <= a <= zlen l -> exists A B, l = A ++ B /\ zlen A = a.
Proof.
  intros Ha. exists (take (Z.to_nat a) l), (drop (Z.to_nat a) l). rewrite take_drop. split; [done|].
  unfold zlen in *. rewrite length_take. lia.
Qed.

Lemma at_pos_node st l P R i x : rep st l -> l = P ++ R -> at_pos (header (zsl st)) P i x ->
  exists n, mem st !! x = Some n /\ zobj n = (eobj <$> list.last P).
Proof.
  intros Hrep -> [[-> ->]|(P' & e & -> & -> & _)].
  - destruct (r_hd _ _ Hrep) as (s0 & Hs). destruct (shape_node _ _ _ _ _ _ Hs) as (n & ? & ? & _). by exists n.
  - destruct (rep_node st _ P' e R Hrep) as (n & ? & ? & _); [by rewrite <- app_assoc|]. exists n. by rewrite list.last_snoc.
Qed.

Lemma descend_find_ok st l A B cond (found : zskiplistNode -> Z -> bool) fuel :
  rep st l -> l = A ++ B -> cond_spec cond l (zlen A) -> (length A <= fuel)%nat ->
  forall k P M x, A = P ++ M -> (k <= level (zsl st))%nat -> (forall i, (i < k)%nat -> at_pos (header (zsl st)) P i x) ->
  exists r, descend_find fuel (mem st) cond found k x (zlen P) = Some r /\
    match r with
    | Some (y, rank) => exists P' M' i n, A = P' ++ M' /\ at_pos (header (zsl st)) P' i y /\ rank = zlen P' /\
        mem st !! y = Some n /\ found n rank = true
    | None => k = 0%nat \/ exists y n, at_pos (header (zsl st)) A 0 y /\ mem st !! y = Some n /\ found n (zlen A) = false
    end.
Proof.
  intros Hrep Hl Hcond Hfuel. induction k as [|k IH]; intros P M x HA Hk Hx; cbn [descend_find].
  - exists None. split; [done|]. by left.
  - destruct (walk_ok st l A B cond 64 k Hrep Hl Hcond ltac:(lia) ltac:(lia) fuel P M x HA (Hx k ltac:(lia)))
      as (x' & P' & M' & -> & HA' & Hlow & Hx'). { rewrite HA, length_app in Hfuel. lia. }
    cbn [mbind option_bind].
    destruct (at_pos_node st l P' (M' ++ B) k x' Hrep) as (n & Hn & _); [by rewrite Hl, HA', <- app_assoc|done|].
    rewrite Hn. cbn [mbind option_bind]. destruct (found n (zlen P')) eqn:E.
    + exists (Some (x', zlen P')). split; [done|]. by exists P', M', k, n.
    + destruct (IH P' M' x' HA' ltac:(lia)) as (r & Hr & Hres).
      { intros i Hi. eapply at_pos_lower; [done|lia]. }
      exists r. split; [done|]. destruct r as [[y rank]|]; [done|]. right.
      destruct Hres as [->|Hres]; [|done].
      pose proof (rep_heights_1 _ _ Hrep) as Hh. rewrite Hl, HA' in Hh. apply Forall_app in Hh as [Hh _]. apply Forall_app in Hh as [_ Hh].
      apply low_0 in Hlow as ->; [|done]. rewrite app_nil_r in HA'. subst P'. by exists x', n.
Qed.

Lemma prefix_same_length (P M A : list ent) : A = P ++ M -> zlen P = zlen A -> P = A.
Proof.
  intros -> Hz. rewrite zlen_app in Hz. destruct M; [by rewrite app_nil_r|]. rewrite zlen_cons in Hz. pose proof (zlen_nonneg M). lia.
Qed.

Lemma zslGetElementByRank_ok st l rank : rep st l -> 1 <= rank ->
  zslGetElementByRank st rank = Some (eptr <$> l !! Z.to_nat (rank - 1)).
Proof.
  intros Hrep Hr. pose proof (zlen_nonneg l). unfold zslGetElementByRank.
  destruct (split_length l (Z.min rank (zlen l))) as (A & B & Hl & HA); [lia|].
  destruct (descend_find_ok st l A B (fun t _ => t <=? rank) (fun _ t => t =? rank) (zfuel (zsl st)) Hrep Hl) with
    (k := level (zsl st)) (P := @nil ent) (M := A) (x := header (zsl st)) as (r & Hres & Hcase); [| |done|done|by left|].
  { rewrite HA. apply (cond_spec_rank (fun t => t <=? rank)); [lia|]. intros t Ht.
    destruct (Z.leb_spec t rank); [rewrite bool_decide_true; [done|lia]|rewrite bool_decide_false; [done|lia]]. }
  { rewrite (zfuel_enough _ _ Hrep), Hl, length_app. lia. }
  change (zlen (@nil ent)) with 0 in Hres. rewrite Hres. cbn [mbind option_bind].
  destruct r as [[y rk]|].
  - destruct Hcase as (P & M & i & n & HP & Hat & -> & _ & Hf). apply Z.eqb_eq in Hf.
    assert (zlen P = zlen A).
    { apply (f_equal zlen) in HP. rewrite zlen_app in HP. pose proof (zlen_nonneg M). lia. }
    pose proof (prefix_same_length P M A HP ltac:(done)) as ->. clear HP.
    destruct Hat as [[-> ->]|(P' & e & -> & -> & _)]; [change (zlen (@nil ent)) with 0 in Hf; lia|].
    rewrite Hl, <- app_assoc. cbn [app]. rewrite list_lookup_middle; [done|].
    rewrite zlen_app in Hf. change (zlen [e]) with 1 in Hf. unfold zlen in Hf. lia.
  - destruct Hcase as [Hk|(y & n & _ & _ & Hf)]; [pose proof (r_lvl _ _ Hrep); lia|].
    apply Z.eqb_neq in Hf. rewrite lookup_ge_None_2; [done|]. unfold zlen in *. lia.
Qed.

Definition at_or_before (s : score) (o : obj) (e : ent) : bool :=
  slt (escore e) s || (seq_ (escore e) s && (compareStringObjects (eobj e) o <=? 0)).

Lemma at_or_before_negb s o e : at_or_before s o e = negb (key_lt s o (escore e) (eobj e)).
Proof.
  unfold at_or_before, key_lt. rewrite negb_orb, negb_andb. destruct (slt_cases (escore e) s) as [H|[H|H]].
  - rewrite H, (slt_asym _ _ H). cbn. destruct (seq_ s (escore e)) eqn:E; [|done].
    apply seq_sym_ in E. by rewrite (slt_seq _ _ H) in E.
  - rewrite H, (seq_sym_ _ _ H), (seq_slt_l _ _ _ H), slt_irrefl, (seq_slt_r _ _ _ H), slt_irrefl. cbn.
    pose proof (cmp_antisym o (eobj e)). destruct (Z.leb_spec (compareStringObjects (eobj e) o) 0), (Z.ltb_spec (compareStringObjects o (eobj e)) 0); lia || done.
  - rewrite H, (slt_asym _ _ H). cbn. destruct (seq_ (escore e) s) eqn:E; [|done].
    apply seq_sym_ in E. by rewrite (slt_seq _ _ H) in E.
Qed.

(** A list splits in one place only where a condition ends. *)
Lemma split_unique (p : ent -> bool) A B A' B' :
  Forall (fun e => p e = true) A -> Forall (fun e => p e = false) B ->
  Forall (fun e => p e = true) A' -> Forall (fun e => p e = false) B' -> A ++ B = A' ++ B' -> A = A'.
Proof.
  intros HA. revert A'. induction HA as [|e A He _ IH]; intros A' HB HA' HB' Heq; cbn in Heq.
  - destruct A' as [|e' A']; [done|]. apply Forall_cons_1 in HA' as [He' _]. rewrite Heq in HB. apply Forall_cons_1 in HB as [? _]. congruence.
  - destruct A' as [|e' A']; cbn in Heq.
    + rewrite <- Heq in HB'. apply Forall_cons_1 in HB' as [? _]. congruence.
    + injection Heq as <- Heq. apply Forall_cons_1 in HA' as [_ HA']. f_equal. by apply IH.
Qed.

(** The rank of a member, 1-based; 0 when the member is not in the list.  Members are unique. *)
Lemma zslGetRank_ok st l s o : rep st l -> NoDup (eobj <$> l) ->
  (forall A e B, l = A ++ e :: B -> same_key s o e = true -> zslGetRank st s o = Some (zlen A + 1)) /\
  (o ∉ (eobj <$> l) -> zslGetRank st s o = Some 0).
Proof.
  intros Hrep Hnd. unfold zslGetRank. set (cond := fun (_ : Z) (n : zskiplistNode) => _). set (found := fun (n : zskiplistNode) (_ : Z) => _).
  destruct (split_by (at_or_before s o) l (r_sorted _ _ Hrep)) as (A & B & Hl & HA & HB).
  { intros e1 e2 He. rewrite !at_or_before_negb, !negb_true_iff. intros H2.
    destruct (key_lt s o (escore e1) (eobj e1)) eqn:E; [|done]. by rewrite (key_lt_trans _ _ _ _ _ _ E He) in H2. }
  destruct (descend_find_ok st l A B cond found (zfuel (zsl st)) Hrep Hl) with
    (k := level (zsl st)) (P := @nil ent) (M := A) (x := header (zsl st)) as (r & Hres & Hcase); [| |done|done|by left|].
  { rewrite Hl. apply (cond_spec_split (at_or_before s o)); [done|done|].
    intros t n e Ho Hs. unfold cond, at_or_before. by rewrite Ho, Hs. }
  { rewrite (zfuel_enough _ _ Hrep), Hl, length_app. lia. }
  change (zlen (@nil ent)) with 0 in Hres. rewrite Hres. cbn [mbind option_bind].
  assert (Hfound : forall P M i y n t, A = P ++ M -> at_pos (header (zsl st)) P i y -> mem st !! y = Some n ->
    found n t = bool_decide ((eobj <$> list.last P) = Some o)).
  { intros P M i y n t HP Hat Hn. destruct (at_pos_node st l P (M ++ B) i y Hrep) as (n' & Hn' & Ho); [by rewrite Hl, HP, <- app_assoc|done|].
    rewrite Hn in Hn'. injection Hn' as <-. unfold found, equalStringObjects. rewrite Ho. destruct (list.last P) as [e|]; cbn; [|done].
    destruct (Z.eqb_spec (compareStringObjects (eobj e) o) 0) as [E|E].
    - apply cmp_eq in E. by rewrite bool_decide_true by (by f_equal).
    - rewrite bool_decide_false; [done|]. intros [= E']. apply E. by apply cmp_eq. }
  split.
  - intros L e R Hsplit Hkey.
    assert (HAe : A = L ++ [e]).
    { pose proof Hkey as Hk. unfold same_key, equalStringObjects in Hk. rewrite andb_true_iff, Z.eqb_eq, cmp_eq in Hk. destruct Hk as [Hs Ho].
      assert (Hpe : at_or_before s o e = true).
      { unfold at_or_before. rewrite (seq_sym_ _ _ Hs), Ho. replace (compareStringObjects o o) with 0 by (symmetry; by apply cmp_eq). by rewrite orb_true_r. }
      assert (HL : Forall (fun x => at_or_before s o x = true) (L ++ [e])).
      { apply Forall_app. split; [|by constructor]. apply List.Forall_forall. intros x Hx%list_elem_of_In.
        apply list_elem_of_split in Hx as (L1 & L2 & ->). rewrite at_or_before_negb, negb_true_iff.
        destruct (key_lt s o (escore x) (eobj x)) eqn:E; [|done]. exfalso.
        assert (Hxe : elt x e).
        { pose proof (r_sorted _ _ Hrep) as Hss. rewrite Hsplit, <- app_assoc in Hss. apply sorted_app_r in Hss.
          cbn [app] in Hss. apply StronglySorted_inv in Hss as [_ Hall]. apply Forall_app in Hall as [_ Hall]. by apply Forall_cons_1 in Hall as [? _]. }
        pose proof (key_lt_trans _ _ _ _ _ _ E Hxe) as Hc. rewrite at_or_before_negb, Hc in Hpe. done. }
      assert (HR : Forall (fun x => at_or_before s o x = false) R).
      { pose proof (r_sorted _ _ Hrep) as Hss. rewrite Hsplit in Hss. apply sorted_app_r in Hss.
        apply StronglySorted_inv in Hss as [_ Hall]. eapply List.Forall_impl; [|exact Hall]. cbn. intros x Hx.
        rewrite at_or_before_negb, negb_false_iff. unfold elt, key_lt in *. rewrite Ho in Hx. rewrite (seq_slt_l _ _ _ Hs).
        destruct (slt_cases (escore e) (escore x)) as [Q|[Q|Q]].
        - by rewrite Q.
        - rewrite orb_true_iff, andb_true_iff in Hx. destruct Hx as [Hx|[_ Hx]]; [by rewrite Hx|].
          rewrite Hx, andb_true_r. apply orb_true_iff. right.
          destruct (slt_cases s (escore x)) as [T|[T|T]]; [|done|].
          + rewrite (seq_slt_l _ _ _ Hs), (seq_slt_l _ _ _ Q), slt_irrefl in T. done.
          + rewrite (seq_slt_r _ _ _ Hs), (seq_slt_r _ _ _ Q), slt_irrefl in T. done.
        - rewrite (slt_asym _ _ Q) in Hx. cbn in Hx. apply andb_true_iff in Hx as [Hx _]. apply seq_sym_ in Hx.
          by rewrite (slt_seq _ _ Q) in Hx. }
      apply (split_unique (at_or_before s o) A B (L ++ [e]) R); try done. by rewrite <- Hl, Hsplit, <- app_assoc. }
    assert (Ho : eobj e = o).
    { unfold same_key, equalStringObjects in Hkey. rewrite andb_true_iff, Z.eqb_eq, cmp_eq in Hkey. apply Hkey. }
    destruct r as [[y rank]|].
    + destruct Hcase as (P & M & i & n & HP & Hat & -> & Hn & Hf). rewrite (Hfound P M i y n _ HP Hat Hn), bool_decide_eq_true in Hf.
      destruct P as [|e' P' _] using rev_ind; [done|]. rewrite list.last_snoc in Hf. cbn in Hf. injection Hf as Ho'.
      f_equal. rewrite zlen_app. change (zlen [e']) with 1. f_equal.
      assert (Hidx : length P' = length L).
      { rewrite Hl, fmap_app in Hnd. apply list.NoDup_app in Hnd as (HndA & _ & _).
        apply (NoDup_lookup _ (length P') (length L) o HndA).
        - rewrite HP, <- app_assoc, list_lookup_fmap. cbn [app]. rewrite list_lookup_middle by done. cbn. by rewrite Ho'.
        - rewrite HAe, list_lookup_fmap, list_lookup_middle by done. cbn. by rewrite Ho. }
      unfold zlen. lia.
    + exfalso. destruct Hcase as [Hk|(y & n & Hat & Hn & Hf)]; [pose proof (r_lvl _ _ Hrep); lia|].
      rewrite (Hfound A [] 0%nat y n _ ltac:(by rewrite app_nil_r) Hat Hn), bool_decide_eq_false in Hf. apply Hf.
      rewrite HAe, list.last_snoc. cbn. by rewrite Ho.
  - intros Hnin. destruct r as [[y rank]|]; [|done]. exfalso.
    destruct Hcase as (P & M & i & n & HP & Hat & -> & Hn & Hf). rewrite (Hfound P M i y n _ HP Hat Hn), bool_decide_eq_true in Hf.
    destruct P as [|e' P' _] using rev_ind; [done|]. rewrite list.last_snoc in Hf. cbn in Hf. injection Hf as Ho'.
    apply Hnin. rewrite <- Ho', Hl, HP, <- !app_assoc, fmap_app. apply elem_of_app. right. cbn. apply elem_of_cons. by left.
Qed.

Lemma zslDeleteRangeByRank_ok st l start stop : rep st l -> 1 <= start -> 0 <= stop ->
  exists st' A C D, zslDeleteRangeByRank st start stop = Some (st', zlen C, eobj <$> C) /\ l = A ++ C ++ D /\ rep st' (A ++ D) /\
    A = take (Z.to_nat (start - 1)) l /\ D = drop (Z.to_nat (Z.max (start - 1) stop)) l.
Proof.
  intros Hrep Hs Hst. pose proof (zlen_nonneg l). unfold zslDeleteRangeByRank.
  set (A := take (Z.to_nat (start - 1)) l). set (B := drop (Z.to_nat (start - 1)) l).
  assert (Hl : l = A ++ B) by (unfold A, B; by rewrite take_drop).
  assert (HA : zlen A = Z.min (start - 1) (zlen l)) by (unfold A, zlen; rewrite length_take; lia).
  destruct (search_ok st l A B (fun t _ => t <? start) 64 Hrep Hl) as (us & -> & Hus); [|lia|].
  { rewrite HA. apply (cond_spec_rank (fun t => t <? start)); [lia|]. intros t Ht.
    destruct (Z.ltb_spec t start); [rewrite bool_decide_true; [done|lia]|rewrite bool_decide_false; [done|lia]]. }
  cbn [mbind option_bind].
  pose proof (rep_heights_1 _ _ Hrep) as Hh. pose proof Hh as Hh'. rewrite Hl in Hh'. apply Forall_app in Hh' as [HhA _].
  destruct (updates_0 _ _ _ _ Hus) as (u & Hu & Hat); [pose proof (r_lvl _ _ Hrep); lia|done|].
  rewrite Hu. cbn [mbind option_bind]. pose proof Hrep as Hrep'. rewrite Hl in Hrep'.
  rewrite (next_level_0 st A B u Hrep' Hat).
  set (m := Z.to_nat (Z.max 0 (stop - zlen A))).
  set (C := take m B). set (D := drop m B).
  assert (HB : B = C ++ D) by (unfold C, D; by rewrite take_drop).
  assert (HBl : zlen B = zlen l - zlen A) by (pose proof (f_equal zlen Hl) as Hz; rewrite zlen_app in Hz; lia).
  assert (HC : zlen C = Z.min (Z.max 0 (stop - zlen A)) (zlen B)) by (unfold C, zlen in *; rewrite length_take; lia).
  assert (HD : zlen D = zlen B - zlen C) by (rewrite HB, zlen_app; lia).
  assert (HDeq : D = drop (Z.to_nat (Z.max (start - 1) stop)) l).
  { unfold D, B. rewrite drop_drop. destruct (decide (start - 1 <= zlen l)).
    - f_equal. unfold m. lia.
    - rewrite !drop_ge; [done|unfold zlen in *; lia|unfold zlen in *; lia]. }
  clearbody C D. clear m. rewrite HB in Hrep'.
  destruct (delete_while_ok (fun t _ => t <=? stop) C D (zfuel (zsl st)) st A us (zlen A + 1) 0 []) as (st' & Hdel & Hrep2).
  - done.
  - by apply updates_all.
  - rewrite (zfuel_enough _ _ Hrep), Hl, HB, !length_app. lia.
  - intros C1 e C2 n HC1 _. apply Z.leb_le. apply (f_equal zlen) in HC1. rewrite zlen_app, zlen_cons in HC1.
    pose proof (zlen_nonneg C1). pose proof (zlen_nonneg C2). lia.
  - intros e D' n HD' _. apply Z.leb_gt. apply (f_equal zlen) in HD'. rewrite zlen_cons in HD'. pose proof (zlen_nonneg D'). lia.
  - exists st', A, C, D. split_and!; [|by rewrite Hl, HB|done|done|done].
    rewrite HB. destruct (C ++ D); cbn [mbind option_bind]; exact Hdel.
Qed.

Lemma free_nodes_ok l : forall fuel h, NoDup (ptrs l) -> (length l <= fuel)%nat ->
  (forall l1 e l2, l = l1 ++ e :: l2 -> exists sp, get_level h (eptr e) 0 = Some (eptr <$> list.head l2, sp)) ->
  (forall p, is_Some (h !! p) -> p ∈ ptrs l) ->
  free_nodes fuel h (eptr <$> list.head l) = Some ∅.
Proof.
  induction l as [|e l IH]; intros fuel h Hnd Hf Hlev Hdom.
  - assert (h = ∅) as ->; [|by destruct fuel]. apply map_eq. intros p. rewrite lookup_empty.
    destruct (h !! p) eqn:E; [|done]. exfalso. specialize (Hdom p ltac:(by eexists)). by apply not_elem_of_nil in Hdom.
  - destruct fuel as [|fuel]; [cbn in Hf; lia|]. cbn [list.head fmap option_fmap option_map free_nodes].
    destruct (Hlev [] e l eq_refl) as (sp & ->). cbn [mbind option_bind]. cbn in Hnd. apply list.NoDup_cons in Hnd as [Hn Hnd].
    apply IH; [done|cbn in Hf; lia| |].
    + intros l1 e' l2 Hl. destruct (Hlev (e :: l1) e' l2 ltac:(by rewrite Hl)) as (sp' & Hsp). exists sp'.
      unfold get_level in *. rewrite lookup_delete_ne; [done|]. intros Heq. apply Hn. rewrite Heq, Hl. apply elem_ptr.
    + intros q [n Hq]. destruct (decide (q = eptr e)) as [->|Hne]; [by rewrite lookup_delete_eq in Hq|].
      rewrite lookup_delete_ne in Hq by done. specialize (Hdom q ltac:(by eexists)). cbn in Hdom.
      apply elem_of_cons in Hdom as [?|?]; done.
Qed.

Lemma link_0_head l : Forall (fun e => (1 <= eheight e)%nat) l -> exists sp, link 0 l = (eptr <$> list.head l, sp).
Proof. intros Hh. rewrite link_0 by done. destruct l; cbn; by eexists. Qed.

Lemma zslFree_ok st l : rep st l -> zslFree st = Some ∅.
Proof.
  intros Hrep. unfold zslFree. pose proof (rep_heights_1 _ _ Hrep) as Hh.
  pose proof (lv_hd _ _ _ _ _ (r_lv _ _ Hrep) 0%nat ltac:(pose proof (r_lvl _ _ Hrep); lia)) as Hg. rewrite app_nil_r in Hg.
  destruct (link_0_head l Hh) as (sp & Hlk). rewrite Hg, Hlk. cbn [mbind option_bind].
  pose proof (r_nodup _ _ Hrep) as Hnd. apply list.NoDup_cons in Hnd as [Hn Hnd]. apply free_nodes_ok; [done| | |].
  - rewrite (zfuel_enough _ _ Hrep). lia.
  - intros l1 e l2 Hl. assert (Hh2 : Forall (fun e => (1 <= eheight e)%nat) (e :: l2)) by (rewrite Hl in Hh; by apply Forall_app in Hh as [_ ?]).
    apply Forall_cons_1 in Hh2 as [He Hh2]. destruct (link_0_head l2 Hh2) as (sp2 & Hlk2). exists sp2. rewrite <- Hlk2.
    pose proof (lv_el _ _ _ _ _ (r_lv _ _ Hrep) l1 e l2 0%nat Hl ltac:(lia)) as Hge. rewrite app_nil_r in Hge. rewrite <- Hge.
    unfold get_level. rewrite lookup_delete_ne; [done|]. intros Heq. apply Hn. rewrite Heq, Hl. apply elem_ptr.
  - intros q [n Hq]. destruct (decide (q = header (zsl st))) as [->|Hne]; [by rewrite lookup_delete_eq in Hq|].
    rewrite lookup_delete_ne in Hq by done. pose proof (r_dom _ _ Hrep q) as Hd. rewrite shape_is_Some in Hd.
    specialize (Hd ltac:(by eexists)). apply elem_of_cons in Hd as [?|?]; done.
Qed.

(** *** Refinement of a sorted list of scores and members *)

Abbreviation kv := (score * obj)%type.

Definition ekv (e : ent) : kv := (escore e, eobj e).
Definition kvs (l : list ent) : list kv := ekv <$> l.

Fixpoint zins (s : score) (o : obj) (k : list kv) : list kv :=
  match k with
  | [] => [(s, o)]
  | (s', o') :: k' => if key_lt s' o' s o then (s', o') :: zins s o k' else (s, o) :: k
  end.

Definition key_is (s : score) (o : obj) (x : kv) : bool := seq_ s x.1 && equalStringObjects x.2 o.

Fixpoint zdel (s : score) (o : obj) (k : list kv) : list kv :=
  match k with
  | [] => []
  | x :: k => if key_is s o x then k else x :: zdel s o k
  end.

Definition kv_in_range (r : zrangespec) (x : kv) : bool := zslValueGteMin x.1 r && zslValueLteMax x.1 r.

Lemma kvs_app l1 l2 : kvs (l1 ++ l2) = kvs l1 ++ kvs l2.
Proof. apply fmap_app. Qed.

Lemma kvs_objs l : (kvs l).*2 = eobj <$> l.
Proof. unfold kvs. by rewrite <- list_fmap_compose. Qed.

Lemma kvs_keys l : zlen (kvs l) = zlen l.
Proof. unfold kvs, zlen. by rewrite length_fmap. Qed.

Lemma kvs_cons e l : kvs (e :: l) = ekv e :: kvs l.
Proof. done. Qed.

Lemma zins_split s o A B : Forall (fun e => is_before s o e = true) A ->
  (forall e B', B = e :: B' -> is_before s o e = false) -> zins s o (kvs (A ++ B)) = kvs A ++ (s, o) :: kvs B.
Proof.
  intros HA HB. induction HA as [|e A He _ IH]; cbn [app].
  - destruct B as [|e B]; [done|]. rewrite kvs_cons. unfold ekv. cbn [zins]. specialize (HB e B eq_refl). unfold is_before in HB. by rewrite HB.
  - rewrite !kvs_cons. unfold ekv. cbn [zins]. unfold is_before in He. rewrite He. by rewrite IH.
Qed.

Lemma zdel_split s o A e B : Forall (fun e => same_key s o e = false) A -> same_key s o e = true ->
  zdel s o (kvs (A ++ e :: B)) = kvs (A ++ B).
Proof.
  intros HA He. induction HA as [|x A Hx _ IH]; cbn [app]; rewrite kvs_cons; cbn [zdel]; unfold key_is at 1; cbn [ekv fst snd].
  - unfold same_key in He. by rewrite He.
  - unfold same_key in Hx. rewrite Hx. by rewrite IH.
Qed.

Lemma zdel_none s o l : Forall (fun e => same_key s o e = false) l -> zdel s o (kvs l) = kvs l.
Proof.
  induction 1 as [|x l Hx _ IH]; [done|]. rewrite kvs_cons. cbn [zdel]. unfold key_is at 1. cbn [ekv fst snd].
  unfold same_key in Hx. rewrite Hx. by rewrite IH.
Qed.

Inductive op :=
  | OInsert (s : score) (o : obj) (rnd : list Z)
  | ODelete (s : score) (o : obj)
  | ODelScore (r : zrangespec)
  | ODelRank (start stop : Z).

Inductive response := RInserted | RDeleted (b : bool) | RRemoved (n : Z) (members : list obj).

Definition exec (st : state) (x : op) : option (state * response) :=
  match x with
  | OInsert s o rnd => '(st, _) ← zslInsert st s o rnd; Some (st, RInserted)
  | ODelete s o => '(st, b) ← zslDelete st s o; Some (st, RDeleted b)
  | ODelScore r => '(st, n, d) ← zslDeleteRangeByScore st r; Some (st, RRemoved n d)
  | ODelRank a b => '(st, n, d) ← zslDeleteRangeByRank st a b; Some (st, RRemoved n d)
  end.

Definition spec (k : list kv) (x : op) : list kv * response :=
  match x with
  | OInsert s o _ => (zins s o k, RInserted)
  | ODelete s o => (zdel s o k, RDeleted (existsb (key_is s o) k))
  | ODelScore r =>
      let gone := List.filter (kv_in_range r) k in
      (List.filter (fun x => negb (kv_in_range r x)) k, RRemoved (zlen gone) (gone.*2))
  | ODelRank a b =>
      let gone := take (Z.to_nat (Z.max (a - 1) b) - Z.to_nat (a - 1)) (drop (Z.to_nat (a - 1)) k) in
      (take (Z.to_nat (a - 1)) k ++ drop (Z.to_nat (Z.max (a - 1) b)) k, RRemoved (zlen gone) (gone.*2))
  end.

(** The caller inserts only members that are not in the list (it looks in the dictionary
    first); random() gives the coin tosses of the level; ranks are 1-based. *)
Definition op_ok (k : list kv) (x : op) : Prop :=
  match x with
  | OInsert s o rnd => (o ∉ (k.*2)) /\ is_Some (zslRandomLevel rnd) /\ zlen k + 1 < 2 ^ 32
  | ODelRank a b => 1 <= a /\ 0 <= b
  | _ => True
  end.

Lemma existsb_kvs s o l : existsb (key_is s o) (kvs l) = existsb (same_key s o) l.
Proof. induction l as [|e l IH]; [done|]. rewrite kvs_cons. cbn [existsb]. by rewrite IH. Qed.

Lemma existsb_none (p : ent -> bool) l : Forall (fun e => p e = false) l -> existsb p l = false.
Proof. induction 1 as [|e l He _ IH]; [done|]. cbn. by rewrite He. Qed.

Lemma filter_range_all (p : kv -> bool) l b : Forall (fun e => p (ekv e) = b) l ->
  List.filter p (kvs l) = if b then kvs l else [].
Proof. intros H. induction H as [|e l He _ IH]; [by destruct b|]. rewrite kvs_cons. cbn [List.filter]. rewrite He, IH. by destruct b. Qed.

Lemma zexec_ok st l x : rep st l -> NoDup (eobj <$> l) -> op_ok (kvs l) x ->
  exists st' l', exec st x = Some (st', (spec (kvs l) x).2) /\ rep st' l' /\ kvs l' = (spec (kvs l) x).1 /\ NoDup (eobj <$> l').
Proof.
  intros Hrep Hnd Hok. destruct x as [s o rnd|s o|r|a b]; cbn [exec spec op_ok fst snd] in *.
  - destruct Hok as (Hnin & [lvl Hlvl] & Hsz). rewrite kvs_objs in Hnin. rewrite kvs_keys in Hsz.
    assert (Hnew : Forall (fun e => seq_ (escore e) s && equalStringObjects (eobj e) o = false) l).
    { apply List.Forall_forall. intros e He. apply andb_false_iff. right. apply Z.eqb_neq. rewrite cmp_eq. intros <-. apply Hnin.
      apply list_elem_of_fmap_2, list_elem_of_In. done. }
    destruct (zslInsert_ok st l s o rnd lvl Hrep Hnew Hsz Hlvl) as (st' & A & B & -> & -> & Hrep'). cbn [mbind option_bind].
    exists st', (A ++ mkEnt (next st) s o lvl :: B). split_and!; [done|done| |].
    + rewrite zins_split.
      * rewrite kvs_app. done.
      * pose proof (r_sorted _ _ Hrep') as Hs. clear -Hs. induction A as [|e A IH]; [constructor|]. cbn in Hs.
        inversion Hs as [|? ? Hs' Hall]; subst. constructor; [|by apply IH]. apply Forall_app in Hall as [_ Hall].
        apply Forall_cons_1 in Hall as [Hx _]. exact Hx.
      * intros e B' ->. pose proof (sorted_app_r _ _ (r_sorted _ _ Hrep')) as Hs. apply StronglySorted_inv in Hs as [_ Hall].
        apply Forall_cons_1 in Hall as [Hx _]. unfold elt in Hx. cbn in Hx. unfold is_before.
        destruct (key_lt (escore e) (eobj e) s o) eqn:E; [|done]. pose proof (key_lt_trans _ _ _ _ _ _ Hx E) as Hc.
        by rewrite key_lt_irrefl in Hc.
    + rewrite fmap_app in *. cbn. rewrite <- Permutation_middle. constructor; done.
  - destruct (zslDelete_ok st l s o Hrep) as [(st' & A & e & B & -> & -> & He & HA & Hrep')|[-> Hno]]; cbn [mbind option_bind].
    + exists st', (A ++ B). rewrite existsb_kvs. split_and!.
      * do 3 f_equal. rewrite existsb_app. cbn. by rewrite He, orb_true_r.
      * done.
      * by rewrite zdel_split.
      * rewrite fmap_app in *. cbn in Hnd. rewrite <- Permutation_middle in Hnd. by apply list.NoDup_cons in Hnd as [_ ?].
    + exists st, l. rewrite existsb_kvs, existsb_none by done. split_and!; [done|done| |done]. by rewrite zdel_none.
  - destruct (zslDeleteRangeByScore_ok st l r Hrep) as (st' & A & C & D & -> & -> & Hrep' & HC & HA & HD). cbn [mbind option_bind].
    exists st', (A ++ D). rewrite !kvs_app, !List.filter_app.
    rewrite (filter_range_all (kv_in_range r) A false), (filter_range_all (kv_in_range r) C true), (filter_range_all (kv_in_range r) D false) by done.
    rewrite (filter_range_all (fun x => negb (kv_in_range r x)) A true), (filter_range_all (fun x => negb (kv_in_range r x)) C false),
      (filter_range_all (fun x => negb (kv_in_range r x)) D true);
      [|eapply List.Forall_impl; [|exact HD]; cbn; intros e He; apply negb_true_iff; exact He
       |eapply List.Forall_impl; [|exact HC]; cbn; intros e He; apply negb_false_iff; exact He
       |eapply List.Forall_impl; [|exact HA]; cbn; intros e He; apply negb_true_iff; exact He].
    cbn [app]. rewrite app_nil_r. split_and!; [by rewrite kvs_keys, kvs_objs|done|done|].
    rewrite !fmap_app in *. apply list.NoDup_app in Hnd as (H1 & H2 & H3). apply list.NoDup_app in H3 as (H3 & H4 & H5).
    apply list.NoDup_app. split_and!; [done| |done]. intros y Hy Hy2. apply (H2 y Hy). apply elem_of_app. by right.
  - destruct Hok as [Ha Hb]. destruct (zslDeleteRangeByRank_ok st l a b Hrep Ha Hb) as (st' & A & C & D & -> & Hl & Hrep' & HA & HD). cbn [mbind option_bind].
    exists st', (A ++ D). unfold kvs. rewrite !fmap_take, !fmap_drop.
    assert (HC : C = take (Z.to_nat (Z.max (a - 1) b) - Z.to_nat (a - 1)) (drop (Z.to_nat (a - 1)) l)).
    { assert (HAC : A ++ C = take (Z.to_nat (Z.max (a - 1) b)) l).
      { apply (app_inv_tail D). rewrite <- app_assoc, <- Hl, HD. by rewrite take_drop. }
      replace (Z.to_nat (Z.max (a - 1) b)) with (Z.to_nat (a - 1) + (Z.to_nat (Z.max (a - 1) b) - Z.to_nat (a - 1)))%nat in HAC by lia.
      rewrite <- take_take_drop, <- HA in HAC. by apply app_inv_head in HAC. }
    rewrite <- !fmap_drop, <- !fmap_take, <- HA, <- HD, <- HC, <- fmap_app. fold (kvs (A ++ D)). fold (kvs C).
    split_and!; [by rewrite kvs_keys, kvs_objs|done|done|].
    rewrite Hl, !fmap_app in Hnd. apply list.NoDup_app in Hnd as (H1 & H2 & H3). apply list.NoDup_app in H3 as (H3 & H4 & H5).
    rewrite fmap_app. apply list.NoDup_app. split_and!; [done| |done]. intros y Hy Hy2. apply (H2 y Hy). apply elem_of_app. by right.
Qed.

Fixpoint exec_all (st : state) (os : list op) : option (state * list response) :=
  match os with
  | [] => Some (st, [])
  | x :: os => '(st, r) ← exec st x; '(st, rs) ← exec_all st os; Some (st, r :: rs)
  end.

Fixpoint spec_all (k : list kv) (os : list op) : list kv * list response :=
  match os with
  | [] => (k, [])
  | x :: os => let '(k, r) := spec k x in let '(k, rs) := spec_all k os in (k, r :: rs)
  end.

Fixpoint ops_ok (k : list kv) (os : list op) : Prop :=
  match os with [] => True | x :: os => op_ok k x /\ ops_ok (spec k x).1 os end.

Lemma zexec_all_ok os : forall st l, rep st l -> NoDup (eobj <$> l) -> ops_ok (kvs l) os ->
  exists st' l', exec_all st os = Some (st', (spec_all (kvs l) os).2) /\ rep st' l' /\ kvs l' = (spec_all (kvs l) os).1 /\
    NoDup (eobj <$> l').
Proof.
  induction os as [|x os IH]; intros st l Hrep Hnd Hok; cbn [exec_all spec_all ops_ok] in *; [by exists st, l|].
  destruct Hok as [Hx Hok]. destruct (zexec_ok st l x Hrep Hnd Hx) as (st1 & l1 & -> & Hrep1 & Hk & Hnd1).
  destruct (spec (kvs l) x) as [k r]. cbn [fst snd mbind option_bind] in *. rewrite <- Hk in Hok.
  destruct (IH st1 l1 Hrep1 Hnd1 Hok) as (st2 & l2 & -> & Hrep2 & Hk2 & Hnd2). rewrite Hk in *.
  destruct (spec_all k os) as [k2 rs]. by exists st2, l2.
Qed.

Lemma zslCreate_ok zero : rep (zslCreate zero) [].
Proof.
  assert (Hg : forall i, (i < ZSKIPLIST_MAXLEVEL)%nat -> get_level (mem (zslCreate zero)) 1 i = Some (None, 0)).
  { intros i Hi. unfold get_level, zslCreate. cbn. rewrite lookup_singleton_eq. cbn. by apply (lookup_replicate_2 32). }
  split.
  - split; [|by intros [|? ?]]. intros i Hi. apply Hg. cbn in Hi. unfold ZSKIPLIST_MAXLEVEL. lia.
  - intros i Hi. exists 0. apply Hg. lia.
  - exists zero. unfold shape, zslCreate. cbn. by rewrite lookup_singleton_eq.
  - by intros [|? ?].
  - intros p Hp%shape_is_Some. cbn in Hp. destruct (decide (p = 1%positive)) as [->|]; [by apply elem_of_cons; left|].
    rewrite lookup_singleton_ne in Hp by done. by destruct Hp.
  - done.
  - done.
  - cbn. unfold ZSKIPLIST_MAXLEVEL. lia.
  - constructor.
  - apply NoDup_singleton.
  - repeat constructor.
  - constructor.
  - done.
Qed.

(** The score and the member of a node. *)
Definition read_node (st : state) (p : ptr) : option kv :=
  n ← mem st !! p; o ← zobj n; Some (zscore n, o).

Lemma read_node_ok st l e : rep st l -> e ∈ l -> read_node st (eptr e) = Some (ekv e).
Proof.
  intros Hrep He. apply list_elem_of_split in He as (l1 & l2 & Hl).
  destruct (rep_node st l l1 e l2 Hrep Hl) as (n & Hn & Ho & Hs). unfold read_node. rewrite Hn. cbn. rewrite Ho. cbn. by rewrite Hs.
Qed.

(** The node a query returns, as a pair. *)
Definition read_result (st : state) (r : option (option ptr)) : option (option kv) :=
  p ← r; Some (p ≫= read_node st).

Lemma find_kvs (p : kv -> bool) l : List.find p (kvs l) = ekv <$> List.find (fun e => p (ekv e)) l.
Proof. induction l as [|e l IH]; [done|]. rewrite kvs_cons. cbn [List.find]. by destruct (p (ekv e)). Qed.

Lemma read_find st l (p : ent -> bool) k : rep st l -> (forall e, e ∈ k -> e ∈ l) ->
  read_result st (Some (eptr <$> List.find p k)) = Some (ekv <$> List.find p k).
Proof.
  intros Hrep Hk. destruct (List.find p k) as [e|] eqn:E; [|done]. cbn. f_equal. apply (read_node_ok st l); [done|].
  apply Hk, list_elem_of_In. by eapply List.find_some.
Qed.

Definition kv_lt (x y : kv) : Prop := key_lt x.1 x.2 y.1 y.2 = true.

Lemma kvs_sorted l : StronglySorted elt l -> StronglySorted kv_lt (kvs l).
Proof.
  induction 1 as [|e l Hs IH Hall]; [constructor|]. rewrite kvs_cons. constructor; [done|].
  apply Forall_fmap. exact Hall.
Qed.

(** C18: Any sequence of insertions (of members not in the list, as the callers guarantee) and of
    deletions by pair, by range of scores and by range of ranks on a new skip list, whatever the
    random levels, runs without touching a missing node, level or array element and behaves as
    the same operations on a list of pairs sorted by score and then by member; the counts and
    the members handed to the dictionary for removal are those of the list.  The nodes [l] hold
    these pairs in this order; at every level the pointer of the header and of each node that has
    the level leads to the next node that has it, and the span is the distance; the back pointers
    and the tail are right, and no node is higher than the list.  zslFree then releases every
    node. *)
Theorem zsl_refines_sorted_list zero os : ops_ok [] os ->
  exists st, exec_all (zslCreate zero) os = Some (st, (spec_all [] os).2) /\
    zlength (zsl st) = zlen (spec_all [] os).1 /\
    StronglySorted kv_lt (spec_all [] os).1 /\
    (exists l : list ent, kvs l = (spec_all [] os).1 /\
      (forall i, (i < level (zsl st))%nat -> get_level (mem st) (header (zsl st)) i = Some (link i l)) /\
      (forall l1 e l2 i, l = l1 ++ e :: l2 -> (i < eheight e)%nat -> get_level (mem st) (eptr e) i = Some (link i l2)) /\
      (forall l1 e l2, l = l1 ++ e :: l2 -> shape (mem st) (eptr e) = Some (Some (eobj e), escore e, lastptr l1, eheight e)) /\
      tail (zsl st) = lastptr l /\ (level (zsl st) <= ZSKIPLIST_MAXLEVEL)%nat /\ Forall (fun e => (1 <= eheight e <= level (zsl st))%nat) l) /\
    zslFree st = Some ∅.
Proof.
  intros Hok. destruct (zexec_all_ok os (zslCreate zero) [] (zslCreate_ok zero)) as (st & l & He & Hrep & Hk & _);
    [constructor|done|]. exists st. rewrite He. change (kvs []) with (@nil kv) in *. rewrite <- Hk. split_and!; [done| | | |].
  - rewrite kvs_keys. apply (r_len _ _ Hrep).
  - apply kvs_sorted, (r_sorted _ _ Hrep).
  - exists l. pose proof Hrep as [ [H1 H2] _ _ H3 _ H4 _ H5 H6 _ _ _ _]. split_and!; try done.
    + intros i Hi. rewrite (H1 i Hi). by rewrite app_nil_r.
    + intros l1 e l2 i El Hi. rewrite (H2 l1 e l2 i El Hi). by rewrite app_nil_r.
    + apply H5.
  - by eapply zslFree_ok.
Qed.

(** In every state such a sequence reaches, the queries read the sorted list: the element of
    a rank, the rank of a pair (0 for a member that is absent), and the first and the last
    element of a range of scores with inclusive or exclusive bounds. *)
Theorem zsl_queries zero os st rs : ops_ok [] os -> exec_all (zslCreate zero) os = Some (st, rs) ->
  let k := (spec_all [] os).1 in
  (forall rank, 1 <= rank -> read_result st (zslGetElementByRank st rank) = Some (k !! Z.to_nat (rank - 1))) /\
  (forall i s o, k !! i = Some (s, o) -> zslGetRank st s o = Some (Z.of_nat i + 1)) /\
  (forall s o, ~ (o ∈ k.*2) -> zslGetRank st s o = Some 0) /\
  (forall r, read_result st (zslFirstInRange st r) = Some (List.find (kv_in_range r) k)) /\
  (forall r, read_result st (zslLastInRange st r) = Some (List.find (kv_in_range r) (reverse k))).
Proof.
  intros Hok He k. destruct (zexec_all_ok os (zslCreate zero) [] (zslCreate_ok zero)) as (st' & l & He' & Hrep & Hk & Hnd);
    [constructor|done|]. rewrite He in He'. injection He' as <- _. change (kvs []) with (@nil kv) in Hk. fold k in Hk. clearbody k. subst k.
  split_and!.
  - intros rank Hr. rewrite (zslGetElementByRank_ok st l rank Hrep Hr). unfold kvs. rewrite list_lookup_fmap.
    destruct (l !! _) as [e|] eqn:E; [|done]. cbn. f_equal. apply (read_node_ok st l); [done|]. by eapply list_elem_of_lookup_2.
  - intros i s o Hi. unfold kvs in Hi. rewrite list_lookup_fmap in Hi. destruct (l !! i) as [e|] eqn:E; [|done].
    cbn in Hi. injection Hi as <- <-. apply list_elem_of_split_length in E as (A & B & Hl & ->).
    apply (proj1 (zslGetRank_ok st l _ _ Hrep Hnd) A e B Hl).
    unfold same_key, equalStringObjects. rewrite seq_refl_. cbn. apply Z.eqb_eq. by apply cmp_eq.
  - intros s o Hn. rewrite kvs_objs in Hn. by apply (proj2 (zslGetRank_ok st l s o Hrep Hnd)).
  - intros r. rewrite (zslFirstInRange_ok st l r Hrep), find_kvs. change (fun e => kv_in_range r (ekv e)) with (in_range r).
    by apply (read_find st l).
  - intros r. rewrite (zslLastInRange_ok st l r Hrep). unfold kvs. rewrite <- fmap_reverse. fold (kvs (reverse l)).
    rewrite find_kvs. change (fun e => kv_in_range r (ekv e)) with (in_range r).
    apply (read_find st l); [done|]. intros e. by rewrite elem_of_reverse.
Qed.

End Zsl.

(** ** Instances *)

(** Integer scores. *)
#[export, refine] Instance Z_score : ScoreOrder Z := { slt := Z.ltb; seq_ := Z.eqb }.
Proof.
  - apply Z.ltb_irrefl.
  - intros a b c. rewrite !Z.ltb_lt. lia.
  - intros a b. rewrite !Z.ltb_lt, Z.eqb_eq. lia.
  - apply Z.eqb_refl.
  - intros a b. rewrite !Z.eqb_eq. lia.
  - by intros a b c ->%Z.eqb_eq.
  - by intros a b c ->%Z.eqb_eq.
  - intros a b. rewrite Z.ltb_lt, Z.eqb_neq. lia.
Defined.

#[export, refine] Instance double_score : ScoreOrder double :=
  { slt f g := SFltb (`f) (`g); seq_ f g := SFeqb (`f) (`g) }.
Proof.
  - intros a. eapply bool_false_iff; [apply SFltb_key|]. unfold lt3. lia.
  - intros a b c. rewrite !SFltb_key. unfold lt3. lia.
  - intros a b. rewrite !SFltb_key, SFeqb_key. unfold lt3, eq3. lia.
  - intros a. apply SFeqb_key. done.
  - intros a b. rewrite !SFeqb_key. unfold eq3. lia.
  - intros a b c. rewrite SFeqb_key. intros H. apply bool_eq_iff. rewrite !SFltb_key. unfold lt3, eq3 in *. lia.
  - intros a b c. rewrite SFeqb_key. intros H. apply bool_eq_iff. rewrite !SFltb_key. unfold lt3, eq3 in *. lia.
  - intros a b. rewrite SFltb_key. intros H. eapply bool_false_iff; [apply SFeqb_key|]. unfold lt3, eq3 in *. lia.
Defined.

(** Members that are RAW strings, compared as sdscmp does. *)
Definition compare_raw (a b : list Z) : Z :=
  let n := Nat.min (length a) (length b) in
  let cmp := Sds.memcmp (take n a) (take n b) in
  if cmp =? 0 then zlen a - zlen b else cmp.

Lemma compare_raw_lex a b : (compare_raw a b ?= 0) = Sds.lex a b.
Proof. apply Sds.memcmp_lex. Qed.

Lemma lex_Eq a b : Sds.lex a b = Eq <-> a = b.
Proof.
  revert b. induction a as [|x a IH]; intros [|y b]; cbn; try done.
  destruct (Z.compare_spec x y) as [->|H|H]; [|split; [done|intros [= -> _]; lia]..].
  rewrite IH. split; [by intros ->|by intros [= ->]].
Qed.

Lemma lex_antisym a b : Sds.lex a b = CompOpp (Sds.lex b a).
Proof.
  revert b. induction a as [|x a IH]; intros [|y b]; cbn; try done.
  rewrite (Z.compare_antisym y x). destruct (y ?= x); cbn; [apply IH|done|done].
Qed.

Lemma lex_trans a b c : Sds.lex a b = Lt -> Sds.lex b c = Lt -> Sds.lex a c = Lt.
Proof.
  revert b c. induction a as [|x a IH]; intros [|y b] [|z c]; cbn; try done.
  destruct (Z.compare_spec x y) as [->|Hxy|Hxy]; try done; destruct (Z.compare_spec y z) as [->|Hyz|Hyz]; try done.
  - apply IH.
  - intros _ _. by rewrite (proj2 (Z.compare_lt_iff x z) Hxy).
  - intros _ _. by rewrite (proj2 (Z.compare_lt_iff x z) ltac:(lia)).
Qed.

#[export, refine] Instance raw_obj : ObjOrder (list Z) := { compareStringObjects := compare_raw }.
Proof.
  - intros a b. rewrite <- lex_Eq, <- compare_raw_lex. by rewrite Z.compare_eq_iff.
  - intros a b. rewrite <- (Z.compare_lt_iff _ 0), <- (Z.compare_gt_iff _ 0), !compare_raw_lex, (lex_antisym a b).
    by destruct (Sds.lex b a).
  - intros a b c. rewrite <- !(Z.compare_lt_iff _ 0), !compare_raw_lex. apply lex_trans.
Defined.

(** ** Witnesses, on doubles and raw strings *)

Definition dbl (m : positive) : double := S754_finite false m 0 ↾ eq_refl.

Definition dzero : double := S754_zero false ↾ eq_refl.

(** Coin tosses for a node of [n] levels. *)
Definition tosses (n : nat) : list Z := replicate (n - 1) 0 ++ [0xFFFF].

Definition demo : list (op (score := double) (obj := list Z)) :=
  [OInsert (dbl 3) (str "c") (tosses 1); OInsert (dbl 1) (str "a") (tosses 3); OInsert (dbl 3) (str "b") (tosses 2);
   OInsert (dbl 7) (str "d") (tosses 1); ODelete (dbl 3) (str "c"); OInsert (dbl 5) (str "e") (tosses 4);
   ODelRank 1 1; ODelete (dbl 9) (str "zz")].

Lemma demo_ok : ops_ok [] demo.
Proof.
  assert (Hnin : forall (x : list Z) (l : list (list Z)), bool_decide (x ∈ l) = false -> x ∉ l) by (intros x l; apply bool_decide_eq_false).
  unfold demo. cbn [ops_ok op_ok].
  repeat match goal with
  | |- _ /\ _ => split
  | |- True => exact I
  | |- is_Some _ => by eexists; vm_compute; reflexivity
  | |- _ ∉ _ => apply Hnin; vm_compute; reflexivity
  | |- _ < _ => vm_compute; reflexivity
  | |- _ <= _ => lia
  end.
Qed.

Lemma zsl_refines_sorted_list_witness : exists st,
  exec_all (None, 0) (zslCreate dzero) demo = Some (st, (spec_all [] demo).2) /\
  (spec_all [] demo).1 = [(dbl 3, str "b"); (dbl 5, str "e"); (dbl 7, str "d")] /\ zslFree st = Some ∅.
Proof.
  destruct (zsl_refines_sorted_list (None, 0) dzero demo demo_ok) as (st & H & _ & _ & _ & Hf).
  exists st. split; [exact H|]. split; [vm_compute; reflexivity|exact Hf].
Defined.

Lemma zsl_queries_witness : exists st rs,
  exec_all (None, 0) (zslCreate dzero) demo = Some (st, rs) /\ zslGetRank st (dbl 5) (str "e") = Some 2 /\
  read_result st (zslFirstInRange st (mkRange (dbl 3) (dbl 7) true true)) = Some (Some (dbl 5, str "e")).
Proof.
  destruct (exec_all (None, 0) (zslCreate dzero) demo) as [[st rs]|] eqn:E.
  - destruct (zsl_queries (None, 0) dzero demo st rs demo_ok E) as (_ & H2 & _ & H4 & _).
    exists st, rs. split; [reflexivity|]. split.
    + apply (H2 1%nat (dbl 5) (str "e")). vm_compute. reflexivity.
    + rewrite H4. vm_compute. reflexivity.
  - exfalso. vm_compute in E. discriminate E.
Defined.

End Zskiplist.
