(* ===== verification/SetType.v ===== *)
(** * t_set.c: sets of strings with two encodings, and the set commands

    Model of [src/debug/redis/src/t_set.c] (setType*, SADD, SREM, SMOVE, SISMEMBER, SCARD)
    with the functions of object.c and redis.c it relies on.  A set object is an [intset] or a
    [dict]; a dictionary compares string objects through dictEncObjHash and
    dictEncObjKeyCompare, which see the decoded string only ([enc_obj_decoded]), so that its keys
    are decoded strings.  A command is a function from the keyspace to the keyspace, its reply,
    the keys it signals as modified and its contribution to [server.dirty].  [None] is a failing
    assert or an access out of bounds.

    The keyspace is compared with finite sets of strings; the invariant [set_ok] is the typing
    discipline of the two encodings. *)

From Stdlib Require Import ZArith Lia Sorted.
From stdpp Require Import prelude list gmap strings numbers.
From S2P Require Import Prelude.
From S2P Require Import Intset.
From S2P Require Import Util.
From S2P Require Import Dict.

Local Open Scope Z_scope.

Module SetType.

(** ** String objects *)

Inductive robj :=
  | RInt (v : Z)              (* REDIS_ENCODING_INT *)
  | RRaw (s : list Z).        (* REDIS_ENCODING_RAW *)

(** getDecodedObject *)
Definition decoded (o : robj) : list Z :=
  match o with RRaw s => s | RInt v => Util.ll2string_chars v end.

Definition isObjectRepresentableAsLongLong (o : robj) : option Z :=
  match o with RInt v => Some v | RRaw s => Util.string2ll s end.

(** The range test of string2l always holds for a 64-bit long. *)
Definition string2l (s : list Z) : option Z :=
  match Util.string2ll s with
  | None => None
  | Some llval => if (llval <? LLONG_MIN) || (LLONG_MAX <? llval) then None else Some llval
  end.

Definition tryObjectEncoding (o : robj) : robj :=
  match o with
  | RInt _ => o
  | RRaw s =>
    if 21 <? zlen s then o
    else match string2l s with None => o | Some value => RInt value end
  end.

Definition dictSdsKeyCompare (key1 key2 : list Z) : bool :=
  if negb (zlen key1 =? zlen key2) then false else bool_decide (key1 = key2).

Definition dictEncObjKeyCompare (o1 o2 : robj) : bool :=
  match o1, o2 with
  | RInt a, RInt b => a =? b
  | _, _ => dictSdsKeyCompare (decoded o1) (decoded o2)
  end.

Definition dictEncObjHash (seed : Z) (o : robj) : Z :=
  match o with
  | RRaw s => Dict.dictGenHashFunction seed s
  | RInt v => Dict.dictGenHashFunction seed (Util.ll2string_chars v)
  end.

(** A value that a long can hold. *)
Definition robj_ok (o : robj) : Prop := match o with RInt v => in_int 64 v | RRaw _ => True end.

Lemma ll2string_inj a b : in_int 64 a -> in_int 64 b ->
  Util.ll2string_chars a = Util.ll2string_chars b -> a = b.
Proof.
  intros Ha Hb H. apply Util.string2ll_ll2string in Ha, Hb. rewrite H in Ha. congruence.
Qed.

(** The dictionary of string objects is a dictionary of decoded strings. *)
Lemma enc_obj_decoded seed o1 o2 : robj_ok o1 -> robj_ok o2 ->
  dictEncObjKeyCompare o1 o2 = bool_decide (decoded o1 = decoded o2) /\
  dictEncObjHash seed o1 = Dict.dictGenHashFunction seed (decoded o1).
Proof.
  intros H1 H2. split; [|by destruct o1].
  assert (Hs : forall a b, dictSdsKeyCompare a b = bool_decide (a = b)).
  { intros a b. unfold dictSdsKeyCompare. destruct (Z.eqb_spec (zlen a) (zlen b)) as [|Hne]; [done|].
    cbn. symmetry. apply bool_decide_eq_false. congruence. }
  destruct o1 as [a|a], o2 as [b|b]; cbn; try apply Hs.
  destruct (Z.eqb_spec a b) as [->|Hne]; symmetry; [by apply bool_decide_eq_true|].
  apply bool_decide_eq_false. intros H. apply Hne. by apply ll2string_inj.
Qed.

Section SetType.
Context (hash_seed : Z).
(** server.set_max_intset_entries and dict_can_resize. *)
Context (set_max_intset_entries : Z) (dict_can_resize : bool).
(** The bytes behind a block that realloc enlarges. *)
Context (junk : nat -> Z).

Abbreviation dict := (Dict.dict (K := list Z) (V := unit)).
Definition hash (s : list Z) : Z := Dict.dictGenHashFunction hash_seed s.

(** ** setType* *)

Inductive setobj := HT (d : dict) | INTSET (iset : Intset.intset).

Definition setTypeCreate (value : robj) : setobj :=
  match isObjectRepresentableAsLongLong value with
  | Some _ => INTSET Intset.intsetNew
  | None => HT Dict.dictCreate
  end.

Inductive setTypeIterator := ItHT (di : Dict.dictIterator (K := list Z) (V := unit)) | ItIS (ii : Z).

Definition setTypeInitIterator (subject : setobj) : setTypeIterator :=
  match subject with HT _ => ItHT Dict.dictGetIterator | INTSET _ => ItIS 0 end.

(** The element is a decoded string or an integer; [None] inside is -1. *)
Definition setTypeNext (subject : setobj) (si : setTypeIterator) : option (option robj * setTypeIterator) :=
  match subject, si with
  | HT d, ItHT di =>
    r ← Dict.dictNext (Dict.max_buckets d) d di;
    Some (match fst r with Some de => Some (RRaw (Dict.key de)) | None => None end, ItHT (snd r))
  | INTSET iset, ItIS ii =>
    r ← Intset.intsetGet iset ii;
    Some (if fst r : bool then Some (RInt (snd r)) else None, ItIS (ii + 1))
  | _, _ => None
  end.

(** [while (setTypeNext(si,NULL,&intele) != -1) dictAdd(d, element)]; dictAdd must succeed. *)
Fixpoint convert_loop (fuel : nat) (subject : setobj) (si : setTypeIterator) (d : dict) : option dict :=
  match fuel with
  | O => None
  | S fuel =>
    r ← setTypeNext subject si;
    match fst r with
    | None => Some d
    | Some element =>
      a ← Dict.dictAdd hash dict_can_resize d (decoded element) tt;
      if snd a : bool then convert_loop fuel subject (snd r) (fst a) else None
    end
  end.

Definition setTypeConvert (setobj : setobj) : option SetType.setobj :=
  match setobj with
  | HT _ => None
  | INTSET iset =>
    let d := Dict.dictCreate in
    d ← Dict.dictExpand d (Intset.intsetLen iset);
    d ← convert_loop (S (Z.to_nat (Intset.intsetLen iset))) setobj (setTypeInitIterator setobj) (fst d);
    Some (HT d)
  end.

Definition setTypeAdd (subject : setobj) (value : robj) : option (setobj * bool) :=
  match subject with
  | HT d => r ← Dict.dictAdd hash dict_can_resize d (decoded value) tt; Some (HT (fst r), snd r)
  | INTSET iset =>
    match isObjectRepresentableAsLongLong value with
    | Some llval =>
      r ← Intset.intsetAdd junk iset llval;
      let '(iset, success) := r in
      if success : bool then
        if set_max_intset_entries <? Intset.intsetLen iset
        then s ← setTypeConvert (INTSET iset); Some (s, true)
        else Some (INTSET iset, true)
      else Some (INTSET iset, false)
    | None =>
      s ← setTypeConvert (INTSET iset);
      match s with
      | HT d =>
        r ← Dict.dictAdd hash dict_can_resize d (decoded value) tt;
        if snd r : bool then Some (HT (fst r), true) else None
      | INTSET _ => None
      end
    end
  end.

Definition REDIS_HT_MINFILL : Z := 10.

Definition htNeedsResize {V} (d : Dict.dict (K := list Z) (V := V)) : bool :=
  let size := Dict.dictSlots d in
  let used := Dict.dictSize d in
  negb (size =? 0) && negb (used =? 0) && (Dict.DICT_HT_INITIAL_SIZE <? size) &&
  (Z.quot (used * 100) size <? REDIS_HT_MINFILL).

Definition setTypeRemove (setobj : setobj) (value : robj) : option (SetType.setobj * bool) :=
  match setobj with
  | HT d =>
    r ← Dict.dictGenericDelete hash d (decoded value);
    let '(d, found) := r in
    match found with
    | Some _ =>
      if htNeedsResize d then r ← Dict.dictResize dict_can_resize d; Some (HT (fst r), true)
      else Some (HT d, true)
    | None => Some (HT d, false)
    end
  | INTSET iset =>
    match isObjectRepresentableAsLongLong value with
    | Some llval => r ← Intset.intsetRemove junk iset llval; Some (INTSET (fst r), snd r)
    | None => Some (INTSET iset, false)
    end
  end.

Definition setTypeIsMember (subject : setobj) (value : robj) : option (setobj * bool) :=
  match subject with
  | HT d =>
    r ← Dict.dictFind hash d (decoded value);
    Some (HT (fst r), match snd r with Some _ => true | None => false end)
  | INTSET iset =>
    match isObjectRepresentableAsLongLong value with
    | Some llval => b ← Intset.intsetFind iset llval; Some (INTSET iset, b)
    | None => Some (INTSET iset, false)
    end
  end.

(** The random numbers drawn are [rnd]. *)
Definition setTypeRandomElement (setobj : setobj) (rnd : list Z) : option (SetType.setobj * robj) :=
  match setobj with
  | HT d =>
    r ← Dict.dictGetRandomKey hash d rnd;
    de ← snd r;
    Some (HT (fst r), RRaw (Dict.key de))
  | INTSET iset => x ← list.head rnd; v ← Intset.intsetRandom x iset; Some (INTSET iset, RInt v)
  end.

Definition setTypeSize (subject : setobj) : Z :=
  match subject with HT d => Dict.dictSize d | INTSET iset => Intset.intsetLen iset end.

(** ** The commands *)

Context {T : Type}.    (* the objects of other types *)

Inductive value := VSet (s : setobj) | VOther (t : T).
Abbreviation keyspace := (gmap (list Z) value).

Inductive reply := ReplyInt (n : Z) | ReplyWrongType.

(** What a command leaves: the keyspace, the reply, the keys signalled as modified and what it
    adds to [server.dirty]. *)
Record outcome := mkOutcome { odb : keyspace; oreply : reply; otouched : list (list Z); odirty : Z }.

Definition unchanged (db : keyspace) (r : reply) : outcome := mkOutcome db r [] 0.

Fixpoint sadd_loop (set : setobj) (args : list robj) (added : Z) : option (setobj * Z) :=
  match args with
  | [] => Some (set, added)
  | v :: args =>
    let v := tryObjectEncoding v in
    r ← setTypeAdd set v;
    sadd_loop (fst r) args (if snd r : bool then added + 1 else added)
  end.

(** [args] are argv[2], argv[3], ...; there is at least one. *)
Definition saddCommand (db : keyspace) (key : list Z) (args : list robj) : option outcome :=
  value ← list.head args;
  match db !! key with
  | Some (VOther _) => Some (unchanged db ReplyWrongType)
  | o =>
    let set := match o with Some (VSet s) => s | _ => setTypeCreate value end in
    r ← sadd_loop set args 0;
    let '(set, added) := r in
    Some (mkOutcome (<[key := VSet set]> db) (ReplyInt added) (if added =? 0 then [] else [key]) added)
  end.

(** The loop ends when the set becomes empty; the boolean tells so. *)
Fixpoint srem_loop (set : setobj) (args : list robj) (deleted : Z) : option (setobj * Z * bool) :=
  match args with
  | [] => Some (set, deleted, false)
  | v :: args =>
    r ← setTypeRemove set v;
    let '(set, removed) := r in
    if removed : bool then
      if setTypeSize set =? 0 then Some (set, deleted + 1, true) else srem_loop set args (deleted + 1)
    else srem_loop set args deleted
  end.

Definition sremCommand (db : keyspace) (key : list Z) (args : list robj) : option outcome :=
  match db !! key with
  | None => Some (unchanged db (ReplyInt 0))
  | Some (VOther _) => Some (unchanged db ReplyWrongType)
  | Some (VSet set) =>
    r ← srem_loop set args 0;
    let '(set, deleted, empty) := r in
    let db := if empty : bool then delete key db else <[key := VSet set]> db in
    Some (mkOutcome db (ReplyInt deleted) (if deleted =? 0 then [] else [key]) deleted)
  end.

(** Two keys hold the same object exactly when they are equal. *)
Definition smoveCommand (db : keyspace) (src dst : list Z) (ele : robj) : option outcome :=
  let ele := tryObjectEncoding ele in
  match db !! src, db !! dst with
  | None, _ => Some (unchanged db (ReplyInt 0))
  | Some (VOther _), _ | _, Some (VOther _) => Some (unchanged db ReplyWrongType)
  | Some (VSet srcset), dstset =>
    if decide (src = dst) then Some (unchanged db (ReplyInt 1))
    else
      r ← setTypeRemove srcset ele;
      let '(srcset, removed) := r in
      let db := <[src := VSet srcset]> db in
      if negb removed then Some (unchanged db (ReplyInt 0))
      else
        let db := if setTypeSize srcset =? 0 then delete src db else db in
        let dstset := match dstset with Some (VSet s) => s | _ => setTypeCreate ele end in
        r ← setTypeAdd dstset ele;
        let '(dstset, added) := r in
        Some (mkOutcome (<[dst := VSet dstset]> db) (ReplyInt 1) [src; dst] (if added : bool then 2 else 1))
  end.

Definition sismemberCommand (db : keyspace) (key : list Z) (ele : robj) : option outcome :=
  match db !! key with
  | None => Some (unchanged db (ReplyInt 0))
  | Some (VOther _) => Some (unchanged db ReplyWrongType)
  | Some (VSet set) =>
    r ← setTypeIsMember set (tryObjectEncoding ele);
    Some (unchanged (<[key := VSet (fst r)]> db) (ReplyInt (if snd r : bool then 1 else 0)))
  end.

Definition scardCommand (db : keyspace) (key : list Z) : option outcome :=
  match db !! key with
  | None => Some (unchanged db (ReplyInt 0))
  | Some (VOther _) => Some (unchanged db ReplyWrongType)
  | Some (VSet set) => Some (unchanged db (ReplyInt (setTypeSize set)))
  end.

Inductive command :=
  | SADD (key : list Z) (args : list robj)
  | SREM (key : list Z) (args : list robj)
  | SMOVE (src dst : list Z) (ele : robj)
  | SISMEMBER (key : list Z) (ele : robj)
  | SCARD (key : list Z).

Definition call (db : keyspace) (c : command) : option outcome :=
  match c with
  | SADD key args => saddCommand db key args
  | SREM key args => sremCommand db key args
  | SMOVE src dst ele => smoveCommand db src dst ele
  | SISMEMBER key ele => sismemberCommand db key ele
  | SCARD key => scardCommand db key
  end.

Fixpoint call_all (db : keyspace) (cs : list command) : option (keyspace * list reply * list (list Z) * Z) :=
  match cs with
  | [] => Some (db, [], [], 0)
  | c :: cs =>
    o ← call db c;
    r ← call_all (odb o) cs;
    let '(db, rs, ks, n) := r in Some (db, oreply o :: rs, otouched o ++ ks, odirty o + n)
  end.

(** ** The set a set object represents *)

Abbreviation members := (gset (list Z)).

Definition set_ok (s : setobj) (m : members) : Prop :=
  match s with
  | HT d => Dict.refines hash d (gset_to_gmap tt m)
  | INTSET iset =>
    exists zs : gset Z, Intset.refines iset zs /\ (forall z, z ∈ zs -> in_int 64 z) /\
      m = set_map Util.ll2string_chars zs /\ Z.of_nat (size m) <= set_max_intset_entries
  end.

Context (seed_nonneg : 0 <= hash_seed) (max_ok : 0 <= set_max_intset_entries < 2 ^ 26).

Lemma hash_nonneg k : 0 <= hash k.
Proof.
  unfold hash, Dict.dictGenHashFunction. set (h := Dict.u32 _).
  assert (0 <= h) by (apply Z.mod_pos_bound; lia).
  apply Z.lxor_nonneg. split; [intros _; by apply Z.shiftr_nonneg|done].
Qed.

(** *** Dictionaries as sets *)

Lemma size_gset_to_gmap (m : members) : base.size (gset_to_gmap tt m) = size m.
Proof. by rewrite <- size_dom, dom_gset_to_gmap. Qed.

Lemma ht_lookup (m : members) k : gset_to_gmap tt m !! k = if decide (k ∈ m) then Some tt else None.
Proof.
  destruct (decide (k ∈ m)); [by apply lookup_gset_to_gmap_Some|by apply lookup_gset_to_gmap_None].
Qed.

Lemma ht_add d m k : Dict.refines hash d (gset_to_gmap tt m) -> Z.of_nat (size m) <= 2 ^ 28 ->
  exists d', Dict.dictAdd hash dict_can_resize d k tt = Some (d', bool_decide (k ∉ m)) /\
    Dict.refines hash d' (gset_to_gmap tt ({[k]} ∪ m)).
Proof.
  intros Hr Hsz. destruct (Dict.exec_refines hash hash_nonneg d _ (Dict.OAdd dict_can_resize k tt) Hr I) as (d' & He & Hr').
  { by rewrite size_gset_to_gmap. }
  cbn [Dict.exec Dict.spec] in *. rewrite ht_lookup in *. exists d'. split.
  - destruct (Dict.dictAdd _ _ _ _ _) as [[d1 b]|]; [|done]. cbn in He.
    destruct (decide (k ∈ m)); cbn in He; injection He as -> ->.
    + by rewrite bool_decide_false by tauto.
    + by rewrite bool_decide_true.
  - destruct (decide (k ∈ m)); cbn [fst] in Hr'.
    + by replace ({[k]} ∪ m) with m by set_solver.
    + by rewrite gset_to_gmap_union_singleton.
Qed.

Lemma ht_delete d m k : Dict.refines hash d (gset_to_gmap tt m) -> Z.of_nat (size m) <= 2 ^ 28 ->
  exists d' e, Dict.dictGenericDelete hash d k = Some (d', e) /\ bool_decide (is_Some e) = bool_decide (k ∈ m) /\
    Dict.refines hash d' (gset_to_gmap tt (m ∖ {[k]})).
Proof.
  intros Hr Hsz. destruct (Dict.exec_refines hash hash_nonneg d _ (Dict.ODelete k) Hr I) as (d' & He & Hr').
  { by rewrite size_gset_to_gmap. }
  cbn [Dict.exec Dict.spec] in *. rewrite ht_lookup in *.
  destruct (Dict.dictGenericDelete _ _ _) as [[d1 e]|]; [|done]. cbn in He. injection He as -> He. exists d', e.
  split; [done|]. cbn [fst] in Hr'. split.
  - apply bool_decide_ext. destruct (decide (k ∈ m)), e; cbn in He; try done; split; try done; by intros [].
  - by rewrite gset_to_gmap_difference_singleton.
Qed.

Lemma ht_find d m k : Dict.refines hash d (gset_to_gmap tt m) -> Z.of_nat (size m) <= 2 ^ 28 ->
  exists d' r, Dict.dictFind hash d k = Some (d', r) /\
    match r with Some _ => true | None => false end = bool_decide (k ∈ m) /\
    Dict.refines hash d' (gset_to_gmap tt m).
Proof.
  intros Hr Hsz. destruct (Dict.exec_refines hash hash_nonneg d _ (Dict.OFind k) Hr I) as (d' & He & Hr').
  { by rewrite size_gset_to_gmap. }
  cbn [Dict.exec Dict.spec] in *. rewrite ht_lookup in *. unfold Dict.dictFetchValue in He.
  destruct (Dict.dictFind _ _ _) as [[d1 r]|]; [|done]. cbn in He. injection He as -> He. exists d', r.
  split; [done|]. split; [|done]. destruct (decide (k ∈ m)).
  - rewrite bool_decide_true by done. by destruct r.
  - rewrite bool_decide_false by done. by destruct r as [[]|].
Qed.

(** *** Sizes *)

Lemma size_add_le {A} `{Countable A} (x : A) (X : gset A) : (size ({[x]} ∪ X) <= S (size X))%nat.
Proof.
  rewrite size_union_alt, size_singleton. pose proof (subseteq_size (X ∖ {[x]}) X ltac:(set_solver)). lia.
Qed.

Lemma size_add {A} `{Countable A} (x : A) (X : gset A) : x ∉ X -> size ({[x]} ∪ X) = S (size X).
Proof. intros Hx. rewrite size_union by set_solver. by rewrite size_singleton. Qed.

Lemma size_list_le (l : list (list Z)) : (size (list_to_set l : members) <= length l)%nat.
Proof.
  induction l as [|x l IH]; cbn; [by rewrite size_empty|]. etrans; [apply size_add_le|]. lia.
Qed.

(** *** Sets of integers *)

Lemma chars_size (zs : gset Z) : (forall z, z ∈ zs -> in_int 64 z) ->
  size (set_map Util.ll2string_chars zs : members) = size zs.
Proof.
  intros Hz. unfold set_map. rewrite size_list_to_set.
  - by rewrite length_fmap.
  - apply NoDup_fmap_2_strong; [|apply NoDup_elements]. intros x y Hx Hy. apply ll2string_inj; set_solver.
Qed.

Lemma representable v z : robj_ok v -> isObjectRepresentableAsLongLong v = Some z ->
  in_int 64 z /\ decoded v = Util.ll2string_chars z.
Proof.
  destruct v as [a|s]; cbn; [by intros H [= <-]|]. intros _ H. by apply Util.string2ll_canonical in H.
Qed.

Lemma not_representable v (zs : gset Z) : robj_ok v -> isObjectRepresentableAsLongLong v = None ->
  (forall z, z ∈ zs -> in_int 64 z) -> decoded v ∉ (set_map Util.ll2string_chars zs : members).
Proof.
  destruct v as [a|s]; cbn; [done|]. intros _ H Hz Hin. apply elem_of_map in Hin as (z & -> & Hin).
  rewrite Util.string2ll_ll2string in H by auto. done.
Qed.

Lemma chars_elem (zs : gset Z) z : in_int 64 z -> (forall x, x ∈ zs -> in_int 64 x) ->
  Util.ll2string_chars z ∈ (set_map Util.ll2string_chars zs : members) <-> z ∈ zs.
Proof.
  intros Hz Hzs. rewrite elem_of_map. split; [|eauto]. intros (x & Hx & Hin).
  apply ll2string_inj in Hx as ->; auto.
Qed.

(** *** setTypeConvert *)

Lemma convert_loop_ok iset xs : Intset.repr iset xs -> Forall (in_int 64) xs -> NoDup xs ->
  forall fuel pos d m, (length xs < fuel + pos)%nat -> (pos <= length xs)%nat ->
    Dict.refines hash d (gset_to_gmap tt m) ->
    m = list_to_set (Util.ll2string_chars <$> take pos xs) -> zlen xs <= 2 ^ 28 ->
  exists d', convert_loop fuel (INTSET iset) (ItIS (Z.of_nat pos)) d = Some d' /\
    Dict.refines hash d' (gset_to_gmap tt (list_to_set (Util.ll2string_chars <$> xs))).
Proof.
  intros Hr Hin Hnd. induction fuel as [|fuel IH]; intros pos d m Hf Hp Hd Hm Hlen; [lia|].
  cbn [convert_loop setTypeNext]. rewrite (Intset.get_correct iset xs) by (done || lia). rewrite Nat2Z.id.
  destruct (xs !! pos) as [x|] eqn:Hx; cbn [mbind option_bind fst snd].
  2:{ apply lookup_ge_None in Hx. rewrite take_ge in Hm by lia. exists d. by rewrite <- Hm. }
  pose proof (lookup_lt_Some _ _ _ Hx) as Hlt.
  assert (Hsize : (size m <= pos)%nat).
  { rewrite Hm. etrans; [apply size_list_le|]. rewrite length_fmap, length_take. lia. }
  destruct (ht_add d m (Util.ll2string_chars x) Hd) as (d1 & Ha & Hd1); [unfold zlen in Hlen; lia|].
  cbn [decoded]. rewrite Ha. cbn [mbind option_bind fst snd].
  assert (Hnin : Util.ll2string_chars x ∉ m).
  { rewrite Hm. rewrite elem_of_list_to_set, list_elem_of_fmap. intros (y & Hxy & Hy).
    rewrite Forall_forall in Hin. apply ll2string_inj in Hxy as <-.
    - apply elem_of_take in Hy as (j & Hj & Hjp). pose proof (NoDup_lookup _ _ _ _ Hnd Hx Hj). lia.
    - apply Hin, list_elem_of_In. by eapply list_elem_of_lookup_2.
    - apply Hin, list_elem_of_In. apply elem_of_take in Hy as (j & Hj & _). by eapply list_elem_of_lookup_2. }
  rewrite bool_decide_true by done. replace (Z.of_nat pos + 1) with (Z.of_nat (S pos)) by lia.
  eapply IH; [lia|lia|exact Hd1| |done].
  rewrite (take_S_r _ _ _ Hx), fmap_app, list_to_set_app_L, Hm. cbn. set_solver.
Qed.

Lemma refines_list iset zs : Intset.refines iset zs ->
  exists xs, Intset.repr iset xs /\ NoDup xs /\ (forall x, x ∈ xs <-> x ∈ zs).
Proof.
  intros (xs & Hr & Hx). exists xs. split; [done|]. split; [|done]. pose proof (Intset.repr_sorted _ _ Hr) as Hs.
  clear -Hs. induction Hs as [|x xs _ IH Hx]; constructor; [|done].
  rewrite Forall_forall in Hx. intros Hin%list_elem_of_In. apply Hx in Hin. lia.
Qed.

Lemma intset_size iset zs : Intset.refines iset zs -> Intset.intsetLen iset = Z.of_nat (size zs).
Proof.
  intros (xs & Hr & Hx). unfold Intset.intsetLen. rewrite (Intset.repr_len _ _ Hr).
  by apply (Intset.refines_size iset).
Qed.

Lemma dictCreate_empty : Dict.refines hash Dict.dictCreate (gset_to_gmap tt ∅).
Proof. rewrite gset_to_gmap_empty. apply Dict.dictCreate_refines, hash_nonneg. Qed.

Lemma setTypeConvert_ok iset (zs : gset Z) :
  Intset.refines iset zs -> (forall z, z ∈ zs -> in_int 64 z) -> Z.of_nat (size zs) < 2 ^ 27 ->
  exists d, setTypeConvert (INTSET iset) = Some (HT d) /\
    Dict.refines hash d (gset_to_gmap tt (set_map Util.ll2string_chars zs)).
Proof.
  intros Hr Hz Hsz. destruct (refines_list _ _ Hr) as (xs & Hrepr & Hnd & Hx).
  pose proof (intset_size _ _ Hr) as Hlen. cbn [setTypeConvert].
  assert (Hxs : zlen xs = Z.of_nat (size zs)) by (rewrite <- Hlen; symmetry; apply (Intset.repr_len _ _ Hrepr)).
  destruct (Dict.dictExpand_ok hash hash_nonneg Dict.dictCreate (Intset.intsetLen iset) (proj1 dictCreate_empty))
    as (d0 & ok & -> & Hw & Hs & _); [lia|]. cbn [mbind option_bind fst].
  pose proof (Dict.refines_perm hash _ _ _ dictCreate_empty Hw Hs) as Hd0.
  destruct (convert_loop_ok iset xs Hrepr) with (fuel := S (Z.to_nat (Intset.intsetLen iset))) (pos := 0%nat) (d := d0)
    (m := ∅ : members) as (d & Hc & Hd); try done.
  - apply Forall_forall. intros x Hin. apply Hz, Hx. by apply list_elem_of_In.
  - rewrite Hlen, <- Hxs. unfold zlen. lia.
  - lia.
  - lia.
  - cbn [setTypeInitIterator]. change (ItIS 0) with (ItIS (Z.of_nat 0)). rewrite Hc. cbn [mbind option_bind].
    exists d. split; [done|]. by replace (set_map Util.ll2string_chars zs : members)
      with (list_to_set (Util.ll2string_chars <$> xs) : members) by set_solver.
Qed.

(** ** The operations on sets *)

Lemma set_ok_size s m : set_ok s m -> setTypeSize s = Z.of_nat (size m).
Proof.
  destruct s as [d|iset]; cbn.
  - intros Hr. by rewrite (Dict.dict_refines_size _ _ _ Hr), size_gset_to_gmap.
  - intros (zs & Hr & Hz & -> & _). rewrite (intset_size _ _ Hr). by rewrite chars_size.
Qed.

Lemma setTypeCreate_ok v : set_ok (setTypeCreate v) ∅.
Proof.
  unfold setTypeCreate. destruct (isObjectRepresentableAsLongLong v); cbn.
  - exists ∅. split_and!; [apply Intset.refines_new|set_solver|by rewrite set_map_empty|rewrite size_empty; lia].
  - apply dictCreate_empty.
Qed.

Lemma setTypeAdd_ok s m v : set_ok s m -> robj_ok v -> Z.of_nat (size m) < 2 ^ 26 ->
  exists s', setTypeAdd s v = Some (s', bool_decide (decoded v ∉ m)) /\ set_ok s' ({[decoded v]} ∪ m).
Proof.
  intros Hs Hv Hsz. destruct s as [d|iset]; cbn [setTypeAdd set_ok] in *.
  { destruct (ht_add d m (decoded v) Hs) as (d' & -> & Hr); [lia|]. cbn. by exists (HT d'). }
  destruct Hs as (zs & Hr & Hz & Hm & Hmax). pose proof (chars_size zs Hz) as Hcs. rewrite <- Hm in Hcs.
  destruct (isObjectRepresentableAsLongLong v) as [z|] eqn:Hrep.
  - destruct (representable v z Hv Hrep) as [Hzr Hdec]. rewrite Hdec.
    destruct (Intset.refines_step iset zs (Intset.OpAdd junk z) Hr) as (iset' & He & Hr'); [lia|done|].
    cbn [Intset.exec_op Intset.spec_op fst snd] in He, Hr'. rewrite He. cbn [mbind option_bind].
    assert (Hb : bool_decide (z ∉ zs) = bool_decide (Util.ll2string_chars z ∉ m)).
    { apply bool_decide_ext. rewrite Hm. by rewrite chars_elem. }
    rewrite <- Hb. assert (Hz' : forall x, x ∈ {[z]} ∪ zs -> in_int 64 x) by set_solver.
    assert (Hm' : {[Util.ll2string_chars z]} ∪ m = set_map Util.ll2string_chars ({[z]} ∪ zs)).
    { rewrite set_map_union_L, set_map_singleton_L, Hm. done. }
    assert (Hsz' : (size ({[z]} ∪ zs) <= S (size zs))%nat).
    { apply size_add_le. }
    case_bool_decide as Hin.
    + rewrite (intset_size _ _ Hr'). destruct (Z.ltb_spec set_max_intset_entries (Z.of_nat (size ({[z]} ∪ zs)))) as [Hlt|Hge].
      * destruct (setTypeConvert_ok iset' _ Hr' Hz') as (d & -> & Hd); [lia|]. cbn. exists (HT d). by rewrite Hm'.
      * exists (INTSET iset'). split; [done|]. exists ({[z]} ∪ zs). split_and!; [done..|]. rewrite Hm', chars_size by done. lia.
    + exists (INTSET iset'). split; [done|]. exists ({[z]} ∪ zs). split_and!; [done..|].
      replace ({[Util.ll2string_chars z]} ∪ m) with m; [done|].
      assert (Util.ll2string_chars z ∈ m) by (rewrite Hm, chars_elem by done; by destruct (decide (z ∈ zs))). set_solver.
  - destruct (setTypeConvert_ok iset zs Hr Hz) as (d & -> & Hd); [lia|]. cbn [mbind option_bind]. rewrite <- Hm in Hd.
    destruct (ht_add d m (decoded v) Hd) as (d' & -> & Hr'); [lia|]. cbn [mbind option_bind fst snd].
    pose proof (not_representable v zs Hv Hrep Hz) as Hnin. rewrite <- Hm in Hnin.
    rewrite bool_decide_true by done. by exists (HT d').
Qed.

Lemma setTypeRemove_ok s m v : set_ok s m -> robj_ok v -> Z.of_nat (size m) < 2 ^ 27 ->
  exists s', setTypeRemove s v = Some (s', bool_decide (decoded v ∈ m)) /\ set_ok s' (m ∖ {[decoded v]}).
Proof.
  intros Hs Hv Hsz. destruct s as [d|iset]; cbn [setTypeRemove set_ok] in *.
  - destruct (ht_delete d m (decoded v) Hs) as (d' & e & -> & Hb & Hr); [lia|]. cbn [mbind option_bind]. rewrite <- Hb.
    destruct e as [e|]; [|by exists (HT d')]. rewrite bool_decide_true by done.
    destruct (htNeedsResize d'); [|by exists (HT d')].
    destruct (Dict.dictResize_ok hash hash_nonneg dict_can_resize d' (proj1 Hr)) as (d2 & ok & -> & Hw & Hse & _).
    { rewrite (Dict.dict_refines_size _ _ _ Hr), size_gset_to_gmap.
      pose proof (subseteq_size (m ∖ {[decoded v]}) m ltac:(set_solver)). lia. }
    cbn. exists (HT d2). split; [done|]. by eapply Dict.refines_perm.
  - destruct Hs as (zs & Hr & Hz & Hm & Hmax). pose proof (chars_size zs Hz) as Hcs. rewrite <- Hm in Hcs.
    destruct (isObjectRepresentableAsLongLong v) as [z|] eqn:Hrep.
    + destruct (representable v z Hv Hrep) as [Hzr Hdec]. rewrite Hdec.
      destruct (Intset.refines_step iset zs (Intset.OpRemove junk z) Hr) as (iset' & He & Hr'); [lia|done|].
      cbn [Intset.exec_op Intset.spec_op fst snd] in He, Hr'. rewrite He. cbn [mbind option_bind fst snd].
      exists (INTSET iset'). split.
      * do 2 f_equal. apply bool_decide_ext. rewrite Hm. by rewrite chars_elem.
      * exists (zs ∖ {[z]}). split_and!; [done|set_solver| |].
        -- rewrite Hm. apply set_eq. intros x. rewrite elem_of_difference, elem_of_singleton, !elem_of_map. split.
           ++ intros [(y & -> & Hy) Hne]. exists y. split; [done|]. set_solver.
           ++ intros (y & -> & Hy). split; [set_solver|]. intros Heq.
              apply ll2string_inj in Heq; [set_solver|apply Hz; set_solver|done].
        -- pose proof (subseteq_size (m ∖ {[Util.ll2string_chars z]}) m ltac:(set_solver)). lia.
    + pose proof (not_representable v zs Hv Hrep Hz) as Hnin. rewrite <- Hm in Hnin.
      exists (INTSET iset). rewrite bool_decide_false by done. split; [done|].
      replace (m ∖ {[decoded v]}) with m by set_solver. by exists zs.
Qed.

Lemma setTypeIsMember_ok s m v : set_ok s m -> robj_ok v -> Z.of_nat (size m) < 2 ^ 27 ->
  exists s', setTypeIsMember s v = Some (s', bool_decide (decoded v ∈ m)) /\ set_ok s' m.
Proof.
  intros Hs Hv Hsz. destruct s as [d|iset]; cbn [setTypeIsMember set_ok] in *.
  - destruct (ht_find d m (decoded v) Hs) as (d' & r & -> & <- & Hr); [lia|]. cbn. by exists (HT d').
  - pose proof Hs as (zs & Hr & Hz & Hm & Hmax). pose proof (chars_size zs Hz) as Hcs. rewrite <- Hm in Hcs.
    destruct (isObjectRepresentableAsLongLong v) as [z|] eqn:Hrep.
    + destruct (representable v z Hv Hrep) as [Hzr Hdec]. rewrite Hdec.
      destruct (Intset.refines_step iset zs (Intset.OpFind z) Hr) as (iset' & He & Hr'); [lia|done|].
      cbn [Intset.exec_op Intset.spec_op fst snd] in He, Hr'.
      destruct (Intset.intsetFind iset z) as [b|]; [|done]. cbn in He. injection He as <- ->. cbn.
      exists (INTSET iset). split; [|done]. do 2 f_equal. apply bool_decide_ext. rewrite Hm. by rewrite chars_elem.
    + pose proof (not_representable v zs Hv Hrep Hz) as Hnin. rewrite <- Hm in Hnin.
      exists (INTSET iset). rewrite bool_decide_false by done. by split.
Qed.

(** ** The keyspace as finite sets of strings *)

Inductive avalue := ASet (m : members) | AOther (t : T).
Abbreviation akeyspace := (gmap (list Z) avalue).

(** The replies and effects of the commands on sets of strings. *)
Record aoutcome := mkA { adb : akeyspace; areply : reply; atouched : list (list Z); adirty : Z }.
Definition asame (a : akeyspace) (r : reply) : aoutcome := mkA a r [] 0.

(** A set that is not empty is bound to its key, an empty one is removed. *)
Definition aput (key : list Z) (m : members) (a : akeyspace) : akeyspace :=
  if decide (m = ∅) then delete key a else <[key := ASet m]> a.

Definition args_set (args : list robj) : members := list_to_set (decoded <$> args).

Definition spec (a : akeyspace) (c : command) : aoutcome :=
  match c with
  | SADD key args =>
    match a !! key with
    | Some (AOther _) => asame a ReplyWrongType
    | o =>
      let m := match o with Some (ASet m) => m | _ => ∅ end in
      let n := Z.of_nat (size (args_set args ∖ m)) in
      mkA (<[key := ASet (args_set args ∪ m)]> a) (ReplyInt n) (if n =? 0 then [] else [key]) n
    end
  | SREM key args =>
    match a !! key with
    | None => asame a (ReplyInt 0)
    | Some (AOther _) => asame a ReplyWrongType
    | Some (ASet m) =>
      let n := Z.of_nat (size (args_set args ∩ m)) in
      mkA (aput key (m ∖ args_set args) a) (ReplyInt n) (if n =? 0 then [] else [key]) n
    end
  | SMOVE src dst ele =>
    let x := decoded ele in
    match a !! src, a !! dst with
    | None, _ => asame a (ReplyInt 0)
    | Some (AOther _), _ | _, Some (AOther _) => asame a ReplyWrongType
    | Some (ASet ms), o =>
      let md := match o with Some (ASet m) => m | _ => ∅ end in
      if decide (src = dst) then asame a (ReplyInt 1)
      else if decide (x ∈ ms) then
        mkA (<[dst := ASet ({[x]} ∪ md)]> (aput src (ms ∖ {[x]}) a)) (ReplyInt 1) [src; dst]
          (if decide (x ∈ md) then 1 else 2)
      else asame a (ReplyInt 0)
    end
  | SISMEMBER key ele =>
    match a !! key with
    | None => asame a (ReplyInt 0)
    | Some (AOther _) => asame a ReplyWrongType
    | Some (ASet m) => asame a (ReplyInt (if decide (decoded ele ∈ m) then 1 else 0))
    end
  | SCARD key =>
    match a !! key with
    | None => asame a (ReplyInt 0)
    | Some (AOther _) => asame a ReplyWrongType
    | Some (ASet m) => asame a (ReplyInt (Z.of_nat (size m)))
    end
  end.

Fixpoint spec_all (a : akeyspace) (cs : list command) : akeyspace * list reply * list (list Z) * Z :=
  match cs with
  | [] => (a, [], [], 0)
  | c :: cs =>
    let o := spec a c in
    let '(a, rs, ks, n) := spec_all (adb o) cs in (a, areply o :: rs, atouched o ++ ks, adirty o + n)
  end.

(** Corresponding values, and keyspaces: a set is never empty. *)
Definition vrel (v : option value) (av : option avalue) : Prop :=
  match v, av with
  | None, None => True
  | Some (VSet s), Some (ASet m) => set_ok s m /\ m <> ∅
  | Some (VOther t), Some (AOther t') => t = t'
  | _, _ => False
  end.

Definition rel (db : keyspace) (a : akeyspace) : Prop := forall k, vrel (db !! k) (a !! k).

(** Every set has fewer than [n] members. *)
Definition bounded (n : Z) (a : akeyspace) : Prop :=
  forall k m, a !! k = Some (ASet m) -> Z.of_nat (size m) <= n.

(** The arguments of a command that may be added to a set. *)
Definition weight (c : command) : Z :=
  match c with SADD _ args => zlen args | SMOVE _ _ _ => 1 | _ => 0 end.

(** The parsed arguments are string objects; SADD has at least one member. *)
Definition command_ok (c : command) : Prop :=
  match c with
  | SADD _ args => args <> [] /\ Forall robj_ok args
  | SREM _ args => Forall robj_ok args
  | SMOVE _ _ ele | SISMEMBER _ ele => robj_ok ele
  | SCARD _ => True
  end.

Lemma tryObjectEncoding_ok v : robj_ok v -> robj_ok (tryObjectEncoding v) /\ decoded (tryObjectEncoding v) = decoded v.
Proof.
  destruct v as [z|s]; cbn [tryObjectEncoding]; [done|]. intros _. destruct (21 <? zlen s); [done|].
  unfold string2l. destruct (Util.string2ll s) as [z|] eqn:E; [|done].
  destruct ((z <? LLONG_MIN) || (LLONG_MAX <? z)); [done|]. by apply Util.string2ll_canonical in E as [Hz ->].
Qed.

Lemma sadd_loop_ok args : forall s m added,
  set_ok s m -> Forall robj_ok args -> Z.of_nat (size m) + zlen args <= 2 ^ 26 ->
  exists s', sadd_loop s args added = Some (s', added + Z.of_nat (size (args_set args ∖ m))) /\
    set_ok s' (args_set args ∪ m).
Proof.
  induction args as [|v args IH]; intros s m added Hs Hok Hb; cbn [sadd_loop].
  { exists s. unfold args_set. cbn. replace (∅ ∖ m) with (∅ : members) by set_solver.
    replace (∅ ∪ m) with m by set_solver. rewrite size_empty. split; [|done]. do 2 f_equal. lia. }
  apply Forall_cons_1 in Hok as [Hv Hok]. rewrite zlen_cons in Hb. pose proof (zlen_nonneg args).
  destruct (tryObjectEncoding_ok v Hv) as [Hv' Hd].
  destruct (setTypeAdd_ok s m _ Hs Hv') as (s1 & -> & Hs1); [lia|]. cbn [mbind option_bind fst snd]. rewrite Hd in *.
  pose proof (size_add_le (decoded v) m).
  destruct (IH s1 _ (if bool_decide (decoded v ∉ m) then added + 1 else added) Hs1 Hok) as (s' & -> & Hs'); [lia|].
  exists s'. unfold args_set in *. cbn [fmap list_fmap list_to_set]. split.
  - do 2 f_equal. set (A := list_to_set (decoded <$> args) : members) in *. case_bool_decide as Hin.
    + replace (({[decoded v]} ∪ A) ∖ m) with ({[decoded v]} ∪ (A ∖ ({[decoded v]} ∪ m))).
      * rewrite (size_add (decoded v) (A ∖ ({[decoded v]} ∪ m))) by set_solver. lia.
      * apply set_eq. intros x. destruct (decide (x = decoded v)); set_solver.
    + do 3 f_equal. set_solver.
  - by replace ({[decoded v]} ∪ list_to_set (decoded <$> args) ∪ m) with
      (list_to_set (decoded <$> args) ∪ ({[decoded v]} ∪ m) : members) by set_solver.
Qed.

Lemma srem_loop_ok args : forall s m deleted,
  set_ok s m -> m <> ∅ -> Forall robj_ok args -> Z.of_nat (size m) <= 2 ^ 26 ->
  exists s', srem_loop s args deleted =
      Some (s', deleted + Z.of_nat (size (args_set args ∩ m)), bool_decide (m ∖ args_set args = ∅)) /\
    set_ok s' (m ∖ args_set args).
Proof.
  induction args as [|v args IH]; intros s m deleted Hs Hne Hok Hb; cbn [srem_loop].
  { exists s. unfold args_set. cbn. replace (∅ ∩ m) with (∅ : members) by set_solver.
    replace (m ∖ ∅) with m by set_solver. rewrite size_empty, bool_decide_false by done. split; [|done]. do 3 f_equal. lia. }
  apply Forall_cons_1 in Hok as [Hv Hok].
  destruct (setTypeRemove_ok s m v Hs Hv) as (s1 & -> & Hs1); [lia|]. cbn [mbind option_bind].
  unfold args_set in *. cbn [fmap list_fmap list_to_set]. set (A := list_to_set (decoded <$> args) : members) in *.
  pose proof (subseteq_size (m ∖ {[decoded v]}) m ltac:(set_solver)) as Hsub.
  replace (m ∖ ({[decoded v]} ∪ A)) with (m ∖ {[decoded v]} ∖ A) by set_solver.
  case_bool_decide as Hin.
  - assert (Hsz : size (({[decoded v]} ∪ A) ∩ m) = S (size (A ∩ (m ∖ {[decoded v]})))).
    { replace (({[decoded v]} ∪ A) ∩ m) with ({[decoded v]} ∪ (A ∩ (m ∖ {[decoded v]}))).
      - rewrite (size_add (decoded v) (A ∩ (m ∖ {[decoded v]}))) by set_solver. done.
      - apply set_eq. intros x. destruct (decide (x = decoded v)); set_solver. }
    rewrite Hsz. rewrite (set_ok_size _ _ Hs1). destruct (Z.eqb_spec (Z.of_nat (size (m ∖ {[decoded v]}))) 0) as [Hz|Hz].
    + assert (He : m ∖ {[decoded v]} = ∅) by (apply leibniz_equiv, size_empty_iff; lia).
      exists s1. rewrite He in *. replace (A ∩ ∅) with (∅ : members) by set_solver.
      replace (∅ ∖ A) with (∅ : members) by set_solver. rewrite size_empty, bool_decide_true by done.
      split; [|done]. do 3 f_equal.
    + destruct (IH s1 _ (deleted + 1) Hs1) as (s' & -> & Hs'); [|done|lia|].
      * intros He. rewrite He, size_empty in Hz. lia.
      * exists s'. split; [|done]. do 3 f_equal. lia.
  - replace (m ∖ {[decoded v]}) with m in * by set_solver.
    replace (({[decoded v]} ∪ A) ∩ m) with (A ∩ m) by set_solver. by apply IH.
Qed.

(** ** The commands refine their specification *)

Lemma rel_insert db a key s m : rel db a -> set_ok s m -> m <> ∅ -> rel (<[key := VSet s]> db) (<[key := ASet m]> a).
Proof.
  intros Hr Hs Hne k. destruct (decide (k = key)) as [->|Hk].
  - by rewrite !lookup_insert_eq.
  - by rewrite !lookup_insert_ne.
Qed.

Lemma rel_delete db a key : rel db a -> rel (delete key db) (delete key a).
Proof.
  intros Hr k. destruct (decide (k = key)) as [->|Hk].
  - by rewrite !lookup_delete_eq.
  - by rewrite !lookup_delete_ne.
Qed.

(** A set that is put back, or deleted when it has become empty. *)
Lemma rel_aput db a key s m : rel db a -> set_ok s m ->
  rel (if bool_decide (m = ∅) then delete key db else <[key := VSet s]> db) (aput key m a).
Proof.
  intros Hr Hs. unfold aput. case_bool_decide as Hm.
  - rewrite decide_True by done. by apply rel_delete.
  - rewrite decide_False by done. by apply rel_insert.
Qed.

Lemma rel_same db a key s m : rel db a -> a !! key = Some (ASet m) -> set_ok s m ->
  rel (<[key := VSet s]> db) a.
Proof.
  intros Hr Ha Hs. rewrite <- (insert_id a key (ASet m)) by done. apply rel_insert; [done|done|].
  specialize (Hr key). rewrite Ha in Hr. destruct (db !! key) as [[]|]; [by destruct Hr|done|done].
Qed.

Definition answers (o : outcome) (x : aoutcome) : Prop :=
  rel (odb o) (adb x) /\ oreply o = areply x /\ otouched o = atouched x /\ odirty o = adirty x.

Lemma size_zero_empty (m : members) : (Z.of_nat (size m) =? 0) = bool_decide (m = ∅).
Proof.
  destruct (Z.eqb_spec (Z.of_nat (size m)) 0) as [Hz|Hz]; symmetry.
  - apply bool_decide_eq_true, leibniz_equiv, size_empty_iff. lia.
  - apply bool_decide_eq_false. intros ->. by rewrite size_empty in Hz.
Qed.

Lemma sadd_ok db a key args : rel db a -> command_ok (SADD key args) ->
  (forall m, a !! key = Some (ASet m) -> Z.of_nat (size m) + zlen args <= 2 ^ 26) -> zlen args <= 2 ^ 26 ->
  exists o, saddCommand db key args = Some o /\ answers o (spec a (SADD key args)).
Proof.
  intros Hr [Hne Hok] Hb Hb0. specialize (Hr key) as Hk. unfold saddCommand. cbn [spec].
  destruct args as [|v0 args0] eqn:Hargs; [done|]. rewrite <- Hargs in *. replace (list.head args) with (Some v0) by (by subst).
  cbn [mbind option_bind].
  assert (Hgo : forall set m, set_ok set m -> Z.of_nat (size m) + zlen args <= 2 ^ 26 ->
    exists o, (r ← sadd_loop set args 0; let '(set, added) := r in
       Some (mkOutcome (<[key := VSet set]> db) (ReplyInt added) (if added =? 0 then [] else [key]) added)) = Some o /\
      answers o (mkA (<[key := ASet (args_set args ∪ m)]> a) (ReplyInt (Z.of_nat (size (args_set args ∖ m))))
        (if Z.of_nat (size (args_set args ∖ m)) =? 0 then [] else [key]) (Z.of_nat (size (args_set args ∖ m))))).
  { intros set m Hs Hm. destruct (sadd_loop_ok args set m 0 Hs Hok Hm) as (s' & -> & Hs'). cbn [mbind option_bind].
    eexists. split; [done|]. rewrite Z.add_0_l. split; [|done]. apply rel_insert; [done|done|].
    subst args. unfold args_set. cbn. set_solver. }
  destruct (db !! key) as [[set|t]|], (a !! key) as [[m|t']|]; try done.
  - apply Hgo; [apply Hk|]. by apply Hb.
  - eexists. split; [done|]. by split.
  - apply Hgo; [apply setTypeCreate_ok|]. rewrite size_empty. lia.
Qed.

Lemma srem_ok db a key args : rel db a -> command_ok (SREM key args) ->
  (forall m, a !! key = Some (ASet m) -> Z.of_nat (size m) <= 2 ^ 26) ->
  exists o, sremCommand db key args = Some o /\ answers o (spec a (SREM key args)).
Proof.
  intros Hr Hok Hb. specialize (Hr key) as Hk. unfold sremCommand. cbn [spec].
  destruct (db !! key) as [[set|t]|], (a !! key) as [[m|t']|]; try done; try (eexists; split; [done|]; by split).
  destruct Hk as [Hs Hne]. destruct (srem_loop_ok args set m 0 Hs Hne Hok) as (s' & -> & Hs'); [by apply Hb|].
  cbn [mbind option_bind]. eexists. split; [done|]. rewrite Z.add_0_l. split; [|done]. by apply rel_aput.
Qed.

Lemma smove_ok db a src dst ele : rel db a -> robj_ok ele ->
  (forall key m, a !! key = Some (ASet m) -> Z.of_nat (size m) < 2 ^ 26) ->
  exists o, smoveCommand db src dst ele = Some o /\ answers o (spec a (SMOVE src dst ele)).
Proof.
  intros Hr Hv Hb. destruct (tryObjectEncoding_ok ele Hv) as [Hv' Hd]. unfold smoveCommand. cbn [spec]. rewrite <- Hd.
  set (v := tryObjectEncoding ele) in *. clearbody v. clear Hd Hv ele.
  pose proof (Hr src) as Hsrc. pose proof (Hr dst) as Hdst.
  destruct (db !! src) as [[srcset|t]|] eqn:Es, (a !! src) as [[ms|t']|] eqn:Eas; try done;
    try (eexists; split; [done|]; by split).
  destruct Hsrc as [Hs Hne]. pose proof (Hb _ _ Eas) as Hbs.
  destruct (setTypeRemove_ok srcset ms v Hs Hv') as (s1 & Hrm & Hs1); [lia|].
  assert (Hgo : forall dset md, set_ok dset md -> Z.of_nat (size md) < 2 ^ 26 -> src <> dst ->
    exists o, (r ← setTypeRemove srcset v;
       let '(srcset, removed) := r in
       let db := <[src := VSet srcset]> db in
       if negb removed then Some (unchanged db (ReplyInt 0))
       else
         let db := if setTypeSize srcset =? 0 then delete src db else db in
         r ← setTypeAdd dset v;
         let '(dstset, added) := r in
         Some (mkOutcome (<[dst := VSet dstset]> db) (ReplyInt 1) [src; dst] (if added : bool then 2 else 1))) = Some o /\
      answers o (if decide (decoded v ∈ ms) then
        mkA (<[dst := ASet ({[decoded v]} ∪ md)]> (aput src (ms ∖ {[decoded v]}) a)) (ReplyInt 1) [src; dst]
          (if decide (decoded v ∈ md) then 1 else 2)
      else asame a (ReplyInt 0))).
  { intros dset md Hdset Hmd Hsd. rewrite Hrm. cbn [mbind option_bind].
    case_bool_decide as Hin; cbn [negb].
    - rewrite decide_True by done. destruct (setTypeAdd_ok dset md v Hdset Hv' Hmd) as (s2 & -> & Hs2).
      cbn [mbind option_bind]. eexists. split; [done|]. split; [|split; [done|split; [done|]]].
      + cbn [odb adb]. apply rel_insert; [|done|set_solver]. rewrite (set_ok_size _ _ Hs1), size_zero_empty.
        replace (if bool_decide (ms ∖ {[decoded v]} = ∅) then delete src (<[src:=VSet s1]> db) else <[src:=VSet s1]> db)
          with (if bool_decide (ms ∖ {[decoded v]} = ∅) then delete src db else <[src:=VSet s1]> db);
          [by apply rel_aput|]. case_bool_decide; [by rewrite delete_insert_eq|done].
      + cbn [odirty adirty]. destruct (decide (decoded v ∈ md)); [by rewrite bool_decide_false by tauto|by rewrite bool_decide_true].
    - rewrite decide_False by done. eexists. split; [done|]. split; [|done]. cbn [odb adb unchanged asame].
      replace (ms ∖ {[decoded v]}) with ms in Hs1 by set_solver. by eapply rel_same. }
  destruct (db !! dst) as [[dset|t]|] eqn:Ed, (a !! dst) as [[md|t']|] eqn:Ead; try done;
    try (eexists; split; [done|]; by split).
  - destruct (decide (src = dst)) as [Heq|Hsd]; [eexists; split; [done|]; by split|].
    apply (Hgo dset md); [apply Hdst|by eapply Hb|done].
  - destruct (decide (src = dst)) as [Heq|Hsd]; [eexists; split; [done|]; by split|].
    assert (Hb0 : Z.of_nat (size (∅ : members)) < 2 ^ 26) by (rewrite size_empty; lia).
    exact (Hgo (setTypeCreate v) ∅ (setTypeCreate_ok v) Hb0 Hsd).
Qed.

Lemma call_ok db a c : rel db a -> command_ok c -> bounded (2 ^ 26 - weight c) a -> weight c <= 2 ^ 26 ->
  exists o, call db c = Some o /\ answers o (spec a c).
Proof.
  intros Hr Hok Hb Hw. destruct c as [key args|key args|src dst ele|key ele|key]; cbn [call weight] in *.
  - apply sadd_ok; [done|done| |done]. intros m Hm. specialize (Hb _ _ Hm). lia.
  - apply srem_ok; [done|done|]. intros m Hm. specialize (Hb _ _ Hm). lia.
  - apply smove_ok; [done|done|]. intros k m Hm. specialize (Hb _ _ Hm). lia.
  - specialize (Hr key) as Hk. unfold sismemberCommand. cbn [spec].
    destruct (db !! key) as [[set|t]|], (a !! key) as [[m|t']|] eqn:Ea; try done; try (eexists; split; [done|]; by split).
    destruct Hk as [Hs Hne]. destruct (tryObjectEncoding_ok ele Hok) as [Hv' Hd]. specialize (Hb _ _ Ea).
    destruct (setTypeIsMember_ok set m _ Hs Hv') as (s' & -> & Hs'); [lia|]. cbn [mbind option_bind fst snd].
    eexists. split; [done|]. split; [by eapply rel_same|]. cbn. rewrite Hd. split_and!; [|done|done].
    by destruct (decide (decoded ele ∈ m)); [rewrite bool_decide_true|rewrite bool_decide_false].
  - specialize (Hr key) as Hk. unfold scardCommand. cbn [spec].
    destruct (db !! key) as [[set|t]|], (a !! key) as [[m|t']|] eqn:Ea; try done; try (eexists; split; [done|]; by split).
    destruct Hk as [Hs Hne]. eexists. split; [done|]. split; [done|]. cbn. by rewrite (set_ok_size _ _ Hs).
Qed.

Lemma bounded_aput n a key m : bounded n a -> Z.of_nat (size m) <= n -> bounded n (aput key m a).
Proof.
  intros Ha Hm k m'. unfold aput. case_decide.
  - rewrite lookup_delete_Some. intros [_ H']. by eapply Ha.
  - rewrite lookup_insert_Some. intros [[_ [= <-]]|[_ H']]; [done|by eapply Ha].
Qed.

Lemma bounded_insert n a key m : bounded n a -> Z.of_nat (size m) <= n -> bounded n (<[key := ASet m]> a).
Proof.
  intros Ha Hm k m'. rewrite lookup_insert_Some. intros [[_ [= <-]]|[_ H']]; [done|by eapply Ha].
Qed.

Lemma bounded_mono n n' a : bounded n a -> n <= n' -> bounded n' a.
Proof. intros Ha Hn k m Hk. specialize (Ha _ _ Hk). lia. Qed.

Lemma args_size args : Z.of_nat (size (args_set args)) <= zlen args.
Proof. unfold args_set, zlen. pose proof (size_list_le (decoded <$> args)). rewrite length_fmap in *. lia. Qed.

Lemma size_union_le (X Y : members) : (size (X ∪ Y) <= size X + size Y)%nat.
Proof. rewrite size_union_alt. pose proof (subseteq_size (Y ∖ X) Y ltac:(set_solver)). lia. Qed.

Lemma spec_bounded n a c : bounded n a -> 0 <= n -> bounded (n + weight c) (adb (spec a c)).
Proof.
  intros Ha Hn. assert (Hw : 0 <= weight c) by (destruct c; cbn; try lia; apply zlen_nonneg).
  assert (Hsame : bounded (n + weight c) a) by (apply (bounded_mono n); [done|lia]).
  assert (Hsub : forall X Y : members, Z.of_nat (size (X ∖ Y)) <= Z.of_nat (size X))
    by (intros X Y; pose proof (subseteq_size (X ∖ Y) X ltac:(set_solver)); lia).
  destruct c as [key args|key args|src dst ele|key ele|key]; cbn [spec weight] in *.
  - pose proof (args_size args).
    destruct (a !! key) as [[m|t]|] eqn:E; [|done|].
    + cbn. apply bounded_insert; [done|]. pose proof (size_union_le (args_set args) m). specialize (Ha _ _ E). lia.
    + cbn. apply bounded_insert; [done|]. pose proof (size_union_le (args_set args) ∅). rewrite size_empty in *. lia.
  - destruct (a !! key) as [[m|t]|] eqn:E; [|done|done]. cbn. apply bounded_aput; [done|].
    specialize (Ha _ _ E). specialize (Hsub m (args_set args)). lia.
  - destruct (a !! src) as [[ms|t]|] eqn:Es; [| |done]; destruct (a !! dst) as [[md|t']|] eqn:Ed; try done;
      (destruct (decide (src = dst)); [done|]); (destruct (decide (decoded ele ∈ ms)); [|done]); cbn;
      (apply bounded_insert; [apply bounded_aput; [done|specialize (Ha _ _ Es); specialize (Hsub ms {[decoded ele]}); lia]|]).
    + pose proof (size_add_le (decoded ele) md). specialize (Ha _ _ Ed). lia.
    + pose proof (size_add_le (decoded ele) (∅ : members)). rewrite size_empty in *. lia.
  - destruct (a !! key) as [[m|t]|]; done.
  - destruct (a !! key) as [[m|t]|]; done.
Qed.

Definition total_weight (cs : list command) : Z := foldr (fun c n => weight c + n) 0 cs.

Lemma weight_nonneg c : 0 <= weight c.
Proof. destruct c; cbn; try lia. apply zlen_nonneg. Qed.

Lemma total_weight_nonneg cs : 0 <= total_weight cs.
Proof.
  unfold total_weight. induction cs as [|c cs IH]; cbn [foldr]; [lia|]. pose proof (weight_nonneg c). lia.
Qed.

Lemma call_all_ok cs : forall db a n, rel db a -> Forall command_ok cs -> bounded n a -> 0 <= n ->
  n + total_weight cs <= 2 ^ 26 ->
  exists db', call_all db cs = Some (db', snd (fst (fst (spec_all a cs))), snd (fst (spec_all a cs)), snd (spec_all a cs)) /\
    rel db' (fst (fst (fst (spec_all a cs)))).
Proof.
  induction cs as [|c cs IH]; intros db a n Hr Hok Hb Hn Hw; cbn [call_all spec_all]; [by exists db|].
  apply Forall_cons_1 in Hok as [Hc Hok]. cbn [total_weight foldr] in Hw. fold (total_weight cs) in Hw.
  pose proof (total_weight_nonneg cs). pose proof (weight_nonneg c).
  destruct (call_ok db a c Hr Hc) as (o & -> & Hr' & Ho & Ht & Hd); [apply (bounded_mono n); [done|lia]|lia|].
  cbn [mbind option_bind].
  destruct (IH (odb o) _ (n + weight c) Hr' Hok (spec_bounded _ _ _ Hb Hn)) as (db' & -> & Hrel); [lia|lia|].
  destruct (spec_all (adb (spec a c)) cs) as [[[a' rs] ks] d]. cbn [mbind option_bind fst snd] in *.
  rewrite Ho, Ht, Hd. by exists db'.
Qed.

(** A keyspace that holds only objects of other types. *)
Definition others_db (m : gmap (list Z) T) : keyspace := VOther <$> m.
Definition others_a (m : gmap (list Z) T) : akeyspace := AOther <$> m.

Lemma rel_others m : rel (others_db m) (others_a m).
Proof. intros k. unfold others_db, others_a. rewrite !lookup_fmap. by destruct (m !! k). Qed.

Lemma bounded_others m : bounded 0 (others_a m).
Proof. intros k x. unfold others_a. rewrite lookup_fmap. by destruct (m !! k). Qed.

(** C24: any sequence of SADD, SREM, SMOVE, SISMEMBER and SCARD on a keyspace without sets replies,
    signals keys and counts changes as the same sequence on finite sets of strings, whatever the
    encodings the sets take on the way (intset or hash table, rehashing or not), and runs
    without a failing assert or an access out of bounds. *)
Theorem set_commands_refine (m0 : gmap (list Z) T) (cs : list command) :
  Forall command_ok cs -> total_weight cs <= 2 ^ 26 ->
  exists db a, call_all (others_db m0) cs = Some (db, snd (fst (fst (spec_all (others_a m0) cs))), snd (fst (spec_all (others_a m0) cs)), snd (spec_all (others_a m0) cs)) /\
    a = fst (fst (fst (spec_all (others_a m0) cs))) /\
    forall key, match db !! key with
      | Some (VSet s) => exists m, a !! key = Some (ASet m) /\ setTypeSize s = Z.of_nat (size m) /\
          forall v, robj_ok v -> snd <$> setTypeIsMember s v = Some (bool_decide (decoded v ∈ m))
      | Some (VOther t) => a !! key = Some (AOther t)
      | None => a !! key = None
      end.
Proof.
  intros Hok Hw. destruct (call_all_ok cs _ _ 0 (rel_others m0) Hok (bounded_others m0)) as (db & Hc & Hr); [lia|lia|].
  assert (Hbd : forall cs' n (a : akeyspace), bounded n a -> 0 <= n -> bounded (n + total_weight cs') (fst (fst (fst (spec_all a cs'))))).
  { induction cs' as [|c cs' IH]; intros n a Ha Hn; cbn [spec_all total_weight foldr]; [by replace (n + 0) with n by lia|].
    pose proof (IH (n + weight c) _ (spec_bounded _ _ c Ha Hn) ltac:(pose proof (weight_nonneg c); lia)) as IH'.
    destruct (spec_all (adb (spec a c)) cs') as [[[a' rs] ks] d]. cbn [fst] in *.
    fold (total_weight cs'). by rewrite Z.add_assoc. }
  specialize (Hbd cs 0 _ (bounded_others m0) ltac:(lia)).
  exists db, (fst (fst (fst (spec_all (others_a m0) cs)))). split; [done|]. split; [done|]. intros key. specialize (Hr key).
  destruct (db !! key) as [[s|t]|], (_ !! key) as [[m|t']|] eqn:Ea; try done; [|by rewrite Hr].
  destruct Hr as [Hs _]. exists m. split; [done|]. split; [by apply set_ok_size|]. intros v Hv.
  specialize (Hbd _ _ Ea). destruct (setTypeIsMember_ok s m v Hs Hv) as (s' & -> & _); [lia|done].
Qed.

(** The representation of a set object is sound for its encoding. *)
Definition typed (s : setobj) : Prop :=
  match s with
  | HT d => Dict.wf hash d /\ 0 < Dict.dictSize d
  | INTSET iset => exists xs, Intset.repr iset xs /\ 0 < zlen xs <= set_max_intset_entries
  end.

(** C25: the typing discipline of the keyspace.  After any sequence of set commands every set is
    non-empty and in one of its two encodings: a sorted intset in one valid integer width with
    at most [set_max_intset_entries] elements, or a well-formed hash table; a command on a key of
    another type replies WRONGTYPE and leaves the keyspace, the signals and the dirty counter as
    they were. *)
Theorem set_encodings_typed (m0 : gmap (list Z) T) (cs : list command) (t : T) (key : list Z) (args : list robj) :
  Forall command_ok cs -> total_weight cs <= 2 ^ 26 -> args <> [] ->
  exists db rs ks n, call_all (others_db m0) cs = Some (db, rs, ks, n) /\
    (forall k s, db !! k = Some (VSet s) -> typed s) /\
    (db !! key = Some (VOther t) ->
       forall c, c ∈ [SADD key args; SREM key args; SISMEMBER key (RInt 0); SCARD key] ->
         call db c = Some (unchanged db ReplyWrongType)).
Proof.
  intros Hok Hw Hne. destruct (call_all_ok cs _ _ 0 (rel_others m0) Hok (bounded_others m0)) as (db & Hc & Hr); [lia|lia|].
  eexists _, _, _, _. split; [exact Hc|]. split.
  - intros k s Hk. specialize (Hr k). rewrite Hk in Hr.
    destruct (_ !! k) as [[m|t']|]; [|done|done]. destruct Hr as [Hs Hm].
    assert (Hpos : 0 < Z.of_nat (size m)).
    { destruct (decide (size m = 0%nat)) as [Hz|Hz]; [|lia]. destruct Hm. by apply leibniz_equiv, size_empty_iff. }
    pose proof (set_ok_size _ _ Hs) as Hsz. destruct s as [d|iset]; cbn in *.
    + split; [apply Hs|lia].
    + destruct Hs as (zs & (xs & Hx & Hxs) & _ & _ & Hmax). exists xs. split; [done|].
      unfold Intset.intsetLen in Hsz. rewrite (Intset.repr_len _ _ Hx) in Hsz. lia.
  - intros Hk c Hin. assert (Hhd : exists v, list.head args = Some v) by (destruct args; [done|by eexists]).
    destruct Hhd as [v Hv].
    repeat (apply elem_of_cons in Hin as [->|Hin]; [cbn [call]; unfold saddCommand, sremCommand, sismemberCommand, scardCommand;
      rewrite ?Hv; cbn [mbind option_bind]; by rewrite Hk|]). set_solver.
Qed.

End SetType.

(** ** Evaluations *)

Definition demo_others : gmap (list Z) unit := {[ str "k" := tt ]}.

Definition demo_commands : list command :=
  [SADD (str "s") [RRaw (str "3"); RRaw (str "1"); RInt 3]; SADD (str "s") [RRaw (str "-70000")];
   SADD (str "s") [RRaw (str "7")];                          (* more than three: a hash table *)
   SADD (str "u") [RRaw (str "12")]; SMOVE (str "s") (str "u") (RRaw (str "7"));
   SADD (str "u") [RRaw (str "x")]; SISMEMBER (str "u") (RInt 7); SREM (str "s") [RRaw (str "1"); RRaw (str "01")];
   SADD (str "k") [RRaw (str "1")]; SCARD (str "s"); SREM (str "s") [RInt 3; RInt (-70000); RInt 5]; SCARD (str "s")].

Definition demo_junk : nat -> Z := fun _ => 255.

Lemma demo_commands_ok : Forall command_ok demo_commands /\ total_weight demo_commands <= 2 ^ 26.
Proof.
  split; [|vm_compute; congruence].
  repeat constructor; try done; vm_compute; congruence.
Qed.

Lemma set_commands_refine_witness :
  exists db, call_all 5381 3 true demo_junk (others_db demo_others) demo_commands =
    Some (db, [ReplyInt 2; ReplyInt 1; ReplyInt 1; ReplyInt 1; ReplyInt 1; ReplyInt 1; ReplyInt 1; ReplyInt 1;
               ReplyWrongType; ReplyInt 2; ReplyInt 2; ReplyInt 0],
          [str "s"; str "s"; str "s"; str "u"; str "s"; str "u"; str "u"; str "s"; str "s"], 11).
Proof.
  destruct (set_commands_refine 5381 3 true demo_junk ltac:(lia) ltac:(lia) demo_others demo_commands
    (proj1 demo_commands_ok) (proj2 demo_commands_ok)) as (db & a & H & _).
  exists db. rewrite H. vm_compute. reflexivity.
Defined.

Lemma set_encodings_typed_witness :
  exists db rs ks n, call_all 5381 3 true demo_junk (others_db demo_others) demo_commands = Some (db, rs, ks, n) /\
    forall k s, db !! k = Some (VSet s) -> typed 5381 3 s.
Proof.
  destruct (set_encodings_typed 5381 3 true demo_junk ltac:(lia) ltac:(lia) demo_others demo_commands tt (str "k")
    [RInt 1] (proj1 demo_commands_ok) (proj2 demo_commands_ok) ltac:(congruence)) as (db & rs & ks & n & H & Ht & _).
  exists db, rs, ks, n. split; [exact H|exact Ht].
Defined.

(** SMOVE from a set to itself replies 1 also when the element is not in the set. *)
Theorem smove_same_key_absent :
  (o ← saddCommand 5381 3 true demo_junk (others_db demo_others) (str "s") [RRaw (str "1")];
   oreply <$> smoveCommand 5381 3 true demo_junk (odb o) (str "s") (str "s") (RRaw (str "2"))) = Some (ReplyInt 1).
Proof. vm_compute. reflexivity. Qed.

End SetType.
