(* ===== verification/HashType.v ===== *)
(** * t_hash.c: hashes of strings with two encodings, and the hash commands

    Model of [src/debug/redis/src/t_hash.c] with the functions of object.c it relies on.  A hash
    object is a [Ziplist] of fields and values in turn, or a [Dict] from decoded fields to string
    objects ([SetType.enc_obj_decoded]: the dictionary sees the decoded fields only).  A command
    is a function from the keyspace to the keyspace, its reply, the keys it signals as modified
    and its contribution to [server.dirty]; [None] is a failing assert or an access out of bounds.
    HINCRBYFLOAT computes with long doubles, which are a parameter.

    [hash_commands_refine]: every sequence of commands gives the replies of the same commands on
    finite maps, whatever the encodings; [hash_encodings_typed] is the typing discipline of the
    encodings. *)

From Stdlib Require Import ZArith Lia.
From stdpp Require Import prelude list gmap strings numbers.
From S2P Require Import Prelude.
From S2P Require Import Util.
From S2P Require Import Dict.
From S2P Require Import Ziplist.
From S2P Require Import SetType.

Local Open Scope Z_scope.

Module HashType.

Import SetType(robj(..), robj, decoded, robj_ok, tryObjectEncoding).

(** ** Numbers in string objects *)

Definition isspace (c : Z) : bool := (c =? 32) || ((9 <=? c) && (c <=? 13)).

(** The character at the start of a C string of which the bytes up to the NUL behind them are
    given. *)
Definition char (s : list Z) : Z := match s with c :: _ => c | [] => 0 end.

(** The digits that strtoll reads: the number, the rest and whether there is a digit. *)
Fixpoint strtoll_digits (s : list Z) (v : Z) (any : bool) : Z * list Z * bool :=
  match s with
  | c :: q => if Util.is_digit c then strtoll_digits q (v * 10 + (c - Util.cZERO)) true else (v, s, any)
  | [] => (v, [], any)
  end.

Fixpoint skip_spaces (s : list Z) : list Z :=
  match s with c :: q => if isspace c then skip_spaces q else s | [] => [] end.

(** [strtoll(s,&eptr,10)]: the number, the text from [eptr] on and whether [errno] is ERANGE. *)
Definition strtoll (s : list Z) : Z * list Z * bool :=
  let t := skip_spaces s in
  let negative := char t =? Util.cMINUS in
  let p := if negative || (char t =? 43) then tail t else t in
  let '(v, rest, any) := strtoll_digits p 0 false in
  let v := if negative then - v else v in
  if negb any then (0, s, false)
  else if v <? LLONG_MIN then (LLONG_MIN, rest, true)
  else if LLONG_MAX <? v then (LLONG_MAX, rest, true)
  else (v, rest, false).

Definition getLongLongFromObject (o : robj) : option Z :=
  match o with
  | RInt v => Some v
  | RRaw s =>
    if isspace (char s) then None
    else
      let '(value, eptr, erange) := strtoll s in
      if negb (char eptr =? 0) || erange then None else Some value
  end.

(** createStringObjectFromLongLong; the shared small integers are the same objects. *)
Definition createStringObjectFromLongLong (value : Z) : robj :=
  if (Util.LONG_MIN <=? value) && (value <=? Util.LONG_MAX) then RInt value else RRaw (Util.ll2string_chars value).

(** The zeros that are removed from the end of [buf], a number with a point. *)
Fixpoint trim_zeros (fuel : nat) (buf : list Z) (len : Z) : option Z :=
  match fuel with
  | O => None
  | S fuel =>
    c ← rd buf (len - 1);
    if c =? 48 then trim_zeros fuel buf (len - 1)
    else Some (if c =? 46 then len - 1 else len)
  end.

(** createStringObjectFromLongDouble: [text] is what ["%.17Lf"] prints, of which snprintf writes
    255 characters and a NUL to the buffer, returning the length of the whole. *)
Definition createStringObjectFromText (text : list Z) : option robj :=
  let buf := take 255 text ++ [0] in
  let len := zlen text in
  len ← (if bool_decide (46 ∈ take 255 text) then trim_zeros (S (length text)) buf len else Some len);
  s ← load buf 0 len; Some (RRaw s).

Section HashType.
Context (hash_seed : Z).
(** server.hash_max_ziplist_entries, server.hash_max_ziplist_value and dict_can_resize. *)
Context (hash_max_ziplist_entries hash_max_ziplist_value : Z) (dict_can_resize : bool).
(** The bytes behind a block that realloc enlarges. *)
Context (junk : nat -> Z).

Abbreviation dict := (Dict.dict (K := list Z) (V := robj)).
Definition hash (s : list Z) : Z := Dict.dictGenHashFunction hash_seed s.

(** ** hashType* *)

Inductive hashobj := ZIPLIST (zl : list Z) | HT (d : dict).

Definition createHashObject : hashobj := ZIPLIST Ziplist.ziplistNew.

(** The object that ziplistGet stands for: createStringObject or createStringObjectFromLongLong. *)
Definition zval_object (v : Ziplist.zval) : robj :=
  match v with Ziplist.ZStr s => RRaw s | Ziplist.ZInt v => createStringObjectFromLongLong v end.

(** The position of a field; [None] inside when it does not exist. *)
Definition find_field (zl : list Z) (field : robj) : option (option Z) :=
  fptr ← Ziplist.ziplistIndex zl Ziplist.ZIPLIST_HEAD;
  match fptr with
  | None => Some None
  | Some fptr => Ziplist.ziplistFind zl fptr (decoded field) 1
  end.

(** The pointer behind [fptr]; the assertion [vptr != NULL]. *)
Definition value_at (zl : list Z) (fptr : Z) : option Z := vptr ← Ziplist.ziplistNext zl fptr; vptr.

Definition hashTypeGetFromZiplist (zl : list Z) (field : robj) : option (option Ziplist.zval) :=
  fptr ← find_field zl field;
  match fptr with
  | None => Some None
  | Some fptr => vptr ← value_at zl fptr; v ← Ziplist.ziplistGet zl (Some vptr); v ← v; Some (Some v)
  end.

Definition hashTypeGetFromHashTable (d : dict) (field : robj) : option (dict * option robj) :=
  Dict.dictFetchValue hash d (decoded field).

(** The object, of which the dictionary may have moved on rehashing, and the value. *)
Definition hashTypeGetObject (o : hashobj) (field : robj) : option (hashobj * option robj) :=
  match o with
  | ZIPLIST zl => v ← hashTypeGetFromZiplist zl field; Some (o, option_map zval_object v)
  | HT d => '(d, v) ← hashTypeGetFromHashTable d field; Some (HT d, v)
  end.

Definition hashTypeExists (o : hashobj) (field : robj) : option (hashobj * bool) :=
  match o with
  | ZIPLIST zl => v ← hashTypeGetFromZiplist zl field; Some (o, bool_decide (is_Some v))
  | HT d => '(d, v) ← hashTypeGetFromHashTable d field; Some (HT d, bool_decide (is_Some v))
  end.

(** The number of fields; ziplistLen may store the length it counts. *)
Definition hashTypeLength (o : hashobj) : option (hashobj * Z) :=
  match o with
  | ZIPLIST zl => '(n, zl) ← Ziplist.ziplistLen zl; Some (ZIPLIST zl, n / 2)
  | HT d => Some (o, Dict.dictSize d)
  end.

(** *** Iterators *)

Inductive hashTypeIterator :=
  | ItZL (cursor : option (Z * Z))      (* fptr and vptr *)
  | ItHT (di : Dict.dictIterator (K := list Z) (V := robj)) (de : option (Dict.dictEntry (K := list Z) (V := robj))).

Definition hashTypeInitIterator (subject : hashobj) : hashTypeIterator :=
  match subject with ZIPLIST _ => ItZL None | HT _ => ItHT Dict.dictGetIterator None end.

(** [None] inside is REDIS_ERR, the end. *)
Definition hashTypeNext (subject : hashobj) (hi : hashTypeIterator) : option (option hashTypeIterator) :=
  match subject, hi with
  | ZIPLIST zl, ItZL cursor =>
    fptr ← match cursor with None => Ziplist.ziplistIndex zl 0 | Some (_, vptr) => Ziplist.ziplistNext zl vptr end;
    match fptr with
    | None => Some None
    | Some fptr => vptr ← value_at zl fptr; Some (Some (ItZL (Some (fptr, vptr))))
    end
  | HT d, ItHT di _ =>
    '(de, di) ← Dict.dictNext (Dict.max_buckets d) d di;
    Some (match de with None => None | Some de => Some (ItHT di (Some de)) end)
  | _, _ => None
  end.

(** [what] is true for REDIS_HASH_KEY.  A key of the dictionary is its decoded string. *)
Definition hashTypeCurrentObject (subject : hashobj) (hi : hashTypeIterator) (what : bool) : option robj :=
  match subject, hi with
  | ZIPLIST zl, ItZL (Some (fptr, vptr)) =>
    v ← Ziplist.ziplistGet zl (Some (if what then fptr else vptr)); v ← v; Some (zval_object v)
  | HT _, ItHT _ (Some de) => Some (if what then RRaw (Dict.key de) else Dict.val de)
  | _, _ => None
  end.

(** *** Conversion *)

(** The pairs that are still to come are added to [d]; dictAdd must succeed. *)
Fixpoint convert_loop (fuel : nat) (o : hashobj) (hi : hashTypeIterator) (d : dict) : option dict :=
  match fuel with
  | O => None
  | S fuel =>
    hi ← hashTypeNext o hi;
    match hi with
    | None => Some d
    | Some hi =>
      field ← hashTypeCurrentObject o hi true;
      let field := tryObjectEncoding field in
      value ← hashTypeCurrentObject o hi false;
      let value := tryObjectEncoding value in
      '(d, added) ← Dict.dictAdd hash dict_can_resize d (decoded field) value;
      if added : bool then convert_loop fuel o hi d else None
    end
  end.

(** hashTypeConvert to REDIS_ENCODING_HT; the loop ends within the bytes of the ziplist. *)
Definition hashTypeConvert (o : hashobj) : option hashobj :=
  match o with
  | HT _ => None
  | ZIPLIST zl => d ← convert_loop (length zl) o (hashTypeInitIterator o) Dict.dictCreate; Some (HT d)
  end.

Definition too_long (arg : robj) : bool :=
  match arg with RRaw s => hash_max_ziplist_value <? zlen s | RInt _ => false end.

(** The arguments are the ones from [start] to [end]. *)
Definition hashTypeTryConversion (o : hashobj) (args : list robj) : option hashobj :=
  match o with
  | HT _ => Some o
  | ZIPLIST _ => if existsb too_long args then hashTypeConvert o else Some o
  end.

Definition hashTypeTryObjectEncoding (subject : hashobj) (o : robj) : robj :=
  match subject with HT _ => tryObjectEncoding o | ZIPLIST _ => o end.

(** *** Setting and deleting *)

(** The boolean is true when the field existed. *)
Definition hashTypeSet (o : hashobj) (field value : robj) : option (hashobj * bool) :=
  match o with
  | ZIPLIST zl =>
    fptr ← find_field zl field;
    '(zl, update) ← match fptr with
      | Some fptr =>
        vptr ← value_at zl fptr;
        '(zl, vptr) ← Ziplist.ziplistDelete junk zl vptr;
        zl ← Ziplist.ziplistInsert junk zl vptr (decoded value);
        Some (zl, true)
      | None =>
        zl ← Ziplist.ziplistPush junk zl (decoded field) Ziplist.ZIPLIST_TAIL;
        zl ← Ziplist.ziplistPush junk zl (decoded value) Ziplist.ZIPLIST_TAIL;
        Some (zl, false)
      end;
    '(o, n) ← hashTypeLength (ZIPLIST zl);
    o ← (if hash_max_ziplist_entries <? n then hashTypeConvert o else Some o);
    Some (o, update)
  | HT d =>
    '(d, inserted, _) ← Dict.dictReplace hash dict_can_resize d (decoded field) value;
    Some (HT d, inserted =? 0)
  end.

Definition hashTypeDelete (o : hashobj) (field : robj) : option (hashobj * bool) :=
  match o with
  | ZIPLIST zl =>
    fptr ← find_field zl field;
    match fptr with
    | None => Some (o, false)
    | Some fptr =>
      '(zl, fptr) ← Ziplist.ziplistDelete junk zl fptr;
      '(zl, fptr) ← Ziplist.ziplistDelete junk zl fptr;
      Some (ZIPLIST zl, true)
    end
  | HT d =>
    '(d, found) ← Dict.dictGenericDelete hash d (decoded field);
    match found with
    | Some _ =>
      if SetType.htNeedsResize d then r ← Dict.dictResize dict_can_resize d; Some (HT (fst r), true)
      else Some (HT d, true)
    | None => Some (HT d, false)
    end
  end.

(** ** The commands *)

(** long double: the result of strtold with the text from [eptr] on and ERANGE, isnan, the
    conversion of an integer, the sum and what ["%.17Lf"] prints. *)
Context {LD : Type} (strtold : list Z -> LD * list Z * bool) (isnan : LD -> bool).
Context (ld_of_int : Z -> LD) (ld_add : LD -> LD -> LD) (ld_print : LD -> list Z).

Definition getLongDoubleFromObject (o : robj) : option LD :=
  match o with
  | RInt v => Some (ld_of_int v)
  | RRaw s =>
    let '(value, eptr, erange) := strtold s in
    if isspace (char s) || negb (char eptr =? 0) || erange || isnan value then None else Some value
  end.

Context {T : Type}.    (* the objects of other types *)

Inductive value := VHash (o : hashobj) | VOther (t : T).
Abbreviation keyspace := (gmap (list Z) value).

Inductive reply :=
  | ReplyInt (n : Z)
  | ReplyBulk (s : option (list Z))               (* None is nullbulk *)
  | ReplyMulti (l : list (option (list Z)))
  | ReplyOk
  | ReplyWrongType
  | ReplyError (msg : list Z).

(** What a command leaves: the keyspace, the reply, the keys signalled as modified and what it
    adds to [server.dirty]. *)
Record outcome := mkOutcome { odb : keyspace; oreply : reply; otouched : list (list Z); odirty : Z }.

Definition unchanged (db : keyspace) (r : reply) : outcome := mkOutcome db r [] 0.
Definition modified (db : keyspace) (key : list Z) (o : hashobj) (r : reply) : outcome :=
  mkOutcome (<[key := VHash o]> db) r [key] 1.

(** hashTypeLookupWriteOrCreate; [None] is an object of another type. *)
Definition lookupWriteOrCreate (db : keyspace) (key : list Z) : option hashobj :=
  match db !! key with Some (VOther _) => None | Some (VHash o) => Some o | None => Some createHashObject end.

Definition hsetCommand (db : keyspace) (key : list Z) (field value : robj) : option outcome :=
  match lookupWriteOrCreate db key with
  | None => Some (unchanged db ReplyWrongType)
  | Some o =>
    o ← hashTypeTryConversion o [field; value];
    '(o, update) ← hashTypeSet o (hashTypeTryObjectEncoding o field) (hashTypeTryObjectEncoding o value);
    Some (modified db key o (ReplyInt (if update : bool then 0 else 1)))
  end.

Definition hsetnxCommand (db : keyspace) (key : list Z) (field value : robj) : option outcome :=
  match lookupWriteOrCreate db key with
  | None => Some (unchanged db ReplyWrongType)
  | Some o =>
    o ← hashTypeTryConversion o [field; value];
    '(o, exists_) ← hashTypeExists o field;
    if exists_ : bool then Some (unchanged (<[key := VHash o]> db) (ReplyInt 0))
    else
      '(o, _) ← hashTypeSet o (hashTypeTryObjectEncoding o field) (hashTypeTryObjectEncoding o value);
      Some (modified db key o (ReplyInt 1))
  end.

Fixpoint hmset_loop (o : hashobj) (args : list robj) : option hashobj :=
  match args with
  | field :: value :: args =>
    '(o, _) ← hashTypeSet o (hashTypeTryObjectEncoding o field) (hashTypeTryObjectEncoding o value);
    hmset_loop o args
  | _ => Some o
  end.

(** [args] are argv[2], argv[3], ...; there are at least two. *)
Definition hmsetCommand (db : keyspace) (key : list Z) (args : list robj) : option outcome :=
  if zlen args mod 2 =? 1 then Some (unchanged db (ReplyError (str "wrong number of arguments for HMSET")))
  else
    match lookupWriteOrCreate db key with
    | None => Some (unchanged db ReplyWrongType)
    | Some o =>
      o ← hashTypeTryConversion o args;
      o ← hmset_loop o args;
      Some (modified db key o ReplyOk)
    end.

Definition not_an_integer : list Z := str "value is not an integer or out of range".

(** [long long value += incr] after the test; it does not overflow. *)
Definition would_overflow (oldvalue incr : Z) : bool :=
  ((incr <? 0) && (oldvalue <? 0) && (incr <? LLONG_MIN - oldvalue)) ||
  ((0 <? incr) && (0 <? oldvalue) && (LLONG_MAX - oldvalue <? incr)).

Definition hincrbyCommand (db : keyspace) (key : list Z) (field incr : robj) : option outcome :=
  match getLongLongFromObject incr with
  | None => Some (unchanged db (ReplyError not_an_integer))
  | Some incr =>
    match lookupWriteOrCreate db key with
    | None => Some (unchanged db ReplyWrongType)
    | Some o =>
      '(o, current) ← hashTypeGetObject o field;
      match (match current with Some c => getLongLongFromObject c | None => Some 0 end) with
      | None => Some (unchanged (<[key := VHash o]> db) (ReplyError (str "hash value is not an integer")))
      | Some value =>
        if would_overflow value incr
        then Some (unchanged (<[key := VHash o]> db) (ReplyError (str "increment or decrement would overflow")))
        else
          let value := value + incr in
          if (value <? LLONG_MIN) || (LLONG_MAX <? value) then None
          else
            '(o, _) ← hashTypeSet o (hashTypeTryObjectEncoding o field) (createStringObjectFromLongLong value);
            Some (modified db key o (ReplyInt value))
      end
    end
  end.

(** The command that is propagated instead is not modelled. *)
Definition hincrbyfloatCommand (db : keyspace) (key : list Z) (field incr : robj) : option outcome :=
  match getLongDoubleFromObject incr with
  | None => Some (unchanged db (ReplyError (str "value is not a valid float")))
  | Some incr =>
    match lookupWriteOrCreate db key with
    | None => Some (unchanged db ReplyWrongType)
    | Some o =>
      '(o, current) ← hashTypeGetObject o field;
      match (match current with Some c => getLongDoubleFromObject c | None => Some (ld_of_int 0) end) with
      | None => Some (unchanged (<[key := VHash o]> db) (ReplyError (str "hash value is not a valid float")))
      | Some value =>
        new ← createStringObjectFromText (ld_print (ld_add value incr));
        '(o, _) ← hashTypeSet o (hashTypeTryObjectEncoding o field) new;
        Some (modified db key o (ReplyBulk (Some (decoded new))))
      end
    end
  end.

(** addHashFieldToReply on an object: the bulk, [None] for nullbulk. *)
Definition hash_field (o : hashobj) (field : robj) : option (hashobj * option (list Z)) :=
  match o with
  | ZIPLIST zl => v ← hashTypeGetFromZiplist zl field; Some (o, option_map Ziplist.zval_str v)
  | HT d => '(d, v) ← hashTypeGetFromHashTable d field; Some (HT d, option_map decoded v)
  end.

Definition hgetCommand (db : keyspace) (key : list Z) (field : robj) : option outcome :=
  match db !! key with
  | None => Some (unchanged db (ReplyBulk None))
  | Some (VOther _) => Some (unchanged db ReplyWrongType)
  | Some (VHash o) => '(o, v) ← hash_field o field; Some (unchanged (<[key := VHash o]> db) (ReplyBulk v))
  end.

Fixpoint hmget_loop (o : hashobj) (args : list robj) : option (hashobj * list (option (list Z))) :=
  match args with
  | [] => Some (o, [])
  | field :: args => '(o, v) ← hash_field o field; '(o, vs) ← hmget_loop o args; Some (o, v :: vs)
  end.

Definition hmgetCommand (db : keyspace) (key : list Z) (args : list robj) : option outcome :=
  match db !! key with
  | None => Some (unchanged db (ReplyMulti (replicate (length args) None)))
  | Some (VOther _) => Some (unchanged db ReplyWrongType)
  | Some (VHash o) => '(o, vs) ← hmget_loop o args; Some (unchanged (<[key := VHash o]> db) (ReplyMulti vs))
  end.

(** The boolean tells that the hash is empty and has been deleted. *)
Fixpoint hdel_loop (o : hashobj) (args : list robj) (deleted : Z) : option (hashobj * Z * bool) :=
  match args with
  | [] => Some (o, deleted, false)
  | field :: args =>
    '(o, found) ← hashTypeDelete o field;
    if found : bool then
      '(o, n) ← hashTypeLength o;
      if n =? 0 then Some (o, deleted + 1, true) else hdel_loop o args (deleted + 1)
    else hdel_loop o args deleted
  end.

Definition hdelCommand (db : keyspace) (key : list Z) (args : list robj) : option outcome :=
  match db !! key with
  | None => Some (unchanged db (ReplyInt 0))
  | Some (VOther _) => Some (unchanged db ReplyWrongType)
  | Some (VHash o) =>
    '(o, deleted, empty) ← hdel_loop o args 0;
    let db := if empty : bool then delete key db else <[key := VHash o]> db in
    Some (mkOutcome db (ReplyInt deleted) (if deleted =? 0 then [] else [key]) deleted)
  end.

Definition hlenCommand (db : keyspace) (key : list Z) : option outcome :=
  match db !! key with
  | None => Some (unchanged db (ReplyInt 0))
  | Some (VOther _) => Some (unchanged db ReplyWrongType)
  | Some (VHash o) => '(o, n) ← hashTypeLength o; Some (unchanged (<[key := VHash o]> db) (ReplyInt n))
  end.

Definition hexistsCommand (db : keyspace) (key : list Z) (field : robj) : option outcome :=
  match db !! key with
  | None => Some (unchanged db (ReplyInt 0))
  | Some (VOther _) => Some (unchanged db ReplyWrongType)
  | Some (VHash o) =>
    '(o, b) ← hashTypeExists o field;
    Some (unchanged (<[key := VHash o]> db) (ReplyInt (if b : bool then 1 else 0)))
  end.

(** addHashIteratorCursorToReply *)
Definition cursor_bulk (o : hashobj) (hi : hashTypeIterator) (what : bool) : option (option (list Z)) :=
  v ← hashTypeCurrentObject o hi what; Some (Some (decoded v)).

Fixpoint getall_loop (fuel : nat) (o : hashobj) (hi : hashTypeIterator) (keys vals : bool) : option (list (option (list Z))) :=
  match fuel with
  | O => None
  | S fuel =>
    hi ← hashTypeNext o hi;
    match hi with
    | None => Some []
    | Some hi =>
      k ← (if keys then b ← cursor_bulk o hi true; Some [b] else Some []);
      v ← (if vals then b ← cursor_bulk o hi false; Some [b] else Some []);
      rest ← getall_loop fuel o hi keys vals; Some (k ++ v ++ rest)
    end
  end.

(** [keys], [vals]: the flags; the count that is announced must be the number of bulks. *)
Definition genericHgetallCommand (db : keyspace) (key : list Z) (keys vals : bool) : option outcome :=
  match db !! key with
  | None => Some (unchanged db (ReplyMulti []))
  | Some (VOther _) => Some (unchanged db ReplyWrongType)
  | Some (VHash o) =>
    let multiplier := (if keys then 1 else 0) + (if vals then 1 else 0) in
    '(o, n) ← hashTypeLength o;
    l ← getall_loop (S (Z.to_nat n)) o (hashTypeInitIterator o) keys vals;
    if zlen l =? swrap 32 (n * multiplier) then Some (unchanged (<[key := VHash o]> db) (ReplyMulti l)) else None
  end.

Inductive command :=
  | HSET (key : list Z) (field value : robj)
  | HSETNX (key : list Z) (field value : robj)
  | HMSET (key : list Z) (args : list robj)
  | HINCRBY (key : list Z) (field incr : robj)
  | HINCRBYFLOAT (key : list Z) (field incr : robj)
  | HGET (key : list Z) (field : robj)
  | HMGET (key : list Z) (args : list robj)
  | HDEL (key : list Z) (args : list robj)
  | HLEN (key : list Z)
  | HEXISTS (key : list Z) (field : robj)
  | HKEYS (key : list Z)
  | HVALS (key : list Z)
  | HGETALL (key : list Z).

Definition call (db : keyspace) (c : command) : option outcome :=
  match c with
  | HSET key f v => hsetCommand db key f v
  | HSETNX key f v => hsetnxCommand db key f v
  | HMSET key args => hmsetCommand db key args
  | HINCRBY key f i => hincrbyCommand db key f i
  | HINCRBYFLOAT key f i => hincrbyfloatCommand db key f i
  | HGET key f => hgetCommand db key f
  | HMGET key args => hmgetCommand db key args
  | HDEL key args => hdelCommand db key args
  | HLEN key => hlenCommand db key
  | HEXISTS key f => hexistsCommand db key f
  | HKEYS key => genericHgetallCommand db key true false
  | HVALS key => genericHgetallCommand db key false true
  | HGETALL key => genericHgetallCommand db key true true
  end.

Fixpoint call_all (db : keyspace) (cs : list command) : option (keyspace * list reply * list (list Z) * Z) :=
  match cs with
  | [] => Some (db, [], [], 0)
  | c :: cs =>
    o ← call db c;
    '(db, rs, ks, n) ← call_all (odb o) cs;
    Some (db, oreply o :: rs, otouched o ++ ks, odirty o + n)
  end.
(** ** Ziplists as lists of strings *)

Definition zl_is (m : list Z) (l : list (list Z)) : Prop := exists c rs, Ziplist.repr m c rs /\ Ziplist.strs rs = l.

Abbreviation pos A := (Ziplist.at_ (Ziplist.enc A)).

Lemma delete_one m c A r B : Ziplist.repr m c (A ++ r :: B) ->
  exists m' c', Ziplist.ziplistDelete junk m (pos A) = Some (m', pos A) /\
    Ziplist.repr m' c' (A ++ Ziplist.relink (Ziplist.last_size 0 A) B).
Proof.
  intros Hr. unfold Ziplist.ziplistDelete. change (r :: B) with ([r] ++ B) in Hr.
  rewrite (Ziplist.delete_spec junk m c A [r] B 1 Hr) by done. cbn [mbind option_bind].
  eexists _, _. split; [done|]. by apply (Ziplist.repr_delete m c A [r] B).
Qed.

(** A deletion leaves no field behind that is wider than needed. *)
Lemma relink_no_hazard pl s B : Ziplist.hazard pl s (Ziplist.relink pl B) = false.
Proof.
  destruct B as [|[[w pl'] sb] B]; [done|]. cbn [Ziplist.relink Ziplist.hazard]. apply Z.ltb_ge.
  rewrite Ziplist.psize_prev. unfold Ziplist.entry at 1. rewrite Ziplist.rsize_split, Ziplist.psize_prev.
  pose proof (Ziplist.prev_size_pos (Ziplist.rsize (Ziplist.entry pl s))). pose proof (Ziplist.bhdr_pos s).
  pose proof (zlen_nonneg (Ziplist.bpay s)). lia.
Qed.

Lemma replace_one m c A r B s : Ziplist.repr m c (A ++ r :: B) ->
  Ziplist.cost (Ziplist.strs (A ++ r :: B)) + (14 + zlen s) < 2 ^ 32 ->
  exists m1 m', Ziplist.ziplistDelete junk m (pos A) = Some (m1, pos A) /\ Ziplist.ziplistInsert junk m1 (pos A) s = Some m' /\
    zl_is m' (Ziplist.strs A ++ s :: Ziplist.strs B).
Proof.
  intros Hr Hc. destruct (delete_one m c A r B Hr) as (m1 & c1 & E & Hr1). exists m1.
  unfold Ziplist.ziplistInsert. rewrite Ziplist.strs_app, Ziplist.cost_app in Hc. destruct r as [[w pl] sr]. rewrite Ziplist.cost_cons in Hc.
  pose proof (zlen_nonneg sr).
  assert (Ziplist.cost (Ziplist.strs (A ++ Ziplist.relink (Ziplist.last_size 0 A) B)) + (14 + zlen s) < 2 ^ 32) as Hc1.
  { rewrite Ziplist.strs_app, Ziplist.relink_strs, Ziplist.cost_app. lia. }
  rewrite (Ziplist.insert_spec junk m1 c1 A _ s Hr1 Hc1) by apply relink_no_hazard. eexists. split; [done|]. split; [done|].
  eexists _, _. split; [by apply (Ziplist.repr_insert m1 c1 A _ s)|].
  rewrite Ziplist.strs_app. change (Ziplist.strs (?r :: ?B)) with (r.2 :: Ziplist.strs B). by rewrite !Ziplist.relink_strs.
Qed.

Lemma push_tail m l s : zl_is m l -> Ziplist.cost l + (14 + zlen s) < 2 ^ 32 ->
  exists m', Ziplist.ziplistPush junk m s Ziplist.ZIPLIST_TAIL = Some m' /\ zl_is m' (l ++ [s]).
Proof.
  intros (c & rs & Hr & <-) Hc. unfold Ziplist.ziplistPush. change (Ziplist.ZIPLIST_TAIL =? Ziplist.ZIPLIST_HEAD) with false. cbv iota.
  assert (Ziplist.ZIPLIST_ENTRY_END m = Some (pos rs)) as ->.
  { unfold Ziplist.ZIPLIST_ENTRY_END. pose proof Hr as [-> _ _ Hroom _]. rewrite Ziplist.zl_bytes by done. cbn [mbind option_bind]. f_equal.
    unfold Ziplist.size, Ziplist.at_. change (zlen (@nil Z)) with 0. lia. }
  cbn [mbind option_bind]. rewrite <- (app_nil_r rs) in Hr, Hc.
  rewrite (Ziplist.insert_spec junk m c rs [] s Hr Hc) by done. eexists. split; [done|]. eexists _, _.
  split; [by apply (Ziplist.repr_insert m c rs [] s)|]. by rewrite Ziplist.strs_app.
Qed.

(** *** Fields and values in turn *)

Abbreviation pairs := (list (list Z * list Z)).
Definition flat (P : list (list Z * list Z)) : list (list Z) := concat ((fun p => [p.1; p.2]) <$> P).

Lemma flat_app P P' : flat (P ++ P') = flat P ++ flat P'.
Proof. unfold flat. by rewrite fmap_app, concat_app. Qed.

Lemma zlen_flat P : zlen (flat P) = zlen P * 2.
Proof. induction P as [|p P IH]; [done|]. change (flat (p :: P)) with (p.1 :: p.2 :: flat P). rewrite !zlen_cons, IH. lia. Qed.

Lemma strs_flat_cons rs p P : Ziplist.strs rs = flat (p :: P) ->
  exists rf rv R, rs = rf :: rv :: R /\ rf.2 = p.1 /\ rv.2 = p.2 /\ Ziplist.strs R = flat P.
Proof.
  intros H. destruct rs as [|rf [|rv R]]; try done. exists rf, rv, R. by injection H as -> -> ->.
Qed.

Lemma strs_flat_app rs P1 P2 : Ziplist.strs rs = flat (P1 ++ P2) ->
  exists R1 R2, rs = R1 ++ R2 /\ Ziplist.strs R1 = flat P1 /\ Ziplist.strs R2 = flat P2.
Proof.
  revert rs. induction P1 as [|p P1 IH]; intros rs H; [by exists [], rs|].
  destruct (strs_flat_cons rs p (P1 ++ P2) H) as (rf & rv & R & -> & Hf & Hv & HR).
  destruct (IH R HR) as (R1 & R2 & -> & H1 & H2). exists (rf :: rv :: R1), R2. split; [done|]. split; [|done].
  change (flat (p :: P1)) with (p.1 :: p.2 :: flat P1). rewrite <- Hf, <- Hv, <- H1. done.
Qed.

Lemma find_pos_flat f P : Ziplist.find_pos f 1 0 (flat P) =
  (fun k => (2 * k)%nat) <$> (fst <$> list_find (fun p : list Z * list Z => p.1 = f) P).
Proof.
  induction P as [|p P IH]; [done|]. change (flat (p :: P)) with (p.1 :: p.2 :: flat P).
  cbn [Ziplist.find_pos list_find]. change (0 =? 0) with true. change (1 =? 0) with false. cbv iota.
  case_decide as Hp; [by rewrite bool_decide_eq_true_2|]. rewrite bool_decide_eq_false_2 by done.
  change (1 - 1) with 0. rewrite IH. destruct (list_find _ P) as [[k x]|]; [|done]. cbn. f_equal. lia.
Qed.

(** A field is found exactly when it is there. *)
Lemma find_field_cases m c rs P field : Ziplist.repr m c rs -> Ziplist.strs rs = flat P ->
  (exists P1 v P2 R1 rf rv R2, P = P1 ++ (decoded field, v) :: P2 /\ (decoded field ∉ fst <$> P1) /\ rs = R1 ++ rf :: rv :: R2 /\
     Ziplist.strs R1 = flat P1 /\ rf.2 = decoded field /\ rv.2 = v /\ Ziplist.strs R2 = flat P2 /\
     find_field m field = Some (Some (pos R1))) \/
  ((decoded field ∉ fst <$> P) /\ find_field m field = Some None).
Proof.
  intros Hr HP. set (f := decoded field).
  assert (find_field m field = Some ((fun k => pos (take (2 * k) rs)) <$> (fst <$> list_find (fun p : list Z * list Z => p.1 = f) P))) as E.
  { unfold find_field. fold f. change Ziplist.ZIPLIST_HEAD with (Z.of_nat 0). rewrite (Ziplist.index_nat m c rs 0 Hr). case_decide as Hlt; cbn [mbind option_bind].
    - change (take 0 rs) with (@nil Ziplist.raw). rewrite (Ziplist.ziplistFind_ok m c [] rs f 1 Hr) by lia.
      rewrite HP, find_pos_flat. by destruct (list_find _ P) as [[k x]|].
    - destruct rs; [|cbn in Hlt; lia]. by destruct P. }
  rewrite E. destruct (list_find (fun p : list Z * list Z => p.1 = f) P) as [[k [f' v]]|] eqn:El.
  - left. apply list_find_Some in El as (Hk & Hf & Hbefore). cbn in Hf. subst f'.
    pose proof (take_drop_middle P k _ Hk) as HP'. rewrite <- HP' in HP.
    destruct (strs_flat_app _ _ _ HP) as (R1 & R' & -> & H1 & H2). destruct (strs_flat_cons _ _ _ H2) as (rf & rv & R2 & -> & Hrf & Hrv & H3).
    exists (take k P), v, (drop (S k) P), R1, rf, rv, R2. split_and!; try done.
    + intros Hin. apply list_elem_of_fmap in Hin as ([f' v'] & Hf' & (j & Hj & Hlt)%elem_of_take). cbn in Hf'. subst f'.
      by apply (Hbefore j (f, v')).
    + cbn. f_equal. f_equal. f_equal. f_equal. apply (f_equal zlen) in H1. unfold Ziplist.strs, zlen in H1. rewrite length_fmap in H1.
      pose proof (zlen_flat (take k P)) as Hz. unfold zlen in Hz. rewrite length_take in Hz. apply lookup_lt_Some in Hk.
      rewrite take_app_le, take_ge by lia. done.
  - right. split; [|done]. apply list_find_None in El. intros Hin. apply list_elem_of_fmap in Hin as (p & -> & Hin).
    rewrite Forall_forall in El. apply (El p); [by apply list_elem_of_In|done].
Qed.
(** ** Objects and strings *)

Lemma hash_fun_nonneg k : 0 <= hash_seed -> 0 <= hash k.
Proof.
  intros Hs. unfold hash, Dict.dictGenHashFunction. set (h := Dict.u32 _).
  assert (0 <= h) by (apply Z.mod_pos_bound; lia).
  apply Z.lxor_nonneg. split; [intros _; by apply Z.shiftr_nonneg|done].
Qed.

Lemma longlong_object v : in_int 64 v -> createStringObjectFromLongLong v = RInt v.
Proof.
  intros Hv. unfold createStringObjectFromLongLong, in_int in *. change (2 ^ (64 - 1)) with 9223372036854775808 in Hv.
  assert ((Util.LONG_MIN <=? v) && (v <=? Util.LONG_MAX) = true) as ->; [|done].
  apply andb_true_iff. split; apply Z.leb_le; [change Util.LONG_MIN with (-9223372036854775808)|change Util.LONG_MAX with 9223372036854775807]; lia.
Qed.

Lemma zval_object_ok s : decoded (zval_object (Ziplist.zval_of s)) = s /\ robj_ok (zval_object (Ziplist.zval_of s)).
Proof.
  unfold Ziplist.zval_of. destruct (Ziplist.zipTryEncoding s) as [[v e]|] eqn:E; [|done].
  apply Ziplist.zipTryEncoding_spec in E as (Hv & -> & _). cbn [zval_object]. by rewrite longlong_object.
Qed.

(** ** The map a hash object represents *)

Abbreviation fields := (gmap (list Z) (list Z)).

Context (seed_nonneg : 0 <= hash_seed).
(** Strings in ziplists have at most [L] bytes, so that these stay below 4 GB. *)
Context (L : Z) (L_text : 255 <= L) (L_value : hash_max_ziplist_value <= L) (entries_ok : 0 <= hash_max_ziplist_entries).
Context (L_room : (hash_max_ziplist_entries + 2) * (28 + 2 * L) + 11 < 2 ^ 32).

Definition short (p : list Z * list Z) : Prop := zlen p.1 <= L /\ zlen p.2 <= L.

Definition zl_hash (zl : list Z) (P : list (list Z * list Z)) : Prop :=
  zl_is zl (flat P) /\ NoDup (fst <$> P) /\ Forall short P.

Definition ht_hash (d : dict) (mr : gmap (list Z) robj) : Prop :=
  Dict.refines hash d mr /\ map_Forall (fun _ v => robj_ok v) mr.

Definition hash_is (o : hashobj) (m : fields) : Prop :=
  match o with
  | ZIPLIST zl => exists P, zl_hash zl P /\ zlen P <= hash_max_ziplist_entries /\ m = list_to_map P
  | HT d => exists mr, ht_hash d mr /\ m = decoded <$> mr
  end.

Lemma cost_flat P : Forall short P -> Ziplist.cost (flat P) <= zlen P * (28 + 2 * L) + 11.
Proof.
  induction 1 as [|p P [H1 H2] _ IH]; [done|]. change (flat (p :: P)) with (p.1 :: p.2 :: flat P).
  change (Ziplist.cost (p.1 :: p.2 :: flat P)) with (14 + zlen p.1 + (14 + zlen p.2 + Ziplist.cost (flat P))).
  rewrite zlen_cons. lia.
Qed.

Lemma map_size_list (P : list (list Z * list Z)) : NoDup (fst <$> P) -> Z.of_nat (size (list_to_map P : fields)) = zlen P.
Proof.
  intros Hnd. unfold zlen. f_equal. rewrite <- size_dom, dom_list_to_map_L, size_list_to_set by done. by rewrite length_fmap.
Qed.

Lemma lookup_absent (P : list (list Z * list Z)) f : f ∉ fst <$> P -> (list_to_map P : fields) !! f = None.
Proof. apply not_elem_of_list_to_map_1. Qed.

Lemma lookup_there (P1 P2 : list (list Z * list Z)) f v : f ∉ fst <$> P1 -> (list_to_map (P1 ++ (f, v) :: P2) : fields) !! f = Some v.
Proof.
  intros Hf. rewrite list_to_map_app, lookup_union_r by by apply lookup_absent. cbn. by rewrite lookup_insert_eq.
Qed.

Lemma update_there (P1 P2 : list (list Z * list Z)) f v v' : f ∉ fst <$> P1 ->
  (list_to_map (P1 ++ (f, v') :: P2) : fields) = <[f := v']> (list_to_map (P1 ++ (f, v) :: P2)).
Proof.
  intros Hf. rewrite !list_to_map_app. cbn. rewrite <- (insert_union_r _ _ _ _ (lookup_absent P1 f Hf)).
  rewrite <- (insert_union_r _ _ _ _ (lookup_absent P1 f Hf)). by rewrite insert_insert_eq.
Qed.

(** The arguments can be stored in the object. *)
Definition fits (o : hashobj) (args : list robj) : Prop :=
  match o with ZIPLIST _ => Forall (fun a => zlen (decoded a) <= L) args | HT _ => True end.

(** *** Reading *)

Lemma get_zl zl P field : zl_hash zl P ->
  hashTypeGetFromZiplist zl field = Some (Ziplist.zval_of <$> (list_to_map P : fields) !! decoded field).
Proof.
  intros ((c & rs & Hr & HP) & Hnd & _). unfold hashTypeGetFromZiplist.
  destruct (find_field_cases zl c rs P field Hr HP) as [(P1 & v & P2 & R1 & rf & rv & R2 & -> & Hf & -> & H1 & Hrf & Hrv & H2 & ->)|[Hf ->]];
    cbn [mbind option_bind]; [|by rewrite lookup_absent].
  rewrite lookup_there by done. cbn [fmap option_fmap option_map]. unfold value_at. rewrite (Ziplist.ziplistNext_ok zl c R1 rf (rv :: R2) Hr).
  cbn [mbind option_bind]. rewrite Ziplist.snoc_app in Hr. rewrite (Ziplist.ziplistGet_ok zl c _ rv R2 Hr). cbn. by rewrite Hrv.
Qed.

Lemma ht_fetch d mr field : ht_hash d mr -> Z.of_nat (size mr) <= 2 ^ 28 ->
  exists d', hashTypeGetFromHashTable d field = Some (d', mr !! decoded field) /\ ht_hash d' mr.
Proof.
  intros [Hr Hok] Hs. destruct (Dict.exec_refines hash (fun k => hash_fun_nonneg k seed_nonneg) d mr (Dict.OFind (decoded field)) Hr I Hs)
    as (d' & He & Hr'). cbn [Dict.exec Dict.spec fst snd] in *. unfold hashTypeGetFromHashTable.
  destruct (Dict.dictFetchValue hash d (decoded field)) as [[d1 v]|]; [|done]. cbn in He. injection He as -> ->. by exists d'.
Qed.

Lemma decoded_size (mr : gmap (list Z) robj) : size (decoded <$> mr) = size mr.
Proof. apply map_size_fmap. Qed.

Lemma hash_field_ok o m field : hash_is o m -> Z.of_nat (size m) <= 2 ^ 28 ->
  exists o', hash_field o field = Some (o', m !! decoded field) /\ hash_is o' m.
Proof.
  intros Ho Hs. destruct o as [zl|d]; cbn [hash_field].
  - destruct Ho as (P & Hz & Hl & ->). rewrite (get_zl zl P field Hz). cbn [mbind option_bind]. exists (ZIPLIST zl). split; [|by exists P].
    do 2 f_equal. destruct (_ !! _) as [v|]; [|done]. cbn. f_equal. apply Ziplist.zval_str_of.
  - destruct Ho as (mr & Hd & ->). rewrite decoded_size in Hs. destruct (ht_fetch d mr field Hd Hs) as (d' & -> & Hd').
    cbn [mbind option_bind]. exists (HT d'). split; [|by exists mr]. by rewrite lookup_fmap.
Qed.

Lemma getObject_ok o m field : hash_is o m -> Z.of_nat (size m) <= 2 ^ 28 ->
  exists o' v, hashTypeGetObject o field = Some (o', v) /\ hash_is o' m /\ option_map decoded v = m !! decoded field /\
    (forall x, v = Some x -> robj_ok x) /\ (forall args, fits o args -> fits o' args).
Proof.
  intros Ho Hs. destruct o as [zl|d]; cbn [hashTypeGetObject].
  - destruct Ho as (P & Hz & Hl & ->). rewrite (get_zl zl P field Hz). cbn [mbind option_bind]. eexists (ZIPLIST zl), _.
    split; [done|]. split; [by exists P|]. destruct (_ !! _) as [v|]; [|done]. cbn. destruct (zval_object_ok v) as [E H]. rewrite E.
    split; [done|]. split; [by intros x [= <-]|done].
  - destruct Ho as (mr & Hd & ->). rewrite decoded_size in Hs. destruct (ht_fetch d mr field Hd Hs) as (d' & -> & Hd').
    cbn [mbind option_bind]. eexists (HT d'), _. split; [done|]. split; [by exists mr|]. split; [by rewrite lookup_fmap|]. split; [|done].
    intros x Hx. by apply (proj2 Hd (decoded field)).
Qed.

Lemma exists_ok o m field : hash_is o m -> Z.of_nat (size m) <= 2 ^ 28 ->
  exists o', hashTypeExists o field = Some (o', bool_decide (is_Some (m !! decoded field))) /\ hash_is o' m /\
    (forall args, fits o args -> fits o' args).
Proof.
  intros Ho Hs. destruct o as [zl|d]; cbn [hashTypeExists].
  - destruct Ho as (P & Hz & Hl & ->). rewrite (get_zl zl P field Hz). cbn [mbind option_bind]. exists (ZIPLIST zl). split; [|by split; [exists P|]].
    do 2 f_equal. apply bool_decide_ext. by rewrite fmap_is_Some.
  - destruct Ho as (mr & Hd & ->). rewrite decoded_size in Hs. destruct (ht_fetch d mr field Hd Hs) as (d' & -> & Hd').
    cbn [mbind option_bind]. exists (HT d'). split; [|by split; [exists mr|]]. do 2 f_equal. apply bool_decide_ext. by rewrite lookup_fmap, fmap_is_Some.
Qed.

(** *** Iterating *)

(** The iterator returns the fields and values of [l], and ends. *)
Inductive yields (o : hashobj) : hashTypeIterator -> list (robj * robj) -> Prop :=
  | yields_end hi : hashTypeNext o hi = Some None -> yields o hi []
  | yields_next hi hi' k v l : hashTypeNext o hi = Some (Some hi') ->
      hashTypeCurrentObject o hi' true = Some k -> hashTypeCurrentObject o hi' false = Some v ->
      yields o hi' l -> yields o hi ((k, v) :: l).

Definition zl_pair (p : list Z * list Z) : robj * robj := (zval_object (Ziplist.zval_of p.1), zval_object (Ziplist.zval_of p.2)).
Definition text_pair (p : robj * robj) : list Z * list Z := (decoded p.1, decoded p.2).

Lemma text_zl_pair (P : list (list Z * list Z)) : text_pair <$> (zl_pair <$> P) = P.
Proof.
  rewrite <- list_fmap_compose. rewrite <- (list_fmap_id P) at 2. apply list_fmap_ext. intros _ [f v] _. cbn.
  unfold text_pair. cbn. by rewrite (proj1 (zval_object_ok f)), (proj1 (zval_object_ok v)).
Qed.

Definition before (hi : hashTypeIterator) (R : list Ziplist.raw) : Prop :=
  hi = ItZL None /\ R = [] \/ exists R0 rv p, R = R0 ++ [rv] /\ hi = ItZL (Some (p, pos R0)).

Lemma next_zl zl c R1 R2 hi : Ziplist.repr zl c (R1 ++ R2) -> before hi R1 ->
  hashTypeNext (ZIPLIST zl) hi = match R2 with
    | [] => Some None
    | _ => vptr ← value_at zl (pos R1); Some (Some (ItZL (Some (pos R1, vptr))))
    end.
Proof.
  intros Hr [[-> ->]|(R0 & rv & p & -> & ->)]; cbn [hashTypeNext].
  - change 0 with (Z.of_nat 0). rewrite (Ziplist.index_nat zl c R2 0 Hr). by destruct R2.
  - rewrite <- app_assoc in Hr. cbn [app] in Hr. rewrite (Ziplist.ziplistNext_ok zl c R0 rv R2 Hr). cbn [mbind option_bind]. by destruct R2.
Qed.

Lemma zl_yields zl c P2 : forall R1 R2 hi, Ziplist.repr zl c (R1 ++ R2) -> Ziplist.strs R2 = flat P2 -> before hi R1 ->
  yields (ZIPLIST zl) hi (zl_pair <$> P2).
Proof.
  induction P2 as [|[f v] P2 IH]; intros R1 R2 hi Hr HP Hhi; pose proof (next_zl zl c R1 R2 hi Hr Hhi) as Hn.
  - destruct R2; [|done]. by apply yields_end.
  - destruct (strs_flat_cons R2 (f, v) P2 HP) as (rf & rv & R & -> & Hf & Hv & HR). cbn [fst snd] in Hf, Hv.
    unfold value_at in Hn. rewrite (Ziplist.ziplistNext_ok zl c R1 rf (rv :: R) Hr) in Hn. cbn [mbind option_bind] in Hn.
    cbn [fmap list_fmap]. unfold zl_pair at 1. cbn [fst snd]. eapply yields_next; [exact Hn|..].
    + cbn [hashTypeCurrentObject]. rewrite (Ziplist.ziplistGet_ok zl c R1 rf (rv :: R) Hr). cbn. by rewrite Hf.
    + cbn [hashTypeCurrentObject]. rewrite Ziplist.snoc_app in Hr. rewrite (Ziplist.ziplistGet_ok zl c _ rv R Hr). cbn. by rewrite Hv.
    + apply (IH ((R1 ++ [rf]) ++ [rv]) R); [by rewrite <- !app_assoc|done|]. right. by exists (R1 ++ [rf]), rv, (pos R1).
Qed.

Definition entry_pair (e : Dict.dictEntry (K := list Z) (V := robj)) : robj * robj := (RRaw (Dict.key e), Dict.val e).

Lemma ht_yields d : Dict.wf hash d -> forall n it de, (length (Dict.remaining d it) <= n)%nat -> Dict.iter_ok d it ->
  yields (HT d) (ItHT it de) (entry_pair <$> Dict.remaining d it).
Proof.
  intros Hw n. induction n as [|n IH]; intros it de Hn Hit;
    destruct (Dict.dictNext_spec hash d (Dict.max_buckets d) it Hw Hit (Dict.buckets_left_max d it)) as (it' & E & Hit' & Hr).
  - destruct (Dict.remaining d it) as [|e l] eqn:El; [|cbn in Hn; lia]. apply yields_end. cbn [hashTypeNext]. rewrite E. done.
  - destruct (Dict.remaining d it) as [|e l] eqn:El; [apply yields_end; cbn [hashTypeNext]; by rewrite E|].
    cbn [list.head list.tail fmap list_fmap] in *. unfold entry_pair at 1. eapply yields_next.
    + cbn [hashTypeNext]. rewrite E. done.
    + done.
    + done.
    + rewrite <- Hr. apply IH; [|done]. rewrite Hr. cbn in Hn. lia.
Qed.

(** *** Conversion *)

Lemma ht_add_field d mr k v : ht_hash d mr -> robj_ok v -> Z.of_nat (size mr) <= 2 ^ 28 -> mr !! k = None ->
  exists d', Dict.dictAdd hash dict_can_resize d k v = Some (d', true) /\ ht_hash d' (<[k := v]> mr).
Proof.
  intros [Hr Hok] Hv Hs Hk. destruct (Dict.exec_refines hash (fun k => hash_fun_nonneg k seed_nonneg) d mr (Dict.OAdd dict_can_resize k v) Hr I Hs)
    as (d' & He & Hr'). cbn [Dict.exec Dict.spec] in *. rewrite Hk in *. cbn [fst snd] in *.
  destruct (Dict.dictAdd hash dict_can_resize d k v) as [[d1 b]|]; [|done]. cbn in He. injection He as -> ->. exists d'.
  split; [done|]. split; [done|]. by apply map_Forall_insert_2.
Qed.

Lemma convert_loop_yields o hi l : yields o hi l -> forall fuel d mr, (length l < fuel)%nat -> ht_hash d mr ->
  Forall (fun p => robj_ok p.1 /\ robj_ok p.2) l -> NoDup (fst <$> (text_pair <$> l)) ->
  (forall k, k ∈ fst <$> (text_pair <$> l) -> mr !! k = None) -> Z.of_nat (size mr) + zlen l <= 2 ^ 28 ->
  exists d' mr', convert_loop fuel o hi d = Some d' /\ ht_hash d' mr' /\
    decoded <$> mr' = (list_to_map (text_pair <$> l) : fields) ∪ (decoded <$> mr).
Proof.
  induction 1 as [hi Hend|hi hi' k v l Hn Hk Hv _ IH]; intros fuel d mr Hf Hd Hok Hnd Hdis Hs; (destruct fuel as [|fuel]; [cbn in Hf; lia|]);
    cbn [convert_loop].
  - rewrite Hend. cbn. exists d, mr. split; [done|]. split; [done|]. by rewrite map_empty_union.
  - rewrite Hn. cbn [mbind option_bind]. rewrite Hk. cbn [mbind option_bind]. rewrite Hv. cbn [mbind option_bind].
    apply Forall_cons_iff in Hok as [[Hok1 Hok2] Hok]. cbn [fst snd] in Hok1, Hok2.
    destruct (SetType.tryObjectEncoding_ok k Hok1) as [_ Edk]. destruct (SetType.tryObjectEncoding_ok v Hok2) as [Hok2' Edv]. rewrite Edk.
    cbn [fmap list_fmap] in Hnd, Hdis |- *. unfold text_pair at 1 in Hnd. unfold text_pair at 1 in Hdis. cbn [fst snd] in Hnd, Hdis.
    apply list.NoDup_cons in Hnd as [Hnin Hnd]. rewrite zlen_cons in Hs. pose proof (zlen_nonneg l).
    destruct (ht_add_field d mr (decoded k) _ Hd Hok2') as (d1 & -> & Hd1); [lia|apply Hdis; by left|]. cbn [mbind option_bind].
    destruct (IH fuel d1 (<[decoded k := tryObjectEncoding v]> mr)) as (d' & mr' & E & Hd' & Hm); try done.
    + cbn in Hf. lia.
    + intros k' Hk'. rewrite lookup_insert_ne by (intros E'; apply Hnin; by rewrite E'). apply Hdis. by right.
    + rewrite map_size_insert_None by (apply Hdis; by left). lia.
    + exists d', mr'. split; [done|]. split; [done|]. rewrite Hm, fmap_insert, Edv. unfold text_pair at 2. cbn [fst snd].
      cbn [list_to_map foldr fst snd]. rewrite <- insert_union_l, <- insert_union_r; [done|]. apply not_elem_of_list_to_map_1. done.
Qed.

Lemma dictCreate_ht : ht_hash Dict.dictCreate ∅.
Proof. split; [apply Dict.dictCreate_refines, (fun k => hash_fun_nonneg k seed_nonneg)|apply map_Forall_empty]. Qed.

Lemma convert_ok zl P : zl_is zl (flat P) -> NoDup (fst <$> P) -> zlen P <= 2 ^ 28 ->
  exists d mr, hashTypeConvert (ZIPLIST zl) = Some (HT d) /\ ht_hash d mr /\ decoded <$> mr = (list_to_map P : fields).
Proof.
  intros (c & rs & Hr & HP) Hnd Hl. cbn [hashTypeConvert hashTypeInitIterator].
  assert (length P < length zl)%nat as Hlen.
  { pose proof (Ziplist.fuel_ok zl c rs Hr) as Hf. apply (f_equal zlen) in HP. rewrite zlen_flat in HP. unfold Ziplist.strs, zlen in HP.
    rewrite length_fmap in HP. assert (length zl <> 0)%nat as Hz.
    { intros E. destruct zl; [|done]. pose proof Hr as [Hm _ _ _ _]. apply (f_equal length) in Hm. pose proof (Ziplist.zlen_zl c [] rs) as Hs.
      unfold Ziplist.size, zlen in Hs. cbn [length] in *. lia. }
    lia. }
  assert (before (ItZL None) []) as Hb by by left.
  pose proof (zl_yields zl c P [] rs (ItZL None) Hr HP Hb) as Hy.
  destruct (convert_loop_yields _ _ _ Hy (length zl) Dict.dictCreate ∅) as (d & mr & E & Hd & Hm); try done.
  - by rewrite length_fmap.
  - apply dictCreate_ht.
  - apply Forall_fmap, Forall_true. intros [f v]. split; apply zval_object_ok.
  - by rewrite text_zl_pair.
  - rewrite map_size_empty. unfold zlen in *. rewrite length_fmap. lia.
  - exists d, mr. rewrite E. split; [done|]. split; [done|]. by rewrite Hm, text_zl_pair, fmap_empty, map_union_empty.
Qed.
(** *** Setting and deleting *)

Lemma length_zl zl P : zl_hash zl P -> exists zl', hashTypeLength (ZIPLIST zl) = Some (ZIPLIST zl', zlen P) /\ zl_hash zl' P.
Proof.
  intros ((c & rs & Hr & HP) & Hnd & Hsh). cbn [hashTypeLength]. destruct (Ziplist.ziplistLen_ok zl c rs Hr) as (zl' & c' & -> & Hr').
  cbn [mbind option_bind]. exists zl'. split; [|by split; [exists c', rs|]]. do 2 f_equal.
  assert (zlen rs = zlen (flat P)) as -> by (rewrite <- HP; unfold Ziplist.strs, zlen; by rewrite length_fmap).
  by rewrite zlen_flat, Z.div_mul.
Qed.

Lemma length_ok o m : hash_is o m -> exists o', hashTypeLength o = Some (o', Z.of_nat (size m)) /\ hash_is o' m.
Proof.
  intros Ho. destruct o as [zl|d].
  - destruct Ho as (P & Hz & Hl & ->). destruct (length_zl zl P Hz) as (zl' & -> & Hz'). exists (ZIPLIST zl').
    split; [by rewrite map_size_list by apply Hz|by exists P].
  - destruct Ho as (mr & [Hr Hok] & ->). exists (HT d). split; [|by exists mr]. cbn [hashTypeLength].
    by rewrite (Dict.dict_refines_size hash _ _ Hr), decoded_size.
Qed.

Lemma set_zl zl P field value : zl_hash zl P -> zlen P <= hash_max_ziplist_entries -> zlen (decoded field) <= L -> zlen (decoded value) <= L ->
  exists zl' P', (fptr ← find_field zl field;
    match fptr with
    | Some fptr =>
      vptr ← value_at zl fptr;
      '(zl, vptr) ← Ziplist.ziplistDelete junk zl vptr;
      zl ← Ziplist.ziplistInsert junk zl vptr (decoded value);
      Some (zl, true)
    | None =>
      zl ← Ziplist.ziplistPush junk zl (decoded field) Ziplist.ZIPLIST_TAIL;
      zl ← Ziplist.ziplistPush junk zl (decoded value) Ziplist.ZIPLIST_TAIL;
      Some (zl, false)
    end) = Some (zl', bool_decide (is_Some ((list_to_map P : fields) !! decoded field))) /\
    zl_hash zl' P' /\ zlen P' <= zlen P + 1 /\
    (list_to_map P' : fields) = <[decoded field := decoded value]> (list_to_map P).
Proof.
  intros (Hzl & Hnd & Hsh) Hl Hf Hv. pose proof (cost_flat P Hsh) as Hcost. pose proof Hzl as (c & rs & Hr & HP).
  destruct (find_field_cases zl c rs P field Hr HP) as [(P1 & v & P2 & R1 & rf & rv & R2 & -> & Hnin & -> & H1 & Hrf & Hrv & H2 & ->)|[Hnin ->]];
    cbn [mbind option_bind].
  - unfold value_at. rewrite (Ziplist.ziplistNext_ok zl c R1 rf (rv :: R2) Hr). cbn [mbind option_bind].
    pose proof Hr as Hr'. rewrite Ziplist.snoc_app in Hr'.
    destruct (replace_one zl c (R1 ++ [rf]) rv R2 (decoded value) Hr') as (m1 & m2 & E1 & E2 & Hm2).
    { rewrite <- Ziplist.snoc_app, HP. nia. }
    rewrite E1. cbn [mbind option_bind]. rewrite E2. cbn [mbind option_bind]. exists m2, (P1 ++ (decoded field, decoded value) :: P2). split; [|split; [|split]].
    + do 2 f_equal. symmetry. apply bool_decide_eq_true. rewrite lookup_there by done. by eexists.
    + split; [|split].
      * rewrite flat_app. change (flat ((decoded field, decoded value) :: P2)) with ([decoded field] ++ decoded value :: flat P2).
        rewrite <- H1, <- H2, app_assoc, <- Hrf. by rewrite Ziplist.strs_app in Hm2.
      * by rewrite fmap_app in Hnd |- *.
      * apply Forall_app in Hsh as [Hs1 Hs2]. apply Forall_cons_iff in Hs2 as [[Hs2 _] Hs3]. apply Forall_app. split; [done|].
        by constructor.
    + rewrite !zlen_app, !zlen_cons. lia.
    + by apply update_there.
  - destruct (push_tail zl (flat P) (decoded field) Hzl) as (m1 & E1 & Hm1); [nia|]. rewrite E1. cbn [mbind option_bind].
    destruct (push_tail m1 _ (decoded value) Hm1) as (m2 & E2 & Hm2).
    { rewrite Ziplist.cost_app. change (Ziplist.cost [decoded field]) with (14 + zlen (decoded field) + 11). nia. }
    rewrite E2. cbn [mbind option_bind]. exists m2, (P ++ [(decoded field, decoded value)]). split; [|split; [|split]].
    + do 2 f_equal. symmetry. apply bool_decide_eq_false. rewrite lookup_absent by done. by intros [].
    + split; [|split].
      * rewrite flat_app. by rewrite <- app_assoc in Hm2.
      * rewrite fmap_app. apply list.NoDup_app. split; [done|]. split; [|apply NoDup_singleton]. intros x Hx. set_solver.
      * apply Forall_app. split; [done|]. by repeat constructor.
    + rewrite zlen_app. change (zlen [(decoded field, decoded value)]) with 1. lia.
    + rewrite list_to_map_snoc by done. done.
Qed.

Lemma hashTypeSet_ok o m field value : hash_is o m -> robj_ok value -> Z.of_nat (size m) <= 2 ^ 27 ->
  match o with ZIPLIST _ => zlen (decoded field) <= L /\ zlen (decoded value) <= L | HT _ => True end ->
  exists o', hashTypeSet o field value = Some (o', bool_decide (is_Some (m !! decoded field))) /\
    hash_is o' (<[decoded field := decoded value]> m).
Proof.
  intros Ho Hv Hs Hlen. destruct o as [zl|d]; cbn [hashTypeSet].
  - destruct Ho as (P & Hz & Hl & ->). destruct Hlen as [Hf Hval].
    destruct (set_zl zl P field value Hz Hl Hf Hval) as (zl' & P' & E & Hz' & Hl' & HP').
    destruct (length_zl zl' P' Hz') as (zl2 & E2 & Hz2).
    destruct (find_field zl field) as [fptr|]; [|done]. cbn [mbind option_bind] in E |- *. rewrite E. cbn [mbind option_bind]. rewrite E2.
    cbn [mbind option_bind]. rewrite <- HP'. destruct (Z.ltb_spec hash_max_ziplist_entries (zlen P')).
    + rewrite map_size_list in Hs by apply Hz. destruct (convert_ok zl2 P' (proj1 Hz2) (proj1 (proj2 Hz2))) as (d & mr & -> & Hd & Hm); [lia|]. cbn [mbind option_bind].
      exists (HT d). split; [done|]. by exists mr.
    + cbn [mbind option_bind]. exists (ZIPLIST zl2). split; [done|]. by exists P'.
  - destruct Ho as (mr & [Hr Hok] & ->). rewrite decoded_size in Hs.
    destruct (Dict.exec_refines hash (fun k => hash_fun_nonneg k seed_nonneg) d mr (Dict.OReplace dict_can_resize (decoded field) value) Hr I)
      as (d' & He & Hr'); [lia|]. cbn [Dict.exec Dict.spec fst snd] in *.
    destruct (Dict.dictReplace hash dict_can_resize d (decoded field) value) as [[[d1 n] fr]|]; [|done]. cbn in He. cbn [mbind option_bind].
    injection He as -> He. exists (HT d'). split.
    + do 2 f_equal. rewrite lookup_fmap. destruct (mr !! decoded field); by injection He as -> _.
    + exists (<[decoded field := value]> mr). split; [split; [done|by apply map_Forall_insert_2]|by rewrite fmap_insert].
Qed.

Lemma delete_there (P1 P2 : list (list Z * list Z)) f v : f ∉ fst <$> P1 -> f ∉ fst <$> P2 ->
  (list_to_map (P1 ++ P2) : fields) = delete f (list_to_map (P1 ++ (f, v) :: P2)).
Proof.
  intros H1 H2. rewrite !list_to_map_app. cbn. rewrite delete_union, delete_insert_eq.
  by rewrite !delete_id by by apply lookup_absent.
Qed.

Lemma hashTypeDelete_ok o m field : hash_is o m -> Z.of_nat (size m) <= 2 ^ 27 ->
  exists o', hashTypeDelete o field = Some (o', bool_decide (is_Some (m !! decoded field))) /\ hash_is o' (delete (decoded field) m).
Proof.
  intros Ho Hs. destruct o as [zl|d]; cbn [hashTypeDelete].
  - destruct Ho as (P & Hz & Hl & ->). pose proof Hz as ((c & rs & Hr & HP) & Hnd & Hsh).
    destruct (find_field_cases zl c rs P field Hr HP) as [(P1 & v & P2 & R1 & rf & rv & R2 & -> & Hnin & -> & H1 & Hrf & Hrv & H2 & ->)|[Hnin ->]];
      cbn [mbind option_bind].
    + rewrite fmap_app in Hnd. apply list.NoDup_app in Hnd as (Hnd1 & Hnd12 & [Hnin2 Hnd2]%list.NoDup_cons).
      destruct (delete_one zl c R1 rf (rv :: R2) Hr) as (m1 & c1 & -> & Hr1). cbn [mbind option_bind].
      destruct rv as [[w pl] sv]. cbn [Ziplist.relink] in Hr1.
      destruct (delete_one m1 c1 R1 _ _ Hr1) as (m2 & c2 & -> & Hr2). cbn [mbind option_bind]. exists (ZIPLIST m2). split.
      * do 2 f_equal. symmetry. apply bool_decide_eq_true. rewrite lookup_there by done. by eexists.
      * exists (P1 ++ P2). split; [split; [|split]|split].
        -- eexists _, _. split; [exact Hr2|]. rewrite Ziplist.strs_app, Ziplist.relink_strs, Ziplist.fix_prev_strs, H1, H2. by rewrite flat_app.
        -- rewrite fmap_app. apply list.NoDup_app. split; [done|]. split; [|done]. intros x Hx Hx2. apply (Hnd12 x Hx). by right.
        -- apply Forall_app in Hsh as [Hs1 [_ Hs2]%Forall_cons_iff]. by apply Forall_app.
        -- rewrite zlen_app, zlen_cons in Hl. rewrite zlen_app. lia.
        -- by rewrite <- (delete_there P1 P2 (decoded field) v).
    + exists (ZIPLIST zl). split.
      * do 2 f_equal. symmetry. apply bool_decide_eq_false. rewrite lookup_absent by done. by intros [].
      * exists P. split; [done|]. split; [done|]. by rewrite delete_id by by apply lookup_absent.
  - destruct Ho as (mr & [Hr Hok] & ->). rewrite decoded_size in Hs.
    destruct (Dict.exec_refines hash (fun k => hash_fun_nonneg k seed_nonneg) d mr (Dict.ODelete (decoded field)) Hr I) as (d' & He & Hr'); [lia|].
    cbn [Dict.exec Dict.spec fst snd] in *. destruct (Dict.dictGenericDelete hash d (decoded field)) as [[d1 e]|]; [|done]. cbn in He.
    injection He as -> He. cbn [mbind option_bind]. rewrite lookup_fmap.
    assert (hash_is (HT d') (delete (decoded field) (decoded <$> mr))) as Hdel.
    { exists (delete (decoded field) mr). split; [split; [done|by apply map_Forall_delete]|by rewrite fmap_delete]. }
    destruct e as [e|]; cbn in He; rewrite <- He.
    + destruct (SetType.htNeedsResize d'); [|by exists (HT d')].
      destruct (Dict.dictResize_ok hash (fun k => hash_fun_nonneg k seed_nonneg) dict_can_resize d' (proj1 Hr')) as (d2 & ok & -> & Hw & Hse & _).
      { rewrite (Dict.dict_refines_size hash _ _ Hr'). pose proof (map_subseteq_size _ _ (delete_subseteq mr (decoded field))). lia. }
      cbn. exists (HT d2). split; [done|]. exists (delete (decoded field) mr).
      split; [split; [by eapply Dict.refines_perm|by apply map_Forall_delete]|by rewrite fmap_delete].
    + by exists (HT d').
Qed.
(** *** Arguments *)

Lemma decoded_short a : robj_ok a -> too_long a = false -> zlen (decoded a) <= L.
Proof.
  destruct a as [v|s]; cbn; intros Ha Hl; [|lia]. pose proof (Util.ll2string_chars_len v Ha). lia.
Qed.

Lemma tryConversion_ok o m args : hash_is o m -> Forall robj_ok args -> Z.of_nat (size m) <= 2 ^ 27 ->
  exists o', hashTypeTryConversion o args = Some o' /\ hash_is o' m /\ fits o' args.
Proof.
  intros Ho Hargs Hs. destruct o as [zl|d]; cbn [hashTypeTryConversion]; [|by exists (HT d)].
  destruct (existsb too_long args) eqn:E.
  - destruct Ho as (P & Hz & Hl & ->). rewrite map_size_list in Hs by apply Hz.
    destruct (convert_ok zl P (proj1 Hz) (proj1 (proj2 Hz))) as (d & mr & -> & Hd & Hm); [lia|]. exists (HT d). split; [done|]. split; [by exists mr|done].
  - exists (ZIPLIST zl). split; [done|]. split; [done|]. cbn [fits].
    induction Hargs as [|a args Ha _ IH]; [constructor|]. cbn [existsb] in E. apply orb_false_iff in E as [E1 E2].
    constructor; [by apply decoded_short|by apply IH].
Qed.

Lemma encoding_ok o a : robj_ok a -> decoded (hashTypeTryObjectEncoding o a) = decoded a /\ robj_ok (hashTypeTryObjectEncoding o a).
Proof. intros Ha. destruct o; [done|]. split; by apply SetType.tryObjectEncoding_ok. Qed.

(** Setting with encoded arguments, as the commands do. *)
Lemma set_ok o m field value : hash_is o m -> robj_ok field -> robj_ok value -> Z.of_nat (size m) <= 2 ^ 27 -> fits o [field; value] ->
  exists o', hashTypeSet o (hashTypeTryObjectEncoding o field) (hashTypeTryObjectEncoding o value) =
      Some (o', bool_decide (is_Some (m !! decoded field))) /\
    hash_is o' (<[decoded field := decoded value]> m) /\ (forall args, fits o args -> fits o' args).
Proof.
  intros Ho Hf Hv Hs Hfit. destruct (encoding_ok o field Hf) as [Ef _]. destruct (encoding_ok o value Hv) as [Ev Hv'].
  destruct (hashTypeSet_ok o m (hashTypeTryObjectEncoding o field) (hashTypeTryObjectEncoding o value) Ho Hv' Hs) as (o' & E & Ho').
  - rewrite Ef, Ev. destruct o; [|done]. apply Forall_cons_iff in Hfit as [H1 [H2 _]%Forall_cons_iff]. done.
  - rewrite Ef, Ev in *. exists o'. split; [done|]. split; [done|]. intros args Hargs. destruct o as [zl|d]; [by destruct o'|].
    cbn [hashTypeSet] in E. destruct (Dict.dictReplace _ _ _ _ _) as [[[d1 n] fr]|]; [|done]. cbn in E. by injection E as <- _.
Qed.

(** *** Numbers *)

Lemma digits_read ds : Util.all_digits ds -> forall v any, strtoll_digits ds v any = (Util.dec_value v ds, [], any || negb (bool_decide (ds = []))).
Proof.
  induction 1 as [|d ds Hd _ IH]; intros v any; cbn [strtoll_digits]; [by rewrite orb_false_r|].
  assert (Util.is_digit d = true) as -> by (unfold Util.is_digit; lia). rewrite IH. cbn [Util.dec_value].
  rewrite (Z.mul_comm 10 v), orb_true_r, orb_true_l. done.
Qed.

Lemma skip_none s : isspace (char s) = false -> skip_spaces s = s.
Proof. destruct s as [|c q]; [done|]. cbn [char skip_spaces]. by intros ->. Qed.

Lemma read_chars v : in_int 64 v -> isspace (char (Util.ll2string_chars v)) = false /\ strtoll (Util.ll2string_chars v) = (v, [], false).
Proof.
  intros Hv. destruct (Util.ll2string_chars_shape v Hv) as (ds & E & Hds & Hval & Hnz & Hz).
  assert (exists d ds', ds = d :: ds' /\ 48 <= d <= 57) as (d & ds' & Hd & Hd1).
  { destruct (decide (v = 0)) as [Hv0|Hv0]; [exists 48, []; by rewrite (Hz Hv0)|].
    destruct (Hnz Hv0) as (d & ds' & -> & _). apply Forall_cons_iff in Hds as [Hd _]. unfold Util.cZERO, Util.cNINE in Hd. by exists d, ds'. }
  assert (forall any, strtoll_digits ds 0 any = (Z.abs v, [], true)) as Hread.
  { intros any. rewrite digits_read by done. rewrite Hval, bool_decide_eq_false_2 by (by rewrite Hd). by rewrite orb_true_r. }
  assert (isspace (char (if v <? 0 then Util.cMINUS :: ds else ds)) = false) as Hsp.
  { destruct (v <? 0); [done|]. rewrite Hd. unfold isspace. cbn [char]. lia. }
  rewrite E. split; [done|]. unfold strtoll. rewrite (skip_none _ Hsp). clear Hsp. unfold in_int, LLONG_MIN, LLONG_MAX in *.
  change (2 ^ (64 - 1)) with 9223372036854775808 in Hv. destruct (Z.ltb_spec v 0).
  - cbn [char]. change (Util.cMINUS =? Util.cMINUS) with true. cbn [orb tail negb]. rewrite Hread. cbn [negb].
    rewrite Z.abs_neq, Z.opp_involutive by lia. destruct (Z.ltb_spec v (-9223372036854775808)); [lia|].
    destruct (Z.ltb_spec 9223372036854775807 v); [lia|done].
  - assert (char ds = d) as -> by (by rewrite Hd). unfold Util.cMINUS.
    assert ((d =? 45) = false) as -> by lia. assert ((d =? 43) = false) as -> by lia. cbn [orb negb]. rewrite Hread. cbn [negb].
    rewrite Z.abs_eq by lia. destruct (Z.ltb_spec v (-9223372036854775808)); [lia|]. destruct (Z.ltb_spec 9223372036854775807 v); [lia|done].
Qed.

Lemma getLongLong_decoded o : robj_ok o -> getLongLongFromObject o = getLongLongFromObject (RRaw (decoded o)).
Proof.
  destruct o as [v|s]; [|done]. intros Hv. cbn [decoded getLongLongFromObject]. destruct (read_chars v Hv) as [-> ->]. done.
Qed.

Lemma strtoll_range s v rest erange : strtoll s = (v, rest, erange) -> in_int 64 v.
Proof.
  unfold strtoll. destruct (strtoll_digits _ _ _) as [[x r] any]. unfold in_int, LLONG_MIN, LLONG_MAX.
  change (2 ^ (64 - 1)) with 9223372036854775808. set (y := if char (skip_spaces s) =? Util.cMINUS then - x else x).
  destruct any; cbn [negb]; [|intros [= <- _ _]; lia].
  destruct (Z.ltb_spec y (-9223372036854775808)); [intros [= <- _ _]; lia|].
  destruct (Z.ltb_spec 9223372036854775807 y); intros [= <- _ _]; lia.
Qed.

Lemma getLongLong_range o v : robj_ok o -> getLongLongFromObject o = Some v -> in_int 64 v.
Proof.
  destruct o as [x|s]; cbn [getLongLongFromObject]; [by intros Hx [= <-]|]. intros _. destruct (isspace (char s)); [done|].
  destruct (strtoll s) as [[x rest] erange] eqn:E. destruct (_ || _); [done|]. intros [= <-]. by eapply strtoll_range.
Qed.

(** The test in front of the addition is exact. *)
Lemma would_overflow_exact v i : in_int 64 v -> in_int 64 i ->
  would_overflow v i = ((v + i <? LLONG_MIN) || (LLONG_MAX <? v + i)).
Proof.
  unfold in_int, would_overflow, LLONG_MIN, LLONG_MAX. change (2 ^ (64 - 1)) with 9223372036854775808. intros Hv Hi.
  destruct (Z.ltb_spec i 0), (Z.ltb_spec v 0), (Z.ltb_spec 0 i), (Z.ltb_spec 0 v); try lia.
Qed.
(** The text without the zeros at the end of its fraction. *)
Fixpoint strip (r : list Z) : list Z :=
  match r with c :: q => if c =? 48 then strip q else if c =? 46 then q else r | [] => [] end.
Definition trimmed (text : list Z) : list Z := if bool_decide (46 ∈ text) then rev (strip (rev text)) else text.

Lemma strip_suffix r : exists p, r = p ++ strip r.
Proof.
  induction r as [|c r [p Hp]]; [by exists []|]. cbn [strip]. destruct (c =? 48); [exists (c :: p); cbn; by rewrite <- Hp|].
  destruct (c =? 46); [by exists [c]|by exists []].
Qed.

Lemma trim_zeros_strip r : forall fuel rest, 46 ∈ r -> (length r < fuel)%nat ->
  trim_zeros fuel (rev r ++ rest) (zlen r) = Some (zlen (strip r)).
Proof.
  induction r as [|c r IH]; intros fuel rest Hin Hf; [by apply not_elem_of_nil in Hin|]. destruct fuel as [|fuel]; [cbn in Hf; lia|].
  cbn [trim_zeros strip rev]. rewrite zlen_cons, <- app_assoc. cbn [app]. replace (1 + zlen r - 1) with (zlen r) by lia.
  assert (rd (rev r ++ c :: rest) (zlen r) = Some c) as ->.
  { unfold rd. apply rd_app. by unfold zlen; rewrite length_rev. }
  cbn [mbind option_bind]. destruct (Z.eqb_spec c 48) as [->|Hc].
  - apply IH; [|cbn in Hf; lia]. apply elem_of_cons in Hin as [Hin|Hin]; [done|exact Hin].
  - destruct (Z.eqb_spec c 46); [done|]. by rewrite zlen_cons.
Qed.

Lemma text_object text : zlen text <= 255 -> createStringObjectFromText text = Some (RRaw (trimmed text)).
Proof.
  intros Hl. unfold createStringObjectFromText, trimmed. rewrite take_ge by (unfold zlen in Hl; lia). pose proof (zlen_nonneg text).
  case_bool_decide as Hin.
  - rewrite <- (rev_involutive text) at 2. replace (zlen text) with (zlen (rev text)) by (unfold zlen; by rewrite length_rev).
    rewrite trim_zeros_strip; [|by rewrite list_elem_of_In, <- in_rev, <- list_elem_of_In|rewrite length_rev; lia]. cbn [mbind option_bind].
    destruct (strip_suffix (rev text)) as [p Hp].
    assert (text ++ [0] = [] ++ rev (strip (rev text)) ++ (rev p ++ [0])) as ->.
    { rewrite <- (rev_involutive text) at 1. rewrite Hp at 1. rewrite rev_app_distr. cbn. by rewrite <- app_assoc. }
    rewrite load_app; [done|done|]. unfold zlen. by rewrite length_rev.
  - cbn [mbind option_bind]. change (text ++ [0]) with ([] ++ text ++ [0]). by rewrite load_app.
Qed.
(** ** The commands on finite maps *)

Inductive avalue := AHash (m : fields) | AOther (t : T).
Abbreviation akeyspace := (gmap (list Z) avalue).

(** A reply, or all fields and values in any order. *)
Inductive areply := AReply (r : reply) | AAll (keys vals : bool) (m : fields).
Record aoutcome := mkA { adb : akeyspace; areplied : areply; atouched : list (list Z); adirty : Z }.

Definition asame (a : akeyspace) (r : reply) : option aoutcome := Some (mkA a (AReply r) [] 0).
Definition aset (a : akeyspace) (key : list Z) (m : fields) (r : reply) : option aoutcome :=
  Some (mkA (<[key := AHash m]> a) (AReply r) [key] 1).

(** Writing creates the hash, reading answers [r] when there is none. *)
Definition awrite (a : akeyspace) (key : list Z) (g : fields -> option aoutcome) : option aoutcome :=
  match a !! key with Some (AOther _) => asame a ReplyWrongType | Some (AHash m) => g m | None => g ∅ end.
Definition aread (a : akeyspace) (key : list Z) (r : reply) (g : fields -> option aoutcome) : option aoutcome :=
  match a !! key with Some (AOther _) => asame a ReplyWrongType | Some (AHash m) => g m | None => asame a r end.

(** The integer, or the long double, that a string denotes. *)
Definition int_of (s : list Z) : option Z := getLongLongFromObject (RRaw s).
Definition float_of (s : list Z) : option LD := getLongDoubleFromObject (RRaw s).

Fixpoint set_all (m : fields) (args : list robj) : fields :=
  match args with f :: v :: args => set_all (<[decoded f := decoded v]> m) args | _ => m end.
Definition del_all (m : fields) (args : list robj) : fields := foldl (fun m f => delete (decoded f) m) m args.

Definition aspec (a : akeyspace) (c : command) : option aoutcome :=
  match c with
  | HSET key f v =>
    awrite a key (fun m => aset a key (<[decoded f := decoded v]> m) (ReplyInt (if decide (is_Some (m !! decoded f)) then 0 else 1)))
  | HSETNX key f v =>
    awrite a key (fun m => if decide (is_Some (m !! decoded f)) then asame a (ReplyInt 0)
                           else aset a key (<[decoded f := decoded v]> m) (ReplyInt 1))
  | HMSET key args =>
    if zlen args mod 2 =? 1 then asame a (ReplyError (str "wrong number of arguments for HMSET"))
    else awrite a key (fun m => aset a key (set_all m args) ReplyOk)
  | HINCRBY key f i =>
    match int_of (decoded i) with
    | None => asame a (ReplyError not_an_integer)
    | Some i => awrite a key (fun m =>
        match (match m !! decoded f with Some s => int_of s | None => Some 0 end) with
        | None => asame a (ReplyError (str "hash value is not an integer"))
        | Some v =>
          if (v + i <? LLONG_MIN) || (LLONG_MAX <? v + i) then asame a (ReplyError (str "increment or decrement would overflow"))
          else aset a key (<[decoded f := Util.ll2string_chars (v + i)]> m) (ReplyInt (v + i))
        end)
    end
  | HINCRBYFLOAT key f i =>
    match float_of (decoded i) with
    | None => asame a (ReplyError (str "value is not a valid float"))
    | Some i => awrite a key (fun m =>
        match (match m !! decoded f with Some s => float_of s | None => Some (ld_of_int 0) end) with
        | None => asame a (ReplyError (str "hash value is not a valid float"))
        | Some v =>
          let text := ld_print (ld_add v i) in
          if zlen text <=? 255 then aset a key (<[decoded f := trimmed text]> m) (ReplyBulk (Some (trimmed text))) else None
        end)
    end
  | HGET key f => aread a key (ReplyBulk None) (fun m => asame a (ReplyBulk (m !! decoded f)))
  | HMGET key args =>
    aread a key (ReplyMulti (replicate (length args) None)) (fun m => asame a (ReplyMulti ((fun f => m !! decoded f) <$> args)))
  | HDEL key args => aread a key (ReplyInt 0) (fun m =>
      let m' := del_all m args in
      let n := Z.of_nat (size m) - Z.of_nat (size m') in
      Some (mkA (if decide (m' = ∅) then delete key a else <[key := AHash m']> a) (AReply (ReplyInt n)) (if n =? 0 then [] else [key]) n))
  | HLEN key => aread a key (ReplyInt 0) (fun m => asame a (ReplyInt (Z.of_nat (size m))))
  | HEXISTS key f => aread a key (ReplyInt 0) (fun m => asame a (ReplyInt (if decide (is_Some (m !! decoded f)) then 1 else 0)))
  | HKEYS key => aread a key (ReplyMulti []) (fun m => Some (mkA a (AAll true false m) [] 0))
  | HVALS key => aread a key (ReplyMulti []) (fun m => Some (mkA a (AAll false true m) [] 0))
  | HGETALL key => aread a key (ReplyMulti []) (fun m => Some (mkA a (AAll true true m) [] 0))
  end.

Fixpoint aspec_all (a : akeyspace) (cs : list command) : option (akeyspace * list areply * list (list Z) * Z) :=
  match cs with
  | [] => Some (a, [], [], 0)
  | c :: cs =>
    o ← aspec a c;
    '(a, rs, ks, n) ← aspec_all (adb o) cs;
    Some (a, areplied o :: rs, atouched o ++ ks, adirty o + n)
  end.

(** Corresponding values and keyspaces: a hash is never empty. *)
Definition vrel (v : option value) (av : option avalue) : Prop :=
  match v, av with
  | None, None => True
  | Some (VHash o), Some (AHash m) => hash_is o m /\ m <> ∅
  | Some (VOther t), Some (AOther t') => t = t'
  | _, _ => False
  end.
Definition rel (db : keyspace) (a : akeyspace) : Prop := forall k, vrel (db !! k) (a !! k).

(** The bulks of a field and a value. *)
Definition shown (keys vals : bool) (p : list Z * list Z) : list (option (list Z)) :=
  (if keys then [Some p.1] else []) ++ (if vals then [Some p.2] else []).

Definition matches (r : reply) (ar : areply) : Prop :=
  match ar with
  | AReply r' => r = r'
  | AAll keys vals m => exists P, P ≡ₚ map_to_list m /\ r = ReplyMulti (concat (shown keys vals <$> P))
  end.

Definition answers (o : outcome) (x : aoutcome) : Prop :=
  rel (odb o) (adb x) /\ matches (oreply o) (areplied x) /\ otouched o = atouched x /\ odirty o = adirty x.

(** The fields that a command may add. *)
Definition weight (c : command) : Z :=
  match c with HSET _ _ _ | HSETNX _ _ _ | HINCRBY _ _ _ | HINCRBYFLOAT _ _ _ => 1 | HMSET _ args => zlen args | _ => 0 end.
Definition bounded (n : Z) (a : akeyspace) : Prop := forall k m, a !! k = Some (AHash m) -> Z.of_nat (size m) <= n.

(** The parsed arguments are string objects.  HINCRBY and HINCRBYFLOAT do not look at the length of
    the field. *)
Definition command_ok (c : command) : Prop :=
  match c with
  | HSET _ f v | HSETNX _ f v => robj_ok f /\ robj_ok v
  | HMSET _ args => args <> [] /\ Forall robj_ok args
  | HINCRBY _ f i | HINCRBYFLOAT _ f i => robj_ok f /\ robj_ok i /\ zlen (decoded f) <= L
  | _ => True
  end.

Lemma hrel_insert db a key o m : rel db a -> hash_is o m -> m <> ∅ -> rel (<[key := VHash o]> db) (<[key := AHash m]> a).
Proof.
  intros Hr Ho Hne k. destruct (decide (k = key)) as [->|Hk]; [by rewrite !lookup_insert_eq|by rewrite !lookup_insert_ne].
Qed.

Lemma hrel_delete db a key : rel db a -> rel (delete key db) (delete key a).
Proof.
  intros Hr k. destruct (decide (k = key)) as [->|Hk]; [by rewrite !lookup_delete_eq|by rewrite !lookup_delete_ne].
Qed.

(** The object is read, which may move entries of its dictionary. *)
Lemma hrel_same db a key o m : rel db a -> a !! key = Some (AHash m) -> hash_is o m -> rel (<[key := VHash o]> db) a.
Proof.
  intros Hr Ha Ho. rewrite <- (insert_id a key (AHash m)) by done. apply hrel_insert; [done|done|].
  specialize (Hr key). rewrite Ha in Hr. destruct (db !! key) as [[]|]; [by destruct Hr|done|done].
Qed.

Lemma new_hash : hash_is createHashObject ∅.
Proof.
  exists []. split; [|by split]. split; [|by split; [apply NoDup_nil_2|]].
  destruct (Ziplist.new_holds false) as (c & rs & Hr & _ & E). by exists c, rs.
Qed.

(** What a writing command finds. *)
Lemma awrite_ok db a key g (f : hashobj -> option outcome) n x : rel db a -> bounded n a -> awrite a key g = Some x ->
  0 <= n ->
  (forall o m x, hash_is o m -> Z.of_nat (size m) <= n -> (m = ∅ \/ a !! key = Some (AHash m)) -> g m = Some x -> exists y, f o = Some y /\ answers y x) ->
  exists y, (match lookupWriteOrCreate db key with None => Some (unchanged db ReplyWrongType) | Some o => f o end) = Some y /\ answers y x.
Proof.
  intros Hr Hb Hx Hn H. pose proof (Hr key) as Hk. unfold awrite in Hx. unfold lookupWriteOrCreate.
  destruct (db !! key) as [[o|t]|], (a !! key) as [[m|t']|] eqn:Ea; try done.
  - apply (H o m x); try done; [apply Hk|by apply (Hb key)|by right].
  - injection Hx as <-. eexists. split; [done|]. by split.
  - apply (H createHashObject ∅ x); [apply new_hash|rewrite map_size_empty; lia|by left|done].
Qed.

Lemma aread_ok db a key r g (f : hashobj -> option outcome) n x : rel db a -> bounded n a -> aread a key r g = Some x ->
  (forall o m x, hash_is o m -> Z.of_nat (size m) <= n -> a !! key = Some (AHash m) -> m <> ∅ -> g m = Some x -> exists y, f o = Some y /\ answers y x) ->
  exists y, (match db !! key with None => Some (unchanged db r) | Some (VOther _) => Some (unchanged db ReplyWrongType) | Some (VHash o) => f o end) =
    Some y /\ answers y x.
Proof.
  intros Hr Hb Hx H. pose proof (Hr key) as Hk. unfold aread in Hx.
  destruct (db !! key) as [[o|t]|], (a !! key) as [[m|t']|] eqn:Ea; try done.
  - apply (H o m x); try done; [apply Hk|by apply (Hb key)|apply Hk].
  - injection Hx as <-. eexists. split; [done|]. by split.
  - injection Hx as <-. eexists. split; [done|]. by split.
Qed.

Lemma answers_set db a key o m r : rel db a -> hash_is o m -> m <> ∅ ->
  answers (modified db key o r) (mkA (<[key := AHash m]> a) (AReply r) [key] 1).
Proof. intros Hr Ho Hm. split; [by apply hrel_insert|done]. Qed.

(** A command that only looks at a hash. *)
Lemma answers_look db a key o m r : rel db a -> a !! key = Some (AHash m) -> hash_is o m ->
  answers (unchanged (<[key := VHash o]> db) r) (mkA a (AReply r) [] 0).
Proof. intros Hr Ha Ho. split; [by eapply hrel_same|done]. Qed.

Definition small : Z := 2 ^ 26.

Lemma hset_ok db a key f v x : rel db a -> bounded small a -> robj_ok f -> robj_ok v ->
  aspec a (HSET key f v) = Some x -> exists y, call db (HSET key f v) = Some y /\ answers y x.
Proof.
  intros Hr Hb Hf Hv Hx. cbn [aspec call] in *. unfold hsetCommand. eapply awrite_ok; [done..|].
  cbv beta. intros o m y Ho Hs _ [= <-]. assert (Z.of_nat (size m) <= 2 ^ 27) as Hs' by (unfold small in Hs; lia).
  destruct (tryConversion_ok o m [f; v] Ho) as (o1 & -> & Ho1 & Hfit); [by repeat constructor|done|]. cbn [mbind option_bind].
  destruct (set_ok o1 m f v Ho1 Hf Hv Hs' Hfit) as (o2 & -> & Ho2 & _). cbn [mbind option_bind]. eexists. split; [done|].
  assert ((if decide (is_Some (m !! decoded f)) then 0 else 1) = (if bool_decide (is_Some (m !! decoded f)) then 0 else 1)) as ->
    by by case_decide; [rewrite bool_decide_eq_true_2|rewrite bool_decide_eq_false_2].
  apply answers_set; [done|done|apply insert_non_empty].
Qed.

Lemma hsetnx_ok db a key f v x : rel db a -> bounded small a -> robj_ok f -> robj_ok v ->
  aspec a (HSETNX key f v) = Some x -> exists y, call db (HSETNX key f v) = Some y /\ answers y x.
Proof.
  intros Hr Hb Hf Hv Hx. cbn [aspec call] in *. unfold hsetnxCommand. eapply awrite_ok; [done..|].
  cbv beta. intros o m y Ho Hs Hm Hy. assert (Z.of_nat (size m) <= 2 ^ 27) as Hs' by (unfold small in Hs; lia).
  destruct (tryConversion_ok o m [f; v] Ho) as (o1 & -> & Ho1 & Hfit); [by repeat constructor|done|]. cbn [mbind option_bind].
  destruct (exists_ok o1 m f Ho1) as (o2 & -> & Ho2 & Hfit2); [lia|]. cbn [mbind option_bind]. case_decide as Hd.
  - rewrite bool_decide_eq_true_2 by done. injection Hy as <-. eexists. split; [done|].
    destruct Hm as [->|Hm]; [by destruct Hd|by eapply answers_look].
  - rewrite bool_decide_eq_false_2 by done. injection Hy as <-.
    destruct (set_ok o2 m f v Ho2 Hf Hv Hs' (Hfit2 _ Hfit)) as (o3 & -> & Ho3 & _). cbn [mbind option_bind].
    eexists. split; [done|]. apply answers_set; [done|done|apply insert_non_empty].
Qed.

(** Lists by two elements at a time. *)
Lemma pairs_ind {A} (P : list A -> Prop) : P [] -> (forall x, P [x]) -> (forall x y l, P l -> P (x :: y :: l)) -> forall l, P l.
Proof.
  intros H0 H1 H2 l. enough (P l /\ forall x, P (x :: l)) as [] by done. induction l as [|y l [IH1 IH2]]; [done|].
  split; [done|]. intros x. by apply H2.
Qed.

Lemma map_size_insert_le (m : fields) f v : (size (<[f := v]> m) <= S (size m))%nat.
Proof. rewrite map_size_insert. destruct (m !! f); cbn; lia. Qed.

Lemma hmset_loop_ok args : forall o m, hash_is o m -> Forall robj_ok args -> fits o args -> Z.of_nat (size m) + zlen args <= 2 ^ 27 ->
  exists o', hmset_loop o args = Some o' /\ hash_is o' (set_all m args).
Proof.
  induction args as [|f|f v args IH] using (@pairs_ind robj); intros o m Ho Hok Hfit Hs; cbn [hmset_loop set_all]; [by exists o|by exists o|].
  apply Forall_cons_iff in Hok as [Hf [Hv Hok]%Forall_cons_iff]. rewrite !zlen_cons in Hs. pose proof (zlen_nonneg args).
  assert (fits o [f; v] /\ fits o args) as [Hfv Hrest].
  { destruct o; [|done]. cbn [fits] in Hfit |- *. apply Forall_cons_iff in Hfit as [H1 [H2 H3]%Forall_cons_iff]. by repeat constructor. }
  destruct (set_ok o m f v Ho Hf Hv) as (o1 & -> & Ho1 & Hfit1); [lia|done|]. cbn [mbind option_bind].
  apply IH; [done|done|by apply Hfit1|]. pose proof (map_size_insert_le m (decoded f) (decoded v)). lia.
Qed.

Lemma set_all_non_empty f v args : forall m, set_all (<[decoded f := decoded v]> m) args <> ∅.
Proof.
  revert f v. induction args as [| |f' v' args IH] using (@pairs_ind robj); intros f v m; cbn [set_all]; [apply insert_non_empty..|apply IH].
Qed.

Lemma hmset_ok db a n key args x : rel db a -> bounded n a -> 0 <= n -> n + zlen args <= small -> Forall robj_ok args -> args <> [] ->
  aspec a (HMSET key args) = Some x -> exists y, call db (HMSET key args) = Some y /\ answers y x.
Proof.
  intros Hr Hb Hn Hs Hok Hne Hx. cbn [aspec call] in *. unfold hmsetCommand. destruct (Z.eqb_spec (zlen args mod 2) 1) as [|Hmod].
  { injection Hx as <-. eexists. split; [done|]. by split. }
  pose proof (zlen_nonneg args). unfold small in Hs. eapply awrite_ok; [done..|]. cbv beta. intros o m y Ho Hm _ [= <-].
  destruct (tryConversion_ok o m args Ho Hok) as (o1 & -> & Ho1 & Hfit); [lia|]. cbn [mbind option_bind].
  destruct (hmset_loop_ok args o1 m Ho1 Hok Hfit) as (o2 & -> & Ho2); [lia|]. cbn [mbind option_bind]. eexists. split; [done|].
  apply answers_set; [done|done|]. destruct args as [|f [|v args]]; [done|done|]. cbn [set_all]. apply set_all_non_empty.
Qed.

Lemma long_fits o f r : zlen (decoded f) <= L -> zlen (decoded r) <= L -> fits o [f; r].
Proof. destruct o; [|done]. cbn [fits]. by repeat constructor. Qed.

(** Storing the result of an increment. *)
Lemma store_ok o m f r : hash_is o m -> robj_ok f -> robj_ok r -> Z.of_nat (size m) <= 2 ^ 27 -> zlen (decoded f) <= L -> zlen (decoded r) <= L ->
  exists o', hashTypeSet o (hashTypeTryObjectEncoding o f) r = Some (o', bool_decide (is_Some (m !! decoded f))) /\
    hash_is o' (<[decoded f := decoded r]> m).
Proof.
  intros Ho Hf Hr Hs Hlf Hlr. destruct (encoding_ok o f Hf) as [Ef _].
  destruct (hashTypeSet_ok o m (hashTypeTryObjectEncoding o f) r Ho Hr Hs) as (o' & E & Ho'); [rewrite Ef; by destruct o|].
  rewrite Ef in *. by exists o'.
Qed.

(** The stored value as a number. *)
Lemma current_number {A} (num : robj -> option A) (zero : A) v s :
  (forall o, robj_ok o -> num o = num (RRaw (decoded o))) -> option_map decoded v = s -> (forall x, v = Some x -> robj_ok x) ->
  (match v with Some c => num c | None => Some zero end) = (match s with Some s => num (RRaw s) | None => Some zero end).
Proof. intros Hnum <- Hv. destruct v as [v|]; [|done]. cbn. apply Hnum. by apply Hv. Qed.

Lemma hincrby_ok db a key f i x : rel db a -> bounded small a -> robj_ok f -> robj_ok i -> zlen (decoded f) <= L ->
  aspec a (HINCRBY key f i) = Some x -> exists y, call db (HINCRBY key f i) = Some y /\ answers y x.
Proof.
  intros Hr Hb Hf Hi Hlf Hx. cbn [aspec call] in *. unfold hincrbyCommand, int_of in *. rewrite (getLongLong_decoded i Hi).
  destruct (getLongLongFromObject (RRaw (decoded i))) as [incr|] eqn:Ei; [|injection Hx as <-; eexists; by split].
  assert (in_int 64 incr) as Hincr by (by apply (getLongLong_range (RRaw (decoded i)))).
  unfold small in *. eapply awrite_ok; [done..|]. cbv beta. intros o m y Ho Hs Hm Hy.
  destruct (getObject_ok o m f Ho) as (o1 & v & -> & Ho1 & Ev & Hvok & _); [lia|]. cbn [mbind option_bind].
  rewrite (current_number getLongLongFromObject 0 v _ getLongLong_decoded Ev Hvok).
  destruct (match m !! decoded f with Some s => _ | None => _ end) as [old|] eqn:Eold.
  2:{ injection Hy as <-. eexists. split; [done|]. destruct Hm as [->|Hm]; [by rewrite lookup_empty in Eold|by eapply answers_look]. }
  assert (in_int 64 old) as Hold.
  { destruct (m !! decoded f) as [s|]; [by apply (getLongLong_range (RRaw s))|]. injection Eold as <-. unfold in_int. lia. }
  rewrite would_overflow_exact by done. destruct ((old + incr <? LLONG_MIN) || (LLONG_MAX <? old + incr)) eqn:Eo.
  - injection Hy as <-. eexists. split; [done|]. destruct Hm as [->|Hm]; [|by eapply answers_look]. exfalso.
    rewrite lookup_empty in Eold. injection Eold as <-. unfold in_int, LLONG_MIN, LLONG_MAX in *. lia.
  - injection Hy as <-. assert (in_int 64 (old + incr)) as Hnew by (unfold in_int, LLONG_MIN, LLONG_MAX in *; lia).
    rewrite longlong_object by done. pose proof (Util.ll2string_chars_len _ Hnew).
    destruct (store_ok o1 m f (RInt (old + incr)) Ho1 Hf Hnew) as (o2 & -> & Ho2); [lia|done|cbn [decoded]; lia|]. cbn [mbind option_bind].
    eexists. split; [done|]. apply answers_set; [done|done|apply insert_non_empty].
Qed.

(** strtold reads the digits of a 64-bit integer exactly. *)
Context (ld_int : forall v, in_int 64 v -> strtold (Util.ll2string_chars v) = (ld_of_int v, [], false) /\ isnan (ld_of_int v) = false).

Lemma getLongDouble_decoded o : robj_ok o -> getLongDoubleFromObject o = getLongDoubleFromObject (RRaw (decoded o)).
Proof.
  destruct o as [v|s]; [|done]. intros Hv. cbn [decoded getLongDoubleFromObject]. destruct (read_chars v Hv) as [-> _].
  destruct (ld_int v Hv) as [-> ->]. done.
Qed.

Lemma trimmed_le text : zlen (trimmed text) <= zlen text.
Proof.
  unfold trimmed. case_bool_decide; [|done]. destruct (strip_suffix (rev text)) as [p Hp]. apply (f_equal length) in Hp.
  rewrite length_rev, length_app in Hp. unfold zlen. rewrite length_rev. lia.
Qed.

Lemma hincrbyfloat_ok db a key f i x : rel db a -> bounded small a -> robj_ok f -> robj_ok i -> zlen (decoded f) <= L ->
  aspec a (HINCRBYFLOAT key f i) = Some x -> exists y, call db (HINCRBYFLOAT key f i) = Some y /\ answers y x.
Proof.
  intros Hr Hb Hf Hi Hlf Hx. cbn [aspec call] in *. unfold hincrbyfloatCommand, float_of in *. rewrite (getLongDouble_decoded i Hi).
  destruct (getLongDoubleFromObject (RRaw (decoded i))) as [incr|] eqn:Ei; [|injection Hx as <-; eexists; by split].
  unfold small in *. eapply awrite_ok; [done..|]. cbv beta. intros o m y Ho Hs Hm Hy.
  destruct (getObject_ok o m f Ho) as (o1 & v & -> & Ho1 & Ev & Hvok & _); [lia|]. cbn [mbind option_bind].
  rewrite (current_number getLongDoubleFromObject (ld_of_int 0) v _ getLongDouble_decoded Ev Hvok).
  destruct (match m !! decoded f with Some s => _ | None => _ end) as [old|] eqn:Eold.
  2:{ injection Hy as <-. eexists. split; [done|]. destruct Hm as [->|Hm]; [by rewrite lookup_empty in Eold|by eapply answers_look]. }
  destruct (Z.leb_spec (zlen (ld_print (ld_add old incr))) 255) as [Ht|]; [|done]. injection Hy as <-.
  rewrite text_object by done. cbn [mbind option_bind]. pose proof (trimmed_le (ld_print (ld_add old incr))).
  destruct (store_ok o1 m f (RRaw (trimmed (ld_print (ld_add old incr)))) Ho1 Hf I) as (o2 & -> & Ho2); [lia|done|cbn [decoded]; lia|].
  cbn [mbind option_bind]. eexists. split; [done|]. apply answers_set; [done|done|apply insert_non_empty].
Qed.

(** *** Reading commands *)

Lemma hget_ok db a key f x : rel db a -> bounded small a ->
  aspec a (HGET key f) = Some x -> exists y, call db (HGET key f) = Some y /\ answers y x.
Proof.
  intros Hr Hb Hx. cbn [aspec call] in *. unfold hgetCommand, small in *. eapply aread_ok; [done..|]. cbv beta.
  intros o m y Ho Hs Hm _ [= <-]. destruct (hash_field_ok o m f Ho) as (o' & -> & Ho'); [lia|]. cbn [mbind option_bind].
  eexists. split; [done|]. by eapply answers_look.
Qed.

Lemma hmget_loop_ok args : forall o m, hash_is o m -> Z.of_nat (size m) <= 2 ^ 28 ->
  exists o', hmget_loop o args = Some (o', (fun f => m !! decoded f) <$> args) /\ hash_is o' m.
Proof.
  induction args as [|f args IH]; intros o m Ho Hs; cbn [hmget_loop]; [by exists o|].
  destruct (hash_field_ok o m f Ho Hs) as (o1 & -> & Ho1). cbn [mbind option_bind].
  destruct (IH o1 m Ho1 Hs) as (o2 & -> & Ho2). cbn [mbind option_bind]. by exists o2.
Qed.

Lemma hmget_ok db a key args x : rel db a -> bounded small a ->
  aspec a (HMGET key args) = Some x -> exists y, call db (HMGET key args) = Some y /\ answers y x.
Proof.
  intros Hr Hb Hx. cbn [aspec call] in *. unfold hmgetCommand, small in *. eapply aread_ok; [done..|]. cbv beta.
  intros o m y Ho Hs Hm _ [= <-]. destruct (hmget_loop_ok args o m Ho) as (o' & -> & Ho'); [lia|]. cbn [mbind option_bind].
  eexists. split; [done|]. by eapply answers_look.
Qed.

Lemma hlen_ok db a key x : rel db a -> bounded small a ->
  aspec a (HLEN key) = Some x -> exists y, call db (HLEN key) = Some y /\ answers y x.
Proof.
  intros Hr Hb Hx. cbn [aspec call] in *. unfold hlenCommand. eapply aread_ok; [done..|]. cbv beta.
  intros o m y Ho Hs Hm _ [= <-]. destruct (length_ok o m Ho) as (o' & -> & Ho'). cbn [mbind option_bind].
  eexists. split; [done|]. by eapply answers_look.
Qed.

Lemma hexists_ok db a key f x : rel db a -> bounded small a ->
  aspec a (HEXISTS key f) = Some x -> exists y, call db (HEXISTS key f) = Some y /\ answers y x.
Proof.
  intros Hr Hb Hx. cbn [aspec call] in *. unfold hexistsCommand, small in *. eapply aread_ok; [done..|]. cbv beta.
  intros o m y Ho Hs Hm _ [= <-]. destruct (exists_ok o m f Ho) as (o' & -> & Ho' & _); [lia|]. cbn [mbind option_bind].
  eexists. split; [done|]. case_decide; [rewrite bool_decide_eq_true_2 by done|rewrite bool_decide_eq_false_2 by done]; by eapply answers_look.
Qed.

(** *** Deleting *)

Lemma hdel_loop_ok args : forall o m n, hash_is o m -> m <> ∅ -> Z.of_nat (size m) <= 2 ^ 27 ->
  exists o', hdel_loop o args n =
      Some (o', n + (Z.of_nat (size m) - Z.of_nat (size (del_all m args))), bool_decide (del_all m args = ∅)) /\ hash_is o' (del_all m args).
Proof.
  induction args as [|f args IH]; intros o m n Ho Hne Hs; cbn [hdel_loop del_all foldl].
  { exists o. split; [|done]. rewrite bool_decide_eq_false_2 by done. do 3 f_equal. lia. }
  destruct (hashTypeDelete_ok o m f Ho Hs) as (o1 & -> & Ho1). cbn [mbind option_bind]. fold (del_all (delete (decoded f) m) args).
  case_bool_decide as Hf.
  - destruct (length_ok o1 _ Ho1) as (o2 & -> & Ho2). cbn [mbind option_bind].
    assert (size m = S (size (delete (decoded f) m))) as Hsz.
    { destruct Hf as [s Hf]. rewrite <- (insert_delete_id m _ _ Hf) at 1. by rewrite map_size_insert_None by apply lookup_delete_eq. }
    destruct (Z.eqb_spec (Z.of_nat (size (delete (decoded f) m))) 0) as [Hz|Hz].
    + assert (delete (decoded f) m = ∅) as Hemp by (apply map_size_empty_iff; lia). rewrite Hemp in *.
      assert (del_all ∅ args = ∅) as Hd.
      { clear. unfold del_all. induction args as [|g args IH]; [done|]. cbn [foldl]. by rewrite delete_empty. }
      exists o2. rewrite Hd, bool_decide_eq_true_2 by done. split; [|done]. do 3 f_equal. rewrite map_size_empty in *. lia.
    + destruct (IH o2 _ (n + 1) Ho2) as (o3 & -> & Ho3); [by intros E; rewrite E, map_size_empty in Hz|lia|].
      exists o3. split; [|done]. do 3 f_equal. lia.
  - rewrite (delete_id m) in * by by destruct (m !! decoded f) as [s|]; [destruct Hf; eexists|].
    by apply IH.
Qed.

Lemma hdel_ok db a key args x : rel db a -> bounded small a ->
  aspec a (HDEL key args) = Some x -> exists y, call db (HDEL key args) = Some y /\ answers y x.
Proof.
  intros Hr Hb Hx. cbn [aspec call] in *. unfold hdelCommand, small in *. eapply aread_ok; [done..|]. cbv beta.
  intros o m y Ho Hs Hm Hne [= <-]. destruct (hdel_loop_ok args o m 0 Ho Hne) as (o' & -> & Ho'); [lia|]. cbn [mbind option_bind].
  eexists. split; [done|]. rewrite Z.add_0_l. split; [|done]. cbn [odb adb].
  destruct (decide (del_all m args = ∅)) as [E|E]; [rewrite bool_decide_eq_true_2 by done|rewrite bool_decide_eq_false_2 by done];
    [by apply hrel_delete|by apply hrel_insert].
Qed.

(** *** All fields and values *)

Lemma getall_loop_ok o keys vals hi l : yields o hi l -> forall fuel, (length l < fuel)%nat ->
  getall_loop fuel o hi keys vals = Some (concat (shown keys vals <$> (text_pair <$> l))).
Proof.
  induction 1 as [hi Hend|hi hi' k v l Hn Hk Hv _ IH]; intros fuel Hf; (destruct fuel as [|fuel]; [cbn in Hf; lia|]); cbn [getall_loop].
  - by rewrite Hend.
  - rewrite Hn. cbn [mbind option_bind]. cbn [length] in Hf. rewrite IH by lia. unfold cursor_bulk. rewrite Hk, Hv.
    cbn [fmap list_fmap concat]. unfold shown at 2, text_pair at 1. by destruct keys, vals.
Qed.

Lemma zlen_shown keys vals (P : list (list Z * list Z)) :
  zlen (concat (shown keys vals <$> P)) = zlen P * ((if keys then 1 else 0) + (if vals then 1 else 0)).
Proof.
  induction P as [|p P IH]; [done|]. cbn [fmap list_fmap concat]. rewrite zlen_app, IH, zlen_cons. unfold shown.
  destruct keys, vals; cbn [app]; rewrite ?zlen_cons; change (zlen (@nil (option (list Z)))) with 0; lia.
Qed.

(** Iterating over a hash yields its fields and values, each once. *)
Lemma hash_yields o m : hash_is o m ->
  exists l, yields o (hashTypeInitIterator o) l /\ text_pair <$> l ≡ₚ map_to_list m.
Proof.
  intros Ho. destruct o as [zl|d]; cbn [hashTypeInitIterator].
  - destruct Ho as (P & ((c & rs & Hr & HP) & Hnd & _) & _ & ->). exists (zl_pair <$> P). split.
    + apply (zl_yields zl c P [] rs (ItZL None) Hr HP). by left.
    + rewrite text_zl_pair. symmetry. by apply map_to_list_to_map.
  - destruct Ho as (mr & [[Hw Hm] _] & ->). exists (entry_pair <$> Dict.all_entries d). split.
    + rewrite <- (Dict.remaining_all hash d Hw). apply (ht_yields d Hw _ _ _ (Nat.le_refl _)). by split_and!.
    + rewrite <- list_fmap_compose. apply NoDup_Permutation; [|apply NoDup_map_to_list|].
      * apply (NoDup_fmap_1 fst). rewrite <- list_fmap_compose. exact (Dict.wf_keys hash d Hw).
      * intros [f v]. rewrite elem_of_map_to_list, lookup_fmap, list_elem_of_fmap. split.
        -- intros ([k w] & [= -> ->] & He). apply Hm in He. cbn [Dict.key Dict.val]. by rewrite He.
        -- intros Hv. destruct (mr !! f) as [w|] eqn:Ew; [|done]. cbn in Hv. injection Hv as <-. exists (Dict.mkEntry f w).
           split; [done|by apply Hm].
Qed.

Lemma hgetall_ok db a key keys vals x : rel db a -> bounded small a ->
  aread a key (ReplyMulti []) (fun m => Some (mkA a (AAll keys vals m) [] 0)) = Some x ->
  exists y, genericHgetallCommand db key keys vals = Some y /\ answers y x.
Proof.
  intros Hr Hb Hx. unfold genericHgetallCommand, small in *. eapply aread_ok; [done..|]. cbv beta.
  intros o m y Ho Hs Hm _ [= <-]. destruct (length_ok o m Ho) as (o' & -> & Ho'). cbn [mbind option_bind].
  destruct (hash_yields o' m Ho') as (l & Hy & Hp). pose proof (Permutation_length Hp) as Hl. rewrite length_map_to_list, length_fmap in Hl.
  rewrite (getall_loop_ok o' keys vals _ l Hy) by lia. cbn [mbind option_bind].
  assert (zlen l = Z.of_nat (size m)) as Hzl by (unfold zlen; lia).
  assert (zlen (concat (shown keys vals <$> (text_pair <$> l))) =? swrap 32 (Z.of_nat (size m) * ((if keys then 1 else 0) + (if vals then 1 else 0))) = true) as ->.
  { apply Z.eqb_eq. rewrite zlen_shown. assert (zlen (text_pair <$> l) = zlen l) as -> by (unfold zlen; by rewrite length_fmap).
    rewrite Hzl. symmetry. apply swrap_id; [done|]. unfold in_int. destruct keys, vals; lia. }
  eexists. split; [done|]. split; [by eapply hrel_same|]. split; [|done]. cbn [oreply areplied matches]. by eexists.
Qed.

(** *** Sequences of commands *)

Lemma dispatch_ok db a n c x : rel db a -> bounded n a -> 0 <= n -> n + weight c <= small -> command_ok c ->
  aspec a c = Some x -> exists y, call db c = Some y /\ answers y x.
Proof.
  intros Hr Hb Hn Hw Hc Hx. assert (0 <= weight c) by (destruct c; cbn; try lia; apply zlen_nonneg).
  assert (bounded small a) as Hb' by (intros k m Hk; specialize (Hb k m Hk); lia).
  destruct c; cbn [command_ok weight] in Hc, Hw.
  - destruct Hc. by eapply hset_ok.
  - destruct Hc. by eapply hsetnx_ok.
  - destruct Hc. by apply (hmset_ok db a n).
  - destruct Hc as (? & ? & ?). by eapply hincrby_ok.
  - destruct Hc as (? & ? & ?). by eapply hincrbyfloat_ok.
  - by eapply hget_ok.
  - by eapply hmget_ok.
  - by eapply hdel_ok.
  - by eapply hlen_ok.
  - by eapply hexists_ok.
  - by apply (hgetall_ok db a key true false x Hr Hb').
  - by apply (hgetall_ok db a key false true x Hr Hb').
  - by apply (hgetall_ok db a key true true x Hr Hb').
Qed.

Lemma hbounded_mono n n' a : bounded n a -> n <= n' -> bounded n' a.
Proof. intros Hb Hn k m Hk. specialize (Hb k m Hk). lia. Qed.

Lemma hbounded_insert n a key m : bounded n a -> Z.of_nat (size m) <= n -> bounded n (<[key := AHash m]> a).
Proof. intros Hb Hm k m' Hk. apply lookup_insert_Some in Hk as [[_ [= <-]]|[_ Hk]]; [done|by apply (Hb k)]. Qed.

Lemma set_all_size args : forall m, Z.of_nat (size (set_all m args)) <= Z.of_nat (size m) + zlen args.
Proof.
  induction args as [|f|f v args IH] using (@pairs_ind robj); intros m; cbn [set_all]; rewrite ?zlen_cons; [change (zlen (@nil robj)) with 0; lia..|].
  specialize (IH (<[decoded f := decoded v]> m)). pose proof (map_size_insert_le m (decoded f) (decoded v)). lia.
Qed.

Lemma del_all_size args : forall m, (size (del_all m args) <= size m)%nat.
Proof.
  induction args as [|f args IH]; intros m; [done|]. cbn [del_all foldl]. fold (del_all (delete (decoded f) m) args).
  specialize (IH (delete (decoded f) m)). pose proof (map_subseteq_size _ _ (delete_subseteq m (decoded f))). lia.
Qed.

Lemma awrite_bounded n a key g x w : bounded n a -> 0 <= n -> awrite a key g = Some x -> 0 <= w ->
  (forall m y, Z.of_nat (size m) <= n -> g m = Some y -> adb y = a \/ exists m', adb y = <[key := AHash m']> a /\ Z.of_nat (size m') <= Z.of_nat (size m) + w) ->
  bounded (n + w) (adb x).
Proof.
  intros Hb Hn Hx Hw H.
  assert (forall m, Z.of_nat (size m) <= n -> g m = Some x -> bounded (n + w) (adb x)) as Hg.
  { intros m Hm Hgm. destruct (H m x Hm Hgm) as [->|(m' & -> & Hm')]; [by apply (hbounded_mono n); [|lia]|].
    apply hbounded_insert; [by apply (hbounded_mono n); [|lia]|lia]. }
  unfold awrite in Hx. destruct (a !! key) as [[m|t]|] eqn:Ea.
  - apply (Hg m); [by apply (Hb key)|done].
  - injection Hx as <-. by apply (hbounded_mono n); [|lia].
  - apply (Hg ∅); [rewrite map_size_empty; lia|done].
Qed.

Lemma aread_unchanged n a key r g x : bounded n a -> (forall m y, g m = Some y -> adb y = a) -> aread a key r g = Some x -> bounded n (adb x).
Proof. intros Hb H Hx. unfold aread in Hx. destruct (a !! key) as [[m|t]|]; [by rewrite (H m x Hx)|by injection Hx as <-..]. Qed.

Lemma aset_one a key m f v r y : aset a key (<[f := v]> m) r = Some y ->
  adb y = a \/ exists m', adb y = <[key := AHash m']> a /\ Z.of_nat (size m') <= Z.of_nat (size m) + 1.
Proof. intros [= <-]. right. eexists. split; [done|]. pose proof (map_size_insert_le m f v). lia. Qed.

Lemma asame_same a r (y : aoutcome) (Q : Prop) : asame a r = Some y -> adb y = a \/ Q.
Proof. intros [= <-]. by left. Qed.

Lemma aspec_bounded n a c x : bounded n a -> 0 <= n -> aspec a c = Some x -> bounded (n + weight c) (adb x).
Proof.
  intros Hb Hn Hx. destruct c as [key f v|key f v|key args|key f i|key f i|key f|key args|key args|key|key f|key|key|key];
    cbn [aspec weight] in *; rewrite ?Z.add_0_r.
  - eapply awrite_bounded; [done..|]. cbv beta. intros m y _. apply aset_one.
  - eapply awrite_bounded; [done..|]. cbv beta. intros m y _. case_decide; [apply asame_same|apply aset_one].
  - pose proof (zlen_nonneg args). destruct (_ =? 1); [injection Hx as <-; by apply (hbounded_mono n); [|lia]|].
    eapply awrite_bounded; [done..|]. intros m y _ [= <-]. right. eexists. split; [done|]. apply set_all_size.
  - destruct (int_of _) as [d|]; [|injection Hx as <-; by apply (hbounded_mono n); [|lia]].
    eapply awrite_bounded; [done..|]. cbv beta. intros m y _. destruct (match m !! decoded f with Some s => _ | None => _ end); [|apply asame_same].
    destruct (_ || _); [apply asame_same|apply aset_one].
  - destruct (float_of _) as [d|]; [|injection Hx as <-; by apply (hbounded_mono n); [|lia]].
    eapply awrite_bounded; [done..|]. cbv beta. intros m y _. destruct (match m !! decoded f with Some s => _ | None => _ end); [|apply asame_same].
    cbv zeta. destruct (_ <=? _); [apply aset_one|done].
  - eapply aread_unchanged; [done| |exact Hx]. by intros m y [= <-].
  - eapply aread_unchanged; [done| |exact Hx]. by intros m y [= <-].
  - unfold aread in Hx. destruct (a !! key) as [[m|t]|] eqn:Ea; injection Hx as <-; [|done..]. cbn [adb]. case_decide.
    + intros k m' Hk. apply lookup_delete_Some in Hk as [_ Hk]. by apply (Hb k).
    + apply hbounded_insert; [done|]. specialize (Hb key m Ea). pose proof (del_all_size args m). lia.
  - eapply aread_unchanged; [done| |exact Hx]. by intros m y [= <-].
  - eapply aread_unchanged; [done| |exact Hx]. by intros m y [= <-].
  - eapply aread_unchanged; [done| |exact Hx]. by intros m y [= <-].
  - eapply aread_unchanged; [done| |exact Hx]. by intros m y [= <-].
  - eapply aread_unchanged; [done| |exact Hx]. by intros m y [= <-].
Qed.

Definition weights (cs : list command) : Z := foldr (fun c n => weight c + n) 0 cs.

Lemma weights_nonneg cs : 0 <= weights cs.
Proof.
  induction cs as [|c cs IH]; [done|]. cbn [weights foldr]. fold (weights cs).
  assert (0 <= weight c) by (destruct c; cbn; try lia; apply zlen_nonneg). lia.
Qed.

Lemma run_all_ok cs : forall db a n a' ars ks k, rel db a -> bounded n a -> 0 <= n -> n + weights cs <= small -> Forall command_ok cs ->
  aspec_all a cs = Some (a', ars, ks, k) ->
  exists db' rs, call_all db cs = Some (db', rs, ks, k) /\ rel db' a' /\ Forall2 matches rs ars.
Proof.
  induction cs as [|c cs IH]; intros db a n a' ars ks k Hr Hb Hn Hw Hok Hx; cbn [aspec_all call_all] in *.
  { injection Hx as <- <- <- <-. by exists db, []. }
  apply Forall_cons_iff in Hok as [Hc Hok]. cbn [weights foldr] in Hw. fold (weights cs) in Hw. pose proof (weights_nonneg cs).
  assert (0 <= weight c) by (destruct c; cbn; try lia; apply zlen_nonneg).
  destruct (aspec a c) as [x|] eqn:Ex; [|done]. cbn [mbind option_bind] in Hx.
  destruct (dispatch_ok db a n c x Hr Hb Hn) as (y & -> & Hrel & Hrep & Ht & Hd); [lia|done|done|]. cbn [mbind option_bind].
  destruct (aspec_all (adb x) cs) as [[[[a1 ars1] ks1] k1]|] eqn:Ea; [|done]. cbn in Hx. injection Hx as <- <- <- <-.
  destruct (IH (odb y) (adb x) (n + weight c) a1 ars1 ks1 k1 Hrel (aspec_bounded n a c x Hb Hn Ex)) as (db' & rs & -> & Hrel' & Hrs);
    [lia|lia|done|done|]. cbn [mbind option_bind]. rewrite Ht, Hd. exists db', (oreply y :: rs). split; [done|]. split; [done|by constructor].
Qed.

Lemma aspec_all_bounded cs : forall a n a' ars ks k, bounded n a -> 0 <= n -> aspec_all a cs = Some (a', ars, ks, k) -> bounded (n + weights cs) a'.
Proof.
  induction cs as [|c cs IH]; intros a n a' ars ks k Hb Hn Hx; cbn [aspec_all weights foldr] in *; [injection Hx as <- _ _ _; by apply (hbounded_mono n); [|lia]|].
  fold (weights cs). destruct (aspec a c) as [x|] eqn:Ex; [|done]. cbn [mbind option_bind] in Hx.
  destruct (aspec_all (adb x) cs) as [[[[a1 ars1] ks1] k1]|] eqn:Ea; [|done]. cbn in Hx. injection Hx as <- _ _ _.
  assert (0 <= weight c) by (destruct c; cbn; try lia; apply zlen_nonneg).
  rewrite Z.add_assoc. eapply IH; [by eapply aspec_bounded|lia|done].
Qed.

(** A keyspace without hashes. *)
Definition others_db (m : gmap (list Z) T) : keyspace := VOther <$> m.
Definition others_a (m : gmap (list Z) T) : akeyspace := AOther <$> m.

Lemma others_rel m : rel (others_db m) (others_a m).
Proof. intros k. unfold others_db, others_a. rewrite !lookup_fmap. by destruct (m !! k). Qed.

Lemma others_bounded m : bounded 0 (others_a m).
Proof. intros k h. unfold others_a. rewrite lookup_fmap. by destruct (m !! k). Qed.

(** C26: any sequence of the thirteen hash commands in which no HINCRBYFLOAT prints a number of more
    than 255 characters ([aspec_all] ends there: the code overruns a buffer, [long_double_overrun])
    replies, signals keys and counts changes, on a keyspace without hashes, as the same sequence on
    finite maps from strings to strings, whatever encodings the hashes take on the way (ziplist or
    hash table, rehashing or not), and runs without a failing assert or an access out of bounds:
    HKEYS, HVALS and HGETALL list every field exactly once, HINCRBY is exact or refused on 64 bits,
    a hash never stays empty.  The arguments are bounded by [command_ok] and [weights]. *)
Theorem hash_commands_refine (m0 : gmap (list Z) T) (cs : list command) a ars ks n :
  Forall command_ok cs -> weights cs <= 2 ^ 26 -> aspec_all (others_a m0) cs = Some (a, ars, ks, n) ->
  exists db rs, call_all (others_db m0) cs = Some (db, rs, ks, n) /\ Forall2 matches rs ars /\
    forall key, match db !! key with
      | Some (VHash o) => exists m, a !! key = Some (AHash m) /\ m <> ∅ /\
          snd <$> hashTypeLength o = Some (Z.of_nat (size m)) /\ forall f, snd <$> hash_field o f = Some (m !! decoded f)
      | Some (VOther t) => a !! key = Some (AOther t)
      | None => a !! key = None
      end.
Proof.
  intros Hok Hw Hx. destruct (run_all_ok cs _ _ 0 a ars ks n (others_rel m0) (others_bounded m0)) as (db & rs & Hc & Hr & Hm);
    [lia|unfold small; lia|done|done|].
  pose proof (aspec_all_bounded cs _ 0 _ _ _ _ (others_bounded m0) ltac:(lia) Hx) as Hb.
  exists db, rs. split; [done|]. split; [done|]. intros key. specialize (Hr key).
  destruct (db !! key) as [[o|t]|], (a !! key) as [[m|t']|] eqn:Ea; try done; [|by rewrite Hr].
  destruct Hr as [Ho Hne]. exists m. split; [done|]. split; [done|]. split; [by destruct (length_ok o m Ho) as (o' & -> & _)|].
  intros f. specialize (Hb key m Ea). destruct (hash_field_ok o m f Ho) as (o' & -> & _); [lia|done].
Qed.

(** The representation of a hash object is sound for its encoding. *)
Definition typed (o : hashobj) : Prop :=
  match o with
  | ZIPLIST zl => exists P, zl_is zl (flat P) /\ NoDup (fst <$> P) /\ Forall short P /\ 0 < zlen P <= hash_max_ziplist_entries
  | HT d => Dict.wf hash d /\ 0 < Dict.dictSize d
  end.

(** The typing discipline of the encodings.  After any sequence of hash commands every hash is
    non-empty and in one of its two encodings: a well-formed ziplist of distinct fields and their
    values, with at most [hash_max_ziplist_entries] fields of bounded length, or a well-formed hash
    table; and a command on a key of another type replies WRONGTYPE and leaves the keyspace, the
    signals and the dirty counter as they were. *)
Theorem hash_encodings_typed (m0 : gmap (list Z) T) (cs : list command) a ars ks n (t : T) (key : list Z) (f v : robj) :
  Forall command_ok cs -> weights cs <= 2 ^ 26 -> aspec_all (others_a m0) cs = Some (a, ars, ks, n) ->
  exists db rs, call_all (others_db m0) cs = Some (db, rs, ks, n) /\
    (forall k o, db !! k = Some (VHash o) -> typed o) /\
    (db !! key = Some (VOther t) ->
       forall c, c ∈ [HSET key f v; HSETNX key f v; HMSET key [f; v]; HINCRBY key f (RInt 1); HGET key f; HMGET key [f]; HDEL key [f];
                      HLEN key; HEXISTS key f; HKEYS key; HVALS key; HGETALL key] ->
         call db c = Some (unchanged db ReplyWrongType)).
Proof.
  intros Hok Hw Hx. destruct (run_all_ok cs _ _ 0 a ars ks n (others_rel m0) (others_bounded m0)) as (db & rs & Hc & Hr & _);
    [lia|unfold small; lia|done|done|].
  exists db, rs. split; [done|]. split.
  - intros k o Hk. specialize (Hr k). rewrite Hk in Hr. destruct (a !! k) as [[m|]|]; try done. destruct Hr as [Ho Hne].
    assert (0 < Z.of_nat (size m)) as Hsz by (destruct (decide (size m = 0%nat)) as [E|E]; [by apply map_size_empty_iff in E|lia]). destruct o as [zl|d]; cbn [typed].
    + destruct Ho as (P & Hz & Hl & ->). rewrite map_size_list in Hsz by apply Hz. destruct Hz as (? & ? & ?). by exists P.
    + destruct Ho as (mr & [Href _] & ->). rewrite decoded_size in Hsz. split; [apply Href|by rewrite (Dict.dict_refines_size hash _ _ Href)].
  - intros Hk c Hin.
    repeat (apply elem_of_cons in Hin as [->|Hin]; [cbn [call]; unfold hsetCommand, hsetnxCommand, hmsetCommand, hincrbyCommand, hgetCommand,
      hmgetCommand, hdelCommand, hlenCommand, hexistsCommand, genericHgetallCommand, lookupWriteOrCreate; by rewrite Hk|]).
    by apply not_elem_of_nil in Hin.
Qed.
End HashType.

(** ** A run *)

(** Long doubles that are integers, printed as ["%.17Lf"] does. *)
Definition demo_strtold (s : list Z) : Z * list Z * bool := strtoll s.
Definition demo_print (x : Z) : list Z := Util.ll2string_chars x ++ str ".50000000000000000".

Lemma demo_ld_int v : in_int 64 v -> demo_strtold (Util.ll2string_chars v) = (v, [], false) /\ (fun _ : Z => false) v = false.
Proof. intros Hv. split; [by apply read_chars|done]. Qed.

Definition demo_others : gmap (list Z) unit := {[ str "k" := tt ]}.

Definition demo_commands : list command :=
  [ HSET (str "h") (RRaw (str "a")) (RRaw (str "1"));
    HSETNX (str "h") (RRaw (str "a")) (RRaw (str "9"));
    HINCRBY (str "h") (RRaw (str "a")) (RRaw (str "-43"));
    HINCRBYFLOAT (str "h") (RRaw (str "a")) (RRaw (str "2"));
    HGETALL (str "h");
    HMSET (str "h") [RRaw (str "b"); RRaw (str "x"); RRaw (str "c"); RRaw (str "longer than four")];
    HINCRBY (str "h") (RRaw (str "c")) (RInt 1);
    HMGET (str "h") [RRaw (str "a"); RRaw (str "z"); RRaw (str "c")];
    HLEN (str "h"); HEXISTS (str "h") (RRaw (str "b"));
    HDEL (str "h") [RRaw (str "a"); RRaw (str "b"); RRaw (str "q")];
    HGETALL (str "h");
    HMSET (str "h") [RRaw (str "b")];
    HDEL (str "h") [RRaw (str "c")];
    HKEYS (str "h"); HGET (str "k") (RRaw (str "b")) ].

Lemma demo_hash_ok : Forall (command_ok 255) demo_commands /\ weights demo_commands <= 2 ^ 26.
Proof. split; [repeat constructor; try done; vm_compute; congruence|vm_compute; congruence]. Qed.

Definition demo_junk (i : nat) : Z := 170.
Abbreviation demo_spec := (aspec_all demo_strtold (fun _ => false) (fun v => v) Z.add demo_print (others_a demo_others) demo_commands).
Abbreviation demo_call := (call_all 5381 2 4 true demo_junk demo_strtold (fun _ => false) (fun v => v) Z.add demo_print (others_db demo_others) demo_commands).

Lemma hash_commands_refine_witness :
  exists a ars ks n db rs, demo_spec = Some (a, ars, ks, n) /\ demo_call = Some (db, rs, ks, n) /\ Forall2 matches rs ars.
Proof.
  destruct demo_spec as [[[[a ars] ks] n]|] eqn:E; [|vm_compute in E; discriminate E].
  destruct (hash_commands_refine 5381 2 4 true demo_junk demo_strtold (fun _ => false) (fun v => v) Z.add demo_print ltac:(lia) 255
    ltac:(lia) ltac:(lia) ltac:(lia) ltac:(lia) demo_ld_int demo_others demo_commands a ars ks n (proj1 demo_hash_ok) (proj2 demo_hash_ok) E)
    as (db & rs & H & Hm & _).
  exists a, ars, ks, n, db, rs. split; [reflexivity|]. split; [exact H|exact Hm].
Defined.

Lemma hash_encodings_typed_witness :
  exists db rs ks n, demo_call = Some (db, rs, ks, n) /\ forall k o, db !! k = Some (VHash o) -> typed 5381 2 255 o.
Proof.
  destruct demo_spec as [[[[a ars] ks] n]|] eqn:E; [|vm_compute in E; discriminate E].
  destruct (hash_encodings_typed 5381 2 4 true demo_junk demo_strtold (fun _ => false) (fun v => v) Z.add demo_print ltac:(lia) 255
    ltac:(lia) ltac:(lia) ltac:(lia) ltac:(lia) demo_ld_int demo_others demo_commands a ars ks n tt (str "k") (RInt 0) (RInt 0)
    (proj1 demo_hash_ok) (proj2 demo_hash_ok) E) as (db & rs & H & Ht & _).
  exists db, rs, ks, n. split; [exact H|exact Ht].
Defined.

(** What the run answers. *)
Example demo_replies : (fun x => (snd (fst (fst x)), snd x)) <$> demo_call = Some ([
    ReplyInt 1; ReplyInt 0; ReplyInt (-42); ReplyBulk (Some (str "-40.5"));
    ReplyMulti [Some (str "a"); Some (str "-40.5")]; ReplyOk; ReplyError (str "hash value is not an integer");
    ReplyMulti [Some (str "-40.5"); None; Some (str "longer than four")]; ReplyInt 3; ReplyInt 1; ReplyInt 2;
    ReplyMulti [Some (str "c"); Some (str "longer than four")]; ReplyError (str "wrong number of arguments for HMSET");
    ReplyInt 1; ReplyMulti []; ReplyWrongType], 7).
Proof. vm_compute. reflexivity. Qed.

(** HINCRBY stores a field of any length in a ziplist, where HSET converts the hash. *)
Example hincrby_long_field :
  (fun o => match odb o !! str "h" with Some (VHash (ZIPLIST _)) => true | _ => false end) <$>
    hincrbyCommand 5381 2 true demo_junk (T := unit) ∅ (str "h") (RRaw (str "longer than four")) (RInt 1) = Some true /\
  (fun o => match odb o !! str "h" with Some (VHash (ZIPLIST _)) => true | _ => false end) <$>
    hsetCommand 5381 2 4 true demo_junk (T := unit) ∅ (str "h") (RRaw (str "longer than four")) (RInt 1) = Some false.
Proof. split; vm_compute; reflexivity. Qed.

(** An increment that is the empty string is 0, and characters behind a NUL are ignored. *)
Example increment_lenient :
  getLongLongFromObject (RRaw []) = Some 0 /\ getLongLongFromObject (RRaw ([49; 50; 0; 120])) = Some 12.
Proof. split; reflexivity. Qed.

(** A number that prints as 255 characters and more overruns the buffer of createStringObjectFromLongDouble. *)
Example long_double_overrun : createStringObjectFromText (replicate 258 49 ++ str ".5") = None.
Proof. vm_compute. reflexivity. Qed.
End HashType.
