(* ===== verification/ListType.v ===== *)
(** * t_list.c: lists of strings with two encodings

    Model of the list API of [src/debug/redis/src/t_list.c] (listTypePush etc.) and of the parts of its
    commands that work on one list object.  An object is a ziplist (the bytes of [Ziplist]) or a
    linked list of string objects, a list of values here: [Adlist] shows that the nodes of
    adlist.c act as one; a node is its position.  [None] is a failing assert, a panic, an access
    out of bounds or a signed overflow.

    The class [ListOps] holds the operations that the commands of [ListCommands] are written
    with; the encoded objects implement it, and so do plain lists of strings, its specification.
    [EncodedLaws] is the statement that the encodings cannot be told from the lists. *)

From Stdlib Require Import ZArith Lia.
From stdpp Require Import prelude list gmap strings numbers.
From S2P Require Import Prelude.
From S2P Require Import Util.
From S2P Require Import Ziplist.
From S2P Require Import SetType.
From S2P Require Import HashType.

Local Open Scope Z_scope.

Module ListType.

Import SetType(robj(..), robj, decoded, robj_ok, tryObjectEncoding).

(** REDIS_HEAD and REDIS_TAIL *)
Inductive side := HEAD | TAIL.

Inductive listobj := LZIPLIST (zl : list Z) | LINKEDLIST (l : list robj).

Definition createZiplistObject : listobj := LZIPLIST Ziplist.ziplistNew.

Definition equalStringObjects (a b : robj) : bool :=
  match a, b with RInt x, RInt y => x =? y | _, _ => bool_decide (decoded a = decoded b) end.

(** listIndex on the values; the negation of the smallest long overflows. *)
Definition listIndex {A} (l : list A) (index : Z) : option (option nat) :=
  if index <? 0 then
    if index =? LLONG_MIN then None
    else let index := - index - 1 in Some (if index <? zlen l then Some (length l - 1 - Z.to_nat index)%nat else None)
  else Some (if index <? zlen l then Some (Z.to_nat index) else None).

(** listDelNode *)
Definition list_del {A} (l : list A) (i : nat) : list A := take i l ++ drop (S i) l.

Definition zval_object (v : Ziplist.zval) : robj := HashType.zval_object v.

(** ** Iterators *)

Inductive listTypeEntry := EZip (zi : Z) | EList (ln : nat).
Inductive listTypeIterator := ItZip (direction : side) (zi : option Z) | ItList (direction : side) (ln : option nat).

(** The index is an int in ziplistIndex and a long in listIndex. *)
Definition listTypeInitIterator (subject : listobj) (index : Z) (direction : side) : option listTypeIterator :=
  match subject with
  | LZIPLIST zl => zi ← Ziplist.ziplistIndex zl (swrap 32 index); Some (ItZip direction zi)
  | LINKEDLIST l => ln ← listIndex l index; Some (ItList direction ln)
  end.

Definition node_next (len i : nat) : option nat := if decide (S i < len)%nat then Some (S i) else None.
Definition node_prev (i : nat) : option nat := match i with O => None | S j => Some j end.

Definition listTypeNext (subject : listobj) (li : listTypeIterator) : option (option listTypeEntry * listTypeIterator) :=
  match subject, li with
  | LZIPLIST zl, ItZip direction zi =>
    match zi with
    | None => Some (None, li)
    | Some p =>
      next ← match direction with TAIL => Ziplist.ziplistNext zl p | HEAD => Ziplist.ziplistPrev zl p end;
      Some (Some (EZip p), ItZip direction next)
    end
  | LINKEDLIST l, ItList direction ln =>
    match ln with
    | None => Some (None, li)
    | Some i =>
      Some (Some (EList i), ItList direction (match direction with TAIL => node_next (length l) i | HEAD => node_prev i end))
    end
  | _, _ => None
  end.

Definition listTypeGet (subject : listobj) (entry : listTypeEntry) : option robj :=
  match subject, entry with
  | LZIPLIST zl, EZip p => v ← Ziplist.ziplistGet zl (Some p); v ← v; Some (zval_object v)
  | LINKEDLIST l, EList i => l !! i
  | _, _ => None
  end.

Definition listTypeEqual (subject : listobj) (entry : listTypeEntry) (o : robj) : option bool :=
  match subject, entry with
  | LZIPLIST zl, EZip p => match o with RRaw s => Ziplist.ziplistCompare zl p s | RInt _ => None end
  | LINKEDLIST l, EList i => v ← l !! i; Some (equalStringObjects o v)
  | _, _ => None
  end.

Fixpoint convert_loop (fuel : nat) (subject : listobj) (li : listTypeIterator) (l : list robj) : option (list robj) :=
  match fuel with
  | O => None
  | S fuel =>
    '(entry, li) ← listTypeNext subject li;
    match entry with
    | None => Some l
    | Some entry => v ← listTypeGet subject entry; convert_loop fuel subject li (l ++ [v])
    end
  end.

Definition entries_fuel (o : listobj) : nat := match o with LZIPLIST zl => S (S (length zl)) | LINKEDLIST l => S (S (length l)) end.

(** listTypeConvert to REDIS_ENCODING_LINKEDLIST *)
Definition listTypeConvert (subject : listobj) : option listobj :=
  li ← listTypeInitIterator subject 0 TAIL;
  l ← convert_loop (entries_fuel subject) subject li []; Some (LINKEDLIST l).

Section Operations.
Context (list_max_ziplist_entries list_max_ziplist_value : Z).
(** The bytes that realloc leaves uninitialized. *)
Context (junk : nat -> Z).

Definition listTypeTryConversion (subject : listobj) (value : robj) : option listobj :=
  match subject, value with
  | LZIPLIST _, RRaw s => if list_max_ziplist_value <? zlen s then listTypeConvert subject else Some subject
  | _, _ => Some subject
  end.

Definition listTypeLength (subject : listobj) : option (Z * listobj) :=
  match subject with
  | LZIPLIST zl => '(n, zl) ← Ziplist.ziplistLen zl; Some (n, LZIPLIST zl)
  | LINKEDLIST l => Some (zlen l, subject)
  end.

Definition zip_side (where_ : side) : Z := match where_ with HEAD => Ziplist.ZIPLIST_HEAD | TAIL => Ziplist.ZIPLIST_TAIL end.

Definition listTypePush (subject : listobj) (value : robj) (where_ : side) : option listobj :=
  subject ← listTypeTryConversion subject value;
  subject ← match subject with
    | LZIPLIST zl =>
      '(n, zl) ← Ziplist.ziplistLen zl;
      if list_max_ziplist_entries <=? n then listTypeConvert (LZIPLIST zl) else Some (LZIPLIST zl)
    | LINKEDLIST _ => Some subject
    end;
  match subject with
  | LZIPLIST zl => zl ← Ziplist.ziplistPush junk zl (decoded value) (zip_side where_); Some (LZIPLIST zl)
  | LINKEDLIST l => Some (LINKEDLIST (match where_ with HEAD => value :: l | TAIL => l ++ [value] end))
  end.

Definition listTypePop (subject : listobj) (where_ : side) : option (option robj * listobj) :=
  match subject with
  | LZIPLIST zl =>
    p ← Ziplist.ziplistIndex zl (match where_ with HEAD => 0 | TAIL => -1 end);
    v ← Ziplist.ziplistGet zl p;
    match v, p with
    | Some v, Some p => '(zl, _) ← Ziplist.ziplistDelete junk zl p; Some (Some (zval_object v), LZIPLIST zl)
    | Some _, None => None
    | None, _ => Some (None, subject)
    end
  | LINKEDLIST l =>
    let i := match where_ with HEAD => O | TAIL => (length l - 1)%nat end in
    Some (match l !! i with None => (None, subject) | Some v => (Some v, LINKEDLIST (list_del l i)) end)
  end.

Definition listTypeInsert (subject : listobj) (entry : listTypeEntry) (value : robj) (where_ : side) : option listobj :=
  match subject, entry with
  | LZIPLIST zl, EZip p =>
    match where_ with
    | TAIL =>
      next ← Ziplist.ziplistNext zl p;
      zl ← match next with
        | None => Ziplist.ziplistPush junk zl (decoded value) Ziplist.ZIPLIST_TAIL
        | Some next => Ziplist.ziplistInsert junk zl next (decoded value)
        end;
      Some (LZIPLIST zl)
    | HEAD => zl ← Ziplist.ziplistInsert junk zl p (decoded value); Some (LZIPLIST zl)
    end
  | LINKEDLIST l, EList i =>
    let k := match where_ with HEAD => i | TAIL => S i end in
    if decide (i < length l)%nat then Some (LINKEDLIST (take k l ++ value :: drop k l)) else None
  | _, _ => None
  end.

(** The iterator moves on in its direction; behind the last entry of a ziplist it points to the end
    mark. *)
Definition listTypeDelete (subject : listobj) (li : listTypeIterator) (entry : listTypeEntry) : option (listobj * listTypeIterator) :=
  match subject, entry, li with
  | LZIPLIST zl, EZip p, ItZip direction _ =>
    '(zl, p) ← Ziplist.ziplistDelete junk zl p;
    zi ← match direction with TAIL => Some (Some p) | HEAD => Ziplist.ziplistPrev zl p end;
    Some (LZIPLIST zl, ItZip direction zi)
  | LINKEDLIST l, EList i, ItList direction _ =>
    if decide (i < length l)%nat then
      let next := match direction with
        | TAIL => match node_next (length l) i with Some _ => Some i | None => None end    (* its position without the node *)
        | HEAD => node_prev i
        end in
      Some (LINKEDLIST (list_del l i), ItList direction next)
    else None
  | _, _, _ => None
  end.

(** ** What the commands do with an object *)

(** The loop of LINSERT: [None] inside when the pivot is not there. *)
Fixpoint insert_loop (fuel : nat) (subject : listobj) (iter : listTypeIterator) (refval val : robj) (where_ : side) : option (option listobj) :=
  match fuel with
  | O => None
  | S fuel =>
    '(entry, iter) ← listTypeNext subject iter;
    match entry with
    | None => Some None
    | Some entry =>
      b ← listTypeEqual subject entry refval;
      if b : bool then subject ← listTypeInsert subject entry val where_; Some (Some subject)
      else insert_loop fuel subject iter refval val where_
    end
  end.

(** The boolean tells whether the value has been inserted. *)
Definition insert_object (subject : listobj) (refval val : robj) (where_ : side) : option (listobj * bool) :=
  match refval with
  | RInt _ => None
  | RRaw _ =>
    subject ← listTypeTryConversion subject val;
    iter ← listTypeInitIterator subject 0 TAIL;
    r ← insert_loop (entries_fuel subject) subject iter refval val where_;
    match r with
    | None => Some (subject, false)
    | Some subject =>
      subject ← match subject with
        | LZIPLIST zl =>
          '(n, zl) ← Ziplist.ziplistLen zl;
          if list_max_ziplist_entries <? n then listTypeConvert (LZIPLIST zl) else Some (LZIPLIST zl)
        | LINKEDLIST _ => Some subject
        end;
      Some (subject, true)
    end
  end.

(** LINDEX: the value in the reply *)
Definition index_object (o : listobj) (index : Z) : option (option (list Z)) :=
  match o with
  | LZIPLIST zl =>
    p ← Ziplist.ziplistIndex zl (swrap 32 index);
    v ← Ziplist.ziplistGet zl p; Some (option_map (fun v => decoded (zval_object v)) v)
  | LINKEDLIST l => ln ← listIndex l index; Some (match ln with Some i => option_map decoded (l !! i) | None => None end)
  end.

(** LSET: the boolean is false for an index out of range *)
Definition set_object (o : listobj) (index : Z) (value : robj) : option (listobj * bool) :=
  o ← listTypeTryConversion o value;
  match o with
  | LZIPLIST zl =>
    p ← Ziplist.ziplistIndex zl (swrap 32 index);
    match p with
    | None => Some (o, false)
    | Some p =>
      '(zl, p) ← Ziplist.ziplistDelete junk zl p;
      zl ← Ziplist.ziplistInsert junk zl p (decoded value); Some (LZIPLIST zl, true)
    end
  | LINKEDLIST l =>
    ln ← listIndex l index;
    match ln with
    | None => Some (o, false)
    | Some i => Some (LINKEDLIST (<[i := value]> l), true)
    end
  end.

(** LRANGE: the loops over [rangelen] entries *)
Fixpoint zip_range (rangelen : nat) (zl : list Z) (p : option Z) : option (list (list Z)) :=
  match rangelen with
  | O => Some []
  | S rangelen =>
    v ← Ziplist.ziplistGet zl p; v ← v; p ← p;
    p ← Ziplist.ziplistNext zl p;
    rest ← zip_range rangelen zl p; Some (Ziplist.zval_str v :: rest)
  end.
Fixpoint list_range (rangelen : nat) (l : list robj) (ln : option nat) : option (list (list Z)) :=
  match rangelen with
  | O => Some []
  | S rangelen =>
    i ← ln; v ← l !! i;
    rest ← list_range rangelen l (node_next (length l) i); Some (decoded v :: rest)
  end.

Definition range_object (o : listobj) (llen start rangelen : Z) : option (list (list Z)) :=
  match o with
  | LZIPLIST zl => p ← Ziplist.ziplistIndex zl (swrap 32 start); zip_range (Z.to_nat rangelen) zl p
  | LINKEDLIST l =>
    let start := if llen / 2 <? start then start - llen else start in
    ln ← listIndex l start; list_range (Z.to_nat rangelen) l ln
  end.

(** LTRIM: [ltrim] and [rtrim] entries are deleted *)
Fixpoint del_first (n : nat) (l : list robj) : option (list robj) :=
  match n with O => Some l | S n => match l with [] => None | _ :: l => del_first n l end end.
Fixpoint del_last (n : nat) (l : list robj) : option (list robj) :=
  match n with O => Some l | S n => match l with [] => None | _ => del_last n (list_del l (length l - 1)) end end.

Definition trim_object (o : listobj) (ltrim rtrim : Z) : option listobj :=
  match o with
  | LZIPLIST zl =>
    zl ← Ziplist.ziplistDeleteRange junk zl 0 (uwrap 32 ltrim);
    zl ← Ziplist.ziplistDeleteRange junk zl (- rtrim) (uwrap 32 rtrim); Some (LZIPLIST zl)
  | LINKEDLIST l => l ← del_first (Z.to_nat ltrim) l; l ← del_last (Z.to_nat rtrim) l; Some (LINKEDLIST l)
  end.

(** LREM *)
Fixpoint rem_loop (fuel : nat) (subject : listobj) (li : listTypeIterator) (obj : robj) (toremove removed : Z) : option (listobj * Z) :=
  match fuel with
  | O => None
  | S fuel =>
    '(entry, li) ← listTypeNext subject li;
    match entry with
    | None => Some (subject, removed)
    | Some entry =>
      b ← listTypeEqual subject entry obj;
      if b : bool then
        '(subject, li) ← listTypeDelete subject li entry;
        let removed := removed + 1 in
        if negb (toremove =? 0) && (removed =? toremove) then Some (subject, removed)
        else rem_loop fuel subject li obj toremove removed
      else rem_loop fuel subject li obj toremove removed
    end
  end.

(** [-toremove] overflows for the smallest long. *)
Definition rem_object (subject : listobj) (toremove : Z) (obj : robj) : option (listobj * Z) :=
  let obj := match subject with LZIPLIST _ => RRaw (decoded obj) | LINKEDLIST _ => obj end in
  '(toremove, li) ← (if toremove <? 0 then
      if toremove =? LLONG_MIN then None
      else li ← listTypeInitIterator subject (-1) HEAD; Some (- toremove, li)
    else li ← listTypeInitIterator subject 0 TAIL; Some (toremove, li));
  rem_loop (entries_fuel subject) subject li obj toremove 0.

End Operations.

(** ** The specification: lists of strings *)

Class ListOps (O : Type) := {
  lo_create : O;
  lo_push : O -> robj -> side -> option O;
  lo_pop : O -> side -> option (option robj * O);
  lo_length : O -> option (Z * O);
  lo_insert : O -> robj -> robj -> side -> option (O * bool);
  lo_index : O -> Z -> option (option (list Z));
  lo_set : O -> Z -> robj -> option (O * bool);
  lo_range : O -> Z -> Z -> Z -> option (list (list Z));
  lo_trim : O -> Z -> Z -> option O;
  lo_rem : O -> Z -> robj -> option (O * Z);
}.

Definition encoded_ops (list_max_ziplist_entries list_max_ziplist_value : Z) (junk : nat -> Z) : ListOps listobj := {|
  lo_create := createZiplistObject;
  lo_push := listTypePush list_max_ziplist_entries list_max_ziplist_value junk;
  lo_pop := listTypePop junk;
  lo_length := listTypeLength;
  lo_insert := insert_object list_max_ziplist_entries list_max_ziplist_value junk;
  lo_index := index_object;
  lo_set := set_object list_max_ziplist_value junk;
  lo_range := range_object;
  lo_trim := trim_object junk;
  lo_rem := rem_object junk;
|}.

Abbreviation text := (list Z).

Definition spec_push (l : list text) (s : text) (where_ : side) : list text := match where_ with HEAD => s :: l | TAIL => l ++ [s] end.
Definition spec_pop (l : list text) (where_ : side) : option text * list text :=
  match where_ with HEAD => (l !! O, drop 1 l) | TAIL => (l !! (length l - 1)%nat, take (length l - 1) l) end.

(** In front of or behind the first occurrence of the pivot. *)
Fixpoint spec_insert (l : list text) (pivot s : text) (where_ : side) : option (list text) :=
  match l with
  | [] => None
  | x :: l =>
    if bool_decide (x = pivot) then Some (match where_ with HEAD => s :: x :: l | TAIL => x :: s :: l end)
    else cons x <$> spec_insert l pivot s where_
  end.

(** Without the first [n] occurrences, all of them for 0. *)
Fixpoint spec_rem (l : list text) (n : Z) (s : text) (removed : Z) : list text * Z :=
  match l with
  | [] => ([], removed)
  | x :: l =>
    if bool_decide (x = s) then
      if negb (n =? 0) && (removed + 1 =? n) then (l, removed + 1) else spec_rem l n s (removed + 1)
    else let '(l, r) := spec_rem l n s removed in (x :: l, r)
  end.

#[export] Instance plain_ops : ListOps (list text) := {|
  lo_create := [];
  lo_push l v where_ := Some (spec_push l (decoded v) where_);
  lo_pop l where_ := let '(v, l) := spec_pop l where_ in Some (RRaw <$> v, l);
  lo_length l := Some (zlen l, l);
  lo_insert l pivot v where_ := Some (match spec_insert l (decoded pivot) (decoded v) where_ with Some l => (l, true) | None => (l, false) end);
  lo_index l i := Some (match Ziplist.pos l i with Some k => l !! k | None => None end);
  lo_set l i v := Some (match Ziplist.pos l i with Some k => (<[k := decoded v]> l, true) | None => (l, false) end);
  lo_range l _ start rangelen := Some (take (Z.to_nat rangelen) (drop (Z.to_nat start) l));
  lo_trim l ltrim rtrim := Some (drop (Z.to_nat ltrim) (take (length l - Z.to_nat rtrim) l));
  lo_rem l n v :=
    Some (if n <? 0 then let '(l, r) := spec_rem (reverse l) (- n) (decoded v) 0 in (reverse l, r) else spec_rem l n (decoded v) 0);
|}.

(** The arguments of which the encoded objects take care. *)
Definition index_ok (i : Z) : Prop := INT32_MIN < i < 2 ^ 31.
Definition count_ok (n : Z) : Prop := LLONG_MIN < n.

(** What an implementation promises: operations on related objects succeed, give the same answers
    and leave related objects. *)
Class ListLaws {O} (ops : ListOps O) := {
  ll_is : O -> list text -> Prop;
  ll_create : ll_is lo_create [];
  ll_push : forall o l v w, ll_is o l -> robj_ok v -> exists o', lo_push o v w = Some o' /\ ll_is o' (spec_push l (decoded v) w);
  ll_pop : forall o l w, ll_is o l -> exists v o', lo_pop o w = Some (v, o') /\ ll_is o' (spec_pop l w).2 /\
    option_map decoded v = (spec_pop l w).1 /\ (forall x, v = Some x -> robj_ok x);
  ll_length : forall o l, ll_is o l -> exists o', lo_length o = Some (zlen l, o') /\ ll_is o' l;
  ll_insert : forall o l s v w, ll_is o l -> robj_ok v -> exists o' b, lo_insert o (RRaw s) v w = Some (o', b) /\
    match spec_insert l s (decoded v) w with Some l' => b = true /\ ll_is o' l' | None => b = false /\ ll_is o' l end;
  ll_index : forall o l i, ll_is o l -> index_ok i -> lo_index o i = Some (match Ziplist.pos l i with Some k => l !! k | None => None end);
  ll_set : forall o l i v, ll_is o l -> index_ok i -> robj_ok v -> exists o' b, lo_set o i v = Some (o', b) /\
    match Ziplist.pos l i with Some k => b = true /\ ll_is o' (<[k := decoded v]> l) | None => b = false /\ ll_is o' l end;
  ll_range : forall o l start n, ll_is o l -> zlen l < 2 ^ 63 -> 0 <= start -> 0 <= n -> start + n <= zlen l -> start < zlen l ->
    lo_range o (zlen l) start n = Some (take (Z.to_nat n) (drop (Z.to_nat start) l));
  ll_trim : forall o l a b, ll_is o l -> 0 <= a -> 0 <= b -> a + b <= zlen l ->
    exists o', lo_trim o a b = Some o' /\ ll_is o' (drop (Z.to_nat a) (take (length l - Z.to_nat b) l));
  ll_rem : forall o l n v, ll_is o l -> count_ok n -> robj_ok v -> exists o' r, lo_rem o n v = Some (o', r) /\
    let '(l', r') := (if n <? 0 then let '(l', r) := spec_rem (reverse l) (- n) (decoded v) 0 in (reverse l', r) else spec_rem l n (decoded v) 0) in
    ll_is o' l' /\ r = r';
}.

(** ** Objects and iterators *)

Section Proofs.
Context (list_max_ziplist_entries list_max_ziplist_value : Z) (junk : nat -> Z).

Abbreviation pos A := (Ziplist.at_ (Ziplist.enc A)).

(** The ziplist [zl] with the entries [rs] holds the strings [l]. *)
Definition zrep (zl : list Z) (rs : list Ziplist.raw) (l : list text) : Prop :=
  exists c, Ziplist.repr zl c rs /\ Ziplist.tidy true rs /\ Ziplist.strs rs = l.

Lemma zrep_length zl rs l : zrep zl rs l -> length rs = length l.
Proof. intros (c & _ & _ & <-). unfold Ziplist.strs. by rewrite length_fmap. Qed.

Lemma zrep_split zl rs l i x : zrep zl rs l -> l !! i = Some x ->
  exists c r, Ziplist.repr zl c (take i rs ++ r :: drop (S i) rs) /\ Ziplist.tidy true (take i rs ++ r :: drop (S i) rs) /\ r.2 = x /\ rs !! i = Some r.
Proof.
  intros (c & Hr & Ht & <-) Hx. unfold Ziplist.strs in Hx. rewrite list_lookup_fmap in Hx. destruct (rs !! i) as [r|] eqn:Er; [|done].
  exists c, r. rewrite take_drop_middle by done. injection Hx as Hx. by split_and!.
Qed.

(** The object is the list. *)
Definition rep (o : listobj) (l : list text) : Prop :=
  match o with
  | LZIPLIST zl => Ziplist.holds true zl l
  | LINKEDLIST l' => decoded <$> l' = l /\ Forall robj_ok l'
  end.

Lemma holds_zrep zl l : Ziplist.holds true zl l <-> exists rs, zrep zl rs l.
Proof. split; [intros (c & rs & H); by exists rs, c|intros (rs & c & H); by exists c, rs]. Qed.

(** The entry with the index [i], and an iterator that points to the index [k]. *)
Definition at_entry (o : listobj) (l : list text) (i : nat) (e : listTypeEntry) : Prop :=
  match o, e with
  | LZIPLIST zl, EZip p => exists rs, zrep zl rs l /\ p = pos (take i rs)
  | LINKEDLIST l', EList j => rep o l /\ j = i
  | _, _ => False
  end.

Definition at_index (o : listobj) (l : list text) (d : side) (li : listTypeIterator) (k : option nat) : Prop :=
  (forall i, k = Some i -> (i <= length l)%nat) /\
  match o, li with
  | LZIPLIST zl, ItZip d' zi => d' = d /\ exists rs, zrep zl rs l /\ zi = (fun k => pos (take k rs)) <$> k
  | LINKEDLIST l', ItList d' ln => d' = d /\ rep o l /\ ln = k /\ (forall i, k = Some i -> (i < length l)%nat)
  | _, _ => False
  end.

Definition advance (l : list text) (d : side) (i : nat) : option nat := match d with TAIL => node_next (length l) i | HEAD => node_prev i end.

Lemma linked_length l' l : rep (LINKEDLIST l') l -> length l' = length l.
Proof. intros [<- _]. by rewrite length_fmap. Qed.

Lemma init_head o l : rep o l -> exists li, listTypeInitIterator o 0 TAIL = Some li /\ at_index o l TAIL li (if decide (l = []) then None else Some O).
Proof.
  intros Ho. destruct o as [zl|l']; cbn [rep listTypeInitIterator] in *.
  - apply holds_zrep in Ho as (rs & Hz). pose proof Hz as (c & Hr & _ & Hl). change (swrap 32 0) with (Z.of_nat 0). rewrite (Ziplist.index_nat zl c rs 0 Hr).
    cbn [mbind option_bind]. eexists. split; [done|]. split; [intros i; destruct (decide (l = [])); [done|intros [= <-]; lia]|]. split; [done|].
    exists rs. split; [done|]. rewrite (zrep_length zl rs l Hz). destruct l; [by rewrite decide_False by (cbn; lia)|by rewrite decide_True by (cbn; lia)].
  - pose proof (linked_length l' l Ho) as Hlen. unfold listIndex. change (0 <? 0) with false. cbv iota. cbn [mbind option_bind]. eexists. split; [done|].
    split; [intros i; destruct (decide (l = [])); [done|intros [= <-]; lia]|]. split; [done|]. split; [done|].
    unfold zlen. rewrite Hlen. destruct l as [|x l]; [by split|]. rewrite decide_False by done. split; [done|]. intros i [= <-]. cbn. lia.
Qed.

Lemma init_tail o l : rep o l -> exists li, listTypeInitIterator o (-1) HEAD = Some li /\
  at_index o l HEAD li (if decide (l = []) then None else Some (length l - 1)%nat).
Proof.
  intros Ho. destruct o as [zl|l']; cbn [rep listTypeInitIterator] in *.
  - apply holds_zrep in Ho as (rs & Hz). pose proof Hz as (c & Hr & _ & Hl). change (swrap 32 (-1)) with (-1). rewrite (Ziplist.ziplistIndex_ok zl c rs (-1) Hr) by done.
    cbn [mbind option_bind]. eexists. split; [done|]. split; [intros i; destruct (decide (l = [])); [done|intros [= <-]; lia]|]. split; [done|].
    exists rs. split; [done|]. pose proof (zrep_length zl rs l Hz) as Hlen. unfold Ziplist.pos. change (0 <=? -1) with false. cbv iota. unfold zlen. rewrite Hlen.
    destruct l as [|x l]; [done|]. rewrite decide_False by done. destruct (Z.leb_spec (- -1) (Z.of_nat (length (x :: l)))); [|cbn in *; lia].
    cbn [fmap option_fmap option_map]. by replace (Z.to_nat (Z.of_nat (length (x :: l)) + -1)) with (length (x :: l) - 1)%nat by lia.
  - pose proof (linked_length l' l Ho) as Hlen. unfold listIndex. change (-1 <? 0) with true. change (-1 =? LLONG_MIN) with false. cbv iota zeta. cbn [mbind option_bind].
    eexists. split; [done|]. split; [intros i; destruct (decide (l = [])); [done|intros [= <-]; lia]|]. split; [done|]. split; [done|].
    unfold zlen. rewrite Hlen. destruct l as [|x l]; [by split|]. rewrite decide_False by done. change (Z.to_nat (- -1 - 1)) with O.
    destruct (Z.ltb_spec (- -1 - 1) (Z.of_nat (length (x :: l)))); [|cbn in *; lia]. split; [f_equal; lia|]. intros i [= <-]. cbn. lia.
Qed.

Lemma next_none o l d li : at_index o l d li None -> listTypeNext o li = Some (None, li).
Proof.
  intros [_ H]. destruct o as [zl|l'], li as [d' zi|d' ln]; try done.
  - destruct H as (-> & rs & _ & ->). done.
  - destruct H as (-> & _ & -> & _). done.
Qed.

Lemma next_ok o l d li i : at_index o l d li (Some i) -> (i < length l)%nat ->
  exists e li', listTypeNext o li = Some (Some e, li') /\ at_entry o l i e /\ at_index o l d li' (advance l d i).
Proof.
  intros [_ H] Hi. assert (forall k, advance l d i = Some k -> (k < length l)%nat) as Hadv.
  { intros k. unfold advance, node_next, node_prev. destruct d; [destruct i; [done|intros [= <-]; lia]|]. case_decide; [|done]. by intros [= <-]. }
  destruct o as [zl|l'], li as [d' zi|d' ln]; try done.
  - destruct H as (-> & rs & Hz & ->). destruct (lookup_lt_is_Some_2 l i Hi) as [x Hx]. destruct (zrep_split zl rs l i x Hz Hx) as (c & r & Hr & _ & _ & Er).
    pose proof (zrep_length zl rs l Hz) as Hlen. cbn [fmap option_fmap option_map listTypeNext].
    assert (match d with TAIL => Ziplist.ziplistNext zl (pos (take i rs)) | HEAD => Ziplist.ziplistPrev zl (pos (take i rs)) end =
      Some ((fun k => pos (take k rs)) <$> advance l d i)) as ->.
    { destruct d; cbn [advance].
      - rewrite (Ziplist.ziplistPrev_ok zl c _ _ Hr). rewrite length_take. destruct i as [|i]; [done|]. cbn [node_prev fmap option_fmap option_map].
        replace (S i `min` length rs - 1)%nat with i by lia. rewrite take_take. replace (i `min` S i)%nat with i by lia. by destruct rs.
      - rewrite (Ziplist.ziplistNext_ok zl c _ r _ Hr), <- (take_S_r _ _ _ Er). unfold node_next. rewrite <- Hlen.
        assert (length (drop (S i) rs) = (length rs - S i)%nat) as Hd by apply length_drop.
        destruct (drop (S i) rs) eqn:Ed; case_decide; cbn [length] in Hd; try lia; done. }
    cbn [mbind option_bind]. eexists _, _. split; [done|]. split; [by exists rs|]. split; [intros k Hk; specialize (Hadv k Hk); lia|]. split; [done|]. by exists rs.
  - destruct H as (-> & Hr & -> & _). cbn [listTypeNext]. eexists _, _. split; [done|]. split; [done|].
    split; [intros k Hk; specialize (Hadv k Hk); lia|]. split; [done|]. split; [done|]. rewrite (linked_length l' l Hr). by split.
Qed.

(** Behind the last entry of a ziplist: the end mark is an entry that equals nothing. *)
Lemma next_end o l li : at_index o l TAIL li (Some (length l)) -> exists e li', listTypeNext o li = Some (Some e, li') /\ at_index o l TAIL li' None /\
  forall s, listTypeEqual o e (RRaw s) = Some false.
Proof.
  intros [_ H]. destruct o as [zl|l'], li as [d' zi|d' ln]; try done.
  - destruct H as (-> & rs & Hz & ->). pose proof (zrep_length zl rs l Hz) as Hlen. pose proof Hz as (c & Hr & _ & _).
    cbn [fmap option_fmap option_map listTypeNext]. rewrite take_ge by lia. unfold Ziplist.ziplistNext. rewrite (Ziplist.repr_end zl c rs Hr). cbn [mbind option_bind].
    rewrite Z.eqb_refl. eexists _, _. split; [done|]. split; [split; [done|]; split; [done|]; by exists rs|].
    intros s. cbn [listTypeEqual]. unfold Ziplist.ziplistCompare. rewrite (Ziplist.repr_end zl c rs Hr). cbn [mbind option_bind]. by rewrite Z.eqb_refl.
  - destruct H as (_ & _ & -> & H). specialize (H _ eq_refl). lia.
Qed.

Lemma equal_objects a b : robj_ok a -> robj_ok b -> equalStringObjects a b = bool_decide (decoded b = decoded a).
Proof.
  intros Ha Hb. destruct a as [x|s], b as [y|t]; cbn [equalStringObjects decoded] in *; try (by apply bool_decide_ext).
  destruct (Z.eqb_spec x y) as [->|Hne]; [by rewrite bool_decide_true|]. rewrite bool_decide_false; [done|].
  intros E. apply Hne. symmetry. by apply SetType.ll2string_inj.
Qed.

(** The object that listTypeEqual compares with is not an integer when the list is a ziplist. *)
Definition comparable (o : listobj) (v : robj) : Prop := robj_ok v /\ match o with LZIPLIST _ => v = RRaw (decoded v) | LINKEDLIST _ => True end.

Lemma equal_ok o l i e s v : at_entry o l i e -> l !! i = Some s -> comparable o v -> listTypeEqual o e v = Some (bool_decide (s = decoded v)).
Proof.
  intros He Hs [Hv Hraw]. destruct o as [zl|l'], e as [p|j]; try done.
  - destruct He as (rs & Hz & ->). destruct (zrep_split zl rs l i s Hz Hs) as (c & r & Hr & _ & <- & _). rewrite Hraw. cbn [listTypeEqual decoded].
    by apply (Ziplist.ziplistCompare_ok zl c _ r (drop (S i) rs)).
  - destruct He as [[<- Hok] ->]. cbn [listTypeEqual]. rewrite list_lookup_fmap in Hs. destruct (l' !! i) as [x|] eqn:Ex; [|done].
    injection Hs as <-. cbn [mbind option_bind]. rewrite Forall_lookup in Hok. rewrite equal_objects; [done|done|by apply (Hok i)].
Qed.

Lemma get_ok o l i e s : at_entry o l i e -> l !! i = Some s -> exists v, listTypeGet o e = Some v /\ decoded v = s /\ robj_ok v.
Proof.
  intros He Hs. destruct o as [zl|l'], e as [p|j]; try done.
  - destruct He as (rs & Hz & ->). destruct (zrep_split zl rs l i s Hz Hs) as (c & r & Hr & _ & <- & _). cbn [listTypeGet].
    rewrite (Ziplist.ziplistGet_ok zl c _ r (drop (S i) rs) Hr). cbn [mbind option_bind]. eexists. split; [done|]. apply HashType.zval_object_ok.
  - destruct He as [[<- Hok] ->]. cbn [listTypeGet]. rewrite list_lookup_fmap in Hs. destruct (l' !! i) as [x|] eqn:Ex; [|done].
    injection Hs as <-. exists x. split; [done|]. split; [done|]. rewrite Forall_lookup in Hok. by apply (Hok i).
Qed.

Definition same_encoding (o o' : listobj) : Prop :=
  match o, o' with LZIPLIST _, LZIPLIST _ | LINKEDLIST _, LINKEDLIST _ => True | _, _ => False end.

(** The position from which the entries from [i] on are visited. *)
Definition from (l : list text) (i : nat) : option nat := if decide (i < length l)%nat then Some i else None.

Lemma fuel_length o l : rep o l -> (S (length l) < entries_fuel o)%nat.
Proof.
  intros Ho. destruct o as [zl|l']; cbn [entries_fuel].
  - apply holds_zrep in Ho as (rs & Hz). pose proof Hz as (c & Hr & _). pose proof (Ziplist.fuel_ok zl c rs Hr). rewrite <- (zrep_length zl rs l Hz). lia.
  - rewrite <- (linked_length l' l Ho). lia.
Qed.

Lemma init_from o l : rep o l -> exists li, listTypeInitIterator o 0 TAIL = Some li /\ at_index o l TAIL li (from l 0).
Proof.
  intros Ho. destruct (init_head o l Ho) as (li & -> & Hli). exists li. split; [done|]. unfold from. by destruct l.
Qed.

Lemma object_convert_loop_ok o l : forall n fuel li i acc, (length l - i = n)%nat -> (n < fuel)%nat -> at_index o l TAIL li (from l i) ->
  decoded <$> acc = take i l -> Forall robj_ok acc ->
  exists l', convert_loop fuel o li acc = Some l' /\ decoded <$> l' = l /\ Forall robj_ok l'.
Proof.
  induction n as [|n IH]; intros fuel li i acc Hn Hf Hli Hacc Hok; (destruct fuel as [|fuel]; [lia|]); cbn [convert_loop]; unfold from in Hli.
  - rewrite decide_False in Hli by lia. rewrite (next_none o l TAIL li Hli). exists acc. rewrite take_ge in Hacc by lia. by split_and!.
  - rewrite decide_True in Hli by lia. destruct (next_ok o l TAIL li i Hli) as (e & li' & -> & He & Hli'); [lia|]. cbn [mbind option_bind].
    destruct (lookup_lt_is_Some_2 l i) as [s Hs]; [lia|]. destruct (get_ok o l i e s He Hs) as (v & -> & Hd & Hv). cbn [mbind option_bind].
    apply (IH fuel li' (S i) (acc ++ [v])); [lia|lia|exact Hli'| |].
    + rewrite fmap_app, Hacc, (take_S_r _ _ _ Hs). cbn. by rewrite Hd.
    + apply Forall_app. split; [done|by constructor].
Qed.

Lemma object_convert_ok o l : rep o l -> exists l', listTypeConvert o = Some (LINKEDLIST l') /\ rep (LINKEDLIST l') l.
Proof.
  intros Ho. unfold listTypeConvert. destruct (init_from o l Ho) as (li & -> & Hli). cbn [mbind option_bind].
  destruct (object_convert_loop_ok o l (length l - 0) (entries_fuel o) li 0 []) as (l' & -> & Hl); [done|pose proof (fuel_length o l Ho); lia|done|done|constructor|].
  by exists l'.
Qed.

(** *** Inserting and deleting at an entry *)

Definition room_for (o : listobj) (l : list text) (v : robj) : Prop :=
  match o with LZIPLIST _ => Ziplist.small (decoded v) = true /\ Ziplist.cost l + (14 + zlen (decoded v)) < 2 ^ 32 | LINKEDLIST _ => True end.

Lemma insert_entry_ok o l i e s v w : at_entry o l i e -> l !! i = Some s -> robj_ok v -> room_for o l v ->
  exists o', listTypeInsert junk o e v w = Some o' /\ rep o' (let k := match w with HEAD => i | TAIL => S i end in take k l ++ decoded v :: drop k l) /\ same_encoding o o'.
Proof.
  intros He Hs Hv Hroom. destruct o as [zl|l'], e as [p|j]; try done.
  - destruct Hroom as [Hsmall Hcost]. destruct He as (rs & Hz & ->). destruct (zrep_split zl rs l i s Hz Hs) as (c & r & Hr & Ht & <- & Er). pose proof Hz as (_ & _ & _ & <-).
    assert (forall k, exists zl', Ziplist.ziplistInsert junk zl (pos (take k rs)) (decoded v) = Some zl' /\
      Ziplist.holds true zl' (take k (Ziplist.strs rs) ++ decoded v :: drop k (Ziplist.strs rs))) as Hins.
    { intros k. rewrite take_drop_middle in Hr, Ht by done. rewrite Ziplist.take_strs, Ziplist.drop_strs. rewrite <- (take_drop k rs) in Hr, Ht, Hcost.
      apply (Ziplist.insert_holds junk true zl c (take k rs) (drop k rs)); auto. }
    cbn [listTypeInsert]. destruct w.
    + destruct (Hins i) as (zl' & -> & Hh). cbn [mbind option_bind]. by exists (LZIPLIST zl').
    + rewrite (Ziplist.ziplistNext_ok zl c _ r _ Hr), <- (take_S_r _ _ _ Er). cbn [mbind option_bind]. destruct (drop (S i) rs) as [|r' B] eqn:Ed.
      * destruct (Ziplist.ziplistPush_ok junk true zl (Ziplist.strs rs) (decoded v) Ziplist.ZIPLIST_TAIL) as (zl' & -> & Hh); [apply holds_zrep; by exists rs|auto|done|].
        cbn [mbind option_bind]. exists (LZIPLIST zl'). split; [done|]. split; [|done]. cbn [rep]. cbn [Ziplist.spec_step] in Hh.
        change (Ziplist.ZIPLIST_TAIL =? Ziplist.ZIPLIST_HEAD) with false in Hh. cbv iota in Hh.
        rewrite Ziplist.drop_strs, Ed. change (Ziplist.strs []) with (@nil text). assert (length rs <= S i)%nat by (apply (f_equal length) in Ed; rewrite length_drop in Ed; cbn in Ed; lia).
        rewrite take_ge by (unfold Ziplist.strs; rewrite length_fmap; lia). done.
      * destruct (Hins (S i)) as (zl' & -> & Hh). cbn [mbind option_bind]. by exists (LZIPLIST zl').
  - destruct He as [[<- Hok] ->]. cbn [listTypeInsert]. rewrite list_lookup_fmap in Hs. destruct (l' !! i) as [x|] eqn:Ex; [|done]. apply lookup_lt_Some in Ex.
    rewrite decide_True by done. eexists. split; [done|]. cbn zeta. set (k := match w with HEAD => i | TAIL => S i end). split; [|done]. split.
    + rewrite fmap_app, fmap_cons. by rewrite fmap_take, fmap_drop.
    + apply Forall_app. split; [by apply Forall_take|]. constructor; [done|by apply Forall_drop].
Qed.

Lemma list_del_fmap {A B} (f : A -> B) (l : list A) i : f <$> list_del l i = list_del (f <$> l) i.
Proof. unfold list_del. by rewrite fmap_app, fmap_take, fmap_drop. Qed.

Lemma length_list_del {A} (l : list A) i : (i < length l)%nat -> length (list_del l i) = (length l - 1)%nat.
Proof. intros Hi. unfold list_del. rewrite length_app, length_take, length_drop. lia. Qed.

Lemma Forall_list_del {A} (P : A -> Prop) l i : Forall P l -> Forall P (list_del l i).
Proof. intros H. apply Forall_app. split; [by apply Forall_take|by apply Forall_drop]. Qed.

(** Deleting an entry of a ziplist. *)
Lemma zip_delete_entry zl rs l i s : zrep zl rs l -> l !! i = Some s ->
  exists zl' rs', Ziplist.ziplistDelete junk zl (pos (take i rs)) = Some (zl', pos (take i rs')) /\ zrep zl' rs' (list_del l i).
Proof.
  intros Hz Hs. destruct (zrep_split zl rs l i s Hz Hs) as (c & r & Hr & Ht & <- & Er). pose proof Hz as (_ & _ & _ & <-).
  destruct (HashType.delete_one junk zl c (take i rs) r (drop (S i) rs) Hr) as (zl' & c' & -> & Hr').
  exists zl', (take i rs ++ Ziplist.relink (Ziplist.last_size 0 (take i rs)) (drop (S i) rs)). apply lookup_lt_Some in Er. split.
  - rewrite take_app_le by (rewrite length_take; lia). by rewrite take_take, Nat.min_id.
  - exists c'. split; [done|]. split; [by apply (Ziplist.tidy_delete true (take i rs) [r])|].
    unfold list_del. by rewrite Ziplist.strs_app, Ziplist.relink_strs, Ziplist.take_strs, Ziplist.drop_strs.
Qed.

(** The iterator behind a deletion. *)
Definition behind (o : listobj) (l : list text) (d : side) (i : nat) : option nat :=
  match d with
  | HEAD => node_prev i
  | TAIL => match o with LZIPLIST _ => Some i | LINKEDLIST _ => from l i end
  end.

Lemma delete_entry_ok o l d li li' i e s : at_entry o l i e -> at_index o l d li li' -> l !! i = Some s ->
  exists o' li', listTypeDelete junk o li e = Some (o', li') /\ rep o' (list_del l i) /\
    at_index o' (list_del l i) d li' (behind o (list_del l i) d i) /\ same_encoding o o'.
Proof.
  intros He [_ Hli] Hs. pose proof (lookup_lt_Some _ _ _ Hs) as Hi. pose proof (length_list_del l i Hi) as Hlen.
  destruct o as [zl|l'], e as [p|j], li as [d' zi|d' ln]; try done.
  - destruct He as (rs & Hz & ->). destruct Hli as [-> _]. cbn [listTypeDelete]. destruct (zip_delete_entry zl rs l i s Hz Hs) as (zl' & rs' & -> & Hz').
    cbn [mbind option_bind]. pose proof Hz' as (c' & Hr' & _). pose proof (zrep_length _ _ _ Hz') as Hlen'.
    assert (match d with TAIL => Some (Some (pos (take i rs'))) | HEAD => Ziplist.ziplistPrev zl' (pos (take i rs')) end =
      Some ((fun k => pos (take k rs')) <$> behind (LZIPLIST zl) (list_del l i) d i)) as ->.
    { destruct d; [|done]. cbn [behind]. rewrite <- (take_drop i rs') in Hr'. rewrite (Ziplist.ziplistPrev_ok zl' c' _ _ Hr'), length_take.
      destruct i as [|i]; [done|]. cbn [node_prev fmap option_fmap option_map]. rewrite take_take.
      replace ((S i `min` length rs' - 1) `min` S i)%nat with i by lia. destruct rs'; [cbn in Hlen'; lia|done]. }
    cbn [mbind option_bind]. eexists _, _. split; [done|]. split; [apply holds_zrep; by exists rs'|]. split; [|done]. split.
    + intros k. unfold behind, node_prev. destruct d; [destruct i; [done|]|]; intros [= <-]; lia.
    + split; [done|]. by exists rs'.
  - destruct He as [[<- Hok] ->]. destruct Hli as (-> & Hr & _). cbn [listTypeDelete]. rewrite length_fmap in *. rewrite decide_True by done.
    eexists _, _. split; [done|]. assert (rep (LINKEDLIST (list_del l' i)) (list_del (decoded <$> l') i)) as Hrep.
    { split; [apply list_del_fmap|by apply Forall_list_del]. }
    split; [done|]. split; [|done]. unfold behind, from. rewrite Hlen. unfold node_next. split.
    + intros k. destruct d; [destruct i; [done|]; intros [= <-]; cbn [length] in *; rewrite ?Hlen; lia|]. case_decide; [|done]. intros [= <-]. lia.
    + split; [done|]. split; [done|]. split.
      * destruct d; [done|]. repeat case_decide; try lia; done.
      * intros k. destruct d; [destruct i; [done|]; intros [= <-]; lia|]. case_decide; [|done]. intros [= <-]. lia.
Qed.

(** *** The laws *)

Context (entries_ok : 0 <= list_max_ziplist_entries).
(** Strings in the ziplists have at most [LL] bytes, so that LINSERT cannot meet the defect of
    [Ziplist.insert_hazard_corrupts]. *)
Context (LL : Z) (LL_text : 20 <= LL) (LL_value : list_max_ziplist_value <= LL) (LL_small : LL <= 243).
Context (LL_room : (list_max_ziplist_entries + 2) * (14 + LL) + 11 < 2 ^ 32).

Definition within (l : list text) (n : Z) : Prop := zlen l <= n /\ Forall (fun s => zlen s <= LL) l.
Definition enc_is (o : listobj) (l : list text) : Prop :=
  rep o l /\ match o with LZIPLIST _ => within l list_max_ziplist_entries | LINKEDLIST _ => True end.

Lemma small_text s : zlen s <= LL -> Ziplist.small s = true.
Proof.
  intros Hs. pose proof (Ziplist.rsize_le true 0 s) as H. unfold Ziplist.small. apply Z.leb_le.
  unfold Ziplist.rsize, Ziplist.enc1 in H. rewrite zlen_app, Ziplist.zlen_enc_prev in H. cbn [Ziplist.psize] in H. lia.
Qed.

Lemma cost_within l n : within l n -> Ziplist.cost l <= n * (14 + LL) + 11.
Proof.
  intros [Hn Hl]. assert (Ziplist.cost l <= zlen l * (14 + LL) + 11) as H.
  { clear Hn. induction Hl as [|s l Hs _ IH]; [done|]. change (Ziplist.cost (s :: l)) with (14 + zlen s + Ziplist.cost l). rewrite zlen_cons. lia. }
  nia.
Qed.

Lemma zip_length zl l : Ziplist.holds true zl l -> exists zl', Ziplist.ziplistLen zl = Some (zlen l, zl') /\ Ziplist.holds true zl' l.
Proof.
  intros (c & rs & Hr & Ht & <-). destruct (Ziplist.ziplistLen_ok zl c rs Hr) as (zl' & c' & -> & Hr'). exists zl'.
  split; [unfold Ziplist.strs, zlen; by rewrite length_fmap|]. by exists c', rs.
Qed.

Lemma try_conversion_ok o l v : enc_is o l -> robj_ok v -> exists o', listTypeTryConversion list_max_ziplist_value o v = Some o' /\ enc_is o' l /\
  match o' with LZIPLIST _ => zlen (decoded v) <= LL | LINKEDLIST _ => True end.
Proof.
  intros [Ho Hin] Hv. destruct o as [zl|l']; cbn [listTypeTryConversion]; [|by exists (LINKEDLIST l')]. destruct v as [x|s]; cbn [decoded].
  - exists (LZIPLIST zl). split; [done|]. split; [done|]. pose proof (Util.ll2string_chars_len x Hv). lia.
  - destruct (Z.ltb_spec list_max_ziplist_value (zlen s)); [|exists (LZIPLIST zl); split; [done|]; split; [done|lia] ].
    destruct (object_convert_ok _ l Ho) as (l' & -> & Hl'). by exists (LINKEDLIST l').
Qed.

Lemma listTypeLength_ok o l : enc_is o l -> exists o', listTypeLength o = Some (zlen l, o') /\ enc_is o' l.
Proof.
  intros [Ho Hin]. destruct o as [zl|l']; cbn [listTypeLength].
  - destruct (zip_length zl l Ho) as (zl' & -> & Hh). cbn [mbind option_bind]. by exists (LZIPLIST zl').
  - exists (LINKEDLIST l'). split; [unfold zlen; by rewrite (linked_length l' l Ho)|done].
Qed.

Lemma listTypePush_ok o l v w : enc_is o l -> robj_ok v ->
  exists o', listTypePush list_max_ziplist_entries list_max_ziplist_value junk o v w = Some o' /\ enc_is o' (spec_push l (decoded v) w).
Proof.
  intros Ho Hv. unfold listTypePush. destruct (try_conversion_ok o l v Ho Hv) as (o1 & -> & [H1 Hin1] & Hshort). cbn [mbind option_bind].
  assert (exists o2, (match o1 with
      | LZIPLIST zl => '(n, zl) ← Ziplist.ziplistLen zl; if list_max_ziplist_entries <=? n then listTypeConvert (LZIPLIST zl) else Some (LZIPLIST zl)
      | LINKEDLIST _ => Some o1 end) = Some o2 /\ rep o2 l /\
      match o2 with LZIPLIST _ => zlen (decoded v) <= LL /\ within l (list_max_ziplist_entries - 1) | LINKEDLIST _ => True end) as (o2 & -> & H2 & Hin2).
  { destruct o1 as [zl|l']; [|by exists (LINKEDLIST l')]. destruct (zip_length zl l H1) as (zl' & -> & Hh). cbn [mbind option_bind].
    destruct (Z.leb_spec list_max_ziplist_entries (zlen l)).
    - destruct (object_convert_ok (LZIPLIST zl') l Hh) as (l' & -> & Hl'). by exists (LINKEDLIST l').
    - exists (LZIPLIST zl'). split; [done|]. split; [done|]. split; [done|]. destruct Hin1. split; [lia|done]. }
  cbn [mbind option_bind]. destruct o2 as [zl|l'].
  - destruct Hin2 as [Hs Hin2]. pose proof (cost_within l _ Hin2) as Hc.
    destruct (Ziplist.ziplistPush_ok junk true zl l (decoded v) (zip_side w) H2) as (zl' & -> & Hh); [intros _; by apply small_text|nia|].
    cbn [mbind option_bind]. exists (LZIPLIST zl'). split; [done|]. destruct Hin2 as [Hlen Hall]. destruct w; (split; [exact Hh|]); cbn [spec_push]; split.
    + rewrite zlen_cons. lia.
    + by constructor.
    + rewrite zlen_app. change (zlen [decoded v]) with 1. lia.
    + apply Forall_app. split; [done|by constructor].
  - destruct H2 as [<- Hok]. eexists. split; [done|]. split; [|done]. destruct w; cbn [spec_push rep].
    + split; [done|by constructor].
    + split; [by rewrite fmap_app|]. apply Forall_app. split; [done|by constructor].
Qed.

Lemma within_sub l l' n : within l n -> l' `sublist_of` l -> within l' n.
Proof.
  intros [Hn Hl] Hs. split; [unfold zlen in *; pose proof (sublist_length _ _ Hs); lia|]. 
  apply Forall_forall. intros x Hx%list_elem_of_In. rewrite Forall_forall in Hl. apply Hl, list_elem_of_In. by eapply elem_of_sublist.
Qed.

Lemma list_del_sub {A} (l : list A) i : list_del l i `sublist_of` l.
Proof.
  rewrite <- (take_drop i l) at 2. unfold list_del. apply sublist_app; [done|]. replace (S i) with (i + 1)%nat by lia. rewrite <- drop_drop. apply sublist_drop.
Qed.

Lemma spec_pop_del l w : spec_pop l w = let i := match w with HEAD => O | TAIL => (length l - 1)%nat end in (l !! i, list_del l i).
Proof.
  destruct w; cbn [spec_pop]; f_equal. unfold list_del. destruct l as [|x l]; [done|]. rewrite drop_ge by (cbn; lia). by rewrite app_nil_r.
Qed.

Lemma listTypePop_ok o l w : enc_is o l -> exists v o', listTypePop junk o w = Some (v, o') /\ enc_is o' (spec_pop l w).2 /\
  option_map decoded v = (spec_pop l w).1 /\ (forall x, v = Some x -> robj_ok x).
Proof.
  intros [Ho Hin]. rewrite spec_pop_del. cbn zeta. set (i := match w with HEAD => O | TAIL => (length l - 1)%nat end). cbn [fst snd].
  destruct o as [zl|l']; cbn [listTypePop].
  - apply holds_zrep in Ho as (rs & Hz). pose proof Hz as (c & Hr & _ & _). pose proof (zrep_length zl rs l Hz) as Hlen.
    assert (Ziplist.ziplistIndex zl (match w with HEAD => 0 | TAIL => -1 end) = Some (if decide (l = []) then None else Some (pos (take i rs)))) as ->.
    { rewrite (Ziplist.ziplistIndex_ok zl c rs _ Hr) by (by destruct w). unfold Ziplist.pos, zlen, i. rewrite Hlen. destruct w; cbn [Z.leb Z.compare].
      - destruct l; [done|]. rewrite decide_False by done. destruct (Z.ltb_spec 0 (Z.of_nat (length (l :: l0)))); [done|cbn in *; lia].
      - change (0 <=? -1) with false. cbv iota. destruct l; [done|]. rewrite decide_False by done.
        destruct (Z.leb_spec (- -1) (Z.of_nat (length (l :: l0)))); [|cbn in *; lia]. cbn [fmap option_fmap option_map].
        by replace (Z.to_nat (Z.of_nat (length (l :: l0)) + -1)) with (length (l :: l0) - 1)%nat by lia. }
    cbn [mbind option_bind]. case_decide as Hnil.
    + subst l. cbn [Ziplist.ziplistGet mbind option_bind]. exists None, (LZIPLIST zl). split; [done|]. unfold list_del. rewrite take_nil, drop_nil. cbn [app].
      split; [split; [apply holds_zrep; by exists rs|done]|done].
    + destruct (lookup_lt_is_Some_2 l i) as [s Hs]; [unfold i; destruct l; [done|]; destruct w; cbn; lia|].
      destruct (zrep_split zl rs l i s Hz Hs) as (c' & r & Hr' & _ & Hrs & _). rewrite (Ziplist.ziplistGet_ok zl c' _ r _ Hr'). cbn [mbind option_bind].
      destruct (zip_delete_entry zl rs l i s Hz Hs) as (zl' & rs' & -> & Hz'). cbn [mbind option_bind]. eexists _, _. split; [done|].
      split; [split; [apply holds_zrep; by exists rs'|eapply within_sub; [done|apply list_del_sub] ]|]. rewrite Hs, Hrs. cbn [option_map].
      destruct (HashType.zval_object_ok s) as [Ed Hok]. unfold zval_object. split; [by rewrite Ed|]. by intros x [= <-].
  - destruct Ho as [<- Hok]. assert (match w with HEAD => O | TAIL => (length l' - 1)%nat end = i) as -> by (unfold i; by rewrite length_fmap).
    rewrite list_lookup_fmap. destruct (l' !! i) as [v|] eqn:Ev.
    + exists (Some v), (LINKEDLIST (list_del l' i)). split; [done|]. split; [split; [|done]|].
      * split; [apply list_del_fmap|by apply Forall_list_del].
      * split; [done|]. intros x [= <-]. rewrite Forall_lookup in Hok. by apply (Hok i).
    + exists None, (LINKEDLIST l'). split; [done|]. split; [split; [|done]|done]. split; [|done]. apply lookup_ge_None_1 in Ev.
      unfold list_del. rewrite take_ge, drop_ge, app_nil_r by (rewrite length_fmap; lia). done.
Qed.

Lemma insert_loop_ok o l p v w : robj_ok v -> room_for o l v -> forall n fuel li i,
  (length l - i = n)%nat -> (n < fuel)%nat -> at_index o l TAIL li (from l i) ->
  match spec_insert (drop i l) p (decoded v) w with
  | Some t => exists o', insert_loop junk fuel o li (RRaw p) v w = Some (Some o') /\ rep o' (take i l ++ t) /\ same_encoding o o'
  | None => insert_loop junk fuel o li (RRaw p) v w = Some None
  end.
Proof.
  intros Hv Hroom. induction n as [|n IH]; intros fuel li i Hn Hf Hli; (destruct fuel as [|fuel]; [lia|]); cbn [insert_loop]; unfold from in Hli.
  - rewrite decide_False in Hli by lia. rewrite (next_none o l TAIL li Hli), drop_ge by lia. done.
  - rewrite decide_True in Hli by lia. destruct (next_ok o l TAIL li i Hli) as (e & li' & -> & He & Hli'); [lia|]. cbn [mbind option_bind].
    destruct (lookup_lt_is_Some_2 l i) as [s Hs]; [lia|]. rewrite (equal_ok o l i e s (RRaw p) He Hs) by (split; [done|by destruct o]).
    cbn [mbind option_bind decoded]. rewrite (drop_S l s i Hs). cbn [spec_insert]. case_bool_decide as Hp.
    + destruct (insert_entry_ok o l i e s v w He Hs Hv Hroom) as (o' & -> & Ho' & Hsame). cbn [mbind option_bind]. exists o'. split; [done|]. split; [|done].
      destruct w; cbn zeta in Ho'; [by rewrite (drop_S l s i Hs) in Ho'|]. by rewrite (take_S_r _ _ _ Hs), <- app_assoc in Ho'.
    + pose proof (IH fuel li' (S i) ltac:(lia) ltac:(lia) Hli') as H. destruct (spec_insert (drop (S i) l) p (decoded v) w) as [t|].
      * cbn [fmap option_fmap option_map]. destruct H as (o' & -> & Ho' & Hsame). exists o'. split; [done|]. split; [|done]. by rewrite (take_S_r _ _ _ Hs), <- app_assoc in Ho'.
      * exact H.
Qed.

Lemma spec_insert_within l p s w l' n : spec_insert l p s w = Some l' -> within l n -> zlen s <= LL -> within l' (n + 1).
Proof.
  revert l' n. induction l as [|x l IH]; intros l' n; [done|]. cbn [spec_insert]. case_bool_decide as Hx.
  - intros [= <-] [Hn Hl] Hs. rewrite zlen_cons in Hn. apply Forall_cons_iff in Hl as [Hx' Hl]. destruct w; (split; [rewrite !zlen_cons; lia|by repeat constructor]).
  - destruct (spec_insert l p s w) as [t|] eqn:E; [|done]. intros [= <-] [Hn Hl] Hs. rewrite zlen_cons in Hn. apply Forall_cons_iff in Hl as [Hx' Hl].
    destruct (IH t (n - 1) eq_refl) as [Hn' Hl']; [split; [lia|done]|done|]. split; [rewrite zlen_cons; lia|by constructor].
Qed.

Lemma room_within o l v : robj_ok v -> match o with LZIPLIST _ => zlen (decoded v) <= LL /\ within l list_max_ziplist_entries | LINKEDLIST _ => True end -> room_for o l v.
Proof.
  intros Hv H. destruct o as [zl|]; [|done]. destruct H as [Hs Hin]. pose proof (cost_within l _ Hin). split; [by apply small_text|nia].
Qed.

Lemma insert_object_ok o l s v w : enc_is o l -> robj_ok v -> exists o' b, insert_object list_max_ziplist_entries list_max_ziplist_value junk o (RRaw s) v w = Some (o', b) /\
  match spec_insert l s (decoded v) w with Some l' => b = true /\ enc_is o' l' | None => b = false /\ enc_is o' l end.
Proof.
  intros Ho Hv. cbn [insert_object]. destruct (try_conversion_ok o l v Ho Hv) as (o1 & -> & [H1 Hin1] & Hshort). cbn [mbind option_bind].
  destruct (init_from o1 l H1) as (li & -> & Hli). cbn [mbind option_bind].
  assert (room_for o1 l v) as Hroom by (apply room_within; [done|by destruct o1]).
  pose proof (fuel_length o1 l H1). pose proof (insert_loop_ok o1 l s v w Hv Hroom (length l - 0) (entries_fuel o1) li 0 eq_refl ltac:(lia) Hli) as H'.
  change (drop 0 l) with l in H'. change (take 0 l) with (@nil text) in H'.
  destruct (spec_insert l s (decoded v) w) as [l'|] eqn:E; [|rewrite H'; by exists o1, false].
  destruct H' as (o' & -> & Ho' & Hsame). cbn [mbind option_bind app] in *. destruct o' as [zl|l'']; [|by exists (LINKEDLIST l''), true].
  destruct o1 as [zl1|]; [|done]. destruct (zip_length zl l' Ho') as (zl' & -> & Hh). cbn [mbind option_bind].
  destruct (Z.ltb_spec list_max_ziplist_entries (zlen l')).
  - destruct (object_convert_ok (LZIPLIST zl') l' Hh) as (l2 & -> & Hl2). by exists (LINKEDLIST l2), true.
  - exists (LZIPLIST zl'), true. split; [done|]. split; [done|]. split; [done|].
    destruct (spec_insert_within l s (decoded v) w l' _ E Hin1 Hshort). by split.
Qed.

Lemma index_swrap i : index_ok i -> swrap 32 i = i.
Proof. intros Hi. apply swrap_id; [done|]. unfold index_ok, INT32_MIN, in_int in *. lia. Qed.

Lemma listIndex_pos {A} (l : list A) i : index_ok i -> listIndex l i = Some (Ziplist.pos l i).
Proof.
  intros Hi. unfold listIndex, Ziplist.pos, zlen. destruct (Z.ltb_spec i 0), (Z.leb_spec 0 i); try lia.
  - destruct (Z.eqb_spec i LLONG_MIN) as [->|_]; [by destruct Hi|]. cbv zeta. f_equal.
    destruct (Z.ltb_spec (- i - 1) (Z.of_nat (length l))), (Z.leb_spec (- i) (Z.of_nat (length l))); try lia; [f_equal; lia|done].
  - done.
Qed.

(** The entry that ziplistIndex finds. *)
Lemma zip_index zl rs l i : zrep zl rs l -> index_ok i -> Ziplist.ziplistIndex zl (swrap 32 i) = Some ((fun k => pos (take k rs)) <$> Ziplist.pos l i).
Proof.
  intros (c & Hr & _ & <-) Hi. rewrite index_swrap, Ziplist.pos_strs by done. apply (Ziplist.ziplistIndex_ok zl c rs i Hr). apply Hi.
Qed.

Lemma zip_get zl rs l k s : zrep zl rs l -> l !! k = Some s -> Ziplist.ziplistGet zl (Some (pos (take k rs))) = Some (Some (Ziplist.zval_of s)).
Proof. intros Hz Hs. destruct (zrep_split zl rs l k s Hz Hs) as (c & r & Hr & _ & <- & _). by apply (Ziplist.ziplistGet_ok zl c _ r (drop (S k) rs)). Qed.

Lemma index_object_ok o l i : enc_is o l -> index_ok i -> index_object o i = Some (match Ziplist.pos l i with Some k => l !! k | None => None end).
Proof.
  intros [Ho _] Hi. destruct o as [zl|l']; cbn [index_object].
  - apply holds_zrep in Ho as (rs & Hz). rewrite (zip_index zl rs l i Hz Hi). cbn [mbind option_bind].
    destruct (Ziplist.pos l i) as [k|] eqn:Ek; [|done]. apply Ziplist.pos_lt in Ek. destruct (lookup_lt_is_Some_2 l k Ek) as [s Hs].
    cbn [fmap option_fmap option_map]. rewrite (zip_get zl rs l k s Hz Hs), Hs. cbn [mbind option_bind option_map].
    f_equal. f_equal. apply HashType.zval_object_ok.
  - destruct Ho as [<- _]. rewrite listIndex_pos, Ziplist.pos_fmap by done. cbn [mbind option_bind]. f_equal. destruct (Ziplist.pos l' i); [|done].
    by rewrite list_lookup_fmap.
Qed.

Lemma set_object_ok o l i v : enc_is o l -> index_ok i -> robj_ok v -> exists o' b, set_object list_max_ziplist_value junk o i v = Some (o', b) /\
  match Ziplist.pos l i with Some k => b = true /\ enc_is o' (<[k := decoded v]> l) | None => b = false /\ enc_is o' l end.
Proof.
  intros Ho Hi Hv. unfold set_object. destruct (try_conversion_ok o l v Ho Hv) as (o1 & -> & [H1 Hin1] & Hshort). cbn [mbind option_bind].
  destruct o1 as [zl|l'].
  - apply holds_zrep in H1 as (rs & Hz). rewrite (zip_index zl rs l i Hz Hi). cbn [mbind option_bind]. destruct (Ziplist.pos l i) as [k|] eqn:Ek.
    + apply Ziplist.pos_lt in Ek. destruct (lookup_lt_is_Some_2 l k Ek) as [s Hs]. cbn [fmap option_fmap option_map].
      destruct (zip_delete_entry zl rs l k s Hz Hs) as (zl1 & rs1 & -> & Hz1). cbn [mbind option_bind].
      pose proof Hz1 as (c & Hr & Ht & Hl). pose proof (within_sub l _ _ Hin1 (list_del_sub l k)) as Hin. pose proof (cost_within _ _ Hin) as Hc. rewrite <- Hl in Hc.
      rewrite <- (take_drop k rs1) in Hr, Ht, Hc. destruct (Ziplist.insert_holds junk true zl1 c (take k rs1) (drop k rs1) (decoded v) Hr Ht) as (zl2 & E & Hh);
        [intros _; by apply small_text|nia|auto|]. unfold Ziplist.ziplistInsert. rewrite E. cbn [mbind option_bind]. eexists _, true. split; [done|]. split; [done|].
      assert (Ziplist.strs (take k rs1) ++ decoded v :: Ziplist.strs (drop k rs1) = <[k := decoded v]> l) as El.
      { rewrite <- Ziplist.take_strs, <- Ziplist.drop_strs, Hl. unfold list_del. rewrite insert_take_drop by done.
        rewrite take_app_le by (rewrite length_take; lia). rewrite take_take, Nat.min_id. by rewrite drop_app_length' by (rewrite length_take; lia). }
      rewrite El in Hh. split; [done|]. split; [unfold zlen; rewrite length_insert; apply Hin1|]. apply Forall_insert; [apply Hin1|done].
    + exists (LZIPLIST zl), false. split; [done|]. split; [done|]. split; [apply holds_zrep; by exists rs|done].
  - destruct H1 as [<- Hok]. rewrite listIndex_pos, Ziplist.pos_fmap by done. cbn [mbind option_bind]. destruct (Ziplist.pos l' i) as [k|].
    + eexists _, true. split; [done|]. split; [done|]. split; [|done]. split; [by rewrite list_fmap_insert|by apply Forall_insert].
    + by exists (LINKEDLIST l'), false.
Qed.

Lemma zip_range_ok zl rs l : zrep zl rs l -> forall n i, (i + n <= length l)%nat ->
  zip_range n zl ((fun k => pos (take k rs)) <$> from l i) = Some (take n (drop i l)).
Proof.
  intros Hz. induction n as [|n IH]; intros i Hi; [done|]. cbn [zip_range].
  assert (from l i = Some i) as -> by (unfold from; by rewrite decide_True by lia). cbn [fmap option_fmap option_map].
  destruct (lookup_lt_is_Some_2 l i) as [s Hs]; [lia|]. rewrite (zip_get zl rs l i s Hz Hs). cbn [mbind option_bind].
  destruct (next_ok (LZIPLIST zl) l TAIL (ItZip TAIL (Some (pos (take i rs)))) i) as (e & li' & E & _ & _ & Hli); [|lia|].
  { split; [intros k [= <-]; lia|]. split; [done|]. by exists rs. }
  cbn [listTypeNext] in E. destruct (Ziplist.ziplistNext zl (pos (take i rs))) as [next|] eqn:En; [|done]. cbn [mbind option_bind] in *. injection E as <- <-.
  destruct Hli as (_ & rs' & Hz' & ->). assert ((fun k => pos (take k rs')) <$> advance l TAIL i = (fun k => pos (take k rs)) <$> from l (S i)) as ->.
  { unfold advance, node_next, from. case_decide as Hlt; [|done]. cbn [fmap option_fmap option_map]. f_equal.
    pose proof Hz as (c & Hr & _). pose proof Hz' as (c' & Hr' & _). pose proof (Ziplist.index_nat zl c rs (S i) Hr) as H1. pose proof (Ziplist.index_nat zl c' rs' (S i) Hr') as H2.
    rewrite (zrep_length _ _ _ Hz) in H1. rewrite (zrep_length _ _ _ Hz') in H2. rewrite decide_True in H1, H2 by lia. congruence. }
  rewrite IH by lia. cbn [mbind option_bind]. rewrite Ziplist.zval_str_of. by rewrite (drop_S l s i Hs).
Qed.

Lemma list_range_ok l' : forall n i, (i + n <= length l')%nat -> list_range n l' (if decide (i < length l')%nat then Some i else None) = Some (take n (drop i (decoded <$> l'))).
Proof.
  induction n as [|n IH]; intros i Hi; [done|]. cbn [list_range]. rewrite decide_True by lia. cbn [mbind option_bind].
  destruct (lookup_lt_is_Some_2 l' i) as [v Hv]; [lia|]. rewrite Hv. cbn [mbind option_bind]. unfold node_next. rewrite IH by lia. cbn [mbind option_bind].
  rewrite (drop_S (decoded <$> l') (decoded v) i) by (by rewrite list_lookup_fmap, Hv). done.
Qed.

Lemma range_object_ok o l start n : enc_is o l -> zlen l < 2 ^ 63 -> 0 <= start -> 0 <= n -> start + n <= zlen l -> start < zlen l ->
  range_object o (zlen l) start n = Some (take (Z.to_nat n) (drop (Z.to_nat start) l)).
Proof.
  intros [Ho Hin] Hmax Hs Hn Hsn Hlt. unfold zlen in Hsn, Hlt. destruct o as [zl|l']; cbn [range_object].
  - apply holds_zrep in Ho as (rs & Hz). destruct Hin as [Hlen _]. unfold zlen in Hlen.
    rewrite (zip_index zl rs l start Hz) by (unfold index_ok, INT32_MIN; nia). cbn [mbind option_bind].
    assert (Ziplist.pos l start = from l (Z.to_nat start)) as ->.
    { unfold Ziplist.pos, from, zlen. destruct (Z.leb_spec 0 start); [|lia]. destruct (Z.ltb_spec start (Z.of_nat (length l))); [|lia]. by rewrite decide_True by lia. }
    apply zip_range_ok; [done|lia].
  - pose proof (linked_length l' l Ho) as Hl. destruct Ho as [<- _]. rewrite length_fmap in *.
    assert (listIndex l' (if zlen (decoded <$> l') / 2 <? start then start - zlen (decoded <$> l') else start) = Some (Some (Z.to_nat start))) as ->.
    { unfold listIndex, zlen in *. rewrite length_fmap in *. destruct (Z.ltb_spec (Z.of_nat (length l') / 2) start).
      - destruct (Z.ltb_spec (start - Z.of_nat (length l')) 0); [|lia]. unfold LLONG_MIN. destruct (Z.eqb_spec (start - Z.of_nat (length l')) (-9223372036854775808)); [lia|].
        cbv zeta. destruct (Z.ltb_spec (- (start - Z.of_nat (length l')) - 1) (Z.of_nat (length l'))); [|lia]. do 2 f_equal. lia.
      - destruct (Z.ltb_spec start 0); [lia|]. destruct (Z.ltb_spec start (Z.of_nat (length l'))); [done|lia]. }
    cbn [mbind option_bind]. rewrite <- (list_range_ok l' (Z.to_nat n) (Z.to_nat start)) by lia. by rewrite decide_True by lia.
Qed.

Lemma del_first_ok n : forall l, (n <= length l)%nat -> del_first n l = Some (drop n l).
Proof. induction n as [|n IH]; intros l Hn; [done|]. destruct l as [|x l]; [cbn in Hn; lia|]. cbn in Hn. cbn [del_first drop]. apply IH. lia. Qed.

Lemma del_last_ok n : forall l, (n <= length l)%nat -> del_last n l = Some (take (length l - n) l).
Proof.
  induction n as [|n IH]; intros l Hn; [by rewrite take_ge by lia|]. destruct l as [|x l]; [cbn in Hn; lia|]. set (y := x :: l) in *. cbn [del_last].
  assert (length (list_del y (length y - 1)) = (length y - 1)%nat) as Hl by (apply length_list_del; cbn in *; lia).
  assert (list_del y (length y - 1) = take (length y - 1) y) as Ed by (unfold list_del; rewrite drop_ge by lia; by rewrite app_nil_r).
  transitivity (del_last n (list_del y (length y - 1))); [by unfold y|]. rewrite IH by lia. rewrite Hl, Ed, take_take. do 2 f_equal. lia.
Qed.

Lemma sub_drop {A} n (l : list A) : drop n l `sublist_of` l.
Proof. apply sublist_drop. Qed.
Lemma sub_take {A} n (l : list A) : take n l `sublist_of` l.
Proof. apply sublist_take. Qed.

Lemma trim_object_ok o l a b : enc_is o l -> 0 <= a -> 0 <= b -> a + b <= zlen l ->
  exists o', trim_object junk o a b = Some o' /\ enc_is o' (drop (Z.to_nat a) (take (length l - Z.to_nat b) l)).
Proof.
  intros [Ho Hin] Ha Hb Hab. unfold zlen in Hab. destruct o as [zl|l']; cbn [trim_object].
  - destruct Hin as [Hlen Hall]. unfold zlen in Hlen. assert (uwrap 32 a = a /\ uwrap 32 b = b) as [-> ->] by (unfold uwrap; split; apply Z.mod_small; nia).
    unfold Ziplist.ziplistDeleteRange. rewrite !index_swrap by (unfold index_ok, INT32_MIN; nia).
    destruct (Ziplist.delete_holds junk true zl l 0 a Ho) as (zl1 & -> & H1); [done|done|]. cbn [mbind option_bind].
    assert (Ziplist.del l 0 (Z.to_nat a) = drop (Z.to_nat a) l) as E1.
    { unfold Ziplist.del, Ziplist.pos, zlen. change (0 <=? 0) with true. cbv iota. destruct (Z.ltb_spec 0 (Z.of_nat (length l))); [done|]. by destruct l; [rewrite drop_nil|cbn in *; lia]. }
    rewrite E1 in H1. destruct (Ziplist.delete_holds junk true zl1 _ (- b) b H1) as (zl2 & -> & H2); [unfold INT32_MIN; nia|done|]. cbn [mbind option_bind].
    assert (Ziplist.del (drop (Z.to_nat a) l) (- b) (Z.to_nat b) = drop (Z.to_nat a) (take (length l - Z.to_nat b) l)) as E2.
    { set (x := drop (Z.to_nat a) l). assert (length x = (length l - Z.to_nat a)%nat) as Hx by apply length_drop.
      transitivity (take (length x - Z.to_nat b) x).
      - destruct (decide (b = 0)) as [->|Hb0]; unfold Ziplist.del.
        + change (Z.to_nat 0) with O. rewrite Nat.sub_0_r, (take_ge x (length x)) by lia. destruct (Ziplist.pos x (- 0)) as [k|]; [|done]. by rewrite Nat.add_0_r, take_drop.
        + unfold Ziplist.pos, zlen. destruct (Z.leb_spec 0 (- b)); [lia|]. destruct (Z.leb_spec (- - b) (Z.of_nat (length x))); [|lia].
          rewrite drop_ge by lia. rewrite app_nil_r. f_equal. lia.
      - rewrite Hx. unfold x. rewrite take_drop_commute. do 2 f_equal. lia. }
    rewrite E2 in H2. eexists. split; [done|]. split; [exact H2|]. eapply within_sub; [split; [unfold zlen; exact Hlen|exact Hall]|].
    etrans; [apply sub_drop|apply sub_take].
  - pose proof (linked_length l' l Ho) as Hl. destruct Ho as [<- Hok]. rewrite length_fmap in *. rewrite del_first_ok by lia. cbn [mbind option_bind].
    rewrite del_last_ok by (rewrite length_drop; lia). cbn [mbind option_bind]. eexists. split; [done|]. split; [|done]. split.
    + rewrite fmap_take, fmap_drop, length_drop, take_drop_commute. do 2 f_equal. lia.
    + by apply Forall_take, Forall_drop.
Qed.

(** LREM from the head: the entries from [i] on are still to be visited. *)
Definition stop (n r : Z) : bool := negb (n =? 0) && (r =? n).

Lemma take_list_del {A} (l : list A) i : take i (list_del l i) = take i l.
Proof.
  unfold list_del. destruct (decide (i <= length l)%nat).
  - rewrite take_app_le by (rewrite length_take; lia). by rewrite take_take, Nat.min_id.
  - rewrite !(take_ge l) by lia. rewrite drop_ge by lia. by rewrite app_nil_r, take_ge by lia.
Qed.

Lemma drop_list_del {A} (l : list A) i : (i < length l)%nat -> drop i (list_del l i) = drop (S i) l.
Proof. intros Hi. unfold list_del. apply drop_app_length'. rewrite length_take. lia. Qed.

Lemma rem_head_ok v n : forall k o l fuel li i removed, (length l - i = k)%nat -> (i <= length l)%nat -> (S k < fuel)%nat -> rep o l -> comparable o v ->
  at_index o l TAIL li (Some i) \/ at_index o l TAIL li (from l i) ->
  exists o', rem_loop junk fuel o li v n removed = Some (o', (spec_rem (drop i l) n (decoded v) removed).2) /\
    rep o' (take i l ++ (spec_rem (drop i l) n (decoded v) removed).1) /\ same_encoding o o'.
Proof.
  induction k as [|k IH]; intros o l fuel li i removed Hk Hi Hf Ho Hv Hli; (destruct fuel as [|fuel]; [lia|]); cbn [rem_loop].
  - assert (i = length l) as -> by lia. rewrite drop_all, take_ge by lia. cbn [spec_rem fst snd]. rewrite app_nil_r.
    assert (same_encoding o o) as Hsame by by destruct o.
    destruct Hli as [Hli|Hli]; [|unfold from in Hli; rewrite decide_False in Hli by lia; rewrite (next_none o l TAIL li Hli); by exists o].
    destruct (next_end o l li Hli) as (e & li' & -> & Hli' & Heq). cbn [mbind option_bind].
    assert (listTypeEqual o e v = Some false) as ->.
    { destruct Hv as [_ Hv]. destruct o; [rewrite Hv; apply Heq|]. destruct Hli as [_ Hli]. destruct li; [done|]. destruct Hli as (_ & _ & -> & Hli). specialize (Hli _ eq_refl). lia. }
    cbn [mbind option_bind]. destruct fuel as [|fuel]; [lia|]. cbn [rem_loop]. rewrite (next_none o l TAIL li' Hli'). by exists o.
  - assert (at_index o l TAIL li (Some i)) as Hli' by (destruct Hli as [|Hli]; [done|]; unfold from in Hli; by rewrite decide_True in Hli by lia). clear Hli.
    destruct (next_ok o l TAIL li i Hli') as (e & li' & -> & He & Hli2); [lia|]. cbn [mbind option_bind].
    destruct (lookup_lt_is_Some_2 l i) as [s Hs]; [lia|]. rewrite (equal_ok o l i e s v He Hs Hv). cbn [mbind option_bind]. rewrite (drop_S l s i Hs). cbn [spec_rem].
    case_bool_decide as Heq.
    + destruct (delete_entry_ok o l TAIL li' (advance l TAIL i) i e s He Hli2 Hs) as (o' & li3 & -> & Ho' & Hli3 & Hsame). cbn [mbind option_bind].
      pose proof (length_list_del l i ltac:(lia)) as Hlen. fold (stop n (removed + 1)). destruct (stop n (removed + 1)); cbn [fst snd].
      * exists o'. split; [done|]. split; [exact Ho'|done].
      * destruct (IH o' (list_del l i) fuel li3 i (removed + 1)) as (o2 & E & H2 & Hs2); [lia|lia|lia|done|by destruct o, o'| |].
        { unfold behind in Hli3. destruct o, o'; try done; [by left|by right]. }
        rewrite take_list_del, drop_list_del in * by lia. exists o2. split; [done|]. split; [done|by destruct o, o', o2].
    + destruct (IH o l fuel li' (S i) removed) as (o2 & E & H2 & Hs2); [lia|lia|lia|done|done|by right|]. rewrite E.
      destruct (spec_rem (drop (S i) l) n (decoded v) removed) as [t r]. cbn [fst snd] in *. exists o2. split; [done|]. split; [|done].
      by rewrite (take_S_r _ _ _ Hs), <- app_assoc in H2.
Qed.

(** LREM from the tail: the first [m] entries are still to be visited. *)
Lemma rem_tail_ok v n : forall m o l fuel li removed, (m <= length l)%nat -> (m < fuel)%nat -> rep o l -> comparable o v ->
  at_index o l HEAD li (match m with O => None | S i => Some i end) ->
  exists o', rem_loop junk fuel o li v n removed = Some (o', (spec_rem (reverse (take m l)) n (decoded v) removed).2) /\
    rep o' (reverse (spec_rem (reverse (take m l)) n (decoded v) removed).1 ++ drop m l) /\ same_encoding o o'.
Proof.
  induction m as [|i IH]; intros o l fuel li removed Hm Hf Ho Hv Hli; (destruct fuel as [|fuel]; [lia|]); cbn [rem_loop].
  - rewrite (next_none o l HEAD li Hli). exists o. split; [done|]. split; [done|by destruct o].
  - destruct (next_ok o l HEAD li i Hli) as (e & li' & -> & He & Hli2); [lia|]. cbn [mbind option_bind].
    destruct (lookup_lt_is_Some_2 l i) as [s Hs]; [lia|]. rewrite (equal_ok o l i e s v He Hs Hv). cbn [mbind option_bind].
    rewrite (take_S_r _ _ _ Hs), reverse_app. change (reverse [s] ++ ?x) with (s :: x). cbn [spec_rem]. case_bool_decide as Heq.
    + destruct (delete_entry_ok o l HEAD li' (advance l HEAD i) i e s He Hli2 Hs) as (o' & li3 & -> & Ho' & Hli3 & Hsame). cbn [mbind option_bind].
      pose proof (length_list_del l i ltac:(lia)) as Hlen. fold (stop n (removed + 1)). destruct (stop n (removed + 1)); cbn [fst snd].
      * exists o'. split; [done|]. split; [|done]. rewrite reverse_involutive. exact Ho'.
      * destruct (IH o' (list_del l i) fuel li3 (removed + 1)) as (o2 & E & H2 & Hs2); [lia|lia|done|by destruct o, o'|exact Hli3|].
        rewrite take_list_del, drop_list_del in * by lia. exists o2. split; [done|]. split; [done|by destruct o, o', o2].
    + destruct (IH o l fuel li' removed) as (o2 & E & H2 & Hs2); [lia|lia|done|done|exact Hli2|]. rewrite E.
      destruct (spec_rem (reverse (take i l)) n (decoded v) removed) as [t r]. cbn [fst snd] in *. exists o2. split; [done|]. split; [|done].
      rewrite reverse_cons, <- app_assoc. cbn [app]. by rewrite <- (drop_S l s i Hs).
Qed.

Lemma spec_rem_sub n s : forall l r, (spec_rem l n s r).1 `sublist_of` l.
Proof.
  induction l as [|x l IH]; intros r; [done|]. cbn [spec_rem]. case_bool_decide.
  - destruct (_ && _); [by apply sublist_cons|]. apply sublist_cons, IH.
  - specialize (IH r). destruct (spec_rem l n s r) as [t k]. cbn [fst] in *. by apply sublist_skip.
Qed.

Lemma within_reverse l n : within l n -> within (reverse l) n.
Proof. intros [Hn Hl]. split; [unfold zlen in *; by rewrite length_reverse|by apply Forall_reverse]. Qed.

Lemma rem_object_ok o l n v : enc_is o l -> count_ok n -> robj_ok v -> exists o' r, rem_object junk o n v = Some (o', r) /\
  let '(l', r') := (if n <? 0 then let '(l', r) := spec_rem (reverse l) (- n) (decoded v) 0 in (reverse l', r) else spec_rem l n (decoded v) 0) in
  enc_is o' l' /\ r = r'.
Proof.
  intros [Ho Hin] Hn Hv. unfold rem_object. set (obj := match o with LZIPLIST _ => RRaw (decoded v) | LINKEDLIST _ => v end).
  assert (decoded obj = decoded v /\ comparable o obj) as [Hd Hc] by (unfold obj, comparable; by destruct o).
  pose proof (fuel_length o l Ho) as Hfuel. rewrite <- Hd. clearbody obj. clear Hd.
  assert (forall o' l', rep o' l' -> same_encoding o o' -> (forall k, within l k -> within l' k) -> enc_is o' l') as Hback.
  { intros o' l' Ho' Hs Hl. split; [done|]. destruct o', o; try done. by apply Hl. }
  destruct (Z.ltb_spec n 0).
  - unfold count_ok in Hn. destruct (Z.eqb_spec n LLONG_MIN); [lia|]. destruct (init_tail o l Ho) as (li & -> & Hli). cbn [mbind option_bind].
    destruct (rem_tail_ok obj (- n) (length l) o l (entries_fuel o) li 0) as (o' & -> & Ho' & Hs); [done|lia|done|done| |].
    { destruct l; [done|]. rewrite decide_False in Hli by done. cbn [length] in *. by rewrite Nat.sub_succ, Nat.sub_0_r in Hli. }
    rewrite firstn_all, drop_all, app_nil_r in *. pose proof (spec_rem_sub (- n) (decoded obj) (reverse l) 0) as Hsub.
    destruct (spec_rem (reverse l) (- n) (decoded obj) 0) as [t r]. cbn [fst snd] in *. exists o', r. split; [done|]. split; [|done].
    apply Hback; [done|done|]. intros k Hk. apply within_reverse. eapply within_sub; [by apply within_reverse|done].
  - destruct (init_from o l Ho) as (li & -> & Hli). cbn [mbind option_bind].
    destruct (rem_head_ok obj n (length l - 0) o l (entries_fuel o) li 0 0) as (o' & -> & Ho' & Hs); [done|lia|lia|done|done|by right|].
    change (drop 0 l) with l in *. change (take 0 l) with (@nil text) in *. cbn [app] in *. pose proof (spec_rem_sub n (decoded obj) l 0) as Hsub.
    destruct (spec_rem l n (decoded obj) 0) as [t r]. cbn [fst snd] in *. exists o', r. split; [done|]. split; [|done]. apply Hback; [done|done|]. intros k Hk. by eapply within_sub.
Qed.

(** The encoded objects act as lists of strings. *)
Lemma create_ok : enc_is createZiplistObject [].
Proof. split; [apply (Ziplist.new_holds true)|]. split; [done|constructor]. Qed.

#[export] Instance encoded_laws : ListLaws (encoded_ops list_max_ziplist_entries list_max_ziplist_value junk) :=
  Build_ListLaws listobj (encoded_ops list_max_ziplist_entries list_max_ziplist_value junk) enc_is create_ok listTypePush_ok listTypePop_ok
    listTypeLength_ok insert_object_ok index_object_ok set_object_ok range_object_ok trim_object_ok rem_object_ok.
End Proofs.
End ListType.
