(* ===== verification/ListCommands.v ===== *)
(** * t_list.c: the commands on lists and the clients that wait for elements

    Model of the commands of [src/debug/redis/src/t_list.c] over the operations [ListOps] on
    list objects: the pushes and pops, LINSERT, LINDEX, LSET, LRANGE, LTRIM, LREM, RPOPLPUSH and
    the blocking BLPOP, BRPOP and BRPOPLPUSH with blockForKeys, unblockClientWaitingData,
    signalListAsReady and handleClientsBlockedOnLists, the timeout of a blocked client and its
    disconnection.  A command runs inside of call (its propagation) and processCommand (the
    waiting clients are served behind it, or behind EXEC) of redis.c.

    The state is one database and the fields of the server and of its clients that this code
    touches; the names of keys are strings, and a client is a number.  [None] is a failing assert,
    a panic or a bad pointer.  The same code runs on encoded objects and on plain lists of strings:
    [list_commands_refine] says that it cannot tell the difference, [no_waiter_beside_data] that
    no client ever waits for a list that has elements, [waiters_served_in_order] in which order the
    clients are served.

    A run is a list of events; [run_ok] is what it has to satisfy: arguments of the arity and range
    that the commands take, lists shorter than 2^63, and no client that is freed while it is in
    server.unblocked_clients twice ([unblocked_twice] is what happens then).  The replies to the
    clients, what is propagated and the keys that are touched are logs in the state; the markers
    MULTI and EXEC around a transaction are left to Multi. *)

From Stdlib Require Import ZArith Lia.
From stdpp Require Import prelude list gmap strings numbers.
From S2P Require Import Prelude.
From S2P Require Import Util.
From S2P Require Import Ziplist.
From S2P Require Import SetType.
From S2P Require Import HashType.
From S2P Require Import ListType.

Local Open Scope Z_scope.

Module ListCommands.

Import SetType(robj(..), robj, decoded, robj_ok, tryObjectEncoding).
Import ListType.

Inductive command :=
  | LPUSH (key : text) (args : list robj)
  | RPUSH (key : text) (args : list robj)
  | LPUSHX (key : text) (val : robj)
  | RPUSHX (key : text) (val : robj)
  | LINSERT (key where_ : text) (refval val : robj)
  | LLEN (key : text)
  | LINDEX (key : text) (index : robj)
  | LSET (key : text) (index value : robj)
  | LPOP (key : text)
  | RPOP (key : text)
  | LRANGE (key : text) (start stop : robj)
  | LTRIM (key : text) (start stop : robj)
  | LREM (key : text) (count obj : robj)
  | RPOPLPUSH (src dst : text)
  | BLPOP (keys : list text) (timeout : robj)
  | BRPOP (keys : list text) (timeout : robj)
  | BRPOPLPUSH (src dst : text) (timeout : robj).

Inductive reply :=
  | ReplyInt (n : Z)
  | ReplyBulk (s : option text)          (* None is nullbulk *)
  | ReplyMulti (l : list text)
  | ReplyNullMulti
  | ReplyOk
  | ReplyWrongType
  | ReplyError (msg : text).

(** ** The environment of the keyspace *)

(** The part of a client that waits: bpop, the flags REDIS_BLOCKED, REDIS_UNBLOCKED and
    REDIS_MULTI, and whether lastcmd is BLPOP. *)
Record client := mkClient {
  c_keys : list text;             (* bpop.keys *)
  c_target : option text;
  c_timeout : Z;
  c_blocked : bool;
  c_unblocked : bool;
  c_multi : bool;
  c_blpop : bool;
}.
Definition newClient : client := mkClient [] None 0 false false false false.

(** What other commands do with the keyspace: a key is deleted or gets a value that is no list. *)
Section WithOther.
Context {T : Type}.
Abbreviation changes := (list (text * option T)).

(** What goes to the replicas and the append only file. *)
Inductive propagated := PCommand (c : command) | POther (l : changes).

Record env := mkEnv {
  e_blocking : gmap text (list nat);      (* db->blocking_keys *)
  e_ready : gset text;                    (* db->ready_keys *)
  e_ready_keys : list text;               (* server.ready_keys *)
  e_clients : gmap nat client;
  e_unblocked : list nat;                 (* server.unblocked_clients *)
  e_count : Z;                            (* server.bpop_blocked_clients *)
  e_unixtime : Z;
  e_dirty : Z;
  e_touched : list text;                  (* signalModifiedKey *)
  e_propagated : list propagated;
  e_out : list (nat * reply);
}.

Definition addReply (c : nat) (r : reply) (e : env) : env :=
  mkEnv (e_blocking e) (e_ready e) (e_ready_keys e) (e_clients e) (e_unblocked e) (e_count e) (e_unixtime e) (e_dirty e) (e_touched e) (e_propagated e)
    (e_out e ++ [(c, r)]).
Definition signalModifiedKey (key : text) (e : env) : env :=
  mkEnv (e_blocking e) (e_ready e) (e_ready_keys e) (e_clients e) (e_unblocked e) (e_count e) (e_unixtime e) (e_dirty e) (e_touched e ++ [key])
    (e_propagated e) (e_out e).
Definition add_dirty (n : Z) (e : env) : env :=
  mkEnv (e_blocking e) (e_ready e) (e_ready_keys e) (e_clients e) (e_unblocked e) (e_count e) (e_unixtime e) (e_dirty e + n) (e_touched e)
    (e_propagated e) (e_out e).
Definition propagate (c : propagated) (e : env) : env :=
  mkEnv (e_blocking e) (e_ready e) (e_ready_keys e) (e_clients e) (e_unblocked e) (e_count e) (e_unixtime e) (e_dirty e) (e_touched e)
    (e_propagated e ++ [c]) (e_out e).
Definition set_client (c : nat) (x : client) (e : env) : env :=
  mkEnv (e_blocking e) (e_ready e) (e_ready_keys e) (<[c := x]> (e_clients e)) (e_unblocked e) (e_count e) (e_unixtime e) (e_dirty e) (e_touched e)
    (e_propagated e) (e_out e).
Definition set_blocking (m : gmap text (list nat)) (e : env) : env :=
  mkEnv m (e_ready e) (e_ready_keys e) (e_clients e) (e_unblocked e) (e_count e) (e_unixtime e) (e_dirty e) (e_touched e) (e_propagated e) (e_out e).
Definition set_ready (s : gset text) (l : list text) (e : env) : env :=
  mkEnv (e_blocking e) s l (e_clients e) (e_unblocked e) (e_count e) (e_unixtime e) (e_dirty e) (e_touched e) (e_propagated e) (e_out e).
Definition set_unblocked (l : list nat) (e : env) : env :=
  mkEnv (e_blocking e) (e_ready e) (e_ready_keys e) (e_clients e) l (e_count e) (e_unixtime e) (e_dirty e) (e_touched e)
    (e_propagated e) (e_out e).
Definition set_count (n : Z) (e : env) : env :=
  mkEnv (e_blocking e) (e_ready e) (e_ready_keys e) (e_clients e) (e_unblocked e) n (e_unixtime e) (e_dirty e) (e_touched e) (e_propagated e) (e_out e).
Definition set_time (t : Z) (e : env) : env :=
  mkEnv (e_blocking e) (e_ready e) (e_ready_keys e) (e_clients e) (e_unblocked e) (e_count e) t (e_dirty e) (e_touched e) (e_propagated e) (e_out e).
Definition set_clients (m : gmap nat client) (e : env) : env :=
  mkEnv (e_blocking e) (e_ready e) (e_ready_keys e) m (e_unblocked e) (e_count e) (e_unixtime e) (e_dirty e) (e_touched e) (e_propagated e) (e_out e).

(** *** Waiting *)

(** The loop of blockForKeys over the keys: the keys of the client and the lists of clients. *)
Fixpoint block_loop (c : nat) (keys : list text) (mine : list text) (m : gmap text (list nat)) : list text * gmap text (list nat) :=
  match keys with
  | [] => (mine, m)
  | key :: keys =>
    if bool_decide (key ∈ mine) then block_loop c keys mine m
    else block_loop c keys (mine ++ [key]) (<[key := default [] (m !! key) ++ [c]]> m)
  end.

Definition blockForKeys (c : nat) (keys : list text) (timeout : Z) (target : option text) (e : env) : option env :=
  x ← e_clients e !! c;
  let '(mine, m) := block_loop c keys (c_keys x) (e_blocking e) in
  Some (set_count (e_count e + 1) (set_client c (mkClient mine target timeout true (c_unblocked x) (c_multi x) (c_blpop x)) (set_blocking m e))).

(** listDelNode of what listSearchKey finds *)
Fixpoint del_client (c : nat) (l : list nat) : option (list nat) :=
  match l with [] => None | x :: l => if (x =? c)%nat then Some l else cons x <$> del_client c l end.

Fixpoint unblock_loop (c : nat) (keys : list text) (m : gmap text (list nat)) : option (gmap text (list nat)) :=
  match keys with
  | [] => Some m
  | key :: keys =>
    l ← m !! key; l ← del_client c l;
    unblock_loop c keys (match l with [] => delete key m | _ => <[key := l]> m end)
  end.

Definition unblockClientWaitingData (c : nat) (e : env) : option env :=
  x ← e_clients e !! c;
  match c_keys x with
  | [] => None
  | _ =>
    m ← unblock_loop c (c_keys x) (e_blocking e);
    Some (set_unblocked (e_unblocked e ++ [c]) (set_count (e_count e - 1)
      (set_client c (mkClient [] None (c_timeout x) false true (c_multi x) (c_blpop x)) (set_blocking m e))))
  end.

Definition signalListAsReady (key : text) (e : env) : env :=
  match e_blocking e !! key with
  | None => e
  | Some _ => if bool_decide (key ∈ e_ready e) then e else set_ready ({[key]} ∪ e_ready e) (e_ready_keys e ++ [key]) e
  end.

(** ** The commands *)

Context {Obj : Type} {ops : ListOps Obj}.

Inductive value := VList (o : Obj) | VOther (t : T).
Record server := mkServer { db : gmap text value; env_of : env }.

Definition upd (f : env -> env) (s : server) : server := mkServer (db s) (f (env_of s)).
Definition put (key : text) (o : Obj) (s : server) : server := mkServer (<[key := VList o]> (db s)) (env_of s).
Definition dbDelete (key : text) (s : server) : server := mkServer (delete key (db s)) (env_of s).
Definition reply_to (c : nat) (r : reply) (s : server) : server := upd (addReply c r) s.

(** signalModifiedKey and server.dirty++ *)
Definition modified (key : text) (s : server) : server := upd (add_dirty 1) (upd (signalModifiedKey key) s).

Definition get_list (key : text) (s : server) : option Obj := match db s !! key with Some (VList o) => Some o | _ => None end.

(** dbDelete when listTypeLength is 0 *)
Definition delete_if_empty (key : text) (s : server) : option server :=
  o ← get_list key s; '(n, o) ← lo_length o;
  Some (if n =? 0 then dbDelete key s else put key o s).

Fixpoint push_loop (o : Obj) (args : list robj) (where_ : side) : option Obj :=
  match args with
  | [] => Some o
  | v :: args => o ← lo_push o (tryObjectEncoding v) where_; push_loop o args where_
  end.

Definition pushGenericCommand (c : nat) (key : text) (args : list robj) (where_ : side) (s : server) : option server :=
  match db s !! key with
  | Some (VOther _) => Some (reply_to c ReplyWrongType s)
  | v =>
    let s := match v with None => upd (signalListAsReady key) s | Some _ => s end in
    match args with
    | [] => None        (* the arity is at least 3 *)
    | _ =>
      let o := match v with Some (VList o) => o | _ => lo_create end in
      o ← push_loop o args where_;
      '(n, o) ← lo_length o;
      Some (upd (add_dirty (zlen args)) (upd (signalModifiedKey key) (reply_to c (ReplyInt n) (put key o s))))
    end
  end.

(** [refval] is NULL for LPUSHX and RPUSHX. *)
Definition pushxGenericCommand (c : nat) (key : text) (refval : option robj) (val : robj) (where_ : side) (s : server) : option server :=
  match db s !! key with
  | None => Some (reply_to c (ReplyInt 0) s)
  | Some (VOther _) => Some (reply_to c ReplyWrongType s)
  | Some (VList o) =>
    match refval with
    | Some refval =>
      '(o, inserted) ← lo_insert o refval val where_;
      if inserted : bool then
        '(n, o) ← lo_length o; Some (reply_to c (ReplyInt n) (modified key (put key o s)))
      else Some (reply_to c (ReplyInt (-1)) (put key o s))
    | None =>
      o ← lo_push o val where_;
      '(n, o) ← lo_length o; Some (reply_to c (ReplyInt n) (modified key (put key o s)))
    end
  end.

Definition syntaxerr : text := str "syntax error".

Definition linsertCommand (c : nat) (key where_ : text) (refval val : robj) (s : server) : option server :=
  let val := tryObjectEncoding val in
  if Util.strcasecmp_eq where_ (str "after") then pushxGenericCommand c key (Some refval) val TAIL s
  else if Util.strcasecmp_eq where_ (str "before") then pushxGenericCommand c key (Some refval) val HEAD s
  else Some (reply_to c (ReplyError syntaxerr) s).

(** lookupKeyOrReply and checkType *)
Definition with_list (c : nat) (key : text) (r : reply) (s : server) (k : Obj -> option server) : option server :=
  match db s !! key with
  | None => Some (reply_to c r s)
  | Some (VOther _) => Some (reply_to c ReplyWrongType s)
  | Some (VList o) => k o
  end.

(** getLongFromObjectOrReply; a long long is a long *)
Definition not_an_integer : text := str "value is not an integer or out of range".
Definition with_long (c : nat) (o : robj) (s : server) (k : Z -> option server) : option server :=
  match HashType.getLongLongFromObject o with
  | None => Some (reply_to c (ReplyError not_an_integer) s)
  | Some n => k n
  end.

Definition llenCommand (c : nat) (key : text) (s : server) : option server :=
  with_list c key (ReplyInt 0) s (fun o => '(n, o) ← lo_length o; Some (reply_to c (ReplyInt n) (put key o s))).

Definition lindexCommand (c : nat) (key : text) (index : robj) (s : server) : option server :=
  with_list c key (ReplyBulk None) s (fun o =>
  with_long c index s (fun index => v ← lo_index o index; Some (reply_to c (ReplyBulk v) s))).

Definition lsetCommand (c : nat) (key : text) (index value : robj) (s : server) : option server :=
  with_list c key (ReplyError (str "no such key")) s (fun o =>
  with_long c index s (fun index =>
    '(o, ok) ← lo_set o index (tryObjectEncoding value);
    let s := put key o s in
    Some (if ok : bool then modified key (reply_to c ReplyOk s) else reply_to c (ReplyError (str "index out of range")) s))).

Definition popGenericCommand (c : nat) (key : text) (where_ : side) (s : server) : option server :=
  with_list c key (ReplyBulk None) s (fun o =>
    '(value, o) ← lo_pop o where_;
    match value with
    | None => Some (reply_to c (ReplyBulk None) (put key o s))
    | Some v => s ← delete_if_empty key (reply_to c (ReplyBulk (Some (decoded v))) (put key o s)); Some (modified key s)
    end).

(** The indexes of LRANGE and LTRIM: [None] for an empty range. *)
Definition convert_range (start stop llen : Z) : option (Z * Z) :=
  let start := if start <? 0 then llen + start else start in
  let stop := if stop <? 0 then llen + stop else stop in
  let start := if start <? 0 then 0 else start in
  if (stop <? start) || (llen <=? start) then None
  else Some (start, if llen <=? stop then llen - 1 else stop).

Definition lrangeCommand (c : nat) (key : text) (start stop : robj) (s : server) : option server :=
  with_long c start s (fun start =>
  with_long c stop s (fun stop =>
  with_list c key (ReplyMulti []) s (fun o =>
    '(llen, o) ← lo_length o;
    let s := put key o s in
    match convert_range start stop llen with
    | None => Some (reply_to c (ReplyMulti []) s)
    | Some (start, stop) => l ← lo_range o llen start (stop - start + 1); Some (reply_to c (ReplyMulti l) s)
    end))).

Definition ltrimCommand (c : nat) (key : text) (start stop : robj) (s : server) : option server :=
  with_long c start s (fun start =>
  with_long c stop s (fun stop =>
  with_list c key ReplyOk s (fun o =>
    '(llen, o) ← lo_length o;
    let '(ltrim, rtrim) := match convert_range start stop llen with None => (llen, 0) | Some (start, stop) => (start, llen - stop - 1) end in
    o ← lo_trim o ltrim rtrim;
    s ← delete_if_empty key (put key o s);
    Some (reply_to c ReplyOk (modified key s))))).

Definition lremCommand (c : nat) (key : text) (count obj : robj) (s : server) : option server :=
  with_long c count s (fun toremove =>
  with_list c key (ReplyInt 0) s (fun o =>
    '(o, removed) ← lo_rem o toremove (tryObjectEncoding obj);
    s ← delete_if_empty key (upd (add_dirty removed) (put key o s));
    let s := reply_to c (ReplyInt removed) s in
    Some (if removed =? 0 then s else upd (signalModifiedKey key) s))).

(** [dstkey] holds a list or nothing. *)
Definition rpoplpushHandlePush (c : nat) (dstkey : text) (value : robj) (s : server) : option server :=
  '(o, s) ← match db s !! dstkey with
    | Some (VList o) => Some (o, s)
    | None => Some (lo_create, upd (signalListAsReady dstkey) s)
    | Some (VOther _) => None
    end;
  o ← lo_push o value HEAD;
  Some (reply_to c (ReplyBulk (Some (decoded value))) (put dstkey o (upd (signalModifiedKey dstkey) s))).

Definition rpoplpushCommand (c : nat) (src dst : text) (s : server) : option server :=
  with_list c src (ReplyBulk None) s (fun o =>
    '(n, o) ← lo_length o;
    let s := put src o s in
    if n =? 0 then Some (reply_to c (ReplyBulk None) s)
    else
      match db s !! dst with
      | Some (VOther _) => Some (reply_to c ReplyWrongType s)
      | _ =>
        '(value, o) ← lo_pop o TAIL;
        value ← value;
        s ← rpoplpushHandlePush c dst value (put src o s);
        s ← delete_if_empty src s;
        Some (modified src s)
      end).

(** ** Blocking commands *)

(** getTimeoutFromObjectOrReply: an error message, or the time; the sum overflows for the largest
    timeouts. *)
Definition getTimeout (o : robj) (now : Z) : option (text + Z) :=
  match HashType.getLongLongFromObject o with
  | None => Some (inl (str "timeout is not an integer or out of range"))
  | Some tval =>
    if tval <? 0 then Some (inl (str "timeout is negative"))
    else if 0 <? tval then if LLONG_MAX <? tval + now then None else Some (inr (tval + now))
    else Some (inr tval)
  end.

Definition block (c : nat) (keys : list text) (timeout : Z) (target : option text) (s : server) : option server :=
  e ← blockForKeys c keys timeout target (env_of s); Some (mkServer (db s) e).

Definition in_multi (c : nat) (s : server) : option bool := x ← e_clients (env_of s) !! c; Some (c_multi x).

(** The loop over the keys; the second result is the key from which an element has been popped, and
    [None] when all are empty.  An object of another type ends the command. *)
Inductive popped := Popped (key : text) | WrongType | AllEmpty.
Fixpoint blocking_pop_loop (c : nat) (keys : list text) (where_ : side) (s : server) : option (server * popped) :=
  match keys with
  | [] => Some (s, AllEmpty)
  | key :: keys =>
    match db s !! key with
    | None => blocking_pop_loop c keys where_ s
    | Some (VOther _) => Some (reply_to c ReplyWrongType s, WrongType)
    | Some (VList o) =>
      '(n, o) ← lo_length o;
      if n =? 0 then blocking_pop_loop c keys where_ (put key o s)
      else
        '(value, o) ← lo_pop o where_;
        value ← value;
        s ← delete_if_empty key (reply_to c (ReplyMulti [key; decoded value]) (put key o s));
        Some (modified key s, Popped key)
    end
  end.

(** The second result is the command that replaces this one for the replicas. *)
Definition blockingPopGenericCommand (c : nat) (keys : list text) (timeout : robj) (where_ : side) (s : server) : option (server * option command) :=
  t ← getTimeout timeout (e_unixtime (env_of s));
  match t with
  | inl msg => Some (reply_to c (ReplyError msg) s, None)
  | inr timeout =>
    '(s, r) ← blocking_pop_loop c keys where_ s;
    match r with
    | Popped key => Some (s, Some (match where_ with HEAD => LPOP key | TAIL => RPOP key end))
    | WrongType => Some (s, None)
    | AllEmpty =>
      multi ← in_multi c s;
      s ← (if multi : bool then Some (reply_to c ReplyNullMulti s) else block c keys timeout None s);
      Some (s, None)
    end
  end.

Definition brpoplpushCommand (c : nat) (src dst : text) (timeout : robj) (s : server) : option server :=
  t ← getTimeout timeout (e_unixtime (env_of s));
  match t with
  | inl msg => Some (reply_to c (ReplyError msg) s)
  | inr timeout =>
    match db s !! src with
    | None =>
      multi ← in_multi c s;
      if multi : bool then Some (reply_to c (ReplyBulk None) s) else block c [src] timeout (Some dst) s
    | Some (VOther _) => Some (reply_to c ReplyWrongType s)
    | Some (VList o) =>
      '(n, o) ← lo_length o;
      if 0 <? n then rpoplpushCommand c src dst (put src o s) else None
    end
  end.

Definition run_command (c : nat) (cmd : command) (s : server) : option (server * option command) :=
  match cmd with
  | BLPOP keys timeout => blockingPopGenericCommand c keys timeout HEAD s
  | BRPOP keys timeout => blockingPopGenericCommand c keys timeout TAIL s
  | _ =>
    s ← match cmd with
      | LPUSH key args => pushGenericCommand c key args HEAD s
      | RPUSH key args => pushGenericCommand c key args TAIL s
      | LPUSHX key val => pushxGenericCommand c key None (tryObjectEncoding val) HEAD s
      | RPUSHX key val => pushxGenericCommand c key None (tryObjectEncoding val) TAIL s
      | LINSERT key where_ refval val => linsertCommand c key where_ refval val s
      | LLEN key => llenCommand c key s
      | LINDEX key index => lindexCommand c key index s
      | LSET key index value => lsetCommand c key index value s
      | LPOP key => popGenericCommand c key HEAD s
      | RPOP key => popGenericCommand c key TAIL s
      | LRANGE key start stop => lrangeCommand c key start stop s
      | LTRIM key start stop => ltrimCommand c key start stop s
      | LREM key count obj => lremCommand c key count obj s
      | RPOPLPUSH src dst => rpoplpushCommand c src dst s
      | BRPOPLPUSH src dst timeout => brpoplpushCommand c src dst timeout s
      | _ => None
      end;
    Some (s, None)
  end.

(** call: a command that changes something is propagated. *)
Definition call (c : nat) (cmd : command) (s : server) : option server :=
  let dirty := e_dirty (env_of s) in
  '(s, rewritten) ← run_command c cmd s;
  Some (if e_dirty (env_of s) =? dirty then s else upd (propagate (PCommand (default cmd rewritten))) s).

(** *** Serving the clients that wait *)

(** The boolean is false when the destination has another type. *)
Definition serveClientBlockedOnList (receiver : nat) (key : text) (dstkey : option text) (value : robj) (where_ : side) (s : server) : option (server * bool) :=
  match dstkey with
  | None =>
    let s := upd (propagate (PCommand (match where_ with HEAD => LPOP key | TAIL => RPOP key end))) s in
    Some (reply_to receiver (ReplyMulti [key; decoded value]) s, true)
  | Some dstkey =>
    match db s !! dstkey with
    | Some (VOther _) => Some (reply_to receiver ReplyWrongType s, false)
    | _ =>
      s ← rpoplpushHandlePush receiver dstkey value (upd (propagate (PCommand (RPOP key))) s);
      Some (upd (propagate (PCommand (LPUSH dstkey [RRaw (decoded value)]))) s, true)
    end
  end.

(** The loop over [numclients] clients; the list of clients must be there for each of them. *)
Fixpoint serve_loop (numclients : nat) (key : text) (s : server) : option server :=
  match numclients with
  | O => Some s
  | S numclients =>
    clients ← e_blocking (env_of s) !! key;
    receiver ← clients !! O;
    x ← e_clients (env_of s) !! receiver;
    o ← get_list key s;
    let where_ := if c_blpop x then HEAD else TAIL in
    '(value, o) ← lo_pop o where_;
    let s := put key o s in
    match value with
    | None => Some s
    | Some value =>
      e ← unblockClientWaitingData receiver (env_of s);
      '(s, ok) ← serveClientBlockedOnList receiver key (c_target x) value where_ (mkServer (db s) e);
      s ← (if ok : bool then Some s else o ← get_list key s; o ← lo_push o value where_; Some (put key o s));
      serve_loop numclients key s
    end
  end.

Definition serve_key (key : text) (s : server) : option server :=
  let s := upd (fun e => set_ready (e_ready e ∖ {[key]}) (e_ready_keys e) e) s in
  match db s !! key with
  | Some (VList _) =>
    s ← match e_blocking (env_of s) !! key with Some clients => serve_loop (length clients) key s | None => Some s end;
    delete_if_empty key s
  | _ => Some s
  end.

Fixpoint serve_keys (l : list text) (s : server) : option server :=
  match l with [] => Some s | key :: l => s ← serve_key key s; serve_keys l s end.

(** Every round but the first follows a client that has been served. *)
Fixpoint handle_loop (fuel : nat) (s : server) : option server :=
  match fuel with
  | O => None
  | S fuel =>
    match e_ready_keys (env_of s) with
    | [] => Some s
    | l => s ← serve_keys l (upd (fun e => set_ready (e_ready e) [] e) s); handle_loop fuel s
    end
  end.
Definition handleClientsBlockedOnLists (s : server) : option server := handle_loop (S (S (Z.to_nat (e_count (env_of s))))) s.

(** *** Events *)

(** beforeSleep; what the client has sent in the meantime is read behind it. *)
Fixpoint unblocked_loop (l : list nat) (e : env) : option env :=
  match l with
  | [] => Some (set_unblocked [] e)
  | c :: l =>
    x ← e_clients e !! c;
    unblocked_loop l (set_client c (mkClient (c_keys x) (c_target x) (c_timeout x) (c_blocked x) false (c_multi x) (c_blpop x)) e)
  end.

Inductive event :=
  | Connect (c : nat)
  | Command (c : nat) (cmd : command)           (* processCommand outside of MULTI *)
  | Exec (c : nat) (cmds : list command)        (* EXEC of the queue [cmds] *)
  | Cron (now : Z) (c : nat)                    (* clientsCronHandleTimeout *)
  | BeforeSleep                                 (* beforeSleep *)
  | Free (c : nat)                              (* freeClient *)
  | Other (l : changes).

Definition set_flags (c : nat) (multi blpop : bool) (s : server) : option server :=
  x ← e_clients (env_of s) !! c;
  Some (upd (set_client c (mkClient (c_keys x) (c_target x) (c_timeout x) (c_blocked x) (c_unblocked x) multi blpop)) s).

Fixpoint call_all (c : nat) (cmds : list command) (s : server) : option server :=
  match cmds with [] => Some s | cmd :: cmds => s ← call c cmd s; call_all c cmds s end.

Fixpoint change (l : changes) (m : gmap text value) : gmap text value :=
  match l with
  | [] => m
  | (key, None) :: l => change l (delete key m)
  | (key, Some t) :: l => change l (<[key := VOther t]> m)
  end.

Definition is_blpop (cmd : command) : bool := match cmd with BLPOP _ _ => true | _ => false end.

(** The commands of a client that is blocked, or is not there, are not read. *)
Definition ready_client (c : nat) (s : server) : bool :=
  match e_clients (env_of s) !! c with Some x => negb (c_blocked x) | None => false end.

Definition processCommand (c : nat) (cmd : command) (s : server) : option server :=
  if ready_client c s then s ← set_flags c false (is_blpop cmd) s; s ← call c cmd s; handleClientsBlockedOnLists s else Some s.

Definition execCommand (c : nat) (cmds : list command) (s : server) : option server :=
  if ready_client c s then
    s ← set_flags c true false s; s ← call_all c cmds s; s ← set_flags c false false s; handleClientsBlockedOnLists s
  else Some s.

Definition clientsCronHandleTimeout (c : nat) (s : server) : option server :=
  match e_clients (env_of s) !! c with
  | Some x =>
    if c_blocked x && negb (c_timeout x =? 0) && (c_timeout x <? e_unixtime (env_of s)) then
      e ← unblockClientWaitingData c (addReply c ReplyNullMulti (env_of s)); Some (mkServer (db s) e)
    else Some s
  | None => Some s
  end.

Definition beforeSleep (s : server) : option server := e ← unblocked_loop (e_unblocked (env_of s)) (env_of s); Some (mkServer (db s) e).

Definition freeClient (c : nat) (s : server) : option server :=
  match e_clients (env_of s) !! c with
  | Some x =>
    e ← (if c_blocked x then unblockClientWaitingData c (env_of s) else Some (env_of s));
    x ← e_clients e !! c;
    l ← (if c_unblocked x then del_client c (e_unblocked e) else Some (e_unblocked e));
    Some (mkServer (db s) (set_unblocked l (set_clients (delete c (e_clients e)) e)))
  | None => Some s
  end.

Definition handle (e : event) (s : server) : option server :=
  match e with
  | Connect c => Some (match e_clients (env_of s) !! c with None => upd (set_client c newClient) s | Some _ => s end)
  | Command c cmd => processCommand c cmd s
  | Exec c cmds => execCommand c cmds s
  | Cron now c => clientsCronHandleTimeout c (upd (set_time now) s)
  | BeforeSleep => beforeSleep s
  | Free c => freeClient c s
  | Other l => Some (upd (propagate (POther l)) (mkServer (change l (db s)) (env_of s)))
  end.

Fixpoint handle_all (es : list event) (s : server) : option server :=
  match es with [] => Some s | e :: es => s ← handle e s; handle_all es s end.

Definition initServer : server := mkServer ∅ (mkEnv ∅ ∅ [] ∅ [] 0 0 0 [] [] []).
End WithOther.

(** ** The encodings cannot be seen *)

Section Refine.
Context {T Obj : Type} {ops : ListOps Obj} {laws : ListLaws ops}.

Abbreviation cserver := (server (T := T) (Obj := Obj)).
Abbreviation aserver := (server (T := T) (Obj := list text)).

(** Where the plain lists give a result, the objects give a related one. *)
Definition sim {A B} (R : A -> B -> Prop) (m : option A) (m' : option B) : Prop := forall b, m' = Some b -> exists a, m = Some a /\ R a b.

Lemma sim_ret {A B} (R : A -> B -> Prop) a b : R a b -> sim R (Some a) (Some b).
Proof. intros H b' [= <-]. by exists a. Qed.
Lemma sim_none {A B} (R : A -> B -> Prop) (m : option A) : sim R m None.
Proof. intros b Hb. done. Qed.
Lemma sim_bind {A B A' B'} (R : A -> B -> Prop) (Q : A' -> B' -> Prop) m m' k k' :
  sim R m m' -> (forall a b, R a b -> sim Q (k a) (k' b)) -> sim Q (m ≫= k) (m' ≫= k').
Proof.
  intros Hm Hk c Hc. destruct m' as [b|]; [|done]. destruct (Hm b eq_refl) as (a & -> & HR). cbn [mbind option_bind] in *. by apply (Hk a b HR).
Qed.

Definition vrel (v : option (value (T := T) (Obj := Obj))) (av : option (value (T := T) (Obj := list text))) : Prop :=
  match v, av with
  | None, None => True
  | Some (VList o), Some (VList l) => ll_is o l
  | Some (VOther t), Some (VOther t') => t = t'
  | _, _ => False
  end.
Definition srel (s : cserver) (a : aserver) : Prop := env_of s = env_of a /\ forall k, vrel (db s !! k) (db a !! k).

Lemma srel_upd f s a : srel s a -> srel (upd f s) (upd f a).
Proof. intros [He Hd]. split; [by cbn; rewrite He|done]. Qed.
Lemma srel_env e s a : srel s a -> srel (mkServer (db s) e) (mkServer (db a) e).
Proof. intros [He Hd]. by split. Qed.
Lemma srel_put k o l s a : srel s a -> ll_is o l -> srel (put k o s) (put k l a).
Proof.
  intros [He Hd] Ho. split; [done|]. intros k'. cbn. destruct (decide (k' = k)) as [->|]; [by rewrite !lookup_insert_eq|by rewrite !lookup_insert_ne].
Qed.
Lemma srel_delete k s a : srel s a -> srel (dbDelete k s) (dbDelete k a).
Proof.
  intros [He Hd]. split; [done|]. intros k'. cbn. destruct (decide (k' = k)) as [->|]; [by rewrite !lookup_delete_eq|by rewrite !lookup_delete_ne].
Qed.
Lemma srel_reply c r s a : srel s a -> srel (reply_to c r s) (reply_to c r a).
Proof. apply srel_upd. Qed.
Lemma srel_modified k s a : srel s a -> srel (modified k s) (modified k a).
Proof. intros H. by do 2 apply srel_upd. Qed.

Create HintDb lists.
#[local] Hint Resolve srel_upd srel_env srel_put srel_delete srel_reply srel_modified sim_ret sim_none : lists.

Lemma srel_case k s a : srel s a ->
  (db s !! k = None /\ db a !! k = None) \/ (exists t, db s !! k = Some (VOther t) /\ db a !! k = Some (VOther t)) \/
  (exists o l, db s !! k = Some (VList o) /\ db a !! k = Some (VList l) /\ ll_is o l).
Proof.
  intros [_ Hd]. specialize (Hd k). destruct (db s !! k) as [[o|t]|], (db a !! k) as [[l|t']|]; try done; [right; right; by exists o, l|right; left; cbn in Hd; subst; by exists t'|by left].
Qed.

Ltac cases_of Hs k := destruct (srel_case k _ _ Hs) as [(-> & ->)|[(?t & -> & ->)|(?o & ?l & -> & -> & ?Ho)] ].

(** *** The operations on objects *)

Definition vmatch (v v' : robj) : Prop := decoded v = decoded v' /\ robj_ok v /\ robj_ok v'.
Definition bylen (p : Z * Obj) (q : Z * list text) : Prop := p.1 = q.1 /\ ll_is p.2 q.2.
Definition byflag (p : Obj * bool) (q : list text * bool) : Prop := ll_is p.1 q.1 /\ p.2 = q.2.
Definition bypop (p : option robj * Obj) (q : option robj * list text) : Prop :=
  ll_is p.2 q.2 /\ match p.1, q.1 with Some v, Some v' => vmatch v v' | None, None => True | _, _ => False end.

Lemma vmatch_refl v : robj_ok v -> vmatch v v.
Proof. by repeat split. Qed.
Lemma vmatch_encode v : robj_ok v -> vmatch (tryObjectEncoding v) (tryObjectEncoding v).
Proof. intros Hv. apply vmatch_refl. by apply SetType.tryObjectEncoding_ok. Qed.

Lemma sim_push o l v v' w : ll_is o l -> vmatch v v' -> sim ll_is (lo_push o v w) (lo_push l v' w).
Proof. intros Ho (Hd & Hv & _) l' [= <-]. destruct (ll_push o l v w Ho Hv) as (o' & -> & H). exists o'. by rewrite <- Hd. Qed.

Lemma sim_length o l : ll_is o l -> sim bylen (lo_length o) (lo_length l).
Proof. intros Ho q [= <-]. destruct (ll_length o l Ho) as (o' & -> & H). by exists (zlen l, o'). Qed.

Lemma sim_pop o l w : ll_is o l -> sim bypop (lo_pop o w) (lo_pop l w).
Proof.
  intros Ho q Hq. destruct (ll_pop o l w Ho) as (v & o' & -> & Ho' & Hv & Hok). cbn in Hq. destruct (spec_pop l w) as [v' l']. injection Hq as <-.
  cbn [fst snd] in *. eexists. split; [done|]. split; [done|]. cbn. destruct v as [v|], v' as [v'|]; try done. injection Hv as <-. cbn. split; [done|]. split; [by apply Hok|done].
Qed.

Lemma sim_insert o l s v w : ll_is o l -> robj_ok v -> sim byflag (lo_insert o (RRaw s) v w) (lo_insert l (RRaw s) v w).
Proof.
  intros Ho Hv q [= <-]. destruct (ll_insert o l s v w Ho Hv) as (o' & b & -> & H). cbn [decoded].
  destruct (spec_insert l s (decoded v) w); destruct H as [-> H]; eexists; by split.
Qed.

Lemma sim_index o l i : ll_is o l -> index_ok i -> sim eq (lo_index o i) (lo_index l i).
Proof. intros Ho Hi q [= <-]. rewrite (ll_index o l i Ho Hi). by eexists. Qed.

Lemma sim_set o l i v : ll_is o l -> index_ok i -> robj_ok v -> sim byflag (lo_set o i v) (lo_set l i v).
Proof.
  intros Ho Hi Hv q [= <-]. destruct (ll_set o l i v Ho Hi Hv) as (o' & b & -> & H). destruct (Ziplist.pos l i); destruct H as [-> H]; eexists; by split.
Qed.

Lemma sim_range o l start n : ll_is o l -> zlen l < 2 ^ 63 -> 0 <= start -> 0 <= n -> start + n <= zlen l -> start < zlen l ->
  sim eq (lo_range o (zlen l) start n) (lo_range l (zlen l) start n).
Proof. intros Ho H1 H2 H3 H4 H5 q [= <-]. rewrite (ll_range o l start n) by done. by eexists. Qed.

Lemma sim_trim o l a b : ll_is o l -> 0 <= a -> 0 <= b -> a + b <= zlen l -> sim ll_is (lo_trim o a b) (lo_trim l a b).
Proof. intros Ho H1 H2 H3 q [= <-]. by apply (ll_trim o l a b). Qed.

Lemma sim_rem o l n v : ll_is o l -> count_ok n -> robj_ok v -> sim (fun p q => ll_is p.1 q.1 /\ p.2 = q.2) (lo_rem o n v) (lo_rem l n v).
Proof.
  intros Ho Hn Hv q Hq. destruct (ll_rem o l n v Ho Hn Hv) as (o' & r & -> & H). cbn in Hq. injection Hq as <-.
  destruct (if n <? 0 then _ else _) as [l' r']. destruct H as [H ->]. by eexists.
Qed.

(** *** The commands *)

Ltac sim_let H := eapply sim_bind; [eapply H; eauto|]; intros [? ?] [? ?] [?E ?Hr]; cbn [fst snd] in *; subst.

Lemma sim_get_list k s a : srel s a -> sim ll_is (get_list k s) (get_list k a).
Proof. intros Hs. unfold get_list. cases_of Hs k; auto with lists. Qed.

Lemma sim_delete_if_empty k s a : srel s a -> sim srel (delete_if_empty k s) (delete_if_empty k a).
Proof.
  intros Hs. unfold delete_if_empty. eapply sim_bind; [by apply sim_get_list|]. intros o l Ho. sim_let sim_length. apply sim_ret. destruct (_ =? 0); auto with lists.
Qed.

Lemma sim_push_loop args w : Forall robj_ok args -> forall o l, ll_is o l -> sim ll_is (push_loop o args w) (push_loop l args w).
Proof.
  induction 1 as [|v args Hv _ IH]; intros o l Ho; cbn [push_loop]; [by apply sim_ret|].
  eapply sim_bind; [apply sim_push; [done|by apply vmatch_encode]|]. apply IH.
Qed.

Lemma sim_pushGeneric c k args w s a : srel s a -> Forall robj_ok args -> sim srel (pushGenericCommand c k args w s) (pushGenericCommand c k args w a).
Proof.
  intros Hs Hargs. unfold pushGenericCommand. cases_of Hs k; [| by auto with lists|]; (destruct args as [|v args]; [apply sim_none|]).
  - eapply sim_bind; [apply sim_push_loop; [done|apply ll_create]|]. intros o l Ho. sim_let sim_length. apply sim_ret. auto 10 with lists.
  - eapply sim_bind; [by apply sim_push_loop|]. intros o' l' Ho'. sim_let sim_length. apply sim_ret. auto 10 with lists.
Qed.

Lemma sim_pushxGeneric c k refval v w s a : srel s a -> robj_ok v -> match refval with Some (RInt _) => False | _ => True end ->
  sim srel (pushxGenericCommand c k refval v w s) (pushxGenericCommand c k refval v w a).
Proof.
  intros Hs Hv Href. unfold pushxGenericCommand. cases_of Hs k; [by auto with lists..|]. destruct refval as [[x|p]|]; [done|..].
  - eapply sim_bind; [by apply sim_insert|]. intros [o' b] [l' b'] [Ho' Eb]. cbn [fst snd] in *. subst b'. destruct b; [|by auto with lists].
    sim_let sim_length. apply sim_ret. auto with lists.
  - eapply sim_bind; [apply sim_push; [done|by apply vmatch_refl]|]. intros o' l' Ho'. sim_let sim_length. apply sim_ret. auto with lists.
Qed.

Lemma sim_with_list c k r s a f f' : srel s a -> (forall o l, ll_is o l -> db a !! k = Some (VList l) -> sim srel (f o) (f' l)) -> sim srel (with_list c k r s f) (with_list c k r a f').
Proof.
  intros Hs Hf. unfold with_list. destruct (srel_case k s a Hs) as [(-> & ->)|[(t & -> & ->)|(o & l & -> & E & Ho)] ]; [by auto with lists..|].
  rewrite E. by apply Hf.
Qed.

Lemma sim_with_long c x s a f f' : srel s a -> (forall n, HashType.getLongLongFromObject x = Some n -> sim srel (f n) (f' n)) -> sim srel (with_long c x s f) (with_long c x a f').
Proof. intros Hs Hf. unfold with_long. destruct (HashType.getLongLongFromObject x) as [n|]; [by apply Hf|auto with lists]. Qed.

Definition long_ok (P : Z -> Prop) (o : robj) : Prop := forall n, HashType.getLongLongFromObject o = Some n -> P n.

Lemma sim_llen c k s a : srel s a -> sim srel (llenCommand c k s) (llenCommand c k a).
Proof. intros Hs. apply sim_with_list; [done|]. intros o l Ho _. sim_let sim_length. apply sim_ret. auto with lists. Qed.

Lemma sim_lindex c k i s a : srel s a -> long_ok index_ok i -> sim srel (lindexCommand c k i s) (lindexCommand c k i a).
Proof.
  intros Hs Hi. apply sim_with_list; [done|]. intros o l Ho _. apply sim_with_long; [done|]. intros n Hn.
  eapply sim_bind; [apply sim_index; [done|by apply Hi]|]. intros v _ <-. apply sim_ret. auto with lists.
Qed.

Lemma sim_lset c k i v s a : srel s a -> long_ok index_ok i -> robj_ok v -> sim srel (lsetCommand c k i v s) (lsetCommand c k i v a).
Proof.
  intros Hs Hi Hv. apply sim_with_list; [done|]. intros o l Ho _. apply sim_with_long; [done|]. intros n Hn.
  eapply sim_bind; [apply sim_set; [done|by apply Hi|by apply vmatch_encode]|]. intros [o' b] [l' b'] [Ho' Eb]. cbn [fst snd] in *. subst b'. apply sim_ret.
  destruct b; auto with lists.
Qed.

Lemma sim_popGeneric c k w s a : srel s a -> sim srel (popGenericCommand c k w s) (popGenericCommand c k w a).
Proof.
  intros Hs. apply sim_with_list; [done|]. intros o l Ho _. eapply sim_bind; [by apply sim_pop|]. intros [v o'] [v' l'] [Ho' Hv]. cbn [fst snd] in *.
  destruct v as [v|], v' as [v'|]; try done; [|by auto with lists]. destruct Hv as (-> & _). eapply sim_bind; [apply sim_delete_if_empty; by auto with lists|].
  intros s' a' Hs'. auto with lists.
Qed.

Lemma convert_range_ok start stop llen a b : convert_range start stop llen = Some (a, b) -> 0 <= a <= b /\ b < llen.
Proof.
  unfold convert_range. set (x := if (if start <? 0 then _ else _) <? 0 then 0 else _). set (y := if stop <? 0 then _ else _).
  assert (0 <= x) by (unfold x; case_match; lia). destruct (Z.ltb_spec y x), (Z.leb_spec llen x); cbn [orb]; try done. intros [= <- <-].
  destruct (Z.leb_spec llen y); lia.
Qed.

Definition short_lists (a : aserver) : Prop := forall k l, db a !! k = Some (VList l) -> zlen l < 2 ^ 63.

Lemma sim_lrange c k x y s a : srel s a -> short_lists a -> sim srel (lrangeCommand c k x y s) (lrangeCommand c k x y a).
Proof.
  intros Hs Hshort. apply sim_with_long; [done|]. intros start _. apply sim_with_long; [done|]. intros stop _. apply sim_with_list; [done|]. intros o l Ho Hl.
  intros b Hb. destruct (ll_length o l Ho) as (o' & E & Ho'). rewrite E. cbn [mbind option_bind lo_length plain_ops] in *. revert b Hb.
  change (sim srel (match convert_range start stop (zlen l) with None => Some (reply_to c (ReplyMulti []) (put k o' s)) | Some (start, stop) =>
    l0 ← lo_range o' (zlen l) start (stop - start + 1); Some (reply_to c (ReplyMulti l0) (put k o' s)) end)
    (match convert_range start stop (zlen l) with None => Some (reply_to c (ReplyMulti []) (put k l a)) | Some (start, stop) =>
    l0 ← lo_range l (zlen l) start (stop - start + 1); Some (reply_to c (ReplyMulti l0) (put k l a)) end)).
  destruct (convert_range start stop (zlen l)) as [[i j]|] eqn:Er; [|by auto with lists]. apply convert_range_ok in Er.
  eapply sim_bind; [apply sim_range; [done|by apply (Hshort k)|lia..]|]. intros r _ <-. apply sim_ret. auto with lists.
Qed.

Lemma sim_ltrim c k x y s a : srel s a -> sim srel (ltrimCommand c k x y s) (ltrimCommand c k x y a).
Proof.
  intros Hs. apply sim_with_long; [done|]. intros start _. apply sim_with_long; [done|]. intros stop _. apply sim_with_list; [done|]. intros o l Ho _.
  intros b Hb. destruct (ll_length o l Ho) as (o' & E & Ho'). rewrite E. cbn [mbind option_bind lo_length plain_ops] in *. revert b Hb.
  destruct (match convert_range start stop (zlen l) with None => (zlen l, 0) | Some (i, j) => (i, zlen l - j - 1) end) as [lt rt] eqn:Er.
  assert (0 <= lt /\ 0 <= rt /\ lt + rt <= zlen l) as (H1 & H2 & H3).
  { pose proof (zlen_nonneg l). destruct (convert_range start stop (zlen l)) as [[i j]|] eqn:Ec; injection Er as <- <-; [apply convert_range_ok in Ec|]; lia. }
  pose proof (sim_trim o' l lt rt Ho' H1 H2 H3) as Ht. intros b Hb. cbn [mbind option_bind lo_trim plain_ops] in Hb.
  destruct (Ht _ eq_refl) as (o2 & -> & Ho2). cbn [mbind option_bind]. revert b Hb.
  match goal with |- forall b, ?m' = Some b -> exists x, ?m = Some x /\ _ => change (sim srel m m') end.
  eapply sim_bind; [apply sim_delete_if_empty; by auto with lists|]. intros s' a' Hs'. auto with lists.
Qed.

Lemma sim_lrem c k n v s a : srel s a -> long_ok count_ok n -> robj_ok v -> sim srel (lremCommand c k n v s) (lremCommand c k n v a).
Proof.
  intros Hs Hn Hv. apply sim_with_long; [done|]. intros x Hx. apply sim_with_list; [done|]. intros o l Ho _.
  eapply sim_bind; [apply sim_rem; [done|by apply Hn|by apply vmatch_encode]|]. intros [o' r] [l' r'] [Ho' Er]. cbn [fst snd] in *. subst r'.
  eapply sim_bind; [apply sim_delete_if_empty; by auto with lists|]. intros s' a' Hs'. apply sim_ret. destruct (r =? 0); auto with lists.
Qed.

Lemma sim_handlePush c k v v' s a : srel s a -> vmatch v v' -> sim srel (rpoplpushHandlePush c k v s) (rpoplpushHandlePush c k v' a).
Proof.
  intros Hs Hv. unfold rpoplpushHandlePush.
  eapply (sim_bind (fun p q => ll_is p.1 q.1 /\ srel p.2 q.2)).
  - cases_of Hs k; [apply sim_ret; split; [apply ll_create|cbn; by auto with lists]|apply sim_none|by apply sim_ret].
  - intros [o s1] [l a1] [Ho Hs1]. cbn [fst snd] in *. eapply sim_bind; [by apply sim_push|]. intros o' l' Ho'. apply sim_ret. destruct Hv as (-> & _). auto with lists.
Qed.

Lemma sim_rpoplpush c k d s a : srel s a -> sim srel (rpoplpushCommand c k d s) (rpoplpushCommand c k d a).
Proof.
  intros Hs. apply sim_with_list; [done|]. intros o l Ho _. sim_let sim_length. rename o0 into o1. destruct (z0 =? 0); [by auto with lists|].
  assert (srel (put k o1 s) (put k l0 a)) as Hs1 by auto with lists.
  assert (forall s1 a1, srel s1 a1 -> sim srel
    ('(value, o) ← lo_pop o1 TAIL; value ← value; s ← rpoplpushHandlePush c d value (put k o s1); s ← delete_if_empty k s; Some (modified k s))
    ('(value, o) ← lo_pop l0 TAIL; value ← value; s ← rpoplpushHandlePush c d value (put k o a1); s ← delete_if_empty k s; Some (modified k s))) as Hpop.
  { intros s1 a1 H1. eapply sim_bind; [by apply sim_pop|]. intros [v o'] [v' l'] [Ho' Hv]. cbn [fst snd] in *.
    destruct v as [v|], v' as [v'|]; try done. cbn [mbind option_bind].
    eapply sim_bind; [apply sim_handlePush; by auto with lists|]. intros s2 a2 H2. eapply sim_bind; [by apply sim_delete_if_empty|]. intros s3 a3 H3. auto with lists. }
  cases_of Hs1 d; [by apply Hpop|by auto with lists|by apply Hpop].
Qed.

Lemma sim_block c keys t target s a : srel s a -> sim srel (block c keys t target s) (block c keys t target a).
Proof.
  intros Hs. unfold block. rewrite (proj1 Hs). destruct (blockForKeys c keys t target (env_of a)); [|apply sim_none]. apply sim_ret. auto with lists.
Qed.

Lemma sim_in_multi c s a : srel s a -> sim eq (in_multi c s) (in_multi c a).
Proof. intros Hs. unfold in_multi. rewrite (proj1 Hs). destruct (e_clients (env_of a) !! c); [by apply sim_ret|apply sim_none]. Qed.

Definition bysnd {B} (p : cserver * B) (q : aserver * B) : Prop := srel p.1 q.1 /\ p.2 = q.2.

Lemma sim_blocking_pop c w : forall keys s a, srel s a -> sim bysnd (blocking_pop_loop c keys w s) (blocking_pop_loop c keys w a).
Proof.
  induction keys as [|k keys IH]; intros s a Hs; cbn [blocking_pop_loop]; [by apply sim_ret|].
  cases_of Hs k; [by apply IH|apply sim_ret; split; cbn; [by auto with lists|done]|].
  sim_let sim_length. destruct (_ =? 0); [apply IH; by auto with lists|]. eapply sim_bind; [by apply sim_pop|]. intros [v o'] [v' l'] [Ho' Hv]. cbn [fst snd] in *.
  destruct v as [v|], v' as [v'|]; try done. cbn [mbind option_bind]. destruct Hv as (-> & _).
  eapply sim_bind; [apply sim_delete_if_empty; by auto with lists|]. intros s' a' Hs'. apply sim_ret. split; cbn; [by auto with lists|done].
Qed.

Lemma sim_blockingPop c keys t w s a : srel s a -> sim bysnd (blockingPopGenericCommand c keys t w s) (blockingPopGenericCommand c keys t w a).
Proof.
  intros Hs. unfold blockingPopGenericCommand. rewrite (proj1 Hs). destruct (getTimeout t _) as [[msg|time]|]; cbn [mbind option_bind]; [| |apply sim_none].
  - apply sim_ret. split; cbn; [by auto with lists|done].
  - eapply sim_bind; [by apply sim_blocking_pop|]. intros [s1 r] [a1 r'] [H1 Er]. cbn [fst snd] in *. subst r'. destruct r; [by apply sim_ret..|].
    eapply sim_bind; [by apply sim_in_multi|]. intros multi _ <-. eapply (sim_bind srel); [destruct multi; [by auto with lists|by apply sim_block]|].
    intros s2 a2 H2. by apply sim_ret.
Qed.

Lemma sim_brpoplpush c k d t s a : srel s a -> sim srel (brpoplpushCommand c k d t s) (brpoplpushCommand c k d t a).
Proof.
  intros Hs. unfold brpoplpushCommand. rewrite (proj1 Hs). destruct (getTimeout t _) as [[msg|time]|]; cbn [mbind option_bind]; [by auto with lists| |apply sim_none].
  cases_of Hs k; [|by auto with lists|].
  - eapply sim_bind; [by apply sim_in_multi|]. intros multi _ <-. destruct multi; [by auto with lists|by apply sim_block].
  - sim_let sim_length. destruct (0 <? _); [|apply sim_none]. apply sim_rpoplpush. auto with lists.
Qed.

Definition refval_ok (v : robj) : Prop := match v with RInt _ => False | RRaw _ => True end.

(** The arguments: integers are 64-bit, an index is an int, and a count is not the smallest long. *)
Definition args_ok (cmd : command) : Prop :=
  match cmd with
  | LPUSH _ args | RPUSH _ args => Forall robj_ok args
  | LPUSHX _ v | RPUSHX _ v => robj_ok v
  | LINSERT _ _ refval v => refval_ok refval /\ robj_ok v
  | LINDEX _ i => long_ok index_ok i
  | LSET _ i v => long_ok index_ok i /\ robj_ok v
  | LREM _ n v => long_ok count_ok n /\ robj_ok v
  | _ => True
  end.

Lemma sim_run_command c cmd s a : srel s a -> short_lists a -> args_ok cmd -> sim bysnd (run_command c cmd s) (run_command c cmd a).
Proof.
  intros Hs Hshort Hok.
  assert (forall m m', sim srel m m' -> sim (B := aserver * option command) bysnd (s ← m; Some (s, None)) (a ← m'; Some (a, None))) as Hplain.
  { intros m m' Hm. eapply sim_bind; [done|]. intros s1 a1 H1. by apply sim_ret. }
  assert (forall v, robj_ok v -> robj_ok (tryObjectEncoding v)) as Henc by (intros v Hv; by apply SetType.tryObjectEncoding_ok).
  destruct cmd; cbn [run_command args_ok] in *; try (apply Hplain); try (by apply sim_blockingPop).
  - by apply sim_pushGeneric.
  - by apply sim_pushGeneric.
  - by apply sim_pushxGeneric; [|apply Henc|].
  - by apply sim_pushxGeneric; [|apply Henc|].
  - destruct Hok as [Href Hv]. unfold linsertCommand. destruct refval; [done|].
    destruct (Util.strcasecmp_eq where_ (str "after")); [by apply sim_pushxGeneric; [|apply Henc|]|].
    destruct (Util.strcasecmp_eq where_ (str "before")); [by apply sim_pushxGeneric; [|apply Henc|]|auto with lists].
  - by apply sim_llen.
  - by apply sim_lindex.
  - destruct Hok. by apply sim_lset.
  - by apply sim_popGeneric.
  - by apply sim_popGeneric.
  - by apply sim_lrange.
  - by apply sim_ltrim.
  - destruct Hok. by apply sim_lrem.
  - by apply sim_rpoplpush.
  - by apply sim_brpoplpush.
Qed.

Lemma sim_call c cmd s a : srel s a -> short_lists a -> args_ok cmd -> sim srel (call c cmd s) (call c cmd a).
Proof.
  intros Hs Hshort Hok. unfold call. rewrite (proj1 Hs). eapply sim_bind; [by apply sim_run_command|]. intros [s1 r] [a1 r'] [H1 Er]. cbn [fst snd] in *. subst r'.
  rewrite (proj1 H1). apply sim_ret. destruct (_ =? _); auto with lists.
Qed.

(** *** Serving *)

Lemma sim_serve c k d v v' w s a : srel s a -> vmatch v v' -> sim bysnd (serveClientBlockedOnList c k d v w s) (serveClientBlockedOnList c k d v' w a).
Proof.
  intros Hs Hv. unfold serveClientBlockedOnList. destruct d as [d|].
  - assert (sim bysnd (s ← rpoplpushHandlePush c d v (upd (propagate (PCommand (RPOP k))) s); Some (upd (propagate (PCommand (LPUSH d [RRaw (decoded v)]))) s, true))
      (s ← rpoplpushHandlePush c d v' (upd (propagate (PCommand (RPOP k))) a); Some (upd (propagate (PCommand (LPUSH d [RRaw (decoded v')]))) s, true))) as H.
    { eapply sim_bind; [apply sim_handlePush; by auto with lists|]. intros s1 a1 H1. apply sim_ret. destruct Hv as (-> & _). split; cbn; [by auto with lists|done]. }
    cases_of Hs d; [exact H|apply sim_ret; split; cbn; [by auto with lists|done]|exact H].
  - destruct Hv as (-> & _). apply sim_ret. split; cbn; [by auto with lists|done].
Qed.

Lemma sim_serve_loop k : forall n s a, srel s a -> sim srel (serve_loop n k s) (serve_loop n k a).
Proof.
  induction n as [|n IH]; intros s a Hs; cbn [serve_loop]; [by auto with lists|]. rewrite (proj1 Hs).
  destruct (e_blocking (env_of a) !! k) as [clients|]; cbn [mbind option_bind]; [|apply sim_none].
  destruct (clients !! O) as [receiver|]; cbn [mbind option_bind]; [|apply sim_none].
  destruct (e_clients (env_of a) !! receiver) as [x|]; cbn [mbind option_bind]; [|apply sim_none].
  eapply sim_bind; [by apply sim_get_list|]. intros o l Ho. eapply sim_bind; [by apply sim_pop|]. intros [v o'] [v' l'] [Ho' Hv]. cbn [fst snd] in *.
  destruct v as [v|], v' as [v'|]; try done; [|by auto with lists]. cbn [env_of put db]. rewrite (proj1 Hs).
  destruct (unblockClientWaitingData receiver (env_of a)) as [e|]; cbn [mbind option_bind]; [|apply sim_none].
  eapply sim_bind; [apply sim_serve; [|done]|]. { apply (srel_env e (put k o' s) (put k l' a)). auto with lists. }
  intros [s1 b] [a1 b'] [H1 Eb]. cbn [fst snd] in *. subst b'. eapply (sim_bind srel); [|intros s2 a2 H2; by apply IH].
  destruct b; [by auto with lists|]. eapply sim_bind; [by apply sim_get_list|]. intros o2 l2 Ho2. eapply sim_bind; [by apply sim_push|]. intros o3 l3 Ho3. auto with lists.
Qed.

Lemma sim_serve_key k s a : srel s a -> sim srel (serve_key k s) (serve_key k a).
Proof.
  intros Hs. unfold serve_key. set (f := fun e => set_ready (e_ready e ∖ {[k]}) (e_ready_keys e) e). pose proof (srel_upd f s a Hs) as H1.
  cases_of H1 k; [by auto with lists..|]. rewrite (proj1 H1). eapply (sim_bind srel); [|intros s2 a2 H2; by apply sim_delete_if_empty].
  destruct (e_blocking (env_of (upd f a)) !! k); [by apply sim_serve_loop|by auto with lists].
Qed.

Lemma sim_serve_keys : forall l s a, srel s a -> sim srel (serve_keys l s) (serve_keys l a).
Proof.
  induction l as [|k l IH]; intros s a Hs; cbn [serve_keys]; [by auto with lists|]. eapply sim_bind; [by apply sim_serve_key|]. apply IH.
Qed.

Lemma sim_handle_loop : forall fuel s a, srel s a -> sim srel (handle_loop fuel s) (handle_loop fuel a).
Proof.
  induction fuel as [|fuel IH]; intros s a Hs; cbn [handle_loop]; [apply sim_none|]. rewrite (proj1 Hs).
  destruct (e_ready_keys (env_of a)); [by auto with lists|]. eapply sim_bind; [apply sim_serve_keys; by auto with lists|]. apply IH.
Qed.

Lemma sim_handleClients s a : srel s a -> sim srel (handleClientsBlockedOnLists s) (handleClientsBlockedOnLists a).
Proof. intros Hs. unfold handleClientsBlockedOnLists. rewrite (proj1 Hs). by apply sim_handle_loop. Qed.
End Refine.

(** ** The clients that wait *)

Section Waiting.
Context {T : Type}.
Abbreviation env := (env (T := T)).

(** The two sides of the registration agree: a client is in the list of a key exactly when the key
    is one of its own. *)
Definition waiting (m : gmap nat client) : Z := Z.of_nat (size (filter (fun p : nat * client => c_blocked p.2 = true) m)).

Record winv (e : env) : Prop := {
  w_lists : forall k l, e_blocking e !! k = Some l -> l <> [] /\ NoDup l /\
    forall c, c ∈ l -> exists x, e_clients e !! c = Some x /\ k ∈ c_keys x;
  w_clients : forall c x, e_clients e !! c = Some x -> NoDup (c_keys x) /\ (c_blocked x = true <-> c_keys x <> []) /\
    forall k, k ∈ c_keys x -> exists l, e_blocking e !! k = Some l /\ c ∈ l;
  w_count : e_count e = waiting (e_clients e);
  w_unblocked : forall c, c ∈ e_unblocked e <-> exists x, e_clients e !! c = Some x /\ c_unblocked x = true;
}.

(** What the invariants depend on. *)
Definition same_core (e e' : env) : Prop :=
  e_blocking e' = e_blocking e /\ e_ready e' = e_ready e /\ e_ready_keys e' = e_ready_keys e /\ e_clients e' = e_clients e /\
  e_unblocked e' = e_unblocked e /\ e_count e' = e_count e.

Definition one (x : option client) : Z := match x with Some x => if c_blocked x then 1 else 0 | None => 0 end.

Lemma waiting_insert c x m : waiting (<[c := x]> m) = waiting m - one (m !! c) + one (Some x).
Proof.
  unfold waiting. rewrite map_filter_insert, map_filter_delete. set (P := fun p : nat * client => c_blocked p.2 = true).
  assert (filter P m !! c = match m !! c with Some y => if c_blocked y then Some y else None | None => None end) as Hc.
  { destruct (m !! c) as [y|] eqn:Ey; [|by apply map_lookup_filter_None_2; left].
    destruct (c_blocked y) eqn:Eb; [by apply map_lookup_filter_Some_2|]. apply map_lookup_filter_None_2. right. intros z Hz Pz. unfold P in Pz. cbn in Pz. congruence. }
  assert (one (m !! c) = 1 -> (1 <= size (filter P m))%nat) as Hpos.
  { intros H1. assert (size (filter P m) <> 0%nat); [|lia]. apply (map_size_ne_0_lookup_2 _ c). rewrite Hc.
    destruct (m !! c) as [y|]; cbn in H1; [destruct (c_blocked y)|]; done. }
  case_decide as Hd; cbn in Hd; cbn [one]; [rewrite Hd, map_size_insert|destruct (c_blocked x); [done|]; rewrite map_size_delete]; rewrite Hc;
    (destruct (m !! c) as [y|]; [|unfold id; cbn; lia]); cbn in *; destruct (c_blocked y); unfold id; cbn in *; try lia; specialize (Hpos eq_refl); lia.
Qed.

Lemma waiting_delete c m : waiting (delete c m) = waiting m - one (m !! c).
Proof.
  destruct (m !! c) as [x|] eqn:E; [|rewrite delete_id by done; cbn; lia].
  rewrite <- (insert_id m c x E) at 2. rewrite <- (insert_delete_eq m c x), waiting_insert, lookup_delete_eq. cbn. lia.
Qed.

Lemma winv_core e e' : e_blocking e' = e_blocking e -> e_clients e' = e_clients e -> e_unblocked e' = e_unblocked e -> e_count e' = e_count e ->
  winv e -> winv e'.
Proof. intros H1 H2 H3 H4 [W1 W2 W3 W4]. split; rewrite ?H1, ?H2, ?H3, ?H4; done. Qed.

Lemma count_pos e : winv e -> 0 <= e_count e.
Proof. intros [_ _ -> _]. unfold waiting. lia. Qed.

Lemma no_keys e c x : winv e -> e_clients e !! c = Some x -> c_blocked x = false -> c_keys x = [].
Proof.
  intros W Hx Hb. destruct (w_clients e W c x Hx) as (_ & Hk & _). destruct (c_keys x); [done|]. exfalso.
  assert (c_blocked x = true) by (by apply Hk). congruence.
Qed.

(** *** Unblocking *)

Definition others (c : nat) (l : list nat) : list nat := filter (fun c' => c' <> c) l.

Lemma others_none c l : c ∉ l -> others c l = l.
Proof.
  unfold others. induction l as [|x l IH]; intros Hc; [done|]. rewrite filter_cons_True by (intros ->; apply Hc; by left). f_equal. apply IH. intros H. apply Hc. by right.
Qed.

Lemma del_client_others c l : NoDup l -> c ∈ l -> del_client c l = Some (others c l).
Proof.
  induction l as [|x l IH]; intros Hnd Hc; [by apply not_elem_of_nil in Hc|]. apply list.NoDup_cons in Hnd as [Hx Hnd]. cbn [del_client].
  destruct (Nat.eqb_spec x c) as [->|Hne].
  - unfold others. rewrite filter_cons_False by (intros H; done). f_equal. symmetry. by apply others_none.
  - unfold others. rewrite filter_cons_True by done. apply elem_of_cons in Hc as [|Hc]; [done|]. by rewrite (IH Hnd Hc).
Qed.

Lemma others_head c l : c ∉ l -> others c (c :: l) = l.
Proof. intros Hc. pose proof (others_none c l Hc) as H. unfold others in *. rewrite filter_cons_False by (intros H'; done). exact H. Qed.

Lemma elem_others c c' l : c' ∈ others c l <-> c' <> c /\ c' ∈ l.
Proof. unfold others. by rewrite list_elem_of_filter. Qed.

Definition nonempty (l : list nat) : option (list nat) := match l with [] => None | _ => Some l end.

Lemma unblock_loop_ok c : forall keys m, NoDup keys -> (forall k, k ∈ keys -> exists l, m !! k = Some l /\ NoDup l /\ c ∈ l) ->
  exists m', unblock_loop c keys m = Some m' /\
    forall k, m' !! k = if decide (k ∈ keys) then (match m !! k with Some l => nonempty (others c l) | None => None end) else m !! k.
Proof.
  induction keys as [|key keys IH]; intros m Hnd Hm; cbn [unblock_loop].
  - exists m. split; [done|]. intros k. rewrite decide_False; [done|]. apply not_elem_of_nil.
  - apply list.NoDup_cons in Hnd as [Hnin Hnd]. destruct (Hm key) as (l & El & Hl & Hc); [by left|]. rewrite El. cbn [mbind option_bind].
    rewrite (del_client_others c l Hl Hc). cbn [mbind option_bind].
    set (m1 := match others c l with [] => delete key m | _ => <[key := others c l]> m end).
    assert (m1 !! key = nonempty (others c l) /\ forall k, k <> key -> m1 !! k = m !! k) as [H1 H2].
    { unfold m1, nonempty. destruct (others c l); [rewrite lookup_delete_eq|rewrite lookup_insert_eq]; (split; [done|]); intros k Hk;
        [by apply lookup_delete_ne|by apply lookup_insert_ne]. }
    destruct (IH m1 Hnd) as (m' & -> & Hm').
    { intros k Hk. rewrite H2 by (intros ->; done). apply Hm. by right. }
    exists m'. split; [done|]. intros k. rewrite Hm'. destruct (decide (k = key)) as [->|Hne].
    + rewrite decide_False by done. rewrite decide_True by (by left). by rewrite H1, El.
    + rewrite H2 by done. destruct (decide (k ∈ keys)); [by rewrite decide_True by (by right)|]. rewrite decide_False; [done|].
      intros [|]%elem_of_cons; done.
Qed.

Lemma unblock_ok c e x : winv e -> e_clients e !! c = Some x -> c_blocked x = true ->
  exists e', unblockClientWaitingData c e = Some e' /\ winv e' /\ e_count e' = e_count e - 1 /\ e_ready e' = e_ready e /\ e_ready_keys e' = e_ready_keys e /\
    (forall k, e_blocking e' !! k = match e_blocking e !! k with Some l => nonempty (others c l) | None => None end) /\
    e_unblocked e' = e_unblocked e ++ [c] /\
    e_clients e' = <[c := mkClient [] None (c_timeout x) false true (c_multi x) (c_blpop x)]> (e_clients e).
Proof.
  intros W Hx Hb. destruct (w_clients e W c x Hx) as (Hnd & Hiff & Hkeys). unfold unblockClientWaitingData. rewrite Hx. cbn [mbind option_bind].
  assert (c_keys x <> []) as Hne by (by apply Hiff).
  destruct (unblock_loop_ok c (c_keys x) (e_blocking e) Hnd) as (m & Em & Hm).
  { intros k Hk. destruct (Hkeys k Hk) as (l & Hl & Hc). exists l. split; [done|]. split; [|done]. by apply (w_lists e W k l Hl). }
  assert (forall k, m !! k = match e_blocking e !! k with Some l => nonempty (others c l) | None => None end) as Hm'.
  { intros k. rewrite Hm. destruct (decide (k ∈ c_keys x)); [done|]. destruct (e_blocking e !! k) as [l|] eqn:El; [|done].
    destruct (w_lists e W k l El) as (Hl & _ & Hin). rewrite others_none; [by destruct l|]. intros Hc. destruct (Hin c Hc) as (x' & Hx' & Hk). congruence. }
  rewrite Em. cbn [mbind option_bind]. destruct (c_keys x) as [|k0 ks0] eqn:Ek; [done|]. eexists. split; [done|]. rewrite <- Ek in *.
  set (y := mkClient [] None (c_timeout x) false true (c_multi x) (c_blpop x)). split; [|by split_and!]. split; cbn.
  - intros k l Hl. rewrite Hm' in Hl. destruct (e_blocking e !! k) as [l0|] eqn:El; [|done]. destruct (w_lists e W k l0 El) as (_ & Hnd0 & Hin).
    assert (l = others c l0 /\ l <> []) as [-> Hl'] by (unfold nonempty in Hl; destruct (others c l0); [done|by injection Hl as <-]).
    split; [done|]. split; [by apply list.NoDup_filter|]. intros c' [Hc' Hc]%elem_others. destruct (Hin c' Hc) as (x' & Hx' & Hk). exists x'. by rewrite lookup_insert_ne by done.
  - intros c' x' Hx'. destruct (decide (c' = c)) as [->|Hc'].
    + rewrite lookup_insert_eq in Hx'. injection Hx' as <-. cbn. split; [constructor|]. split; [done|]. intros k Hk. by apply not_elem_of_nil in Hk.
    + rewrite lookup_insert_ne in Hx' by done. destruct (w_clients e W c' x' Hx') as (H1 & H2 & H3). split; [done|]. split; [done|]. intros k Hk.
      destruct (H3 k Hk) as (l & Hl & Hin). exists (others c l). assert (c' ∈ others c l) as Hin' by by apply elem_others. split; [|done]. rewrite Hm', Hl.
      unfold nonempty. destruct (others c l); [by apply not_elem_of_nil in Hin'|done].
  - rewrite waiting_insert, Hx, (w_count e W). cbn. rewrite Hb. lia.
  - intros c'. rewrite elem_of_app, (w_unblocked e W c'), list_elem_of_singleton. destruct (decide (c' = c)) as [->|Hc'].
    + rewrite lookup_insert_eq. split; [intros _; by exists y|]. intros _. by right.
    + rewrite lookup_insert_ne by done. split; [intros [H|]; done|by left].
Qed.
(** *** The invariant of the plain lists *)

Abbreviation aserver := (server (T := T) (Obj := list text)).

(** No list is empty, except that of [ex1]; a key with a list and with clients that wait for it is
    among the keys to be served, [pend] and those of the server, except [ex2]. *)
Record inv (ex1 ex2 : option text) (pend : list text) (s : aserver) : Prop := {
  i_winv : winv (env_of s);
  i_ready : forall k, k ∈ e_ready (env_of s) <-> k ∈ pend ++ e_ready_keys (env_of s);
  i_nodup : NoDup (pend ++ e_ready_keys (env_of s));
  i_full : forall k, db s !! k = Some (VList []) -> ex1 = Some k;
  i_woken : forall k l, db s !! k = Some (VList l) -> k ∈ pend ++ e_ready_keys (env_of s) \/ e_blocking (env_of s) !! k = None \/ ex2 = Some k;
}.

(** What a command that does not block leaves alone. *)
Definition near (e e' : env) : Prop :=
  e_clients e' = e_clients e /\ e_blocking e' = e_blocking e /\ e_count e' = e_count e /\ e_unblocked e' = e_unblocked e /\ e_unixtime e' = e_unixtime e.

Lemma near_refl e : near e e.
Proof. by split_and!. Qed.
Lemma near_trans e1 e2 e3 : near e1 e2 -> near e2 e3 -> near e1 e3.
Proof. unfold near. intuition congruence. Qed.

Lemma winv_near e e' : near e e' -> winv e -> winv e'.
Proof. intros (H1 & H2 & H3 & H4 & _). by apply winv_core. Qed.

Lemma inv_core ex1 ex2 pend s e : same_core (env_of s) e -> inv ex1 ex2 pend s -> inv ex1 ex2 pend (mkServer (db s) e).
Proof.
  intros (H1 & H2 & H3 & H4 & H5 & H6) [I1 I2 I3 I4 I5]. split; cbn; rewrite ?H1, ?H2, ?H3; try done. by apply (winv_core (env_of s)).
Qed.

Lemma inv_weaken ex1 ex2 pend s k : inv None ex2 pend s -> inv ex1 ex2 pend s /\ (inv ex1 None pend s -> inv ex1 (Some k) pend s).
Proof.
  intros [I1 I2 I3 I4 I5]. split; [split; try done; intros k' Hk; by specialize (I4 k' Hk)|]. intros [J1 J2 J3 J4 J5]. split; try done.
  intros k' l Hk. destruct (J5 k' l Hk) as [|[|] ]; auto. done.
Qed.

Lemma inv_put ex1 ex2 pend s k l : inv ex1 ex2 pend s -> (l = [] -> ex1 = Some k) ->
  (exists l0, db s !! k = Some (VList l0)) \/ k ∈ pend ++ e_ready_keys (env_of s) \/ e_blocking (env_of s) !! k = None \/ ex2 = Some k ->
  inv ex1 ex2 pend (put k l s).
Proof.
  intros [I1 I2 I3 I4 I5] Hl Hk. split; cbn; try done; intros k'; (destruct (decide (k' = k)) as [->|Hne]; [rewrite lookup_insert_eq|rewrite lookup_insert_ne by done]).
  - intros [= ->]. by apply Hl.
  - apply I4.
  - intros l' _. destruct Hk as [[l0 Hl0]|Hk]; [by apply (I5 k l0)|done].
  - apply I5.
Qed.

Lemma inv_put_list ex2 pend s k l0 l : inv None ex2 pend s -> db s !! k = Some (VList l0) -> l <> [] -> inv None ex2 pend (put k l s).
Proof. intros I Hk Hl. apply inv_put; [done|done|left; by exists l0]. Qed.

Lemma inv_put_any ex1 ex2 pend s k l0 l : inv ex1 ex2 pend s -> ex1 = None \/ ex1 = Some k -> db s !! k = Some (VList l0) -> inv (Some k) ex2 pend (put k l s).
Proof.
  intros I Hex Hk. apply inv_put; [|done|left; by exists l0]. destruct Hex as [->| ->]; [|done]. by apply (inv_weaken (Some k) ex2 pend s k).
Qed.

Lemma inv_delete ex1 ex2 pend s k : inv ex1 ex2 pend s -> ex1 = None \/ ex1 = Some k -> ex2 = None \/ ex2 = Some k -> inv None None pend (dbDelete k s).
Proof.
  intros [I1 I2 I3 I4 I5] H1 H2. split; cbn; try done; intros k'; (destruct (decide (k' = k)) as [->|Hne]; [by rewrite lookup_delete_eq|rewrite lookup_delete_ne by done]).
  - intros Hk. specialize (I4 k' Hk). destruct H1 as [->| ->]; [done|congruence].
  - intros l Hk. destruct (I5 k' l Hk) as [|[|Hex] ]; auto. destruct H2 as [->| ->]; [done|congruence].
Qed.

(** *** The result of a command *)

Definition ok {A} (m : option A) (P : A -> Prop) : Prop := exists a, m = Some a /\ P a.
Lemma ok_ret {A} (a : A) (P : A -> Prop) : P a -> ok (Some a) P.
Proof. intros H. by exists a. Qed.
Lemma goes_bind {A B} (m : option A) (k : A -> option B) Q P : ok m Q -> (forall a, Q a -> ok (k a) P) -> ok (m ≫= k) P.
Proof. intros (a & -> & Ha) Hk. by apply Hk. Qed.
Lemma ok_mono {A} (m : option A) (P Q : A -> Prop) : ok m P -> (forall a, P a -> Q a) -> ok m Q.
Proof. intros (a & -> & Ha) H. exists a. auto. Qed.

Definition stays pend (s s' : aserver) : Prop := inv None None pend s' /\ near (env_of s) (env_of s').

Lemma delete_if_empty_ok ex1 ex2 pend s k l : inv ex1 ex2 pend s -> ex1 = None \/ ex1 = Some k -> db s !! k = Some (VList l) ->
  ex2 = None \/ ex2 = Some k /\ (l <> [] -> e_blocking (env_of s) !! k = None) ->
  ok (delete_if_empty k s) (fun s' => inv None None pend s' /\ env_of s' = env_of s).
Proof.
  intros I Hex1 Hk Hex2. unfold delete_if_empty, get_list. rewrite Hk. cbn. apply ok_ret. unfold zlen. destruct l as [|x l].
  - change (Z.of_nat (length []) =? 0) with true. cbv iota. split; [|done]. apply (inv_delete ex1 ex2); [done|done|]. destruct Hex2 as [?|[? _] ]; auto.
  - destruct (Z.eqb_spec (Z.of_nat (length (x :: l))) 0) as [E|_]; [cbn in E; lia|]. split; [|done].
    destruct I as [I1 I2 I3 I4 I5]. split; cbn; try done; intros k'; (destruct (decide (k' = k)) as [->|Hne]; [rewrite lookup_insert_eq|rewrite lookup_insert_ne by done]).
    + done.
    + intros Hk'. specialize (I4 k' Hk'). destruct Hex1 as [->| ->]; [done|congruence].
    + intros l' _. destruct (I5 k _ Hk) as [|[|Hex] ]; auto. destruct Hex2 as [->|[_ Hb] ]; [done|]. right; left. by apply Hb.
    + intros l' Hk'. destruct (I5 k' _ Hk') as [|[|Hex] ]; auto. destruct Hex2 as [->|[-> _] ]; [done|congruence].
Qed.

Lemma signal_ok ex1 ex2 pend s k : inv ex1 ex2 pend s -> let s' := upd (signalListAsReady k) s in
  inv ex1 ex2 pend s' /\ near (env_of s) (env_of s') /\ (k ∈ pend ++ e_ready_keys (env_of s') \/ e_blocking (env_of s') !! k = None).
Proof.
  intros I. unfold upd, signalListAsReady. cbn zeta. cbn [env_of]. destruct (e_blocking (env_of s) !! k) as [cs|] eqn:Eb; [|split_and!; [by destruct s|apply near_refl|by right] ].
  case_bool_decide as Hr; [split_and!; [by destruct s|apply near_refl|left; by apply (i_ready _ _ _ _ I)]|].
  split_and!; [|by split_and!|left; cbn; rewrite !elem_of_app, list_elem_of_singleton; auto]. destruct I as [I1 I2 I3 I4 I5]. split; cbn; try done.
  - by apply (winv_core (env_of s)).
  - intros k'. rewrite elem_of_union, elem_of_singleton, I2, !elem_of_app, list_elem_of_singleton. tauto.
  - rewrite app_assoc. apply list.NoDup_app. split_and!; [done| |apply list.NoDup_singleton]. intros k' Hk' ->%list_elem_of_singleton. by apply Hr, I2.
  - intros k' l Hk'. destruct (I5 k' l Hk') as [H|[H|H] ]; auto. left. rewrite app_assoc, elem_of_app. by left.
Qed.

(** What only replies, counts and notes. *)
Definition quiet (f : env -> env) : Prop := forall e, same_core e (f e) /\ e_unixtime (f e) = e_unixtime e.
Lemma quiet_reply c r : quiet (addReply c r).
Proof. intros e. by split_and!. Qed.
Lemma quiet_signal k : quiet (signalModifiedKey k).
Proof. intros e. by split_and!. Qed.
Lemma quiet_dirty n : quiet (add_dirty n).
Proof. intros e. by split_and!. Qed.
Lemma quiet_propagate c : quiet (propagate c).
Proof. intros e. by split_and!. Qed.

Lemma quiet_near f e : quiet f -> near e (f e).
Proof. intros H. destruct (H e) as [(H1 & H2 & H3 & H4 & H5 & H6) H7]. by split_and!. Qed.
Lemma inv_upd f ex1 ex2 pend s : quiet f -> inv ex1 ex2 pend s -> inv ex1 ex2 pend (upd f s).
Proof. intros H. apply inv_core. apply H. Qed.

Lemma stays_refl pend s : inv None None pend s -> stays pend s s.
Proof. intros I. split; [done|apply near_refl]. Qed.
Lemma stays_upd f pend s s' : quiet f -> stays pend s s' -> stays pend s (upd f s').
Proof. intros H [I Hn]. split; [by apply inv_upd|]. eapply near_trans; [done|]. by apply quiet_near. Qed.
Lemma stays_reply c r pend s s' : stays pend s s' -> stays pend s (reply_to c r s').
Proof. apply stays_upd, quiet_reply. Qed.
Lemma stays_modified k pend s s' : stays pend s s' -> stays pend s (modified k s').
Proof. intros H. apply stays_upd; [apply quiet_dirty|]. apply stays_upd; [apply quiet_signal|done]. Qed.
Lemma stays_put pend s k l0 l : inv None None pend s -> db s !! k = Some (VList l0) -> l <> [] -> stays pend s (put k l s).
Proof. intros I Hk Hl. split; [by eapply inv_put_list|apply near_refl]. Qed.

Create HintDb wait.
#[local] Hint Resolve quiet_reply quiet_signal quiet_dirty quiet_propagate stays_refl stays_upd stays_reply stays_modified ok_ret inv_upd near_refl : wait.

Lemma full_list pend ex2 s k l : inv None ex2 pend s -> db s !! k = Some (VList l) -> l <> [].
Proof. intros I Hk ->. by pose proof (i_full _ _ _ _ I k Hk). Qed.

(** The end of the commands that may empty a list. *)
Lemma finish_ok ex1 pend s s1 k l : inv None None pend s -> inv ex1 None pend s1 -> ex1 = None \/ ex1 = Some k -> db s1 !! k = Some (VList l) ->
  near (env_of s) (env_of s1) -> ok (delete_if_empty k s1) (stays pend s).
Proof.
  intros I I1 Hex Hk Hn. destruct (delete_if_empty_ok ex1 None pend s1 k l I1 Hex Hk) as (s2 & -> & I2 & He); [by left|].
  apply ok_ret. split; [done|by rewrite He].
Qed.

Lemma finish_put pend s f k l0 l : inv None None pend s -> db s !! k = Some (VList l0) -> quiet f -> ok (delete_if_empty k (upd f (put k l s))) (stays pend s).
Proof.
  intros I Hk Hf. apply (finish_ok (Some k) pend s _ k l); [done| |by right|by apply lookup_insert_eq|by apply (quiet_near f)].
  apply inv_upd; [done|]. eapply inv_put_any; eauto.
Qed.

Lemma finish_put' pend s k l0 l : inv None None pend s -> db s !! k = Some (VList l0) -> ok (delete_if_empty k (put k l s)) (stays pend s).
Proof.
  intros I Hk. apply (finish_ok (Some k) pend s _ k l); [done| |by right|by apply lookup_insert_eq|apply near_refl]. eapply inv_put_any; eauto.
Qed.

(** *** The commands that do not block *)

Lemma push_full l x w : spec_push l x w <> [].
Proof. destruct w; [done|]. cbn. intros H%app_eq_nil. by destruct H. Qed.

Lemma push_loop_full w : forall args (l : list text), ok (push_loop l args w) (fun l' => args = [] /\ l' = l \/ l' <> []).
Proof.
  induction args as [|v args IH]; intros l; cbn [push_loop]; [apply ok_ret; by left|]. cbn [lo_push plain_ops mbind option_bind].
  eapply ok_mono; [apply IH|]. intros l' [[_ ->]|H]; right; [apply push_full|done].
Qed.

Lemma pushGeneric_ok c k args w pend s : inv None None pend s -> args <> [] -> ok (pushGenericCommand c k args w s) (stays pend s).
Proof.
  intros I Hargs. unfold pushGenericCommand. destruct (db s !! k) as [[l|t]|] eqn:Ek; [|by auto with wait|]; (destruct args as [|v args]; [done|]);
    (eapply goes_bind; [apply push_loop_full|]; intros l' [[? _]|Hl']; [done|]); cbn [lo_length plain_ops mbind option_bind]; apply ok_ret; do 2 (apply stays_upd; [auto with wait|]);
    apply stays_reply.
  - by eapply stays_put.
  - destruct (signal_ok None None pend s k I) as (I' & Hn & Hk). split; [|done]. apply inv_put; [done|done|tauto].
Qed.

Lemma insert_full l p x w l' : spec_insert l p x w = Some l' -> l' <> [].
Proof.
  destruct l as [|y l]; [done|]. cbn. case_bool_decide; [destruct w; by intros [= <-]|]. destruct (spec_insert l p x w); [by intros [= <-]|done].
Qed.

Lemma pushxGeneric_ok c k refval v w pend s : inv None None pend s -> ok (pushxGenericCommand c k refval v w s) (stays pend s).
Proof.
  intros I. unfold pushxGenericCommand. destruct (db s !! k) as [[l|t]|] eqn:Ek; [|by auto with wait..].
  assert (l <> []) as Hl by by eapply full_list. destruct refval as [refval|]; cbn [lo_insert lo_push lo_length plain_ops mbind option_bind].
  - destruct (spec_insert l _ _ w) as [l'|] eqn:Ei; apply ok_ret, stays_reply; [apply stays_modified|]; (eapply stays_put; [done|done|]); [|done].
    by eapply insert_full.
  - apply ok_ret, stays_reply, stays_modified. eapply stays_put; [done|done|apply push_full].
Qed.

Lemma with_list_ok c k r pend s f : inv None None pend s -> (forall l, db s !! k = Some (VList l) -> l <> [] -> ok (f l) (stays pend s)) ->
  ok (with_list c k r s f) (stays pend s).
Proof.
  intros I Hf. unfold with_list. destruct (db s !! k) as [[l|t]|] eqn:Ek; [|by auto with wait..]. apply Hf; [done|]. by eapply full_list.
Qed.

Lemma with_long_ok c o pend s f : inv None None pend s -> (forall n, ok (f n) (stays pend s)) -> ok (with_long c o s f) (stays pend s).
Proof. intros I Hf. unfold with_long. destruct (HashType.getLongLongFromObject o); [apply Hf|by auto with wait]. Qed.

Lemma llen_ok c k pend s : inv None None pend s -> ok (llenCommand c k s) (stays pend s).
Proof. intros I. apply with_list_ok; [done|]. intros l Hk Hl. apply ok_ret, stays_reply. by eapply stays_put. Qed.

Lemma lindex_ok c k i pend s : inv None None pend s -> ok (lindexCommand c k i s) (stays pend s).
Proof. intros I. apply with_list_ok; [done|]. intros l Hk Hl. apply with_long_ok; [done|]. intros n. by apply ok_ret, stays_reply, stays_refl. Qed.

Lemma lset_ok c k i v pend s : inv None None pend s -> ok (lsetCommand c k i v s) (stays pend s).
Proof.
  intros I. apply with_list_ok; [done|]. intros l Hk Hl. apply with_long_ok; [done|]. intros n. cbn [lo_set plain_ops mbind option_bind].
  destruct (Ziplist.pos l n) as [j|]; apply ok_ret; [apply stays_modified|]; apply stays_reply; (eapply stays_put; [done|done|]); [|done].
  intros E. apply Hl. apply length_zero_iff_nil. rewrite <- (length_insert l j (decoded (tryObjectEncoding v))), E. done.
Qed.

Lemma popGeneric_ok c k w pend s : inv None None pend s -> ok (popGenericCommand c k w s) (stays pend s).
Proof.
  intros I. apply with_list_ok; [done|]. intros l Hk Hl. cbn [lo_pop plain_ops mbind option_bind]. destruct (spec_pop l w) as [[v|] l'] eqn:Ep; cbn [fmap option_fmap option_map mbind option_bind].
  - eapply goes_bind; [by eapply finish_put; auto with wait|]. intros s' Hs'. by apply ok_ret, stays_modified.
  - exfalso. destruct w; cbn in Ep; injection Ep as Ep _; [by destruct l|]. apply lookup_ge_None in Ep. destruct l; [done|cbn in Ep; lia].
Qed.

Lemma lrange_ok c k a b pend s : inv None None pend s -> ok (lrangeCommand c k a b s) (stays pend s).
Proof.
  intros I. apply with_long_ok; [done|]. intros x. apply with_long_ok; [done|]. intros y. apply with_list_ok; [done|]. intros l Hk Hl.
  cbn [lo_length plain_ops mbind option_bind]. destruct (convert_range x y (zlen l)) as [[a' b']|]; cbn [lo_range plain_ops mbind option_bind]; apply ok_ret, stays_reply; by eapply stays_put.
Qed.

Lemma ltrim_ok c k a b pend s : inv None None pend s -> ok (ltrimCommand c k a b s) (stays pend s).
Proof.
  intros I. apply with_long_ok; [done|]. intros x. apply with_long_ok; [done|]. intros y. apply with_list_ok; [done|]. intros l Hk Hl.
  cbn [lo_length plain_ops mbind option_bind]. destruct (match convert_range x y (zlen l) with None => _ | Some _ => _ end) as [p q].
  cbn [lo_trim plain_ops mbind option_bind]. eapply goes_bind; [by eapply finish_put'|]. intros s' Hs'. by apply ok_ret, stays_reply, stays_modified.
Qed.

Lemma lrem_ok c k n v pend s : inv None None pend s -> ok (lremCommand c k n v s) (stays pend s).
Proof.
  intros I. apply with_long_ok; [done|]. intros x. apply with_list_ok; [done|]. intros l Hk Hl. cbn [lo_rem plain_ops mbind option_bind].
  destruct (if x <? 0 then _ else _) as [l' r]. cbn [mbind option_bind]. eapply goes_bind; [by eapply finish_put; auto with wait|]. intros s' Hs'. apply ok_ret.
  destruct (r =? 0); auto with wait.
Qed.

(** [d] gets an element: it holds a list or nothing. *)
Lemma handlePush_ok c d v ex1 ex2 pend s : inv ex1 ex2 pend s -> (forall t, db s !! d <> Some (VOther t)) ->
  ok (rpoplpushHandlePush c d v s) (fun s' => inv ex1 ex2 pend s' /\ near (env_of s) (env_of s') /\ (forall k, k <> d -> db s' !! k = db s !! k) /\
    exists l, db s' !! d = Some (VList l)).
Proof.
  intros I Hd. unfold rpoplpushHandlePush. assert (forall (s1 : aserver) l, inv ex1 ex2 pend s1 -> l <> [] ->
    (exists l0, db s1 !! d = Some (VList l0)) \/ d ∈ pend ++ e_ready_keys (env_of s1) \/ e_blocking (env_of s1) !! d = None \/ ex2 = Some d ->
    db s1 = db s -> near (env_of s) (env_of s1) -> let s2 := reply_to c (ReplyBulk (Some (decoded v))) (put d l (upd (signalModifiedKey d) s1)) in
    inv ex1 ex2 pend s2 /\ near (env_of s) (env_of s2) /\ (forall k, k <> d -> db s2 !! k = db s !! k) /\ exists l, db s2 !! d = Some (VList l)) as Hend.
  { intros s1 l I1 Hl Hd1 Edb Hn s2. split_and!.
    - apply inv_upd; [auto with wait|]. apply inv_put; [by apply inv_upd; auto with wait|done|done].
    - eapply near_trans; [done|by split_and!].
    - intros k Hk. cbn. by rewrite lookup_insert_ne, Edb.
    - exists l. cbn. by apply lookup_insert_eq. }
  destruct (db s !! d) as [[l|t]|] eqn:Ed; [|by destruct (Hd t)|]; cbn [mbind option_bind lo_push plain_ops]; apply ok_ret.
  - apply Hend; [done|apply push_full|left; by exists l|done|apply near_refl].
  - destruct (signal_ok ex1 ex2 pend s d I) as (I1 & Hn & Hk). apply Hend; [done|by apply push_full|tauto|done|done].
Qed.

Lemma pop_some l w : l <> [] -> exists v l', spec_pop l w = (Some v, l').
Proof.
  intros Hl. destruct (spec_pop l w) as [[v|] l'] eqn:Ep; [by exists v, l'|]. exfalso. destruct w; cbn in Ep; injection Ep as Ep _; [by destruct l|].
  apply lookup_ge_None in Ep. destruct l; [done|cbn in Ep; lia].
Qed.

Lemma zlen_full (l : list text) : l <> [] -> 0 < zlen l.
Proof. destruct l; [done|]. unfold zlen. cbn. lia. Qed.

Lemma rpoplpush_ok c k d pend s : inv None None pend s -> ok (rpoplpushCommand c k d s) (stays pend s).
Proof.
  intros I. apply with_list_ok; [done|]. intros l Hk Hl. cbn [lo_length plain_ops mbind option_bind]. pose proof (zlen_full l Hl).
  destruct (Z.eqb_spec (zlen l) 0); [lia|]. pose proof (stays_put pend s k l l I Hk Hl) as [I1 Hn1].
  assert (db (put k l s) !! k = Some (VList l)) as Hk1 by (cbn; apply lookup_insert_eq). set (s1 := put k l s) in *.
  destruct (pop_some l TAIL Hl) as (v & l' & Ep).
  assert ((forall t, db s1 !! d <> Some (VOther t)) -> ok ('(value, o) ← lo_pop l TAIL; value ← value; s ← rpoplpushHandlePush c d value (put k o s1);
    s ← delete_if_empty k s; Some (modified k s)) (stays pend s)) as Hend.
  { intros Hd. cbn [lo_pop plain_ops mbind option_bind]. rewrite Ep. cbn [fmap option_fmap option_map mbind option_bind].
    eapply goes_bind; [apply (handlePush_ok c d _ (Some k) None pend)|].
    - eapply inv_put_any; eauto.
    - intros t. cbn. destruct (decide (d = k)) as [->|]; [by rewrite lookup_insert_eq|by rewrite lookup_insert_ne].
    - intros s2 (I2 & Hn2 & Hsame & l2 & Hd2). eapply goes_bind.
      + assert (exists l3, db s2 !! k = Some (VList l3)) as [l3 Hk3].
        { destruct (decide (k = d)) as [->|Hkd]; [by exists l2|]. rewrite Hsame by done. exists l'. cbn. apply lookup_insert_eq. }
        apply (finish_ok (Some k) pend s s2 k l3); [done|done|by right|done|]. eapply near_trans; [apply Hn1|]. eapply near_trans; [|apply Hn2]. by split_and!.
      + intros s3 Hs3. by apply ok_ret, stays_modified. }
  destruct (db s1 !! d) as [[ld|t]|] eqn:Ed; [by apply Hend|apply ok_ret, stays_reply; by split|by apply Hend].
Qed.

(** *** Blocking *)

Lemma block_loop_ok c : forall keys mine m, NoDup mine ->
  let '(mine', m') := block_loop c keys mine m in
  NoDup mine' /\ (forall k, k ∈ mine' <-> k ∈ mine \/ k ∈ keys) /\
  forall k, m' !! k = if decide (k ∈ mine) then m !! k else if decide (k ∈ keys) then Some (default [] (m !! k) ++ [c]) else m !! k.
Proof.
  induction keys as [|key keys IH]; intros mine m Hnd; cbn [block_loop].
  - split; [done|]. split; [intros k; rewrite elem_of_nil; tauto|]. intros k. rewrite (decide_False (P := k ∈ [])) by apply not_elem_of_nil. by destruct (decide _).
  - case_bool_decide as Hin.
    + specialize (IH mine m Hnd). destruct (block_loop c keys mine m) as [mine' m']. destruct IH as (H1 & H2 & H3). split; [done|].
      split; [intros k; rewrite H2, elem_of_cons; naive_solver|]. intros k. rewrite H3. destruct (decide (k ∈ mine)); [done|].
      destruct (decide (k ∈ keys)); [by rewrite decide_True by by right|]. rewrite decide_False; [done|]. intros [->|]%elem_of_cons; done.
    + assert (NoDup (mine ++ [key])) as Hnd'.
      { apply list.NoDup_app. split_and!; [done| |apply list.NoDup_singleton]. intros k Hk ->%list_elem_of_singleton. done. }
      specialize (IH _ (<[key := default [] (m !! key) ++ [c]]> m) Hnd'). destruct (block_loop c keys _ _) as [mine' m']. destruct IH as (H1 & H2 & H3). split; [done|].
      split; [intros k; rewrite H2, elem_of_app, list_elem_of_singleton, elem_of_cons; tauto|]. intros k. rewrite H3.
      destruct (decide (k = key)) as [->|Hne].
      * rewrite (decide_True (P := key ∈ mine ++ [key])) by (rewrite elem_of_app, list_elem_of_singleton; by right).
        rewrite (decide_False (P := key ∈ mine)) by done. rewrite decide_True by by left.
        by rewrite lookup_insert_eq.
      * rewrite lookup_insert_ne by done. destruct (decide (k ∈ mine)) as [Hm|Hm]; [by rewrite (decide_True (P := k ∈ mine ++ [key])) by (rewrite elem_of_app; by left)|].
        rewrite (decide_False (P := k ∈ mine ++ [key])) by (rewrite elem_of_app, list_elem_of_singleton; tauto).
        destruct (decide (k ∈ keys)); [by rewrite decide_True by by right|]. rewrite decide_False; [done|]. intros [->|]%elem_of_cons; done.
Qed.

Definition idle (c : nat) (s : aserver) : Prop := exists x, e_clients (env_of s) !! c = Some x /\ c_blocked x = false.

Lemma block_ok c keys time target pend s : inv None None pend s -> idle c s -> keys <> [] -> (forall k l, k ∈ keys -> db s !! k <> Some (VList l)) ->
  ok (block c keys time target s) (inv None None pend).
Proof.
  intros I (x & Hx & Hb) Hne Hkeys. unfold block, blockForKeys. rewrite Hx. cbn [mbind option_bind]. destruct I as [W I2 I3 I4 I5].
  rewrite (no_keys _ _ _ W Hx Hb). pose proof (block_loop_ok c keys [] (e_blocking (env_of s)) (NoDup_nil_2)) as H.
  destruct (block_loop c keys [] _) as [mine m]. destruct H as (H1 & H2 & H3). apply ok_ret.
  assert (forall k, k ∈ mine <-> k ∈ keys) as H2' by (intros k; rewrite H2, elem_of_nil; tauto).
  assert (forall k, m !! k = if decide (k ∈ keys) then Some (default [] (e_blocking (env_of s) !! k) ++ [c]) else e_blocking (env_of s) !! k) as H3'.
  { intros k. rewrite H3, decide_False by apply not_elem_of_nil. done. }
  assert (forall k l, e_blocking (env_of s) !! k = Some l -> c ∉ l) as Hout.
  { intros k l Hl Hc. destruct (w_lists _ W k l Hl) as (_ & _ & Hin). destruct (Hin c Hc) as (y & Hy & Hk). rewrite Hx in Hy. injection Hy as <-.
    rewrite (no_keys _ _ _ W Hx Hb) in Hk. by apply not_elem_of_nil in Hk. }
  split; cbn; try done.
  - split; cbn.
    + intros k l Hl. rewrite H3' in Hl. case_decide as Hk.
      * injection Hl as <-. split; [by intros [_ ?]%app_eq_nil|]. destruct (e_blocking (env_of s) !! k) as [l|] eqn:El; cbn.
        -- destruct (w_lists _ W k l El) as (_ & Hnd & Hin). split.
           { apply list.NoDup_app. split_and!; [done| |apply list.NoDup_singleton]. intros c' Hc' ->%list_elem_of_singleton. by eapply Hout. }
           intros c' [Hc'| ->%list_elem_of_singleton]%elem_of_app; [|eexists; rewrite lookup_insert_eq; split; [done|]; by apply H2'].
           destruct (Hin c' Hc') as (y & Hy & Hky). exists y. rewrite lookup_insert_ne; [done|]. intros <-. by eapply Hout.
        -- split; [apply list.NoDup_singleton|]. intros c' ->%list_elem_of_singleton. eexists. rewrite lookup_insert_eq. split; [done|]. by apply H2'.
      * destruct (w_lists _ W k l Hl) as (? & Hnd & Hin). split; [done|]. split; [done|]. intros c' Hc'. destruct (Hin c' Hc') as (y & Hy & Hky). exists y.
        rewrite lookup_insert_ne; [done|]. intros <-. by eapply Hout.
    + intros c' y Hy. destruct (decide (c' = c)) as [->|Hc'].
      * rewrite lookup_insert_eq in Hy. injection Hy as <-. cbn. split; [done|]. split; [split; [|done]; intros _ E|].
        -- destruct keys as [|k ks]; [done|]. assert (k ∈ mine) as Hk by (apply H2'; by left). rewrite E in Hk. by apply not_elem_of_nil in Hk.
        -- intros k Hk%H2'. eexists. rewrite H3', decide_True by done. split; [done|]. rewrite elem_of_app, list_elem_of_singleton. by right.
      * rewrite lookup_insert_ne in Hy by done. destruct (w_clients _ W c' y Hy) as (? & ? & Hks). split; [done|]. split; [done|]. intros k Hk.
        destruct (Hks k Hk) as (l & Hl & Hin). rewrite H3', Hl. case_decide; [|by exists l]. eexists. split; [done|]. rewrite elem_of_app. by left.
    + rewrite waiting_insert, Hx, (w_count _ W). cbn. rewrite Hb. lia.
    + intros c'. rewrite (w_unblocked _ W c'). destruct (decide (c' = c)) as [->|Hc']; [|by rewrite lookup_insert_ne by done].
      rewrite lookup_insert_eq, Hx. split; intros (y & [= <-] & Hy); eexists; by split.
  - intros k l Hk. destruct (I5 k l Hk) as [|[Hn|] ]; auto. right; left. rewrite H3', decide_False; [done|]. intros Hin. by apply (Hkeys k l Hin).
Qed.

(** [c] has been blocked, or nothing of the registration has changed. *)
Definition after (c : nat) pend (s s' : aserver) : Prop :=
  inv None None pend s' /\ (near (env_of s) (env_of s') \/ exists x, e_clients (env_of s) !! c = Some x /\ c_multi x = false).

Lemma stays_after c pend s s' : stays pend s s' -> after c pend s s'.
Proof. intros [I Hn]. split; [done|by left]. Qed.

Lemma blocking_pop_ok c w pend s : inv None None pend s -> forall keys, ok (blocking_pop_loop c keys w s) (fun p =>
  match p.2 with AllEmpty => p.1 = s /\ (forall k l, k ∈ keys -> db s !! k <> Some (VList l)) | _ => stays pend s p.1 end).
Proof.
  intros I. induction keys as [|k keys IH]; cbn [blocking_pop_loop]; [apply ok_ret; split; [done|]; intros k l Hk; by apply not_elem_of_nil in Hk|].
  destruct (db s !! k) as [[l|t]|] eqn:Ek.
  - assert (l <> []) as Hl by by eapply full_list. pose proof (zlen_full l Hl). cbn [lo_length plain_ops mbind option_bind]. destruct (Z.eqb_spec (zlen l) 0); [lia|].
    destruct (pop_some l w Hl) as (v & l' & Ep). cbn [lo_pop plain_ops]. rewrite Ep. cbn [fmap option_fmap option_map mbind option_bind].
    eapply goes_bind; [by eapply finish_put; auto with wait|]. intros s' Hs'. by apply ok_ret, stays_modified.
  - apply ok_ret. cbn. auto with wait.
  - eapply ok_mono; [apply IH|]. intros [s' []] H; try done. destruct H as [H1 H2]. split; [done|]. intros k' l [->|Hk']%elem_of_cons; [by rewrite Ek|by apply H2].
Qed.

Lemma in_multi_ok c s : idle c s -> ok (in_multi c s) (fun b => exists x, e_clients (env_of s) !! c = Some x /\ c_multi x = b).
Proof. intros (x & Hx & _). unfold in_multi. rewrite Hx. apply ok_ret. by exists x. Qed.

Lemma blocked_after c keys time target pend s : inv None None pend s -> idle c s -> keys <> [] -> (forall k l, k ∈ keys -> db s !! k <> Some (VList l)) ->
  forall r (multi : bool), (exists x, e_clients (env_of s) !! c = Some x /\ c_multi x = multi) ->
  ok (if multi then Some (reply_to c r s) else block c keys time target s) (after c pend s).
Proof.
  intros I Hidle Hne Hkeys r [] (x & Hx & Hm); [by apply ok_ret, stays_after; auto with wait|].
  eapply ok_mono; [by apply block_ok|]. intros s' I'. split; [done|]. right. by exists x.
Qed.

Definition time_ok (t : robj) (s : aserver) : Prop := getTimeout t (e_unixtime (env_of s)) <> None.

Lemma blockingPop_ok c keys t w pend s : inv None None pend s -> idle c s -> keys <> [] -> time_ok t s ->
  ok (blockingPopGenericCommand c keys t w s) (fun p => after c pend s p.1).
Proof.
  intros I Hidle Hne Ht. unfold blockingPopGenericCommand. unfold time_ok in Ht. destruct (getTimeout t _) as [[msg|time]|]; [| |done]; cbn [mbind option_bind].
  - apply ok_ret, stays_after. cbn [fst]. auto with wait.
  - eapply goes_bind; [by apply blocking_pop_ok|]. intros [s' []] H; cbn [fst snd] in H; [by apply ok_ret, stays_after..|]. destruct H as [-> Hk].
    eapply goes_bind; [by apply in_multi_ok|]. intros multi Hm. eapply goes_bind; [by apply (blocked_after c keys time None)|]. intros s2 H2. by apply ok_ret.
Qed.

Lemma brpoplpush_ok c k d t pend s : inv None None pend s -> idle c s -> time_ok t s -> ok (brpoplpushCommand c k d t s) (after c pend s).
Proof.
  intros I Hidle Ht. unfold brpoplpushCommand. unfold time_ok in Ht. destruct (getTimeout t _) as [[msg|time]|]; [| |done]; cbn [mbind option_bind].
  - apply ok_ret, stays_after. auto with wait.
  - destruct (db s !! k) as [[l|t']|] eqn:Ek.
    + assert (l <> []) as Hl by by eapply full_list. pose proof (zlen_full l Hl). cbn [lo_length plain_ops mbind option_bind]. destruct (Z.ltb_spec 0 (zlen l)); [|lia].
      destruct (stays_put pend s k l l I Ek Hl) as [I1 Hn]. eapply ok_mono; [by apply rpoplpush_ok|]. intros s' [I' Hn']. split; [done|]. left. by eapply near_trans.
    + apply ok_ret, stays_after. auto with wait.
    + eapply goes_bind; [by apply in_multi_ok|]. intros multi Hm. apply (blocked_after c [k] time (Some d)); try done. intros k' l ->%list_elem_of_singleton. by rewrite Ek.
Qed.

(** The arity of the commands, and no overflow of the time. *)
Definition cmd_ok (cmd : command) (s : aserver) : Prop :=
  match cmd with
  | LPUSH _ args | RPUSH _ args => args <> []
  | BLPOP keys t | BRPOP keys t => keys <> [] /\ time_ok t s
  | BRPOPLPUSH _ _ t => time_ok t s
  | _ => True
  end.

Lemma run_command_ok c cmd pend s : inv None None pend s -> idle c s -> cmd_ok cmd s -> ok (run_command c cmd s) (fun p => after c pend s p.1).
Proof.
  intros I Hidle Hcmd.
  assert (forall m, ok m (stays pend s) -> ok (s ← m; Some (s, None (A := command))) (fun p => after c pend s p.1)) as Hplain.
  { intros m Hm. eapply goes_bind; [done|]. intros s' Hs'. by apply ok_ret, stays_after. }
  destruct cmd; cbn [run_command cmd_ok] in *.
  1-14: apply Hplain.
  1, 2: by apply pushGeneric_ok.
  1, 2: by apply pushxGeneric_ok.
  - unfold linsertCommand. destruct (Util.strcasecmp_eq where_ (str "after")); [by apply pushxGeneric_ok|].
    destruct (Util.strcasecmp_eq where_ (str "before")); [by apply pushxGeneric_ok|auto with wait].
  - by apply llen_ok.
  - by apply lindex_ok.
  - by apply lset_ok.
  - by apply popGeneric_ok.
  - by apply popGeneric_ok.
  - by apply lrange_ok.
  - by apply ltrim_ok.
  - by apply lrem_ok.
  - by apply rpoplpush_ok.
  - destruct Hcmd. by apply blockingPop_ok.
  - destruct Hcmd. by apply blockingPop_ok.
  - eapply (goes_bind (brpoplpushCommand c src dst timeout s)); [by apply brpoplpush_ok|]. intros s' Hs'. by apply ok_ret.
Qed.

Lemma after_upd f c pend s s' : quiet f -> after c pend s s' -> after c pend s (upd f s').
Proof. intros Hf [I Hn]. split; [by apply inv_upd|]. destruct Hn as [Hn|]; [left; eapply near_trans; [done|by apply quiet_near]|by right]. Qed.

Lemma call_goes c cmd pend s : inv None None pend s -> idle c s -> cmd_ok cmd s -> ok (call c cmd s) (after c pend s).
Proof.
  intros I Hidle Hcmd. unfold call. eapply goes_bind; [by apply run_command_ok|]. intros [s' r] H. apply ok_ret. destruct (_ =? _); [done|].
  apply after_upd; [auto with wait|done].
Qed.

(** *** Serving the clients *)

(** Only a client that is served can make another key ready. *)
Definition served (e e' : env) : Prop :=
  e_count e' <= e_count e /\ (e_ready_keys e' = e_ready_keys e \/ e_count e' < e_count e).

Lemma serve_ok c k d v w pend s l : inv (Some k) (Some k) pend s -> db s !! k = Some (VList l) ->
  ok (serveClientBlockedOnList c k d v w s) (fun p => inv (Some k) (Some k) pend p.1 /\ near (env_of s) (env_of p.1) /\ exists l', db p.1 !! k = Some (VList l')).
Proof.
  intros I Hk. unfold serveClientBlockedOnList.
  assert (forall f, quiet f -> let s1 := upd f s in inv (Some k) (Some k) pend s1 /\ near (env_of s) (env_of s1)) as Hq.
  { intros f Hf. split; [by apply inv_upd|by apply quiet_near]. }
  destruct d as [d|].
  - assert ((forall t, db s !! d <> Some (VOther t)) ->
      ok (s0 ← rpoplpushHandlePush c d v (upd (propagate (PCommand (RPOP k))) s); Some (upd (propagate (PCommand (LPUSH d [RRaw (decoded v)]))) s0, true))
        (fun p => inv (Some k) (Some k) pend p.1 /\ near (env_of s) (env_of p.1) /\ exists l', db p.1 !! k = Some (VList l'))) as H.
    { intros Hd. destruct (Hq (propagate (PCommand (RPOP k)))) as [I1 Hn1]; [auto with wait|]. eapply goes_bind; [by apply handlePush_ok|].
      intros s2 (I2 & Hn2 & Hsame & l2 & Hd2). apply ok_ret. cbn [fst]. split; [by apply inv_upd; auto with wait|]. split.
      - eapply near_trans; [apply Hn1|]. eapply near_trans; [apply Hn2|]. apply quiet_near. auto with wait.
      - destruct (decide (k = d)) as [->|Hkd]; [by exists l2|]. exists l. cbn. by rewrite Hsame. }
    destruct (db s !! d) as [[ld|t]|] eqn:Ed; [by apply H| |by apply H]. apply ok_ret. destruct (Hq (addReply c ReplyWrongType)); [auto with wait|].
    split_and!; [done|done|by exists l].
  - apply ok_ret. cbn [fst]. split; [by do 2 (apply inv_upd; [auto with wait|])|]. split; [by split_and!|by exists l].
Qed.

Lemma unblock_inv c x ex1 ex2 pend s : inv ex1 ex2 pend s -> e_clients (env_of s) !! c = Some x -> c_blocked x = true ->
  exists e, unblockClientWaitingData c (env_of s) = Some e /\ inv ex1 ex2 pend (mkServer (db s) e) /\ e_count e = e_count (env_of s) - 1 /\
    e_ready_keys e = e_ready_keys (env_of s) /\ (forall k, e_blocking e !! k = match e_blocking (env_of s) !! k with Some l => nonempty (others c l) | None => None end) /\
    e_unblocked e = e_unblocked (env_of s) ++ [c] /\
    e_clients e = <[c := mkClient [] None (c_timeout x) false true (c_multi x) (c_blpop x)]> (e_clients (env_of s)).
Proof.
  intros [W I2 I3 I4 I5] Hx Hb. destruct (unblock_ok c _ x W Hx Hb) as (e & -> & W' & Hc & H1 & H2 & H3 & H4 & H5). exists e. split_and!; try done.
  split; cbn; rewrite ?H1, ?H2; try done. intros k l Hk. destruct (I5 k l Hk) as [|[Hn|] ]; auto. right; left. by rewrite H3, Hn.
Qed.

Lemma get_list_ok k (s : aserver) l : db s !! k = Some (VList l) -> get_list k s = Some l.
Proof. intros Hk. unfold get_list. by rewrite Hk. Qed.

Lemma serve_loop_ok k pend : forall n s l, inv (Some k) (Some k) pend s -> db s !! k = Some (VList l) ->
  match e_blocking (env_of s) !! k with Some cs => length cs = n | None => n = O end ->
  ok (serve_loop n k s) (fun s' => inv (Some k) (Some k) pend s' /\ served (env_of s) (env_of s') /\
    exists l', db s' !! k = Some (VList l') /\ (l' <> [] -> e_blocking (env_of s') !! k = None)).
Proof.
  induction n as [|n IH]; intros s l I Hk Hn; cbn [serve_loop].
  - apply ok_ret. split; [done|]. split; [split; [lia|by left]|]. exists l. split; [done|]. intros _. destruct (e_blocking (env_of s) !! k) as [[|c cs]|] eqn:E; [|done..].
    by destruct (w_lists _ (i_winv _ _ _ _ I) k [] E).
  - destruct (e_blocking (env_of s) !! k) as [cs|] eqn:Ecs; [|done]. destruct (w_lists _ (i_winv _ _ _ _ I) k cs Ecs) as (_ & Hnd & Hin). destruct cs as [|c cs]; [done|].
    destruct (Hin c) as (x & Hx & Hkx); [by left|]. cbn [mbind option_bind lookup list_lookup]. rewrite Hx. cbn [mbind option_bind].
    assert (c_blocked x = true) as Hb. { apply (w_clients _ (i_winv _ _ _ _ I) c x Hx). intros E. rewrite E in Hkx. by apply not_elem_of_nil in Hkx. }
    rewrite (get_list_ok k s l Hk). cbn [mbind option_bind lo_pop plain_ops]. set (w := if c_blpop x then HEAD else TAIL). destruct (spec_pop l w) as [v l'] eqn:Ep.
    assert (inv (Some k) (Some k) pend (put k l' s)) as I1 by (eapply inv_put_any; eauto).
    assert (db (put k l' s) !! k = Some (VList l')) as Hk1 by (cbn; apply lookup_insert_eq). set (s1 := put k l' s) in *.
    destruct v as [v|]; cbn [fmap option_fmap option_map mbind option_bind]; fold s1.
    + destruct (unblock_inv c x _ _ _ s1 I1 Hx Hb) as (e & -> & I2 & Hcount & Hready & Hblocking & _). cbn [mbind option_bind].
      eapply goes_bind; [by apply (serve_ok c k (c_target x) (RRaw v) w pend _ l')|]. intros [s2 b] (I3 & (_ & Hb3 & Hc3 & _) & l3 & Hk3). cbn [fst] in *.
      assert (ok (if b then Some s2 else o ← get_list k s2; o ← lo_push o (RRaw v) w; Some (put k o s2)) (fun s3 => inv (Some k) (Some k) pend s3 /\ env_of s3 = env_of s2 /\
        exists l4, db s3 !! k = Some (VList l4))) as H.
      { destruct b; [apply ok_ret; split_and!; [done|done|by exists l3]|]. rewrite (get_list_ok k s2 l3 Hk3). cbn [mbind option_bind lo_push plain_ops]. apply ok_ret.
        split; [eapply inv_put_any; eauto|]. split; [done|]. eexists. cbn. apply lookup_insert_eq. }
      eapply goes_bind; [exact H|]. intros s3 (I4 & He3 & l4 & Hk4).
      assert (match e_blocking (env_of s3) !! k with Some cs => length cs = n | None => n = O end) as Hlen.
      { rewrite He3, Hb3. cbn. rewrite Hblocking. cbn [s1 put env_of]. rewrite Ecs. apply list.NoDup_cons in Hnd as [Hc Hnd]. rewrite others_head by done. cbn in Hn. destruct cs; cbn in *; lia. }
      eapply ok_mono; [by eapply IH|]. intros s4 (I5 & [Hs1 Hs2] & Hend). split; [done|]. split; [|done]. cbn in Hcount. split; [rewrite He3, Hc3 in Hs1; cbn in *; lia|].
      right. rewrite He3, Hc3 in Hs1. cbn in *. lia.
    + assert (l = [] /\ l' = []) as [-> ->].
      { destruct (decide (l = [])) as [->|Hl]; [destruct w; cbn in Ep; by injection Ep as <-|]. destruct (pop_some l w Hl) as (v & l2 & Ep2). congruence. }
      apply ok_ret. split; [done|]. split; [split; [cbn; lia|by left]|]. by exists [].
Qed.

Lemma served_refl e : served e e.
Proof. split; [lia|by left]. Qed.
Lemma served_trans e1 e2 e3 : served e1 e2 -> served e2 e3 -> served e1 e3.
Proof. intros [H1 [H2|H2] ] [H3 [H4|H4] ]; (split; [lia|]); [left; congruence|right; lia..]. Qed.

(** The key leaves db->ready_keys. *)
Lemma unready_inv k pend s : inv None None (k :: pend) s -> inv None (Some k) pend (upd (fun e => set_ready (e_ready e ∖ {[k]}) (e_ready_keys e) e) s).
Proof.
  intros [W I2 I3 I4 I5]. cbn [app] in *. apply list.NoDup_cons in I3 as [Hk I3]. split; cbn; try done.
  - by apply (winv_core (env_of s)).
  - intros k'. rewrite elem_of_difference, elem_of_singleton, I2, elem_of_cons. split; [tauto|]. intros H. split; [by right|]. by intros ->.
  - intros k' l Hk'. destruct (I5 k' l Hk') as [[->|]%elem_of_cons|[|] ]; auto. done.
Qed.

Lemma serve_key_ok k pend s : inv None None (k :: pend) s -> ok (serve_key k s) (fun s' => inv None None pend s' /\ served (env_of s) (env_of s')).
Proof.
  intros I. unfold serve_key. pose proof (unready_inv k pend s I) as I1. set (s1 := upd _ s) in *.
  assert (served (env_of s) (env_of s1)) as Hs1 by (split; [cbn; lia|by left]).
  destruct (db s1 !! k) as [[l|t]|] eqn:Ek.
  - assert (ok (match e_blocking (env_of s1) !! k with Some clients => serve_loop (length clients) k s1 | None => Some s1 end)
      (fun s' => inv (Some k) (Some k) pend s' /\ served (env_of s1) (env_of s') /\ exists l', db s' !! k = Some (VList l') /\ (l' <> [] -> e_blocking (env_of s') !! k = None))) as H.
    { pose proof (proj1 (inv_weaken (Some k) (Some k) pend s1 k I1)) as I2. pose proof (serve_loop_ok k pend) as H.
      destruct (e_blocking (env_of s1) !! k) as [cs|] eqn:E; [apply (H _ _ l)|apply (H O _ l)]; try done; by rewrite E. }
    eapply goes_bind; [exact H|]. intros s2 (I2 & Hs2 & l' & Hk2 & Hb). eapply ok_mono; [eapply (delete_if_empty_ok (Some k) (Some k)); eauto|].
    intros s3 [I3 He]. split; [done|]. rewrite He. exact (served_trans _ _ _ Hs1 Hs2).
  - apply ok_ret. split; [|done]. destruct I1 as [J1 J2 J3 J4 J5]. split; try done. intros k' l Hk'. destruct (J5 k' l Hk') as [|[|[= <-] ] ]; auto. congruence.
  - apply ok_ret. split; [|done]. destruct I1 as [J1 J2 J3 J4 J5]. split; try done. intros k' l Hk'. destruct (J5 k' l Hk') as [|[|[= <-] ] ]; auto. congruence.
Qed.

Lemma serve_keys_ok : forall pend s, inv None None pend s -> ok (serve_keys pend s) (fun s' => inv None None [] s' /\ served (env_of s) (env_of s')).
Proof.
  induction pend as [|k pend IH]; intros s I; cbn [serve_keys]; [apply ok_ret; split; [done|apply served_refl]|].
  eapply goes_bind; [by apply serve_key_ok|]. intros s1 [I1 Hs1]. eapply ok_mono; [by apply IH|]. intros s2 [I2 Hs2]. split; [done|]. by eapply served_trans.
Qed.

(** What holds between events. *)
Definition settled (s : aserver) : Prop := inv None None [] s /\ e_ready_keys (env_of s) = [].

Lemma handle_loop_ok : forall fuel s, inv None None [] s -> (1 <= fuel)%nat -> (e_ready_keys (env_of s) <> [] -> e_count (env_of s) + 2 <= Z.of_nat fuel) ->
  ok (handle_loop fuel s) settled.
Proof.
  induction fuel as [|fuel IH]; intros s I Hf Hfuel; [lia|]. cbn [handle_loop]. destruct (e_ready_keys (env_of s)) as [|k0 ks] eqn:Ek; [by apply ok_ret|].
  rewrite <- Ek in *. specialize (Hfuel ltac:(by rewrite Ek)). pose proof (count_pos _ (i_winv _ _ _ _ I)) as Hpos. set (l := e_ready_keys (env_of s)) in *.
  assert (inv None None l (upd (fun e => set_ready (e_ready e) [] e) s)) as I1.
  { destruct I as [J1 J2 J3 J4 J5]. cbn [app] in *. split; cbn; rewrite ?app_nil_r; try done. by apply (winv_core (env_of s)). }
  eapply goes_bind; [by apply serve_keys_ok|]. intros s2 [I2 [H1 H2]]. cbn in H1, H2. apply IH; [done|lia|]. intros Hne. destruct H2 as [H2|H2]; [done|lia].
Qed.

Lemma handleClients_ok s : inv None None [] s -> ok (handleClientsBlockedOnLists s) settled.
Proof.
  intros I. apply handle_loop_ok; [done|lia|]. intros _. pose proof (count_pos _ (i_winv _ _ _ _ I)). lia.
Qed.

(** *** Events *)

Lemma inv_env pend s e : inv None None pend s -> winv e -> e_ready e = e_ready (env_of s) -> e_ready_keys e = e_ready_keys (env_of s) ->
  (forall k, e_blocking (env_of s) !! k = None -> e_blocking e !! k = None) -> inv None None pend (mkServer (db s) e).
Proof.
  intros [J1 J2 J3 J4 J5] W H1 H2 H3. split; cbn; rewrite ?H1, ?H2; try done. intros k l Hk. destruct (J5 k l Hk) as [|[|] ]; auto.
Qed.

(** The clients [m] wait for the same. *)
Definition same_waiters (m m' : gmap nat client) : Prop :=
  forall c, match m !! c, m' !! c with Some y, Some x => c_keys y = c_keys x /\ c_blocked y = c_blocked x | None, None => True | _, _ => False end.

Lemma winv_clients e m u : winv e -> same_waiters m (e_clients e) -> waiting m = waiting (e_clients e) ->
  (forall c, c ∈ u <-> exists x, m !! c = Some x /\ c_unblocked x = true) -> winv (set_unblocked u (set_clients m e)).
Proof.
  intros [W1 W2 W3 W4] Hm Hw Hu. split; cbn; try done; [| |congruence].
  - intros k l Hl. destruct (W1 k l Hl) as (? & ? & Hin). split; [done|]. split; [done|]. intros c Hc. destruct (Hin c Hc) as (x & Hx & Hk). specialize (Hm c). rewrite Hx in Hm.
    destruct (m !! c) as [y|]; [|done]. destruct Hm as [Ey _]. exists y. by rewrite Ey.
  - intros c y Hy. specialize (Hm c). rewrite Hy in Hm. destruct (e_clients e !! c) as [x|] eqn:Ex; [|done]. destruct Hm as [-> ->]. by apply (W2 c).
Qed.

Lemma winv_set_client c x y e : winv e -> e_clients e !! c = Some x -> c_keys y = c_keys x -> c_blocked y = c_blocked x -> c_unblocked y = c_unblocked x ->
  winv (set_client c y e).
Proof.
  intros W Hx Hk Hb Hu. change (set_client c y e) with (set_unblocked (e_unblocked e) (set_clients (<[c := y]> (e_clients e)) e)). apply winv_clients; [done| | |].
  - intros c'. destruct (decide (c' = c)) as [->|]; [by rewrite lookup_insert_eq, Hx|]. rewrite lookup_insert_ne by done. by destruct (e_clients e !! c').
  - rewrite waiting_insert, Hx. cbn. rewrite Hb. lia.
  - intros c'. rewrite (w_unblocked e W c'). destruct (decide (c' = c)) as [->|]; [|by rewrite lookup_insert_ne]. rewrite lookup_insert_eq, Hx.
    split; intros (z & [= <-] & Hz); eexists; (split; [done|]); congruence.
Qed.

Lemma set_flags_ok c multi blpop pend s x : inv None None pend s -> e_clients (env_of s) !! c = Some x ->
  ok (set_flags c multi blpop s) (fun s' => inv None None pend s' /\ e_ready_keys (env_of s') = e_ready_keys (env_of s) /\ e_unixtime (env_of s') = e_unixtime (env_of s) /\
    db s' = db s /\ exists y, e_clients (env_of s') !! c = Some y /\ c_blocked y = c_blocked x /\ c_multi y = multi).
Proof.
  intros I Hx. unfold set_flags. rewrite Hx. apply ok_ret. split_and!; try done.
  - apply inv_env; try done. eapply winv_set_client; [apply I|done|done..].
  - eexists. cbn. rewrite lookup_insert_eq. split_and!; done.
Qed.

(** The client is gone. *)
Lemma winv_delete c x l e : winv e -> e_clients e !! c = Some x -> c_blocked x = false -> (forall c', c' ∈ l <-> c' <> c /\ c' ∈ e_unblocked e) ->
  winv (set_unblocked l (set_clients (delete c (e_clients e)) e)).
Proof.
  intros W Hx Hb Hl. pose proof W as [W1 W2 W3 W4]. split; cbn.
  - intros k cs Hcs. destruct (W1 k cs Hcs) as (? & ? & Hin). split; [done|]. split; [done|]. intros c' Hc'. destruct (Hin c' Hc') as (y & Hy & Hk). exists y.
    split; [|done]. rewrite lookup_delete_ne; [done|]. intros <-. rewrite Hx in Hy. injection Hy as <-. rewrite (no_keys e c x W Hx Hb) in Hk. by apply not_elem_of_nil in Hk.
  - intros c' y Hy. apply lookup_delete_Some in Hy as [_ Hy]. by apply W2.
  - rewrite waiting_delete, Hx. cbn. rewrite Hb. lia.
  - intros c'. rewrite Hl, W4. destruct (decide (c' = c)) as [->|Hne]; [rewrite lookup_delete_eq; split; [tauto|by intros (? & ? & _)]|]. rewrite lookup_delete_ne by done. tauto.
Qed.

Definition occurs (c : nat) (l : list nat) : nat := length (filter (fun c' => c' = c) l).

Lemma occurs_0 c l : occurs c l = O -> c ∉ l.
Proof. intros H%length_zero_iff_nil Hc. assert (c ∈ filter (fun c' => c' = c) l) as Hin by by apply list_elem_of_filter. rewrite H in Hin. by apply not_elem_of_nil in Hin. Qed.

Lemma del_client_once c l : (occurs c l <= 1)%nat -> c ∈ l -> ok (del_client c l) (fun l' => forall c', c' ∈ l' <-> c' <> c /\ c' ∈ l).
Proof.
  induction l as [|x l IH]; intros Hocc Hc; [by apply not_elem_of_nil in Hc|]. cbn [del_client]. unfold occurs in Hocc. destruct (Nat.eqb_spec x c) as [->|Hne].
  - rewrite filter_cons_True in Hocc by done. cbn in Hocc. assert (c ∉ l) as Hnin by (apply occurs_0; unfold occurs; lia). apply ok_ret.
    intros c'. rewrite elem_of_cons. split; [intros H; split; [intros ->; done|by right]|]. intros [? [|] ]; done.
  - rewrite filter_cons_False in Hocc by done. apply elem_of_cons in Hc as [|Hc]; [done|]. destruct (IH Hocc Hc) as (l' & -> & Hl'). apply ok_ret.
    intros c'. rewrite !elem_of_cons, Hl'. split; [intros [->|[? ?] ]; split; auto|]. intros [? [->|] ]; auto.
Qed.

Lemma unblocked_loop_ok : forall l (e : env), (forall c, c ∈ l -> is_Some (e_clients e !! c)) ->
  ok (unblocked_loop l e) (fun e' => exists m, e' = set_unblocked [] (set_clients m e) /\ same_waiters m (e_clients e) /\ waiting m = waiting (e_clients e) /\
    forall c x, m !! c = Some x -> c_unblocked x = true -> c ∉ l /\ e_clients e !! c = Some x).
Proof.
  induction l as [|c l IH]; intros e Hl; cbn [unblocked_loop].
  - apply ok_ret. exists (e_clients e). split_and!; [done| |done|]; [intros c; by destruct (e_clients e !! c)|]. intros c x Hx _. split; [apply not_elem_of_nil|done].
  - destruct (Hl c) as [x Hx]; [by left|]. rewrite Hx. cbn [mbind option_bind]. set (y := mkClient _ _ _ _ _ _ _).
    eapply ok_mono; [apply IH|].
    + intros c' Hc'. cbn. destruct (decide (c' = c)) as [->|]; [by rewrite lookup_insert_eq|]. rewrite lookup_insert_ne by done. apply Hl. by right.
    + intros e' (m & -> & H1 & H2 & H3). cbn in *. exists m. split_and!; [done| | |].
      * intros c'. specialize (H1 c'). destruct (decide (c' = c)) as [->|]; [rewrite lookup_insert_eq in H1; by rewrite Hx|by rewrite lookup_insert_ne in H1].
      * rewrite H2, waiting_insert, Hx. cbn. lia.
      * intros c' z Hz Hu. destruct (H3 c' z Hz Hu) as [Hnin Hz']. destruct (decide (c' = c)) as [->|]; [rewrite lookup_insert_eq in Hz'; by injection Hz' as <-|].
        rewrite lookup_insert_ne in Hz' by done. split; [|done]. by intros [|]%elem_of_cons.
Qed.

(** The commands that a client may send: their arguments and, for those that block, the time. *)
Fixpoint calls_ok (c : nat) (cmds : list command) (s : aserver) : Prop :=
  match cmds with
  | [] => True
  | cmd :: cmds => cmd_ok cmd s /\ args_ok cmd /\ short_lists s /\ forall s', call c cmd s = Some s' -> calls_ok c cmds s'
  end.

(** A client that goes away is not in server.unblocked_clients more than once. *)
Definition event_ok (e : event (T := T)) (s : aserver) : Prop :=
  match e with
  | Command c cmd => ready_client c s = true -> forall s', set_flags c false (is_blpop cmd) s = Some s' -> calls_ok c [cmd] s'
  | Exec c cmds => ready_client c s = true -> forall s', set_flags c true false s = Some s' -> calls_ok c cmds s'
  | Free c => forall x, e_clients (env_of s) !! c = Some x -> (occurs c (e_unblocked (env_of s)) + (if c_blocked x then 1 else 0) <= 1)%nat
  | _ => True
  end.

Fixpoint run_ok (es : list (event (T := T))) (s : aserver) : Prop :=
  match es with
  | [] => True
  | e :: es => event_ok e s /\ forall s', handle e s = Some s' -> run_ok es s'
  end.

Lemma call_all_goes c : forall cmds s y, inv None None [] s -> e_clients (env_of s) !! c = Some y -> c_blocked y = false -> c_multi y = true -> calls_ok c cmds s ->
  ok (call_all c cmds s) (fun s' => inv None None [] s' /\ e_clients (env_of s') !! c = Some y).
Proof.
  induction cmds as [|cmd cmds IH]; intros s y I Hy Hb Hm Hok; cbn [call_all]; [by apply ok_ret|]. destruct Hok as (Hcmd & _ & _ & Hrest).
  destruct (call_goes c cmd [] s I) as (s1 & E & I1 & Hn); [by exists y|done|]. rewrite E. cbn [mbind option_bind]. apply IH; auto.
  destruct Hn as [(-> & _)|(x & Hx & Hx')]; [done|congruence].
Qed.

Lemma change_lists (l : list (text * option T)) : forall (m : gmap text (value (T := T) (Obj := list text))) k o, change l m !! k = Some (VList o) -> m !! k = Some (VList o).
Proof.
  induction l as [|[k0 [t|] ] l IH]; intros m k o H; cbn in H; [done|..]; apply IH in H.
  - destruct (decide (k = k0)) as [->|]; [by rewrite lookup_insert_eq in H|by rewrite lookup_insert_ne in H].
  - by apply lookup_delete_Some in H as [_ H].
Qed.

Lemma ready_idle c (s : aserver) : ready_client c s = true -> exists x, e_clients (env_of s) !! c = Some x /\ c_blocked x = false.
Proof. unfold ready_client. destruct (e_clients (env_of s) !! c) as [x|]; [|done]. intros H%negb_true_iff. by exists x. Qed.

Lemma connect_ok c (s : aserver) : settled s -> ok (handle (Connect c) s) settled.
Proof.
  intros [I Hr]. cbn. apply ok_ret. destruct (e_clients (env_of s) !! c) as [x|] eqn:Ec; [done|]. split; [|done]. apply inv_env; try done.
  pose proof (i_winv _ _ _ _ I) as W. pose proof W as [W1 W2 W3 W4]. split; cbn.
  - intros k l Hl. destruct (W1 k l Hl) as (? & ? & Hin). split; [done|]. split; [done|]. intros c' Hc'. destruct (Hin c' Hc') as (x & Hx & Hk). exists x.
    rewrite lookup_insert_ne; [done|congruence].
  - intros c' x Hx. destruct (decide (c' = c)) as [->|Hne]; [|rewrite lookup_insert_ne in Hx by done; by apply W2].
    rewrite lookup_insert_eq in Hx. injection Hx as <-. cbn. split; [constructor|]. split; [done|]. intros k Hk. by apply not_elem_of_nil in Hk.
  - rewrite waiting_insert, Ec. cbn. lia.
  - intros c'. rewrite W4. destruct (decide (c' = c)) as [->|Hne]; [|by rewrite lookup_insert_ne]. rewrite lookup_insert_eq, Ec. split; [by intros (? & ? & _)|].
    by intros (? & [= <-] & ?).
Qed.

Lemma command_ok c cmd (s : aserver) : settled s -> event_ok (Command c cmd) s -> ok (handle (Command c cmd) s) settled.
Proof.
  intros [I Hr] Hok. unfold event_ok in Hok. cbn [handle]. unfold processCommand. destruct (ready_client c s) eqn:Ec; [|by apply ok_ret]. destruct (ready_idle c s Ec) as (x & Hx & Hb).
  destruct (set_flags_ok c false (is_blpop cmd) [] s x I Hx) as (s1 & E & I1 & _ & _ & _ & y & Hy & Hby & _). rewrite E. cbn [mbind option_bind].
  destruct (Hok eq_refl s1 E) as (Hcmd & _). eapply goes_bind; [apply (call_goes c cmd [] s1 I1); [|done]|].
  - exists y. split; [done|congruence].
  - intros s2 [I2 _]. by apply handleClients_ok.
Qed.

Lemma exec_goes c cmds (s : aserver) : settled s -> event_ok (Exec c cmds) s -> ok (handle (Exec c cmds) s) settled.
Proof.
  intros [I Hr] Hok. unfold event_ok in Hok. cbn [handle]. unfold execCommand. destruct (ready_client c s) eqn:Ec; [|by apply ok_ret]. destruct (ready_idle c s Ec) as (x & Hx & Hb).
  destruct (set_flags_ok c true false [] s x I Hx) as (s1 & E & I1 & _ & _ & _ & y & Hy & Hby & Hmy). rewrite E. cbn [mbind option_bind].
  eapply goes_bind; [eapply call_all_goes; [done|exact Hy|congruence|done|by apply Hok]|]. intros s2 [I2 Hy2].
  eapply goes_bind; [eapply (set_flags_ok c false false [] s2); [done|exact Hy2]|]. intros s3 (I3 & _). by apply handleClients_ok.
Qed.

Lemma cron_ok now c (s : aserver) : settled s -> ok (handle (Cron now c) s) settled.
Proof.
  intros [I Hr]. cbn [handle]. unfold clientsCronHandleTimeout. cbn [upd set_time env_of e_clients e_unixtime]. assert (inv None None [] (upd (set_time now) s)) as I1 by (apply inv_core; [by split_and!|done]).
  destruct (e_clients (env_of s) !! c) as [x|] eqn:Ec; [|by apply ok_ret]. destruct (c_blocked x && _ && _) eqn:Eb; [|by apply ok_ret].
  apply andb_true_iff in Eb as [[Hb _]%andb_true_iff _].
  destruct (unblock_inv c x None None [] (upd (addReply c ReplyNullMulti) (upd (set_time now) s))) as (e & E & I2 & _ & Hr2 & _); [|done|done|].
  { apply inv_upd; [auto with wait|done]. }
  cbn in E. rewrite E. cbn [mbind option_bind]. apply ok_ret. split; [done|]. cbn in *. congruence.
Qed.

Lemma beforeSleep_ok (s : aserver) : settled s -> ok (handle BeforeSleep s) settled.
Proof.
  intros [I Hr]. cbn [handle]. unfold beforeSleep. pose proof (i_winv _ _ _ _ I) as W. eapply goes_bind; [apply unblocked_loop_ok|].
  - intros c Hc%(w_unblocked _ W). destruct Hc as (x & Hx & _). by exists x.
  - intros e (m & -> & H1 & H2 & H3). apply ok_ret. split; [|done]. apply inv_env; try done. apply winv_clients; try done. intros c.
    split; [intros Hc; by apply not_elem_of_nil in Hc|]. intros (x & Hx & Hu). destruct (H3 c x Hx Hu) as [Hnin Hx']. exfalso. apply Hnin, (w_unblocked _ W). by exists x.
Qed.

Lemma free_ok c (s : aserver) : settled s -> event_ok (Free c) s -> ok (handle (Free c) s) settled.
Proof.
  intros [I Hr] Hok. unfold event_ok in Hok. cbn [handle]. unfold freeClient. destruct (e_clients (env_of s) !! c) as [x|] eqn:Ec; [|by apply ok_ret]. specialize (Hok x eq_refl).
  assert (ok (if c_blocked x then unblockClientWaitingData c (env_of s) else Some (env_of s)) (fun e => settled (mkServer (db s) e) /\
    exists y, e_clients e !! c = Some y /\ c_blocked y = false /\ (occurs c (e_unblocked e) <= 1)%nat)) as H.
  { destruct (c_blocked x) eqn:Eb; [|apply ok_ret; split; [by destruct s|exists x; split_and!; [done|done|lia]]].
    destruct (unblock_inv c x None None [] s I Ec Eb) as (e & -> & I2 & _ & Hr2 & _ & Hu & Hcl). apply ok_ret. split; [split; [done|cbn; congruence]|].
    eexists. rewrite Hcl, lookup_insert_eq. split; [done|]. split; [done|]. rewrite Hu. unfold occurs in *. rewrite list.filter_app, length_app, (filter_cons_True (fun c' => c' = c)) by done. cbn. lia. }
  eapply goes_bind; [exact H|]. intros e ([I2 Hr2] & y & Hy & Hby & Hocc). rewrite Hy. cbn [mbind option_bind]. pose proof (i_winv _ _ _ _ I2) as W. cbn in W.
  eapply (goes_bind _ _ (fun l => forall c', c' ∈ l <-> c' <> c /\ c' ∈ e_unblocked e)).
  - destruct (c_unblocked y) eqn:Eu; [apply del_client_once; [done|]; apply (w_unblocked _ W); by exists y|]. apply ok_ret. intros c'. split; [|tauto]. intros Hc'.
    split; [|done]. intros ->. apply (w_unblocked _ W) in Hc' as (z & Hz & Hu). congruence.
  - intros l Hl. apply ok_ret. split; [|done]. apply (inv_env [] (mkServer (db s) e)); try done. by eapply winv_delete.
Qed.

Lemma other_ok l (s : aserver) : settled s -> ok (handle (Other l) s) settled.
Proof.
  intros [I Hr]. cbn. apply ok_ret. split; [|done]. destruct I as [J1 J2 J3 J4 J5]. split; cbn; try done.
  - by apply (winv_core (env_of s)).
  - intros k Hk%change_lists. by apply J4.
  - intros k o Hk%change_lists. by apply (J5 k o).
Qed.

Lemma handle_ok e (s : aserver) : settled s -> event_ok e s -> ok (handle e s) settled.
Proof.
  intros Hs Hok. destruct e; [by apply connect_ok|by apply command_ok|by apply exec_goes|by apply cron_ok|by apply beforeSleep_ok|by apply free_ok|by apply other_ok].
Qed.

Lemma handle_all_ok : forall es (s : aserver), settled s -> run_ok es s -> ok (handle_all es s) settled.
Proof.
  induction es as [|e es IH]; intros s Hs Hok; cbn [handle_all]; [by apply ok_ret|]. destruct Hok as [He Hes]. destruct (handle_ok e s Hs He) as (s1 & E & H1).
  rewrite E. cbn [mbind option_bind]. by apply IH; [|apply Hes].
Qed.

Lemma init_settled : settled initServer.
Proof.
  split; [|done]. split; try done.
  - split; cbn; try done. intros c. split; [intros Hc; by apply not_elem_of_nil in Hc|by intros (x & Hx & _)].
  - intros k. cbn. rewrite elem_of_nil. set_solver.
  - constructor.
Qed.
End Waiting.

(** ** Runs *)

Section Runs.
Context {T Obj : Type} {ops : ListOps Obj} {laws : ListLaws ops}.

Abbreviation cserver := (server (T := T) (Obj := Obj)).
Abbreviation aserver := (server (T := T) (Obj := list text)).

Lemma sim_set_flags c m b (s : cserver) (a : aserver) : srel s a -> sim srel (set_flags c m b s) (set_flags c m b a).
Proof. intros Hs. unfold set_flags. rewrite (proj1 Hs). destruct (e_clients (env_of a) !! c); [apply sim_ret; by apply srel_upd|apply sim_none]. Qed.

Lemma sim_call_all c : forall cmds (s : cserver) (a : aserver), srel s a -> calls_ok c cmds a -> sim srel (call_all c cmds s) (call_all c cmds a).
Proof.
  induction cmds as [|cmd cmds IH]; intros s a Hs Hok; cbn [call_all]; [by apply sim_ret|]. destruct Hok as (_ & Hargs & Hshort & Hrest).
  pose proof (sim_call c cmd s a Hs Hshort Hargs) as H. destruct (call c cmd a) as [a1|]; [|apply sim_none].
  destruct (H a1 eq_refl) as (s1 & -> & H1). cbn [mbind option_bind]. apply IH; [done|by apply Hrest].
Qed.

Lemma change_vrel (l : list (text * option T)) : forall (m : gmap text (value (Obj := Obj))) (m' : gmap text (value (Obj := list text))),
  (forall k, vrel (m !! k) (m' !! k)) -> forall k, vrel (change l m !! k) (change l m' !! k).
Proof.
  induction l as [|[k0 [t|] ] l IH]; intros m m' H; [exact H|..]; cbn [change]; apply IH; intros k; (destruct (decide (k = k0)) as [->|]);
    [by rewrite !lookup_insert_eq|by rewrite !lookup_insert_ne|by rewrite !lookup_delete_eq|by rewrite !lookup_delete_ne].
Qed.

Lemma sim_env (f : env -> option env) (s : cserver) (a : aserver) : srel s a ->
  sim srel (e ← f (env_of s); Some (mkServer (db s) e)) (e ← f (env_of a); Some (mkServer (db a) e)).
Proof. intros Hs. rewrite (proj1 Hs). destruct (f (env_of a)); [apply sim_ret; by apply srel_env|apply sim_none]. Qed.

Lemma sim_handle e (s : cserver) (a : aserver) : srel s a -> event_ok e a -> sim srel (handle e s) (handle e a).
Proof.
  intros Hs Hok. assert (forall c, ready_client c s = ready_client c a) as Hready by (intros c; unfold ready_client; by rewrite (proj1 Hs)).
  destruct e as [c|c cmd|c cmds|now c| |c|l]; cbn [handle event_ok] in *; unfold processCommand, execCommand, clientsCronHandleTimeout, beforeSleep, freeClient.
  - apply sim_ret. rewrite (proj1 Hs). destruct (e_clients (env_of a) !! c); [done|by apply srel_upd].
  - rewrite Hready. destruct (ready_client c a); [|by apply sim_ret]. specialize (Hok eq_refl). pose proof (sim_set_flags c false (is_blpop cmd) s a Hs) as H.
    destruct (set_flags c false (is_blpop cmd) a) as [a1|]; [|apply sim_none]. destruct (H a1 eq_refl) as (s1 & -> & H1). cbn [mbind option_bind].
    destruct (Hok a1 eq_refl) as (_ & Hargs & Hshort & _). eapply sim_bind; [by apply sim_call|]. apply sim_handleClients.
  - rewrite Hready. destruct (ready_client c a); [|by apply sim_ret]. specialize (Hok eq_refl). pose proof (sim_set_flags c true false s a Hs) as H.
    destruct (set_flags c true false a) as [a1|]; [|apply sim_none]. destruct (H a1 eq_refl) as (s1 & -> & H1). cbn [mbind option_bind].
    eapply sim_bind; [apply sim_call_all; [done|by apply Hok]|]. intros s2 a2 H2. eapply sim_bind; [by apply sim_set_flags|]. apply sim_handleClients.
  - pose proof (srel_upd (set_time now) s a Hs) as H1. rewrite (proj1 H1). destruct (e_clients (env_of (upd (set_time now) a)) !! c) as [x|]; [|by apply sim_ret].
    destruct (c_blocked x && _ && _); [|by apply sim_ret]. rewrite <- (proj1 H1) at 1. by apply (sim_env (fun e => unblockClientWaitingData c (addReply c ReplyNullMulti e))).
  - by apply (sim_env (fun e => unblocked_loop (e_unblocked e) e)).
  - rewrite (proj1 Hs). destruct (e_clients (env_of a) !! c) as [x|]; [|by apply sim_ret].
    eapply (sim_bind eq); [intros e He; by exists e|]. intros e _ <-. eapply (sim_bind eq); [intros y Hy; by exists y|]. intros y _ <-.
    eapply (sim_bind eq); [intros l Hl; by exists l|]. intros l _ <-. apply sim_ret. by apply srel_env.
  - apply sim_ret, srel_upd. destruct Hs as [He Hd]. split; [done|]. by apply change_vrel.
Qed.

Lemma sim_handle_all : forall es (s : cserver) (a : aserver), srel s a -> run_ok es a -> sim srel (handle_all es s) (handle_all es a).
Proof.
  induction es as [|e es IH]; intros s a Hs Hok; cbn [handle_all]; [by apply sim_ret|]. destruct Hok as [He Hes]. pose proof (sim_handle e s a Hs He) as H.
  destruct (handle e a) as [a1|]; [|apply sim_none]. destruct (H a1 eq_refl) as (s1 & -> & H1). cbn [mbind option_bind]. apply IH; [done|by apply Hes].
Qed.

(** Every run goes through, and the objects follow the lists. *)
Lemma runs es : run_ok es initServer -> exists (s : cserver) (a : aserver),
  handle_all es initServer = Some s /\ handle_all es initServer = Some a /\ srel s a /\ settled a.
Proof.
  intros Hok. destruct (handle_all_ok es initServer init_settled Hok) as (a & Ha & Hsettled).
  destruct (sim_handle_all es initServer initServer) with (b := a) as (s & Hs & Hrel); [by split|done|done|]. by exists s, a.
Qed.
End Runs.

(** *** The conditions on a run can be evaluated *)

Section Decide.
Context {T : Type}.
Abbreviation aserver := (server (T := T) (Obj := list text)).

#[export] Instance result_dec {A} (m : option A) (P : A -> Prop) `{forall x, Decision (P x)} : Decision (forall x, m = Some x -> P x).
Proof.
  destruct m as [x|]; [|by left]. destruct (decide (P x)) as [H1|H1]; [left; by intros _ [= <-]|right; intros H2; by apply H1, H2].
Defined.

#[export] Instance robj_ok_dec v : Decision (robj_ok v).
Proof. destruct v; cbn; unfold in_int; apply _. Defined.
#[export] Instance index_ok_dec i : Decision (index_ok i).
Proof. unfold index_ok. apply _. Defined.
#[export] Instance count_ok_dec n : Decision (count_ok n).
Proof. unfold count_ok. apply _. Defined.
#[export] Instance refval_ok_dec v : Decision (refval_ok v).
Proof. destruct v; cbn; apply _. Defined.
#[export] Instance args_ok_dec cmd : Decision (args_ok cmd).
Proof. destruct cmd; cbn; unfold long_ok; apply _. Defined.
#[export] Instance time_ok_dec t (s : aserver) : Decision (time_ok t s).
Proof. unfold time_ok. destruct (getTimeout _ _); [by left|right; intros H; by apply H]. Defined.
#[export] Instance cmd_ok_dec cmd (s : aserver) : Decision (cmd_ok cmd s).
Proof. destruct cmd; cbn; apply _. Defined.

Definition short_value (v : value (T := T) (Obj := list text)) : Prop := match v with VList l => zlen l < 2 ^ 63 | VOther _ => True end.
#[export] Instance short_value_dec v : Decision (short_value v).
Proof. destruct v; cbn; apply _. Defined.
Lemma short_lists_iff (s : aserver) : map_Forall (fun _ => short_value) (db s) <-> short_lists s.
Proof.
  split; [intros H k l Hk; by apply (H k _ Hk)|]. intros H k [l|t] Hk; [by apply (H k)|done].
Qed.
#[export] Instance short_lists_dec (s : aserver) : Decision (short_lists s).
Proof. destruct (decide (map_Forall (fun _ => short_value) (db s))) as [H|H]; [left; by apply short_lists_iff|right; intros H'; by apply H, short_lists_iff]. Defined.

#[export] Instance calls_ok_dec c : forall cmds (s : aserver), Decision (calls_ok c cmds s).
Proof. induction cmds; intros s; cbn; apply _. Defined.
#[export] Instance event_ok_dec e (s : aserver) : Decision (event_ok e s).
Proof. destruct e; cbn; apply _. Defined.
#[export] Instance run_ok_dec : forall es (s : aserver), Decision (run_ok es s).
Proof. induction es; intros s; cbn; apply _. Defined.
End Decide.

(** *** The order in which the clients are served *)

Section Order.
Context {T : Type}.
Abbreviation aserver := (server (T := T) (Obj := list text)).
Abbreviation propagated := (propagated (T := T)).

Definition side_of (x : client) : side := if c_blpop x then HEAD else TAIL.
Definition pop_command (key : text) (w : side) : command := match w with HEAD => LPOP key | TAIL => RPOP key end.

(** The clients [cs] in their order take an element each from the list, from the side they asked
    for: the replies, what is propagated, who is left and what is left. *)
Fixpoint in_order (m : gmap nat client) (key : text) (cs : list nat) (l : list text) : list (nat * reply) * list propagated * list nat * list text :=
  match cs with
  | [] => ([], [], [], l)
  | c :: cs' =>
    match m !! c with
    | Some x =>
      match spec_pop l (side_of x) with
      | (Some v, l') =>
        let '(out, props, cs', l') := in_order m key cs' l' in
        ((c, ReplyMulti [key; v]) :: out, PCommand (pop_command key (side_of x)) :: props, cs', l')
      | (None, _) => ([], [], cs, l)
      end
    | None => ([], [], cs, l)
    end
  end.

Lemma in_order_insert c y k : forall cs m l, c ∉ cs -> in_order (<[c := y]> m) k cs l = in_order m k cs l.
Proof.
  induction cs as [|c' cs IH]; intros m l Hc; [done|]. apply not_elem_of_cons in Hc as [Hne Hc]. cbn [in_order]. rewrite lookup_insert_ne by done.
  destruct (m !! c') as [x|]; [|done]. destruct (spec_pop l (side_of x)) as [[v|] l']; [|done]. by rewrite IH.
Qed.

Lemma nonempty_some cs cs' : nonempty cs = Some cs' -> cs' = cs /\ cs <> [].
Proof. destruct cs; [done|]. by intros [= <-]. Qed.

Lemma serve_loop_order k pend : forall cs (s : aserver) l, inv (Some k) (Some k) pend s -> db s !! k = Some (VList l) -> e_blocking (env_of s) !! k = nonempty cs ->
  (forall c, c ∈ cs -> exists x, e_clients (env_of s) !! c = Some x /\ c_target x = None) ->
  ok (serve_loop (length cs) k s) (fun s' => let '(out, props, cs', l') := in_order (e_clients (env_of s)) k cs l in
    db s' = <[k := VList l']> (db s) /\ e_out (env_of s') = e_out (env_of s) ++ out /\ e_propagated (env_of s') = e_propagated (env_of s) ++ props /\
    e_blocking (env_of s') !! k = nonempty cs' /\ e_ready_keys (env_of s') = e_ready_keys (env_of s)).
Proof.
  induction cs as [|c cs IH]; intros s l I Hk Hb Hcs; cbn [length serve_loop in_order].
  - apply ok_ret. by rewrite insert_id, !app_nil_r by done.
  - destruct (w_lists _ (i_winv _ _ _ _ I) k _ Hb) as (_ & Hnd & Hin). apply list.NoDup_cons in Hnd as [Hc Hnd]. rewrite Hb.
    destruct (Hcs c) as (x & Hx & Ht); [by left|]. cbn [nonempty mbind option_bind lookup list_lookup]. rewrite Hx. cbn [mbind option_bind].
    destruct (Hin c) as (x' & Hx' & Hkx); [by left|]. assert (x' = x) as -> by congruence.
    assert (c_blocked x = true) as Hbx. { apply (w_clients _ (i_winv _ _ _ _ I) c x Hx). intros E. rewrite E in Hkx. by apply not_elem_of_nil in Hkx. }
    rewrite (get_list_ok k s l Hk). cbn [mbind option_bind lo_pop plain_ops]. fold (side_of x). destruct (spec_pop l (side_of x)) as [v l'] eqn:Ep.
    assert (inv (Some k) (Some k) pend (put k l' s)) as I1 by (eapply inv_put_any; eauto).
    destruct v as [v|]; cbn [fmap option_fmap option_map mbind option_bind].
    + destruct (unblock_inv c x _ _ _ (put k l' s) I1 Hx Hbx) as (e & E & I2 & _ & Hready & Hblocking & _ & Hcl). rewrite E. cbn [mbind option_bind]. rewrite Ht.
      unfold serveClientBlockedOnList. cbn [mbind option_bind decoded]. fold (pop_command k (side_of x)). set (s2 := reply_to _ _ _).
      assert (inv (Some k) (Some k) pend s2) as I3 by (apply inv_upd; [apply quiet_reply|]; apply inv_upd; [apply quiet_propagate|done]).
      assert (e_clients (env_of s2) = <[c := mkClient [] None (c_timeout x) false true (c_multi x) (c_blpop x)]> (e_clients (env_of s))) as Hcl2 by exact Hcl.
      assert (e_out e = e_out (env_of s) /\ e_propagated e = e_propagated (env_of s)) as [Ho Hp].
      { unfold unblockClientWaitingData in E. cbn [put env_of] in E. rewrite Hx in E. cbn [mbind option_bind] in E. destruct (c_keys x); [done|].
        destruct (unblock_loop c _ _); [|done]. cbn [mbind option_bind] in E. by injection E as <-. }
      eapply ok_mono; [apply (IH s2 l')|].
      * done.
      * cbn. apply lookup_insert_eq.
      * cbn. rewrite Hblocking. cbn [put env_of]. rewrite Hb. cbn [nonempty]. by rewrite others_head.
      * intros c' Hc'. destruct (Hcs c') as (y & Hy & Hty); [by right|]. exists y. rewrite Hcl2, lookup_insert_ne; [done|]. intros <-. done.
      * intros s3. rewrite Hcl2, in_order_insert by done. destruct (in_order _ k cs l') as [[[out props] cs'] l2]. intros (H1 & H2 & H3 & H4 & H5). cbn in H1, H2, H3, H5, Hready.
        rewrite insert_insert_eq in H1. split_and!; [done|by rewrite H2, Ho, <- app_assoc|by rewrite H3, Hp, <- app_assoc|done|congruence].
    + assert (l' = l) as -> by (destruct (decide (l = [])) as [->|Hl]; [destruct (side_of x); by injection Ep as <-|destruct (pop_some l (side_of x) Hl) as (v & l2 & Ep2); congruence]).
      apply ok_ret. cbn. by rewrite !app_nil_r, Hb.
Qed.

(** The value of a key that holds [l]. *)
Definition list_value (l : list text) : option (value (T := T) (Obj := list text)) := match l with [] => None | _ => Some (VList l) end.

Lemma push_loop_value w : forall args (l : list text), push_loop l args w = Some (foldl (fun l v => spec_push l (decoded (tryObjectEncoding v)) w) l args).
Proof. induction args as [|v args IH]; intros l; [done|]. cbn [push_loop lo_push plain_ops mbind option_bind foldl]. by rewrite IH. Qed.


Definition push_command (w : side) (key : text) (args : list robj) : command := match w with HEAD => LPUSH key args | TAIL => RPUSH key args end.
Definition pushed (w : side) (args : list robj) : list text := foldl (fun l v => spec_push l (decoded (tryObjectEncoding v)) w) [] args.

(** A push to a key that holds nothing and for which clients wait. *)
Lemma call_push p w k args (s : aserver) cs : args <> [] -> db s !! k = None -> e_blocking (env_of s) !! k = Some cs -> k ∉ e_ready (env_of s) ->
  ok (call p (push_command w k args) s) (fun s' => db s' = <[k := VList (pushed w args)]> (db s) /\
    e_ready_keys (env_of s') = e_ready_keys (env_of s) ++ [k] /\ near (env_of s) (env_of s') /\
    e_out (env_of s') = e_out (env_of s) ++ [(p, ReplyInt (zlen (pushed w args)))] /\
    e_propagated (env_of s') = e_propagated (env_of s) ++ [PCommand (push_command w k args)]).
Proof.
  intros Hargs Hk Hb Hr. unfold call.
  assert (forall (s : aserver), run_command p (push_command w k args) s = (s ← pushGenericCommand p k args w s; Some (s, None))) as E by (intros s'; by destruct w).
  rewrite E. unfold pushGenericCommand. rewrite Hk. destruct args as [|v args]; [done|]. cbn [lo_create plain_ops]. rewrite push_loop_value. fold (pushed w (v :: args)).
  cbn [lo_length plain_ops mbind option_bind]. set (l := pushed w (v :: args)). unfold upd, signalListAsReady. rewrite Hb, bool_decide_false by done. cbn [db env_of put reply_to upd].
  apply ok_ret. cbn. destruct (Z.eqb_spec (e_dirty (env_of s) + zlen (v :: args)) (e_dirty (env_of s))) as [H|_]; [unfold zlen in H; cbn in H; lia|].
  by split_and!.
Qed.

Lemma serve_key_order k cs (s : aserver) l : inv None None [k] s -> db s !! k = Some (VList l) -> e_blocking (env_of s) !! k = Some cs ->
  (forall c, c ∈ cs -> exists x, e_clients (env_of s) !! c = Some x /\ c_target x = None) ->
  ok (serve_key k s) (fun s' => let '(out, props, cs', l') := in_order (e_clients (env_of s)) k cs l in
    db s' !! k = list_value l' /\ (forall k', k' <> k -> db s' !! k' = db s !! k') /\ e_out (env_of s') = e_out (env_of s) ++ out /\
    e_propagated (env_of s') = e_propagated (env_of s) ++ props /\ e_blocking (env_of s') !! k = nonempty cs' /\ e_ready_keys (env_of s') = e_ready_keys (env_of s)).
Proof.
  intros I Hk Hb Hcs. unfold serve_key. pose proof (proj1 (inv_weaken (Some k) _ _ _ k (unready_inv k [] s I))) as I1. set (s1 := upd _ s) in *.
  change (db s1) with (db s). rewrite Hk. change (e_blocking (env_of s1)) with (e_blocking (env_of s)). rewrite Hb.
  assert (e_blocking (env_of s1) !! k = nonempty cs) as Hb1.
  { change (e_blocking (env_of s1)) with (e_blocking (env_of s)). rewrite Hb. destruct cs; [|done]. by destruct (w_lists _ (i_winv _ _ _ _ I) k _ Hb). }
  eapply goes_bind; [by apply (serve_loop_order k [] cs s1 l)|]. intros s2. change (e_clients (env_of s1)) with (e_clients (env_of s)).
  destruct (in_order _ k cs l) as [[[out props] cs'] l2]. intros (H1 & H2 & H3 & H4 & H5).
  assert (db s2 !! k = Some (VList l2)) as Hk2 by (rewrite H1; apply lookup_insert_eq). unfold delete_if_empty. rewrite (get_list_ok k s2 l2 Hk2).
  cbn [lo_length plain_ops mbind option_bind]. apply ok_ret. unfold list_value. destruct l2 as [|x l2].
  - change (zlen [] =? 0) with true. cbn. rewrite H1. split_and!; try done; [apply lookup_delete_eq|]. intros k' Hk'. by rewrite lookup_delete_ne, lookup_insert_ne.
  - destruct (Z.eqb_spec (zlen (x :: l2)) 0) as [E|_]; [unfold zlen in E; cbn in E; lia|]. cbn. rewrite H1. split_and!; try done; [apply lookup_insert_eq|].
    intros k' Hk'. by rewrite !lookup_insert_ne.
Qed.

(** C29: a push to a key for which clients wait with BLPOP or BRPOP serves them in the order in which they began to wait: each gets one element from its side of the list, as long as there are elements, and the others keep waiting; the key holds the rest, or nothing, and the replicas are sent the push and the pops that were done. *)
Theorem waiters_served_in_order (s : aserver) p w k args cs :
  settled s -> ready_client p s = true -> args <> [] -> db s !! k = None -> e_blocking (env_of s) !! k = Some cs ->
  (forall c, c ∈ cs -> exists x, e_clients (env_of s) !! c = Some x /\ c_target x = None) ->
  let '(out, props, cs', l) := in_order (e_clients (env_of s)) k cs (pushed w args) in
  exists s', handle (Command p (push_command w k args)) s = Some s' /\
    e_out (env_of s') = e_out (env_of s) ++ (p, ReplyInt (zlen (pushed w args))) :: out /\
    e_blocking (env_of s') !! k = nonempty cs' /\ db s' !! k = list_value l /\ (forall k', k' <> k -> db s' !! k' = db s !! k') /\
    e_propagated (env_of s') = e_propagated (env_of s) ++ PCommand (push_command w k args) :: props.
Proof.
  intros [I Hr] Hp Hargs Hk Hb Hcs. destruct (ready_idle p s Hp) as (x & Hx & Hbx). cbn [handle]. unfold processCommand. rewrite Hp.
  assert (is_blpop (push_command w k args) = false) as -> by by destruct w.
  destruct (set_flags_ok p false false [] s x I Hx) as (s1 & E & I1 & Hr1 & _ & Hdb & y & Hy & Hby & _). rewrite E. cbn [mbind option_bind].
  unfold set_flags in E. rewrite Hx in E. cbn [mbind option_bind] in E. injection E as E.
  assert (p ∉ cs) as Hpcs. { intros Hin. destruct (w_lists _ (i_winv _ _ _ _ I) k cs Hb) as (_ & _ & Hw). destruct (Hw p Hin) as (z & Hz & Hkz).
    assert (z = x) as -> by congruence. rewrite (no_keys _ _ _ (i_winv _ _ _ _ I) Hx Hbx) in Hkz. by apply not_elem_of_nil in Hkz. }
  destruct (call_push p w k args s1 cs) as (s2 & E2 & Hdb2 & Hr2 & (Hcl2 & Hb2 & Hc2 & _) & Ho2 & Hp2);
    [done|by rewrite Hdb|by rewrite <- E| |]. { intros Hin%(i_ready _ _ _ _ I1). rewrite Hr1, Hr in Hin. by apply not_elem_of_nil in Hin. }
  destruct (call_goes p (push_command w k args) [] s1 I1) as (s2' & E2' & I2 & _); [exists y; split; [done|congruence]|by destruct w|].
  assert (s2' = s2) as -> by congruence. rewrite E2. cbn [mbind option_bind]. rewrite Hr1, Hr in Hr2. cbn [app] in Hr2. rewrite Hdb in Hdb2.
  unfold handleClientsBlockedOnLists. cbn [handle_loop]. rewrite Hr2. cbn [serve_keys]. set (s3 := upd _ s2).
  assert (inv None None [k] s3) as I3.
  { destruct I2 as [J1 J2 J3 J4 J5]. cbn [app] in *. rewrite Hr2 in *. split; cbn; try done. by apply (winv_core (env_of s2)). }
  assert (e_clients (env_of s3) = <[p := mkClient (c_keys x) (c_target x) (c_timeout x) (c_blocked x) (c_unblocked x) false false]> (e_clients (env_of s))) as Hcl3.
  { change (e_clients (env_of s3)) with (e_clients (env_of s2)). by rewrite Hcl2, <- E. }
  destruct (serve_key_order k cs s3 (pushed w args) I3) as (s4 & -> & H4).
  - change (db s3) with (db s2). rewrite Hdb2. apply lookup_insert_eq.
  - change (e_blocking (env_of s3)) with (e_blocking (env_of s2)). by rewrite Hb2, <- E.
  - intros c Hc. destruct (Hcs c Hc) as (z & Hz & Ht). exists z. rewrite Hcl3, lookup_insert_ne; [done|]. intros ->. done.
  - rewrite Hcl3, in_order_insert in H4 by done. destruct (in_order _ k cs _) as [[[out props] cs'] l']. destruct H4 as (D1 & D2 & D3 & D4 & D5 & D6).
    cbn [mbind option_bind]. rewrite D6. cbn. exists s4. split; [done|]. cbn in D3, D4. rewrite Ho2, <- E in D3. rewrite Hp2, <- E in D4. cbn in D3, D4.
    rewrite <- app_assoc in D3, D4. split_and!; try done. intros k' Hk'. rewrite D2 by done. change (db s3) with (db s2). by rewrite Hdb2, lookup_insert_ne.
Qed.

End Order.

(** *** The encoded lists *)

Section Encoded.
Context (T : Type) (list_max_ziplist_entries list_max_ziplist_value : Z) (junk : nat -> Z).
Context (entries_ok : 0 <= list_max_ziplist_entries).
Context (LL : Z) (LL_text : 20 <= LL) (LL_value : list_max_ziplist_value <= LL) (LL_small : LL <= 243).
Context (LL_room : (list_max_ziplist_entries + 2) * (14 + LL) + 11 < 2 ^ 32).

Abbreviation event := (event (T := T)).
Abbreviation cserver := (server (T := T) (Obj := listobj)).
Abbreviation aserver := (server (T := T) (Obj := list text)).

#[local] Instance encoded : ListOps listobj := encoded_ops list_max_ziplist_entries list_max_ziplist_value junk.
#[local] Instance encoded_ll : ListLaws encoded := encoded_laws list_max_ziplist_entries list_max_ziplist_value junk entries_ok LL LL_text LL_value LL_small LL_room.

(** The object is the list. *)
Definition value_is (v : option (value (T := T) (Obj := listobj))) (av : option (value (T := T) (Obj := list text))) : Prop :=
  match v, av with
  | None, None => True
  | Some (VList o), Some (VList l) => rep o l
  | Some (VOther t), Some (VOther t') => t = t'
  | _, _ => False
  end.

Lemma vrel_is v av : vrel v av -> value_is v av.
Proof. destruct v as [[o|t]|], av as [[l|t']|]; try done. by intros [H _]. Qed.

(** C27: any run of connections, list commands, transactions, time-outs and disconnections that
    satisfies [run_ok], with list_max_ziplist_value at most 243, goes on the ziplists and linked
    lists without a failing assert or a bad access, sends every client the same replies, blocks and
    serves the same clients and propagates the same commands as on plain lists of strings, and
    leaves the keys with the same lists.  [run_ok] excludes what the code does not survive or
    answers wrongly: an index that is not an int ([lindex_truncated]), a count of LREM that is the
    smallest long ([lrem_overflow]), a time-out whose end is beyond 64 bits ([timeout_overflow]),
    and a client that is freed while it is unblocked twice ([unblocked_twice]). *)
Theorem list_commands_refine (es : list event) : run_ok es initServer ->
  exists (s : cserver) (a : aserver), handle_all es initServer = Some s /\ handle_all es initServer = Some a /\
    env_of s = env_of a /\ forall k, value_is (db s !! k) (db a !! k).
Proof.
  intros Hok. destruct (runs es Hok) as (s & a & Hs & Ha & [He Hd] & _). exists s, a. split_and!; try done. intros k. apply vrel_is, Hd.
Qed.

(** C28: in every run of connections, commands of t_list.c, transactions, time-outs and
    disconnections that satisfies [run_ok] (as in the theorem before), after every event no list is empty and no
    client waits for a key that holds a list; a client is registered with a key exactly when the
    key is one of those it waits for, and bpop_blocked_clients counts the clients that wait.  Lists
    come from the commands of t_list.c only: RENAME, MOVE, SORT STORE and RESTORE, which add one
    without a signal, are not events of the model. *)
Theorem no_waiter_beside_data (es : list event) : run_ok es initServer ->
  exists s : cserver, handle_all es initServer = Some s /\ e_ready_keys (env_of s) = [] /\
    (forall k o, db s !! k = Some (VList o) -> e_blocking (env_of s) !! k = None /\ exists l, rep o l /\ l <> []) /\
    (forall k c, (exists cs, e_blocking (env_of s) !! k = Some cs /\ c ∈ cs) <-> (exists x, e_clients (env_of s) !! c = Some x /\ k ∈ c_keys x)) /\
    (forall c x, e_clients (env_of s) !! c = Some x -> c_blocked x = true <-> c_keys x <> []) /\
    e_count (env_of s) = waiting (e_clients (env_of s)).
Proof.
  intros Hok. destruct (runs es Hok) as (s & a & Hs & Ha & [He Hd] & [I Hr]). exists s. rewrite He. split_and!; try done.
  - intros k o Hk. specialize (Hd k). rewrite Hk in Hd. destruct (db a !! k) as [[l|t]|] eqn:Ek; [|done..]. destruct Hd as [Ho _].
    destruct (i_woken _ _ _ _ I k l Ek) as [H|[H|] ]; [rewrite Hr in H; by apply not_elem_of_nil in H| |done]. split; [done|]. exists l. split; [done|]. by eapply full_list.
  - intros k c. pose proof (i_winv _ _ _ _ I) as W. split; [intros (cs & Hcs & Hc); by apply (w_lists _ W k cs Hcs)|]. intros (x & Hx & Hk). by apply (w_clients _ W c x Hx).
  - intros c x Hx. by apply (w_clients _ (i_winv _ _ _ _ I) c x Hx).
  - apply (w_count _ (i_winv _ _ _ _ I)).
Qed.
End Encoded.

(** *** Examples *)

Section Examples.
Abbreviation event := (event (T := unit)).
Abbreviation aserver := (server (T := unit) (Obj := list text)).

(** Two clients wait for [a] and [b], one of them to move what comes to [c]; two elements come. *)
Definition waiting_run : list event :=
  [Connect 0; Connect 1; Connect 2; Connect 3; Command 1%nat (BRPOPLPUSH (str "a") (str "c") (RInt 0)); Command 2%nat (BLPOP [str "b"; str "a"] (RInt 5));
   Command 3%nat (BRPOP [str "c"] (RInt 0)); Cron 3 2%nat; Command 0%nat (RPUSH (str "a") [RRaw (str "x"); RRaw (str "12"); RRaw (str "z")]); BeforeSleep;
   Exec 0%nat [LREM (str "a") (RInt (-1)) (RRaw (str "z")); BLPOP [str "a"] (RInt 0)]; Free 1; Other [(str "b", Some tt)]]%nat.

Lemma waiting_run_ok : run_ok waiting_run initServer.
Proof. apply (bool_decide_unpack _). vm_compute. exact I. Qed.

Definition waiting_out : option (list (nat * reply)) := (fun s : aserver => e_out (env_of s)) <$> handle_all waiting_run initServer.
Example waiting_replies : waiting_out =
  Some [(0%nat, ReplyInt 3); (1%nat, ReplyBulk (Some (str "z"))); (2%nat, ReplyMulti [str "a"; str "x"]); (3%nat, ReplyMulti [str "c"; str "z"]);
        (0%nat, ReplyInt 0); (0%nat, ReplyMulti [str "a"; str "12"])].
Proof. vm_compute. reflexivity. Qed.

Lemma list_commands_refine_witness : run_ok waiting_run initServer /\
  exists s a, @handle_all unit listobj (encoded 512 64 (fun _ => 0)) waiting_run initServer = Some s /\ handle_all waiting_run initServer = Some a /\
    env_of s = env_of a /\ forall k, value_is unit (db s !! k) (db a !! k).
Proof. split; [exact waiting_run_ok|]. apply (list_commands_refine unit 512 64 (fun _ => 0) ltac:(lia) 64 ltac:(lia) ltac:(lia) ltac:(lia) ltac:(lia) waiting_run waiting_run_ok). Defined.

Lemma no_waiter_beside_data_witness : run_ok waiting_run initServer /\
  exists s : server (T := unit) (Obj := listobj), @handle_all unit listobj (encoded 512 64 (fun _ => 0)) waiting_run initServer = Some s /\ e_ready_keys (env_of s) = [].
Proof.
  split; [exact waiting_run_ok|].
  destruct (no_waiter_beside_data unit 512 64 (fun _ => 0) ltac:(lia) 64 ltac:(lia) ltac:(lia) ltac:(lia) ltac:(lia) waiting_run waiting_run_ok) as (s & Hs & Hr & _).
  exists s. split; [exact Hs|exact Hr].
Defined.

(** Three clients wait, and two elements come. *)
Definition three_waiting : list event :=
  [Connect 0; Connect 1; Connect 2; Connect 3; Command 1%nat (BRPOP [str "a"] (RInt 0)); Command 2%nat (BLPOP [str "a"] (RInt 0)); Command 3%nat (BLPOP [str "a"] (RInt 0))]%nat.

Lemma three_waiting_ok : run_ok three_waiting initServer.
Proof. apply (bool_decide_unpack _). vm_compute. exact I. Qed.

Definition three : aserver := default initServer (handle_all three_waiting initServer).
Lemma three_settled : settled three.
Proof.
  destruct (handle_all_ok three_waiting initServer init_settled three_waiting_ok) as (s & E & Hs). unfold three. rewrite E. exact Hs.
Qed.
Lemma three_clients c : c ∈ [1; 2; 3]%nat -> exists x, e_clients (env_of three) !! c = Some x /\ c_target x = None.
Proof. intros Hc%list_elem_of_In. destruct Hc as [<-|[<-|[<-|[] ] ] ]; (eexists; split; [vm_compute; reflexivity|reflexivity]). Qed.

Lemma waiters_served_in_order_witness : exists s',
  handle (Command 0%nat (push_command TAIL (str "a") [RRaw (str "x"); RRaw (str "y")])) three = Some s' /\
  e_out (env_of s') = [(0%nat, ReplyInt 2); (1%nat, ReplyMulti [str "a"; str "y"]); (2%nat, ReplyMulti [str "a"; str "x"])] /\
  e_blocking (env_of s') !! str "a" = Some [3%nat] /\ db s' !! str "a" = None.
Proof.
  pose proof (waiters_served_in_order three 0%nat TAIL (str "a") [RRaw (str "x"); RRaw (str "y")] [1; 2; 3]%nat three_settled ltac:(vm_compute; reflexivity) ltac:(discriminate)
    ltac:(vm_compute; reflexivity) ltac:(vm_compute; reflexivity) three_clients) as H.
  assert (in_order (T := unit) (e_clients (env_of three)) (str "a") [1; 2; 3]%nat (pushed TAIL [RRaw (str "x"); RRaw (str "y")]) =
    ([(1%nat, ReplyMulti [str "a"; str "y"]); (2%nat, ReplyMulti [str "a"; str "x"])], [PCommand (RPOP (str "a")); PCommand (LPOP (str "a"))], [3%nat], [])) as E by (vm_compute; reflexivity).
  rewrite E in H. destruct H as (s' & H1 & H2 & H3 & H4 & _). exists s'. split; [exact H1|]. split; [rewrite H2; vm_compute; reflexivity|]. split; [exact H3|exact H4].
Defined.

(** *** What the code does not do *)

(** unblockClientWaitingData appends a client that is in unblocked_clients already; freeClient takes one of the entries away, and beforeSleep meets the freed client. *)
Definition double_unblocked : list event :=
  [Connect 0; Connect 1; Command 1%nat (BLPOP [str "a"] (RInt 0)); Command 0%nat (RPUSH (str "a") [RRaw (str "x")]);
   Command 1%nat (BLPOP [str "a"] (RInt 0)); Command 0%nat (RPUSH (str "a") [RRaw (str "y")]); Free 1]%nat.
Example unblocked_twice : (fun s : aserver => (e_unblocked (env_of s), e_clients (env_of s) !! 1%nat)) <$> handle_all double_unblocked initServer = Some ([1%nat], None) /\
  handle_all (Obj := list text) (double_unblocked ++ [BeforeSleep]) initServer = None.
Proof. vm_compute. split; reflexivity. Qed.

(** The index of LINDEX is an int for ziplistIndex: 2^32 is the first element. *)
Example lindex_truncated : (fun s : server (T := unit) (Obj := listobj) => e_out (env_of s)) <$>
    @handle_all unit listobj (encoded 512 64 (fun _ => 0)) [Connect 0; Command 0 (RPUSH (str "a") [RRaw (str "x")]); Command 0 (LINDEX (str "a") (RInt 4294967296))]%nat initServer =
  Some [(0%nat, ReplyInt 1); (0%nat, ReplyBulk (Some (str "x")))].
Proof. vm_compute. reflexivity. Qed.

(** The negation of the smallest count of LREM overflows. *)
Example lrem_overflow :
  @handle_all unit listobj (encoded 512 64 (fun _ => 0)) [Connect 0; Command 0 (RPUSH (str "a") [RRaw (str "x")]); Command 0 (LREM (str "a") (RInt LLONG_MIN) (RRaw (str "x")))]%nat initServer = None.
Proof. vm_compute. reflexivity. Qed.

(** So does the time at which the longest time-out ends. *)
Example timeout_overflow :
  handle_all (T := unit) (Obj := list text) [Connect 0; Cron 1 0; Command 0 (BLPOP [str "a"] (RInt LLONG_MAX))]%nat initServer = None.
Proof. vm_compute. reflexivity. Qed.

(** The time-out of a client ends after its second, not in it. *)
Definition timed (now : Z) : option (list (nat * reply)) :=
  (fun s : aserver => e_out (env_of s)) <$> handle_all [Connect 0; Command 0 (BLPOP [str "a"] (RInt 5)); Cron now 0]%nat initServer.
Example timeout_strict : timed 5 = Some [] /\ timed 6 = Some [(0%nat, ReplyNullMulti)].
Proof. vm_compute. split; reflexivity. Qed.
End Examples.
End ListCommands.
