(* ===== verification/Rdb.v ===== *)
(** * rdb.c: the snapshot file

    Model of the encodings of [src/debug/redis/src/rdb.c] and of rdbSave and rdbLoad, over the
    streams of rio.c and the checksum of [Crc64].  Values are string objects, lists (ziplist or
    linked list), sets ([SetType]) and hashes ([HashType]); sorted sets are not modelled.  A
    dictionary is saved in the order of its iterator.

    The environment of a save is explicit: which writes fail and after how many bytes, the
    addresses and the uninitialized memory the compressor sees, how much reaches the disk when the
    file is flushed and closed, whether rename works.  [None] is a
    failing assert, a panic or an access out of bounds.

    [rdb_roundtrip]: what rdbSave writes, rdbLoad reads back, whatever the encodings of the
    values and of the strings in the file; [rdb_reports_errors]: a failing write is reported, except
    where [length_write_error_lost], [checksum_write_error_lost] and [flush_error_lost] show that
    it is not. *)

From Stdlib Require Import ZArith Lia.
From stdpp Require Import prelude list gmap strings numbers.
From S2P Require Import Prelude.
From S2P Require Import Crc64.
From S2P Require Import Intset.
From S2P Require Import Util.
From S2P Require Import Dict.
From S2P Require Import Ziplist.
From S2P Require Import Lzf.
From S2P Require Import SetType.
From S2P Require Import HashType.

Local Open Scope Z_scope.

Module Rdb.

Import SetType(robj(..), robj, decoded, robj_ok, tryObjectEncoding, isObjectRepresentableAsLongLong).

Definition REDIS_RDB_VERSION : Z := 6.
Definition REDIS_RDB_6BITLEN : Z := 0.
Definition REDIS_RDB_14BITLEN : Z := 1.
Definition REDIS_RDB_32BITLEN : Z := 2.
Definition REDIS_RDB_ENCVAL : Z := 3.
Definition REDIS_RDB_LENERR : Z := 2 ^ 32 - 1.
Definition REDIS_RDB_ENC_INT8 : Z := 0.
Definition REDIS_RDB_ENC_INT16 : Z := 1.
Definition REDIS_RDB_ENC_INT32 : Z := 2.
Definition REDIS_RDB_ENC_LZF : Z := 3.
Definition REDIS_RDB_TYPE_STRING : Z := 0.
Definition REDIS_RDB_TYPE_LIST : Z := 1.
Definition REDIS_RDB_TYPE_SET : Z := 2.
Definition REDIS_RDB_TYPE_HASH : Z := 4.
Definition REDIS_RDB_TYPE_LIST_ZIPLIST : Z := 10.
Definition REDIS_RDB_TYPE_SET_INTSET : Z := 11.
Definition REDIS_RDB_TYPE_HASH_ZIPLIST : Z := 13.
Definition REDIS_RDB_OPCODE_EXPIRETIME_MS : Z := 252.
Definition REDIS_RDB_OPCODE_EXPIRETIME : Z := 253.
Definition REDIS_RDB_OPCODE_SELECTDB : Z := 254.
Definition REDIS_RDB_OPCODE_EOF : Z := 255.

(** ** Objects *)

Inductive listobj := LZIPLIST (zl : list Z) | LINKEDLIST (l : list robj).
Inductive robject :=
  | OString (o : robj)
  | OList (l : listobj)
  | OSet (s : SetType.setobj)
  | OHash (h : HashType.hashobj).

(** The loop of listTypeConvert from the entry at [p] on. *)
Fixpoint list_convert_loop (fuel : nat) (zl : list Z) (p : option Z) (l : list robj) : option (list robj) :=
  match fuel with
  | O => None
  | S fuel =>
    match p with
    | None => Some l
    | Some p =>
      v ← Ziplist.ziplistGet zl (Some p); v ← v;
      next ← Ziplist.ziplistNext zl p;
      list_convert_loop fuel zl next (l ++ [HashType.zval_object v])
    end
  end.

(** listTypeConvert to REDIS_ENCODING_LINKEDLIST *)
Definition listTypeConvert (subject : listobj) : option listobj :=
  match subject with
  | LINKEDLIST _ => None
  | LZIPLIST zl =>
    p ← Ziplist.ziplistIndex zl 0;
    l ← list_convert_loop (S (length zl)) zl p []; Some (LINKEDLIST l)
  end.

(** The memory of an intset: the two words of its header, then the elements. *)
Definition intset_blob (iset : Intset.intset) : list Z :=
  le_encode 4 (Intset.encoding iset) ++ le_encode 4 (Intset.len iset) ++ Intset.contents iset.
Definition blob_intset (m : list Z) : option Intset.intset :=
  enc ← load m 0 4; len ← load m 4 4; Some (Intset.mkIntset (le_decode enc) (le_decode len) (drop 8 m)).

Section Rdb.
Context (hash_seed : Z).
(** The configuration of the server. *)
Context (set_max_intset_entries hash_max_ziplist_entries hash_max_ziplist_value list_max_ziplist_entries list_max_ziplist_value : Z).
Context (dict_can_resize : bool).
Context (rdb_compression rdb_checksum : bool).
(** Uninitialized memory, the addresses in the table of the compressor and the address of a string. *)
Context (junk : nat -> Z) (htab0 : Z -> Z) (base : Z).

(** ** Writing *)

(** Write number [k] fails after some bytes, or not. *)
Context (fails : nat -> option nat).

(** A file that is written: its contents, the number of writes and the checksum. *)
Record wrio := mkW { wout : list Z; wcount : nat; wcksum : Z }.
Abbreviation rio := (option wrio).    (* None is NULL *)

(** rioWrite on a file; fwrite of no bytes returns 0. *)
Definition rioWrite (r : wrio) (buf : list Z) : wrio * bool :=
  let cksum := if rdb_checksum then Crc64.crc64 (wcksum r) buf else wcksum r in
  match fails (wcount r) with
  | Some j => (mkW (wout r ++ take j buf) (S (wcount r)) cksum, false)
  | None => (mkW (wout r ++ buf) (S (wcount r)) cksum, match buf with [] => false | _ => true end)
  end.

Definition rdbWriteRaw (rdb : rio) (p : list Z) : rio * Z :=
  match rdb with
  | None => (None, swrap 32 (zlen p))
  | Some r => let '(r, ok) := rioWrite r p in (Some r, if ok then swrap 32 (zlen p) else -1)
  end.

(** [if ((n = f) == -1) return -1; nwritten += n; ...] *)
Definition andthen (f : option (rio * Z)) (nwritten : Z) (k : rio -> Z -> option (rio * Z)) : option (rio * Z) :=
  '(rdb, n) ← f; if n =? -1 then Some (rdb, -1) else k rdb (swrap 32 (nwritten + n)).

Definition rdbSaveType (rdb : rio) (type : Z) : rio * Z := rdbWriteRaw rdb [uwrap 8 type].

Definition rdbSaveMillisecondTime (rdb : rio) (t : Z) : rio * Z := rdbWriteRaw rdb (le_encode 8 t).

(** The test of the last write compares with -4. *)
Definition rdbSaveLen (rdb : rio) (len : Z) : rio * Z :=
  if len <? 2 ^ 6 then
    let '(rdb, n) := rdbWriteRaw rdb [Z.lor (Z.land len 255) (Z.shiftl REDIS_RDB_6BITLEN 6)] in
    (rdb, if n =? -1 then -1 else 1)
  else if len <? 2 ^ 14 then
    let '(rdb, n) := rdbWriteRaw rdb [Z.lor (Z.land (Z.shiftr len 8) 255) (Z.shiftl REDIS_RDB_14BITLEN 6); Z.land len 255] in
    (rdb, if n =? -1 then -1 else 2)
  else
    let '(rdb, n) := rdbWriteRaw rdb [Z.shiftl REDIS_RDB_32BITLEN 6] in
    if n =? -1 then (rdb, -1)
    else
      let '(rdb, n) := rdbWriteRaw rdb (rev (le_encode 4 len)) in      (* htonl *)
      (rdb, if n =? -4 then -1 else 5).

(** The bytes; none when the integer does not fit. *)
Definition rdbEncodeInteger (value : Z) : list Z :=
  if (- 2 ^ 7 <=? value) && (value <=? 2 ^ 7 - 1) then
    [Z.lor (Z.shiftl REDIS_RDB_ENCVAL 6) REDIS_RDB_ENC_INT8; Z.land value 255]
  else if (- 2 ^ 15 <=? value) && (value <=? 2 ^ 15 - 1) then
    [Z.lor (Z.shiftl REDIS_RDB_ENCVAL 6) REDIS_RDB_ENC_INT16; Z.land value 255; Z.land (Z.shiftr value 8) 255]
  else if (- 2 ^ 31 <=? value) && (value <=? 2 ^ 31 - 1) then
    [Z.lor (Z.shiftl REDIS_RDB_ENCVAL 6) REDIS_RDB_ENC_INT32; Z.land value 255; Z.land (Z.shiftr value 8) 255;
     Z.land (Z.shiftr value 16) 255; Z.land (Z.shiftr value 24) 255]
  else [].

(** A string ends with a NUL behind its bytes; a block that is saved raw does not start with a digit,
    a sign or a space followed by one. *)
Definition rdbTryIntegerEncoding (s : list Z) : list Z :=
  let '(value, endptr, _) := HashType.strtoll s in
  if negb (HashType.char endptr =? 0) then []
  else if bool_decide (Util.ll2string_chars value = s) then rdbEncodeInteger value
  else [].

Definition rdbSaveLzfStringObject (rdb : rio) (s : list Z) : option (rio * Z) :=
  let len := zlen s in
  if len <=? 4 then Some (rdb, 0)
  else
    let outlen := len - 4 in
    match Lzf.lzf_compress base s htab0 (junk <$> seq 0 (Z.to_nat (outlen + 1))) outlen with
    | Ok (comprlen, out) =>
      if comprlen =? 0 then Some (rdb, 0)
      else
        andthen (Some (rdbWriteRaw rdb [Z.lor (Z.shiftl REDIS_RDB_ENCVAL 6) REDIS_RDB_ENC_LZF])) 0 (fun rdb nwritten =>
        andthen (Some (rdbSaveLen rdb comprlen)) nwritten (fun rdb nwritten =>
        andthen (Some (rdbSaveLen rdb len)) nwritten (fun rdb nwritten =>
        andthen (Some (rdbWriteRaw rdb (take (Z.to_nat comprlen) out))) nwritten (fun rdb nwritten =>
        Some (rdb, nwritten)))))
    | _ => None
    end.

Definition rdbSaveRawString (rdb : rio) (s : list Z) : option (rio * Z) :=
  let len := zlen s in
  let verbatim (rdb : rio) :=
    andthen (Some (rdbSaveLen rdb len)) 0 (fun rdb nwritten =>
    if 0 <? len then
      let '(rdb, n) := rdbWriteRaw rdb s in Some (rdb, if n =? -1 then -1 else swrap 32 (nwritten + len))
    else Some (rdb, nwritten)) in
  let buf := if len <=? 11 then rdbTryIntegerEncoding s else [] in
  if 0 <? zlen buf then
    Some (let '(rdb, n) := rdbWriteRaw rdb buf in (rdb, if n =? -1 then -1 else zlen buf))
  else if rdb_compression && (20 <? len) then
    '(rdb, n) ← rdbSaveLzfStringObject rdb s;
    if n =? -1 then Some (rdb, -1) else if 0 <? n then Some (rdb, n) else verbatim rdb
  else verbatim rdb.

Definition rdbSaveLongLongAsStringObject (rdb : rio) (value : Z) : option (rio * Z) :=
  let buf := rdbEncodeInteger value in
  if 0 <? zlen buf then Some (rdbWriteRaw rdb buf)
  else
    let buf := Util.ll2string_chars value in
    if zlen buf <? 32 then
      andthen (Some (rdbSaveLen rdb (zlen buf))) 0 (fun rdb nwritten =>
      andthen (Some (rdbWriteRaw rdb buf)) nwritten (fun rdb nwritten => Some (rdb, nwritten)))
    else None.

Definition rdbSaveStringObject (rdb : rio) (obj : robj) : option (rio * Z) :=
  match obj with RInt v => rdbSaveLongLongAsStringObject rdb v | RRaw s => rdbSaveRawString rdb s end.

Definition object_type (o : robject) : Z :=
  match o with
  | OString _ => REDIS_RDB_TYPE_STRING
  | OList (LZIPLIST _) => REDIS_RDB_TYPE_LIST_ZIPLIST
  | OList (LINKEDLIST _) => REDIS_RDB_TYPE_LIST
  | OSet (SetType.INTSET _) => REDIS_RDB_TYPE_SET_INTSET
  | OSet (SetType.HT _) => REDIS_RDB_TYPE_SET
  | OHash (HashType.ZIPLIST _) => REDIS_RDB_TYPE_HASH_ZIPLIST
  | OHash (HashType.HT _) => REDIS_RDB_TYPE_HASH
  end.
Definition rdbSaveObjectType (rdb : rio) (o : robject) : rio * Z := rdbSaveType rdb (object_type o).

(** The elements of a linked list. *)
Fixpoint save_list (rdb : rio) (l : list robj) (nwritten : Z) : option (rio * Z) :=
  match l with
  | [] => Some (rdb, nwritten)
  | ele :: l => andthen (rdbSaveStringObject rdb ele) nwritten (fun rdb nwritten => save_list rdb l nwritten)
  end.

(** The entries that the iterator returns, each saved by [save]. *)
Fixpoint save_dict {V} (save : rio -> Dict.dictEntry -> Z -> (rio -> Z -> option (rio * Z)) -> option (rio * Z)) (fuel : nat)
    (d : Dict.dict (K := list Z) (V := V)) (di : Dict.dictIterator) (rdb : rio) (nwritten : Z) : option (rio * Z) :=
  match fuel with
  | O => None
  | S fuel =>
    '(de, di) ← Dict.dictNext (Dict.max_buckets d) d di;
    match de with
    | None => Some (rdb, nwritten)
    | Some de => save rdb de nwritten (fun rdb nwritten => save_dict save fuel d di rdb nwritten)
    end
  end.

Definition save_set_entry (rdb : rio) (de : Dict.dictEntry (K := list Z) (V := unit)) (nwritten : Z) (k : rio -> Z -> option (rio * Z)) :=
  andthen (rdbSaveStringObject rdb (RRaw (Dict.key de))) nwritten k.
Definition save_hash_entry (rdb : rio) (de : Dict.dictEntry (K := list Z) (V := robj)) (nwritten : Z) (k : rio -> Z -> option (rio * Z)) :=
  andthen (rdbSaveStringObject rdb (RRaw (Dict.key de))) nwritten (fun rdb nwritten =>
  andthen (rdbSaveStringObject rdb (Dict.val de)) nwritten k).

Definition dict_fuel {V} (d : Dict.dict (K := list Z) (V := V)) : nat := S (Z.to_nat (Dict.dictSize d)).

(** A ziplist is saved as the string of its zlbytes bytes. *)
Definition save_ziplist (rdb : rio) (zl : list Z) : option (rio * Z) :=
  l ← Ziplist.ziplistBlobLen zl; s ← load zl 0 l;
  andthen (rdbSaveRawString rdb s) 0 (fun rdb nwritten => Some (rdb, nwritten)).

Definition rdbSaveObject (rdb : rio) (o : robject) : option (rio * Z) :=
  match o with
  | OString o => andthen (rdbSaveStringObject rdb o) 0 (fun rdb nwritten => Some (rdb, nwritten))
  | OList (LZIPLIST zl) => save_ziplist rdb zl
  | OList (LINKEDLIST l) =>
    andthen (Some (rdbSaveLen rdb (zlen l))) 0 (fun rdb nwritten => save_list rdb l nwritten)
  | OSet (SetType.HT d) =>
    andthen (Some (rdbSaveLen rdb (Dict.dictSize d))) 0 (fun rdb nwritten =>
    save_dict save_set_entry (dict_fuel d) d Dict.dictGetIterator rdb nwritten)
  | OSet (SetType.INTSET iset) =>
    s ← load (intset_blob iset) 0 (Intset.intsetBlobLen iset);
    andthen (rdbSaveRawString rdb s) 0 (fun rdb nwritten => Some (rdb, nwritten))
  | OHash (HashType.ZIPLIST zl) => save_ziplist rdb zl
  | OHash (HashType.HT d) =>
    andthen (Some (rdbSaveLen rdb (Dict.dictSize d))) 0 (fun rdb nwritten =>
    save_dict save_hash_entry (dict_fuel d) d Dict.dictGetIterator rdb nwritten)
  end.

(** The assertion that the length is not -1. *)
Definition rdbSavedObjectLen (o : robject) : option Z :=
  '(_, len) ← rdbSaveObject None o; if len =? -1 then None else Some len.

(** An expire time of -1 is none. *)
Definition rdbSaveKeyValuePair (rdb : rio) (key : list Z) (val : robject) (expiretime now : Z) : option (rio * Z) :=
  let save (rdb : rio) :=
    let '(rdb, n) := rdbSaveObjectType rdb val in
    if n =? -1 then Some (rdb, -1)
    else
      '(rdb, n) ← rdbSaveStringObject rdb (RRaw key);
      if n =? -1 then Some (rdb, -1)
      else
        '(rdb, n) ← rdbSaveObject rdb val;
        if n =? -1 then Some (rdb, -1) else Some (rdb, 1) in
  if negb (expiretime =? -1) then
    if expiretime <? now then Some (rdb, 0)
    else
      let '(rdb, n) := rdbSaveType rdb REDIS_RDB_OPCODE_EXPIRETIME_MS in
      if n =? -1 then Some (rdb, -1)
      else
        let '(rdb, n) := rdbSaveMillisecondTime rdb expiretime in
        if n =? -1 then Some (rdb, -1) else save rdb
  else save rdb.

(** A database: the keys with their values in the order of the iterator, and the expire times. *)
Record redisDb := mkDb { db_dict : list (list Z * robject); db_expires : gmap (list Z) Z }.

Definition getExpire (db : redisDb) (key : list Z) : Z := default (-1) (db_expires db !! key).

(** The booleans tell whether no write failed. *)
Fixpoint save_entries (rdb : rio) (db : redisDb) (now : Z) (l : list (list Z * robject)) : option (rio * bool) :=
  match l with
  | [] => Some (rdb, true)
  | (key, o) :: l =>
    '(rdb, n) ← rdbSaveKeyValuePair rdb key o (getExpire db key) now;
    if n =? -1 then Some (rdb, false) else save_entries rdb db now l
  end.

Fixpoint save_dbs (rdb : rio) (now : Z) (j : Z) (dbs : list redisDb) : option (rio * bool) :=
  match dbs with
  | [] => Some (rdb, true)
  | db :: dbs =>
    if zlen (db_dict db) =? 0 then save_dbs rdb now (j + 1) dbs
    else
      let '(rdb, n) := rdbSaveType rdb REDIS_RDB_OPCODE_SELECTDB in
      if n =? -1 then Some (rdb, false)
      else
        let '(rdb, n) := rdbSaveLen rdb j in
        if n =? -1 then Some (rdb, false)
        else
          '(rdb, ok) ← save_entries rdb db now (db_dict db);
          if ok : bool then save_dbs rdb now (j + 1) dbs else Some (rdb, false)
  end.

(** stdio buffers what is written.  The final fflush, fsync and fclose: they work, or only so many
    bytes of the file reach the disk. *)
Definition reaches_disk (flush : option nat) (file : list Z) : list Z :=
  match flush with None => file | Some n => take n file end.

(** rdbSave once the temporary file is open: the contents that rename installs; [None] inside is
    REDIS_ERR.  The results of the write of the checksum, of fflush, of fsync and of fclose are not
    tested. *)
Definition rdbSave (dbs : list redisDb) (now : Z) (flush : option nat) (rename_ok : bool) : option (option (list Z)) :=
  let '(rdb, n) := rdbWriteRaw (Some (mkW [] 0 0)) (str "REDIS0006") in
  if n =? -1 then Some None
  else
    '(rdb, ok) ← save_dbs rdb now 0 dbs;
    if negb ok then Some None
    else
      let '(rdb, n) := rdbSaveType rdb REDIS_RDB_OPCODE_EOF in
      if n =? -1 then Some None
      else
        r ← rdb;
        let '(r, _) := rioWrite r (le_encode 8 (wcksum r)) in
        Some (if rename_ok then Some (reaches_disk flush (wout r)) else None).

(** ** Reading *)

(** A file that is read: what is left of it and the checksum. *)
Record rrio := mkR { rin : list Z; rcksum : Z }.

(** rioRead on a file: [None] is 0; fread of no bytes returns 0. *)
Definition rioRead (r : rrio) (n : Z) : option (list Z * rrio) :=
  if (0 <? n) && (n <=? zlen (rin r)) then
    let s := take (Z.to_nat n) (rin r) in
    Some (s, mkR (drop (Z.to_nat n) (rin r)) (if rdb_checksum then Crc64.crc64 (rcksum r) s else rcksum r))
  else None.

(** NULL or -1 is [LErr]; a failing assert or a panic is [LFault]; [LUnmodelled] is the value of a
    type that the model leaves out. *)
Inductive res (A : Type) := LOk (a : A) (r : rrio) | LErr | LFault | LUnmodelled.
#[global] Arguments LOk {A}. #[global] Arguments LErr {A}. #[global] Arguments LFault {A}. #[global] Arguments LUnmodelled {A}.

Definition bind_res {A B} (m : res A) (k : A -> rrio -> res B) : res B :=
  match m with LOk a r => k a r | LErr => LErr | LFault => LFault | LUnmodelled => LUnmodelled end.
Definition must {A B} (m : option A) (k : A -> res B) : res B := match m with Some a => k a | None => LFault end.
Definition read {B} (r : rrio) (n : Z) (k : list Z -> rrio -> res B) : res B :=
  match rioRead r n with Some (s, r) => k s r | None => LErr end.

Definition byte (i : nat) (s : list Z) : Z := nth i s 0.

Definition rdbLoadType (rdb : rrio) : res Z := read rdb 1 (fun s rdb => LOk (byte 0 s) rdb).
Definition rdbLoadTime (rdb : rrio) : res Z := read rdb 4 (fun s rdb => LOk (swrap 32 (le_decode s)) rdb).
Definition rdbLoadMillisecondTime (rdb : rrio) : res Z := read rdb 8 (fun s rdb => LOk (swrap 64 (le_decode s)) rdb).

(** The length and [isencoded]. *)
Definition rdbLoadLen (rdb : rrio) : Z * bool * rrio :=
  match rioRead rdb 1 with
  | None => (REDIS_RDB_LENERR, false, rdb)
  | Some (buf, rdb) =>
    let b := byte 0 buf in
    let type := Z.shiftr (Z.land b 192) 6 in
    if type =? REDIS_RDB_ENCVAL then (Z.land b 63, true, rdb)
    else if type =? REDIS_RDB_6BITLEN then (Z.land b 63, false, rdb)
    else if type =? REDIS_RDB_14BITLEN then
      match rioRead rdb 1 with
      | None => (REDIS_RDB_LENERR, false, rdb)
      | Some (buf, rdb) => (Z.lor (Z.shiftl (Z.land b 63) 8) (byte 0 buf), false, rdb)
      end
    else
      match rioRead rdb 4 with
      | None => (REDIS_RDB_LENERR, false, rdb)
      | Some (buf, rdb) => (le_decode (rev buf), false, rdb)      (* ntohl *)
      end
  end.

(** [if ((len = rdbLoadLen(rdb,NULL)) == REDIS_RDB_LENERR) return NULL] *)
Definition load_len {B} (rdb : rrio) (k : Z -> rrio -> res B) : res B :=
  let '(len, _, rdb) := rdbLoadLen rdb in if len =? REDIS_RDB_LENERR then LErr else k len rdb.

Definition rdbLoadIntegerObject (rdb : rrio) (enctype : Z) (encode : bool) : res robj :=
  let object (val : Z) := if encode then HashType.createStringObjectFromLongLong val else RRaw (Util.ll2string_chars val) in
  if enctype =? REDIS_RDB_ENC_INT8 then
    read rdb 1 (fun enc rdb => LOk (object (swrap 8 (byte 0 enc))) rdb)
  else if enctype =? REDIS_RDB_ENC_INT16 then
    read rdb 2 (fun enc rdb => LOk (object (swrap 16 (Z.lor (byte 0 enc) (Z.shiftl (byte 1 enc) 8)))) rdb)
  else if enctype =? REDIS_RDB_ENC_INT32 then
    read rdb 4 (fun enc rdb =>
      LOk (object (swrap 32 (Z.lor (Z.lor (Z.lor (byte 0 enc) (Z.shiftl (byte 1 enc) 8)) (Z.shiftl (byte 2 enc) 16)) (Z.shiftl (byte 3 enc) 24)))) rdb)
  else LFault.

Definition rdbLoadLzfStringObject (rdb : rrio) : res robj :=
  load_len rdb (fun clen rdb =>
  load_len rdb (fun len rdb =>
  read rdb clen (fun c rdb =>
    match Lzf.lzf_decompress c (replicate (Z.to_nat len) 0) with
    | Ok (inl n, val) => if n =? 0 then LErr else LOk (RRaw val) rdb
    | Ok (inr _, _) => LErr
    | _ => LFault
    end))).

Definition rdbGenericLoadStringObject (rdb : rrio) (encode : bool) : res robj :=
  let '(len, isencoded, rdb) := rdbLoadLen rdb in
  if isencoded : bool then
    if (len =? REDIS_RDB_ENC_INT8) || (len =? REDIS_RDB_ENC_INT16) || (len =? REDIS_RDB_ENC_INT32) then rdbLoadIntegerObject rdb len encode
    else if len =? REDIS_RDB_ENC_LZF then rdbLoadLzfStringObject rdb
    else LFault
  else if len =? REDIS_RDB_LENERR then LErr
  else if len =? 0 then LOk (RRaw []) rdb
  else read rdb len (fun val rdb => LOk (RRaw val) rdb).

Definition rdbLoadStringObject (rdb : rrio) : res robj := rdbGenericLoadStringObject rdb false.
Definition rdbLoadEncodedStringObject (rdb : rrio) : res robj := rdbGenericLoadStringObject rdb true.

(** The loop over the elements of a list. *)
Fixpoint load_list (len : nat) (rdb : rrio) (o : listobj) : res listobj :=
  match len with
  | O => LOk o rdb
  | S len =>
    bind_res (rdbLoadEncodedStringObject rdb) (fun ele rdb =>
    must (match o, ele with
          | LZIPLIST _, RRaw s => if list_max_ziplist_value <? zlen s then listTypeConvert o else Some o
          | _, _ => Some o
          end) (fun o =>
    match o with
    | LZIPLIST zl =>
      must (Ziplist.ziplistPush junk zl (decoded ele) Ziplist.ZIPLIST_TAIL) (fun zl => load_list len rdb (LZIPLIST zl))
    | LINKEDLIST l => load_list len rdb (LINKEDLIST (l ++ [tryObjectEncoding ele]))
    end))
  end.

(** The loop over the elements of a set; the result of dictAdd is not tested.  [n] is the length
    that was announced. *)
Fixpoint load_set (len : nat) (n : Z) (rdb : rrio) (o : SetType.setobj) : res SetType.setobj :=
  match len with
  | O => LOk o rdb
  | S len =>
    bind_res (rdbLoadEncodedStringObject rdb) (fun ele rdb =>
    let ele := tryObjectEncoding ele in
    must (match o with
          | SetType.INTSET iset =>
            match isObjectRepresentableAsLongLong ele with
            | Some llval => r ← Intset.intsetAdd junk iset llval; Some (SetType.INTSET (fst r))
            | None =>
              o ← SetType.setTypeConvert hash_seed dict_can_resize o;
              match o with
              | SetType.HT d => r ← Dict.dictExpand d n; Some (SetType.HT (fst r))
              | SetType.INTSET _ => None
              end
            end
          | SetType.HT _ => Some o
          end) (fun o =>
    must (match o with
          | SetType.HT d => r ← Dict.dictAdd (SetType.hash hash_seed) dict_can_resize d (decoded ele) tt; Some (SetType.HT (fst r))
          | SetType.INTSET _ => Some o
          end) (fun o => load_set len n rdb o)))
  end.

(** The first loop over the pairs of a hash: the object and the number of pairs left. *)
Fixpoint load_hash_ziplist (len : nat) (rdb : rrio) (zl : list Z) : res (HashType.hashobj * nat) :=
  match len with
  | O => LOk (HashType.ZIPLIST zl, O) rdb
  | S len =>
    bind_res (rdbLoadStringObject rdb) (fun field rdb =>
    bind_res (rdbLoadStringObject rdb) (fun value rdb =>
    match field with
    | RInt _ => LFault
    | RRaw f =>
      must (Ziplist.ziplistPush junk zl f Ziplist.ZIPLIST_TAIL) (fun zl =>
      must (Ziplist.ziplistPush junk zl (decoded value) Ziplist.ZIPLIST_TAIL) (fun zl =>
      if (hash_max_ziplist_value <? zlen f) || (hash_max_ziplist_value <? zlen (decoded value)) then
        must (HashType.hashTypeConvert hash_seed dict_can_resize (HashType.ZIPLIST zl)) (fun o => LOk (o, len) rdb)
      else load_hash_ziplist len rdb zl))
    end))
  end.

Fixpoint load_hash_ht (len : nat) (rdb : rrio) (d : Dict.dict (K := list Z) (V := robj)) : res HashType.hashobj :=
  match len with
  | O => LOk (HashType.HT d) rdb
  | S len =>
    bind_res (rdbLoadEncodedStringObject rdb) (fun field rdb =>
    bind_res (rdbLoadEncodedStringObject rdb) (fun value rdb =>
    must (Dict.dictAdd (HashType.hash hash_seed) dict_can_resize d (decoded (tryObjectEncoding field)) (tryObjectEncoding value)) (fun r =>
    if snd r : bool then load_hash_ht len rdb (fst r) else LFault)))
  end.

(** The second loop, and the assertion that all pairs have been read. *)
Definition load_hash_rest (o : HashType.hashobj) (len : nat) (rdb : rrio) : res robject :=
  match o with
  | HashType.ZIPLIST _ => match len with O => LOk (OHash o) rdb | S _ => LFault end
  | HashType.HT d => bind_res (load_hash_ht len rdb d) (fun o rdb => LOk (OHash o) rdb)
  end.

(** A blob: the placeholder is a copy of the string. *)
Definition load_blob (rdb : rrio) (k : list Z -> option robject) : res robject :=
  bind_res (rdbLoadStringObject rdb) (fun aux rdb => must (k (decoded aux)) (fun o => LOk o rdb)).

Definition rdbLoadObject (rdbtype : Z) (rdb : rrio) : res robject :=
  if rdbtype =? REDIS_RDB_TYPE_STRING then
    bind_res (rdbLoadEncodedStringObject rdb) (fun o rdb => LOk (OString (tryObjectEncoding o)) rdb)
  else if rdbtype =? REDIS_RDB_TYPE_LIST then
    load_len rdb (fun len rdb =>
    let o := if list_max_ziplist_entries <? len then LINKEDLIST [] else LZIPLIST Ziplist.ziplistNew in
    bind_res (load_list (Z.to_nat len) rdb o) (fun o rdb => LOk (OList o) rdb))
  else if rdbtype =? REDIS_RDB_TYPE_SET then
    load_len rdb (fun len rdb =>
    must (if set_max_intset_entries <? len then
            if Dict.DICT_HT_INITIAL_SIZE <? len then r ← Dict.dictExpand Dict.dictCreate len; Some (SetType.HT (fst r))
            else Some (SetType.HT Dict.dictCreate)
          else Some (SetType.INTSET Intset.intsetNew)) (fun o =>
    bind_res (load_set (Z.to_nat len) len rdb o) (fun o rdb => LOk (OSet o) rdb)))
  else if rdbtype =? REDIS_RDB_TYPE_HASH then
    load_len rdb (fun len rdb =>
    let o := HashType.createHashObject in
    must (if hash_max_ziplist_entries <? len then HashType.hashTypeConvert hash_seed dict_can_resize o else Some o) (fun o =>
    bind_res (match o with
              | HashType.ZIPLIST zl => load_hash_ziplist (Z.to_nat len) rdb zl
              | HashType.HT _ => LOk (o, Z.to_nat len) rdb
              end) (fun '(o, len) rdb => load_hash_rest o len rdb)))
  else if rdbtype =? REDIS_RDB_TYPE_LIST_ZIPLIST then
    load_blob rdb (fun zl =>
      '(n, zl) ← Ziplist.ziplistLen zl;
      o ← (if list_max_ziplist_entries <? n then listTypeConvert (LZIPLIST zl) else Some (LZIPLIST zl)); Some (OList o))
  else if rdbtype =? REDIS_RDB_TYPE_SET_INTSET then
    load_blob rdb (fun m =>
      iset ← blob_intset m;
      o ← (if set_max_intset_entries <? Intset.intsetLen iset then SetType.setTypeConvert hash_seed dict_can_resize (SetType.INTSET iset)
           else Some (SetType.INTSET iset)); Some (OSet o))
  else if rdbtype =? REDIS_RDB_TYPE_HASH_ZIPLIST then
    load_blob rdb (fun zl =>
      '(o, n) ← HashType.hashTypeLength (HashType.ZIPLIST zl);
      o ← (if hash_max_ziplist_entries <? n then HashType.hashTypeConvert hash_seed dict_can_resize o else Some o); Some (OHash o))
  else if (rdbtype =? 3) || (rdbtype =? 9) || (rdbtype =? 12) then LUnmodelled
  else LFault.

(** What has been loaded: the values and the expire times by database and key. *)
Record loaded := mkLoaded { l_dict : gmap (Z * list Z) robject; l_expires : gmap (Z * list Z) Z }.

Inductive load_result := Loaded (l : loaded) | LoadErr | LoadExit | LoadFault | LoadUnmodelled.

(** server.dbnum, whether server.masterhost is NULL and mstime(). *)
Context (dbnum : Z) (master : bool) (now : Z).

(** dbAdd, which asserts that the key is new, and setExpire. *)
Definition add_key (l : loaded) (db : Z) (key : list Z) (val : robject) (expiretime : Z) : option loaded :=
  match l_dict l !! (db, key) with
  | Some _ => None
  | None => Some (mkLoaded (<[(db, key) := val]> (l_dict l))
                    (if expiretime =? -1 then l_expires l else <[(db, key) := expiretime]> (l_expires l)))
  end.

(** The type and the expire time in front of it, which is -1 when there is none. *)
Definition load_type (rdb : rrio) : res (Z * Z) :=
  bind_res (rdbLoadType rdb) (fun type rdb =>
  if type =? REDIS_RDB_OPCODE_EXPIRETIME then
    bind_res (rdbLoadTime rdb) (fun expiretime rdb =>
    if expiretime =? -1 then LErr
    else bind_res (rdbLoadType rdb) (fun type rdb => LOk (type, expiretime * 1000) rdb))
  else if type =? REDIS_RDB_OPCODE_EXPIRETIME_MS then
    bind_res (rdbLoadMillisecondTime rdb) (fun expiretime rdb =>
    if expiretime =? -1 then LErr
    else bind_res (rdbLoadType rdb) (fun type rdb => LOk (type, expiretime) rdb))
  else LOk (type, -1) rdb).

(** The main loop, for the database [db]. *)
Fixpoint load_loop (fuel : nat) (rdb : rrio) (db : Z) (l : loaded) : res loaded :=
  match fuel with
  | O => LFault
  | S fuel =>
    bind_res (load_type rdb) (fun '(type, expiretime) rdb =>
    if type =? REDIS_RDB_OPCODE_EOF then LOk l rdb
    else if type =? REDIS_RDB_OPCODE_SELECTDB then
      load_len rdb (fun dbid rdb => if dbnum <=? dbid then LErr else load_loop fuel rdb dbid l)
    else
      bind_res (rdbLoadStringObject rdb) (fun key rdb =>
      bind_res (rdbLoadObject type rdb) (fun val rdb =>
      if master && negb (expiretime =? -1) && (expiretime <? now) then load_loop fuel rdb db l
      else must (add_key l db (decoded key) val expiretime) (fun l => load_loop fuel rdb db l))))
  end.

(** rdbLoad of the contents of a file.  Every round of the loop reads at least one byte. *)
Definition rdbLoad (file : list Z) : load_result :=
  match rioRead (mkR file 0) 9 with
  | None => LoadExit
  | Some (buf, rdb) =>
    if negb (bool_decide (take 5 buf = str "REDIS")) then LoadErr
    else
      let rdbver := swrap 32 (fst (fst (HashType.strtoll (drop 5 buf)))) in      (* atoi *)
      if (rdbver <? 1) || (REDIS_RDB_VERSION <? rdbver) then LoadErr
      else
        match load_loop (S (length file)) rdb 0 (mkLoaded ∅ ∅) with
        | LOk l rdb =>
          if (5 <=? rdbver) && rdb_checksum then
            match rioRead rdb 8 with
            | None => LoadExit
            | Some (s, _) =>
              let cksum := le_decode s in
              if cksum =? 0 then Loaded l else if negb (cksum =? rcksum rdb) then LoadExit else Loaded l
            end
          else Loaded l
        | LErr => LoadExit
        | LFault => LoadFault
        | LUnmodelled => LoadUnmodelled
        end
  end.
(** ** Writing bytes and reading them back *)

(** All writes succeed, or no length takes the form of which an error is lost. *)
Definition len_ok (n : Z) : Prop := (forall k, fails k = None) \/ n < 2 ^ 14.

Definition checked (cksum : Z) (bs : list Z) : Z := if rdb_checksum then Crc64.crc64 cksum bs else cksum.
Definition extends (w : wrio) (bs : list Z) (w' : wrio) : Prop :=
  wout w' = wout w ++ bs /\ wcksum w' = checked (wcksum w) bs.

(** [bs] has been written and counted, or a failure is reported. *)
Definition wrote (w : wrio) (bs : list Z) (count : Z) (r : option (rio * Z)) : Prop :=
  exists w' n, r = Some (Some w', n) /\ ((n = count /\ extends w bs w') \/ (n = -1 /\ exists k, fails k <> None)).

Definition writes (f : rio -> option (rio * Z)) (bs : list Z) : Prop :=
  f None = Some (None, zlen bs) /\ forall w, wrote w bs (zlen bs) (f (Some w)).

(** The same for a function that adds to a count. *)
Definition appends (f : rio -> Z -> option (rio * Z)) (bs : list Z) : Prop :=
  forall nw, 0 <= nw -> nw + zlen bs < 2 ^ 31 ->
    f None nw = Some (None, nw + zlen bs) /\ forall w, wrote w bs (nw + zlen bs) (f (Some w) nw).

Lemma checked_app ck a b : checked (checked ck a) b = checked ck (a ++ b).
Proof. unfold checked. destruct rdb_checksum; [|done]. by rewrite Crc64.crc64_app. Qed.

Lemma extends_app w a w1 b w2 : extends w a w1 -> extends w1 b w2 -> extends w (a ++ b) w2.
Proof. intros [Ho Hc] [Ho' Hc']. split; [by rewrite Ho', Ho, app_assoc|by rewrite Hc', Hc, checked_app]. Qed.

Lemma appends_ret : appends (fun rdb nw => Some (rdb, nw)) [].
Proof.
  intros nw Hnw _. change (zlen (@nil Z)) with 0. rewrite Z.add_0_r. split; [done|]. intros w. exists w, nw. split; [done|]. left.
  split; [done|]. split; [by rewrite app_nil_r|]. unfold checked. by destruct rdb_checksum.
Qed.

Lemma andthen_ok f bs k bs' : writes f bs -> appends k bs' -> appends (fun rdb nw => andthen (f rdb) nw k) (bs ++ bs').
Proof.
  intros [Hf0 Hf] Hk nw Hnw Hb. rewrite zlen_app in Hb |- *. pose proof (zlen_nonneg bs). pose proof (zlen_nonneg bs').
  destruct (Hk (nw + zlen bs)) as [Hk0 Hk1]; [lia|lia|]. unfold andthen.
  assert (swrap 32 (nw + zlen bs) = nw + zlen bs) as Hs by (apply swrap_id; [done|unfold in_int; lia]). split.
  - rewrite Hf0. cbn [mbind option_bind]. destruct (Z.eqb_spec (zlen bs) (-1)); [lia|]. by rewrite Hs, Hk0, Z.add_assoc.
  - intros w. destruct (Hf w) as (w1 & n & -> & [[-> He]|[-> Hfail]]); cbn [mbind option_bind].
    + destruct (Z.eqb_spec (zlen bs) (-1)); [lia|]. rewrite Hs. destruct (Hk1 w1) as (w2 & m & -> & [[-> He2]|Hfail]).
      * exists w2, (nw + zlen bs + zlen bs'). split; [done|]. left. split; [lia|by eapply extends_app].
      * exists w2, m. split; [done|]. by right.
    + exists w1, (-1). split; [done|]. by right.
Qed.

Lemma andthen_last f bs : writes f bs -> appends (fun rdb nw => andthen (f rdb) nw (fun rdb nwritten => Some (rdb, nwritten))) bs.
Proof. intros Hf. rewrite <- (app_nil_r bs). apply (andthen_ok f bs _ [] Hf appends_ret). Qed.

(** A chain that starts from 0. *)
Lemma writes_0 f bs : appends f bs -> zlen bs < 2 ^ 31 -> writes (fun rdb => f rdb 0) bs.
Proof. intros Hf Hb. destruct (Hf 0) as [H0 H1]; [done|lia|]. rewrite Z.add_0_l in *. by split. Qed.

Ltac from_zero :=
  match goal with |- writes (fun rdb => andthen (@?f rdb) 0 ?k) ?bs => refine (writes_0 (fun rdb nw => andthen (f rdb) nw k) bs _ _) end.

Lemma rdbWriteRaw_ok bs : bs <> [] -> zlen bs < 2 ^ 31 -> writes (fun rdb => Some (rdbWriteRaw rdb bs)) bs.
Proof.
  intros Hne Hb. pose proof (zlen_nonneg bs). assert (swrap 32 (zlen bs) = zlen bs) as Hs by (apply swrap_id; [done|unfold in_int; lia]).
  split; [unfold rdbWriteRaw; by rewrite Hs|]. intros w. unfold rdbWriteRaw, rioWrite. rewrite Hs. destruct (fails (wcount w)) as [j|] eqn:Ef.
  - eexists _, _. split; [done|]. right. split; [done|]. exists (wcount w). by rewrite Ef.
  - destruct bs as [|b bs]; [done|]. eexists _, _. split; [done|]. by left.
Qed.

(** A single write of which the result is only tested. *)
Lemma one_write bs c : bs <> [] -> c = zlen bs -> zlen bs < 2 ^ 31 ->
  writes (fun rdb => Some (let '(rdb, n) := rdbWriteRaw rdb bs in (rdb, if n =? -1 then -1 else c))) bs.
Proof.
  intros Hne -> Hb. destruct (rdbWriteRaw_ok bs Hne Hb) as [_ H1]. pose proof (zlen_nonneg bs). split.
  - unfold rdbWriteRaw. rewrite swrap_id by (done || unfold in_int; lia). destruct (Z.eqb_spec (zlen bs) (-1)); [lia|done].
  - intros w. destruct (H1 w) as (w' & n & E & H'). assert (rdbWriteRaw (Some w) bs = (Some w', n)) as -> by congruence.
    eexists _, _. split; [done|]. destruct H' as [[-> He]|[-> Hf]].
    + left. destruct (Z.eqb_spec (zlen bs) (-1)); [lia|done].
    + by right.
Qed.

Lemma write_counted bs : bs <> [] -> zlen bs < 2 ^ 31 ->
  appends (fun rdb nw => let '(rdb, n) := rdbWriteRaw rdb bs in Some (rdb, if n =? -1 then -1 else swrap 32 (nw + zlen bs))) bs.
Proof.
  intros Hne Hl nw Hnw Hb. pose proof (zlen_nonneg bs). destruct (rdbWriteRaw_ok bs Hne Hl) as [_ Hw].
  assert (swrap 32 (nw + zlen bs) = nw + zlen bs) as Hs by (apply swrap_id; [done|unfold in_int; lia]). split.
  - unfold rdbWriteRaw. rewrite Hs, swrap_id by (done || unfold in_int; lia). destruct (Z.eqb_spec (zlen bs) (-1)); [lia|done].
  - intros w. destruct (Hw w) as (w' & n & E & H'). assert (rdbWriteRaw (Some w) bs = (Some w', n)) as -> by congruence.
    rewrite Hs. eexists _, _. split; [done|]. destruct H' as [[-> He]|[-> Hf]]; [left|by right].
    destruct (Z.eqb_spec (zlen bs) (-1)); [lia|done].
Qed.

Definition enc_len (n : Z) : list Z :=
  if n <? 2 ^ 6 then [n]
  else if n <? 2 ^ 14 then [64 + n / 256; n mod 256]
  else 128 :: rev (le_encode 4 n).

Lemma lor_high a b k : 0 <= k -> 0 <= a < 2 ^ k -> Z.lor a (Z.shiftl b k) = a + b * 2 ^ k.
Proof. intros Hk Ha. rewrite Z.lor_comm, Ziplist.lor_shiftl by done. apply Z.add_comm. Qed.

Lemma land_mod n k : 0 <= k -> Z.land n (2 ^ k - 1) = n mod 2 ^ k.
Proof. intros Hk. by rewrite <- Z.land_ones, Z.ones_equiv by done. Qed.

Lemma land_255 n : Z.land n 255 = n mod 256.
Proof. apply (land_mod n 8). lia. Qed.

Lemma zlen_le_encode n z : zlen (le_encode n z) = Z.of_nat n.
Proof. unfold zlen. by rewrite length_le_encode. Qed.

Lemma enc_len_size n : 1 <= zlen (enc_len n) <= 5.
Proof.
  unfold enc_len. destruct (n <? 2 ^ 6); [by vm_compute|]. destruct (n <? 2 ^ 14); [by vm_compute|].
  rewrite zlen_cons. unfold zlen. rewrite length_rev, length_le_encode. lia.
Qed.

Lemma rdbSaveLen_ok n : 0 <= n < 2 ^ 32 -> len_ok n -> writes (fun rdb => Some (rdbSaveLen rdb n)) (enc_len n).
Proof.
  intros Hn Hok. unfold rdbSaveLen, enc_len. destruct (Z.ltb_spec n (2 ^ 6)).
  - assert ([Z.lor (Z.land n 255) (Z.shiftl REDIS_RDB_6BITLEN 6)] = [n]) as ->.
    { rewrite land_255, Z.mod_small by lia. change (Z.shiftl REDIS_RDB_6BITLEN 6) with 0. by rewrite Z.lor_0_r. }
    apply one_write; [done|done|]. change (zlen [n]) with 1. lia.
  - destruct (Z.ltb_spec n (2 ^ 14)).
    + assert ([Z.lor (Z.land (Z.shiftr n 8) 255) (Z.shiftl REDIS_RDB_14BITLEN 6); Z.land n 255] = [64 + n / 256; n mod 256]) as ->.
      { rewrite !land_255, Z.shiftr_div_pow2 by lia. change (2 ^ 8) with 256. assert (0 <= n / 256 < 64).
        { split; [apply Z.div_pos; lia|]. apply Z.div_lt_upper_bound; lia. }
        rewrite Z.mod_small by lia. rewrite lor_high by lia. unfold REDIS_RDB_14BITLEN. f_equal. lia. }
      apply one_write; [done|done|]. change (zlen [64 + n / 256; n mod 256]) with 2. lia.
    + destruct Hok as [Hok|]; [|lia]. change (Z.shiftl REDIS_RDB_32BITLEN 6) with 128.
      assert (zlen (rev (le_encode 4 n)) = 4) as H4 by (unfold zlen; by rewrite length_rev, length_le_encode).
      split.
      * unfold rdbWriteRaw. rewrite H4, (zlen_cons 128 (rev _)), H4. done.
      * intros w. unfold rdbWriteRaw, rioWrite. rewrite Hok. change (swrap 32 (zlen [128]) =? -1) with false. cbv iota. cbn [wcount].
        rewrite Hok, H4. cbn [wout wcksum]. destruct (rev (le_encode 4 n)) as [|b bs] eqn:Er; [done|].
        eexists _, _. split; [done|]. left. rewrite zlen_cons, H4. split; [done|]. split; cbn [wout wcksum].
        -- by rewrite <- app_assoc.
        -- change (128 :: b :: bs) with ([128] ++ b :: bs). rewrite <- checked_app. unfold checked. by destruct rdb_checksum.
Qed.

(** *** Reading *)

(** [f] reads [bs] and returns a result that satisfies [P]. *)
Definition reads {A} (f : rrio -> res A) (bs : list Z) (P : A -> Prop) : Prop :=
  forall rest ck, exists a, f (mkR (bs ++ rest) ck) = LOk a (mkR rest (checked ck bs)) /\ P a.

Lemma rioRead_ok bs rest ck n : zlen bs = n -> 0 < n -> rioRead (mkR (bs ++ rest) ck) n = Some (bs, mkR rest (checked ck bs)).
Proof.
  intros Hl Hn. unfold rioRead. cbn [rin rcksum]. pose proof (zlen_nonneg rest).
  assert ((0 <? n) && (n <=? zlen (bs ++ rest)) = true) as -> by (rewrite zlen_app; lia).
  assert (Z.to_nat n = length bs) as -> by (unfold zlen in Hl; lia). by rewrite take_app_length, drop_app_length.
Qed.

Lemma read_ok {B} bs rest ck n (k : list Z -> rrio -> res B) : zlen bs = n -> 0 < n ->
  read (mkR (bs ++ rest) ck) n k = k bs (mkR rest (checked ck bs)).
Proof. intros Hl Hn. unfold read. by rewrite rioRead_ok. Qed.

Lemma reads_bind {A B} (f : rrio -> res A) bs P (g : A -> rrio -> res B) bs' Q :
  reads f bs P -> (forall a, P a -> reads (g a) bs' Q) -> reads (fun r => bind_res (f r) g) (bs ++ bs') Q.
Proof.
  intros Hf Hg rest ck. rewrite <- app_assoc. destruct (Hf (bs' ++ rest) ck) as (a & -> & Ha). cbn [bind_res].
  destruct (Hg a Ha rest (checked ck bs)) as (b & -> & Hb). exists b. by rewrite checked_app.
Qed.

Lemma reads_ret {A} (a : A) (P : A -> Prop) : P a -> reads (fun r => LOk a r) [] P.
Proof. intros Ha rest ck. exists a. split; [|done]. unfold checked. by destruct rdb_checksum. Qed.

(** A last step that reads nothing. *)
Lemma reads_map {A B} (f : rrio -> res A) bs P (g : A -> rrio -> res B) Q :
  reads f bs P -> (forall a, P a -> reads (g a) [] Q) -> reads (fun r => bind_res (f r) g) bs Q.
Proof. intros Hf Hg. rewrite <- (app_nil_r bs). by eapply reads_bind. Qed.

Lemma reads_must {A B} (m : option A) a (k : A -> rrio -> res B) bs P : m = Some a -> reads (k a) bs P -> reads (fun r => must m (fun a => k a r)) bs P.
Proof. by intros ->. Qed.

Lemma byte_bits b : 0 <= b < 256 -> Z.shiftr (Z.land b 192) 6 = b / 64 /\ Z.land b 63 = b mod 64.
Proof.
  intros Hb. split; [|apply (land_mod b 6); lia].
  assert (forallb (fun i => Z.shiftr (Z.land (Z.of_nat i) 192) 6 =? Z.of_nat i / 64) (seq 0 256) = true) as H by (vm_compute; reflexivity).
  rewrite forallb_forall in H. specialize (H (Z.to_nat b)). rewrite in_seq, Z2Nat.id in H by lia. apply Z.eqb_eq, H. lia.
Qed.

Lemma rdbLoadLen_ok n rest ck : 0 <= n < 2 ^ 32 -> rdbLoadLen (mkR (enc_len n ++ rest) ck) = (n, false, mkR rest (checked ck (enc_len n))).
Proof.
  intros Hn. unfold rdbLoadLen, enc_len. destruct (Z.ltb_spec n (2 ^ 6)) as [H6|H6].
  - rewrite (rioRead_ok [n]) by done. cbv zeta. cbn [byte nth]. destruct (byte_bits n) as [-> ->]; [lia|].
    rewrite Z.div_small, Z.mod_small by lia. done.
  - destruct (Z.ltb_spec n (2 ^ 14)) as [H14|H14].
    + change ([64 + n / 256; n mod 256] ++ rest) with ([64 + n / 256] ++ [n mod 256] ++ rest). rewrite rioRead_ok by done.
      assert (0 <= n / 256 < 64) as Hq by (split; [apply Z.div_pos; lia|apply Z.div_lt_upper_bound; lia]).
      unfold byte. cbn [nth]. destruct (byte_bits (64 + n / 256)) as [-> ->]; [lia|].
      replace (64 + n / 256) with (n / 256 + 1 * 64) by lia. rewrite Z.div_add, Z_mod_plus_full by lia.
      rewrite (Z.div_small (n / 256)), (Z.mod_small (n / 256)) by lia. change (0 + 1) with 1. cbn [Z.eqb Pos.eqb REDIS_RDB_ENCVAL REDIS_RDB_6BITLEN REDIS_RDB_14BITLEN].
      rewrite rioRead_ok by done. cbn [nth]. rewrite Ziplist.lor_shiftl by (pose proof (Z.mod_pos_bound n 256); lia).
      rewrite checked_app. change ([n / 256 + 1 * 64] ++ [n mod 256]) with [n / 256 + 1 * 64; n mod 256].
      f_equal. f_equal. change (2 ^ 8) with 256. rewrite Z.mul_comm. symmetry. apply Z.div_mod. lia.
    + change (128 :: rev (le_encode 4 n)) with ([128] ++ rev (le_encode 4 n)). rewrite <- app_assoc, rioRead_ok by done.
      unfold byte. cbn [nth]. change (Z.shiftr (Z.land 128 192) 6) with 2.
      cbn [Z.eqb Pos.eqb REDIS_RDB_ENCVAL REDIS_RDB_6BITLEN REDIS_RDB_14BITLEN].
      rewrite rioRead_ok by (try done; unfold zlen; by rewrite length_rev, length_le_encode).
      rewrite checked_app, rev_involutive, le_decode_encode, Z.mod_small by (cbn; lia). done.
Qed.

Lemma load_len_ok {B} n bs (k : Z -> rrio -> res B) P : 0 <= n < 2 ^ 32 - 1 -> reads (k n) bs P -> reads (fun r => load_len r k) (enc_len n ++ bs) P.
Proof.
  intros Hn Hk rest ck. unfold load_len. rewrite <- app_assoc, rdbLoadLen_ok by lia. unfold REDIS_RDB_LENERR.
  destruct (Z.eqb_spec n (2 ^ 32 - 1)); [lia|]. destruct (Hk rest (checked ck (enc_len n))) as (a & -> & Ha). exists a. by rewrite checked_app.
Qed.

(** *** Strings *)

(** What loading a string with [encode] gives. *)
Definition is_string (encode : bool) (s : list Z) (o : robj) : Prop := decoded o = s /\ robj_ok o /\ (encode = false -> o = RRaw s).
Abbreviation load_string e := (fun rdb => rdbGenericLoadStringObject rdb e).

Lemma encoded_ok enctype bs encode P : enctype = 0 \/ enctype = 1 \/ enctype = 2 ->
  reads (fun r => rdbLoadIntegerObject r enctype encode) bs P -> reads (load_string encode) ((192 + enctype) :: bs) P.
Proof.
  intros He Hr rest ck. unfold rdbGenericLoadStringObject, rdbLoadLen. change ((?a :: bs) ++ rest) with ([a] ++ bs ++ rest).
  rewrite rioRead_ok by done. cbv zeta. unfold byte. cbn [nth]. destruct (byte_bits (192 + enctype)) as [-> ->]; [lia|].
  assert ((192 + enctype) / 64 = 3 /\ (192 + enctype) mod 64 = enctype) as [-> ->] by (destruct He as [->|[->| ->] ]; done).
  change (3 =? REDIS_RDB_ENCVAL) with true. cbv iota.
  assert ((enctype =? REDIS_RDB_ENC_INT8) || (enctype =? REDIS_RDB_ENC_INT16) || (enctype =? REDIS_RDB_ENC_INT32) = true) as ->
    by (destruct He as [->|[->| ->] ]; done).
  destruct (Hr rest (checked ck [192 + enctype])) as (a & -> & Ha). exists a. by rewrite checked_app.
Qed.

Lemma lor_bytes2 a b : 0 <= a < 256 -> 0 <= b < 256 -> Z.lor a (Z.shiftl b 8) = le_decode [a; b].
Proof. intros Ha Hb. rewrite lor_high by lia. cbn [le_decode]. lia. Qed.

Lemma lor_bytes4 a b c d : 0 <= a < 256 -> 0 <= b < 256 -> 0 <= c < 256 -> 0 <= d < 256 ->
  Z.lor (Z.lor (Z.lor a (Z.shiftl b 8)) (Z.shiftl c 16)) (Z.shiftl d 24) = le_decode [a; b; c; d].
Proof. intros Ha Hb Hc Hd. rewrite (lor_high a b 8), (lor_high _ c 16), (lor_high _ d 24) by lia. cbn [le_decode]. lia. Qed.

Lemma byte_of v k : 0 <= k -> Z.land (Z.shiftr v k) 255 = v / 2 ^ k mod 256.
Proof. intros Hk. by rewrite land_255, Z.shiftr_div_pow2. Qed.

Lemma int_string encode v : in_int 64 v ->
  is_string encode (Util.ll2string_chars v) (if encode then HashType.createStringObjectFromLongLong v else RRaw (Util.ll2string_chars v)).
Proof. intros Hv. destruct encode; [rewrite HashType.longlong_object by done|]; by split. Qed.

Lemma rdbEncodeInteger_ok encode v : in_int 64 v -> rdbEncodeInteger v <> [] ->
  zlen (rdbEncodeInteger v) <= 5 /\ reads (load_string encode) (rdbEncodeInteger v) (is_string encode (Util.ll2string_chars v)).
Proof.
  intros Hv Hne. pose proof (Z.mod_pos_bound v 256 eq_refl). pose proof (Z.mod_pos_bound (v / 2 ^ 8) 256 eq_refl).
  pose proof (Z.mod_pos_bound (v / 2 ^ 16) 256 eq_refl). pose proof (Z.mod_pos_bound (v / 2 ^ 24) 256 eq_refl).
  pose proof (int_string encode v Hv) as Hs. unfold rdbEncodeInteger in *. rewrite land_255, !byte_of in * by done.
  destruct (_ && _) eqn:E1; [|clear E1; destruct (_ && _) eqn:E1; [|clear E1; destruct (_ && _) eqn:E1; [|done]]];
    (split; [done|]); apply andb_true_iff in E1 as [Hlo%Z.leb_le Hhi%Z.leb_le].
  - apply (encoded_ok 0); [by left|]. intros rest ck. unfold rdbLoadIntegerObject. cbn [Z.eqb REDIS_RDB_ENC_INT8].
    rewrite read_ok by done. unfold byte. cbn [nth]. rewrite (swrap_uwrap 8), swrap_id by (done || unfold in_int; lia). by eexists.
  - apply (encoded_ok 1); [by right; left|]. intros rest ck. unfold rdbLoadIntegerObject.
    cbn [Z.eqb Pos.eqb REDIS_RDB_ENC_INT8 REDIS_RDB_ENC_INT16]. rewrite read_ok by done. unfold byte. cbn [nth].
    rewrite lor_bytes2 by done. change [v mod 256; v / 2 ^ 8 mod 256] with (le_encode 2 v).
    rewrite (swrap_le_roundtrip 2) by (lia || unfold in_int; lia). by eexists.
  - apply (encoded_ok 2); [by right; right|]. intros rest ck. unfold rdbLoadIntegerObject.
    cbn [Z.eqb Pos.eqb REDIS_RDB_ENC_INT8 REDIS_RDB_ENC_INT16 REDIS_RDB_ENC_INT32]. rewrite read_ok by done. unfold byte. cbn [nth].
    rewrite lor_bytes4 by done.
    assert ([v mod 256; v / 2 ^ 8 mod 256; v / 2 ^ 16 mod 256; v / 2 ^ 24 mod 256] = le_encode 4 v) as ->.
    { cbn [le_encode]. rewrite !Z.div_div by lia. done. }
    rewrite (swrap_le_roundtrip 4) by (lia || unfold in_int; lia). by eexists.
Qed.

(** Where the compressor runs. *)
Context (base_ok : Lzf.MAX_OFF <= base /\ base + 2 ^ 31 <= 2 ^ 64) (htab_ok : forall i, 0 <= htab0 i < 2 ^ 64).

Lemma read_verbatim s : zlen s < 2 ^ 32 - 1 -> forall encode, reads (load_string encode) (enc_len (zlen s) ++ s) (is_string encode s).
Proof.
  intros Hl encode rest ck. pose proof (zlen_nonneg s). unfold rdbGenericLoadStringObject. rewrite <- app_assoc, rdbLoadLen_ok by lia. cbv iota.
  unfold REDIS_RDB_LENERR. destruct (Z.eqb_spec (zlen s) (2 ^ 32 - 1)); [lia|]. destruct (Z.eqb_spec (zlen s) 0) as [E|E].
  - destruct s; [|rewrite zlen_cons in E; pose proof (zlen_nonneg s); lia]. exists (RRaw []). rewrite app_nil_r. by split.
  - rewrite read_ok by lia. exists (RRaw s). by rewrite checked_app.
Qed.

Lemma write_verbatim s : zlen s < 2 ^ 31 - 8 -> len_ok (zlen s) ->
  writes (fun rdb => andthen (Some (rdbSaveLen rdb (zlen s))) 0 (fun rdb nwritten =>
    if 0 <? zlen s then
      let '(rdb, n) := rdbWriteRaw rdb s in Some (rdb, if n =? -1 then -1 else swrap 32 (nwritten + zlen s))
    else Some (rdb, nwritten))) (enc_len (zlen s) ++ s).
Proof.
  intros Hl Hok. pose proof (zlen_nonneg s). pose proof (enc_len_size (zlen s)).
  from_zero; [|rewrite zlen_app; lia].
  apply andthen_ok; [apply rdbSaveLen_ok; [lia|done]|]. destruct (Z.ltb_spec 0 (zlen s)).
  - apply write_counted; [by intros ->|lia].
  - destruct s; [|rewrite zlen_cons in *; pose proof (zlen_nonneg s); lia]. apply appends_ret.
Qed.

(** What the compressor returns decompresses to exactly the string. *)
Lemma lzf_exact s : 4 < zlen s -> zlen s < 2 ^ 31 ->
  exists n o, Lzf.lzf_compress base s htab0 (junk <$> seq 0 (Z.to_nat (zlen s - 4 + 1))) (zlen s - 4) = Ok (n, o) /\
    0 <= n <= zlen s - 4 /\ zlen (take (Z.to_nat n) o) = n /\
    (n = 0 \/ Lzf.lzf_decompress (take (Z.to_nat n) o) (replicate (Z.to_nat (zlen s)) 0) = Ok (inl (zlen s), s)).
Proof.
  intros H4 Hl. destruct base_ok as [Hb1 Hb2].
  destruct (Lzf.lzf_compress_ok base s Hb1 ltac:(lia) htab0 (junk <$> seq 0 (Z.to_nat (zlen s - 4 + 1))) (zlen s - 4)) as (n & o & E & Hn & Ho & Hd);
    [lia|lia|unfold zlen in *; rewrite length_fmap, length_seq; lia|done|].
  exists n, o. split; [done|]. split; [done|]. split; [unfold zlen in *; rewrite length_take; lia|]. destruct Hd as [->|[Hd Hne]]; [by left|right].
  destruct (Lzf.decompress_loop_ok _ _ _ Hd (S (length (take (Z.to_nat n) o))) [] (replicate (Z.to_nat (zlen s)) 0) Hne) as (t & Et & Hlt);
    [lia|rewrite app_nil_l; unfold zlen in *; rewrite length_replicate; lia|].
  unfold Lzf.lzf_decompress. cbn [app] in Et, Hlt. change (zlen (@nil Z)) with 0 in Et. rewrite Et. rewrite length_app, length_replicate in Hlt.
  destruct t; [by rewrite app_nil_r|cbn in Hlt; unfold zlen in Hlt; lia].
Qed.

Lemma read_lzf s c : c <> [] -> zlen c < 2 ^ 31 -> zlen s < 2 ^ 31 -> 0 < zlen s ->
  Lzf.lzf_decompress c (replicate (Z.to_nat (zlen s)) 0) = Ok (inl (zlen s), s) ->
  forall encode, reads (load_string encode) (195 :: enc_len (zlen c) ++ enc_len (zlen s) ++ c) (is_string encode s).
Proof.
  intros Hne Hc Hs Hs0 Hd encode rest ck. pose proof (zlen_nonneg s). unfold rdbGenericLoadStringObject, rdbLoadLen at 1.
  assert (0 < zlen c) as Hc0 by (destruct c; [done|rewrite zlen_cons; pose proof (zlen_nonneg c); lia]).
  change ((195 :: ?l) ++ rest) with ([195] ++ l ++ rest). rewrite rioRead_ok by done. unfold byte at 1. cbn [nth].
  change (Z.shiftr (Z.land 195 192) 6 =? REDIS_RDB_ENCVAL) with true. change (Z.land 195 63) with 3. cbv beta iota zeta.
  change ((3 =? REDIS_RDB_ENC_INT8) || (3 =? REDIS_RDB_ENC_INT16) || (3 =? REDIS_RDB_ENC_INT32)) with false. change (3 =? REDIS_RDB_ENC_LZF) with true.
  cbv iota. change (195 :: enc_len (zlen c) ++ enc_len (zlen s) ++ c) with ([195] ++ enc_len (zlen c) ++ enc_len (zlen s) ++ c).
  rewrite <- checked_app. generalize (checked ck [195]). intros ck'.
  assert (reads rdbLoadLzfStringObject (enc_len (zlen c) ++ enc_len (zlen s) ++ c) (is_string encode s)) as Hr; [|apply Hr].
  unfold rdbLoadLzfStringObject. apply load_len_ok; [lia|]. apply load_len_ok; [lia|]. intros rest' ck2. rewrite read_ok by done.
  rewrite Hd. destruct (Z.eqb_spec (zlen s) 0); [lia|]. exists (RRaw s). by split.
Qed.

Lemma write_lzf s : len_ok (zlen s) -> 20 < zlen s -> zlen s < 2 ^ 31 - 8 ->
  (forall rdb, rdbSaveLzfStringObject rdb s = Some (rdb, 0)) \/
  exists bs, writes (fun rdb => rdbSaveLzfStringObject rdb s) bs /\ 0 < zlen bs <= zlen s + 7 /\
    forall encode, reads (load_string encode) bs (is_string encode s).
Proof.
  intros Hok H20 Hl. destruct (lzf_exact s ltac:(lia) ltac:(lia)) as (n & o & E & Hn & Ho & Hd). unfold rdbSaveLzfStringObject.
  destruct (Z.leb_spec (zlen s) 4); [lia|]. rewrite E. destruct (Z.eqb_spec n 0) as [|Hn0]; [by left|]. destruct Hd as [|Hd]; [done|]. right.
  set (c := take (Z.to_nat n) o) in *. exists (195 :: enc_len n ++ enc_len (zlen s) ++ c). pose proof (enc_len_size n). pose proof (enc_len_size (zlen s)).
  assert (c <> []) as Hc by (intros Hc; rewrite Hc in Ho; change (zlen (@nil Z)) with 0 in Ho; lia).
  assert (zlen (195 :: enc_len n ++ enc_len (zlen s) ++ c) = 1 + (zlen (enc_len n) + (zlen (enc_len (zlen s)) + n))) as Hz
    by (rewrite zlen_cons, !zlen_app; lia).
  split; [|split; [lia|rewrite <- Ho; apply read_lzf; (done || lia)]].
  change (Z.lor (Z.shiftl REDIS_RDB_ENCVAL 6) REDIS_RDB_ENC_LZF) with 195.
  from_zero; [|lia].
  change (195 :: enc_len n ++ enc_len (zlen s) ++ c) with ([195] ++ enc_len n ++ enc_len (zlen s) ++ c).
  apply andthen_ok; [by apply rdbWriteRaw_ok|].
  apply andthen_ok; [apply rdbSaveLen_ok; [lia|destruct Hok; [by left|right; lia]]|].
  apply andthen_ok; [apply rdbSaveLen_ok; [lia|done]|].
  apply andthen_last, rdbWriteRaw_ok; [done|lia].
Qed.

Lemma tryInteger_canonical s : rdbTryIntegerEncoding s <> [] ->
  exists v, in_int 64 v /\ Util.ll2string_chars v = s /\ rdbTryIntegerEncoding s = rdbEncodeInteger v.
Proof.
  unfold rdbTryIntegerEncoding. destruct (HashType.strtoll s) as [[v e] r] eqn:E. destruct (negb _); [done|]. case_bool_decide as Hs; [|done].
  intros _. exists v. split; [|done]. by eapply HashType.strtoll_range.
Qed.

(** A string object is written so that it reads back as the same string. *)
Definition stored (f : rio -> option (rio * Z)) (s : list Z) : Prop :=
  exists bs, writes f bs /\ 0 < zlen bs <= zlen s + 7 /\ forall encode, reads (load_string encode) bs (is_string encode s).

Lemma rdbSaveRawString_ok s : zlen s < 2 ^ 31 - 8 -> len_ok (zlen s) -> stored (fun rdb => rdbSaveRawString rdb s) s.
Proof.
  intros Hl Hok. pose proof (zlen_nonneg s). pose proof (enc_len_size (zlen s)) as He. unfold rdbSaveRawString.
  set (buf := if zlen s <=? 11 then rdbTryIntegerEncoding s else []). destruct (Z.ltb_spec 0 (zlen buf)) as [Hb|Hb].
  - assert (zlen s <=? 11 = true /\ rdbTryIntegerEncoding s <> []) as [H11 Hne].
    { unfold buf in Hb. destruct (zlen s <=? 11); [|done]. split; [done|]. intros E. by rewrite E in Hb. }
    destruct (tryInteger_canonical s Hne) as (v & Hv & Hs & Ev). assert (buf = rdbEncodeInteger v) as -> by (unfold buf; by rewrite H11).
    rewrite Ev in Hne. exists (rdbEncodeInteger v). destruct (rdbEncodeInteger_ok false v Hv Hne) as [H5 _].
    split; [apply one_write; [done|done|lia]|]. split; [lia|]. intros e. rewrite <- Hs. by apply rdbEncodeInteger_ok.
  - assert (stored (fun rdb => andthen (Some (rdbSaveLen rdb (zlen s))) 0 (fun rdb nwritten =>
      if 0 <? zlen s then
        let '(rdb, n) := rdbWriteRaw rdb s in Some (rdb, if n =? -1 then -1 else swrap 32 (nwritten + zlen s))
      else Some (rdb, nwritten))) s) as Hv.
    { exists (enc_len (zlen s) ++ s). split; [by apply write_verbatim|]. split; [rewrite zlen_app; lia|]. apply read_verbatim. lia. }
    destruct rdb_compression; [|exact Hv]. destruct (Z.ltb_spec 20 (zlen s)) as [H20|]; [|exact Hv]. cbn [andb].
    destruct (write_lzf s Hok H20 Hl) as [E|(bs & [Hw0 Hw] & Hz & Hr)].
    + destruct Hv as (bs & [Hw0 Hw] & Hv). exists bs. split; [|exact Hv]. split; [rewrite E; exact Hw0|]. intros w. rewrite E. apply Hw.
    + exists bs. split; [|done]. split.
      * rewrite Hw0. cbn [mbind option_bind]. destruct (Z.eqb_spec (zlen bs) (-1)); [lia|]. destruct (Z.ltb_spec 0 (zlen bs)); [done|lia].
      * intros w. destruct (Hw w) as (w' & n & -> & H'). cbn [mbind option_bind]. exists w'. destruct H' as [[-> He']|[-> Hf]].
        -- exists (zlen bs). destruct (Z.eqb_spec (zlen bs) (-1)); [lia|]. destruct (Z.ltb_spec 0 (zlen bs)); [|lia]. split; [done|by left].
        -- exists (-1). split; [done|by right].
Qed.

Lemma rdbSaveStringObject_ok o : robj_ok o -> zlen (decoded o) < 2 ^ 31 - 8 -> len_ok (zlen (decoded o)) ->
  stored (fun rdb => rdbSaveStringObject rdb o) (decoded o).
Proof.
  intros Ho Hl Hok. destruct o as [v|s]; cbn [decoded rdbSaveStringObject] in *; [|by apply rdbSaveRawString_ok].
  unfold rdbSaveLongLongAsStringObject. pose proof (Util.ll2string_chars_len v Ho) as Hlen. destruct (Z.ltb_spec 0 (zlen (rdbEncodeInteger v))) as [Hb|Hb].
  - assert (rdbEncodeInteger v <> []) as Hne by (intros E; by rewrite E in Hb). exists (rdbEncodeInteger v).
    destruct (rdbEncodeInteger_ok false v Ho Hne) as [H5 _]. split; [apply rdbWriteRaw_ok; [done|lia]|]. split; [lia|].
    intros e. by apply rdbEncodeInteger_ok.
  - destruct (Z.ltb_spec (zlen (Util.ll2string_chars v)) 32); [|lia]. set (s := Util.ll2string_chars v) in *.
    exists (enc_len (zlen s) ++ s). pose proof (enc_len_size (zlen s)). split; [|split; [rewrite zlen_app; lia|apply read_verbatim; lia]].
    from_zero; [|rewrite zlen_app; lia]. apply andthen_ok; [apply rdbSaveLen_ok; [lia|done]|].
    apply andthen_last, rdbWriteRaw_ok; [|lia]. intros E. rewrite E in Hlen. change (zlen (@nil Z)) with 0 in Hlen. lia.
Qed.

(** ** Objects *)

Definition string_enc (bs s : list Z) : Prop := 0 < zlen bs <= zlen s + 7 /\ forall encode, reads (load_string encode) bs (is_string encode s).

(** *** Saving sequences of strings *)

(** The bytes that the strings take at most. *)
Definition total (l : list (list Z)) : Z := foldr (fun s n => zlen s + 14 + n) 0 l.

Lemma total_nonneg l : 0 <= total l.
Proof. induction l as [|s l IH]; [done|]. cbn. pose proof (zlen_nonneg s). fold (total l). lia. Qed.

Lemma total_app l l' : total (l ++ l') = total l + total l'.
Proof. induction l as [|s l IH]; [done|]. cbn. fold (total (l ++ l')) (total l). lia. Qed.

Lemma total_elem s l : s ∈ l -> zlen s + 14 <= total l.
Proof. induction 1 as [s l|s x l _ IH]; cbn; fold (total l); [pose proof (total_nonneg l)|pose proof (zlen_nonneg x)]; lia. Qed.

Lemma total_perm l l' : l ≡ₚ l' -> total l = total l'.
Proof. induction 1 as [|s l l' _ IH|s t l|l l' l'' _ IH1 _ IH2]; [done|cbn; fold (total l) (total l'); lia|cbn; lia|congruence]. Qed.

Lemma total_cost l : Ziplist.cost l = total l + 11.
Proof. induction l as [|s l IH]; [done|]. change (Ziplist.cost (s :: l)) with (14 + zlen s + Ziplist.cost l). cbn. fold (total l). lia. Qed.

Lemma zlen_total l : zlen l * 14 <= total l.
Proof. induction l as [|s l IH]; [done|]. cbn. fold (total l). rewrite zlen_cons. pose proof (zlen_nonneg s). lia. Qed.

Lemma len_ok_mono n n' : len_ok n' -> n <= n' -> len_ok n.
Proof. intros [H|H] Hn; [by left|right; lia]. Qed.

Lemma encs_total bss l : Forall2 string_enc bss l -> zlen (concat bss) <= total l.
Proof.
  induction 1 as [|bs s bss l [Hb _] _ IH]; [done|]. cbn [concat total foldr]. fold (total l). rewrite zlen_app. lia.
Qed.

(** [f] writes a string in front of what the continuation writes. *)
Definition prepends (f : (rio -> Z -> option (rio * Z)) -> rio -> Z -> option (rio * Z)) (bs : list Z) : Prop :=
  forall k bs', appends k bs' -> appends (f k) (bs ++ bs').

Lemma object_prepends o : robj_ok o -> zlen (decoded o) < 2 ^ 31 - 8 -> len_ok (zlen (decoded o)) ->
  exists bs, string_enc bs (decoded o) /\ prepends (fun k rdb nw => andthen (rdbSaveStringObject rdb o) nw k) bs.
Proof.
  intros Ho Hl Hok. destruct (rdbSaveStringObject_ok o Ho Hl Hok) as (bs & Hw & He). exists bs. split; [done|].
  intros k bs' Hk. by apply andthen_ok.
Qed.

Lemma save_list_ok l : Forall robj_ok l -> total (decoded <$> l) < 2 ^ 31 - 64 -> len_ok (total (decoded <$> l)) ->
  exists bss, Forall2 string_enc bss (decoded <$> l) /\ appends (fun rdb nw => save_list rdb l nw) (concat bss).
Proof.
  induction 1 as [|o l Ho _ IH]; intros Ht Hok; [exists []; split; [constructor|apply appends_ret]|].
  cbn [fmap list_fmap total foldr] in Ht, Hok. fold (total (decoded <$> l)) in Ht, Hok.
  pose proof (total_nonneg (decoded <$> l)). pose proof (zlen_nonneg (decoded o)).
  destruct IH as (bss & Hb & Hw); [lia|eapply len_ok_mono; [done|lia]|].
  destruct (object_prepends o Ho) as (bs & He & Hp); [lia|eapply len_ok_mono; [done|lia]|].
  exists (bs :: bss). split; [by constructor|]. cbn [concat]. apply (Hp _ _ Hw).
Qed.

Lemma save_dict_ok {V} (save : rio -> Dict.dictEntry -> Z -> (rio -> Z -> option (rio * Z)) -> option (rio * Z))
    (h : list Z -> Z) (d : Dict.dict (K := list Z) (V := V)) : Dict.wf h d -> forall bss fuel di, Dict.iter_ok d di ->
  Forall2 (fun e bs => prepends (fun k rdb nw => save rdb e nw k) bs) (Dict.remaining d di) bss -> (length bss < fuel)%nat ->
  appends (fun rdb nw => save_dict save fuel d di rdb nw) (concat bss).
Proof.
  intros Hw bss. induction bss as [|bs bss IH]; intros fuel di Hdi Hbs Hf; (destruct fuel as [|fuel]; [cbn in Hf; lia|]); cbn [save_dict];
    destruct (Dict.dictNext_spec h d (Dict.max_buckets d) di Hw Hdi (Dict.buckets_left_max d di)) as (di' & -> & Hdi' & Hr);
    destruct (Dict.remaining d di) as [|e es]; inversion Hbs as [|? ? ? ? He Hes]; subst; cbn [list.head list.tail mbind option_bind] in *.
  - apply appends_ret.
  - cbn [concat]. apply He. apply IH; [done|by rewrite Hr|cbn in Hf; lia].
Qed.

Lemma Forall2_choose {A B C} (R : A -> B -> Prop) (S : B -> C -> Prop) (f : A -> C) l :
  Forall (fun a => exists b, R a b /\ S b (f a)) l -> exists l', Forall2 R l l' /\ Forall2 S l' (f <$> l).
Proof. induction 1 as [|a l (b & Hb & Hs) _ (l' & IH & IHs)]; [by exists []|by exists (b :: l'); split; constructor]. Qed.

Definition pair_enc (bs : list Z) (p : list Z * list Z) : Prop := exists b1 b2, bs = b1 ++ b2 /\ string_enc b1 p.1 /\ string_enc b2 p.2.

Lemma elem_bound s l : s ∈ l -> total l < 2 ^ 31 - 64 -> len_ok (total l) -> zlen s < 2 ^ 31 - 8 /\ len_ok (zlen s).
Proof. intros Hs Hl Hok. pose proof (total_elem s l Hs). split; [lia|]. eapply len_ok_mono; [done|lia]. Qed.


Lemma set_entries_ok (es : list (Dict.dictEntry (K := list Z) (V := unit))) : total (Dict.key <$> es) < 2 ^ 31 - 64 -> len_ok (total (Dict.key <$> es)) ->
  exists bss, Forall2 (fun e bs => prepends (fun k rdb nw => save_set_entry rdb e nw k) bs) es bss /\ Forall2 string_enc bss (Dict.key <$> es).
Proof.
  intros Hl Hok. apply Forall2_choose. apply Forall_forall. intros e He%list_elem_of_In. destruct (elem_bound (Dict.key e) _ (list_elem_of_fmap_2 _ _ _ He) Hl Hok) as [H1 H2].
  destruct (object_prepends (RRaw (Dict.key e)) I H1 H2) as (bs & Hb & Hp). by exists bs.
Qed.

Definition entry_text (e : Dict.dictEntry (K := list Z) (V := robj)) : list Z * list Z := (Dict.key e, decoded (Dict.val e)).


Lemma hash_entries_ok (es : list (Dict.dictEntry (K := list Z) (V := robj))) : Forall (fun e => robj_ok (Dict.val e)) es ->
  total (HashType.flat (entry_text <$> es)) < 2 ^ 31 - 64 -> len_ok (total (HashType.flat (entry_text <$> es))) ->
  exists bss, Forall2 (fun e bs => prepends (fun k rdb nw => save_hash_entry rdb e nw k) bs) es bss /\ Forall2 pair_enc bss (entry_text <$> es).
Proof.
  intros Hv Hl Hok. apply Forall2_choose. apply Forall_forall. intros e He%list_elem_of_In. rewrite Forall_forall in Hv. pose proof (Hv e (proj1 (list_elem_of_In _ _) He)) as Hve.
  assert (forall s, s ∈ [Dict.key e; decoded (Dict.val e)] -> s ∈ HashType.flat (entry_text <$> es)) as Hin.
  { intros s Hs. unfold HashType.flat. rewrite list_elem_of_In, in_concat. exists [Dict.key e; decoded (Dict.val e)].
    split; [|by apply list_elem_of_In]. apply list_elem_of_In, list_elem_of_fmap. exists (entry_text e). split; [done|by apply list_elem_of_fmap_2]. }
  destruct (elem_bound (Dict.key e) _ (Hin _ (list_elem_of_here _ _)) Hl Hok) as [H1 H2].
  destruct (elem_bound (decoded (Dict.val e)) _ (Hin _ (list_elem_of_further _ _ _ (list_elem_of_here _ _))) Hl Hok) as [H3 H4].
  destruct (object_prepends (RRaw (Dict.key e)) I H1 H2) as (b1 & Hb1 & Hp1). destruct (object_prepends _ Hve H3 H4) as (b2 & Hb2 & Hp2).
  exists (b1 ++ b2). split; [|by exists b1, b2]. intros k bs' Hk. rewrite <- app_assoc. apply (Hp1 _ (b2 ++ bs')), Hp2, Hk.
Qed.

Lemma pairs_total bss P : Forall2 pair_enc bss P -> zlen (concat bss) <= total (HashType.flat P).
Proof.
  induction 1 as [|bs p bss P (b1 & b2 & -> & [H1 _] & [H2 _]) _ IH]; [done|]. change (HashType.flat (p :: P)) with (p.1 :: p.2 :: HashType.flat P).
  cbn [concat total foldr]. fold (total (HashType.flat P)). rewrite !zlen_app. lia.
Qed.

(** *** Loading sequences of strings *)

Context (seed_nonneg : 0 <= hash_seed) (max_ok : 0 <= set_max_intset_entries < 2 ^ 26).
(** Strings in the ziplists of hashes have at most [L] bytes, the ones in those of lists at most [LL]. *)
Context (L : Z) (L_text : 255 <= L) (L_value : hash_max_ziplist_value <= L) (entries_ok : 0 <= hash_max_ziplist_entries).
Context (L_room : (hash_max_ziplist_entries + 2) * (28 + 2 * L) + 11 < 2 ^ 31).
Context (LL : Z) (LL_text : 20 <= LL) (LL_value : list_max_ziplist_value <= LL) (LL_room : list_max_ziplist_entries * (14 + LL) + 11 < 2 ^ 32).

(** The list that a list object represents. *)
Definition list_is (o : listobj) (l : list (list Z)) : Prop :=
  match o with
  | LZIPLIST zl => HashType.zl_is zl l
  | LINKEDLIST l' => decoded <$> l' = l /\ Forall robj_ok l'
  end.

Lemma list_convert_loop_ok zl c B : forall fuel A l, Ziplist.repr zl c (A ++ B) -> (length B < fuel)%nat -> decoded <$> l = Ziplist.strs A -> Forall robj_ok l ->
  exists l', list_convert_loop fuel zl (match B with [] => None | _ => Some (Ziplist.at_ (Ziplist.enc A)) end) l = Some l' /\
    decoded <$> l' = Ziplist.strs (A ++ B) /\ Forall robj_ok l'.
Proof.
  induction B as [|r B IH]; intros fuel A l Hr Hf Hl Hok; (destruct fuel as [|fuel]; [cbn in Hf; lia|]); cbn [list_convert_loop].
  - exists l. by rewrite app_nil_r.
  - rewrite (Ziplist.ziplistGet_ok zl c A r B Hr). cbn [mbind option_bind]. rewrite (Ziplist.ziplistNext_ok zl c A r B Hr). cbn [mbind option_bind].
    rewrite (Ziplist.snoc_app A r B) in Hr |- *. destruct (HashType.zval_object_ok r.2) as [Ed Hz]. apply (IH fuel (A ++ [r])); [done|cbn in Hf; lia| |].
    + rewrite fmap_app, Hl, Ziplist.strs_app. cbn. by rewrite Ed.
    + apply Forall_app. split; [done|by constructor].
Qed.

Lemma listTypeConvert_ok zl l : HashType.zl_is zl l -> exists l', listTypeConvert (LZIPLIST zl) = Some (LINKEDLIST l') /\ list_is (LINKEDLIST l') l.
Proof.
  intros (c & rs & Hr & <-). cbn [listTypeConvert]. change 0 with (Z.of_nat 0) at 1. rewrite (Ziplist.index_nat zl c rs 0 Hr). cbn [mbind option_bind].
  destruct (list_convert_loop_ok zl c rs (S (length zl)) [] [] Hr) as (l' & E & Hl & Hok); [apply (Ziplist.fuel_ok zl c rs Hr)|done|constructor|].
  exists l'. split; [|done]. destruct rs as [|r rs]; [rewrite decide_False by (cbn; lia); by rewrite E|]. rewrite decide_True by (cbn; lia). change (take 0 (r :: rs)) with (@nil Ziplist.raw).
  by rewrite E.
Qed.

(** A list object that is being loaded, [n] elements before the end. *)
Definition list_inv (o : listobj) (l : list (list Z)) (n : nat) : Prop :=
  list_is o l /\ match o with LZIPLIST _ => Forall (fun s => zlen s <= LL) l /\ zlen l + Z.of_nat n <= list_max_ziplist_entries | LINKEDLIST _ => True end.

Lemma cost_short l : Forall (fun s => zlen s <= LL) l -> Ziplist.cost l <= zlen l * (14 + LL) + 11.
Proof.
  induction 1 as [|s l Hs _ IH]; [done|]. change (Ziplist.cost (s :: l)) with (14 + zlen s + Ziplist.cost l). rewrite zlen_cons. lia.
Qed.

Lemma load_list_ok bss ss : Forall2 string_enc bss ss -> forall o l, list_inv o l (length ss) ->
  reads (fun r => load_list (length ss) r o) (concat bss) (fun o' => list_is o' (l ++ ss)).
Proof.
  induction 1 as [|bs s bss ss [Hlen Hs] _ IH]; intros o l [Ho Hinv]; cbn [load_list length concat].
  { apply reads_ret. by rewrite app_nil_r. }
  eapply reads_bind; [apply (Hs true)|]. intros ele (Hd & Hok & _). cbv beta.
  assert (exists o', (match o, ele with
      | LZIPLIST _, RRaw s => if list_max_ziplist_value <? zlen s then listTypeConvert o else Some o
      | _, _ => Some o end) = Some o' /\ list_inv o' l (length (s :: ss)) /\ (forall zl, o' = LZIPLIST zl -> zlen s <= LL)) as (o' & E & [Ho' Hinv'] & Hshort).
  { destruct o as [zl|l'].
    - destruct ele as [v|s']; cbn [decoded] in Hd; subst s.
      + exists (LZIPLIST zl). split; [done|]. split; [done|]. intros _ _. pose proof (Util.ll2string_chars_len v Hok). lia.
      + destruct (Z.ltb_spec list_max_ziplist_value (zlen s')).
        * destruct (listTypeConvert_ok zl l Ho) as (l' & -> & Hl'). exists (LINKEDLIST l'). by split_and!.
        * exists (LZIPLIST zl). split; [done|]. split; [done|]. intros _ _. lia.
    - exists (LINKEDLIST l'). split; [by destruct ele|]. by split. }
  eapply reads_must; [exact E|]. rewrite (cons_middle s), (app_assoc l). destruct o' as [zl|l'].
  - destruct Hinv' as [Hsh Hcount]. cbn [length] in Hcount. pose proof (cost_short l Hsh). pose proof (Hshort zl eq_refl). pose proof (zlen_nonneg l).
    destruct (HashType.push_tail junk zl l s Ho') as (zl' & Ep & Hz'); [nia|]. rewrite <- Hd in Ep. eapply reads_must; [exact Ep|].
    apply IH. split; [done|]. split; [apply Forall_app; split; [done|by constructor]|]. rewrite zlen_app. change (zlen [s]) with 1. lia.
  - apply IH. destruct Ho' as [El Hl]. destruct (SetType.tryObjectEncoding_ok ele Hok) as [Hok' Ed]. split; [|done]. split.
    + rewrite fmap_app, El. cbn. by rewrite Ed, Hd.
    + apply Forall_app. split; [done|by constructor].
Qed.

Abbreviation set_ok := (SetType.set_ok hash_seed set_max_intset_entries).
Abbreviation hash_is := (HashType.hash_is hash_seed hash_max_ziplist_entries L).
Abbreviation members := (gset (list Z)).

Lemma set_hash_nonneg k : 0 <= SetType.hash hash_seed k.
Proof. exact (HashType.hash_fun_nonneg hash_seed k seed_nonneg). Qed.

(** A set object that is being loaded, [n] elements before the end. *)
Definition set_inv (o : SetType.setobj) (m : members) (n : nat) : Prop :=
  match o with
  | SetType.INTSET iset => exists zs : gset Z, Intset.refines iset zs /\ (forall z, z ∈ zs -> in_int 64 z) /\
      m = set_map Util.ll2string_chars zs /\ Z.of_nat (size m + n) <= set_max_intset_entries
  | SetType.HT d => Dict.refines (SetType.hash hash_seed) d (gset_to_gmap tt m)
  end.

(** One element: the conversion, or the insertion into the intset. *)
Lemma set_step o m n k ele : set_inv o m (S n) -> robj_ok ele -> Z.of_nat (size m) < 2 ^ 26 -> k <= 2 ^ 30 ->
  exists o', (match o with
      | SetType.INTSET iset =>
        match isObjectRepresentableAsLongLong ele with
        | Some llval => r ← Intset.intsetAdd junk iset llval; Some (SetType.INTSET (fst r))
        | None =>
          o ← SetType.setTypeConvert hash_seed dict_can_resize o;
          match o with SetType.HT d => r ← Dict.dictExpand d k; Some (SetType.HT (fst r)) | SetType.INTSET _ => None end
        end
      | SetType.HT _ => Some o end) = Some o' /\
    match o' with SetType.INTSET _ => set_inv o' ({[decoded ele]} ∪ m) n | SetType.HT _ => set_inv o' m n end.
Proof.
  intros Ho Hele Hsz Hk. destruct o as [d|iset]; [by exists (SetType.HT d)|]. destruct Ho as (zs & Hr & Hz & Hm & Hmax).
  pose proof (SetType.chars_size hash_seed _ seed_nonneg max_ok zs Hz) as Hcs. rewrite <- Hm in Hcs.
  destruct (isObjectRepresentableAsLongLong ele) as [z|] eqn:Hrep.
  - destruct (SetType.representable ele z Hele Hrep) as [Hzr ->].
    destruct (Intset.refines_step iset zs (Intset.OpAdd junk z) Hr) as (iset' & He & Hr'); [lia|done|].
    cbn [Intset.exec_op Intset.spec_op fst snd] in He, Hr'. rewrite He. cbn [mbind option_bind]. exists (SetType.INTSET iset'). split; [done|].
    assert ({[Util.ll2string_chars z]} ∪ m = set_map Util.ll2string_chars ({[z]} ∪ zs)) as Hm'
      by (rewrite set_map_union_L, set_map_singleton_L, Hm; done).
    exists ({[z]} ∪ zs). split; [done|]. split; [set_solver|]. split; [done|].
    pose proof (SetType.size_add_le hash_seed _ seed_nonneg max_ok (Util.ll2string_chars z) m). lia.
  - destruct (SetType.setTypeConvert_ok hash_seed set_max_intset_entries dict_can_resize junk seed_nonneg max_ok iset zs Hr Hz) as (d & -> & Hd); [lia|].
    cbn [mbind option_bind]. destruct (Dict.dictExpand_ok _ set_hash_nonneg d k (proj1 Hd) Hk) as (d' & ok & -> & Hw & Hs & _).
    cbn [mbind option_bind fst]. exists (SetType.HT d'). split; [done|]. cbn [set_inv]. rewrite Hm. by eapply Dict.refines_perm.
Qed.

Lemma load_set_ok bss ss : Forall2 string_enc bss ss -> forall k o (m : members), set_inv o m (length ss) -> k <= 2 ^ 30 ->
  Z.of_nat (size m) + zlen ss <= 2 ^ 26 -> reads (fun r => load_set (length ss) k r o) (concat bss) (fun o' => set_ok o' (list_to_set ss ∪ m)).
Proof.
  induction 1 as [|bs s bss ss [Hlen Hs] _ IH]; intros k o m Ho Hk Hsz; cbn [load_set length concat].
  { apply reads_ret. cbv beta. replace (list_to_set [] ∪ m) with m by set_solver. destruct o as [d|iset]; [exact Ho|]. destruct Ho as (zs & H1 & H2 & H3 & H4). exists zs. split_and!; try done. lia. }
  rewrite zlen_cons in Hsz. pose proof (zlen_nonneg ss).
  eapply reads_bind; [apply (Hs true)|]. intros ele (Hd & Hok & _). cbv beta zeta.
  destruct (SetType.tryObjectEncoding_ok ele Hok) as [Hok' Ed]. rewrite Hd in Ed.
  destruct (set_step o m (length ss) k (tryObjectEncoding ele) Ho Hok') as (o' & E & Ho'); [lia|done|]. rewrite Ed in *.
  eapply reads_must; [exact E|]. pose proof (SetType.size_add_le hash_seed _ seed_nonneg max_ok s m).
  assert (list_to_set (s :: ss) ∪ m = list_to_set ss ∪ ({[s]} ∪ m)) as Eset by set_solver.
  rewrite Eset. destruct o' as [d|iset].
  - destruct (SetType.ht_add hash_seed set_max_intset_entries dict_can_resize seed_nonneg max_ok d m s Ho') as (d' & E' & Hd'); [lia|].
    eapply reads_must; [by rewrite E'|]. apply IH; [done|done|lia].
  - eapply reads_must; [done|]. apply IH; [done|done|lia].
Qed.

(** *** Hashes *)

Lemma load_hash_ht_ok bss P : Forall2 pair_enc bss P -> forall d mr, HashType.ht_hash hash_seed d mr -> NoDup (fst <$> P) ->
  (forall k, k ∈ fst <$> P -> mr !! k = None) -> Z.of_nat (size mr) + zlen P <= 2 ^ 28 ->
  reads (fun r => load_hash_ht (length P) r d) (concat bss) (fun o => hash_is o (list_to_map P ∪ (decoded <$> mr))).
Proof.
  induction 1 as [|bs [f v] bss P (b1 & b2 & -> & [_ H1] & [_ H2]) _ IH]; intros d mr Hd Hnd Hdis Hsz; cbn [load_hash_ht length concat list_to_map].
  { apply reads_ret. exists mr. split; [done|]. by rewrite list_to_map_nil, map_empty_union. }
  cbn [fst snd fmap list_fmap] in *. apply list.NoDup_cons in Hnd as [Hnin Hnd]. rewrite zlen_cons in Hsz. pose proof (zlen_nonneg P).
  rewrite <- app_assoc. eapply reads_bind; [apply (H1 true)|]. intros field (Hf & Hfok & _). cbv beta.
  eapply reads_bind; [apply (H2 true)|]. intros value (Hv & Hvok & _). cbv beta.
  destruct (SetType.tryObjectEncoding_ok field Hfok) as [_ Ef]. destruct (SetType.tryObjectEncoding_ok value Hvok) as [Hvok' Ev]. rewrite Hf in Ef.
  destruct (HashType.ht_add_field hash_seed dict_can_resize seed_nonneg d mr f _ Hd Hvok') as (d' & E & Hd'); [lia|apply Hdis; by left|].
  eapply reads_must; [by rewrite Ef|]. cbn [snd fst].
  assert (foldr (fun p => <[p.1:=p.2]>) ∅ ((f, v) :: P) ∪ (decoded <$> mr) = (list_to_map P : gmap _ _) ∪ (decoded <$> <[f := tryObjectEncoding value]> mr)) as Em.
  { rewrite fmap_insert, Ev, Hv. cbn [foldr fst snd]. rewrite <- insert_union_l, <- insert_union_r; [done|]. by apply not_elem_of_list_to_map_1. }
  cbn [foldr fst snd] in Em. unfold list_to_map. cbn [foldr fst snd]. rewrite Em. apply IH; [done|done| |].
  - intros k Hk. rewrite lookup_insert_ne by (intros ->; done). apply Hdis. by right.
  - rewrite map_size_insert_None by (apply Hdis; by left). lia.
Qed.

(** ** Contents *)

Inductive content := CString (s : list Z) | CList (l : list (list Z)) | CSet (m : members) | CHash (m : gmap (list Z) (list Z)).

Definition object_is (o : robject) (c : content) : Prop :=
  match o, c with
  | OString o, CString s => decoded o = s /\ robj_ok o
  | OList o, CList l => list_is o l
  | OSet o, CSet m => set_ok o m
  | OHash o, CHash m => hash_is o m
  | _, _ => False
  end.

Lemma load_hash_rest_ht bss P d mr : Forall2 pair_enc bss P -> HashType.ht_hash hash_seed d mr -> NoDup (fst <$> P) ->
  (forall k, k ∈ fst <$> P -> mr !! k = None) -> Z.of_nat (size mr) + zlen P <= 2 ^ 28 ->
  reads (load_hash_rest (HashType.HT d) (length P)) (concat bss) (fun o => object_is o (CHash (list_to_map P ∪ (decoded <$> mr)))).
Proof.
  intros Hb Hd Hnd Hdis Hsz. cbn [load_hash_rest]. eapply reads_map; [by apply load_hash_ht_ok|]. intros o Ho. by apply reads_ret.
Qed.

Lemma cost_pairs P : Forall (HashType.short L) P -> Ziplist.cost (HashType.flat P) <= zlen P * (28 + 2 * L) + 11.
Proof. apply HashType.cost_flat. Qed.

(** The conversion to a hash table in the middle. *)
Lemma load_hash_convert_ok bss P zl Q : Forall2 pair_enc bss P -> HashType.zl_is zl (HashType.flat Q) -> NoDup (fst <$> (Q ++ P)) -> zlen (Q ++ P) <= 2 ^ 28 ->
  reads (fun r => must (HashType.hashTypeConvert hash_seed dict_can_resize (HashType.ZIPLIST zl)) (fun o => load_hash_rest o (length P) r)) (concat bss)
    (fun o => object_is o (CHash (list_to_map (Q ++ P)))).
Proof.
  intros Hb Hz Hnd Hsz. assert ((list_to_map (Q ++ P) : gmap (list Z) (list Z)) = list_to_map P ∪ list_to_map Q) as ->.
  { rewrite <- list_to_map_app. apply list_to_map_proper; [done|apply Permutation_app_comm]. }
  rewrite zlen_app in Hsz. pose proof (zlen_nonneg P). rewrite fmap_app in Hnd. apply list.NoDup_app in Hnd as (Hnd1 & Hnd12 & Hnd2).
  destruct (HashType.convert_ok hash_seed dict_can_resize seed_nonneg zl Q Hz Hnd1) as (d & mr & E & Hd & Hm); [lia|].
  eapply reads_must; [exact E|]. rewrite <- Hm. apply load_hash_rest_ht; [done..| |].
  - intros k Hk. apply (f_equal (fun M => M !! k)) in Hm. rewrite lookup_fmap, not_elem_of_list_to_map_1 in Hm by (intros Hin; by apply (Hnd12 k)).
    by destruct (mr !! k).
  - assert (size mr = size (decoded <$> mr)) as Esz by (symmetry; apply map_size_fmap). rewrite Esz, Hm, HashType.map_size_list by done. lia.
Qed.

Lemma load_hash_ziplist_ok bss P : Forall2 pair_enc bss P -> forall zl P0, HashType.zl_is zl (HashType.flat P0) -> NoDup (fst <$> (P0 ++ P)) ->
  Forall (HashType.short L) P0 -> zlen P0 + zlen P <= hash_max_ziplist_entries -> total (HashType.flat P) < 2 ^ 31 - 64 -> zlen (P0 ++ P) <= 2 ^ 28 ->
  reads (fun r => bind_res (load_hash_ziplist (length P) r zl) (fun '(o, len) rdb => load_hash_rest o len rdb)) (concat bss)
    (fun o => object_is o (CHash (list_to_map (P0 ++ P)))).
Proof.
  induction 1 as [|bs [f v] bss P (b1 & b2 & -> & [_ H1] & [_ H2]) Hbss IH]; intros zl P0 Hzl Hnd Hsh Hcount Htot Hsz; cbn [load_hash_ziplist length concat].
  { cbn [bind_res load_hash_rest]. apply reads_ret. exists P0. rewrite app_nil_r in *. change (zlen (@nil (list Z * list Z))) with 0 in Hcount.
    split; [by split|]. split; [lia|done]. }
  cbn [fst snd] in H1, H2. intros rest ck. rewrite <- !app_assoc.
  destruct (H1 false (b2 ++ concat bss ++ rest) ck) as (field & E1 & _ & _ & Hf). rewrite (Hf eq_refl) in E1.
  destruct (H2 false (concat bss ++ rest) (checked ck b1)) as (value & E2 & _ & _ & Hv). rewrite (Hv eq_refl) in E2.
  unfold rdbLoadStringObject. rewrite E1. cbn [bind_res]. rewrite E2. cbn [bind_res decoded].
  change (HashType.flat ((f, v) :: P)) with (f :: v :: HashType.flat P) in Htot. cbn [total foldr] in Htot. fold (total (HashType.flat P)) in Htot.
  rewrite zlen_cons in Hcount. pose proof (cost_pairs P0 Hsh). pose proof (zlen_nonneg P0). pose proof (zlen_nonneg P). pose proof (total_nonneg (HashType.flat P)).
  pose proof (zlen_nonneg f). pose proof (zlen_nonneg v).
  destruct (HashType.push_tail junk zl _ f Hzl) as (zl1 & -> & Hzl1); [nia|]. cbn [must].
  destruct (HashType.push_tail junk zl1 _ v Hzl1) as (zl2 & -> & Hzl2).
  { rewrite Ziplist.cost_app. change (Ziplist.cost [f]) with (14 + zlen f + 11). nia. }
  assert (HashType.zl_is zl2 (HashType.flat (P0 ++ [(f, v)]))) as Hz by (rewrite HashType.flat_app; by rewrite <- app_assoc in Hzl2).
  rewrite (cons_middle (f, v)), (app_assoc P0) in Hnd, Hsz |- *. rewrite !checked_app. cbn [must].
  set (Q := P0 ++ [(f, v)]) in *. rewrite (app_assoc b1), <- (checked_app ck (b1 ++ b2)).
  destruct ((hash_max_ziplist_value <? zlen f) || (hash_max_ziplist_value <? zlen v)) eqn:El.
  - destruct (load_hash_convert_ok bss P zl2 Q Hbss Hz Hnd Hsz rest (checked ck (b1 ++ b2))) as (o & E & Ho). exists o. split; [|exact Ho].
    rewrite <- E. by destruct (HashType.hashTypeConvert _ _ _).
  - apply orb_false_iff in El as [Hlf%Z.ltb_ge Hlv%Z.ltb_ge]. apply (IH zl2 Q Hz Hnd); try (done || lia).
    + apply Forall_app. split; [done|]. constructor; [split; cbn; lia|done].
    + unfold Q. rewrite zlen_app. change (zlen [(f, v)]) with 1. lia.
Qed.

(** *** Whole objects *)

Definition strings (c : content) : list (list Z) :=
  match c with CString s => [s] | CList l => l | CSet m => elements m | CHash m => HashType.flat (map_to_list m) end.

(** The object stays within 2 GB in the file. *)
Definition fits (c : content) : Prop :=
  total (strings c) < 2 ^ 31 - 128 /\ zlen (strings c) <= 2 ^ 26 /\ len_ok (total (strings c) + 64).

Lemma reads_ext {A} (f g : rrio -> res A) bs P : (forall r, f r = g r) -> reads g bs P -> reads f bs P.
Proof. intros E Hg rest ck. rewrite E. apply Hg. Qed.

Ltac at_type := eapply reads_ext;
  [intros ?r; unfold rdbLoadObject, object_type, REDIS_RDB_TYPE_STRING, REDIS_RDB_TYPE_LIST, REDIS_RDB_TYPE_SET, REDIS_RDB_TYPE_HASH,
     REDIS_RDB_TYPE_LIST_ZIPLIST, REDIS_RDB_TYPE_SET_INTSET, REDIS_RDB_TYPE_HASH_ZIPLIST; cbn [Z.eqb Pos.eqb orb]; reflexivity|].

(** The object is saved as [bs], which loads as an object with the same contents. *)
Definition saves (o : robject) (c : content) : Prop :=
  exists bs, writes (fun rdb => rdbSaveObject rdb o) bs /\ zlen bs < 2 ^ 31 /\ reads (rdbLoadObject (object_type o)) bs (fun o' => object_is o' c).

Lemma fits_string s c : fits c -> s ∈ strings c -> zlen s < 2 ^ 31 - 64 /\ len_ok (zlen s).
Proof. intros (H1 & _ & H3) Hs. pose proof (total_elem s _ Hs). split; [lia|]. eapply len_ok_mono; [done|lia]. Qed.

Lemma save_string_ok o s : decoded o = s -> robj_ok o -> fits (CString s) -> saves (OString o) (CString s).
Proof.
  intros <- Ho Hf. destruct (fits_string (decoded o) _ Hf (list_elem_of_here _ _)) as [Hl Hok].
  destruct (rdbSaveStringObject_ok o Ho ltac:(lia) Hok) as (bs & Hw & Hb & Hr). exists bs. cbn [rdbSaveObject].
  split; [from_zero; [by apply andthen_last|lia]|]. split; [lia|]. at_type. eapply reads_map; [apply (Hr true)|].
  intros o' (Hd & Hok' & _). destruct (SetType.tryObjectEncoding_ok o' Hok') as [H1 H2]. apply reads_ret. split; [by rewrite H2|done].
Qed.

(** A block of memory saved as a string. *)
Lemma save_blob_ok m c (f : rio -> option (rio * Z)) (k : list Z -> option robject) : zlen m <= total (strings c) + 11 -> fits c ->
  (forall rdb, f rdb = andthen (rdbSaveRawString rdb m) 0 (fun rdb nwritten => Some (rdb, nwritten))) ->
  (exists o', k m = Some o' /\ object_is o' c) ->
  exists bs, writes f bs /\ zlen bs < 2 ^ 31 /\ reads (fun r => load_blob r k) bs (fun o' => object_is o' c).
Proof.
  intros Hm (H1 & _ & H3) Hf (o' & Hk & Ho'). destruct (rdbSaveRawString_ok m) as (bs & Hw & Hb & Hr); [lia|eapply len_ok_mono; [done|lia]|].
  exists bs. split; [|split; [lia|]].
  - assert (writes (fun rdb => andthen (rdbSaveRawString rdb m) 0 (fun rdb nwritten => Some (rdb, nwritten))) bs) as [Hw0 Hw1]
      by (from_zero; [by apply andthen_last|lia]).
    split; [by rewrite Hf|]. intros w. rewrite Hf. apply Hw1.
  - unfold load_blob. eapply reads_map; [apply (Hr false)|]. intros aux (Hd & _). rewrite Hd, Hk. by apply reads_ret.
Qed.

Lemma save_ziplist_blob zl c l : HashType.zl_is zl l -> strings c = l \/ total (strings c) = total l ->
  zlen zl <= total (strings c) + 11 /\
  forall rdb, save_ziplist rdb zl = andthen (rdbSaveRawString rdb zl) 0 (fun rdb nwritten => Some (rdb, nwritten)).
Proof.
  intros (n & rs & Hr & <-) Hs. pose proof Hr as [Hm _ _ Hroom _]. pose proof (Ziplist.zlen_zl n [] rs) as Hz. rewrite <- Hm in Hz.
  pose proof (Ziplist.enc_cost rs) as Hc. rewrite total_cost in Hc. unfold Ziplist.size in Hz. change (zlen (@nil Z)) with 0 in Hz. split.
  - destruct Hs as [->|Hs]; lia.
  - intros rdb. unfold save_ziplist, Ziplist.ziplistBlobLen. rewrite Hm at 1. rewrite Ziplist.zl_bytes by done. cbn [mbind option_bind].
    assert (Ziplist.size [] rs = zlen zl) as -> by (unfold Ziplist.size; change (zlen (@nil Z)) with 0; lia).
    assert (load zl 0 (zlen zl) = Some zl) as ->; [|done]. rewrite <- (app_nil_r zl) at 1. change (zl ++ []) with ([] ++ zl ++ []). by apply load_app.
Qed.

Lemma save_list_ziplist_ok zl l : HashType.zl_is zl l -> fits (CList l) -> saves (OList (LZIPLIST zl)) (CList l).
Proof.
  intros Hz Hf. destruct (save_ziplist_blob zl (CList l) l Hz) as [Hl E]; [by left|]. unfold saves.
  eapply (fun k H => save_blob_ok zl (CList l) _ k Hl Hf E H). pose proof Hz as (n & rs & Hr & <-).
  destruct (Ziplist.ziplistLen_ok zl n rs Hr) as (zl' & n' & -> & Hr'). cbn [mbind option_bind].
  assert (HashType.zl_is zl' (Ziplist.strs rs)) as Hz' by by exists n', rs.
  destruct (list_max_ziplist_entries <? zlen rs).
  - destruct (listTypeConvert_ok zl' _ Hz') as (l' & -> & Hl'). by eexists.
  - by eexists.
Qed.

Lemma new_ziplist : HashType.zl_is Ziplist.ziplistNew [].
Proof. destruct (Ziplist.new_holds false) as (c & rs & Hr & _ & E). by exists c, rs. Qed.

Lemma to_nat_zlen {A} (l : list A) : Z.to_nat (zlen l) = length l.
Proof. unfold zlen. apply Nat2Z.id. Qed.

(** A length and the strings behind it. *)
Lemma save_counted n (k : rio -> Z -> option (rio * Z)) bs : 0 <= n < 2 ^ 32 -> len_ok n -> appends k bs -> zlen bs < 2 ^ 31 - 64 ->
  writes (fun rdb => andthen (Some (rdbSaveLen rdb n)) 0 k) (enc_len n ++ bs) /\ zlen (enc_len n ++ bs) < 2 ^ 31.
Proof.
  intros Hn Hok Hk Hb. pose proof (enc_len_size n). rewrite zlen_app. split; [|lia].
  from_zero; [|rewrite zlen_app; lia]. by apply andthen_ok; [apply rdbSaveLen_ok|].
Qed.

Lemma save_linkedlist_ok l' l : list_is (LINKEDLIST l') l -> fits (CList l) -> saves (OList (LINKEDLIST l')) (CList l).
Proof.
  intros [Hl Hok] (H1 & H2 & H3). cbn [strings] in *. rewrite <- Hl in H1, H3.
  destruct (save_list_ok l' Hok) as (bss & Hb & Hw); [lia|eapply len_ok_mono; [done|lia]|]. rewrite Hl in *. pose proof (encs_total bss l Hb).
  assert (zlen l' = zlen l) as Hzl by (rewrite <- Hl; unfold zlen; by rewrite length_fmap). pose proof (zlen_nonneg l).
  pose proof (zlen_total l). destruct (save_counted (zlen l) (fun rdb nwritten => save_list rdb l' nwritten) (concat bss)) as [Hs Hz];
    [lia|eapply len_ok_mono; [done|lia]|done|lia|].
  exists (enc_len (zlen l) ++ concat bss). cbn [rdbSaveObject]. rewrite Hzl. split; [done|]. split; [done|]. at_type.
  apply load_len_ok; [lia|]. rewrite to_nat_zlen. eapply reads_map; [apply (load_list_ok bss l Hb _ [])|].
  - destruct (Z.ltb_spec list_max_ziplist_entries (zlen l)); [by split|]. split; [exact new_ziplist|]. split; [constructor|].
    change (zlen (@nil (list Z))) with 0. unfold zlen in *. lia.
  - intros o Ho. by apply reads_ret.
Qed.

Lemma intset_blob_ok iset xs : Intset.repr iset xs -> zlen xs < 2 ^ 28 ->
  Intset.intsetBlobLen iset = zlen (intset_blob iset) /\ zlen (intset_blob iset) <= 8 + 8 * zlen xs /\ blob_intset (intset_blob iset) = Some iset.
Proof.
  intros Hr Hl. pose proof Hr as [Henc Hlen Hc _ _]. pose proof (zlen_nonneg xs).
  assert (zlen (Intset.contents iset) = Intset.encoding iset * zlen xs) as Hz by (rewrite Hc; apply Intset.zlen_encode_all; destruct Henc as [->|[->| ->] ]; lia).
  assert (2 <= Intset.encoding iset <= 8) as He by (destruct Henc as [->|[->| ->] ]; lia).
  assert (zlen (intset_blob iset) = 8 + Intset.encoding iset * zlen xs) as Hb.
  { unfold intset_blob. rewrite !zlen_app, !zlen_le_encode. lia. }
  split; [|split; [rewrite Hb; nia|]].
  - unfold Intset.intsetBlobLen. rewrite Hb, Hlen. unfold uwrap. rewrite Z.mod_small by nia. lia.
  - unfold blob_intset, intset_blob. set (rest := le_encode 4 (Intset.len iset) ++ _).
    assert (load (le_encode 4 (Intset.encoding iset) ++ rest) 0 4 = Some (le_encode 4 (Intset.encoding iset))) as -> by by apply (load_app []).
    unfold rest. clear rest.
    cbn [mbind option_bind]. rewrite (load_app (le_encode 4 _) (le_encode 4 (Intset.len iset))) by by rewrite zlen_le_encode.
    cbn [mbind option_bind]. rewrite !le_decode_encode. change (2 ^ (8 * Z.of_nat 4)) with (2 ^ 32).
    rewrite !Z.mod_small by lia. f_equal. destruct iset as [enc len cont]. cbn [Intset.encoding Intset.len Intset.contents] in *. f_equal.
Qed.

Lemma save_intset_ok iset m : set_ok (SetType.INTSET iset) m -> fits (CSet m) -> saves (OSet (SetType.INTSET iset)) (CSet m).
Proof.
  intros Hs Hf. pose proof Hs as (zs & Hr & Hz & Hm & Hmax). pose proof (SetType.chars_size hash_seed _ seed_nonneg max_ok zs Hz) as Hcs.
  rewrite <- Hm in Hcs. destruct (SetType.refines_list iset zs Hr) as (xs & Hrep & Hnd & Hx).
  assert (zlen xs = Z.of_nat (size m)) as Hxs by (rewrite Hcs; by apply (Intset.refines_size iset)).
  destruct (intset_blob_ok iset xs Hrep) as (Hlen & Hbound & Hload); [lia|].
  assert (zlen (elements m) = Z.of_nat (size m)) as Hel by done. pose proof (zlen_total (elements m)) as Ht.
  assert (forall rdb, rdbSaveObject rdb (OSet (SetType.INTSET iset)) = andthen (rdbSaveRawString rdb (intset_blob iset)) 0 (fun rdb nwritten => Some (rdb, nwritten))) as E.
  { intros rdb. cbn [rdbSaveObject]. rewrite Hlen.
    assert (load (intset_blob iset) 0 (zlen (intset_blob iset)) = Some (intset_blob iset)) as ->; [|done].
    rewrite <- (app_nil_r (intset_blob iset)) at 1. change (?m ++ []) with ([] ++ m ++ []). by apply load_app. }
  unfold saves. eapply (fun k Hl H => save_blob_ok (intset_blob iset) (CSet m) _ k Hl Hf E H); [cbn [strings]; lia|].
  rewrite Hload. cbn [mbind option_bind]. rewrite (SetType.intset_size iset zs Hr), <- Hcs.
  destruct (Z.ltb_spec set_max_intset_entries (Z.of_nat (size m))); [lia|]. cbn [mbind option_bind]. by eexists.
Qed.

(** Iterating over a dictionary from the start. *)
Lemma save_dict_all {V} save (h : list Z -> Z) (d : Dict.dict (K := list Z) (V := V)) bss : Dict.wf h d ->
  Forall2 (fun e bs => prepends (fun k rdb nw => save rdb e nw k) bs) (Dict.all_entries d) bss ->
  appends (fun rdb nw => save_dict save (dict_fuel d) d Dict.dictGetIterator rdb nw) (concat bss).
Proof.
  intros Hw Hb. apply (save_dict_ok save h d Hw); [by split_and!|by rewrite (Dict.remaining_all h d Hw)|].
  pose proof (Forall2_length Hb) as Hl. unfold dict_fuel. rewrite (Dict.wf_dictSize h d Hw), to_nat_zlen. lia.
Qed.

Lemma set_ht_entries (d : Dict.dict (K := list Z) (V := unit)) (m : members) : Dict.refines (SetType.hash hash_seed) d (gset_to_gmap tt m) -> Dict.key <$> Dict.all_entries d ≡ₚ elements m.
Proof.
  intros [Hw Hm]. apply NoDup_Permutation; [exact (Dict.wf_keys _ _ Hw)|apply NoDup_elements|]. intros x. rewrite list_elem_of_fmap, elem_of_elements. split.
  - intros ([k v] & -> & He). apply Hm in He. cbn. by apply lookup_gset_to_gmap_Some in He as [? _].
  - intros Hx. exists (Dict.mkEntry x tt). split; [done|]. apply Hm. by apply lookup_gset_to_gmap_Some.
Qed.

Lemma save_set_ht_ok (d : Dict.dict (K := list Z) (V := unit)) (m : members) : set_ok (SetType.HT d) m -> fits (CSet m) -> saves (OSet (SetType.HT d)) (CSet m).
Proof.
  intros Hd (H1 & H2 & H3). cbn [strings] in *. pose proof (set_ht_entries d m Hd) as Hp. rewrite <- (total_perm _ _ Hp) in H1, H3.
  destruct (set_entries_ok (Dict.all_entries d)) as (bss & Hb & He); [lia|eapply len_ok_mono; [done|lia]|]. pose proof (encs_total bss _ He).
  pose proof (proj1 Hd) as Hw. pose proof (save_dict_all save_set_entry _ d bss Hw Hb) as Hs.
  set (ss := Dict.key <$> Dict.all_entries d) in *. pose proof (zlen_total ss).
  assert (Dict.dictSize d = zlen ss) as Hsize by (rewrite (Dict.wf_dictSize _ d Hw); unfold ss, zlen; by rewrite length_fmap).
  assert (zlen ss = Z.of_nat (size m)) as Hsm by (unfold zlen; by rewrite (Permutation_length Hp)).
  assert (zlen (elements m) = Z.of_nat (size m)) as Hel by done. pose proof (zlen_nonneg ss).
  destruct (save_counted (zlen ss) _ (concat bss) ltac:(lia) ltac:(eapply len_ok_mono; [done|lia]) Hs) as [Hwr Hz]; [lia|].
  exists (enc_len (zlen ss) ++ concat bss). cbn [rdbSaveObject]. rewrite Hsize. split; [done|]. split; [done|]. at_type.
  apply load_len_ok; [lia|]. rewrite to_nat_zlen.
  assert (exists o, (if set_max_intset_entries <? zlen ss then
            if Dict.DICT_HT_INITIAL_SIZE <? zlen ss then r ← Dict.dictExpand Dict.dictCreate (zlen ss); Some (SetType.HT (fst r))
            else Some (SetType.HT Dict.dictCreate)
          else Some (SetType.INTSET Intset.intsetNew)) = Some o /\ set_inv o ∅ (length ss)) as (o & E & Ho).
  { pose proof (SetType.dictCreate_empty hash_seed) as Hc. destruct (Z.ltb_spec set_max_intset_entries (zlen ss)).
    - destruct (Dict.DICT_HT_INITIAL_SIZE <? zlen ss); [|by exists (SetType.HT Dict.dictCreate)].
      destruct (Dict.dictExpand_ok _ set_hash_nonneg Dict.dictCreate (zlen ss) (proj1 Hc)) as (d' & ok & -> & Hw' & Hse & _); [lia|].
      cbn [mbind option_bind fst]. exists (SetType.HT d'). split; [done|]. by eapply Dict.refines_perm.
    - exists (SetType.INTSET Intset.intsetNew). split; [done|]. exists ∅. split_and!; [apply Intset.refines_new|set_solver|by rewrite set_map_empty|].
      rewrite size_empty. unfold zlen in *. lia. }
  eapply reads_must; [exact E|]. eapply reads_map; [apply (load_set_ok bss ss He); [exact Ho|lia|rewrite size_empty; lia]|].
  intros o' Ho'. apply reads_ret. cbn [object_is]. replace m with (list_to_set ss ∪ ∅ : members); [done|]. apply set_eq. intros x.
  rewrite elem_of_union, elem_of_list_to_set, Hp, elem_of_elements. set_solver.
Qed.

Lemma save_hash_ziplist_ok zl m : hash_is (HashType.ZIPLIST zl) m -> fits (CHash m) -> saves (OHash (HashType.ZIPLIST zl)) (CHash m).
Proof.
  intros Hh Hf. pose proof Hh as (P & Hz & Hl & Hm). pose proof Hz as (Hzl & Hnd & Hsh).
  assert (total (strings (CHash m)) = total (HashType.flat P)) as Ht.
  { cbn [strings]. apply total_perm. unfold HashType.flat. rewrite Hm. by rewrite map_to_list_to_map by done. }
  destruct (save_ziplist_blob zl (CHash m) _ Hzl) as [Hlen E]; [by right|]. unfold saves.
  eapply (fun k H => save_blob_ok zl (CHash m) _ k Hlen Hf E H).
  destruct (HashType.length_zl L zl P Hz) as (zl' & -> & Hz'). cbn [mbind option_bind]. destruct (Z.ltb_spec hash_max_ziplist_entries (zlen P)); [lia|].
  cbn [mbind option_bind]. eexists. split; [done|]. by exists P.
Qed.

Lemma hash_ht_entries (d : Dict.dict (K := list Z) (V := robj)) mr : HashType.ht_hash hash_seed d mr ->
  entry_text <$> Dict.all_entries d ≡ₚ map_to_list (decoded <$> mr) /\ Forall (fun e => robj_ok (Dict.val e)) (Dict.all_entries d).
Proof.
  intros [[Hw Hm] Hok]. split.
  - apply NoDup_Permutation; [|apply NoDup_map_to_list|].
    + apply (NoDup_fmap_1 fst). rewrite <- list_fmap_compose. exact (Dict.wf_keys _ _ Hw).
    + intros [f v]. rewrite elem_of_map_to_list, lookup_fmap, list_elem_of_fmap. split.
      * intros ([k w] & [= -> ->] & He). apply Hm in He. cbn [Dict.key Dict.val]. by rewrite He.
      * intros Hv. destruct (mr !! f) as [w|] eqn:Ew; [|done]. cbn in Hv. injection Hv as <-. exists (Dict.mkEntry f w). split; [done|by apply Hm].
  - apply Forall_forall. intros [k v] He%list_elem_of_In. apply Hm in He. by apply (Hok k).
Qed.

Lemma save_hash_ht_ok (d : Dict.dict (K := list Z) (V := robj)) m : hash_is (HashType.HT d) m -> fits (CHash m) -> saves (OHash (HashType.HT d)) (CHash m).
Proof.
  intros (mr & Hd & ->) (H1 & H2 & H3). cbn [strings] in *. destruct (hash_ht_entries d mr Hd) as [Hp Hv]. set (m := decoded <$> mr) in *.
  set (P := entry_text <$> Dict.all_entries d) in *.
  assert (HashType.flat P ≡ₚ HashType.flat (map_to_list m)) as Hflat by (unfold HashType.flat; by rewrite Hp).
  rewrite <- (total_perm _ _ Hflat) in H1, H3. assert (zlen (HashType.flat P) <= 2 ^ 26) as H2' by (unfold zlen in *; by rewrite (Permutation_length Hflat)).
  rewrite HashType.zlen_flat in H2'. pose proof (zlen_nonneg P).
  destruct (hash_entries_ok (Dict.all_entries d) Hv) as (bss & Hb & He); [fold P; lia|fold P; eapply len_ok_mono; [done|lia]|]. fold P in He.
  pose proof (pairs_total bss P He). pose proof (proj1 (proj1 Hd)) as Hw. pose proof (save_dict_all save_hash_entry _ d bss Hw Hb) as Hs.
  pose proof (zlen_total (HashType.flat P)) as Ht. rewrite HashType.zlen_flat in Ht.
  assert (Dict.dictSize d = zlen P) as Hsize by (rewrite (Dict.wf_dictSize _ d Hw); unfold P, zlen; by rewrite length_fmap).
  destruct (save_counted (zlen P) _ (concat bss) ltac:(lia) ltac:(eapply len_ok_mono; [done|lia]) Hs) as [Hwr Hz]; [lia|].
  assert (NoDup (fst <$> P)) as Hnd by (unfold P; rewrite <- list_fmap_compose; exact (Dict.wf_keys _ _ Hw)).
  assert (m = list_to_map P) as Em by (rewrite <- (list_to_map_to_list m); symmetry; by apply list_to_map_proper).
  exists (enc_len (zlen P) ++ concat bss). cbn [rdbSaveObject]. rewrite Hsize. split; [done|]. split; [done|]. at_type.
  apply load_len_ok; [lia|]. rewrite to_nat_zlen. destruct (Z.ltb_spec hash_max_ziplist_entries (zlen P)).
  - unfold HashType.createHashObject. pose proof (load_hash_convert_ok bss P Ziplist.ziplistNew [] He new_ziplist Hnd) as Hr. cbn [app] in Hr.
    intros rest ck. destruct (Hr ltac:(lia) rest ck) as (o & Eo & Ho). exists o. rewrite Em. split; [|done]. rewrite <- Eo.
    by destruct (HashType.hashTypeConvert _ _ _) as [[]|] eqn:Ec.
  - eapply reads_must; [done|]. rewrite Em. apply (load_hash_ziplist_ok bss P He Ziplist.ziplistNew []); try done; try (cbn [app]; lia).
    exact new_ziplist.
Qed.

Lemma rdbSaveObject_ok o c : object_is o c -> fits c -> saves o c.
Proof.
  intros Ho Hf. destruct o as [o|[zl|l']|[d|iset]|[zl|d]], c as [s|l|m|m]; try done; cbn [object_is] in Ho.
  - destruct Ho. by apply save_string_ok.
  - by apply save_list_ziplist_ok.
  - by apply save_linkedlist_ok.
  - by apply save_set_ht_ok.
  - by apply save_intset_ok.
  - by apply save_hash_ziplist_ok.
  - by apply save_hash_ht_ok.
Qed.

(** ** Keys, databases and the file *)

(** Steps of which only the failure is looked at. *)
Lemma wrote_let w f bs k bs' c : writes (fun rdb => Some (f rdb)) bs -> (forall w', extends w bs w' -> wrote w' bs' c (k (Some w'))) ->
  wrote w (bs ++ bs') c (let '(rdb, n) := f (Some w) in if n =? -1 then Some (rdb, -1) else k rdb).
Proof.
  intros [_ Hf] Hk. destruct (Hf w) as (w' & n & E & H). assert (f (Some w) = (Some w', n)) as -> by congruence. pose proof (zlen_nonneg bs).
  destruct H as [[-> He]|[-> Hfail]].
  - destruct (Z.eqb_spec (zlen bs) (-1)); [lia|]. destruct (Hk w' He) as (w2 & n2 & -> & [[-> He2]|Hfail]); [exists w2, c|exists w2, n2].
    + split; [done|]. left. split; [done|]. by eapply extends_app.
    + split; [done|by right].
  - exists w', (-1). split; [done|]. by right.
Qed.

Lemma wrote_bind w f bs k bs' c : writes f bs -> (forall w', extends w bs w' -> wrote w' bs' c (k (Some w'))) ->
  wrote w (bs ++ bs') c ('(rdb, n) ← f (Some w); if n =? -1 then Some (rdb, -1) else k rdb).
Proof.
  intros [_ Hf] Hk. destruct (Hf w) as (w' & n & -> & H). cbn [mbind option_bind]. pose proof (zlen_nonneg bs). destruct H as [[-> He]|[-> Hfail]].
  - destruct (Z.eqb_spec (zlen bs) (-1)); [lia|]. destruct (Hk w' He) as (w2 & n2 & -> & [[-> He2]|Hfail]); [exists w2, c|exists w2, n2].
    + split; [done|]. left. split; [done|]. by eapply extends_app.
    + split; [done|by right].
  - exists w', (-1). split; [done|]. by right.
Qed.

Lemma wrote_end w c : wrote w [] c (Some (Some w, c)).
Proof.
  exists w, c. split; [done|]. left. split; [done|]. split; [by rewrite app_nil_r|]. unfold checked. by destruct rdb_checksum.
Qed.

Definition enc_expire (e : Z) : list Z := if e =? -1 then [] else REDIS_RDB_OPCODE_EXPIRETIME_MS :: le_encode 8 e.

Lemma object_type_byte o : uwrap 8 (object_type o) = object_type o /\ object_type o <> REDIS_RDB_OPCODE_EOF /\ object_type o <> REDIS_RDB_OPCODE_SELECTDB /\
  object_type o <> REDIS_RDB_OPCODE_EXPIRETIME /\ object_type o <> REDIS_RDB_OPCODE_EXPIRETIME_MS.
Proof. by destruct o as [|[]|[]|[]]. Qed.

Lemma rdbSaveType_ok type : writes (fun rdb => Some (rdbSaveType rdb type)) [uwrap 8 type].
Proof. by apply rdbWriteRaw_ok. Qed.

(** A key with its value and expire time in the file. *)
Definition entry_enc (key : list Z) (o : robject) (c : content) (e : Z) (bs : list Z) : Prop :=
  exists kbs obs, bs = enc_expire e ++ [object_type o] ++ kbs ++ obs /\ string_enc kbs key /\
    reads (rdbLoadObject (object_type o)) obs (fun o' => object_is o' c).

Definition key_ok (key : list Z) : Prop := zlen key < 2 ^ 31 - 64 /\ len_ok (zlen key).

Lemma rdbSaveKeyValuePair_ok key o c e t : object_is o c -> fits c -> key_ok key -> (e = -1 \/ t <= e) ->
  exists bs, entry_enc key o c e bs /\ forall w, wrote w bs 1 (rdbSaveKeyValuePair (Some w) key o e t).
Proof.
  intros Ho Hf [Hk Hkok] He. destruct (rdbSaveRawString_ok key ltac:(lia) Hkok) as (kbs & Hkw & Hkb & Hkr).
  destruct (rdbSaveObject_ok o c Ho Hf) as (obs & Hw & Hz & Hr). destruct (object_type_byte o) as [Hot _].
  exists (enc_expire e ++ [object_type o] ++ kbs ++ obs). split; [by exists kbs, obs|]. intros w. unfold rdbSaveKeyValuePair.
  assert (forall w, wrote w ([object_type o] ++ kbs ++ obs) 1 (let '(rdb, n) := rdbSaveObjectType (Some w) o in
    if n =? -1 then Some (rdb, -1)
    else
      '(rdb, n) ← rdbSaveStringObject rdb (RRaw key);
      if n =? -1 then Some (rdb, -1)
      else '(rdb, n) ← rdbSaveObject rdb o; if n =? -1 then Some (rdb, -1) else Some (rdb, 1))) as Hsave.
  { intros w0. pose proof (rdbSaveType_ok (object_type o)) as Ht. rewrite Hot in Ht.
    apply (wrote_let w0 (fun rdb => rdbSaveObjectType rdb o) _ (fun rdb => '(rdb, n) ← rdbSaveStringObject rdb (RRaw key);
      if n =? -1 then Some (rdb, -1) else '(rdb, n) ← rdbSaveObject rdb o; if n =? -1 then Some (rdb, -1) else Some (rdb, 1))); [exact Ht|].
    intros w1 _. apply (wrote_bind w1 (fun rdb => rdbSaveStringObject rdb (RRaw key)) _
      (fun rdb => '(rdb, n) ← rdbSaveObject rdb o; if n =? -1 then Some (rdb, -1) else Some (rdb, 1))); [exact Hkw|].
    intros w2 _. rewrite <- (app_nil_r obs). apply (wrote_bind w2 (fun rdb => rdbSaveObject rdb o) _ (fun rdb => Some (rdb, 1))); [exact Hw|].
    intros w3 _. apply wrote_end. }
  unfold enc_expire. destruct (Z.eqb_spec e (-1)) as [->|Hne]; cbn [negb]; [apply Hsave|]. destruct (Z.ltb_spec e t); [lia|].
  change ((REDIS_RDB_OPCODE_EXPIRETIME_MS :: le_encode 8 e) ++ ?x) with ([REDIS_RDB_OPCODE_EXPIRETIME_MS] ++ le_encode 8 e ++ x).
  apply (wrote_let w (fun rdb => rdbSaveType rdb REDIS_RDB_OPCODE_EXPIRETIME_MS)); [apply (rdbSaveType_ok REDIS_RDB_OPCODE_EXPIRETIME_MS)|].
  intros w1 _. apply (wrote_let w1 (fun rdb => rdbSaveMillisecondTime rdb e)); [apply rdbWriteRaw_ok; [done|by rewrite zlen_le_encode]|].
  intros w2 _. apply Hsave.
Qed.

Lemma load_type_ok type e : 0 <= type < 252 -> in_int 64 e -> reads load_type (enc_expire e ++ [type]) (fun p => p = (type, e)).
Proof.
  intros Ht He. unfold enc_expire. destruct (Z.eqb_spec e (-1)) as [->|Hne]; intros rest ck; unfold load_type, rdbLoadType.
  - change ([] ++ [type]) with [type]. rewrite read_ok by done. cbn [bind_res byte nth]. unfold REDIS_RDB_OPCODE_EXPIRETIME, REDIS_RDB_OPCODE_EXPIRETIME_MS.
    destruct (Z.eqb_spec type 253); [lia|]. destruct (Z.eqb_spec type 252); [lia|]. by eexists.
  - change ((REDIS_RDB_OPCODE_EXPIRETIME_MS :: le_encode 8 e) ++ [type]) with ([252] ++ le_encode 8 e ++ [type]). rewrite <- !app_assoc.
    rewrite read_ok by done. cbn [bind_res byte nth]. change (252 =? REDIS_RDB_OPCODE_EXPIRETIME) with false.
    change (252 =? REDIS_RDB_OPCODE_EXPIRETIME_MS) with true. cbv iota. unfold rdbLoadMillisecondTime. rewrite read_ok by (done || by rewrite zlen_le_encode).
    cbn [bind_res]. rewrite (swrap_le_roundtrip 8) by (done || lia). destruct (Z.eqb_spec e (-1)); [done|].
    rewrite read_ok by done. cbn [bind_res byte nth]. rewrite !checked_app. by eexists.
Qed.

(** *** The contents of the databases *)

Record contents := mkContents { c_dict : list (list Z * content); c_expires : gmap (list Z) Z }.

Definition db_is (db : redisDb) (a : contents) : Prop :=
  Forall2 (fun p q => p.1 = q.1 /\ object_is p.2 q.2) (db_dict db) (c_dict a) /\ db_expires db = c_expires a.

Definition contents_ok (a : contents) : Prop :=
  NoDup (fst <$> c_dict a) /\ Forall (fun q => key_ok q.1 /\ fits q.2) (c_dict a) /\ map_Forall (fun _ e => in_int 64 e) (c_expires a).

Definition expire (a : contents) (key : list Z) : Z := default (-1) (c_expires a !! key).

(** Keys that have expired at the time [t] of saving, or when loading as a master, are left out. *)
Definition survives (a : contents) (t : Z) (key : list Z) : bool :=
  let e := expire a key in (e =? -1) || (negb (e <? t) && negb (master && (e <? now))).

Abbreviation world := (gmap (Z * list Z) (content * Z)).

Definition add_contents (a : contents) (t j : Z) (W : world) : world :=
  foldl (fun W q => if survives a t q.1 then <[(j, q.1) := (q.2, expire a q.1)]> W else W) W (c_dict a).
Fixpoint world_of (t j : Z) (l : list contents) (W : world) : world :=
  match l with [] => W | a :: l => world_of t (j + 1) l (add_contents a t j W) end.

Definition loaded_is (l : loaded) (W : world) : Prop := forall jk,
  match l_dict l !! jk, W !! jk with
  | Some o, Some (c, e) => object_is o c /\ l_expires l !! jk = if e =? -1 then None else Some e
  | None, None => l_expires l !! jk = None
  | _, _ => False
  end.

Lemma loaded_add l W j key o c e l' : loaded_is l W -> W !! (j, key) = None -> object_is o c -> add_key l j key o e = Some l' ->
  loaded_is l' (<[(j, key) := (c, e)]> W).
Proof.
  intros Hl HW Ho Ha. unfold add_key in Ha. destruct (l_dict l !! (j, key)); [done|]. injection Ha as <-.
  intros jk. specialize (Hl jk) as Hjk. cbn [l_dict l_expires]. destruct (decide (jk = (j, key))) as [->|Hne].
  - rewrite !lookup_insert_eq. split; [done|]. specialize (Hl (j, key)). rewrite HW in Hl. destruct (l_dict l !! (j, key)); [done|].
    destruct (Z.eqb_spec e (-1)); [done|by rewrite lookup_insert_eq].
  - rewrite !lookup_insert_ne by done. destruct (Z.eqb_spec e (-1)); [done|by rewrite lookup_insert_ne by done].
Qed.

Lemma add_key_fresh l W j key o e : loaded_is l W -> W !! (j, key) = None -> exists l', add_key l j key o e = Some l'.
Proof.
  intros Hl HW. specialize (Hl (j, key)). rewrite HW in Hl. unfold add_key. destruct (l_dict l !! (j, key)); [done|by eexists].
Qed.

Lemma load_entry_ok key o c e bs j l W : entry_enc key o c e bs -> in_int 64 e -> loaded_is l W -> W !! (j, key) = None ->
  forall fuel rest ck, exists l', load_loop (S fuel) (mkR (bs ++ rest) ck) j l = load_loop fuel (mkR rest (checked ck bs)) j l' /\
    loaded_is l' (if master && negb (e =? -1) && (e <? now) then W else <[(j, key) := (c, e)]> W).
Proof.
  intros (kbs & obs & -> & [_ Hk] & Ho) He Hl HW fuel rest ck. cbn [load_loop]. destruct (object_type_byte o) as (_ & H1 & H2 & _).
  assert (0 <= object_type o < 252) as Ht by by destruct o as [|[]|[]|[]].
  rewrite (app_assoc (enc_expire e)), <- app_assoc. destruct (load_type_ok (object_type o) e Ht He ((kbs ++ obs) ++ rest) ck) as (p & -> & ->).
  cbn [bind_res]. destruct (Z.eqb_spec (object_type o) REDIS_RDB_OPCODE_EOF); [done|]. destruct (Z.eqb_spec (object_type o) REDIS_RDB_OPCODE_SELECTDB); [done|].
  set (ck1 := checked ck (enc_expire e ++ [object_type o])). rewrite <- app_assoc.
  destruct (Hk false (obs ++ rest) ck1) as (ko & Ek & Hkd & _). unfold rdbLoadStringObject. rewrite Ek. cbn [bind_res].
  destruct (Ho rest (checked ck1 kbs)) as (o' & -> & Ho'). cbn [bind_res]. unfold ck1. rewrite !checked_app, Hkd, <- !app_assoc.
  destruct (master && negb (e =? -1) && (e <? now)); [by exists l|].
  destruct (add_key_fresh l W j key o' e Hl HW) as (l' & El). rewrite El. cbn [must]. exists l'. split; [done|]. by eapply loaded_add.
Qed.

(** A part of the file: it is written, and the loop of rdbLoad reads it in [n] rounds. *)
Definition wroteb (w : wrio) (bs : list Z) (r : option (rio * bool)) : Prop :=
  exists w' b, r = Some (Some w', b) /\ ((b = true /\ extends w bs w') \/ (b = false /\ exists k, fails k <> None)).

Definition rounds (n : nat) (bs : list Z) (j j' : Z) (W W' : world) : Prop :=
  forall fuel rest ck l, loaded_is l W -> exists l', load_loop (n + fuel) (mkR (bs ++ rest) ck) j l = load_loop fuel (mkR rest (checked ck bs)) j' l' /\ loaded_is l' W'.

Lemma rounds_0 j W : rounds 0 [] j j W W.
Proof. intros fuel rest ck l Hl. exists l. split; [|done]. cbn. unfold checked. by destruct rdb_checksum. Qed.

Lemma rounds_app n bs j j' W W' n' bs' j'' W'' : rounds n bs j j' W W' -> rounds n' bs' j' j'' W' W'' -> rounds (n + n') (bs ++ bs') j j'' W W''.
Proof.
  intros H H' fuel rest ck l Hl. rewrite <- app_assoc, <- Nat.add_assoc. destruct (H (n' + fuel)%nat (bs' ++ rest) ck l Hl) as (l1 & -> & Hl1).
  destruct (H' fuel rest (checked ck bs) l1 Hl1) as (l2 & -> & Hl2). exists l2. by rewrite checked_app.
Qed.

Lemma wroteb_bind w f bs bs' c k : wrote w bs c f -> c <> -1 -> (forall w', extends w bs w' -> wroteb w' bs' (k (Some w'))) ->
  wroteb w (bs ++ bs') ('(rdb, n) ← f; if n =? -1 then Some (rdb, false) else k rdb).
Proof.
  intros (w' & n & -> & H) Hc Hk. cbn [mbind option_bind]. destruct H as [[-> He]|[-> Hfail]].
  - destruct (Z.eqb_spec c (-1)); [done|]. destruct (Hk w' He) as (w2 & b & -> & [[-> He2]|Hb]); [exists w2, true|exists w2, b].
    + split; [done|]. left. split; [done|]. by eapply extends_app.
    + split; [done|by right].
  - exists w', false. split; [done|]. by right.
Qed.

Definition add_entry (a : contents) (t j : Z) (W : world) (q : list Z * content) : world :=
  if survives a t q.1 then <[(j, q.1) := (q.2, expire a q.1)]> W else W.

Lemma save_entries_ok db a t j : db_expires db = c_expires a -> map_Forall (fun _ e => in_int 64 e) (c_expires a) -> forall ldb la W,
  Forall2 (fun p q => p.1 = q.1 /\ object_is p.2 q.2) ldb la -> NoDup (fst <$> la) -> Forall (fun q => key_ok q.1 /\ fits q.2) la ->
  (forall q, q ∈ la -> W !! (j, q.1) = None) ->
  exists bs n, (n <= length bs)%nat /\ rounds n bs j j W (foldl (add_entry a t j) W la) /\ forall w, wroteb w bs (save_entries (Some w) db t ldb).
Proof.
  intros Hexp Hint ldb. induction ldb as [|[key o] ldb IH]; intros la W Hla Hnd Hok HW; inversion Hla as [|? [key' c] ? la' [Hk Ho] Hla']; subst;
    cbn [fst snd fmap list_fmap foldl save_entries] in *.
  { exists [], 0%nat. split; [done|]. split; [apply rounds_0|]. intros w. exists w, true. split; [done|]. left. split; [done|].
    split; [by rewrite app_nil_r|]. unfold checked. by destruct rdb_checksum. }
  subst key. apply list.NoDup_cons in Hnd as [Hnin Hnd]. apply Forall_cons_iff in Hok as [[Hkey Hfit] Hok]. cbn [fst snd] in Hkey, Hfit.
  assert (getExpire db key' = expire a key') as -> by (unfold getExpire, expire; by rewrite Hexp). set (e := expire a key').
  assert (in_int 64 e) as He.
  { unfold e, expire. destruct (c_expires a !! key') as [x|] eqn:Ex; [by apply (Hint key')|]. cbn. unfold in_int. lia. }
  destruct (decide (e = -1 \/ t <= e)) as [Hsv|Hsv].
  - destruct (rdbSaveKeyValuePair_ok key' o c e t Ho Hfit Hkey Hsv) as (bs & Hb & Hw).
    assert (add_entry a t j W (key', c) = if master && negb (e =? -1) && (e <? now) then W else <[(j, key') := (c, e)]> W) as Eadd.
    { unfold add_entry, survives. cbn [fst snd]. fold e. destruct (Z.eqb_spec e (-1)); cbn [orb negb]; [by rewrite andb_false_r|].
      destruct (Z.ltb_spec e t); [lia|]. cbn [negb andb]. rewrite andb_true_r. by destruct (master && (e <? now)). }
    destruct (IH la' (add_entry a t j W (key', c)) Hla' Hnd Hok) as (bs' & n & Hn & Hr & Hws).
    { intros q Hq. rewrite Eadd. assert (W !! (j, q.1) = None) as HWq by (apply HW; by right).
      destruct (master && _ && _); [done|]. rewrite lookup_insert_ne; [done|]. intros [= E]. apply Hnin. rewrite E. by apply list_elem_of_fmap_2. }
    exists (bs ++ bs'), (1 + n)%nat. split; [|split].
    + pose proof Hb as (kbs & obs & -> & _). rewrite !length_app. cbn [length]. lia.
    + eapply rounds_app; [|exact Hr]. intros fuel rest ck l Hl. rewrite Eadd. apply (load_entry_ok key' o c e bs j l W Hb He Hl). apply (HW (key', c)). by left.
    + intros w. apply (wroteb_bind w _ bs bs' 1 (fun rdb => save_entries rdb db t ldb) (Hw w)); [done|]. intros w' _. apply Hws.
  - destruct (IH la' W Hla' Hnd Hok) as (bs & n & Hn & Hr & Hws); [intros q Hq; apply HW; by right|].
    assert (add_entry a t j W (key', c) = W) as ->.
    { unfold add_entry, survives. cbn [fst snd]. fold e. destruct (Z.eqb_spec e (-1)); [tauto|]. destruct (Z.ltb_spec e t); [done|lia]. }
    exists bs, n. split; [done|]. split; [done|]. intros w. unfold rdbSaveKeyValuePair.
    destruct (Z.eqb_spec e (-1)); [tauto|]. cbn [negb]. destruct (Z.ltb_spec e t); [|lia]. cbn [mbind option_bind]. apply Hws.
Qed.
Lemma wroteb_let w f bs bs' k : writes (fun rdb => Some (f rdb)) bs -> (forall w', extends w bs w' -> wroteb w' bs' (k (Some w'))) ->
  wroteb w (bs ++ bs') (let '(rdb, n) := f (Some w) in if n =? -1 then Some (rdb, false) else k rdb).
Proof.
  intros [_ Hf] Hk. destruct (Hf w) as (w' & n & E & H). assert (f (Some w) = (Some w', n)) as -> by congruence. pose proof (zlen_nonneg bs).
  apply (wroteb_bind w (Some (Some w', n)) bs bs' (zlen bs) k); [by exists w', n|lia|done].
Qed.

Lemma wroteb_and w f bs bs' k : wroteb w bs f -> (forall w', extends w bs w' -> wroteb w' bs' (k (Some w'))) ->
  wroteb w (bs ++ bs') ('(rdb, ok) ← f; if ok : bool then k rdb else Some (rdb, false)).
Proof.
  intros (w' & b & -> & H) Hk. cbn [mbind option_bind]. destruct H as [[-> He]|[-> Hfail]].
  - destruct (Hk w' He) as (w2 & b & -> & [[-> He2]|Hb]); [exists w2, true|exists w2, b]; (split; [done|]); [left|by right].
    split; [done|]. by eapply extends_app.
  - exists w', false. split; [done|]. by right.
Qed.

Lemma wroteb_end w : wroteb w [] (Some (Some w, true)).
Proof.
  exists w, true. split; [done|]. left. split; [done|]. split; [by rewrite app_nil_r|]. unfold checked. by destruct rdb_checksum.
Qed.

Lemma select_rounds i j W : 0 <= j < dbnum -> dbnum < 2 ^ 31 -> rounds 1 (REDIS_RDB_OPCODE_SELECTDB :: enc_len j) i j W W.
Proof.
  intros Hj Hd fuel rest ck l Hl. exists l. split; [|done]. cbn [load_loop Nat.add]. unfold load_type, rdbLoadType.
  change (REDIS_RDB_OPCODE_SELECTDB :: enc_len j) with ([REDIS_RDB_OPCODE_SELECTDB] ++ enc_len j). rewrite <- app_assoc.
  rewrite read_ok by done. cbn [bind_res byte nth].
  change (REDIS_RDB_OPCODE_SELECTDB =? _) with false. change (REDIS_RDB_OPCODE_SELECTDB =? REDIS_RDB_OPCODE_EXPIRETIME_MS) with false. cbv iota.
  cbn [bind_res]. change (REDIS_RDB_OPCODE_SELECTDB =? REDIS_RDB_OPCODE_EOF) with false.
  change (REDIS_RDB_OPCODE_SELECTDB =? REDIS_RDB_OPCODE_SELECTDB) with true. cbv iota. unfold load_len.
  rewrite rdbLoadLen_ok by lia. unfold REDIS_RDB_LENERR. destruct (Z.eqb_spec j (2 ^ 32 - 1)); [lia|].
  destruct (Z.leb_spec dbnum j); [lia|]. by rewrite checked_app.
Qed.

Lemma add_contents_other a t j W i k : i <> j -> add_contents a t j W !! (i, k) = W !! (i, k).
Proof.
  intros Hi. unfold add_contents. revert W. induction (c_dict a) as [|q l IH]; intros W; [done|]. cbn [foldl]. rewrite IH.
  destruct (survives a t q.1); [|done]. apply lookup_insert_ne. congruence.
Qed.

Lemma save_dbs_ok t : dbnum < 2 ^ 31 -> len_ok dbnum -> forall dbs la j W, Forall2 db_is dbs la -> Forall contents_ok la ->
  0 <= j -> j + zlen dbs <= dbnum -> (forall i k, j <= i -> W !! (i, k) = None) ->
  forall i, exists bs n i', (n <= length bs)%nat /\ rounds n bs i i' W (world_of t j la W) /\ forall w, wroteb w bs (save_dbs (Some w) t j dbs).
Proof.
  intros Hd Hlen dbs. induction dbs as [|db dbs IH]; intros la j W Hla Hok Hj Hz HW i; inversion Hla as [|? a ? la' [Hdb Hex] Hla']; subst.
  { exists [], 0%nat, i. split; [done|]. split; [apply rounds_0|]. intros w. apply wroteb_end. }
  rewrite zlen_cons in Hz. pose proof (zlen_nonneg dbs). apply Forall_cons_iff in Hok as [(Hnd & Hall & Hint) Hok]. cbn [world_of save_dbs].
  assert (forall i k, j + 1 <= i -> add_contents a t j W !! (i, k) = None) as HW'.
  { intros i0 k0 Hi. rewrite add_contents_other by lia. apply HW. lia. }
  destruct (Z.eqb_spec (zlen (db_dict db)) 0) as [H0|H0].
  - destruct (db_dict db) as [|p l] eqn:Ed; [|rewrite zlen_cons in H0; pose proof (zlen_nonneg l); lia]. apply Forall2_nil_inv_l in Hdb as E0.
    assert (add_contents a t j W = W) as -> by (unfold add_contents; by rewrite E0).
    destruct (IH la' (j + 1) W Hla' Hok) with (i := i) as (bs & n & i' & H1 & H2 & H3); [lia|lia|intros; apply HW; lia|]. by exists bs, n, i'.
  - destruct (save_entries_ok db a t j Hex Hint (db_dict db) (c_dict a) W Hdb Hnd Hall) as (bs1 & n1 & Hn1 & Hr1 & Hw1); [intros q _; by apply HW|].
    destruct (IH la' (j + 1) (add_contents a t j W) Hla' Hok) with (i := j) as (bs2 & n2 & i' & Hn2 & Hr2 & Hw2); [lia|lia|done|].
    exists ((REDIS_RDB_OPCODE_SELECTDB :: enc_len j) ++ bs1 ++ bs2), (1 + (n1 + n2))%nat, i'.
    split; [|split].
    + rewrite !length_app. cbn [length]. lia.
    + eapply rounds_app; [apply select_rounds; lia|]. by eapply rounds_app.
    + intros w. change ((REDIS_RDB_OPCODE_SELECTDB :: enc_len j) ++ bs1 ++ bs2) with ([REDIS_RDB_OPCODE_SELECTDB] ++ enc_len j ++ bs1 ++ bs2).
      apply (wroteb_let w (fun rdb => rdbSaveType rdb REDIS_RDB_OPCODE_SELECTDB)); [apply (rdbSaveType_ok REDIS_RDB_OPCODE_SELECTDB)|]. intros w1 _.
      apply (wroteb_let w1 (fun rdb => rdbSaveLen rdb j)); [apply rdbSaveLen_ok; [lia|eapply len_ok_mono; [done|lia]]|]. intros w2 _.
      apply (wroteb_and w2 _ bs1 bs2 (fun rdb => save_dbs rdb t (j + 1) dbs)); [apply Hw1|]. intros w3 _. apply Hw2.
Qed.
Lemma checked_range bs : 0 <= checked 0 bs < 2 ^ 64.
Proof. unfold checked. destruct rdb_checksum; [|lia]. by apply Crc64.crc64_range. Qed.

Definition magic : list Z := str "REDIS0006".
Definition trailer (body : list Z) : list Z := le_encode 8 (checked 0 body).

(** A file that is complete up to its checksum. *)
Lemma rdbLoad_ok bs n j W m : rounds n bs 0 j ∅ W -> (n <= length bs)%nat -> (rdb_checksum = false \/ (8 <= m)%nat) ->
  let body := magic ++ bs ++ [REDIS_RDB_OPCODE_EOF] in
  exists l, rdbLoad (body ++ take m (trailer body)) = Loaded l /\ loaded_is l W.
Proof.
  intros Hr Hn Hm body. set (tl := take m (trailer body)). set (file := body ++ tl). unfold rdbLoad.
  assert (file = magic ++ bs ++ [REDIS_RDB_OPCODE_EOF] ++ tl) as Ef by (unfold file, body; by rewrite <- !app_assoc).
  assert (rioRead (mkR file 0) 9 = Some (magic, mkR (bs ++ [REDIS_RDB_OPCODE_EOF] ++ tl) (checked 0 magic))) as -> by (rewrite Ef; by apply rioRead_ok).
  change (bool_decide (take 5 magic = str "REDIS")) with true. cbn [negb].
  change (swrap 32 (HashType.strtoll (drop 5 magic)).1.1) with 6. change ((6 <? 1) || (REDIS_RDB_VERSION <? 6)) with false. cbv iota.
  assert (S (length file) = n + S (length file - n))%nat as Efuel by (rewrite Ef, !length_app; lia). rewrite Efuel.
  destruct (Hr (S (length file - n)) ([REDIS_RDB_OPCODE_EOF] ++ tl) (checked 0 magic) (mkLoaded ∅ ∅)) as (l & El & Hl); [done|].
  rewrite El. exists l. split; [|done]. cbn [load_loop]. unfold load_type, rdbLoadType. rewrite read_ok by done. cbn [bind_res byte nth].
  change (REDIS_RDB_OPCODE_EOF =? _) with false. change (REDIS_RDB_OPCODE_EOF =? REDIS_RDB_OPCODE_EXPIRETIME_MS) with false. cbv iota.
  cbn [bind_res]. change (REDIS_RDB_OPCODE_EOF =? REDIS_RDB_OPCODE_EOF) with true. cbv iota. rewrite !checked_app. fold body.
  change (5 <=? 6) with true. cbn [andb]. destruct rdb_checksum eqn:Eck; [|done]. destruct Hm as [|Hm]; [done|].
  assert (tl = trailer body) as -> by (unfold tl; apply take_ge; unfold trailer; by rewrite length_le_encode).
  rewrite <- (app_nil_r (trailer body)). rewrite rioRead_ok by (done || unfold trailer; by rewrite zlen_le_encode). unfold trailer. rewrite le_decode_encode.
  cbn [rcksum]. pose proof (checked_range body). unfold checked in *. rewrite Eck in *. change (2 ^ (8 * Z.of_nat 8)) with (2 ^ 64). rewrite Z.mod_small by done.
  rewrite Z.eqb_refl. by destruct (_ =? 0).
Qed.

(** The outcomes of rdbSave. *)
Lemma rdbSave_ok t dbs la : dbnum < 2 ^ 31 -> len_ok dbnum -> Forall2 db_is dbs la -> Forall contents_ok la -> zlen dbs <= dbnum ->
  exists bs n j, (n <= length bs)%nat /\ rounds n bs 0 j ∅ (world_of t 0 la ∅) /\ let body := magic ++ bs ++ [REDIS_RDB_OPCODE_EOF] in
  forall flush rename_ok, (rdbSave dbs t flush rename_ok = Some None /\ (rename_ok = false \/ exists k, fails k <> None)) \/
    exists m, rdbSave dbs t flush rename_ok = Some (Some (reaches_disk flush (body ++ take m (trailer body)))) /\ rename_ok = true /\ ((8 <= m)%nat \/ exists k, fails k <> None).
Proof.
  intros Hd Hlen Hla Hok Hz. destruct (save_dbs_ok t Hd Hlen dbs la 0 ∅ Hla Hok) with (i := 0) as (bs & n & j & Hn & Hr & Hw); [lia|lia|intros; by rewrite lookup_empty|].
  exists bs, n, j. split; [done|]. split; [done|]. intros body flush rename_ok. unfold rdbSave.
  destruct (rdbWriteRaw_ok magic) as [_ H0]; [done|done|]. destruct (H0 (mkW [] 0 0)) as (w0 & n0 & E0 & Hw0). fold magic.
  assert (rdbWriteRaw (Some (mkW [] 0 0)) magic = (Some w0, n0)) as -> by congruence. clear E0. destruct Hw0 as [[-> He0]|[-> Hf]]; [|left; split; [done|by right] ].
  change (zlen magic =? -1) with false. cbv iota. destruct (Hw w0) as (w1 & ok & -> & [[-> He1]|[-> Hf]]); cbn [mbind option_bind negb];
    [|left; split; [done|by right] ].
  destruct (rdbSaveType_ok REDIS_RDB_OPCODE_EOF) as [_ H2]. destruct (H2 w1) as (w2 & n2 & E2 & Hw2). 
  assert (rdbSaveType (Some w1) REDIS_RDB_OPCODE_EOF = (Some w2, n2)) as -> by congruence. clear E2.
  destruct Hw2 as [[-> He2]|[-> Hf]]; [|left; split; [done|by right] ]. change (zlen [uwrap 8 REDIS_RDB_OPCODE_EOF] =? -1) with false. cbv iota. cbn [mbind option_bind].
  destruct (extends_app _ _ _ _ _ He0 (extends_app _ _ _ _ _ He1 He2)) as [Ho Hc]. cbn [wout wcksum app] in Ho, Hc.
  change [uwrap 8 REDIS_RDB_OPCODE_EOF] with [REDIS_RDB_OPCODE_EOF] in *. fold body in Ho, Hc. rewrite Hc. fold (trailer body).
  unfold rioWrite. rewrite Ho. destruct rename_ok.
  - right. destruct (fails (wcount w2)) as [m|] eqn:Ef; cbn [wout].
    + exists m. split; [done|]. split; [done|]. right. exists (wcount w2). by rewrite Ef.
    + exists 8%nat. rewrite (take_ge (trailer body)) by (unfold trailer; by rewrite length_le_encode). split; [done|]. split; [done|by left].
  - left. destruct (fails (wcount w2)); (split; [done|by left]).
Qed.
(** DEBUG OBJECT's length is the number of bytes that a save writes. *)
Lemma rdbSavedObjectLen_ok o c : object_is o c -> fits c ->
  exists bs, rdbSavedObjectLen o = Some (zlen bs) /\ forall w, wrote w bs (zlen bs) (rdbSaveObject (Some w) o).
Proof.
  intros Ho Hf. destruct (rdbSaveObject_ok o c Ho Hf) as (bs & [H0 Hw] & _). exists bs. split; [|exact Hw].
  unfold rdbSavedObjectLen. rewrite H0. cbn [mbind option_bind]. pose proof (zlen_nonneg bs). by destruct (Z.eqb_spec (zlen bs) (-1)); [lia|].
Qed.

(** C30: a snapshot that is written without errors is read back: whatever the encodings of the
    values in memory (integers and strings, ziplists, linked lists, intsets and hash tables) and of
    the strings in the file (small integers, compressed, verbatim), rdbLoad of the file that
    rdbSave installs ends with exactly the keys of the databases that have not expired, each with
    its contents and its expire time, and the objects are soundly encoded again. *)
Theorem rdb_roundtrip t dbs la : (forall k, fails k = None) -> zlen dbs <= dbnum < 2 ^ 31 -> Forall2 db_is dbs la -> Forall contents_ok la ->
  exists file l, rdbSave dbs t None true = Some (Some file) /\ rdbLoad file = Loaded l /\ loaded_is l (world_of t 0 la ∅).
Proof.
  intros Hf Hz Hla Hok. destruct (rdbSave_ok t dbs la) as (bs & n & j & Hn & Hr & H); [lia|by left|done|done|lia|].
  destruct (H None true) as [[_ [|[k Hk]]]|(m & -> & _ & [Hm|[k Hk]])]; [done|by destruct Hk| |by destruct Hk].
  destruct (rdbLoad_ok bs n j _ m Hr Hn) as (l & El & Hl); [by right|]. by eexists _, l.
Qed.

(** C31: whatever writes fail, and however much of them reaches the file, rdbSave returns, and when
    it reports success every write up to the end of the data has worked: the bytes it has written
    are the file of which rdbLoad restores everything, but for the end of the eight bytes of the
    checksum.  They are what rename installs when the final fflush, fsync and fclose work, whose
    results are ignored; when these fail, the file is the part of them that has reached the disk
    ([flush_error_lost]).  An error is reported only when a write or rename has failed.  No string
    or collection is longer than 16383 bytes or elements here: the error of writing a longer
    length is lost ([length_write_error_lost]), like that of the checksum
    ([checksum_write_error_lost]). *)
Theorem rdb_reports_errors t dbs la flush rename_ok : len_ok dbnum -> zlen dbs <= dbnum < 2 ^ 31 -> Forall2 db_is dbs la -> Forall contents_ok la ->
  exists body l, rdbLoad (body ++ trailer body) = Loaded l /\ loaded_is l (world_of t 0 la ∅) /\
    ((rdbSave dbs t flush rename_ok = Some None /\ (rename_ok = false \/ exists k, fails k <> None)) \/
     exists m, rdbSave dbs t flush rename_ok = Some (Some (reaches_disk flush (body ++ take m (trailer body)))) /\ rename_ok = true /\
       ((8 <= m)%nat \/ exists k, fails k <> None)).
Proof.
  intros Hlen Hz Hla Hok. destruct (rdbSave_ok t dbs la) as (bs & n & j & Hn & Hr & H); [lia|done|done|done|lia|].
  destruct (rdbLoad_ok bs n j _ 8 Hr Hn) as (l & El & Hl); [by right|].
  exists (magic ++ bs ++ [REDIS_RDB_OPCODE_EOF]), l. split; [|split; [done|apply H] ].
  by rewrite (take_ge (trailer _)) in El by (unfold trailer; by rewrite length_le_encode).
Qed.
End Rdb.
(** ** Concrete snapshots *)

(** A server with the default limits, 16 databases and a disk on which the writes [fails] fail. *)
Definition demo_save_flush (compression : bool) (fails : nat -> option nat) (flush : option nat) (dbs : list redisDb) : option (option (list Z)) :=
  rdbSave compression true (fun _ => 0) (fun _ => 0) (2 ^ 40) fails dbs 1000 flush true.
Definition demo_save (compression : bool) (fails : nat -> option nat) := demo_save_flush compression fails None.
Definition demo_load (file : list Z) : load_result :=
  rdbLoad 5381 512 512 64 512 64 true true (fun _ => 0) 16 true 2000 file.
Definition no_fails (k : nat) : option nat := None.
Definition fails_at (i : nat) (k : nat) : option nat := if (k =? i)%nat then Some O else None.

Definition demo_value : robject := OList (LINKEDLIST [RRaw (str "hello hello hello hello hello hello"); RInt 70000]).
Definition demo_dbs : list redisDb :=
  [mkDb [(str "a", OString (RInt 12345)); (str "old", OString (RRaw (str "x")))] {[ str "a" := 5000; str "old" := 1500 ]};
   mkDb [] ∅; mkDb [(str "l", demo_value)] ∅].
Definition demo_contents : list contents :=
  [mkContents [(str "a", CString (str "12345")); (str "old", CString (str "x"))] {[ str "a" := 5000; str "old" := 1500 ]};
   mkContents [] ∅; mkContents [(str "l", CList [str "hello hello hello hello hello hello"; str "70000"])] ∅].

(** The integer takes three bytes, the repeated text is compressed. *)
Example demo_file : demo_save true no_fails [mkDb [(str "l", demo_value)] ∅] =
  Some (Some (str "REDIS0006" ++ [254; 0; 1; 1] ++ str "l" ++ [2; 195; 14; 35; 6] ++ str "hello h" ++ [224; 17; 5; 1] ++ str "lo" ++
    [194; 112; 17; 1; 0; 255; 151; 7; 14; 121; 2; 81; 133; 10])).
Proof. vm_compute. reflexivity. Qed.

Lemma demo_is fails : Forall2 (db_is 5381 512 512 255) demo_dbs demo_contents /\ Forall (contents_ok fails) demo_contents.
Proof.
  assert (forall n, n < 2 ^ 14 -> len_ok fails n) as Hs by (intros n Hn; by right).
  assert (in_int 64 12345 /\ in_int 64 70000 /\ in_int 64 5000 /\ in_int 64 1500) as (H1 & H2 & H3 & H4) by (unfold in_int; lia). split.
  - assert (object_is 5381 512 512 255 (OString (RInt 12345)) (CString (str "12345"))) as Ha by by split.
    assert (object_is 5381 512 512 255 (OString (RRaw (str "x"))) (CString (str "x"))) as Hx by by split.
    assert (object_is 5381 512 512 255 demo_value (CList [str "hello hello hello hello hello hello"; str "70000"])) as Hl by by repeat constructor.
    repeat apply Forall2_cons_2; try apply Forall2_nil_2; unfold db_is; cbn [db_dict db_expires c_dict c_expires]; (split; [|reflexivity]).
    + apply Forall2_cons; [by split|]. apply Forall2_cons; [by split|constructor].
    + constructor.
    + apply Forall2_cons; [by split|constructor].
  - assert (forall key c, (zlen key <? 100) && (total (strings c) <? 1000) = true -> key_ok fails key /\ fits fails c) as Hf.
    { intros key c [H5%Z.ltb_lt H6%Z.ltb_lt]%andb_true_iff. pose proof (zlen_total (strings c)).
      split; (split_and!; [lia|..]); try lia; apply Hs; lia. }
    apply Forall_cons; [|apply Forall_cons; [|apply Forall_cons; [|constructor] ] ]; (split_and!; cbn [c_dict c_expires fmap list_fmap fst]).
    + apply list.NoDup_cons. split; [|apply NoDup_singleton]. by intros H%list_elem_of_singleton.
    + apply Forall_cons; [by apply Hf|]. apply Forall_cons; [by apply Hf|constructor].
    + intros k e [[<- <-]|[_ [<- <-]%lookup_singleton_Some] ]%lookup_insert_Some; done.
    + constructor.
    + constructor.
    + apply map_Forall_empty.
    + apply NoDup_singleton.
    + apply Forall_cons; [by apply Hf|constructor].
    + apply map_Forall_empty.
Qed.
Definition demo_world : gmap (Z * list Z) (content * Z) := world_of true 2000 1000 0 demo_contents ∅.

Lemma rdb_roundtrip_witness : exists file l, demo_save true no_fails demo_dbs = Some (Some file) /\ demo_load file = Loaded l /\
  loaded_is 5381 512 512 255 l demo_world /\ (fun p => (p.1, p.2.2)) <$> map_to_list demo_world = [((0, str "a"), 5000); ((2, str "l"), -1)].
Proof.
  assert (forall i : Z, 0 <= 0 < 2 ^ 64) as Ht by lia. destruct (demo_is no_fails) as [H1 H2].
  destruct (rdb_roundtrip 5381 512 512 64 512 64 true true true (fun _ => 0) (fun _ => 0) (2 ^ 40) no_fails 16 true 2000
    ltac:(unfold Lzf.MAX_OFF; lia) Ht ltac:(lia) ltac:(lia) 255 ltac:(lia) ltac:(lia) ltac:(lia) ltac:(lia) 64 ltac:(lia) ltac:(lia) ltac:(lia)
    1000 demo_dbs demo_contents (fun k => eq_refl) ltac:(vm_compute; split; congruence) H1 H2) as (file & l & E1 & E2 & E3).
  exists file, l. split; [exact E1|]. split; [exact E2|]. split; [exact E3|]. vm_compute. reflexivity.
Defined.
Lemma rdb_reports_errors_witness : exists body l,
  demo_load (body ++ trailer true body) = Loaded l /\ loaded_is 5381 512 512 255 l demo_world /\ demo_save true (fails_at 9) demo_dbs = Some None /\
  exists m, demo_save true (fails_at 28) demo_dbs = Some (Some (body ++ take m (trailer true body))).
Proof.
  assert (forall i : Z, 0 <= 0 < 2 ^ 64) as Ht by lia. destruct (demo_is (fails_at 28)) as [H1 H2].
  destruct (rdb_reports_errors 5381 512 512 64 512 64 true true true (fun _ => 0) (fun _ => 0) (2 ^ 40) (fails_at 28) 16 true 2000
    ltac:(unfold Lzf.MAX_OFF; lia) Ht ltac:(lia) ltac:(lia) 255 ltac:(lia) ltac:(lia) ltac:(lia) ltac:(lia) 64 ltac:(lia) ltac:(lia) ltac:(lia)
    1000 demo_dbs demo_contents None true ltac:(by right) ltac:(vm_compute; split; congruence) H1 H2) as (body & l & E1 & E2 & E3).
  exists body, l. split; [exact E1|]. split; [exact E2|]. split; [vm_compute; reflexivity|].
  destruct E3 as [[E3 _]|(m & E3 & _)]; [|by exists m]. exfalso. vm_compute in E3. congruence.
Defined.

(** Nobody looks at the result of the last write: the snapshot is reported as saved, and the server
    does not start from it. *)
Lemma checksum_write_error_lost :
  match demo_save true (fails_at 28) demo_dbs with Some (Some file) => demo_load file = LoadExit | _ => False end.
Proof. vm_compute. reflexivity. Qed.

(** Nor at that of fflush: a snapshot that has not reached the disk replaces the one before. *)
Lemma flush_error_lost :
  demo_save_flush true no_fails (Some O) demo_dbs = Some (Some []) /\ demo_load [] = LoadExit.
Proof. by vm_compute. Qed.

(** The error of the write of a 32-bit length is lost, too: rdbWriteRaw returns -1, never -4. *)
Lemma length_write_error_lost :
  match demo_save false (fails_at 7) [mkDb [(str "k", OString (RRaw (replicate 16384 97)))] ∅] with
  | Some (Some file) => demo_load file = LoadExit
  | _ => False
  end.
Proof. vm_compute. reflexivity. Qed.

(** rdbLoadTime and rdbLoadMillisecondTime announce an error by -1, which is also a time. *)
Lemma time_minus_one_exits : demo_load (magic ++ REDIS_RDB_OPCODE_EXPIRETIME_MS :: replicate 8 255 ++ [REDIS_RDB_TYPE_STRING; 0; 0; REDIS_RDB_OPCODE_EOF]) = LoadExit.
Proof. vm_compute. reflexivity. Qed.
End Rdb.
