(* ===== verification/Retrieval.v ===== *)
(** * retrieval/: from the keywords of a request to a ranked list of stories

    Model of [src/src/retrieval]: index_reader.cpp, ranker.cpp, result_set.{h,cpp} and
    retrieval_handler.cpp, on the inverted index of [InvertedIndex].  The index is shared with
    the build and the cleaning threads: [rd i] is its state when the posting list of the [i]-th
    keyword is read, [tr d] its state when the local document [d] is translated.  The map of
    the documents hit is a list sorted by document, in the order of [std::map]; scores are
    doubles; [std::sort] is any function that permutes its input into an order compatible with
    the comparison it is given. *)

From Stdlib Require Import ZArith Lia Sorted.
From Stdlib.Floats Require Import SpecFloat.
From stdpp Require Import prelude list gmap numbers.
From S2P Require Import Prelude.
From S2P Require Import LocklessList.
From S2P Require Import InvertedIndex.
From S2P Require Import Double.

Local Open Scope Z_scope.

Module Retrieval.
Import LocklessList InvertedIndex Double.

(** ** types.h *)

Record KeyOfDoc := mkKey { keyword_id : Z; weight_in_doc : spec_float }.
Record DocInfo := mkDoc { doc_story_id : Z; key_info : list KeyOfDoc }.

(** ** index_reader.cpp *)

(** [m_doc_hits_info], a [std::map]: its bindings in increasing order of the document. *)
Abbreviation hits := (list (Z * list KeyOfDoc)).

Fixpoint addHitKeywordToDocInfo (k : KeyOfDoc) (d : Z) (m : hits) : hits :=
  match m with
  | [] => [(d, [k])]
  | (d', ks) :: m' =>
    if d =? d' then (d', ks ++ [k]) :: m'
    else if d <? d' then (d, [k]) :: m
    else (d', ks) :: addHitKeywordToDocInfo k d m'
  end.

(** [while (iter->HasValue())] *)
Fixpoint doclist_loop (fuel : nat) (pl : PostingList) (it : Iter) (keyword : Z) (m : hits) : option hits :=
  match fuel with
  | O => None
  | S fuel =>
    h ← HasValue pl it;
    if snd h : bool then
      v ← GetValue pl (fst h);
      let '(it, onedoc) := v in
      let m := addHitKeywordToDocInfo (mkKey keyword (double_of_float (weight onedoc))) (local_docid onedoc) m in
      it ← Next pl it;
      doclist_loop fuel pl it keyword m
    else Some m
  end.

(** [rd i] is the index when the list of the [i]-th keyword is looked up. *)
Fixpoint beginIntersect_loop (rd : nat -> State) (i : nat) (kws : list (Z * Z)) (m : hits) : option hits :=
  match kws with
  | [] => Some m
  | (keyword, _) :: kws =>
    match GetPostingList (rd i) keyword with
    | None => beginIntersect_loop rd (S i) kws m
    | Some (pl, it) =>
      m ← doclist_loop (S (length (nodes (inner_list_ pl)))) pl it keyword m;
      beginIntersect_loop rd (S i) kws m
    end
  end.

Definition beginIntersect (rd : nat -> State) (request : list (Z * Z)) : option hits :=
  beginIntersect_loop rd 0 request [].

(** The result of TranslateToGlobalID is only logged: a document that is not found keeps its
    local id. *)
Definition getGlobalIDFromLocalID (s : State) (local_id : Z) : Z :=
  match TranslateToGlobalID s local_id with Some g => g | None => local_id end.

(** The bindings left after [m_iter], and the document read. *)
Definition nextDoc (tr : Z -> State) (m : hits) : option (DocInfo * hits) :=
  match m with
  | (d, ks) :: m => Some (mkDoc (getGlobalIDFromLocalID (tr d) d) ks, m)
  | [] => None
  end.

(** ** ranker.cpp *)

Definition compute_rank (doc : DocInfo) : spec_float :=
  dmul (double_of_Z (zlen (key_info doc))) (double_of_Z 1).

(** ** result_set.{h,cpp} *)

Record entry := mkEntry { story_id : Z; score : spec_float }.

(** [operator <]: a higher score comes first. *)
Definition entry_lt (l r : entry) : bool := SFltb (score r) (score l).

Definition insert_doc (docs : list entry) (id : Z) (s : spec_float) : list entry := docs ++ [mkEntry id s].

Section StdSort.
(** [std::sort] with [operator <]. *)
Context (std_sort : list entry -> list entry).

Definition dump (docs : list entry) : list entry * Z := (std_sort docs, zlen docs).

(** ** retrieval_handler.cpp *)

Inductive RetrievalResponseCode := STATE_OK | STATE_ERROR | STATE_KEYWORD_NOT_FOUND.

Record RetrievalResponse := mkResponse {
  resp_code : RetrievalResponseCode;
  num_results : Z;
  results : list entry;
}.

Definition RetrievalResponse0 : RetrievalResponse := mkResponse STATE_OK 0 [].

Definition FLAGS_hit_keywords_ratio : spec_float := S754_finite false 7205759403792794 (-55).
Definition FLAGS_max_doc_return : Z := 100.

(** [for (int i = 0; i < doc_num; i++) response->results.push_back(doc_set->doc(i))] *)
Fixpoint makeReply_loop (n i : nat) (docs : list entry) (rs : list entry) : option (list entry) :=
  match n with
  | O => Some rs
  | S n => e ← docs !! i; makeReply_loop n (S i) docs (rs ++ [e])
  end.

Definition makeReply (response : RetrievalResponse) (doc_num : Z) (docs : list entry) : option RetrievalResponse :=
  let code := if doc_num =? 0 then STATE_KEYWORD_NOT_FOUND else resp_code response in
  let response := mkResponse code (num_results response) (results response) in
  let response := mkResponse STATE_OK (num_results response) (results response) in
  let response := mkResponse (resp_code response) doc_num (results response) in
  rs ← makeReply_loop (Z.to_nat doc_num) 0 docs (results response);
  Some (mkResponse (resp_code response) (num_results response) rs).

(** [FLAGS_hit_keywords_ratio * request.keywords.size()] *)
Definition threshold (request : list (Z * Z)) : spec_float :=
  dmul FLAGS_hit_keywords_ratio (double_of_Z (zlen request)).

(** [while (index_reader.nextDoc(&iter))] *)
Fixpoint collect_loop (fuel : nat) (tr : Z -> State) (request : list (Z * Z)) (m : hits) (doc_set : list entry)
    : option (list entry) :=
  match fuel with
  | O => None
  | S fuel =>
    match nextDoc tr m with
    | None => Some doc_set
    | Some (doc, m) =>
      let s := compute_rank doc in
      let doc_set := if SFltb s (threshold request) then doc_set else insert_doc doc_set (doc_story_id doc) s in
      collect_loop fuel tr request m doc_set
    end
  end.

Definition retrieve (rd : nat -> State) (tr : Z -> State) (max_doc_return : Z) (request : list (Z * Z))
    (response : RetrievalResponse) : option RetrievalResponse :=
  m ← beginIntersect rd request;
  doc_set ← collect_loop (S (length m)) tr request m [];
  let '(docs, doc_num) := dump doc_set in
  let doc_num := if max_doc_return <? doc_num then max_doc_return else doc_num in
  makeReply response doc_num docs.

End StdSort.

(** ** The map of hits *)

Definition hkeys (m : hits) : list Z := m.*1.

Fixpoint hget (m : hits) (d : Z) : list KeyOfDoc :=
  match m with [] => [] | (d', ks) :: m => if d =? d' then ks else hget m d end.

Lemma addHit_keys k d m d' : d' ∈ hkeys (addHitKeywordToDocInfo k d m) <-> d' = d \/ d' ∈ hkeys m.
Proof.
  unfold hkeys. induction m as [|[e ks] m IH]; cbn; [set_solver|].
  destruct (Z.eqb_spec d e) as [->|He]; [set_solver|]. destruct (Z.ltb_spec d e); cbn; set_solver.
Qed.

Lemma addHit_sorted k d m :
  StronglySorted Z.lt (hkeys m) -> StronglySorted Z.lt (hkeys (addHitKeywordToDocInfo k d m)).
Proof.
  induction m as [|[e ks] m IH]; cbn; intros Hs; [by repeat constructor|].
  apply StronglySorted_inv in Hs as [Hs Hf].
  destruct (Z.eqb_spec d e) as [->|He]; [by constructor|]. destruct (Z.ltb_spec d e) as [Hd|Hd].
  - cbn. constructor; [by constructor|]. constructor; [done|]. eapply List.Forall_impl; [|done]. lia.
  - cbn. constructor; [by apply IH|]. apply Forall_forall. intros x Hx.
    fold (hkeys (addHitKeywordToDocInfo k d m)) in Hx. apply list_elem_of_In, addHit_keys in Hx as [->|Hx]; [lia|].
    rewrite Forall_forall in Hf. by apply Hf, list_elem_of_In.
Qed.

Lemma hget_out m d : d ∉ hkeys m -> hget m d = [].
Proof.
  induction m as [|[e ks] m IH]; [done|]. cbn. intros H. destruct (Z.eqb_spec d e); set_solver.
Qed.

Lemma addHit_get k d m d' : StronglySorted Z.lt (hkeys m) ->
  hget (addHitKeywordToDocInfo k d m) d' = if d' =? d then hget m d ++ [k] else hget m d'.
Proof.
  induction m as [|[e ks] m IH]; intros Hs; [cbn; by destruct (d' =? d)|].
  apply StronglySorted_inv in Hs as [Hs Hf]. cbn [addHitKeywordToDocInfo hget].
  destruct (Z.eqb_spec d e) as [->|He]; [cbn; by destruct (d' =? e)|]. destruct (Z.ltb_spec d e) as [Hd|Hd].
  - cbn. destruct (Z.eqb_spec d' d) as [E|_]; [|done]. rewrite (hget_out m d); [done|].
    intros Hin. rewrite Forall_forall in Hf. apply list_elem_of_In in Hin. specialize (Hf _ Hin). cbn in Hf. lia.
  - cbn. rewrite IH by done. destruct (Z.eqb_spec d' e) as [E|?]; [|done].
    destruct (Z.eqb_spec d' d); [lia|done].
Qed.

(** The hits after the events [ev], in order: each is a document. *)
Definition count (d : Z) (ev : list Z) : Z := zlen (filter (fun x => x = d) ev).

Record hinv (m : hits) (ev : list Z) : Prop := {
  hi_sorted : StronglySorted Z.lt (hkeys m);
  hi_keys d : d ∈ hkeys m <-> d ∈ ev;
  hi_get d : zlen (hget m d) = count d ev;
}.

Lemma hinv_nil : hinv [] [].
Proof. split; [constructor|set_solver|done]. Qed.

Lemma count_app d a b : count d (a ++ b) = count d a + count d b.
Proof. unfold count. by rewrite list.filter_app, zlen_app. Qed.

Lemma hinv_add m ev k d : hinv m ev -> hinv (addHitKeywordToDocInfo k d m) (ev ++ [d]).
Proof.
  intros []. split.
  - by apply addHit_sorted.
  - intros x. rewrite addHit_keys, hi_keys0. set_solver.
  - intros x. rewrite addHit_get, count_app by done. unfold count at 2. rewrite filter_cons, filter_nil.
    destruct (Z.eqb_spec x d) as [->|Hx].
    + rewrite decide_True by done. by rewrite zlen_app, hi_get0.
    + rewrite decide_False by done. change (zlen (@nil Z)) with 0. rewrite hi_get0. lia.
Qed.

(** ** Reading the posting lists *)

Lemma doclist_loop_iterate fuel pl it kw m ev ps :
  hinv m ev -> iterate fuel pl it = Some ps ->
  exists m', doclist_loop fuel pl it kw m = Some m' /\ hinv m' (ev ++ (local_docid <$> ps)).
Proof.
  revert it m ev ps. induction fuel as [|fuel IH]; intros it m ev ps Hm; [done|].
  cbn [iterate doclist_loop]. destruct (HasValue pl it) as [[it1 b]|]; [|done]. cbn.
  destruct b; [|intros [= <-]; exists m; cbn; by rewrite app_nil_r].
  destruct (GetValue pl it1) as [[it2 p]|]; [|done]. cbn.
  destruct (Next pl it2) as [it3|]; [|done]. cbn.
  destruct (iterate fuel pl it3) as [ps'|] eqn:Hi; [|done]. cbn. intros [= <-].
  destruct (IH it3 (addHitKeywordToDocInfo (mkKey kw (double_of_float (weight p))) (local_docid p) m)
              (ev ++ [local_docid p]) ps') as (m' & Hl & Hm'); [by apply hinv_add|done|].
  exists m'. split; [done|]. by rewrite fmap_cons, cons_middle, app_assoc.
Qed.

(** A state of the index that some sequence of critical sections reaches. *)
Definition reachable (hash : list Z -> Z) (life : Z) (s : State) : Prop :=
  exists es, zlen es < 2 ^ 31 - 1 /\ adds_ok es /\ run hash life State0 es = Some s.

Lemma reachable_read hash life s tok pl it :
  reachable hash life s -> GetPostingList s tok = Some (pl, it) ->
  exists ps, iterate (S (length (nodes (inner_list_ pl)))) pl it = Some ps /\ read_token s tok = Some ps.
Proof.
  intros (es & Hb & Hok & Hrun) Hg. destruct (run_State0 hash life es Hb Hok) as (s' & Hrun' & Hr).
  rewrite Hrun in Hrun'. injection Hrun' as <-. pose proof (read_token_rep _ _ _ tok Hr) as Ht.
  unfold read_token in *. rewrite Hg in *. cbn [mbind option_bind fst snd] in *.
  unfold GetPostingList in Hg. pose proof (rep_index _ _ _ Hr tok) as Hi.
  destruct (index_ s !! tok); [|done]. destruct Hi as (al & Hal & _). rewrite Hal in Ht. by eexists.
Qed.

(** The documents of the postings read for the keywords of a request, in order. *)
Fixpoint hit_docs (rd : nat -> State) (i : nat) (kws : list (Z * Z)) : list Z :=
  match kws with
  | [] => []
  | (keyword, _) :: kws => (local_docid <$> default [] (read_token (rd i) keyword)) ++ hit_docs rd (S i) kws
  end.

Lemma beginIntersect_hits hash life rd : (forall i, reachable hash life (rd i)) ->
  forall kws i m ev, hinv m ev ->
  exists m', beginIntersect_loop rd i kws m = Some m' /\ hinv m' (ev ++ hit_docs rd i kws).
Proof.
  intros Hr. induction kws as [|[kw w] kws IH]; intros i m ev Hm; cbn [beginIntersect_loop hit_docs].
  { exists m. by rewrite app_nil_r. }
  destruct (GetPostingList (rd i) kw) as [[pl it]|] eqn:Hg.
  - destruct (reachable_read _ _ _ _ _ _ (Hr i) Hg) as (ps & Hi & Ht).
    destruct (doclist_loop_iterate _ pl it kw m ev ps Hm Hi) as (m1 & Hl & Hm1). rewrite Hl. cbn [mbind option_bind].
    destruct (IH (S i) m1 _ Hm1) as (m' & H & Hm'). exists m'. split; [done|]. rewrite Ht. cbn. by rewrite app_assoc.
  - destruct (IH (S i) m _ Hm) as (m' & H & Hm'). exists m'. split; [done|].
    unfold read_token. rewrite Hg. by cbn.
Qed.

(** ** Scores and the threshold

    For fewer than 1024 hits and keywords the double of a hit count is exact and ordered like
    the count, and the rounded product with 0.2 does not cross an integer: a document passes
    when it is hit by at least one fifth of the keywords. *)

Definition rank (h : Z) : spec_float := dmul (double_of_Z h) (double_of_Z 1).
Definition thr (n : Z) : spec_float := dmul FLAGS_hit_keywords_ratio (double_of_Z n).

Definition rank_step (h : nat) : bool :=
  SFltb (rank (Z.of_nat h)) (rank (Z.of_nat h + 1)) && negb (is_nan (rank (Z.of_nat h))).

Definition thr_step (n : nat) : bool :=
  let c := (Z.of_nat n + 4) / 5 in
  negb (SFltb (rank c) (thr (Z.of_nat n))) && ((c =? 0) || SFltb (rank (c - 1)) (thr (Z.of_nat n))) &&
  negb (is_nan (thr (Z.of_nat n))).

Lemma rank_steps : forallb rank_step (seq 0 1024) = true.
Proof. vm_compute. reflexivity. Qed.

Lemma thr_steps : forallb thr_step (seq 0 1024) = true.
Proof. vm_compute. reflexivity. Qed.

Lemma forallb_seq f n h : forallb f (seq 0 n) = true -> (h < n)%nat -> f h = true.
Proof. intros H Hn. eapply forallb_forall in H; [exact H|]. apply in_seq. lia. Qed.

Lemma rank_ok h : (h < 1024)%nat ->
  SFltb (rank (Z.of_nat h)) (rank (Z.of_nat (S h))) = true /\ is_nan (rank (Z.of_nat h)) = false.
Proof.
  intros Hh. pose proof (forallb_seq _ _ _ rank_steps Hh) as H. unfold rank_step in H.
  apply andb_prop in H as [H1 H2]. rewrite Nat2Z.inj_succ. split; [exact H1|by apply negb_true_iff].
Qed.

Lemma rank_lt h k : (h < k)%nat -> (k < 1024)%nat -> SFltb (rank (Z.of_nat h)) (rank (Z.of_nat k)) = true.
Proof.
  induction 1 as [|k Hk IH]; intros Hb; [by apply rank_ok; lia|].
  eapply (SFltb_trans _ (rank (Z.of_nat k))); try (apply rank_ok; lia). apply IH. lia.
Qed.

Lemma rank_ltb h k : 0 <= h < 1024 -> 0 <= k < 1024 -> SFltb (rank h) (rank k) = (h <? k).
Proof.
  intros Hh Hk. rewrite <- (Z2Nat.id h), <- (Z2Nat.id k) by lia.
  assert (HR : forall x, (x < 1024)%nat -> is_nan (rank (Z.of_nat x)) = false) by (intros; by apply rank_ok).
  destruct (Z.ltb_spec (Z.of_nat (Z.to_nat h)) (Z.of_nat (Z.to_nat k))) as [H|H]; [apply rank_lt; lia|].
  destruct (decide (Z.to_nat h = Z.to_nat k)) as [->|Hne]; [apply SFltb_irrefl, HR; lia|].
  destruct (SFltb _ _) eqn:E; [|done].
  assert (E' : SFltb (rank (Z.of_nat (Z.to_nat k))) (rank (Z.of_nat (Z.to_nat h))) = true) by (apply rank_lt; lia).
  rewrite <- (SFltb_irrefl (rank (Z.of_nat (Z.to_nat h)))) by (apply HR; lia).
  symmetry. apply (SFltb_trans _ (rank (Z.of_nat (Z.to_nat k)))); [apply HR; lia..|exact E|exact E'].
Qed.

Lemma rank_not_nan h : 0 <= h < 1024 -> is_nan (rank h) = false.
Proof. intros Hh. rewrite <- (Z2Nat.id h) by lia. apply rank_ok. lia. Qed.

Lemma rank_thr h n : 0 <= h < 1024 -> 0 <= n < 1024 -> SFltb (rank h) (thr n) = (5 * h <? n).
Proof.
  intros Hh Hn. assert (Hc : (Z.to_nat n < 1024)%nat) by lia.
  pose proof (forallb_seq _ _ _ thr_steps Hc) as H. unfold thr_step in H. rewrite Z2Nat.id in H by lia.
  apply andb_prop in H as [H Hnan]. apply andb_prop in H as [H1 H2].
  apply negb_true_iff in H1, Hnan. cbv zeta in *.
  pose proof (Z.div_mod (n + 4) 5 ltac:(lia)) as Hdiv. pose proof (Z.mod_pos_bound (n + 4) 5 ltac:(lia)).
  set (c := (n + 4) / 5) in *. clearbody c. assert (Hcn : 5 * c - 5 < n <= 5 * c) by lia.
  destruct (Z.ltb_spec (5 * h) n) as [Hlt|Hge].
  - destruct (Z.eqb_spec c 0) as [->|Hc0]; [lia|]. cbn in H2.
    destruct (decide (h = c - 1)) as [->|Hne]; [done|].
    eapply (SFltb_trans _ (rank (c - 1))); [apply rank_not_nan; lia|apply rank_not_nan; lia|done|rewrite rank_ltb by lia|done].
    apply Z.ltb_lt. lia.
  - destruct (SFltb (rank h) (thr n)) eqn:E; [|done]. rewrite <- H1. symmetry.
    destruct (decide (h = c)) as [->|Hne]; [done|].
    eapply (SFltb_trans _ (rank h)); [apply rank_not_nan; lia|apply rank_not_nan; lia|done|rewrite rank_ltb by lia|done].
    apply Z.ltb_lt. lia.
Qed.

(** ** The documents of a response *)

Lemma makeReply_loop_take n i docs rs : (i + n <= length docs)%nat ->
  makeReply_loop n i docs rs = Some (rs ++ take n (drop i docs)).
Proof.
  revert i rs. induction n as [|n IH]; intros i rs Hi; cbn [makeReply_loop]; [by rewrite take_0, app_nil_r|].
  destruct (lookup_lt_is_Some_2 docs i) as [e He]; [lia|]. rewrite He. cbn [mbind option_bind].
  rewrite IH by lia. rewrite (drop_S docs e i He). cbn [take]. by rewrite <- app_assoc.
Qed.

(** The loop over the documents keeps those that reach the threshold. *)
Definition passes (n : Z) (b : Z * list KeyOfDoc) : bool := negb (5 * zlen b.2 <? n).

Definition entry_of (tr : Z -> State) (d h : Z) : entry := mkEntry (default d (att_ (tr d) !! d)) (rank h).

Lemma collect_loop_filter tr request m : zlen request < 1024 -> Forall (fun b => zlen b.2 < 1024) m ->
  forall fuel docs, (length m < fuel)%nat ->
  collect_loop fuel tr request m docs =
    Some (docs ++ ((fun b => entry_of tr b.1 (zlen b.2)) <$> filter (fun b => passes (zlen request) b = true) m)).
Proof.
  intros Hn Hm. induction Hm as [|[d ks] m Hk Hm IH]; intros [|fuel] docs Hf; cbn [length] in Hf; try lia.
  { cbn. by rewrite app_nil_r. }
  cbn [collect_loop nextDoc]. pose proof (zlen_nonneg ks). pose proof (zlen_nonneg request). cbn in Hk.
  change (compute_rank _) with (rank (zlen ks)). change (threshold request) with (thr (zlen request)).
  rewrite rank_thr by lia. rewrite IH by lia. cbn [doc_story_id]. rewrite filter_cons.
  assert (Hp : passes (zlen request) (d, ks) = negb (5 * zlen ks <? zlen request)) by done.
  rewrite Hp. destruct (5 * zlen ks <? zlen request); [by rewrite decide_False|].
  rewrite decide_True by done. rewrite fmap_cons. unfold insert_doc. rewrite <- app_assoc. cbn. by do 3 f_equal.
Qed.

(** What the C++ standard promises of [std::sort]: without NaNs [operator <] is a strict weak
    order, and the result is a permutation of the elements in which none comes before a smaller
    one; the order of equivalent elements is not specified. *)
Definition no_nan (e : entry) : Prop := is_nan (score e) = false.

Definition sort_ok (std_sort : list entry -> list entry) : Prop :=
  forall l, Forall no_nan l ->
    std_sort l ≡ₚ l /\ StronglySorted (fun x y => entry_lt y x = false) (std_sort l).

Lemma StronglySorted_map {A B} (f : A -> B) (R : B -> B -> Prop) l :
  StronglySorted R (f <$> l) -> StronglySorted (fun x y => R (f x) (f y)) l.
Proof.
  induction l as [|x l IH]; intros H; [constructor|]. rewrite fmap_cons in H.
  apply StronglySorted_inv in H as [H Hf]. constructor; [by apply IH|].
  rewrite Forall_fmap in Hf. eapply List.Forall_impl; [|exact Hf]. done.
Qed.

Lemma StronglySorted_weaken {A} (R S : A -> A -> Prop) l :
  (forall x y, R x y -> S x y) -> StronglySorted R l -> StronglySorted S l.
Proof.
  intros HS. induction 1 as [|x l H IH Hf]; constructor; [done|]. eapply List.Forall_impl; [|done]. auto.
Qed.

Lemma hget_in m d ks : StronglySorted Z.lt (hkeys m) -> (d, ks) ∈ m -> hget m d = ks.
Proof.
  induction m as [|[e es] m IH]; intros Hs Hin; [set_solver|]. apply StronglySorted_inv in Hs as [Hs Hf].
  cbn. apply elem_of_cons in Hin as [[= -> ->]|Hin]; [by rewrite Z.eqb_refl|].
  destruct (Z.eqb_spec d e) as [->|_]; [|by apply IH]. rewrite Forall_forall in Hf.
  assert (Hin' : e ∈ hkeys m) by (by apply (list_elem_of_fmap_2 fst) in Hin).
  apply list_elem_of_In in Hin'. specialize (Hf _ Hin'). cbn in Hf. lia.
Qed.

Lemma hkeys_NoDup m : StronglySorted Z.lt (hkeys m) -> NoDup (hkeys m).
Proof.
  induction m as [|[d ks] m IH]; cbn; intros Hs; [constructor|]. apply StronglySorted_inv in Hs as [Hs Hf].
  constructor; [|by apply IH]. intros Hin. rewrite Forall_forall in Hf. apply list_elem_of_In in Hin.
  specialize (Hf _ Hin). cbn in Hf. lia.
Qed.

(** The documents collected from a map of hits. *)
Lemma hits_docs m ev tr n : hinv m ev ->
  exists docs, NoDup docs /\ (forall d, d ∈ docs <-> d ∈ ev /\ n <= 5 * count d ev) /\
    ((fun b => entry_of tr b.1 (zlen b.2)) <$> filter (fun b => passes n b = true) m) =
      (fun d => entry_of tr d (count d ev)) <$> docs.
Proof.
  intros Hi. pose proof (hi_sorted _ _ Hi) as Hs. set (m' := filter _ m). exists (m'.*1).
  assert (Hin : forall b, b ∈ m' -> b ∈ m /\ zlen b.2 = count b.1 ev).
  { intros [d ks] Hb. apply list_elem_of_filter in Hb as [_ Hb]. split; [done|]. cbn.
    rewrite <- (hi_get _ _ Hi). by rewrite (hget_in m d ks). }
  split_and!.
  - apply hkeys_NoDup in Hs. unfold hkeys in Hs. subst m'. clear -Hs. induction m as [|b m IH]; [done|].
    cbn in Hs. apply list.NoDup_cons in Hs as [Hb Hs]. rewrite filter_cons. case_decide; [|by apply IH].
    cbn. apply list.NoDup_cons. split; [|by apply IH]. intros H'. apply Hb.
    apply list_elem_of_fmap in H' as (y & -> & Hy). apply list_elem_of_fmap. exists y. split; [done|].
    apply list_elem_of_filter in Hy. tauto.
  - intros d. rewrite list_elem_of_fmap. split.
    + intros (b & -> & Hb). destruct (Hin b Hb) as [Hbm Hz]. apply list_elem_of_filter in Hb as [Hp _].
      split; [apply (hi_keys _ _ Hi), list_elem_of_fmap; eauto|]. unfold passes in Hp.
      apply negb_true_iff, Z.ltb_ge in Hp. lia.
    + intros [Hd Hc]. apply (hi_keys _ _ Hi), list_elem_of_fmap in Hd as (b & -> & Hb).
      exists b. split; [done|]. apply list_elem_of_filter. split; [|done]. unfold passes.
      apply negb_true_iff, Z.ltb_ge. destruct b as [d ks]. cbn in *. rewrite <- (hi_get _ _ Hi) in Hc.
      by rewrite (hget_in m d ks) in Hc.
  - rewrite <- list_fmap_compose. apply list_fmap_ext. intros i b Hb. cbn. f_equal.
    apply Hin. by eapply list_elem_of_lookup_2.
Qed.

(** What a request gets, whatever the states of the index it reads. *)
Lemma retrieve_docs hash life (std_sort : list entry -> list entry) (rd : nat -> State) (tr : Z -> State)
    (max_doc_return : Z) (request : list (Z * Z)) (response : RetrievalResponse) :
  sort_ok std_sort -> (forall i, reachable hash life (rd i)) -> 0 <= max_doc_return ->
  zlen request < 1024 -> (forall d, count d (hit_docs rd 0 request) < 1024) ->
  exists docs,
    NoDup docs /\
    (forall d, d ∈ docs <-> d ∈ hit_docs rd 0 request /\ zlen request <= 5 * count d (hit_docs rd 0 request)) /\
    StronglySorted (fun d d' => count d' (hit_docs rd 0 request) <= count d (hit_docs rd 0 request)) docs /\
    retrieve std_sort rd tr max_doc_return request response =
      Some (mkResponse STATE_OK (Z.min (zlen docs) max_doc_return)
        (results response ++ take (Z.to_nat max_doc_return)
          ((fun d => mkEntry (default d (att_ (tr d) !! d)) (rank (count d (hit_docs rd 0 request)))) <$> docs))).
Proof.
  intros Hsort Hrd Hmax Hreq Hcount. set (ev := hit_docs rd 0 request) in *.
  destruct (beginIntersect_hits hash life rd Hrd request 0 [] [] hinv_nil) as (m & Hb & Hi).
  cbn [app] in Hi. fold ev in Hi. destruct (hits_docs m ev tr (zlen request) Hi) as (docs0 & Hnd & Hin & He).
  assert (Hm : Forall (fun b => zlen b.2 < 1024) m).
  { apply Forall_forall. intros [d ks] Hd. apply list_elem_of_In in Hd. cbn.
    rewrite <- (hget_in m d ks) by (done || apply Hi). rewrite (hi_get _ _ Hi). apply Hcount. }
  assert (Hpos : forall d, 0 <= count d ev) by (intros d; apply zlen_nonneg).
  destruct (Hsort ((fun d => entry_of tr d (count d ev)) <$> docs0)) as [Hp Hs].
  { apply Forall_fmap, List.Forall_forall. intros d _. apply rank_not_nan. split; [apply Hpos|apply Hcount]. }
  destruct (Permutation_map_inv _ _ Hp) as (docs & Hd & Hpd). exists docs.
  assert (Hin' : forall d, d ∈ docs <-> d ∈ docs0) by (intros d; by rewrite Hpd).
  split_and!.
  - by rewrite <- Hpd.
  - intros d. by rewrite Hin', Hin.
  - rewrite Hd in Hs. apply StronglySorted_map in Hs. revert Hs. apply StronglySorted_weaken.
    intros x y. unfold entry_lt. cbn. pose proof (Hcount x). pose proof (Hcount y).
    pose proof (Hpos x). pose proof (Hpos y). rewrite rank_ltb by lia. by rewrite Z.ltb_ge.
  - unfold retrieve, beginIntersect. rewrite Hb. cbn [mbind option_bind].
    rewrite collect_loop_filter by (done || lia). rewrite app_nil_l, He. cbn [mbind option_bind dump].
    rewrite Hd. change (map ?f docs) with (f <$> docs).
    assert (Hl : zlen ((fun d => entry_of tr d (count d ev)) <$> docs0) = zlen docs)
      by (unfold zlen; by rewrite length_fmap, Hpd).
    rewrite Hl. assert (Hif : (if max_doc_return <? zlen docs then max_doc_return else zlen docs) = Z.min (zlen docs) max_doc_return)
      by (destruct (Z.ltb_spec max_doc_return (zlen docs)); lia).
    rewrite Hif. unfold makeReply. cbn [results resp_code num_results].
    rewrite makeReply_loop_take by (rewrite length_fmap; unfold zlen; lia). cbn [mbind option_bind]. rewrite drop_0.
    do 3 f_equal. unfold zlen. destruct (Z.min_spec (Z.of_nat (length docs)) max_doc_return) as [[H ->]|[H ->]]; [|done].
    rewrite !take_ge; [done|rewrite length_fmap; lia..].
Qed.


(** ** An instance of std::sort, and an evaluation *)

Fixpoint insert_entry (x : entry) (l : list entry) : list entry :=
  match l with
  | [] => [x]
  | y :: l' => if entry_lt y x then y :: insert_entry x l' else x :: l
  end.

Definition insertion_sort (l : list entry) : list entry := foldr insert_entry [] l.

Lemma insert_entry_perm x l : insert_entry x l ≡ₚ x :: l.
Proof.
  induction l as [|y l IH]; [done|]. cbn. destruct (entry_lt y x); [|done]. rewrite IH. apply Permutation_swap.
Qed.

Lemma entry_lt_trans_neg x y z : no_nan x -> no_nan y -> no_nan z ->
  entry_lt y x = false -> entry_lt z y = false -> entry_lt z x = false.
Proof.
  unfold entry_lt, no_nan. intros Hx Hy Hz H1 H2. destruct (SFltb (score x) (score z)) eqn:E; [|done].
  apply SFltb_iff in E; [|done..]. assert (~ SFltb (score x) (score y) = true) as N1 by (by rewrite H1).
  assert (~ SFltb (score y) (score z) = true) as N2 by (by rewrite H2).
  rewrite SFltb_iff in N1, N2 by done. unfold lt3 in *. lia.
Qed.

Lemma entry_lt_asym x y : no_nan x -> no_nan y -> entry_lt x y = true -> entry_lt y x = false.
Proof.
  unfold entry_lt, no_nan. intros Hx Hy H. eapply bool_false_iff; [by apply SFltb_iff|].
  apply SFltb_iff in H; [|done..]. unfold lt3 in *. lia.
Qed.

Lemma insert_entry_sorted x l : no_nan x -> Forall no_nan l ->
  StronglySorted (fun x y => entry_lt y x = false) l ->
  StronglySorted (fun x y => entry_lt y x = false) (insert_entry x l).
Proof.
  intros Hx. induction l as [|y l IH]; intros Hn Hs; [repeat constructor|]. cbn.
  apply Forall_cons_1 in Hn as [Hy Hn]. pose proof Hs as Hs'. apply StronglySorted_inv in Hs' as [Hl Hf].
  destruct (entry_lt y x) eqn:E.
  - constructor; [by apply IH|]. rewrite List.Forall_forall in Hf |- *. intros z Hz. apply list_elem_of_In in Hz.
    rewrite insert_entry_perm in Hz. apply elem_of_cons in Hz as [->|Hz]; [by apply entry_lt_asym|].
    by apply Hf, list_elem_of_In.
  - constructor; [done|]. constructor; [done|]. rewrite List.Forall_forall in Hf, Hn |- *.
    intros z Hz. apply (entry_lt_trans_neg x y z); auto.
Qed.

Lemma insertion_sort_ok : sort_ok insertion_sort.
Proof.
  assert (Hp : forall l, insertion_sort l ≡ₚ l).
  { induction l as [|x l IH]; [done|]. cbn. by rewrite insert_entry_perm, IH. }
  intros l Hl. split; [apply Hp|]. induction Hl as [|x l Hx Hl IH]; [constructor|].
  cbn. apply insert_entry_sorted; [done| |done]. fold (insertion_sort l). by rewrite Hp.
Qed.

Lemma count_le d ev : count d ev <= zlen ev.
Proof. unfold count, zlen. pose proof (length_filter (fun x => x = d) ev). lia. Qed.

Definition demo_events : list event :=
  [EAdd (demo_story 1 [(7, 10); (8, 3)]) (fun _ => 5); EAdd (demo_story 22 [(7, 20)]) (fun _ => 6)].
Definition sum_hash (s : list Z) : Z := foldr Z.add 0 s.
Definition demo_state : State := default State0 (run sum_hash 3660 State0 demo_events).
Definition demo_request : list (Z * Z) := [(9, 1); (7, 4); (8, 1)].

Lemma demo_reachable : reachable sum_hash 3660 demo_state.
Proof.
  exists demo_events. split_and!; [vm_compute; reflexivity| |vm_compute; reflexivity].
  intros req clk Hin. apply elem_of_cons in Hin as [H|Hin]; [|apply elem_of_cons in Hin as [H|Hin]; [|set_solver]];
    injection H as -> _; apply list.NoDup_cons; (split; [set_solver|]); repeat constructor; set_solver.
Qed.

Lemma demo_hits : hit_docs (fun _ => demo_state) 0 demo_request = [2; 1; 1].
Proof. vm_compute. reflexivity. Qed.


(** The two stories, the one hit twice first. *)
Lemma demo_response :
  retrieve insertion_sort (fun _ => demo_state) (fun _ => demo_state) 100 demo_request RetrievalResponse0 =
    Some (mkResponse STATE_OK 2 [mkEntry 1 (rank 2); mkEntry 22 (rank 1)]).
Proof. vm_compute. reflexivity. Qed.

(** The code STATE_KEYWORD_NOT_FOUND is overwritten: a request that hits nothing is answered
    with STATE_OK. *)
Theorem retrieve_nothing_is_ok :
  retrieve insertion_sort (fun _ => demo_state) (fun _ => demo_state) 100 [(9, 1)] RetrievalResponse0 =
    Some (mkResponse STATE_OK 0 []).
Proof. vm_compute. reflexivity. Qed.

End Retrieval.
