(* ===== verification/Plugins.v ===== *)
(** * algo_plugin_manager.cc: the ranking plugins and their double-buffered configuration

    Model of [src/src/algo_plugin_manager.{h,cc}].  The manager keeps two configurations; one is
    read by Select, the other is rebuilt by LoadPlugins, which swaps them when it has succeeded.
    The configuration file, as [boost::program_options] parses it, the dynamic linker, the
    tokenizer and the lexical cast of Boost and CityHash64 are parameters.  [None] is undefined
    behaviour or an exception that leaves the function: a division by zero, the dereference of a
    token iterator past its end, a parse error. *)

From Stdlib Require Import ZArith Lia.
From stdpp Require Import prelude list gmap strings numbers.
From S2P Require Import Prelude.

Local Open Scope Z_scope.

Module Plugins.

Section Manager.
Context {Plugin : Type}.

(** A [shared_ptr] that may be null is an [option]. *)
Record Buffer := mkBuffer {
  plugins_ : gmap Z (option Plugin);
  default_plugin_ : option Plugin;
  num_plugins_ : Z;
}.

Record Manager := mkManager { current_index_ : bool; buffer0 : Buffer; buffer1 : Buffer }.

Definition buffer (m : Manager) (index : bool) : Buffer := if index then buffer1 m else buffer0 m.
Definition set_buffer (m : Manager) (index : bool) (b : Buffer) : Manager :=
  if index then mkManager (current_index_ m) (buffer0 m) b else mkManager (current_index_ m) b (buffer1 m).

(** [num_plugins_] is not initialized. *)
Definition NewManager (junk0 junk1 : Z) : Manager :=
  mkManager false (mkBuffer ∅ None junk0) (mkBuffer ∅ None junk1).

(** ** GetPluginFromDylib *)

(** The dynamic linker and the plugins at the time of a call. *)
Record Linker := mkLinker {
  Handle : Type;
  dlopen : list Z -> option Handle;
  dlsym : Handle -> list Z -> option (unit -> option Plugin);
  plugin_Initialize : Plugin -> list Z -> Z;
}.

Definition GetPluginFromDylib (ld : Linker) (dylib_file symbol_name config : list Z) : option Plugin :=
  so_handle ← dlopen ld dylib_file;
  create_plugin_function ← dlsym ld so_handle symbol_name;
  result ← create_plugin_function tt;
  if plugin_Initialize ld result config =? 0 then Some result else None.

(** ** LoadPlugins *)

(** The parsed file: an option that is missing leaves its variable as it was. *)
Record Config := mkConfig {
  num_buckets : option Z;
  default_bucket : option Z;
  plugin_path : option (list Z);
  buckets : option (list Z);
}.

Context (tokenize : list Z -> list Z -> list (list Z)).   (* separators, string *)
Context (lexical_cast_int : list Z -> option Z).

Definition space_sep : list Z := [32; 9].
Definition colon_sep : list Z := [58].

(** One item "id:name:plugin"; [Some None] is [return false]. *)
Definition load_item (ld : Linker) (path : list Z) (b : Buffer) (item : list Z) : option (option Buffer) :=
  let fields := tokenize colon_sep item in
  field0 ← fields !! 0%nat;
  match lexical_cast_int field0 with
  | None => Some None
  | Some bucket_id =>
    bucket_name ← fields !! 1%nat;
    plugin_name ← fields !! 2%nat;
    let plugin_libfile := path ++ str "/lib" ++ plugin_name ++ str ".so" in
    let plugin_config := path ++ str "/lib" ++ plugin_name ++ str ".conf" in
    let plugin_symbol := str "__create_" ++ plugin_name in
    Some match GetPluginFromDylib ld plugin_libfile plugin_symbol plugin_config with
         | None => None
         | Some p => Some (mkBuffer (<[bucket_id := Some p]> (plugins_ b)) (default_plugin_ b) (num_plugins_ b))
         end
  end.

(** The loop over the items; the buffer is written in place, also when it stops halfway. *)
Fixpoint load_items (ld : Linker) (path : list Z) (b : Buffer) (items : list (list Z)) : option (Buffer * bool) :=
  match items with
  | [] => Some (b, true)
  | item :: items =>
    r ← load_item ld path b item;
    match r with None => Some (b, false) | Some b => load_items ld path b items end
  end.

(** [config_file]: [None] when the file cannot be opened, [Some None] when it does not parse. *)
Definition LoadPlugins (ld : Linker) (config_file : option (option Config)) (m : Manager) : option (Manager * bool) :=
  let index := negb (current_index_ m) in
  let b := mkBuffer ∅ (default_plugin_ (buffer m index)) (num_plugins_ (buffer m index)) in
  match config_file with
  | None => Some (set_buffer m index b, false)
  | Some parsed =>
    vm ← parsed;
    let b := mkBuffer (plugins_ b) (default_plugin_ b) (default (num_plugins_ b) (num_buckets vm)) in
    let default_id := default 0 (default_bucket vm) in
    r ← load_items ld (default [] (plugin_path vm)) b (tokenize space_sep (default [] (buckets vm)));
    let '(b, ok) := r in
    if ok : bool then
      (* plugins_[index][default_bucket] creates a null entry when there is none *)
      let m' := match plugins_ b !! default_id with Some _ => plugins_ b | None => <[default_id := None]> (plugins_ b) end in
      let b := mkBuffer m' (default None (m' !! default_id)) (num_plugins_ b) in
      let m := set_buffer m index b in
      Some (mkManager index (buffer0 m) (buffer1 m), true)
    else Some (set_buffer m index b, false)
  end.

(** The thread reloads again and again; a failure is only logged. *)
Definition reload (ld : Linker) (config_file : option (option Config)) (m : Manager) : option Manager :=
  fst <$> LoadPlugins ld config_file m.

(** ** Select *)

(** The rest of Select, once it has read [current_index_]. *)
Definition select_at (m : Manager) (index : bool) (id : Z) : option (option Plugin) :=
  let num := uwrap 64 (num_plugins_ (buffer m index)) in
  if num =? 0 then None
  else
    let mod_ := swrap 32 (id mod num) in
    Some match plugins_ (buffer m index) !! mod_ with
         | None => default_plugin_ (buffer m index)
         | Some p => p
         end.

Definition Select (m : Manager) (id : Z) : option (option Plugin) := select_at m (current_index_ m) id.

Context (CityHash64 : list Z -> Z).
Definition SelectByName (m : Manager) (id : list Z) : option (option Plugin) := Select m (CityHash64 id).

(** ** A reload and the readers *)

(** What the items of a configuration load: the last item of a bucket wins. *)
Definition item_plugin (ld : Linker) (path item : list Z) : option (Z * Plugin) :=
  let fields := tokenize colon_sep item in
  id ← (f ← fields !! 0%nat; lexical_cast_int f);
  _ ← fields !! 1%nat;
  name ← fields !! 2%nat;
  p ← GetPluginFromDylib ld (path ++ str "/lib" ++ name ++ str ".so") (str "__create_" ++ name)
        (path ++ str "/lib" ++ name ++ str ".conf");
  Some (id, p).

Fixpoint bucket_plugin (ld : Linker) (path : list Z) (items : list (list Z)) (id : Z) : option Plugin :=
  match items with
  | [] => None
  | item :: items =>
    match bucket_plugin ld path items id with
    | Some p => Some p
    | None => '(id', p) ← item_plugin ld path item; if id =? id' then Some p else None
    end
  end.

Lemma load_item_Some ld path b item b' :
  load_item ld path b item = Some (Some b') ->
  exists id p, item_plugin ld path item = Some (id, p) /\
    b' = mkBuffer (<[id := Some p]> (plugins_ b)) (default_plugin_ b) (num_plugins_ b).
Proof.
  unfold load_item, item_plugin. destruct (tokenize colon_sep item !! 0%nat) as [f0|]; [|done]. cbn [mbind option_bind].
  destruct (lexical_cast_int f0) as [id|]; [|done].
  destruct (tokenize colon_sep item !! 1%nat) as [f1|]; [|done]. cbn [mbind option_bind].
  destruct (tokenize colon_sep item !! 2%nat) as [f2|]; [|done]. cbn [mbind option_bind].
  destruct (GetPluginFromDylib _ _ _ _) as [p|] eqn:Hp; intros [= <-].
  by exists id, p.
Qed.

Lemma load_items_true ld path items : forall b b',
  load_items ld path b items = Some (b', true) ->
  num_plugins_ b' = num_plugins_ b /\ default_plugin_ b' = default_plugin_ b /\
  forall id, plugins_ b' !! id =
    match bucket_plugin ld path items id with Some p => Some (Some p) | None => plugins_ b !! id end.
Proof.
  induction items as [|item items IH]; intros b b' H; cbn in H; [by injection H as <-|].
  destruct (load_item ld path b item) as [[b1|]|] eqn:Hi; [|done..]. cbn in H.
  apply load_item_Some in Hi as (i & p & Hip & ->). apply IH in H as (Hn & Hd & Hl). cbn in Hn, Hd, Hl.
  split_and!; [done..|]. intros id. rewrite Hl. cbn [bucket_plugin].
  destruct (bucket_plugin ld path items id); [done|]. rewrite Hip. cbn.
  destruct (Z.eqb_spec id i) as [->|Hne]; [by rewrite lookup_insert_eq|by rewrite lookup_insert_ne].
Qed.

Lemma buffer_set m i b : buffer (set_buffer m i b) i = b.
Proof. by destruct i. Qed.

Lemma buffer_set_other m i j b : i <> j -> buffer (set_buffer m i b) j = buffer m j.
Proof. by destruct i, j. Qed.

(** What a reload leaves and serves. *)
Lemma reload_effect (ld : Linker) (file : option (option Config)) (m m' : Manager) (ok : bool) :
  LoadPlugins ld file m = Some (m', ok) ->
  (forall id, select_at m' (current_index_ m) id = Select m id) /\
  (ok = false -> forall id, Select m' id = Select m id) /\
  (ok = true -> exists vm, file = Some (Some vm) /\
     let items := tokenize space_sep (default [] (buckets vm)) in
     let path := default [] (plugin_path vm) in
     let num := default (num_plugins_ (buffer m (negb (current_index_ m)))) (num_buckets vm) in
     forall id, 0 < num < 2 ^ 31 -> 0 <= id ->
       Select m' id = Some match bucket_plugin ld path items (id mod num) with
                           | Some p => Some p
                           | None => bucket_plugin ld path items (default 0 (default_bucket vm))
                           end).
Proof.
  intros H. assert (Hne : negb (current_index_ m) <> current_index_ m) by (by destruct (current_index_ m)).
  assert (Hold : forall b, buffer (set_buffer m (negb (current_index_ m)) b) (current_index_ m) =
    buffer m (current_index_ m)) by (intros b; by apply buffer_set_other).
  assert (Hcur : forall b, current_index_ (set_buffer m (negb (current_index_ m)) b) = current_index_ m)
    by (intros b; by destruct (negb _)).
  unfold LoadPlugins in H. destruct file as [[vm|]|]; cbn [mbind option_bind] in H; [|done|].
  2:{ injection H as <- <-. unfold Select, select_at. rewrite Hcur, Hold. done. }
  destruct (load_items _ _ _ _) as [[b []]|] eqn:Hl; [..|done]; cbn [mbind option_bind] in H.
  2:{ injection H as <- <-. unfold Select, select_at. rewrite Hcur, Hold. done. }
  apply load_items_true in Hl as (Hn & _ & Hl). cbn [num_plugins_ plugins_] in Hn, Hl.
  injection H as <- <-. split_and!; [|done|].
  { intros id. unfold Select, select_at.
    assert (Hb : forall i x, buffer (mkManager i (buffer0 x) (buffer1 x)) (current_index_ m) = buffer x (current_index_ m))
      by (intros i x; by destruct (current_index_ m)).
    rewrite Hb, Hold. done. }
  intros _. exists vm. split; [done|]. intros items path num id Hnum Hid. unfold Select, select_at. cbn [current_index_].
  assert (Hb : forall i x, buffer (mkManager i (buffer0 x) (buffer1 x)) i = buffer x i) by (intros []; done).
  rewrite Hb, buffer_set. cbn [num_plugins_ plugins_ default_plugin_]. rewrite Hn.
  fold num. rewrite (uwrap_id 64 num) by (unfold in_uint; lia).
  destruct (Z.eqb_spec num 0); [lia|]. pose proof (Z.mod_pos_bound id num).
  rewrite (swrap_id 32) by (unfold in_int; lia). f_equal.
  pose proof (Hl (id mod num)) as Hm. pose proof (Hl (default 0 (default_bucket vm))) as Hd.
  fold items path in Hm, Hd. rewrite lookup_empty in Hm, Hd.
  destruct (bucket_plugin ld path items (default 0 (default_bucket vm))) as [pd|]; rewrite Hd.
  - rewrite Hm, Hd. by destruct (bucket_plugin _ _ _ _).
  - rewrite lookup_insert_eq. destruct (decide (id mod num = default 0 (default_bucket vm))) as [E|E].
    + rewrite E in Hm |- *. rewrite lookup_insert_eq. rewrite Hd in Hm. by destruct (bucket_plugin _ _ _ _).
    + rewrite lookup_insert_ne, Hm by done. by destruct (bucket_plugin _ _ _ _).
Qed.

(** A file that LoadPlugins gets through: it parses, and an item whose first field is a number has a
    name and a plugin as well.  (A parse error is an exception that nothing catches; a missing
    field is read behind the end of the tokens.) *)
Definition item_readable (item : list Z) : Prop :=
  let fields := tokenize colon_sep item in
  (0 < length fields)%nat /\ ((f ← fields !! 0%nat; lexical_cast_int f) <> None -> (3 <= length fields)%nat).
Definition readable (file : option (option Config)) : Prop :=
  match file with
  | None => True
  | Some None => False
  | Some (Some vm) => Forall item_readable (tokenize space_sep (default [] (buckets vm)))
  end.

Lemma load_items_total ld path items : forall b, Forall item_readable items -> is_Some (load_items ld path b items).
Proof.
  induction items as [|item items IH]; intros b H; cbn [load_items]; [by eexists|]. apply Forall_cons_1 in H as [[H0 H3] H].
  unfold load_item. destruct (lookup_lt_is_Some_2 _ _ H0) as [f0 E0]. rewrite E0 in *. cbn [mbind option_bind] in *.
  destruct (lexical_cast_int f0) as [id|]; cbn [mbind option_bind]; [|by eexists]. specialize (H3 ltac:(done)).
  destruct (lookup_lt_is_Some_2 (tokenize colon_sep item) 1) as [f1 ->]; [lia|]. destruct (lookup_lt_is_Some_2 (tokenize colon_sep item) 2) as [f2 ->]; [lia|].
  cbn [mbind option_bind]. destruct (GetPluginFromDylib _ _ _ _); cbn [mbind option_bind]; [by apply IH|by eexists].
Qed.

Lemma LoadPlugins_total ld file m : readable file -> is_Some (LoadPlugins ld file m).
Proof.
  unfold LoadPlugins. destruct file as [[vm|]|]; cbn [readable]; [|done|by eexists]. intros H. cbn [mbind option_bind].
  destruct (load_items_total ld (default [] (plugin_path vm)) _ (mkBuffer ∅ (default_plugin_ (buffer m (negb (current_index_ m))))
    (default (num_plugins_ (buffer m (negb (current_index_ m)))) (num_buckets vm))) H) as [[b ok] E]. cbn [num_plugins_ plugins_ default_plugin_]. rewrite E. cbn [mbind option_bind].
  destruct ok; by eexists.
Qed.

(** C23: a reload of a file that can be read (see [readable]) returns, and does not disturb the
    readers.  Whatever libraries the file names, a Select that read the current index before the
    reload, and finishes before the next one (see [second_reload]), finds its plugins unchanged;
    when the reload fails, every later Select answers as before it; when it succeeds, Select
    serves bucket [id mod num_buckets] with the plugin the file loads for it (the last item of a
    bucket wins), or else with the plugin of the default bucket, which is null when the file does
    not load one. *)
Theorem reload_safe (ld : Linker) (file : option (option Config)) (m : Manager) :
  readable file -> exists m' ok, LoadPlugins ld file m = Some (m', ok) /\
  (forall id, select_at m' (current_index_ m) id = Select m id) /\
  (ok = false -> forall id, Select m' id = Select m id) /\
  (ok = true -> exists vm, file = Some (Some vm) /\
     let items := tokenize space_sep (default [] (buckets vm)) in
     let path := default [] (plugin_path vm) in
     let num := default (num_plugins_ (buffer m (negb (current_index_ m)))) (num_buckets vm) in
     forall id, 0 < num < 2 ^ 31 -> 0 <= id ->
       Select m' id = Some match bucket_plugin ld path items (id mod num) with
                           | Some p => Some p
                           | None => bucket_plugin ld path items (default 0 (default_bucket vm))
                           end).
Proof.
  intros Hf. destruct (LoadPlugins_total ld file m Hf) as [[m' ok] E]. exists m', ok. split; [exact E|]. exact (reload_effect ld file m m' ok E).
Qed.

End Manager.

(** ** An evaluation: two buckets, digits for numbers, a plugin is the path of its library *)

Fixpoint split_on (seps cur s : list Z) : list (list Z) :=
  match s with
  | [] => if decide (cur = []) then [] else [cur]
  | c :: s =>
    if decide (c ∈ seps) then (if decide (cur = []) then [] else [cur]) ++ split_on seps [] s
    else split_on seps (cur ++ [c]) s
  end.

Definition demo_tokenize (seps s : list Z) : list (list Z) := split_on seps [] s.
Definition demo_cast (s : list Z) : option Z :=
  match s with [c] => if decide (48 <= c <= 57) then Some (c - 48) else None | _ => None end.
Definition demo_linker : Linker (Plugin := list Z) :=
  mkLinker (list Z) (fun p => if decide (p = str "/lib/libnone.so") then None else Some p)
    (fun h _ => Some (fun _ => Some h)) (fun _ _ => 0).

Definition demo_config (s : list Z) : option (option Config) :=
  Some (Some (mkConfig (Some 3) (Some 1) (Some (str "/lib")) (Some s))).

Definition demo_load := LoadPlugins demo_tokenize demo_cast demo_linker.

Definition demo_manager : Manager (Plugin := list Z) :=
  match demo_load (demo_config (str "0:base:cf 1:test:lda")) (NewManager 0 0) with
  | Some (m, _) => m
  | None => NewManager 0 0
  end.

Definition demo_file : option (option Config) := demo_config (str "0:base:mf 1:test:lda").
Definition demo_reloaded : Manager (Plugin := list Z) :=
  match demo_load demo_file demo_manager with Some (m, _) => m | None => NewManager 0 0 end.

(** A reload with another plugin in bucket 0. *)
Lemma reload_safe_witness : exists m',
  demo_load demo_file demo_manager = Some (m', true) /\
  select_at m' (current_index_ demo_manager) 6 = Some (Some (str "/lib/libcf.so")) /\
  Select m' 6 = Some (Some (str "/lib/libmf.so")).
Proof.
  destruct (reload_safe demo_tokenize demo_cast demo_linker demo_file demo_manager) as (m' & ok & E & H1 & _ & H2).
  - vm_compute. repeat constructor.
  - assert (ok = true) as ->.
    { destruct ok; [reflexivity|]. assert (demo_load demo_file demo_manager = Some (demo_reloaded, true)) as E' by (vm_compute; reflexivity).
      unfold demo_load in E'. rewrite E in E'. injection E' as _ E'. discriminate E'. }
    exists m'. split; [exact E|]. split; [rewrite (H1 6); vm_compute; reflexivity|].
    destruct (H2 eq_refl) as (vm & Hvm & H3). injection Hvm as <-. cbv zeta in H3.
    rewrite (H3 6); vm_compute; repeat split; congruence.
Defined.

(** Two reloads in the middle of a Select: the second rebuilds the configuration that it reads. *)
Example second_reload :
  (m ← demo_load demo_file demo_manager; m ← demo_load (demo_config (str "0:base:xx")) (fst m); select_at (fst m) (current_index_ demo_manager) 6) =
    Some (Some (str "/lib/libxx.so")) /\
  Select demo_manager 6 = Some (Some (str "/lib/libcf.so")).
Proof. vm_compute. split; reflexivity. Qed.

(** A library that does not load: the reload fails and the readers keep the old plugins. *)
Lemma failed_reload :
  (m ← demo_load (demo_config (str "0:base:mf 1:test:none")) demo_manager; Some (snd m, Select (fst m) 6)) =
    Some (false, Some (Some (str "/lib/libcf.so"))).
Proof. vm_compute. reflexivity. Qed.

(** The default bucket is not checked: when the file does not list it, Select answers a request
    of a bucket without plugin by a null pointer, which the query handler dereferences. *)
Theorem default_bucket_unlisted :
  (m ← demo_load (demo_config (str "0:base:cf")) (NewManager 0 0); Some (snd m, Select (fst m) 1)) =
    Some (true, Some None).
Proof. vm_compute. reflexivity. Qed.

End Plugins.
