(* ===== verification/Engine.v ===== *)
(** * The storages and the request handlers of the engine

    Model of [src/src/user_profile_storage.cc], [local_dict.cc], [story_profile_storage.cc],
    [story_management_handler.cc] and [recomm_engine_handler.cc], on top of the models of the
    queue, the inverted index, the retrieval and the plugins.  The Redis cluster is reached
    through the interface [UserStore] (implemented by the model of redis_cluster.cc), leveldb
    through [LevelDB]; Thrift's serialization, CityHash64 and the ranking of a plugin are
    parameters.  [None] is a failing CHECK, a null pointer or a signed overflow. *)

From Stdlib Require Import ZArith Lia Sorted.
From Stdlib.Floats Require Import SpecFloat.
From stdpp Require Import prelude list gmap sorting strings numbers.
From S2P Require Import Prelude.
From S2P Require Import PCQueue.
From S2P Require Import LocklessList.
From S2P Require Import InvertedIndex.
From S2P Require Import RedisCluster.
From S2P Require Import Retrieval.
From S2P Require Import Plugins.

Local Open Scope Z_scope.

Module Engine.

(** ** recomm_engine.thrift *)

Record StoryProfile := mkStoryProfile {
  sp_story_id : list Z;
  signature : Z;
  sp_url : list Z;
  sp_title : list Z;
  sp_keywords : gmap Z Z;
  sp_optional : list (Z * list Z);    (* the optional fields, by tag; not read by the engine *)
}.

Definition StoryProfile0 : StoryProfile := mkStoryProfile [] 0 [] [] ∅ [].

Record UserProfile := mkUserProfile {
  uid : list Z;
  up_keywords : gmap Z Z;
  topics : option (list Z);
  history : option (list Z);
  OBSOLETE_story_profile : option StoryProfile;
}.

Definition UserProfile0 : UserProfile := mkUserProfile [] ∅ None None None.

(** The iteration over a [std::map]: its bindings in increasing order of the keys. *)
Definition key_le (a b : Z * Z) : Prop := a.1 <= b.1.
#[export] Instance key_le_dec a b : Decision (key_le a b) := Z_le_dec _ _.
Definition elements_of (m : gmap Z Z) : list (Z * Z) := merge_sort key_le (map_to_list m).

(** ** user_profile_storage.cc *)

(** What the storage uses of the cluster of Redis servers. *)
Class UserStore (R Client Node : Type) := {
  us_GetRedisNode : list Z -> R -> option (bool * option Client * Node * R);
  us_Get : Client -> list Z -> R -> Z * list Z * R;              (* -1 error, 0 found, 1 absent *)
  us_SetEx : Client -> list Z -> list Z -> Z -> R -> bool * R;   (* key, value, life *)
}.

Section Storage.
Context {R Client Node : Type} `{!UserStore R Client Node}.
Context (ThriftToString : UserProfile -> list Z).
Context (StringToThrift : list Z -> UserProfile -> bool * UserProfile).
Context (life_in_seconds_ : Z).

Inductive uevent := ULock (n : Node) | UUnlock (n : Node) | UGet (key : list Z) | USetEx (key : list Z).

(** The result, the profile written, the store and what was done to it. *)
Definition GetUserProfile (user_id : list Z) (profile : UserProfile) (w : R)
    : option (Z * UserProfile * R * list uevent) :=
  r ← us_GetRedisNode user_id w;
  let '(ok, redis, mutex, w) := r in
  if negb ok then Some (2, profile, w, [])
  else
    redis ← redis;
    let '(ret, value, w) := us_Get redis user_id w in
    let ev := [ULock mutex; UGet user_id; UUnlock mutex] in
    if ret =? -1 then Some (2, profile, w, ev)
    else if ret =? 0 then
      let '(ok, profile) := StringToThrift value profile in
      if ok then Some (0, profile, w, ev) else Some (2, profile, w, ev)
    else if ret =? 1 then Some (1, profile, w, ev)
    else Some (0, profile, w, ev).

Definition SetToRedis (redis : option Client) (user_id : list Z) (profile : UserProfile) (life : Z) (w : R)
    : option (bool * R * list uevent) :=
  redis ← redis;
  let '(ok, w) := us_SetEx redis user_id (ThriftToString profile) life w in
  Some (ok, w, [USetEx user_id]).

(** The loop over [add_profile.keywords]; the sum of two [int32_t] must not overflow. *)
Fixpoint increment_loop (org : gmap Z Z) (add : list (Z * Z)) : option (gmap Z Z) :=
  match add with
  | [] => Some org
  | (k, v) :: add =>
    match org !! k with
    | Some o => s ← sadd 32 o v; increment_loop (<[k := s]> org) add
    | None => increment_loop (<[k := v]> org) add
    end
  end.

Definition IncrementUserProfile (org_profile add_profile : UserProfile) : option UserProfile :=
  kws ← increment_loop (up_keywords org_profile) (elements_of (up_keywords add_profile));
  Some (mkUserProfile (uid org_profile) kws (topics org_profile) (history org_profile)
          (OBSOLETE_story_profile org_profile)).

Definition PutUserProfile (user_id : list Z) (profile : UserProfile) (is_increment : bool) (w : R)
    : option (Z * R * list uevent) :=
  r ← us_GetRedisNode user_id w;
  let '(ok, redis, mutex, w) := r in
  if negb ok then Some (2, w, [])
  else if negb is_increment then
    r ← SetToRedis redis user_id profile life_in_seconds_ w;
    let '(ok, w, ev) := r in Some (if ok : bool then 0 else 2, w, ev)
  else
    r ← GetUserProfile user_id UserProfile0 w;
    let '(ret, org_profile, w, ev) := r in
    if ret =? 2 then Some (2, w, ev)
    else
      org_profile ← (if ret =? 0 then IncrementUserProfile org_profile profile else Some org_profile);
      r ← SetToRedis redis user_id org_profile life_in_seconds_ w;
      let '(ok, w, ev') := r in Some (if ok : bool then 0 else 2, w, ev ++ ev').

(** *** A profile written is read back *)

(** Thrift reads back into a new object what it has written. *)
Definition thrift_ok : Prop := forall p, StringToThrift (ThriftToString p) UserProfile0 = (true, p).

(** A healthy cluster, before the keys expire: every key finds the client of its server, which
    answers GET by the value stored and stores the value of SETEX.  [serves w key c]: the key
    belongs to the server of [c]. *)
Record healthy (stored : R -> list Z -> option (list Z)) (serves : R -> list Z -> Client -> Prop) : Prop := {
  h_node key w : exists c n w', us_GetRedisNode key w = Some (true, Some c, n, w') /\ stored w' = stored w /\
    serves w' key c /\ forall k c', serves w k c' -> serves w' k c';
  h_get c key w : serves w key c -> exists w', stored w' = stored w /\ serves w' = serves w /\
    us_Get c key w = match stored w key with Some v => (0, v, w') | None => (1, [], w') end;
  h_set c key v life w : serves w key c -> exists w', us_SetEx c key v life w = (true, w') /\
    forall k, stored w' k = if decide (k = key) then Some v else stored w k;
}.

Context (stored : R -> list Z -> option (list Z)) (serves : R -> list Z -> Client -> Prop).

Lemma GetUserProfile_stored user w :
  thrift_ok -> healthy stored serves ->
  exists w' ev, stored w' = stored w /\ (forall k c, serves w k c -> serves w' k c) /\
    (forall p, stored w user = Some (ThriftToString p) -> GetUserProfile user UserProfile0 w = Some (0, p, w', ev)) /\
    (stored w user = None -> GetUserProfile user UserProfile0 w = Some (1, UserProfile0, w', ev)).
Proof.
  intros Ht Hh. destruct (h_node _ _ Hh user w) as (c & n & w1 & Hn & Hs1 & Hc & Hp).
  destruct (h_get _ _ Hh c user w1 Hc) as (w2 & Hs2 & Hv & Hg). exists w2, [ULock n; UGet user; UUnlock n].
  split; [by rewrite Hs2, Hs1|]. split; [intros k c'; rewrite Hv; apply Hp|].
  rewrite Hs1 in Hg. unfold GetUserProfile. rewrite Hn. cbn [mbind option_bind negb].
  split; [intros p Hst|intros Hst]; rewrite Hst in Hg; rewrite Hg; cbn; [by rewrite Ht|done].
Qed.

Lemma SetToRedis_stored c user p life w : healthy stored serves -> serves w user c ->
  exists w', SetToRedis (Some c) user p life w = Some (true, w', [USetEx user]) /\
    forall k, stored w' k = if decide (k = user) then Some (ThriftToString p) else stored w k.
Proof.
  intros Hh Hc. destruct (h_set _ _ Hh c user (ThriftToString p) life w Hc) as (w' & Hs & Hk).
  exists w'. split; [|done]. unfold SetToRedis. cbn. by rewrite Hs.
Qed.

Lemma increment_loop_union org l :
  NoDup (l.*1) -> (forall k a b, org !! k = Some a -> (k, b) ∈ l -> in_int 32 (a + b)) ->
  increment_loop org l = Some (union_with (fun a b => Some (a + b)) org (list_to_map l)).
Proof.
  revert org. induction l as [|[k v] l IH]; intros org Hnd Hov; cbn.
  { f_equal. apply map_eq. intros i. rewrite lookup_union_with, lookup_empty. by destruct (org !! i). }
  apply list.NoDup_cons in Hnd as [Hk Hnd]. cbn in Hk.
  assert (Hl : (list_to_map l : gmap Z Z) !! k = None) by by apply not_elem_of_list_to_map.
  assert (HI : forall z : Z, union_with (fun a b => Some (a + b)) (<[k := z]> org) (list_to_map l) =
    <[k := z]> (union_with (fun a b => Some (a + b)) org (list_to_map l))).
  { intros z. rewrite insert_union_with_l; done. }
  assert (Hov' : forall z i a b, <[k := z]> org !! i = Some a -> (i, b) ∈ l -> in_int 32 (a + b)).
  { intros z i a b Hi Hin. rewrite lookup_insert_ne in Hi; [apply (Hov i); [done|set_solver]|].
    intros <-. apply Hk. by apply (list_elem_of_fmap_2 fst) in Hin. }
  destruct (org !! k) as [o|] eqn:Ho.
  - rewrite sadd_Some by (apply (Hov k o v); [done|set_solver]). cbn. rewrite IH by eauto. f_equal. rewrite HI.
    apply map_eq. intros i. rewrite lookup_union_with. destruct (decide (i = k)) as [->|Hi].
    + by rewrite !lookup_insert_eq, Ho.
    + rewrite !lookup_insert_ne by done. by rewrite lookup_union_with.
  - rewrite IH by eauto. f_equal. rewrite HI.
    apply map_eq. intros i. rewrite lookup_union_with. destruct (decide (i = k)) as [->|Hi].
    + by rewrite !lookup_insert_eq, Ho.
    + rewrite !lookup_insert_ne by done. by rewrite lookup_union_with.
Qed.

Lemma elements_of_perm m : elements_of m ≡ₚ map_to_list m.
Proof. apply merge_sort_Permutation. Qed.

Lemma elements_of_NoDup m : NoDup ((elements_of m).*1).
Proof. rewrite elements_of_perm. apply NoDup_fst_map_to_list. Qed.

Lemma elements_of_map m : list_to_map (elements_of m) = m.
Proof.
  rewrite <- (list_to_map_to_list m) at 2.
  apply list_to_map_proper; [apply elements_of_NoDup|apply elements_of_perm].
Qed.

(** The keywords of [p] with those of [q] added. *)
Definition incremented (p q : UserProfile) : UserProfile :=
  mkUserProfile (uid p) (union_with (fun a b => Some (a + b)) (up_keywords p) (up_keywords q)) (topics p) (history p)
    (OBSOLETE_story_profile p).

Definition no_overflow (p q : UserProfile) : Prop :=
  forall k a b, up_keywords p !! k = Some a -> up_keywords q !! k = Some b -> in_int 32 (a + b).

Lemma IncrementUserProfile_incremented p q :
  no_overflow p q -> IncrementUserProfile p q = Some (incremented p q).
Proof.
  intros Hov. unfold IncrementUserProfile. rewrite increment_loop_union.
  - cbn. unfold incremented. by rewrite elements_of_map.
  - apply elements_of_NoDup.
  - intros k a b Hp Hq. rewrite elements_of_perm in Hq. apply elem_of_map_to_list in Hq. by apply (Hov k).
Qed.

(** C22: on a healthy cluster PutUserProfile succeeds and changes the stored profile of its user
    only: without increment the profile given is read back by GetUserProfile; with increment
    the stored profile is read back with the weights of the given keywords added to its own
    (new keywords inserted), the rest of it unchanged, provided the sums fit in 32 bits. *)
Theorem PutUserProfile_correct user p q (is_increment : bool) w :
  thrift_ok -> healthy stored serves ->
  (is_increment = true -> stored w user = Some (ThriftToString p) /\ no_overflow p q) ->
  exists w' ev, PutUserProfile user q is_increment w = Some (0, w', ev) /\
    (forall k, k <> user -> stored w' k = stored w k) /\
    exists w'' ev', GetUserProfile user UserProfile0 w' =
      Some (0, if is_increment then incremented p q else q, w'', ev') /\ stored w'' = stored w'.
Proof.
  intros Ht Hh Hinc. destruct (h_node _ _ Hh user w) as (c & n & w1 & Hn & Hs1 & Hc & _).
  set (p' := if is_increment then incremented p q else q).
  assert (Hput : exists w2 ev, PutUserProfile user q is_increment w = Some (0, w2, ev) /\
    forall k, stored w2 k = if decide (k = user) then Some (ThriftToString p') else stored w k).
  { unfold PutUserProfile. rewrite Hn. cbn [mbind option_bind negb]. subst p'. destruct is_increment; cbn [negb].
    - destruct Hinc as [Hst Hov]; [done|].
      destruct (GetUserProfile_stored user w1 Ht Hh) as (w2 & ev & Hs2 & Hv & Hg & _).
      rewrite Hs1 in Hg. rewrite (Hg p Hst). cbn [mbind option_bind Z.eqb].
      change (0 =? 2) with false. cbn [negb].
      rewrite IncrementUserProfile_incremented by done. cbn [mbind option_bind].
      destruct (SetToRedis_stored c user (incremented p q) life_in_seconds_ w2 Hh (Hv _ _ Hc)) as (w3 & Hset & Hs3).
      rewrite Hset. cbn. eexists _, _. split; [done|]. intros k. rewrite Hs3. by rewrite Hs2, Hs1.
    - destruct (SetToRedis_stored c user q life_in_seconds_ w1 Hh Hc) as (w3 & Hset & Hs3).
      rewrite Hset. cbn. eexists _, _. split; [done|]. intros k. rewrite Hs3. by rewrite Hs1. }
  destruct Hput as (w2 & ev & Hp & Hs). exists w2, ev. split; [done|]. split.
  { intros k Hk. rewrite Hs. by rewrite decide_False. }
  destruct (GetUserProfile_stored user w2 Ht Hh) as (w3 & ev' & Hs3 & _ & Hg & _).
  exists w3, ev'. split; [|done]. apply Hg. rewrite Hs. by rewrite decide_True.
Qed.

(** A user that is not stored yet: with increment the keywords are dropped, and an empty profile
    is stored and success reported. *)
Theorem PutUserProfile_new_user user q w :
  thrift_ok -> healthy stored serves -> stored w user = None ->
  exists w' ev, PutUserProfile user q true w = Some (0, w', ev) /\
    stored w' user = Some (ThriftToString UserProfile0).
Proof.
  intros Ht Hh Hst. destruct (h_node _ _ Hh user w) as (c & n & w1 & Hn & Hs1 & Hc & _).
  destruct (GetUserProfile_stored user w1 Ht Hh) as (w2 & ev & Hs2 & Hv & _ & Hg). rewrite Hs1 in Hg.
  destruct (SetToRedis_stored c user UserProfile0 life_in_seconds_ w2 Hh (Hv _ _ Hc)) as (w3 & Hset & Hs3).
  unfold PutUserProfile. rewrite Hn. cbn [mbind option_bind negb]. rewrite (Hg Hst). cbn [mbind option_bind].
  change (1 =? 2) with false. change (1 =? 0) with false. cbn [mbind option_bind]. rewrite Hset. cbn.
  eexists _, _. split; [done|]. rewrite Hs3. by rewrite decide_True.
Qed.

(** The commands of PutUserProfile are not protected by the mutex that GetUserProfile holds. *)
Theorem PutUserProfile_unlocked user q w r w' ev :
  PutUserProfile user q false w = Some (r, w', ev) -> forall n, ULock n ∉ ev.
Proof.
  unfold PutUserProfile. destruct (us_GetRedisNode user w) as [[[[[] c] n] w1]|]; cbn; [|intros [= _ _ <-]; set_solver|done].
  unfold SetToRedis. destruct c as [c|]; [|done]. cbn. destruct (us_SetEx _ _ _ _ _) as [ok w2]. cbn.
  intros [= _ _ <-]. set_solver.
Qed.

End Storage.

(** *** The interface is implemented by the cluster of redis_cluster.cc *)

Section Cluster.
Context {W Client : Type} `{!EqDecision Client} `{!RedisCluster.RedisClient W Client}.
Context (hash_ : list Z -> Z).
Context (Get : Client -> list Z -> W -> Z * list Z * W) (SetEx : Client -> list Z -> list Z -> Z -> W -> bool * W).

(** GetRedisNode leaves the ring and the servers of the cluster as they are. *)
Definition cluster_store (cl : RedisCluster.Cluster (Client := Client)) : UserStore W Client (list Z) := {|
  us_GetRedisNode key w :=
    match RedisCluster.GetRedisNode hash_ cl key w with
    | Some (ok, client, node, _, w, _) => Some (ok, client, node, w)
    | None => None
    end;
  us_Get := Get;
  us_SetEx := SetEx;
|}.

(** Servers that answer; [data w c] is what the server of [c] stores. *)
Context (data : W -> Client -> list Z -> option (list Z)).

Record servers_ok : Prop := {
  so_ping c w : fst (RedisCluster.Ping c w) = true /\ data (snd (RedisCluster.Ping c w)) = data w;
  so_get c key w : exists w', data w' = data w /\
    Get c key w = match data w c key with Some v => (0, v, w') | None => (1, [], w') end;
  so_set c key v life w : exists w', SetEx c key v life w = (true, w') /\
    forall c' k, data w' c' k = if decide (c' = c /\ k = key) then Some v else data w c' k;
}.

Definition client_of (cl : RedisCluster.Cluster) (key : list Z) : option Client :=
  node ← RedisCluster.GetNode hash_ (RedisCluster.hash_ring_ cl) key; RedisCluster.master (RedisCluster.server cl node).

(** A cluster whose servers answer, and whose ring leads every key to a master, is healthy. *)
Lemma cluster_healthy cl : servers_ok -> (forall key, is_Some (client_of cl key)) ->
  @healthy W Client (list Z) (cluster_store cl)
    (fun w key => c ← client_of cl key; data w c key) (fun _ key c => client_of cl key = Some c).
Proof.
  intros Hs Hcl. split.
  - intros key w. destruct (Hcl key) as [c Hc]. pose proof Hc as Hc'. unfold client_of in Hc'.
    destruct (RedisCluster.GetNode hash_ (RedisCluster.hash_ring_ cl) key) as [node|] eqn:Hn; [|done].
    cbn [mbind option_bind] in Hc'. destruct (so_ping Hs c w) as [Hp Hd].
    exists c, node, (snd (RedisCluster.Ping c w)). split_and!; [|by rewrite Hd|done|done].
    unfold us_GetRedisNode, cluster_store, RedisCluster.GetRedisNode, RedisCluster.io_bind. rewrite Hn. cbn -[RedisCluster.server RedisCluster.set_server].
    assert (Hsrv : RedisCluster.server (RedisCluster.set_server cl node (RedisCluster.server cl node)) node = RedisCluster.server cl node).
    { unfold RedisCluster.server at 1, RedisCluster.set_server. cbn. by rewrite lookup_insert_eq. }
    rewrite Hsrv, Hc'. cbn. destruct (RedisCluster.Ping c w) as [ok w']. cbn in Hp. by subst ok.
  - intros c key w Hc. destruct (so_get Hs c key w) as (w' & Hd & Hg). exists w'. rewrite Hc. cbn.
    split_and!; [by rewrite Hd|done|done].
  - intros c key v life w Hc. destruct (so_set Hs c key v life w) as (w' & Hw & Hd). exists w'. split; [done|].
    intros k. destruct (Hcl k) as [c' Hc']. rewrite Hc'. cbn. rewrite Hd. destruct (decide (k = key)) as [->|Hk].
    + rewrite decide_True; [done|]. split; congruence.
    + by rewrite decide_False by tauto.
Qed.

End Cluster.

(** ** local_dict.cc and story_profile_storage.cc *)

Class LevelDB (D : Type) := {
  db_Put : list Z -> list Z -> D -> bool * D;
  db_Get : list Z -> D -> Z * list Z;           (* 0 ok, 1 not found, 2 another error *)
}.

Section Stories.
Context {D : Type} `{!LevelDB D}.
Context (ThriftToString : StoryProfile -> list Z).
Context (StringToThrift : list Z -> StoryProfile -> bool * StoryProfile).

Definition LocalDict_Put (key value : list Z) (d : D) : bool * D := db_Put key value d.
Definition LocalDict_Get (key : list Z) (d : D) : Z * list Z :=
  let '(status, value) := db_Get key d in
  if status =? 0 then (0, value) else if status =? 1 then (1, value) else (2, value).

(** [Slice(reinterpret_cast<char*>(&key), sizeof(int64_t))] *)
Definition slice_of (key : Z) : list Z := le_encode 8 (uwrap 64 key).

Definition AddProfile (key : Z) (value : StoryProfile) (d : D) : bool * D :=
  let '(ok, d) := LocalDict_Put (slice_of key) (ThriftToString value) d in
  if negb ok then (false, d) else (true, d).

Definition GetProfile (key : Z) (value : StoryProfile) (d : D) : bool * StoryProfile :=
  let '(status, serialized_value) := LocalDict_Get (slice_of key) d in
  if status =? 0 then
    let '(ok, value) := StringToThrift serialized_value value in
    if negb ok then (false, value) else (true, value)
  else if status =? 1 then
    (false, mkStoryProfile [] (signature value) (sp_url value) (sp_title value) (sp_keywords value) (sp_optional value))
  else (false, value).

End Stories.

(** ** story_management_handler.cc *)

Section Handlers.
Context {R Client Node D Plugin : Type} `{!UserStore R Client Node} `{!LevelDB D}.
Context (CityHash64 : list Z -> Z).
Context (UserToString : UserProfile -> list Z) (StringToUser : list Z -> UserProfile -> bool * UserProfile).
Context (StoryToString : StoryProfile -> list Z) (StringToStory : list Z -> StoryProfile -> bool * StoryProfile).

Inductive StoryManagementStatus := SMS_OK | SMS_ERROR.

Abbreviation pool := (ProducerConsumerQueue.Queue (Item := StoryProfile)).

(** The queues of the build thread and of the replay log, and the forward index. *)
Record Stories := mkStories { doc_pool_ : pool; log_pool_ : pool; db_ : D }.

(** InstantIndex::AddStory at clock reading [now]. *)
Definition AddStory (s : Stories) (now : Z) (req : StoryProfile) : Stories * bool :=
  let '(doc_pool, ret) := ProducerConsumerQueue.TryPut (doc_pool_ s) now req ProducerConsumerQueue.TIMEOUT_USE_DEFAULT in
  let '(log_pool, _) := ProducerConsumerQueue.TryPut (log_pool_ s) now req ProducerConsumerQueue.TIMEOUT_USE_DEFAULT in
  (mkStories doc_pool log_pool (db_ s), ret).

(** The [uint64_t] hash as an [int64_t]. *)
Definition story_hash (id : list Z) : Z := swrap 64 (CityHash64 id).

(** [_return] holds [status] before the call. *)
Definition add_story (s : Stories) (now : Z) (request : StoryProfile) (status : StoryManagementStatus)
    : Stories * StoryManagementStatus :=
  let '(s, ok) := AddStory s now request in
  if negb ok then (s, SMS_ERROR)
  else
    let '(ok, db) := AddProfile StoryToString (story_hash (sp_story_id request)) request (db_ s) in
    let s := mkStories (doc_pool_ s) (log_pool_ s) db in
    let status := if negb ok then SMS_ERROR else status in
    let status := SMS_OK in
    (s, status).

(** What the build thread takes of a request. *)
Definition index_request (p : StoryProfile) : InvertedIndex.StoryAddingRequest :=
  InvertedIndex.mkStory (sp_story_id p) (elements_of (sp_keywords p)).

(** ** recomm_engine_handler.cc *)

Inductive RecommendationResponseCode :=
  RRC_OK | RRC_ERROR | RRC_UID_NOT_FOUND | RRC_NO_DOC | RRC_NO_CANDIDATE | RRC_NO_PROFILE | RRC_EMPTY_RANK_RESULT.

Record RecommendationRequest := mkRequest { rq_uid : list Z; rq_url : list Z; topN : Z }.
Record RecommendationResult := mkResult { rr_story_id : list Z; rr_score : spec_float; rr_url : list Z; rr_title : list Z }.
Record RecommendationResponse := mkRecommendation {
  response_code : RecommendationResponseCode;
  rec_results : list RecommendationResult;
}.

(** IAlgoPlugin::Rank without debugging: the number returned and the results appended. *)
Context (Rank : Plugin -> UserProfile -> StoryProfile -> list StoryProfile -> Z * list RecommendationResult).
Context (std_sort : list Retrieval.entry -> list Retrieval.entry).
Context (FLAGS_max_doc_return : Z).

(** The loop over the results of the retrieval; [existence] holds the signatures seen. *)
Fixpoint select_candidates (db : D) (hist : list Z) (existence : gset Z) (candidates : list StoryProfile)
    (results : list Retrieval.entry) : list StoryProfile :=
  match results with
  | [] => candidates
  | r :: results =>
    if decide (Retrieval.story_id r ∈ hist) then select_candidates db hist existence candidates results
    else
      let '(ok, story_profile) := GetProfile StringToStory (Retrieval.story_id r) StoryProfile0 db in
      if negb ok then select_candidates db hist existence candidates results
      else if decide (signature story_profile ∈ existence) then select_candidates db hist existence candidates results
      else select_candidates db hist ({[signature story_profile]} ∪ existence) (candidates ++ [story_profile]) results
  end.

(** The keywords of the user, then those of the story. *)
Definition retrieval_request (user : UserProfile) (story : StoryProfile) : list (Z * Z) :=
  elements_of (up_keywords user) ++ elements_of (sp_keywords story).

(** The index while the request is served ([rd], [tr] as in [Retrieval]), the forward index and
    the plugins. *)
Definition query (w : R) (db : D) (rd : nat -> InvertedIndex.State) (tr : Z -> InvertedIndex.State)
    (plugins : Plugins.Manager (Plugin := Plugin)) (request : RecommendationRequest)
    : option (RecommendationResponse * R) :=
  r ← GetUserProfile StringToUser (rq_uid request) UserProfile0 w;
  let '(_, user_profile, w, _) := r in
  let '(ok, story_profile) := GetProfile StringToStory (swrap 64 (CityHash64 (rq_url request))) StoryProfile0 db in
  if negb ok then Some (mkRecommendation RRC_ERROR [], w)
  else
    response ← Retrieval.retrieve std_sort rd tr FLAGS_max_doc_return
      (retrieval_request user_profile story_profile) Retrieval.RetrievalResponse0;
    match Retrieval.resp_code response with
    | Retrieval.STATE_OK =>
      let candidates := select_candidates db (default [] (history user_profile)) ∅ [] (Retrieval.results response) in
      if decide (candidates = []) then Some (mkRecommendation RRC_NO_CANDIDATE [], w)
      else
        ranking_plugin ← Plugins.SelectByName CityHash64 plugins (uid user_profile);
        ranking_plugin ← ranking_plugin;
        let '(num_results, results) := Rank ranking_plugin user_profile story_profile candidates in
        if negb (zlen results =? uwrap 64 num_results) then Some (mkRecommendation RRC_ERROR results, w)
        else if zlen results =? 0 then Some (mkRecommendation RRC_EMPTY_RANK_RESULT results, w)
        else
          let num_final_results := Z.min (uwrap 64 (topN request)) (zlen results) in
          Some (mkRecommendation RRC_OK (take (Z.to_nat num_final_results) results), w)
    | _ => Some (mkRecommendation RRC_NO_DOC [], w)
    end.

(** ** Adding a story *)

(** The laws of leveldb and of Thrift for stories. *)
Record db_ok (stored : D -> list Z -> option (list Z)) : Prop := {
  db_get k d : db_Get k d = match stored d k with Some v => (0, v) | None => (1, []) end;
  db_put k v d : exists d', db_Put k v d = (true, d') /\
    forall k', stored d' k' = if decide (k' = k) then Some v else stored d k';
}.

Definition story_thrift_ok : Prop := forall p, StringToStory (StoryToString p) StoryProfile0 = (true, p).

Lemma AddProfile_stored stored key p d : db_ok stored -> story_thrift_ok ->
  exists d', AddProfile StoryToString key p d = (true, d') /\ GetProfile StringToStory key StoryProfile0 d' = (true, p).
Proof.
  intros Hd Ht. destruct (db_put _ Hd (slice_of key) (StoryToString p) d) as (d' & Hp & Hs).
  exists d'. split; [unfold AddProfile, LocalDict_Put; by rewrite Hp|].
  unfold GetProfile, LocalDict_Get. rewrite (db_get _ Hd), Hs, decide_True by done. cbn. by rewrite Ht.
Qed.

(** A story that is added while the build queue has room is reported as added, is the
    newest item of that queue, and becomes servable: whatever the index has become when the
    build thread takes the story, indexing it succeeds, and the global id the index then gives
    for its local id is the key under which the forward index returns the story as it was
    sent.  With a full queue nothing changes but the replay log, and the error is reported. *)
Theorem add_story_servable stored (s : Stories) (now : Z) (req : StoryProfile) (st : StoryManagementStatus) :
  db_ok stored -> story_thrift_ok ->
  exists s' st', add_story s now req st = (s', st') /\
    (ProducerConsumerQueue.full (doc_pool_ s) = false ->
       st' = SMS_OK /\
       (exists itm, ProducerConsumerQueue.que_ (doc_pool_ s') = ProducerConsumerQueue.que_ (doc_pool_ s) ++ [itm] /\
          ProducerConsumerQueue.item_ itm = req) /\
       (forall life es index clk,
          InvertedIndex.adds_ok es -> zlen es < 2 ^ 31 - 2 ->
          InvertedIndex.run CityHash64 life InvertedIndex.State0 es = Some index ->
          exists index' local_id global_id,
            InvertedIndex.AddStoryInternal CityHash64 index (index_request req) clk = Some index' /\
            InvertedIndex.TranslateToGlobalID index' local_id = Some global_id /\
            GetProfile StringToStory global_id StoryProfile0 (db_ s') = (true, req))) /\
    (ProducerConsumerQueue.full (doc_pool_ s) = true ->
       st' = SMS_ERROR /\ doc_pool_ s' = doc_pool_ s /\ db_ s' = db_ s).
Proof.
  intros Hd Ht. unfold add_story, AddStory, ProducerConsumerQueue.TryPut, ProducerConsumerQueue.TryPutInternal.
  destruct (if ProducerConsumerQueue.full (log_pool_ s) then _ else _) as [log b].
  destruct (ProducerConsumerQueue.full (doc_pool_ s)) eqn:Hf; cbn [negb].
  { eexists _, _. split; [done|]. by split. }
  destruct (AddProfile_stored stored (story_hash (sp_story_id req)) req (db_ s) Hd Ht) as (d' & Ha & Hg).
  cbn [db_]. rewrite Ha. eexists _, _. split; [done|]. split; [|done]. intros _. split; [done|]. split.
  - eexists. cbn. split; [reflexivity|done].
  - intros life es index clk Hok Hlen Hrun.
    destruct (InvertedIndex.run_State0 CityHash64 life es ltac:(lia) Hok) as (index0 & Hrun0 & Hrep).
    rewrite Hrun in Hrun0. injection Hrun0 as <-.
    assert (Hpos : Z.of_nat (1 + length es) + 1 < 2 ^ 31) by (unfold zlen in Hlen; lia).
    destruct (InvertedIndex.AddStoryInternal_rep CityHash64 _ index _ life (index_request req) clk Hrep)
      as (index' & Hadd & _); [lia|lia|apply elements_of_NoDup|].
    exists index', (InvertedIndex.local_docid_counter_ index), (story_hash (sp_story_id req)).
    split; [done|]. split; [|done]. unfold InvertedIndex.AddStoryInternal in Hadd.
    destruct (InvertedIndex.add_postings _ _ _ _ _) as [m|]; [|done]. cbn in Hadd. injection Hadd as <-.
    unfold InvertedIndex.TranslateToGlobalID. cbn. by rewrite lookup_insert_eq.
Qed.

(** The status of the forward index is overwritten: a story that could not be stored is
    reported as added. *)
Theorem add_story_hides_failure (s : Stories) (now : Z) (req : StoryProfile) (st : StoryManagementStatus) :
  ProducerConsumerQueue.full (doc_pool_ s) = false ->
  (forall k v d, fst (db_Put k v d) = false) ->
  snd (add_story s now req st) = SMS_OK.
Proof.
  intros Hf Hput. unfold add_story, AddStory, ProducerConsumerQueue.TryPut, ProducerConsumerQueue.TryPutInternal.
  rewrite Hf. destruct (if ProducerConsumerQueue.full (log_pool_ s) then _ else _) as [log b]. cbn [negb].
  by destruct (AddProfile _ _ _ _) as [ok d].
Qed.

(** ** Answering a query *)

(** The story a result of the retrieval offers to the user. *)
Definition offer (db : D) (hist : list Z) (r : Retrieval.entry) : option StoryProfile :=
  if decide (Retrieval.story_id r ∈ hist) then None
  else match GetProfile StringToStory (Retrieval.story_id r) StoryProfile0 db with
       | (true, p) => Some p
       | (false, _) => None
       end.

Lemma select_candidates_step db hist existence candidates r results :
  select_candidates db hist existence candidates (r :: results) =
  match offer db hist r with
  | None => select_candidates db hist existence candidates results
  | Some p =>
    if decide (signature p ∈ existence) then select_candidates db hist existence candidates results
    else select_candidates db hist ({[signature p]} ∪ existence) (candidates ++ [p]) results
  end.
Proof.
  cbn [select_candidates]. unfold offer. destruct (decide (Retrieval.story_id r ∈ hist)); [done|].
  by destruct (GetProfile _ _ _ _) as [[] p].
Qed.

Lemma select_candidates_spec db hist results : forall existence candidates,
  exists cands, select_candidates db hist existence candidates results = candidates ++ cands /\
    cands `sublist_of` omap (offer db hist) results /\
    NoDup (signature <$> cands) /\
    (forall p, p ∈ cands -> signature p ∉ existence) /\
    (forall p, p ∈ omap (offer db hist) results -> signature p ∈ existence \/ signature p ∈ signature <$> cands).
Proof.
  induction results as [|r results IH]; intros existence candidates.
  { exists []. cbn. rewrite app_nil_r. split_and!; [done|done|constructor|set_solver|set_solver]. }
  rewrite select_candidates_step.
  assert (Hom : omap (offer db hist) (r :: results) =
    match offer db hist r with Some p => p :: omap (offer db hist) results | None => omap (offer db hist) results end) by done.
  rewrite Hom. destruct (offer db hist r) as [p|]; [|apply IH].
  destruct (decide (signature p ∈ existence)) as [Hin|Hin].
  - destruct (IH existence candidates) as (c & -> & Hs & Hn & He & Hc). exists c.
    split_and!; [done|by constructor|done|done|]. intros q Hq. apply elem_of_cons in Hq as [->|Hq]; auto.
  - destruct (IH ({[signature p]} ∪ existence) (candidates ++ [p])) as (c & -> & Hs & Hn & He & Hc).
    exists (p :: c). split_and!.
    + by rewrite <- app_assoc.
    + by constructor.
    + rewrite fmap_cons. apply list.NoDup_cons. split; [|done]. intros Hin'.
      apply list_elem_of_fmap in Hin' as (q & Heq & Hq). specialize (He q Hq). rewrite <- Heq in He. set_solver.
    + intros q Hq. apply elem_of_cons in Hq as [->|Hq]; [done|]. specialize (He q Hq). set_solver.
    + intros q Hq. apply elem_of_cons in Hq as [->|Hq]; [right; rewrite fmap_cons; set_solver|].
      rewrite fmap_cons. destruct (Hc q Hq); set_solver.
Qed.

(** C21: what a user is recommended.  When the story of the request is in the forward index, the
    retrieval answers; the candidates ranked are the stories it returned, in order, that the
    user has not read and that the forward index knows, one for every signature; without any
    the answer is RRC_NO_CANDIDATE; otherwise the plugin of the user ranks them, and what it
    returns, cut to [topN], is the recommendation, unless it returns nothing or reports a wrong
    number.  A story that is not in the forward index is an error, and a user that is not
    stored is served with an empty profile.  RRC_NO_DOC is never answered. *)
Theorem query_correct (life : Z) (w w' : R) (db : D) (rd : nat -> InvertedIndex.State) (tr : Z -> InvertedIndex.State)
    (plugins : Plugins.Manager) (req : RecommendationRequest) (user : UserProfile) (ret : Z) (ev : list uevent) :
  GetUserProfile StringToUser (rq_uid req) UserProfile0 w = Some (ret, user, w', ev) ->
  Retrieval.sort_ok std_sort -> (forall i, Retrieval.reachable CityHash64 life (rd i)) -> 0 <= FLAGS_max_doc_return ->
  0 <= topN req ->
  let found := GetProfile StringToStory (story_hash (rq_url req)) StoryProfile0 db in
  let story := snd found in
  let request := retrieval_request user story in
  zlen request < 1024 -> (forall d, Retrieval.count d (Retrieval.hit_docs rd 0 request) < 1024) ->
  (fst found = false -> query w db rd tr plugins req = Some (mkRecommendation RRC_ERROR [], w')) /\
  (fst found = true -> exists response,
     Retrieval.retrieve std_sort rd tr FLAGS_max_doc_return request Retrieval.RetrievalResponse0 = Some response /\
     let offers := omap (offer db (default [] (history user))) (Retrieval.results response) in
     exists cands, cands `sublist_of` offers /\ NoDup (signature <$> cands) /\
       (forall p, p ∈ offers -> signature p ∈ signature <$> cands) /\
       (cands = [] -> query w db rd tr plugins req = Some (mkRecommendation RRC_NO_CANDIDATE [], w')) /\
       (cands <> [] -> forall plugin n rs,
          Plugins.SelectByName CityHash64 plugins (uid user) = Some (Some plugin) ->
          Rank plugin user story cands = (n, rs) -> in_int 32 n -> zlen rs < 2 ^ 63 -> topN req < 2 ^ 15 ->
          query w db rd tr plugins req =
            Some (if n =? zlen rs then
                    if zlen rs =? 0 then mkRecommendation RRC_EMPTY_RANK_RESULT []
                    else mkRecommendation RRC_OK (take (Z.to_nat (topN req)) rs)
                  else mkRecommendation RRC_ERROR rs, w'))).
Proof.
  intros Hu Hsort Hrd Hmax Htop found story request Hreq Hcount. subst found story request.
  unfold query. rewrite Hu. cbn [mbind option_bind]. fold (story_hash (rq_url req)).
  destruct (GetProfile StringToStory (story_hash (rq_url req)) StoryProfile0 db) as [ok story].
  cbn [fst snd] in *. split; intros ->; cbn [negb]; [done|]. set (request := retrieval_request user story) in *.
  destruct (Retrieval.retrieve_docs CityHash64 life std_sort rd tr FLAGS_max_doc_return request
    Retrieval.RetrievalResponse0 Hsort Hrd Hmax Hreq Hcount) as (docs & _ & _ & _ & Hr).
  eexists. split; [exact Hr|]. cbv zeta. rewrite Hr. cbn [mbind option_bind Retrieval.resp_code Retrieval.results].
  destruct (select_candidates_spec db (default [] (history user)) (Retrieval.results Retrieval.RetrievalResponse0 ++
    take (Z.to_nat FLAGS_max_doc_return) ((fun d => Retrieval.mkEntry (default d (InvertedIndex.att_ (tr d) !! d))
      (Retrieval.rank (Retrieval.count d (Retrieval.hit_docs rd 0 request)))) <$> docs)) ∅ [])
    as (cands & Hsel & Hsub & Hnd & _ & Hall).
  exists cands. rewrite Hsel. cbn [app]. split_and!; [done|done| | |].
  - intros p Hp. destruct (Hall p Hp); set_solver.
  - intros ->. by rewrite decide_True.
  - intros Hne plugin n rs Hplugin Hrank Hn Hrs Ht. rewrite decide_False by done. rewrite Hplugin.
    cbn [mbind option_bind]. rewrite Hrank. pose proof (zlen_nonneg rs).
    assert (Heq : (zlen rs =? uwrap 64 n) = (n =? zlen rs)).
    { unfold in_int in Hn. destruct (Z.ltb_spec n 0) as [Hneg|Hpos].
      - unfold uwrap. rewrite <- (Z.mod_add n 1) by lia. rewrite Z.mod_small by lia.
        destruct (Z.eqb_spec n (zlen rs)); [lia|]. apply Z.eqb_neq. lia.
      - rewrite uwrap_id by (unfold in_uint; lia). apply Z.eqb_sym. }
    rewrite Heq. destruct (n =? zlen rs); cbn [negb]; [|done].
    destruct (Z.eqb_spec (zlen rs) 0) as [Hz|Hz]; [by destruct rs|].
    rewrite uwrap_id by (unfold in_uint; lia). do 3 f_equal.
    destruct (Z.min_spec (topN req) (zlen rs)) as [[_ ->]|[Hle ->]]; [done|].
    rewrite !take_ge; [done|unfold zlen in *; lia..].
Qed.

End Handlers.

(** ** Evaluations: stores that are finite maps, a serialization by [Countable] *)

#[local] Instance StoryProfile_eq_dec : EqDecision StoryProfile.
Proof. solve_decision. Defined.
#[local] Instance UserProfile_eq_dec : EqDecision UserProfile.
Proof. solve_decision. Defined.

#[local] Instance StoryProfile_countable : Countable StoryProfile.
Proof.
  refine (inj_countable'
    (fun p => (sp_story_id p, signature p, sp_url p, sp_title p, sp_keywords p, sp_optional p))
    (fun '(a, b, c, d, e, f) => mkStoryProfile a b c d e f) _).
  by intros [].
Defined.

#[local] Instance UserProfile_countable : Countable UserProfile.
Proof.
  refine (inj_countable'
    (fun p => (uid p, up_keywords p, topics p, history p, OBSOLETE_story_profile p))
    (fun '(a, b, c, d, e) => mkUserProfile a b c d e) _).
  by intros [].
Defined.

Definition demo_write {A} `{Countable A} (p : A) : list Z := [Z.pos (encode p)].
Definition demo_read {A} `{Countable A} (v : list Z) (p0 : A) : bool * A :=
  match v with
  | [Z.pos e] => match decode e with Some p => (true, p) | None => (false, p0) end
  | _ => (false, p0)
  end.

Lemma demo_read_write {A} `{Countable A} (p p0 : A) : demo_read (demo_write p) p0 = (true, p).
Proof. unfold demo_read, demo_write. by rewrite decode_encode. Qed.

Abbreviation kvs := (gmap (list Z) (list Z)).

#[local] Instance demo_redis : UserStore kvs unit unit := {|
  us_GetRedisNode key w := Some (true, Some tt, tt, w);
  us_Get _ key w := match w !! key with Some v => (0, v, w) | None => (1, [], w) end;
  us_SetEx _ key v _ w := (true, <[key := v]> w);
|}.

#[local] Instance demo_leveldb : LevelDB kvs := {|
  db_Put key v d := (true, <[key := v]> d);
  db_Get key d := match d !! key with Some v => (0, v) | None => (1, []) end;
|}.

Lemma demo_healthy : healthy (R := kvs) (Client := unit) (fun w key => w !! key) (fun _ _ _ => True).
Proof.
  split.
  - intros key w. by exists tt, tt, w.
  - intros c key w _. exists w. split_and!; done.
  - intros c key v life w _. exists (<[key := v]> w). split; [done|]. intros k.
    destruct (decide (k = key)) as [->|Hk]; [by rewrite lookup_insert_eq|by rewrite lookup_insert_ne].
Qed.

Definition demo_user : UserProfile := mkUserProfile [7] {[7 := 10]} None (Some [22]) None.
Definition demo_delta : UserProfile := mkUserProfile [7] {[7 := 5; 8 := 3]} None None None.
Definition demo_users : kvs := {[ [7] := demo_write demo_user ]}.

Lemma PutUserProfile_correct_witness :
  exists w' ev, PutUserProfile demo_write demo_read 100 [7] demo_delta true demo_users = Some (0, w', ev) /\
    exists w'' ev', GetUserProfile demo_read [7] UserProfile0 w' =
      Some (0, mkUserProfile [7] {[7 := 15; 8 := 3]} None (Some [22]) None, w'', ev').
Proof.
  destruct (PutUserProfile_correct demo_write demo_read 100 (fun w key => w !! key) (fun _ _ _ => True) [7]
    demo_user demo_delta true demo_users) as (w' & ev & Hp & _ & w'' & ev' & Hg & _).
  - intros p. apply demo_read_write.
  - exact demo_healthy.
  - intros _. split; [reflexivity|]. intros k a b Ha Hb. change (({[7 := 10]} : gmap Z Z) !! k = Some a) in Ha.
    apply lookup_singleton_Some in Ha as [<- <-].
    vm_compute in Hb. injection Hb as <-. vm_compute. split; congruence.
  - exists w', ev. split; [exact Hp|]. exists w'', ev'. rewrite Hg. vm_compute. reflexivity.
Defined.

Definition demo_story_profile (n sig : Z) : StoryProfile := mkStoryProfile [n] sig [n] [] {[7 := 4; 8 := 1]} [].
Definition demo_db : kvs :=
  {[ slice_of 1 := demo_write (demo_story_profile 1 100); slice_of 22 := demo_write (demo_story_profile 22 200) ]}.

Definition demo_pool : ProducerConsumerQueue.Queue (Item := StoryProfile) := ProducerConsumerQueue.mkQueue 2 0 [].

Lemma demo_db_ok : db_ok (D := kvs) (fun d k => d !! k).
Proof.
  split; [done|]. intros k v d. exists (<[k := v]> d). split; [done|]. intros k'.
  destruct (decide (k' = k)) as [->|Hk]; [by rewrite lookup_insert_eq|by rewrite lookup_insert_ne].
Qed.

Lemma add_story_servable_witness :
  exists s' index', add_story Retrieval.sum_hash demo_write (mkStories demo_pool demo_pool demo_db) 5
      (demo_story_profile 33 300) SMS_OK = (s', SMS_OK) /\
    InvertedIndex.AddStoryInternal Retrieval.sum_hash Retrieval.demo_state (index_request (demo_story_profile 33 300))
      (fun _ => 6) = Some index'.
Proof.
  destruct (add_story_servable Retrieval.sum_hash demo_write demo_read (fun (d : kvs) k => d !! k)
    (mkStories demo_pool demo_pool demo_db) 5 (demo_story_profile 33 300) SMS_OK)
    as (s' & st' & Hadd & Hok & _).
  - exact demo_db_ok.
  - intros p. apply demo_read_write.
  - destruct (Hok eq_refl) as (-> & _ & Hserve).
    destruct (Hserve 3660 Retrieval.demo_events Retrieval.demo_state (fun _ => 6)) as (index' & _ & _ & Hi & _).
    + intros req clk Hin. apply elem_of_cons in Hin as [H|Hin]; [|apply elem_of_cons in Hin as [H|Hin]; [|set_solver]];
        injection H as -> _; apply list.NoDup_cons; (split; [set_solver|]); repeat constructor; set_solver.
    + vm_compute. reflexivity.
    + vm_compute. reflexivity.
    + exists s', index'. split; [exact Hadd|exact Hi].
Defined.

(** The plugin ranks the candidates in the order of the retrieval. *)
Definition demo_Rank (p : unit) (u : UserProfile) (s : StoryProfile) (cands : list StoryProfile)
    : Z * list RecommendationResult :=
  (zlen cands, (fun c => mkResult (sp_story_id c) (S754_zero false) (sp_url c) (sp_title c)) <$> cands).

Definition demo_plugins : Plugins.Manager (Plugin := unit) :=
  Plugins.mkManager false (Plugins.mkBuffer {[0 := Some tt]} (Some tt) 1) (Plugins.mkBuffer ∅ None 0).

Definition demo_query (topn : Z) (user : list Z) : option (RecommendationResponse * kvs) :=
  query Retrieval.sum_hash demo_read demo_read demo_Rank Retrieval.insertion_sort 100 demo_users demo_db
    (fun _ => Retrieval.demo_state) (fun _ => Retrieval.demo_state) demo_plugins (mkRequest user [1] topn).

(** A user without profile gets both stories, the user who has read story 22 only the other. *)
Lemma demo_query_new_user :
  fst <$> demo_query 5 [9] = Some (mkRecommendation RRC_OK
    [mkResult [1] (S754_zero false) [1] []; mkResult [22] (S754_zero false) [22] []]).
Proof. vm_compute. reflexivity. Qed.

Lemma demo_query_reader :
  fst <$> demo_query 5 [7] = Some (mkRecommendation RRC_OK [mkResult [1] (S754_zero false) [1] []]).
Proof. vm_compute. reflexivity. Qed.

Definition demo_response (cands : list StoryProfile) : RecommendationResponse :=
  mkRecommendation RRC_OK (take 1 ((fun c => mkResult (sp_story_id c) (S754_zero false) (sp_url c) (sp_title c)) <$> cands)).

Lemma query_correct_witness :
  exists cands, NoDup (signature <$> cands) /\
    (cands = [] -> demo_query 1 [9] = Some (mkRecommendation RRC_NO_CANDIDATE [], demo_users)) /\
    (cands <> [] -> zlen cands < 2 ^ 31 -> demo_query 1 [9] = Some (demo_response cands, demo_users)).
Proof.
  destruct (query_correct Retrieval.sum_hash demo_read demo_write demo_read demo_Rank Retrieval.insertion_sort 100 3660
    demo_users demo_users demo_db (fun _ => Retrieval.demo_state) (fun _ => Retrieval.demo_state) demo_plugins
    (mkRequest [9] [1] 1) UserProfile0 1 [ULock tt; UGet [9]; UUnlock tt]) as (_ & Hq).
  - vm_compute. reflexivity.
  - exact Retrieval.insertion_sort_ok.
  - intros i. exact Retrieval.demo_reachable.
  - lia.
  - cbn. lia.
  - vm_compute. reflexivity.
  - assert (Hh : Retrieval.hit_docs (fun _ => Retrieval.demo_state) 0
      (retrieval_request UserProfile0 (snd (GetProfile demo_read (story_hash Retrieval.sum_hash [1]) StoryProfile0 demo_db)))
      = [2; 1; 1]) by (vm_compute; reflexivity).
    cbn [rq_url]. rewrite Hh. intros d. pose proof (Retrieval.count_le d [2; 1; 1]) as Hc.
    change (zlen [2; 1; 1]) with 3 in Hc. lia.
  - destruct Hq as (response & _ & cands & _ & Hnd & _ & Hnone & Hsome); [vm_compute; reflexivity|].
    exists cands. split; [exact Hnd|]. split; [exact Hnone|]. intros Hne Hlen. pose proof (zlen_nonneg cands).
    assert (Hl : zlen ((fun c => mkResult (sp_story_id c) (S754_zero false) (sp_url c) (sp_title c)) <$> cands) = zlen cands)
      by (unfold zlen; by rewrite length_fmap).
    assert (Hsel : Plugins.SelectByName Retrieval.sum_hash demo_plugins (uid UserProfile0) = Some (Some tt))
      by (vm_compute; reflexivity).
    specialize (Hsome Hne tt (zlen cands) _ Hsel eq_refl). rewrite Hl, Z.eqb_refl in Hsome.
    assert (Hz : (zlen cands =? 0) = false) by (apply Z.eqb_neq; intros Hz; apply Hne; clear -Hz; by destruct cands).
    rewrite Hz in Hsome. apply Hsome; [unfold in_int; lia|lia|cbn; lia].
Defined.

End Engine.
