(* ===== verification/Client.v ===== *)
(** * networking.c: the clients and their output buffers

    Model of the client structure of [src/debug/redis/src/redis.h], of the functions of
    [networking.c] that queue replies in the static buffer and the reply list of a client
    (addReply and its variants), and of sendReplyToClient, which writes them to the socket.
    Whatever the split between the static buffer, the nodes of the list and the partial writes,
    the bytes sent are the bytes queued, in order ([add_string_pending], [send_pending]); a
    client with output queued has its write handler installed.  The strings of the list are
    values: the copy that dupLastObjectIfNeeded makes of a shared object before it is appended
    to is implicit.  The accounting of the memory of the list (reply_bytes, and the soft and
    hard limits, which are disabled for normal clients) and lastinteraction are left out. *)

From Stdlib Require Import ZArith Lia.
From stdpp Require Import prelude list strings numbers.
From S2P Require Import Prelude.
From S2P Require Import Util.
From S2P Require Import SetType.

Local Open Scope Z_scope.

Module Client.
Abbreviation robj := SetType.robj.
Abbreviation RRaw := SetType.RRaw.
Abbreviation RInt := SetType.RInt.
Abbreviation decoded := SetType.decoded.

(** ** redis.h *)

Definition REDIS_MAX_WRITE_PER_EVENT : Z := 1024 * 64.
Definition REDIS_SHARED_BULKHDR_LEN : Z := 32.
Definition REDIS_MAX_QUERYBUF_LEN : Z := 1024 * 1024 * 1024.
Definition REDIS_IOBUF_LEN : Z := 1024 * 16.
Definition REDIS_REPLY_CHUNK_BYTES : Z := 16 * 1024.
Definition REDIS_INLINE_MAX_SIZE : Z := 1024 * 64.
Definition REDIS_MBULK_BIG_ARG : Z := 1024 * 32.

Definition REDIS_MASTER : Z := 2.
Definition REDIS_MULTI : Z := 8.
Definition REDIS_BLOCKED : Z := 16.
Definition REDIS_DIRTY_CAS : Z := 32.
Definition REDIS_CLOSE_AFTER_REPLY : Z := 64.
Definition REDIS_LUA_CLIENT : Z := 256.
Definition REDIS_ASKING : Z := 512.
Definition REDIS_DIRTY_EXEC : Z := 4096.

Definition REDIS_REQ_INLINE : Z := 1.
Definition REDIS_REQ_MULTIBULK : Z := 2.

Definition REDIS_REPL_NONE : Z := 0.
Definition REDIS_REPL_ONLINE : Z := 6.

(** The functions of the command table that other code compares [proc] with. *)
Inductive command_proc :=
  | MultiProc | ExecProc | DiscardProc | WatchProc | UnwatchProc
  | AuthProc | SubscribeProc | UnsubscribeProc | PsubscribeProc | PunsubscribeProc
  | ShutdownProc | ScriptProc
  | OtherProc (n : nat).

#[export] Instance command_proc_dec : EqDecision command_proc.
Proof. solve_decision. Defined.

Record redisCommand := mkCommand {
  cmd_name : list Z;
  proc : command_proc;
  arity : Z;
  cmd_flags : Z;
}.

Record multiCmd := mkMultiCmd { mc_argv : list (list Z); mc_cmd : redisCommand }.

Record redisClient := mkClient {
  fd : Z;
  db : Z;    (* the number of the selected database *)
  querybuf : list Z;
  querybuf_peak : Z;
  argv : list (list Z);    (* argc is its length *)
  argv_slots : Z;    (* the number of slots argv was allocated with *)
  cmd : option redisCommand;
  reqtype : Z;
  multibulklen : Z;
  bulklen : Z;
  reply : list (option (list Z));    (* None: a deferred length, a NULL ptr *)
  sentlen : Z;
  flags : Z;
  authenticated : bool;
  replstate : Z;
  mstate : list multiCmd;
  watched_keys : list (Z * list Z);    (* database and key *)
  pubsub_channels : list (list Z);
  pubsub_patterns : list (list Z);
  buf : list Z;    (* the first bufpos bytes of the static buffer *)
  write_handler : bool;    (* sendReplyToClient is installed for the socket *)
}.

(** Assignments to the fields. *)
Definition set_fd (v : Z) (c : redisClient) : redisClient :=
  mkClient v (db c) (querybuf c) (querybuf_peak c) (argv c) (argv_slots c) (cmd c) (reqtype c)
    (multibulklen c) (bulklen c) (reply c) (sentlen c) (flags c) (authenticated c) (replstate c)
    (mstate c) (watched_keys c) (pubsub_channels c) (pubsub_patterns c) (buf c)
    (write_handler c).
Definition set_db (v : Z) (c : redisClient) : redisClient :=
  mkClient (fd c) v (querybuf c) (querybuf_peak c) (argv c) (argv_slots c) (cmd c) (reqtype c)
    (multibulklen c) (bulklen c) (reply c) (sentlen c) (flags c) (authenticated c) (replstate c)
    (mstate c) (watched_keys c) (pubsub_channels c) (pubsub_patterns c) (buf c)
    (write_handler c).
Definition set_querybuf (v : list Z) (c : redisClient) : redisClient :=
  mkClient (fd c) (db c) v (querybuf_peak c) (argv c) (argv_slots c) (cmd c) (reqtype c)
    (multibulklen c) (bulklen c) (reply c) (sentlen c) (flags c) (authenticated c) (replstate c)
    (mstate c) (watched_keys c) (pubsub_channels c) (pubsub_patterns c) (buf c)
    (write_handler c).
Definition set_querybuf_peak (v : Z) (c : redisClient) : redisClient :=
  mkClient (fd c) (db c) (querybuf c) v (argv c) (argv_slots c) (cmd c) (reqtype c)
    (multibulklen c) (bulklen c) (reply c) (sentlen c) (flags c) (authenticated c) (replstate c)
    (mstate c) (watched_keys c) (pubsub_channels c) (pubsub_patterns c) (buf c)
    (write_handler c).
Definition set_argv (v : list (list Z)) (c : redisClient) : redisClient :=
  mkClient (fd c) (db c) (querybuf c) (querybuf_peak c) v (argv_slots c) (cmd c) (reqtype c)
    (multibulklen c) (bulklen c) (reply c) (sentlen c) (flags c) (authenticated c) (replstate c)
    (mstate c) (watched_keys c) (pubsub_channels c) (pubsub_patterns c) (buf c)
    (write_handler c).
Definition set_argv_slots (v : Z) (c : redisClient) : redisClient :=
  mkClient (fd c) (db c) (querybuf c) (querybuf_peak c) (argv c) v (cmd c) (reqtype c)
    (multibulklen c) (bulklen c) (reply c) (sentlen c) (flags c) (authenticated c) (replstate c)
    (mstate c) (watched_keys c) (pubsub_channels c) (pubsub_patterns c) (buf c)
    (write_handler c).
Definition set_cmd (v : option redisCommand) (c : redisClient) : redisClient :=
  mkClient (fd c) (db c) (querybuf c) (querybuf_peak c) (argv c) (argv_slots c) v (reqtype c)
    (multibulklen c) (bulklen c) (reply c) (sentlen c) (flags c) (authenticated c) (replstate c)
    (mstate c) (watched_keys c) (pubsub_channels c) (pubsub_patterns c) (buf c)
    (write_handler c).
Definition set_reqtype (v : Z) (c : redisClient) : redisClient :=
  mkClient (fd c) (db c) (querybuf c) (querybuf_peak c) (argv c) (argv_slots c) (cmd c) v
    (multibulklen c) (bulklen c) (reply c) (sentlen c) (flags c) (authenticated c) (replstate c)
    (mstate c) (watched_keys c) (pubsub_channels c) (pubsub_patterns c) (buf c)
    (write_handler c).
Definition set_multibulklen (v : Z) (c : redisClient) : redisClient :=
  mkClient (fd c) (db c) (querybuf c) (querybuf_peak c) (argv c) (argv_slots c) (cmd c)
    (reqtype c) v (bulklen c) (reply c) (sentlen c) (flags c) (authenticated c) (replstate c)
    (mstate c) (watched_keys c) (pubsub_channels c) (pubsub_patterns c) (buf c)
    (write_handler c).
Definition set_bulklen (v : Z) (c : redisClient) : redisClient :=
  mkClient (fd c) (db c) (querybuf c) (querybuf_peak c) (argv c) (argv_slots c) (cmd c)
    (reqtype c) (multibulklen c) v (reply c) (sentlen c) (flags c) (authenticated c)
    (replstate c) (mstate c) (watched_keys c) (pubsub_channels c) (pubsub_patterns c) (buf c)
    (write_handler c).
Definition set_reply (v : list (option (list Z))) (c : redisClient) : redisClient :=
  mkClient (fd c) (db c) (querybuf c) (querybuf_peak c) (argv c) (argv_slots c) (cmd c)
    (reqtype c) (multibulklen c) (bulklen c) v (sentlen c) (flags c) (authenticated c)
    (replstate c) (mstate c) (watched_keys c) (pubsub_channels c) (pubsub_patterns c) (buf c)
    (write_handler c).
Definition set_sentlen (v : Z) (c : redisClient) : redisClient :=
  mkClient (fd c) (db c) (querybuf c) (querybuf_peak c) (argv c) (argv_slots c) (cmd c)
    (reqtype c) (multibulklen c) (bulklen c) (reply c) v (flags c) (authenticated c)
    (replstate c) (mstate c) (watched_keys c) (pubsub_channels c) (pubsub_patterns c) (buf c)
    (write_handler c).
Definition set_flags (v : Z) (c : redisClient) : redisClient :=
  mkClient (fd c) (db c) (querybuf c) (querybuf_peak c) (argv c) (argv_slots c) (cmd c)
    (reqtype c) (multibulklen c) (bulklen c) (reply c) (sentlen c) v (authenticated c)
    (replstate c) (mstate c) (watched_keys c) (pubsub_channels c) (pubsub_patterns c) (buf c)
    (write_handler c).
Definition set_authenticated (v : bool) (c : redisClient) : redisClient :=
  mkClient (fd c) (db c) (querybuf c) (querybuf_peak c) (argv c) (argv_slots c) (cmd c)
    (reqtype c) (multibulklen c) (bulklen c) (reply c) (sentlen c) (flags c) v (replstate c)
    (mstate c) (watched_keys c) (pubsub_channels c) (pubsub_patterns c) (buf c)
    (write_handler c).
Definition set_replstate (v : Z) (c : redisClient) : redisClient :=
  mkClient (fd c) (db c) (querybuf c) (querybuf_peak c) (argv c) (argv_slots c) (cmd c)
    (reqtype c) (multibulklen c) (bulklen c) (reply c) (sentlen c) (flags c) (authenticated c) v
    (mstate c) (watched_keys c) (pubsub_channels c) (pubsub_patterns c) (buf c)
    (write_handler c).
Definition set_mstate (v : list multiCmd) (c : redisClient) : redisClient :=
  mkClient (fd c) (db c) (querybuf c) (querybuf_peak c) (argv c) (argv_slots c) (cmd c)
    (reqtype c) (multibulklen c) (bulklen c) (reply c) (sentlen c) (flags c) (authenticated c)
    (replstate c) v (watched_keys c) (pubsub_channels c) (pubsub_patterns c) (buf c)
    (write_handler c).
Definition set_watched_keys (v : list (Z * list Z)) (c : redisClient) : redisClient :=
  mkClient (fd c) (db c) (querybuf c) (querybuf_peak c) (argv c) (argv_slots c) (cmd c)
    (reqtype c) (multibulklen c) (bulklen c) (reply c) (sentlen c) (flags c) (authenticated c)
    (replstate c) (mstate c) v (pubsub_channels c) (pubsub_patterns c) (buf c)
    (write_handler c).
Definition set_pubsub_channels (v : list (list Z)) (c : redisClient) : redisClient :=
  mkClient (fd c) (db c) (querybuf c) (querybuf_peak c) (argv c) (argv_slots c) (cmd c)
    (reqtype c) (multibulklen c) (bulklen c) (reply c) (sentlen c) (flags c) (authenticated c)
    (replstate c) (mstate c) (watched_keys c) v (pubsub_patterns c) (buf c) (write_handler c).
Definition set_pubsub_patterns (v : list (list Z)) (c : redisClient) : redisClient :=
  mkClient (fd c) (db c) (querybuf c) (querybuf_peak c) (argv c) (argv_slots c) (cmd c)
    (reqtype c) (multibulklen c) (bulklen c) (reply c) (sentlen c) (flags c) (authenticated c)
    (replstate c) (mstate c) (watched_keys c) (pubsub_channels c) v (buf c) (write_handler c).
Definition set_buf (v : list Z) (c : redisClient) : redisClient :=
  mkClient (fd c) (db c) (querybuf c) (querybuf_peak c) (argv c) (argv_slots c) (cmd c)
    (reqtype c) (multibulklen c) (bulklen c) (reply c) (sentlen c) (flags c) (authenticated c)
    (replstate c) (mstate c) (watched_keys c) (pubsub_channels c) (pubsub_patterns c) v
    (write_handler c).
Definition set_write_handler (v : bool) (c : redisClient) : redisClient :=
  mkClient (fd c) (db c) (querybuf c) (querybuf_peak c) (argv c) (argv_slots c) (cmd c)
    (reqtype c) (multibulklen c) (bulklen c) (reply c) (sentlen c) (flags c) (authenticated c)
    (replstate c) (mstate c) (watched_keys c) (pubsub_channels c) (pubsub_patterns c) (buf c) v.

Implicit Types (c : redisClient).

(** [c->flags & f]. *)
Definition has_flag (f : Z) c : bool := negb (Z.land (flags c) f =? 0).
Definition or_flags (f : Z) c : redisClient := set_flags (Z.lor (flags c) f) c.
Definition clear_flags (f : Z) c : redisClient := set_flags (Z.land (flags c) (Z.lnot f)) c.

(** createClient: the fields of a new client with socket [fd]. *)
Definition createClient (fd : Z) : redisClient :=
  mkClient fd 0 [] 0 [] 0 None 0 0 (-1) [] 0 0 false REDIS_REPL_NONE [] [] [] [] [] false.

(** ** Queueing output *)

Definition crlf : list Z := [13; 10].

(** The replication states in which the socket of a slave takes replies. *)
Definition prepareClientToWrite c : bool * redisClient :=
  if has_flag REDIS_LUA_CLIENT c then (true, c)
  else if fd c <=? 0 then (false, c)
  else if (zlen (buf c) =? 0) && (zlen (reply c) =? 0) &&
          ((replstate c =? REDIS_REPL_NONE) || (replstate c =? REDIS_REPL_ONLINE))
       then (true, set_write_handler true c)
       else (true, c).

(** REDIS_OK is [inl], with the client; REDIS_ERR is [inr]. *)
Definition addReplyToBuffer c (s : list Z) : redisClient + unit :=
  if has_flag REDIS_CLOSE_AFTER_REPLY c then inl c
  else if 0 <? zlen (reply c) then inr tt
  else if REDIS_REPLY_CHUNK_BYTES - zlen (buf c) <? zlen s then inr tt
  else inl (set_buf (buf c ++ s) c).

(** _addReplyObjectToList, _addReplySdsToList, _addReplyStringToList: they differ in who owns
    the string. *)
Definition addReplyToList c (s : list Z) : redisClient :=
  if has_flag REDIS_CLOSE_AFTER_REPLY c then c
  else match reverse (reply c) with
       | [] => set_reply [Some s] c
       | tail :: front =>
         match tail with
         | Some ptr =>
           if zlen ptr + zlen s <=? REDIS_REPLY_CHUNK_BYTES
           then set_reply (reverse front ++ [Some (ptr ++ s)]) c
           else set_reply (reply c ++ [Some s]) c
         | None => set_reply (reply c ++ [Some s]) c
         end
       end.

Definition addReplyString c (s : list Z) : redisClient :=
  let '(ok, c) := prepareClientToWrite c in
  if negb ok then c
  else match addReplyToBuffer c s with
       | inl c => c
       | inr _ => addReplyToList c s
       end.

Definition addReplySds c (s : list Z) : redisClient :=
  let '(ok, c) := prepareClientToWrite c in
  if negb ok then c
  else match addReplyToBuffer c s with
       | inl c => c
       | inr _ => addReplyToList c s
       end.

Definition addReply c (obj : robj) : redisClient :=
  let '(ok, c) := prepareClientToWrite c in
  if negb ok then c
  else match obj with
       | RRaw s => match addReplyToBuffer c s with inl c => c | inr _ => addReplyToList c s end
       | RInt v =>
         let slow c :=
           match addReplyToBuffer c (decoded obj) with
           | inl c => c
           | inr _ => addReplyToList c (decoded obj)
           end in
         if (zlen (reply c) =? 0) && (32 <=? REDIS_REPLY_CHUNK_BYTES - zlen (buf c)) then
           let '(len, b) := Util.ll2string 32 v in
           match addReplyToBuffer c (take (Z.to_nat len) b) with
           | inl c => c
           | inr _ => slow c
           end
         else slow c
       end.

(** ** Protocol level *)

Definition addReplyErrorLength c (s : list Z) : redisClient :=
  addReplyString (addReplyString (addReplyString c (str "-ERR ")) s) crlf.

Definition addReplyError c (err : list Z) : redisClient := addReplyErrorLength c err.

(** [s] is the formatted message. *)
Definition addReplyErrorFormat c (s : list Z) : redisClient :=
  addReplyErrorLength c ((fun b => if (b =? 13) || (b =? 10) then 32 else b) <$> s).

Definition addReplyStatusLength c (s : list Z) : redisClient :=
  addReplyString (addReplyString (addReplyString c (str "+")) s) crlf.

Definition addReplyStatus c (status : list Z) : redisClient := addReplyStatusLength c status.

Definition addReplyStatusFormat c (s : list Z) : redisClient := addReplyStatusLength c s.

(** createSharedObjects: [mbulkhdr[j]], [bulkhdr[j]]; [None] out of the arrays. *)
Definition shared_hdr (prefix j : Z) : option (list Z) :=
  if (0 <=? j) && (j <? REDIS_SHARED_BULKHDR_LEN)
  then Some ([prefix] ++ Util.ll2string_chars j ++ crlf) else None.

Definition shared_ok : robj := RRaw (str "+OK" ++ crlf).
Definition shared_czero : robj := RRaw (str ":0" ++ crlf).
Definition shared_cone : robj := RRaw (str ":1" ++ crlf).
Definition shared_crlf : robj := RRaw crlf.
Definition shared_nullbulk : robj := RRaw (str "$-1" ++ crlf).
Definition shared_nullmultibulk : robj := RRaw (str "*-1" ++ crlf).
Definition shared_queued : robj := RRaw (str "+QUEUED" ++ crlf).

Definition addReplyLongLongWithPrefix c (ll prefix : Z) : option redisClient :=
  if ((prefix =? 42) || (prefix =? 36)) && (ll <? REDIS_SHARED_BULKHDR_LEN) then
    h ← shared_hdr prefix ll; Some (addReply c (RRaw h))
  else
    let '(len, b) := Util.ll2string (128 - 1) ll in
    Some (addReplyString c ([prefix] ++ take (Z.to_nat len) b ++ crlf)).

Definition addReplyLongLong c (ll : Z) : option redisClient :=
  if ll =? 0 then Some (addReply c shared_czero)
  else if ll =? 1 then Some (addReply c shared_cone)
  else addReplyLongLongWithPrefix c ll 58.

Definition addReplyMultiBulkLen c (length : Z) : option redisClient :=
  addReplyLongLongWithPrefix c length 42.

(** The number of decimal digits of a non-negative number. *)
Fixpoint digits_loop (fuel : nat) (n len : Z) : Z :=
  match fuel with
  | O => len
  | S fuel => let n := n / 10 in if n =? 0 then len else digits_loop fuel n (len + 1)
  end.

(** [-n] overflows for LONG_MIN. *)
Definition addReplyBulkLen c (obj : robj) : option redisClient :=
  len ← match obj with
        | RRaw s => Some (zlen s)
        | RInt n =>
          if n <? 0 then m ← sadd 64 0 (- n); Some (digits_loop 20 m 2)
          else Some (digits_loop 20 n 1)
        end;
  addReplyLongLongWithPrefix c len 36.

Definition addReplyBulk c (obj : robj) : option redisClient :=
  c ← addReplyBulkLen c obj;
  Some (addReply (addReply c obj) shared_crlf).

Definition addReplyBulkCBuffer c (p : list Z) : option redisClient :=
  c ← addReplyLongLongWithPrefix c (zlen p) 36;
  Some (addReply (addReplyString c p) shared_crlf).

Definition addReplyBulkCString c (s : option (list Z)) : option redisClient :=
  match s with
  | None => Some (addReply c shared_nullbulk)
  | Some s => addReplyBulkCBuffer c s
  end.

Definition addReplyBulkLongLong c (ll : Z) : option redisClient :=
  let '(len, b) := Util.ll2string 64 ll in addReplyBulkCBuffer c (take (Z.to_nat len) b).

(** The node of the deferred length is its index in the reply list. *)
Definition addDeferredMultiBulkLength c : option nat * redisClient :=
  let '(ok, c) := prepareClientToWrite c in
  if negb ok then (None, c)
  else (Some (length (reply c)), set_reply (reply c ++ [None]) c).

Definition setDeferredMultiBulkLength c (node : option nat) (length : Z) : redisClient :=
  match node with
  | None => c
  | Some i =>
    let len := str "*" ++ Util.ll2string_chars length ++ crlf in
    match reply c !! S i with
    | Some (Some next) =>
      set_reply (take i (reply c) ++ [Some (len ++ next)] ++ drop (S (S i)) (reply c)) c
    | _ => set_reply (<[i := Some len]> (reply c)) c
    end
  end.

Definition copyClientOutputBuffer (dst src : redisClient) : redisClient :=
  set_buf (buf src) (set_reply (reply src) dst).

(** ** Writing the output to the socket *)

(** [write(2)] of [n] bytes on a socket that accepts [w]: it writes at most [n]. *)
Definition sys_write (n w : Z) : Z := if 0 <? w then Z.min w n else w.

(** The loop of sendReplyToClient: [ws] are the results of the successive calls of [write]
    (past its end the socket is not writable: -1), [over] is whether maxmemory is unset or not
    reached.  Returns the client, the last result, the bytes written. *)
Fixpoint send_loop (fuel : nat) (over : bool) (ws : list Z) c (totwritten nwritten : Z)
    (sent : list Z) : outcome (redisClient * Z * list Z)%type :=
  match fuel with
  | O => OutOfFuel
  | S fuel =>
    if negb (0 <? zlen (buf c)) && (zlen (reply c) =? 0) then Ok (c, nwritten, sent)
    else if 0 <? zlen (buf c) then
      let n := zlen (buf c) - sentlen c in
      let master := has_flag REDIS_MASTER c in
      let nwritten := if master then n else sys_write n (default (-1) (head ws)) in
      let ws := if master then ws else tail ws in
      if negb master && (nwritten <=? 0) then Ok (c, nwritten, sent)
      else
        let sent := if master then sent
                    else sent ++ take (Z.to_nat nwritten) (drop (Z.to_nat (sentlen c)) (buf c)) in
        let c := set_sentlen (sentlen c + nwritten) c in
        let totwritten := totwritten + nwritten in
        let c := if sentlen c =? zlen (buf c) then set_sentlen 0 (set_buf [] c) else c in
        if (REDIS_MAX_WRITE_PER_EVENT <? totwritten) && over then Ok (c, nwritten, sent)
        else send_loop fuel over ws c totwritten nwritten sent
    else
      match reply c with
      | Some o :: rest =>
        let objlen := zlen o in
        if objlen =? 0 then
          send_loop fuel over ws (set_reply rest c) totwritten nwritten sent
        else
          let n := objlen - sentlen c in
          let master := has_flag REDIS_MASTER c in
          let nwritten := if master then n else sys_write n (default (-1) (head ws)) in
          let ws := if master then ws else tail ws in
          if negb master && (nwritten <=? 0) then Ok (c, nwritten, sent)
          else
            let sent := if master then sent
                        else sent ++ take (Z.to_nat nwritten) (drop (Z.to_nat (sentlen c)) o) in
            let c := set_sentlen (sentlen c + nwritten) c in
            let totwritten := totwritten + nwritten in
            let c := if sentlen c =? objlen then set_sentlen 0 (set_reply rest c) else c in
            if (REDIS_MAX_WRITE_PER_EVENT <? totwritten) && over then Ok (c, nwritten, sent)
            else send_loop fuel over ws c totwritten nwritten sent
      | _ => Undefined
      end
  end.

(** One iteration per call of [write], and one per node of the list and for the buffer. *)
Definition send_fuel (ws : list Z) c : nat := length ws + length (reply c) + 3.

(** [eagain]: errno after a failing write.  The client is [None] when it is freed. *)
Definition sendReplyToClient (over eagain : bool) (ws : list Z) c
    : outcome (option redisClient * list Z)%type :=
  '(c, nwritten, sent) ← send_loop (send_fuel ws c) over ws c 0 0 [];
  if (nwritten =? -1) && negb eagain then Ok (None, sent)
  else if (zlen (buf c) =? 0) && (zlen (reply c) =? 0) then
    let c := set_write_handler false (set_sentlen 0 c) in
    if has_flag REDIS_CLOSE_AFTER_REPLY c then Ok (None, sent) else Ok (Some c, sent)
  else Ok (Some c, sent).

(** ** The output as a stream *)

(** The bytes queued and not yet written. *)
Definition queued c : list Z := buf c ++ concat (default [] <$> reply c).
Definition pending c : list Z := drop (Z.to_nat (sentlen c)) (queued c).

Definition sent_ok c : Prop :=
  0 <= sentlen c /\
  match buf c, reply c with
  | [], [] => sentlen c = 0
  | [], o :: _ => sentlen c = 0 \/ sentlen c < zlen (default [] o)
  | _ :: _, _ => sentlen c < zlen (buf c)
  end.

(** The write handler is installed when there is something to write. *)
Definition handler_ok c : Prop :=
  has_flag REDIS_LUA_CLIENT c = false ->
  replstate c = REDIS_REPL_NONE \/ replstate c = REDIS_REPL_ONLINE ->
  buf c <> [] \/ reply c <> [] -> write_handler c = true.

Record out_inv c : Prop := {
  oi_sent : sent_ok c;
  oi_room : zlen (buf c) <= REDIS_REPLY_CHUNK_BYTES;
  oi_handler : handler_ok c;
}.

(** The client takes replies. *)
Definition accepts c : Prop :=
  has_flag REDIS_CLOSE_AFTER_REPLY c = false /\ (has_flag REDIS_LUA_CLIENT c = true \/ 0 < fd c).

(** Only the output side differs. *)
Definition out_only c c' : Prop :=
  c' = set_write_handler (write_handler c') (set_reply (reply c') (set_buf (buf c') c)).

Ltac client_simpl :=
  unfold set_fd, set_db, set_querybuf, set_querybuf_peak, set_argv, set_argv_slots, set_cmd,
    set_reqtype, set_multibulklen, set_bulklen, set_reply, set_sentlen, set_flags,
    set_authenticated, set_replstate, set_mstate, set_watched_keys, set_pubsub_channels,
    set_pubsub_patterns, set_buf, set_write_handler, has_flag, or_flags, clear_flags in *;
  cbn [fd db querybuf querybuf_peak argv argv_slots cmd reqtype multibulklen bulklen reply
    sentlen flags authenticated replstate mstate watched_keys pubsub_channels pubsub_patterns
    buf write_handler] in *.

#[export] Instance out_only_preorder : PreOrder out_only.
Proof.
  split; [by intros []|]. intros c1 c2 c3 H12 H23. unfold out_only in *. rewrite H23, H12. reflexivity.
Qed.


Lemma zlen_pos {A} (l : list A) : l <> [] -> 0 < zlen l.
Proof. destruct l; [done|]. rewrite zlen_cons. pose proof (zlen_nonneg l). lia. Qed.

Lemma drop_app_le {A} n (l k : list A) : (n <= length l)%nat -> drop n (l ++ k) = drop n l ++ k.
Proof. intros H. rewrite drop_app. by replace (n - length l)%nat with O by lia. Qed.

Lemma app_split {A} (b w u x : list A) :
  b ++ w = u ++ x -> zlen u <= zlen b -> exists b', b = u ++ b' /\ b' ++ w = x.
Proof.
  intros H Hl. unfold zlen in Hl. exists (drop (length u) b).
  assert (take (length u) b = u) as Ht.
  { rewrite <- (take_app_le b w) by lia. rewrite H. apply take_app_length. }
  split; [by rewrite <- Ht at 1; rewrite take_drop|].
  rewrite <- drop_app_le by lia. rewrite H. apply drop_app_length.
Qed.

Lemma sent_ok_le c : sent_ok c -> (Z.to_nat (sentlen c) <= length (queued c))%nat.
Proof.
  unfold sent_ok, queued. intros [H0 H]. rewrite length_app.
  destruct (buf c) as [|b l]; [destruct (reply c) as [|o r]|]; unfold zlen in *; simpl in *;
    rewrite ?length_app in *; lia.
Qed.

Lemma add_list_out c s : exists r, addReplyToList c s = set_reply r c.
Proof.
  unfold addReplyToList. destruct (has_flag _ c); [by exists (reply c); destruct c|].
  destruct (reverse (reply c)) as [|[] front]; [by eexists|destruct (_ <=? _); by eexists|by eexists].
Qed.

(** Queueing only changes the output side. *)
Lemma add_string_out c s : out_only c (addReplyString c s).
Proof.
  unfold addReplyString. destruct (prepareClientToWrite c) as [ok c1] eqn:E.
  assert (Ho : exists w, c1 = set_write_handler w c).
  { unfold prepareClientToWrite in E. destruct (has_flag _ c); [|destruct (_ <=? 0); [|destruct (_ && _)]];
      injection E as <- <-; first [by eexists|by exists (write_handler c); destruct c]. }
  destruct Ho as [w ->]. destruct ok; [|done]. cbn [negb]. unfold addReplyToBuffer.
  destruct (has_flag _ _); [done|]. destruct (_ <? _); [|destruct (_ <? _); [|done]].
  all: by destruct (add_list_out (set_write_handler w c) s) as [r ->].
Qed.

(** A client that takes no replies is left alone, but for the handler. *)
Lemma add_string_refused c s :
  ~ accepts c -> pending (addReplyString c s) = pending c /\ out_only c (addReplyString c s).
Proof.
  unfold accepts, addReplyString, prepareClientToWrite, addReplyToBuffer, addReplyToList.
  intros Hna. destruct (has_flag REDIS_LUA_CLIENT c) eqn:HL; simpl;
    [|destruct (Z.leb_spec (fd c) 0); simpl; [by split|]].
  - assert (has_flag REDIS_CLOSE_AFTER_REPLY c = true) as ->
      by (destruct (has_flag REDIS_CLOSE_AFTER_REPLY c); tauto).
    by split.
  - assert (has_flag REDIS_CLOSE_AFTER_REPLY c = true) as Hc
      by (destruct (has_flag REDIS_CLOSE_AFTER_REPLY c); tauto).
    destruct (_ && _); simpl; rewrite ?Hc; [|by split].
    unfold has_flag in Hc |- *. cbn [flags set_write_handler]. rewrite Hc. by split.
Qed.

Definition armed c : Prop :=
  has_flag REDIS_LUA_CLIENT c = false ->
  replstate c = REDIS_REPL_NONE \/ replstate c = REDIS_REPL_ONLINE -> write_handler c = true.

Lemma prepare_accepts c :
  accepts c -> out_inv c ->
  exists w, prepareClientToWrite c = (true, set_write_handler w c) /\
    armed (set_write_handler w c).
Proof.
  intros [_ Ha] [_ _ Hh]. unfold prepareClientToWrite, armed.
  destruct (has_flag REDIS_LUA_CLIENT c) eqn:HL.
  { exists (write_handler c). split; [by destruct c|]. by client_simpl; rewrite HL. }
  destruct (Z.leb_spec (fd c) 0); [by destruct Ha; [|lia]|].
  destruct (_ && _) eqn:E; [by exists true|].
  exists (write_handler c). split; [by destruct c|]. intros _ Hr. cbn in Hr |- *.
  apply (Hh HL Hr). apply andb_false_iff in E as [E|E].
  - destruct (buf c); [|by left]. destruct (reply c); [done|by right].
  - apply orb_false_iff in E as [E1 E2]. destruct Hr; lia.
Qed.

Definition add_bytes c (s : list Z) : redisClient :=
  match addReplyToBuffer c s with inl c => c | inr _ => addReplyToList c s end.

Lemma add_list_shape c s :
  has_flag REDIS_CLOSE_AFTER_REPLY c = false ->
  exists r, addReplyToList c s = set_reply r c /\ r <> [] /\
    concat (default [] <$> r) = concat (default [] <$> reply c) ++ s /\
    (forall o rest, reply c = o :: rest ->
      exists o' rest', r = o' :: rest' /\ zlen (default [] o) <= zlen (default [] o')).
Proof.
  intros Hc. unfold addReplyToList. rewrite Hc.
  assert (Hsnoc : exists r, set_reply (reply c ++ [Some s]) c = set_reply r c /\ r <> [] /\
    concat (default [] <$> r) = concat (default [] <$> reply c) ++ s /\
    (forall o rest, reply c = o :: rest ->
      exists o' rest', r = o' :: rest' /\ zlen (default [] o) <= zlen (default [] o'))).
  { exists (reply c ++ [Some s]). split_and!; [done|by destruct (reply c)| |].
    - by rewrite fmap_app, concat_app; simpl; rewrite app_nil_r.
    - intros o rest ->. by exists o, (rest ++ [Some s]). }
  destruct (reverse (reply c)) as [|tail front] eqn:E.
  { apply (f_equal reverse) in E. rewrite reverse_involutive in E. simpl in E.
    exists [Some s]. rewrite E. split_and!; [done|done| |done]. simpl. by rewrite app_nil_r. }
  apply (f_equal reverse) in E. rewrite reverse_involutive, reverse_cons in E.
  destruct tail as [ptr|]; [|done]. destruct (_ <=? _); [|done].
  exists (reverse front ++ [Some (ptr ++ s)]). rewrite E. split_and!; [done|by destruct (reverse front)| |].
  - rewrite !fmap_app, !concat_app. simpl. by rewrite !app_nil_r, <- app_assoc.
  - intros o rest Ho. destruct (reverse front) as [|o' r']; simpl in *; injection Ho as <- <-.
    + eexists _, _. split; [done|]. simpl. rewrite zlen_app. pose proof (zlen_nonneg s). lia.
    + by eexists _, _.
Qed.

Lemma add_bytes_pending c s :
  has_flag REDIS_CLOSE_AFTER_REPLY c = false -> sent_ok c ->
  zlen (buf c) <= REDIS_REPLY_CHUNK_BYTES ->
  pending (add_bytes c s) = pending c ++ s /\ sent_ok (add_bytes c s) /\
  zlen (buf (add_bytes c s)) <= REDIS_REPLY_CHUNK_BYTES /\
  exists b r, add_bytes c s = set_reply r (set_buf b c).
Proof.
  intros Hc Hs Hr. pose proof (sent_ok_le c Hs) as Hle. unfold add_bytes, addReplyToBuffer.
  rewrite Hc.
  assert (Hl : pending (addReplyToList c s) = pending c ++ s /\ sent_ok (addReplyToList c s) /\
    zlen (buf (addReplyToList c s)) <= REDIS_REPLY_CHUNK_BYTES /\
    exists b r, addReplyToList c s = set_reply r (set_buf b c)).
  { destruct (add_list_shape c s Hc) as (r & -> & Hne & Hcat & Hhd). split_and!.
    - unfold pending, queued. cbn. rewrite Hcat, app_assoc. by apply drop_app_le.
    - unfold sent_ok in *. cbn. destruct Hs as [H0 Hs]. split; [done|].
      destruct (buf c); [|done]. destruct (reply c) as [|o rest].
      + destruct r; [done|by left].
      + destruct (Hhd o rest eq_refl) as (o' & rest' & -> & Hz). lia.
    - done.
    - exists (buf c), r. by destruct c. }
  destruct (Z.ltb_spec 0 (zlen (reply c))); [done|].
  destruct (Z.ltb_spec (REDIS_REPLY_CHUNK_BYTES - zlen (buf c)) (zlen s)); [done|]. clear Hl.
  destruct (reply c) as [|o r] eqn:Er; [|unfold zlen in *; simpl in *; lia].
  split_and!.
  - unfold pending, queued in *. cbn. rewrite Er in Hle |- *. simpl in *. rewrite !app_nil_r in *.
    by apply drop_app_le.
  - unfold sent_ok in *. cbn. rewrite Er in *. destruct Hs as [Hpos Hs]. split; [done|].
    pose proof (zlen_nonneg s). destruct (buf c) as [|b l]; simpl.
    + destruct s; [done|]. rewrite Hs, zlen_cons. pose proof (zlen_nonneg s). lia.
    + change (b :: l ++ s) with ((b :: l) ++ s). rewrite zlen_app. lia.
  - cbn. rewrite zlen_app. lia.
  - exists (buf c ++ s), []. destruct c; cbn in *. by subst.
Qed.

(** Queueing a string on a client that takes replies. *)
Lemma add_string_pending c s :
  accepts c -> out_inv c ->
  pending (addReplyString c s) = pending c ++ s /\ out_only c (addReplyString c s) /\
  out_inv (addReplyString c s).
Proof.
  intros Ha Hi. destruct (prepare_accepts c Ha Hi) as (w & Hp & Harm).
  assert (addReplyString c s = add_bytes (set_write_handler w c) s) as ->
    by (unfold addReplyString; by rewrite Hp).
  destruct (add_bytes_pending (set_write_handler w c) s) as (H1 & H2 & H3 & b & r & E).
  - apply Ha.
  - apply Hi.
  - apply Hi.
  - rewrite E in *. split_and!; [done|done|split; [done|done|]].
    unfold handler_ok. intros HL Hr _. by apply Harm.
Qed.

Lemma add_string_full c s :
  Forall is_Some (reply c) -> Forall is_Some (reply (addReplyString c s)).
Proof.
  intros Hf. unfold addReplyString. destruct (prepareClientToWrite c) as [ok c1] eqn:E.
  assert (reply c1 = reply c) as Hr.
  { unfold prepareClientToWrite in E. destruct (has_flag _ c); [|destruct (_ <=? 0); [|destruct (_ && _)]];
      by injection E as <- <-. }
  rewrite <- Hr in Hf. clear E Hr. destruct ok; [|done]. cbn [negb]. unfold addReplyToBuffer, addReplyToList.
  assert (Hsnoc : Forall is_Some (reply c1 ++ [Some s])) by (apply Forall_app; split; [done|by repeat constructor]).
  destruct (has_flag _ _); [done|]. destruct (_ <? _); [|destruct (_ <? _); [|done]].
  all: destruct (reverse (reply c1)) as [|[ptr|] front] eqn:Er; [by repeat constructor| |done].
  all: destruct (_ <=? _); [|done]; cbn; apply Forall_app; split; [|by repeat constructor].
  all: apply (f_equal reverse) in Er; rewrite reverse_involutive, reverse_cons in Er;
    rewrite Er in Hf; by apply Forall_app in Hf as [Hf _].
Qed.

(** The replies of the protocol level in terms of addReplyString. *)
Lemma addReply_string c obj : SetType.robj_ok obj -> addReply c obj = addReplyString c (decoded obj).
Proof.
  intros Ho. unfold addReply, addReplyString. destruct (prepareClientToWrite c) as [[] c']; [|done].
  destruct obj as [v|s]; [|done]. cbn [SetType.robj_ok SetType.decoded negb] in Ho |- *.
  rewrite Util.ll2string_whole by (done || lia). cbv beta iota zeta.
  replace (take _ (_ ++ _)) with (Util.ll2string_chars v)
    by (unfold zlen; by rewrite Nat2Z.id, take_app_length).
  destruct (_ && _); [|done]. by destruct (addReplyToBuffer c' (Util.ll2string_chars v)).
Qed.

Lemma addReplyLongLongWithPrefix_string c ll prefix :
  in_int 64 ll -> (prefix = 42 \/ prefix = 36 -> 0 <= ll) ->
  addReplyLongLongWithPrefix c ll prefix =
    Some (addReplyString c ([prefix] ++ Util.ll2string_chars ll ++ crlf)).
Proof.
  intros Hll Hp. unfold addReplyLongLongWithPrefix.
  destruct (((prefix =? 42) || (prefix =? 36)) && (ll <? REDIS_SHARED_BULKHDR_LEN)) eqn:E.
  - apply andb_true_iff in E as [E1 E2]. unfold shared_hdr.
    destruct (Z.leb_spec 0 ll); [|apply orb_true_iff in E1; lia].
    rewrite E2. cbn [andb mbind option_bind]. done.
  - rewrite Util.ll2string_whole by (done || lia). unfold zlen. by rewrite Nat2Z.id, take_app_length.
Qed.

(** *** sendReplyToClient *)

Lemma send_piece (cur rest : list Z) sl n :
  0 <= sl -> 0 <= n -> sl + n <= zlen cur ->
  take (Z.to_nat n) (drop (Z.to_nat sl) cur) ++ drop (Z.to_nat (sl + n)) (cur ++ rest) =
  drop (Z.to_nat sl) (cur ++ rest).
Proof.
  intros Hs Hn Hl. unfold zlen in Hl. rewrite !drop_app_le by lia.
  replace (Z.to_nat (sl + n)) with (Z.to_nat sl + Z.to_nat n)%nat by lia.
  by rewrite <- drop_drop, app_assoc, take_drop.
Qed.

Definition send_frame c c' : Prop :=
  c' = set_sentlen (sentlen c') (set_reply (reply c') (set_buf (buf c') c)).

#[export] Instance send_frame_preorder : PreOrder send_frame.
Proof.
  split; [by intros []|]. intros c1 c2 c3 H12 H23. unfold send_frame in *. rewrite H23, H12. reflexivity.
Qed.

(** What an iteration or the whole loop keeps; [out] is what was written. *)
Record sends c c' (out : list Z) : Prop := {
  se_bytes : out ++ pending c' = pending c;
  se_ok : sent_ok c';
  se_full : Forall is_Some (reply c');
  se_room : zlen (buf c') <= zlen (buf c);
  se_nodes : zlen (reply c') <= zlen (reply c);
  se_frame : send_frame c c';
}.

Lemma sends_refl c : sent_ok c -> Forall is_Some (reply c) -> sends c c [].
Proof. intros. by split. Qed.

Lemma sends_trans c1 c2 c3 o1 o2 : sends c1 c2 o1 -> sends c2 c3 o2 -> sends c1 c3 (o1 ++ o2).
Proof.
  intros [B1 K1 F1 R1 N1 M1] [B2 K2 F2 R2 N2 M2]. split; [|done|done|lia|lia|by etransitivity].
  by rewrite <- app_assoc, B2.
Qed.

(** One write of [n] bytes from the static buffer. *)
Lemma sends_buf c n :
  sent_ok c -> Forall is_Some (reply c) -> buf c <> [] -> 0 < n <= zlen (buf c) - sentlen c ->
  let c1 := set_sentlen (sentlen c + n) c in
  sends c (if sentlen c1 =? zlen (buf c1) then set_sentlen 0 (set_buf [] c1) else c1)
    (take (Z.to_nat n) (drop (Z.to_nat (sentlen c)) (buf c))).
Proof.
  intros [Hs0 Hs] Hf Hb Hn c1.
  pose proof (send_piece (buf c) (concat (default [] <$> reply c)) (sentlen c) n Hs0 ltac:(lia) ltac:(lia)) as Hp.
  subst c1. cbn. destruct (Z.eqb_spec (sentlen c + n) (zlen (buf c))) as [E|E].
  - split; try done.
    + unfold pending, queued. cbn. rewrite <- Hp. f_equal. rewrite E. unfold zlen.
      by rewrite Nat2Z.id, drop_app_length.
    + unfold sent_ok. cbn. split; [lia|]. destruct (reply c); [done|by left].
    + cbn. rewrite zlen_nil. apply zlen_nonneg.
  - split; try done. unfold sent_ok. cbn. split; [lia|]. destruct (buf c); [done|lia].
Qed.

(** One write of [n] bytes from the first node of the list. *)
Lemma sends_node c o rest n :
  sent_ok c -> Forall is_Some (reply c) -> buf c = [] -> reply c = Some o :: rest ->
  0 < n <= zlen o - sentlen c ->
  let c1 := set_sentlen (sentlen c + n) c in
  sends c (if sentlen c1 =? zlen o then set_sentlen 0 (set_reply rest c1) else c1)
    (take (Z.to_nat n) (drop (Z.to_nat (sentlen c)) o)).
Proof.
  intros [Hs0 Hs] Hf Hb Hr Hn c1.
  pose proof (send_piece o (concat (default [] <$> rest)) (sentlen c) n Hs0 ltac:(lia) ltac:(lia)) as Hp.
  subst c1. cbn. destruct (Z.eqb_spec (sentlen c + n) (zlen o)) as [E|E].
  - split; try done.
    + unfold pending, queued. cbn. rewrite Hb, Hr. etransitivity; [|exact Hp]. f_equal. rewrite E.
      unfold zlen. by rewrite Nat2Z.id, drop_app_length.
    + unfold sent_ok. cbn. rewrite Hb. split; [lia|]. destruct rest; [done|by left].
    + cbn. rewrite Hr in Hf. by apply Forall_cons_iff in Hf as [_ Hf].
    + cbn. rewrite Hr, zlen_cons. lia.
  - split; try done.
    + unfold pending, queued. cbn. by rewrite Hb, Hr.
    + unfold sent_ok. cbn. rewrite Hb, Hr. split; [lia|]. right. simpl. lia.
Qed.

Lemma sends_empty_node c rest :
  sent_ok c -> Forall is_Some (reply c) -> buf c = [] -> reply c = Some [] :: rest ->
  sends c (set_reply rest c) [].
Proof.
  intros [Hs0 Hs] Hf Hb Hr. rewrite Hb, Hr in Hs. unfold zlen in Hs. simpl in Hs.
  assert (sentlen c = 0) as Hz by lia. split; cbn; rewrite ?Hr in *; try done.
  - unfold pending, queued. cbn. by rewrite Hb, Hr.
  - unfold sent_ok. cbn. rewrite Hb. split; [done|]. destruct rest; auto.
  - by apply Forall_cons_iff in Hf as [_ Hf].
  - rewrite zlen_cons. lia.
Qed.

Lemma sys_write_pos n ws :
  0 < sys_write n (default (-1) (head ws)) ->
  exists w ws', ws = w :: ws' /\ sys_write n (default (-1) (head ws)) = Z.min w n /\ 0 < w /\ 0 < n.
Proof.
  destruct ws as [|w ws]; simpl; unfold sys_write, id; [done|]. intros H. exists w, ws.
  destruct (Z.ltb_spec 0 w); [|lia]. split_and!; [done..|lia].
Qed.

Definition buf_work c : nat := match buf c with [] => 0 | _ :: _ => 1 end.

Lemma send_loop_sends fuel over ws c tot nw sent :
  sent_ok c -> Forall is_Some (reply c) -> has_flag REDIS_MASTER c = false ->
  (length ws + length (reply c) + buf_work c < fuel)%nat ->
  exists c' nw' out, send_loop fuel over ws c tot nw sent = Ok (c', nw', sent ++ out) /\
    sends c c' out.
Proof.
  revert ws c tot nw sent. induction fuel as [|fuel IH]; intros ws c tot nw sent Hs Hf Hm Hfu; [lia|].
  assert (Hstop : forall nw', exists c' nw'' out, Ok (c, nw', sent) = @Ok (redisClient * Z * list Z)%type (c', nw'', sent ++ out) /\ sends c c' out).
  { intros nw'. exists c, nw', []. rewrite app_nil_r. split; [done|by apply sends_refl]. }
  cbn [send_loop].
  assert (Hgo : forall c1 ws1 tot1 nw1 (out : list Z), sends c c1 out ->
    (length ws1 + length (reply c1) + buf_work c1 < fuel)%nat ->
    exists c' nw' out', send_loop fuel over ws1 c1 tot1 nw1 (sent ++ out) = Ok (c', nw', sent ++ out') /\
      sends c c' out').
  { intros c1 ws1 tot1 nw1 out Hc1 Hlt. destruct (IH ws1 c1 tot1 nw1 (sent ++ out)) as (c' & nw' & out' & E & Hc').
    - apply Hc1.
    - apply Hc1.
    - rewrite (se_frame _ _ _ Hc1). exact Hm.
    - done.
    - exists c', nw', (out ++ out'). rewrite app_assoc. split; [done|by eapply sends_trans]. }
  destruct (Z.ltb_spec 0 (zlen (buf c))) as [Hb|Hb]; cbn [negb andb].
  - rewrite Hm. cbn [negb andb]. destruct (Z.leb_spec (sys_write (zlen (buf c) - sentlen c) (default (-1) (head ws))) 0) as [|Hn]; [done|].
    assert (Hbne : buf c <> []) by (intros E; by rewrite E in Hb).
    destruct (sys_write_pos _ _ Hn) as (w & ws' & -> & -> & Hw). cbn [tail].
    pose proof (sends_buf c (Z.min w (zlen (buf c) - sentlen c)) Hs Hf Hbne ltac:(lia)) as Hc1.
    cbv zeta in Hc1. destruct (_ && over).
    + eexists _, _, _. split; [done|done].
    + apply Hgo; [done|]. unfold buf_work in *.
      destruct (Z.eqb _ _); cbn; simpl in Hfu; destruct (buf c); done || lia.
  - destruct (buf c) as [|b l] eqn:Eb; [|rewrite zlen_cons in Hb; pose proof (zlen_nonneg l); lia].
    destruct (reply c) as [|o rest] eqn:Er; [exact (Hstop nw)|]. cbn [zlen length].
    assert ((zlen (o :: rest) =? 0) = false) as -> by (rewrite zlen_cons; pose proof (zlen_nonneg rest); lia).
    pose proof (Forall_inv Hf) as [o' ->]. rewrite <- Er in Hf.
    destruct (Z.eqb_spec (zlen o') 0) as [Ho|Ho].
    { destruct o'; [|rewrite zlen_cons in Ho; pose proof (zlen_nonneg o'); lia].
      specialize (Hgo (set_reply rest c) ws tot nw []). rewrite app_nil_r in Hgo.
      apply Hgo; [by apply sends_empty_node|].
      unfold buf_work in *. cbn. rewrite Eb, Er in *. simpl in Hfu. lia. }
    rewrite Hm. cbn [negb andb].
    destruct (Z.leb_spec (sys_write (zlen o' - sentlen c) (default (-1) (head ws))) 0) as [|Hn]; [done|].
    destruct (sys_write_pos _ _ Hn) as (w & ws' & -> & -> & Hw). cbn [tail].
    pose proof (sends_node c o' rest (Z.min w (zlen o' - sentlen c)) Hs Hf Eb Er ltac:(lia)) as Hc1.
    cbv zeta in Hc1. destruct (_ && over).
    + eexists _, _, _. split; [done|done].
    + apply Hgo; [done|]. unfold buf_work in *. destruct (Z.eqb _ _); cbn; rewrite ?Eb, ?Er in *; simpl in Hfu |- *; lia.
Qed.

(** Only the output side and the position in it differ. *)
Definition io_only c c' : Prop :=
  c' = set_write_handler (write_handler c')
         (set_sentlen (sentlen c') (set_reply (reply c') (set_buf (buf c') c))).

Lemma pending_empty c : zlen (buf c) = 0 -> zlen (reply c) = 0 -> pending c = [].
Proof.
  unfold pending, queued. destruct (buf c); [|rewrite zlen_cons; pose proof (zlen_nonneg l); lia].
  destruct (reply c); [|rewrite zlen_cons; pose proof (zlen_nonneg l); lia]. intros _ _. apply drop_nil.
Qed.

(** A write event sends a prefix of the pending output and keeps the rest; a client is freed
    only on an error of the socket, or because it was to be closed once everything was sent. *)
Lemma send_reply_pending over eagain ws c :
  out_inv c -> Forall is_Some (reply c) -> has_flag REDIS_MASTER c = false ->
  exists r out, sendReplyToClient over eagain ws c = Ok (r, out) /\
    match r with
    | Some c' => out ++ pending c' = pending c /\ out_inv c' /\ Forall is_Some (reply c') /\ io_only c c'
    | None => out `prefix_of` pending c /\
              (eagain = true -> has_flag REDIS_CLOSE_AFTER_REPLY c = true /\ out = pending c)
    end.
Proof.
  intros [Hs Hr Hh] Hf Hm.
  destruct (send_loop_sends (send_fuel ws c) over ws c 0 0 [] Hs Hf Hm) as (c' & nw & out & E & Hc').
  { unfold send_fuel, buf_work. destruct (buf c); lia. }
  unfold sendReplyToClient. rewrite E. simpl. destruct Hc' as [Hb Hk Hf' Hr' Hn' Hfr].
  destruct ((nw =? -1) && negb eagain) eqn:Ee.
  { eexists _, _. split; [done|]. split; [by exists (pending c')|].
    intros ->. by rewrite andb_false_r in Ee. }
  destruct ((zlen (buf c') =? 0) && (zlen (reply c') =? 0)) eqn:Ez.
  - apply andb_true_iff in Ez as [Ez1%Z.eqb_eq Ez2%Z.eqb_eq].
    pose proof (pending_empty c' Ez1 Ez2) as Hp. rewrite Hp, app_nil_r in Hb. subst out.
    assert (has_flag REDIS_CLOSE_AFTER_REPLY c' = has_flag REDIS_CLOSE_AFTER_REPLY c) as Hfl
      by (by rewrite Hfr).
    unfold has_flag at 1. cbn [flags set_write_handler set_sentlen].
    fold (has_flag REDIS_CLOSE_AFTER_REPLY c'). rewrite Hfl.
    destruct (has_flag REDIS_CLOSE_AFTER_REPLY c); eexists _, _; (split; [done|]); [done|].
    destruct (buf c') as [|b l] eqn:Eb; [|rewrite zlen_cons in Ez1; pose proof (zlen_nonneg l); lia].
    destruct (reply c') as [|o l] eqn:Er; [|rewrite zlen_cons in Ez2; pose proof (zlen_nonneg l); lia].
    split_and!.
    + unfold pending, queued. cbn. rewrite Eb, Er. by rewrite app_nil_r.
    + split; unfold sent_ok, handler_ok; cbn; rewrite ?Eb, ?Er; [done|unfold zlen; simpl; lia|].
      by intros _ _ [].
    + cbn. by rewrite Er.
    + unfold io_only. by rewrite Hfr.
  - eexists _, _. split; [done|]. split_and!; [done| |done|unfold io_only; by rewrite Hfr].
    split; [done|lia|]. unfold handler_ok in *. rewrite Hfr. cbn. intros HL Hrs Hne. apply Hh; [done..|].
    destruct (buf c) eqn:Eb; [|by left]. destruct (reply c) eqn:Er; [|by right]. exfalso.
    unfold zlen in Hr', Hn', Ez. simpl in Hr', Hn'.
    apply andb_false_iff in Ez. lia.
Qed.

End Client.
