(* ===== verification/Proto.v ===== *)
(** * networking.c, hiredis.cc: the request protocol

    Model of the functions of [src/debug/redis/src/networking.c] that read the commands of a
    client (readQueryFromClient, processInputBuffer, processInlineBuffer,
    processMultibulkBuffer, resetClient), and of redisFormatCommandArgv of
    [src/src/hiredis/hiredis.cc], which writes them.  The query buffer is the contents of its
    sds string ([Sds.range_spec] is the effect of sdsrange on them, [Sds.sdsrange_holds]); its
    spare room is not kept.  The parser is incremental: [command_stream_roundtrip] shows that,
    however the bytes of a sequence of formatted commands are cut into reads, exactly these
    commands are executed, in order.  processCommand is reached through the interface
    [CommandProcessor], implemented in [Multi].  [Undefined] is an access out of bounds or a
    failing redisAssert. *)

From Stdlib Require Import ZArith Lia.
From stdpp Require Import prelude list strings numbers.
From S2P Require Import Prelude.
From S2P Require Import Util.
From S2P Require Import Sds.
From S2P Require Import Client.

Local Open Scope Z_scope.

(** What reading a query needs of redis.c: the execution of the command of the client, in the
    state [E] of the rest of the server; the flag is [processCommand(c) == REDIS_OK]. *)
Class CommandProcessor (E : Type) := {
  processCommand : E -> Client.redisClient -> outcome (E * Client.redisClient * bool)%type;
}.

Module Proto.
Import Client.

Implicit Types (c : redisClient).

Definition opt {A} (o : option A) : outcome A :=
  match o with Some a => Ok a | None => Undefined end.

Definition redisAssert (b : bool) : outcome unit := if b then Ok tt else Undefined.

(** [strchr(s, ch)]: the string ends at its first NUL, or at the NUL after the buffer. *)
Fixpoint strchr (s : list Z) (ch : Z) : option Z :=
  match s with
  | [] => None
  | x :: s =>
    if x =? ch then Some 0
    else if x =? 0 then None
    else n ← strchr s ch; Some (n + 1)
  end.

(** [strstr(s, CRLF)] *)
Fixpoint strstr_crlf (s : list Z) : option Z :=
  match s with
  | [] => None
  | x :: s' =>
    if (x =? 13) && bool_decide (head s' = Some 10) then Some 0
    else if x =? 0 then None
    else n ← strstr_crlf s'; Some (n + 1)
  end.

(** [c->querybuf = sdsrange(c->querybuf,pos,-1)] *)
Definition trim (pos : Z) c : redisClient := set_querybuf (Sds.range_spec (querybuf c) pos (-1)) c.

Definition setProtocolError c (pos : Z) : redisClient :=
  trim pos (or_flags REDIS_CLOSE_AFTER_REPLY c).

Definition freeClientArgv c : redisClient := set_cmd None (set_argv [] c).

Definition resetClient c : redisClient :=
  let c := freeClientArgv c in
  let c := set_reqtype 0 c in
  let c := set_multibulklen 0 c in
  let c := set_bulklen (-1) c in
  if negb (has_flag REDIS_MULTI c) then clear_flags REDIS_ASKING c else c.

(** ** Inline requests *)

Definition processInlineBuffer c : outcome (redisClient * bool)%type :=
  match strstr_crlf (querybuf c) with
  | None =>
    if REDIS_INLINE_MAX_SIZE <? zlen (querybuf c)
    then Ok (setProtocolError (addReplyError c (str "Protocol error: too big inline request")) 0, false)
    else Ok (c, false)
  | Some querylen =>
    line ← opt (load (querybuf c) 0 querylen);
    tokens ← opt (Sds.sdssplitlen line [32]);
    tokens ← opt tokens;
    let c := trim (querylen + 2) c in
    let c := set_argv_slots (zlen tokens) c in
    Ok (set_argv (filter (fun t => zlen t <> 0) tokens) c, true)
  end.

(** ** Multi bulk requests *)

(** How a part of the loop over the arguments ends. *)
Inductive flow :=
  | Next (c : redisClient) (pos : Z)
  | Break (c : redisClient)
  | Return (c : redisClient).     (* return REDIS_ERR *)

Definition too_big_mbulk := str "Protocol error: too big mbulk count string".
Definition invalid_mbulk := str "Protocol error: invalid multibulk length".
Definition too_big_bulk := str "Protocol error: too big bulk count string".
Definition invalid_bulk := str "Protocol error: invalid bulk length".
(** sdscatvprintf stops at a NUL. *)
Definition expected_dollar (ch : Z) :=
  str "Protocol error: expected '$', got '" ++ (if ch =? 0 then [] else [ch] ++ str "'").

(** "Read bulk length if unknown" *)
Definition readBulkLen c (pos : Z) : outcome flow :=
  match strchr (drop (Z.to_nat pos) (querybuf c)) 13 with
  | None =>
    if REDIS_INLINE_MAX_SIZE <? zlen (querybuf c)
    then Ok (Break (setProtocolError (addReplyError c too_big_bulk) 0))
    else Ok (Break c)
  | Some n =>
    let newline := pos + n in
    if swrap 32 (zlen (querybuf c)) - 2 <? newline then Ok (Break c)
    else
      ch ← opt (rd (querybuf c) pos);
      if negb (ch =? 36)
      then Ok (Return (setProtocolError (addReplyErrorFormat c (expected_dollar ch)) pos))
      else
        s ← opt (load (querybuf c) (pos + 1) (newline - (pos + 1)));
        match Util.string2ll s with
        | None => Ok (Return (setProtocolError (addReplyError c invalid_bulk) pos))
        | Some ll =>
          if (ll <? 0) || (512 * 1024 * 1024 <? ll)
          then Ok (Return (setProtocolError (addReplyError c invalid_bulk) pos))
          else
            let pos := newline + 2 in
            let '(c, pos) := if REDIS_MBULK_BIG_ARG <=? ll then (trim pos c, 0) else (c, pos) in
            Ok (Next (set_bulklen ll c) pos)
        end
  end.

(** "Read bulk argument" *)
Definition readBulkArg c (pos : Z) : outcome flow :=
  if uwrap 64 (zlen (querybuf c) - pos) <? uwrap 32 (bulklen c + 2) then Ok (Break c)
  else
    _ ← redisAssert (zlen (argv c) <? argv_slots c);
    '(c, pos) ←
      (if (pos =? 0) && (REDIS_MBULK_BIG_ARG <=? bulklen c) &&
          (swrap 32 (zlen (querybuf c)) =? bulklen c + 2)
       then
         arg ← opt (load (querybuf c) 0 (zlen (querybuf c) - 2));
         Ok (set_querybuf [] (set_argv (argv c ++ [arg]) c), 0)
       else
         arg ← opt (load (querybuf c) pos (bulklen c));
         Ok (set_argv (argv c ++ [arg]) c, pos + (bulklen c + 2)));
    Ok (Next (set_multibulklen (multibulklen c - 1) (set_bulklen (-1) c)) pos).

(** The loop; one iteration per argument left. *)
Fixpoint args_loop (fuel : nat) c (pos : Z) : outcome flow :=
  if multibulklen c =? 0 then Ok (Next c pos)
  else
    match fuel with
    | O => OutOfFuel
    | S fuel =>
      fl ← (if bulklen c =? -1 then readBulkLen c pos else Ok (Next c pos));
      match fl with
      | Return c => Ok (Return c)
      | Break c => Ok (Next c pos)
      | Next c pos =>
        fl ← readBulkArg c pos;
        match fl with
        | Next c pos => args_loop fuel c pos
        | Break c => Ok (Next c pos)
        | Return c => Ok (Return c)
        end
      end
    end.

(** "Multi bulk length cannot be read without a \r\n" *)
Definition readMultibulkLen c : outcome (flow + redisClient) :=
  _ ← redisAssert (zlen (argv c) =? 0);
  match strchr (querybuf c) 13 with
  | None =>
    if REDIS_INLINE_MAX_SIZE <? zlen (querybuf c)
    then Ok (inl (Return (setProtocolError (addReplyError c too_big_mbulk) 0)))
    else Ok (inl (Return c))
  | Some newline =>
    if swrap 32 (zlen (querybuf c)) - 2 <? newline then Ok (inl (Return c))
    else
      ch ← opt (rd (querybuf c) 0);
      _ ← redisAssert (ch =? 42);
      s ← opt (load (querybuf c) 1 (newline - 1));
      match Util.string2ll s with
      | None => Ok (inl (Return (setProtocolError (addReplyError c invalid_mbulk) 0)))
      | Some ll =>
        if 1024 * 1024 <? ll
        then Ok (inl (Return (setProtocolError (addReplyError c invalid_mbulk) 0)))
        else
          let pos := newline + 2 in
          if ll <=? 0 then Ok (inr (trim pos c))
          else Ok (inl (Next (set_argv_slots ll (set_multibulklen ll c)) pos))
      end
  end.

(** The flag is [== REDIS_OK]. *)
Definition processMultibulkBuffer c : outcome (redisClient * bool)%type :=
  start ← (if multibulklen c =? 0 then readMultibulkLen c else Ok (inl (Next c 0)));
  match start with
  | inr c => Ok (c, true)
  | inl (Return c) | inl (Break c) => Ok (c, false)
  | inl (Next c pos) =>
    _ ← redisAssert (0 <? multibulklen c);
    fl ← args_loop (Z.to_nat (multibulklen c)) c pos;
    match fl with
    | Next c pos =>
      let c := if pos =? 0 then c else trim pos c in
      Ok (c, multibulklen c =? 0)
    | Break c | Return c => Ok (c, false)
    end
  end.

Section Input.
Context {E : Type} `{CommandProcessor E}.

(** "Keep processing while there is something in the input buffer": an iteration that goes on
    consumes at least one byte. *)
Fixpoint input_loop (fuel : nat) (e : E) c : outcome (E * redisClient)%type :=
  if zlen (querybuf c) =? 0 then Ok (e, c)
  else
    match fuel with
    | O => OutOfFuel
    | S fuel =>
      if has_flag REDIS_BLOCKED c then Ok (e, c)
      else if has_flag REDIS_CLOSE_AFTER_REPLY c then Ok (e, c)
      else
        ch ← opt (rd (querybuf c) 0);
        let c := if reqtype c =? 0
                 then set_reqtype (if ch =? 42 then REDIS_REQ_MULTIBULK else REDIS_REQ_INLINE) c
                 else c in
        '(c, ok) ←
          (if reqtype c =? REDIS_REQ_INLINE then processInlineBuffer c
           else if reqtype c =? REDIS_REQ_MULTIBULK then processMultibulkBuffer c
           else Undefined);
        if negb ok then Ok (e, c)
        else if zlen (argv c) =? 0 then input_loop fuel e (resetClient c)
        else
          '(e, c, ok) ← processCommand e c;
          input_loop fuel e (if ok : bool then resetClient c else c)
    end.

Definition processInputBuffer (e : E) c : outcome (E * redisClient)%type :=
  input_loop (length (querybuf c)) e c.

(** What [read(2)] of [readlen] bytes returns. *)
Inductive read_result :=
  | ReadData (bytes : list Z)   (* at least one byte *)
  | ReadAgain                   (* -1, EAGAIN *)
  | ReadError                   (* -1, any other errno *)
  | ReadEOF.                    (* 0 *)

(** The number of bytes asked for. *)
Definition readlen c : Z :=
  if (reqtype c =? REDIS_REQ_MULTIBULK) && negb (multibulklen c =? 0) && negb (bulklen c =? -1)
     && (REDIS_MBULK_BIG_ARG <=? bulklen c)
  then
    let remaining := swrap 32 (uwrap 64 (uwrap 32 (bulklen c + 2) - zlen (querybuf c))) in
    if remaining <? REDIS_IOBUF_LEN then remaining else REDIS_IOBUF_LEN
  else REDIS_IOBUF_LEN.

(** The client is [None] when it is freed. [max_querybuf] is server.client_max_querybuf_len. *)
Definition readQueryFromClient (max_querybuf : Z) (r : read_result) (e : E) c
    : outcome (E * option redisClient)%type :=
  let qblen := zlen (querybuf c) in
  let c := if querybuf_peak c <? qblen then set_querybuf_peak qblen c else c in
  match r with
  | ReadError | ReadEOF => Ok (e, None)
  | ReadAgain => Ok (e, Some c)
  | ReadData bytes =>
    let c := set_querybuf (querybuf c ++ bytes) c in
    if max_querybuf <? zlen (querybuf c) then Ok (e, None)
    else '(e, c) ← processInputBuffer e c; Ok (e, Some c)
  end.

(** Successive reads. *)
Fixpoint read_all (max_querybuf : Z) (rs : list read_result) (e : E) c
    : outcome (E * option redisClient)%type :=
  match rs with
  | [] => Ok (e, Some c)
  | r :: rs =>
    '(e, oc) ← readQueryFromClient max_querybuf r e c;
    match oc with None => Ok (e, None) | Some c => read_all max_querybuf rs e c end
  end.

End Input.

(** ** hiredis.cc: formatting a command *)

(** The [do ... while] loop; an int has at most 10 digits. *)
Fixpoint intlen_loop (fuel : nat) (i len : Z) : Z :=
  match fuel with
  | O => len
  | S fuel =>
    let len := len + 1 in
    let i := i / 10 in
    if i =? 0 then len else intlen_loop fuel i len
  end.

(** [-i] overflows for INT_MIN. *)
Definition intlen (i : Z) : option Z :=
  if i <? 0 then i' ← sadd 32 0 (- i); Some (intlen_loop 20 i' 1) else Some (intlen_loop 20 i 0).

Definition bulkLen (len : Z) : option Z :=
  n ← intlen (swrap 32 len); Some (1 + n + 2 + len + 2).

Fixpoint totlen_loop (argv : list (list Z)) (totlen : Z) : option Z :=
  match argv with
  | [] => Some totlen
  | a :: argv => b ← bulkLen (zlen a); totlen_loop argv (swrap 32 (totlen + b))
  end.

(** [sprintf("$%zu", len)] and the argument. *)
Definition format_arg (a : list Z) : list Z :=
  str "$" ++ Util.ll2string_chars (zlen a) ++ crlf ++ a ++ crlf.

Definition format_command (argv : list (list Z)) : list Z :=
  str "*" ++ Util.ll2string_chars (zlen argv) ++ crlf ++ concat (format_arg <$> argv).

(** The text is written to a block of [totlen + 1] bytes; [None] when it does not fit in it or
    when the assertion fails. *)
Definition redisFormatCommandArgv (argv : list (list Z)) : option (Z * list Z) :=
  n ← intlen (zlen argv);
  totlen ← totlen_loop argv (1 + n + 2);
  let cmd := format_command argv in
  if zlen cmd =? totlen then Some (totlen, cmd) else None.

(** ** Lemmas on buffers *)

Definition plain (h : list Z) : Prop := Forall (fun x => x <> 13 /\ x <> 0) h.

Lemma strchr_plain h : plain h -> strchr h 13 = None.
Proof.
  induction 1 as [|x h [H1 H2] _ IH]; [done|]. simpl.
  rewrite (proj2 (Z.eqb_neq x 13)), (proj2 (Z.eqb_neq x 0)) by done. by rewrite IH.
Qed.

Lemma strchr_found h t : plain h -> strchr (h ++ 13 :: t) 13 = Some (zlen h).
Proof.
  induction 1 as [|x h [H1 H2] _ IH]; [done|]. cbn [app strchr].
  rewrite (proj2 (Z.eqb_neq x 13)), (proj2 (Z.eqb_neq x 0)) by done. rewrite IH. simpl.
  f_equal. rewrite zlen_cons. lia.
Qed.

(** What has arrived of a line [h CR LF], followed by [x]. *)
Lemma line_cases h x b w :
  plain h -> b ++ w = h ++ crlf ++ x ->
  (strchr b 13 = None /\ zlen b <= zlen h) \/
  (strchr b 13 = Some (zlen h) /\ zlen b = zlen h + 1) \/
  (exists b', b = h ++ crlf ++ b' /\ b' ++ w = x /\ strchr b 13 = Some (zlen h)).
Proof.
  intros Hh H. destruct (Z_le_gt_dec (zlen b) (zlen h)) as [Hl|Hl].
  { left. split; [|done]. destruct (app_split h (crlf ++ x) b w (eq_sym H) Hl) as (h' & -> & _).
    apply Forall_app in Hh as [Hb _]. by apply strchr_plain. }
  right. destruct (app_split b w h (crlf ++ x) H ltac:(lia)) as (b1 & -> & H1).
  rewrite zlen_app in *. destruct b1 as [|x1 b1]; [unfold zlen in Hl; simpl in Hl; lia|].
  injection H1 as -> H1. rewrite zlen_cons. destruct b1 as [|x2 b1]; [left|right].
  - split; [by apply strchr_found|]. unfold zlen. simpl. lia.
  - injection H1 as -> H1. exists b1. split_and!; [done|done|by apply strchr_found].
Qed.

Lemma plain_digits z : in_int 64 z -> plain (Util.ll2string_chars z).
Proof.
  intros Hz. destruct (Util.ll2string_chars_shape z Hz) as (ds & -> & Hd & _).
  assert (plain ds) by (revert Hd; apply List.Forall_impl; unfold Util.cZERO, Util.cNINE; lia).
  destruct (z <? 0); [constructor; [done|done]|done].
Qed.
(** ** The commands of a stream *)

(** What a client may send: redis.conf's limits on the number and the size of arguments. *)
Definition arg_ok (a : list Z) : Prop := zlen a <= 512 * 1024 * 1024.
Definition command_ok (argv : list (list Z)) : Prop :=
  argv <> [] /\ zlen argv <= 1024 * 1024 /\ Forall arg_ok argv.

(** How far the current command has been read: its arguments so far, whether the length of the
    next one has been read, and the arguments left. *)
Inductive stage :=
  | Idle
  | Reading (done : list (list Z)) (bulk : bool) (rest : list (list Z)).

(** The bytes still to be parsed. *)
Definition stream (st : stage) (cs : list (list (list Z))) : list Z :=
  match st with
  | Idle => []
  | Reading _ true (a :: rest) => a ++ crlf ++ concat (format_arg <$> rest)
  | Reading _ _ rest => concat (format_arg <$> rest)
  end ++ concat (format_command <$> cs).

#[local] Arguments stream : simpl never.

Definition unserved (st : stage) (cs : list (list (list Z))) : list (list (list Z)) :=
  match st with Idle => cs | Reading done _ rest => (done ++ rest) :: cs end.

(** The fields of the client in a stage; no argument is left after the last one. *)
Definition reading c (done : list (list Z)) (bulk : bool) (rest : list (list Z)) : Prop :=
  reqtype c = REDIS_REQ_MULTIBULK /\ multibulklen c = zlen rest /\ argv c = done /\
  argv_slots c = zlen done + zlen rest /\ Forall arg_ok rest /\
  bulklen c = (if bulk then match rest with a :: _ => zlen a | [] => 0 end else -1).

Definition staged c (st : stage) : Prop :=
  match st with
  | Idle => multibulklen c = 0 /\ bulklen c = -1 /\ argv c = [] /\
            (reqtype c = 0 \/ reqtype c = REDIS_REQ_MULTIBULK)
  | Reading done bulk rest => rest <> [] /\ reading c done bulk rest
  end.

(** How much can be left in the query buffer when the parser waits for more. *)
Definition waiting (n : Z) (st : stage) (cs : list (list (list Z))) : Prop :=
  match st, cs with
  | Reading _ true (a :: _), _ => n < zlen a + 2
  | Reading _ _ (a :: _), _ => n < zlen (Util.ll2string_chars (zlen a)) + 3
  | Idle, argv :: _ => n < zlen (Util.ll2string_chars (zlen argv)) + 3
  | _, _ => n <= 0
  end.

Lemma waiting_nil st cs : waiting 0 st cs.
Proof. destruct st as [|d [] [|a r]], cs; simpl; unfold zlen; lia. Qed.

(** What the size of the query buffer is before the parser runs: the reads are bounded. *)
Definition small c : Prop :=
  zlen (querybuf c) <= REDIS_INLINE_MAX_SIZE \/
  REDIS_MBULK_BIG_ARG <= bulklen c /\ zlen (querybuf c) <= bulklen c + 2.

(** Only the fields of the query differ. *)
Definition query_only c c' : Prop :=
  c' = set_querybuf (querybuf c') (set_querybuf_peak (querybuf_peak c') (set_argv (argv c')
        (set_argv_slots (argv_slots c') (set_reqtype (reqtype c') (set_multibulklen (multibulklen c')
          (set_bulklen (bulklen c') c)))))).

#[export] Instance query_only_preorder : PreOrder query_only.
Proof.
  split; [by intros []|]. intros c1 c2 c3 H12 H23. unfold query_only in *. rewrite H23, H12. reflexivity.
Qed.

Lemma stream_arg done a rest cs :
  stream (Reading done false (a :: rest)) cs =
  (36 :: Util.ll2string_chars (zlen a)) ++ crlf ++ stream (Reading done true (a :: rest)) cs.
Proof.
  unfold stream. cbn [fmap list_fmap concat]. unfold format_arg at 1. rewrite <- !app_assoc. reflexivity.
Qed.

Lemma query_only_querybuf q c : query_only c (set_querybuf q c).
Proof. by destruct c. Qed.

Lemma readBulkLen_stage c pos w done a rest cs :
  reading c done false (a :: rest) ->
  0 <= pos <= zlen (querybuf c) -> zlen (querybuf c) <= REDIS_INLINE_MAX_SIZE ->
  drop (Z.to_nat pos) (querybuf c) ++ w = stream (Reading done false (a :: rest)) cs ->
  (readBulkLen c pos = Ok (Break c) /\ waiting (zlen (querybuf c) - pos) (Reading done false (a :: rest)) cs) \/
  exists c' pos', readBulkLen c pos = Ok (Next c' pos') /\ query_only c c' /\
    reading c' done true (a :: rest) /\ 0 <= pos' <= zlen (querybuf c') /\
    zlen (querybuf c') <= zlen (querybuf c) /\
    drop (Z.to_nat pos') (querybuf c') ++ w = stream (Reading done true (a :: rest)) cs.
Proof.
  intros (Ht & Hm & Ha & Hs & Hok & Hb) Hpos Hlen Hst. rewrite stream_arg in Hst.
  pose proof (Forall_inv Hok) as Haok. unfold arg_ok in Haok. pose proof (zlen_nonneg a).
  assert (in_int 64 (zlen a)) as Hz by (unfold in_int; simpl; lia).
  pose proof (Util.ll2string_chars_len (zlen a) Hz) as Hdl.
  set (ds := Util.ll2string_chars (zlen a)) in *.
  assert (Hq : zlen (drop (Z.to_nat pos) (querybuf c)) = zlen (querybuf c) - pos)
    by (unfold zlen in *; rewrite length_drop; lia).
  assert (Hplain : plain (36 :: ds)) by (constructor; [done|by apply plain_digits]).
  unfold readBulkLen.
  unfold REDIS_INLINE_MAX_SIZE in *.
  destruct (line_cases _ _ _ _ Hplain Hst) as [[Hc Hl]|[[Hc Hl]|(b' & Hd & Hw & Hc)]]; rewrite Hc.
  - left. rewrite (proj2 (Z.ltb_ge (1024 * 64) _)) by lia. split; [done|]. simpl. fold ds. rewrite zlen_cons in Hl. lia.
  - left. rewrite swrap_id by (unfold in_int; simpl; lia). rewrite zlen_cons in *.
    rewrite (proj2 (Z.ltb_lt _ _)) by lia. split; [done|]. simpl. fold ds. lia.
  - right. rewrite swrap_id by (unfold in_int; simpl; lia).
    assert (Hl : zlen (querybuf c) - pos = zlen ds + 3 + zlen b').
    { rewrite <- Hq, Hd. rewrite !zlen_app, zlen_cons. unfold crlf. rewrite !zlen_cons, zlen_nil. lia. }
    pose proof (zlen_nonneg b'). rewrite zlen_cons.
    rewrite (proj2 (Z.ltb_ge _ _)) by lia.
    assert (exists front, querybuf c = front ++ 36 :: ds ++ crlf ++ b' /\ pos = zlen front)
      as (front & Hqb & Htk).
    { exists (take (Z.to_nat pos) (querybuf c)). split.
      - rewrite <- (take_drop (Z.to_nat pos) (querybuf c)) at 1. by rewrite Hd.
      - unfold zlen in *. rewrite length_take. lia. }
    assert (rd (querybuf c) pos = Some 36) as -> by (rewrite Hqb; by apply rd_app).
    cbn [opt mbind outcome_bind negb Z.eqb Pos.eqb].
    assert (load (querybuf c) (pos + 1) (pos + (1 + zlen ds) - (pos + 1)) = Some ds) as ->.
    { rewrite Hqb, (app_assoc front [36] (ds ++ crlf ++ b') : front ++ 36 :: _ = _). apply load_app; [|lia].
      rewrite zlen_app, zlen_cons, zlen_nil. lia. }
    cbn [opt mbind outcome_bind]. unfold ds. rewrite Util.string2ll_ll2string by done. fold ds.
    rewrite (proj2 (Z.ltb_ge (zlen a) 0)), (proj2 (Z.ltb_ge _ (zlen a))) by lia. cbn [orb].
    set (pos1 := pos + (1 + zlen ds) + 2).
    assert (Hb' : drop (Z.to_nat pos1) (querybuf c) = b').
    { rewrite Hqb. change (36 :: ds ++ crlf ++ b') with ((36 :: ds) ++ crlf ++ b').
      rewrite !app_assoc. apply drop_app_length'. unfold pos1. unfold zlen in *.
      rewrite !length_app. simpl. lia. }
    assert (Hp1 : 0 <= pos1 <= zlen (querybuf c)) by (unfold pos1; lia).
    destruct (Z.leb_spec REDIS_MBULK_BIG_ARG (zlen a)); eexists _, _; (split; [done|]).
    + unfold trim. rewrite Sds.range_drop by done. rewrite Hb'. split_and!; cbn; done || lia.
    + rewrite <- Hb' in Hw. split_and!; cbn; done || lia.
Qed.


(** How long the buffer is while the arguments are read. *)
Definition fits c (pos : Z) : Prop :=
  zlen (querybuf c) <= REDIS_INLINE_MAX_SIZE \/
  pos = 0 /\ REDIS_MBULK_BIG_ARG <= bulklen c /\ zlen (querybuf c) <= bulklen c + 2.

Lemma readBulkArg_stage c pos w done a rest cs :
  reading c done true (a :: rest) -> 0 <= pos <= zlen (querybuf c) -> fits c pos ->
  drop (Z.to_nat pos) (querybuf c) ++ w = stream (Reading done true (a :: rest)) cs ->
  (readBulkArg c pos = Ok (Break c) /\ waiting (zlen (querybuf c) - pos) (Reading done true (a :: rest)) cs) \/
  exists c' pos', readBulkArg c pos = Ok (Next c' pos') /\ query_only c c' /\
    reading c' (done ++ [a]) false rest /\
    0 <= pos' <= zlen (querybuf c') /\
    zlen (querybuf c') <= REDIS_INLINE_MAX_SIZE /\
    drop (Z.to_nat pos') (querybuf c') ++ w = stream (Reading (done ++ [a]) false rest) cs.
Proof.
  intros (Ht & Hm & Ha & Hs & Hok & Hb) Hpos Hfit Hst. cbn in Hb.
  apply Forall_cons_iff in Hok as [Haok Hok]. unfold arg_ok in Haok. pose proof (zlen_nonneg a).
  rewrite zlen_cons in *. pose proof (zlen_nonneg rest). pose proof (zlen_nonneg done).
  assert (Hlen : zlen (querybuf c) < 2147483648).
  { unfold fits, REDIS_INLINE_MAX_SIZE in Hfit. rewrite Hb in Hfit. lia. }
  assert (Hq : zlen (drop (Z.to_nat pos) (querybuf c)) = zlen (querybuf c) - pos)
    by (unfold zlen in *; rewrite length_drop; lia).
  unfold readBulkArg. rewrite Hb. rewrite !uwrap_id by (unfold in_uint; lia).
  destruct (Z.ltb_spec (zlen (querybuf c) - pos) (zlen a + 2)) as [Hlt|Hge]; [by left|right].
  unfold redisAssert. rewrite Ha, Hs. rewrite (proj2 (Z.ltb_lt _ _)) by lia. cbn [mbind outcome_bind].
  destruct (app_split (drop (Z.to_nat pos) (querybuf c)) w (a ++ crlf)
    (stream (Reading (done ++ [a]) false rest) cs)) as (b' & Hd & Hw).
  { rewrite Hst. unfold stream. rewrite <- !app_assoc. reflexivity. }
  { rewrite Hq, zlen_app. unfold crlf. unfold zlen at 2. simpl. lia. }
  assert (Hl : zlen (querybuf c) - pos = zlen a + 2 + zlen b').
  { rewrite <- Hq, Hd, !zlen_app. unfold zlen at 2. simpl. lia. }
  pose proof (zlen_nonneg b'). rewrite swrap_id by (unfold in_int; simpl; lia).
  assert (exists front, querybuf c = front ++ a ++ crlf ++ b' /\ pos = zlen front)
    as (front & Hqb & Htk).
  { exists (take (Z.to_nat pos) (querybuf c)). split.
    - etransitivity; [symmetry; apply (take_drop (Z.to_nat pos))|]. by rewrite Hd, <- app_assoc.
    - unfold zlen in *. rewrite length_take. lia. }
  assert (Hrd : forall c', query_only c c' -> argv c' = done ++ [a] -> argv_slots c' = argv_slots c ->
    reqtype c' = reqtype c ->
    reading (set_multibulklen (multibulklen c - 1) (set_bulklen (-1) c')) (done ++ [a]) false rest).
  { intros c' _ Ha' Hs' Ht'. unfold reading. cbn. rewrite Ha', Hs', Ht', zlen_app, zlen_cons, zlen_nil.
    split_and!; done || lia. }
  destruct (_ && _ && _) eqn:Eopt.
  - apply andb_true_iff in Eopt as [[E1%Z.eqb_eq E2]%andb_true_iff E3%Z.eqb_eq].
    assert (b' = []) as -> by (apply length_zero_iff_nil; unfold zlen in *; lia).
    assert (front = []) as -> by (apply length_zero_iff_nil; unfold zlen in *; lia).
    assert (load (querybuf c) 0 (zlen (querybuf c) - 2) = Some a) as ->.
    { rewrite E3, Hqb. apply (load_app [] a (crlf ++ []) 0); [done|lia]. }
    cbn [opt mbind outcome_bind]. eexists _, _. split; [done|]. cbn [multibulklen set_querybuf set_argv].
    split_and!; cbn; try done || lia.
    + apply Hrd; done.
  - assert (load (querybuf c) pos (zlen a) = Some a) as -> by (rewrite Hqb; by apply load_app).
    cbn [opt mbind outcome_bind]. eexists _, _. split; [done|]. cbn [multibulklen set_argv].
    split_and!; cbn; try done || lia.
    + apply Hrd; done.
    + destruct Hfit as [|(-> & E2 & E3)]; [done|]. rewrite Hb in *.
      rewrite (proj2 (Z.leb_le _ _)) in Eopt by lia. cbn in Eopt. apply Z.eqb_neq in Eopt. lia.
    + rewrite <- Hw. f_equal. rewrite Hqb, !app_assoc. apply drop_app_length'.
      rewrite !length_app. unfold zlen in *. simpl. lia.
Qed.


Lemma args_loop_stage w cs fuel c pos done bulk rest :
  reading c done bulk rest -> (bulk = true -> rest <> []) ->
  0 <= pos <= zlen (querybuf c) -> fits c pos ->
  drop (Z.to_nat pos) (querybuf c) ++ w = stream (Reading done bulk rest) cs ->
  (length rest <= fuel)%nat ->
  exists c' pos' done' bulk' rest', args_loop fuel c pos = Ok (Next c' pos') /\ query_only c c' /\
    reading c' done' bulk' rest' /\ done' ++ rest' = done ++ rest /\
    0 <= pos' <= zlen (querybuf c') /\ fits c' pos' /\
    drop (Z.to_nat pos') (querybuf c') ++ w = stream (Reading done' bulk' rest') cs /\
    (rest' = [] /\ bulk' = false \/
     rest' <> [] /\ waiting (zlen (querybuf c') - pos') (Reading done' bulk' rest') cs).
Proof.
  revert c pos done bulk rest. induction fuel as [|fuel IH]; intros c pos done bulk rest Hr Hne Hpos Hfit Hst Hfu;
    destruct rest as [|a rest]; [|simpl in Hfu; lia| |]; cbn [args_loop];
    pose proof Hr as (Ht & Hm & Ha & Hs & Hok & Hb).
  1, 2: destruct bulk; [by destruct (Hne eq_refl)|]; rewrite Hm; cbn [Z.eqb zlen length Z.of_nat];
    eexists _, _, _, _, _; split_and!; [done|done|done|done|lia|lia|done|done|by left].
  rewrite zlen_cons in Hm. pose proof (zlen_nonneg rest).
  rewrite (proj2 (Z.eqb_neq (multibulklen c) 0)) by lia.
  assert (Harg : forall c1 pos1, query_only c c1 -> reading c1 done true (a :: rest) ->
    0 <= pos1 <= zlen (querybuf c1) -> fits c1 pos1 ->
    drop (Z.to_nat pos1) (querybuf c1) ++ w = stream (Reading done true (a :: rest)) cs ->
    exists c' pos' done' bulk' rest',
      (fl ← readBulkArg c1 pos1;
       match fl with
       | Next c2 pos2 => args_loop fuel c2 pos2
       | Break c2 => Ok (Next c2 pos1)
       | Return c2 => Ok (Return c2)
       end) = Ok (Next c' pos') /\ query_only c c' /\
      reading c' done' bulk' rest' /\ done' ++ rest' = done ++ a :: rest /\
      0 <= pos' <= zlen (querybuf c') /\ fits c' pos' /\
      drop (Z.to_nat pos') (querybuf c') ++ w = stream (Reading done' bulk' rest') cs /\
      (rest' = [] /\ bulk' = false \/
       rest' <> [] /\ waiting (zlen (querybuf c') - pos') (Reading done' bulk' rest') cs)).
  { intros c1 pos1 Hq1 Hr1 Hp1 Hf1 Hs1.
    destruct (readBulkArg_stage c1 pos1 w done a rest cs Hr1 Hp1 Hf1 Hs1)
      as [[E Hw]|(c2 & pos2 & E & Hq2 & Hr2 & Hp2 & Hl2 & Hs2)]; rewrite E; cbn [mbind outcome_bind].
    - exists c1, pos1, done, true, (a :: rest). split_and!; try done || lia. by right.
    - destruct (IH c2 pos2 (done ++ [a]) false rest Hr2) as (c' & pos' & d' & b' & r' & E' & Hq' & Hr' & Hd' & Hrest);
        [done|done|by left|done|simpl in Hfu; lia|].
      exists c', pos', d', b', r'. split_and!; [done|by etransitivity; [|etransitivity]|done| |apply Hrest..].
      by rewrite Hd', <- app_assoc. }
  destruct bulk; rewrite Hb.
  - pose proof (zlen_nonneg a). rewrite (proj2 (Z.eqb_neq (zlen a) (-1))) by lia. by apply Harg.
  - cbn [Z.eqb Pos.eqb].
    assert (zlen (querybuf c) <= REDIS_INLINE_MAX_SIZE) as Hl
      by (destruct Hfit as [|(_ & Hbig & _)]; [done|rewrite Hb in Hbig; unfold REDIS_MBULK_BIG_ARG in Hbig; lia]).
    destruct (readBulkLen_stage c pos w done a rest cs Hr Hpos Hl Hst)
      as [[E Hw]|(c1 & pos1 & E & Hq1 & Hr1 & Hp1 & Hl1 & Hs1)]; rewrite E; cbn [mbind outcome_bind].
    + exists c, pos, done, false, (a :: rest). split_and!; try done || lia. by right.
    + apply Harg; try done. left. lia.
Qed.


Lemma stream_command argv cs :
  stream Idle (argv :: cs) =
  (42 :: Util.ll2string_chars (zlen argv)) ++ crlf ++ stream (Reading [] false argv) cs.
Proof.
  unfold stream. cbn [fmap list_fmap concat app]. unfold format_command at 1. rewrite <- !app_assoc.
  by destruct argv.
Qed.

Lemma stream_done done cs : stream (Reading done false []) cs = stream Idle cs.
Proof. reflexivity. Qed.

Lemma readMultibulkLen_stage c w argv cs :
  staged c Idle -> reqtype c = REDIS_REQ_MULTIBULK -> zlen (querybuf c) <= REDIS_INLINE_MAX_SIZE ->
  command_ok argv -> querybuf c <> [] -> querybuf c ++ w = stream Idle (argv :: cs) ->
  (readMultibulkLen c = Ok (inl (Return c)) /\ waiting (zlen (querybuf c)) Idle (argv :: cs)) \/
  exists c' pos, readMultibulkLen c = Ok (inl (Next c' pos)) /\ query_only c c' /\
    querybuf c' = querybuf c /\ reading c' [] false argv /\ 0 <= pos <= zlen (querybuf c) /\
    drop (Z.to_nat pos) (querybuf c) ++ w = stream (Reading [] false argv) cs.
Proof.
  intros (Hm & Hb & Ha & _) Ht Hlen (Hne & Hn & Hok) Hq Hst. rewrite stream_command in Hst.
  assert (in_int 64 (zlen argv)) as Hz by (unfold in_int; pose proof (zlen_nonneg argv); simpl; lia).
  pose proof (Util.ll2string_chars_len (zlen argv) Hz) as Hdl.
  set (ds := Util.ll2string_chars (zlen argv)) in *.
  assert (Hplain : plain (42 :: ds)) by (constructor; [done|by apply plain_digits]).
  unfold readMultibulkLen, REDIS_INLINE_MAX_SIZE in *. rewrite Ha. cbn [redisAssert zlen length Z.of_nat Z.eqb mbind outcome_bind].
  destruct (line_cases _ _ _ _ Hplain Hst) as [[Hc Hl]|[[Hc Hl]|(b' & Hd & Hw & Hc)]]; rewrite Hc;
    rewrite zlen_cons in *.
  - left. rewrite (proj2 (Z.ltb_ge (1024 * 64) _)) by lia. split; [done|]. simpl. fold ds. lia.
  - left. rewrite swrap_id by (unfold in_int; simpl; lia).
    rewrite (proj2 (Z.ltb_lt _ _)) by lia. split; [done|]. simpl. fold ds. lia.
  - right. rewrite swrap_id by (unfold in_int; pose proof (zlen_nonneg (querybuf c)); simpl; lia).
    assert (Hl : zlen (querybuf c) = 1 + zlen ds + 2 + zlen b').
    { rewrite Hd, !zlen_app, zlen_cons. unfold crlf. rewrite !zlen_cons, zlen_nil. lia. }
    pose proof (zlen_nonneg b'). rewrite (proj2 (Z.ltb_ge _ _)) by lia.
    assert (rd (querybuf c) 0 = Some 42) as -> by (rewrite Hd; by apply (rd_app [])).
    cbn [opt mbind outcome_bind Z.eqb Pos.eqb redisAssert].
    assert (load (querybuf c) 1 (1 + zlen ds - 1) = Some ds) as ->
      by (rewrite Hd; apply (load_app [42] ds (crlf ++ b')); [done|lia]).
    cbn [opt mbind outcome_bind]. unfold ds. rewrite Util.string2ll_ll2string by done. fold ds.
    rewrite (proj2 (Z.ltb_ge _ (zlen argv))) by lia.
    pose proof (zlen_pos _ Hne).
    rewrite (proj2 (Z.leb_gt _ _)) by lia.
    eexists _, _. split; [done|]. cbn. split_and!; try done || lia.
    rewrite <- Hw. f_equal. rewrite Hd, app_assoc. apply drop_app_length'.
    rewrite !length_app. unfold zlen. simpl. lia.
Qed.


Lemma stream_shorter st cs a cs' :
  unserved st cs = a :: cs' -> (forall d b r, st = Reading d b r -> r <> []) ->
  (length (stream Idle cs') < length (stream st cs))%nat.
Proof.
  intros Hu Hne. destruct st as [|d b r]; simpl in Hu.
  - subst cs. rewrite stream_command. unfold stream. simpl. rewrite !length_app. simpl.
    rewrite !length_app. lia.
  - injection Hu as _ <-. specialize (Hne d b r eq_refl). destruct r as [|x r]; [done|].
    destruct b; [|rewrite stream_arg]; unfold stream; simpl; repeat (rewrite ?length_app; simpl); lia.
Qed.

Lemma trim_if pos c :
  0 <= pos <= zlen (querybuf c) ->
  (if pos =? 0 then c else trim pos c) = set_querybuf (drop (Z.to_nat pos) (querybuf c)) c.
Proof.
  intros Hp. destruct (Z.eqb_spec pos 0) as [->|Hne]; [by destruct c|].
  unfold trim. by rewrite Sds.range_drop.
Qed.

(** What processMultibulkBuffer leaves behind. *)
Definition parsed c' w (cmds : list (list (list Z))) (ok : bool) : Prop :=
  if ok then
    exists cs', cmds = argv c' :: cs' /\ argv c' <> [] /\ Forall command_ok cs' /\
      zlen (querybuf c') <= REDIS_INLINE_MAX_SIZE /\ querybuf c' ++ w = stream Idle cs'
  else
    exists st' cs', staged c' st' /\ Forall command_ok cs' /\ unserved st' cs' = cmds /\
      querybuf c' ++ w = stream st' cs' /\ waiting (zlen (querybuf c')) st' cs'.

Lemma processArgs_stage c pos w done bulk rest cs :
  reading c done bulk rest -> rest <> [] -> 0 <= pos <= zlen (querybuf c) -> fits c pos ->
  drop (Z.to_nat pos) (querybuf c) ++ w = stream (Reading done bulk rest) cs ->
  Forall command_ok cs ->
  exists c' ok,
    (_ ← redisAssert (0 <? multibulklen c);
     fl ← args_loop (Z.to_nat (multibulklen c)) c pos;
     match fl with
     | Next c pos =>
       let c := if pos =? 0 then c else trim pos c in
       Ok (c, multibulklen c =? 0)
     | Break c | Return c => Ok (c, false)
     end) = Ok (c', ok) /\ query_only c c' /\ parsed c' w ((done ++ rest) :: cs) ok.
Proof.
  intros Hr Hne Hpos Hfit Hst Hcs. pose proof (zlen_pos _ Hne). pose proof Hr as (_ & Hm & _).
  unfold redisAssert. rewrite (proj2 (Z.ltb_lt _ _)) by lia. cbn [mbind outcome_bind].
  destruct (args_loop_stage w cs (Z.to_nat (multibulklen c)) c pos done bulk rest)
    as (c1 & pos1 & d' & b' & r' & E & Hq1 & Hr1 & Hd & Hp1 & Hf1 & Hs1 & Hend); try done.
  { rewrite Hm. unfold zlen. lia. }
  rewrite E. cbn [mbind outcome_bind]. rewrite trim_if by done.
  set (c2 := set_querybuf _ c1). exists c2, (multibulklen c1 =? 0). split; [done|].
  split; [etransitivity; [exact Hq1|]; by destruct c1|].
  pose proof Hr1 as (_ & Hm1 & Ha1 & _ & _ & Hb1). rewrite Hm1.
  destruct Hend as [[-> ->]|[Hne' Hw]].
  - exists cs. rewrite app_nil_r in Hd. subst c2. cbn. rewrite <- Hd, Ha1.
    split_and!; [done| |done| |done].
    + rewrite Hd. by destruct done.
    + destruct Hf1 as [Hf1|(_ & Hbig & _)]; [|rewrite Hb1 in Hbig; by unfold REDIS_MBULK_BIG_ARG in Hbig].
      unfold zlen in *. rewrite length_drop. lia.
  - pose proof (zlen_pos _ Hne'). rewrite (proj2 (Z.eqb_neq (zlen r') 0)) by lia.
    exists (Reading d' b' r'), cs. subst c2. cbn. split_and!; try done.
    + by rewrite Hd.
    + unfold zlen in *. rewrite length_drop. by rewrite Nat2Z.inj_sub, Z2Nat.id by lia.
Qed.

Lemma processMultibulk_stage c w st cs :
  staged c st -> reqtype c = REDIS_REQ_MULTIBULK -> small c -> querybuf c <> [] ->
  Forall command_ok cs -> querybuf c ++ w = stream st cs ->
  exists c' ok, processMultibulkBuffer c = Ok (c', ok) /\ query_only c c' /\
    parsed c' w (unserved st cs) ok.
Proof.
  intros Hst Ht Hsm Hq Hcs Hs. unfold processMultibulkBuffer.
  destruct st as [|done bulk rest].
  - assert (zlen (querybuf c) <= REDIS_INLINE_MAX_SIZE) as Hl.
    { destruct Hsm as [|[Hbig _]]; [done|]. destruct Hst as (_ & Hb & _). rewrite Hb in Hbig.
      by unfold REDIS_MBULK_BIG_ARG in Hbig. }
    destruct cs as [|a cs]; [by destruct (querybuf c)|]. apply Forall_cons_iff in Hcs as [Ha Hcs].
    pose proof Hst as (Hm & _). rewrite Hm. cbn [Z.eqb].
    destruct (readMultibulkLen_stage c w a cs Hst Ht Hl Ha Hq Hs)
      as [[E Hw]|(c1 & pos & E & Hq1 & Hb1 & Hr1 & Hp1 & Hs1)]; rewrite E; cbn [mbind outcome_bind].
    + exists c, false. split; [done|]. split; [done|]. exists Idle, (a :: cs). by split_and!; [|constructor|..].
    + rewrite <- Hb1 in *.
      destruct (processArgs_stage c1 pos w [] false a cs) as (c' & ok & E' & Hq' & Hp'); try done.
      { apply Ha. }
      { by left. }
      exists c', ok. split; [exact E'|]. split; [by etransitivity|done].
  - destruct Hst as [Hne Hr]. pose proof Hr as (_ & Hm & _ & _ & _ & Hb). pose proof (zlen_pos _ Hne).
    rewrite (proj2 (Z.eqb_neq (multibulklen c) 0)) by lia. cbn [mbind outcome_bind].
    pose proof (zlen_nonneg (querybuf c)).
    apply (processArgs_stage c 0 w done bulk rest cs); try done || lia.
    destruct Hsm as [|[]]; [by left|right]. lia.
Qed.


(** ** Executing the commands of a stream *)

Section Serve.
Context {E : Type} `{!CommandProcessor E}.

(** The commands [cs] are executed in order; between them only the fields of the query of the
    client change. *)
Inductive runs : E -> redisClient -> list (list (list Z)) -> E -> redisClient -> Prop :=
  | runs_done e c c' : query_only c c' -> runs e c [] e c'
  | runs_command e c c1 cs e2 c2 e' c' :
      query_only c c1 -> processCommand e c1 = Ok (e2, c2, true) ->
      runs e2 (resetClient c2) cs e' c' -> runs e c (argv c1 :: cs) e' c'.

Lemma runs_query e c c1 cs e' c' : query_only c c1 -> runs e c1 cs e' c' -> runs e c cs e' c'.
Proof.
  intros Hq Hr. destruct Hr.
  - constructor. by etransitivity.
  - econstructor; [by etransitivity|done|done].
Qed.

Lemma runs_app e c cs1 e1 c1 cs2 e2 c2 :
  runs e c cs1 e1 c1 -> runs e1 c1 cs2 e2 c2 -> runs e c (cs1 ++ cs2) e2 c2.
Proof.
  intros Hr. revert cs2 e2 c2. induction Hr; intros; simpl; [by eapply runs_query|].
  econstructor; eauto.
Qed.

(** The client goes on reading. *)
Definition open c : Prop :=
  has_flag REDIS_BLOCKED c = false /\ has_flag REDIS_CLOSE_AFTER_REPLY c = false.

(** What the theorems need of the execution of the commands [cs]: it succeeds, neither closing
    nor blocking the client, and leaves the query buffer alone; [I] is the invariant of the
    server on which it relies. *)
Record serves (I : E -> redisClient -> Prop) (cs : list (list (list Z))) : Prop := {
  serve_ok e c : I e c -> open c -> argv c ∈ cs ->
    exists e' c', processCommand e c = Ok (e', c', true) /\ querybuf c' = querybuf c /\
      open c' /\ I e' (resetClient c');
  serve_query e c c' : I e c -> query_only c c' -> I e c';
}.

Lemma serves_sub I cs cs' : serves I cs -> (forall a, a ∈ cs' -> a ∈ cs) -> serves I cs'.
Proof. intros [H1 H2] Hsub. split; [|done]. intros e c HI Ho Ha. apply H1; auto. Qed.

Lemma open_query c c' : query_only c c' -> open c -> open c'.
Proof. intros -> Ho. exact Ho. Qed.

Lemma has_flag_clear f g c :
  Z.land f g = 0 -> has_flag f (clear_flags g c) = has_flag f c.
Proof.
  intros Hfg. unfold has_flag, clear_flags. cbn [flags set_flags]. do 2 f_equal.
  rewrite <- Z.land_assoc. rewrite (Z.land_comm (Z.lnot g)).
  replace (Z.land f (Z.lnot g)) with f; [done|]. apply Z.bits_inj'. intros n Hn.
  rewrite Z.land_spec, Z.lnot_spec by done.
  apply (f_equal (fun z => Z.testbit z n)) in Hfg. rewrite Z.land_spec, Z.bits_0 in Hfg.
  destruct (Z.testbit f n); [|done]. simpl in *. by rewrite Hfg.
Qed.

Lemma reset_flag f c : Z.land f REDIS_ASKING = 0 -> has_flag f (resetClient c) = has_flag f c.
Proof. intros Hf. unfold resetClient. destruct (negb _); [by rewrite has_flag_clear|done]. Qed.

Lemma open_reset c : open c -> open (resetClient c).
Proof. unfold open. by rewrite !reset_flag by done. Qed.

Lemma reset_idle c : staged (resetClient c) Idle /\ querybuf (resetClient c) = querybuf c.
Proof. unfold resetClient, staged. destruct (negb _); cbn; auto 10. Qed.

Lemma staged_type st cs c w x q :
  staged c st -> querybuf c = x :: q -> querybuf c ++ w = stream st cs ->
  let c1 := if reqtype c =? 0
            then set_reqtype (if x =? 42 then REDIS_REQ_MULTIBULK else REDIS_REQ_INLINE) c else c in
  query_only c c1 /\ querybuf c1 = querybuf c /\ bulklen c1 = bulklen c /\ staged c1 st /\
  reqtype c1 = REDIS_REQ_MULTIBULK.
Proof.
  intros Hst Hq Hs. destruct (Z.eqb_spec (reqtype c) 0) as [Ht|Ht].
  - destruct st as [|d b r]; [|destruct Hst as (_ & Ht' & _); rewrite Ht' in Ht; done].
    destruct cs as [|a cs]; [rewrite Hq in Hs; done|]. rewrite stream_command, Hq in Hs.
    injection Hs as -> _. cbn. destruct Hst as (H1 & H2 & H3 & _). by split_and!; auto.
  - destruct st as [|d b r]; split_and!; try done; [|by destruct Hst as (_ & Ht' & _)].
    destruct Hst as (_ & _ & _ & []); done.
Qed.

Lemma input_loop_runs I w fuel e c st cs :
  serves I (unserved st cs) -> I e c -> open c -> staged c st -> small c ->
  Forall command_ok cs -> querybuf c ++ w = stream st cs -> (length (querybuf c) <= fuel)%nat ->
  exists cs1 cs2 e' c', unserved st cs = cs1 ++ cs2 /\ input_loop fuel e c = Ok (e', c') /\
    runs e c cs1 e' c' /\ parsed c' w cs2 false /\ open c' /\ I e' c'.
Proof.
  revert e c st cs. induction fuel as [|fuel IH]; intros e c st cs Hsv HI Ho Hst Hsm Hcs Hs Hfu;
    destruct (querybuf c) as [|x q] eqn:Eq; [|simpl in Hfu; lia| |]; cbn [input_loop]; rewrite Eq.
  1, 2: cbn; exists [], (unserved st cs), e, c; split_and!; try done; [by constructor|];
    exists st, cs; split_and!; try done; [by rewrite Eq|];
    rewrite Eq; apply waiting_nil.
  rewrite <- Eq in *. assert (querybuf c <> []) as Hne by (by rewrite Eq).
  pose proof (zlen_pos _ Hne). rewrite (proj2 (Z.eqb_neq _ _)) by lia.
  pose proof Ho as [-> ->]. assert (rd (querybuf c) 0 = Some x) as -> by (by rewrite Eq).
  cbn [opt mbind outcome_bind].
  destruct (staged_type st cs c w x q Hst Eq Hs) as (Hq1 & Hb1 & Hl1 & Hst1 & Ht1).
  set (c1 := if reqtype c =? 0 then _ else c) in *. rewrite Ht1. cbn [Z.eqb Pos.eqb REDIS_REQ_MULTIBULK REDIS_REQ_INLINE].
  destruct (processMultibulk_stage c1 w st cs Hst1 Ht1) as (c2 & ok & E2 & Hq2 & Hp2); try done.
  { unfold small. by rewrite Hb1, Hl1. }
  { by rewrite Hb1. }
  { by rewrite Hb1. }
  rewrite E2. cbn [mbind outcome_bind].
  assert (query_only c c2) as Hq by (by etransitivity).
  destruct ok; cbn [negb].
  2: { exists [], (unserved st cs), e, c2. split_and!; try done; [by constructor|by eapply open_query| ].
       by eapply (serve_query _ _ Hsv). }
  destruct Hp2 as (cs' & Hu & Hne2 & Hcs' & Hl2 & Hs2).
  rewrite (proj2 (Z.eqb_neq (zlen (argv c2)) 0)) by (pose proof (zlen_pos _ Hne2); lia).
  destruct (serve_ok _ _ Hsv e c2) as (e3 & c3 & E3 & Hb3 & Ho3 & HI3).
  { by eapply (serve_query _ _ Hsv). }
  { by eapply open_query. }
  { rewrite Hu. by left. }
  rewrite E3. cbn [mbind outcome_bind]. destruct (reset_idle c3) as [Hst4 Hb4]. rewrite Hb3 in Hb4.
  destruct (IH e3 (resetClient c3) Idle cs') as (cs1 & cs2 & e' & c' & Hc & E' & Hr' & Hrest); try done.
  - eapply serves_sub; [done|]. intros a Ha. rewrite Hu. by right.
  - by apply open_reset.
  - left. by rewrite Hb4.
  - by rewrite Hb4.
  - pose proof (stream_shorter st cs (argv c2) cs' Hu) as Hsh.
    rewrite Hb4. apply (f_equal length) in Hs, Hs2. rewrite length_app in Hs, Hs2.
    assert (length (stream Idle cs') < length (stream st cs))%nat; [|lia].
    apply Hsh. intros d b r ->. apply Hst.
  - exists (argv c2 :: cs1), cs2, e', c'. simpl in Hc. split_and!; try done.
    + rewrite Hu. simpl. by rewrite Hc.
    + by eapply runs_command.
    + apply Hrest.
    + apply Hrest.
    + apply Hrest.
Qed.

(** ** Reading from a socket

    The bytes [wire] are on their way to the server.  A read returns at most the number of bytes
    asked for; how many is up to the network ([ns]), but at least one if any is left. *)

Fixpoint receive (max_querybuf : Z) (ns : list Z) (wire : list Z) (e : E) c
    : outcome (E * option redisClient * list Z)%type :=
  match ns, wire with
  | [], _ | _, [] => Ok (e, Some c, wire)
  | n :: ns, _ =>
    let k := Z.min (Z.max 1 n) (Z.min (readlen c) (zlen wire)) in
    let r := if k <=? 0 then ReadEOF else ReadData (take (Z.to_nat k) wire) in
    '(e, oc) ← readQueryFromClient max_querybuf r e c;
    let wire := drop (Z.to_nat k) wire in
    match oc with
    | None => Ok (e, None, wire)
    | Some c => receive max_querybuf ns wire e c
    end
  end.

Lemma chars_len {A} (l : list A) :
  zlen l <= 512 * 1024 * 1024 -> zlen (Util.ll2string_chars (zlen l)) <= 20.
Proof.
  intros Hl. apply Util.ll2string_chars_len. pose proof (zlen_nonneg l). unfold in_int. simpl. lia.
Qed.

(** When everything has arrived, nothing is left to be served. *)
Lemma parsed_all c cs : parsed c [] cs false -> cs = [] /\ querybuf c = [] /\ staged c Idle.
Proof.
  intros (st & cs' & Hst & Hcs & <- & Hs & Hw). rewrite app_nil_r in Hs. rewrite Hs in Hw.
  destruct st as [|d b r].
  - destruct cs' as [|a cs']; [by split_and!|]. simpl in Hw. rewrite stream_command in Hw.
    rewrite !zlen_app, zlen_cons in Hw. unfold crlf in Hw. rewrite !zlen_cons, zlen_nil in Hw.
    pose proof (zlen_nonneg (stream (Reading [] false a) cs')). lia.
  - destruct Hst as [Hne _]. destruct r as [|a r]; [done|]. destruct b; simpl in Hw.
    + unfold stream in Hw. rewrite !zlen_app in Hw. unfold crlf in Hw. rewrite !zlen_cons, zlen_nil in Hw.
      pose proof (zlen_nonneg (concat (format_arg <$> r))).
      pose proof (zlen_nonneg (concat (format_command <$> cs'))). lia.
    + rewrite stream_arg in Hw. rewrite !zlen_app, zlen_cons in Hw. unfold crlf in Hw. rewrite !zlen_cons, zlen_nil in Hw.
      pose proof (zlen_nonneg (stream (Reading d true (a :: r)) cs')). lia.
Qed.

(** The room asked for is never exceeded by what was waited for. *)
Lemma readlen_room c w cs :
  parsed c w cs false ->
  1 <= readlen c /\ zlen (querybuf c) + readlen c <= REDIS_MAX_QUERYBUF_LEN /\
  (zlen (querybuf c) + readlen c <= REDIS_INLINE_MAX_SIZE \/
   REDIS_MBULK_BIG_ARG <= bulklen c /\ zlen (querybuf c) + readlen c <= bulklen c + 2).
Proof.
  intros (st & cs' & Hst & Hcs & _ & _ & Hw). pose proof (zlen_nonneg (querybuf c)).
  assert (Hbig : REDIS_MBULK_BIG_ARG <= bulklen c -> zlen (querybuf c) < bulklen c + 2 /\
    bulklen c <= 512 * 1024 * 1024 /\ reqtype c = REDIS_REQ_MULTIBULK /\ multibulklen c <> 0).
  { intros Hb. unfold REDIS_MBULK_BIG_ARG in Hb. destruct st as [|d b r].
    - destruct Hst as (_ & Hb' & _). lia.
    - destruct Hst as [Hne (Ht & Hm & _ & _ & Hok & Hb')]. pose proof (zlen_pos _ Hne).
      destruct b; [|lia]. destruct r as [|a r]; [done|]. simpl in Hw.
      pose proof (Forall_inv Hok) as Ha. unfold arg_ok in Ha. split_and!; try done || lia. }
  assert (Hsmall : bulklen c < REDIS_MBULK_BIG_ARG -> zlen (querybuf c) <= REDIS_MBULK_BIG_ARG + 2).
  { unfold REDIS_MBULK_BIG_ARG. intros Hb. destruct st as [|d b r].
    - destruct cs' as [|a cs']; simpl in Hw; [lia|]. apply Forall_inv in Hcs as (_ & Hn & _).
      pose proof (chars_len a ltac:(lia)). lia.
    - destruct Hst as [Hne (_ & _ & _ & _ & Hok & Hb')]. destruct r as [|a r]; [done|].
      pose proof (Forall_inv Hok) as Ha. unfold arg_ok in Ha.
      destruct b; simpl in Hw; [lia|]. pose proof (chars_len a ltac:(lia)). lia. }
  unfold readlen, REDIS_MAX_QUERYBUF_LEN, REDIS_INLINE_MAX_SIZE, REDIS_IOBUF_LEN.
  destruct (Z.leb_spec REDIS_MBULK_BIG_ARG (bulklen c)) as [Hb|Hb].
  - destruct (Hbig Hb) as (H1 & H2 & -> & H4). unfold REDIS_MBULK_BIG_ARG in *.
    rewrite (proj2 (Z.eqb_neq _ _) H4), (proj2 (Z.eqb_neq (bulklen c) (-1))) by lia. cbn [negb andb Z.eqb Pos.eqb].
    rewrite (uwrap_id 32) by (unfold in_uint; simpl; lia).
    rewrite (uwrap_id 64) by (unfold in_uint; simpl; lia).
    rewrite swrap_id by (unfold in_int; simpl; lia). cbn.
    destruct (Z.ltb_spec (bulklen c + 2 - zlen (querybuf c)) (1024 * 16)); lia.
  - rewrite andb_false_r. specialize (Hsmall Hb). unfold REDIS_MBULK_BIG_ARG in *. lia.
Qed.

Lemma readQuery_runs I e c k wire cs :
  serves I cs -> I e c -> open c -> parsed c wire cs false -> 1 <= k <= readlen c -> k <= zlen wire ->
  exists cs1 cs2 e' c', cs = cs1 ++ cs2 /\
    readQueryFromClient REDIS_MAX_QUERYBUF_LEN (ReadData (take (Z.to_nat k) wire)) e c = Ok (e', Some c') /\
    runs e c cs1 e' c' /\ parsed c' (drop (Z.to_nat k) wire) cs2 false /\ open c' /\ I e' c'.
Proof.
  intros Hsv HI Ho Hp Hk Hkw. destruct (readlen_room c wire cs Hp) as (_ & Hmax & Hroom).
  destruct Hp as (st & cs' & Hst & Hcs & <- & Hs & Hw). unfold readQueryFromClient.
  set (c1 := if _ <? _ then _ else c).
  assert (query_only c c1 /\ querybuf c1 = querybuf c /\ bulklen c1 = bulklen c) as (Hq1 & Hb1 & Hl1)
    by (subst c1; destruct (_ <? _); by destruct c).
  assert (Hlk : zlen (take (Z.to_nat k) wire) = k) by (unfold zlen in *; rewrite length_take; lia).
  set (c2 := set_querybuf _ c1).
  assert (query_only c c2) as Hq2 by (etransitivity; [exact Hq1|]; by destruct c1).
  assert (zlen (querybuf c2) = zlen (querybuf c) + k) as Hz
    by (subst c2; cbn; by rewrite Hb1, zlen_app, Hlk).
  rewrite (proj2 (Z.ltb_ge _ _)) by lia. unfold processInputBuffer.
  destruct (input_loop_runs I (drop (Z.to_nat k) wire) (length (querybuf c2)) e c2 st cs')
    as (cs1 & cs2 & e' & c' & Hu & E' & Hr & Hp' & Ho' & HI'); try done.
  - by eapply (serve_query _ _ Hsv).
  - by eapply open_query.
  - subst c1. destruct (_ <? _); exact Hst.
  - unfold small. rewrite Hz. subst c2. cbn. rewrite Hl1. lia.
  - subst c2. cbn. by rewrite Hb1, <- app_assoc, take_drop.
  - rewrite E'. exists cs1, cs2, e', c'. split_and!; try done. by eapply runs_query.
Qed.

Lemma receive_runs I ns wire e c cs :
  serves I cs -> I e c -> open c -> parsed c wire cs false -> (length wire <= length ns)%nat ->
  exists e' c', receive REDIS_MAX_QUERYBUF_LEN ns wire e c = Ok (e', Some c', []) /\
    runs e c cs e' c' /\ parsed c' [] [] false /\ open c' /\ I e' c'.
Proof.
  revert wire e c cs. induction ns as [|n ns IH]; intros wire e c cs Hsv HI Ho Hp Hl.
  all: destruct wire as [|x wire]; [|try (simpl in Hl; lia)].
  1, 2: destruct (parsed_all c cs Hp) as (-> & _); exists e, c; by split_and!; [|constructor|..].
  cbn [receive]. destruct (readlen_room c _ cs Hp) as (Hrl & _).
  set (k := Z.min (Z.max 1 n) _). assert (1 <= k <= readlen c /\ k <= zlen (x :: wire)) as [Hk1 Hk2].
  { subst k. rewrite zlen_cons. pose proof (zlen_nonneg wire). lia. }
  rewrite (proj2 (Z.leb_gt k 0)) by lia.
  destruct (readQuery_runs I e c k (x :: wire) cs Hsv HI Ho Hp Hk1 Hk2)
    as (cs1 & cs2 & e1 & c1 & -> & E1 & Hr1 & Hp1 & Ho1 & HI1).
  rewrite E1. cbn [mbind outcome_bind].
  destruct (IH (drop (Z.to_nat k) (x :: wire)) e1 c1 cs2) as (e' & c' & E' & Hr' & Hrest); try done.
  - eapply serves_sub; [done|]. intros a Ha. apply elem_of_app. by right.
  - rewrite length_drop. simpl in Hl |- *. lia.
  - exists e', c'. split; [exact E'|]. split; [by eapply runs_app|done].
Qed.

(** ** Formatted commands *)

Lemma intlen_loop_digits fuel v acc :
  zlen (Util.ll2string_loop fuel v acc) = intlen_loop fuel v (zlen acc).
Proof.
  revert v acc. induction fuel as [|fuel IH]; intros v acc; [done|].
  cbn [Util.ll2string_loop intlen_loop]. cbv zeta.
  replace (zlen acc + 1) with (zlen ((Util.cZERO + v mod 10) :: acc)) by (rewrite zlen_cons; lia).
  destruct (v / 10 =? 0); [done|apply IH].
Qed.

Lemma intlen_digits i : 0 <= i < 2147483648 -> intlen i = Some (zlen (Util.ll2string_chars i)).
Proof.
  intros Hi. unfold intlen, Util.ll2string_chars. rewrite (proj2 (Z.ltb_ge i 0)) by lia.
  rewrite uwrap_id by (unfold in_uint; simpl; lia). by rewrite intlen_loop_digits.
Qed.

Lemma bulkLen_format a : zlen a < 2147483648 -> bulkLen (zlen a) = Some (zlen (format_arg a)).
Proof.
  intros Ha. pose proof (zlen_nonneg a). unfold bulkLen.
  rewrite swrap_id by (unfold in_int; simpl; lia). rewrite intlen_digits by lia. cbn [mbind option_bind]. f_equal.
  unfold format_arg, crlf. rewrite !zlen_app, !zlen_cons, !zlen_nil. change (zlen (str "$")) with 1. lia.
Qed.

Lemma totlen_format argvs t :
  0 <= t -> t + zlen (concat (format_arg <$> argvs)) < 2147483648 ->
  totlen_loop argvs t = Some (t + zlen (concat (format_arg <$> argvs))).
Proof.
  revert t. induction argvs as [|a argvs IH]; intros t Ht Hl; cbn [totlen_loop fmap list_fmap concat] in *.
  { rewrite zlen_nil. f_equal. lia. }
  rewrite zlen_app in *. pose proof (zlen_nonneg (concat (format_arg <$> argvs))).
  pose proof (zlen_nonneg (format_arg a)).
  assert (zlen a <= zlen (format_arg a)).
  { unfold format_arg. rewrite !zlen_app. pose proof (zlen_nonneg (str "$")). pose proof (zlen_nonneg crlf).
    pose proof (zlen_nonneg (Util.ll2string_chars (zlen a))). lia. }
  change (list_fmap _ _ format_arg argvs) with (format_arg <$> argvs) in *.
  rewrite bulkLen_format by lia. cbn [mbind option_bind].
  rewrite swrap_id by (unfold in_int; simpl; lia). rewrite IH by lia. f_equal. lia.
Qed.

Lemma format_args_long argvs : zlen argvs <= zlen (concat (format_arg <$> argvs)).
Proof.
  induction argvs as [|a argvs IH]; [done|]. rewrite zlen_cons. cbn [fmap list_fmap concat].
  rewrite zlen_app. unfold format_arg at 1. rewrite !zlen_app. pose proof (zlen_nonneg crlf).
  pose proof (zlen_nonneg a). pose proof (zlen_nonneg (Util.ll2string_chars (zlen a))).
  change (zlen (str "$")) with 1. change (list_fmap _ _ format_arg argvs) with (format_arg <$> argvs). lia.
Qed.

(** The block allocated is the one needed. *)
Lemma redisFormatCommandArgv_format argvs :
  zlen (format_command argvs) < 2147483648 ->
  redisFormatCommandArgv argvs = Some (zlen (format_command argvs), format_command argvs).
Proof.
  unfold redisFormatCommandArgv. intros Hl. assert (Hl' := Hl). unfold format_command in Hl.
  rewrite !zlen_app in Hl. unfold crlf in Hl. rewrite !zlen_cons, zlen_nil in Hl.
  change (zlen (str "*")) with 1 in Hl.
  pose proof (zlen_nonneg (concat (format_arg <$> argvs))). pose proof (zlen_nonneg argvs).
  pose proof (zlen_nonneg (Util.ll2string_chars (zlen argvs))).
  pose proof (format_args_long argvs) as Hn.
  change (list_fmap _ _ format_arg argvs) with (format_arg <$> argvs) in *.
  rewrite intlen_digits by lia. cbn [mbind option_bind]. rewrite totlen_format by lia.
  cbn [mbind option_bind].
  assert (1 + zlen (Util.ll2string_chars (zlen argvs)) + 2 + zlen (concat (format_arg <$> argvs)) =
    zlen (format_command argvs)) as ->.
  { unfold format_command. rewrite !zlen_app. unfold crlf. rewrite !zlen_cons, zlen_nil.
    change (zlen (str "*")) with 1. lia. }
  by rewrite Z.eqb_refl.
Qed.

(** C33: a sequence of commands formatted by hiredis and delivered to the server in reads of any
    size (no more than the server asks for, until everything has arrived) is parsed back to
    exactly these commands, executed once each and in order, whatever the bytes of the
    arguments; nothing is left in the query buffer, no assertion fails, no access is out of
    bounds, and the limits on the buffer are never hit. *)
Theorem command_stream_roundtrip I cs e c :
  Forall (fun a => command_ok a /\ zlen (format_command a) < 2147483648) cs ->
  serves I cs -> I e c -> open c -> staged c Idle -> querybuf c = [] ->
  exists wires, Forall2 (fun a w => redisFormatCommandArgv a = Some (zlen w, w)) cs wires /\
    forall ns, (length (concat wires) <= length ns)%nat ->
    exists e' c', receive REDIS_MAX_QUERYBUF_LEN ns (concat wires) e c = Ok (e', Some c', []) /\
      runs e c cs e' c' /\ staged c' Idle /\ querybuf c' = [] /\ open c'.
Proof.
  intros Hcs Hsv HI Ho Hst Hq. exists (format_command <$> cs). split.
  - clear -Hcs. induction Hcs as [|a cs [_ Ha] _ IH]; [by constructor|].
    constructor; [by apply redisFormatCommandArgv_format|done].
  - intros ns Hns. destruct (receive_runs I ns (concat (format_command <$> cs)) e c cs)
      as (e' & c' & E' & Hr & Hp & Ho' & _); try done.
    + exists Idle, cs. split_and!; try done; [|by rewrite Hq|rewrite Hq; apply waiting_nil].
      revert Hcs. apply List.Forall_impl. by intros a [].
    + destruct (parsed_all c' [] Hp) as (_ & Hq' & Hst'). by exists e', c'.
Qed.
End Serve.

(** A server that records the commands it executes. *)
#[export] Instance recorder : CommandProcessor (list (list (list Z))) := {
  processCommand e c := Ok (e ++ [argv c], c, true);
}.

Lemma recorder_serves cs : serves (fun _ _ => True) cs.
Proof. split; [|done]. intros e c _ Ho _. by exists (e ++ [argv c]), c. Qed.

Lemma recorder_runs e c cs e' c' : runs e c cs e' c' -> e' = e ++ cs.
Proof.
  induction 1 as [e c c' _|e c c1 cs e2 c2 e' c' _ Hp _ IH]; [by rewrite app_nil_r|].
  cbn in Hp. injection Hp as <- <-. by rewrite IH, <- app_assoc.
Qed.

Lemma command_stream_roundtrip_witness :
  exists wires, Forall2 (fun a w => redisFormatCommandArgv a = Some (zlen w, w))
      [[str "SET"; str "key"; [13; 10; 0]]; [str "GET"; str "key"]] wires /\
    forall ns, (length (concat wires) <= length ns)%nat ->
    exists e' c', receive REDIS_MAX_QUERYBUF_LEN ns (concat wires) [] (createClient 5) = Ok (e', Some c', []) /\
      runs [] (createClient 5) [[str "SET"; str "key"; [13; 10; 0]]; [str "GET"; str "key"]] e' c' /\
      staged c' Idle /\ querybuf c' = [] /\ open c'.
Proof.
  apply (command_stream_roundtrip (fun _ _ => True)).
  - repeat constructor; done.
  - apply recorder_serves.
  - done.
  - done.
  - by split_and!; [| | |left].
  - done.
Defined.


(** ** Arbitrary input *)

Definition closing c : Prop := has_flag REDIS_CLOSE_AFTER_REPLY c = true.

(** What parsing may change: the fields of the query, the output, and the flag that closes the
    client. *)
Inductive parse_step c : redisClient -> Prop :=
  | ps_query c' : query_only c c' -> parse_step c c'
  | ps_out c' : out_only c c' -> parse_step c c'
  | ps_close : parse_step c (or_flags REDIS_CLOSE_AFTER_REPLY c).

Definition handled : redisClient -> redisClient -> Prop := rtc parse_step.

Lemma handled_query c c' : query_only c c' -> handled c c'.
Proof. intros. by apply rtc_once, ps_query. Qed.

(** The client after a protocol error. *)
Record failed c c' : Prop := {
  fa_handled : handled c c';
  fa_closing : closing c';
  fa_count : multibulklen c' = multibulklen c;
  fa_len : zlen (querybuf c') <= zlen (querybuf c);
}.

Lemma error_failed c s pos :
  0 <= pos <= zlen (querybuf c) ->
  failed c (setProtocolError (addReplyErrorLength c s) pos) /\
  querybuf (setProtocolError (addReplyErrorLength c s) pos) = drop (Z.to_nat pos) (querybuf c).
Proof.
  intros Hpos. unfold addReplyErrorLength. set (c1 := addReplyString _ crlf).
  assert (out_only c c1) as Ho by (unfold c1; repeat (etransitivity; [|apply add_string_out]); reflexivity).
  clearbody c1. assert (querybuf c1 = querybuf c) as Hq by (by rewrite Ho).
  assert (querybuf (setProtocolError c1 pos) = drop (Z.to_nat pos) (querybuf c)) as Hd.
  { unfold setProtocolError, trim. cbn [querybuf set_querybuf or_flags set_flags]. rewrite Hq. by apply Sds.range_drop. }
  split; [split|done].
  - eapply rtc_l; [by apply ps_out|]. eapply rtc_l; [apply ps_close|].
    apply handled_query, query_only_querybuf.
  - unfold closing, setProtocolError, trim, or_flags, has_flag. cbn [flags set_querybuf set_flags].
    apply negb_true_iff, Z.eqb_neq. intros Hz. apply (f_equal (fun z => Z.testbit z 6)) in Hz.
    rewrite Z.land_spec, Z.lor_spec in Hz. change (Z.testbit REDIS_CLOSE_AFTER_REPLY 6) with true in Hz.
    rewrite orb_true_r in Hz. done.
  - unfold setProtocolError, trim. cbn. by rewrite Ho.
  - rewrite Hd. unfold zlen. rewrite length_drop. lia.
Qed.

(** The state of the parser of a client that is not being closed. *)
Record query_inv c : Prop := {
  qi_type : reqtype c = 0 \/ reqtype c = REDIS_REQ_INLINE \/ reqtype c = REDIS_REQ_MULTIBULK;
  qi_count : 0 <= multibulklen c <= 1024 * 1024;
  qi_bulk : bulklen c = -1 \/ 0 <= bulklen c <= 512 * 1024 * 1024;
  qi_idle : multibulklen c = 0 -> argv c = [] /\ bulklen c = -1;
  qi_args : 0 < multibulklen c ->
    reqtype c = REDIS_REQ_MULTIBULK /\ zlen (argv c) + multibulklen c = argv_slots c;
  qi_star : reqtype c = REDIS_REQ_MULTIBULK -> multibulklen c = 0 -> head (querybuf c) = Some 42;
}.


Lemma strchr_Some l ch n :
  strchr l ch = Some n -> exists a b, l = a ++ ch :: b /\ n = zlen a.
Proof.
  revert n. induction l as [|x l IH]; intros n; [done|]. cbn [strchr].
  destruct (Z.eqb_spec x ch) as [->|]; [intros [= <-]; by exists [], l|].
  destruct (x =? 0); [done|]. destruct (strchr l ch) as [m|]; [|done]. intros [= <-].
  destruct (IH m eq_refl) as (a & b & -> & ->). exists (x :: a), b. rewrite zlen_cons. split; [done|lia].
Qed.

Lemma strstr_crlf_Some l n :
  strstr_crlf l = Some n -> exists a b, l = a ++ crlf ++ b /\ n = zlen a.
Proof.
  revert n. induction l as [|x l IH]; intros n; [done|]. cbn [strstr_crlf].
  destruct ((x =? 13) && bool_decide (head l = Some 10)) eqn:E.
  { intros [= <-]. apply andb_true_iff in E as [->%Z.eqb_eq H%bool_decide_eq_true].
    destruct l as [|y l]; [done|]. injection H as ->. by exists [], l. }
  destruct (x =? 0); [done|]. destruct (strstr_crlf l) as [m|]; [|done]. intros [= <-].
  destruct (IH m eq_refl) as (a & b & -> & ->). exists (x :: a), b. rewrite zlen_cons. split; [done|lia].
Qed.

(** What holds while the arguments are read. *)
Record args_inv c (pos : Z) : Prop := {
  ai_type : reqtype c = REDIS_REQ_MULTIBULK;
  ai_count : 0 <= multibulklen c <= 1024 * 1024;
  ai_slots : zlen (argv c) + multibulklen c = argv_slots c;
  ai_bulk : bulklen c = -1 \/ 0 <= bulklen c <= 512 * 1024 * 1024;
  ai_pos : 0 <= pos <= zlen (querybuf c);
  ai_len : zlen (querybuf c) < 2147483648;
}.

Lemma readBulkLen_safe c pos :
  args_inv c pos ->
  exists fl, readBulkLen c pos = Ok fl /\
    match fl with
    | Next c' pos' => query_only c c' /\ args_inv c' pos' /\ 0 <= bulklen c' /\
        multibulklen c' = multibulklen c /\
        zlen (querybuf c') - pos' <= zlen (querybuf c) - pos /\ zlen (querybuf c') <= zlen (querybuf c)
    | Break c' => c' = c \/ failed c c' /\ querybuf c' = querybuf c
    | Return c' => failed c c'
    end.
Proof.
  intros [Ht Hm Hs Hb Hp Hl]. unfold readBulkLen.
  destruct (strchr _ 13) as [n|] eqn:En.
  2: { destruct (_ <? _); eexists; (split; [done|]); [right|by left].
       destruct (error_failed c too_big_bulk 0) as [Hf Hq]; [lia|]. by split. }
  destruct (strchr_Some _ _ _ En) as (a & b & Ed & Hn).
  assert (zlen (querybuf c) - pos = zlen a + 1 + zlen b) as Hz.
  { assert (zlen (drop (Z.to_nat pos) (querybuf c)) = zlen (querybuf c) - pos) as <-
      by (unfold zlen in *; rewrite length_drop; lia). rewrite Ed, zlen_app, zlen_cons. lia. }
  pose proof (zlen_nonneg a). pose proof (zlen_nonneg b).
  rewrite swrap_id by (unfold in_int; simpl; lia).
  destruct (Z.ltb_spec (zlen (querybuf c) - 2) (pos + n)) as [|Hnl]; [eexists; split; [done|by left]|].
  assert (exists ch, rd (querybuf c) pos = Some ch /\ head (drop (Z.to_nat pos) (querybuf c)) = Some ch) as (ch & -> & Hch).
  { unfold rd. rewrite (proj2 (Z.ltb_ge pos 0)) by lia. rewrite <- (Nat.add_0_r (Z.to_nat pos)), <- lookup_drop, Nat.add_0_r.
    rewrite Ed. destruct a; by eexists. }
  cbn [opt mbind outcome_bind]. destruct (Z.eqb_spec ch 36) as [->|]; cbn [negb].
  2: { eexists. split; [done|]. apply error_failed. lia. }
  assert (0 < n) as Hn0.
  { rewrite Ed in Hch. destruct a as [|x a]; [done|]. rewrite Hn, zlen_cons. pose proof (zlen_nonneg a). lia. }
  rewrite load_in_range by lia. cbn [opt mbind outcome_bind].
  destruct (Util.string2ll _) as [ll|]; [|eexists; split; [done|]; apply error_failed; lia].
  destruct (Z.ltb_spec ll 0); cbn [orb]; [eexists; split; [done|]; apply error_failed; lia|].
  destruct (Z.ltb_spec (512 * 1024 * 1024) ll); [eexists; split; [done|]; apply error_failed; lia|].
  destruct (_ <=? ll); eexists; (split; [done|]).
  - unfold trim. rewrite Sds.range_drop by lia.
    assert (zlen (drop (Z.to_nat (pos + n + 2)) (querybuf c)) = zlen (querybuf c) - (pos + n + 2)) as Hz'
      by (unfold zlen in *; rewrite length_drop; lia).
    split_and!; cbn; try done || lia. split; cbn; try done || lia.
  - split_and!; cbn; try done || lia. split; cbn; try done || lia.
Qed.

Lemma readBulkArg_safe c pos :
  args_inv c pos -> 0 <= bulklen c -> 0 < multibulklen c ->
  exists fl, readBulkArg c pos = Ok fl /\
    match fl with
    | Next c' pos' => query_only c c' /\ args_inv c' pos' /\ multibulklen c' = multibulklen c - 1 /\
        zlen (querybuf c') - pos' <= zlen (querybuf c) - pos - 2 /\ zlen (querybuf c') <= zlen (querybuf c)
    | Break c' => c' = c
    | Return _ => False
    end.
Proof.
  intros [Ht Hm Hs Hb Hp Hl] Hb0 Hm0. unfold readBulkArg.
  rewrite !uwrap_id by (unfold in_uint; simpl; lia).
  destruct (Z.ltb_spec (zlen (querybuf c) - pos) (bulklen c + 2)); [by eexists|].
  unfold redisAssert. rewrite (proj2 (Z.ltb_lt _ _)) by lia. cbn [mbind outcome_bind].
  rewrite swrap_id by (unfold in_int; simpl; lia).
  destruct (_ && _ && _) eqn:Eo.
  - apply andb_true_iff in Eo as [[->%Z.eqb_eq _]%andb_true_iff Elen%Z.eqb_eq].
    rewrite load_in_range by lia. cbn [opt mbind outcome_bind]. eexists. split; [done|].
    split_and!; cbn; try done || lia; [|unfold zlen in *; simpl; lia..].
    split; cbn; rewrite ?zlen_app, ?zlen_cons, ?zlen_nil; try done || lia; unfold zlen; simpl; lia.
  - rewrite load_in_range by lia. cbn [opt mbind outcome_bind]. eexists. split; [done|].
    split_and!; cbn; try done || lia.
    split; cbn; rewrite ?zlen_app, ?zlen_cons, ?zlen_nil; try done || lia.
Qed.


Lemma failed_after c c1 c2 : query_only c c1 -> multibulklen c1 = multibulklen c ->
  zlen (querybuf c1) <= zlen (querybuf c) -> failed c1 c2 -> failed c c2.
Proof.
  intros Hq Hm Hl [H1 H2 H3 H4]. split; [|done|lia|lia].
  etransitivity; [by apply handled_query|done].
Qed.

Lemma args_loop_safe fuel c pos :
  args_inv c pos -> multibulklen c <= Z.of_nat fuel ->
  exists fl, args_loop fuel c pos = Ok fl /\
    match fl with
    | Next c' pos' =>
        0 <= pos' <= zlen (querybuf c') /\ zlen (querybuf c') <= zlen (querybuf c) /\
        (handled c c' /\ closing c' /\ multibulklen c' <> 0 \/
         query_only c c' /\ args_inv c' pos' /\
         zlen (querybuf c') - pos' + 2 * (multibulklen c - multibulklen c') <= zlen (querybuf c) - pos)
    | Break _ => False
    | Return c' => handled c c' /\ closing c' /\ zlen (querybuf c') <= zlen (querybuf c)
    end.
Proof.
  revert c pos. induction fuel as [|fuel IH]; intros c pos Hi Hfu; cbn [args_loop];
    (destruct (Z.eqb_spec (multibulklen c) 0) as [Hm|Hm];
      [eexists; split; [done|]; destruct (ai_pos _ _ Hi); split_and!; try lia; right; by split_and!; [|..|lia]|]);
    pose proof (ai_count _ _ Hi); [lia|].
  assert (Harg : forall c1 pos1, query_only c c1 -> args_inv c1 pos1 -> 0 <= bulklen c1 ->
    multibulklen c1 = multibulklen c -> zlen (querybuf c1) - pos1 <= zlen (querybuf c) - pos ->
    zlen (querybuf c1) <= zlen (querybuf c) ->
    exists fl', (fl ← readBulkArg c1 pos1;
       match fl with
       | Next c2 pos2 => args_loop fuel c2 pos2
       | Break c2 => Ok (Next c2 pos1)
       | Return c2 => Ok (Return c2)
       end) = Ok fl' /\
    match fl' with
    | Next c' pos' =>
        0 <= pos' <= zlen (querybuf c') /\ zlen (querybuf c') <= zlen (querybuf c) /\
        (handled c c' /\ closing c' /\ multibulklen c' <> 0 \/
         query_only c c' /\ args_inv c' pos' /\
         zlen (querybuf c') - pos' + 2 * (multibulklen c - multibulklen c') <= zlen (querybuf c) - pos)
    | Break _ => False
    | Return c' => handled c c' /\ closing c' /\ zlen (querybuf c') <= zlen (querybuf c)
    end).
  { intros c1 pos1 Hq1 Hi1 Hb1 Hm1 Hr1 Hl1.
    destruct (readBulkArg_safe c1 pos1 Hi1 Hb1 ltac:(lia)) as (fl & E & Hfl). rewrite E. cbn [mbind outcome_bind].
    destruct fl as [c2 pos2|c2|c2]; [|subst c2|done].
    - destruct Hfl as (Hq2 & Hi2 & Hm2 & Hr2 & Hl2).
      assert (query_only c c2) as Hq by (by etransitivity).
      destruct (IH c2 pos2 Hi2 ltac:(lia)) as (fl & E' & Hfl). exists fl. split; [exact E'|].
      destruct fl as [c' pos'|c'|c']; [|done|].
      + destruct Hfl as (Hp & Hl & Hcase). split_and!; [lia..|].
        destruct Hcase as [(Hh & Hc & Hne)|(Hq' & Hi' & Hr')]; [left|right].
        * split_and!; [|done..]. etransitivity; [by apply handled_query|done].
        * split_and!; [by etransitivity|done|lia].
      + destruct Hfl as (Hh & Hc & Hl). split_and!; [|done|lia].
        etransitivity; [by apply handled_query|done].
    - eexists. split; [done|]. destruct (ai_pos _ _ Hi1). split_and!; try lia. right. by split_and!; [..|lia]. }
  destruct (Z.eqb_spec (bulklen c) (-1)) as [Hb|Hb].
  2: { apply Harg; try done || lia. pose proof (ai_bulk _ _ Hi). lia. }
  destruct (readBulkLen_safe c pos Hi) as (fl & E & Hfl). rewrite E. cbn [mbind outcome_bind].
  destruct fl as [c1 pos1|c1|c1].
  - destruct Hfl as (Hq1 & Hi1 & Hb1 & Hm1 & Hr1 & Hl1). by apply Harg.
  - eexists. split; [done|]. destruct (ai_pos _ _ Hi). destruct Hfl as [->|[[Hh Hc Hm1 Hl1] Hq]].
    + split_and!; try lia. right. by split_and!; [..|lia].
    + rewrite Hq. split_and!; try lia. left. split_and!; [done..|lia].
  - eexists. split; [done|]. destruct Hfl. by split_and!.
Qed.

(** The outcome of parsing, for an input that may be anything. *)
Definition parse_safe c c' (ok : bool) : Prop :=
  zlen (querybuf c') <= zlen (querybuf c) /\
  (handled c c' /\ closing c' /\ ok = false \/
   query_only c c' /\ (if ok then zlen (querybuf c') < zlen (querybuf c) else query_inv c')).

Lemma set_querybuf_inv c pos q :
  args_inv c pos -> multibulklen c <> 0 -> query_inv (set_querybuf q c).
Proof. intros [Ht Hm Hs Hb _ _] Hne. split; cbn; auto; lia. Qed.

Lemma processArgs_safe c pos n :
  args_inv c pos -> 0 < multibulklen c -> zlen (querybuf c) <= n ->
  zlen (querybuf c) - pos < n + 2 * multibulklen c ->
  exists c' ok,
    (_ ← redisAssert (0 <? multibulklen c);
     fl ← args_loop (Z.to_nat (multibulklen c)) c pos;
     match fl with
     | Next c pos =>
       let c := if pos =? 0 then c else trim pos c in
       Ok (c, multibulklen c =? 0)
     | Break c | Return c => Ok (c, false)
     end) = Ok (c', ok) /\
    zlen (querybuf c') <= n /\
    (handled c c' /\ closing c' /\ ok = false \/
     query_only c c' /\ (if ok then zlen (querybuf c') < n else query_inv c')).
Proof.
  intros Hi Hm Hn Hlt. unfold redisAssert. rewrite (proj2 (Z.ltb_lt _ _)) by lia. cbn [mbind outcome_bind].
  destruct (args_loop_safe (Z.to_nat (multibulklen c)) c pos Hi ltac:(lia)) as (fl & E & Hfl).
  rewrite E. cbn [mbind outcome_bind]. destruct fl as [c1 pos1|c1|c1]; [|done|].
  - destruct Hfl as (Hp & Hl & Hcase). rewrite trim_if by done.
    set (c2 := set_querybuf _ c1). exists c2, (multibulklen c1 =? 0). split; [done|].
    assert (Hl2 : zlen (querybuf c2) = zlen (querybuf c1) - pos1).
    { unfold c2. cbn. unfold zlen in *. rewrite length_drop. lia. }
    assert (query_only c1 c2) as Hq12 by apply query_only_querybuf.
    split; [lia|]. destruct Hcase as [(Hh & Hc & Hne)|(Hq & Hi' & Hr)]; [left|right].
    + split_and!; [etransitivity; [done|by apply handled_query]|done|lia].
    + split; [by etransitivity|]. destruct (Z.eqb_spec (multibulklen c1) 0) as [Hz|Hz]; [lia|].
      by eapply set_querybuf_inv.
  - destruct Hfl as (Hh & Hc & Hl). exists c1, false. split; [done|]. split; [lia|]. by left.
Qed.

Lemma readMultibulkLen_safe c :
  query_inv c -> reqtype c = REDIS_REQ_MULTIBULK -> multibulklen c = 0 -> zlen (querybuf c) < 2147483648 ->
  exists r, readMultibulkLen c = Ok r /\
    match r with
    | inl (Next c' pos) => query_only c c' /\ args_inv c' pos /\ 0 < multibulklen c' /\
        3 <= pos /\ querybuf c' = querybuf c
    | inl (Return c') => c' = c \/ failed c c'
    | inl (Break _) => False
    | inr c' => query_only c c' /\ zlen (querybuf c') < zlen (querybuf c)
    end.
Proof.
  intros [Ht Hm Hb Hidle Hargs Hstar] Hty Hm0 Hl. destruct (Hidle Hm0) as [Ha Hb1].
  unfold readMultibulkLen. rewrite Ha. cbn [redisAssert zlen length Z.of_nat Z.eqb mbind outcome_bind].
  destruct (strchr _ 13) as [n|] eqn:En.
  2: { destruct (_ <? _); eexists; (split; [done|]); [right|by left].
       apply error_failed. pose proof (zlen_nonneg (querybuf c)). lia. }
  destruct (strchr_Some _ _ _ En) as (a & b & Ed & Hn).
  assert (zlen (querybuf c) = zlen a + 1 + zlen b) as Hz by (rewrite Ed, zlen_app, zlen_cons; lia).
  pose proof (zlen_nonneg a). pose proof (zlen_nonneg b).
  rewrite swrap_id by (unfold in_int; simpl; lia).
  destruct (Z.ltb_spec (zlen (querybuf c) - 2) n) as [|Hnl]; [eexists; split; [done|by left]|].
  assert (rd (querybuf c) 0 = Some 42) as ->.
  { specialize (Hstar Hty Hm0). destruct (querybuf c); [done|]. by injection Hstar as ->. }
  cbn [opt mbind outcome_bind Z.eqb Pos.eqb redisAssert].
  assert (1 <= n).
  { specialize (Hstar Hty Hm0). destruct a as [|x a]; [by rewrite Ed in Hstar|].
    rewrite Hn, zlen_cons. pose proof (zlen_nonneg a). lia. }
  rewrite load_in_range by lia. cbn [opt mbind outcome_bind].
  destruct (Util.string2ll _) as [ll|]; [|eexists; split; [done|]; right; apply error_failed; lia].
  destruct (Z.ltb_spec (1024 * 1024) ll); [eexists; split; [done|]; right; apply error_failed; lia|].
  destruct (Z.leb_spec ll 0); eexists; (split; [done|]).
  - split; [apply query_only_querybuf|]. cbn. rewrite Sds.range_drop by lia. unfold zlen in *. rewrite length_drop. lia.
  - split_and!; cbn; try done || lia. split; cbn; rewrite ?Ha, ?Hb1; try done || lia.
Qed.

Lemma processMultibulk_safe c :
  query_inv c -> reqtype c = REDIS_REQ_MULTIBULK -> zlen (querybuf c) < 2147483648 ->
  exists c' ok, processMultibulkBuffer c = Ok (c', ok) /\ parse_safe c c' ok.
Proof.
  intros Hi Ht Hl. unfold processMultibulkBuffer.
  destruct (Z.eqb_spec (multibulklen c) 0) as [Hm|Hm].
  - destruct (readMultibulkLen_safe c Hi Ht Hm Hl) as (r & E & Hr). rewrite E. cbn [mbind outcome_bind].
    destruct r as [[c1 pos|c1|c1]|c1]; [|done| |].
    + destruct Hr as (Hq & Ha & Hm1 & Hp & Hb).
      destruct (processArgs_safe c1 pos (zlen (querybuf c)) Ha Hm1) as (c' & ok & E' & Hl' & Hcase);
        [by rewrite Hb|rewrite Hb; lia|].
      exists c', ok. split; [exact E'|]. split; [done|].
      destruct Hcase as [(Hh & Hrest)|(Hq' & Hrest)]; [left|right].
      * split; [|done]. etransitivity; [by apply handled_query|done].
      * split; [by etransitivity|done].
    + exists c1, false. split; [done|]. destruct Hr as [->|[Hh Hc _ Hlen]]; (split; [done|]); [by right|by left].
    + exists c1, true. split; [done|]. destruct Hr as [Hq Hlt]. split; [lia|by right].
  - cbn [mbind outcome_bind]. destruct Hi as [_ Hc Hb _ Hargs _]. destruct (Hargs ltac:(lia)) as [_ Hs].
    apply processArgs_safe; try lia. split; try done || lia. pose proof (zlen_nonneg (querybuf c)). lia.
Qed.

Lemma sdssplitlen_spaces line :
  exists ts, Sds.sdssplitlen line [32] = Some (Some ts) /\ (line <> [] -> Sds.join [32] ts = line).
Proof.
  unfold Sds.sdssplitlen. cbn [zlen length Z.of_nat Z.ltb Z.compare Pos.compare Pos.compare_cont].
  destruct (Z.eqb_spec (zlen line) 0) as [Hz|Hz].
  { exists []. split; [done|]. by destruct line. }
  destruct (Sds.split_loop_ok line [32] (S (length line)) 0 0 5 []) as (ts & -> & Hj & _);
    try done; try (unfold zlen; simpl; lia). by exists ts.
Qed.

Lemma processInline_safe c :
  query_inv c -> multibulklen c = 0 ->
  reqtype c = REDIS_REQ_INLINE ->
  exists c' ok, processInlineBuffer c = Ok (c', ok) /\ parse_safe c c' ok.
Proof.
  intros Hi Hm Ht. unfold processInlineBuffer. destruct (strstr_crlf (querybuf c)) as [n|] eqn:En.
  - destruct (strstr_crlf_Some _ _ En) as (a & b & Ed & ->).
    assert (zlen (querybuf c) = zlen a + 2 + zlen b) as Hz
      by (rewrite Ed, !zlen_app; unfold crlf; rewrite !zlen_cons, zlen_nil; lia).
    pose proof (zlen_nonneg a). pose proof (zlen_nonneg b).
    rewrite load_in_range by lia. cbn [opt mbind outcome_bind].
    destruct (sdssplitlen_spaces (take (Z.to_nat (zlen a)) (drop (Z.to_nat 0) (querybuf c)))) as (ts & -> & _).
    cbn [opt mbind outcome_bind]. eexists _, _. split; [done|].
    assert (zlen (querybuf (trim (zlen a + 2) c)) < zlen (querybuf c)) as Hlt.
    { cbn. rewrite Sds.range_drop by lia. unfold zlen in *. rewrite length_drop. lia. }
    split; [cbn in *; lia|]. right. split; [by destruct c|exact Hlt].
  - destruct (_ <? _); eexists _, _; (split; [done|]).
    + destruct (error_failed c (str "Protocol error: too big inline request") 0) as [[Hh Hc _ Hl] _];
        [pose proof (zlen_nonneg (querybuf c)); lia|]. split; [done|by left].
    + split; [done|by right].
Qed.


Definition parser_inv c : Prop := closing c \/ query_inv c.

Lemma reset_inv c : query_inv (resetClient c).
Proof.
  assert (reqtype (resetClient c) = 0 /\ multibulklen (resetClient c) = 0 /\ bulklen (resetClient c) = -1 /\
    argv (resetClient c) = []) as (H1 & H2 & H3 & H4)
    by (unfold resetClient; destruct (negb _); cbn; auto).
  split; rewrite ?H1, ?H2, ?H3, ?H4; auto; lia || done.
Qed.

Section Safe.
Context {E : Type} `{!CommandProcessor E}.

(** What reading relies on: a command is executed without fault in a state of the invariant
    [I], leaves the query buffer alone, and is reported as failed only when it closes the
    client; the invariant does not depend on the fields that parsing changes. *)
Record robust (I : E -> redisClient -> Prop) : Prop := {
  rb_run e c : I e c -> open c -> argv c <> [] ->
    exists e' c' ok, processCommand e c = Ok (e', c', ok) /\ querybuf c' = querybuf c /\
      I e' c' /\ (ok = false -> closing c');
  rb_step e c c' : I e c -> parse_step c c' -> I e c';
  rb_reset e c : I e c -> I e (resetClient c);
}.

Lemma rb_handled I e c c' : robust I -> I e c -> handled c c' -> I e c'.
Proof. intros Hr HI Hh. revert HI. induction Hh; [done|]. intros HI. apply IHHh. by eapply (rb_step _ Hr). Qed.

Lemma typed_inv c x q :
  query_inv c -> querybuf c = x :: q ->
  let c1 := if reqtype c =? 0
            then set_reqtype (if x =? 42 then REDIS_REQ_MULTIBULK else REDIS_REQ_INLINE) c else c in
  query_only c c1 /\ querybuf c1 = querybuf c /\ query_inv c1 /\
  (reqtype c1 = REDIS_REQ_INLINE /\ multibulklen c1 = 0 \/ reqtype c1 = REDIS_REQ_MULTIBULK).
Proof.
  intros Hi Hq. pose proof Hi as [Ht Hm Hb Hidle Hargs Hstar].
  destruct (Z.eqb_spec (reqtype c) 0) as [H0|H0].
  - assert (multibulklen c = 0) as Hm0.
    { destruct (Z.eq_dec (multibulklen c) 0); [done|]. destruct (Hargs ltac:(lia)) as [Ht' _].
      rewrite Ht' in H0. done. }
    cbn. split_and!; [by destruct c|done| |by destruct (x =? 42); auto].
    split; cbn; auto; [by destruct (x =? 42); auto|lia|].
    rewrite Hq. simpl. destruct (Z.eqb_spec x 42) as [->|]; done.
  - split_and!; try done. destruct Ht as [|[Ht|Ht]]; [done|left|by right]. split; [done|].
    destruct (Z.eq_dec (multibulklen c) 0); [done|]. destruct (Hargs ltac:(lia)) as [Ht' _].
    rewrite Ht in Ht'. done.
Qed.

Lemma input_loop_safe I fuel e c :
  robust I -> I e c -> parser_inv c -> zlen (querybuf c) < 2147483648 ->
  zlen (querybuf c) <= Z.of_nat fuel ->
  exists e' c', input_loop fuel e c = Ok (e', c') /\ I e' c' /\ parser_inv c' /\
    zlen (querybuf c') <= zlen (querybuf c).
Proof.
  intros Hr. revert e c. induction fuel as [|fuel IH]; intros e c HI Hp Hl Hfu; cbn [input_loop];
    (destruct (Z.eqb_spec (zlen (querybuf c)) 0) as [Hz|Hz]; [by exists e, c|]);
    pose proof (zlen_nonneg (querybuf c)); [lia|].
  destruct (has_flag REDIS_BLOCKED c) eqn:Hbl; [by exists e, c|].
  destruct (has_flag REDIS_CLOSE_AFTER_REPLY c) eqn:Hcl; [by exists e, c|].
  destruct Hp as [Hp|Hp]; [unfold closing in Hp; congruence|].
  destruct (querybuf c) as [|x q] eqn:Eq; [done|]. rewrite <- Eq in *.
  assert (rd (querybuf c) 0 = Some x) as -> by (by rewrite Eq). cbn [opt mbind outcome_bind].
  destruct (typed_inv c x q Hp Eq) as (Hq1 & Hb1 & Hi1 & Ht1).
  set (c1 := if reqtype c =? 0 then _ else c) in *.
  assert (exists c2 ok, (if reqtype c1 =? REDIS_REQ_INLINE then processInlineBuffer c1
    else if reqtype c1 =? REDIS_REQ_MULTIBULK then processMultibulkBuffer c1 else Undefined) = Ok (c2, ok) /\
    parse_safe c1 c2 ok) as (c2 & ok & -> & Hl2 & Hcase).
  { destruct Ht1 as [[Ht1 Hm1]|Ht1]; rewrite Ht1; cbn [Z.eqb Pos.eqb REDIS_REQ_INLINE REDIS_REQ_MULTIBULK].
    - by apply processInline_safe.
    - apply processMultibulk_safe; [done..|]. by rewrite Hb1. }
  cbn [mbind outcome_bind]. rewrite Hb1 in *.
  assert (I e c1) as HI1 by (eapply (rb_step _ Hr); [exact HI|by apply ps_query]).
  destruct Hcase as [(Hh & Hc & ->)|(Hq2 & Hok)].
  { exists e, c2. split_and!; [done| |by left|lia]. by eapply rb_handled. }
  assert (I e c2) as HI2 by (eapply (rb_step _ Hr); [exact HI1|by apply ps_query]).
  destruct ok; cbn [negb]; [|by exists e, c2; split_and!; [| |right|]].
  destruct (Z.eqb_spec (zlen (argv c2)) 0) as [Ha|Ha].
  - destruct (IH e (resetClient c2)) as (e' & c' & E' & HI' & Hp' & Hl').
    + by apply (rb_reset _ Hr).
    + right. apply reset_inv.
    + rewrite (proj2 (reset_idle c2)). lia.
    + rewrite (proj2 (reset_idle c2)). lia.
    + exists e', c'. rewrite (proj2 (reset_idle c2)) in Hl'. split_and!; [done..|lia].
  - destruct (rb_run _ Hr e c2 HI2) as (e3 & c3 & ok & E3 & Hb3 & HI3 & Hclose).
    { eapply open_query; [exact Hq2|]. eapply open_query; [exact Hq1|]. done. }
    { intros Hnil. by rewrite Hnil in Ha. }
    rewrite E3. cbn [mbind outcome_bind].
    set (c4 := if ok then resetClient c3 else c3).
    assert (querybuf c4 = querybuf c2 /\ I e3 c4 /\ parser_inv c4) as (Hb4 & HI4 & Hp4).
    { unfold c4. destruct ok.
      - split_and!; [by rewrite (proj2 (reset_idle c3))|by apply (rb_reset _ Hr)|right; apply reset_inv].
      - split_and!; [done|done|left; auto]. }
    destruct (IH e3 c4 HI4 Hp4) as (e' & c' & E' & HI' & Hp' & Hl'); [rewrite Hb4; lia..|].
    exists e', c'. split_and!; [done..|]. rewrite Hb4 in Hl'. lia.
Qed.

(** C34: whatever bytes a client sends, and however its reads turn out, reading them
    terminates, never accesses memory out of bounds and never fails an assertion of the
    parser: every read ends with the client freed or in a state of the parser's invariant, with
    at most max_querybuf bytes in its buffer. *)
Theorem query_parser_safe I max_querybuf rs e c :
  robust I -> max_querybuf < 2147483648 -> I e c -> parser_inv c -> zlen (querybuf c) <= max_querybuf ->
  exists e' oc, read_all max_querybuf rs e c = Ok (e', oc) /\
    forall c', oc = Some c' -> I e' c' /\ parser_inv c' /\ zlen (querybuf c') <= max_querybuf.
Proof.
  intros Hr Hmax. revert e c. induction rs as [|r rs IH]; intros e c HI Hp Hl; cbn [read_all].
  { exists e, (Some c). split; [done|]. by intros c' [= <-]. }
  assert (exists e1 oc, readQueryFromClient max_querybuf r e c = Ok (e1, oc) /\
    forall c', oc = Some c' -> I e1 c' /\ parser_inv c' /\ zlen (querybuf c') <= max_querybuf)
    as (e1 & oc & E1 & Hoc).
  { unfold readQueryFromClient. set (c1 := if _ <? _ then _ else c).
    assert (query_only c c1 /\ querybuf c1 = querybuf c /\ parser_inv c1) as (Hq1 & Hb1 & Hp1).
    { unfold c1. destruct (_ <? _); [|by split_and!]. split_and!; [by destruct c|done|].
      destruct Hp as [Hp|[]]; [by left|right]. by split. }
    assert (I e c1) as HI1 by (eapply (rb_step _ Hr); [exact HI|by apply ps_query]).
    destruct r as [bytes| | |].
    - set (c2 := set_querybuf (querybuf c1 ++ bytes) c1).
      destruct (Z.ltb_spec max_querybuf (zlen (querybuf c2))); [by exists e, None|].
      assert (parser_inv c2) as Hp2.
      { destruct Hp1 as [Hp1|[]]; [by left|right]. split; cbn; auto. intros Ht Hm.
        specialize (qi_star0 Ht Hm). by destruct (querybuf c1). }
      destruct (input_loop_safe I (length (querybuf c2)) e c2 Hr) as (e' & c' & E' & HI' & Hp' & Hl');
        [|done|lia|unfold zlen; lia|].
      { eapply (rb_step _ Hr); [exact HI1|]. apply ps_query, query_only_querybuf. }
      unfold processInputBuffer. rewrite E'. cbn [mbind outcome_bind]. exists e', (Some c'). split; [done|].
      intros ? [= <-]. split_and!; [done..|lia].
    - exists e, (Some c1). split; [done|]. intros ? [= <-]. split_and!; [done..|by rewrite Hb1].
    - by exists e, None.
    - by exists e, None. }
  rewrite E1. cbn [mbind outcome_bind]. destruct oc as [c1|]; [|by exists e1, None].
  destruct (Hoc c1 eq_refl) as (HI1 & Hp1 & Hl1). by apply IH.
Qed.
End Safe.

Lemma recorder_robust : robust (fun (_ : list (list (list Z))) _ => True).
Proof. split; [|done|done]. intros e c _ _ _. by exists (e ++ [argv c]), c, true. Qed.

Lemma query_parser_safe_witness :
  exists e' oc, read_all REDIS_MAX_QUERYBUF_LEN
      [ReadData (str "*2" ++ crlf ++ str "$-4" ++ crlf); ReadAgain; ReadData [0; 255]] [] (createClient 5)
      = Ok (e', oc) /\
    forall c', oc = Some c' -> True /\ parser_inv c' /\ zlen (querybuf c') <= REDIS_MAX_QUERYBUF_LEN.
Proof.
  apply (query_parser_safe (fun _ _ => True)).
  - apply recorder_robust.
  - reflexivity.
  - done.
  - right. split; cbn; auto; lia || done.
  - done.
Defined.

(** The check of the size of the query buffer does not take the part already parsed into
    account: a client whose buffer could grow past 64 kB before it was parsed (it was blocked)
    is refused if the buffer ends between two arguments of a command, although every bulk
    count string is a few bytes long. *)
Example big_pipeline_refused :
  let a := replicate (Z.to_nat 30000) 97 in
  let c := set_querybuf (str "*4" ++ crlf ++ format_arg a ++ format_arg a ++ format_arg a) (createClient 5) in
  match processInputBuffer [] c with
  | Ok (e, c') => e = [] /\ has_flag REDIS_CLOSE_AFTER_REPLY c' = true /\
                  buf c' = str "-ERR " ++ too_big_bulk ++ crlf
  | _ => False
  end.
Proof. vm_compute. by split_and!. Qed.

End Proto.
