(* ===== verification/Reader.v ===== *)
(** * hiredis.cc: the reply reader

    Model of the redisReader of [src/src/hiredis/hiredis.cc]: an incremental parser of the
    replies of a Redis server, with an explicit stack of read tasks (at most nine) and the
    partially built reply object.  The stack is a list with the current task first
    ([ridx] is its length minus one); the parent of a task is the next one, so the slot it
    fills is found from the root object by the indices of the tasks ([path]).  [len] is the
    length of the buffer.  [alloc] tells whether an allocation of a size succeeds.
    [Undefined] is a read out of bounds, a signed overflow or a failing assert.

    The server side are the replies queued with the functions of [Client]:
    [reply_stream_roundtrip] goes from the addReply calls through the socket to the reply
    objects. *)

From Stdlib Require Import ZArith Lia.
From stdpp Require Import prelude list strings numbers.
From S2P Require Import Prelude.
From S2P Require Import Util.
From S2P Require Import SetType.
From S2P Require Import Sds.
From S2P Require Import Client.

Local Open Scope Z_scope.

Module Reader.

(** ** hiredis.h *)

Definition REDIS_REPLY_STRING : Z := 1.
Definition REDIS_REPLY_ARRAY : Z := 2.
Definition REDIS_REPLY_INTEGER : Z := 3.
Definition REDIS_REPLY_NIL : Z := 4.
Definition REDIS_REPLY_STATUS : Z := 5.
Definition REDIS_REPLY_ERROR : Z := 6.
Definition REDIS_ERR_PROTOCOL : Z := 4.
Definition REDIS_ERR_OOM : Z := 5.

(** A reply object; an element that has not been read yet is NULL. *)
Inductive redisReply :=
  | RString (type : Z) (s : list Z)       (* STRING, STATUS or ERROR *)
  | RInteger (integer : Z)
  | RNil
  | RArray (elements : Z) (element : list (option redisReply)).

Record redisReadTask := mkTask { type : Z; elements : Z; idx : Z }.

Record redisReader := mkReader {
  err : Z;
  errstr : list Z;
  buf : option (list Z);
  pos : Z;
  rstack : list redisReadTask;
  reply : option redisReply;
}.

Implicit Types (r : redisReader).

Definition contents r : list Z := default [] (buf r).
Definition len r : Z := zlen (contents r).
Definition ridx r : Z := zlen (rstack r) - 1.
(** [r->buf+r->pos] *)
Definition text r : list Z := drop (Z.to_nat (pos r)) (contents r).

Definition set_pos (p : Z) r := mkReader (err r) (errstr r) (buf r) p (rstack r) (reply r).
Definition set_rstack (s : list redisReadTask) r := mkReader (err r) (errstr r) (buf r) (pos r) s (reply r).
Definition set_reply (o : option redisReply) r := mkReader (err r) (errstr r) (buf r) (pos r) (rstack r) o.

(** redisReaderCreate; NULL when an allocation fails is not modelled. *)
Definition redisReaderCreate : redisReader := mkReader 0 [] (Some []) 0 [] None.

(** ** Errors *)

Definition redisReaderSetError (ty : Z) (msg : list Z) r : redisReader :=
  mkReader ty (take 127 msg) None 0 [] None.

Definition chrtos (byte : Z) : list Z :=
  [34] ++
  (if (byte =? 92) || (byte =? 34) then [92; byte]
   else if byte =? 10 then str "\n"
   else if byte =? 13 then str "\r"
   else if byte =? 9 then str "\t"
   else if byte =? 7 then str "\a"
   else if byte =? 8 then str "\b"
   else if Sds.isprint byte then [byte]
   else str "\x" ++ [Sds.hex_char (byte / 16); Sds.hex_char (byte mod 16)]) ++ [34].

Definition redisReaderSetErrorProtocolByte (byte : Z) r : redisReader :=
  redisReaderSetError REDIS_ERR_PROTOCOL
    (str "Protocol error, got " ++ chrtos byte ++ str " as reply type byte") r.

Definition redisReaderSetErrorOOM r : redisReader :=
  redisReaderSetError REDIS_ERR_OOM (str "Out of memory") r.

(** ** Reading from the buffer *)

Definition readByte r : option (Z * redisReader) :=
  c ← head (text r); Some (c, set_pos (pos r + 1) r).

(** The loops of seekNewline on the bytes from [pos] on; [inner] tells that the inner loop runs,
    after which [s[pos]] is looked at even when [pos] is [_len].  A NUL ends the buffer. *)
Fixpoint seek_loop (inner : bool) (s : list Z) (pos _len : Z) : option Z :=
  if inner || (pos <? _len) then
    match s with
    | [] => None
    | x :: s =>
      if (pos <? _len) && negb (x =? 13) then seek_loop true s (pos + 1) _len
      else if negb (x =? 13) then None
      else if default 0 (head s) =? 10 then Some pos
      else seek_loop false s (pos + 1) _len
    end
  else None.

(** [int _len = len-1] keeps the low 32 bits of the length. *)
Definition seekNewline (s : list Z) : option Z := seek_loop false s 0 (swrap 32 (uwrap 64 (zlen s - 1))).

Definition in64 (z : Z) : outcome Z := if decide (in_int 64 z) then Ok z else Undefined.

(** [None]: a character that is not a digit. *)
Fixpoint longlong_loop (s : list Z) (v : Z) : outcome (option Z) :=
  match s with
  | [] => Undefined
  | c :: s =>
    if c =? 13 then Ok (Some v)
    else
      let dec := c - 48 in
      if (0 <=? dec) && (dec <? 10) then
        v ← in64 (v * 10); v ← in64 (v + dec); longlong_loop s v
      else Ok None
  end.

Definition readLongLong (s : list Z) : outcome Z :=
  c ← match head s with Some c => Ok c | None => Undefined end;
  let '(mult, s) := if c =? 45 then (-1, tail s) else if c =? 43 then (1, tail s) else (1, s) in
  v ← longlong_loop s 0;
  match v with Some v => in64 (mult * v) | None => Ok (-1) end.

(** The text of the line and what follows it, its length, the reader past the newline.
    [len+2] is computed in an int. *)
Definition readLine r : outcome (option (list Z * Z * redisReader))%type :=
  match seekNewline (text r) with
  | None => Ok None
  | Some len =>
    if decide (in_int 32 (len + 2)) then Ok (Some (text r, len, set_pos (pos r + (len + 2)) r)) else Undefined
  end.

(** ** Building the reply object *)

(** [parent->element[task->idx] = r], the parent reached by the indices from the root. *)
Fixpoint set_at (o : redisReply) (path : list Z) (x : redisReply) : option redisReply :=
  match path with
  | [] => Some x
  | i :: path =>
    match o with
    | RArray n els =>
      if i <? 0 then None
      else
        match els !! Z.to_nat i with
        | None => None
        | Some e =>
          e' ← match path with [] => Some x | _ :: _ => o' ← e; set_at o' path x end;
          Some (RArray n (<[Z.to_nat i := Some e']> els))
        end
    | _ => None
    end
  end.

(** The indices of the tasks above the root task, from the root. *)
Definition path (s : list redisReadTask) : list Z := tail (reverse (idx <$> s)).

(** The new object is the reply itself, or fills its slot in the parent. *)
Definition install (x : redisReply) r : outcome redisReader :=
  match path (rstack r) with
  | [] => Ok (set_reply (Some x) r)
  | p =>
    match reply r with
    | None => Undefined
    | Some root =>
      match set_at root p x with
      | Some root => Ok (set_reply (Some root) r)
      | None => Undefined
      end
    end
  end.

(** The stack after the loop of moveToNextTask. *)
Fixpoint move_stack (s : list redisReadTask) : outcome (list redisReadTask) :=
  match s with
  | [] => Ok []
  | cur :: below =>
    match below with
    | [] => Ok []
    | prv :: _ =>
      if negb (type prv =? REDIS_REPLY_ARRAY) then Undefined
      else if idx cur =? elements prv - 1 then move_stack below
      else if idx cur <? elements prv then Ok (mkTask (-1) (-1) (idx cur + 1) :: below)
      else Undefined
    end
  end.

Definition moveToNextTask r : outcome redisReader :=
  s ← move_stack (rstack r); Ok (set_rstack s r).

(** ** Processing items *)

Section Processing.
Context (alloc : Z -> bool).

Definition sizeof_reply : Z := 48.

(** [None] is an object that could not be allocated. *)
Definition createStringObject (ty : Z) (s : list Z) : option redisReply :=
  if alloc sizeof_reply && alloc (zlen s + 1) then Some (RString ty s) else None.
Definition createArrayObject (elements : Z) : option redisReply :=
  if alloc sizeof_reply && (negb (0 <? elements) || alloc (elements * 8))
  then Some (RArray (uwrap 64 elements) (replicate (Z.to_nat elements) None)) else None.
Definition createIntegerObject (value : Z) : option redisReply :=
  if alloc sizeof_reply then Some (RInteger value) else None.
Definition createNilObject : option redisReply := if alloc sizeof_reply then Some RNil else None.

(** "Set reply if this is the root object." *)
Definition finish (obj : option redisReply) r : outcome (redisReader * bool)%type :=
  match obj with
  | None => Ok (redisReaderSetErrorOOM r, false)
  | Some x => r ← install x r; r ← moveToNextTask r; Ok (r, true)
  end.

Definition processLineItem (cur : redisReadTask) r : outcome (redisReader * bool)%type :=
  line ← readLine r;
  match line with
  | None => Ok (r, false)
  | Some (p, n, r) =>
    obj ← (if type cur =? REDIS_REPLY_INTEGER
           then v ← readLongLong p; Ok (createIntegerObject v)
           else Ok (createStringObject (type cur) (take (Z.to_nat n) p)));
    finish obj r
  end.

Definition processBulkItem (cur : redisReadTask) r : outcome (redisReader * bool)%type :=
  match seekNewline (text r) with
  | None => Ok (r, false)
  | Some n =>
    let bytelen := n + 2 in
    l ← readLongLong (text r);
    if l <? 0 then finish createNilObject (set_pos (pos r + bytelen) r)
    else
      l2 ← in64 (l + 2);
      let bytelen := uwrap 64 (bytelen + l2) in
      if uwrap 64 (pos r + bytelen) <=? len r then
        match load (contents r) (pos r + n + 2) l with
        | None => Undefined
        | Some s => finish (createStringObject REDIS_REPLY_STRING s) (set_pos (pos r + bytelen) r)
        end
      else Ok (r, false)
  end.

Definition processMultiBulkItem (cur : redisReadTask) r : outcome (redisReader * bool)%type :=
  if ridx r =? 8 then
    Ok (redisReaderSetError REDIS_ERR_PROTOCOL
          (str "No support for nested multi bulk replies with depth > 7") r, false)
  else
    line ← readLine r;
    match line with
    | None => Ok (r, false)
    | Some (p, _, r) =>
      els ← readLongLong p;
      if els =? -1 then finish createNilObject r
      else
        let els32 := swrap 32 els in
        match createArrayObject els32 with
        | None => Ok (redisReaderSetErrorOOM r, false)
        | Some x =>
          r ← install x r;
          if 0 <? els then
            let cur := mkTask (type cur) els32 (idx cur) in
            Ok (set_rstack (mkTask (-1) (-1) 0 :: cur :: tail (rstack r)) r, true)
          else r ← moveToNextTask r; Ok (r, true)
        end
    end.

Definition reply_type (c : Z) : option Z :=
  if c =? 45 then Some REDIS_REPLY_ERROR
  else if c =? 43 then Some REDIS_REPLY_STATUS
  else if c =? 58 then Some REDIS_REPLY_INTEGER
  else if c =? 36 then Some REDIS_REPLY_STRING
  else if c =? 42 then Some REDIS_REPLY_ARRAY
  else None.

Definition dispatch (cur : redisReadTask) r : outcome (redisReader * bool)%type :=
  if (type cur =? REDIS_REPLY_ERROR) || (type cur =? REDIS_REPLY_STATUS)
     || (type cur =? REDIS_REPLY_INTEGER) then processLineItem cur r
  else if type cur =? REDIS_REPLY_STRING then processBulkItem cur r
  else if type cur =? REDIS_REPLY_ARRAY then processMultiBulkItem cur r
  else Undefined.

Definition processItem r : outcome (redisReader * bool)%type :=
  match rstack r with
  | [] => Undefined
  | cur :: below =>
    if type cur <? 0 then
      match readByte r with
      | None => Ok (r, false)
      | Some (c, r) =>
        match reply_type c with
        | None => Ok (redisReaderSetErrorProtocolByte c r, false)
        | Some ty =>
          let cur := mkTask ty (elements cur) (idx cur) in
          dispatch cur (set_rstack (cur :: below) r)
        end
      end
    else dispatch cur r
  end.

(** "Process items in reply." Every item that is processed takes at least one byte. *)
Fixpoint items_loop (fuel : nat) r : outcome redisReader :=
  match rstack r with
  | [] => Ok r
  | _ :: _ =>
    match fuel with
    | O => OutOfFuel
    | S fuel => '(r, ok) ← processItem r; if ok : bool then items_loop fuel r else Ok r
    end
  end.

(** [sdscatlen] fails like [alloc]. The flag is [== REDIS_OK]. *)
Definition redisReaderFeed (data : list Z) r : redisReader * bool :=
  if negb (err r =? 0) then (r, false)
  else if zlen data <? 1 then (r, true)
  else if negb (alloc (zlen (contents r) + zlen data + 9)) then (redisReaderSetErrorOOM r, false)
  else (mkReader (err r) (errstr r) (Some (contents r ++ data)) (pos r) (rstack r) (reply r), true).

(** "Discard part of the buffer when we've consumed at least 1k" *)
Definition discard r : redisReader :=
  if 1024 <=? pos r
  then mkReader (err r) (errstr r) (Some (Sds.range_spec (contents r) (pos r) (-1))) 0 (rstack r) (reply r)
  else r.

(** The flag is [== REDIS_OK]; the reply is what is stored through the pointer. *)
Definition redisReaderGetReply r : outcome (redisReader * option redisReply * bool)%type :=
  if negb (err r =? 0) then Ok (r, None, false)
  else if len r =? 0 then Ok (r, None, true)
  else
    let r := match rstack r with [] => set_rstack [mkTask (-1) (-1) (-1)] r | _ => r end in
    r ← items_loop (S (Z.to_nat (len r - pos r))) r;
    if negb (err r =? 0) then Ok (r, None, false)
    else
      let r := discard r in
      match rstack r with
      | [] => Ok (set_reply None r, reply r, true)
      | _ => Ok (r, None, true)
      end.

(** The client's loop: replies are taken until there is none. *)
Fixpoint take_replies (fuel : nat) r (acc : list redisReply)
    : outcome (redisReader * list redisReply * bool)%type :=
  match fuel with
  | O => OutOfFuel
  | S fuel =>
    '(r, o, ok) ← redisReaderGetReply r;
    match o with
    | Some x => take_replies fuel r (acc ++ [x])
    | None => Ok (r, acc, ok)
    end
  end.

(** The chunks received are fed one after the other, and the replies taken after each. *)
Fixpoint receive_replies (chunks : list (list Z)) r (acc : list redisReply)
    : outcome (redisReader * list redisReply * bool)%type :=
  match chunks with
  | [] => Ok (r, acc, true)
  | data :: chunks =>
    let '(r, ok) := redisReaderFeed data r in
    if negb ok then Ok (r, acc, false)
    else
      '(r, acc, ok) ← take_replies (S (Z.to_nat (len r))) r acc;
      if negb ok then Ok (r, acc, false) else receive_replies chunks r acc
  end.
End Processing.

(** ** Specification *)

(** The replies a server sends, and the objects that stand for them. *)
Inductive tree :=
  | TStatus (s : list Z)
  | TError (s : list Z)
  | TInt (z : Z)
  | TBulk (s : list Z)
  | TNil
  | TArray (ts : list tree).

Fixpoint obj (t : tree) : redisReply :=
  match t with
  | TStatus s => RString REDIS_REPLY_STATUS s
  | TError s => RString REDIS_REPLY_ERROR s
  | TInt z => RInteger z
  | TBulk s => RString REDIS_REPLY_STRING s
  | TNil => RNil
  | TArray ts => RArray (zlen ts) ((fun t => Some (obj t)) <$> ts)
  end.

Definition digits (z : Z) : list Z := Util.ll2string_chars z.

(** The first byte of the encoding, and the rest. *)
Definition tag (t : tree) : Z :=
  match t with
  | TStatus _ => 43 | TError _ => 45 | TInt _ => 58 | TBulk _ | TNil => 36 | TArray _ => 42
  end.

Fixpoint body (t : tree) : list Z :=
  match t with
  | TStatus s | TError s => s ++ Client.crlf
  | TInt z => digits z ++ Client.crlf
  | TBulk s => digits (zlen s) ++ Client.crlf ++ s ++ Client.crlf
  | TNil => digits (-1) ++ Client.crlf
  | TArray ts => digits (zlen ts) ++ Client.crlf ++ concat ((fun t => tag t :: body t) <$> ts)
  end.

Definition encode (t : tree) : list Z := tag t :: body t.

(** What the reader supports: [d] is the number of levels of arrays that may still be opened. *)
Fixpoint tree_ok (d : nat) (t : tree) : Prop :=
  match t with
  | TStatus s | TError s => 13 ∉ s
  | TInt z => LLONG_MIN < z <= LLONG_MAX
  | TBulk s => zlen s <= 512 * 1024 * 1024
  | TNil => True
  | TArray ts =>
    match d with
    | O => False
    | S d => zlen ts <= INT32_MAX /\ Forall (tree_ok d) ts
    end
  end.

(** An array being read: the elements done, and those after the current one. *)
Record frame := Frame { f_done : list tree; f_rest : list tree }.
Definition context := list frame.          (* innermost first *)

(** The bytes after the current item. *)
Definition after_bytes (K : context) : list Z :=
  concat ((fun f => concat (encode <$> f_rest f)) <$> K).

(** The root object while the current slot holds [h]. *)
Fixpoint build (K : context) (h : option redisReply) : option redisReply :=
  match K with
  | [] => h
  | Frame done rest :: K =>
    build K (Some (RArray (zlen done + 1 + zlen rest)
      (((fun t => Some (obj t)) <$> done) ++ [h] ++ replicate (length rest) None)))
  end.

Definition slot (K : context) : Z := match K with [] => -1 | Frame done _ :: _ => zlen done end.

Fixpoint below (K : context) : list redisReadTask :=
  match K with
  | [] => []
  | Frame done rest :: K =>
    mkTask REDIS_REPLY_ARRAY (zlen done + 1 + zlen rest) (slot K) :: below K
  end.

(** Where the reader goes once the current item [t] is complete. *)
Fixpoint next (K : context) (t : tree) : tree + (tree * context) :=
  match K with
  | [] => inl t
  | Frame done rest :: K =>
    match rest with
    | [] => next K (TArray (done ++ [t]))
    | t' :: rest => inr (t', Frame (done ++ [t]) rest :: K)
    end
  end.

(** The reader is about to read [t] in [K]; [ty] is [-1] or the type read from its tag. *)
Record at_item r (K : context) (t : tree) (ty : Z) : Prop := {
  ai_err : err r = 0;
  ai_buf : buf r <> None;
  ai_pos : 0 <= pos r <= len r;
  ai_stack : rstack r = mkTask ty (-1) (slot K) :: below K;
  ai_reply : reply r = build K None;
  ai_type : ty = -1 \/ reply_type (tag t) = Some ty;
}.

Lemma text_len r : 0 <= pos r <= len r -> zlen (text r) = len r - pos r.
Proof. unfold text, len, zlen. rewrite length_drop. lia. Qed.

(** The path to the current slot, from the root. *)
Definition frame_idx (f : frame) : Z := zlen (f_done f).
Definition slots (K : context) : list Z := reverse (frame_idx <$> K).

Lemma slots_cons f K : slots (f :: K) = slots K ++ [frame_idx f].
Proof. unfold slots. by rewrite fmap_cons, reverse_cons. Qed.

Lemma path_below K cur : idx cur = slot K -> path (cur :: below K) = slots K.
Proof.
  unfold path. revert cur. induction K as [|[dn rest] K IH]; intros cur Hc; [done|].
  specialize (IH (mkTask REDIS_REPLY_ARRAY (zlen dn + 1 + zlen rest) (slot K)) eq_refl).
  rewrite slots_cons, <- IH. cbn [below]. rewrite !fmap_cons, !reverse_cons, Hc.
  by destruct (reverse (idx <$> below K)).
Qed.

(** *** Filling the current slot *)

Lemma build_some K o : exists root, build K (Some o) = Some root.
Proof. revert o. induction K as [|[dn rest] K IH]; intros o; [by eexists|apply IH]. Qed.

Lemma set_at_slot n (a : list (option redisReply)) h b q o x i :
  i = zlen a -> match q with [] => Some x | _ :: _ => o' ← h; set_at o' q x end = Some o ->
  set_at (RArray n (a ++ [h] ++ b)) (i :: q) x = Some (RArray n (a ++ [Some o] ++ b)).
Proof.
  intros -> Hq. cbn [set_at]. rewrite (proj2 (Z.ltb_ge (zlen a) 0)) by apply zlen_nonneg.
  unfold zlen. rewrite Nat2Z.id. cbn [app].
  rewrite list_lookup_middle by done. cbv beta iota. rewrite Hq. cbn [mbind option_bind].
  by rewrite insert_app_r_alt, Nat.sub_diag by done.
Qed.

Lemma set_at_context K q o o' x root :
  build K (Some o) = Some root -> set_at o q x = Some o' ->
  set_at root (slots K ++ q) x = build K (Some o').
Proof.
  revert q o o'. induction K as [|[dn rest] K IH]; intros q o o' Hb Hs; cbn [build] in *.
  { injection Hb as <-. done. }
  rewrite slots_cons, <- app_assoc. eapply IH; [exact Hb|].
  unfold frame_idx. cbn [f_done].
  apply set_at_slot; [unfold zlen; by rewrite length_fmap|]. destruct q; exact Hs.
Qed.

Lemma set_at_hole f K x :
  exists root, build (f :: K) None = Some root /\ set_at root (slots (f :: K)) x = build (f :: K) (Some x).
Proof.
  destruct f as [dn rest]. cbn [build].
  set (o := RArray _ (_ ++ [None] ++ _)). destruct (build_some K o) as [root Hr]. exists root.
  split; [done|]. rewrite slots_cons. eapply set_at_context; [exact Hr|]. unfold o, frame_idx. cbn [f_done].
  apply set_at_slot; [unfold zlen; by rewrite length_fmap|done].
Qed.

Lemma install_at r K cur x :
  rstack r = cur :: below K -> idx cur = slot K -> reply r = build K None ->
  install x r = Ok (set_reply (build K (Some x)) r).
Proof.
  intros Hs Hi Hr. unfold install. rewrite Hs, path_below by done.
  destruct K as [|f K]; [done|]. destruct (set_at_hole f K x) as (root & Hb & Hset).
  rewrite Hr, Hb. destruct (slots (f :: K)) as [|i p] eqn:E.
  { rewrite slots_cons in E. by destruct (slots K). }
  rewrite Hset. destruct f as [dn rest]. cbn [build]. by destruct (build_some K (RArray (zlen dn + 1 + zlen rest)
    (((fun t => Some (obj t)) <$> dn) ++ [Some x] ++ replicate (length rest) None))) as [root' ->].
Qed.

(** *** Moving on *)

Lemma move_next K t cur :
  idx cur = slot K ->
  match next K t with
  | inl t' => move_stack (cur :: below K) = Ok [] /\ build K (Some (obj t)) = Some (obj t')
  | inr (t', K') =>
      move_stack (cur :: below K) = Ok (mkTask (-1) (-1) (slot K') :: below K') /\
      build K (Some (obj t)) = build K' None
  end.
Proof.
  revert t cur. induction K as [|[dn rest] K IH]; intros t cur Hc; [done|].
  cbn [next below build move_stack]. cbn [type elements]. rewrite Hc. cbn [slot negb].
  change (REDIS_REPLY_ARRAY =? REDIS_REPLY_ARRAY) with true. cbn [negb].
  destruct rest as [|t' rest].
  - rewrite zlen_nil. rewrite (proj2 (Z.eqb_eq (zlen dn) _)) by lia.
    specialize (IH (TArray (dn ++ [t])) (mkTask REDIS_REPLY_ARRAY (zlen dn + 1 + 0) (slot K)) eq_refl).
    assert (obj (TArray (dn ++ [t])) = RArray (zlen dn + 1 + 0)
      (((fun t => Some (obj t)) <$> dn) ++ [Some (obj t)] ++ [])) as Ho.
    { cbn [obj]. rewrite fmap_app, zlen_app. f_equal. unfold zlen; simpl; lia. }
    rewrite Ho in IH. exact IH.
  - rewrite zlen_cons. pose proof (zlen_nonneg rest).
    rewrite (proj2 (Z.eqb_neq _ _)), (proj2 (Z.ltb_lt _ _)) by lia. cbn [slot below build].
    rewrite zlen_app, zlen_cons, zlen_nil.
    replace (zlen dn + (1 + 0)) with (zlen dn + 1) by lia.
    replace (zlen dn + 1 + (1 + zlen rest)) with (zlen dn + 1 + 1 + zlen rest) by lia.
    split; [done|]. by rewrite fmap_app, <- app_assoc.
Qed.


(** *** Lines and numbers *)

(** The offset of the first CR LF. *)
Fixpoint first_crlf (s : list Z) : option Z :=
  match s with
  | x :: s' =>
    match s' with
    | y :: _ => if (x =? 13) && (y =? 10) then Some 0 else n ← first_crlf s'; Some (n + 1)
    | [] => None
    end
  | [] => None
  end.

Lemma seek_loop_first inner s pos :
  seek_loop inner s pos (pos + zlen s - 1) = (n ← first_crlf s; Some (pos + n)).
Proof.
  revert inner pos. induction s as [|x s IH]; intros inner pos; cbn [seek_loop].
  { by destruct (inner || _). }
  replace (pos + zlen (x :: s) - 1) with (pos + 1 + zlen s - 1) by (rewrite zlen_cons; lia). rewrite !IH.
  destruct s as [|y s].
  { rewrite zlen_nil. destruct inner, (Z.ltb_spec pos (pos + 1 + 0 - 1)); try lia; cbn; by destruct (x =? 13). }
  rewrite zlen_cons. pose proof (zlen_nonneg s). rewrite (proj2 (Z.ltb_lt pos _)) by lia. rewrite orb_true_r.
  change (first_crlf (x :: y :: s)) with
    (if (x =? 13) && (y =? 10) then Some 0 else n ← first_crlf (y :: s); Some (n + 1)).
  change (default 0 (list.head (y :: s))) with y.
  destruct (x =? 13), (y =? 10); cbn [negb andb]; [cbn; f_equal; lia|..];
    destruct (first_crlf (y :: s)); cbn; try done; f_equal; lia.
Qed.

(** On less than 2 GB the int is the length, and the search finds the first CR LF. *)
Lemma seekNewline_first s : zlen s < 2 ^ 31 -> seekNewline s = first_crlf s.
Proof.
  intros Hs. unfold seekNewline. pose proof (zlen_nonneg s). change (2 ^ 31) with 2147483648 in Hs.
  destruct s as [|x s]; [reflexivity|]. assert (1 <= zlen (x :: s)) by (rewrite zlen_cons; pose proof (zlen_nonneg s); lia).
  rewrite uwrap_id by (unfold in_uint; simpl; lia). rewrite swrap_id by (unfold in_int; simpl; lia).
  replace (zlen (x :: s) - 1) with (0 + zlen (x :: s) - 1) by lia.
  rewrite seek_loop_first. by destruct (first_crlf _).
Qed.

Lemma first_crlf_bound s n : first_crlf s = Some n -> 0 <= n /\ n + 2 <= zlen s.
Proof.
  revert n. induction s as [|x [|y s] IH]; intros n; [done..|].
  change (first_crlf (x :: y :: s)) with
    (if (x =? 13) && (y =? 10) then Some 0 else n ← first_crlf (y :: s); Some (n + 1)).
  rewrite (zlen_cons x). destruct ((x =? 13) && (y =? 10)).
  - intros [= <-]. rewrite zlen_cons. pose proof (zlen_nonneg s). lia.
  - destruct (first_crlf (y :: s)) as [m|]; [|done]. intros [= <-]. specialize (IH m eq_refl). lia.
Qed.

(** [len+2] does not overflow there. *)
Lemma readLine_first r :
  zlen (text r) < 2 ^ 31 ->
  readLine r = Ok (n ← first_crlf (text r); Some (text r, n, set_pos (pos r + (n + 2)) r)).
Proof.
  intros Hs. unfold readLine. rewrite seekNewline_first by done.
  destruct (first_crlf (text r)) as [n|] eqn:E; [|done]. apply first_crlf_bound in E.
  change (2 ^ 31) with 2147483648 in Hs. cbn [mbind option_bind].
  rewrite decide_True by (unfold in_int; simpl; lia). done.
Qed.

Lemma seek_plain h : 13 ∉ h -> first_crlf h = None.
Proof.
  induction h as [|x h IH]; intros Hh; [done|]. apply not_elem_of_cons in Hh as [Hx Hh].
  specialize (IH Hh). destruct h as [|y h]; [done|].
  change (first_crlf (x :: y :: h)) with
    (if (x =? 13) && (y =? 10) then Some 0 else n ← first_crlf (y :: h); Some (n + 1)).
  rewrite (proj2 (Z.eqb_neq x 13)) by done. by rewrite IH.
Qed.

Lemma seek_cr h : 13 ∉ h -> first_crlf (h ++ [13]) = None.
Proof.
  induction h as [|x h IH]; intros Hh; [done|]. apply not_elem_of_cons in Hh as [Hx Hh].
  specialize (IH Hh). cbn [app]. destruct (h ++ [13]) as [|y l] eqn:E; [by destruct h|].
  change (first_crlf (x :: y :: l)) with
    (if (x =? 13) && (y =? 10) then Some 0 else n ← first_crlf (y :: l); Some (n + 1)).
  rewrite (proj2 (Z.eqb_neq x 13)) by done. by rewrite IH.
Qed.

Lemma seek_found h t : 13 ∉ h -> first_crlf (h ++ Client.crlf ++ t) = Some (zlen h).
Proof.
  induction h as [|x h IH]; intros Hh; [done|]. apply not_elem_of_cons in Hh as [Hx Hh].
  specialize (IH Hh). cbn [app]. destruct (h ++ Client.crlf ++ t) as [|y l] eqn:E; [by destruct h|].
  change (first_crlf (x :: y :: l)) with
    (if (x =? 13) && (y =? 10) then Some 0 else n ← first_crlf (y :: l); Some (n + 1)).
  rewrite (proj2 (Z.eqb_neq x 13)) by done. rewrite IH. cbn. f_equal. rewrite zlen_cons. lia.
Qed.

(** With more than 2 GB in the buffer the int is negative, and no line is ever found. *)
Lemma seekNewline_truncates s : 2 ^ 31 < zlen s <= 2 ^ 32 -> seekNewline s = None.
Proof.
  intros Hs. change (2 ^ 31) with 2147483648 in Hs. change (2 ^ 32) with 4294967296 in Hs.
  unfold seekNewline. rewrite uwrap_id by (unfold in_uint; simpl; lia).
  assert (swrap 32 (zlen s - 1) = zlen s - 1 - 4294967296) as ->.
  { unfold swrap. change (2 ^ (32 - 1)) with 2147483648. change (2 ^ 32) with 4294967296.
    rewrite <- (Z.mod_add _ (-1)), Z.mod_small by lia. lia. }
  destruct s as [|x s]; [done|]. cbn [seek_loop orb]. by rewrite (proj2 (Z.ltb_ge 0 _)) by lia.
Qed.

(** What has arrived of a line: not all of it, or the line with what follows. *)
Lemma seek_cases h x b w :
  13 ∉ h -> b ++ w = h ++ Client.crlf ++ x ->
  (first_crlf b = None /\ w <> [] /\ zlen b < zlen h + 2) \/
  (exists b', b = h ++ Client.crlf ++ b' /\ b' ++ w = x /\ first_crlf b = Some (zlen h)).
Proof.
  intros Hh H. assert (Hw : zlen b < zlen h + 2 -> w <> []).
  { intros Hl ->. apply (f_equal zlen) in H. rewrite !zlen_app, zlen_nil in H.
    change (zlen Client.crlf) with 2 in H. pose proof (zlen_nonneg x). lia. }
  destruct (Z_le_gt_dec (zlen b) (zlen h)) as [Hl|Hl].
  { left. split_and!; [|apply Hw; lia|lia].
    destruct (Client.app_split h (Client.crlf ++ x) b w (eq_sym H) Hl) as (h' & -> & _).
    apply not_elem_of_app in Hh as [Hb _]. by apply seek_plain. }
  destruct (Client.app_split b w h (Client.crlf ++ x) H ltac:(lia)) as (b1 & -> & H1).
  rewrite zlen_app in *. destruct b1 as [|x1 b1]; [unfold zlen in Hl; simpl in Hl; lia|].
  injection H1 as -> H1. rewrite zlen_cons in *. destruct b1 as [|x2 b1]; [left|right].
  - rewrite zlen_nil in *. split_and!; [by apply seek_cr|apply Hw; lia|lia].
  - injection H1 as -> H1. exists b1. split_and!; [done|done|by apply (seek_found h b1)].
Qed.

Lemma longlong_digits ds t v :
  Util.all_digits ds -> 0 <= v -> Util.dec_value v ds <= LLONG_MAX ->
  longlong_loop (ds ++ 13 :: t) v = Ok (Some (Util.dec_value v ds)).
Proof.
  revert v. induction ds as [|d ds IH]; intros v Hd Hv Hm; [done|].
  apply Forall_cons_iff in Hd as [Hd0 Hd]. cbn [app longlong_loop Util.dec_value] in *.
  unfold Util.cZERO, Util.cNINE in *.
  pose proof (Util.dec_value_ge ds (10 * v + (d - 48)) Hd ltac:(lia)). unfold LLONG_MAX in Hm.
  rewrite (proj2 (Z.eqb_neq d 13)) by lia.
  rewrite (proj2 (Z.leb_le _ _)), (proj2 (Z.ltb_lt _ _)) by lia. cbn [andb].
  assert (H64 : forall z, 0 <= z <= LLONG_MAX -> in64 z = Ok z).
  { intros z Hz. unfold in64. rewrite decide_True; [done|]. unfold in_int, LLONG_MAX in *. simpl. lia. }
  unfold LLONG_MAX in H64.
  rewrite !H64 by lia. cbn [mbind outcome_bind]. rewrite H64 by lia. cbn [mbind outcome_bind].
  replace (v * 10 + (d - 48)) with (10 * v + (d - 48)) by lia. apply IH; [exact Hd|lia|exact Hm].
Qed.

Lemma readLongLong_digits z t :
  LLONG_MIN < z <= LLONG_MAX -> readLongLong (digits z ++ Client.crlf ++ t) = Ok z.
Proof.
  intros Hz. unfold LLONG_MIN, LLONG_MAX in Hz.
  assert (in_int 64 z) as Hi by (unfold in_int; simpl; lia).
  destruct (Util.ll2string_chars_shape z Hi) as (ds & Hc & Hd & Hv & Hlead & Hzero).
  assert (Hdone : in64 z = Ok z) by (unfold in64; by rewrite decide_True).
  assert (exists d ds', ds = d :: ds' /\ 48 <= d <= 57) as (d & ds' & -> & Hdr).
  { unfold Util.all_digits, Util.cZERO, Util.cNINE in *.
    destruct (Z.eq_dec z 0) as [H0|H0]; [rewrite (Hzero H0); by exists 48, []|].
    destruct (Hlead H0) as (d & ds' & -> & _). exists d, ds'. split; [done|]. apply Forall_cons_iff in Hd as [Hd _]. lia. }
  unfold digits. rewrite Hc. unfold readLongLong, Util.cMINUS.
  destruct (Z.ltb_spec z 0).
  - cbn [app head list.head mbind outcome_bind Z.eqb Pos.eqb tail list.tail].
    change (d :: ds' ++ Client.crlf ++ t) with ((d :: ds') ++ 13 :: 10 :: t).
    rewrite longlong_digits by (done || unfold LLONG_MAX; lia). cbn [mbind outcome_bind]. rewrite Hv.
    replace (-1 * Z.abs z) with z by lia. done.
  - cbn [app head list.head mbind outcome_bind].
    rewrite (proj2 (Z.eqb_neq d 45)), (proj2 (Z.eqb_neq d 43)) by lia.
    change (d :: ds' ++ Client.crlf ++ t) with ((d :: ds') ++ 13 :: 10 :: t).
    rewrite longlong_digits by (done || unfold LLONG_MAX; lia). cbn [mbind outcome_bind]. rewrite Hv.
    replace (1 * Z.abs z) with z by lia. done.
Qed.

Lemma digits_plain z : in_int 64 z -> 13 ∉ digits z.
Proof.
  intros Hz. destruct (Util.ll2string_chars_shape z Hz) as (ds & Hc & Hd & _).
  unfold digits. rewrite Hc. unfold Util.all_digits, Util.cZERO, Util.cNINE, Util.cMINUS in *.
  rewrite List.Forall_forall in Hd.
  assert (13 ∉ ds) by (intros Hin; apply list_elem_of_In, Hd in Hin; lia).
  destruct (z <? 0); [by apply not_elem_of_cons|done].
Qed.

(** *** One item *)

(** The levels of arrays that can still be opened in [K]. *)
Definition levels (K : context) : nat := 8 - length K.

Fixpoint context_ok (K : context) : Prop :=
  match K with
  | [] => True
  | Frame _ rest :: K' => Forall (tree_ok (levels K)) rest /\ context_ok K'
  end.

Record good (K : context) (t : tree) : Prop := {
  go_context : context_ok K;
  go_depth : (length K <= 8)%nat;
  go_tree : tree_ok (levels K) t;
}.

(** The bytes that are still to be read, [X] being those of the following replies. *)
Definition remaining (K : context) (t : tree) (ty : Z) (X : list Z) : list Z :=
  (if ty <? 0 then [tag t] else []) ++ body t ++ after_bytes K ++ X.

Lemma next_good K t :
  context_ok K -> (length K <= 8)%nat ->
  match next K t with
  | inl _ => after_bytes K = []
  | inr (t', K') => good K' t' /\ after_bytes K = encode t' ++ after_bytes K'
  end.
Proof.
  revert t. induction K as [|[dn rest] K IH]; intros t Hc Hl; [done|].
  cbn [next context_ok] in *. destruct Hc as [Hr Hc]. simpl in Hl.
  destruct rest as [|t' rest].
  - specialize (IH (TArray (dn ++ [t])) Hc ltac:(lia)). exact IH.
  - apply Forall_cons_iff in Hr as [Ht Hr]. split.
    + split; [by split|simpl; lia|exact Ht].
    + unfold after_bytes. cbn [fmap list_fmap concat f_rest]. by rewrite <- app_assoc.
Qed.

(** After an item: the reply is complete, or the next item comes. *)
Definition arrives r (o : tree + (tree * context)) (w X : list Z) : Prop :=
  match o with
  | inl t => err r = 0 /\ buf r <> None /\ 0 <= pos r <= len r /\ rstack r = [] /\
      reply r = Some (obj t) /\ text r ++ w = X
  | inr (t, K) => at_item r K t (-1) /\ good K t /\ text r ++ w = remaining K t (-1) X
  end.

Definition after_item (K : context) (t : tree) : tree + (tree * context) :=
  match t with
  | TArray (t1 :: ts) => inr (t1, Frame [] ts :: K)
  | _ => next K t
  end.

(** The reader stands before the bytes [bytes], the rest of which is still to come ([w]). *)
Record ready r (K : context) (cur : redisReadTask) (w bytes : list Z) : Prop := {
  rd_err : err r = 0;
  rd_buf : buf r <> None;
  rd_pos : 0 <= pos r <= len r;
  rd_stack : rstack r = cur :: below K;
  rd_idx : idx cur = slot K;
  rd_reply : reply r = build K None;
  rd_text : text r ++ w = bytes;
}.

(** Skipping bytes that have arrived. *)
Lemma ready_skip r K cur w a b b' :
  ready r K cur w b -> text r = a ++ b' ->
  ready (set_pos (pos r + zlen a) r) K cur w (b' ++ w) /\ len r = pos r + zlen a + zlen b'.
Proof.
  intros [] Ht. pose proof (text_len r rd_pos0) as Hl. rewrite Ht, zlen_app in Hl.
  pose proof (zlen_nonneg a). pose proof (zlen_nonneg b'). split; [|lia].
  split; try done.
  - change (len (set_pos _ r)) with (len r). cbn. lia.
  - f_equal. change (drop (Z.to_nat (pos r + zlen a)) (contents r) = b'). unfold text in Ht.
    replace (Z.to_nat (pos r + zlen a)) with (Z.to_nat (pos r) + length a)%nat by (unfold zlen; lia).
    rewrite <- drop_drop, Ht. apply drop_app_length.
Qed.

Section Items.
Context (alloc : Z -> bool) (Halloc : forall n, alloc n = true).

Lemma finish_leaf r K cur w t X :
  context_ok K -> (length K <= 8)%nat ->
  ready r K cur w (after_bytes K ++ X) ->
  exists r', finish (Some (obj t)) r = Ok (r', true) /\ contents r' = contents r /\ pos r' = pos r /\
    arrives r' (next K t) w X.
Proof.
  intros Hc Hl []. unfold finish. erewrite install_at by eassumption. cbn [mbind outcome_bind].
  unfold moveToNextTask. cbn [rstack set_reply]. rewrite rd_stack0.
  pose proof (move_next K t cur rd_idx0) as Hm. pose proof (next_good K t Hc Hl) as Hg.
  destruct (next K t) as [t'|[t' K']].
  - destruct Hm as [-> Hb]. cbn [mbind outcome_bind]. eexists. split; [done|]. split_and!; [done|done|].
    rewrite Hg in rd_text0. cbn. by rewrite Hb.
  - destruct Hm as [-> Hb]. destruct Hg as [Hg Hbytes]. cbn [mbind outcome_bind].
    eexists. split; [done|]. split_and!; [done|done|]. unfold arrives. split_and!; [|done|].
    + split; cbn; try done; by left.
    + change (text r ++ w = remaining K' t' (-1) X).
      by rewrite rd_text0, Hbytes, <- app_assoc.
Qed.

Lemma ok_bind {A B} (x : A) (f : A -> outcome B) : (Ok x ≫= f) = f x.
Proof. done. Qed.

Ltac alloc_ok :=
  unfold createStringObject, createIntegerObject, createNilObject, createArrayObject;
  rewrite !Halloc; cbn [andb orb]; rewrite ?orb_true_r.

Lemma line_step r K cur w h X t :
  context_ok K -> (length K <= 8)%nat -> 13 ∉ h ->
  ready r K cur w (h ++ Client.crlf ++ after_bytes K ++ X) ->
  (forall l, (type cur =? REDIS_REPLY_INTEGER) = true ->
    readLongLong (h ++ Client.crlf ++ l) = Ok match obj t with RInteger v => v | _ => 0 end) ->
  obj t = (if type cur =? REDIS_REPLY_INTEGER
           then RInteger match obj t with RInteger v => v | _ => 0 end
           else RString (type cur) h) ->
  zlen (text r) < 2 ^ 31 ->
  (processLineItem alloc cur r = Ok (r, false) /\ w <> []) \/
  exists r', processLineItem alloc cur r = Ok (r', true) /\ contents r' = contents r /\
    pos r < pos r' /\ arrives r' (next K t) w X.
Proof.
  intros Hc Hl Hh Hr Hint Ho Hlt. unfold processLineItem. rewrite readLine_first, ok_bind by done.
  destruct (seek_cases h (after_bytes K ++ X) (text r) w Hh (rd_text _ _ _ _ _ Hr))
    as [(-> & Hw & _)|(b' & Ht & Hb & ->)]; [by left|right]. cbn [mbind option_bind].
  destruct (ready_skip r K cur w (h ++ Client.crlf) _ b' Hr) as [Hr' _]; [by rewrite <- app_assoc|].
  rewrite Hb in Hr'. rewrite zlen_app in Hr'. change (zlen Client.crlf) with 2 in Hr'.
  destruct (finish_leaf _ K cur w t X Hc Hl Hr') as (r' & E & Hcon & Hp & Harr).
  exists r'. split; [|split; [exact Hcon|split; [rewrite Hp; cbn; pose proof (zlen_nonneg h); lia|done]]].
  rewrite <- E. destruct (type cur =? REDIS_REPLY_INTEGER) eqn:Ety.
  - rewrite Ht, Hint by done. rewrite !ok_bind. alloc_ok. by rewrite Ho at 2.
  - rewrite ok_bind. alloc_ok. rewrite Ht. unfold zlen. rewrite Nat2Z.id, take_app_length.
    by rewrite <- Ho.
Qed.

Lemma bulk_step r K cur w s X :
  context_ok K -> (length K <= 8)%nat -> zlen s <= 512 * 1024 * 1024 -> len r < 2 ^ 31 ->
  ready r K cur w (body (TBulk s) ++ after_bytes K ++ X) ->
  (processBulkItem alloc cur r = Ok (r, false) /\ w <> []) \/
  exists r', processBulkItem alloc cur r = Ok (r', true) /\ contents r' = contents r /\
    pos r < pos r' /\ arrives r' (next K (TBulk s)) w X.
Proof.
  intros Hc Hl Hs Hlen Hr. pose proof (zlen_nonneg s). cbn [body] in Hr. unfold processBulkItem.
  rewrite seekNewline_first by (rewrite text_len by apply Hr; pose proof (rd_pos _ _ _ _ _ Hr); lia).
  set (ds := digits (zlen s)) in *.
  assert (13 ∉ ds) as Hds by (apply digits_plain; unfold in_int; simpl; lia).
  pose proof Hr as [_ _ Hpos _ _ _ Htx]. rewrite <- !app_assoc in Htx.
  destruct (seek_cases ds _ (text r) w Hds Htx) as [(-> & Hw & _)|(b' & Ht & Hb & ->)]; [by left|].
  assert (readLongLong (text r) = Ok (zlen s)) as ->
    by (rewrite Ht; apply readLongLong_digits; unfold LLONG_MIN, LLONG_MAX; lia).
  rewrite ok_bind. rewrite (proj2 (Z.ltb_ge (zlen s) 0)) by lia.
  assert (in64 (zlen s + 2) = Ok (zlen s + 2)) as ->
    by (unfold in64; rewrite decide_True; [done|unfold in_int; simpl; lia]).
  rewrite ok_bind.
  assert (Hln : len r = pos r + zlen ds + 2 + zlen b').
  { pose proof (text_len r Hpos) as Htl. rewrite Ht, !zlen_app in Htl. change (zlen Client.crlf) with 2 in Htl. lia. }
  pose proof (zlen_nonneg ds). pose proof (zlen_nonneg b'). change (2 ^ 31) with 2147483648 in Hlen.
  rewrite (uwrap_id 64 (zlen ds + 2 + (zlen s + 2))) by (unfold in_uint; simpl; lia).
  rewrite uwrap_id by (unfold in_uint; simpl; lia).
  destruct (Z.leb_spec (pos r + (zlen ds + 2 + (zlen s + 2))) (len r)) as [Hge|Hlt].
  - right. destruct (Client.app_split b' w (s ++ Client.crlf) (after_bytes K ++ X)) as (b2 & -> & Hb2).
    { by rewrite Hb, <- !app_assoc. }
    { rewrite zlen_app. change (zlen Client.crlf) with 2. lia. }
    assert (load (contents r) (pos r + zlen ds + 2) (zlen s) = Some s) as ->.
    { replace (contents r) with ((take (Z.to_nat (pos r)) (contents r) ++ ds ++ Client.crlf) ++ s ++ Client.crlf ++ b2).
      - apply load_app; [|done]. rewrite !zlen_app. change (zlen Client.crlf) with 2.
        unfold zlen, len, zlen in *. rewrite length_take. lia.
      - rewrite <- !app_assoc. rewrite <- (app_assoc s) in Ht. rewrite <- Ht. unfold text. apply take_drop. }
    destruct (ready_skip r K cur w (ds ++ Client.crlf ++ s ++ Client.crlf) _ b2 Hr) as [Hr' _];
      [by rewrite Ht, <- !app_assoc|].
    rewrite Hb2 in Hr'. rewrite !zlen_app in Hr'. change (zlen Client.crlf) with 2 in Hr'.
    destruct (finish_leaf _ K cur w (TBulk s) X Hc Hl Hr') as (r' & E & Hcon & Hp & Harr).
    exists r'. split; [|split; [exact Hcon|split; [rewrite Hp; cbn; lia|done]]].
    rewrite <- E. alloc_ok. cbn [obj]. do 2 f_equal. lia.
  - left. split; [done|]. intros ->. rewrite app_nil_r in Hb. rewrite Hb, !zlen_app in Hln.
    change (zlen Client.crlf) with 2 in Hln.
    pose proof (zlen_nonneg (after_bytes K)). pose proof (zlen_nonneg X). lia.
Qed.
Lemma nil_step r K cur w X :
  context_ok K -> (length K <= 8)%nat -> zlen (text r) < 2 ^ 31 ->
  ready r K cur w (body TNil ++ after_bytes K ++ X) ->
  (processBulkItem alloc cur r = Ok (r, false) /\ w <> []) \/
  exists r', processBulkItem alloc cur r = Ok (r', true) /\ contents r' = contents r /\
    pos r < pos r' /\ arrives r' (next K TNil) w X.
Proof.
  intros Hc Hl Hlt Hr. cbn [body] in Hr. unfold processBulkItem. rewrite seekNewline_first by done.
  assert (13 ∉ digits (-1)) as Hds by (apply digits_plain; unfold in_int; simpl; lia).
  pose proof Hr as [_ _ Hpos _ _ _ Htx]. rewrite <- !app_assoc in Htx.
  destruct (seek_cases _ _ (text r) w Hds Htx) as [(-> & Hw & _)|(b' & Ht & Hb & ->)]; [by left|right].
  assert (readLongLong (text r) = Ok (-1)) as ->
    by (rewrite Ht; apply readLongLong_digits; unfold LLONG_MIN, LLONG_MAX; lia).
  rewrite ok_bind. cbn [Z.ltb Z.compare].
  destruct (ready_skip r K cur w (digits (-1) ++ Client.crlf) _ b' Hr) as [Hr' _]; [by rewrite <- app_assoc|].
  rewrite Hb in Hr'. change (zlen (digits (-1) ++ Client.crlf)) with 4 in Hr'.
  destruct (finish_leaf _ K cur w TNil X Hc Hl Hr') as (r' & E & Hcon & Hp & Harr).
  exists r'. split; [|split; [exact Hcon|split; [rewrite Hp; cbn; lia|done]]].
  rewrite <- E. alloc_ok. done.
Qed.

Lemma array_step r K cur w ts X :
  good K (TArray ts) -> type cur = REDIS_REPLY_ARRAY -> zlen (text r) < 2 ^ 31 ->
  ready r K cur w (body (TArray ts) ++ after_bytes K ++ X) ->
  (processMultiBulkItem alloc cur r = Ok (r, false) /\ w <> []) \/
  exists r', processMultiBulkItem alloc cur r = Ok (r', true) /\ contents r' = contents r /\
    pos r < pos r' /\ arrives r' (after_item K (TArray ts)) w X.
Proof.
  intros [Hc Hl Hok] Hty Hlt Hr. unfold levels in Hok.
  destruct (8 - length K)%nat as [|d] eqn:Ed; [done|]. destruct Hok as [Hn Hts]. fold tree_ok in Hts.
  pose proof (zlen_nonneg ts). unfold INT32_MAX in Hn. unfold processMultiBulkItem, ridx.
  rewrite (rd_stack _ _ _ _ _ Hr). rewrite zlen_cons.
  assert (zlen (below K) = Z.of_nat (length K)) as ->.
  { clear. unfold zlen. f_equal. induction K as [|[dn rest] K IH]; [done|]. simpl. by rewrite IH. }
  rewrite (proj2 (Z.eqb_neq _ 8)) by lia. cbn [body] in Hr. rewrite readLine_first, ok_bind by done.
  assert (13 ∉ digits (zlen ts)) as Hds by (apply digits_plain; unfold in_int; simpl; lia).
  pose proof Hr as [_ _ Hpos _ _ _ Htx]. rewrite <- !app_assoc in Htx.
  destruct (seek_cases _ _ (text r) w Hds Htx) as [(-> & Hw & _)|(b' & Ht & Hb & ->)]; [by left|right].
  cbn [mbind option_bind].
  assert (readLongLong (text r) = Ok (zlen ts)) as ->
    by (rewrite Ht; apply readLongLong_digits; unfold LLONG_MIN, LLONG_MAX; lia).
  rewrite ok_bind. rewrite (proj2 (Z.eqb_neq (zlen ts) (-1))) by lia.
  rewrite swrap_id by (unfold in_int; simpl; lia). alloc_ok.
  rewrite uwrap_id by (unfold in_uint; simpl; lia).
  destruct (ready_skip r K cur w (digits (zlen ts) ++ Client.crlf) _ b' Hr) as [Hr' _]; [by rewrite <- app_assoc|].
  rewrite Hb, zlen_app in Hr'. change (zlen Client.crlf) with 2 in Hr'.
  set (r1 := set_pos _ r) in *. pose proof (zlen_nonneg (digits (zlen ts))).
  assert (Hp1 : pos r < pos r1) by (unfold r1; cbn; lia).
  destruct ts as [|t ts].
  - cbn [fmap list_fmap concat app] in Hr'.
    destruct (finish_leaf r1 K cur w (TArray []) X Hc Hl Hr') as (r' & E & Hcon & Hp & Harr).
    exists r'. split_and!; [|exact Hcon|lia|exact Harr]. rewrite <- E. unfold finish. cbn.
    by destruct (install _ r1).
  - erewrite install_at by apply Hr'. rewrite ok_bind. rewrite zlen_cons in *. pose proof (zlen_nonneg ts).
    rewrite (proj2 (Z.ltb_lt 0 _)) by lia. eexists. split; [done|]. split_and!; [done|done|].
    cbn [after_item]. unfold arrives. split_and!.
    + destruct Hr'. split; try done; [|cbn|by left].
      * cbn [rstack set_rstack set_reply]. rewrite rd_stack0, Hty, rd_idx0.
        cbn [below slot tail list.tail]. by replace (zlen (@nil tree) + 1 + zlen ts) with (1 + zlen ts) by (unfold zlen; simpl; lia).
      * rewrite zlen_nil. unfold zlen. by rewrite Z2Nat.inj_add, Nat2Z.id by lia.
    + apply Forall_cons_iff in Hts as [Ht1 Hts].
      assert (levels (Frame [] ts :: K) = d) as Hlv by (unfold levels; cbn [length]; lia).
      split; [split; [by rewrite Hlv|done]|simpl; lia|by rewrite Hlv].
    + change (text r1 ++ w = remaining (Frame [] ts :: K) t (-1) X).
      rewrite (rd_text _ _ _ _ _ Hr'). unfold remaining. cbn [fmap list_fmap concat].
      unfold after_bytes at 2. cbn [fmap list_fmap concat f_rest]. rewrite <- !app_assoc. done.
Qed.

Definition type_of (t : tree) : Z :=
  match t with
  | TStatus _ => REDIS_REPLY_STATUS | TError _ => REDIS_REPLY_ERROR | TInt _ => REDIS_REPLY_INTEGER
  | TBulk _ | TNil => REDIS_REPLY_STRING | TArray _ => REDIS_REPLY_ARRAY
  end.

Lemma dispatch_step r K t w X e :
  good K t -> len r < 2 ^ 31 ->
  ready r K (mkTask (type_of t) e (slot K)) w (body t ++ after_bytes K ++ X) ->
  let cur := mkTask (type_of t) e (slot K) in
  (dispatch alloc cur r = Ok (r, false) /\ w <> []) \/
  exists r', dispatch alloc cur r = Ok (r', true) /\ contents r' = contents r /\
    pos r < pos r' /\ arrives r' (after_item K t) w X.
Proof.
  intros Hg Hlen Hr. cbv zeta. pose proof Hg as [Hc Hl Hok].
  assert (zlen (text r) < 2 ^ 31) as Hlt by (rewrite text_len by apply Hr; pose proof (rd_pos _ _ _ _ _ Hr); lia).
  destruct t as [s|s|z|s| |ts]; cbn [type_of after_item] in *;
    unfold dispatch; cbn [type]; cbn [Z.eqb Pos.eqb orb
      REDIS_REPLY_ERROR REDIS_REPLY_STATUS REDIS_REPLY_INTEGER REDIS_REPLY_STRING REDIS_REPLY_ARRAY].
  1-3: cbn [body] in Hr; rewrite <- app_assoc in Hr.
  - apply (line_step r K _ w s); try assumption; try done. by destruct (levels K).
  - apply (line_step r K _ w s); try assumption; try done. by destruct (levels K).
  - assert (LLONG_MIN < z <= LLONG_MAX) as Hz by (by destruct (levels K)).
    apply (line_step r K _ w (digits z)); try done.
    + apply digits_plain. unfold LLONG_MIN, LLONG_MAX in Hz. unfold in_int. simpl. lia.
    + intros l _. by apply readLongLong_digits.
  - apply bulk_step; try done. by destruct (levels K).
  - by apply nil_step.
  - by apply array_step.
Qed.

Lemma reply_type_tag t ty : reply_type (tag t) = Some ty -> ty = type_of t.
Proof. destruct t; cbn; congruence. Qed.

(** Processing an item either waits for more bytes, at most having read its tag, or goes on to
    the next one. *)
Lemma processItem_step r K t ty w X :
  at_item r K t ty -> good K t -> len r < 2 ^ 31 -> text r ++ w = remaining K t ty X ->
  (exists r' ty', processItem alloc r = Ok (r', false) /\ contents r' = contents r /\ pos r <= pos r' /\
     at_item r' K t ty' /\ text r' ++ w = remaining K t ty' X /\ w <> []) \/
  exists r', processItem alloc r = Ok (r', true) /\ contents r' = contents r /\
    pos r < pos r' /\ arrives r' (after_item K t) w X.
Proof.
  intros [He Hb Hp Hs Hrp Hty] Hg Hlen Htx. unfold processItem. rewrite Hs. cbn [type].
  destruct Hty as [->|Hty].
  - cbn [Z.ltb Z.compare]. unfold readByte. unfold remaining in Htx. cbn [Z.ltb Z.compare] in Htx.
    destruct (text r) as [|c l] eqn:El.
    { left. exists r, (-1). split_and!; try done; [split; auto|by rewrite El|].
      intros ->. done. }
    injection Htx as Hc Htl. cbn [head list.head mbind option_bind].
    assert (reply_type c = Some (type_of t)) as -> by (rewrite Hc; by destruct t).
    set (r1 := set_pos _ r). cbn [elements idx].
    set (cur := mkTask (type_of t) (-1) (slot K)). set (r2 := set_rstack _ r1).
    assert (Hp2 : pos r2 = pos r + 1) by done.
    assert (Hl : len r = pos r + 1 + zlen l).
    { pose proof (text_len r Hp) as Htl'. rewrite El, zlen_cons in Htl'. lia. }
    assert (Ht2 : text r2 = l).
    { change (drop (Z.to_nat (pos r + 1)) (contents r) = l). unfold text in El.
      replace (Z.to_nat (pos r + 1)) with (Z.to_nat (pos r) + 1)%nat by lia. by rewrite <- drop_drop, El. }
    assert (Hr2 : ready r2 K cur w (body t ++ after_bytes K ++ X)).
    { split; try done; [|by rewrite Ht2]. change (len r2) with (len r). pose proof (zlen_nonneg l). lia. }
    destruct (dispatch_step r2 K t w X (-1) Hg Hlen Hr2) as [[E Hw]|(r' & E & Hcon & Hpos & Harr)];
      fold cur in E; rewrite E.
    + left. exists r2, (type_of t). split_and!; try done; [lia| |].
      * split; try done; [apply Hr2|]. right. by destruct t.
      * unfold remaining. rewrite (proj2 (Z.ltb_ge (type_of t) 0)) by (destruct t; done).
        apply Hr2.
    + right. exists r'. split_and!; try done. lia.
  - pose proof (reply_type_tag _ _ Hty) as ->.
    rewrite (proj2 (Z.ltb_ge (type_of t) 0)) by (destruct t; done).
    assert (Hr : ready r K (mkTask (type_of t) (-1) (slot K)) w (body t ++ after_bytes K ++ X)).
    { split; try done. unfold remaining in Htx.
      by rewrite (proj2 (Z.ltb_ge (type_of t) 0)) in Htx by (destruct t; done). }
    destruct (dispatch_step r K t w X (-1) Hg Hlen Hr) as [[E Hw]|(r' & E & Hcon & Hpos & Harr)];
      rewrite E; [left|right; by exists r'].
    exists r, (type_of t). split_and!; try done. split; auto.
Qed.
(** The reader waits only when a part of the current reply is still to come. *)
Lemma remaining_app K t ty X : remaining K t ty X = remaining K t ty [] ++ X.
Proof. unfold remaining. by rewrite app_nil_r, <- !app_assoc. Qed.

Lemma processItem_waits r K t ty w X r' :
  at_item r K t ty -> good K t -> len r < 2 ^ 31 -> text r ++ w = remaining K t ty X ->
  processItem alloc r = Ok (r', false) -> zlen X < zlen w.
Proof.
  intros Hat Hg Hlen Htx E. destruct (Z.ltb_spec (zlen X) (zlen w)) as [|Hle]; [done|exfalso].
  rewrite remaining_app in Htx.
  assert (exists X', text r = remaining K t ty X') as [X' HX].
  { exists (take (length X - length w) X). rewrite remaining_app.
    assert (length (text r) = length (remaining K t ty []) + (length X - length w))%nat as Hl.
    { apply (f_equal length) in Htx. rewrite !length_app in Htx. unfold zlen in Hle. lia. }
    rewrite <- (take_app_length (text r) w), Htx, Hl. apply take_app_add. }
  rewrite <- (app_nil_r (text r)) in HX.
  destruct (processItem_step r K t ty [] X' Hat Hg Hlen HX) as [(r1 & ty' & _ & _ & _ & _ & _ & Hw)|(r1 & E1 & _)]; [done|congruence].
Qed.

(** *** The loop *)

(** The whole reply of which [t] is the current item. *)
Fixpoint plug (K : context) (t : tree) : tree :=
  match K with
  | [] => t
  | Frame dn rest :: K => plug K (TArray (dn ++ t :: rest))
  end.

Lemma next_plug K t :
  match next K t with inl t' => t' = plug K t | inr (t', K') => plug K' t' = plug K t end.
Proof.
  revert t. induction K as [|[dn rest] K IH]; intros t; [done|]. cbn [next plug].
  destruct rest as [|t' rest]; [apply IH|]. cbn [plug]. by rewrite <- app_assoc.
Qed.

Lemma after_item_plug K t :
  match after_item K t with inl t' => t' = plug K t | inr (t', K') => plug K' t' = plug K t end.
Proof. pose proof (next_plug K t). destruct t as [| | | | |[|t1 ts]]; done. Qed.

(** What [items_loop] stops with. *)
Definition stopped r' K t (w X : list Z) : Prop :=
  (exists K' t' ty', at_item r' K' t' ty' /\ good K' t' /\ plug K' t' = plug K t /\
     text r' ++ w = remaining K' t' ty' X /\ zlen X < zlen w) \/
  arrives r' (inl (plug K t)) w X.

Lemma items_loop_step fuel r K t ty w X :
  at_item r K t ty -> good K t -> len r < 2 ^ 31 -> text r ++ w = remaining K t ty X ->
  len r - pos r < Z.of_nat fuel ->
  exists r', items_loop alloc fuel r = Ok r' /\ contents r' = contents r /\ pos r <= pos r' /\
    (rstack r' = [] -> pos r < pos r') /\ stopped r' K t w X.
Proof.
  revert r K t ty. induction fuel as [|fuel IH]; intros r K t ty Hat Hg Hlen Htx Hfu.
  { pose proof (ai_pos _ _ _ _ Hat). lia. }
  cbn [items_loop]. rewrite (ai_stack _ _ _ _ Hat).
  destruct (processItem_step r K t ty w X Hat Hg Hlen Htx)
    as [(r' & ty' & E & Hcon & Hpos & Hat' & Htx' & _)|(r' & E & Hcon & Hpos & Harr)]; rewrite E, ok_bind.
  - pose proof (processItem_waits r K t ty w X r' Hat Hg Hlen Htx E) as Hw. exists r'. split_and!; try done; [by rewrite (ai_stack _ _ _ _ Hat')|]. left. by exists K, t, ty'.
  - assert (len r' = len r) as Hl by (unfold len; by rewrite Hcon).
    pose proof (after_item_plug K t) as Hpl. destruct (after_item K t) as [t'|[t' K']].
    + subst t'. pose proof Harr as (_ & _ & _ & Hs & _). exists r'.
      split_and!; try done; [|lia|by right]. destruct fuel; cbn [items_loop]; by rewrite Hs.
    + destruct Harr as (Hat' & Hg' & Htx').
      destruct (IH r' K' t' (-1) Hat' Hg' ltac:(lia) Htx' ltac:(lia)) as (r2 & E2 & Hcon2 & Hpos2 & Hne & Hst).
      exists r2. split_and!; [done|congruence|lia|intros; specialize (Hne ltac:(done)); lia|].
      unfold stopped in *. by rewrite <- Hpl.
Qed.

(** *** Replies one after the other *)

Definition stream (ts : list tree) : list Z := concat (encode <$> ts).

Definition root_task : redisReadTask := mkTask (-1) (-1) (-1).

(** The reader between two calls: [ts] are the replies still to be delivered. *)
Record waits r (ts : list tree) (w : list Z) : Prop := {
  wa_err : err r = 0;
  wa_buf : buf r <> None;
  wa_pos : 0 <= pos r <= len r;
  wa_ok : Forall (tree_ok 8) ts;
  wa_state :
    (rstack r = [] \/ rstack r = [root_task]) /\ reply r = None /\ text r ++ w = stream ts \/
    exists K t ty ts', at_item r K t ty /\ good K t /\ ts = plug K t :: ts' /\
      text r ++ w = remaining K t ty (stream ts');
}.

Lemma remaining_cons K t ty X : exists x l, remaining K t ty X = x :: l.
Proof.
  unfold remaining. destruct (ty <? 0); [by eexists _, _|]. cbn [app].
  assert (exists x l, body t = x :: l) as (x & l & ->); [|by eexists _, _].
  destruct t as [s|s|z|s| |ts]; cbn [body]; [destruct s|destruct s|destruct (digits z)|
    destruct (digits (zlen s))|destruct (digits (-1))|destruct (digits (zlen ts))]; by eexists _, _.
Qed.

(** What is left of a reply is not more than the reply. *)
Lemma remaining_plug K t ty : zlen (remaining K t ty []) <= zlen (encode (plug K t)).
Proof.
  transitivity (zlen (encode t ++ after_bytes K)).
  { unfold remaining, encode. rewrite app_nil_r. destruct (ty <? 0); rewrite !zlen_app, !zlen_cons, ?zlen_nil, ?zlen_app; pose proof (zlen_nonneg (body t)); change (zlen []) with 0; lia. }
  revert t. induction K as [|[dn rest] K IH]; intros t; cbn [plug]; [unfold after_bytes; cbn; by rewrite app_nil_r|].
  etransitivity; [|apply IH]. unfold after_bytes. cbn [fmap list_fmap concat f_rest]. fold (after_bytes K).
  assert (encode (TArray (dn ++ t :: rest)) =
    (tag (TArray (dn ++ t :: rest)) :: digits (zlen (dn ++ t :: rest)) ++ Client.crlf ++ concat (encode <$> dn)) ++
    encode t ++ concat (encode <$> rest)) as ->.
  { unfold encode at 1. cbn [body]. by rewrite fmap_app, concat_app, <- !app_comm_cons, <- !app_assoc. }
  generalize (tag (TArray (dn ++ t :: rest)) :: digits (zlen (dn ++ t :: rest)) ++ Client.crlf ++ concat (encode <$> dn)).
  intros head. rewrite !zlen_app. pose proof (zlen_nonneg head). lia.
Qed.

(** How much a reader keeps between two chunks: less than a kilobyte that has been read, and a
    part of the next reply. *)
Definition buffered (ts : list tree) : Z := 1024 + match ts with t :: _ => zlen (encode t) | [] => 0 end.

Lemma text_contents r r' : contents r' = contents r -> pos r' = pos r -> text r' = text r.
Proof. unfold text. by intros -> ->. Qed.

Lemma discard_spec r :
  buf r <> None -> 0 <= pos r <= len r ->
  err (discard r) = err r /\ buf (discard r) <> None /\ 0 <= pos (discard r) <= len (discard r) /\
  rstack (discard r) = rstack r /\ reply (discard r) = reply r /\ text (discard r) = text r /\
  len (discard r) <= len r /\ pos (discard r) < 1024.
Proof.
  intros Hb Hp. unfold discard. destruct (Z.leb_spec 1024 (pos r)); [|split_and!; done || lia].
  rewrite Sds.range_drop by done. pose proof (text_len r Hp) as Hl. pose proof (zlen_nonneg (text r)).
  set (r' := mkReader _ _ _ _ _ _). assert (len r' = len r - pos r) by exact Hl.
  assert (pos r' = 0) by done. split_and!; done || lia.
Qed.

Lemma at_item_discard r K t ty : at_item r K t ty -> at_item (discard r) K t ty.
Proof.
  intros []. destruct (discard_spec r ai_buf0 ai_pos0) as (? & ? & ? & ? & ? & ? & ? & ?).
  split; congruence || done.
Qed.

(** What a reader that waits has in its buffer. *)
Lemma waits_buffered r ts w :
  waits r ts w -> (ts <> [] -> zlen (stream (tail ts)) < zlen w) -> pos r < 1024 -> len r <= buffered ts.
Proof.
  intros [He Hb Hp Hok Hst] Hw Hpos. pose proof (text_len r Hp) as Htl. unfold buffered.
  assert (zlen (text r) <= match ts with t :: _ => zlen (encode t) | [] => 0 end) as Ht; [|lia].
  destruct Hst as [(_ & _ & Hs)|(K & t & ty & ts' & _ & _ & -> & Hs)]; apply (f_equal zlen) in Hs; rewrite zlen_app in Hs.
  - destruct ts as [|t ts]; [change (zlen (stream [])) with 0 in Hs; pose proof (zlen_nonneg w); lia|].
    specialize (Hw ltac:(done)). cbn [tail list.tail] in Hw. change (stream (t :: ts)) with (encode t ++ stream ts) in Hs.
    rewrite zlen_app in Hs. lia.
  - specialize (Hw ltac:(done)). cbn [tail list.tail] in Hw. rewrite remaining_app, zlen_app in Hs.
    pose proof (remaining_plug K t ty). lia.
Qed.

Lemma getReply_step r ts w :
  waits r ts w -> len r < 2 ^ 31 ->
  exists r' o, redisReaderGetReply alloc r = Ok (r', o, true) /\ len r' <= len r /\
    match o with
    | Some x => exists t ts', ts = t :: ts' /\ x = obj t /\ waits r' ts' w /\ zlen (text r') < zlen (text r) /\
        zlen w <= zlen (stream ts')
    | None => waits r' ts w /\ (ts <> [] -> zlen (stream (tail ts)) < zlen w) /\ len r' <= buffered ts
    end.
Proof.
  intros Hwa Hlen. pose proof Hwa as [He Hb Hp Hok Hst]. unfold redisReaderGetReply.
  rewrite He. cbn [Z.eqb negb]. pose proof (text_len r Hp) as Htl.
  destruct (Z.eqb_spec (len r) 0) as [Hz|Hz].
  { exists r, None. pose proof (zlen_nonneg (match ts with t :: _ => encode t | [] => [] end)) as Hnn.
    split_and!; try done; [|unfold buffered; destruct ts; lia]. intros Hne.
    assert (text r = []) as Ht by (destruct (text r); [done|]; rewrite zlen_cons in Htl; pose proof (zlen_nonneg l); lia).
    rewrite Ht in Hst. destruct Hst as [(_ & _ & Hs)|(K & t & ty & ts' & _ & _ & -> & Hs)].
    - destruct ts as [|t ts]; [done|]. cbn [app] in Hs. rewrite Hs. cbn [tail].
      change (stream (t :: ts)) with ((tag t :: body t) ++ stream ts). rewrite zlen_app, zlen_cons.
      pose proof (zlen_nonneg (body t)). lia.
    - destruct (remaining_cons K t ty []) as (x & l & E). rewrite remaining_app, E in Hs. cbn [app tail] in *.
      rewrite Hs, zlen_cons, zlen_app. pose proof (zlen_nonneg l). lia. }
  set (r0 := match rstack r with [] => set_rstack [mkTask (-1) (-1) (-1)] r | _ :: _ => r end).
  assert (Hr0 : contents r0 = contents r /\ pos r0 = pos r /\ err r0 = 0 /\ buf r0 <> None)
    by (unfold r0; by destruct (rstack r)).
  destruct Hr0 as (Hc0 & Hp0 & He0 & Hb0). pose proof (text_contents r r0 Hc0 Hp0) as Ht0.
  assert (len r0 = len r) as Hl0 by (unfold len; by rewrite Hc0).
  assert (Hcase : (ts = [] /\ w = [] /\ text r = [] /\ rstack r0 = [root_task] /\ reply r0 = None) \/
    exists K t ty ts', at_item r0 K t ty /\ good K t /\ ts = plug K t :: ts' /\
      text r0 ++ w = remaining K t ty (stream ts')).
  { destruct Hst as [(Hs & Hrp & Htx)|(K & t & ty & ts' & Hat & Hg & Hts & Htx)].
    - assert (rstack r0 = [root_task] /\ reply r0 = None) as [Hs0 Hrp0]
        by (unfold r0; destruct Hs as [E|E]; rewrite E; [done|by rewrite <- E]).
      destruct ts as [|t ts']; [left; by apply app_eq_nil in Htx as [-> ->]|right].
      apply Forall_cons_iff in Hok as [Ht _].
      exists [], t, (-1), ts'. split_and!; [split; [done|done|by rewrite Hp0, Hl0|exact Hs0|exact Hrp0|by left]|by split; [|simpl; lia|]|done|].
      by rewrite Ht0, Htx.
    - right. assert (r0 = r) as -> by (unfold r0; by rewrite (ai_stack _ _ _ _ Hat)).
      by exists K, t, ty, ts'. }
  destruct Hcase as [(-> & -> & Htx & Hs0 & Hrp0)|(K & t & ty & ts' & Hat & Hg & -> & Htx)].
  - assert (items_loop alloc (S (Z.to_nat (len r0 - pos r0))) r0 = Ok r0) as ->.
    { cbn [items_loop]. rewrite Hs0. unfold processItem. rewrite Hs0. cbn [type root_task Z.ltb Z.compare].
      unfold readByte. by rewrite Ht0, Htx. }
    rewrite ok_bind, He0. cbn [Z.eqb negb].
    destruct (discard_spec r0 Hb0) as (H1 & H2 & H3 & H4 & H5 & H6 & H7 & H8); [by rewrite Hp0, Hl0|].
    rewrite H4, Hs0. exists (discard r0), None. assert (waits (discard r0) [] []) as Hwd.
    { split; try done; [congruence|]. left. rewrite H4, H5, H6, Ht0, Htx. by split_and!; [right|..]. }
    split_and!; try done; [lia|]. by apply (waits_buffered _ [] []).
  - destruct (items_loop_step (S (Z.to_nat (len r0 - pos r0))) r0 K t ty w (stream ts') Hat Hg ltac:(lia) Htx ltac:(lia))
      as (r1 & E & Hcon & Hpos & Hadv & Hstop). rewrite E, ok_bind.
    assert (len r1 = len r) as Hl1 by (unfold len; by rewrite Hcon, Hc0).
    apply Forall_cons_iff in Hok as [Hok1 Hok2].
    destruct Hstop as [(K' & t' & ty' & Hat' & Hg' & Hpl & Htx' & Hw)|(He1 & Hb1 & Hp1 & Hs1 & Hr1 & Htx1)].
    + rewrite (ai_err _ _ _ _ Hat'). cbn [Z.eqb negb].
      destruct (discard_spec r1 (ai_buf _ _ _ _ Hat') (ai_pos _ _ _ _ Hat')) as (H1 & H2 & H3 & H4 & H5 & H6 & H7 & H8).
      rewrite H4, (ai_stack _ _ _ _ Hat'). exists (discard r1), None.
      assert (waits (discard r1) (plug K t :: ts') w) as Hwd.
      { split; try done; [rewrite H1; apply Hat'|by constructor|]. right.
        exists K', t', ty', ts'. split_and!; [by apply at_item_discard|done|by rewrite Hpl|by rewrite H6]. }
      split_and!; try done; [lia|]. by apply (waits_buffered _ (plug K t :: ts') w).
    + rewrite He1. cbn [Z.eqb negb].
      destruct (discard_spec r1 Hb1 Hp1) as (H1 & H2 & H3 & H4 & H5 & H6 & H7 & H8).
      rewrite H4, Hs1, H5, Hr1. eexists _, (Some _). split; [done|].
      split; [change (len (discard r1) <= len r); lia|].
      exists (plug K t), ts'. split_and!; [done|done| | |].
      * split; try done; [cbn; congruence|]. left. split; [by left; cbn; congruence|]. split; [done|].
        change (text (discard r1) ++ w = stream ts'). congruence.
      * change (zlen (text (discard r1)) < zlen (text r)). rewrite H6, (text_len r1 Hp1).
        specialize (Hadv Hs1). lia.
      * rewrite <- Htx1, zlen_app. pose proof (zlen_nonneg (text r1)). lia.
Qed.
Lemma take_replies_step fuel r ts w acc :
  waits r ts w -> len r < 2 ^ 31 -> zlen (text r) < Z.of_nat fuel ->
  exists r' ts1 ts2, ts = ts1 ++ ts2 /\
    take_replies alloc fuel r acc = Ok (r', acc ++ (obj <$> ts1), true) /\
    waits r' ts2 w /\ (w = [] -> ts2 = []) /\ len r' <= buffered ts2.
Proof.
  revert r ts acc. induction fuel as [|fuel IH]; intros r ts acc Hwa Hlen Hfu.
  { pose proof (zlen_nonneg (text r)). lia. }
  cbn [take_replies].
  destruct (getReply_step r ts w Hwa Hlen) as (r1 & o & E & Hl1 & Ho). rewrite E, ok_bind.
  destruct o as [x|].
  - destruct Ho as (t & ts' & -> & -> & Hwa1 & Hlt & _).
    destruct (IH r1 ts' (acc ++ [obj t]) Hwa1 ltac:(lia) ltac:(lia)) as (r2 & ts1 & ts2 & -> & E2 & Hwa2 & Hw & Hl2).
    exists r2, (t :: ts1), ts2. split_and!; [done| |done|done|done]. rewrite E2. by rewrite <- app_assoc.
  - destruct Ho as (Hwa1 & Hw & Hbf). exists r1, [], ts. rewrite app_nil_r. split_and!; try done. intros ->.
    destruct ts as [|t ts]; [done|]. specialize (Hw ltac:(done)). pose proof (zlen_nonneg (stream (list.tail (t :: ts)))).
    rewrite zlen_nil in Hw. lia.
Qed.

Lemma feed_step r ts data w :
  waits r ts (data ++ w) ->
  exists r', redisReaderFeed alloc data r = (r', true) /\ waits r' ts w /\ len r' = len r + zlen data.
Proof.
  intros Hwa. pose proof Hwa as [He Hb Hp Hok Hst]. unfold redisReaderFeed. rewrite He. cbn [Z.eqb negb].
  destruct (Z.ltb_spec (zlen data) 1) as [Hz|Hz].
  { assert (data = []) as -> by (destruct data; [done|]; rewrite zlen_cons in Hz; pose proof (zlen_nonneg data); lia).
    exists r. split_and!; [done|done|rewrite zlen_nil; lia]. }
  rewrite Halloc. cbn [negb]. eexists. split; [done|]. set (r' := mkReader _ _ _ _ _ _).
  assert (Hl : len r' = len r + zlen data) by (unfold len, r'; cbn; apply zlen_app).
  assert (Ht : text r' = text r ++ data).
  { unfold text, r'. cbn. apply Client.drop_app_le. unfold len, zlen in Hp. lia. }
  pose proof (zlen_nonneg data). split; [|done]. split; try done.
  - change (pos r') with (pos r). lia.
  - destruct Hst as [(Hs & Hrp & Htx)|(K & t & ty & ts' & Hat & Hg & Hts & Htx)]; [left|right].
    + split_and!; [done|done|]. by rewrite Ht, <- app_assoc.
    + exists K, t, ty, ts'. split_and!; [|done|done|by rewrite Ht, <- app_assoc].
      destruct Hat. split; try done. change (pos r') with (pos r). lia.
Qed.

Lemma receive_replies_step chunks r ts acc :
  waits r ts (concat chunks) -> (concat chunks = [] -> ts = []) ->
  len r <= buffered ts -> Forall (fun t => zlen (encode t) < 2 ^ 30) ts -> Forall (fun d => zlen d < 2 ^ 30 - 1024) chunks ->
  exists r', receive_replies alloc chunks r acc = Ok (r', acc ++ (obj <$> ts), true).
Proof.
  revert r ts acc. induction chunks as [|data chunks IH]; intros r ts acc Hwa Hnil Hlen Hts Hch.
  { rewrite Hnil by done. exists r. cbn. by rewrite app_nil_r. }
  cbn [receive_replies concat] in *. apply Forall_cons_iff in Hch as [Hd Hch].
  assert (buffered ts < 2 ^ 30 + 1024) as Hbf by (unfold buffered; destruct Hts; lia).
  destruct (feed_step r ts data (concat chunks) Hwa) as (r1 & -> & Hwa1 & Hl1). cbn [negb].
  pose proof (text_len r1 (wa_pos _ _ _ Hwa1)). pose proof (wa_pos _ _ _ Hwa1).
  destruct (take_replies_step (S (Z.to_nat (len r1))) r1 ts (concat chunks) acc Hwa1 ltac:(lia) ltac:(lia))
    as (r2 & ts1 & ts2 & -> & E & Hwa2 & Hw & Hl2). rewrite E, ok_bind. cbn [negb]. apply Forall_app in Hts as [_ Hts].
  destruct (IH r2 ts2 (acc ++ (obj <$> ts1)) Hwa2 Hw Hl2 Hts Hch) as (r3 & E3).
  exists r3. rewrite E3. by rewrite fmap_app, app_assoc.
Qed.
End Items.

(** ** The server side *)

Section TreeInd.
Context (P : tree -> Prop).
Context (Hstatus : forall s, P (TStatus s)) (Herror : forall s, P (TError s)) (Hint : forall z, P (TInt z)).
Context (Hbulk : forall s, P (TBulk s)) (Hnil : P TNil).
Context (Harray : forall ts, Forall P ts -> P (TArray ts)).

Fixpoint tree_ind' (t : tree) : P t :=
  match t with
  | TStatus s => Hstatus s
  | TError s => Herror s
  | TInt z => Hint z
  | TBulk s => Hbulk s
  | TNil => Hnil
  | TArray ts =>
    Harray ts ((fix go ts := match ts return Forall P ts with
                             | [] => List.Forall_nil P
                             | t :: ts => @List.Forall_cons tree P t ts (tree_ind' t) (go ts)
                             end) ts)
  end.
End TreeInd.

(** Queueing a reply; the error replies are error objects sent with addReply. *)
Fixpoint add_tree (c : Client.redisClient) (t : tree) : option Client.redisClient :=
  match t with
  | TStatus s => Some (Client.addReplyStatusLength c s)
  | TError s => Some (Client.addReply c (SetType.RRaw ([45] ++ s ++ Client.crlf)))
  | TInt z => Client.addReplyLongLong c z
  | TBulk s => Client.addReplyBulkCBuffer c s
  | TNil => Client.addReplyBulkCString c None
  | TArray ts =>
    c ← Client.addReplyMultiBulkLen c (zlen ts);
    fold_left (fun c t => c ← c; add_tree c t) ts (Some c)
  end.

Definition add_trees (c : Client.redisClient) (ts : list tree) : option Client.redisClient :=
  fold_left (fun c t => c ← c; add_tree c t) ts (Some c).

(** The output after bytes [bs] have been queued. *)
Record queues (c c' : Client.redisClient) (bs : list Z) : Prop := {
  qs_pending : Client.pending c' = Client.pending c ++ bs;
  qs_out : Client.out_only c c';
  qs_inv : Client.out_inv c';
  qs_full : Forall is_Some (Client.reply c');
}.

Definition server_ok (c : Client.redisClient) : Prop :=
  Client.accepts c /\ Client.out_inv c /\ Forall is_Some (Client.reply c).

Lemma queues_ok c c' bs : server_ok c -> queues c c' bs -> server_ok c'.
Proof. intros (Ha & _ & _) [_ Ho Hi Hf]. split_and!; [|done|done]. rewrite Ho. exact Ha. Qed.

Lemma queues_trans c1 c2 c3 b1 b2 : queues c1 c2 b1 -> queues c2 c3 b2 -> queues c1 c3 (b1 ++ b2).
Proof.
  intros [P1 O1 I1 F1] [P2 O2 I2 F2]. split; [|exact (@PreOrder_Transitive _ _ Client.out_only_preorder _ _ _ O1 O2)|done|done].
  by rewrite P2, P1, app_assoc.
Qed.

Lemma queues_string c s : server_ok c -> queues c (Client.addReplyString c s) s.
Proof.
  intros (Ha & Hi & Hf). destruct (Client.add_string_pending c s Ha Hi) as (Hp & Ho & Hi').
  split; [done|done|done|]. by apply Client.add_string_full.
Qed.

Lemma queues_object c o :
  server_ok c -> SetType.robj_ok o -> queues c (Client.addReply c o) (SetType.decoded o).
Proof. intros Hs Ho. rewrite Client.addReply_string by done. by apply queues_string. Qed.

Lemma queues_trees ts d c :
  Forall (fun t => forall d c, server_ok c -> tree_ok d t ->
    exists c', add_tree c t = Some c' /\ queues c c' (encode t)) ts ->
  Forall (tree_ok d) ts -> server_ok c ->
  exists c', fold_left (fun c t => c ← c; add_tree c t) ts (Some c) = Some c' /\
    queues c c' (concat (encode <$> ts)).
Proof.
  intros Hall. revert c. induction Hall as [|t ts Ht _ IH]; intros c Hok Hs; cbn [fold_left].
  { exists c. split; [done|]. destruct Hs as (_ & Hi & Hf). split; try done; [|by destruct c].
    by rewrite app_nil_r. }
  apply Forall_cons_iff in Hok as [Hok1 Hok2].
  destruct (Ht d c Hs Hok1) as (c1 & E & Hq). cbn [mbind option_bind]. rewrite E.
  destruct (IH c1 Hok2 (queues_ok c c1 _ Hs Hq)) as (c' & E' & Hq'). exists c'. split; [done|].
  by eapply queues_trans.
Qed.

Lemma queues_longlong c ll prefix :
  server_ok c -> in_int 64 ll -> (prefix = 42 \/ prefix = 36 -> 0 <= ll) ->
  exists c', Client.addReplyLongLongWithPrefix c ll prefix = Some c' /\
    queues c c' (prefix :: digits ll ++ Client.crlf).
Proof.
  intros Hs Hll Hp. rewrite Client.addReplyLongLongWithPrefix_string by done.
  eexists. split; [done|]. by apply queues_string.
Qed.

Lemma add_tree_queues t d c :
  server_ok c -> tree_ok d t -> exists c', add_tree c t = Some c' /\ queues c c' (encode t).
Proof.
  revert d c. induction t as [s|s|z|s| |ts IH] using tree_ind'; intros d c Hs Hok; cbn [add_tree].
  - eexists. split; [done|]. unfold Client.addReplyStatusLength, encode. cbn [tag body].
    change (43 :: s ++ Client.crlf) with (str "+" ++ s ++ Client.crlf).
    eapply queues_trans; [by apply queues_string|].
    pose proof (queues_ok _ _ _ Hs (queues_string c (str "+") Hs)) as Hs1.
    eapply queues_trans; [by apply queues_string|]. apply queues_string.
    eapply queues_ok; [exact Hs1|]. by apply queues_string.
  - eexists. split; [done|]. by apply (queues_object c (SetType.RRaw ([45] ++ s ++ Client.crlf))).
  - assert (LLONG_MIN < z <= LLONG_MAX) as Hz by (by destruct d). unfold LLONG_MIN, LLONG_MAX in Hz.
    unfold Client.addReplyLongLong, encode. cbn [tag body].
    destruct (Z.eqb_spec z 0) as [->|]; [eexists; split; [done|]; by apply (queues_object c Client.shared_czero)|].
    destruct (Z.eqb_spec z 1) as [->|]; [eexists; split; [done|]; by apply (queues_object c Client.shared_cone)|].
    apply queues_longlong; [done|unfold in_int; simpl; lia|by intros []].
  - assert (zlen s <= 512 * 1024 * 1024) as Hl by (by destruct d). pose proof (zlen_nonneg s).
    unfold Client.addReplyBulkCBuffer.
    destruct (queues_longlong c (zlen s) 36 Hs) as (c1 & -> & Hq1); [unfold in_int; simpl; lia|done|].
    cbn [mbind option_bind]. eexists. split; [done|].
    pose proof (queues_ok _ _ _ Hs Hq1) as Hs1.
    pose proof (queues_string c1 s Hs1) as Hq2. pose proof (queues_ok _ _ _ Hs1 Hq2) as Hs2.
    pose proof (queues_object _ Client.shared_crlf Hs2 I) as Hq3.
    pose proof (queues_trans _ _ _ _ _ Hq1 (queues_trans _ _ _ _ _ Hq2 Hq3)) as Hq.
    unfold encode. cbn [tag body app] in *. by rewrite <- app_assoc in Hq.
  - eexists. split; [done|]. by apply (queues_object c Client.shared_nullbulk).
  - destruct d as [|d]; [done|]. destruct Hok as [Hn Hts]. fold tree_ok in Hts.
    pose proof (zlen_nonneg ts). unfold INT32_MAX in Hn. unfold Client.addReplyMultiBulkLen.
    destruct (queues_longlong c (zlen ts) 42 Hs) as (c1 & -> & Hq1); [unfold in_int; simpl; lia|done|].
    cbn [mbind option_bind].
    destruct (queues_trees ts d c1 IH Hts (queues_ok _ _ _ Hs Hq1)) as (c' & E & Hq').
    exists c'. split; [exact E|]. pose proof (queues_trans _ _ _ _ _ Hq1 Hq') as Hq.
    unfold encode. cbn [tag body app] in *. by rewrite <- app_assoc in Hq.
Qed.

(** ** From the server to the client *)

(** Write events of the socket; the chunks written. The client is [None] when it is freed. *)
Fixpoint write_events (evs : list (bool * list Z)) (c : Client.redisClient)
    : outcome (option Client.redisClient * list (list Z))%type :=
  match evs with
  | [] => Ok (Some c, [])
  | (over, ws) :: evs =>
    '(oc, out) ← Client.sendReplyToClient over true ws c;
    match oc with
    | None => Ok (None, [out])
    | Some c => '(oc, outs) ← write_events evs c; Ok (oc, out :: outs)
    end
  end.

Lemma write_events_pending evs c :
  Client.out_inv c -> Forall is_Some (Client.reply c) ->
  Client.has_flag Client.REDIS_MASTER c = false -> Client.has_flag Client.REDIS_CLOSE_AFTER_REPLY c = false ->
  exists c' outs, write_events evs c = Ok (Some c', outs) /\
    concat outs ++ Client.pending c' = Client.pending c.
Proof.
  revert c. induction evs as [|[over ws] evs IH]; intros c Hi Hf Hm Hc; cbn [write_events].
  { by exists c, []. }
  destruct (Client.send_reply_pending over true ws c Hi Hf Hm) as (r & out & E & Hr). rewrite E.
  cbn [mbind outcome_bind]. destruct r as [c1|].
  - destruct Hr as (Hp & Hi1 & Hf1 & Hio).
    destruct (IH c1 Hi1 Hf1) as (c' & outs & E' & Hp'); [by rewrite Hio|by rewrite Hio|].
    rewrite E'. cbn [mbind outcome_bind]. exists c', (out :: outs). split; [done|].
    cbn [concat]. by rewrite <- app_assoc, Hp'.
  - destruct Hr as [_ Hr]. destruct (Hr eq_refl) as [Hc' _]. congruence.
Qed.

Section RoundTrip.
Context (alloc : Z -> bool) (Halloc : forall n, alloc n = true).

(** C35: the replies the server queues are the replies the client reads: however queueing splits
    the bytes between the static buffer and the list, however much each write on the socket
    takes, and however the network cuts the bytes into chunks, once everything has been sent
    the reader has delivered exactly the replies, in order, with no read out of bounds, no
    failing assert and no error; for replies nested at most eight deep, whose integers are other
    than LLONG_MIN ([readLongLong_overflow]), each reply and each chunk of less than a gigabyte
    (with 2 GB in the buffer the int of seekNewline is not the length any more:
    [seekNewline_truncates]). *)
Theorem reply_stream_roundtrip c ts :
  Client.accepts c -> Client.out_inv c -> Forall is_Some (Client.reply c) ->
  Client.has_flag Client.REDIS_MASTER c = false -> Client.pending c = [] ->
  Forall (tree_ok 8) ts -> Forall (fun t => zlen (encode t) < 2 ^ 30) ts ->
  exists c1, add_trees c ts = Some c1 /\
    forall evs, exists c2 outs, write_events evs c1 = Ok (Some c2, outs) /\
      (Client.pending c2 = [] ->
       forall chunks, concat chunks = concat outs -> Forall (fun d => zlen d < 2 ^ 30 - 1024) chunks ->
       exists r, receive_replies alloc chunks redisReaderCreate [] = Ok (r, obj <$> ts, true)).
Proof.
  intros Ha Hi Hf Hm Hp Hts Hlen.
  destruct (queues_trees ts 8 c) as (c1 & E & [Hq Ho Hi1 Hf1]); [|done|by split_and!|].
  { apply List.Forall_forall. intros t _ d c' Hs Hok. by eapply add_tree_queues. }
  exists c1. split; [done|]. intros evs.
  destruct (write_events_pending evs c1 Hi1 Hf1) as (c2 & outs & E2 & Hb);
    [by rewrite Ho|rewrite Ho; apply Ha|].
  exists c2, outs. split; [done|]. intros Hp2 chunks Hchunks Hsizes.
  rewrite Hp2, app_nil_r, Hq, Hp in Hb. cbn [app] in Hb. fold (stream ts) in Hb.
  apply (receive_replies_step alloc Halloc chunks redisReaderCreate ts []).
  - rewrite Hchunks, Hb. split; try done. left. by split_and!; [left|..].
  - rewrite Hchunks, Hb. by destruct ts.
  - change (len redisReaderCreate) with 0. unfold buffered. destruct ts as [|t ts]; [lia|]. pose proof (zlen_nonneg (encode t)). lia.
  - exact Hlen.
  - exact Hsizes.
Qed.
End RoundTrip.

Lemma reply_stream_roundtrip_witness :
  exists c1, add_trees (Client.createClient 5)
      [TStatus (str "OK"); TArray [TBulk [13; 10]; TInt (-7); TNil; TArray []]] = Some c1 /\
    forall evs, exists c2 outs, write_events evs c1 = Ok (Some c2, outs) /\
      (Client.pending c2 = [] ->
       forall chunks, concat chunks = concat outs -> Forall (fun d => zlen d < 2 ^ 30 - 1024) chunks ->
       exists r, receive_replies (fun _ => true) chunks redisReaderCreate [] =
         Ok (r, obj <$> [TStatus (str "OK"); TArray [TBulk [13; 10]; TInt (-7); TNil; TArray []]], true)).
Proof.
  apply (reply_stream_roundtrip (fun _ => true)).
  - done.
  - split; [reflexivity|right; reflexivity].
  - split; [by split|vm_compute; discriminate|]. intros _ _ [H|H]; by destruct H.
  - constructor.
  - reflexivity.
  - reflexivity.
  - repeat constructor; try (vm_compute; discriminate).
    apply (bool_decide_unpack (13 ∉ str "OK")). reflexivity.
  - repeat constructor.
Defined.

(** [v *= 10; v += dec] overflows on the magnitude of LLONG_MIN, which the server can send. *)
Example readLongLong_overflow :
  readLongLong (digits LLONG_MIN ++ Client.crlf) = Undefined /\
  exists c', Client.addReplyLongLong (Client.createClient 5) LLONG_MIN = Some c' /\
    Client.pending c' = [58] ++ digits LLONG_MIN ++ Client.crlf.
Proof. split; [reflexivity|]. eexists. split; [reflexivity|]. reflexivity. Qed.

End Reader.
