(* ===== verification/Hiredis.v ===== *)
(** * hiredis.cc: formatting of commands and the blocking connection

    Model of [redisvFormatCommand] and of the functions on a [redisContext] of
    [src/src/hiredis/hiredis.cc].  A format is a C string (its bytes without the NUL); the
    variable arguments are the slots that the caller passed: a slot of eight bytes holds an int,
    a long or a size, a pointer is the bytes that it points to.  [vsnprintf] is modelled for the
    conversions of integers; the text of a double is a parameter.

    The socket is the interface [Socket].  [redisGetReply] loops on it, with fuel for the reads
    and the writes.  What a socket with a server behind it promises is [faithful]: commands are
    answered in order, reads and writes transfer some of the bytes, and may fail at any time.
    On such a socket a connection is a queue of answers ([session], [redisGetReply_step]), and a
    connection that has failed does not deliver anything any more ([dead]).

    [redisvFormatCommand_template]: whatever bytes are interpolated with %s and %b, the command
    has the words of the format as its arguments.  [redisFormatCommandArgv] is in [Proto], the
    parser of replies in [Reader]. *)

From Stdlib Require Import ZArith Lia.
From stdpp Require Import prelude list strings numbers.
From S2P Require Import Prelude.
From S2P Require Import Util.
From S2P Require Import Sds.
From S2P Require Import Client.
From S2P Require Import Proto.
From S2P Require Import Reader.

Local Open Scope Z_scope.

Module Hiredis.

Definition REDIS_ERR_IO : Z := 1.
Definition REDIS_ERR_EOF : Z := 3.
Definition REDIS_ERR_OOM : Z := 5.

(** ** Variable arguments and vsnprintf *)

Inductive va_slot :=
  | VWord (w : Z)              (* int, long, long long, size_t *)
  | VPtr (mem : list Z)        (* char*: what it points to *)
  | VDouble (d : list Z).      (* its representation *)

(** The character at a pointer into a C string, of which the rest is given. *)
Definition char (p : list Z) : Z := match p with x :: _ => x | [] => 0 end.
Definition isdigit (c : Z) : bool := (48 <=? c) && (c <=? 57).
(** [strchr(s,c) != NULL]: the NUL at the end of [s] is found too. *)
Definition strchr (s : list Z) (c : Z) : bool := (c =? 0) || bool_decide (c ∈ s).

Definition intfmts : list Z := str "diouxX".

Fixpoint skip_digits (p : list Z) : list Z :=
  match p with x :: q => if isdigit x then skip_digits q else p | [] => [] end.
Definition skip (f : Z) (p : list Z) : list Z := if char p =? f then tail p else p.

Inductive va_type := AInt | ALong | ALongLong | ADouble.

(** The printf format that starts at [p], after the percent sign: the type of its argument and
    the pointer to its conversion character. *)
Definition scan_format (p : list Z) : option (va_type * list Z) :=
  (* Flags *)
  let p := skip 35 p in let p := skip 48 p in let p := skip 45 p in
  let p := skip 32 p in let p := skip 43 p in
  (* Field width *)
  let p := skip_digits p in
  (* Precision *)
  let p := if char p =? 46 then skip_digits (tail p) else p in
  let size n ty :=
    let p := drop n p in
    if negb (char p =? 0) && strchr intfmts (char p) then Some (ty, p) else None in
  if strchr intfmts (char p) then Some (AInt, p)
  else if strchr (str "eEfFgGaA") (char p) then Some (ADouble, p)
  else if (char p =? 104) && (char (tail p) =? 104) then size 2%nat AInt
  else if char p =? 104 then size 1%nat AInt
  else if (char p =? 108) && (char (tail p) =? 108) then size 2%nat ALongLong
  else if char p =? 108 then size 1%nat ALong
  else None.

(** *** Integer conversions of vsnprintf *)

Record directive := mkDirective {
  alternate : bool; zero_pad : bool; left_adjust : bool; space_sign : bool; plus_sign : bool;
  width : Z; precision : option Z; bits : Z; conversion : Z;
}.

Fixpoint parse_flags (p : list Z) (d : directive) : directive * list Z :=
  match p with
  | x :: q =>
    let '(mkDirective a z l s pl w pr b c) := d in
    if x =? 35 then parse_flags q (mkDirective true z l s pl w pr b c)
    else if x =? 48 then parse_flags q (mkDirective a true l s pl w pr b c)
    else if x =? 45 then parse_flags q (mkDirective a z true s pl w pr b c)
    else if x =? 32 then parse_flags q (mkDirective a z l true pl w pr b c)
    else if x =? 43 then parse_flags q (mkDirective a z l s true w pr b c)
    else (d, p)
  | [] => (d, [])
  end.

Fixpoint parse_number (p : list Z) (n : Z) : Z * list Z :=
  match p with
  | x :: q => if isdigit x then parse_number q (n * 10 + (x - 48)) else (n, p)
  | [] => (n, [])
  end.

(** A format of one directive, [%] included. *)
Definition parse_directive (fmt : list Z) : directive :=
  let '(mkDirective a z l s pl _ _ _ _, p) :=
    parse_flags (tail fmt) (mkDirective false false false false false 0 None 0 0) in
  let '(w, p) := parse_number p 0 in
  let '(pr, p) := if char p =? 46 then let '(n, p) := parse_number (tail p) 0 in (Some n, p) else (None, p) in
  let '(b, p) :=
    if (char p =? 104) && (char (tail p) =? 104) then (8, drop 2 p)
    else if char p =? 104 then (16, drop 1 p)
    else if (char p =? 108) && (char (tail p) =? 108) then (64, drop 2 p)
    else if char p =? 108 then (64, drop 1 p) else (32, p) in
  mkDirective a z l s pl w pr b (char p).

Fixpoint radix_loop (fuel : nat) (base v : Z) (letter : Z) (acc : list Z) : list Z :=
  match fuel with
  | O => acc
  | S fuel =>
    let k := v mod base in
    let acc := (if k <? 10 then 48 + k else letter + (k - 10)) :: acc in
    if v / base =? 0 then acc else radix_loop fuel base (v / base) letter acc
  end.

(** The digits of the magnitude [v]; an unsigned 64 bit integer has at most 22 in base 8. *)
Definition magnitude (conv v : Z) : list Z :=
  if conv =? 111 then radix_loop 22 8 v 97 []
  else if conv =? 120 then radix_loop 22 16 v 97 []
  else if conv =? 88 then radix_loop 22 16 v 65 []
  else radix_loop 22 10 v 97 [].

Definition pad (n : Z) (c : Z) (l : list Z) : list Z := replicate (Z.to_nat (n - zlen l)) c.

Definition print_directive (d : directive) (w : Z) : list Z :=
  let signed := (conversion d =? 100) || (conversion d =? 105) in
  let v := if signed then swrap (bits d) w else uwrap (bits d) w in
  let sign :=
    if negb signed then []
    else if v <? 0 then [45] else if plus_sign d then [43] else if space_sign d then [32] else [] in
  let ds := match precision d with Some 0 => if v =? 0 then [] else magnitude (conversion d) (Z.abs v)
            | _ => magnitude (conversion d) (Z.abs v) end in
  let ds := pad (default 0 (precision d)) 48 ds ++ ds in
  let ds := if alternate d && (conversion d =? 111) && negb (char ds =? 48) then 48 :: ds else ds in
  let prefix :=
    if alternate d && ((conversion d =? 120) || (conversion d =? 88)) && negb (v =? 0)
    then [48; conversion d] else [] in
  let head := sign ++ prefix in
  if left_adjust d then head ++ ds ++ pad (width d) 32 (head ++ ds)
  else if zero_pad d && bool_decide (precision d = None) then head ++ pad (width d) 48 (head ++ ds) ++ ds
  else pad (width d) 32 (head ++ ds) ++ head ++ ds.

(** ** redisvFormatCommand *)

Section Format.
Context (print_double : list Z -> list Z -> list Z).

Definition vsnprintf (fmt : list Z) (a : va_slot) : list Z :=
  match a with
  | VWord w => print_directive (parse_directive fmt) w
  | VDouble d => print_double fmt d
  | VPtr _ => []
  end.

(** [va_arg] with a type, and with char*. *)
Definition va_scalar (ty : va_type) (ap : list va_slot) : outcome (va_slot * list va_slot) :=
  match ty, ap with
  | ADouble, VDouble d :: ap => Ok (VDouble d, ap)
  | (AInt | ALong | ALongLong), VWord w :: ap => Ok (VWord w, ap)
  | _, _ => Undefined
  end.
Definition va_pointer (ap : list va_slot) : outcome (list Z * list va_slot) :=
  match ap with VPtr m :: ap => Ok (m, ap) | _ => Undefined end.

(** [strlen] and the string; the bytes must hold a NUL. *)
Fixpoint c_string (m : list Z) : outcome (list Z) :=
  match m with
  | [] => Undefined
  | x :: m => if x =? 0 then Ok [] else s ← c_string m; Ok (x :: s)
  end.

(** One directive: the argument so far, the rest of the arguments and the rest of the format;
    [None] is [goto err]. *)
Definition format_directive (c : list Z) (ap : list va_slot) (curarg : list Z)
    : outcome (option (list Z * list va_slot * list Z)) :=
  let c1 := char (tail c) in
  if c1 =? 115 then
    '(arg, ap) ← va_pointer ap; s ← c_string arg; Ok (Some (curarg ++ s, ap, drop 2 c))
  else if c1 =? 98 then
    '(arg, ap) ← va_pointer ap;
    '(size, ap) ← va_scalar ALong ap;
    match size with
    | VWord size =>
      if 0 <? uwrap 64 size then
        match load arg 0 (uwrap 64 size) with
        | Some s => Ok (Some (curarg ++ s, ap, drop 2 c))
        | None => Undefined
        end
      else Ok (Some (curarg, ap, drop 2 c))
    | _ => Undefined
    end
  else if c1 =? 37 then Ok (Some (curarg ++ [37], ap, drop 2 c))
  else
    match scan_format (tail c) with
    | None => Ok None
    | Some (ty, p) =>
      '(a, ap) ← va_scalar ty ap;
      (* [_l = (_p+1)-c] *)
      let l := Z.of_nat (length c - length p) + 1 in
      if l <? 14 then
        match p with
        | [] => Undefined     (* the loop goes on behind the NUL *)
        | _ :: rest => Ok (Some (curarg ++ vsnprintf (take (Z.to_nat l) c) a, ap, rest))
        end
      else Ok (Some (curarg, ap, drop 2 c))
    end.

Fixpoint format_loop (fuel : nat) (c : list Z) (ap : list va_slot) (curarg : list Z) (touched : bool)
    (curargv : list (list Z)) : outcome (option (list (list Z))) :=
  match fuel with
  | O => OutOfFuel
  | S fuel =>
    if char c =? 0 then Ok (Some (if touched then curargv ++ [curarg] else curargv))
    else if negb (char c =? 37) || (char (tail c) =? 0) then
      if char c =? 32 then
        if touched then format_loop fuel (tail c) ap [] false (curargv ++ [curarg])
        else format_loop fuel (tail c) ap curarg touched curargv
      else format_loop fuel (tail c) ap (curarg ++ [char c]) true curargv
    else
      d ← format_directive c ap curarg;
      match d with
      | None => Ok None
      | Some (curarg, ap, c) => format_loop fuel c ap curarg true curargv
      end
  end.

(** "Build the command at protocol level": [totlen] was summed up argument by argument. *)
Definition build_command (argv : list (list Z)) : outcome (list Z) :=
  match (totlen ← Proto.totlen_loop argv 0; n ← Proto.intlen (zlen argv); Some (swrap 32 (totlen + (1 + n + 2)))) with
  | Some totlen =>
    let cmd := Proto.format_command argv in
    if zlen cmd =? totlen then Ok cmd else Undefined
  | None => Undefined
  end.

(** The command; [None] is the result -1. *)
Definition redisvFormatCommand (format : list Z) (ap : list va_slot) : outcome (option (list Z)) :=
  argv ← format_loop (S (length format)) format ap [] false [];
  match argv with
  | None => Ok None
  | Some argv => cmd ← build_command argv; Ok (Some cmd)
  end.
End Format.

(** ** The context *)

Record redisContext := mkContext {
  err : Z;
  errstr : list Z;
  blocking : bool;                    (* flags & REDIS_BLOCK *)
  obuf : list Z;
  reader : Reader.redisReader;
}.

Definition set_obuf (b : list Z) (c : redisContext) := mkContext (err c) (errstr c) (blocking c) b (reader c).
Definition set_reader (r : Reader.redisReader) (c : redisContext) := mkContext (err c) (errstr c) (blocking c) (obuf c) r.

(** With NULL the description is the text of [errno], which the result of the call carries. *)
Definition redisSetError (ty : Z) (msg : list Z) (c : redisContext) : redisContext :=
  mkContext ty (take 127 msg) (blocking c) (obuf c) (reader c).

(** redisContextInit, with REDIS_BLOCK as the functions that connect set it. *)
Definition redisContextInit (block : bool) : redisContext := mkContext 0 [] block [] Reader.redisReaderCreate.

(** The results of write and read; [eagain] tells [errno == EAGAIN]. *)
Inductive write_result := Written (n : Z) | WriteError (eagain : bool) (msg : list Z).
Inductive read_result := ReadBytes (bs : list Z) | ReadError (eagain : bool) (msg : list Z).

Class Socket (S : Type) := {
  sock_write : S -> list Z -> S * write_result;
  sock_read : S -> Z -> S * read_result;
}.

Section Connection.
Context {S : Type} `{!Socket S} (alloc : Z -> bool) (print_double : list Z -> list Z -> list Z).

(** The flags of the results are [== REDIS_OK]. *)
Definition redisBufferRead (s : S) (c : redisContext) : S * redisContext * bool :=
  if negb (err c =? 0) then (s, c, false)
  else
    let '(s, r) := sock_read s (1024 * 16) in
    match r with
    | ReadError eagain msg =>
      if eagain && negb (blocking c) then (s, c, true) else (s, redisSetError REDIS_ERR_IO msg c, false)
    | ReadBytes [] => (s, redisSetError REDIS_ERR_EOF (str "Server closed the connection") c, false)
    | ReadBytes bs =>
      let '(rd, ok) := Reader.redisReaderFeed alloc bs (reader c) in
      let c := set_reader rd c in
      if ok : bool then (s, c, true)
      else (s, redisSetError (Reader.err rd) (Reader.errstr rd) c, false)
    end.

(** [*done] is [obuf c = []] afterwards. *)
Definition redisBufferWrite (s : S) (c : redisContext) : S * redisContext * bool :=
  if negb (err c =? 0) then (s, c, false)
  else if 0 <? zlen (obuf c) then
    let '(s, r) := sock_write s (obuf c) in
    match r with
    | WriteError eagain msg =>
      if eagain && negb (blocking c) then (s, c, true) else (s, redisSetError REDIS_ERR_IO msg c, false)
    | Written n =>
      if 0 <? n then
        if n =? zlen (obuf c) then (s, set_obuf [] c, true)
        else (s, set_obuf (Sds.range_spec (obuf c) n (-1)) c, true)
      else (s, c, true)
    end
  else (s, c, true).

Definition redisGetReplyFromReader (c : redisContext) : outcome (redisContext * option Reader.redisReply * bool) :=
  '(rd, o, ok) ← Reader.redisReaderGetReply alloc (reader c);
  let c := set_reader rd c in
  if ok : bool then Ok (c, o, true) else Ok (redisSetError (Reader.err rd) (Reader.errstr rd) c, None, false).

(** "Write until done" *)
Fixpoint write_loop (fuel : nat) (s : S) (c : redisContext) : outcome (S * redisContext * bool) :=
  match fuel with
  | O => OutOfFuel
  | Datatypes.S fuel =>
    let '(s, c, ok) := redisBufferWrite s c in
    if negb ok then Ok (s, c, false)
    else if zlen (obuf c) =? 0 then Ok (s, c, true) else write_loop fuel s c
  end.

(** "Read until there is a reply" *)
Fixpoint read_loop (fuel : nat) (s : S) (c : redisContext)
    : outcome (S * redisContext * option Reader.redisReply * bool) :=
  match fuel with
  | O => OutOfFuel
  | Datatypes.S fuel =>
    let '(s, c, ok) := redisBufferRead s c in
    if negb ok then Ok (s, c, None, false)
    else
      '(c, aux, ok) ← redisGetReplyFromReader c;
      if negb ok then Ok (s, c, None, false)
      else match aux with Some x => Ok (s, c, Some x, true) | None => read_loop fuel s c end
  end.

(** The reply that is stored through the pointer, when the result is REDIS_OK. *)
Definition redisGetReply (fuel : nat) (s : S) (c : redisContext)
    : outcome (S * redisContext * option Reader.redisReply * bool) :=
  '(c, aux, ok) ← redisGetReplyFromReader c;
  if negb ok then Ok (s, c, None, false)
  else
    match aux with
    | Some x => Ok (s, c, Some x, true)
    | None =>
      if blocking c then
        '(s, c, ok) ← write_loop fuel s c;
        if negb ok then Ok (s, c, None, false) else read_loop fuel s c
      else Ok (s, c, None, true)
    end.

Definition redisAppend (cmd : list Z) (c : redisContext) : redisContext * bool :=
  if alloc (zlen (obuf c) + zlen cmd + 9) then (set_obuf (obuf c ++ cmd) c, true)
  else (redisSetError REDIS_ERR_OOM (str "Out of memory") c, false).

Definition redisvAppendCommand (format : list Z) (ap : list va_slot) (c : redisContext) : outcome (redisContext * bool) :=
  cmd ← redisvFormatCommand print_double format ap;
  match cmd with
  | None => Ok (redisSetError REDIS_ERR_OOM (str "Out of memory") c, false)
  | Some cmd => Ok (redisAppend cmd c)
  end.

(** [NULL] is [None]. *)
Definition redisBlockForReply (fuel : nat) (s : S) (c : redisContext)
    : outcome (S * redisContext * option Reader.redisReply) :=
  if blocking c then
    '(s, c, o, ok) ← redisGetReply fuel s c; Ok (s, c, if ok : bool then o else None)
  else Ok (s, c, None).

Definition redisvCommand (fuel : nat) (format : list Z) (ap : list va_slot) (s : S) (c : redisContext)
    : outcome (S * redisContext * option Reader.redisReply) :=
  '(c, ok) ← redisvAppendCommand format ap c;
  if negb ok then Ok (s, c, None) else redisBlockForReply fuel s c.

Definition redisAppendCommandArgv (argv : list (list Z)) (c : redisContext) : outcome (redisContext * bool) :=
  match Proto.redisFormatCommandArgv argv with
  | None => Undefined
  | Some (_, cmd) => Ok (redisAppend cmd c)
  end.

Definition redisCommandArgv (fuel : nat) (argv : list (list Z)) (s : S) (c : redisContext)
    : outcome (S * redisContext * option Reader.redisReply) :=
  '(c, ok) ← redisAppendCommandArgv argv c;
  if negb ok then Ok (s, c, None) else redisBlockForReply fuel s c.
End Connection.

Definition no_double (_ _ : list Z) : list Z := [].

Example format_ex :
  redisvFormatCommand no_double (str "SETEX %b %d %b") [VPtr (str "key"); VWord 2; VWord (2 ^ 32 + 60); VPtr [0; 32; 13]; VWord 3] =
    Ok (Some (Proto.format_command [str "SETEX"; str "ke"; str "60"; [0; 32; 13]])) /\
  redisvFormatCommand no_double (str "a%%%sb %+05hhd|%#x|%-4u|% i|%.3o") [VPtr (str "x y" ++ [0; 7]); VWord 255; VWord 255; VWord 7; VWord 5; VWord 8] =
    Ok (Some (Proto.format_command [str "a%x yb"; str "-0001|0xff|7   | 5|010"])) /\
  redisvFormatCommand no_double (str "GET %k") [] = Ok None /\
  redisvFormatCommand no_double (str "GET %5") [VWord 1] = Undefined.
Proof. split_and!; vm_compute; reflexivity. Qed.

(** ** Formats and what they interpolate *)

(** A piece of an argument: literal characters, a C string, a binary string, an int, a percent
    sign; behind a string may be other bytes. *)
Inductive piece :=
  | PLit (s : list Z)
  | PStr (s rest : list Z)
  | PBin (b rest : list Z)
  | PInt (w : Z)
  | PPercent.

Definition piece_ok (p : piece) : Prop :=
  match p with
  | PLit s => s <> [] /\ Forall (fun x => x <> 0 /\ x <> 32 /\ x <> 37) s
  | PStr s _ => 0 ∉ s
  | PBin b _ => zlen b < 2 ^ 64
  | PInt _ | PPercent => True
  end.

Definition piece_format (p : piece) : list Z :=
  match p with PLit s => s | PStr _ _ => str "%s" | PBin _ _ => str "%b" | PInt _ => str "%d" | PPercent => str "%%" end.
Definition piece_slots (p : piece) : list va_slot :=
  match p with
  | PStr s rest => [VPtr (s ++ 0 :: rest)]
  | PBin b rest => [VPtr (b ++ rest); VWord (zlen b)]
  | PInt w => [VWord w]
  | PLit _ | PPercent => []
  end.
Definition piece_text (p : piece) : list Z :=
  match p with PLit s => s | PStr s _ => s | PBin b _ => b | PInt w => Util.ll2string_chars (swrap 32 w) | PPercent => [37] end.

(** A command: arguments, separated by blanks, of one or more pieces each. *)
Definition word := list piece.
Definition word_format (w : list piece) : list Z := concat (piece_format <$> w).
Definition word_text (w : list piece) : list Z := concat (piece_text <$> w).
Definition template_format (ws : list (list piece)) : list Z :=
  match ws with [] => [] | w :: ws => word_format w ++ concat ((fun w => 32 :: word_format w) <$> ws) end.
Definition template_slots (ws : list (list piece)) : list va_slot := concat (piece_slots <$> concat ws).
Definition template_ok (ws : list (list piece)) : Prop := Forall (fun w => w <> [] /\ Forall piece_ok w) ws.

Lemma radix_decimal k : forall v n m letter acc, 0 <= v < 10 ^ Z.of_nat k -> (0 < k)%nat -> (k <= n)%nat -> (k <= m)%nat ->
  radix_loop n 10 v letter acc = Util.ll2string_loop m v acc.
Proof.
  induction k as [|k IH]; intros v n m letter acc Hv Hk Hn Hm; [lia|].
  destruct n as [|n]; [lia|]. destruct m as [|m]; [lia|]. cbn [radix_loop Util.ll2string_loop].
  pose proof (Z.mod_pos_bound v 10). destruct (Z.ltb_spec (v mod 10) 10); [|lia]. change Util.cZERO with 48.
  destruct (Z.eqb_spec (v / 10) 0) as [|Hne]; [done|]. apply IH; try lia.
  - split; [apply Z.div_pos; lia|]. apply Z.div_lt_upper_bound; [lia|]. rewrite Nat2Z.inj_succ, Z.pow_succ_r in Hv; lia.
  - destruct k; [|lia]. change (10 ^ Z.of_nat 1) with 10 in Hv. rewrite Z.div_small in Hne; lia.
Qed.

Lemma print_int w : print_directive (parse_directive (str "%d")) w = Util.ll2string_chars (swrap 32 w).
Proof.
  change (parse_directive (str "%d")) with (mkDirective false false false false false 0 None 32 100).
  unfold print_directive. cbn [conversion bits precision plus_sign space_sign alternate width left_adjust zero_pad].
  change ((100 =? 100) || (100 =? 105)) with true. change (false && (100 =? 111)) with false.
  change (false && ((100 =? 120) || (100 =? 88))) with false. cbn [negb andb orb default].
  set (v := swrap 32 w).
  assert (- 2 ^ 31 <= v < 2 ^ 31) as Hv.
  { unfold v, swrap. change (32 - 1) with 31. pose proof (Z.mod_pos_bound (w + 2 ^ 31) (2 ^ 32)). lia. }
  assert (forall l, pad 0 48 l = []) as Hpad.
  { intros l. unfold pad. pose proof (zlen_nonneg l). by replace (Z.to_nat (0 - zlen l)) with O by lia. }
  assert (forall l, pad 0 32 l = []) as Hpad2.
  { intros l. unfold pad. pose proof (zlen_nonneg l). by replace (Z.to_nat (0 - zlen l)) with O by lia. }
  rewrite Hpad, Hpad2. cbn [app]. rewrite app_nil_r.
  change (magnitude 100 (Z.abs v)) with (radix_loop 22 10 (Z.abs v) 97 []).
  rewrite (radix_decimal 10 (Z.abs v) 22 20 97 []) by (try lia; change (10 ^ Z.of_nat 10) with 10000000000; lia).
  unfold Util.ll2string_chars. destruct (Z.ltb_spec v 0); rewrite uwrap_id by (unfold in_uint; lia).
  - by rewrite Z.abs_neq by lia.
  - by rewrite Z.abs_eq by lia.
Qed.

Section Template.
Context (pd : list Z -> list Z -> list Z).

(** The loop on a format, whatever fuel it has left. *)
Definition loops (c : list Z) (ap : list va_slot) (cur : list Z) (t : bool) (argv : list (list Z)) (R : outcome (option (list (list Z)))) : Prop :=
  forall fuel, (length c < fuel)%nat -> format_loop pd fuel c ap cur t argv = R.

Lemma loops_char x c ap cur t argv R :
  x <> 0 -> x <> 32 -> x <> 37 -> loops c ap (cur ++ [x]) true argv R -> loops (x :: c) ap cur t argv R.
Proof.
  intros H0 H32 H37 H [|fuel] Hf; [simpl in Hf; lia|]. cbn [format_loop char]. rewrite (proj2 (Z.eqb_neq x 0)) by done.
  rewrite (proj2 (Z.eqb_neq x 37)), (proj2 (Z.eqb_neq x 32)) by done. cbn [negb orb list.tail]. apply H. simpl in Hf. lia.
Qed.

Lemma loops_lit s c ap cur t argv R :
  s <> [] -> Forall (fun x => x <> 0 /\ x <> 32 /\ x <> 37) s -> loops c ap (cur ++ s) true argv R ->
  loops (s ++ c) ap cur t argv R.
Proof.
  revert cur t. induction s as [|x s IH]; intros cur t Hne Hs H; [done|]. apply Forall_cons_iff in Hs as [(H0 & H32 & H37) Hs].
  cbn [app]. apply loops_char; try done. destruct s as [|y s]; [done|]. apply IH; [done|done|]. by rewrite <- app_assoc.
Qed.

Lemma loops_blank c ap cur argv R : loops c ap [] false (argv ++ [cur]) R -> loops (32 :: c) ap cur true argv R.
Proof. intros H [|fuel] Hf; [simpl in Hf; lia|]. apply H. simpl in Hf. lia. Qed.

Lemma loops_directive d c ap cur t argv cur' ap' R :
  d <> 0 -> format_directive pd (37 :: d :: c) ap cur = Ok (Some (cur', ap', c)) ->
  loops c ap' cur' true argv R -> loops (37 :: d :: c) ap cur t argv R.
Proof.
  intros Hd Hdir H [|fuel] Hf; [simpl in Hf; lia|]. cbn [format_loop char list.tail]. change (37 =? 0) with false.
  change (37 =? 37) with true. rewrite (proj2 (Z.eqb_neq d 0)) by done. cbn [negb orb]. rewrite Hdir. apply H. simpl in Hf. lia.
Qed.

Lemma c_string_app s rest : 0 ∉ s -> c_string (s ++ 0 :: rest) = Ok s.
Proof.
  induction s as [|x s IH]; intros Hs; [done|]. rewrite not_elem_of_cons in Hs. destruct Hs as [Hx Hs].
  cbn [app c_string]. rewrite (proj2 (Z.eqb_neq x 0)) by congruence. by rewrite IH.
Qed.

Lemma loops_piece p c ap cur t argv R :
  piece_ok p -> loops c ap (cur ++ piece_text p) true argv R ->
  loops (piece_format p ++ c) (piece_slots p ++ ap) cur t argv R.
Proof.
  intros Hp H. destruct p as [s|s rest|b rest|w|]; cbn [piece_format piece_slots piece_text piece_ok] in *.
  - destruct Hp as [Hne Hs]. by apply loops_lit.
  - eapply (loops_directive 115); [done| |exact H]. unfold format_directive. cbn [char list.tail].
    change (115 =? 115) with true. cbn. by rewrite c_string_app.
  - eapply (loops_directive 98); [done| |exact H]. unfold format_directive. cbn [char list.tail].
    change (98 =? 115) with false. change (98 =? 98) with true. cbn [app va_pointer va_scalar mbind outcome_bind].
    pose proof (zlen_nonneg b). rewrite uwrap_id by (unfold in_uint; lia). destruct (Z.ltb_spec 0 (zlen b)).
    + pose proof (load_app [] b rest 0 (zlen b) eq_refl eq_refl) as Hl. cbn [app] in Hl. by rewrite Hl.
    + assert (b = []) as -> by (destruct b; [done|]; rewrite zlen_cons in *; pose proof (zlen_nonneg b); lia).
      by rewrite app_nil_r.
  - eapply (loops_directive 100); [done| |exact H]. unfold format_directive. cbn [char list.tail].
    change (100 =? 115) with false. change (100 =? 98) with false. change (100 =? 37) with false.
    assert (scan_format (100 :: c) = Some (AInt, 100 :: c)) as -> by reflexivity. cbn [app va_scalar mbind outcome_bind].
    assert (Z.of_nat (length (37 :: 100 :: c) - length (100 :: c)) + 1 = 2) as -> by (cbn [length]; lia).
    change (2 <? 14) with true. change (take (Z.to_nat 2) (37 :: 100 :: c)) with (str "%d"). cbn [vsnprintf]. by rewrite print_int.
  - eapply (loops_directive 37); [done|reflexivity|exact H].
Qed.

Lemma loops_word w : forall c ap cur t argv R, w <> [] -> Forall piece_ok w ->
  loops c ap (cur ++ word_text w) true argv R ->
  loops (word_format w ++ c) (concat (piece_slots <$> w) ++ ap) cur t argv R.
Proof.
  induction w as [|p w IH]; intros c ap cur t argv R Hne Hw H; [done|]. apply Forall_cons_iff in Hw as [Hp Hw].
  unfold word_format, word_text in *. cbn [fmap list_fmap concat] in *. rewrite <- !app_assoc.
  apply loops_piece; [done|]. destruct w as [|p2 w].
  - cbn [app list_fmap concat] in *. by rewrite app_nil_r in H.
  - apply IH; [done|done|]. by rewrite <- app_assoc.
Qed.

Lemma loops_words ws : forall cur argv, template_ok ws ->
  loops (concat ((fun w => 32 :: word_format w) <$> ws)) (concat (piece_slots <$> concat ws)) cur true argv
    (Ok (Some (argv ++ cur :: (word_text <$> ws)))).
Proof.
  induction ws as [|w ws IH]; intros cur argv Hws.
  - intros [|fuel] Hf; [simpl in Hf; lia|]. done.
  - apply Forall_cons_iff in Hws as [[Hne Hw] Hws]. cbn [fmap list_fmap concat]. rewrite fmap_app, concat_app.
    apply loops_blank. apply loops_word; [done|done|]. cbn [app].
    specialize (IH (word_text w) (argv ++ [cur]) Hws). by rewrite <- app_assoc in IH.
Qed.

Lemma build_command_ok argv :
  zlen (Proto.format_command argv) < 2147483648 -> build_command argv = Ok (Proto.format_command argv).
Proof.
  intros Hl. unfold build_command. pose proof (Proto.format_args_long argv) as Hn. pose proof (zlen_nonneg argv).
  pose proof (zlen_nonneg (Util.ll2string_chars (zlen argv))) as Hd.
  assert (zlen (Proto.format_command argv) =
    zlen (concat (Proto.format_arg <$> argv)) + (1 + zlen (Util.ll2string_chars (zlen argv)) + 2)) as Hz.
  { unfold Proto.format_command. rewrite !zlen_app. change (zlen (str "*")) with 1. change (zlen Client.crlf) with 2. lia. }
  rewrite Proto.totlen_format, Proto.intlen_digits by lia. cbn [mbind option_bind].
  rewrite Z.add_0_l, <- Hz, swrap_id by (unfold in_int; simpl; lia). by rewrite Z.eqb_refl.
Qed.

Lemma loops_template ws : template_ok ws -> loops (template_format ws) (template_slots ws) [] false [] (Ok (Some (word_text <$> ws))).
Proof.
  intros Hws. destruct ws as [|w ws]; [intros [|fuel] Hf; [simpl in Hf; lia|done]|].
  apply Forall_cons_iff in Hws as [[Hne Hw] Hws]. unfold template_format, template_slots. cbn [concat]. rewrite fmap_app, concat_app.
  apply loops_word; [done|done|]. by apply (loops_words ws (word_text w) []).
Qed.

(** C37: What is interpolated into a command cannot change its shape: with %s, %b, %d and %% in
    any arrangement of words, whatever the bytes of the strings (blanks, line ends, percent
    signs, and NULs in binary strings), redisvFormatCommand gives the command whose arguments
    are the words with the values in place. *)
Theorem redisvFormatCommand_template ws :
  template_ok ws -> zlen (Proto.format_command (word_text <$> ws)) < 2147483648 ->
  redisvFormatCommand pd (template_format ws) (template_slots ws) = Ok (Some (Proto.format_command (word_text <$> ws))).
Proof.
  intros Hws Hl. unfold redisvFormatCommand.
  rewrite (loops_template ws Hws) by lia. cbn [mbind outcome_bind]. by rewrite build_command_ok.
Qed.
End Template.

Lemma redisvFormatCommand_template_witness :
  redisvFormatCommand no_double (str "SET k:%s %b%% %d") [VPtr (str "a b" ++ [0; 9]); VPtr [0; 13; 10; 32; 5]; VWord 4; VWord (-7)] =
    Ok (Some (Proto.format_command [str "SET"; str "k:a b"; [0; 13; 10; 32; 37]; str "-7"])).
Proof.
  apply (redisvFormatCommand_template no_double
    [[PLit (str "SET")]; [PLit (str "k:"); PStr (str "a b") [9]]; [PBin [0; 13; 10; 32] [5]; PPercent]; [PInt (-7)]]).
  - repeat (constructor; [split; [done|repeat constructor; try done; by apply (bool_decide_unpack _)]|]). constructor.
  - vm_compute. reflexivity.
Defined.

(** ** A connection as a queue of answers *)

Definition wire (cs : list (list (list Z))) : list Z := concat (Proto.format_command <$> cs).

Section Session.
Context {S : Type} `{!Socket S} (alloc : Z -> bool) (Halloc : forall n, alloc n = true) (broken : Prop).

(** What the reader of the replies and the parser of the server support.  Only one reply is in the
    buffer of the reader at a time, with at most what a read of 16 KB has brought. *)
Definition manageable (answers : list (list (list Z)) -> list Reader.tree) (cs : list (list (list Z))) : Prop :=
  Forall (Reader.tree_ok 8) (answers cs) /\ Forall (fun t => zlen (Reader.encode t) < 2 ^ 30) (answers cs) /\
  Forall (fun a => Proto.command_ok a /\ zlen (Proto.format_command a) < 2147483648) cs.

(** The socket and the server behind it: [answers cs] are the answers to the commands [cs], sent
    one after the other; [peer s i o] tells that the bytes [i] have been accepted and the bytes
    [o] been returned.  A write takes some of the bytes, a read returns some of those that are
    due; when [broken], both may fail, and the connection may be closed. *)
Record faithful (answers : list (list (list Z)) -> list Reader.tree) (peer : S -> list Z -> list Z -> Prop) : Prop := {
  fa_length cs : length (answers cs) = length cs;
  fa_answer cs c : exists t, answers (cs ++ [c]) = answers cs ++ [t];
  fa_write s i o x : peer s i o -> x <> [] ->
    match sock_write s x with
    | (s', Written n) => 1 <= n <= zlen x /\ peer s' (i ++ take (Z.to_nat n) x) o
    | (_, WriteError _ _) => broken
    end;
  fa_read s cs o w n : manageable answers cs -> peer s (wire cs) o -> o ++ w = Reader.stream (answers cs) -> w <> [] -> 0 < n ->
    match sock_read s n with
    | (s', ReadBytes bs) => bs = [] /\ broken \/ bs <> [] /\ zlen bs <= n /\ exists w', w = bs ++ w' /\ peer s' (wire cs) (o ++ bs)
    | (_, ReadError _ _) => broken
    end;
}.

Context (answers : list (list (list Z)) -> list Reader.tree) (peer : S -> list Z -> list Z -> Prop).
Context (Hfaith : faithful answers peer).

(** The commands [cs] have been issued on the connection and [k] answers taken. *)
Record session (s : S) (c : redisContext) (cs : list (list (list Z))) (k : nat) : Prop := {
  se_err : err c = 0;
  se_block : blocking c = true;
  se_taken : (k <= length cs)%nat;
  se_ok : manageable answers cs;
  se_wire : exists i o w, peer s i o /\ i ++ obuf c = wire cs /\ o ++ w = Reader.stream (answers cs) /\
    Reader.waits (reader c) (drop k (answers cs)) w /\ Reader.len (reader c) < 2 ^ 31;
}.

(** The connection has failed, with an answer still to come: nothing is delivered any more. *)
Definition dead (c : redisContext) : Prop :=
  broken /\ err c <> 0 /\ blocking c = true /\ Reader.len (reader c) < 2 ^ 31 /\
  exists t ts w, Reader.waits (reader c) (t :: ts) w /\ zlen (Reader.stream ts) < zlen w.

Lemma fromReader_step c ts w :
  Reader.waits (reader c) ts w -> Reader.len (reader c) < 2 ^ 31 ->
  exists r' o, redisGetReplyFromReader alloc c = Ok (set_reader r' c, o, true) /\ Reader.len r' <= Reader.len (reader c) /\
    match o with
    | Some x => exists t ts', ts = t :: ts' /\ x = Reader.obj t /\ Reader.waits r' ts' w /\ zlen w <= zlen (Reader.stream ts')
    | None => Reader.waits r' ts w /\ (ts <> [] -> zlen (Reader.stream (list.tail ts)) < zlen w) /\ Reader.len r' <= Reader.buffered ts
    end.
Proof.
  intros Hw Hl. destruct (Reader.getReply_step alloc Halloc (reader c) ts w Hw Hl) as (r' & o & E & Hl' & Ho).
  exists r', o. unfold redisGetReplyFromReader. rewrite E. split; [done|]. split; [done|].
  destruct o; [|done]. destruct Ho as (t & ts' & H1 & H2 & H3 & _ & H4). by exists t, ts'.
Qed.

Lemma dead_getReply fuel s c : dead c ->
  exists c', redisGetReply alloc (Datatypes.S fuel) s c = Ok (s, c', None, false) /\ dead c'.
Proof.
  intros (Hbr & He & Hb & Hl & t & ts & w & Hw & Hz). destruct (fromReader_step c (t :: ts) w Hw Hl) as (r' & o & E & Hl' & Ho).
  exists (set_reader r' c). unfold redisGetReply. rewrite E. cbn [mbind outcome_bind negb]. destruct o as [x|].
  - destruct Ho as (t' & ts' & [= -> ->] & _ & _ & Hz'). lia.
  - destruct Ho as (Hw' & _). change (blocking (set_reader r' c)) with (blocking c). rewrite Hb.
    cbn [write_loop]. unfold redisBufferWrite. change (err (set_reader r' c)) with (err c).
    rewrite (proj2 (Z.eqb_neq (err c) 0)) by done. split; [done|]. split_and!; try done; [cbn; lia|]. by exists t, ts, w.
Qed.

Lemma dead_append c cmd : dead c -> exists c', redisAppend alloc cmd c = (c', true) /\ dead c'.
Proof. intros Hd. unfold redisAppend. rewrite Halloc. by eexists. Qed.

(** Another command. *)
Lemma waits_more r ts w ts' : Reader.waits r ts w -> Forall (Reader.tree_ok 8) ts' ->
  Reader.waits r (ts ++ ts') (w ++ Reader.stream ts').
Proof.
  intros [He Hb Hp Hok Hst] Hok'. assert (forall l, Reader.stream (l ++ ts') = Reader.stream l ++ Reader.stream ts') as Happ.
  { intros l. unfold Reader.stream. by rewrite fmap_app, concat_app. }
  split; [done|done|done|by apply Forall_app|]. destruct Hst as [(H1 & H2 & H3)|(K & t & ty & ts0 & H1 & H2 & -> & H3)].
  - left. split; [done|]. split; [done|]. by rewrite app_assoc, H3, Happ.
  - right. exists K, t, ty, (ts0 ++ ts'). split; [done|]. split; [done|]. split; [done|].
    rewrite app_assoc, H3, Happ, (Reader.remaining_app K t ty (Reader.stream ts0)), (Reader.remaining_app K t ty (_ ++ _)).
    by rewrite <- app_assoc.
Qed.

Lemma redisAppend_step s c cs k argv :
  session s c cs k -> manageable answers (cs ++ [argv]) ->
  exists c', redisAppend alloc (Proto.format_command argv) c = (c', true) /\ session s c' (cs ++ [argv]) k.
Proof.
  intros [He Hb Hk Hm (i & o & w & Hp & Hi & Ho & Hw & Hl)] Hm'. unfold redisAppend. rewrite Halloc. eexists. split; [done|].
  destruct (fa_answer _ _ Hfaith cs argv) as [t Ht]. split; try done.
  - rewrite length_app. cbn. lia.
  - exists i, o, (w ++ Reader.stream [t]). split; [done|]. split; [|split; [|split]].
    + cbn. rewrite app_assoc, Hi. unfold wire. rewrite fmap_app, concat_app. cbn. by rewrite app_nil_r.
    + rewrite app_assoc, Ho, Ht. unfold Reader.stream. by rewrite fmap_app, concat_app.
    + cbn. rewrite Ht, drop_app_le by (rewrite (fa_length _ _ Hfaith); lia). apply waits_more; [done|].
      destruct Hm' as [Hm' _]. rewrite Ht in Hm'. by apply Forall_app in Hm' as [_ Hm'].
    + done.
Qed.

(** Flushing the output buffer. *)
Lemma write_loop_step i0 o : forall fuel s c i, peer s i o -> i ++ obuf c = i0 -> err c = 0 -> blocking c = true ->
  (length (obuf c) < fuel)%nat ->
  exists s' c' ok, write_loop fuel s c = Ok (s', c', ok) /\ reader c' = reader c /\ blocking c' = true /\
    if ok : bool then err c' = 0 /\ obuf c' = [] /\ peer s' i0 o else broken /\ err c' <> 0.
Proof.
  induction fuel as [|fuel IH]; intros s c i Hp Hi He Hb Hf; [lia|]. cbn [write_loop]. unfold redisBufferWrite. rewrite He.
  change (negb (0 =? 0)) with false. cbv iota. pose proof (zlen_nonneg (obuf c)).
  destruct (Z.ltb_spec 0 (zlen (obuf c))) as [Hlt|Hge].
  - assert (obuf c <> []) as Hne by (intros E; rewrite E in Hlt; done).
    pose proof (fa_write _ _ Hfaith s i o (obuf c) Hp Hne) as Hwr. destruct (sock_write s (obuf c)) as [s' [n|eagain msg]].
    + destruct Hwr as [Hn Hp']. destruct (Z.ltb_spec 0 n); [|lia].
      destruct (Z.eqb_spec n (zlen (obuf c))) as [->|Hnn].
      * cbn [negb]. change (zlen (obuf (set_obuf [] c)) =? 0) with true. cbv iota. eexists _, _, true. split; [done|].
        split; [done|]. split; [done|]. split; [done|]. split; [done|]. unfold zlen in Hp'.
        rewrite Nat2Z.id, firstn_all, Hi in Hp'. done.
      * cbn [negb]. rewrite Sds.range_drop by lia. set (c1 := set_obuf _ c).
        assert (obuf c1 = drop (Z.to_nat n) (obuf c)) as Ho1 by done.
        destruct (Z.eqb_spec (zlen (obuf c1)) 0) as [Hz|Hz].
        { rewrite Ho1 in Hz. unfold zlen in *. rewrite length_drop in Hz. lia. }
        destruct (IH s' c1 (i ++ take (Z.to_nat n) (obuf c)) Hp') as (s2 & c2 & ok & E & H1 & H2 & H3); try done.
        { rewrite Ho1, <- app_assoc, take_drop. done. }
        { rewrite Ho1, length_drop. unfold zlen in *. lia. }
        rewrite E. by exists s2, c2, ok.
    + rewrite Hb. destruct eagain; cbn [andb negb]; (eexists _, _, false; split; [done|]; split; [done|]; split; done).
  - assert (obuf c = []) as Hnil by (destruct (obuf c); [done|rewrite zlen_cons in Hge; pose proof (zlen_nonneg l); lia]).
    cbn [negb]. rewrite Hnil. change (zlen [] =? 0) with true. cbv iota. exists s, c, true.
    rewrite Hnil, app_nil_r in Hi. subst i0. done.
Qed.

(** What a call that waits for the next answer gives: the answer, or a failed connection. *)
Definition delivered (s' : S) (c' : redisContext) (o : option Reader.redisReply) (ok : bool) (cs : list (list (list Z))) (k : nat) : Prop :=
  if ok then exists t, answers cs !! k = Some t /\ o = Some (Reader.obj t) /\ session s' c' cs (Datatypes.S k)
  else o = None /\ dead c'.

Lemma drop_cons k cs t ts : drop k (answers cs) = t :: ts -> answers cs !! k = Some t /\ drop (Datatypes.S k) (answers cs) = ts.
Proof.
  intros H. assert (answers cs !! k = Some t) as Hk by (by rewrite <- (Nat.add_0_r k), <- lookup_drop, H).
  split; [done|]. rewrite (drop_S _ _ _ Hk) in H. by injection H as ->.
Qed.

Lemma read_loop_step cs k : forall fuel s c o t ts w, err c = 0 -> blocking c = true -> obuf c = [] -> (k <= length cs)%nat ->
  manageable answers cs -> peer s (wire cs) o -> o ++ w = Reader.stream (answers cs) -> Reader.waits (reader c) (t :: ts) w ->
  drop k (answers cs) = t :: ts -> zlen (Reader.stream ts) < zlen w -> Reader.len (reader c) <= Reader.buffered (t :: ts) ->
  (length w < fuel)%nat ->
  exists s' c' x ok, read_loop alloc fuel s c = Ok (s', c', x, ok) /\ delivered s' c' x ok cs k.
Proof.
  induction fuel as [|fuel IH]; intros s c o t ts w He Hb Hob Hk Hm Hp Ho Hw Hd Hz Hl Hf; [lia|]. cbn [read_loop].
  unfold redisBufferRead. rewrite He. change (negb (0 =? 0)) with false. cbv iota.
  assert (w <> []) as Hwne by (intros ->; rewrite zlen_nil in Hz; pose proof (zlen_nonneg (Reader.stream ts)); lia).
  assert (Reader.buffered (t :: ts) < 2 ^ 30 + 1024) as Hbound by (unfold Reader.buffered; destruct Hm as (_ & Hm & _); rewrite List.Forall_forall in Hm; assert (List.In t (answers cs)) as Hin by (apply list_elem_of_In; apply list_elem_of_lookup_2 with k; by apply (drop_cons k cs t ts)); specialize (Hm t Hin); lia).
  assert (Hdead : forall ty msg, broken -> ty <> 0 -> dead (redisSetError ty msg c)).
  { intros ty msg Hbr Hty. split; [done|]. split; [done|]. split; [done|]. split; [cbn; lia|]. by exists t, ts, w. }
  pose proof (fa_read _ _ Hfaith s cs o w (1024 * 16) Hm Hp Ho Hwne ltac:(lia)) as Hrd.
  destruct (sock_read s (1024 * 16)) as [s' [bs|eagain msg]].
  - destruct bs as [|b bs].
    { cbn [negb]. eexists _, _, None, false. split; [done|]. split; [done|]. apply Hdead; [|done].
      by destruct Hrd as [[_ ?]|[? _]]. }
    destruct Hrd as [[Hrd _]|(_ & Hn & w' & -> & Hp')]; [done|]. set (data := b :: bs) in *.
    destruct (Reader.feed_step alloc Halloc (reader c) (t :: ts) data w' Hw) as (r1 & -> & Hw1 & Hl1). cbn [negb].
    rewrite zlen_app in *. pose proof (zlen_nonneg w').
    destruct (fromReader_step (set_reader r1 c) (t :: ts) w' Hw1) as (r2 & x & E & Hl2 & Hx); [cbn; lia|].
    rewrite E. cbn [mbind outcome_bind negb].
    assert (Reader.len r2 < 2 ^ 31) as Hlen by (cbn in Hl2; lia).
    assert ((o ++ data) ++ w' = Reader.stream (answers cs)) as Ho' by (by rewrite <- app_assoc).
    destruct x as [x|].
    + destruct Hx as (t' & ts' & [= <- <-] & -> & Hw2 & _). eexists _, _, _, true. split; [done|].
      destruct (drop_cons k cs t ts Hd) as [Hkt Hts]. exists t. split; [done|]. split; [done|]. split; try done.
      * apply lookup_lt_Some in Hkt. rewrite (fa_length _ _ Hfaith) in Hkt. lia.
      * exists (wire cs), (o ++ data), w'. split; [done|]. split; [cbn; by rewrite Hob, app_nil_r|]. split; [done|].
        cbn. rewrite Hts. done.
    + destruct Hx as (Hw2 & Hz2 & Hb2). specialize (Hz2 ltac:(done)). cbn [list.tail] in Hz2.
      apply (IH s' (set_reader r2 (set_reader r1 c)) (o ++ data) t ts w'); try done.
      unfold data in Hf. rewrite length_app in Hf. cbn [length] in Hf. lia.
  - rewrite Hb. destruct eagain; cbn [andb negb]; (eexists _, _, None, false; split; [done|]; split; [done|]; by apply Hdead).
Qed.

Lemma redisGetReply_step fuel s c cs k :
  session s c cs k -> (k < length cs)%nat -> (length (wire cs) < fuel)%nat -> zlen (Reader.stream (answers cs)) < Z.of_nat fuel ->
  exists s' c' x ok, redisGetReply alloc fuel s c = Ok (s', c', x, ok) /\ delivered s' c' x ok cs k.
Proof.
  intros [He Hb Hk Hm (i & o & w & Hp & Hi & Ho & Hw & Hl)] Hlt Hf1 Hf2. unfold redisGetReply.
  destruct (drop k (answers cs)) as [|t ts] eqn:Hd.
  { apply (f_equal length) in Hd. rewrite length_drop, (fa_length _ _ Hfaith) in Hd. cbn in Hd. lia. }
  destruct (fromReader_step c (t :: ts) w Hw) as (r1 & x & E & Hl1 & Hx); [lia|]. rewrite E. cbn [mbind outcome_bind negb].
  destruct (drop_cons k cs t ts Hd) as [Hkt Hts]. destruct x as [x|].
  - destruct Hx as (t' & ts' & [= <- <-] & -> & Hw1 & _). eexists _, _, _, true. split; [done|].
    exists t. split; [done|]. split; [done|]. split; try done.
    exists i, o, w. split; [done|]. split; [done|]. split; [done|]. cbn. rewrite Hts. split; [done|lia].
  - destruct Hx as (Hw1 & Hz & Hb1). specialize (Hz ltac:(done)). cbn [list.tail] in Hz. set (c1 := set_reader r1 c).
    change (blocking c1) with (blocking c). rewrite Hb.
    destruct (write_loop_step (wire cs) o fuel s c1 i Hp Hi He Hb) as (s2 & c2 & ok & E2 & Hr2 & Hb2 & Hok).
    { apply (f_equal length) in Hi. rewrite length_app in Hi. change (obuf c1) with (obuf c). lia. }
    rewrite E2. cbn [mbind outcome_bind]. destruct ok; cbn [negb].
    + destruct Hok as (He2 & Ho2 & Hp2). apply (read_loop_step cs k fuel s2 c2 o t ts w); try done.
      * by rewrite Hr2.
      * rewrite Hr2. cbn. lia.
      * rewrite <- Ho, zlen_app in Hf2. unfold zlen in *. lia.
    + eexists _, _, None, false. destruct Hok as [Hbr Hok]. split; [done|]. split; [done|]. split; [done|]. split; [done|]. split; [done|]. rewrite Hr2.
      split; [cbn; lia|]. by exists t, ts, w.
Qed.
End Session.
End Hiredis.
