(* ===== verification/Redispp.v ===== *)
(** * redispp.cc: the Redis client of the engine

    Model of [redis::Client] ([src/src/redispp.cc], [redispp.h]) over the hiredis connection of
    [Hiredis].  A method is a computation on the client and the socket; [Undefined] is a failing
    CHECK, an access out of bounds or a NULL dereference.  A [char*] with its length is a byte
    string, of which the length is passed as an int ([bin]); [assign(NULL, 0)], which the code
    calls for replies without a text, gives the empty string.

    [client_serves]: on a connection with a server behind it ([Hiredis.faithful]) every sequence
    of calls gives the results of executing the commands on the server one after the other,
    transactions included, up to the first failure of the connection; from then on every call
    fails.  This needs that the server queues every command of a transaction:
    [refused_transaction_desync] shows that otherwise answers go to the wrong calls. *)

From Stdlib Require Import ZArith Lia.
From stdpp Require Import prelude list gmap strings numbers.
From S2P Require Import Prelude.
From S2P Require Import Util.
From S2P Require Import Client.
From S2P Require Import Proto.
From S2P Require Import Reader.
From S2P Require Import Hiredis.

Local Open Scope Z_scope.

Module Redispp.

Import Hiredis(va_slot(..), Socket(..), redisContext, char).

Record Client := mkClient { ip_ : list Z; port_ : Z; ctx_ : option redisContext; last_error_ : list Z }.

Definition NewClient (ip : list Z) (port : Z) : Client := mkClient ip port None [].

(** ** Fields of a reply *)

Definition type (r : Reader.redisReply) : Z :=
  match r with
  | Reader.RString ty _ => ty
  | Reader.RInteger _ => Reader.REDIS_REPLY_INTEGER
  | Reader.RNil => Reader.REDIS_REPLY_NIL
  | Reader.RArray _ _ => Reader.REDIS_REPLY_ARRAY
  end.
(** [std::string(reply->str, reply->len)] *)
Definition text (r : Reader.redisReply) : list Z := match r with Reader.RString _ s => s | _ => [] end.
Definition integer (r : Reader.redisReply) : Z := match r with Reader.RInteger z => z | _ => 0 end.
Definition elements (r : Reader.redisReply) : Z := match r with Reader.RArray n _ => n | _ => 0 end.

(** [strncmp(a, b, n) == 0] on C strings. *)
Fixpoint strncmp_eq (a b : list Z) (n : nat) : bool :=
  match n with
  | O => true
  | S n => if char a =? char b then if char a =? 0 then true else strncmp_eq (tail a) (tail b) n else false
  end.

(** [reply->type == REDIS_REPLY_STATUS && strncmp(s, reply->str, reply->len) == 0] *)
Definition is_status (s : list Z) (r : Reader.redisReply) : bool :=
  (type r =? Reader.REDIS_REPLY_STATUS) && strncmp_eq s (text r) (length (text r)).

Definition unexpected (r : Reader.redisReply) : list Z :=
  str "unexpected reply, type: " ++ Util.ll2string_chars (type r).

(** A byte string with its length as an int, and with its size as a size_t. *)
Definition bin (k : list Z) : list va_slot := [VPtr k; VWord (swrap 32 (zlen k))].
Definition sized (k : list Z) : list va_slot := [VPtr k; VWord (zlen k)].

(** [i < (int)v.size()] *)
Definition counted {A} (v : list A) : nat := Z.to_nat (swrap 32 (zlen v)).

(** [std::map<std::string, std::string>] *)
Abbreviation fields := (gmap (list Z) (list Z)).

Section Methods.
Context {S : Type} `{!Socket S} (alloc : Z -> bool) (print_double : list Z -> list Z -> list Z) (fuel : nat).
(** redisContextConnectTcp: the error number and message, unless it succeeds. *)
Context (connect_tcp : list Z -> Z -> S -> S * option (Z * list Z)).

Definition M (A : Type) : Type := Client -> S -> outcome (A * Client * S).
#[local] Instance M_ret : MRet M := fun A a cl s => Ok (a, cl, s).
#[local] Instance M_bind : MBind M := fun A B f m cl s =>
  match m cl s with Ok (a, cl, s) => f a cl s | Undefined => Undefined | OutOfFuel => OutOfFuel end.

Definition undefined {A} : M A := fun _ _ => Undefined.
Definition set_ctx (c : option redisContext) : M unit := fun cl s => Ok (tt, mkClient (ip_ cl) (port_ cl) c (last_error_ cl), s).
Definition set_error (msg : list Z) : M unit := fun cl s => Ok (tt, mkClient (ip_ cl) (port_ cl) (ctx_ cl) msg, s).
Definition connected : M bool := fun cl s => Ok (bool_decide (is_Some (ctx_ cl)), cl, s).

(** [last_error_ = ctx_->errstr] *)
Definition ctx_error : M unit := fun cl s =>
  match ctx_ cl with Some c => set_error (Hiredis.errstr c) cl s | None => Undefined end.

(** [redisCommand(ctx_, format, ...)], [redisAppendCommand(...) == REDIS_OK]. *)
Definition redisCommand (format : list Z) (ap : list va_slot) : M (option Reader.redisReply) := fun cl s =>
  match ctx_ cl with
  | None => Undefined
  | Some c =>
    '(s, c, r) ← Hiredis.redisvCommand alloc print_double fuel format ap s c;
    Ok (r, mkClient (ip_ cl) (port_ cl) (Some c) (last_error_ cl), s)
  end.
Definition redisAppendCommand (format : list Z) (ap : list va_slot) : M bool := fun cl s =>
  match ctx_ cl with
  | None => Undefined
  | Some c =>
    '(c, ok) ← Hiredis.redisvAppendCommand alloc print_double format ap c;
    Ok (ok, mkClient (ip_ cl) (port_ cl) (Some c) (last_error_ cl), s)
  end.
(** [redisGetReply(ctx_, &reply)]: [reply] keeps its value when the call fails. *)
Definition redisGetReply (reply : option Reader.redisReply) : M (option Reader.redisReply) := fun cl s =>
  match ctx_ cl with
  | None => Undefined
  | Some c =>
    '(s, c, r, ok) ← Hiredis.redisGetReply alloc fuel s c;
    Ok (if ok : bool then r else reply, mkClient (ip_ cl) (port_ cl) (Some c) (last_error_ cl), s)
  end.

(** Setting the error and returning. *)
Definition fail {A} (msg : list Z) (a : A) : M A := _ ← set_error msg; mret a.
Definition fail_ctx {A} (a : A) : M A := _ ← ctx_error; mret a.

Definition not_connected : list Z := str "redis not connected".

(** ** Connecting *)

Definition Connect : M bool :=
  _ ← set_error [];
  b ← connected;
  if b : bool then fail (str "redis is already connected.") false
  else fun cl s =>
    let '(s, e) := connect_tcp (ip_ cl) (port_ cl) s in
    match e with
    | None => (_ ← set_ctx (Some (Hiredis.redisContextInit true)); mret true) cl s
    | Some (_, msg) => (_ ← set_error (take 127 msg); _ ← set_ctx None; mret false) cl s
    end.

Definition Disconnect : M bool :=
  _ ← set_error [];
  b ← connected;
  if b : bool then _ ← set_ctx None; mret true else fail not_connected false.

Definition Reconnect : M bool := _ ← set_error []; _ ← Disconnect; Connect.

Definition Ping : M bool :=
  _ ← set_error [];
  b ← connected;
  if negb b then fail not_connected false
  else
    reply ← redisCommand (str "PING") [];
    match reply with
    | None => fail_ctx false
    | Some r =>
      if (zlen (text r) =? 4) && bool_decide (text r = str "PONG") then mret true
      else fail (str "unknown reply for PING: " ++ text r) false
    end.

(** ** Strings *)

Definition SetEx (key value : list Z) (life_in_seconds : Z) : M bool :=
  _ ← set_error [];
  b ← connected;
  if negb b then fail not_connected false
  else
    reply ← (if 0 <? life_in_seconds
             then redisCommand (str "SETEX %b %d %b") (bin key ++ [VWord life_in_seconds] ++ bin value)
             else redisCommand (str "SET %b %b") (bin key ++ bin value));
    match reply with
    | None => fail_ctx false
    | Some r => if negb (is_status (str "OK") r) then fail (unexpected r) false else mret true
    end.

(** The common end of Get, HashGet and the pops: the result and [*value]. *)
Definition string_reply (absent : list Z) (r : Reader.redisReply) : M (Z * list Z) :=
  if type r =? Reader.REDIS_REPLY_ERROR then fail (text r) (-1, [])
  else if type r =? Reader.REDIS_REPLY_STRING then mret (0, text r)
  else if type r =? Reader.REDIS_REPLY_NIL then fail absent (1, [])
  else mret (-1, []).

(** A command whose reply is a string. *)
Definition string_command (format : list Z) (ap : list va_slot) (absent : list Z) : M (Z * list Z) :=
  _ ← set_error [];
  b ← connected;
  if negb b then fail not_connected (-1, [])
  else
    reply ← redisCommand format ap;
    match reply with None => fail_ctx (-1, []) | Some r => string_reply absent r end.

Definition no_key : list Z := str "the key doesn't exist".
Definition no_field : list Z := str "the key-field doesn't exist".

Definition Get (key : list Z) : M (Z * list Z) := string_command (str "GET %b") (bin key) no_key.

Definition Delete (key : list Z) : M Z :=
  _ ← set_error [];
  b ← connected;
  if negb b then fail not_connected (-1)
  else
    reply ← redisCommand (str "DEL %b") (bin key);
    match reply with
    | None => fail_ctx (-1)
    | Some r =>
      if type r =? Reader.REDIS_REPLY_INTEGER then mret 0
      else if type r =? Reader.REDIS_REPLY_ERROR then fail (text r) (-1)
      else mret (-1)
    end.

(** ** Hashes *)

Definition is_bit (r : Reader.redisReply) (one_only : bool) : bool :=
  (type r =? Reader.REDIS_REPLY_INTEGER) && ((negb one_only && (integer r =? 0)) || (integer r =? 1)).

Definition HashSetEx (key field value : list Z) (life_in_seconds : Z) : M bool :=
  _ ← set_error [];
  b ← connected;
  if negb b then fail not_connected false
  else
    reply ← redisCommand (str "HSET %b %b %b") (bin key ++ bin field ++ bin value);
    match reply with
    | None => fail_ctx false
    | Some r =>
      if negb (is_bit r false) then fail (unexpected r) false
      else if life_in_seconds <=? 0 then mret true
      else
        reply ← redisCommand (str "EXPIRE %b %d") (bin key ++ [VWord life_in_seconds]);
        match reply with
        | None => fail_ctx false
        | Some r => if negb (is_bit r true) then fail (unexpected r) false else mret true
        end
    end.

Definition HashGet (key field : list Z) : M (Z * list Z) :=
  string_command (str "HGET %b %b") (bin key ++ bin field) no_field.

(** The pairs of an array: [CHECK_EQ(elements % 2, 0u)], then two string elements at a time. *)
Fixpoint pairs_loop (els : list (option Reader.redisReply)) (acc : fields) : outcome fields :=
  match els with
  | [] => Ok acc
  | Some rf :: Some rv :: els =>
    if (type rf =? Reader.REDIS_REPLY_STRING) && (type rv =? Reader.REDIS_REPLY_STRING)
    then pairs_loop els (<[text rf := text rv]> acc) else Undefined
  | _ => Undefined
  end.
Definition pairs (r : Reader.redisReply) : outcome fields :=
  match r with
  | Reader.RArray n els => if n mod 2 =? 0 then pairs_loop els ∅ else Undefined
  | _ => Undefined
  end.

Definition lift {A} (o : outcome A) : M A := fun cl s => a ← o; Ok (a, cl, s).

Definition HashGetAllFields (key : list Z) : M (Z * fields) :=
  _ ← set_error [];
  b ← connected;
  if negb b then fail not_connected (-1, ∅)
  else
    reply ← redisCommand (str "HGETALL %b") (bin key);
    match reply with
    | None => fail_ctx (-1, ∅)
    | Some r =>
      if negb (type r =? Reader.REDIS_REPLY_ARRAY) then fail (unexpected r) (-1, ∅)
      else if elements r =? 0 then fail (str "the key dosen't exist") (1, ∅)
      else m ← lift (pairs r); mret (0, m)
    end.

(** ** Lists *)

(** The result and, on success, the length that is stored (cast to int32). *)
Definition push_command (format key value : list Z) : M (bool * option Z) :=
  _ ← set_error [];
  b ← connected;
  if negb b then fail not_connected (false, None)
  else
    reply ← redisCommand format (bin key ++ bin value);
    match reply with
    | None => fail_ctx (false, None)
    | Some r =>
      if type r =? Reader.REDIS_REPLY_ERROR then fail (text r) (false, None)
      else if type r =? Reader.REDIS_REPLY_INTEGER then mret (true, Some (swrap 32 (integer r)))
      else mret (false, None)
    end.

Definition ListPushLeft (key value : list Z) : M (bool * option Z) := push_command (str "LPUSH %b %b") key value.
Definition ListPushRight (key value : list Z) : M (bool * option Z) := push_command (str "RPUSH %b %b") key value.
Definition ListPopLeft (key : list Z) : M (Z * list Z) := string_command (str "LPOP %b") (bin key) no_key.
Definition ListPopRight (key : list Z) : M (Z * list Z) := string_command (str "RPOP %b") (bin key) no_key.

(** ** Transactions *)

Abbreviation request := (list Z * list va_slot)%type.

Fixpoint append_all (cmds : list request) : M bool :=
  match cmds with
  | [] => mret true
  | (format, ap) :: cmds =>
    ok ← redisAppendCommand format ap;
    if ok : bool then append_all cmds else fail_ctx false
  end.

(** The loop that appends the commands of every index; [None] is an index out of bounds. *)
Fixpoint append_loop (ns : list nat) (cmds : nat -> option (list request)) : M bool :=
  match ns with
  | [] => mret true
  | i :: ns =>
    match cmds i with
    | None => undefined
    | Some l => ok ← append_all l; if ok : bool then append_loop ns cmds else mret false
    end
  end.

(** MULTI, the commands, EXEC with the reply to MULTI. *)
Definition start_transaction (n : nat) (cmds : nat -> option (list request)) : M bool :=
  ok ← append_all [(str "MULTI", [])];
  if negb ok then mret false
  else
    ok ← append_loop (seq 0 n) cmds;
    if negb ok then mret false
    else
      reply ← redisCommand (str "EXEC") [];
      match reply with None => fail_ctx false | Some _ => mret true end.

(** The replies to [n] queued commands. *)
Fixpoint queued_loop (n : nat) : M bool :=
  match n with
  | O => mret true
  | Datatypes.S n =>
    reply ← redisGetReply None;
    match reply with
    | None => fail_ctx false
    | Some r => if is_status (str "QUEUED") r then queued_loop n else fail (unexpected r) false
    end
  end.

(** Two queued commands for every index; the second reply is read into the same variable. *)
Fixpoint queued_pairs_loop (n : nat) : M bool :=
  match n with
  | O => mret true
  | Datatypes.S n =>
    reply ← redisGetReply None;
    match reply with
    | None => fail_ctx false
    | Some r =>
      if negb (is_status (str "QUEUED") r) then fail (unexpected r) false
      else
        reply ← redisGetReply (Some r);
        match reply with
        | None => fail_ctx false
        | Some r => if is_status (str "QUEUED") r then queued_pairs_loop n else fail (unexpected r) false
        end
    end
  end.

(** The reply to EXEC; [count] is [keys.size()] where it is compared with. *)
Definition exec_reply (count : option Z) : M (option Reader.redisReply) :=
  reply ← redisGetReply None;
  match reply with
  | None => fail_ctx None
  | Some r =>
    if negb (type r =? Reader.REDIS_REPLY_ARRAY) || negb (match count with None => true | Some n => elements r =? n end)
    then fail (unexpected r) None else mret (Some r)
  end.

Definition MultiSetEx (keys values : list (list Z)) (lives : list Z) : M bool :=
  _ ← set_error [];
  b ← connected;
  if negb b then fail not_connected false
  else if negb (zlen keys =? zlen values) then fail (str "#keys != #values") false
  else
    ok ← start_transaction (counted keys) (fun i =>
      k ← keys !! i; life ← lives !! i; v ← values !! i;
      Some [if 0 <? life then (str "SETEX %b %d %b", sized k ++ [VWord life] ++ sized v)
            else (str "SET %b %b", sized k ++ sized v)]);
    if negb ok then mret false
    else
      ok ← queued_loop (counted keys);
      if negb ok then mret false
      else
        reply ← exec_reply None;
        match reply with None => mret false | Some r => fail (text r) true end.

(** With one life for all keys. *)
Definition MultiSetExLife (keys values : list (list Z)) (life : Z) : M bool :=
  MultiSetEx keys values (replicate (length keys) life).

Definition MultiHashSetEx (keys flds values : list (list Z)) (life_in_seconds : Z) : M bool :=
  _ ← set_error [];
  b ← connected;
  if negb b then fail not_connected false
  else if negb (zlen keys =? zlen values) then fail (str "#keys != #values") false
  else if negb (zlen keys =? zlen flds) then fail (str "#keys != #fields") false
  else
    ok ← start_transaction (counted keys) (fun i =>
      k ← keys !! i; f ← flds !! i; v ← values !! i;
      Some ((str "HSET %b %b %b", sized k ++ sized f ++ sized v) ::
            if 0 <? life_in_seconds then [(str "EXPIRE %b %d", sized k ++ [VWord life_in_seconds])] else []));
    if negb ok then mret false
    else
      ok ← (if 0 <? life_in_seconds then queued_pairs_loop (counted keys) else queued_loop (counted keys));
      if negb ok then mret false
      else
        reply ← exec_reply None;
        match reply with None => mret false | Some r => fail (text r) true end.

(** The loop over the elements of the reply to EXEC: the value and the code of every key, and
    how many were found. *)
Fixpoint values_loop (absent : list Z) (n : nat) (els : list (option Reader.redisReply)) : M (list (list Z * Z) * Z) :=
  match n, els with
  | O, _ => mret ([], 0)
  | Datatypes.S n, Some r :: els =>
    '(vc, ok) ← (if type r =? Reader.REDIS_REPLY_ERROR then fail (text r) ([], -1, 0)
                 else if type r =? Reader.REDIS_REPLY_STRING then mret (text r, 0, 1)
                 else if type r =? Reader.REDIS_REPLY_NIL then fail absent ([], 1, 0)
                 else mret ([], -1, 0));
    '(rest, ok_num) ← values_loop absent n els;
    mret (vc :: rest, ok + ok_num)
  | _, _ => undefined
  end.

Definition array (r : Reader.redisReply) : list (option Reader.redisReply) :=
  match r with Reader.RArray _ els => els | _ => [] end.

(** The result, and the pairs of [values] and [ret_codes]. *)
Definition multi_values (absent : list Z) (keys : list (list Z)) (cmds : nat -> option (list request)) : M (bool * list (list Z * Z)) :=
  let nothing := replicate (length keys) ([], -1) in
  _ ← set_error [];
  b ← connected;
  if negb b then fail not_connected (false, nothing)
  else
    ok ← start_transaction (counted keys) cmds;
    if negb ok then mret (false, nothing)
    else
      ok ← queued_loop (counted keys);
      if negb ok then mret (false, nothing)
      else
        reply ← exec_reply (Some (zlen keys));
        match reply with
        | None => mret (false, nothing)
        | Some r =>
          '(vs, ok_num) ← values_loop absent (Z.to_nat (swrap 32 (elements r))) (array r);
          fail (text r) (ok_num =? swrap 32 (zlen keys), vs)
        end.

Definition MultiGet (keys : list (list Z)) : M (bool * list (list Z * Z)) :=
  multi_values no_key keys (fun i => k ← keys !! i; Some [(str "GET %b", sized k)]).
Definition MultiHashGet (keys flds : list (list Z)) : M (bool * list (list Z * Z)) :=
  multi_values no_field keys (fun i => k ← keys !! i; f ← flds !! i; Some [(str "HGET %b %b", sized k ++ sized f)]).
Definition MultiListPopLeft (keys : list (list Z)) : M (bool * list (list Z * Z)) :=
  multi_values no_key keys (fun i => k ← keys !! i; Some [(str "LPOP %b", sized k)]).
Definition MultiListPopRight (keys : list (list Z)) : M (bool * list (list Z * Z)) :=
  multi_values no_key keys (fun i => k ← keys !! i; Some [(str "RPOP %b", sized k)]).

Fixpoint fields_loop (n : nat) (els : list (option Reader.redisReply)) : M (list (fields * Z) * Z) :=
  match n, els with
  | O, _ => mret ([], 0)
  | Datatypes.S n, Some r :: els =>
    '(fc, ok) ← (if type r =? Reader.REDIS_REPLY_ERROR then fail (text r) (∅, -1, 0)
                 else if type r =? Reader.REDIS_REPLY_ARRAY then
                   if elements r =? 0 then fail no_key (∅, 1, 0)
                   else m ← lift (pairs r); mret (m, 0, 1)
                 else if type r =? Reader.REDIS_REPLY_NIL then fail no_key (∅, 1, 0)
                 else mret (∅, -1, 0));
    '(rest, ok_num) ← fields_loop n els;
    mret (fc :: rest, ok + ok_num)
  | _, _ => undefined
  end.

Definition MultiHashGetAllFields (keys : list (list Z)) : M (bool * list (fields * Z)) :=
  let nothing := replicate (length keys) (∅, -1) in
  _ ← set_error [];
  b ← connected;
  if negb b then fail not_connected (false, nothing)
  else
    ok ← start_transaction (counted keys) (fun i => k ← keys !! i; Some [(str "HGETALL %b", sized k)]);
    if negb ok then mret (false, nothing)
    else
      ok ← queued_loop (counted keys);
      if negb ok then mret (false, nothing)
      else
        reply ← exec_reply (Some (zlen keys));
        match reply with
        | None => mret (false, nothing)
        | Some r =>
          '(fs, ok_num) ← fields_loop (Z.to_nat (swrap 32 (elements r))) (array r);
          fail (text r) (ok_num =? swrap 32 (zlen keys), fs)
        end.

(** *** The socket itself *)

(** [recv(fd, buf, 1, MSG_DONTWAIT)]: the number of bytes, or the error number. *)
Context (recv1 : S -> S * (Z + Z)).
(** redisSetTimeout with seconds and microseconds; false is REDIS_ERR. *)
Context (set_timeout : Z -> Z -> S -> S * bool).
Definition EAGAIN : Z := 11.

(** The descriptor is taken to be valid.  A byte that has arrived is lost. *)
Definition IsConnected : M bool := fun cl s =>
  match ctx_ cl with
  | None => Undefined
  | Some _ =>
    let '(s, r) := recv1 s in
    Ok (match r with inl _ => false | inr e => e =? EAGAIN end, cl, s)
  end.

Definition SetReadWriteTimeOut (timeout_in_ms : Z) : M bool := fun cl s =>
  match ctx_ cl with
  | None => Ok (false, cl, s)
  | Some _ =>
    let '(s, ok) := set_timeout (Z.quot timeout_in_ms 1000) (Z.rem timeout_in_ms 1000 * 1000) s in Ok (ok, cl, s)
  end.
End Methods.
(** ** The server as a reference

    [exec] executes a command; [texec] adds transactions, of which the server queues every
    command. *)

Abbreviation argv := (list (list Z)).

Section Server.
Context {Q : Type} (exec : Q -> argv -> Q * Reader.tree).

Fixpoint exec_all (q : Q) (cs : list argv) : Q * list Reader.tree :=
  match cs with
  | [] => (q, [])
  | c :: cs => let '(q, t) := exec q c in let '(q, ts) := exec_all q cs in (q, t :: ts)
  end.

(** The data, and the commands queued since MULTI. *)
Abbreviation tstate := (Q * option (list argv))%type.

Definition texec (st : tstate) (c : argv) : tstate * Reader.tree :=
  match st with
  | (q, None) =>
    if bool_decide (c = [str "MULTI"]) then ((q, Some []), Reader.TStatus (str "OK"))
    else let '(q, t) := exec q c in ((q, None), t)
  | (q, Some l) =>
    if bool_decide (c = [str "EXEC"]) then let '(q, ts) := exec_all q l in ((q, None), Reader.TArray ts)
    else ((q, Some (l ++ [c])), Reader.TStatus (str "QUEUED"))
  end.

Fixpoint serve (st : tstate) (cs : list argv) : tstate * list Reader.tree :=
  match cs with
  | [] => (st, [])
  | c :: cs => let '(st, t) := texec st c in let '(st, ts) := serve st cs in (st, t :: ts)
  end.

Lemma serve_app st cs cs' :
  serve st (cs ++ cs') = let '(st, ts) := serve st cs in let '(st, ts') := serve st cs' in (st, ts ++ ts').
Proof.
  revert st. induction cs as [|c cs IH]; intros st; cbn [app serve]; [by destruct (serve st cs')|].
  destruct (texec st c) as [st1 t]. rewrite IH. destruct (serve st1 cs) as [st2 ts]. by destruct (serve st2 cs').
Qed.

Lemma serve_length st cs : length (serve st cs).2 = length cs.
Proof.
  revert st. induction cs as [|c cs IH]; intros st; [done|]. cbn [serve]. destruct (texec st c) as [st1 t].
  specialize (IH st1). destruct (serve st1 cs). cbn in *. lia.
Qed.

(** *** What the calls return *)

Inductive call :=
  | CPing
  | CSetEx (k v : list Z) (life : Z)
  | CGet (k : list Z)
  | CDelete (k : list Z)
  | CHashSetEx (k f v : list Z) (life : Z)
  | CHashGet (k f : list Z)
  | CHashGetAllFields (k : list Z)
  | CListPush (left_ : bool) (k v : list Z)
  | CListPop (left_ : bool) (k : list Z)
  | CMultiSetEx (ks vs : list (list Z)) (lives : list Z)
  | CMultiGet (ks : list (list Z))
  | CMultiHashSetEx (ks fs vs : list (list Z)) (life : Z)
  | CMultiHashGet (ks fs : list (list Z))
  | CMultiListPop (left_ : bool) (ks : list (list Z))
  | CMultiHashGetAllFields (ks : list (list Z)).

Inductive result :=
  | RBool (b : bool)
  | RCode (c : Z)
  | RValue (p : Z * list Z)
  | RFields (p : Z * fields)
  | RPushed (p : bool * option Z)
  | RValues (p : bool * list (list Z * Z))
  | RFieldLists (p : bool * list (fields * Z)).

(** The result when the connection is down. *)
Definition failure (o : call) : result :=
  match o with
  | CPing | CSetEx _ _ _ | CHashSetEx _ _ _ _ | CMultiSetEx _ _ _ | CMultiHashSetEx _ _ _ _ => RBool false
  | CDelete _ => RCode (-1)
  | CGet _ | CHashGet _ _ | CListPop _ _ => RValue (-1, [])
  | CHashGetAllFields _ => RFields (-1, ∅)
  | CListPush _ _ _ => RPushed (false, None)
  | CMultiGet ks | CMultiHashGet ks _ | CMultiListPop _ ks => RValues (false, replicate (length ks) ([], -1))
  | CMultiHashGetAllFields ks => RFieldLists (false, replicate (length ks) (∅, -1))
  end.

Definition status_of (s : list Z) (t : Reader.tree) : bool :=
  match t with Reader.TStatus x => strncmp_eq s x (length x) | _ => false end.
Definition is_pong (t : Reader.tree) : bool :=
  match t with
  | Reader.TStatus s | Reader.TError s | Reader.TBulk s => bool_decide (s = str "PONG")
  | _ => false
  end.
Definition string_of (t : Reader.tree) : Z * list Z :=
  match t with Reader.TBulk s => (0, s) | Reader.TNil => (1, []) | _ => (-1, []) end.
Definition int_of (t : Reader.tree) : option Z := match t with Reader.TInt z => Some z | _ => None end.

(** Pairs of strings. *)
Fixpoint fields_of (ts : list Reader.tree) (acc : fields) : option fields :=
  match ts with
  | [] => Some acc
  | Reader.TBulk f :: Reader.TBulk v :: ts => fields_of ts (<[f := v]> acc)
  | _ => None
  end.
Definition hash_of (absent_code : Z) (t : Reader.tree) : option (Z * fields) :=
  match t with
  | Reader.TArray [] => Some (1, ∅)
  | Reader.TArray ts => m ← fields_of ts ∅; Some (0, m)
  | Reader.TNil => Some (absent_code, ∅)
  | _ => Some (-1, ∅)
  end.

Definition number (z : Z) : list Z := Util.ll2string_chars (swrap 32 z).

Definition cmd_set (k v : list Z) (life : Z) : argv :=
  if 0 <? life then [str "SETEX"; k; number life; v] else [str "SET"; k; v].
Definition cmd_hset (k f v : list Z) : argv := [str "HSET"; k; f; v].
Definition cmd_expire (k : list Z) (life : Z) : argv := [str "EXPIRE"; k; number life].
Definition cmd_pop (left_ : bool) (k : list Z) : argv := [if left_ then str "LPOP" else str "RPOP"; k].
Definition cmd_push (left_ : bool) (k v : list Z) : argv := [if left_ then str "LPUSH" else str "RPUSH"; k; v].

(** The commands of a transaction. *)
Definition zip3 {A B C D} (f : A -> B -> C -> D) (l : list A) (k : list B) (m : list C) : list D :=
  zip_with (fun x g => g x) m (zip_with (fun a b c => f a b c) l k).
Definition batch (o : call) : list argv :=
  match o with
  | CMultiSetEx ks vs lives => zip3 cmd_set ks vs lives
  | CMultiGet ks => (fun k => [str "GET"; k]) <$> ks
  | CMultiHashSetEx ks fs vs life =>
    concat (zip3 (fun k f v => cmd_hset k f v :: if 0 <? life then [cmd_expire k life] else []) ks fs vs)
  | CMultiHashGet ks fs => zip_with (fun k f => [str "HGET"; k; f]) ks fs
  | CMultiListPop left_ ks => cmd_pop left_ <$> ks
  | CMultiHashGetAllFields ks => (fun k => [str "HGETALL"; k]) <$> ks
  | _ => []
  end.
Definition transaction (o : call) : list argv := [str "MULTI"] :: batch o ++ [[str "EXEC"]].

(** The values of the keys, and whether all were found. *)
Definition values_of (ts : list Reader.tree) : bool * list (list Z * Z) :=
  (forallb (fun t => (string_of t).1 =? 0) ts, (fun t => ((string_of t).2, (string_of t).1)) <$> ts).
Definition hashes_of (ts : list Reader.tree) : option (bool * list (fields * Z)) :=
  hs ← mapM (hash_of 1) ts; Some (forallb (fun h => h.1 =? 0) hs, (fun h => (h.2, h.1)) <$> hs).

(** A call executed on the server: the data, the result and the commands issued. *)
Definition spec_call (q : Q) (o : call) : option (Q * result * list argv) :=
  match o with
  | CPing => let '(q, t) := exec q [str "PING"] in Some (q, RBool (is_pong t), [[str "PING"]])
  | CSetEx k v life =>
    let '(q, t) := exec q (cmd_set k v life) in Some (q, RBool (status_of (str "OK") t), [cmd_set k v life])
  | CGet k => let '(q, t) := exec q [str "GET"; k] in Some (q, RValue (string_of t), [[str "GET"; k]])
  | CDelete k =>
    let '(q, t) := exec q [str "DEL"; k] in
    Some (q, RCode (match int_of t with Some _ => 0 | None => -1 end), [[str "DEL"; k]])
  | CHashSetEx k f v life =>
    let '(q, t) := exec q (cmd_hset k f v) in
    if bool_decide (int_of t = Some 0 \/ int_of t = Some 1) then
      if 0 <? life then
        let '(q, t) := exec q (cmd_expire k life) in
        Some (q, RBool (bool_decide (int_of t = Some 1)), [cmd_hset k f v; cmd_expire k life])
      else Some (q, RBool true, [cmd_hset k f v])
    else Some (q, RBool false, [cmd_hset k f v])
  | CHashGet k f =>
    let '(q, t) := exec q [str "HGET"; k; f] in Some (q, RValue (string_of t), [[str "HGET"; k; f]])
  | CHashGetAllFields k =>
    let '(q, t) := exec q [str "HGETALL"; k] in
    p ← hash_of (-1) t; Some (q, RFields p, [[str "HGETALL"; k]])
  | CListPush left_ k v =>
    let '(q, t) := exec q (cmd_push left_ k v) in
    Some (q, RPushed (match int_of t with Some n => (true, Some (swrap 32 n)) | None => (false, None) end), [cmd_push left_ k v])
  | CListPop left_ k =>
    let '(q, t) := exec q (cmd_pop left_ k) in Some (q, RValue (string_of t), [cmd_pop left_ k])
  | CMultiSetEx _ _ _ | CMultiHashSetEx _ _ _ _ =>
    let '(q, _) := exec_all q (batch o) in Some (q, RBool true, transaction o)
  | CMultiGet _ | CMultiHashGet _ _ | CMultiListPop _ _ =>
    let '(q, ts) := exec_all q (batch o) in Some (q, RValues (values_of ts), transaction o)
  | CMultiHashGetAllFields _ =>
    let '(q, ts) := exec_all q (batch o) in hs ← hashes_of ts; Some (q, RFieldLists hs, transaction o)
  end.

Fixpoint spec_calls (q : Q) (os : list call) : option (Q * list result * list argv) :=
  match os with
  | [] => Some (q, [], [])
  | o :: os =>
    '(q, r, cs) ← spec_call q o;
    '(q, rs, cs') ← spec_calls q os;
    Some (q, r :: rs, cs ++ cs')
  end.
End Server.

(** The commands that a call may issue. *)
Definition commands (o : call) : list argv :=
  match o with
  | CPing => [[str "PING"]]
  | CSetEx k v life => [cmd_set k v life]
  | CGet k => [[str "GET"; k]]
  | CDelete k => [[str "DEL"; k]]
  | CHashSetEx k f v life => [cmd_hset k f v; cmd_expire k life]
  | CHashGet k f => [[str "HGET"; k; f]]
  | CHashGetAllFields k => [[str "HGETALL"; k]]
  | CListPush left_ k v => [cmd_push left_ k v]
  | CListPop left_ k => [cmd_pop left_ k]
  | _ => transaction o
  end.

(** The parallel vectors of a call have the same length, and a command fits into an int. *)
Definition call_ok (o : call) : Prop :=
  match o with
  | CMultiSetEx ks vs lives => length vs = length ks /\ length lives = length ks /\ zlen ks < 2 ^ 31
  | CMultiHashSetEx ks fs vs _ => length fs = length ks /\ length vs = length ks /\ zlen ks < 2 ^ 31
  | CMultiHashGet ks fs => length fs = length ks /\ zlen ks < 2 ^ 31
  | CMultiGet ks | CMultiListPop _ ks | CMultiHashGetAllFields ks => zlen ks < 2 ^ 31
  | _ => True
  end /\ Forall (fun c => zlen (Proto.format_command c) < 2 ^ 31) (commands o).

Section Calls.
Context {S : Type} `{!Socket S} (alloc : Z -> bool) (print_double : list Z -> list Z -> list Z) (fuel : nat).

#[local] Existing Instance M_ret.
#[local] Existing Instance M_bind.

Definition do_call (o : call) : @M S result :=
  match o with
  | CPing => b ← Ping alloc print_double fuel; mret (RBool b)
  | CSetEx k v life => b ← SetEx alloc print_double fuel k v life; mret (RBool b)
  | CGet k => p ← Get alloc print_double fuel k; mret (RValue p)
  | CDelete k => z ← Delete alloc print_double fuel k; mret (RCode z)
  | CHashSetEx k f v life => b ← HashSetEx alloc print_double fuel k f v life; mret (RBool b)
  | CHashGet k f => p ← HashGet alloc print_double fuel k f; mret (RValue p)
  | CHashGetAllFields k => p ← HashGetAllFields alloc print_double fuel k; mret (RFields p)
  | CListPush left_ k v =>
    p ← (if left_ then ListPushLeft alloc print_double fuel k v else ListPushRight alloc print_double fuel k v);
    mret (RPushed p)
  | CListPop left_ k =>
    p ← (if left_ then ListPopLeft alloc print_double fuel k else ListPopRight alloc print_double fuel k); mret (RValue p)
  | CMultiSetEx ks vs lives => b ← MultiSetEx alloc print_double fuel ks vs lives; mret (RBool b)
  | CMultiGet ks => p ← MultiGet alloc print_double fuel ks; mret (RValues p)
  | CMultiHashSetEx ks fs vs life => b ← MultiHashSetEx alloc print_double fuel ks fs vs life; mret (RBool b)
  | CMultiHashGet ks fs => p ← MultiHashGet alloc print_double fuel ks fs; mret (RValues p)
  | CMultiListPop left_ ks =>
    p ← (if left_ then MultiListPopLeft alloc print_double fuel ks else MultiListPopRight alloc print_double fuel ks);
    mret (RValues p)
  | CMultiHashGetAllFields ks => p ← MultiHashGetAllFields alloc print_double fuel ks; mret (RFieldLists p)
  end.

Fixpoint do_calls (os : list call) : @M S (list result) :=
  match os with
  | [] => mret []
  | o :: os => r ← do_call o; rs ← do_calls os; mret (r :: rs)
  end.
End Calls.

(** ** The client and the server *)

Lemma obj_type t :
  type (Reader.obj t) = match t with
    | Reader.TStatus _ => 5 | Reader.TError _ => 6 | Reader.TInt _ => 3 | Reader.TBulk _ => 1 | Reader.TNil => 4
    | Reader.TArray _ => 2 end.
Proof. by destruct t. Qed.

(** Formatting of the commands. *)
Lemma arg_size k (c : argv) : k ∈ c -> zlen (Proto.format_command c) < 2 ^ 31 -> zlen k < 2 ^ 31.
Proof.
  intros Hk Hl. apply list_elem_of_split in Hk as (l1 & l2 & ->). unfold Proto.format_command in Hl.
  rewrite fmap_app, concat_app in Hl. cbn [fmap list_fmap concat] in Hl. rewrite !zlen_app in Hl.
  unfold Proto.format_arg at 2 in Hl. rewrite !zlen_app in Hl.
  pose proof (zlen_nonneg (str "*")). pose proof (zlen_nonneg (Util.ll2string_chars (zlen (l1 ++ k :: l2)))).
  pose proof (zlen_nonneg Client.crlf). pose proof (zlen_nonneg (concat (Proto.format_arg <$> l1))).
  pose proof (zlen_nonneg (str "$")). pose proof (zlen_nonneg (Util.ll2string_chars (zlen k))).
  pose proof (zlen_nonneg (concat (Proto.format_arg <$> l2))).
  rewrite !zlen_app in *. lia.
Qed.

Section Serves.
Context {S : Type} `{!Socket S} (alloc : Z -> bool) (Halloc : forall n, alloc n = true).
Context (pd : list Z -> list Z -> list Z) (fuel : nat).
Context {Q : Type} (exec : Q -> argv -> Q * Reader.tree) (q0 : Q).

Definition answers (cs : list argv) : list Reader.tree := (serve exec (q0, None) cs).2.

Context (broken : Prop) (peer : S -> list Z -> list Z -> Prop) (Hfaith : Hiredis.faithful broken answers peer).

(** The sizes stay within the limits, and the fuel is enough. *)
Definition budget (cs : list argv) : Prop :=
  Hiredis.manageable answers cs /\ (length (Hiredis.wire cs) < fuel)%nat /\
  zlen (Reader.stream (answers cs)) < Z.of_nat fuel.

Lemma answers_app cs cs' : answers (cs ++ cs') = answers cs ++ (serve exec (serve exec (q0, None) cs).1 cs').2.
Proof.
  unfold answers. rewrite serve_app. destruct (serve exec (q0, None) cs) as [st ts]. cbn [fst snd]. by destruct (serve exec st cs').
Qed.

Lemma budget_app cs cs' : budget (cs ++ cs') -> budget cs.
Proof.
  unfold budget, Hiredis.manageable, Hiredis.wire. rewrite answers_app, fmap_app, concat_app, length_app.
  unfold Reader.stream. rewrite fmap_app, concat_app, zlen_app. intros (([Hok _]%Forall_app & [Hz _]%Forall_app & [Hcs _]%Forall_app) & Hf & Hz').
  match type of Hz' with zlen ?a + zlen ?b < _ => pose proof (zlen_nonneg b) end. split_and!; [done|done|done|lia|lia].
Qed.

(** The connection: commands issued and answers taken, or down. *)
Definition conn (cl : Client) (s : S) (st : option (list argv * nat)) : Prop :=
  match st with
  | Some (cs, k) => exists c, ctx_ cl = Some c /\ Hiredis.session answers peer s c cs k
  | None => match ctx_ cl with Some c => Hiredis.dead broken c | None => True end
  end.

Definition extend (st : option (list argv * nat)) (cs : list argv) : option (list argv * nat) :=
  '(cs0, k) ← st; Some (cs0 ++ cs, k).
Definition funded (st : option (list argv * nat)) : Prop := match st with Some (cs, _) => budget cs | None => True end.

Lemma conn_ctx cl cl' s st : ctx_ cl' = ctx_ cl -> conn cl s st -> conn cl' s st.
Proof. intros E. unfold conn. by rewrite E. Qed.

Definition gives (format : list Z) (ap : list va_slot) (c : argv) : Prop :=
  Hiredis.redisvFormatCommand pd format ap = Ok (Some (Proto.format_command c)).

Lemma append_conn format ap a st cl s :
  gives format ap a -> is_Some (ctx_ cl) -> conn cl s st -> funded (extend st [a]) ->
  exists cl', redisAppendCommand alloc pd format ap cl s = Ok (true, cl', s) /\ conn cl' s (extend st [a]) /\ is_Some (ctx_ cl').
Proof.
  intros Hg [c Hc] Hconn Hb. unfold redisAppendCommand, Hiredis.redisvAppendCommand. rewrite Hc, Hg. cbn [mbind outcome_bind].
  destruct st as [[cs k]|]; cbn [extend mbind option_bind funded conn] in *.
  - destruct Hconn as (c' & Hc' & Hs). rewrite Hc in Hc'. injection Hc' as <-.
    destruct (Hiredis.redisAppend_step alloc Halloc broken answers peer Hfaith s c cs k a Hs) as (c' & -> & Hs'); [apply Hb|].
    eexists. split; [done|]. split; [|done]. by exists c'.
  - rewrite Hc in Hconn. destruct (Hiredis.dead_append alloc Halloc broken c (Proto.format_command a) Hconn) as (c' & -> & Hd).
    eexists. split; [done|]. split; [|done]. done.
Qed.

Definition answered (st : option (list argv * nat)) (r : option Reader.redisReply) (cl' : Client) (s' : S) : Prop :=
  exists cs k t, st = Some (cs, k) /\ r = Some (Reader.obj t) /\ answers cs !! k = Some t /\ conn cl' s' (Some (cs, Datatypes.S k)).

Lemma getReply_conn old st cl s :
  is_Some (ctx_ cl) -> conn cl s st -> funded st -> (0 < fuel)%nat ->
  match st with Some (cs, k) => (k < length cs)%nat | None => True end ->
  exists r cl' s', redisGetReply alloc fuel old cl s = Ok (r, cl', s') /\ is_Some (ctx_ cl') /\
    (r = old /\ conn cl' s' None \/ answered st r cl' s').
Proof.
  intros [c Hc] Hconn Hb Hf Hk. unfold redisGetReply. rewrite Hc. destruct st as [[cs k]|]; cbn [funded conn] in *.
  - destruct Hconn as (c' & Hc' & Hs). rewrite Hc in Hc'. injection Hc' as <-. destruct Hb as (Hm & Hf1 & Hf2).
    destruct (Hiredis.redisGetReply_step alloc Halloc broken answers peer Hfaith fuel s c cs k Hs Hk Hf1 Hf2)
      as (s' & c' & x & ok & -> & Hdel). cbn [mbind outcome_bind]. destruct ok; cbn in Hdel.
    + destruct Hdel as (t & Ht & -> & Hs'). eexists _, _, _. split; [done|]. split; [done|]. right.
      exists cs, k, t. split_and!; try done. by exists c'.
    + destruct Hdel as [-> Hd]. eexists _, _, _. split; [done|]. split; [done|]. by left.
  - rewrite Hc in Hconn. destruct fuel as [|f]; [lia|].
    destruct (Hiredis.dead_getReply alloc Halloc broken f s c Hconn) as (c' & -> & Hd). cbn [mbind outcome_bind].
    eexists _, _, _. split; [done|]. split; [done|]. by left.
Qed.

Lemma command_conn format ap a st cl s :
  gives format ap a -> is_Some (ctx_ cl) -> conn cl s st -> funded (extend st [a]) -> (0 < fuel)%nat ->
  exists r cl' s', redisCommand alloc pd fuel format ap cl s = Ok (r, cl', s') /\ is_Some (ctx_ cl') /\
    (r = None /\ conn cl' s' None \/ answered (extend st [a]) r cl' s').
Proof.
  intros Hg Hcl Hconn Hb Hf. destruct (append_conn format ap a st cl s Hg Hcl Hconn Hb) as (cl1 & E & Hconn1 & Hcl1).
  assert (match extend st [a] with Some (cs, k) => (k < length cs)%nat | None => True end) as Hk.
  { destruct st as [[cs k]|]; [|done]. cbn [extend mbind option_bind]. cbn in Hconn. destruct Hconn as (c & _ & Hs).
    rewrite length_app. cbn [length]. pose proof (Hiredis.se_taken _ _ _ _ _ _ Hs). lia. }
  destruct (getReply_conn None (extend st [a]) cl1 s Hcl1 Hconn1 Hb Hf Hk) as (r & cl2 & s2 & E2 & Hcl2 & Hr).
  exists r, cl2, s2. split; [|done].
  unfold redisAppendCommand in E. unfold redisGetReply in E2. unfold redisCommand, Hiredis.redisvCommand.
  destruct (ctx_ cl) as [c|] eqn:Ec; [|done]. destruct (Hiredis.redisvAppendCommand alloc pd format ap c) as [[c1 ok]| |]; [|done|done].
  cbn [mbind outcome_bind] in *. injection E as -> <-. cbn [negb ctx_] in *.
  unfold Hiredis.redisBlockForReply. 
  assert (Hiredis.blocking c1 = true) as ->.
  { destruct (extend st [a]) as [[cs k]|]; cbn in Hconn1; [|by destruct Hconn1 as (_ & _ & ? & _)].
    destruct Hconn1 as (c' & [= <-] & Hs). apply Hs. }
  destruct (Hiredis.redisGetReply alloc fuel s c1) as [[[[s' c'] x] ok]| |]; [|done|done]. cbn [mbind outcome_bind] in *.
  exact E2.
Qed.

(** *** Methods on a connection *)

Abbreviation status := (option (list argv * nat)).

(** [m] gives a result and a connection for which [P] holds. *)
Definition runs {A} (st : status) (m : @M S A) (P : A -> status -> Prop) : Prop :=
  forall cl s, is_Some (ctx_ cl) -> conn cl s st ->
  exists a cl' s' st', m cl s = Ok (a, cl', s') /\ is_Some (ctx_ cl') /\ conn cl' s' st' /\ P a st'.

#[local] Existing Instance M_ret.
#[local] Existing Instance M_bind.

Lemma runs_ret {A} st (a : A) (P : A -> status -> Prop) : P a st -> runs st (mret a) P.
Proof. intros H cl s Hc Hs. by exists a, cl, s, st. Qed.

Lemma runs_bind {A B} st (m : @M S A) (f : A -> @M S B) (P : A -> status -> Prop) P' :
  runs st m P -> (forall a st', P a st' -> runs st' (f a) P') -> runs st (m ≫= f) P'.
Proof.
  intros Hm Hf cl s Hc Hs. destruct (Hm cl s Hc Hs) as (a & cl1 & s1 & st1 & E & Hc1 & Hs1 & HP).
  destruct (Hf a st1 HP cl1 s1 Hc1 Hs1) as (b & cl2 & s2 & st2 & E2 & H2). exists b, cl2, s2, st2. split; [|done].
  unfold mbind, M_bind. by rewrite E.
Qed.

Lemma runs_weaken {A} st (m : @M S A) (P P' : A -> status -> Prop) :
  runs st m P -> (forall a st', P a st' -> P' a st') -> runs st m P'.
Proof. intros Hm H cl s Hc Hs. destruct (Hm cl s Hc Hs) as (a & cl1 & s1 & st1 & ? & ? & ? & HP). eexists _, _, _, _. eauto. Qed.

Lemma runs_error {B} st msg (f : unit -> @M S B) P : runs st (f tt) P -> runs st (set_error msg ≫= f) P.
Proof.
  intros H. apply (runs_bind st _ f (fun _ st' => st' = st)); [|by intros [] ? ->].
  intros cl s Hc Hs. by eexists _, _, _, st.
Qed.

Lemma runs_connected {B} st (f : bool -> @M S B) P : runs st (f true) P -> runs st (connected ≫= f) P.
Proof.
  intros H. apply (runs_bind st _ f (fun a st' => a = true /\ st' = st)); [|by intros ? ? [-> ->]].
  intros cl s Hc Hs. eexists _, _, _, st. split; [done|]. split; [done|]. split; [done|]. split; [|done].
  by apply bool_decide_eq_true.
Qed.

Lemma runs_fail {A} st msg (a : A) (P : A -> status -> Prop) : P a st -> runs st (fail msg a) P.
Proof. intros H. by apply runs_error, runs_ret. Qed.

Lemma runs_fail_ctx {A} st (a : A) (P : A -> status -> Prop) : P a st -> runs st (fail_ctx a) P.
Proof.
  intros H cl s [c Hc] Hs. unfold fail_ctx, ctx_error, mbind, M_bind. rewrite Hc.
  eexists _, _, _, st. split; [reflexivity|]. split; [done|]. by split.
Qed.

Lemma runs_lift {A} st o (a : A) (P : A -> status -> Prop) : o = Ok a -> P a st -> runs st (lift o) P.
Proof. intros -> H cl s Hc Hs. by exists a, cl, s, st. Qed.

(** Every command issued has been answered, and the server holds [q]. *)
Definition synced (st : status) (q : Q) : Prop :=
  match st with Some (cs, k) => k = length cs /\ (serve exec (q0, None) cs).1 = (q, None) | None => True end.

Definition advance (st : status) (cs : list argv) : status := '(cs0, k) ← st; Some (cs0 ++ cs, (k + length cs)%nat).

Lemma funded_advance st cs : funded (advance st cs) = funded (extend st cs).
Proof. by destruct st as [[cs0 k]|]. Qed.

(** What a call gives: [a] with the server's data [q] after the commands [cs], or [bad] with the
    connection down. *)
Definition gives_up {A} (st : status) (bad a : A) (q : Q) (cs : list argv) (x : A) (st' : status) : Prop :=
  x = bad /\ st' = None \/ x = a /\ st <> None /\ st' = advance st cs /\ synced st' q.

Lemma answers_command cs q a : (serve exec (q0, None) cs).1 = (q, None) -> a <> [str "MULTI"] ->
  answers (cs ++ [a]) = answers cs ++ [(exec q a).2] /\ (serve exec (q0, None) (cs ++ [a])).1 = ((exec q a).1, None).
Proof.
  intros Hq Ha. rewrite answers_app, Hq, serve_app. destruct (serve exec (q0, None) cs) as [st ts] eqn:E. cbn [fst] in Hq. subst st.
  cbn [serve texec]. rewrite bool_decide_eq_false_2 by done. by destruct (exec q a).
Qed.

Lemma runs_command format ap a st q :
  gives format ap a -> a <> [str "MULTI"] -> synced st q -> funded (extend st [a]) -> (0 < fuel)%nat ->
  runs st (redisCommand alloc pd fuel format ap) (gives_up st None (Some (Reader.obj (exec q a).2)) (exec q a).1 [a]).
Proof.
  intros Hg Ha Hq Hb Hf cl s Hc Hs. destruct (command_conn format ap a st cl s Hg Hc Hs Hb Hf) as (r & cl' & s' & E & Hc' & Hr).
  destruct Hr as [[-> Hd]|(cs & k & t & Hst & -> & Ht & Hs')].
  - eexists _, _, _, None. split; [done|]. split; [done|]. split; [done|]. by left.
  - destruct st as [[cs0 k0]|]; [|done]. injection Hst as <- <-. destruct Hq as [-> Hq].
    destruct (answers_command cs0 q a Hq Ha) as [Hans Hq']. eexists _, _, _, (Some _).
    split; [done|]. split; [done|]. split; [exact Hs'|]. right.
    assert (length (answers cs0) = length cs0) as Hl by apply (Hiredis.fa_length _ _ _ Hfaith).
    rewrite Hans, lookup_app_r, Hl, Nat.sub_diag in Ht by lia. injection Ht as <-. split; [done|]. split; [done|].
    cbn [advance mbind option_bind synced]. rewrite length_app. cbn [length]. rewrite Nat.add_1_r. done.
Qed.

(** A method of one command. *)
Lemma runs_single {A} format ap a st q (bad : A) (h : Reader.redisReply -> @M S A) (f : Reader.tree -> A) :
  gives format ap a -> a <> [str "MULTI"] -> synced st q -> funded (extend st [a]) -> (0 < fuel)%nat ->
  (forall st', runs st' (h (Reader.obj (exec q a).2)) (fun x st'' => x = f (exec q a).2 /\ st'' = st')) ->
  runs st (reply ← redisCommand alloc pd fuel format ap; match reply with None => fail_ctx bad | Some r => h r end)
    (gives_up st bad (f (exec q a).2) (exec q a).1 [a]).
Proof.
  intros Hg Ha Hq Hb Hf Hh. eapply runs_bind; [by apply (runs_command format ap a)|]. intros x st' [[-> ->]|(-> & Hst & -> & Hq')].
  - apply runs_fail_ctx. by left.
  - eapply runs_weaken; [apply Hh|]. intros y st' [-> ->]. by right.
Qed.

(** *** The commands of the methods *)

Lemma gives_words ws c : Hiredis.template_ok ws -> Hiredis.word_text <$> ws = c -> zlen (Proto.format_command c) < 2 ^ 31 ->
  gives (Hiredis.template_format ws) (Hiredis.template_slots ws) c.
Proof.
  intros Hws <- Hl. unfold gives, Hiredis.redisvFormatCommand. rewrite (Hiredis.loops_template pd ws Hws) by lia.
  cbn [mbind outcome_bind]. by rewrite Hiredis.build_command_ok.
Qed.

(** The arguments behind the name of the command. *)
Inductive operand := OBin (b : list Z) | OInt (z : Z).
Definition operand_word (a : operand) : list Hiredis.piece :=
  match a with OBin b => [Hiredis.PBin b []] | OInt z => [Hiredis.PInt z] end.
Definition operand_format (a : operand) : list Z := match a with OBin _ => str " %b" | OInt _ => str " %d" end.
Definition operand_text (a : operand) : list Z := match a with OBin b => b | OInt z => number z end.
Definition operand_slots (a : operand) : list va_slot := match a with OBin b => sized b | OInt z => [VWord z] end.
Definition bin_slots (a : operand) : list va_slot := match a with OBin b => bin b | OInt z => [VWord z] end.

Definition plain (name : list Z) : Prop := name <> [] /\ Forall (fun x => x <> 0 /\ x <> 32 /\ x <> 37) name.

Lemma gives_operands name l : plain name -> zlen (Proto.format_command (name :: (operand_text <$> l))) < 2 ^ 31 ->
  gives (name ++ concat (operand_format <$> l)) (concat (operand_slots <$> l)) (name :: (operand_text <$> l)).
Proof.
  intros Hname Hz.
  assert (Forall (fun a => zlen (operand_text a) < 2 ^ 31) l) as Hl.
  { apply Forall_forall. intros a Ha. apply (arg_size _ (name :: (operand_text <$> l))); [|done].
    apply list_elem_of_further. apply list_elem_of_fmap. exists a. split; [done|by apply list_elem_of_In]. }
  pose proof (gives_words ([Hiredis.PLit name] :: (operand_word <$> l)) (name :: (operand_text <$> l))) as H.
  assert (concat (operand_format <$> l) = concat ((fun w => 32 :: Hiredis.word_format w) <$> (operand_word <$> l))) as ->.
  { clear. induction l as [|[b|z] l IH]; [done|..]; cbn [fmap list_fmap concat]; by rewrite IH. }
  assert (concat (operand_slots <$> l) = concat (Hiredis.piece_slots <$> concat (operand_word <$> l))) as ->.
  { clear. induction l as [|[b|z] l IH]; [done|..]; cbn [fmap list_fmap concat app]; rewrite IH; [|done]. cbn. by rewrite app_nil_r. }
  unfold Hiredis.template_format, Hiredis.template_slots, Hiredis.word_format at 1 in H.
  cbn [fmap list_fmap concat app Hiredis.piece_format Hiredis.piece_slots] in H. rewrite app_nil_r in H.
  apply H; [| |done].
  - constructor; [split; [done|by repeat constructor; apply Hname]|]. clear -Hl.
    induction Hl as [|[b|z] l Hz _ IH]; [constructor|..]; (constructor; [split; [done|]|done]); repeat constructor. cbn in *. lia.
  - unfold Hiredis.word_text at 1. cbn [fmap list_fmap concat Hiredis.piece_text]. rewrite app_nil_r. f_equal.
    clear. induction l as [|[b|z] l IH]; [done|..]; cbn [fmap list_fmap]; rewrite IH; f_equal; unfold Hiredis.word_text; cbn; by rewrite app_nil_r.
Qed.

Lemma gives_bins name l : plain name -> zlen (Proto.format_command (name :: (operand_text <$> l))) < 2 ^ 31 ->
  gives (name ++ concat (operand_format <$> l)) (concat (bin_slots <$> l)) (name :: (operand_text <$> l)).
Proof.
  intros Hname Hz. replace (concat (bin_slots <$> l)) with (concat (operand_slots <$> l)); [by apply gives_operands|].
  f_equal. apply list_fmap_ext. intros i a Ha. destruct a as [b|z]; [|done]. cbn. unfold sized, bin.
  assert (zlen b < 2 ^ 31) as Hb.
  { apply (arg_size _ (name :: (operand_text <$> l))); [|done]. apply list_elem_of_further.
    apply list_elem_of_fmap. exists (OBin b). split; [done|]. by eapply list_elem_of_lookup_2. }
  pose proof (zlen_nonneg b). by rewrite swrap_id by (unfold in_int; simpl; lia).
Qed.

(** *** The calls of one command *)

Lemma string_reply_runs absent t st : runs st (string_reply absent (Reader.obj t)) (fun x st' => x = string_of t /\ st' = st).
Proof. unfold string_reply. by destruct t; (apply runs_ret || apply runs_fail). Qed.

Lemma pairs_loop_fields n : forall ts acc m, (length ts <= n)%nat -> fields_of ts acc = Some m ->
  pairs_loop ((fun t => Some (Reader.obj t)) <$> ts) acc = Ok m /\ zlen ts mod 2 = 0.
Proof.
  induction n as [|n IH]; intros ts acc m Hn H.
  - destruct ts; [|simpl in Hn; lia]. by injection H as ->.
  - destruct ts as [|[] [|[] ts]]; try done; [by injection H as ->|]. cbn [fields_of] in H.
    edestruct IH as [E Hz]; [|exact H|]; [simpl in Hn; lia|]. split; [exact E|].
    rewrite !zlen_cons. by replace (1 + (1 + zlen ts)) with (zlen ts + 1 * 2) by lia; rewrite Z_mod_plus_full.
Qed.

Lemma pairs_fields ts m : fields_of ts ∅ = Some m -> pairs (Reader.obj (Reader.TArray ts)) = Ok m.
Proof.
  intros H. destruct (pairs_loop_fields (length ts) ts ∅ m ltac:(lia) H) as [E Hz]. cbn [Reader.obj pairs].
  by rewrite Hz.
Qed.

Lemma is_bit_int t b : is_bit (Reader.obj t) b = bool_decide ((b = false /\ int_of t = Some 0) \/ int_of t = Some 1).
Proof.
  symmetry. unfold is_bit. destruct t as [| |z| | |]; cbn;
    try (apply bool_decide_eq_false; by intros [[_ ?]|?]).
  destruct (Z.eqb_spec z 0), (Z.eqb_spec z 1), b; cbn; 
    (apply bool_decide_eq_true_2 || apply bool_decide_eq_false_2); intuition congruence.
Qed.

Lemma runs_map {A B} st (m : @M S A) (g : A -> B) bad a q cs :
  runs st m (gives_up st bad a q cs) -> runs st (x ← m; mret (g x)) (gives_up st (g bad) (g a) q cs).
Proof.
  intros H. eapply runs_bind; [exact H|]. intros x st' [[-> ->]|(-> & ? & ? & ?)]; apply runs_ret; [by left|by right].
Qed.

Definition simple (o : call) : Prop :=
  match o with
  | CMultiSetEx _ _ _ | CMultiGet _ | CMultiHashSetEx _ _ _ _ | CMultiHashGet _ _ | CMultiListPop _ _ | CMultiHashGetAllFields _ => False
  | _ => True
  end.

Lemma runs_start {B} st (bad : B) (m : @M S B) P :
  runs st m P -> runs st (_ ← set_error []; b ← connected; if negb b then fail not_connected bad else m) P.
Proof. intros H. by apply runs_error, runs_connected. Qed.

Lemma plain_dec name : bool_decide (name <> [] /\ Forall (fun x => x <> 0 /\ x <> 32 /\ x <> 37) name) = true -> plain name.
Proof. apply bool_decide_eq_true_1. Qed.

Lemma runs_bins {A} name l st q (bad : A) (h : Reader.redisReply -> @M S A) (f : Reader.tree -> A) q1 t :
  plain name -> zlen (Proto.format_command (name :: (operand_text <$> l))) < 2 ^ 31 ->
  name :: (operand_text <$> l) <> [str "MULTI"] -> exec q (name :: (operand_text <$> l)) = (q1, t) ->
  synced st q -> funded (extend st [name :: (operand_text <$> l)]) -> (0 < fuel)%nat ->
  (forall st', runs st' (h (Reader.obj t)) (fun x st'' => x = f t /\ st'' = st')) ->
  runs st (reply ← redisCommand alloc pd fuel (name ++ concat (operand_format <$> l)) (concat (bin_slots <$> l));
           match reply with None => fail_ctx bad | Some r => h r end)
    (gives_up st bad (f t) q1 [name :: (operand_text <$> l)]).
Proof.
  intros Hn Hz Hm E Hq Hb Hf Hh. pose proof (runs_single _ _ _ st q bad h f (gives_bins name l Hn Hz) Hm Hq Hb Hf) as H.
  rewrite E in H. by apply H.
Qed.

(** Unfolds a specified call to its first command. *)
Ltac spec_command H := lazymatch type of H with context [exec ?q ?c] => let E := fresh "E" in destruct (exec q c) as [? ?] eqn:E end.

Lemma get_runs k absent st q name l q1 t :
  plain name -> zlen (Proto.format_command (name :: (operand_text <$> l))) < 2 ^ 31 -> k = concat (bin_slots <$> l) ->
  name :: (operand_text <$> l) <> [str "MULTI"] -> exec q (name :: (operand_text <$> l)) = (q1, t) ->
  synced st q -> funded (extend st [name :: (operand_text <$> l)]) -> (0 < fuel)%nat ->
  runs st (string_command alloc pd fuel (name ++ concat (operand_format <$> l)) k absent)
    (gives_up st (-1, []) (string_of t) q1 [name :: (operand_text <$> l)]).
Proof. intros ? ? -> ? ? ? ? ?. apply runs_start. apply (runs_bins _ _ st q); try done. intros st'. apply string_reply_runs. Qed.

Lemma ping_runs st q q1 t : exec q [str "PING"] = (q1, t) -> synced st q -> funded (extend st [[str "PING"]]) -> (0 < fuel)%nat ->
  runs st (Ping alloc pd fuel) (gives_up st false (is_pong t) q1 [[str "PING"]]).
Proof.
  intros. apply runs_start. apply (runs_bins (str "PING") [] st q _ _ is_pong); try done; [by apply plain_dec|].
  intros st'. assert (forall s, (zlen s =? 4) && bool_decide (s = str "PONG") = bool_decide (s = str "PONG")) as Hs.
  { intros s. case_bool_decide as Hp; [by subst|apply andb_false_r]. }
  destruct t; cbn [Reader.obj text is_pong]; rewrite ?Hs; try case_bool_decide; (apply runs_ret || apply runs_fail); done.
Qed.

Lemma status_runs st t : runs st (if negb (is_status (str "OK") (Reader.obj t)) then fail (unexpected (Reader.obj t)) false else mret true)
  (fun x st' => x = status_of (str "OK") t /\ st' = st).
Proof.
  assert (is_status (str "OK") (Reader.obj t) = status_of (str "OK") t) as -> by by destruct t.
  destruct (status_of _ t); (apply runs_ret || apply runs_fail); done.
Qed.

Lemma set_runs st q k v life q1 t : exec q (cmd_set k v life) = (q1, t) -> zlen (Proto.format_command (cmd_set k v life)) < 2 ^ 31 ->
  synced st q -> funded (extend st [cmd_set k v life]) -> (0 < fuel)%nat ->
  runs st (SetEx alloc pd fuel k v life) (gives_up st false (status_of (str "OK") t) q1 [cmd_set k v life]).
Proof.
  unfold cmd_set. intros E Hz Hq Hb Hf. apply runs_start. destruct (0 <? life).
  - apply (runs_bins (str "SETEX") [OBin k; OInt life; OBin v] st q _ _ (status_of (str "OK"))); try done; [by apply plain_dec|].
    intros st'. apply status_runs.
  - apply (runs_bins (str "SET") [OBin k; OBin v] st q _ _ (status_of (str "OK"))); try done; [by apply plain_dec|].
    intros st'. apply status_runs.
Qed.

Lemma delete_runs st q k q1 t : exec q [str "DEL"; k] = (q1, t) -> zlen (Proto.format_command [str "DEL"; k]) < 2 ^ 31 ->
  synced st q -> funded (extend st [[str "DEL"; k]]) -> (0 < fuel)%nat ->
  runs st (Delete alloc pd fuel k) (gives_up st (-1) (match int_of t with Some _ => 0 | None => -1 end) q1 [[str "DEL"; k]]).
Proof.
  intros. apply runs_start.
  apply (runs_bins (str "DEL") [OBin k] st q _ _ (fun t => match int_of t with Some _ => 0 | None => -1 end)); try done; [by apply plain_dec|].
  intros st'. destruct t; (apply runs_ret || apply runs_fail); done.
Qed.

Lemma push_runs st q left_ k v q1 t : exec q (cmd_push left_ k v) = (q1, t) -> zlen (Proto.format_command (cmd_push left_ k v)) < 2 ^ 31 ->
  synced st q -> funded (extend st [cmd_push left_ k v]) -> (0 < fuel)%nat ->
  runs st (if left_ then ListPushLeft alloc pd fuel k v else ListPushRight alloc pd fuel k v)
    (gives_up st (false, None) (match int_of t with Some n => (true, Some (swrap 32 n)) | None => (false, None) end) q1 [cmd_push left_ k v]).
Proof.
  unfold cmd_push. intros E Hz Hq Hb Hf. destruct left_; apply runs_start.
  - apply (runs_bins (str "LPUSH") [OBin k; OBin v] st q _ _ (fun t => match int_of t with Some n => (true, Some (swrap 32 n)) | None => (false, None) end)); try done; [by apply plain_dec|].
    intros st'. destruct t; (apply runs_ret || apply runs_fail); done.
  - apply (runs_bins (str "RPUSH") [OBin k; OBin v] st q _ _ (fun t => match int_of t with Some n => (true, Some (swrap 32 n)) | None => (false, None) end)); try done; [by apply plain_dec|].
    intros st'. destruct t; (apply runs_ret || apply runs_fail); done.
Qed.

Lemma pop_runs st q left_ k q1 t : exec q (cmd_pop left_ k) = (q1, t) -> zlen (Proto.format_command (cmd_pop left_ k)) < 2 ^ 31 ->
  synced st q -> funded (extend st [cmd_pop left_ k]) -> (0 < fuel)%nat ->
  runs st (if left_ then ListPopLeft alloc pd fuel k else ListPopRight alloc pd fuel k)
    (gives_up st (-1, []) (string_of t) q1 [cmd_pop left_ k]).
Proof.
  unfold cmd_pop. intros E Hz Hq Hb Hf. destruct left_.
  - apply (get_runs _ _ st q (str "LPOP") [OBin k]); try done; by apply plain_dec.
  - apply (get_runs _ _ st q (str "RPOP") [OBin k]); try done; by apply plain_dec.
Qed.

Lemma hash_runs st q k q1 t p : exec q [str "HGETALL"; k] = (q1, t) -> hash_of (-1) t = Some p ->
  zlen (Proto.format_command [str "HGETALL"; k]) < 2 ^ 31 ->
  synced st q -> funded (extend st [[str "HGETALL"; k]]) -> (0 < fuel)%nat ->
  runs st (HashGetAllFields alloc pd fuel k) (gives_up st (-1, ∅) p q1 [[str "HGETALL"; k]]).
Proof.
  intros E Hp Hz Hq Hb Hf. apply runs_start.
  apply (runs_bins (str "HGETALL") [OBin k] st q _ _ (fun _ => p) q1 t); try done; [by apply plain_dec|].
  intros st'. destruct t as [| | | | |ts]; cbn in Hp; try (injection Hp as <-; by apply runs_fail).
  cbn [Reader.obj type elements negb]. change (_ =? _) with true at 1. cbn [negb]. destruct ts as [|t ts].
  - injection Hp as <-. by apply runs_fail.
  - destruct (fields_of (t :: ts) ∅) as [m|] eqn:Em; [|done]. injection Hp as <-.
    destruct (Z.eqb_spec (zlen (t :: ts)) 0) as [Hz0|_]; [rewrite zlen_cons in Hz0; pose proof (zlen_nonneg ts); lia|]. eapply runs_bind.
    + apply (runs_lift st' _ m (fun x st'' => x = m /\ st'' = st')); [|done]. apply (pairs_fields (t :: ts) m Em).
    + intros x st'' [-> ->]. by apply runs_ret.
Qed.

Lemma advance_advance st cs cs' : advance (advance st cs) cs' = advance st (cs ++ cs').
Proof. destruct st as [[cs0 k]|]; [|done]. cbn. by rewrite <- app_assoc, length_app, Nat.add_assoc. Qed.

Lemma funded_app st cs cs' : funded (extend st (cs ++ cs')) -> funded (extend st cs).
Proof. destruct st as [[cs0 k]|]; [|done]. cbn. rewrite app_assoc. apply budget_app. Qed.

Lemma gives_up_trans {A} st cs1 cs2 (bad a x : A) q st' : st <> None ->
  gives_up (advance st cs1) bad a q cs2 x st' -> gives_up st bad a q (cs1 ++ cs2) x st'.
Proof. intros Hst [[-> ->]|(-> & _ & -> & Hq)]; [by left|right]. by rewrite advance_advance in *. Qed.

Lemma hset_runs st q k f v life q' r cs : spec_call exec q (CHashSetEx k f v life) = Some (q', r, cs) ->
  zlen (Proto.format_command (cmd_hset k f v)) < 2 ^ 31 -> zlen (Proto.format_command (cmd_expire k life)) < 2 ^ 31 ->
  synced st q -> funded (extend st cs) -> (0 < fuel)%nat ->
  runs st (HashSetEx alloc pd fuel k f v life) (fun b => gives_up st (RBool false) r q' cs (RBool b)).
Proof.
  intros Hspec Hz1 Hz2 Hq Hb Hf. cbn [spec_call] in Hspec. destruct (exec q (cmd_hset k f v)) as [q1 t1] eqn:E1.
  assert (exists cs', cs = [cmd_hset k f v] ++ cs') as [cs' ->].
  { case_bool_decide; [|injection Hspec as _ _ <-; by exists []]. destruct (0 <? life); [|injection Hspec as _ _ <-; by exists []].
    destruct (exec q1 _). injection Hspec as _ _ <-. by eexists. }
  apply runs_start. eapply runs_bind; [apply (runs_command _ _ (cmd_hset k f v) st q)|].
  { apply (gives_bins (str "HSET") [OBin k; OBin f; OBin v]); [by apply plain_dec|done]. }
  { done. } { done. } { by eapply funded_app. } { done. }
  rewrite E1. intros x st1 [[-> ->]|(-> & Hst & -> & Hq1)]; [apply runs_fail_ctx; by left|].
  rewrite is_bit_int, (bool_decide_ext _ (int_of t1 = Some 0 \/ int_of t1 = Some 1)) by tauto.
  case_bool_decide; cbn [negb].
  - destruct (Z.ltb_spec 0 life) as [Hl|Hl], (Z.leb_spec life 0); try lia.
    + destruct (exec q1 (cmd_expire k life)) as [q2 t2] eqn:E2. injection Hspec as <- <- <-. eapply runs_weaken.
      { apply (runs_bins (str "EXPIRE") [OBin k; OInt life] (advance st [cmd_hset k f v]) q1 false _ (fun t => bool_decide (int_of t = Some 1)) q2 t2); try done.
        - by apply plain_dec.
        - rewrite <- funded_advance, advance_advance, funded_advance. done.
        - intros st2. rewrite is_bit_int, (bool_decide_ext _ (int_of t2 = Some 1)) by intuition congruence.
          case_bool_decide; (apply runs_ret || apply runs_fail); done. }
      intros b st2 Hg. apply (gives_up_trans st [cmd_hset k f v]); [done|].
      destruct Hg as [[-> ->]|(-> & H1 & H2 & H3)]; [by left|by right].
    + injection Hspec as <- <- <-. apply runs_ret. by right.
  - injection Hspec as <- <- <-. apply runs_fail. by right.
Qed.

(** *** Transactions *)

Abbreviation request := (list Z * list va_slot)%type.
Definition issues (cmds : list request) (cs : list argv) : Prop := Forall2 (fun r a => gives r.1 r.2 a) cmds cs.

Lemma runs_append format ap a st : gives format ap a -> funded (extend st [a]) ->
  runs st (redisAppendCommand alloc pd format ap) (fun b st' => b = true /\ st' = extend st [a]).
Proof.
  intros Hg Hb cl s Hc Hs. destruct (append_conn format ap a st cl s Hg Hc Hs Hb) as (cl' & E & Hs' & Hc').
  by eexists _, _, _, (extend st [a]).
Qed.

Lemma extend_extend st cs cs' : extend (extend st cs) cs' = extend st (cs ++ cs').
Proof. destruct st as [[cs0 k]|]; [|done]. cbn. by rewrite <- app_assoc. Qed.

Lemma append_all_runs cmds cs : issues cmds cs -> forall st, funded (extend st cs) ->
  runs st (append_all alloc pd cmds) (fun b st' => b = true /\ st' = extend st cs).
Proof.
  induction 1 as [|[format ap] a cmds cs Hg _ IH]; intros st Hb.
  - apply runs_ret. split; [done|]. destruct st as [[cs0 k]|]; [|done]. cbn. by rewrite app_nil_r.
  - change (a :: cs) with ([a] ++ cs) in *. cbn [append_all]. eapply runs_bind.
    { apply (runs_append _ _ a); [done|]. by eapply funded_app. }
    intros b st' [-> ->]. rewrite <- extend_extend in *. by apply IH.
Qed.

Lemma append_loop_runs cmds ns css : Forall2 (fun i cs => exists l, cmds i = Some l /\ issues l cs) ns css ->
  forall st, funded (extend st (concat css)) ->
  runs st (append_loop alloc pd ns cmds) (fun b st' => b = true /\ st' = extend st (concat css)).
Proof.
  induction 1 as [|i cs ns css (l & Hl & Hi) _ IH]; intros st Hb.
  - apply runs_ret. split; [done|]. destruct st as [[cs0 k]|]; [|done]. cbn. by rewrite app_nil_r.
  - cbn [append_loop concat] in *. rewrite Hl. eapply runs_bind.
    { apply (append_all_runs l cs Hi). by eapply funded_app. }
    intros b st' [-> ->]. rewrite <- extend_extend in *. by apply IH.
Qed.

Lemma serve_queue q b : [str "EXEC"] ∉ b -> forall l, serve exec (q, Some l) b = ((q, Some (l ++ b)), replicate (length b) (Reader.TStatus (str "QUEUED"))).
Proof.
  induction b as [|c b IH]; intros Hb l; [cbn; by rewrite app_nil_r|]. rewrite not_elem_of_cons in Hb. destruct Hb as [Hc Hb].
  cbn [serve texec length replicate]. rewrite bool_decide_eq_false_2 by congruence. by rewrite (IH Hb), <- app_assoc.
Qed.

Lemma answers_transaction cs q b q' ts : (serve exec (q0, None) cs).1 = (q, None) -> [str "EXEC"] ∉ b ->
  exec_all exec q b = (q', ts) ->
  answers (cs ++ [str "MULTI"] :: b ++ [[str "EXEC"]]) =
    answers cs ++ Reader.TStatus (str "OK") :: replicate (length b) (Reader.TStatus (str "QUEUED")) ++ [Reader.TArray ts] /\
  (serve exec (q0, None) (cs ++ [str "MULTI"] :: b ++ [[str "EXEC"]])).1 = (q', None).
Proof.
  intros Hq Hb Hts. rewrite answers_app, Hq, serve_app. destruct (serve exec (q0, None) cs) as [st ans] eqn:E. cbn [fst] in Hq. subst st.
  assert (serve exec (q, None) ([str "MULTI"] :: b ++ [[str "EXEC"]]) =
    ((q', None), Reader.TStatus (str "OK") :: replicate (length b) (Reader.TStatus (str "QUEUED")) ++ [Reader.TArray ts])) as ->.
  { cbn [serve texec]. rewrite bool_decide_eq_true_2 by done. rewrite serve_app, (serve_queue q b Hb). cbn [app serve texec].
    rewrite bool_decide_eq_true_2 by done. by rewrite Hts. }
  done.
Qed.

Lemma runs_any format ap a st : gives format ap a -> funded (extend st [a]) -> (0 < fuel)%nat ->
  runs st (redisCommand alloc pd fuel format ap) (fun r st' => r = None /\ st' = None \/
    is_Some r /\ exists cs k, st = Some (cs, k) /\ st' = Some (cs ++ [a], Datatypes.S k)).
Proof.
  intros Hg Hb Hf cl s Hc Hs. destruct (command_conn format ap a st cl s Hg Hc Hs Hb Hf) as (r & cl' & s' & E & Hc' & Hr).
  destruct Hr as [[-> Hd]|(cs & k & t & Hst & -> & Ht & Hs')].
  - exists None, cl', s', None. split_and!; try done. by left.
  - destruct st as [[cs0 k0]|]; [|done]. injection Hst as <- <-. eexists _, cl', s', (Some _).
    split; [done|]. split; [done|]. split; [exact Hs'|]. right. split; [done|]. by exists cs0, k0.
Qed.

Lemma start_runs n cmds css st q :
  Forall2 (fun i cs => exists l, cmds i = Some l /\ issues l cs) (seq 0 n) css -> synced st q ->
  funded (extend st ([str "MULTI"] :: concat css ++ [[str "EXEC"]])) -> (0 < fuel)%nat ->
  runs st (start_transaction alloc pd fuel n cmds) (fun b st' => b = false /\ st' = None \/
    b = true /\ exists cs, st = Some (cs, length cs) /\
      st' = Some (cs ++ [str "MULTI"] :: concat css ++ [[str "EXEC"]], (length cs + 1)%nat)).
Proof.
  intros Hcmds Hq Hb Hf. change ([str "MULTI"] :: concat css ++ [[str "EXEC"]]) with ([[str "MULTI"]] ++ concat css ++ [[str "EXEC"]]) in *.
  assert (forall name, plain name -> zlen (Proto.format_command [name]) < 2 ^ 31 -> gives name [] [name]) as Hgives.
  { intros name Hn Hz. pose proof (gives_operands name [] Hn Hz) as H. cbn [fmap list_fmap concat] in H. by rewrite app_nil_r in H. }
  eapply runs_bind; [apply (append_all_runs _ [[str "MULTI"]])|].
  { constructor; [|done]. apply Hgives; [by apply plain_dec|done]. }
  { by eapply funded_app. }
  intros b1 st1 [-> ->]. cbn [negb]. eapply runs_bind; [apply (append_loop_runs cmds _ css Hcmds)|].
  { rewrite extend_extend. rewrite app_assoc in Hb. by eapply funded_app. }
  intros b2 st2 [-> ->]. cbn [negb]. rewrite extend_extend. eapply runs_bind.
  { apply (runs_any _ _ [str "EXEC"]); [|by rewrite extend_extend, <- app_assoc|done]. apply Hgives; [by apply plain_dec|done]. }
  intros r st' [[-> ->]|[[x ->] (cs & k & Hst & ->)]]; [apply runs_fail_ctx; by left|]. apply runs_ret. right. split; [done|].
  destruct st as [[cs0 k0]|]; [|done]. destruct Hq as [-> Hq]. injection Hst as <- <-. exists cs0. split; [done|].
  by rewrite <- app_assoc, Nat.add_1_r.
Qed.

Lemma runs_getReply old cs k t : budget cs -> answers cs !! k = Some t -> (0 < fuel)%nat ->
  runs (Some (cs, k)) (redisGetReply alloc fuel old) (fun r st' => r = old /\ st' = None \/ r = Some (Reader.obj t) /\ st' = Some (cs, Datatypes.S k)).
Proof.
  intros Hb Ht Hf cl s Hc Hs. destruct (getReply_conn old (Some (cs, k)) cl s Hc Hs Hb Hf) as (r & cl' & s' & E & Hc' & Hr).
  { apply lookup_lt_Some in Ht. by rewrite (Hiredis.fa_length _ _ _ Hfaith) in Ht. }
  destruct Hr as [[-> Hd]|(cs' & k' & t' & [= <- <-] & -> & Ht' & Hs')].
  - exists old, cl', s', None. split_and!; try done. by left.
  - eexists _, cl', s', (Some _). split; [done|]. split; [done|]. split; [exact Hs'|]. right. by simplify_eq.
Qed.

Lemma runs_getReply_down old : (0 < fuel)%nat -> runs None (redisGetReply alloc fuel old) (fun r st' => r = old /\ st' = None).
Proof.
  intros Hf cl s Hc Hs. destruct (getReply_conn old None cl s Hc Hs I Hf I) as (r & cl' & s' & E & Hc' & Hr).
  destruct Hr as [[-> Hd]|(? & ? & ? & ? & _)]; [|done]. by exists old, cl', s', None.
Qed.

Definition queued (cs : list argv) (k n : nat) : Prop :=
  forall i, (i < n)%nat -> answers cs !! (k + i)%nat = Some (Reader.TStatus (str "QUEUED")).

Lemma queued_step m cs k n : queued cs k (m + n) -> queued cs (k + m) n.
Proof. intros H i Hi. rewrite <- Nat.add_assoc. apply H. lia. Qed.

Lemma queued_at cs k n i : queued cs k n -> (i < n)%nat -> answers cs !! (k + i)%nat = Some (Reader.TStatus (str "QUEUED")).
Proof. intros H. apply H. Qed.

Lemma queued_first cs k n : queued cs k (Datatypes.S n) -> answers cs !! k = Some (Reader.TStatus (str "QUEUED")).
Proof. intros H. rewrite <- (Nat.add_0_r k). apply H. lia. Qed.

Lemma queued_ok : is_status (str "QUEUED") (Reader.obj (Reader.TStatus (str "QUEUED"))) = true.
Proof. reflexivity. Qed.

Lemma queued_loop_runs n cs : budget cs -> (0 < fuel)%nat -> forall k, queued cs k n ->
  runs (Some (cs, k)) (queued_loop alloc fuel n) (fun b st' => b = false /\ st' = None \/ b = true /\ st' = Some (cs, (k + n)%nat)).
Proof.
  intros Hb Hf. induction n as [|n IH]; intros k Hk; [apply runs_ret; right; by rewrite Nat.add_0_r|]. cbn [queued_loop].
  eapply runs_bind; [apply (runs_getReply _ _ _ _ Hb (queued_first _ _ _ Hk) Hf)|].
  intros r st' [[-> ->]|[-> ->]]; [apply runs_fail_ctx; by left|]. rewrite queued_ok. cbv iota.
  replace (k + Datatypes.S n)%nat with (Datatypes.S k + n)%nat by lia. apply IH. rewrite <- Nat.add_1_r. by apply queued_step.
Qed.

Lemma queued_pairs_down n : (0 < fuel)%nat -> runs None (queued_pairs_loop alloc fuel n) (fun _ st' => st' = None).
Proof.
  intros Hf. destruct n as [|n]; [by apply runs_ret|]. cbn [queued_pairs_loop]. eapply runs_bind; [by apply runs_getReply_down|].
  intros r st' [-> ->]. by apply runs_fail_ctx.
Qed.

Lemma queued_pairs_loop_runs n cs : budget cs -> (0 < fuel)%nat -> forall k, queued cs k (2 * n) ->
  runs (Some (cs, k)) (queued_pairs_loop alloc fuel n) (fun b st' => st' = None \/ b = true /\ st' = Some (cs, (k + 2 * n)%nat)).
Proof.
  intros Hb Hf. induction n as [|n IH]; intros k Hk; [apply runs_ret; right; by rewrite Nat.add_0_r|]. cbn [queued_pairs_loop].
  replace (2 * Datatypes.S n)%nat with (Datatypes.S (Datatypes.S (2 * n))) in * by lia.
  eapply runs_bind; [apply (runs_getReply _ _ _ _ Hb (queued_first _ _ _ Hk) Hf)|].
  intros r st' [[-> ->]|[-> ->]]; [apply runs_fail_ctx; by left|]. rewrite queued_ok. cbn [negb].
  apply (queued_step 1) in Hk. rewrite Nat.add_1_r in Hk.
  eapply runs_bind; [apply (runs_getReply _ _ _ _ Hb (queued_first _ _ _ Hk) Hf)|].
  intros r st' [[-> ->]|[-> ->]]; rewrite queued_ok; cbv iota.
  - eapply runs_weaken; [by apply queued_pairs_down|]. intros b st' ->. by left.
  - apply (queued_step 1) in Hk. rewrite Nat.add_1_r in Hk.
    replace (k + Datatypes.S (Datatypes.S (2 * n)))%nat with (Datatypes.S (Datatypes.S k) + 2 * n)%nat by lia. by apply IH.
Qed.

Lemma exec_reply_runs cs k ts count : budget cs -> (0 < fuel)%nat -> answers cs !! k = Some (Reader.TArray ts) ->
  match count with Some n => zlen ts = n | None => True end ->
  runs (Some (cs, k)) (exec_reply alloc fuel count) (fun r st' => r = None /\ st' = None \/
    r = Some (Reader.obj (Reader.TArray ts)) /\ st' = Some (cs, Datatypes.S k)).
Proof.
  intros Hb Hf Ht Hcount. eapply runs_bind; [by apply (runs_getReply _ _ _ _ Hb Ht Hf)|].
  intros r st' [[-> ->]|[-> ->]]; [apply runs_fail_ctx; by left|]. change (type _ =? _) with true. cbn [negb orb].
  change (elements (Reader.obj (Reader.TArray ts))) with (zlen ts).
  assert (match count with Some n => zlen ts =? n | None => true end = true) as ->.
  { destruct count as [n|]; [by apply Z.eqb_eq|done]. }
  apply runs_ret. by right.
Qed.

Lemma exec_reply_down count : (0 < fuel)%nat -> runs None (exec_reply alloc fuel count) (fun r st' => r = None /\ st' = None).
Proof.
  intros Hf. eapply runs_bind; [by apply runs_getReply_down|]. intros r st' [-> ->]. by apply runs_fail_ctx.
Qed.

Lemma exec_all_length cs : forall q q' ts, exec_all exec q cs = (q', ts) -> length ts = length cs.
Proof.
  induction cs as [|c cs IH]; intros q q' ts H; cbn [exec_all] in H; [by injection H as _ <-|].
  destruct (exec q c) as [q1 t], (exec_all exec q1 cs) as [q2 ts2] eqn:E. injection H as _ <-. cbn. f_equal. by eapply IH.
Qed.

(** What is on its way once a transaction has been started. *)
Lemma transaction_answers cs q b q' ts : (serve exec (q0, None) cs).1 = (q, None) -> [str "EXEC"] ∉ b -> exec_all exec q b = (q', ts) ->
  queued (cs ++ [str "MULTI"] :: b ++ [[str "EXEC"]]) (length cs + 1) (length b) /\
  answers (cs ++ [str "MULTI"] :: b ++ [[str "EXEC"]]) !! (length cs + 1 + length b)%nat = Some (Reader.TArray ts) /\
  synced (Some (cs ++ [str "MULTI"] :: b ++ [[str "EXEC"]], Datatypes.S (length cs + 1 + length b))) q'.
Proof.
  intros Hq Hb Hts. destruct (answers_transaction cs q b q' ts Hq Hb Hts) as [Hans Hs].
  assert (forall i, answers (cs ++ [str "MULTI"] :: b ++ [[str "EXEC"]]) !! (length cs + 1 + i)%nat =
    (replicate (length b) (Reader.TStatus (str "QUEUED")) ++ [Reader.TArray ts]) !! i) as Hl.
  { intros i. assert (length (answers cs) = length cs) as Hlen by apply (Hiredis.fa_length _ _ _ Hfaith).
    rewrite Hans, <- Hlen, <- Nat.add_assoc, lookup_app_r, Nat.add_comm by lia.
    by replace (1 + i + length (answers cs) - length (answers cs))%nat with (Datatypes.S i) by lia. }
  split; [|split].
  - intros i Hi. rewrite Hl, lookup_app_l by (by rewrite length_replicate). by apply lookup_replicate_2.
  - rewrite Hl, lookup_app_r, length_replicate, Nat.sub_diag by (by rewrite length_replicate). done.
  - split; [|done]. rewrite length_app. cbn [length]. rewrite length_app. cbn. lia.
Qed.

(** One more element looked at. *)
Lemma count_step (b : bool) n z c : 0 <= n <= z -> (n =? z) = c ->
  0 <= (if b then 1 else 0) + n <= 1 + z /\ ((if b then 1 else 0) + n =? 1 + z) = b && c.
Proof. intros Hn <-. destruct b; cbn [andb]; destruct (Z.eqb_spec n z); split; lia. Qed.

Definition value_of (t : Reader.tree) : list Z * Z := ((string_of t).2, (string_of t).1).

Lemma values_loop_runs absent ts st : runs st (values_loop absent (length ts) ((fun t => Some (Reader.obj t)) <$> ts))
  (fun x st' => st' = st /\ x.1 = value_of <$> ts /\ 0 <= x.2 <= zlen ts /\ (x.2 =? zlen ts) = forallb (fun t => (string_of t).1 =? 0) ts).
Proof.
  revert st. induction ts as [|t ts IH]; intros st; [by apply runs_ret|]. cbn [length fmap list_fmap values_loop].
  eapply runs_bind with (P := fun x st' => st' = st /\ x = (value_of t, if (string_of t).1 =? 0 then 1 else 0)).
  { destruct t; (apply runs_ret || apply runs_fail); done. }
  intros [vc ok] st' [-> [= -> ->]]. eapply runs_bind; [apply IH|]. intros [rest n] st' (-> & Hr & Hn & Hall). cbn in Hr, Hn, Hall.
  apply runs_ret. cbn [fst snd fmap list_fmap forallb]. rewrite zlen_cons. split; [done|]. split; [by rewrite Hr|].
  by apply count_step.
Qed.

Lemma fields_loop_runs ts : forall hs st, mapM (hash_of 1) ts = Some hs ->
  runs st (fields_loop (length ts) ((fun t => Some (Reader.obj t)) <$> ts))
  (fun x st' => st' = st /\ x.1 = (fun h => (h.2, h.1)) <$> hs /\ 0 <= x.2 <= zlen ts /\ (x.2 =? zlen ts) = forallb (fun h => h.1 =? 0) hs).
Proof.
  induction ts as [|t ts IH]; intros hs st H; [injection H as <-; by apply runs_ret|]. cbn [mapM] in H.
  destruct (hash_of 1 t) as [h|] eqn:Eh; [|done]. cbn [mbind option_bind] in H.
  destruct (mapM (hash_of 1) ts) as [hs'|] eqn:Ehs; [|done]. injection H as <-. cbn [length fmap list_fmap fields_loop].
  eapply runs_bind with (P := fun x st' => st' = st /\ x = ((h.2, h.1), if h.1 =? 0 then 1 else 0)).
  { destruct t as [| | | | |l]; cbn in Eh; try (injection Eh as <-; (apply runs_ret || apply runs_fail); done).
    destruct l as [|t l]; [injection Eh as <-; by apply runs_fail|].
    destruct (fields_of (t :: l) ∅) as [m|] eqn:Em; [|done]. injection Eh as <-.
    change (type _ =? Reader.REDIS_REPLY_ERROR) with false. change (type _ =? Reader.REDIS_REPLY_ARRAY) with true. cbv iota.
    change (elements (Reader.obj (Reader.TArray (t :: l)))) with (zlen (t :: l)).
    destruct (Z.eqb_spec (zlen (t :: l)) 0) as [Hz0|_]; [rewrite zlen_cons in Hz0; pose proof (zlen_nonneg l); lia|].
    eapply runs_bind; [apply (runs_lift st _ m (fun x st'' => x = m /\ st'' = st)); [|done]; by apply pairs_fields|].
    intros x st'' [-> ->]. by apply runs_ret. }
  intros [vc ok] st' [-> [= -> ->]]. eapply runs_bind; [by apply IH|]. intros [rest n] st' (-> & Hr & Hn & Hall). cbn in Hr, Hn, Hall.
  apply runs_ret. cbn [fst snd fmap list_fmap forallb]. rewrite zlen_cons. split; [done|]. split; [by rewrite Hr|].
  by apply count_step.
Qed.

(** A method that is a transaction: the commands, the replies that they are queued, and what is
    made of the reply to EXEC. *)
Lemma transaction_runs {A} n cmds css st q q' ts (bad a : A) (queue : @M S bool) (finish : @M S A) :
  Forall2 (fun i cs => exists l, cmds i = Some l /\ issues l cs) (seq 0 n) css -> [str "EXEC"] ∉ concat css ->
  exec_all exec q (concat css) = (q', ts) -> synced st q ->
  funded (extend st ([str "MULTI"] :: concat css ++ [[str "EXEC"]])) -> (0 < fuel)%nat ->
  (forall cs k, budget cs -> queued cs k (length (concat css)) ->
    runs (Some (cs, k)) queue (fun b st' => st' = None \/ b = true /\ st' = Some (cs, (k + length (concat css))%nat))) ->
  runs None finish (fun x st' => x = bad /\ st' = None) ->
  (forall cs k, budget cs -> answers cs !! k = Some (Reader.TArray ts) ->
    runs (Some (cs, k)) finish (fun x st' => x = bad /\ st' = None \/ x = a /\ st' = Some (cs, Datatypes.S k))) ->
  runs st (ok ← start_transaction alloc pd fuel n cmds;
           if negb ok then mret bad else ok ← queue; if negb ok then mret bad else finish)
    (gives_up st bad a q' ([str "MULTI"] :: concat css ++ [[str "EXEC"]])).
Proof.
  intros Hcmds Hex Hts Hq Hb Hf Hqueue Hdown Hfinish. eapply runs_bind; [by apply (start_runs n cmds css st q)|].
  intros ok st' [[-> ->]|(-> & cs & -> & ->)]; cbn [negb]; [apply runs_ret; by left|].
  destruct Hq as [_ Hq]. destruct (transaction_answers cs q (concat css) q' ts Hq Hex Hts) as (Hqueued & Hlast & Hsync).
  set (cs' := cs ++ [str "MULTI"] :: concat css ++ [[str "EXEC"]]) in *. eapply runs_bind; [by apply Hqueue|].
  intros ok st' [->|[-> ->]].
  - destruct ok; cbn [negb]; [|apply runs_ret; by left]. eapply runs_weaken; [exact Hdown|]. intros x st' [-> ->]. by left.
  - cbn [negb]. eapply runs_weaken; [by apply Hfinish|]. intros x st' [[-> ->]|[-> ->]]; [by left|]. right.
    split; [done|]. split; [done|]. split; [|done]. unfold advance. cbn [mbind option_bind]. f_equal. f_equal.
    cbn [length]. rewrite length_app. cbn [length]. lia.
Qed.

Lemma counted_length {A} (l : list A) : zlen l < 2 ^ 31 -> counted l = length l.
Proof. intros H. unfold counted. pose proof (zlen_nonneg l). rewrite swrap_id by (unfold in_int; simpl; lia). unfold zlen. lia. Qed.

Lemma finish_runs {A} cs k ts count (bad : A) (g : Reader.redisReply -> @M S A) a : budget cs -> (0 < fuel)%nat ->
  answers cs !! k = Some (Reader.TArray ts) -> match count with Some n => zlen ts = n | None => True end ->
  (forall st, runs st (g (Reader.obj (Reader.TArray ts))) (fun x st' => x = a /\ st' = st)) ->
  runs (Some (cs, k)) (reply ← exec_reply alloc fuel count; match reply with None => mret bad | Some r => g r end)
    (fun x st' => x = bad /\ st' = None \/ x = a /\ st' = Some (cs, Datatypes.S k)).
Proof.
  intros Hb Hf Ht Hc Hg. eapply runs_bind; [by apply (exec_reply_runs cs k ts)|].
  intros r st' [[-> ->]|[-> ->]]; [apply runs_ret; by left|]. eapply runs_weaken; [apply Hg|]. intros x st' [-> ->]. by right.
Qed.

Lemma finish_down {A} count (bad : A) (g : Reader.redisReply -> @M S A) : (0 < fuel)%nat ->
  runs None (reply ← exec_reply alloc fuel count; match reply with None => mret bad | Some r => g r end)
    (fun x st' => x = bad /\ st' = None).
Proof. intros Hf. eapply runs_bind; [by apply exec_reply_down|]. intros r st' [-> ->]. by apply runs_ret. Qed.

(** Commands of two words or more do not end a transaction. *)
Lemma not_exec b : Forall (fun c : argv => 2 <= length c)%nat b -> [str "EXEC"] ∉ b.
Proof. intros Hb Hin%list_elem_of_In. apply (proj1 (Forall_forall _ _) Hb) in Hin. cbn in Hin. lia. Qed.

Lemma values_runs absent keys cmds css st q q' ts :
  Forall2 (fun i cs => exists l, cmds i = Some l /\ issues l cs) (seq 0 (length keys)) css -> length (concat css) = length keys ->
  Forall (fun c : argv => 2 <= length c)%nat (concat css) -> zlen keys < 2 ^ 31 ->
  exec_all exec q (concat css) = (q', ts) -> synced st q ->
  funded (extend st ([str "MULTI"] :: concat css ++ [[str "EXEC"]])) -> (0 < fuel)%nat ->
  runs st (multi_values alloc pd fuel absent keys cmds)
    (gives_up st (false, replicate (length keys) ([], -1)) (values_of ts) q' ([str "MULTI"] :: concat css ++ [[str "EXEC"]])).
Proof.
  intros Hcmds Hl Hlong Hz Hts Hq Hb Hf. apply runs_start. rewrite counted_length by done.
  assert (length ts = length keys) as Hlts by (rewrite <- Hl; by eapply exec_all_length).
  assert (zlen ts = zlen keys) as Hzts by (unfold zlen; lia). pose proof (zlen_nonneg keys).
  apply (transaction_runs _ _ css st q q' ts); try done; [by apply not_exec| |by apply finish_down|].
  - intros cs k Hcs Hqueued. rewrite Hl in *. eapply runs_weaken; [by apply queued_loop_runs|]. intros b st' [[-> ->]|H1]; [by left|by right].
  - intros cs k Hcs Ht. apply (finish_runs cs k ts); try done. intros st'.
    change (elements (Reader.obj (Reader.TArray ts))) with (zlen ts). rewrite Hzts, swrap_id by (unfold in_int; simpl; lia).
    replace (Z.to_nat (zlen keys)) with (length ts) by (unfold zlen; lia).
    eapply runs_bind; [apply values_loop_runs|]. intros [vs n] st'' (-> & Hv & _ & Hn). cbn [fst snd] in Hv, Hn.
    apply runs_fail. rewrite <- Hzts, Hn, Hv. done.
Qed.

Definition fits (c : argv) : Prop := zlen (Proto.format_command c) < 2 ^ 31.

Lemma each_command n (cmds : nat -> option (list request)) css : length css = n ->
  (forall i cs, css !! i = Some cs -> exists l, cmds i = Some l /\ issues l cs) ->
  Forall2 (fun i cs => exists l, cmds i = Some l /\ issues l cs) (seq 0 n) css.
Proof.
  intros Hl H. apply Forall2_same_length_lookup_2; [by rewrite length_seq|]. intros i j cs Hj Hcs.
  apply lookup_seq in Hj as [-> _]. by apply H.
Qed.

Definition singles (b : list argv) : list (list argv) := (fun c => [c]) <$> b.

Lemma concat_singles b : concat (singles b) = b.
Proof. induction b as [|c b IH]; [done|]. unfold singles in *. cbn [fmap list_fmap concat]. by rewrite IH. Qed.

Lemma each_single n cmds b : length b = n ->
  (forall i c, b !! i = Some c -> exists format ap, cmds i = Some [(format, ap)] /\ gives format ap c) ->
  Forall2 (fun i cs => exists l, cmds i = Some l /\ issues l cs) (seq 0 n) (singles b).
Proof.
  intros Hl H. apply each_command; [by unfold singles; rewrite length_fmap|]. intros i cs Hcs. unfold singles in Hcs.
  apply list_lookup_fmap_Some in Hcs as (c & -> & Hc). destruct (H i c Hc) as (format & ap & E & Hg).
  exists [(format, ap)]. split; [done|]. by repeat constructor.
Qed.

Lemma zip3_lookup {A B C D} (f : A -> B -> C -> D) l k m i z : zip3 f l k m !! i = Some z ->
  exists a b c, l !! i = Some a /\ k !! i = Some b /\ m !! i = Some c /\ z = f a b c.
Proof.
  unfold zip3. intros (c & g & -> & Hc & (a & b & -> & Ha & Hb)%lookup_zip_with_Some)%lookup_zip_with_Some. by exists a, b, c.
Qed.

Lemma zip3_length {A B C D} (f : A -> B -> C -> D) l k m : length k = length l -> length m = length l -> length (zip3 f l k m) = length l.
Proof. intros H1 H2. unfold zip3. rewrite !length_zip_with. lia. Qed.

(** The methods whose commands have a key each. *)
Lemma keys_runs name absent ks st q q' ts : plain name -> let b := (fun k => [name; k]) <$> ks in
  Forall fits b -> zlen ks < 2 ^ 31 -> exec_all exec q b = (q', ts) -> synced st q ->
  funded (extend st ([str "MULTI"] :: b ++ [[str "EXEC"]])) -> (0 < fuel)%nat ->
  runs st (multi_values alloc pd fuel absent ks (fun i => k ← ks !! i; Some [(name ++ str " %b", sized k)]))
    (gives_up st (false, replicate (length ks) ([], -1)) (values_of ts) q' ([str "MULTI"] :: b ++ [[str "EXEC"]])).
Proof.
  intros Hn b Hb Hz Hts Hq Hbud Hf. pose proof (values_runs absent ks) as H. specialize (H (fun i => k ← ks !! i; Some [(name ++ str " %b", sized k)]) (singles b) st q q' ts).
  rewrite concat_singles in H. apply H; try done; [|by unfold b; rewrite length_fmap|].
  - apply each_single; [by unfold b; rewrite length_fmap|]. intros i c Hc. pose proof (Forall_lookup_1 _ _ _ _ Hb Hc) as Hfit.
    apply list_lookup_fmap_Some in Hc as (k & -> & ->). eexists _, _. split; [done|].
    apply (gives_operands name [OBin k] Hn Hfit).
  - apply Forall_fmap, Forall_true. intros k. cbn. lia.
Qed.

Lemma hash_fields_runs ks fs st q q' ts : let b := zip_with (fun k f => [str "HGET"; k; f]) ks fs in
  length fs = length ks -> Forall fits b -> zlen ks < 2 ^ 31 -> exec_all exec q b = (q', ts) -> synced st q ->
  funded (extend st ([str "MULTI"] :: b ++ [[str "EXEC"]])) -> (0 < fuel)%nat ->
  runs st (MultiHashGet alloc pd fuel ks fs)
    (gives_up st (false, replicate (length ks) ([], -1)) (values_of ts) q' ([str "MULTI"] :: b ++ [[str "EXEC"]])).
Proof.
  intros b Hl Hb Hz Hts Hq Hbud Hf. assert (length b = length ks) as Hlb by (unfold b; rewrite length_zip_with; lia).
  pose proof (values_runs no_field ks) as H. specialize (H (fun i => k ← ks !! i; f ← fs !! i; Some [(str "HGET %b %b", sized k ++ sized f)]) (singles b) st q q' ts).
  rewrite concat_singles in H. apply H; try done.
  - apply each_single; [done|]. intros i c Hc. pose proof (Forall_lookup_1 _ _ _ _ Hb Hc) as Hfit.
    apply lookup_zip_with_Some in Hc as (k & f & -> & -> & ->). eexists _, _. split; [done|].
    apply (gives_operands (str "HGET") [OBin k; OBin f]); [by apply plain_dec|done].
  - apply Forall_lookup_2. intros i c Hc. apply lookup_zip_with_Some in Hc as (k & f & -> & _). cbn. lia.
Qed.

Lemma all_fields_runs ks st q q' ts hs : let b := (fun k => [str "HGETALL"; k]) <$> ks in
  Forall fits b -> zlen ks < 2 ^ 31 -> exec_all exec q b = (q', ts) -> hashes_of ts = Some hs -> synced st q ->
  funded (extend st ([str "MULTI"] :: b ++ [[str "EXEC"]])) -> (0 < fuel)%nat ->
  runs st (MultiHashGetAllFields alloc pd fuel ks)
    (gives_up st (false, replicate (length ks) (∅, -1)) hs q' ([str "MULTI"] :: b ++ [[str "EXEC"]])).
Proof.
  intros b Hb Hz Hts Hhs Hq Hbud Hf. assert (length b = length ks) as Hlb by (unfold b; by rewrite length_fmap).
  apply runs_start. rewrite counted_length by done.
  assert (length ts = length ks) as Hlts by (rewrite <- Hlb; by eapply exec_all_length).
  assert (zlen ts = zlen ks) as Hzts by (unfold zlen; lia). pose proof (zlen_nonneg ks).
  unfold hashes_of in Hhs. destruct (mapM (hash_of 1) ts) as [l|] eqn:El; [|done]. injection Hhs as <-.
  pose proof (concat_singles b) as Hsingles. rewrite <- Hsingles in *.
  apply (transaction_runs _ _ (singles b) st q q' ts); try done; rewrite ?concat_singles.
  - rewrite concat_singles in *. apply each_single; [done|]. intros i c Hc. pose proof (Forall_lookup_1 _ _ _ _ Hb Hc) as Hfit.
    apply list_lookup_fmap_Some in Hc as (k & -> & ->). eexists _, _. split; [done|].
    apply (gives_operands (str "HGETALL") [OBin k]); [by apply plain_dec|done].
  - apply not_exec. apply Forall_fmap, Forall_true. intros k. cbn. lia.
  - intros cs k Hcs Hqueued. rewrite concat_singles in Hlb. rewrite Hlb in *. eapply runs_weaken; [by apply queued_loop_runs|]. intros x st' [[-> ->]|H1]; [by left|by right].
  - by apply finish_down.
  - intros cs k Hcs Ht. apply (finish_runs cs k ts); try done. intros st'.
    change (elements (Reader.obj (Reader.TArray ts))) with (zlen ts). rewrite Hzts, swrap_id by (unfold in_int; simpl; lia).
    replace (Z.to_nat (zlen ks)) with (length ts) by (unfold zlen; lia).
    eapply runs_bind; [by apply (fields_loop_runs ts l)|]. intros [vs n] st'' (-> & Hv & _ & Hn). cbn [fst snd] in Hv, Hn.
    apply runs_fail. rewrite <- Hzts, Hn, Hv. done.
Qed.

Lemma finish_set cs k ts : budget cs -> (0 < fuel)%nat -> answers cs !! k = Some (Reader.TArray ts) ->
  runs (Some (cs, k)) (reply ← exec_reply alloc fuel None; match reply with None => mret false | Some r => fail (text r) true end)
    (fun x st' => x = false /\ st' = None \/ x = true /\ st' = Some (cs, Datatypes.S k)).
Proof. intros Hb Hf Ht. apply (finish_runs cs k ts); try done. intros st'. by apply runs_fail. Qed.

Lemma zlen_same {A B} (l : list A) (k : list B) : length l = length k -> (zlen k =? zlen l) = true.
Proof. intros H. apply Z.eqb_eq. unfold zlen. lia. Qed.

Lemma multi_set_runs ks vs lives st q q' ts : let b := zip3 cmd_set ks vs lives in
  length vs = length ks -> length lives = length ks -> Forall fits b -> zlen ks < 2 ^ 31 -> exec_all exec q b = (q', ts) -> synced st q ->
  funded (extend st ([str "MULTI"] :: b ++ [[str "EXEC"]])) -> (0 < fuel)%nat ->
  runs st (MultiSetEx alloc pd fuel ks vs lives) (gives_up st false true q' ([str "MULTI"] :: b ++ [[str "EXEC"]])).
Proof.
  intros b Hvs Hlives Hb Hz Hts Hq Hbud Hf. assert (length b = length ks) as Hlb by by apply zip3_length.
  apply runs_start. rewrite (zlen_same vs ks Hvs), counted_length by done. cbn [negb].
  pose proof (concat_singles b) as Hsingles. rewrite <- Hsingles in *.
  apply (transaction_runs _ _ (singles b) st q q' ts); try done; rewrite ?concat_singles.
  - rewrite concat_singles in *. apply each_single; [done|]. intros i c Hc. pose proof (Forall_lookup_1 _ _ _ _ Hb Hc) as Hfit.
    apply zip3_lookup in Hc as (k & v & life & Hk & Hv & Hlife & ->). rewrite Hk, Hlife, Hv. cbn [mbind option_bind].
    unfold cmd_set in *. destruct (0 <? life); (eexists _, _; split; [done|]).
    + apply (gives_operands (str "SETEX") [OBin k; OInt life; OBin v]); [by apply plain_dec|done].
    + apply (gives_operands (str "SET") [OBin k; OBin v]); [by apply plain_dec|done].
  - apply not_exec. apply Forall_lookup_2. intros i c Hc. apply zip3_lookup in Hc as (k & v & life & _ & _ & _ & ->).
    unfold cmd_set. destruct (0 <? life); cbn; lia.
  - intros cs k Hcs Hqueued. rewrite concat_singles in Hlb. rewrite Hlb in *. eapply runs_weaken; [by apply queued_loop_runs|]. intros x st' [[-> ->]|H1]; [by left|by right].
  - by apply finish_down.
  - intros cs k Hcs Ht. by apply (finish_set cs k ts).
Qed.

Lemma length_concat_const {A} (css : list (list A)) m : Forall (fun cs => length cs = m) css -> length (concat css) = (m * length css)%nat.
Proof. induction 1 as [|cs css Hm _ IH]; [cbn; lia|]. cbn [concat length]. rewrite length_app, IH, Hm. lia. Qed.

Lemma multi_hset_runs ks fs vs life st q q' ts :
  let css := zip3 (fun k f v => cmd_hset k f v :: if 0 <? life then [cmd_expire k life] else []) ks fs vs in
  length fs = length ks -> length vs = length ks -> Forall fits (concat css) -> zlen ks < 2 ^ 31 ->
  exec_all exec q (concat css) = (q', ts) -> synced st q ->
  funded (extend st ([str "MULTI"] :: concat css ++ [[str "EXEC"]])) -> (0 < fuel)%nat ->
  runs st (MultiHashSetEx alloc pd fuel ks fs vs life) (gives_up st false true q' ([str "MULTI"] :: concat css ++ [[str "EXEC"]])).
Proof.
  intros css Hfs Hvs Hb Hz Hts Hq Hbud Hf. assert (length css = length ks) as Hlb by by apply zip3_length.
  apply runs_start. rewrite (zlen_same vs ks Hvs), (zlen_same fs ks Hfs), counted_length by done. cbn [negb].
  apply Forall_concat in Hb. assert (forall i cs, css !! i = Some cs -> exists k f v, ks !! i = Some k /\ fs !! i = Some f /\ vs !! i = Some v /\
    cs = cmd_hset k f v :: if 0 <? life then [cmd_expire k life] else []) as Hcss by (intros i cs Hc; by apply zip3_lookup in Hc).
  apply (transaction_runs _ _ css st q q' ts); try done.
  - apply each_command; [done|]. intros i cs Hc. pose proof (Forall_lookup_1 _ _ _ _ Hb Hc) as Hfit.
    destruct (Hcss i cs Hc) as (k & f & v & -> & -> & -> & ->). eexists. split; [done|].
    apply Forall_cons_iff in Hfit as [H1 H2]. constructor.
    + apply (gives_operands (str "HSET") [OBin k; OBin f; OBin v]); [by apply plain_dec|done].
    + destruct (0 <? life); [|constructor]. apply Forall_cons_iff in H2 as [H2 _]. constructor; [|constructor].
      apply (gives_operands (str "EXPIRE") [OBin k; OInt life]); [by apply plain_dec|done].
  - apply not_exec. apply Forall_concat, Forall_lookup_2. intros i cs Hc. destruct (Hcss i cs Hc) as (k & f & v & _ & _ & _ & ->).
    destruct (0 <? life); repeat constructor; cbn; lia.
  - intros cs k Hcs Hqueued. destruct (0 <? life) eqn:El.
    + assert (length (concat css) = 2 * length ks)%nat as E.
      { rewrite <- Hlb. apply length_concat_const, Forall_lookup_2. intros i c Hc. by destruct (Hcss i c Hc) as (? & ? & ? & _ & _ & _ & ->). }
      rewrite E in *. by apply queued_pairs_loop_runs.
    + assert (length (concat css) = length ks)%nat as E.
      { rewrite <- Hlb, <- (Nat.mul_1_l (length css)). apply length_concat_const, Forall_lookup_2. intros i c Hc. by destruct (Hcss i c Hc) as (? & ? & ? & _ & _ & _ & ->). }
      rewrite E in *. eapply runs_weaken; [by apply queued_loop_runs|]. intros x st' [[-> ->]|H1]; [by left|by right].
  - by apply finish_down.
  - intros cs k Hcs Ht. by apply (finish_set cs k ts).
Qed.

(** *** Every call *)

Lemma call_runs o st q q' r cs : call_ok o -> spec_call exec q o = Some (q', r, cs) -> synced st q -> funded (extend st cs) -> (0 < fuel)%nat ->
  runs st (do_call alloc pd fuel o) (gives_up st (failure o) r q' cs).
Proof.
  intros [Hlen Hfit] Hspec Hq Hb Hf.
  assert (forall b, Forall fits ([str "MULTI"] :: b ++ [[str "EXEC"]]) -> Forall fits b) as Hinner.
  { intros b [_ H]%Forall_cons_iff. by apply Forall_app in H as [H _]. }
  destruct o as [|k v life|k|k|k f v life|k f|k|left_ k v|left_ k|ks vs lives|ks|ks fs vs life|ks fs|left_ ks|ks];
    cbn [do_call failure]; cbn [commands] in Hfit; cbn [spec_call batch] in Hspec; cbn in Hlen;
    try (lazymatch goal with |- context [HashSetEx] => fail | _ => idtac end;
         lazymatch type of Hspec with context [exec q ?c] => destruct (exec q c) as [q1 t] eqn:E end; apply Forall_inv in Hfit);
    try (lazymatch type of Hspec with context [exec_all exec q ?c] => destruct (exec_all exec q c) as [q1 ts] eqn:E end; apply Hinner in Hfit).
  - injection Hspec as <- <- <-. apply (runs_map _ _ RBool). by apply (ping_runs st q q1 t).
  - injection Hspec as <- <- <-. apply (runs_map _ _ RBool). by apply (set_runs st q k v life q1 t).
  - injection Hspec as <- <- <-. apply (runs_map _ _ RValue), (get_runs _ _ st q (str "GET") [OBin k]); try done. by apply plain_dec.
  - injection Hspec as <- <- <-. apply (runs_map _ _ RCode). by apply (delete_runs st q k q1 t).
  - apply Forall_cons_iff in Hfit as [H1 H2%Forall_inv]. eapply runs_bind; [by apply (hset_runs st q k f v life q' r cs)|].
    intros b st' Hg. by apply runs_ret.
  - injection Hspec as <- <- <-. apply (runs_map _ _ RValue), (get_runs _ _ st q (str "HGET") [OBin k; OBin f]); try done. by apply plain_dec.
  - destruct (hash_of (-1) t) as [p|] eqn:Ep; [|done]. injection Hspec as <- <- <-. apply (runs_map _ _ RFields).
    by apply (hash_runs st q k q1 t).
  - injection Hspec as <- <- <-. apply (runs_map _ _ RPushed). by apply (push_runs st q left_ k v q1 t).
  - injection Hspec as <- <- <-. apply (runs_map _ _ RValue). by apply (pop_runs st q left_ k q1 t).
  - injection Hspec as <- <- <-. apply (runs_map _ _ RBool). destruct Hlen as (? & ? & ?). by apply (multi_set_runs ks vs lives st q q1 ts).
  - injection Hspec as <- <- <-. apply (runs_map _ _ RValues), (keys_runs (str "GET") no_key ks st q q1 ts); try done. by apply plain_dec.
  - injection Hspec as <- <- <-. apply (runs_map _ _ RBool). destruct Hlen as (? & ? & ?). by apply (multi_hset_runs ks fs vs life st q q1 ts).
  - injection Hspec as <- <- <-. apply (runs_map _ _ RValues). destruct Hlen. by apply (hash_fields_runs ks fs st q q1 ts).
  - injection Hspec as <- <- <-. apply (runs_map _ _ RValues). destruct left_.
    + apply (keys_runs (str "LPOP") no_key ks st q q1 ts); try done. by apply plain_dec.
    + apply (keys_runs (str "RPOP") no_key ks st q q1 ts); try done. by apply plain_dec.
  - destruct (hashes_of ts) as [hs|] eqn:Ehs; [|done]. injection Hspec as <- <- <-. apply (runs_map _ _ RFieldLists).
    by apply (all_fields_runs ks st q q1 ts).
Qed.

(** The calls that succeed come first. *)
Lemma calls_runs os : forall st q q' rs cs, Forall call_ok os -> spec_calls exec q os = Some (q', rs, cs) -> synced st q ->
  funded (extend st cs) -> (0 < fuel)%nat ->
  runs st (do_calls alloc pd fuel os) (fun x st' => exists n, x = take n rs ++ drop n (failure <$> os) /\
    (st = None -> n = O) /\ ((n < length os)%nat -> st' = None) /\ (st' <> None -> st' = advance st cs /\ synced st' q')).
Proof.
  induction os as [|o os IH]; intros st q q' rs cs Hok Hspec Hq Hb Hf; cbn [spec_calls] in Hspec.
  - injection Hspec as <- <- <-. apply runs_ret. exists O. split; [done|]. split; [done|]. split; [cbn; lia|]. intros Hst. split; [|done].
    destruct st as [[cs0 k]|]; [|done]. cbn. by rewrite app_nil_r, Nat.add_0_r.
  - apply Forall_cons_iff in Hok as [Ho Hos]. destruct (spec_call exec q o) as [[[q1 r] cs1]|] eqn:E1; [|done]. cbn [mbind option_bind] in Hspec.
    destruct (spec_calls exec q1 os) as [[[q2 rs2] cs2]|] eqn:E2; [|done]. injection Hspec as <- <- <-. cbn [do_calls].
    eapply runs_bind; [apply (call_runs o st q q1 r cs1); try done; by eapply funded_app|]. intros x st' [[-> ->]|(-> & Hst & -> & Hq1)].
    + eapply runs_bind; [by apply (IH None q1 q2 rs2 cs2)|]. intros xs st' (n & -> & Hn & Hlt & Hst'). rewrite (Hn eq_refl) in *. apply runs_ret.
      exists O. split; [done|]. split; [done|]. cbn in Hst'. destruct st' as [p|]; [|done]. destruct (Hst' ltac:(done)) as [? _]. done.
    + eapply runs_bind; [apply (IH (advance st cs1) q1 q2 rs2 cs2); try done; by rewrite <- funded_advance, advance_advance, funded_advance|].
      intros xs st' (n & -> & Hn & Hlt & Hst'). apply runs_ret. exists (Datatypes.S n). split; [done|]. split; [done|].
      split; [cbn; intros; apply Hlt; lia|]. by rewrite <- advance_advance.
Qed.

(** C36: The client does what the commands do: on a connection with a server behind it that queues
    every command between a MULTI and its EXEC ([texec]: it answers QUEUED, and EXEC executes them
    all), whatever the sizes of the reads and writes, any sequence of calls, transactions included,
    gives the results of executing its commands on the server one after the other.  If the
    connection fails (which it only does where the socket may), the calls up to some point give
    these results and every later one its failure: with such a server no call ever gets the answer
    to another.  The answers are within the limits of the reader and the commands within those of
    the parser ([budget]), and an answer to HGETALL has texts for its fields ([spec_calls]).  A
    server that refuses a command of a transaction is excluded: the client is then out of step,
    [refused_transaction_desync]. *)
Theorem client_serves os cl s q rs cs :
  peer s [] [] -> ctx_ cl = Some (Hiredis.redisContextInit true) -> (0 < fuel)%nat ->
  Forall call_ok os -> spec_calls exec q0 os = Some (q, rs, cs) -> budget cs ->
  exists n cl' s', do_calls alloc pd fuel os cl s = Ok (take n rs ++ drop n (failure <$> os), cl', s') /\
    ((n < length os)%nat -> broken).
Proof.
  intros Hp Hc Hf Hok Hspec Hb. assert (conn cl s (Some ([], O))) as Hconn.
  { exists (Hiredis.redisContextInit true). split; [done|]. split; try done.
    exists [], [], []. split_and!; try done. split; try done. left. by split_and!; [left|..]. }
  destruct (calls_runs os (Some ([], O)) q0 q rs cs Hok Hspec) with (cl := cl) (s := s)
    as (x & cl' & s' & st' & E & Hcl & Hs' & n & -> & _ & Hn & _); try done.
  exists n, cl', s'. split; [done|]. intros Hlt. rewrite (Hn Hlt) in Hs'. destruct Hcl as [c Hc']. cbn in Hs'. rewrite Hc' in Hs'. apply Hs'.
Qed.
End Serves.

(** ** The client and the query parser of the server

    A socket behind which is the parser of [Proto], the commands executed by [exec]: it takes at
    most [W] bytes in a write and returns at most [R] in a read.  Its state is the bytes received
    and the bytes returned. *)

#[local] Existing Instance Proto.recorder.

Definition received (i : list Z) : list argv :=
  match Proto.receive Client.REDIS_MAX_QUERYBUF_LEN (replicate (length i) (1024 * 16)) i [] (Client.createClient 5) with
  | Ok (e, _, _) => e
  | _ => []
  end.

Lemma received_wire cs : Forall (fun a => Proto.command_ok a /\ zlen (Proto.format_command a) < 2147483648) cs ->
  received (Hiredis.wire cs) = cs.
Proof.
  intros Hcs. unfold received. destruct (Proto.receive_runs (fun _ _ => True) (replicate (length (Hiredis.wire cs)) (1024 * 16))
    (Hiredis.wire cs) [] (Client.createClient 5) cs (Proto.recorder_serves cs) I) as (e & c & -> & Hr & _).
  - by split_and!.
  - exists Proto.Idle, cs. split; [split_and!; try done; by left|]. split; [|split_and!; try done; apply Proto.waiting_nil].
    revert Hcs. apply List.Forall_impl. by intros a [].
  - by rewrite length_replicate.
  - by apply Proto.recorder_runs in Hr.
Qed.

Section Server_socket.
Context {Q : Type} (exec : Q -> argv -> Q * Reader.tree) (q0 : Q) (W R : Z).

#[local] Instance server_socket : Socket (list Z * list Z) := {
  sock_write '(i, o) x := ((i ++ take (Z.to_nat W) x, o), Hiredis.Written (Z.min W (zlen x)));
  sock_read '(i, o) n :=
    let bs := take (Z.to_nat (Z.min R n)) (drop (length o) (Reader.stream (answers exec q0 (received i)))) in
    ((i, o ++ bs), Hiredis.ReadBytes bs);
}.

Lemma server_faithful : 1 <= W -> 1 <= R ->
  Hiredis.faithful False (answers exec q0) (fun s i o => s = (i, o)).
Proof.
  intros HW HR. split.
  - intros cs. apply serve_length.
  - intros cs c. rewrite answers_app. pose proof (serve_length exec (serve exec (q0, None) cs).1 [c]) as Hl.
    destruct (serve exec (serve exec (q0, None) cs).1 [c]).2 as [|t [|]]; try done. by exists t.
  - intros s i o x -> Hx. cbn. assert (1 <= zlen x) as Hzx by (destruct x; [done|rewrite zlen_cons; pose proof (zlen_nonneg x); lia]).
    split; [lia|]. f_equal. f_equal. destruct (Z.le_gt_cases W (zlen x)); [by rewrite Z.min_l by lia|].
    rewrite Z.min_r by lia. unfold zlen in *. rewrite !take_ge by lia. done.
  - intros s cs o w n (_ & _ & Hcs) -> Hw Hne Hn. cbn. rewrite received_wire by done. rewrite <- Hw, drop_app_length.
    right. destruct w as [|x w]; [done|]. destruct (Z.to_nat (Z.min R n)) as [|m] eqn:Em; [lia|]. cbn [take]. split; [done|].
    split; [rewrite zlen_cons; unfold zlen; rewrite length_take; lia|]. exists (drop m w). split; [by cbn; rewrite take_drop|done].
Qed.
End Server_socket.
(** A server of strings. *)
Definition strings (q : gmap (list Z) (list Z)) (c : argv) : gmap (list Z) (list Z) * Reader.tree :=
  match c with
  | [name; k; v] => if bool_decide (name = str "SET") then (<[k := v]> q, Reader.TStatus (str "OK")) else (q, Reader.TError (str "ERR"))
  | [name; k] =>
    if bool_decide (name = str "GET") then (q, match q !! k with Some v => Reader.TBulk v | None => Reader.TNil end)
    else (q, Reader.TError (str "ERR"))
  | _ => (q, Reader.TError (str "ERR"))
  end.

Lemma client_serves_witness :
  exists cl s, do_calls (Socket0 := server_socket strings ∅ 7 5) (fun _ => true) Hiredis.no_double 1000
      [CSetEx (str "a") [13; 10; 0] 0; CMultiSetEx [str "b"; str "c"] [str "1"; str "2"] [0; -1];
       CMultiGet [str "a"; str "x"; str "c"]; CGet (str "b"); CHashGet (str "b") (str "f"); CSetEx (str "a") (str "3") 9]
      (mkClient [] 6379 (Some (Hiredis.redisContextInit true)) []) ([], []) =
    Ok ([RBool true; RBool true; RValues (false, [([13; 10; 0], 0); ([], 1); (str "2", 0)]); RValue (0, str "1");
         RValue (-1, []); RBool false], cl, s).
Proof.
  edestruct (client_serves (Socket0 := server_socket strings ∅ 7 5) (fun _ => true) ltac:(done) Hiredis.no_double 1000
    strings ∅ False (fun s i o => s = (i, o)) ltac:(apply server_faithful; lia)
    [CSetEx (str "a") [13; 10; 0] 0; CMultiSetEx [str "b"; str "c"] [str "1"; str "2"] [0; -1];
     CMultiGet [str "a"; str "x"; str "c"]; CGet (str "b"); CHashGet (str "b") (str "f"); CSetEx (str "a") (str "3") 9]
    (mkClient [] 6379 (Some (Hiredis.redisContextInit true)) []) ([], [])) as (n & cl & s & E & Hn).
  - done.
  - done.
  - lia.
  - repeat constructor.
  - vm_compute. reflexivity.
  - unfold budget, Hiredis.manageable; split_and!; [|repeat constructor; vm_compute; reflexivity|..].
    + match goal with |- Forall _ ?l => let l' := eval vm_compute in l in change l with l' end.
      repeat constructor; try (vm_compute; discriminate); by apply (bool_decide_unpack _).
    + repeat constructor; vm_compute; discriminate.
    + apply Nat.ltb_lt. vm_compute. reflexivity.
    + vm_compute. reflexivity.
  - exists cl, s. rewrite E. destruct (Nat.lt_ge_cases n 6) as [Hlt|Hge]; [destruct (Hn Hlt)|].
    rewrite take_ge by exact Hge. rewrite drop_ge by exact Hge. rewrite app_nil_r. reflexivity.
Defined.

(** A socket with given bytes to come. *)
#[local] Instance script_socket : Socket (list Z) := {
  sock_write w x := (w, Hiredis.Written (zlen x));
  sock_read w n := (drop (Z.to_nat n) w, Hiredis.ReadBytes (take (Z.to_nat n) w));
}.

(** A server that is out of memory refuses the SET of a transaction and aborts it.  MultiSetEx
    returns at the refusal and leaves the reply to EXEC unread: the next Get takes it for its
    own, and Get "c" gets the value of "b". *)
Example refused_transaction_desync :
  exists cl s, do_calls (fun _ => true) Hiredis.no_double 1000 [CMultiSetEx [str "a"] [str "1"] [0]; CGet (str "b"); CGet (str "c")]
      (mkClient [] 6379 (Some (Hiredis.redisContextInit true)) [])
      (Reader.stream [Reader.TStatus (str "OK"); Reader.TError (str "OOM command not allowed"); Reader.TError (str "EXECABORT");
                      Reader.TBulk (str "value of b"); Reader.TBulk (str "value of c")]) =
    Ok ([RBool false; RValue (-1, []); RValue (0, str "value of b")], cl, s).
Proof. eexists _, _. vm_compute. reflexivity. Qed.

(** The error that MultiGet sets for a missing key is erased at its end. *)
Example multi_get_loses_error :
  exists cl s, MultiGet (fun _ => true) Hiredis.no_double 1000 [str "a"] (mkClient [] 6379 (Some (Hiredis.redisContextInit true)) [])
      (Reader.stream [Reader.TStatus (str "OK"); Reader.TStatus (str "QUEUED"); Reader.TArray [Reader.TNil]]) =
    Ok ((false, [([], 1)]), cl, s) /\ last_error_ cl = [].
Proof. eexists _, _. split; [vm_compute; reflexivity|]. reflexivity. Qed.

(** Any status that is a prefix of "OK" counts as success. *)
Example status_prefix : is_status (str "OK") (Reader.RString Reader.REDIS_REPLY_STATUS (str "O")) = true /\
  is_status (str "OK") (Reader.RString Reader.REDIS_REPLY_STATUS []) = true.
Proof. split; reflexivity. Qed.
End Redispp.
