(* ===== verification/Multi.v ===== *)
(** * redis.c, multi.c: executing commands, transactions

    Model of processCommand and call of [src/debug/redis/src/redis.c] and of
    [src/debug/redis/src/multi.c]: MULTI, EXEC, DISCARD, WATCH, UNWATCH and the keys watched by
    the clients.  The clients are a shared store: the server maps the socket of a client to its
    structure, and every database its watched keys to the sockets of the clients that watch
    them (the C code links both with pointers).  The procedures of the other commands are a
    parameter ([CommandProcs]): they read the dataset, the configuration and the client, queue
    replies, report what they signal with signalModifiedKey and signalFlushedDb, may change the
    configuration, and may fail to return.  The command table and the eviction of
    freeMemoryIfNeeded are parameters too.  Monitors, the slow log, the statistics, alsoPropagate,
    the clients blocked on lists and the replies a command queues for other clients (PUBLISH) are
    left out.

    [transaction_correct] and [exec_all_or_nothing] are what a transaction promises: its commands
    are queued, and EXEC executes all of them, in order and with nothing in between, or none when
    a watched key has been signalled or a command was refused.  processCommand implements the
    interface [CommandProcessor] of [Proto] ([multi_robust]). *)

From Stdlib Require Import ZArith Lia.
From stdpp Require Import prelude list gmap strings numbers.
From S2P Require Import Prelude.
From S2P Require Import Util.
From S2P Require Import Dict.
From S2P Require Import SetType.
From S2P Require Import Client.
From S2P Require Import Proto.

Local Open Scope Z_scope.

Module Multi.
Import Client.

(** ** redis.h, redis.c *)

Definition REDIS_CMD_WRITE : Z := 1.
Definition REDIS_CMD_READONLY : Z := 2.
Definition REDIS_CMD_DENYOOM : Z := 4.
Definition REDIS_CMD_FORCE_REPLICATION : Z := 8.
Definition REDIS_CMD_LOADING : Z := 512.
Definition REDIS_CMD_STALE : Z := 1024.
Definition REDIS_PROPAGATE_NONE : Z := 0.
Definition REDIS_PROPAGATE_AOF : Z := 1.
Definition REDIS_PROPAGATE_REPL : Z := 2.

Definition cmd_has (f : Z) (cmd : redisCommand) : bool := negb (Z.land (cmd_flags cmd) f =? 0).

Definition shared_err (s : list Z) : SetType.robj := SetType.RRaw (str "-" ++ s ++ crlf).
Definition shared_execaborterr :=
  shared_err (str "EXECABORT Transaction discarded because of previous errors.").
Definition shared_oomerr :=
  shared_err (str "OOM command not allowed when used memory > 'maxmemory'.").
Definition shared_bgsaveerr :=
  shared_err (str "MISCONF Redis is configured to save RDB snapshots, but is currently not able to persist on disk. Commands that may modify the data set are disabled. Please check Redis logs for details about the error.").
Definition shared_roslaveerr :=
  shared_err (str "READONLY You can't write against a read only slave.").
Definition shared_masterdownerr :=
  shared_err (str "MASTERDOWN Link with MASTER is down and slave-serve-stale-data is set to 'no'.").
Definition shared_loadingerr := shared_err (str "LOADING Redis is loading the dataset in memory").
Definition shared_slowscripterr :=
  shared_err (str "BUSY Redis is busy running a script. You can only call SCRIPT KILL or SHUTDOWN NOSAVE.").

(** The fields of the server that processCommand tests. *)
Record serverConf := mkConf {
  requirepass : bool;
  maxmemory : bool;                    (* not 0 *)
  stop_writes_on_bgsave_err : bool;
  saveparams : bool;                   (* saveparamslen > 0 *)
  lastbgsave_failed : bool;            (* lastbgsave_status == REDIS_ERR *)
  masterhost : bool;                   (* not NULL *)
  repl_slave_ro : bool;
  repl_connected : bool;               (* repl_state == REDIS_REPL_CONNECTED *)
  repl_serve_stale_data : bool;
  loading : bool;
  lua_timedout : bool;
}.

(** What a command signals: a modified key, or a flush of the database ([-1]: all). *)
Inductive signal :=
  | ModifiedKey (db : Z) (key : list Z)
  | FlushedDb (dbid : Z).

(** The rest of redis.c: [D] is the dataset. *)
Class CommandProcs (D : Type) := {
  redisCommandTable : list redisCommand;
  (** The seed of the hash function, and the mask of the table of server.commands. *)
  dict_hash_function_seed : Z;
  commands_sizemask : Z;
  (** freeMemoryIfNeeded; the flag is [== REDIS_ERR]. *)
  freeMemoryIfNeeded : D -> D * bool;
  (** The key is in the dictionary of the database. *)
  exists_key : D -> Z -> list Z -> bool;
  (** A command procedure that is not one of multi.c, unless it does not return: the client after
      the replies, what is signalled, how much server.dirty grows, the new dataset, and the
      configuration, which CONFIG SET and SLAVEOF change. *)
  run_command : command_proc -> serverConf -> D -> redisClient -> outcome (redisClient * list signal * Z * D * serverConf);
}.

Section Multi.
Context {D : Type} `{!CommandProcs D}.

Record server := mkServer {
  dataset : D;
  clients : gmap Z redisClient;                  (* by socket *)
  watched : gmap (Z * list Z) (list Z);          (* db->watched_keys, for all databases *)
  conf : serverConf;
  dirty : Z;
  propagated : list (Z * Z * list (list Z));     (* calls of propagate: flags, database, argv *)
  signalled : list (Z * list Z);                 (* history of the keys touched; not in the code *)
}.

Implicit Types (s : server) (c : redisClient) (id : Z).

Definition set_clients (m : gmap Z redisClient) s :=
  mkServer (dataset s) m (watched s) (conf s) (dirty s) (propagated s) (signalled s).
Definition set_watched (m : gmap (Z * list Z) (list Z)) s :=
  mkServer (dataset s) (clients s) m (conf s) (dirty s) (propagated s) (signalled s).
Definition set_dataset (d : D) s :=
  mkServer d (clients s) (watched s) (conf s) (dirty s) (propagated s) (signalled s).
Definition set_conf (f : serverConf) s :=
  mkServer (dataset s) (clients s) (watched s) f (dirty s) (propagated s) (signalled s).
Definition set_dirty (z : Z) s :=
  mkServer (dataset s) (clients s) (watched s) (conf s) z (propagated s) (signalled s).
Definition add_signalled (l : list (Z * list Z)) s :=
  mkServer (dataset s) (clients s) (watched s) (conf s) (dirty s) (propagated s) (signalled s ++ l).

(** Dereferencing a client, and writing its structure. *)
Definition client s id : outcome redisClient := Proto.opt (clients s !! id).
Definition put id c s : server := set_clients (<[id := c]> (clients s)) s.
Definition update id (f : redisClient -> redisClient) s : outcome server :=
  c ← client s id; Ok (put id (f c) s).

(** ** multi.c *)

Definition initClientMultiState c : redisClient := set_mstate [] c.

Definition queueMultiCommand c : outcome redisClient :=
  cmd ← Proto.opt (cmd c); Ok (set_mstate (mstate c ++ [mkMultiCmd (argv c) cmd]) c).

Definition flagTransaction c : redisClient :=
  if has_flag REDIS_MULTI c then or_flags REDIS_DIRTY_EXEC c else c.

(** *** Watched keys *)

Definition watchForKey s id (key : list Z) : outcome server :=
  c ← client s id;
  if bool_decide ((db c, key) ∈ watched_keys c) then Ok s
  else
    let l := default [] (watched s !! (db c, key)) in
    let s := set_watched (<[(db c, key) := l ++ [id]]> (watched s)) s in
    Ok (put id (set_watched_keys (watched_keys c ++ [(db c, key)]) c) s).

(** [listDelNode(clients,listSearchKey(clients,c))] *)
Fixpoint remove_client (l : list Z) id : option (list Z) :=
  match l with
  | [] => None
  | x :: l => if x =? id then Some l else l' ← remove_client l id; Some (x :: l')
  end.

Fixpoint unwatch_loop (ks : list (Z * list Z)) id (m : gmap (Z * list Z) (list Z))
    : outcome (gmap (Z * list Z) (list Z)) :=
  match ks with
  | [] => Ok m
  | k :: ks =>
    l ← Proto.opt (m !! k);
    l ← Proto.opt (remove_client l id);
    unwatch_loop ks id (match l with [] => delete k m | _ :: _ => <[k := l]> m end)
  end.

Definition unwatchAllKeys s id : outcome server :=
  c ← client s id;
  m ← unwatch_loop (watched_keys c) id (watched s);
  Ok (put id (set_watched_keys [] c) (set_watched m s)).

Fixpoint touch_loop (ids : list Z) s : outcome server :=
  match ids with
  | [] => Ok s
  | id :: ids => s ← update id (or_flags REDIS_DIRTY_CAS) s; touch_loop ids s
  end.

Definition touchWatchedKey s (db : Z) (key : list Z) : outcome server :=
  let s := add_signalled [(db, key)] s in
  match watched s !! (db, key) with
  | None => Ok s
  | Some l => touch_loop l s
  end.

(** The watched keys of a client that the flush removes. *)
Definition flushed_keys (d : D) (dbid : Z) c : list (Z * list Z) :=
  filter (fun k => (dbid = -1 \/ k.1 = dbid) /\ exists_key d k.1 k.2 = true) (watched_keys c).

Definition flush_client (d : D) (dbid : Z) c : redisClient :=
  match flushed_keys d dbid c with [] => c | _ :: _ => or_flags REDIS_DIRTY_CAS c end.

(** The order of the clients does not matter: each is marked by its own keys. *)
Definition touchWatchedKeysOnFlush s (dbid : Z) : server :=
  let ks := mjoin ((fun x => flushed_keys (dataset s) dbid x.2) <$> map_to_list (clients s)) in
  add_signalled ks (set_clients (flush_client (dataset s) dbid <$> clients s) s).

Definition signalModifiedKey s (db : Z) (key : list Z) : outcome server := touchWatchedKey s db key.
Definition signalFlushedDb s (dbid : Z) : server := touchWatchedKeysOnFlush s dbid.

(** *** The commands *)

Definition discardTransaction s id : outcome server :=
  s ← update id (fun c =>
        clear_flags (Z.lor REDIS_MULTI (Z.lor REDIS_DIRTY_CAS REDIS_DIRTY_EXEC))
          (initClientMultiState c)) s;
  unwatchAllKeys s id.

Definition multiCommand s id : outcome server :=
  update id (fun c =>
    if has_flag REDIS_MULTI c then addReplyError c (str "MULTI calls can not be nested")
    else addReply (or_flags REDIS_MULTI c) shared_ok) s.

Definition discardCommand s id : outcome server :=
  c ← client s id;
  if negb (has_flag REDIS_MULTI c) then Ok (put id (addReplyError c (str "DISCARD without MULTI")) s)
  else
    s ← discardTransaction s id;
    update id (fun c => addReply c shared_ok) s.

Fixpoint watch_loop (keys : list (list Z)) s id : outcome server :=
  match keys with
  | [] => Ok s
  | key :: keys => s ← watchForKey s id key; watch_loop keys s id
  end.

Definition watchCommand s id : outcome server :=
  c ← client s id;
  if has_flag REDIS_MULTI c then Ok (put id (addReplyError c (str "WATCH inside MULTI is not allowed")) s)
  else
    s ← watch_loop (tail (argv c)) s id;
    update id (fun c => addReply c shared_ok) s.

Definition unwatchCommand s id : outcome server :=
  s ← unwatchAllKeys s id;
  update id (fun c => addReply (clear_flags REDIS_DIRTY_CAS c) shared_ok) s.

Definition propagate s (flags dbid : Z) (argv : list (list Z)) : server :=
  mkServer (dataset s) (clients s) (watched s) (conf s) (dirty s)
    (propagated s ++ [(flags, dbid, argv)]) (signalled s).

Definition execCommandPropagateMulti s c : server :=
  propagate s (Z.lor REDIS_PROPAGATE_AOF REDIS_PROPAGATE_REPL) (db c) [str "MULTI"].

(** "Exec all the queued commands"; [call] executes the command of the client. *)
Fixpoint exec_loop (fuel : nat) (call : server -> Z -> outcome server) (j : nat) s id
    (must_propagate : bool) : outcome (server * bool)%type :=
  c ← client s id;
  match mstate c !! j with
  | None => Ok (s, must_propagate)
  | Some mc =>
    match fuel with
    | O => OutOfFuel
    | S fuel =>
      let c := set_cmd (Some (mc_cmd mc)) (set_argv (mc_argv mc) c) in
      let s := put id c s in
      let first := negb must_propagate && negb (cmd_has REDIS_CMD_READONLY (mc_cmd mc)) in
      let s := if first then execCommandPropagateMulti s c else s in
      s ← call s id;
      c ← client s id;
      cm ← Proto.opt (cmd c);
      let s := put id (set_mstate (<[j := mkMultiCmd (argv c) cm]> (mstate c)) c) s in
      exec_loop fuel call (S j) s id (must_propagate || first)
    end
  end.

Definition execCommand (call : server -> Z -> outcome server) s id : outcome server :=
  c ← client s id;
  if negb (has_flag REDIS_MULTI c) then Ok (put id (addReplyError c (str "EXEC without MULTI")) s)
  else if has_flag (Z.lor REDIS_DIRTY_CAS REDIS_DIRTY_EXEC) c then
    let r := if has_flag REDIS_DIRTY_EXEC c then shared_execaborterr else shared_nullmultibulk in
    discardTransaction (put id (addReply c r) s) id
  else
    s ← unwatchAllKeys s id;
    c ← client s id;
    let '(orig_argv, orig_cmd) := (argv c, cmd c) in
    c ← Proto.opt (addReplyMultiBulkLen c (zlen (mstate c)));
    '(s, must_propagate) ← exec_loop (length (mstate c)) call 0 (put id c s) id false;
    s ← update id (fun c => set_cmd orig_cmd (set_argv orig_argv c)) s;
    s ← discardTransaction s id;
    Ok (if must_propagate : bool then set_dirty (dirty s + 1) s else s).

(** ** redis.c *)

Fixpoint run_signals (sigs : list signal) s : outcome server :=
  match sigs with
  | [] => Ok s
  | ModifiedKey db key :: sigs => s ← signalModifiedKey s db key; run_signals sigs s
  | FlushedDb dbid :: sigs => run_signals sigs (signalFlushedDb s dbid)
  end.

(** The procedure of a command that is not one of multi.c. *)
Definition otherCommand (p : command_proc) s id : outcome server :=
  c ← client s id;
  '(c, sigs, dd, d, f) ← run_command p (conf s) (dataset s) c;
  s ← run_signals sigs (put id c s);
  Ok (set_dirty (dirty s + dd) (set_conf f (set_dataset d s))).

(** [c->cmd->proc(c)] *)
Definition run_proc (call : server -> Z -> outcome server) (p : command_proc) s id : outcome server :=
  match p with
  | MultiProc => multiCommand s id
  | ExecProc => execCommand call s id
  | DiscardProc => discardCommand s id
  | WatchProc => watchCommand s id
  | UnwatchProc => unwatchCommand s id
  | p => otherCommand p s id
  end.

(** [call(c, REDIS_CALL_FULL)]; [depth] bounds the nesting of EXEC, whose queue never holds
    EXEC. *)
Fixpoint call (depth : nat) s id : outcome server :=
  match depth with
  | O => OutOfFuel
  | S depth =>
    c ← client s id;
    cm ← Proto.opt (cmd c);
    let dirty0 := dirty s in
    s ← run_proc (call depth) (proc cm) s id;
    let dirty := dirty s - dirty0 in
    c ← client s id;
    cm ← Proto.opt (cmd c);
    let flags := REDIS_PROPAGATE_NONE in
    let flags := if cmd_has REDIS_CMD_FORCE_REPLICATION cm then Z.lor flags REDIS_PROPAGATE_REPL
                 else flags in
    let flags := if negb (dirty =? 0)
                 then Z.lor flags (Z.lor REDIS_PROPAGATE_REPL REDIS_PROPAGATE_AOF) else flags in
    Ok (if negb (flags =? REDIS_PROPAGATE_NONE) then propagate s flags (db c) (argv c) else s)
  end.

Definition call_depth : nat := 2.

(** server.commands hashes the whole name, and compares names as C strings. *)
Definition commands_bucket (name : list Z) : Z :=
  Z.land (Dict.dictGenCaseHashFunction dict_hash_function_seed name) commands_sizemask.

Definition lookupCommand (name : list Z) : option redisCommand :=
  List.find (fun cmd => (commands_bucket (cmd_name cmd) =? commands_bucket name)
                        && Util.strcasecmp_eq (cmd_name cmd) name) redisCommandTable.

(** The command is refused: the reply, and whether the transaction is flagged. *)
Definition refuse (flag : bool) (reply : redisClient -> redisClient) c : redisClient :=
  reply (if flag then flagTransaction c else c).

(** The tests of processCommand after the lookup, in order: whether the refusal flags the
    transaction, and the reply; [None]: the command may run. *)
Definition refuse_early (f : serverConf) (cm : redisCommand) c : option (bool * (redisClient -> redisClient)) :=
  let argc := zlen (argv c) in
  if ((0 <? arity cm) && negb (arity cm =? argc)) || (argc <? - arity cm) then
    Some (true, fun c => addReplyErrorFormat c
      (str "wrong number of arguments for '" ++ cmd_name cm ++ str "' command"))
  else if requirepass f && negb (authenticated c) && negb (bool_decide (proc cm = AuthProc)) then
    Some (true, fun c => addReplyError c (str "operation not permitted"))
  else None.

(** [oom]: freeMemoryIfNeeded failed. *)
Definition refuse_late (f : serverConf) (oom : bool) (cm : redisCommand) c : option (bool * (redisClient -> redisClient)) :=
  let argc := zlen (argv c) in
  if maxmemory f && (cmd_has REDIS_CMD_DENYOOM cm && oom) then
    Some (true, fun c => addReply c shared_oomerr)
  else if stop_writes_on_bgsave_err f && saveparams f && lastbgsave_failed f
          && cmd_has REDIS_CMD_WRITE cm then
    Some (true, fun c => addReply c shared_bgsaveerr)
  else if masterhost f && repl_slave_ro f && negb (has_flag REDIS_MASTER c)
          && cmd_has REDIS_CMD_WRITE cm then
    Some (false, fun c => addReply c shared_roslaveerr)
  else if ((0 <? zlen (pubsub_channels c)) || (0 <? zlen (pubsub_patterns c)))
          && negb (bool_decide (proc cm = SubscribeProc))
          && negb (bool_decide (proc cm = UnsubscribeProc))
          && negb (bool_decide (proc cm = PsubscribeProc))
          && negb (bool_decide (proc cm = PunsubscribeProc)) then
    Some (false, fun c => addReplyError c
      (str "only (P)SUBSCRIBE / (P)UNSUBSCRIBE / QUIT allowed in this context"))
  else if masterhost f && negb (repl_connected f) && negb (repl_serve_stale_data f)
          && negb (cmd_has REDIS_CMD_STALE cm) then
    Some (true, fun c => addReply c shared_masterdownerr)
  else if loading f && negb (cmd_has REDIS_CMD_LOADING cm) then
    Some (false, fun c => addReply c shared_loadingerr)
  else if lua_timedout f && negb (bool_decide (proc cm = AuthProc))
          && negb (bool_decide (proc cm = ShutdownProc) && (argc =? 2)
                   && bool_decide (tolower <$> head (default [] (argv c !! 1%nat)) = Some 110))
          && negb (bool_decide (proc cm = ScriptProc) && (argc =? 2)
                   && bool_decide (tolower <$> head (default [] (argv c !! 1%nat)) = Some 107)) then
    Some (true, fun c => addReply c shared_slowscripterr)
  else None.

(** "Exec the command" *)
Definition queued_in_multi (cm : redisCommand) c : bool :=
  has_flag REDIS_MULTI c
  && negb (bool_decide (proc cm = ExecProc)) && negb (bool_decide (proc cm = DiscardProc))
  && negb (bool_decide (proc cm = MultiProc)) && negb (bool_decide (proc cm = WatchProc)).

(** The flag is [== REDIS_OK]. *)
Definition processCommand s id : outcome (server * bool)%type :=
  c ← client s id;
  name ← Proto.opt (head (argv c));
  if Util.strcasecmp_eq name (str "quit") then
    Ok (put id (or_flags REDIS_CLOSE_AFTER_REPLY (addReply c shared_ok)) s, false)
  else
    let c := set_cmd (lookupCommand name) c in
    match lookupCommand name with
    | None =>
      Ok (put id (refuse true (fun c => addReplyErrorFormat c
            (str "unknown command '" ++ Util.cstr name ++ str "'")) c) s, true)
    | Some cm =>
      match refuse_early (conf s) cm c with
      | Some (flag, reply) => Ok (put id (refuse flag reply c) s, true)
      | None =>
        let '(d, oom) := if maxmemory (conf s) then freeMemoryIfNeeded (dataset s)
                         else (dataset s, false) in
        let s := set_dataset d s in
        match refuse_late (conf s) oom cm c with
        | Some (flag, reply) => Ok (put id (refuse flag reply c) s, true)
        | None =>
          if queued_in_multi cm c then
            c ← queueMultiCommand c;
            Ok (put id (addReply c shared_queued) s, true)
          else
            s ← call call_depth (put id c s) id;
            Ok (s, true)
        end
      end
    end.

(** freeClient, as far as the state of this file is concerned. *)
Definition freeClient s id : outcome server :=
  s ← unwatchAllKeys s id;
  Ok (set_clients (delete id (clients s)) s).

(** ** The invariant *)

Definition not_queued (p : command_proc) : bool :=
  bool_decide (p = ExecProc) || bool_decide (p = DiscardProc) || bool_decide (p = MultiProc)
  || bool_decide (p = WatchProc).

Record client_inv id c : Prop := {
  ci_fd : fd c = id;
  ci_keys : NoDup (watched_keys c);
  ci_queue : Forall (fun mc => not_queued (proc (mc_cmd mc)) = false) (mstate c);
  ci_multi : has_flag REDIS_MULTI c = false -> mstate c = [];
}.

(** The two directions of the links between clients and watched keys agree. *)
Record multi_inv s : Prop := {
  mi_client id c : clients s !! id = Some c -> client_inv id c;
  mi_list k l : watched s !! k = Some l -> NoDup l /\ l <> [];
  mi_watch k id : id ∈ default [] (watched s !! k) <->
    exists c, clients s !! id = Some c /\ k ∈ watched_keys c;
}.

(** *** Signals *)

(** The client after the keys [ks] have been signalled. *)
Definition touched (ks : list (Z * list Z)) c : bool :=
  bool_decide (Exists (fun k => k ∈ watched_keys c) ks).
Definition mark (ks : list (Z * list Z)) c : redisClient :=
  if touched ks c then or_flags REDIS_DIRTY_CAS c else c.

Lemma has_or_flag f c : f <> 0 -> has_flag f (or_flags f c) = true.
Proof.
  intros Hf. unfold has_flag, or_flags. cbn. apply negb_true_iff, Z.eqb_neq.
  replace (Z.land (Z.lor (flags c) f) f) with f; [done|]. apply Z.bits_inj'. intros n _.
  rewrite Z.land_spec, Z.lor_spec. by destruct (Z.testbit (flags c) n), (Z.testbit f n).
Qed.

Lemma or_flags_idem f c : or_flags f (or_flags f c) = or_flags f c.
Proof. unfold or_flags. cbn. by rewrite <- Z.lor_assoc, Z.lor_diag. Qed.

Lemma mark_app a b c : mark b (mark a c) = mark (a ++ b) c.
Proof.
  unfold mark, touched.
  assert (watched_keys (if bool_decide (Exists (fun k => k ∈ watched_keys c) a)
    then or_flags REDIS_DIRTY_CAS c else c) = watched_keys c) as -> by (by case_bool_decide).
  do 2 case_bool_decide; case_bool_decide; rewrite Exists_app in *; try tauto.
  by rewrite or_flags_idem.
Qed.

Lemma mark_nil c : mark [] c = c.
Proof. unfold mark, touched. case_bool_decide as H; [by inversion H|done]. Qed.

Lemma mark_nil_opt (o : option redisClient) : mark [] <$> o = o.
Proof. destruct o; [|done]. simpl. by rewrite mark_nil. Qed.

Lemma mark_app_opt a b (o : option redisClient) : mark b <$> (mark a <$> o) = mark (a ++ b) <$> o.
Proof. destruct o; [|done]. simpl. by rewrite mark_app. Qed.

(** The server after the keys [ks] have been signalled. *)
Definition mark_all (ks : list (Z * list Z)) s : server :=
  add_signalled ks (set_clients (mark ks <$> clients s) s).

Lemma mark_all_app a b s : mark_all b (mark_all a s) = mark_all (a ++ b) s.
Proof.
  unfold mark_all, add_signalled, set_clients. cbn. f_equal; [|by rewrite app_assoc].
  rewrite <- map_fmap_compose. apply map_fmap_ext. intros id c _. apply mark_app.
Qed.

Lemma mark_all_nil s : mark_all [] s = s.
Proof.
  unfold mark_all, add_signalled, set_clients. destruct s; cbn. f_equal; [|apply app_nil_r].
  rewrite <- (map_fmap_id clients0) at 2. apply map_fmap_ext. intros id c _. apply mark_nil.
Qed.

Lemma mark_keys ks c : watched_keys (mark ks c) = watched_keys c /\ mstate (mark ks c) = mstate c /\
  fd (mark ks c) = fd c /\ (forall f, Z.land f REDIS_DIRTY_CAS = 0 -> has_flag f (mark ks c) = has_flag f c).
Proof.
  unfold mark. destruct (touched ks c); [|done]. split_and!; [done..|]. intros f Hf.
  unfold has_flag, or_flags. cbn. do 2 f_equal.
  rewrite Z.land_lor_distr_l. rewrite (Z.land_comm REDIS_DIRTY_CAS), Hf. apply Z.lor_0_r.
Qed.

Lemma mark_all_inv ks s : multi_inv s -> multi_inv (mark_all ks s).
Proof.
  intros [Hc Hl Hw]. split; cbn.
  - intros id c Hi. rewrite lookup_fmap in Hi. destruct (clients s !! id) as [c0|] eqn:E; [|done].
    injection Hi as <-. destruct (Hc id c0 E) as [H1 H2 H3 H4]. destruct (mark_keys ks c0) as (K1 & K2 & K3 & K4).
    split; rewrite ?K1, ?K2, ?K3, ?K4 by done; done.
  - exact Hl.
  - intros k id. rewrite Hw, lookup_fmap. split.
    + intros (c & -> & Hk). exists (mark ks c). split; [done|]. by rewrite (proj1 (mark_keys ks c)).
    + intros (c & Hi & Hk). destruct (clients s !! id) as [c0|]; [|done]. injection Hi as <-.
      exists c0. split; [done|]. by rewrite (proj1 (mark_keys ks c0)) in Hk.
Qed.

Lemma touch_loop_mark k ids s :
  (forall id, id ∈ ids -> exists c, clients s !! id = Some c /\ k ∈ watched_keys c) ->
  touch_loop ids s = Ok (set_clients (map_imap (fun id c =>
    Some (if bool_decide (id ∈ ids) then or_flags REDIS_DIRTY_CAS c else c)) (clients s)) s).
Proof.
  revert s. induction ids as [|id ids IH]; intros s Hids; cbn [touch_loop].
  - f_equal. destruct s; cbn. unfold set_clients; cbn. f_equal. symmetry. apply map_eq. intros i.
    rewrite map_lookup_imap. destruct (clients0 !! i); [|done]. cbn. by rewrite bool_decide_false by inversion 1.
  - destruct (Hids id) as (c & Hc & Hk); [by left|]. unfold update, client. rewrite Hc. cbn [Proto.opt mbind outcome_bind].
    rewrite IH.
    + f_equal. unfold put, set_clients. cbn. f_equal. apply map_eq. intros i.
      rewrite !map_lookup_imap. destruct (decide (i = id)) as [->|Hne].
      * rewrite lookup_insert_eq, Hc. cbn. rewrite (bool_decide_true (id ∈ id :: ids)) by (by left).
        case_bool_decide; [by rewrite or_flags_idem|done].
      * rewrite lookup_insert_ne by done. destruct (clients s !! i); [|done]. cbn.
        rewrite (bool_decide_ext (i ∈ ids) (i ∈ id :: ids)); [done|]. set_solver.
    + intros i Hi. cbn. destruct (decide (i = id)) as [->|Hne].
      * rewrite lookup_insert_eq. exists (or_flags REDIS_DIRTY_CAS c). by split.
      * rewrite lookup_insert_ne by done. apply Hids. by right.
Qed.

Lemma touchWatchedKey_mark s db key : multi_inv s -> touchWatchedKey s db key = Ok (mark_all [(db, key)] s).
Proof.
  intros [Hc Hl Hw]. unfold touchWatchedKey.
  assert (Hm : forall id c, clients s !! id = Some c ->
    mark [(db, key)] c = if bool_decide (id ∈ default [] (watched s !! (db, key))) then or_flags REDIS_DIRTY_CAS c else c).
  { intros id c Hi. unfold mark, touched. rewrite (bool_decide_ext _ (id ∈ default [] (watched s !! (db, key)))); [done|].
    rewrite Exists_cons, Exists_nil, Hw. split.
    - intros [Hk|[]]. by exists c.
    - intros (c' & Hi' & Hk). left. congruence. }
  destruct (watched s !! (db, key)) as [l|] eqn:E; cbn [watched add_signalled]; rewrite E.
  - rewrite (touch_loop_mark (db, key)).
    + f_equal. unfold mark_all, add_signalled, set_clients. cbn. f_equal. apply map_eq. intros i.
      rewrite map_lookup_imap, lookup_fmap. destruct (clients s !! i) as [c|] eqn:Ei; [|done]. cbn.
      by rewrite (Hm i c Ei).
    + intros id Hi. apply Hw. by rewrite E.
  - f_equal. unfold mark_all, add_signalled, set_clients. destruct s; cbn in *. f_equal.
    rewrite <- (map_fmap_id clients0) at 1. apply map_fmap_ext. intros i c Hi. rewrite (Hm i c Hi).
    by rewrite bool_decide_false by inversion 1.
Qed.

Lemma flush_mark s dbid :
  exists ks, signalFlushedDb s dbid = mark_all ks s.
Proof.
  eexists. unfold signalFlushedDb, touchWatchedKeysOnFlush. set (ks := mjoin _).
  unfold mark_all. f_equal. unfold set_clients. f_equal. apply map_fmap_ext. intros i c Hi.
  unfold flush_client, mark, touched.
  assert ((exists k, k ∈ flushed_keys (dataset s) dbid c) <-> Exists (fun k => k ∈ watched_keys c) ks) as Hiff.
  { rewrite Exists_exists. setoid_rewrite <- list_elem_of_In. split.
    - intros (k & Hk). exists k. split.
      + unfold ks. rewrite list_elem_of_join. exists (flushed_keys (dataset s) dbid c). split; [done|].
        apply list_elem_of_fmap. exists (i, c). split; [done|]. by apply elem_of_map_to_list.
      + unfold flushed_keys in Hk. by apply list_elem_of_filter in Hk as [_ Hk].
    - intros (k & Hk & Hw). exists k. unfold ks in Hk. rewrite list_elem_of_join in Hk.
      destruct Hk as (l & Hk & Hl). apply list_elem_of_fmap in Hl as ([j c'] & -> & _).
      unfold flushed_keys in *. apply list_elem_of_filter in Hk as [Hp _]. by apply list_elem_of_filter. }
  case_bool_decide as Hb.
  - apply Hiff in Hb as [k Hk]. by destruct (flushed_keys (dataset s) dbid c); [inversion Hk|].
  - destruct (flushed_keys (dataset s) dbid c) as [|k l]; [done|]. destruct Hb. apply Hiff. exists k. by left.
Qed.

Lemma run_signals_mark sigs s : multi_inv s -> exists ks, run_signals sigs s = Ok (mark_all ks s).
Proof.
  revert s. induction sigs as [|[db key|dbid] sigs IH]; intros s Hi; cbn [run_signals].
  - exists []. by rewrite mark_all_nil.
  - unfold signalModifiedKey. rewrite touchWatchedKey_mark by done. cbn [mbind outcome_bind].
    destruct (IH (mark_all [(db, key)] s)) as [ks ->]; [by apply mark_all_inv|].
    eexists. by rewrite mark_all_app.
  - destruct (flush_mark s dbid) as [ks ->]. destruct (IH (mark_all ks s)) as [ks' ->]; [by apply mark_all_inv|].
    eexists. by rewrite mark_all_app.
Qed.

(** *** Effects

    What an operation by the client [id] does to the rest of the server: the other clients are
    only marked by the keys it signals. *)

Definition tx_flags : Z := Z.lor REDIS_MULTI (Z.lor REDIS_DIRTY_CAS REDIS_DIRTY_EXEC).

(** The fields the invariant and the parser depend on. *)
Record keeps c c' : Prop := {
  ke_fd : fd c' = fd c;
  ke_query : querybuf c' = querybuf c;
  ke_keys : watched_keys c' = watched_keys c;
  ke_queue : mstate c' = mstate c;
  ke_flags : Z.land (flags c') tx_flags = Z.land (flags c) tx_flags;
}.

#[local] Instance keeps_preorder : PreOrder keeps.
Proof. split; [by split|]. intros c1 c2 c3 [] []. by split; etransitivity. Qed.

Lemma keeps_flag f c c' : keeps c c' -> Z.land tx_flags f = f -> has_flag f c' = has_flag f c.
Proof.
  intros [_ _ _ _ H] Hf. unfold has_flag. rewrite <- Hf, !Z.land_assoc, H. done.
Qed.

Lemma out_keeps c c' : out_only c c' -> keeps c c'.
Proof. intros ->. by split. Qed.

Lemma reply_out c (m : list Z) : out_only c (addReply c (SetType.RRaw m)).
Proof. rewrite addReply_string by done. apply add_string_out. Qed.

Lemma reply_cmd c (m : list Z) : cmd (addReply c (SetType.RRaw m)) = cmd c.
Proof. by rewrite (reply_out c m). Qed.

Lemma error_out c (m : list Z) : out_only c (addReplyErrorLength c m).
Proof. unfold addReplyErrorLength. repeat (etransitivity; [|apply add_string_out]). reflexivity. Qed.

Lemma mbulk_len_out c n : 0 <= n -> exists c', addReplyMultiBulkLen c n = Some c' /\ out_only c c'.
Proof.
  intros Hn. unfold addReplyMultiBulkLen, addReplyLongLongWithPrefix.
  destruct (_ && _) eqn:E.
  - apply andb_true_iff in E as [_ E]. unfold shared_hdr. rewrite E.
    destruct (Z.leb_spec 0 n); [|lia]. eexists. split; [done|]. apply reply_out.
  - destruct (Util.ll2string _ _). eexists. split; [done|]. apply add_string_out.
Qed.

Lemma keeps_inv id c c' : keeps c c' -> client_inv id c -> client_inv id c'.
Proof.
  intros Hk [H1 H2 H3 H4]. pose proof Hk as [K1 _ K3 K4 _]. split; rewrite ?K1, ?K3, ?K4; auto.
  rewrite (keeps_flag REDIS_MULTI _ _ Hk) by done. done.
Qed.

Lemma mark_fields ks c :
  exists f, mark ks c = set_flags f c /\ (forall g, Z.land REDIS_DIRTY_CAS g = 0 -> Z.land f g = Z.land (flags c) g).
Proof.
  unfold mark. destruct (touched ks c).
  - eexists. split; [done|]. intros g Hg. by rewrite Z.land_lor_distr_l, Hg, Z.lor_0_r.
  - exists (flags c). split; [by destruct c|done].
Qed.

Record effect id s c s' c' (ks : list (Z * list Z)) : Prop := {
  ef_inv : multi_inv s';
  ef_client : clients s' !! id = Some c';
  ef_query : querybuf c' = querybuf c;
  ef_others j : j <> id -> clients s' !! j = mark ks <$> clients s !! j;
  ef_signalled : signalled s' = signalled s ++ ks;
}.

Lemma effect_refl id s c : multi_inv s -> clients s !! id = Some c -> effect id s c s c [].
Proof.
  intros Hi Hc. split; try done; [|by rewrite app_nil_r]. intros j _. by rewrite mark_nil_opt.
Qed.

Lemma effect_trans id s1 c1 s2 c2 ks s3 c3 ks' :
  effect id s1 c1 s2 c2 ks -> effect id s2 c2 s3 c3 ks' -> effect id s1 c1 s3 c3 (ks ++ ks').
Proof.
  intros [_ _ Q1 O1 G1] [I2 C2 Q2 O2 G2]. split; try done; try congruence.
  - intros j Hj. by rewrite O2, O1, mark_app_opt by done.
  - by rewrite G2, G1, app_assoc.
Qed.

(** Steps that leave the watched keys alone. *)
Lemma put_inv id s c c' :
  multi_inv s -> clients s !! id = Some c -> client_inv id c' -> watched_keys c' = watched_keys c ->
  multi_inv (put id c' s).
Proof.
  intros [Hc Hl Hw] Hi Hc' Hk. split; cbn; [|done|].
  - intros j d. destruct (decide (j = id)) as [->|Hne].
    + rewrite lookup_insert_eq. by intros [= <-].
    + rewrite lookup_insert_ne by done. apply Hc.
  - intros k j. rewrite Hw. destruct (decide (j = id)) as [->|Hne].
    + rewrite lookup_insert_eq, Hi. split; intros (d & [= <-] & Hd).
      * exists c'. by rewrite Hk.
      * exists c. by rewrite <- Hk.
    + by rewrite lookup_insert_ne.
Qed.

Lemma put_effect id s c c' :
  multi_inv s -> clients s !! id = Some c -> keeps c c' -> effect id s c (put id c' s) c' [].
Proof.
  intros Hi Hc Hk. split.
  - eapply put_inv; [done..| |by apply ke_keys]. eapply keeps_inv; [done|]. by apply Hi.
  - apply lookup_insert_eq.
  - by apply ke_query.
  - intros j Hj. cbn. by rewrite lookup_insert_ne, mark_nil_opt by done.
  - by rewrite app_nil_r.
Qed.

(** What the procedures work on apart from the clients: the dataset and the configuration. *)
Definition world : Type := (D * serverConf)%type.
Definition data s : world := (dataset s, conf s).

(** *** Watching *)

Lemma remove_client_spec (l : list Z) id :
  NoDup l -> id ∈ l -> exists l', remove_client l id = Some l' /\ NoDup l' /\ forall x, x ∈ l' <-> x ∈ l /\ x <> id.
Proof.
  induction 1 as [|x l Hx Hl IH]; [by inversion 1|]. intros Hin. cbn [remove_client].
  destruct (Z.eqb_spec x id) as [->|Hne].
  - exists l. split_and!; [done..|]. set_solver.
  - destruct IH as (l' & -> & Hn & He); [set_solver|]. exists (x :: l'). split_and!; [done| |set_solver].
    constructor; [|done]. rewrite He. tauto.
Qed.

(** The links of the watched keys [ks] of the client are removed. *)
Definition unlinked (ks : list (Z * list Z)) id (m m' : gmap (Z * list Z) (list Z)) : Prop :=
  (forall k l, m' !! k = Some l -> NoDup l /\ l <> []) /\
  (forall k j, j ∈ default [] (m' !! k) <-> j ∈ default [] (m !! k) /\ ~ (j = id /\ k ∈ ks)).

Lemma unwatch_loop_spec ks id m :
  NoDup ks -> (forall k l, m !! k = Some l -> NoDup l /\ l <> []) ->
  (forall k, k ∈ ks -> id ∈ default [] (m !! k)) ->
  exists m', unwatch_loop ks id m = Ok m' /\ unlinked ks id m m'.
Proof.
  intros Hks. revert m. induction Hks as [|k ks Hk Hks IH]; intros m Hm Hin; cbn [unwatch_loop].
  { exists m. split; [done|]. split; [done|]. set_solver. }
  pose proof (Hin k ltac:(by left)) as Hid.
  destruct (m !! k) as [l|] eqn:El; [|by inversion Hid]. destruct (Hm k l El) as [Hn _].
  destruct (remove_client_spec l id Hn Hid) as (l' & Er & Hn' & He). cbn [Proto.opt mbind outcome_bind].
  rewrite Er. cbn [Proto.opt mbind outcome_bind].
  set (m1 := match l' with [] => delete k m | _ :: _ => <[k := l']> m end).
  assert (forall k', default [] (m1 !! k') = if decide (k' = k) then l' else default [] (m !! k')) as Hd.
  { intros k'. unfold m1. destruct (decide (k' = k)) as [->|Hne]; destruct l';
      rewrite ?lookup_delete_eq, ?lookup_insert_eq, ?lookup_delete_ne, ?lookup_insert_ne by done; done. }
  destruct (IH m1) as (m' & -> & Hl' & Hj').
  - intros k' l1. unfold m1. destruct (decide (k' = k)) as [->|Hne]; destruct l';
      rewrite ?lookup_delete_eq, ?lookup_insert_eq, ?lookup_delete_ne, ?lookup_insert_ne by done; try apply Hm.
    + done.
    + by intros [= <-].
  - intros k' Hk'. rewrite Hd. destruct (decide (k' = k)) as [->|Hne]; [done|]. apply Hin. by right.
  - exists m'. split; [done|]. split; [done|]. intros k' j. rewrite Hj', Hd, elem_of_cons.
    destruct (decide (k' = k)) as [->|Hne].
    + rewrite El, He. cbn. tauto.
    + naive_solver.
Qed.

Lemma set_keys_inv id c : client_inv id c -> client_inv id (set_watched_keys [] c).
Proof. intros []. split; auto. constructor. Qed.

Lemma unwatchAllKeys_spec s id c :
  multi_inv s -> clients s !! id = Some c ->
  exists s', unwatchAllKeys s id = Ok s' /\ data s' = data s /\
    effect id s c s' (set_watched_keys [] c) [] /\ dirty s' = dirty s /\ propagated s' = propagated s.
Proof.
  intros Hi Hc. pose proof Hi as [Hci Hl Hw]. unfold unwatchAllKeys, client. rewrite Hc.
  cbn [Proto.opt mbind outcome_bind].
  destruct (unwatch_loop_spec (watched_keys c) id (watched s)) as (m & -> & Hl' & Hj).
  { by apply (Hci id). } { done. } { intros k Hk. apply Hw. by exists c. }
  cbn [mbind outcome_bind]. eexists. split; [done|]. split; [done|]. split; [|done].
  split; [|by apply lookup_insert_eq|done| |by rewrite app_nil_r].
  - split; cbn; [|done|].
    + intros j d. destruct (decide (j = id)) as [->|Hne].
      * rewrite lookup_insert_eq. intros [= <-]. by apply set_keys_inv, Hci.
      * rewrite lookup_insert_ne by done. apply Hci.
    + intros k j. rewrite Hj, Hw. destruct (decide (j = id)) as [->|Hne].
      * rewrite lookup_insert_eq, Hc. split.
        -- intros [(d & [= <-] & Hd) Hn]. by destruct Hn.
        -- intros (d & [= <-] & Hd). by inversion Hd.
      * rewrite lookup_insert_ne by done. naive_solver.
  - intros j Hne. cbn. by rewrite lookup_insert_ne, mark_nil_opt by done.
Qed.

Lemma watchForKey_spec s id c key :
  multi_inv s -> clients s !! id = Some c ->
  exists s', watchForKey s id key = Ok s' /\ data s' = data s /\
    effect id s c s' (if bool_decide ((db c, key) ∈ watched_keys c) then c
                      else set_watched_keys (watched_keys c ++ [(db c, key)]) c) [].
Proof.
  intros Hi Hc. pose proof Hi as [Hci Hl Hw]. unfold watchForKey, client. rewrite Hc.
  cbn [Proto.opt mbind outcome_bind]. case_bool_decide as Hb.
  { exists s. split_and!; [done..|]. by apply effect_refl. }
  eexists. split; [done|]. split; [done|].
  split; [|by apply lookup_insert_eq|done| |by rewrite app_nil_r].
  - assert (id ∉ default [] (watched s !! (db c, key))) as Hn.
    { rewrite Hw. intros (d & Hd & Hk). congruence. }
    split; cbn.
    + intros j d. destruct (decide (j = id)) as [->|Hne].
      * rewrite lookup_insert_eq. intros [= <-]. destruct (Hci id c Hc). split; cbn; auto.
        apply list.NoDup_app. split_and!; [done| |apply NoDup_singleton]. set_solver.
      * rewrite lookup_insert_ne by done. apply Hci.
    + intros k l. destruct (decide (k = (db c, key))) as [->|Hne].
      * rewrite lookup_insert_eq. intros [= <-]. split; [|by destruct (default [] _)].
        apply list.NoDup_app. split_and!; [|set_solver|apply NoDup_singleton].
        destruct (watched s !! (db c, key)) eqn:E; [by apply (Hl _ _ E)|constructor].
      * rewrite lookup_insert_ne by done. apply Hl.
    + intros k j. destruct (decide (j = id)) as [->|Hne]; [rewrite (lookup_insert_eq (clients s))|rewrite (lookup_insert_ne (clients s)) by done].
      * destruct (decide (k = (db c, key))) as [->|Hne']; [rewrite lookup_insert_eq|rewrite lookup_insert_ne by done].
        -- split; intros _; [eexists; split; [done|]|]; (apply elem_of_app; right; by left).
        -- rewrite Hw, Hc. split; intros (d & [= <-] & Hd); (eexists; split; [done|]); cbn in *.
           ++ apply elem_of_app. by left.
           ++ apply elem_of_app in Hd as [Hd|Hd]; [done|]. by apply list_elem_of_singleton in Hd.
      * destruct (decide (k = (db c, key))) as [->|Hne']; [rewrite lookup_insert_eq|rewrite lookup_insert_ne by done].
        -- cbn. rewrite <- Hw. set_solver.
        -- by rewrite Hw.
  - intros j Hne. cbn. by rewrite lookup_insert_ne, mark_nil_opt by done.
Qed.

(** *** The commands *)

(** What is relied on of the other commands when they return: they neither touch the query nor
    the transaction of the client, and a command that rewrites itself does not become one of
    multi.c. *)
Class CommandLaws : Prop := {
  run_keeps p f d c c' sigs dd d' f' : run_command p f d c = Ok (c', sigs, dd, d', f') -> keeps c c';
  run_cmd p f d c c' sigs dd d' f' cm : run_command p f d c = Ok (c', sigs, dd, d', f') ->
    cmd c = Some cm -> not_queued (proc cm) = false ->
    exists cm', cmd c' = Some cm' /\ not_queued (proc cm') = false;
}.

(** A computation returns. *)
Definition returns {A} (o : outcome A) : Prop := exists a, o = Ok a.

Lemma returns_bind {A B} (o : outcome A) (k : A -> outcome B) : returns (o ≫= k) -> returns o.
Proof. destruct o; [by eexists|by intros [? [=]]..]. Qed.

Lemma update_spec id s c f :
  clients s !! id = Some c -> update id f s = Ok (put id (f c) s).
Proof. intros Hc. unfold update, client. by rewrite Hc. Qed.

(** The client after its transaction. *)
Definition finished c : redisClient :=
  set_watched_keys [] (clear_flags tx_flags (initClientMultiState c)).

Lemma discardTransaction_spec s id c :
  multi_inv s -> clients s !! id = Some c ->
  exists s', discardTransaction s id = Ok s' /\ data s' = data s /\
    effect id s c s' (finished c) [].
Proof.
  intros Hi Hc. unfold discardTransaction. rewrite (update_spec _ _ c) by done. cbn [mbind outcome_bind].
  set (c1 := clear_flags _ _).
  assert (effect id s c (put id c1 s) c1 []) as He.
  { split; [|by apply lookup_insert_eq|done| |by rewrite app_nil_r].
    - apply put_inv with c; [done..| |done]. destruct (mi_client _ Hi id c Hc). split; cbn; auto.
    - intros j Hj. cbn. by rewrite lookup_insert_ne, mark_nil_opt by done. }
  destruct (unwatchAllKeys_spec (put id c1 s) id c1) as (s' & -> & Hd & He' & _);
    [by apply He|by apply He|].
  exists s'. split_and!; [done..|]. exact (effect_trans _ _ _ _ _ _ _ _ _ He He').
Qed.

Lemma otherCommand_spec p s id c c2 sigs dd d f :
  CommandLaws -> multi_inv s -> clients s !! id = Some c ->
  run_command p (conf s) (dataset s) c = Ok (c2, sigs, dd, d, f) ->
  exists s' ks, otherCommand p s id = Ok s' /\ data s' = (d, f) /\ effect id s c s' (mark ks c2) ks.
Proof.
  intros HL Hi Hc Hr. unfold otherCommand, client. rewrite Hc. cbn [Proto.opt mbind outcome_bind].
  rewrite Hr. cbn [mbind outcome_bind]. assert (keeps c c2) as Hk by (by eapply run_keeps).
  pose proof (put_effect id s c c2 Hi Hc Hk) as He.
  destruct (run_signals_mark sigs (put id c2 s)) as [ks ->]; [by apply He|]. cbn [mbind outcome_bind].
  eexists _, ks. split; [done|]. split; [done|].
  assert (multi_inv (mark_all ks (put id c2 s))) as [H1 H2 H3] by (by apply mark_all_inv, He).
  split.
  - by split.
  - cbn. by rewrite lookup_fmap, lookup_insert_eq.
  - destruct (mark_fields ks c2) as (g & -> & _). by apply Hk.
  - intros j Hj. cbn. by rewrite lookup_fmap, lookup_insert_ne by done.
  - done.
Qed.

(** When the procedure does not return, nor does the command. *)
Lemma otherCommand_faults p s id c :
  clients s !! id = Some c -> returns (otherCommand p s id) -> returns (run_command p (conf s) (dataset s) c).
Proof.
  intros Hc. unfold otherCommand, client. rewrite Hc. cbn [Proto.opt mbind outcome_bind]. apply returns_bind.
Qed.

Lemma unwatchCommand_spec s id c :
  multi_inv s -> clients s !! id = Some c ->
  exists s', unwatchCommand s id = Ok s' /\ data s' = data s /\
    effect id s c s' (addReply (clear_flags REDIS_DIRTY_CAS (set_watched_keys [] c)) shared_ok) [].
Proof.
  intros Hi Hc. unfold unwatchCommand.
  destruct (unwatchAllKeys_spec s id c Hi Hc) as (s' & -> & Hd & He & _). cbn [mbind outcome_bind].
  rewrite (update_spec _ _ (set_watched_keys [] c)) by apply He.
  set (c1 := clear_flags REDIS_DIRTY_CAS _).
  assert (client_inv id c1) as Hc1.
  { destruct (mi_client _ Hi id c Hc) as [H1 H2 H3 H4]. split; cbn; auto; [constructor|].
    intros Hm. apply H4. rewrite <- Hm. unfold has_flag. cbn. by rewrite <- Z.land_assoc. }
  eexists. split; [done|]. split; [done|].
  assert (out_only c1 (addReply c1 shared_ok)) as Ho by apply reply_out.
  split.
  - apply put_inv with (set_watched_keys [] c); [by apply He|by apply He| |by rewrite Ho].
    by apply (keeps_inv _ c1), Hc1; apply out_keeps.
  - apply lookup_insert_eq.
  - by rewrite Ho.
  - intros j Hj. cbn. rewrite lookup_insert_ne by done. by apply He.
  - apply He.
Qed.

(** *** EXEC *)

(** The specification of EXEC: the queued commands one after the other, on the data and the
    client alone. *)
Definition run_single (p : command_proc) (w : world) c : outcome (world * redisClient) :=
  match p with
  | UnwatchProc => Ok (w, addReply (clear_flags REDIS_DIRTY_CAS (set_watched_keys [] c)) shared_ok)
  | p => '(c, _, _, d, f) ← run_command p w.2 w.1 c; Ok ((d, f), c)
  end.

Fixpoint exec_spec (q : list multiCmd) (j : nat) (w : world) c : outcome (world * redisClient) :=
  match q with
  | [] => Ok (w, c)
  | mc :: q =>
    '(w, c) ← run_single (proc (mc_cmd mc)) w (set_cmd (Some (mc_cmd mc)) (set_argv (mc_argv mc) c));
    let mc := mkMultiCmd (argv c) (default (mc_cmd mc) (cmd c)) in
    exec_spec q (S j) w (set_mstate (<[j := mc]> (mstate c)) c)
  end.

(** The fields that the effects do not mention. *)
Lemma effect_ext id s c s1 s2 c' ks :
  clients s2 = clients s1 -> watched s2 = watched s1 -> signalled s2 = signalled s1 ->
  effect id s c s1 c' ks -> effect id s c s2 c' ks.
Proof.
  intros E1 E2 E4 [[H1 H2 H3] ? ? ? ?]. split; rewrite ?E1, ?E4; try done.
  split; rewrite ?E1, ?E2; done.
Qed.

Lemma client_ok s id c : clients s !! id = Some c -> client s id = Ok c.
Proof. intros Hc. unfold client. by rewrite Hc. Qed.

Lemma call_effect_ok depth s id c cm (R : server -> redisClient -> list (Z * list Z) -> Prop) :
  clients s !! id = Some c -> cmd c = Some cm ->
  (exists s' ks c', run_proc (call depth) (proc cm) s id = Ok s' /\ effect id s c s' c' ks /\
     cmd c' <> None /\ R s' c' ks) ->
  (forall s1 s2 c' ks, data s2 = data s1 -> R s1 c' ks -> R s2 c' ks) ->
  exists s' ks c', call (S depth) s id = Ok s' /\ effect id s c s' c' ks /\ cmd c' <> None /\ R s' c' ks.
Proof.
  intros Hc Hcm (s' & ks & c' & Hr & He & Hcm' & HR) Hext. cbn [call].
  rewrite (client_ok _ _ _ Hc). cbn [mbind outcome_bind]. rewrite Hcm. cbn [Proto.opt mbind outcome_bind].
  rewrite Hr. cbn [mbind outcome_bind]. rewrite (client_ok _ _ c') by apply He.
  cbn [mbind outcome_bind]. destruct (cmd c') as [cm'|] eqn:E; [|done].
  cbn [Proto.opt mbind outcome_bind].
  eexists _, ks, c'. split; [done|]. rewrite E.
  split_and!; [|done|].
  - eapply effect_ext, He; by destruct (negb (_ =? REDIS_PROPAGATE_NONE)).
  - eapply Hext, HR. by destruct (negb (_ =? REDIS_PROPAGATE_NONE)).
Qed.

Lemma call_returns depth s id c cm :
  clients s !! id = Some c -> cmd c = Some cm -> returns (call (S depth) s id) ->
  returns (run_proc (call depth) (proc cm) s id).
Proof.
  intros Hc Hcm. cbn [call]. rewrite (client_ok _ _ _ Hc). cbn [mbind outcome_bind]. rewrite Hcm.
  cbn [Proto.opt mbind outcome_bind]. apply returns_bind.
Qed.

(** A command of a queue: it runs as in the specification. *)
Record queued_step c c' : Prop := {
  qs_keys : watched_keys c' = [];
  qs_queue : mstate c' = mstate c;
  qs_multi : has_flag REDIS_MULTI c' = has_flag REDIS_MULTI c;
  qs_cmd : exists cm, cmd c' = Some cm /\ not_queued (proc cm) = false;
}.

Lemma unwatch_step c cm :
  cmd c = Some cm -> not_queued (proc cm) = false ->
  queued_step c (addReply (clear_flags REDIS_DIRTY_CAS (set_watched_keys [] c)) shared_ok).
Proof.
  intros Hcm Hq. set (c1 := clear_flags REDIS_DIRTY_CAS _).
  assert (out_only c1 (addReply c1 shared_ok)) as Ho by apply reply_out. split.
  - by rewrite Ho.
  - by rewrite Ho.
  - rewrite Ho. unfold has_flag. cbn. by rewrite <- Z.land_assoc.
  - exists cm. by rewrite Ho.
Qed.

Lemma call_queued depth s id c cm w' c2 :
  CommandLaws -> multi_inv s -> clients s !! id = Some c -> cmd c = Some cm ->
  not_queued (proc cm) = false -> watched_keys c = [] -> run_single (proc cm) (data s) c = Ok (w', c2) ->
  exists s' ks, call (S depth) s id = Ok s' /\ effect id s c s' c2 ks /\ data s' = w' /\ queued_step c c2.
Proof.
  intros HL Hi Hc Hcm Hq Hw Hrun.
  assert (exists s' ks c', call (S depth) s id = Ok s' /\ effect id s c s' c' ks /\ cmd c' <> None /\
    (data s' = w' /\ c' = c2 /\ queued_step c c')) as (s' & ks & c' & Hr & He & _ & Hd & -> & Hqs).
  2: { by exists s', ks. }
  apply (call_effect_ok depth s id c cm (fun s' c' _ => data s' = w' /\ c' = c2 /\ queued_step c c')); [done..| |].
  2: { intros s1 s2 c' _ E [H1 H2]. split; [congruence|done]. }
  destruct (decide (proc cm = UnwatchProc)) as [Hp|Hp].
  { rewrite Hp in *. injection Hrun as <- <-. destruct (unwatchCommand_spec s id c Hi Hc) as (s' & Hr & Hd & He).
    pose proof (unwatch_step c cm Hcm ltac:(by rewrite Hp)) as Hqs. destruct (qs_cmd _ _ Hqs) as (cm' & E & _).
    exists s', [], (addReply (clear_flags REDIS_DIRTY_CAS (set_watched_keys [] c)) shared_ok).
    split_and!; [exact Hr|exact He|by rewrite E|done..]. }
  destruct (run_command (proc cm) (conf s) (dataset s) c) as [[[[[c3 sigs] dd] d] f]| |] eqn:Er.
  2-3: exfalso; unfold run_single in Hrun; cbn [data fst snd] in Hrun; rewrite Er in Hrun; by destruct (proc cm).
  assert (w' = (d, f) /\ c2 = c3) as [-> ->].
  { unfold run_single in Hrun. cbn [data fst snd] in Hrun. rewrite Er in Hrun. by destruct (proc cm); injection Hrun as <- <-. }
  destruct (otherCommand_spec (proc cm) s id c c3 sigs dd d f HL Hi Hc Er) as (s' & ks & Hr & Hd & He).
  pose proof (run_keeps _ _ _ _ _ _ _ _ _ Er) as Hk.
  assert (mark ks c3 = c3) as Hmk.
  { unfold mark, touched. rewrite bool_decide_false; [done|]. rewrite Exists_exists.
    intros (k & _ & Hk'). rewrite (ke_keys _ _ Hk), Hw in Hk'. by inversion Hk'. }
  rewrite Hmk in He.
  destruct (run_cmd _ _ _ _ _ _ _ _ _ cm Er Hcm Hq) as (cm' & Hcm' & Hq').
  exists s', ks, c3. split_and!; [|done|by rewrite Hcm'|done|done|].
  - rewrite <- Hr. by destruct (proc cm).
  - split; [by rewrite (ke_keys _ _ Hk)|by apply Hk|by apply keeps_flag|by exists cm'].
Qed.

Lemma call_queued_returns depth s id c cm :
  clients s !! id = Some c -> cmd c = Some cm -> not_queued (proc cm) = false ->
  returns (call (S depth) s id) -> returns (run_single (proc cm) (data s) c).
Proof.
  intros Hc Hcm Hq Hr%(call_returns depth s id c cm Hc Hcm).
  destruct (decide (proc cm = UnwatchProc)) as [Hp|Hp]; [rewrite Hp; by eexists|].
  assert (run_proc (call depth) (proc cm) s id = otherCommand (proc cm) s id) as E by (by destruct (proc cm)).
  rewrite E in Hr. apply (otherCommand_faults _ _ _ c Hc) in Hr as [[[[[c3 sigs] dd] d] f] Er].
  exists ((d, f), c3). unfold run_single. cbn [data fst snd]. rewrite Er. by destruct (proc cm).
Qed.

(** The loop returns exactly when the specification does, with its result. *)
Lemma exec_loop_spec depth id :
  CommandLaws -> forall q pre fuel s c mp,
  multi_inv s -> clients s !! id = Some c -> mstate c = pre ++ q -> watched_keys c = [] ->
  has_flag REDIS_MULTI c = true -> (length q <= fuel)%nat ->
  match exec_spec q (length pre) (data s) c with
  | Ok (w', c') => exists s' mp' ks, exec_loop fuel (call (S depth)) (length pre) s id mp = Ok (s', mp') /\
      effect id s c s' c' ks /\ data s' = w' /\ watched_keys c' = [] /\ has_flag REDIS_MULTI c' = true
  | _ => ~ returns (exec_loop fuel (call (S depth)) (length pre) s id mp)
  end.
Proof.
  intros HL q. induction q as [|mc q IH]; intros pre fuel s c mp Hi Hc Hm Hw Hf Hfuel.
  { cbn [exec_spec]. exists s, mp, []. split; [|by split_and!; [apply effect_refl|..]].
    assert (mstate c !! length pre = None) as Hn by (rewrite Hm, app_nil_r; by apply lookup_ge_None_2).
    destruct fuel; cbn [exec_loop]; rewrite (client_ok _ _ _ Hc); cbn [mbind outcome_bind]; by rewrite Hn. }
  destruct fuel as [|fuel]; [cbn in Hfuel; lia|]. cbn [exec_loop]. rewrite (client_ok _ _ _ Hc).
  cbn [mbind outcome_bind]. rewrite Hm, list_lookup_middle by done. cbv zeta.
  set (c1 := set_cmd (Some (mc_cmd mc)) (set_argv (mc_argv mc) c)).
  set (s1 := if negb mp && _ then _ else _).
  assert (keeps c c1) as Hk1 by (by split).
  assert (effect id s c s1 c1 [] /\ data s1 = data s) as [He1 Hd1].
  { unfold s1. destruct (_ && _); [|split; [by apply put_effect|done]].
    split; [|done]. by eapply effect_ext, put_effect. }
  clearbody s1.
  assert (not_queued (proc (mc_cmd mc)) = false) as Hq.
  { pose proof (ci_queue _ _ (mi_client _ Hi id c Hc)) as H. rewrite Hm in H.
    apply Forall_app in H as [_ H]. by inversion H. }
  pose proof (ef_client _ _ _ _ _ _ He1) as Hc1. cbn [exec_spec]. fold c1. rewrite <- Hd1.
  destruct (run_single (proc (mc_cmd mc)) (data s1) c1) as [[w2 c2]| |] eqn:Ers.
  2-3: cbn [mbind outcome_bind]; intros Hret%returns_bind;
    apply (call_queued_returns depth s1 id c1 (mc_cmd mc) Hc1 eq_refl Hq) in Hret as [r Hret]; congruence.
  destruct (call_queued depth s1 id c1 (mc_cmd mc) w2 c2 HL) as (s2 & ks2 & -> & He2 & Hd2 & Hqs);
    [by apply He1|done..|].
  cbn [mbind outcome_bind]. destruct (qs_cmd _ _ Hqs) as (cm & Hcm & Hcmq).
  rewrite (client_ok _ _ c2) by apply He2. cbn [mbind outcome_bind]. rewrite Hcm.
  cbn [Proto.opt mbind outcome_bind default]. change (default (mc_cmd mc) (Some cm)) with cm.
  set (c3 := set_mstate _ c2). set (s3 := put id c3 s2).
  assert (client_inv id c3) as Hci3.
  { destruct (mi_client _ (ef_inv _ _ _ _ _ _ He2) id c2) as [K1 K2 K3 K4]; [by apply He2|].
    split; cbn; auto; [by apply Forall_insert|].
    intros Hb. change (has_flag REDIS_MULTI c2 = false) in Hb.
    rewrite (qs_multi _ _ Hqs), (keeps_flag _ _ _ Hk1) in Hb by done. congruence. }
  assert (effect id s2 c2 s3 c3 []) as He3.
  { split; [|by apply lookup_insert_eq|done| |by rewrite app_nil_r].
    - apply put_inv with c2; [by apply He2|by apply He2|done..].
    - intros j Hj. cbn. by rewrite lookup_insert_ne, mark_nil_opt by done. }
  assert (mstate c3 = (pre ++ [mkMultiCmd (argv c2) cm]) ++ q) as Hm3.
  { cbn. rewrite (qs_queue _ _ Hqs). cbn. rewrite Hm, <- app_assoc. cbn.
    by rewrite insert_app_r_alt, Nat.sub_diag by done. }
  pose proof (IH (pre ++ [mkMultiCmd (argv c2) cm]) fuel s3 c3 (mp || (negb mp && negb (cmd_has REDIS_CMD_READONLY (mc_cmd mc))))
    (ef_inv _ _ _ _ _ _ He3) (ef_client _ _ _ _ _ _ He3) Hm3 (qs_keys _ _ Hqs)) as H.
  rewrite length_app, Nat.add_1_r in H. change (data s3) with (data s2) in H. rewrite Hd2 in H.
  specialize (H ltac:(change (has_flag REDIS_MULTI c2 = true); by rewrite (qs_multi _ _ Hqs), (keeps_flag _ _ _ Hk1)) ltac:(cbn in Hfuel; lia)).
  destruct (exec_spec q _ w2 c3) as [[w' c']| |]; [|exact H..].
  destruct H as (s' & mp' & ks & Hr & He & Hs & Hw' & Hf').
  exists s', mp', (([] ++ ks2) ++ [] ++ ks). split; [exact Hr|]. split; [|done].
  eapply effect_trans; [by eapply effect_trans|]. by eapply effect_trans.
Qed.

(** What EXEC promises: the data and the client after it, when the commands return. *)
Definition exec_outcome (w : world) c : outcome (world * redisClient) :=
  if has_flag (Z.lor REDIS_DIRTY_CAS REDIS_DIRTY_EXEC) c then
    Ok (w, finished (addReply c (if has_flag REDIS_DIRTY_EXEC c then shared_execaborterr
                                 else shared_nullmultibulk)))
  else
    let c1 := set_watched_keys [] c in
    let c2 := default c1 (addReplyMultiBulkLen c1 (zlen (mstate c))) in
    '(w, c3) ← exec_spec (mstate c) 0 w c2;
    Ok (w, finished (set_cmd (cmd c) (set_argv (argv c) c3))).

Lemma execCommand_spec depth s id c :
  CommandLaws -> multi_inv s -> clients s !! id = Some c -> has_flag REDIS_MULTI c = true ->
  match exec_outcome (data s) c with
  | Ok (w', c') => exists s' ks, execCommand (call (S depth)) s id = Ok s' /\ effect id s c s' c' ks /\ data s' = w' /\
      (has_flag (Z.lor REDIS_DIRTY_CAS REDIS_DIRTY_EXEC) c = true -> ks = [])
  | _ => ~ returns (execCommand (call (S depth)) s id)
  end.
Proof.
  intros HL Hi Hc Hm. unfold execCommand, exec_outcome. rewrite (client_ok _ _ _ Hc).
  cbn [mbind outcome_bind]. rewrite Hm. cbn [negb].
  destruct (has_flag (Z.lor REDIS_DIRTY_CAS REDIS_DIRTY_EXEC) c).
  - set (r := if has_flag _ c then _ else _). cbv zeta.
    assert (effect id s c (put id (addReply c r) s) (addReply c r) []) as He.
    { apply put_effect; [done..|]. apply out_keeps. unfold r. destruct (has_flag REDIS_DIRTY_EXEC c); apply reply_out. }
    destruct (discardTransaction_spec (put id (addReply c r) s) id (addReply c r)) as (s' & -> & Hd & He');
      [by apply He|by apply He|].
    exists s', []. split; [done|]. split; [|done]. exact (effect_trans _ _ _ _ _ _ _ _ _ He He').
  - destruct (unwatchAllKeys_spec s id c Hi Hc) as (s1 & -> & Hd1 & He1 & _). cbn [mbind outcome_bind].
    rewrite (client_ok _ _ _ (ef_client _ _ _ _ _ _ He1)). cbn [mbind outcome_bind]. cbv zeta.
    set (c1 := set_watched_keys [] c) in *.
    destruct (mbulk_len_out c1 (zlen (mstate c))) as (c2 & Hb & Ho); [apply zlen_nonneg|].
    change (zlen (mstate c1)) with (zlen (mstate c)). rewrite Hb. cbn [Proto.opt mbind outcome_bind].
    change (default c1 (Some c2)) with c2.
    pose proof (put_effect id s1 c1 c2 (ef_inv _ _ _ _ _ _ He1) (ef_client _ _ _ _ _ _ He1) (out_keeps _ _ Ho)) as He2.
    set (s2 := put id c2 s1) in *. assert (mstate c2 = mstate c) as Hm2 by (by rewrite Ho).
    pose proof (exec_loop_spec depth id HL (mstate c) [] (length (mstate c)) s2 c2 false
      (ef_inv _ _ _ _ _ _ He2) (ef_client _ _ _ _ _ _ He2) Hm2 ltac:(by rewrite Ho) ltac:(by rewrite Ho) ltac:(lia)) as H.
    change (length (@nil multiCmd)) with O in H. change (data s2) with (data s1) in H. rewrite Hd1 in H. rewrite Hm2.
    destruct (exec_spec (mstate c) 0 (data s) c2) as [[w3 c3]| |]; cbn [mbind outcome_bind]; [|by intros ?%returns_bind..].
    destruct H as (s3 & mp & ks & Hr & He3 & Hs & _). rewrite Hr. cbn [mbind outcome_bind].
    rewrite (update_spec _ _ c3) by apply He3. cbn [mbind outcome_bind].
    change (cmd c1) with (cmd c). change (argv c1) with (argv c). set (c4 := set_cmd _ _).
    assert (effect id s3 c3 (put id c4 s3) c4 []) as He4 by (by apply put_effect; [apply He3..|by split]).
    destruct (discardTransaction_spec (put id c4 s3) id c4) as (s5 & -> & Hd5 & He5); [by apply He4|by apply He4|].
    cbn [mbind outcome_bind]. eexists _, ((([] ++ []) ++ ks) ++ [] ++ []). split; [done|].
    assert (effect id s c s5 (finished c4) ((([] ++ []) ++ ks) ++ [] ++ [])) as He.
    { eapply effect_trans; [eapply effect_trans; [by eapply effect_trans|done]|by eapply effect_trans]. }
    split; [|split; [|done]].
    + destruct mp; [|done]. by eapply effect_ext, He.
    + rewrite <- Hs. by destruct mp.
Qed.

(** *** processCommand *)

(** A step by the client that changes its own structure only. *)
Lemma own_effect id s c c' :
  multi_inv s -> clients s !! id = Some c -> client_inv id c' -> watched_keys c' = watched_keys c ->
  querybuf c' = querybuf c -> effect id s c (put id c' s) c' [].
Proof.
  intros Hi Hc Hci Hk Hq. split; [by eapply put_inv|by apply lookup_insert_eq|done| |by rewrite app_nil_r].
  intros j Hj. cbn. by rewrite lookup_insert_ne, mark_nil_opt by done.
Qed.

Lemma or_flags_inv id f c : client_inv id c -> client_inv id (or_flags f c).
Proof.
  intros [H1 H2 H3 H4]. split; auto. intros Hf. apply H4. revert Hf. unfold has_flag, or_flags. cbn.
  rewrite !negb_false_iff, !Z.eqb_eq, Z.land_lor_distr_l. intros Hf. by apply Z.lor_eq_0_iff in Hf as [? _].
Qed.

Lemma flagTransaction_inv id c : client_inv id c -> client_inv id (flagTransaction c).
Proof. unfold flagTransaction. destruct (has_flag _ c); [apply or_flags_inv|done]. Qed.

Lemma watch_loop_spec keys : forall s id c,
  multi_inv s -> clients s !! id = Some c ->
  exists s' K, watch_loop keys s id = Ok s' /\ data s' = data s /\
    effect id s c s' (set_watched_keys K c) [].
Proof.
  induction keys as [|key keys IH]; intros s id c Hi Hc; cbn [watch_loop].
  { exists s, (watched_keys c). split_and!; [done..|]. destruct c; by apply effect_refl. }
  destruct (watchForKey_spec s id c key Hi Hc) as (s1 & -> & Hd1 & He1). cbn [mbind outcome_bind].
  assert (exists K, effect id s c s1 (set_watched_keys K c) []) as [K He].
  { destruct (bool_decide _) in He1; [|by eexists]. exists (watched_keys c). by destruct c. }
  destruct (IH s1 id (set_watched_keys K c)) as (s' & K' & -> & Hd & He'); [apply He..|].
  exists s', K'. split_and!; [done|congruence|]. exact (effect_trans _ _ _ _ _ _ _ _ _ He He').
Qed.

Lemma exec_outcome_cmd w c w' c' : exec_outcome w c = Ok (w', c') -> cmd c' = cmd c.
Proof.
  unfold exec_outcome. destruct (has_flag _ c).
  - intros [= <- <-]. change (cmd (addReply c (if has_flag REDIS_DIRTY_EXEC c then shared_execaborterr
      else shared_nullmultibulk)) = cmd c). destruct (has_flag REDIS_DIRTY_EXEC c); apply reply_cmd.
  - cbv zeta. destruct (exec_spec _ _ _ _) as [[w1 c1]| |]; [|done..]. by intros [= <- <-].
Qed.

(** The procedures that the command runs return: its own, or those of the transaction that EXEC
    executes. *)
Definition proc_returns (cm : redisCommand) (w : world) c : Prop :=
  match proc cm with
  | MultiProc | DiscardProc | WatchProc | UnwatchProc => True
  | ExecProc => has_flag REDIS_MULTI c = true -> returns (exec_outcome w c)
  | p => returns (run_command p w.2 w.1 c)
  end.

Lemma run_proc_effect depth s id c cm :
  CommandLaws -> multi_inv s -> clients s !! id = Some c -> cmd c = Some cm -> proc_returns cm (data s) c ->
  exists s' ks c', run_proc (call (S depth)) (proc cm) s id = Ok s' /\ effect id s c s' c' ks /\
    cmd c' <> None /\ True.
Proof.
  intros HL Hi Hc Hcm Hret. pose proof (mi_client _ Hi id c Hc) as Hci.
  assert (forall m, exists s' ks c', Ok (put id (addReplyError c m) s) = Ok s' /\ effect id s c s' c' ks /\
    cmd c' <> None /\ True) as Herr.
  { intros m. pose proof (error_out c m) as Ho. eexists _, [], _. split; [done|].
    split; [by apply put_effect, out_keeps|]. split; [|done]. unfold addReplyError. rewrite Ho. cbn. by rewrite Hcm. }
  assert (forall s1 c1, multi_inv s1 -> clients s1 !! id = Some c1 ->
    effect id s1 c1 (put id (addReply c1 shared_ok) s1) (addReply c1 shared_ok) []) as Hok.
  { intros s1 c1 H1 H2. by apply put_effect, out_keeps, reply_out. }
  assert (forall c1, cmd c1 = Some cm -> cmd (addReply c1 shared_ok) <> None) as Hcok.
  { intros c1 H1. unfold shared_ok. by rewrite reply_cmd, H1. }
  destruct (not_queued (proc cm)) eqn:Eq.
  - unfold proc_returns in Hret. destruct (proc cm); try done; cbn [run_proc].
    + unfold multiCommand. rewrite (update_spec _ _ c) by done. destruct (has_flag _ c); [apply Herr|].
      eexists _, [], _. split; [done|]. split; [|split; [|done]].
      * apply own_effect; [done..| | |].
        -- by eapply keeps_inv, or_flags_inv; [apply out_keeps, reply_out|].
        -- unfold shared_ok. by rewrite (reply_out _ _).
        -- unfold shared_ok. by rewrite (reply_out _ _).
      * by apply Hcok.
    + destruct (has_flag REDIS_MULTI c) eqn:Hm.
      * pose proof (execCommand_spec depth s id c HL Hi Hc Hm) as H.
        destruct (Hret eq_refl) as [[w' c'] Eo]. rewrite Eo in H. destruct H as (s' & ks & Hr & He & _).
        exists s', ks, c'. split_and!; [done..| |done]. by rewrite (exec_outcome_cmd _ _ _ _ Eo), Hcm.
      * unfold execCommand. rewrite (client_ok _ _ _ Hc). cbn [mbind outcome_bind]. rewrite Hm. apply Herr.
    + unfold discardCommand. rewrite (client_ok _ _ _ Hc). cbn [mbind outcome_bind].
      destruct (has_flag REDIS_MULTI c); cbn [negb]; [|apply Herr].
      destruct (discardTransaction_spec s id c Hi Hc) as (s1 & -> & _ & He1). cbn [mbind outcome_bind].
      rewrite (update_spec _ _ (finished c)) by apply He1. eexists _, _, _. split; [done|].
      split; [eapply effect_trans, Hok; apply He1|]. split; [by apply Hcok|done].
    + unfold watchCommand. rewrite (client_ok _ _ _ Hc). cbn [mbind outcome_bind].
      destruct (has_flag REDIS_MULTI c); [apply Herr|].
      destruct (watch_loop_spec (tail (argv c)) s id c Hi Hc) as (s1 & K & -> & _ & He1). cbn [mbind outcome_bind].
      rewrite (update_spec _ _ (set_watched_keys K c)) by apply He1. eexists _, _, _. split; [done|].
      split; [eapply effect_trans, Hok; apply He1|]. split; [by apply Hcok|done].
  - destruct (decide (proc cm = UnwatchProc)) as [Hp|Hp].
    { rewrite Hp. cbn [run_proc]. destruct (unwatchCommand_spec s id c Hi Hc) as (s' & Hr & _ & He).
      eexists _, _, _. split; [done|]. split; [done|]. split; [by apply Hcok|done]. }
    assert (returns (run_command (proc cm) (conf s) (dataset s) c)) as [[[[[c2 sigs] dd] d] f] Er]
      by (unfold proc_returns in Hret; by destruct (proc cm)).
    destruct (otherCommand_spec (proc cm) s id c c2 sigs dd d f HL Hi Hc Er) as (s' & ks & Hr & _ & He).
    destruct (run_cmd _ _ _ _ _ _ _ _ _ cm Er Hcm Eq) as (cm' & Hcm' & _).
    exists s', ks, (mark ks c2). split; [|split_and!; [done| |done]].
    + rewrite <- Hr. by destruct (proc cm).
    + destruct (mark_fields ks c2) as (g & -> & _). cbn. by rewrite Hcm'.
Qed.

(** A reply to a refused command. *)
Definition replies (reply : redisClient -> redisClient) : Prop := forall c, out_only c (reply c).

Lemma refuse_early_spec f cm c b reply : refuse_early f cm c = Some (b, reply) -> b = true /\ replies reply.
Proof.
  unfold refuse_early. cbv zeta. destruct (_ || _); [|destruct (_ && _); [|done] ];
    intros [= <- <-]; (split; [done|intros c1; apply error_out]).
Qed.

(** The refusals that do not flag the transaction come from a read only slave, a subscribed
    client and a server that is loading. *)
Definition flags_refusals (f : serverConf) c : Prop :=
  masterhost f = false /\ loading f = false /\ pubsub_channels c = [] /\ pubsub_patterns c = [].

Lemma refuse_late_spec f oom cm c b reply :
  refuse_late f oom cm c = Some (b, reply) -> replies reply /\ (flags_refusals f c -> b = true).
Proof.
  unfold refuse_late. cbv zeta. intros H.
  repeat match type of H with
  | (if ?b then _ else _) = _ => destruct b eqn:?
  end; try done; injection H as <- <-.
  all: split; [intros c1; apply reply_out || apply error_out|try done].
  all: intros (H1 & H2 & H3 & H4); rewrite ?H1, ?H2, ?H3, ?H4 in *; done.
Qed.

(** What processCommand decides about the command in the client's argument vector: to close the
    connection, to refuse it (and whether this flags the transaction), to queue it, or to execute
    it with the dataset that freeMemoryIfNeeded leaves. *)
Inductive verdict :=
  | Quits
  | Refuses (flag : bool)
  | Queues (mc : multiCmd)
  | Executes (cm : redisCommand) (d : D).

Definition verdict_of s c : verdict :=
  let name := default [] (head (argv c)) in
  if Util.strcasecmp_eq name (str "quit") then Quits
  else
    match lookupCommand name with
    | None => Refuses true
    | Some cm =>
      let c := set_cmd (Some cm) c in
      match refuse_early (conf s) cm c with
      | Some (flag, _) => Refuses flag
      | None =>
        let '(d, oom) := if maxmemory (conf s) then freeMemoryIfNeeded (dataset s) else (dataset s, false) in
        match refuse_late (conf s) oom cm c with
        | Some (flag, _) => Refuses flag
        | None => if queued_in_multi cm c then Queues (mkMultiCmd (argv c) cm) else Executes cm d
        end
      end
    end.

(** The procedures that the command runs, if it is executed, return. *)
Definition command_returns s c : Prop :=
  match verdict_of s c with Executes cm d => proc_returns cm (d, conf s) (set_cmd (Some cm) c) | _ => True end.

Lemma silent_refusal s c : flags_refusals (conf s) c -> verdict_of s c <> Refuses false.
Proof.
  intros Hf. unfold verdict_of. cbv zeta. destruct (Util.strcasecmp_eq _ _); [done|].
  destruct (lookupCommand _) as [cm|]; [|done].
  destruct (refuse_early _ _ _) as [[b reply]|] eqn:E1; [by apply refuse_early_spec in E1 as [-> _]|].
  destruct (if maxmemory (conf s) then _ else _) as [d oom].
  destruct (refuse_late _ _ _ _) as [[b reply]|] eqn:E2; [|by destruct (queued_in_multi _ _)].
  apply refuse_late_spec in E2 as [_ ->]; [done|exact Hf].
Qed.

Lemma flagged_effect id s c c' (b : bool) :
  multi_inv s -> clients s !! id = Some c -> out_only (if b then flagTransaction c else c) c' ->
  effect id s c (put id c' s) c' [].
Proof.
  intros Hi Hc Ho.
  assert (watched_keys c' = watched_keys c /\ querybuf c' = querybuf c) as [E1 E2].
  { rewrite Ho. destruct b; [|done]. unfold flagTransaction. by destruct (has_flag _ c). }
  apply own_effect; [done..| |done|done]. eapply keeps_inv; [by apply out_keeps|].
  destruct b; [apply flagTransaction_inv|]; by apply Hi.
Qed.

(** The cases of processCommand: the client after it, as long as the command is not executed. *)
Inductive processed s id c : server -> bool -> Prop :=
  | pr_quit :
    verdict_of s c = Quits ->
    processed s id c (put id (or_flags REDIS_CLOSE_AFTER_REPLY (addReply c shared_ok)) s) false
  | pr_refused d cm (b : bool) c' :
    verdict_of s c = Refuses b ->
    out_only (if b then flagTransaction (set_cmd cm c) else set_cmd cm c) c' ->
    processed s id c (put id c' (set_dataset d s)) true
  | pr_queued d cm :
    verdict_of s c = Queues (mkMultiCmd (argv c) cm) -> queued_in_multi cm c = true ->
    processed s id c
      (put id (addReply (set_mstate (mstate c ++ [mkMultiCmd (argv c) cm]) (set_cmd (Some cm) c))
         shared_queued) (set_dataset d s)) true
  | pr_call d cm s' :
    verdict_of s c = Executes cm d -> queued_in_multi cm c = false ->
    lookupCommand (default [] (head (argv c))) = Some cm ->
    call call_depth (put id (set_cmd (Some cm) c) (set_dataset d s)) id = Ok s' ->
    processed s id c s' true.

Lemma dataset_inv d s : multi_inv s -> multi_inv (set_dataset d s).
Proof. intros [H1 H2 H3]. by split. Qed.

Lemma call_effect d s id c cm :
  CommandLaws -> multi_inv s -> clients s !! id = Some c -> proc_returns cm (d, conf s) (set_cmd (Some cm) c) ->
  exists s' ks c', call call_depth (put id (set_cmd (Some cm) c) (set_dataset d s)) id = Ok s' /\
    effect id s c s' c' ks.
Proof.
  intros HL Hi Hc Hret. set (c1 := set_cmd (Some cm) c) in *. set (s1 := put id c1 (set_dataset d s)).
  assert (effect id s c s1 c1 []) as He1.
  { eapply (effect_ext _ _ _ (put id c1 s)); [done..|]. by apply put_effect. }
  destruct (call_effect_ok 1 s1 id c1 cm (fun _ _ _ => True)) as (s' & ks & c' & Hr & He & _);
    [apply He1|done|apply run_proc_effect; try done; apply He1|done|].
  exists s', ([] ++ ks), c'. split; [exact Hr|]. by eapply effect_trans.
Qed.

Lemma processCommand_spec s id c :
  CommandLaws -> multi_inv s -> clients s !! id = Some c -> argv c <> [] -> command_returns s c ->
  exists s' ok, processCommand s id = Ok (s', ok) /\ processed s id c s' ok.
Proof.
  intros HL Hi Hc Ha Hret. pose proof (pr_quit s id c) as Pq. pose proof (pr_refused s id c) as Pr.
  pose proof (pr_queued s id c) as Pu. pose proof (pr_call s id c) as Pc. revert Hret Pq Pr Pu Pc.
  unfold command_returns, processCommand, verdict_of. rewrite (client_ok _ _ _ Hc). cbn [mbind outcome_bind].
  destruct (argv c) as [|name args] eqn:Eargv; [done|]. cbn [head hd_error default from_option Datatypes.id Proto.opt mbind outcome_bind].
  destruct (Util.strcasecmp_eq name (str "quit")); [intros _ Pq _ _ _; eexists _, _; split; [done|]; by apply Pq|].
  cbv zeta. assert (s = set_dataset (dataset s) s) as Hs by (by destruct s).
  destruct (lookupCommand name) as [cm|] eqn:El.
  2: { intros _ _ Pr _ _. eexists _, _. split; [done|]. rewrite Hs at 2. eapply (Pr _ None true); [done|]. apply error_out. }
  destruct (refuse_early (conf s) cm (set_cmd (Some cm) c)) as [[b reply]|] eqn:Er.
  { intros _ _ Pr _ _. eexists _, _. split; [done|]. rewrite Hs at 2. eapply (Pr _ (Some cm) b); [done|].
    apply refuse_early_spec in Er as [-> Hrep]. apply Hrep. }
  destruct (if maxmemory (conf s) then _ else _) as [d oom].
  change (conf (set_dataset d s)) with (conf s).
  destruct (refuse_late (conf s) oom cm (set_cmd (Some cm) c)) as [[b reply]|] eqn:Er'.
  { intros _ _ Pr _ _. eexists _, _. split; [done|]. eapply (Pr d (Some cm) b); [done|].
    apply refuse_late_spec in Er' as [Hrep _]. unfold refuse. by destruct b; apply Hrep. }
  change (queued_in_multi cm (set_cmd (Some cm) c)) with (queued_in_multi cm c).
  destruct (queued_in_multi cm c) eqn:Em.
  - intros _ _ _ Pu _. eexists _, _. split; [done|]. cbn [set_cmd argv] in *. rewrite Eargv in *. by apply (Pu d cm).
  - intros Hret _ _ _ Pc. destruct (call_effect d s id c cm HL Hi Hc Hret) as (s' & ks & c' & Hr & He). rewrite Hr.
    cbn [mbind outcome_bind]. eexists _, _. split; [done|]. by eapply Pc.
Qed.

Lemma queued_not_queued cm c : queued_in_multi cm c = true -> not_queued (proc cm) = false /\ has_flag REDIS_MULTI c = true.
Proof.
  unfold queued_in_multi, not_queued. rewrite !andb_true_iff, !negb_true_iff.
  intros [[[[-> ->] ->] ->] ->]. done.
Qed.

Lemma queue_effect d s id c cm :
  multi_inv s -> clients s !! id = Some c -> queued_in_multi cm c = true ->
  let c' := addReply (set_mstate (mstate c ++ [mkMultiCmd (argv c) cm]) (set_cmd (Some cm) c)) shared_queued in
  effect id s c (put id c' (set_dataset d s)) c' [].
Proof.
  intros Hi Hc Hq c'. destruct (queued_not_queued cm c Hq) as [Hnq Hm].
  eapply (effect_ext _ _ _ (put id c' s)); [done..|]. unfold c', shared_queued.
  apply own_effect; [done..| |by rewrite (reply_out _ _)|by rewrite (reply_out _ _)].
  eapply keeps_inv; [apply out_keeps, reply_out|]. destruct (mi_client _ Hi id c Hc) as [H1 H2 H3 H4].
  split; cbn; auto.
  - apply Forall_app. split; [done|]. by constructor.
  - intros Hf. change (has_flag REDIS_MULTI c = false) in Hf. congruence.
Qed.

Lemma quit_effect s id c :
  multi_inv s -> clients s !! id = Some c ->
  let c' := or_flags REDIS_CLOSE_AFTER_REPLY (addReply c shared_ok) in effect id s c (put id c' s) c' [].
Proof.
  intros Hi Hc c'. apply own_effect; [done..| | |]; [|unfold c', shared_ok; by rewrite (reply_out _ _)..].
  apply or_flags_inv. eapply keeps_inv; [apply out_keeps, reply_out|]. by apply Hi.
Qed.

Lemma refused_effect d s id c cm (b : bool) c' :
  multi_inv s -> clients s !! id = Some c ->
  out_only (if b then flagTransaction (set_cmd cm c) else set_cmd cm c) c' ->
  effect id s c (put id c' (set_dataset d s)) c' [].
Proof.
  intros Hi Hc Ho. eapply (effect_ext _ _ _ (put id c' (put id (set_cmd cm c) s))); try done.
  { unfold put. cbn. by rewrite insert_insert_eq. }
  assert (effect id s c (put id (set_cmd cm c) s) (set_cmd cm c) []) as He by (by apply put_effect).
  eapply (effect_trans _ _ _ _ _ [] _ _ []); [exact He|]. by eapply (flagged_effect _ _ _ _ b); [apply He..|].
Qed.

Lemma processed_effect s id c s' ok :
  CommandLaws -> multi_inv s -> clients s !! id = Some c -> command_returns s c -> processed s id c s' ok ->
  exists c' ks, effect id s c s' c' ks /\ (ok = false -> has_flag REDIS_CLOSE_AFTER_REPLY c' = true).
Proof.
  intros HL Hi Hc Hret [Hv|d cm b c' Hv Ho|d cm Hv Hm|d cm s1 Hv Hm El Hr].
  - eexists _, []. split; [by apply quit_effect|]. intros _. by apply has_or_flag.
  - exists c', []. split; [by eapply refused_effect|done].
  - eexists _, []. split; [by apply queue_effect|done].
  - unfold command_returns in Hret. rewrite Hv in Hret.
    destruct (call_effect d s id c cm HL Hi Hc Hret) as (s2 & ks & c' & Hr' & He).
    rewrite Hr in Hr'. injection Hr' as <-. by exists c', ks.
Qed.

(** MULTI and WATCH inside a transaction: an error, which does not flag the transaction. *)
Lemma call_nested d s id c cm :
  multi_inv s -> clients s !! id = Some c -> has_flag REDIS_MULTI c = true ->
  proc cm = MultiProc \/ proc cm = WatchProc ->
  exists s' c', call call_depth (put id (set_cmd (Some cm) c) (set_dataset d s)) id = Ok s' /\
    effect id s c s' c' [] /\ out_only (set_cmd (Some cm) c) c'.
Proof.
  intros Hi Hc Hm Hp. set (c1 := set_cmd (Some cm) c). set (s1 := put id c1 (set_dataset d s)).
  assert (effect id s c s1 c1 []) as He1.
  { eapply (effect_ext _ _ _ (put id c1 s)); [done..|]. by apply put_effect. }
  destruct (call_effect_ok 1 s1 id c1 cm (fun _ c' ks => ks = [] /\ out_only c1 c')) as (s' & ks & c' & Hr & He & _ & -> & Ho).
  - apply He1.
  - done.
  - pose proof (error_out c1) as Ho. assert (has_flag REDIS_MULTI c1 = true) as Hm1 by done.
    pose proof (ef_client _ _ _ _ _ _ He1) as Hc1.
    assert (forall m, effect id s1 c1 (put id (addReplyError c1 m) s1) (addReplyError c1 m) []) as He
      by (intros m; apply put_effect; [apply He1|done|by apply out_keeps]).
    assert (forall m, cmd (addReplyError c1 m) <> None) as Hcm.
    { intros m. unfold addReplyError. by rewrite Ho. }
    destruct Hp as [-> | ->]; cbn [run_proc]; unfold multiCommand, watchCommand.
    + rewrite (update_spec _ _ c1), Hm1 by done. by eexists _, [], _.
    + rewrite (client_ok _ _ c1) by done. cbn [mbind outcome_bind]. rewrite Hm1. by eexists _, [], _.
  - done.
  - exists s', c'. split; [exact Hr|]. split; [exact (effect_trans _ _ _ _ _ _ _ _ _ He1 He)|done].
Qed.

(** ** Events

    What the event loop does with the clients, one event at a time.  The configuration also changes
    by itself: the link to the master, the end of a background save, the end of a load.  A command
    that closes other clients (CLIENT KILL, SLAVEOF) is the event of the command, followed by those
    of their disconnection. *)
Inductive event :=
  | Connect (id : Z)
  | Command (id : Z) (name : list Z) (args : list (list Z))
  | Disconnect (id : Z)
  | Configure (f : serverConf).

(** The client executes the command that was read, and is reset as in processInputBuffer;
    nothing happens to a socket that is not open. *)
Definition do_event s (ev : event) : outcome server :=
  match ev with
  | Connect id => Ok (match clients s !! id with None => put id (createClient id) s | Some _ => s end)
  | Command id name args =>
    match clients s !! id with
    | None => Ok s
    | Some c =>
      '(s, ok) ← processCommand (put id (set_argv (name :: args) c) s) id;
      if ok : bool then update id Proto.resetClient s else Ok s
    end
  | Disconnect id => match clients s !! id with None => Ok s | Some _ => freeClient s id end
  | Configure f => Ok (set_conf f s)
  end.

(** The procedures that the event runs return. *)
Definition event_returns s (ev : event) : Prop :=
  match ev with
  | Command id name args => forall c, clients s !! id = Some c ->
      command_returns (put id (set_argv (name :: args) c) s) (set_argv (name :: args) c)
  | _ => True
  end.

Fixpoint events_return s (evs : list event) : Prop :=
  match evs with
  | [] => True
  | ev :: evs => event_returns s ev /\ forall s', do_event s ev = Ok s' -> events_return s' evs
  end.

Fixpoint run (evs : list event) s : outcome server :=
  match evs with [] => Ok s | ev :: evs => s ← do_event s ev; run evs s end.

Lemma connect_inv s id : multi_inv s -> clients s !! id = None -> multi_inv (put id (createClient id) s).
Proof.
  intros [Hc Hl Hw] Hn. split; cbn; [|done|].
  - intros j d. destruct (decide (j = id)) as [->|Hne].
    + rewrite lookup_insert_eq. intros [= <-]. split; cbn; auto; constructor.
    + rewrite lookup_insert_ne by done. apply Hc.
  - intros k j. rewrite Hw. destruct (decide (j = id)) as [->|Hne]; [|by rewrite lookup_insert_ne].
    rewrite lookup_insert_eq, Hn. split; intros (d & [= <-] & Hd). by inversion Hd.
Qed.

Lemma freeClient_spec s id c :
  multi_inv s -> clients s !! id = Some c ->
  exists s', freeClient s id = Ok s' /\ multi_inv s' /\ clients s' !! id = None /\
    (forall j, j <> id -> clients s' !! j = clients s !! j) /\ signalled s' = signalled s.
Proof.
  intros Hi Hc. unfold freeClient. destruct (unwatchAllKeys_spec s id c Hi Hc) as (s1 & -> & _ & He & _).
  cbn [mbind outcome_bind]. eexists. split; [done|]. destruct He as [[H1 H2 H3] E1 _ E3 E5].
  split_and!; cbn.
  - split; cbn; [|done|].
    + intros j d. destruct (decide (j = id)) as [->|Hne]; [by rewrite lookup_delete_eq|].
      rewrite lookup_delete_ne by done. apply H1.
    + intros k j. rewrite H3. destruct (decide (j = id)) as [->|Hne]; [|by rewrite lookup_delete_ne].
      rewrite lookup_delete_eq, E1. split; intros (d & [= <-] & Hd). by inversion Hd.
  - apply lookup_delete_eq.
  - intros j Hj. rewrite lookup_delete_ne, E3, mark_nil_opt by done. done.
  - by rewrite E5, app_nil_r.
Qed.

Lemma reset_keeps c : keeps c (Proto.resetClient c).
Proof.
  unfold Proto.resetClient. destruct (negb _); [|by split]. split; try done. cbn.
  rewrite <- Z.land_assoc. by f_equal.
Qed.

Lemma reset_effect id s c :
  multi_inv s -> clients s !! id = Some c ->
  update id Proto.resetClient s = Ok (put id (Proto.resetClient c) s) /\
  effect id s c (put id (Proto.resetClient c) s) (Proto.resetClient c) [].
Proof.
  intros Hi Hc. split; [by apply update_spec|]. apply put_effect; [done..|apply reset_keeps].
Qed.

(** The event does nothing to the client but mark it. *)
Definition spares id (ev : event) : Prop :=
  match ev with Connect j | Command j _ _ | Disconnect j => id <> j | Configure _ => True end.

(** The invariant holds in every reachable state, and no event faults. *)
Lemma do_event_inv s ev :
  CommandLaws -> multi_inv s -> event_returns s ev ->
  exists s' ks, do_event s ev = Ok s' /\ multi_inv s' /\ signalled s' = signalled s ++ ks /\
    forall id, spares id ev -> clients s' !! id = mark ks <$> clients s !! id.
Proof.
  intros HL Hi Hret. destruct ev as [id|id name args|id|f]; cbn [do_event event_returns spares] in *.
  - exists (match clients s !! id with None => put id (createClient id) s | Some _ => s end), [].
    split; [done|]. rewrite app_nil_r. destruct (clients s !! id) eqn:E.
    + split_and!; [done..|]. intros j _. by rewrite mark_nil_opt.
    + split_and!; [by apply connect_inv|done..|]. intros j Hj. cbn. by rewrite lookup_insert_ne, mark_nil_opt by done.
  - destruct (clients s !! id) as [c|] eqn:Hc.
    2: { exists s, []. rewrite app_nil_r. split_and!; [done..|]. intros j _. by rewrite mark_nil_opt. }
    specialize (Hret c eq_refl). set (c0 := set_argv (name :: args) c) in *.
    assert (effect id s c (put id c0 s) c0 []) as He0 by (by apply put_effect).
    destruct (processCommand_spec (put id c0 s) id c0 HL) as (s1 & ok & -> & Hp); [apply He0..|done|done|].
    cbn [mbind outcome_bind]. eapply processed_effect in Hp as (c1 & ks & He1 & _); [|done|apply He0..|done].
    pose proof (effect_trans _ _ _ _ _ _ _ _ _ He0 He1) as He. destruct ok.
    + destruct (reset_effect id s1 c1) as [-> Her]; [apply He1..|].
      pose proof (effect_trans _ _ _ _ _ _ _ _ _ He Her) as [I1 C1 Q1 O1 G1].
      eexists _, _. split; [done|]. split_and!; [done..|]. intros j Hj. by apply O1.
    + destruct He as [I1 C1 Q1 O1 G1]. eexists _, _. split; [done|]. split_and!; [done..|]. intros j Hj. by apply O1.
  - destruct (clients s !! id) as [c|] eqn:Hc.
    + destruct (freeClient_spec s id c Hi Hc) as (s' & -> & H1 & _ & H2 & H4).
      exists s', []. rewrite app_nil_r. split_and!; [done..|]. intros j Hj. by rewrite mark_nil_opt, H2.
    + exists s, []. rewrite app_nil_r. split_and!; [done..|]. intros j _. by rewrite mark_nil_opt.
  - exists (set_conf f s), []. rewrite app_nil_r. split_and!; [done|by destruct Hi|done|].
    intros j _. by rewrite mark_nil_opt.
Qed.

(** ** Transactions *)

(** The commands of a client in a transaction that are queued, when none is refused. *)
Definition queue_of (a : list (list Z)) : option multiCmd :=
  match a with
  | [] => None
  | name :: _ =>
    if Util.strcasecmp_eq name (str "quit") then None
    else
      cm ← lookupCommand name;
      if bool_decide (proc cm = MultiProc) || bool_decide (proc cm = WatchProc) then None
      else Some (mkMultiCmd a cm)
  end.

Definition own id (ev : event) : option (list (list Z)) :=
  match ev with Command j name args => if j =? id then Some (name :: args) else None | _ => None end.

(** The event does not end the transaction of the client. *)
Definition stays id (ev : event) : Prop :=
  match ev with
  | Connect _ => True
  | Command j name _ => j = id -> Util.strcasecmp_eq name (str "quit") = false ->
    forall cm, lookupCommand name = Some cm -> proc cm <> ExecProc /\ proc cm <> DiscardProc
  | Disconnect j => j <> id
  | Configure _ => True
  end.

(** The decisions about the commands that the client sends, each in the state it comes in. *)
Definition verdict_at id s (ev : event) : option verdict :=
  a ← own id ev; c ← clients s !! id; Some (verdict_of s (set_argv a c)).

Fixpoint verdicts id s (evs : list event) : list verdict :=
  match evs with
  | [] => []
  | ev :: evs =>
    option_list (verdict_at id s ev) ++ match do_event s ev with Ok s => verdicts id s evs | _ => [] end
  end.

Definition queued (v : verdict) : option multiCmd := match v with Queues mc => Some mc | _ => None end.
Definition flagging (v : verdict) : bool := match v with Refuses flag => flag | _ => false end.
Definition silent (v : verdict) : bool := match v with Refuses flag => negb flag | _ => false end.

(** A client [c] in a transaction, [c0] before: the keys [ks] have been signalled since, its
    commands have had the verdicts [vs], and the commands [q] would all have been queued. *)
Record in_tx c0 (ks : list (Z * list Z)) (vs : list verdict) (q : list multiCmd) c : Prop := {
  tx_keys : watched_keys c = watched_keys c0;
  tx_multi : has_flag REDIS_MULTI c = true;
  tx_cas : has_flag REDIS_DIRTY_CAS c = has_flag REDIS_DIRTY_CAS c0 || touched ks c0;
  tx_exec : has_flag REDIS_DIRTY_EXEC c = has_flag REDIS_DIRTY_EXEC c0 || existsb flagging vs;
  tx_queue : mstate c = mstate c0 ++ omap queued vs;
  tx_all : existsb flagging vs = false -> existsb silent vs = false -> omap queued vs = q;
}.

Lemma has_flag_or f g c : Z.land g f = 0 -> has_flag f (or_flags g c) = has_flag f c.
Proof.
  intros Hg. unfold has_flag, or_flags. cbn. by rewrite Z.land_lor_distr_l, Hg, Z.lor_0_r.
Qed.

Lemma touched_app ks ks' c : touched (ks ++ ks') c = touched ks c || touched ks' c.
Proof.
  unfold touched. rewrite <- bool_decide_or. apply bool_decide_ext. by rewrite Exists_app.
Qed.

Lemma in_tx_mark c0 ks vs q c ks' : in_tx c0 ks vs q c -> in_tx c0 (ks ++ ks') vs q (mark ks' c).
Proof.
  intros [H1 H2 H4 H5 H6 H7].
  assert (has_flag REDIS_DIRTY_CAS (mark ks' c) = has_flag REDIS_DIRTY_CAS c || touched ks' c0) as Hm.
  { unfold mark. assert (touched ks' c = touched ks' c0) as -> by (unfold touched; by rewrite H1).
    destruct (touched ks' c0); [by rewrite has_or_flag, orb_true_r|by rewrite orb_false_r]. }
  destruct (mark_fields ks' c) as (f & Ef & Hf). rewrite Ef in *.
  split; try done.
  - rewrite <- H2. unfold has_flag. cbn. by rewrite Hf.
  - by rewrite Hm, H4, touched_app, orb_assoc.
  - rewrite <- H5. unfold has_flag. cbn. by rewrite Hf.
Qed.

Lemma in_tx_out c0 ks vs q c c' : in_tx c0 ks vs q c -> out_only c c' -> in_tx c0 ks vs q c'.
Proof. intros [] ->. by split. Qed.

Lemma in_tx_reset c0 ks vs q c : in_tx c0 ks vs q c -> in_tx c0 ks vs q (Proto.resetClient c).
Proof.
  intros [H1 H2 H4 H5 H6 H7]. unfold Proto.resetClient.
  match goal with |- context [negb ?b] => assert (b = true) as -> by exact H2 end. by split.
Qed.

(** Another verdict; the client's fields are those that it changes. *)
Lemma in_tx_snoc c0 ks vs q c v c' a :
  in_tx c0 ks vs q c -> watched_keys c' = watched_keys c -> has_flag REDIS_MULTI c' = true ->
  has_flag REDIS_DIRTY_CAS c' = has_flag REDIS_DIRTY_CAS c ->
  has_flag REDIS_DIRTY_EXEC c' = has_flag REDIS_DIRTY_EXEC c || flagging v ->
  mstate c' = mstate c ++ option_list (queued v) ->
  flagging v || silent v = true \/ queued v = a ->
  in_tx c0 ks (vs ++ [v]) (q ++ option_list a) c'.
Proof.
  intros [H1 H2 H4 H5 H6 H7] K1 K2 K3 K4 K5 K6.
  assert (forall f : verdict -> bool, existsb f (vs ++ [v]) = existsb f vs || f v) as He
    by (intros f; rewrite existsb_app; cbn; by rewrite orb_false_r).
  assert (omap queued (vs ++ [v]) = omap queued vs ++ option_list (queued v)) as Ho
    by (rewrite omap_app; cbn; by destruct (queued v)).
  split; rewrite ?He, ?Ho; try congruence.
  - by rewrite K4, H5, orb_assoc.
  - by rewrite K5, H6, app_assoc.
  - intros [E1 E2]%orb_false_iff [E3 E4]%orb_false_iff. rewrite H7 by done.
    destruct K6 as [K6|K6]; [by rewrite E2, E4 in K6|by rewrite K6].
Qed.

Lemma verdict_queue s id c name args :
  argv c = name :: args -> has_flag REDIS_MULTI c = true -> stays id (Command id name args) ->
  flagging (verdict_of s c) || silent (verdict_of s c) = true \/ queued (verdict_of s c) = queue_of (argv c).
Proof.
  intros Ha Hm Hst. cbn [stays] in Hst. unfold verdict_of, queue_of. rewrite Ha.
  cbn [head hd_error default from_option Datatypes.id]. cbv zeta.
  destruct (Util.strcasecmp_eq name (str "quit")) eqn:Eq; [by right|].
  destruct (lookupCommand name) as [cm|] eqn:El; [|by left]. destruct (Hst eq_refl eq_refl cm eq_refl) as [He Hd].
  destruct (refuse_early _ _ _) as [[[] reply]|]; [by left..|].
  destruct (if maxmemory (conf s) then _ else _) as [d oom].
  destruct (refuse_late _ _ _ _) as [[[] reply]|]; [by left..|]. right. cbn [mbind option_bind].
  unfold queued_in_multi. change (has_flag REDIS_MULTI (set_cmd _ c)) with (has_flag REDIS_MULTI c).
  rewrite Hm, !(bool_decide_false (proc cm = _)) by done. cbn [negb andb].
  change (argv (set_cmd (Some cm) c)) with (argv c). rewrite Ha.
  by destruct (bool_decide (proc cm = MultiProc)), (bool_decide (proc cm = WatchProc)).
Qed.

Lemma executes_inv s c cm d :
  verdict_of s c = Executes cm d -> Util.strcasecmp_eq (default [] (head (argv c))) (str "quit") = false.
Proof. unfold verdict_of. cbv zeta. by destruct (Util.strcasecmp_eq _ _). Qed.

(** A command of the client itself. *)
Lemma own_command s id c0 ks vs q c name args s' ok :
  multi_inv s -> clients s !! id = Some c -> in_tx c0 ks vs q c -> argv c = name :: args ->
  stays id (Command id name args) -> processed s id c s' ok ->
  exists c', effect id s c s' c' [] /\
    in_tx c0 ks (vs ++ [verdict_of s c]) (q ++ option_list (queue_of (argv c))) c'.
Proof.
  intros Hi Hc Ht Ha Hst Hp. pose proof (tx_multi _ _ _ _ _ Ht) as Hm.
  pose proof (verdict_queue s id c name args Ha Hm Hst) as Hvq.
  destruct Hp as [Hv|d cm b c' Hv Ho|d cm Hv Hqm|d cm s1 Hv Hqm El Hr]; rewrite Hv in *.
  - eexists. split; [by apply quit_effect|]. unfold shared_ok. rewrite (reply_out c _).
    eapply in_tx_snoc; [exact Ht|done|by rewrite has_flag_or|by rewrite has_flag_or| |by rewrite app_nil_r|done].
    rewrite has_flag_or, orb_false_r by done. done.
  - exists c'. split; [by eapply refused_effect|]. rewrite Ho. unfold flagTransaction.
    change (has_flag REDIS_MULTI (set_cmd cm c)) with (has_flag REDIS_MULTI c). rewrite Hm.
    eapply in_tx_snoc; [exact Ht| | | | | |exact Hvq]; destruct b; try done; try by rewrite app_nil_r.
    + transitivity (has_flag REDIS_MULTI c); [exact (has_flag_or REDIS_MULTI REDIS_DIRTY_EXEC c eq_refl)|exact Hm].
    + exact (has_flag_or REDIS_DIRTY_CAS REDIS_DIRTY_EXEC c eq_refl).
    + cbn [flagging]. rewrite orb_true_r. exact (has_or_flag REDIS_DIRTY_EXEC (set_cmd cm c) ltac:(done)).
    + cbn [flagging]. by rewrite orb_false_r.
  - eexists. split; [by apply queue_effect|]. unfold shared_queued. rewrite (reply_out _ _).
    eapply in_tx_snoc; [exact Ht|done|done|done|cbn [flagging]; by rewrite orb_false_r|done|exact Hvq].
  - assert (proc cm = MultiProc \/ proc cm = WatchProc) as Hmw.
    { rewrite Ha in El. pose proof (executes_inv _ _ _ _ Hv) as Hq. rewrite Ha in Hq.
      destruct (Hst eq_refl Hq cm El) as [Hx1 Hx2]. unfold queued_in_multi in Hqm. rewrite Hm in Hqm.
      destruct (decide (proc cm = MultiProc)) as [|Hy1]; [by left|]. destruct (decide (proc cm = WatchProc)); [by right|].
      by rewrite !bool_decide_false in Hqm by done. }
    destruct (call_nested d s id c cm Hi Hc Hm Hmw) as (s2 & c' & Hr' & He & Ho).
    rewrite Hr in Hr'. injection Hr' as <-. exists c'. split; [done|]. rewrite Ho.
    eapply in_tx_snoc; [exact Ht|done|done|done|cbn [flagging]; by rewrite orb_false_r|by rewrite app_nil_r|exact Hvq].
Qed.

Lemma own_event s id c0 ks vs q c name args :
  CommandLaws -> multi_inv s -> clients s !! id = Some c -> in_tx c0 ks vs q c ->
  stays id (Command id name args) -> event_returns s (Command id name args) ->
  exists s' c', do_event s (Command id name args) = Ok s' /\ effect id s c s' c' [] /\
    in_tx c0 ks (vs ++ [verdict_of s (set_argv (name :: args) c)]) (q ++ option_list (queue_of (name :: args))) c'.
Proof.
  intros HL Hi Hc Ht Hst Hret. cbn [do_event event_returns] in *. specialize (Hret c Hc). rewrite Hc.
  set (c1 := set_argv (name :: args) c) in *.
  assert (effect id s c (put id c1 s) c1 []) as He0 by (by apply put_effect).
  assert (in_tx c0 ks vs q c1) as Ht1 by (by destruct Ht).
  destruct (processCommand_spec (put id c1 s) id c1 HL) as (s1 & ok & -> & Hp); [apply He0..|done|done|].
  cbn [mbind outcome_bind].
  destruct (own_command (put id c1 s) id c0 ks vs q c1 name args s1 ok) as (c2 & He1 & Ht2);
    [apply He0|apply He0|done..|].
  change (verdict_of (put id c1 s) c1) with (verdict_of s c1) in Ht2.
  pose proof (effect_trans _ _ _ _ _ _ _ _ _ He0 He1) as He. destruct ok.
  - destruct (reset_effect id s1 c2) as [-> Her]; [apply He1..|].
    eexists _, _. split; [done|]. split; [exact (effect_trans _ _ _ _ _ _ _ _ _ He Her)|]. by apply in_tx_reset.
  - by exists s1, c2.
Qed.

Lemma event_in_tx ev s id c0 ks vs q c :
  CommandLaws -> multi_inv s -> clients s !! id = Some c -> in_tx c0 ks vs q c -> stays id ev -> event_returns s ev ->
  exists s' c' ks', do_event s ev = Ok s' /\ multi_inv s' /\ clients s' !! id = Some c' /\
    signalled s' = signalled s ++ ks' /\
    in_tx c0 (ks ++ ks') (vs ++ option_list (verdict_at id s ev)) (q ++ option_list (own id ev ≫= queue_of)) c'.
Proof.
  intros HL Hi Hc Ht Hst Hret.
  assert (own id ev = None -> spares id ev -> exists s' c' ks', do_event s ev = Ok s' /\ multi_inv s' /\
    clients s' !! id = Some c' /\ signalled s' = signalled s ++ ks' /\
    in_tx c0 (ks ++ ks') (vs ++ option_list (verdict_at id s ev)) (q ++ option_list (own id ev ≫= queue_of)) c') as Hother.
  { intros Hown Hsp. destruct (do_event_inv s ev HL Hi Hret) as (s1 & ks1 & Hr & Hi1 & Hs1 & Ho).
    exists s1, (mark ks1 c), ks1. split_and!; [done..|by rewrite Ho, Hc|done|].
    unfold verdict_at. rewrite Hown. cbn. rewrite !app_nil_r. by apply in_tx_mark. }
  destruct ev as [j|j name args|j|f]; cbn [own stays spares] in *.
  - destruct (decide (j = id)) as [->|Hne]; [|by apply Hother; [|intros ->]].
    exists s, c, []. cbn [do_event verdict_at own mbind option_bind option_list option_rect].
    unfold verdict_at. cbn. rewrite Hc, !app_nil_r. by split_and!.
  - unfold verdict_at in *. cbn [own] in *. destruct (Z.eqb_spec j id) as [->|Hne]; [|by apply Hother; [|intros ->]].
    destruct (own_event s id c0 ks vs q c name args HL Hi Hc Ht Hst Hret) as (s1 & c1 & Hr & He & Ht1).
    exists s1, c1, []. cbn [mbind option_bind]. rewrite Hc. rewrite (app_nil_r ks).
    split_and!; [done|apply He..|exact Ht1].
  - by apply Hother; [|intros ->].
  - by apply Hother.
Qed.

Lemma run_in_tx es : forall s id c0 ks vs q c,
  CommandLaws -> multi_inv s -> clients s !! id = Some c -> in_tx c0 ks vs q c ->
  Forall (stays id) es -> events_return s es ->
  exists s' c' ks', run es s = Ok s' /\ multi_inv s' /\ clients s' !! id = Some c' /\
    signalled s' = signalled s ++ ks' /\
    in_tx c0 (ks ++ ks') (vs ++ verdicts id s es) (q ++ omap queue_of (omap (own id) es)) c'.
Proof.
  induction es as [|ev es IH]; intros s id c0 ks vs q c HL Hi Hc Ht Hes Hret; cbn [run verdicts].
  { exists s, c, []. by rewrite !app_nil_r. }
  apply Forall_cons_iff in Hes as [Hev Hes]. destruct Hret as [Hret1 Hret].
  destruct (event_in_tx ev s id c0 ks vs q c HL Hi Hc Ht Hev Hret1) as (s1 & c1 & ks1 & E & Hi1 & Hc1 & Hs1 & Ht1).
  rewrite E. cbn [mbind outcome_bind].
  destruct (IH s1 id c0 _ _ _ c1 HL Hi1 Hc1 Ht1 Hes (Hret s1 E)) as (s' & c' & ks' & Hr & Hi' & Hc' & Hs' & Ht').
  exists s', c', (ks1 ++ ks'). rewrite <- !app_assoc in Ht'. split_and!; try done.
  - by rewrite Hs', Hs1, <- app_assoc.
  - replace (omap queue_of (omap (own id) (ev :: es))) with
      (option_list (own id ev ≫= queue_of) ++ omap queue_of (omap (own id) es)); [done|].
    cbn [omap list_omap]. destruct (own id ev) as [a|]; [|done]. cbn. by destruct (queue_of a).
Qed.


(** C39: EXEC executes all of the queue or nothing.  The EXEC command of a client in a
    transaction, when processCommand does not refuse it: if the client is marked, the answer is
    EXECABORT (a command was refused) or a null multi bulk (a watched key was touched), and
    neither the dataset nor any other client changes; otherwise the dataset, the configuration and
    the client are the ones that the queued commands give one after the other on their own, and
    the other clients are only marked by the keys these signal.  In every case the client has left
    the transaction and watches nothing.  EXEC does not return exactly when one of the queued
    commands, executed on its own after the others, does not. *)
Theorem exec_all_or_nothing s id c cm name args d oom :
  CommandLaws -> multi_inv s -> clients s !! id = Some c -> has_flag REDIS_MULTI c = true ->
  argv c = name :: args -> Util.strcasecmp_eq name (str "quit") = false ->
  lookupCommand name = Some cm -> proc cm = ExecProc ->
  (if maxmemory (conf s) then freeMemoryIfNeeded (dataset s) else (dataset s, false)) = (d, oom) ->
  refuse_early (conf s) cm (set_cmd (Some cm) c) = None ->
  refuse_late (conf s) oom cm (set_cmd (Some cm) c) = None ->
  (has_flag (Z.lor REDIS_DIRTY_CAS REDIS_DIRTY_EXEC) c = true ->
    exec_outcome (d, conf s) (set_cmd (Some cm) c) = Ok ((d, conf s), finished (addReply (set_cmd (Some cm) c)
      (if has_flag REDIS_DIRTY_EXEC c then shared_execaborterr else shared_nullmultibulk)))) /\
  match exec_outcome (d, conf s) (set_cmd (Some cm) c) with
  | Ok (w', c') => exists s' ks, processCommand s id = Ok (s', true) /\ effect id s c s' c' ks /\ data s' = w' /\
      (has_flag (Z.lor REDIS_DIRTY_CAS REDIS_DIRTY_EXEC) c = true -> dataset s' = d /\ ks = []) /\
      has_flag REDIS_MULTI c' = false /\ mstate c' = [] /\ watched_keys c' = []
  | _ => ~ returns (processCommand s id)
  end.
Proof.
  intros HL Hi Hc Hm Ha Hq El Hp Hmem Hr1 Hr2. unfold processCommand. rewrite (client_ok _ _ _ Hc).
  cbn [mbind outcome_bind]. rewrite Ha. cbn [head hd_error Proto.opt mbind outcome_bind].
  rewrite Hq, El. cbv zeta. rewrite Hr1, Hmem. change (conf (set_dataset d s)) with (conf s). rewrite Hr2.
  set (c1 := set_cmd (Some cm) c) in *. set (s1 := put id c1 (set_dataset d s)).
  assert (queued_in_multi cm c1 = false) as ->.
  { unfold queued_in_multi. rewrite Hp. by destruct (has_flag _ c1). }
  assert (effect id s c s1 c1 []) as He1.
  { eapply (effect_ext _ _ _ (put id c1 s)); [done..|]. by apply put_effect. }
  pose proof (ef_client _ _ _ _ _ _ He1) as Hc1.
  assert (has_flag (Z.lor REDIS_DIRTY_CAS REDIS_DIRTY_EXEC) c = true ->
    exec_outcome (d, conf s) c1 = Ok ((d, conf s), finished (addReply c1
      (if has_flag REDIS_DIRTY_EXEC c then shared_execaborterr else shared_nullmultibulk)))) as Hmark.
  { intros Hf. unfold exec_outcome. change (has_flag (Z.lor REDIS_DIRTY_CAS REDIS_DIRTY_EXEC) c1 = true) in Hf. by rewrite Hf. }
  split; [exact Hmark|]. pose proof (execCommand_spec 0 s1 id c1 HL (ef_inv _ _ _ _ _ _ He1) Hc1 Hm) as H.
  change (data s1) with (d, conf s) in H. change call_depth with 2%nat.
  destruct (exec_outcome (d, conf s) c1) as [[w' c']| |] eqn:Eo.
  2-3: intros Hret%returns_bind%(call_returns 1 s1 id c1 cm Hc1 eq_refl); rewrite Hp in Hret; by apply H.
  destruct H as (s2 & ks & Hr & He & Hd & Hk).
  destruct (call_effect_ok 1 s1 id c1 cm (fun s' c2 ks => data s' = w' /\ c2 = c' /\
    (has_flag (Z.lor REDIS_DIRTY_CAS REDIS_DIRTY_EXEC) c1 = true -> ks = []))) as (s' & ks' & c2 & Hr' & He' & _ & Hd' & -> & Hk').
  - done.
  - done.
  - rewrite Hp. exists s2, ks, c'. split_and!; [exact Hr|exact He| |done..|exact Hk].
    by rewrite (exec_outcome_cmd _ _ _ _ Eo).
  - intros sa sb c3 k E [E1 E2]. by rewrite E.
  - rewrite Hr'. cbn [mbind outcome_bind]. exists s', ks'.
    split; [done|]. split; [exact (effect_trans _ _ _ _ _ _ _ _ _ He1 He')|]. split; [done|].
    assert (exists c2, c' = finished c2) as [c2 ->].
    { unfold exec_outcome in Eo. destruct (has_flag _ c1) in Eo; [injection Eo as _ <-; by eexists|].
      cbv zeta in Eo. destruct (exec_spec _ _ _ _) as [[w3 c3]| |] in Eo; [|done..]. injection Eo as _ <-. by eexists. }
    split; [|split; [|done] ].
    + intros Hf. split; [|by apply Hk']. specialize (Hmark Hf). unfold data in Hd'. congruence.
    + unfold has_flag, finished. cbn. by rewrite <- Z.land_assoc, Z.land_0_r.
Qed.

(** ** The interface of the parser *)

(** The client that sent the command is stored, executes it, and is taken out again. *)
#[export] Instance server_processor : CommandProcessor server := {
  processCommand s c :=
    '(s, ok) ← processCommand (put (fd c) c s) (fd c);
    c ← client s (fd c);
    Ok (s, c, ok)
}.

Definition server_inv s c : Prop := multi_inv (put (fd c) c s).

(** Every command procedure returns. *)
Definition procs_return : Prop := forall p f d c, returns (run_command p f d c).

Lemma exec_spec_returns : procs_return -> forall q j w c, returns (exec_spec q j w c).
Proof.
  intros HP q. induction q as [|mc q IH]; intros j w c; [by eexists|]. cbn [exec_spec].
  assert (forall p c, returns (run_single p w c)) as Hs.
  { intros p c1. destruct (HP p w.2 w.1 c1) as [[[[[c2 sigs] dd] d] f] E].
    unfold run_single. rewrite E. by destruct p; eexists. }
  destruct (Hs (proc (mc_cmd mc)) (set_cmd (Some (mc_cmd mc)) (set_argv (mc_argv mc) c))) as [[w1 c1] ->]. apply IH.
Qed.

Lemma procs_command_returns s c : procs_return -> command_returns s c.
Proof.
  intros HP. unfold command_returns. destruct (verdict_of s c) as [| | |cm d]; [done..|].
  unfold proc_returns. destruct (proc cm); try done; try apply HP. intros _. unfold exec_outcome.
  destruct (has_flag _ _); [by eexists|]. cbv zeta.
  destruct (exec_spec_returns HP (mstate (set_cmd (Some cm) c)) 0 (d, conf s)
    (default (set_watched_keys [] (set_cmd (Some cm) c))
      (addReplyMultiBulkLen (set_watched_keys [] (set_cmd (Some cm) c)) (zlen (mstate (set_cmd (Some cm) c)))))) as [[w1 c1] ->].
  by eexists.
Qed.

Lemma procs_events_return s evs : procs_return -> events_return s evs.
Proof.
  intros HP. revert s. induction evs as [|ev evs IH]; intros s; [done|]. split; [|intros; apply IH].
  destruct ev; [done| |done..]. intros c _. by apply procs_command_returns.
Qed.

(** What the parser relies on, for one command. *)
Lemma processCommand_robust s c :
  CommandLaws -> server_inv s c -> argv c <> [] -> command_returns (put (fd c) c s) c ->
  exists s' c' ok, Proto.processCommand s c = Ok (s', c', ok) /\ querybuf c' = querybuf c /\
    server_inv s' c' /\ (ok = false -> Proto.closing c').
Proof.
  intros HL Hi Ha Hret. cbn [Proto.processCommand server_processor].
  assert (clients (put (fd c) c s) !! fd c = Some c) as Hc by apply lookup_insert_eq.
  destruct (processCommand_spec (put (fd c) c s) (fd c) c HL Hi Hc Ha Hret) as (s' & ok & Hr & Hp).
  destruct (processed_effect _ _ _ _ _ HL Hi Hc Hret Hp) as (c' & ks & He & Hok).
  exists s', c', ok. rewrite Hr. cbn [mbind outcome_bind].
  rewrite (client_ok _ _ c') by apply He. split; [done|].
  split; [apply He|]. split; [|exact Hok]. unfold server_inv.
  destruct (ci_fd _ _ (mi_client _ (ef_inv _ _ _ _ _ _ He) (fd c) c' (ef_client _ _ _ _ _ _ He))).
  apply put_inv with c'; [apply He|apply He| |done]. by apply He, He.
Qed.

(** C40: processCommand is what the parser relies on.  For a non-empty argument vector it adds no
    fault of its own: it returns whenever the command procedures that this command runs return
    (its own, or those of the transaction that EXEC executes), leaves the query buffer alone, asks
    for the end of the connection only when it closes the client, and keeps the invariant.  So
    where all the procedures return, it implements the parser's interface, and with the parser's
    safety no input of a client makes the server fault.  (Of the procedures modelled elsewhere
    some do fault on some inputs: LREM, HINCRBYFLOAT and the insertion into a ziplist, see the
    findings.) *)
Theorem multi_robust : CommandLaws ->
  (forall s c, server_inv s c -> argv c <> [] -> command_returns (put (fd c) c s) c ->
    exists s' c' ok, Proto.processCommand s c = Ok (s', c', ok) /\ querybuf c' = querybuf c /\
      server_inv s' c' /\ (ok = false -> Proto.closing c')) /\
  (procs_return -> Proto.robust server_inv).
Proof.
  intros HL. split; [intros s c Hi Ha Hret; by apply processCommand_robust|]. intros HP. split.
  - intros s c Hi _ Ha. apply processCommand_robust; [done..|]. by apply procs_command_returns.
  - intros s c c' Hi Hs.
    assert (clients (put (fd c) c s) !! fd c = Some c) as Hc by apply lookup_insert_eq.
    assert (fd c' = fd c /\ watched_keys c' = watched_keys c /\ client_inv (fd c) c') as (E1 & E2 & Hci).
    { pose proof (mi_client _ Hi _ c Hc) as Hci. destruct Hs as [c' ->|c' Ho|].
      - split_and!; [done..|]. destruct Hci. by split.
      - split_and!; [by rewrite Ho..|]. by eapply keeps_inv, Hci; apply out_keeps.
      - split_and!; [done..|]. by apply or_flags_inv. }
    unfold server_inv. rewrite E1. pose proof (put_inv _ _ _ c' Hi Hc Hci E2) as H.
    unfold put in H. cbn in H. by rewrite insert_insert_eq in H.
  - intros s c Hi. assert (clients (put (fd c) c s) !! fd c = Some c) as Hc by apply lookup_insert_eq.
    pose proof (reset_keeps c) as Hk. unfold server_inv. rewrite (ke_fd _ _ Hk).
    pose proof (put_inv _ _ _ (Proto.resetClient c) Hi Hc) as H. unfold put in H. cbn in H.
    rewrite insert_insert_eq in H. apply H; [|by apply Hk]. by eapply keeps_inv, Hi.
Qed.

Lemma run_inv evs : forall s, CommandLaws -> multi_inv s -> events_return s evs -> exists s', run evs s = Ok s' /\ multi_inv s'.
Proof.
  induction evs as [|ev evs IH]; intros s HL Hi Hret; [by exists s|]. cbn [run]. destruct Hret as [Hret1 Hret].
  destruct (do_event_inv s ev HL Hi Hret1) as (s1 & ks & E & Hi1 & _). rewrite E. cbn [mbind outcome_bind]. by apply IH; [..|apply Hret].
Qed.

Lemma put_argv_inv id s c a :
  multi_inv s -> clients s !! id = Some c -> multi_inv (put id (set_argv a c) s).
Proof. intros Hi Hc. by eapply ef_inv, put_effect. Qed.

(** The server before the first connection. *)
Definition initServer (d : D) (f : serverConf) : server := mkServer d ∅ ∅ f 0 [] [].

Lemma init_inv d f : multi_inv (initServer d f).
Proof.
  split; cbn; [by intros id c; rewrite lookup_empty|by intros k l; rewrite lookup_empty|].
  intros k id. rewrite !lookup_empty. split; [by inversion 1|]. by intros (c & ? & _).
Qed.

(** The state after some events. *)
Definition after (evs : list event) s : server :=
  match run evs s with Ok s => s | _ => s end.

Lemma after_inv evs s : CommandLaws -> procs_return -> multi_inv s -> multi_inv (after evs s).
Proof.
  intros HL HP Hi. unfold after. by destruct (run_inv evs s HL Hi (procs_events_return s evs HP)) as (s' & -> & Hi').
Qed.

End Multi.

(** ** A small instance

    A dataset of strings with a command that writes, one that does not, and one that turns the
    server into a read only slave. *)
Definition plain_conf : serverConf :=
  mkConf false false false false false false false false false false false.

Definition slave_conf : serverConf :=
  mkConf false false false false false true true true true false false.

Definition kv : Type := list (list Z * list Z).

#[local] Instance kv_procs : CommandProcs kv := {
  redisCommandTable :=
    [mkCommand (str "multi") MultiProc 1 0; mkCommand (str "exec") ExecProc 1 0;
     mkCommand (str "watch") WatchProc (-2) 0; mkCommand (str "unwatch") UnwatchProc 1 0;
     mkCommand (str "set") (OtherProc 0) 3 REDIS_CMD_WRITE;
     mkCommand (str "get") (OtherProc 1) 2 REDIS_CMD_READONLY;
     mkCommand (str "slaveof") (OtherProc 2) 3 0];
  dict_hash_function_seed := 5381;
  commands_sizemask := 255;
  freeMemoryIfNeeded d := (d, false);
  exists_key d _ k := bool_decide (k ∈ d.*1);
  run_command p f d c :=
    match p, argv c with
    | OtherProc 0, [_; k; v] => Ok (addReply c shared_ok, [ModifiedKey (db c) k], 1, (k, v) :: d, f)
    | OtherProc 2, _ => Ok (addReply c shared_ok, [], 0, d, slave_conf)
    | _, _ => Ok (addReply c shared_nullbulk, [], 0, d, f)
    end
}.

Lemma kv_cases p f d c : exists m sigs dd d' f', run_command p f d c = Ok (addReply c (SetType.RRaw m), sigs, dd, d', f').
Proof.
  cbn. repeat match goal with |- context [match ?x with _ => _ end] => is_var x; destruct x end; try by eexists _, _, _, _, _.
  all: destruct (argv c) as [|? [|? [|? []]]]; by eexists _, _, _, _, _.
Qed.

#[local] Instance kv_laws : CommandLaws.
Proof.
  split.
  - intros p f d c c' sigs dd d' f' H. destruct (kv_cases p f d c) as (m & ? & ? & ? & ? & E). rewrite E in H.
    injection H as <- _ _ _ _. apply out_keeps, reply_out.
  - intros p f d c c' sigs dd d' f' cm H Hc Hn. destruct (kv_cases p f d c) as (m & ? & ? & ? & ? & E). rewrite E in H.
    injection H as <- _ _ _ _. exists cm. by rewrite reply_cmd.
Qed.

Lemma kv_return : procs_return.
Proof. intros p f d c. destruct (kv_cases p f d c) as (m & ? & ? & ? & ? & E). by eexists. Qed.

Definition set_cmdline (id : Z) (k v : string) : event := Command id (str "SET") [str k; str v].

(** Client 5 watches the key [k] and starts a transaction. *)
Definition kv_start : @server kv :=
  after [Connect 5; Connect 6; Command 5 (str "WATCH") [str "k"]; Command 5 (str "multi") []]
    (initServer [] plain_conf).

Definition kv_client (s : @server kv) (id : Z) : redisClient := default (createClient id) (clients s !! id).

Lemma kv_start_inv : multi_inv kv_start.
Proof. apply after_inv, init_inv; [apply kv_laws|apply kv_return]. Qed.

(** Another client touches the watched key and makes the server a slave, which refuses the write
    that follows. *)
Definition kv_events : list event :=
  [set_cmdline 5 "k" "1"; set_cmdline 6 "k" "2"; Command 6 (str "slaveof") [str "h"; str "p"];
   set_cmdline 5 "j" "3"; Command 5 (str "get") [str "k"] ].


Example kv_verdicts :
  verdicts 5 kv_start kv_events =
    [Queues (mkMultiCmd [str "SET"; str "k"; str "1"] (mkCommand (str "set") (OtherProc 0) 3 REDIS_CMD_WRITE));
     Refuses false;
     Queues (mkMultiCmd [str "get"; str "k"] (mkCommand (str "get") (OtherProc 1) 2 REDIS_CMD_READONLY))].
Proof. vm_compute. reflexivity. Qed.

(** The client is about to execute EXEC. *)
Definition kv_exec_state (evs : list event) : @server kv :=
  let s := after evs kv_start in put 5 (set_argv [str "EXEC"] (kv_client s 5)) s.

Lemma exec_all_or_nothing_witness :
  let s := kv_exec_state [set_cmdline 5 "k" "1"; set_cmdline 5 "j" "2"] in
  let c := kv_client s 5 in
  let cm := mkCommand (str "exec") ExecProc 1 0 in
  exists s' ks c', processCommand s 5 = Ok (s', true) /\ effect 5 s c s' c' ks /\
    dataset s' = [(str "j", str "2"); (str "k", str "1")] /\
    has_flag REDIS_MULTI c' = false /\ mstate c' = [] /\ watched_keys c' = [].
Proof.
  intros s c cm. destruct (exec_all_or_nothing s 5 c cm (str "EXEC") [] [] false) as [_ H].
  - apply kv_laws.
  - apply put_argv_inv.
    + apply after_inv, kv_start_inv; [apply kv_laws|apply kv_return].
    + vm_compute. reflexivity.
  - vm_compute. reflexivity.
  - vm_compute. reflexivity.
  - vm_compute. reflexivity.
  - vm_compute. reflexivity.
  - vm_compute. reflexivity.
  - reflexivity.
  - vm_compute. reflexivity.
  - vm_compute. reflexivity.
  - vm_compute. reflexivity.
  - match type of H with match ?x with _ => _ end => destruct x as [[w' c']| |] eqn:E; [|vm_compute in E; discriminate E..] end.
    assert (w'.1 = [(str "j", str "2"); (str "k", str "1")]) as Hw.
    { vm_compute in E. injection E as <- _. reflexivity. }
    clear E. clearbody s. destruct H as (s' & ks & Hr & He & Hd & _ & H1 & H2 & H3). exists s', ks, c'.
    split; [exact Hr|]. split; [exact He|]. split; [|split; [exact H1|split; [exact H2|exact H3] ] ].
    change (dataset s') with (data s').1. rewrite Hd. exact Hw.
Defined.

Lemma multi_robust_witness : Proto.robust (@server_inv kv).
Proof. apply multi_robust; [apply kv_laws|apply kv_return]. Defined.

(** The answers of EXEC on the wire. *)
Example exec_answers :
  let exec evs := match run (evs ++ [Command 5 (str "EXEC") []]) kv_start with
                  | Ok s => (dataset s, pending (kv_client s 5)) | _ => ([], []) end in
  exec [set_cmdline 5 "k" "1"; Command 5 (str "get") [str "k"]] =
    ([(str "k", str "1")],
     str "+OK" ++ crlf ++ str "+OK" ++ crlf ++ str "+QUEUED" ++ crlf ++ str "+QUEUED" ++ crlf ++
     str "*2" ++ crlf ++ str "+OK" ++ crlf ++ str "$-1" ++ crlf) /\
  exec [set_cmdline 5 "k" "1"; set_cmdline 6 "k" "2"] =
    ([(str "k", str "2")],
     str "+OK" ++ crlf ++ str "+OK" ++ crlf ++ str "+QUEUED" ++ crlf ++ str "*-1" ++ crlf).
Proof. vm_compute. by split. Qed.

(** A read only slave refuses a write inside a transaction without flagging it: EXEC runs the
    rest of the queue, although every error while queueing is meant to make it fail. *)
Example read_only_refusal_not_flagged :
  let f := slave_conf in
  match run [Connect 5; Command 5 (str "multi") []; set_cmdline 5 "k" "1";
             Command 5 (str "get") [str "k"]; Command 5 (str "exec") []] (@initServer kv [] f) with
  | Ok s => pending (kv_client s 5) =
      str "+OK" ++ crlf ++ str "-READONLY You can't write against a read only slave." ++ crlf ++
      str "+QUEUED" ++ crlf ++ str "*1" ++ crlf ++ str "$-1" ++ crlf
  | _ => False
  end.
Proof. vm_compute. reflexivity. Qed.

End Multi.
